(* ===== verification/_CoqProject ===== *)
-Q . S2P
Prelude.v
Common.v
Codec.v
Sha256.v
Config.v
Policy.v
PolicyDigest.v
Http.v
HttpFacts.v
HttpAcceptance.v
HttpAuth.v
Socks.v
ClientHello.v
Receipt.v
Journal.v
Buffer.v
CliText.v
Server.v
Connection.v
Relay.v
Admin.v
Listener.v
Reactor.v
Invariant.v
ConnectionFacts.v
RelayFacts.v
OwnerFacts.v
System.v
Lifecycle.v
Scenario.v
ConfigFile.v
ConfigFileFacts.v
ConfigTheorems.v
Profile.v
ChannelServer.v
Client.v
ClientOpen.v
ChannelBroker.v
BrokerFacts.v
BrokerTheorems.v
BrokerLife.v
Daemon.v
DaemonTheorems.v
Tls.v
TlsProviders.v
Mbedtls.v
Wolfssl.v
TlsTheorems.v
Sdk.v
SdkTheorems.v
Events.v
EventTheorems.v
Coordinator.v
ChannelExec.v
