(* ===== verification/Prelude.v ===== *)
(** Verification of maelys-egress, an egress proxy.

    * The program

    A sealed policy says which destinations may be reached.  A server
    (src/server) accepts clients over TCP, TLS or a Unix socket, speaks HTTP
    CONNECT, HTTP forward and SOCKS5, authenticates the client, connects to the
    pinned addresses of an allowed destination, checks the TLS server name of
    the first bytes where the destination asks for it, relays bytes under
    quotas, and writes a receipt for every connection to a sink and to a chained
    audit journal.  Connectors open the same connections for threads of the
    embedding process; a channel (src/channel_server.c) offers them to a confined
    process over a pair of datagram sockets, a broker (src/channel_broker.c) hands
    channels out over a Unix socket, and a client library (client/) is the other
    end of both.  Two providers (providers/) put TLS libraries behind the seam the
    server uses (src/core/tls.c).  The command line (cli/) loads a configuration
    file, builds a policy and a server from it, reloads the policy on a signal,
    and runs the server as a proxy, as a broker, or for one program.  The SDKs
    (sdk/) of Python and Node.js write such a file, start the command line and
    follow its lifecycle stream.

    * The files

    Prelude            bytes, machine integers, lists, big-endian numbers, the
                       record update notation and the tactics of the library
    Common             src/core/common.c: hosts, private addresses, secrets
    Codec              src/core/channel.c, src/core/bootstrap_codec.c: wire formats
    Sha256             src/core/sha256.c, the HMAC of src/audit.c
    Config             src/config.c and the credential lookups of src/core/http.c
    Policy             src/core/policy.c;  PolicyDigest its digest
    Http               src/core/http.c;  HttpFacts, HttpAcceptance, HttpAuth its theorems
    Socks              src/core/socks.c
    ClientHello        src/core/clienthello.c
    Receipt            src/core/receipt.c, src/core/attestor.c, the accessors of src/config.c
    Journal            src/audit.c
    Buffer             the buffers and tokens of src/server/internal.h
    Server             the state of src/server/internal.h, src/server/quota.c
    Connection         src/server/connection.c, receipt.c and the completion of connector.c
    Relay              src/server/relay.c
    Admin              src/server/admin.c
    Listener           src/server/listener.c
    Reactor            src/server/server.c, src/server/connector.c, src/connector.c
    Invariant, ConnectionFacts, RelayFacts, OwnerFacts
                       the invariant of the server and its preservation
    System, Lifecycle  the server as a transition system, and its theorems
    Scenario           a server in a scripted world, for the closed examples
    ConfigFile         cli/config_catalog.c, cli/config_file.c, cli/secrets.c;
                       ConfigFileFacts and ConfigTheorems their theorems
    Profile            src/core/profile.c
    ChannelServer      src/channel_server.c
    Client             client/client.c, client/channel_open.c;  ClientOpen theorems
    ChannelBroker      src/channel_broker.c;  BrokerFacts, BrokerTheorems its theorems
    BrokerLife         the creation, the run and the destruction of a broker
    Daemon             the policy, the configuration and the server of a file and its
                       reload (cli/serve.c, cli/reload.c, cli/commands.c);
                       DaemonTheorems its theorems
    CliText            the text of a report (cli/commands.c)
    Coordinator        cli/channel_broker.c and the gate of cli/output.c
    ChannelExec        cli/channel_exec.c
    Tls                src/core/tls.c, providers/socket_io.c
    TlsProviders       what the providers share;  Mbedtls providers/tls_mbedtls.c,
                       Wolfssl providers/tls_wolfssl.c, TlsTheorems their theorems
    Sdk                the configuration, the trust in a binary, the framing and the
                       retention of both SDKs;  SdkTheorems their theorems
    Events             the events of cli/output.c, the end of cli/serve.c, and what
                       the SDKs read of them and of the operations listener;
                       EventTheorems their theorems

    * The conventions of the models

    A byte and every integer is a Z, a byte string a list of them, with the
    width of the C type written out where a computation can leave it ([u8],
    [u16], [u32], [u64]).  A C string is the list of its bytes before the NUL.  A
    structure is a record, an enumeration an inductive type, and a function has
    the name it has in the source; output parameters are returned, a pointer that
    may be NULL is an [option], and every other pointer is assumed not to be.  The
    texts of errors are not modelled, their codes are.  The outcome of an
    allocation is an argument or an answer of the environment.  [qsort] is a
    merge sort.

    What is not in the repository is a parameter: libc and the kernel, the system
    library maelys-system, the command-line framework and the TLS libraries are
    the classes [Inet], [Resolver], [Fs], [Sys], [ListenSys], [Cli], [ChannelSys],
    [BrokerSys], [HostSys], [CoordSys], [ExecSys], [TlsSys] and [TlsLib], and where
    a theorem needs what the contract of such a call promises it is a named law
    ([InetLaws], [SysLaws], [CliLaws], [ChannelLaws], [BrokerLaws], [CoordLaws],
    [ExecLaws], [TlsSysLaws], [TlsLibLaws], [JsonLaws]) with a concrete instance
    beside the theorem.  Stateful code is a state monad over its structure, an unknown world and a trace that no
    program reads; the trace is what theorems speak of, and it may carry what no
    byte of the program shows, such as the principal a receipt is charged to or
    the name a TLS session was set up with.  Threads that share state are separate
    programs, interleaved at the points where the source takes a lock or uses an
    atomic; the thread that runs the server is one program, and other threads
    reach its state only between its actions, through the commands and the
    reloads it looks for there.

    * What the theorems show

    Confinement: every connection a server makes upstream goes to a pinned
    address of the policy that was current when the client was admitted, after
    the authentication the configuration asks for, and where a server name is
    required no byte passes before a ClientHello that names the destination
    ([egress_confined]).  Exactness of the parsers: the requests, frames and
    ClientHellos accepted are given by encoders ([http_accepts_exactly],
    [socks_request_exact], [client_hello_exact]), forwarded requests are well
    framed ([http_forward_well_framed]), and the principal is the one whose
    credentials were shown ([http_authenticated], [socks_authenticated]).
    Relaying: bytes arrive in order, none lost or made up ([relay_exact]), within
    the quotas of the connection and of the principal, whose use is exactly the
    bytes that crossed ([quotas_exact]); every connection gets one receipt, which
    tells what happened: the bytes, the address connected to, the use
    ([receipts_complete], [receipts_faithful]); the counters are exact
    ([counts_exact]).  Lifecycle: the loop of the server is made of the steps of
    the transition system ([run_refines_steps]), a run that ends
    leaves nothing open ([run_ends_clean]), deadlines are kept ([expiry_exact]),
    an event touches only its connection ([event_isolated]).  Data: policies and
    configurations built by any sequence of calls are consistent and behave as
    the maps they describe, digests identify policies, the journal is an
    append-only chain that reopening verifies.  Configuration files: the loader
    accepts exactly the strict grammar ([settings_load_exact]), what it returns
    is well typed and meets the requirements its catalog publishes, those of
    [require_client_cert] excepted ([settings_load_typed]), and every well-typed
    settings has a file ([settings_roundtrip]).  Channels: a request is answered once, with a stream
    exactly on success ([serve_one_exact]); descriptors never leak
    ([channel_run_balanced], [client_connect_exact], [channel_open_exact]); a
    client learns exactly what the connector said ([channel_end_to_end]) and
    waits no longer than it was told ([await_response_ends]); the
    broker keeps the protocol of each seat ([broker_refines_protocol]), is created
    behind a private directory or not at all ([broker_create_exact]) and
    releases everything ([broker_releases_all], [broker_life_balanced]).  The
    daemon: what is prepared from a file is what the file says ([prepare_exact]),
    a server is not started, or listens where its file says and beyond loopback
    only with TLS and authentication ([daemon_exposure]),
    and through every reload a connection goes only where a file in force says
    ([daemon_confined]); the commands of the channel end in order, whatever the
    interleaving ([channel_run_orderly], [channel_exec_exact]).  TLS: the
    transfers of both providers keep the contract of the seam, a truncated stream
    being reported as closed ([seam_kept]), descriptors on the transport end a
    session for good ([poison_final]), certificates are asked for where the files
    say so, and a client names its peer to the library ([certificates_required]).  SDKs: a configuration they accept is
    the one the daemon loads ([sdk_config_loads]), but for the IPv6 loopback
    ([sdk_ipv6_refused]); a binary is trusted only when no one else may replace it
    ([binary_trust_exact]); the stream may be cut anywhere ([lifecycle_chunks]),
    its ready event is understood ([sdk_sees_ready]), and a replacement of the
    destinations is seen through to its generation ([sdk_replaces]).

    * Fuel

    Recursion that is not structural runs on fuel, and the bound given by the
    caller of each such function is proved enough or is the length of the input:
    a component of a path or a line of a file costs at least a byte, an update
    of the hash a block.  The loops of threads take the number of turns as an
    argument; a result before the loop has ended is a value of its own, and the
    theorems hold for every number of turns.

    * Not modelled

    The libraries themselves: libc, the kernel, maelys-system, the command-line
    framework with its JSON writer and its parser of arguments, the TLS libraries,
    and the runtimes of the SDKs.  The texts of errors, the zeroing of secrets and
    the frees that change no value a caller sees.  Of the command line, the tables
    of commands and of translations (cli/main.c, cli/languages.c), which only the
    framework interprets, the JSON of the reports of [config validate] and
    [config describe], and the choice of a TLS module by the preprocessor
    (cli/tls_listener.c), which is an argument here.  Of the SDKs, the start and
    the end of the process and the requests over HTTP: calls of the runtime with
    its threads, promises and deadlines.  The examples, the tests, the tools and
    the packaging. *)

From Stdlib Require Export ZArith Lia Bool.
From stdpp Require Export prelude strings list list_numbers sorting.

#[export] Set Default Proof Using "Type".
#[global] Open Scope Z_scope.

(** * Bytes and machine integers *)

(** A byte string. A C string is the list of its bytes before the NUL. *)
Abbreviation bytes := (list Z).

Definition is_byte (z : Z) : Prop := 0 <= z < 256.
Definition is_u16 (z : Z) : Prop := 0 <= z < 2 ^ 16.
Definition is_u32 (z : Z) : Prop := 0 <= z < 2 ^ 32.
Definition is_u64 (z : Z) : Prop := 0 <= z < 2 ^ 64.

(** Conversions to an unsigned type of the given width. *)
Definition u8 (z : Z) : Z := z mod 2 ^ 8.
Definition u16 (z : Z) : Z := z mod 2 ^ 16.
Definition u32 (z : Z) : Z := z mod 2 ^ 32.
Definition u64 (z : Z) : Z := z mod 2 ^ 64.

Definition UINT64_MAX : Z := 2 ^ 64 - 1.
Definition INT_MAX : Z := 2 ^ 31 - 1.
(** [size_t] is 64 bits wide on every supported platform. *)
Definition SIZE_MAX : Z := 2 ^ 64 - 1.

(** The length of a buffer, as the [size_t] the code computes with. *)
Definition len {A} (l : list A) : Z := Z.of_nat (length l).

(** The first [n] bytes and what follows them, [n] a [size_t]. *)
Definition ztake {A} (n : Z) (l : list A) : list A := take (Z.to_nat n) l.
Definition zdrop {A} (n : Z) (l : list A) : list A := drop (Z.to_nat n) l.

(** The byte at an offset; reading past the end is never done by code whose
    guards are proved here, and yields 0. *)
Definition at_ (l : bytes) (i : Z) : Z := nth (Z.to_nat i) l 0.

(** String literals as bytes. *)
Fixpoint str (s : string) : bytes :=
  match s with
  | EmptyString => []
  | String c s => Z.of_N (Ascii.N_of_ascii c) :: str s
  end.

#[global] Arguments str _%_string : simpl never.

(** Character constants, named as the code writes them. *)
Abbreviation c_htab := 9 (only parsing).
Abbreviation c_lf := 10 (only parsing).
Abbreviation c_cr := 13 (only parsing).
Abbreviation c_space := 32 (only parsing).
Abbreviation c_dquote := 34 (only parsing).
Abbreviation c_hash := 35 (only parsing).
Abbreviation c_percent := 37 (only parsing).
Abbreviation c_plus := 43 (only parsing).
Abbreviation c_minus := 45 (only parsing).
Abbreviation c_dot := 46 (only parsing).
Abbreviation c_slash := 47 (only parsing).
Abbreviation c_0 := 48 (only parsing).
Abbreviation c_9 := 57 (only parsing).
Abbreviation c_colon := 58 (only parsing).
Abbreviation c_eq := 61 (only parsing).
Abbreviation c_question := 63 (only parsing).
Abbreviation c_at := 64 (only parsing).
Abbreviation c_A := 65 (only parsing).
Abbreviation c_F := 70 (only parsing).
Abbreviation c_X := 88 (only parsing).
Abbreviation c_Z := 90 (only parsing).
Abbreviation c_lbracket := 91 (only parsing).
Abbreviation c_backslash := 92 (only parsing).
Abbreviation c_rbracket := 93 (only parsing).
Abbreviation c_underscore := 95 (only parsing).
Abbreviation c_a := 97 (only parsing).
Abbreviation c_f := 102 (only parsing).
Abbreviation c_x := 120 (only parsing).
Abbreviation c_z := 122 (only parsing).
Abbreviation c_tilde := 126 (only parsing).

Definition in_range (lo hi z : Z) : bool := (lo <=? z) && (z <=? hi).
Definition is_upper : Z -> bool := in_range c_A c_Z.
Definition is_lower : Z -> bool := in_range c_a c_z.
Definition is_digit : Z -> bool := in_range c_0 c_9.
Definition is_alnum (z : Z) : bool := is_upper z || is_lower z || is_digit z.

(** [tolower] in the C locale. *)
Definition lower (z : Z) : Z := if is_upper z then z + 32 else z.

(** * The string functions of the C library the sources use *)

Fixpoint beq (a b : bytes) : bool :=
  match a, b with
  | [], [] => true
  | x :: a, y :: b => (x =? y) && beq a b
  | _, _ => false
  end.

(** [memchr] and, on a C string and a non-NUL character, [strchr]. *)
Fixpoint index_of (c : Z) (s : bytes) : option nat :=
  match s with
  | [] => None
  | x :: s => if x =? c then Some 0%nat else S <$> index_of c s
  end.

Definition has_char (c : Z) (s : bytes) : bool := existsb (Z.eqb c) s.

(** [strrchr]. *)
Fixpoint last_index_of (c : Z) (s : bytes) : option nat :=
  match s with
  | [] => None
  | x :: s =>
      match last_index_of c s with
      | Some i => Some (S i)
      | None => if x =? c then Some 0%nat else None
      end
  end.

Fixpoint prefixb (p s : bytes) : bool :=
  match p, s with
  | [], _ => true
  | x :: p, y :: s => (x =? y) && prefixb p s
  | _, _ => false
  end.

(** [strstr] on C strings: the first offset at which [needle] occurs. *)
Fixpoint find_sub (needle hay : bytes) : option nat :=
  if prefixb needle hay then Some 0%nat
  else match hay with
       | [] => None
       | _ :: hay => S <$> find_sub needle hay
       end.

(** The C string that starts at the head of a buffer: the bytes before the
    first NUL. *)
Fixpoint cstr (s : bytes) : bytes :=
  match s with
  | [] => []
  | x :: s => if x =? 0 then [] else x :: cstr s
  end.

(** [strcmp], by unsigned bytes. *)
Fixpoint strcmp (a b : bytes) : comparison :=
  match a, b with
  | [], [] => Eq
  | [], _ :: _ => Lt
  | _ :: _, [] => Gt
  | x :: a, y :: b => match x ?= y with Eq => strcmp a b | c => c end
  end.

(** [strcasecmp] and [strncasecmp], as the equality the sources test. *)
Definition strcaseeq (a b : bytes) : bool := beq (map lower a) (map lower b).
Definition strncaseeq (a b : bytes) (n : nat) : bool :=
  beq (map lower (take n a)) (map lower (take n b)).

(** [snprintf(buffer, capacity, "%s", s)]: at most [capacity - 1] bytes. *)
Definition snprintf_s (capacity : Z) (s : bytes) : bytes := ztake (capacity - 1) s.

(** Decimal rendering of a non-negative integer: [%u], [%llu] and [%d]. *)
Fixpoint decimal_fuel (fuel : nat) (n : Z) (acc : bytes) : bytes :=
  match fuel with
  | O => acc
  | S fuel =>
      let acc := (c_0 + n mod 10) :: acc in
      if n <? 10 then acc else decimal_fuel fuel (n / 10) acc
  end.
(** Twenty digits hold every 64-bit value. *)
Definition decimal (n : Z) : bytes := decimal_fuel 20 n [].

Definition is_some {A} (o : option A) : bool := if o then true else false.

(** * Results of the public interface *)

Inductive maelys_egress_result_t :=
| MAELYS_EGRESS_OK
| MAELYS_EGRESS_ERR_ARGUMENT
| MAELYS_EGRESS_ERR_MEMORY
| MAELYS_EGRESS_ERR_STATE
| MAELYS_EGRESS_ERR_IO
| MAELYS_EGRESS_ERR_DENIED
| MAELYS_EGRESS_ERR_PROTOCOL
| MAELYS_EGRESS_ERR_TIMEOUT
| MAELYS_EGRESS_ERR_CANCELLED
| MAELYS_EGRESS_ERR_UNSUPPORTED
| MAELYS_EGRESS_ERR_CRYPTO.

#[export] Instance result_eq_dec : EqDecision maelys_egress_result_t.
Proof. solve_decision. Defined.

Inductive maelys_egress_protocol_t :=
| MAELYS_EGRESS_PROTOCOL_NONE
| MAELYS_EGRESS_PROTOCOL_HTTP_CONNECT
| MAELYS_EGRESS_PROTOCOL_HTTP_FORWARD
| MAELYS_EGRESS_PROTOCOL_SOCKS5
| MAELYS_EGRESS_PROTOCOL_CONNECTOR.

#[export] Instance protocol_eq_dec : EqDecision maelys_egress_protocol_t.
Proof. solve_decision. Defined.

Inductive maelys_egress_quota_scope_t :=
| MAELYS_EGRESS_QUOTA_NONE
| MAELYS_EGRESS_QUOTA_ACTIVE_CONNECTIONS
| MAELYS_EGRESS_QUOTA_CONNECTION_BYTES
| MAELYS_EGRESS_QUOTA_EXECUTION_BYTES.

#[export] Instance quota_scope_eq_dec : EqDecision maelys_egress_quota_scope_t.
Proof. solve_decision. Defined.

(** * Shared lemmas *)

Create HintDb egress discriminated.
Create Rewrite HintDb len.

(** Turns boolean tests in hypotheses and goal into propositions. *)
Ltac bool_simp :=
  repeat match goal with
  | H : _ && _ = true |- _ => apply andb_true_iff in H as [? ?]
  | H : _ || _ = false |- _ => apply orb_false_iff in H as [? ?]
  | H : negb _ = true |- _ => apply negb_true_iff in H
  | H : negb _ = false |- _ => apply negb_false_iff in H
  | H : (_ =? _) = true |- _ => apply Z.eqb_eq in H
  | H : (_ =? _) = false |- _ => apply Z.eqb_neq in H
  | H : (_ <? _) = true |- _ => apply Z.ltb_lt in H
  | H : (_ <? _) = false |- _ => apply Z.ltb_ge in H
  | H : (_ <=? _) = true |- _ => apply Z.leb_le in H
  | H : (_ <=? _) = false |- _ => apply Z.leb_gt in H
  | H : bool_decide _ = true |- _ => apply bool_decide_eq_true in H
  | H : bool_decide _ = false |- _ => apply bool_decide_eq_false in H
  | H : (_ >? _) = true |- _ => rewrite Z.gtb_ltb in H
  | H : (_ >? _) = false |- _ => rewrite Z.gtb_ltb in H
  | H : (_ >=? _) = true |- _ => rewrite Z.geb_leb in H
  | H : (_ >=? _) = false |- _ => rewrite Z.geb_leb in H
  end.

(** * Record update

    [r <| field := v |>] is [r] with one field assigned, as [r.field = v]
    leaves a C structure.  An instance of [Eta] spells a record out field by
    field; the update is read off it. *)

Declare Scope update_scope.
Delimit Scope update_scope with update.
#[global] Open Scope update_scope.

Class Eta (R : Type) := eta : R -> R.
Class Update {R T : Type} (field : R -> T) := update : (T -> T) -> R -> R.

Ltac solve_update :=
  match goal with
  | |- @Update ?R ?T ?field =>
      let i := constr:(_ : Eta R) in
      let e := eval hnf in i in
      let p := eval pattern field in e in
      match p with
      | ?k _ => exact (fun g r => k (fun r' => g (field r')) r)
      end
  end.

#[global] Hint Extern 1 (Update _) => solve_update : typeclass_instances.

Notation "r <| field := v |>" := (update (field := field) (fun _ => v) r)
  (at level 12, left associativity, format "r  <| field  :=  v |>") : update_scope.

(** Case analysis on the guards of a definition, in the order the code has
    them, discharging the branches that contradict a hypothesis. *)
Ltac guards :=
  repeat (case_match; simplify_eq/=).

(** [lia] with quotients and remainders by constants. *)
Ltac zlia := Z.to_euclidean_division_equations; lia.

(** [Forall] over a literal list. *)
Ltac forall_list := repeat (apply Forall_cons_2; [done|]); apply Forall_nil_2.

Lemma beq_spec (a b : bytes) : beq a b = true <-> a = b.
Proof.
  revert b. induction a as [|x a IH]; intros [|y b]; simpl; try (split; congruence).
  rewrite andb_true_iff, Z.eqb_eq, IH. split; [intros [-> ->]; done|].
  intros [= -> ->]; done.
Qed.

Lemma beq_refl (a : bytes) : beq a a = true.
Proof. by apply beq_spec. Qed.

Lemma beq_false (a b : bytes) : beq a b = false <-> a <> b.
Proof. rewrite <-beq_spec. destruct (beq a b); split; congruence. Qed.

Lemma existsb_false_Forall {A} (f : A -> bool) l :
  existsb f l = false <-> Forall (fun x => f x = false) l.
Proof.
  induction l as [|x l IH]; simpl; [split; [constructor|done]|].
  rewrite orb_false_iff, Forall_cons. naive_solver.
Qed.

Lemma forallb_Forall {A} (f : A -> bool) l :
  forallb f l = true <-> Forall (fun x => f x = true) l.
Proof.
  induction l as [|x l IH]; simpl; [by split; [constructor|]|].
  by rewrite andb_true_iff, Forall_cons, IH.
Qed.

Lemma prefixb_spec (p s : bytes) : prefixb p s = true <-> exists t, s = p ++ t.
Proof.
  revert s. induction p as [|x p IH]; intros s; simpl; [split; [eauto|done]|].
  destruct s as [|y s]; [split; [done|intros [t [=]]]|].
  rewrite andb_true_iff, Z.eqb_eq, IH. split.
  - intros [-> [t ->]]; eauto.
  - intros [t [= -> ->]]; eauto.
Qed.

Lemma prefixb_app (p t : bytes) : prefixb p (p ++ t) = true.
Proof. apply prefixb_spec; eauto. Qed.

(** The two directions in which a first occurrence is used. *)
Lemma find_sub_Some needle hay i :
  find_sub needle hay = Some i ->
  exists t, hay = take i hay ++ needle ++ t /\ (i + length needle <= length hay)%nat.
Proof.
  revert i. induction hay as [|x hay IH]; intros i H; simpl in H.
  - destruct (prefixb needle []) eqn:E; simplify_eq.
    apply prefixb_spec in E as [t E]. exists t. split; [done|].
    destruct needle; simpl in *; [lia|done].
  - destruct (prefixb needle (x :: hay)) eqn:E; simplify_eq.
    + apply prefixb_spec in E as [t E]. exists t. split; [done|].
      rewrite E, length_app; lia.
    + apply fmap_Some in H as (j & Hj & ->).
      destruct (IH _ Hj) as (t & Ht & Hl). exists t. simpl. split; [by f_equal|lia].
Qed.

Lemma find_sub_first needle hay i j :
  find_sub needle hay = Some i -> (j < i)%nat -> prefixb needle (drop j hay) = false.
Proof.
  revert i j. induction hay as [|x hay IH]; intros i j H Hj; simpl in H.
  - destruct (prefixb needle []); simplify_eq. lia.
  - destruct (prefixb needle (x :: hay)) eqn:E; simplify_eq; [lia|].
    apply fmap_Some in H as (k & Hk & ->).
    destruct j; [done|]. simpl. eapply IH; [done|lia].
Qed.

Lemma find_sub_None needle hay :
  find_sub needle hay = None -> forall j, prefixb needle (drop j hay) = false.
Proof.
  induction hay as [|x hay IH]; intros H j; simpl in H.
  - destruct (prefixb needle []) eqn:E; simplify_eq. by rewrite drop_nil.
  - destruct (prefixb needle (x :: hay)) eqn:E; simplify_eq.
    destruct j; [done|]. simpl. apply IH. by destruct (find_sub needle hay).
Qed.

Lemma index_of_Some c s i :
  index_of c s = Some i ->
  s = (take i s ++ c :: drop (S i) s) /\ (c ∉ take i s) /\ (i < length s)%nat.
Proof.
  revert i. induction s as [|x s IH]; intros i H; simpl in H; [done|].
  destruct (Z.eqb_spec x c) as [->|Hne]; simplify_eq/=.
  - split_and!; [by rewrite drop_0|apply not_elem_of_nil|lia].
  - apply fmap_Some in H as (j & Hj & ->). destruct (IH _ Hj) as (E & Hn & Hl).
    simpl. split_and!; [by f_equal| |lia].
    rewrite not_elem_of_cons. split; congruence.
Qed.

Lemma index_of_None c s : index_of c s = None <-> c ∉ s.
Proof.
  induction s as [|x s IH]; simpl; [split; [set_solver|done]|].
  rewrite not_elem_of_cons, <-IH. destruct (Z.eqb_spec x c) as [->|].
  - split; [done|intros [? _]; done].
  - destruct (index_of c s); simpl; intuition congruence.
Qed.

Lemma index_of_app c s t : c ∉ s -> index_of c (s ++ c :: t) = Some (length s).
Proof.
  induction s as [|x s IH]; simpl; intros H; [by rewrite Z.eqb_refl|].
  apply not_elem_of_cons in H as [Hx Hs].
  destruct (Z.eqb_spec x c); [congruence|]. by rewrite IH.
Qed.

Lemma has_char_spec c s : has_char c s = true <-> c ∈ s.
Proof.
  unfold has_char. rewrite existsb_exists. setoid_rewrite Z.eqb_eq.
  split; [intros (x & Hx & ->); by apply list_elem_of_In|].
  intros. exists c. split; [by apply list_elem_of_In|done].
Qed.

Lemma has_char_false c s : has_char c s = false <-> c ∉ s.
Proof. rewrite <-has_char_spec. destruct (has_char c s); split; congruence. Qed.

Lemma strcmp_Eq a b : strcmp a b = Eq <-> a = b.
Proof.
  revert b. induction a as [|x a IH]; intros [|y b]; simpl; try (split; congruence).
  destruct (Z.compare_spec x y) as [->| |]; [rewrite IH; split; congruence| |];
    split; try done; intros [= -> ?]; lia.
Qed.

Lemma strcmp_antisym a b : strcmp b a = CompOpp (strcmp a b).
Proof.
  revert b. induction a as [|x a IH]; intros [|y b]; simpl; try done.
  rewrite Z.compare_antisym. destruct (x ?= y); simpl; auto.
Qed.

Lemma strcmp_trans a b c : strcmp a b = Lt -> strcmp b c = Lt -> strcmp a c = Lt.
Proof.
  revert b c. induction a as [|x a IH]; intros [|y b] [|z c]; simpl; try done.
  destruct (Z.compare_spec x y) as [->|Hxy|], (Z.compare_spec y z) as [->|Hyz|]; try done.
  - apply IH.
  - by rewrite (proj2 (Z.compare_lt_iff _ _)) by lia.
  - by rewrite (proj2 (Z.compare_lt_iff _ _)) by lia.
Qed.

Lemma cstr_no_nul s : 0 ∉ cstr s.
Proof.
  induction s as [|x s IH]; simpl; [set_solver|].
  destruct (Z.eqb_spec x 0); [set_solver|]. rewrite not_elem_of_cons. split; congruence.
Qed.

Lemma cstr_id s : 0 ∉ s -> cstr s = s.
Proof.
  induction s as [|x s IH]; simpl; [done|]. rewrite not_elem_of_cons. intros [H ?].
  destruct (Z.eqb_spec x 0); [congruence|]. by rewrite IH.
Qed.

Lemma cstr_app_nul s t : 0 ∉ s -> cstr (s ++ 0 :: t) = s.
Proof.
  induction s as [|x s IH]; simpl; [done|]. rewrite not_elem_of_cons. intros [H ?].
  destruct (Z.eqb_spec x 0); [congruence|]. by rewrite IH.
Qed.

Lemma len_app {A} (a b : list A) : len (a ++ b) = len a + len b.
Proof. unfold len. rewrite length_app. lia. Qed.

Lemma len_cons {A} (x : A) a : len (x :: a) = 1 + len a.
Proof. unfold len. simpl. lia. Qed.

Lemma len_nil {A} : len (@nil A) = 0.
Proof. done. Qed.

Lemma len_nonneg {A} (a : list A) : 0 <= len a.
Proof. unfold len. lia. Qed.

#[export] Hint Rewrite @len_app @len_cons @len_nil : len.
#[export] Hint Resolve len_nonneg : egress.

Lemma len_ztake {A} n (l : list A) : 0 <= n <= len l -> len (ztake n l) = n.
Proof. unfold len, ztake. intros. rewrite length_take. lia. Qed.

Lemma len_ztake_le {A} n (l : list A) : 0 <= n -> len (ztake n l) <= n.
Proof. unfold len, ztake. intros. rewrite length_take. lia. Qed.

Lemma len_zdrop {A} n (l : list A) : 0 <= n <= len l -> len (zdrop n l) = len l - n.
Proof. unfold len, zdrop. intros. rewrite length_drop. lia. Qed.

Lemma ztake_app_len {A} (a b : list A) : ztake (len a) (a ++ b) = a.
Proof. unfold ztake, len. rewrite Nat2Z.id. apply take_app_length. Qed.

Lemma zdrop_app_len {A} (a b : list A) : zdrop (len a) (a ++ b) = b.
Proof. unfold zdrop, len. rewrite Nat2Z.id. apply drop_app_length. Qed.

Lemma ztake_zdrop {A} n (l : list A) : ztake n l ++ zdrop n l = l.
Proof. apply take_drop. Qed.

Lemma ztake_all {A} n (l : list A) : len l <= n -> ztake n l = l.
Proof. unfold ztake, len. intros. apply take_ge. lia. Qed.

(** ** Decimal text *)

Lemma decimal_fuel_app fuel n acc :
  decimal_fuel fuel n acc = decimal_fuel fuel n [] ++ acc.
Proof.
  revert n acc. induction fuel as [|fuel IH]; intros n acc; simpl; [done|].
  case_match; [done|]. rewrite IH, (IH _ [_]). by rewrite <-app_assoc.
Qed.

(** The value a run of decimal digits denotes, as the parsers accumulate it. *)
Definition undecimal (s : bytes) : Z := fold_left (fun v c => v * 10 + (c - c_0)) s 0.

Lemma undecimal_snoc s c : undecimal (s ++ [c]) = undecimal s * 10 + (c - c_0).
Proof. unfold undecimal. by rewrite fold_left_app. Qed.

Lemma undecimal_decimal_fuel fuel n :
  0 <= n < 10 ^ Z.of_nat fuel -> undecimal (decimal_fuel fuel n []) = n.
Proof.
  revert n. induction fuel as [|fuel IH]; intros n Hn; [simpl in *; unfold undecimal; simpl; lia|].
  cbn [decimal_fuel]. destruct (Z.ltb_spec n 10).
  - unfold undecimal. simpl. rewrite Z.mod_small by lia. lia.
  - rewrite decimal_fuel_app, undecimal_snoc, IH.
    + pose proof (Z.div_mod n 10). lia.
    + rewrite Nat2Z.inj_succ, Z.pow_succ_r in Hn by lia.
      split; [apply Z.div_pos; lia|apply Z.div_lt_upper_bound; lia].
Qed.

Lemma undecimal_decimal n : is_u64 n -> undecimal (decimal n) = n.
Proof.
  unfold is_u64. intros. apply undecimal_decimal_fuel. simpl. lia.
Qed.

Lemma decimal_inj n m : is_u64 n -> is_u64 m -> decimal n = decimal m -> n = m.
Proof. intros Hn Hm H. rewrite <-(undecimal_decimal n), <-(undecimal_decimal m); congruence. Qed.

Lemma decimal_fuel_digits fuel n :
  0 <= n -> Forall (fun c => is_digit c = true) (decimal_fuel fuel n []).
Proof.
  revert n. induction fuel as [|fuel IH]; intros n Hn; simpl; [constructor|].
  assert (Hd : is_digit (c_0 + n mod 10) = true).
  { unfold is_digit, in_range. pose proof (Z.mod_pos_bound n 10). lia. }
  destruct (n <? 10); [by repeat constructor|].
  rewrite decimal_fuel_app. apply Forall_app. split; [|by repeat constructor].
  apply IH. apply Z.div_pos; lia.
Qed.

Lemma decimal_digits n : 0 <= n -> Forall (fun c => is_digit c = true) (decimal n).
Proof. apply decimal_fuel_digits. Qed.

Lemma decimal_fuel_length fuel n k :
  0 <= n < 10 ^ Z.of_nat k -> (k <= fuel)%nat -> (0 < k)%nat ->
  (0 < length (decimal_fuel fuel n []) <= k)%nat.
Proof.
  revert n k. induction fuel as [|fuel IH]; intros n k Hn Hk H0; [lia|].
  cbn [decimal_fuel]. destruct (Z.ltb_spec n 10); [simpl; lia|].
  destruct k as [|[|k]]; [lia|simpl in Hn; lia|].
  rewrite decimal_fuel_app, length_app. simpl.
  assert (0 <= n / 10 < 10 ^ Z.of_nat (S k)).
  { rewrite Nat2Z.inj_succ, Z.pow_succ_r in Hn by lia.
    split; [apply Z.div_pos; lia|apply Z.div_lt_upper_bound; lia]. }
  specialize (IH (n / 10) (S k)). lia.
Qed.

Lemma decimal_len_u16 n : is_u16 n -> 1 <= len (decimal n) <= 5.
Proof.
  unfold is_u16, len. intros. pose proof (decimal_fuel_length 20 n 5) as Hl.
  unfold decimal. change (10 ^ Z.of_nat 5) with 100000 in Hl. lia.
Qed.

Lemma decimal_len_u64 n : is_u64 n -> 1 <= len (decimal n) <= 20.
Proof.
  unfold is_u64, len. intros. pose proof (decimal_fuel_length 20 n 20) as Hl.
  unfold decimal. change (10 ^ Z.of_nat 20) with 100000000000000000000 in Hl. lia.
Qed.

Lemma undecimal_digits_bound s :
  Forall (fun c => is_digit c = true) s -> 0 <= undecimal s < 10 ^ len s.
Proof.
  induction s as [|c s IH] using rev_ind; intros H; [unfold undecimal, len; simpl; lia|].
  apply Forall_app in H as [Hs Hc]. apply Forall_cons in Hc as [Hc _].
  unfold is_digit, in_range in Hc. bool_simp.
  rewrite undecimal_snoc, len_app. change (len [c]) with 1.
  rewrite Z.pow_add_r by (pose proof (len_nonneg s); lia). change (10 ^ 1) with 10.
  specialize (IH Hs). lia.
Qed.

(** A run of digits without a leading zero is the decimal text of its value. *)
Lemma decimal_fuel_undecimal s fuel :
  Forall (fun c => is_digit c = true) s -> s <> [] -> (len s = 1 \/ at_ s 0 <> c_0) ->
  (length s <= fuel)%nat -> decimal_fuel fuel (undecimal s) [] = s.
Proof.
  revert fuel. induction s as [|c s IH] using rev_ind; intros fuel Hd Hne Hlead Hf; [done|].
  apply Forall_app in Hd as [Hs Hc]. apply Forall_cons in Hc as [Hc _].
  unfold is_digit, in_range in Hc. bool_simp. rewrite length_app in Hf. simpl in Hf.
  destruct fuel as [|fuel]; [lia|]. cbn [decimal_fuel]. rewrite undecimal_snoc.
  pose proof (undecimal_digits_bound s Hs) as Hb.
  assert (Hmod : (undecimal s * 10 + (c - 48)) mod 10 = c - 48).
  { rewrite Z.add_comm, Z.mod_add by lia. apply Z.mod_small. lia. }
  assert (Hdiv : (undecimal s * 10 + (c - 48)) / 10 = undecimal s).
  { rewrite Z.add_comm, Z.div_add, Z.div_small by lia. lia. }
  rewrite Hmod, Hdiv. replace (48 + (c - 48)) with c by lia.
  destruct s as [|d s].
  - change (undecimal []) with 0. destruct (Z.ltb_spec (0 * 10 + (c - 48)) 10); [done|lia].
  - assert (Hlead' : at_ (d :: s) 0 <> 48).
    { destruct Hlead as [Hl|Hl]; [rewrite len_app, len_cons in Hl; pose proof (len_nonneg s);
        change (len [c]) with 1 in Hl; lia|exact Hl]. }
    assert (0 < undecimal (d :: s)).
    { unfold at_ in Hlead'. simpl in Hlead'. apply Forall_cons in Hs as [Hd' Hs'].
      unfold is_digit, in_range in Hd'. bool_simp. clear - Hs' Hlead' H1 H2.
      induction s as [|e s IHs] using rev_ind; [unfold undecimal; simpl; lia|].
      apply Forall_app in Hs' as [Hs He]. apply Forall_cons in He as [He _].
      unfold is_digit, in_range in He. bool_simp.
      rewrite app_comm_cons, undecimal_snoc. specialize (IHs Hs). lia. }
    destruct (Z.ltb_spec (undecimal (d :: s) * 10 + (c - 48)) 10); [lia|].
    rewrite decimal_fuel_app, IH; [done|done|done|by right|simpl in *; lia].
Qed.

Lemma decimal_undecimal s :
  Forall (fun c => is_digit c = true) s -> s <> [] -> (len s = 1 \/ at_ s 0 <> c_0) ->
  len s <= 20 -> decimal (undecimal s) = s.
Proof. intros. apply decimal_fuel_undecimal; try done. unfold len in *. lia. Qed.

Lemma decimal_fuel_nonempty fuel n acc : acc <> [] -> decimal_fuel fuel n acc <> [].
Proof.
  revert n acc. induction fuel as [|fuel IH]; intros n acc H; simpl; [done|].
  destruct (n <? 10); [done|by apply IH].
Qed.

Lemma decimal_nonempty n : decimal n <> [].
Proof.
  change (decimal n) with
    (if n <? 10 then [48 + n mod 10] else decimal_fuel 19 (n / 10) [48 + n mod 10]).
  destruct (n <? 10); [done|by apply decimal_fuel_nonempty].
Qed.

(** ** Splitting at a separator *)

(** The segments between the occurrences of [c]; never empty. *)
Fixpoint split_on (c : Z) (s : bytes) : list bytes :=
  match s with
  | [] => [[]]
  | x :: s =>
      if x =? c then [] :: split_on c s
      else match split_on c s with
           | seg :: segs => (x :: seg) :: segs
           | [] => [[x]]
           end
  end.

Fixpoint join (c : Z) (segs : list bytes) : bytes :=
  match segs with
  | [] => []
  | [seg] => seg
  | seg :: segs => seg ++ c :: join c segs
  end.

Lemma split_on_nonempty c s : exists seg segs, split_on c s = seg :: segs.
Proof.
  induction s as [|x s (seg & segs & IH)]; simpl; [by eexists _, _|].
  destruct (x =? c); [by eexists _, _|]. rewrite IH. by eexists _, _.
Qed.

Lemma join_split_on c s : join c (split_on c s) = s.
Proof.
  induction s as [|x s IH]; simpl; [done|].
  destruct (split_on_nonempty c s) as (seg & segs & E). rewrite E in *.
  destruct (Z.eqb_spec x c) as [->|]; simpl in *; [by rewrite IH|].
  destruct segs; simpl in *; by rewrite <-IH.
Qed.

Lemma split_on_free c s seg : c ∉ seg -> s = seg -> split_on c s = [seg].
Proof.
  intros H ->. induction seg as [|x seg IH]; simpl; [done|].
  apply not_elem_of_cons in H as [Hx Hs]. destruct (Z.eqb_spec x c); [congruence|].
  by rewrite IH.
Qed.

Lemma split_on_app c seg s :
  c ∉ seg -> split_on c (seg ++ c :: s) = seg :: split_on c s.
Proof.
  induction seg as [|x seg IH]; simpl; intros H; [by rewrite Z.eqb_refl|].
  apply not_elem_of_cons in H as [Hx Hs]. destruct (Z.eqb_spec x c); [congruence|].
  by rewrite IH.
Qed.

Lemma split_on_segments c s : Forall (fun seg => c ∉ seg) (split_on c s).
Proof.
  induction s as [|x s IH]; simpl; [repeat constructor; set_solver|].
  destruct (Z.eqb_spec x c); [constructor; [set_solver|done]|].
  destruct (split_on c s) as [|seg segs]; [repeat constructor; set_solver|].
  apply Forall_cons in IH as [? ?]. constructor; [set_solver|done].
Qed.

Lemma split_on_join c segs :
  segs <> [] -> Forall (fun seg => c ∉ seg) segs -> split_on c (join c segs) = segs.
Proof.
  induction segs as [|seg segs IH]; [done|]. intros _ [Hs Hf]%Forall_cons.
  destruct segs as [|seg' segs]; [by apply split_on_free|].
  change (join c (seg :: seg' :: segs)) with (seg ++ c :: join c (seg' :: segs)).
  by rewrite split_on_app, IH.
Qed.

Lemma split_on_map c f s :
  (forall x, f x = c <-> x = c) -> split_on c (map f s) = map (map f) (split_on c s).
Proof.
  intros Hf. induction s as [|x s IH]; simpl; [done|].
  destruct (Z.eqb_spec (f x) c) as [E|E], (Z.eqb_spec x c) as [E'|E'];
    [| by apply (proj1 (Hf x)) in E | by apply (proj2 (Hf x)) in E' |].
  - by rewrite IH.
  - rewrite IH. by destruct (split_on c s).
Qed.

(** ** Big-endian integers *)

(** The value of bytes in network order. *)
Definition be (b : bytes) : Z := fold_left (fun v x => v * 256 + x) b 0.

Lemma lor_disjoint a b n :
  0 <= n -> 0 <= b < 2 ^ n -> Z.lor (Z.shiftl a n) b = a * 2 ^ n + b.
Proof.
  intros Hn Hb. rewrite <-Z.shiftl_mul_pow2 by lia.
  rewrite <-(Z.lxor_lor (Z.shiftl a n) b), <-Z.add_nocarry_lxor; try done;
    apply Z.bits_inj'; intros i Hi; rewrite Z.land_spec, Z.bits_0;
    destruct (Z.lt_ge_cases i n);
    try (by rewrite Z.shiftl_spec_low by lia);
    rewrite <-(Z.mod_small b (2 ^ n)) by lia; rewrite Z.mod_pow2_bits_high by lia;
    apply andb_false_r.
Qed.

Lemma lor8 a b : is_byte b -> Z.lor (Z.shiftl a 8) b = a * 256 + b.
Proof. intros. by apply (lor_disjoint a b 8). Qed.

Lemma shiftl_shiftl_8 a n : 0 <= n -> Z.shiftl a (n + 8) = Z.shiftl (Z.shiftl a 8) n.
Proof. intros. rewrite Z.shiftl_shiftl by lia. f_equal. lia. Qed.

(** A property of every byte, decided by evaluation. *)
Lemma byte_forall (P : Z -> bool) :
  forallb P (seqZ 0 256) = true -> forall x, is_byte x -> P x = true.
Proof.
  rewrite forallb_Forall, Forall_forall. intros H x Hx. apply H, elem_of_seqZ.
  unfold is_byte in Hx. lia.
Qed.

Lemma be_app a b : be (a ++ b) = be a * 256 ^ len b + be b.
Proof.
  unfold be. rewrite fold_left_app. generalize (fold_left (fun v x => v * 256 + x) a 0) as v.
  induction b as [|x b IH] using rev_ind; intros v; [simpl; change (len []) with 0; lia|].
  rewrite !fold_left_app, len_app. simpl. rewrite IH.
  change (len [x]) with 1. rewrite Z.pow_add_r by (pose proof (len_nonneg b); lia). lia.
Qed.

Lemma be_bound b : Forall is_byte b -> 0 <= be b < 256 ^ len b.
Proof.
  induction b as [|x b IH] using rev_ind; intros H; [unfold be, len; simpl; lia|].
  apply Forall_app in H as [Hb Hx]. apply Forall_cons in Hx as [Hx _]. unfold is_byte in Hx.
  rewrite be_app, len_app. change (len [x]) with 1. change (be [x]) with (0 * 256 + x).
  rewrite Z.pow_add_r by (pose proof (len_nonneg b); lia). change (256 ^ 1) with 256.
  specialize (IH Hb). lia.
Qed.

Lemma be_snoc b x : be (b ++ [x]) = be b * 256 + x.
Proof. unfold be. by rewrite fold_left_app. Qed.

Lemma be_inj a b :
  Forall is_byte a -> Forall is_byte b -> length a = length b -> be a = be b -> a = b.
Proof.
  revert b. induction a as [|x a IH] using rev_ind; intros b Ha Hb Hl E.
  - by destruct b.
  - destruct b as [|y b _] using rev_ind; [rewrite length_app in Hl; simpl in Hl; lia|].
    rewrite !be_snoc in E. rewrite !length_app in Hl. simpl in Hl.
    apply Forall_app in Ha as [Ha [Hx _]%Forall_cons].
    apply Forall_app in Hb as [Hb [Hy _]%Forall_cons]. unfold is_byte in Hx, Hy.
    assert (x = y) as -> by lia. rewrite (IH b); [done|done|done|lia|lia].
Qed.

(** The [n] low bytes of a number, most significant first, as a loop that
    shifts and truncates writes them. *)
Fixpoint be_bytes (n : nat) (v : Z) : bytes :=
  match n with
  | O => []
  | S n => u8 (Z.shiftr v (8 * Z.of_nat n)) :: be_bytes n v
  end.

Lemma length_be_bytes n v : length (be_bytes n v) = n.
Proof. induction n; simpl; congruence. Qed.

Lemma be_cons x b : be (x :: b) = x * 256 ^ len b + be b.
Proof. change (x :: b) with ([x] ++ b). by rewrite be_app. Qed.

Lemma be_bytes_is_byte n v : Forall is_byte (be_bytes n v).
Proof.
  induction n; simpl; constructor; [|done]. unfold is_byte, u8.
  change (2 ^ 8) with 256. apply Z.mod_pos_bound. lia.
Qed.

Lemma be_be_bytes n v : be (be_bytes n v) = v mod 256 ^ Z.of_nat n.
Proof.
  induction n as [|n IH]; [by rewrite Z.mod_1_r|].
  cbn [be_bytes]. rewrite be_cons, IH. unfold len, u8. rewrite length_be_bytes.
  rewrite Z.shiftr_div_pow2 by lia. change (2 ^ 8) with 256.
  rewrite Z.pow_mul_r by lia. change (2 ^ 8) with 256.
  rewrite Nat2Z.inj_succ, Z.pow_succ_r by lia.
  rewrite (Z.mul_comm 256), Z.rem_mul_r by lia. lia.
Qed.

(** The loop [value = (value << 8) | byte] on a 64-bit accumulator. *)
Lemma be_loop64 b :
  Forall is_byte b -> (length b <= 8)%nat ->
  fold_left (fun v x => Z.lor (u64 (Z.shiftl v 8)) x) b 0 = be b.
Proof.
  induction b as [|x b IH] using rev_ind; intros Hb Hl; [done|].
  rewrite length_app in Hl. simpl in Hl. apply Forall_app in Hb as [Hb [Hx _]%Forall_cons].
  rewrite fold_left_app, IH, be_snoc by (done || lia). simpl.
  pose proof (be_bound b Hb). pose proof (Z.pow_le_mono_r 256 (len b) 7).
  unfold u64. rewrite Z.mod_small; [by apply lor8|].
  rewrite Z.shiftl_mul_pow2 by lia. unfold len in *.
  change (256 ^ 7) with 72057594037927936 in *. change (2 ^ 64) with 18446744073709551616.
  change (2 ^ 8) with 256. lia.
Qed.

Lemma byte_list_check l :
  forallb (fun z => (0 <=? z) && (z <? 256)) l = true -> Forall is_byte l.
Proof.
  rewrite forallb_Forall. intros H. eapply Forall_impl; [exact H|].
  intros x Hx. simpl in Hx. unfold is_byte. bool_simp. lia.
Qed.

(** The bytes of a literal are bytes. *)
Ltac byte_list := apply byte_list_check; vm_compute; reflexivity.

Lemma byte_lxor x y : is_byte x -> is_byte y -> is_byte (Z.lxor x y).
Proof.
  intros Hx Hy. unfold is_byte.
  replace (Z.lxor x y) with (Z.lxor x y mod 2 ^ 8); [apply (Z.mod_pos_bound _ 256); lia|].
  apply Z.bits_inj'. intros n Hn. destruct (Z.lt_ge_cases n 8).
  - by rewrite Z.mod_pow2_bits_low by lia.
  - rewrite Z.mod_pow2_bits_high, Z.lxor_spec by lia.
    rewrite <-(Z.mod_small x (2 ^ 8)), <-(Z.mod_small y (2 ^ 8)) by done.
    by rewrite !Z.mod_pow2_bits_high by lia.
Qed.

Lemma last_index_of_free c s : c ∉ s -> last_index_of c s = None.
Proof.
  induction s as [|x s IH]; [done|]. intros [Hx Hs]%not_elem_of_cons. simpl.
  rewrite IH by done. by destruct (Z.eqb_spec x c); [congruence|].
Qed.

Lemma last_index_of_None c s : last_index_of c s = None -> c ∉ s.
Proof.
  induction s as [|x s IH]; simpl; [intros _; apply not_elem_of_nil|].
  destruct (last_index_of c s); [done|]. destruct (Z.eqb_spec x c); [done|]. intros _.
  apply not_elem_of_cons. split; [by intros ->|by apply IH].
Qed.

Lemma last_index_of_app c s t : c ∉ t -> last_index_of c (s ++ c :: t) = Some (length s).
Proof.
  intros Ht. induction s as [|x s IH]; simpl; [|by rewrite IH].
  by rewrite last_index_of_free, Z.eqb_refl.
Qed.

Lemma join_snoc c segs seg : segs <> [] -> join c (segs ++ [seg]) = join c segs ++ c :: seg.
Proof.
  induction segs as [|x segs IH]; [done|]. intros _. destruct segs as [|y segs]; [done|].
  change (join c ((x :: y :: segs) ++ [seg])) with (x ++ c :: join c ((y :: segs) ++ [seg])).
  rewrite IH by done. change (join c (x :: y :: segs)) with (x ++ c :: join c (y :: segs)).
  by rewrite <-app_assoc.
Qed.
