(* ===== verification/Common.v ===== *)
(** Host names, addresses and secrets: src/core/common.c.

    The canonical host grammar ([numeric_label], [strict_ipv4],
    [egress_canonical_host]), the comparison of secrets
    ([egress_constant_time_equal]) and the classification of addresses that a
    policy must not pin without an opt-in ([ipv4_private],
    [egress_address_is_private]).  [inet_pton] and [inet_ntop] belong to the
    platform and are the operations of the class [Inet]. *)

From S2P Require Import Prelude.

Definition EGRESS_MAX_HOST : Z := 253.

(** The address conversions of <arpa/inet.h>.  The presentation form is a C
    string; the network form is 4 or 16 bytes in network order.  [None] is
    the failure return. *)
Class Inet := {
  inet_pton4 : bytes -> option bytes;
  inet_pton6 : bytes -> option bytes;
  inet_ntop4 : bytes -> option bytes;
  inet_ntop6 : bytes -> option bytes;
}.

(** * Definitions *)

Definition hex_alpha (c : Z) : bool := in_range c_a c_f c || in_range c_A c_F c.

Definition numeric_label (label : bytes) : bool :=
  if len label =? 0 then false
  else
    let hexadecimal := (2 <? len label) && (at_ label 0 =? c_0) &&
                       ((at_ label 1 =? c_x) || (at_ label 1 =? c_X)) in
    let first := if hexadecimal then 2 else 0 in
    forallb (fun byte => is_digit byte || (hexadecimal && hex_alpha byte))
            (zdrop first label).

(** One octet of [strict_ipv4]: the checks made when a dot or the end of the
    input closes the segment [input[start .. i)]. *)
Definition strict_octet (segment : bytes) : bool :=
  let size := len segment in
  if (size =? 0) || (3 <? size) || ((1 <? size) && (at_ segment 0 =? c_0)) then false
  else forallb is_digit segment && (undecimal segment <=? 255).

Fixpoint strict_ipv4_loop (input segment : bytes) (octets : Z) : bool :=
  match input with
  | [] => strict_octet segment && (octets + 1 <=? 4) && (octets + 1 =? 4)
  | c :: input =>
      if negb (c =? c_dot) then strict_ipv4_loop input (segment ++ [c]) octets
      else if strict_octet segment && (octets + 1 <=? 4)
           then strict_ipv4_loop input [] (octets + 1)
           else false
  end.

Definition strict_ipv4 (input : bytes) : bool := strict_ipv4_loop input [] 0.

(** The checks made on [output[label_start .. i)] when a label ends. *)
Definition label_ends_well (label : bytes) : bool :=
  negb ((len label =? 0) || (63 <? len label) ||
        (at_ label 0 =? c_minus) || (at_ label (len label - 1) =? c_minus)).

(** The loop of [egress_canonical_host] over the input: [raw] and [label] are
    the current label as received and as written to [output], [out] the output
    before it. *)
Fixpoint canonical_host_loop (input raw label out : bytes)
  : option (bytes * bytes * bytes) :=
  match input with
  | [] => Some (raw, label, out)
  | byte :: input =>
      if byte =? c_dot then
        if label_ends_well label
        then canonical_host_loop input [] [] (out ++ label ++ [c_dot])
        else None
      else if is_alnum byte || (byte =? c_minus)
           then canonical_host_loop input (raw ++ [byte]) (label ++ [lower byte]) out
           else None
  end.

Definition egress_canonical_host `{Inet} (input : bytes) : option bytes :=
  if (len input =? 0) || (EGRESS_MAX_HOST <? len input) then None
  else if has_char c_colon input && bool_decide (is_Some (inet_pton6 input))
  then Some input
  else
    match canonical_host_loop input [] [] [] with
    | None => None
    | Some (raw, label, out) =>
        if negb (label_ends_well label) then None
        else if numeric_label raw && negb (strict_ipv4 input) then None
        else Some (out ++ label)
    end.

(** [left] and [right] are C strings; the accumulator is an [unsigned int], so
    the difference of the lengths enters it truncated to 32 bits. *)
Definition egress_constant_time_equal (left right : bytes) : bool :=
  let left_length := len left in
  let right_length := len right in
  let maximum := if right_length <? left_length then left_length else right_length in
  let difference := u32 (Z.lxor left_length right_length) in
  let difference :=
    fold_left
      (fun difference i =>
         let a := if i <? left_length then at_ left i else 0 in
         let b := if i <? right_length then at_ right i else 0 in
         Z.lor difference (Z.lxor a b))
      (seqZ 0 maximum) difference in
  difference =? 0.

(** A socket address as the code inspects it.  [sin_addr] and [sin6_addr] are
    in network order; the padding of [sockaddr_in] is zero. *)
Inductive sockaddr :=
| AF_INET_addr (sin_port : Z) (sin_addr : bytes)
| AF_INET6_addr (sin6_port sin6_flowinfo : Z) (sin6_addr : bytes) (sin6_scope_id : Z)
| AF_OTHER_addr (family : Z).

#[export] Instance sockaddr_eq_dec : EqDecision sockaddr.
Proof. solve_decision. Defined.

(** [ntohl] of four bytes in network order. *)
Definition ntohl (b : bytes) : Z :=
  Z.lor (Z.lor (Z.lor (Z.shiftl (at_ b 0) 24) (Z.shiftl (at_ b 1) 16))
               (Z.shiftl (at_ b 2) 8)) (at_ b 3).

Definition ipv4_private (address : bytes) : bool :=
  let host := ntohl address in
  let first := Z.shiftr host 24 in
  let second := Z.land (Z.shiftr host 16) 255 in
  if (first =? 0) || (first =? 10) || (first =? 127) || (224 <=? first) then true
  else if (first =? 100) && (64 <=? second) && (second <=? 127) then true
  else if (first =? 169) && (second =? 254) then true
  else if (first =? 172) && (16 <=? second) && (second <=? 31) then true
  else if (first =? 192) && ((second =? 0) || (second =? 168)) then true
  else if (first =? 192) && (second =? 88) then true
  else if (first =? 198) && ((second =? 18) || (second =? 19)) then true
  else if ((first =? 192) && (second =? 0)) || ((first =? 198) && (second =? 51)) ||
          ((first =? 203) && (second =? 0)) then true
  else false.

Definition ipv6_mapped : bytes := [0; 0; 0; 0; 0; 0; 0; 0; 0; 0; 255; 255].
Definition ipv6_nat64 : bytes := [0; 100; 255; 155; 0; 0; 0; 0; 0; 0; 0; 0].

Definition egress_address_is_private (address : option sockaddr) : bool :=
  match address with
  | None => true
  | Some (AF_INET_addr _ sin_addr) => ipv4_private sin_addr
  | Some (AF_INET6_addr _ _ b _) =>
      if beq (take 12 b) ipv6_mapped then ipv4_private (drop 12 b)
      else if beq (take 12 b) ipv6_nat64 then ipv4_private (drop 12 b)
      else if negb (Z.land (at_ b 0) 224 =? 32) then true
      else if ((at_ b 0 =? 32) && (at_ b 1 =? 1) && (at_ b 2 <=? 1)) ||
              ((at_ b 0 =? 32) && (at_ b 1 =? 2)) ||
              ((at_ b 0 =? 63) && (at_ b 1 =? 255) && (Z.land (at_ b 2) 240 =? 0))
      then true
      else if (at_ b 0 =? 32) && (at_ b 1 =? 1) && (at_ b 2 =? 13) && (at_ b 3 =? 184)
      then true
      else false
  | Some (AF_OTHER_addr _) => true
  end.

Definition maelys_egress_result_string (result : maelys_egress_result_t) : bytes :=
  match result with
  | MAELYS_EGRESS_OK => str "ok"
  | MAELYS_EGRESS_ERR_ARGUMENT => str "invalid argument"
  | MAELYS_EGRESS_ERR_MEMORY => str "out of memory"
  | MAELYS_EGRESS_ERR_STATE => str "invalid state"
  | MAELYS_EGRESS_ERR_IO => str "I/O error"
  | MAELYS_EGRESS_ERR_DENIED => str "denied"
  | MAELYS_EGRESS_ERR_PROTOCOL => str "protocol error"
  | MAELYS_EGRESS_ERR_TIMEOUT => str "timeout"
  | MAELYS_EGRESS_ERR_CANCELLED => str "cancelled"
  | MAELYS_EGRESS_ERR_UNSUPPORTED => str "unsupported"
  | MAELYS_EGRESS_ERR_CRYPTO => str "crypto"
  end.

(** * The host grammar, declaratively *)

(** The text of an IPv4 address in the one form every resolver reads alike. *)
Definition ipv4_literal (s : bytes) : Prop :=
  exists a b c d, (0 <= a <= 255 /\ 0 <= b <= 255 /\ 0 <= c <= 255 /\ 0 <= d <= 255) /\
    s = join c_dot [decimal a; decimal b; decimal c; decimal d].

Definition host_char (c : Z) : Prop := is_alnum c || (c =? c_minus) = true.

(** A label: 1 to 63 letters, digits and hyphens, no hyphen at either end. *)
Definition host_label (label : bytes) : Prop :=
  1 <= len label <= 63 /\ Forall host_char label /\
  head label <> Some c_minus /\ last label <> Some c_minus.

(** A canonical host and the text it stands for: an IPv6 literal kept as it
    is, or a name with its letters lowered whose last label is numeric only
    when the whole is an IPv4 literal. *)
Definition canonical_form `{Inet} (s t : bytes) : Prop :=
  1 <= len s <= EGRESS_MAX_HOST /\
  ((c_colon ∈ s /\ is_Some (inet_pton6 s) /\ t = s) \/
   ((c_colon ∉ s) /\ t = map lower s /\ Forall host_label (split_on c_dot s) /\
    (forall label, last (split_on c_dot s) = Some label ->
       numeric_label label = true -> ipv4_literal s))).

(** The characters of a numeric address. *)
Definition numeric_char (c : Z) : Prop :=
  is_digit c || hex_alpha c || (c =? c_colon) || (c =? c_dot) = true.

(** What POSIX says of the two conversions: a numeric address is written with
    these characters, in less than INET_ADDRSTRLEN (16) and INET6_ADDRSTRLEN
    (46) bytes, and what [inet_ntop] writes [inet_pton] reads back. *)
Class InetLaws `{Inet} : Prop := {
  pton6_chars : forall s b, inet_pton6 s = Some b -> Forall numeric_char s;
  ntop4_text : forall b t, length b = 4%nat -> Forall is_byte b -> inet_ntop4 b = Some t ->
    inet_pton4 t = Some b /\ Forall numeric_char t /\ len t < 16;
  ntop6_text : forall b t, length b = 16%nat -> Forall is_byte b -> inet_ntop6 b = Some t ->
    inet_pton6 t = Some b /\ Forall numeric_char t /\ len t < 46;
}.

(** A platform on which only dotted-decimal IPv4 is numeric: the interface is
    inhabited.  Only the closed examples use it. *)
Definition dotted_inet : Inet := {|
  inet_pton4 s := if strict_ipv4 s then Some (map undecimal (split_on c_dot s)) else None;
  inet_pton6 _ := None;
  inet_ntop4 b := Some (join c_dot (map decimal b));
  inet_ntop6 _ := None;
|}.

(** * Lemmas *)

Lemma lower_dot x : lower x = c_dot <-> x = c_dot.
Proof. unfold lower, is_upper, in_range. repeat case_match; bool_simp; lia. Qed.

Lemma lower_minus x : lower x = c_minus <-> x = c_minus.
Proof. unfold lower, is_upper, in_range. repeat case_match; bool_simp; lia. Qed.

Lemma lower_idem x : lower (lower x) = lower x.
Proof. unfold lower, is_upper, in_range. repeat case_match; bool_simp; lia. Qed.

Lemma lower_digit x : is_digit (lower x) = is_digit x.
Proof. unfold lower, is_upper, is_digit, in_range. repeat case_match; lia. Qed.

Lemma lower_hex x : is_digit (lower x) || hex_alpha (lower x) = is_digit x || hex_alpha x.
Proof. unfold lower, is_upper, is_digit, hex_alpha, in_range. repeat case_match; lia. Qed.

Lemma host_char_lower x : host_char (lower x) <-> host_char x.
Proof.
  unfold host_char, lower, is_alnum, is_upper, is_lower, is_digit, in_range.
  repeat case_match; lia.
Qed.

Lemma at_map_lower l i : at_ (map lower l) i = lower (at_ l i).
Proof. unfold at_. by rewrite <-(map_nth lower l 0). Qed.

Lemma len_map {A B} (f : A -> B) l : len (map f l) = len l.
Proof. unfold len. by rewrite length_map. Qed.

Lemma at_0 (l : bytes) x : head l = Some x <-> l <> [] /\ at_ l 0 = x.
Proof. destruct l; simpl; [naive_solver|]. unfold at_. simpl. naive_solver. Qed.

Lemma at_last (l : bytes) x : last l = Some x <-> l <> [] /\ at_ l (len l - 1) = x.
Proof.
  destruct l as [|y l] using rev_ind; [simpl; naive_solver|].
  rewrite last_snoc, len_app. change (len [y]) with 1.
  unfold at_, len. replace (Z.to_nat (Z.of_nat (length l) + 1 - 1)) with (length l) by lia.
  rewrite app_nth2, Nat.sub_diag by lia. simpl. split; [|naive_solver].
  intros [= ->]. split; [by destruct l|done].
Qed.

Lemma label_ends_well_lower l : label_ends_well (map lower l) = label_ends_well l.
Proof.
  unfold label_ends_well. rewrite !at_map_lower, len_map. f_equal. f_equal; [f_equal|].
  - apply eq_true_iff_eq. rewrite !Z.eqb_eq. apply lower_minus.
  - apply eq_true_iff_eq. rewrite !Z.eqb_eq. apply lower_minus.
Qed.

Lemma label_ends_well_spec l :
  label_ends_well l = true <->
  1 <= len l <= 63 /\ head l <> Some c_minus /\ last l <> Some c_minus.
Proof.
  unfold label_ends_well. rewrite negb_true_iff, !orb_false_iff, !Z.eqb_neq, Z.ltb_ge.
  rewrite at_0, at_last. pose proof (len_nonneg l).
  split.
  - intros (((? & ?) & ?) & ?). split_and!; [lia|lia| |]; intros [_ ?]; done.
  - intros (? & H1 & H2). assert (l <> []) by (intros ->; simpl in *; change (len []) with 0 in *; lia).
    split_and!; [lia|lia| |]; intros ?; [by apply H1|by apply H2].
Qed.

Lemma strict_octet_spec segment :
  strict_octet segment = true <-> exists n, 0 <= n <= 255 /\ segment = decimal n.
Proof.
  unfold strict_octet. split.
  - case_match eqn:E; [done|]. intros H. bool_simp.
    match goal with H : forallb _ _ = true |- _ => apply forallb_Forall in H as Hd end.
    exists (undecimal segment). pose proof (undecimal_digits_bound _ Hd).
    split; [lia|]. symmetry. apply decimal_undecimal; [done| | |lia].
    + intros ->. by change (len []) with 0 in *.
    + match goal with H : _ && _ = false |- _ => apply andb_false_iff in H as [Hl|Hl] end;
        bool_simp; [|by right].
      left. pose proof (len_nonneg segment). lia.
  - intros (n & Hn & ->).
    assert (Hall : forallb (fun n => strict_octet (decimal n)) (seqZ 0 256) = true) by by vm_compute.
    apply forallb_Forall in Hall. rewrite Forall_forall in Hall. apply (Hall n).
    apply elem_of_seqZ. lia.
Qed.

(** The segments still to be closed: the open one extended by the input. *)
Definition open_segments (segment input : bytes) : list bytes :=
  match split_on c_dot input with
  | [] => [segment]
  | s :: ss => (segment ++ s) :: ss
  end.

Lemma open_segments_dot segment input :
  open_segments segment (c_dot :: input) = segment :: open_segments [] input.
Proof.
  unfold open_segments. simpl. rewrite app_nil_r.
  by destruct (split_on_nonempty c_dot input) as (? & ? & ->).
Qed.

Lemma open_segments_char segment c input :
  c <> c_dot -> open_segments segment (c :: input) = open_segments (segment ++ [c]) input.
Proof.
  intros Hc. unfold open_segments. simpl. destruct (Z.eqb_spec c 46); [done|].
  destruct (split_on_nonempty c_dot input) as (? & ? & ->). by rewrite <-app_assoc.
Qed.

Lemma open_segments_nil input : open_segments [] input = split_on c_dot input.
Proof.
  unfold open_segments. by destruct (split_on_nonempty c_dot input) as (? & ? & ->).
Qed.

Lemma strict_ipv4_loop_spec input segment octets :
  strict_ipv4_loop input segment octets = true <->
  Forall (fun s => strict_octet s = true) (open_segments segment input) /\
  octets + len (open_segments segment input) = 4.
Proof.
  revert segment octets. induction input as [|c input IH]; intros segment octets.
  - unfold open_segments. simpl. rewrite app_nil_r, !andb_true_iff, Forall_cons, Z.eqb_eq, Z.leb_le.
    change (len [segment]) with 1. split; [intros [[? ?] ?]|intros [[? ?] ?]]; auto with lia.
  - cbn [strict_ipv4_loop]. destruct (Z.eqb_spec c 46) as [->|Hc]; simpl.
    + rewrite open_segments_dot, Forall_cons, len_cons.
      destruct (strict_octet segment) eqn:E; simpl; [|naive_solver].
      pose proof (len_nonneg (open_segments [] input)) as Hl.
      destruct (Z.leb_spec (octets + 1) 4).
      * rewrite IH. split; intros; split_and!; naive_solver lia.
      * split; [done|]. intros [_ ?]. lia.
    + by rewrite open_segments_char, IH.
Qed.

Lemma decimal_no_char n c : 0 <= n -> is_digit c = false -> c ∉ decimal n.
Proof.
  intros Hn Hc Hin. pose proof (decimal_digits n Hn) as Hd. rewrite Forall_forall in Hd.
  specialize (Hd _ Hin). simpl in Hd. congruence.
Qed.

Lemma strict_ipv4_literal s : strict_ipv4 s = true <-> ipv4_literal s.
Proof.
  unfold strict_ipv4. rewrite strict_ipv4_loop_spec, open_segments_nil. split.
  - intros [Hf Hl].
    destruct (split_on c_dot s) as [|s1 [|s2 [|s3 [|s4 [|]]]]] eqn:E;
      unfold len in Hl; simpl in Hl; try lia.
    rewrite !Forall_cons, !strict_octet_spec in Hf.
    destruct Hf as ((a & ? & ->) & (b & ? & ->) & (c & ? & ->) & (d & ? & ->) & _).
    exists a, b, c, d. split; [done|]. by rewrite <-E, join_split_on.
  - intros (a & b & c & d & (Ha & Hb & Hc & Hd) & ->). cbn [join].
    rewrite !split_on_app by (apply decimal_no_char; [lia|done]).
    rewrite (split_on_free _ _ (decimal d)) by (done || apply decimal_no_char; lia || done).
    split; [|done]. rewrite !Forall_cons, !strict_octet_spec. split_and!; eauto.
Qed.

Lemma canonical_host_loop_Some input raw out r l o :
  canonical_host_loop input raw (map lower raw) out = Some (r, l, o) ->
  Forall host_char raw ->
  l = map lower r /\ last (open_segments raw input) = Some r /\
  Forall (Forall host_char) (open_segments raw input) /\
  Forall (fun s => label_ends_well s = true) (removelast (open_segments raw input)) /\
  o ++ l = out ++ map lower (raw ++ input).
Proof.
  revert raw out. induction input as [|c input IH]; intros raw out H Hraw; simpl in H.
  - simplify_eq. unfold open_segments. simpl. rewrite app_nil_r.
    split_and!; try done; repeat constructor; done.
  - destruct (Z.eqb_spec c 46) as [->|Hc].
    + destruct (label_ends_well (map lower raw)) eqn:E; [|done].
      rewrite label_ends_well_lower in E. apply (IH []) in H; [|done].
      rewrite open_segments_dot. destruct H as (-> & Hl & Hf & He & ->).
      unfold open_segments in *.
      destruct (split_on_nonempty c_dot input) as (s & ss & Es). rewrite Es in *.
      simpl in *. split_and!; try done; [by constructor|by constructor|].
      rewrite map_app. simpl. by rewrite <-!app_assoc.
    + destruct (is_alnum c || (c =? 45)) eqn:E; [|done].
      rewrite open_segments_char by done.
      change [lower c] with (map lower [c]) in H. rewrite <-map_app in H.
      apply IH in H; [|apply Forall_app; split; [done|by repeat constructor]].
      destruct H as (? & ? & ? & ? & ->). split_and!; try done.
      by rewrite <-app_assoc.
Qed.

Lemma canonical_host_loop_exists input raw out :
  Forall (Forall host_char) (open_segments raw input) ->
  Forall (fun s => label_ends_well s = true) (removelast (open_segments raw input)) ->
  is_Some (canonical_host_loop input raw (map lower raw) out).
Proof.
  revert raw out. induction input as [|c input IH]; intros raw out Hf He; [by eexists|].
  cbn [canonical_host_loop]. destruct (Z.eqb_spec c 46) as [->|Hc].
  - rewrite open_segments_dot in *. rewrite label_ends_well_lower.
    assert (Hne : open_segments [] input <> [])
      by (rewrite open_segments_nil; by destruct (split_on_nonempty 46 input) as (? & ? & ->)).
    destruct (open_segments [] input) as [|s ss] eqn:E; [done|]. rewrite <-E in *.
    assert (Her : removelast (raw :: open_segments [] input) =
                  raw :: removelast (open_segments [] input)) by by rewrite E.
    rewrite Her, Forall_cons in He. rewrite Forall_cons in Hf. destruct He as [-> He].
    apply (IH []); [by apply Hf|done].
  - rewrite open_segments_char in * by done.
    assert (Hcc : host_char c).
    { unfold open_segments in Hf. destruct (split_on_nonempty 46 input) as (s & ss & Es).
      rewrite Es, Forall_cons, !Forall_app, Forall_cons in Hf. apply Hf. }
    unfold host_char in Hcc. rewrite Hcc.
    change [lower c] with (map lower [c]). rewrite <-map_app. by apply IH.
Qed.

Lemma split_on_last c s : exists l, last (split_on c s) = Some l.
Proof.
  destruct (split_on_nonempty c s) as (x & l & ->).
  destruct (last (x :: l)) eqn:E; [by eexists|]. by apply last_None in E.
Qed.

Lemma removelast_last {A} (l : list A) x : last l = Some x -> l = removelast l ++ [x].
Proof.
  destruct l as [|y l] using rev_ind; [done|].
  rewrite last_snoc, removelast_app by done. simpl. rewrite app_nil_r. by intros [= ->].
Qed.

Lemma host_label_split s label :
  last (split_on c_dot s) = Some label ->
  Forall host_label (split_on c_dot s) <->
  Forall (Forall host_char) (split_on c_dot s) /\
  Forall (fun s => label_ends_well s = true) (removelast (split_on c_dot s)) /\
  label_ends_well label = true.
Proof.
  intros Hl. apply removelast_last in Hl. rewrite Hl at 1 2.
  rewrite !Forall_app, !Forall_cons.
  assert (Heq : forall l, Forall host_label l <->
            Forall (Forall host_char) l /\ Forall (fun s => label_ends_well s = true) l).
  { intros l. rewrite <-Forall_and. apply Forall_iff. intros x.
    rewrite label_ends_well_spec. unfold host_label. tauto. }
  rewrite Heq. unfold host_label. rewrite label_ends_well_spec. split; intros; naive_solver.
Qed.

Lemma host_label_no_colon s : Forall host_label (split_on c_dot s) -> c_colon ∉ s.
Proof.
  intros Hf. rewrite <-(join_split_on c_dot s).
  induction Hf as [|l ls Hl _ IH]; [set_solver|].
  assert (Hc : c_colon ∉ l).
  { intros Hin. destruct Hl as (_ & Hl & _). rewrite Forall_forall in Hl.
    specialize (Hl _ Hin). done. }
  simpl. destruct ls; [done|]. rewrite elem_of_app, elem_of_cons. naive_solver.
Qed.

Section Canonical.
Context `{Inet}.

Lemma egress_canonical_host_form s t :
  egress_canonical_host s = Some t <-> canonical_form s t.
Proof.
  unfold egress_canonical_host, canonical_form.
  destruct (Z.eqb_spec (len s) 0); simpl; [split; [done|lia]|].
  destruct (Z.ltb_spec EGRESS_MAX_HOST (len s)); [split; [done|lia]|].
  pose proof (len_nonneg s). destruct (split_on_last c_dot s) as [lab Hlab].
  destruct (has_char c_colon s && bool_decide (is_Some (inet_pton6 s))) eqn:E6.
  { apply andb_true_iff in E6 as [Ec Ep]. apply has_char_spec in Ec.
    apply bool_decide_eq_true in Ep. split.
    - intros [= <-]. split; [lia|]. by left.
    - intros [_ [(_ & _ & ->)|(? & _)]]; [done|]. done. }
  assert (Hno : ~ (c_colon ∈ s /\ is_Some (inet_pton6 s))).
  { intros [Hc Hp]. apply has_char_spec in Hc. rewrite Hc in E6. simpl in E6.
    by apply bool_decide_eq_false in E6. }
  split.
  - destruct (canonical_host_loop s [] [] []) as [[[r l] o]|] eqn:El; [|done].
    apply canonical_host_loop_Some in El; [|constructor].
    rewrite !open_segments_nil in El. simpl in El.
    destruct El as (-> & Hr & Hf & He & <-). assert (r = lab) as -> by congruence.
    destruct (negb (label_ends_well (map lower lab))) eqn:Ew; [done|].
    rewrite label_ends_well_lower in Ew. bool_simp.
    destruct (numeric_label lab && negb (strict_ipv4 s)) eqn:En; [done|].
    assert (Hlabels : Forall host_label (split_on c_dot s)) by (by eapply host_label_split).
    intros [= <-]. split; [lia|]. right. split_and!; [by apply host_label_no_colon|done|done|].
    intros label' Hl' Hn. assert (label' = lab) as -> by congruence. rewrite Hn in En. simpl in En. bool_simp.
    by apply strict_ipv4_literal.
  - intros [_ [(? & ? & _)|(_ & -> & Hlabels & Hnum)]]; [naive_solver|].
    apply (host_label_split _ _ Hlab) in Hlabels as (Hf & He & Hw).
    destruct (canonical_host_loop_exists s [] []) as [[[r l] o] El];
      [by rewrite open_segments_nil|by rewrite open_segments_nil|].
    change (map lower []) with (@nil Z) in El. rewrite El.
    apply (canonical_host_loop_Some s []) in El; [|constructor].
    rewrite !open_segments_nil in El. destruct El as (-> & Hr & _ & _ & Ho).
    assert (r = lab) as -> by congruence.
    rewrite label_ends_well_lower, Hw. simpl.
    destruct (numeric_label lab) eqn:En; simpl; [|by rewrite Ho].
    rewrite (proj2 (strict_ipv4_literal s)) by eauto. simpl. by rewrite Ho.
Qed.
End Canonical.

Lemma numeric_label_lower l : numeric_label (map lower l) = numeric_label l.
Proof.
  unfold numeric_label. rewrite len_map, !at_map_lower.
  assert (E0 : (lower (at_ l 0) =? 48) = (at_ l 0 =? 48)).
  { unfold lower, is_upper, in_range. repeat case_match; lia. }
  assert (E1 : (lower (at_ l 1) =? 120) || (lower (at_ l 1) =? 88) =
               (at_ l 1 =? 120) || (at_ l 1 =? 88)).
  { unfold lower, is_upper, in_range. repeat case_match; lia. }
  rewrite E0, E1. destruct (len l =? 0); [done|].
  set (h := (2 <? len l) && (at_ l 0 =? 48) && ((at_ l 1 =? 120) || (at_ l 1 =? 88))).
  unfold zdrop. rewrite <-fmap_drop. generalize (drop (Z.to_nat (if h then 2 else 0)) l) as d.
  induction d as [|x d IH]; simpl; [done|]. f_equal; [|exact IH].
  destruct h; simpl; [apply lower_hex|]. by rewrite !orb_false_r, lower_digit.
Qed.

Lemma map_lower_digits s : Forall (fun c => is_digit c = true) s -> map lower s = s.
Proof.
  induction 1 as [|c s Hc _ IH]; simpl; [done|]. rewrite IH. f_equal.
  unfold is_digit, lower, is_upper, in_range in *. repeat case_match; lia.
Qed.

Lemma ipv4_literal_lower s : ipv4_literal s -> map lower s = s.
Proof.
  intros (a & b & c & d & (Ha & Hb & Hc & Hd) & ->). cbn [join].
  rewrite !map_app. simpl. rewrite !map_app. simpl.
  rewrite !map_app. simpl. rewrite !map_lower_digits by (apply decimal_digits; lia). done.
Qed.

Lemma canonical_form_idem `{Inet} s t : canonical_form s t -> canonical_form t t.
Proof.
  unfold canonical_form. intros [Hl [(Hc & Hp & ->)|(Hc & -> & Hf & Hn)]].
  - split; [done|]. by left.
  - rewrite len_map. split; [done|]. right.
    assert (Hs : split_on c_dot (map lower s) = map (map lower) (split_on c_dot s))
      by apply split_on_map, lower_dot.
    assert (Hf' : Forall host_label (split_on 46 (map lower s))).
    { rewrite Hs. apply Forall_fmap. eapply Forall_impl; [exact Hf|]. intros l (H1 & H2 & H3 & H4).
      unfold compose, host_label. rewrite len_map. split_and!; try lia.
      - apply Forall_fmap. eapply Forall_impl; [exact H2|]. intros x. apply host_char_lower.
      - destruct l; [done|]. simpl. intros [= E]. apply lower_minus in E as ->. done.
      - rewrite fmap_last. destruct (last l); [|done]. simpl. intros [= E].
        apply lower_minus in E as ->. done. }
    split_and!; [by apply host_label_no_colon| |done|].
    + rewrite map_map. apply map_ext. intros. symmetry. apply lower_idem.
    + intros label Hlast Hnum. rewrite Hs, fmap_last in Hlast.
      destruct (last (split_on 46 s)) as [l0|] eqn:E0; simplify_eq/=.
      rewrite numeric_label_lower in Hnum. rewrite ipv4_literal_lower; eauto.
Qed.

(** ** Secrets *)

Lemma fold_lor_0 (f : Z -> Z) l d :
  fold_left (fun d i => Z.lor d (f i)) l d = 0 <-> d = 0 /\ Forall (fun i => f i = 0) l.
Proof.
  revert d. induction l as [|i l IH]; intros d; simpl; [naive_solver constructor|].
  rewrite IH, Z.lor_eq_0_iff, Forall_cons. tauto.
Qed.

Lemma at_inj (l r : bytes) :
  length l = length r -> (forall i, 0 <= i < len l -> at_ l i = at_ r i) -> l = r.
Proof.
  intros Hlen H. apply nth_ext with (d := 0) (d' := 0); [done|].
  intros n Hn. specialize (H (Z.of_nat n)). unfold at_, len in H.
  rewrite Nat2Z.id in H. apply H. lia.
Qed.

Lemma at_elem (l : bytes) i : 0 <= i < len l -> at_ l i ∈ l.
Proof. intros Hi. unfold at_, len in *. apply list_elem_of_In, nth_In. lia. Qed.

(** ** Addresses *)

Definition network_bytes (n : nat) (b : bytes) : Prop := length b = n /\ Forall is_byte b.

(** Membership in the block [prefix]/[plen] of a [width]-bit address space. *)
Definition in_block (width : Z) (a : Z) (block : Z * Z) : Prop :=
  a / 2 ^ (width - block.2) = block.1 / 2 ^ (width - block.2).

Definition v4 (a b c d : Z) : Z := be [a; b; c; d].
Definition v6 (a b c d e f g h : Z) : Z :=
  fold_left (fun v x => v * 65536 + x) [a; b; c; d; e; f; g; h] 0.

(** The IANA special-purpose address registries: blocks that are not globally
    reachable unicast. *)
Definition special_purpose4 : list (Z * Z) :=
  [ (v4 0 0 0 0, 8); (v4 10 0 0 0, 8); (v4 100 64 0 0, 10); (v4 127 0 0 0, 8);
    (v4 169 254 0 0, 16); (v4 172 16 0 0, 12); (v4 192 0 0 0, 24); (v4 192 0 2 0, 24);
    (v4 192 88 99 0, 24); (v4 192 168 0 0, 16); (v4 198 18 0 0, 15);
    (v4 198 51 100 0, 24); (v4 203 0 113 0, 24); (v4 224 0 0 0, 4); (v4 240 0 0 0, 4) ].

Definition special_purpose6 : list (Z * Z) :=
  [ (v6 0 0 0 0 0 0 0 0, 128); (v6 0 0 0 0 0 0 0 1, 128); (v6 0x64 0xff9b 1 0 0 0 0 0, 48);
    (v6 0x100 0 0 0 0 0 0 0, 64); (v6 0x2001 0 0 0 0 0 0 0, 23);
    (v6 0x2001 0xdb8 0 0 0 0 0 0, 32); (v6 0x2002 0 0 0 0 0 0 0, 16);
    (v6 0x3fff 0 0 0 0 0 0 0, 20); (v6 0x5f00 0 0 0 0 0 0 0, 16);
    (v6 0xfc00 0 0 0 0 0 0 0, 7); (v6 0xfe80 0 0 0 0 0 0 0, 10);
    (v6 0xff00 0 0 0 0 0 0 0, 8) ].

(** The embeddings of an IPv4 address the classifier looks through. *)
Definition embedding6 : list (Z * Z) :=
  [ (v6 0 0 0 0 0 0xffff 0 0, 96); (v6 0x64 0xff9b 0 0 0 0 0 0, 96) ].

Lemma network_bytes_4 b :
  network_bytes 4 b -> exists b0 b1 b2 b3, b = [b0; b1; b2; b3] /\
    is_byte b0 /\ is_byte b1 /\ is_byte b2 /\ is_byte b3.
Proof.
  intros [Hl Hf]. destruct b as [|b0 [|b1 [|b2 [|b3 [|]]]]]; simpl in Hl; try lia.
  rewrite !Forall_cons in Hf. naive_solver.
Qed.

Lemma ntohl_be b : network_bytes 4 b -> ntohl b = be b.
Proof.
  intros (b0 & b1 & b2 & b3 & -> & H0 & H1 & H2 & H3)%network_bytes_4.
  unfold is_byte in *. cbv [ntohl be at_ Z.to_nat Pos.to_nat Pos.iter_op Init.Nat.add nth fold_left].
  assert (E1 : Z.lor (Z.shiftl b0 24) (Z.shiftl b1 16) = Z.shiftl (b0 * 256 + b1) 16).
  { rewrite <-lor8 by done. rewrite Z.shiftl_lor, Z.shiftl_shiftl by lia. done. }
  rewrite E1.
  assert (E2 : Z.lor (Z.shiftl (b0 * 256 + b1) 16) (Z.shiftl b2 8) =
               Z.shiftl ((b0 * 256 + b1) * 256 + b2) 8).
  { rewrite <-(lor8 _ b2) by done. rewrite Z.shiftl_lor, Z.shiftl_shiftl by lia. done. }
  rewrite E2, lor8 by done. lia.
Qed.

Lemma ipv4_private_octets b0 b1 b2 b3 :
  is_byte b0 -> is_byte b1 -> is_byte b2 -> is_byte b3 ->
  Z.shiftr (ntohl [b0; b1; b2; b3]) 24 = b0 /\
  Z.land (Z.shiftr (ntohl [b0; b1; b2; b3]) 16) 255 = b1.
Proof.
  intros H0 H1 H2 H3. rewrite ntohl_be by (split; [done|forall_list]).
  unfold be. cbn [fold_left]. unfold is_byte in *.
  change 255 with (Z.ones 8). rewrite Z.land_ones by lia.
  rewrite !Z.shiftr_div_pow2 by lia.
  change (2 ^ 24) with 16777216. change (2 ^ 16) with 65536. change (2 ^ 8) with 256. zlia.
Qed.

Lemma in_block_widen w a p l l' :
  0 <= l' <= l -> l <= w -> in_block w a (p, l) -> in_block w a (p, l').
Proof.
  unfold in_block. simpl. intros Hl Hw E.
  replace (w - l') with ((w - l) + (l - l')) by lia.
  rewrite Z.pow_add_r, <-!Z.div_div by (lia || apply Z.pow_nonzero; lia || apply Z.pow_pos_nonneg; lia).
  by rewrite E.
Qed.

(** The leading [w] bits of a [w + k]-bit address decide a block of at most
    [w] bits. *)
Lemma in_block_leading w k a p l :
  0 <= l <= w -> 0 <= k -> in_block (w + k) a (p, l) -> in_block w (a / 2 ^ k) (p / 2 ^ k, l).
Proof.
  unfold in_block. simpl. intros Hl Hk.
  rewrite !Z.div_div by (lia || apply Z.pow_nonzero; lia || apply Z.pow_pos_nonneg; lia).
  rewrite <-Z.pow_add_r by lia. replace (k + (w - l)) with (w + k - l) by lia. done.
Qed.

Definition octets_private (first second : Z) : bool :=
  ipv4_private [first; second; 0; 0].

Lemma ipv4_private_leading b0 b1 b2 b3 :
  is_byte b0 -> is_byte b1 -> is_byte b2 -> is_byte b3 ->
  ipv4_private [b0; b1; b2; b3] = octets_private b0 b1.
Proof.
  intros. unfold octets_private, ipv4_private.
  destruct (ipv4_private_octets b0 b1 b2 b3) as [-> ->]; try done.
  by destruct (ipv4_private_octets b0 b1 0 0) as [-> ->].
Qed.

Definition leading_block (block : Z * Z) : Z * Z :=
  (block.1 / 2 ^ 16, Z.min block.2 16).

(** The members of a block of at most 16 bits. *)
Definition members16 (block : Z * Z) : list Z :=
  let size := 2 ^ (16 - block.2) in seqZ (block.1 / size * size) size.

Lemma elem_of_members16 x block : block.2 <= 16 -> in_block 16 x block -> x ∈ members16 block.
Proof.
  unfold in_block, members16. intros Hl E. apply elem_of_seqZ.
  assert (0 < 2 ^ (16 - block.2)) by (apply Z.pow_pos_nonneg; lia).
  pose proof (Z.div_mod x (2 ^ (16 - block.2))). pose proof (Z.mod_pos_bound x (2 ^ (16 - block.2))).
  rewrite <-E. lia.
Qed.

(** The leading octets of every block, decided by evaluation. *)
Lemma leading_blocks_private :
  forallb (fun block => forallb (fun x => octets_private (x / 256) (x mod 256))
                          (members16 (leading_block block))) special_purpose4 = true.
Proof. by vm_compute. Qed.

Lemma special_purpose4_plen block : block ∈ special_purpose4 -> 0 <= block.2 <= 32.
Proof.
  assert (H : forallb (fun block => (0 <=? block.2) && (block.2 <=? 32)) special_purpose4 = true)
    by by vm_compute.
  apply forallb_Forall in H. rewrite Forall_forall in H. intros Hb. apply H in Hb. simpl in Hb. lia.
Qed.

Lemma special_purpose4_private b block :
  network_bytes 4 b -> block ∈ special_purpose4 -> in_block 32 (be b) block ->
  ipv4_private b = true.
Proof.
  intros (b0 & b1 & b2 & b3 & -> & H0 & H1 & H2 & H3)%network_bytes_4 Hin Hb.
  rewrite ipv4_private_leading by done.
  pose proof (special_purpose4_plen _ Hin) as Hl. destruct block as [p l]. simpl in Hl.
  apply (in_block_widen _ _ _ _ (Z.min l 16)) in Hb; [|lia|lia].
  apply (in_block_leading 16 16) in Hb; [|lia|lia].
  unfold be in Hb. cbn [fold_left] in Hb. unfold is_byte in *.
  replace ((((0 * 256 + b0) * 256 + b1) * 256 + b2) * 256 + b3) with
    ((b2 * 256 + b3) + (b0 * 256 + b1) * 2 ^ 16) in Hb by lia.
  rewrite Z.div_add, Z.div_small, Z.add_0_l in Hb by lia.
  apply elem_of_members16 in Hb; [|simpl; lia].
  pose proof leading_blocks_private as HA. apply forallb_Forall in HA.
  rewrite Forall_forall in HA. specialize (HA _ Hin). cbv beta in HA.
  rewrite forallb_Forall, Forall_forall in HA. specialize (HA _ Hb). cbv beta in HA.
  replace ((b0 * 256 + b1) / 256) with b0 in HA by zlia.
  by replace ((b0 * 256 + b1) mod 256) with b1 in HA by zlia.
Qed.

Lemma network_bytes_16 b :
  network_bytes 16 b -> exists b0 b1 b2 b3 b4 b5 b6 b7 b8 b9 b10 b11 b12 b13 b14 b15,
    b = [b0; b1; b2; b3; b4; b5; b6; b7; b8; b9; b10; b11; b12; b13; b14; b15].
Proof.
  intros [Hl _]. do 16 (destruct b as [|? b]; [simpl in Hl; lia|]).
  destruct b; [|simpl in Hl; lia]. do 16 eexists. reflexivity.
Qed.

Lemma land_224 x : is_byte x -> (Z.land x 224 =? 32) = (x / 32 =? 1).
Proof.
  intros Hx. apply eqb_true_iff. revert x Hx.
  apply (byte_forall (fun x => eqb (Z.land x 224 =? 32) (x / 32 =? 1))). by vm_compute.
Qed.

Lemma land_240 x : is_byte x -> (Z.land x 240 =? 0) = (x <? 16).
Proof.
  intros Hx. apply eqb_true_iff. revert x Hx.
  apply (byte_forall (fun x => eqb (Z.land x 240 =? 0) (x <? 16))). by vm_compute.
Qed.

(** A quotient by a power of two as the interval it stands for. *)
Lemma div_interval a n c : 0 < n -> a / n = c -> c * n <= a < (c + 1) * n.
Proof. intros Hn <-. pose proof (Z.div_mod a n). pose proof (Z.mod_pos_bound a n). lia. Qed.

Ltac block_interval H :=
  unfold in_block in H; cbn [fst snd] in H;
  match type of H with
  | _ / ?n = ?c =>
      let n' := eval vm_compute in n in let c' := eval vm_compute in c in
      change c with c' in H; change n with n' in H;
      apply div_interval in H; [|lia]
  end.

(** What the classifier decides once the embeddings are set aside, on the
    leading four bytes. *)
Definition leading_private6 (b0 b1 b2 b3 : Z) : bool :=
  if negb (b0 / 32 =? 1) then true
  else if ((b0 =? 32) && (b1 =? 1) && (b2 <=? 1)) || ((b0 =? 32) && (b1 =? 2)) ||
          ((b0 =? 63) && (b1 =? 255) && (b2 <? 16)) then true
  else if (b0 =? 32) && (b1 =? 1) && (b2 =? 13) && (b3 =? 184) then true
  else false.

Lemma special_purpose6_leading b0 b1 b2 b3 p l :
  is_byte b0 -> is_byte b1 -> is_byte b2 -> is_byte b3 -> (p, l) ∈ special_purpose6 ->
  in_block 32 (be [b0; b1; b2; b3]) (p / 2 ^ 96, Z.min l 32) ->
  leading_private6 b0 b1 b2 b3 = true.
Proof.
  intros H0 H1 H2 H3 Hin Hb. unfold leading_private6.
  destruct (Z.eqb_spec (b0 / 32) 1) as [E|E]; [|done]. simpl.
  apply div_interval in E; [|lia]. unfold be in Hb. cbn [fold_left] in Hb. unfold is_byte in *.
  unfold special_purpose6 in Hin. rewrite !elem_of_cons in Hin.
  repeat (destruct Hin as [[= -> ->]|Hin]; [block_interval Hb|]);
    [.. | by apply elem_of_nil in Hin].
  all: try (exfalso; lia).
  - assert (b0 = 32) as -> by lia. assert (b1 = 1) as -> by lia.
    assert (b2 <= 1) as Hle by lia. apply Z.leb_le in Hle. by rewrite Hle.
  - assert (b0 = 32) as -> by lia. assert (b1 = 1) as -> by lia.
    assert (b2 = 13) as -> by lia. by assert (b3 = 184) as -> by lia.
  - assert (b0 = 32) as -> by lia. by assert (b1 = 2) as -> by lia.
  - assert (b0 = 63) as -> by lia. assert (b1 = 255) as -> by lia.
    assert (b2 < 16) as Hlt by lia. apply Z.ltb_lt in Hlt. by rewrite Hlt.
Qed.

Lemma take_drop_be n b :
  network_bytes 16 b -> (n <= 16)%nat ->
  be b = be (take n b) * 256 ^ (16 - Z.of_nat n) + be (drop n b) /\
  0 <= be (drop n b) < 256 ^ (16 - Z.of_nat n).
Proof.
  intros [Hl Hf] Hn. rewrite <-(take_drop n b) at 1. rewrite be_app.
  assert (E : len (drop n b) = 16 - Z.of_nat n) by (unfold len; rewrite length_drop; lia).
  pose proof (be_bound (drop n b)) as Hb. rewrite E in *. split; [done|].
  apply Hb. by apply Forall_drop.
Qed.

Lemma special_purpose6_not_embedded b block prefix :
  network_bytes 16 b -> block ∈ special_purpose6 -> in_block 128 (be b) block ->
  prefix = ipv6_mapped \/ prefix = ipv6_nat64 -> beq (take 12 b) prefix = false.
Proof.
  intros Hn Hin Hb Hp. apply beq_false. intros E.
  destruct (take_drop_be 12 b Hn) as [Ea Hlow]; [lia|]. rewrite E in Ea. rewrite Ea in Hb.
  change (256 ^ (16 - Z.of_nat 12)) with 4294967296 in *.
  revert Hb Hlow. generalize (be (drop 12 b)) as low. clear -Hin Hp. intros low Hb Hlow.
  unfold special_purpose6 in Hin. rewrite !elem_of_cons in Hin.
  destruct Hp as [-> | ->]; [change (be ipv6_mapped) with 65535 in Hb|
    let v := eval vm_compute in (be ipv6_nat64) in change (be ipv6_nat64) with v in Hb];
  (repeat (destruct Hin as [->|Hin]; [block_interval Hb; lia|])); by apply elem_of_nil in Hin.
Qed.

Lemma special_purpose6_plen block : block ∈ special_purpose6 -> 0 <= block.2 <= 128.
Proof.
  assert (H : forallb (fun block => (0 <=? block.2) && (block.2 <=? 128)) special_purpose6 = true)
    by by vm_compute.
  apply forallb_Forall in H. rewrite Forall_forall in H. intros Hb. apply H in Hb. simpl in Hb. lia.
Qed.

Lemma special_purpose6_private port flow b scope block :
  network_bytes 16 b -> block ∈ special_purpose6 -> in_block 128 (be b) block ->
  egress_address_is_private (Some (AF_INET6_addr port flow b scope)) = true.
Proof.
  intros Hn Hin Hb. unfold egress_address_is_private.
  rewrite !(special_purpose6_not_embedded b block) by auto.
  pose proof (special_purpose6_plen _ Hin) as Hl. destruct block as [p l]. simpl in Hl.
  apply (in_block_widen _ _ _ _ (Z.min l 32)) in Hb; [|lia|lia].
  apply (in_block_leading 32 96) in Hb; [|lia|lia].
  destruct (take_drop_be 4 b Hn) as [Ea Hlow]; [lia|]. rewrite Ea in Hb.
  change (256 ^ (16 - Z.of_nat 4)) with (2 ^ 96) in *.
  rewrite Z.add_comm, Z.div_add, Z.div_small, Z.add_0_l in Hb by lia.
  pose proof (proj2 Hn) as Hf. apply network_bytes_16 in Hn as (b0 & b1 & b2 & b3 & ? & ? & ? & ?
    & ? & ? & ? & ? & ? & ? & ? & ? & ->). rewrite !Forall_cons in Hf.
  cbv [at_ Z.to_nat Pos.to_nat Pos.iter_op Init.Nat.add nth].
  rewrite land_224, land_240 by apply Hf.
  by apply (special_purpose6_leading b0 b1 b2 b3 p l); try apply Hf.
Qed.

Lemma embedded4_private port flow b scope block :
  network_bytes 16 b -> block ∈ embedding6 -> in_block 128 (be b) block ->
  egress_address_is_private (Some (AF_INET6_addr port flow b scope)) =
  ipv4_private (drop 12 b).
Proof.
  intros Hn Hin Hb. destruct (take_drop_be 12 b Hn) as [Ea Hlow]; [lia|].
  assert (Ht : take 12 b = ipv6_mapped \/ take 12 b = ipv6_nat64).
  { unfold embedding6 in Hin. rewrite !elem_of_cons in Hin.
    destruct Hn as [Hl Hf]. rewrite Ea in Hb.
    change (256 ^ (16 - Z.of_nat 12)) with 4294967296 in *.
    destruct Hin as [->|[->|Hin]]; [left|right|by apply elem_of_nil in Hin];
      block_interval Hb; (apply be_inj; [by apply Forall_take|unfold ipv6_mapped, ipv6_nat64; forall_list
        |rewrite length_take, Hl; done|]).
    - change (be ipv6_mapped) with 65535. lia.
    - let v := eval vm_compute in (be ipv6_nat64) in change (be ipv6_nat64) with v. lia. }
  unfold egress_address_is_private. destruct Ht as [-> | ->]; done.
Qed.

(** * Properties *)

Section Properties.
Context `{Inet}.

(** [egress_canonical_host] accepts exactly the canonical hosts of the
    public interface's contract and returns their canonical text, for every
    platform [inet_pton]; and the text it returns is a fixed point, so a
    canonical host compares with itself whatever path it took. *)
Theorem canonical_host_correct s t :
  (egress_canonical_host s = Some t <-> canonical_form s t) /\
  (egress_canonical_host s = Some t -> egress_canonical_host t = Some t).
Proof.
  split; [apply egress_canonical_host_form|].
  rewrite !egress_canonical_host_form. apply canonical_form_idem.
Qed.
End Properties.

Lemma constant_time_equal_eq left right :
  0 ∉ left -> 0 ∉ right ->
  egress_constant_time_equal left right = true <-> left = right.
Proof.
  intros Hl Hr. unfold egress_constant_time_equal.
  rewrite Z.eqb_eq.
  set (f i := Z.lxor (if i <? len left then at_ left i else 0)
                     (if i <? len right then at_ right i else 0)).
  match goal with |- fold_left _ ?l ?x = 0 <-> _ =>
    change (fold_left (fun d i => Z.lor d (f i)) l x = 0 <-> left = right) end.
  rewrite fold_lor_0, Forall_forall. setoid_rewrite elem_of_seqZ. unfold f. setoid_rewrite Z.lxor_eq_0_iff.
  split.
  - intros [_ Hall]. assert (Hlen : len left = len right).
    { destruct (Z.lt_trichotomy (len left) (len right)) as [Hlt|[?|Hlt]]; [|done|]; exfalso.
      - specialize (Hall (len left)). rewrite Z.ltb_irrefl, (proj2 (Z.ltb_lt _ _) Hlt) in Hall.
        apply Hr. rewrite Hall; [apply at_elem|destruct (Z.ltb_spec (len right) (len left))];
          pose proof (len_nonneg left); lia.
      - specialize (Hall (len right)). rewrite Z.ltb_irrefl, (proj2 (Z.ltb_lt _ _) Hlt) in Hall.
        apply Hl. rewrite <-Hall; [apply at_elem|]; pose proof (len_nonneg right); lia. }
    apply at_inj; [unfold len in Hlen; lia|]. intros i Hi. specialize (Hall i).
    rewrite Hlen in Hall. rewrite (proj2 (Z.ltb_lt i (len right))) in Hall by lia.
    apply Hall. rewrite Z.ltb_irrefl. lia.
  - intros ->. split; [by rewrite Z.lxor_nilpotent|]. done.
Qed.

(** Two C strings compare equal under [egress_constant_time_equal] exactly
    when they are equal, although the lengths enter the accumulator truncated
    to 32 bits. *)
Theorem constant_time_equal_correct left right :
  0 ∉ left -> 0 ∉ right ->
  egress_constant_time_equal left right = true <-> left = right.
Proof. apply constant_time_equal_eq. Qed.

Lemma constant_time_equal_correct_witness :
  egress_constant_time_equal (str "0123456789abcdef") (str "0123456789abcdef") = true.
Proof. apply (constant_time_equal_correct (str "0123456789abcdef") (str "0123456789abcdef"));
  [apply has_char_false; by vm_compute|apply has_char_false; by vm_compute|reflexivity]. Defined.

(** No address of an IANA special-purpose block is classified as global:
    not an IPv4 one, not an IPv6 one, and not an IPv4 one embedded in an
    IPv4-mapped or NAT64 address. *)
Theorem special_purpose_is_private port flow scope b4 block4 b6 block6 :
  network_bytes 4 b4 -> block4 ∈ special_purpose4 -> in_block 32 (be b4) block4 ->
  network_bytes 16 b6 ->
  egress_address_is_private (Some (AF_INET_addr port b4)) = true /\
  (block6 ∈ special_purpose6 -> in_block 128 (be b6) block6 ->
     egress_address_is_private (Some (AF_INET6_addr port flow b6 scope)) = true) /\
  (block6 ∈ embedding6 -> in_block 128 (be b6) block6 -> drop 12 b6 = b4 ->
     egress_address_is_private (Some (AF_INET6_addr port flow b6 scope)) = true).
Proof.
  intros Hn4 H4 Hb4 Hn6. pose proof (special_purpose4_private _ _ Hn4 H4 Hb4) as Hp.
  split_and!; [done|by apply special_purpose6_private|].
  intros H6 Hb6 Hd. by rewrite (embedded4_private _ _ _ _ block6), Hd.
Qed.

Lemma special_purpose_is_private_witness :
  egress_address_is_private (Some (AF_INET6_addr 443 0 (ipv6_mapped ++ [169; 254; 169; 254]) 0))
  = true.
Proof.
  assert (Hn4 : network_bytes 4 [169; 254; 169; 254]).
  { split; [done|]. unfold is_byte. repeat (apply Forall_cons_2; [lia|]). constructor. }
  assert (Hn6 : network_bytes 16 (ipv6_mapped ++ [169; 254; 169; 254])).
  { split; [done|]. unfold is_byte, ipv6_mapped. simpl.
    repeat (apply Forall_cons_2; [lia|]). constructor. }
  apply (special_purpose_is_private 443 0 0 [169; 254; 169; 254] (v4 169 254 0 0, 16)
           (ipv6_mapped ++ [169; 254; 169; 254]) (v6 0 0 0 0 0 0xffff 0 0, 96));
    try done; unfold special_purpose4, embedding6; rewrite ?elem_of_cons; auto 10.
Defined.

(** The example platform obeys the laws. *)
Lemma decimal_len_byte n : is_byte n -> 1 <= len (decimal n) <= 3.
Proof.
  unfold is_byte, len. intros. pose proof (decimal_fuel_length 20 n 3) as Hl.
  unfold decimal. change (10 ^ Z.of_nat 3) with 1000 in Hl. lia.
Qed.

Lemma decimal_numeric n : 0 <= n -> Forall numeric_char (decimal n).
Proof.
  intros Hn. eapply Forall_impl; [by apply decimal_digits|]. intros c Hc. simpl in Hc.
  unfold numeric_char. by rewrite Hc.
Qed.

Lemma dotted_inet_laws : @InetLaws dotted_inet.
Proof.
  split; [done| |done]. intros b t Hl Hb [= <-].
  destruct b as [|a [|b [|c [|d [|? ?]]]]]; try done.
  rewrite !Forall_cons in Hb. destruct Hb as (Ha & Hb & Hc & Hd & _).
  assert (Hlit : ipv4_literal (join c_dot [decimal a; decimal b; decimal c; decimal d])).
  { exists a, b, c, d. unfold is_byte in *. split; [lia|done]. }
  apply strict_ipv4_literal in Hlit. change (map decimal [a; b; c; d])
    with [decimal a; decimal b; decimal c; decimal d].
  pose proof (decimal_len_byte a Ha). pose proof (decimal_len_byte b Hb).
  pose proof (decimal_len_byte c Hc). pose proof (decimal_len_byte d Hd).
  unfold is_byte in *. split_and!.
  - unfold inet_pton4, dotted_inet. rewrite Hlit. rewrite split_on_join; [|done|].
    + simpl. rewrite !undecimal_decimal by (unfold is_u64; lia). done.
    + repeat (apply Forall_cons_2; [by apply decimal_no_char; [lia|]|]). constructor.
  - unfold join. repeat (rewrite Forall_app || rewrite Forall_cons).
    split_and!; (by apply decimal_numeric; lia) || done.
  - unfold join. rewrite !len_app, !len_cons, !len_app, !len_cons, !len_app, !len_cons. lia.
Qed.
