(* ===== verification/Codec.v ===== *)
(** The wire formats of the native channel.

    [Channel] models src/core/channel.c (the request and the response of the
    mediated-connection channel) and [Bootstrap] models
    src/core/bootstrap_codec.c (the exchange that hands the channel over and
    the check of the socket path).  Both are compiled into the server and into
    the client archive, so what one side writes the other must read back: the
    law of the class [Wire]. *)

From S2P Require Import Prelude.

(** * Big-endian fields *)

Definition write_u16 (value : Z) : bytes := [u8 (Z.shiftr value 8); u8 value].

Definition write_u32 (value : Z) : bytes :=
  [u8 (Z.shiftr value 24); u8 (Z.shiftr value 16); u8 (Z.shiftr value 8); u8 value].

Definition read_u16 (b : bytes) : Z := u16 (Z.lor (Z.shiftl (at_ b 0) 8) (at_ b 1)).

Definition read_u32 (b : bytes) : Z :=
  Z.lor (Z.lor (Z.lor (u32 (Z.shiftl (at_ b 0) 24)) (Z.shiftl (at_ b 1) 16))
               (Z.shiftl (at_ b 2) 8)) (at_ b 3).

(** * What a wire format promises to the other side *)

(** [wire_encode] writes a message or refuses it; [wire_decode] reads one back
    or refuses the bytes; [wire_ok] says that the fields of a message are in
    the range of their C types.  The laws say that an encoding decodes to the
    message it was made from, and that the bytes accepted are exactly the
    encodings. *)
Class Wire (M : Type) := {
  wire_ok : M -> Prop;
  wire_encode : M -> option bytes;
  wire_decode : bytes -> option M;
  wire_decode_encode : forall m b, wire_ok m -> wire_encode m = Some b ->
    Forall is_byte b /\ wire_decode b = Some m;
  wire_encode_decode : forall m b, Forall is_byte b -> wire_decode b = Some m ->
    wire_ok m /\ wire_encode m = Some b;
}.

Module Channel.

Definition PROTOCOL_VERSION : Z := 1.
Definition REQUEST_MAGIC : Z := 0x4d454351.
Definition RESPONSE_MAGIC : Z := 0x4d454350.
Definition PROTOCOL_TCP : Z := 1.
Definition MAX_HOST : Z := 253.
Definition REQUEST_HEADER_SIZE : Z := 10.
Definition RESPONSE_SIZE : Z := 8.

Inductive maelys_egress_channel_status_t :=
| OK | DENIED | TIMEOUT | CANCELLED | MALFORMED | UNSUPPORTED | RESOURCE | INTERNAL.

#[export] Instance status_eq_dec : EqDecision maelys_egress_channel_status_t.
Proof. solve_decision. Defined.

Definition status_code (s : maelys_egress_channel_status_t) : Z :=
  match s with
  | OK => 0 | DENIED => 1 | TIMEOUT => 2 | CANCELLED => 3
  | MALFORMED => 4 | UNSUPPORTED => 5 | RESOURCE => 6 | INTERNAL => 7
  end.

Record maelys_egress_channel_request_t := Request {
  version : Z;
  protocol : Z;
  port : Z;
  host_length : Z;
  host : bytes;
}.

Definition zero_request : maelys_egress_channel_request_t := Request 0 0 0 0 [].

Record maelys_egress_channel_response_t := Response {
  response_version : Z;
  response_status : Z;
  response_reserved : Z;
}.

Definition host_bytes_valid (host : bytes) : bool :=
  forallb (fun byte => negb ((byte <? 0x21) || (0x7e <? byte))) host.

(** [None] is the return 0. *)
Definition maelys_egress_channel_encode_request (host : bytes) (port capacity : Z)
  : option bytes :=
  if port =? 0 then None
  else
    let length := len host in
    if (length =? 0) || (MAX_HOST <? length) || negb (host_bytes_valid host) then None
    else
      let total := REQUEST_HEADER_SIZE + length in
      if capacity <? total then None
      else Some (write_u32 REQUEST_MAGIC ++ [u8 PROTOCOL_VERSION; u8 PROTOCOL_TCP] ++
                 write_u16 port ++ write_u16 (u16 length) ++ host).

(** The status and the output structure, as far as it was filled. *)
Definition maelys_egress_channel_decode_request (b : bytes)
  : maelys_egress_channel_status_t * maelys_egress_channel_request_t :=
  let length := len b in
  if length <? REQUEST_HEADER_SIZE then (MALFORMED, zero_request)
  else if negb (read_u32 b =? REQUEST_MAGIC) then (MALFORMED, zero_request)
  else
    let v := at_ b 4 in
    let p := at_ b 5 in
    if negb (v =? PROTOCOL_VERSION) then (UNSUPPORTED, Request v p 0 0 [])
    else if negb (p =? PROTOCOL_TCP) then (UNSUPPORTED, Request v p 0 0 [])
    else
      let port := read_u16 (zdrop 6 b) in
      let hl := read_u16 (zdrop 8 b) in
      if port =? 0 then (MALFORMED, Request v p port hl [])
      else if hl =? 0 then (MALFORMED, Request v p port hl [])
      else if MAX_HOST <? hl then (MALFORMED, Request v p port hl [])
      else if negb (length =? REQUEST_HEADER_SIZE + hl) then (MALFORMED, Request v p port hl [])
      else
        let host := ztake hl (zdrop REQUEST_HEADER_SIZE b) in
        if negb (host_bytes_valid host) then (MALFORMED, Request v p port hl [])
        else (OK, Request v p port hl host).

(** The [status] argument is any value of the enumeration's integer type. *)
Definition maelys_egress_channel_encode_response (status capacity : Z) : option bytes :=
  if (capacity <? RESPONSE_SIZE) || (0xff <? u32 status) then None
  else Some (write_u32 RESPONSE_MAGIC ++ [u8 PROTOCOL_VERSION; u8 status; 0; 0]).

Definition maelys_egress_channel_decode_response (b : bytes)
  : option maelys_egress_channel_response_t :=
  if negb (len b =? RESPONSE_SIZE) then None
  else if negb (read_u32 b =? RESPONSE_MAGIC) then None
  else Some (Response (at_ b 4) (at_ b 5) (read_u16 (zdrop 6 b))).

(** [None] is the string of a value outside the enumeration, "unknown". *)
Definition maelys_egress_channel_status_string (s : option maelys_egress_channel_status_t)
  : bytes :=
  match s with
  | Some OK => str "ok"
  | Some DENIED => str "denied"
  | Some TIMEOUT => str "timeout"
  | Some CANCELLED => str "cancelled"
  | Some MALFORMED => str "malformed"
  | Some UNSUPPORTED => str "unsupported"
  | Some RESOURCE => str "resource"
  | Some INTERNAL => str "internal"
  | None => str "unknown"
  end.

End Channel.

Module Bootstrap.

Definition REQUEST_SIZE : Z := 8.
Definition RESPONSE_SIZE : Z := 16.

Definition OK : Z := 0.
Definition DENIED : Z := 1.
Definition BUSY : Z := 2.
Definition CANCELLED : Z := 3.
Definition MALFORMED : Z := 4.
Definition UNSUPPORTED : Z := 5.
Definition RESOURCE : Z := 6.
Definition INTERNAL : Z := 7.

Definition egress_bootstrap_request : bytes := str "MEBQ" ++ [1; 1; 0; 0].

Definition egress_bootstrap_decode_request (b : bytes) : Z :=
  if negb (len b =? REQUEST_SIZE) || negb (beq (take 4 b) (str "MEBQ")) ||
     negb (at_ b 6 =? 0) || negb (at_ b 7 =? 0)
  then MALFORMED
  else if (at_ b 4 =? 1) && (at_ b 5 =? 1) then OK else UNSUPPORTED.

Definition egress_bootstrap_response (status timeout : Z) : bytes :=
  let timeout := if negb (status =? OK) then 0 else timeout in
  str "MEBP" ++ [1; u8 status; 1; 0] ++
  map (fun i => u8 (Z.shiftr timeout (56 - 8 * i))) (seqZ 0 8).

(** [None] is the return 0; the values are [*status] and [*timeout]. *)
Definition egress_bootstrap_decode_response (b : bytes) : option (Z * Z) :=
  if negb (len b =? RESPONSE_SIZE) || negb (beq (take 4 b) (str "MEBP")) ||
     negb (at_ b 4 =? 1) || negb (at_ b 7 =? 0) ||
     (negb (at_ b 5 =? UNSUPPORTED) && negb (at_ b 6 =? 1))
  then None
  else
    let value := fold_left (fun value x => Z.lor (u64 (Z.shiftl value 8)) x) (drop 8 b) 0 in
    if negb (eqb (at_ b 5 =? OK) (negb (value =? 0))) then None
    else Some (if at_ b 5 <=? INTERNAL then at_ b 5 else INTERNAL, value).

(** The loop over the components of the path, one iteration per unit of
    fuel; each iteration but the last drops at least the slash it found. *)
Fixpoint path_loop (fuel : nat) (part : bytes) : bool :=
  match fuel with
  | O => false
  | S fuel =>
      let end_ := index_of c_slash part in
      let length := match end_ with Some i => Z.of_nat i | None => len part end in
      if (length =? 0) || ((length =? 1) && (at_ part 0 =? c_dot)) ||
         ((length =? 2) && (at_ part 0 =? c_dot) && (at_ part 1 =? c_dot)) then false
      else match end_ with
           | None => true
           | Some i => path_loop fuel (drop (S i) part)
           end
  end.

Definition egress_bootstrap_path_valid (path : bytes) : bool :=
  match path with
  | c :: (_ :: _) =>
      if negb (c =? c_slash) then false else path_loop (length path) (tail path)
  | _ => false
  end.

End Bootstrap.

(** * Lemmas on fields *)

Lemma u8_byte z : is_byte (u8 z).
Proof. unfold u8, is_byte. change (2 ^ 8) with 256. apply Z.mod_pos_bound. lia. Qed.

Lemma u8_id z : is_byte z -> u8 z = z.
Proof. unfold u8, is_byte. intros. apply Z.mod_small. change (2 ^ 8) with 256. lia. Qed.

Lemma read_u16_be a b rest :
  is_byte a -> is_byte b -> read_u16 (a :: b :: rest) = a * 256 + b.
Proof.
  intros Ha Hb. unfold read_u16. cbv [at_ Z.to_nat Pos.to_nat Pos.iter_op Init.Nat.add nth].
  rewrite lor8 by done. unfold u16, is_byte in *. apply Z.mod_small. lia.
Qed.

Lemma write_u16_be v : is_u16 v -> write_u16 v = [v / 256; v mod 256].
Proof.
  intros Hv. unfold write_u16, u8, is_u16 in *. rewrite Z.shiftr_div_pow2 by lia.
  change (2 ^ 8) with 256. change (2 ^ 16) with 65536 in *.
  rewrite (Z.mod_small (v / 256)) by zlia. done.
Qed.

Lemma read_write_u16 v rest : is_u16 v -> read_u16 (write_u16 v ++ rest) = v.
Proof.
  intros Hv. rewrite write_u16_be by done. unfold is_u16 in Hv. change (2 ^ 16) with 65536 in Hv.
  simpl. rewrite read_u16_be by (unfold is_byte; zlia). zlia.
Qed.

Lemma write_read_u16 a b rest :
  is_byte a -> is_byte b -> write_u16 (read_u16 (a :: b :: rest)) = [a; b].
Proof.
  intros Ha Hb. rewrite read_u16_be, write_u16_be by (done || unfold is_u16, is_byte in *; lia).
  unfold is_byte in *. f_equal; [zlia|]. f_equal. zlia.
Qed.

Lemma read_u16_range b : is_u16 (read_u16 b).
Proof. unfold read_u16, u16, is_u16. apply Z.mod_pos_bound. lia. Qed.

Lemma read_u32_be a b c d rest :
  is_byte a -> is_byte b -> is_byte c -> is_byte d ->
  read_u32 (a :: b :: c :: d :: rest) = be [a; b; c; d].
Proof.
  intros Ha Hb Hc Hd. unfold read_u32. cbv [at_ Z.to_nat Pos.to_nat Pos.iter_op Init.Nat.add nth].
  assert (Ea : u32 (Z.shiftl a 24) = Z.shiftl a 24).
  { unfold u32, is_byte in *. apply Z.mod_small. rewrite Z.shiftl_mul_pow2 by lia. lia. }
  assert (E1 : Z.lor (Z.shiftl a 24) (Z.shiftl b 16) = Z.shiftl (a * 256 + b) 16).
  { rewrite <-lor8 by done. rewrite Z.shiftl_lor, Z.shiftl_shiftl by lia. done. }
  assert (E2 : Z.lor (Z.shiftl (a * 256 + b) 16) (Z.shiftl c 8) =
               Z.shiftl ((a * 256 + b) * 256 + c) 8).
  { rewrite <-(lor8 _ c) by done. rewrite Z.shiftl_lor, Z.shiftl_shiftl by lia. done. }
  rewrite Ea, E1, E2, lor8 by done. unfold be. cbn [fold_left]. lia.
Qed.

(** The magic, read from the bytes that spell it and only from them. *)
Lemma read_u32_magic v b :
  is_u32 v -> Forall is_byte b -> 4 <= len b -> read_u32 b = v <-> take 4 b = write_u32 v.
Proof.
  intros Hv Hb Hl. unfold len in Hl.
  destruct b as [|a0 [|a1 [|a2 [|a3 r]]]]; simpl in Hl; try lia.
  rewrite !Forall_cons in Hb. destruct Hb as (H0 & H1 & H2 & H3 & _).
  rewrite read_u32_be by done. cbn [take]. unfold is_u32 in Hv. change (2 ^ 32) with 4294967296 in Hv.
  assert (Ew : write_u32 v = [v / 16777216; v / 65536 mod 256; v / 256 mod 256; v mod 256]).
  { unfold write_u32, u8. rewrite !Z.shiftr_div_pow2 by lia. change (2 ^ 8) with 256.
    change (2 ^ 16) with 65536. change (2 ^ 24) with 16777216.
    rewrite (Z.mod_small (v / 16777216)) by zlia. done. }
  rewrite Ew. unfold be, is_byte in *. cbn [fold_left]. split.
  - intros <-. repeat (f_equal; [zlia|]). f_equal. zlia.
  - intros [= -> -> -> ->]. zlia.
Qed.

Lemma write_u32_bytes v : Forall is_byte (write_u32 v) /\ length (write_u32 v) = 4%nat.
Proof. split; [|done]. unfold write_u32. pose proof u8_byte. repeat constructor; apply u8_byte. Qed.

Lemma write_u16_bytes v : Forall is_byte (write_u16 v) /\ length (write_u16 v) = 2%nat.
Proof. split; [|done]. unfold write_u16. repeat constructor; apply u8_byte. Qed.

(** Two messages never share an encoding. *)
Lemma wire_encode_inj `{Wire M} m1 m2 b :
  wire_ok m1 -> wire_ok m2 -> wire_encode m1 = Some b -> wire_encode m2 = Some b -> m1 = m2.
Proof.
  intros H1 H2 E1 E2. apply wire_decode_encode in E1 as [_ E1]; [|done].
  apply wire_decode_encode in E2 as [_ E2]; [|done]. congruence.
Qed.

(** * The channel *)

Module ChannelFacts.
Import Channel.

(** The fields of a request a client chooses. *)
Definition message : Type := bytes * Z.

Definition encode_message (m : message) : option bytes :=
  maelys_egress_channel_encode_request m.1 m.2 (REQUEST_HEADER_SIZE + MAX_HOST).

Definition decode_message (b : bytes) : option message :=
  match maelys_egress_channel_decode_request b with
  | (OK, r) => Some (host r, port r)
  | _ => None
  end.

Lemma host_bytes_valid_bytes h : host_bytes_valid h = true -> Forall is_byte h.
Proof.
  unfold host_bytes_valid. rewrite forallb_Forall. intros Hf. eapply Forall_impl; [exact Hf|].
  intros x Hx. simpl in Hx. unfold is_byte. bool_simp. lia.
Qed.

(** A request in the form both directions meet in. *)
Definition request_bytes (h : bytes) (p : Z) : bytes :=
  [77; 69; 67; 81; 1; 1] ++ write_u16 p ++ write_u16 (len h) ++ h.

Lemma encode_request_eq h p capacity b :
  is_u16 p ->
  maelys_egress_channel_encode_request h p capacity = Some b <->
  p <> 0 /\ 1 <= len h <= MAX_HOST /\ host_bytes_valid h = true /\
  REQUEST_HEADER_SIZE + len h <= capacity /\ b = request_bytes h p.
Proof.
  intros Hp. unfold maelys_egress_channel_encode_request, MAX_HOST.
  pose proof (len_nonneg h).
  destruct (Z.eqb_spec p 0); [naive_solver|].
  destruct (Z.eqb_spec (len h) 0); simpl; [split; [done|lia]|].
  destruct (Z.ltb_spec 253 (len h)); simpl; [split; [done|lia]|].
  destruct (host_bytes_valid h); simpl; [|naive_solver].
  destruct (Z.ltb_spec capacity (REQUEST_HEADER_SIZE + len h)); [split; [done|lia]|].
  assert (Eu : u16 (len h) = len h) by (apply Z.mod_small; lia). rewrite Eu.
  change (write_u32 REQUEST_MAGIC) with [77; 69; 67; 81]. unfold request_bytes.
  simpl. split; [intros [= <-]|intros (_ & _ & _ & _ & ->)]; [split_and!; done || lia|done].
Qed.

Lemma decode_request_bytes h p :
  is_u16 p -> p <> 0 -> 1 <= len h <= MAX_HOST -> host_bytes_valid h = true ->
  maelys_egress_channel_decode_request (request_bytes h p) = (OK, Request 1 1 p (len h) h).
Proof.
  intros Hp Hp0 Hl Hh. unfold MAX_HOST in Hl.
  assert (Hlen : len (request_bytes h p) = 10 + len h).
  { unfold request_bytes. rewrite !len_app. unfold write_u16, len. simpl. lia. }
  assert (H16 : is_u16 (len h)) by (unfold is_u16; lia).
  assert (Hb : Forall is_byte (request_bytes h p)).
  { unfold request_bytes. rewrite !Forall_app. split_and!;
      [unfold is_byte; repeat (apply Forall_cons_2; [lia|]); constructor
      |apply write_u16_bytes|apply write_u16_bytes|by apply host_bytes_valid_bytes]. }
  unfold maelys_egress_channel_decode_request. rewrite Hlen. unfold REQUEST_HEADER_SIZE.
  destruct (Z.ltb_spec (10 + len h) 10); [lia|].
  rewrite (proj2 (Z.eqb_eq (read_u32 (request_bytes h p)) REQUEST_MAGIC))
    by (apply read_u32_magic; [unfold is_u32, REQUEST_MAGIC; lia|done|lia|done]).
  change (at_ (request_bytes h p) 4) with 1. change (at_ (request_bytes h p) 5) with 1.
  change (zdrop 6 (request_bytes h p)) with (write_u16 p ++ write_u16 (len h) ++ h).
  change (zdrop 8 (request_bytes h p)) with (write_u16 (len h) ++ h).
  change (zdrop 10 (request_bytes h p)) with h.
  rewrite !read_write_u16 by done. cbn -[len Z.add Z.ltb].
  rewrite (proj2 (Z.eqb_neq p 0)), (proj2 (Z.eqb_neq (len h) 0)) by (done || lia).
  unfold MAX_HOST. destruct (Z.ltb_spec 253 (len h)); [lia|].
  rewrite Z.eqb_refl. simpl. by rewrite ztake_all, Hh by lia.
Qed.

Lemma decode_request_OK b r :
  Forall is_byte b -> maelys_egress_channel_decode_request b = (OK, r) ->
  is_u16 (port r) /\ port r <> 0 /\ 1 <= len (host r) <= MAX_HOST /\
  host_bytes_valid (host r) = true /\ b = request_bytes (host r) (port r).
Proof.
  intros Hb H. unfold maelys_egress_channel_decode_request in H.
  unfold REQUEST_HEADER_SIZE, MAX_HOST, PROTOCOL_VERSION, PROTOCOL_TCP in *.
  guards. bool_simp. simpl.
  match goal with H : read_u32 b = _ |- _ =>
    apply read_u32_magic in H; [|unfold is_u32, REQUEST_MAGIC; lia|done|lia] end.
  pose proof (read_u16_range (zdrop 8 b)). unfold is_u16 in *.
  unfold len in *. destruct b as [|m0 [|m1 [|m2 [|m3 [|v [|q [|p0 [|p1 [|l0 [|l1 h]]]]]]]]]];
    simpl in *; try lia.
  change (zdrop 10 (m0 :: m1 :: m2 :: m3 :: v :: q :: p0 :: p1 :: l0 :: l1 :: h)) with h in *.
  change (zdrop 8 (m0 :: m1 :: m2 :: m3 :: v :: q :: p0 :: p1 :: l0 :: l1 :: h)) with (l0 :: l1 :: h) in *.
  change (zdrop 6 (m0 :: m1 :: m2 :: m3 :: v :: q :: p0 :: p1 :: l0 :: l1 :: h))
    with (p0 :: p1 :: l0 :: l1 :: h) in *.
  change (at_ (m0 :: m1 :: m2 :: m3 :: v :: q :: p0 :: p1 :: l0 :: l1 :: h) 4) with v in *.
  change (at_ (m0 :: m1 :: m2 :: m3 :: v :: q :: p0 :: p1 :: l0 :: l1 :: h) 5) with q in *.
  rewrite !Forall_cons in Hb. destruct_and! Hb.
  assert (Hz : ztake (read_u16 (l0 :: l1 :: h)) h = h) by (apply ztake_all; unfold len; lia).
  rewrite Hz in *. split_and!; try lia; try done; [apply read_u16_range|apply read_u16_range|].
  unfold request_bytes. change (write_u32 REQUEST_MAGIC) with [77; 69; 67; 81] in *. simplify_eq.
  rewrite write_read_u16 by done.
  replace (len h) with (read_u16 (l0 :: l1 :: h)) by (unfold len; lia).
  by rewrite write_read_u16.
Qed.

(** What an accepted request says of the structure the server is handed. *)
Lemma decode_message_request h p b :
  Forall is_byte b -> decode_message b = Some (h, p) ->
  maelys_egress_channel_decode_request b = (OK, Request 1 1 p (len h) h) /\
  is_u16 p /\ b = request_bytes h p.
Proof.
  unfold decode_message. intros Hb E.
  destruct (maelys_egress_channel_decode_request b) as [[] r] eqn:Ed; simplify_eq.
  pose proof Ed as Hr. apply decode_request_OK in Hr as (? & ? & ? & ? & Eb); [|done].
  rewrite Eb, decode_request_bytes in Ed by done. split_and!; [by symmetry|done|done].
Qed.

#[export] Program Instance channel_wire : Wire message := {|
  wire_ok m := is_u16 m.2;
  wire_encode := encode_message;
  wire_decode := decode_message;
|}.
Next Obligation.
  intros [h p] b Hp E. simpl in *. apply encode_request_eq in E as (? & ? & ? & ? & ->); [|done].
  split.
  - unfold request_bytes. rewrite !Forall_app. split_and!;
      [unfold is_byte; repeat (apply Forall_cons_2; [lia|]); constructor
      |apply write_u16_bytes|apply write_u16_bytes|by apply host_bytes_valid_bytes].
  - unfold decode_message. by rewrite decode_request_bytes.
Qed.
Next Obligation.
  intros [h p] b Hb E. unfold decode_message in E.
  destruct (maelys_egress_channel_decode_request b) as [[] r] eqn:Ed; simplify_eq.
  apply decode_request_OK in Ed as (? & ? & ? & ? & ->); [|done]. split; [done|].
  apply encode_request_eq; [done|]. unfold REQUEST_HEADER_SIZE, MAX_HOST in *.
  simpl. split_and!; done || lia.
Qed.

End ChannelFacts.

Section ChannelProperties.
Import Channel ChannelFacts.

(** The channel request is a bijection between the (host, port) pairs the
    client may send and the byte strings the server accepts: a client buffer
    of the maximum size is filled with [b] exactly when the server decodes [b]
    to that host and port. *)
Theorem channel_request_roundtrip (h : bytes) (p : Z) (b : bytes) :
  is_u16 p -> Forall is_byte b ->
  maelys_egress_channel_encode_request h p (REQUEST_HEADER_SIZE + MAX_HOST) = Some b <->
  maelys_egress_channel_decode_request b = (OK, Request 1 1 p (len h) h).
Proof.
  intros Hp Hb. split; intros E.
  - destruct (@wire_decode_encode _ channel_wire (h, p) b Hp E) as [_ D].
    by apply decode_message_request in D as (? & _ & ?).
  - apply (@wire_encode_decode _ channel_wire (h, p) b Hb).
    simpl. unfold decode_message. by rewrite E.
Qed.

Lemma channel_request_roundtrip_witness :
  maelys_egress_channel_decode_request
    ([77; 69; 67; 81; 1; 1; 1; 187; 0; 4] ++ str "a.io") = (OK, Request 1 1 443 4 (str "a.io")).
Proof.
  apply (channel_request_roundtrip (str "a.io") 443);
    [unfold is_u16; lia|byte_list|reflexivity].
Defined.

(** The status of a channel request.  It is OK exactly for the encodings
    of some host and port, UNSUPPORTED exactly for a header of the expected
    magic whose version or protocol is not the one spoken, whatever follows,
    and MALFORMED otherwise: the decoder has no other status. *)
Theorem channel_request_status (b : bytes) :
  Forall is_byte b ->
  let status := (maelys_egress_channel_decode_request b).1 in
  (status = OK <-> exists h p, is_u16 p /\
     maelys_egress_channel_encode_request h p (REQUEST_HEADER_SIZE + MAX_HOST) = Some b) /\
  (status = UNSUPPORTED <-> REQUEST_HEADER_SIZE <= len b /\ take 4 b = str "MECQ" /\
     ~ (at_ b 4 = 1 /\ at_ b 5 = 1)) /\
  (status = OK \/ status = UNSUPPORTED \/ status = MALFORMED).
Proof.
  intros Hb status. split_and!.
  - split.
    + destruct (maelys_egress_channel_decode_request b) as [s r] eqn:E. subst status. simpl.
      intros ->. exists (host r), (port r).
      destruct (@wire_encode_decode _ channel_wire (host r, port r) b Hb) as [? ?]; [|done].
      simpl. unfold decode_message. by rewrite E.
    + intros (h & p & Hp & E). subst status.
      destruct (@wire_decode_encode _ channel_wire (h, p) b Hp E) as [_ D].
      simpl in D. unfold decode_message in D.
      by destruct (maelys_egress_channel_decode_request b) as [[] r].
  - subst status. unfold maelys_egress_channel_decode_request.
    destruct (Z.ltb_spec (len b) REQUEST_HEADER_SIZE); [simpl; split; [done|lia]|].
    unfold REQUEST_HEADER_SIZE in *.
    destruct (Z.eqb_spec (read_u32 b) REQUEST_MAGIC) as [Hm|Hm];
      rewrite read_u32_magic in Hm by (done || lia || unfold is_u32, REQUEST_MAGIC; lia);
      change (write_u32 REQUEST_MAGIC) with (str "MECQ") in Hm;
      [|simpl; split; [done|intros (_ & ? & _); done]].
    unfold PROTOCOL_VERSION, PROTOCOL_TCP.
    destruct (Z.eqb_spec (at_ b 4) 1); [|simpl; split; [intros _; split_and!; [lia|done|lia]|done]].
    destruct (Z.eqb_spec (at_ b 5) 1); [|simpl; split; [intros _; split_and!; [lia|done|lia]|done]].
    simpl. split; [repeat case_match; done|intros (_ & _ & []); lia].
  - subst status. unfold maelys_egress_channel_decode_request.
    repeat case_match; simpl; auto.
Qed.

Lemma channel_request_status_witness :
  (maelys_egress_channel_decode_request [77; 69; 67; 81; 2; 1; 0; 0; 0; 0]).1 = UNSUPPORTED.
Proof.
  destruct (channel_request_status [77; 69; 67; 81; 2; 1; 0; 0; 0; 0]) as (_ & [_ H] & _);
    [unfold is_byte; repeat (apply Forall_cons_2; [lia|]); constructor|].
  apply H. split_and!; [vm_compute; discriminate|reflexivity|vm_compute; intros [? ?]; discriminate].
Defined.

(** Every status the server can answer is read back by the client, with
    the version spoken and the reserved field zero, and its name is one no
    other status has. *)
Theorem channel_response_roundtrip (s s' : maelys_egress_channel_status_t) :
  (maelys_egress_channel_encode_response (status_code s) RESPONSE_SIZE
     ≫= maelys_egress_channel_decode_response) = Some (Response 1 (status_code s) 0) /\
  (maelys_egress_channel_encode_response (status_code s) RESPONSE_SIZE =
     maelys_egress_channel_encode_response (status_code s') RESPONSE_SIZE \/
   maelys_egress_channel_status_string (Some s) = maelys_egress_channel_status_string (Some s') ->
   s = s').
Proof. destruct s; (split; [reflexivity|]); destruct s'; vm_compute; intuition discriminate. Qed.

Lemma channel_response_roundtrip_witness : DENIED = DENIED.
Proof. apply (proj2 (channel_response_roundtrip DENIED DENIED)). left. reflexivity. Defined.

End ChannelProperties.

(** * The bootstrap *)

Section BootstrapProperties.
Import Bootstrap.

Lemma bootstrap_decode_request_OK b : egress_bootstrap_decode_request b = OK <-> b = egress_bootstrap_request.
Proof.
  unfold egress_bootstrap_decode_request, egress_bootstrap_request, REQUEST_SIZE. split; [|by intros ->].
  intros H. guards. bool_simp. rewrite beq_spec in *.
  destruct b as [|m0 [|m1 [|m2 [|m3 [|v [|q [|z0 [|z1 [|? ?]]]]]]]]]; unfold len in *; simpl in *; try lia.
  cbv [at_ Z.to_nat Pos.to_nat Pos.iter_op Init.Nat.add nth] in *.
  change (str "MEBQ") with [77; 69; 66; 81] in *. by simplify_eq.
Qed.

(** The bootstrap request and response.  The only request a server
    accepts is the one the client writes; and a client that reads the response
    made from a status and a timeout gets that status back, with the timeout
    when the status is OK and zero otherwise, provided an OK carries a nonzero
    timeout: an OK without one is refused. *)
Theorem bootstrap_roundtrip (b : bytes) (status timeout : Z) :
  0 <= status <= INTERNAL -> is_u64 timeout ->
  (egress_bootstrap_decode_request b = OK <-> b = egress_bootstrap_request) /\
  egress_bootstrap_decode_response (egress_bootstrap_response status timeout) =
    if negb (status =? OK) then Some (status, 0)
    else if timeout =? 0 then None else Some (OK, timeout).
Proof.
  intros Hs Ht. split; [apply bootstrap_decode_request_OK|].
  assert (E : egress_bootstrap_response status timeout =
              str "MEBP" ++ [1; u8 status; 1; 0] ++
              be_bytes 8 (if negb (status =? OK) then 0 else timeout)) by done.
  rewrite E. set (v := if negb (status =? OK) then 0 else timeout).
  unfold INTERNAL in Hs. rewrite u8_id by (unfold is_byte; lia).
  unfold egress_bootstrap_decode_response.
  change (drop 8 (str "MEBP" ++ [1; status; 1; 0] ++ be_bytes 8 v)) with (be_bytes 8 v).
  rewrite be_loop64, be_be_bytes by (apply be_bytes_is_byte || by rewrite length_be_bytes).
  assert (Hv : v mod 256 ^ Z.of_nat 8 = v).
  { apply Z.mod_small. unfold v, is_u64 in *. change (256 ^ Z.of_nat 8) with (2 ^ 64).
    destruct (status =? OK); simpl; lia. }
  rewrite Hv. clear Hv E.
  change (at_ (str "MEBP" ++ [1; status; 1; 0] ++ be_bytes 8 v) 5) with status.
  cbn -[be_bytes Z.eqb Z.leb]. unfold OK, INTERNAL, UNSUPPORTED in *. subst v. simpl.
  destruct (Z.eqb_spec status 0) as [->|]; simpl.
  + by destruct (timeout =? 0).
  + rewrite andb_false_r. simpl. by rewrite (proj2 (Z.leb_le status 7)) by lia.
Qed.

Lemma bootstrap_roundtrip_witness :
  egress_bootstrap_decode_response (egress_bootstrap_response OK 30000) = Some (OK, 30000).
Proof.
  apply (bootstrap_roundtrip [] OK 30000); unfold OK, INTERNAL, is_u64; lia.
Defined.

(** A component of a socket path that is neither empty nor a dot or two. *)
Definition path_component (c : bytes) : Prop := c <> [] /\ c <> str "." /\ c <> str "..".

#[export] Instance path_component_dec c : Decision (path_component c).
Proof. unfold path_component. apply _. Defined.

Lemma path_component_test c rest :
  (len c =? 0) || ((len c =? 1) && (at_ (c ++ rest) 0 =? c_dot)) ||
  ((len c =? 2) && (at_ (c ++ rest) 0 =? c_dot) && (at_ (c ++ rest) 1 =? c_dot)) =
  negb (bool_decide (path_component c)).
Proof.
  destruct c as [|x [|y [|z c]]]; [done| | |].
  - change ((x =? c_dot) || false = negb (bool_decide (path_component [x]))).
    rewrite orb_false_r. destruct (Z.eqb_spec x c_dot) as [->|]; [done|].
    rewrite bool_decide_true; [done|]. unfold path_component, str. naive_solver.
  - change ((x =? c_dot) && (y =? c_dot) = negb (bool_decide (path_component [x; y]))).
    destruct (Z.eqb_spec x c_dot) as [->|]; [destruct (Z.eqb_spec y c_dot) as [->|]; [done|]|];
      (rewrite bool_decide_true; [done|]; unfold path_component, str; naive_solver).
  - rewrite bool_decide_true by (unfold path_component, str; naive_solver).
    unfold len. rewrite !length_cons.
    destruct (Z.eqb_spec (Z.of_nat (S (S (S (length c))))) 0); [lia|].
    destruct (Z.eqb_spec (Z.of_nat (S (S (S (length c))))) 1); [lia|].
    by destruct (Z.eqb_spec (Z.of_nat (S (S (S (length c))))) 2); [lia|].
Qed.

(** The loop examines the components one by one, and fuel for every byte is
    enough. *)
Lemma path_loop_components fuel part :
  (length part < fuel)%nat ->
  path_loop fuel part = true <-> Forall path_component (split_on c_slash part).
Proof.
  revert part. induction fuel as [|fuel IH]; intros part Hf; [lia|].
  cbn [path_loop]. destruct (index_of c_slash part) as [i|] eqn:Ei.
  - apply index_of_Some in Ei as (Ep & Hc & Hi).
    pose proof (path_component_test (take i part) (c_slash :: drop (S i) part)) as Et.
    rewrite <-Ep in Et. unfold len in Et. rewrite length_take, Nat.min_l in Et by lia.
    assert (Es : split_on c_slash part = take i part :: split_on c_slash (drop (S i) part))
      by (by rewrite <-split_on_app, <-Ep).
    rewrite Et, Es, Forall_cons.
    destruct (decide (path_component (take i part))) as [Hp|Hp];
      [rewrite bool_decide_true by done|rewrite bool_decide_false by done]; simpl; [|naive_solver].
    rewrite IH by (rewrite length_drop; lia). naive_solver.
  - pose proof (path_component_test part []) as Et. rewrite app_nil_r in Et. rewrite Et.
    apply index_of_None in Ei. rewrite (split_on_free _ _ part Ei eq_refl).
    destruct (decide (path_component part)) as [Hc|Hc];
      [rewrite bool_decide_true by done|rewrite bool_decide_false by done]; simpl.
    + split; [intros _; by apply Forall_singleton|done].
    + split; [done|]. by intros [? _]%Forall_cons.
Qed.

(** The socket paths a channel may be bound to are exactly the absolute
    ones in canonical form: a slash and then components, separated by single
    slashes, none of them empty, "." or "..". *)
Theorem bootstrap_path_canonical (path : bytes) :
  egress_bootstrap_path_valid path = true <->
  exists components, components <> [] /\ path = c_slash :: join c_slash components /\
    Forall (fun c => path_component c /\ c_slash ∉ c) components.
Proof.
  unfold egress_bootstrap_path_valid. split.
  - destruct path as [|x [|y path]]; [done|done|].
    destruct (Z.eqb_spec x c_slash) as [->|]; [|done]. cbn [negb tail].
    rewrite path_loop_components by (simpl; lia). intros H.
    exists (split_on c_slash (y :: path)). split_and!.
    + by destruct (split_on_nonempty c_slash (y :: path)) as (? & ? & ->).
    + by rewrite join_split_on.
    + apply Forall_and. split; [done|apply split_on_segments].
  - intros (cs & Hn & -> & H). apply Forall_and in H as [Hc Hf].
    assert (Hj : split_on c_slash (join c_slash cs) = cs) by (by apply split_on_join).
    destruct (join c_slash cs) as [|y path] eqn:Ej.
    + simpl in Hj. subst cs. apply Forall_cons in Hc as [[Hc _] _]. done.
    + rewrite Z.eqb_refl. cbn [negb tail]. rewrite path_loop_components by (simpl; lia).
      by rewrite Hj.
Qed.

End BootstrapProperties.
