(* ===== verification/Sha256.v ===== *)
(** SHA-256 and HMAC-SHA-256 (src/core/sha256.c and [egress_hmac_sha256] of
    src/audit.c).

    The context of the code (state, bit count, partial block) is a record, its
    two loops are folds over the index, and [update] runs on fuel.  [Fips] is
    the hash as FIPS 180-4 defines it: a padded message, cut into blocks, with
    the message schedule as a recurrence and rotations as arithmetic; the
    theorems relate the two. *)

From S2P Require Import Prelude.

(** * The code *)

Record sha256_context_t := Context {
  state : list Z;
  bit_count : Z;
  block : bytes;
  block_length : Z;
}.

Definition rotate_right (value count : Z) : Z :=
  Z.lor (Z.shiftr value count) (u32 (Z.shiftl value (32 - count))).

Definition load_be32 (b : bytes) : Z :=
  Z.lor (Z.lor (Z.lor (u32 (Z.shiftl (at_ b 0) 24)) (Z.shiftl (at_ b 1) 16))
               (Z.shiftl (at_ b 2) 8)) (at_ b 3).

Definition store_be32 (value : Z) : bytes :=
  [u8 (Z.shiftr value 24); u8 (Z.shiftr value 16); u8 (Z.shiftr value 8); u8 value].

(** The words of a table of hexadecimal digits, eight to a word. *)
Definition hex_digit_value (c : Z) : Z := if is_digit c then c - c_0 else c - c_a + 10.

Definition hex_words (table : bytes) : list Z :=
  map (fun i => fold_left (fun v c => v * 16 + hex_digit_value c) (take 8 (drop (8 * i) table)) 0)
    (seq 0 (length table / 8)).

(** The array [constants], a row of the table per row of the source. *)
Definition constants : list Z :=
  Eval vm_compute in hex_words (concat (map str
   ["428a2f9871374491b5c0fbcfe9b5dba53956c25b59f111f1923f82a4ab1c5ed5";
    "d807aa9812835b01243185be550c7dc372be5d7480deb1fe9bdc06a7c19bf174";
    "e49b69c1efbe47860fc19dc6240ca1cc2de92c6f4a7484aa5cb0a9dc76f988da";
    "983e5152a831c66db00327c8bf597fc7c6e00bf3d5a7914706ca635114292967";
    "27b70a852e1b21384d2c6dfc53380d13650a7354766a0abb81c2c92e92722c85";
    "a2bfe8a1a81a664bc24b8b70c76c51a3d192e819d6990624f40e3585106aa070";
    "19a4c1161e376c082748774c34b0bcb5391c0cb34ed8aa4a5b9cca4f682e6ff3";
    "748f82ee78a5636f84c878148cc7020890befffaa4506cebbef9a3f7c67178f2"]%string)).

(** [words[i] = ...] of the second loop; the array is the list of the words
    filled so far. *)
Definition extend_words (words : list Z) (i : nat) : list Z :=
  let w15 := nth (i - 15) words 0 in
  let w2 := nth (i - 2) words 0 in
  let s0 := Z.lxor (Z.lxor (rotate_right w15 7) (rotate_right w15 18)) (Z.shiftr w15 3) in
  let s1 := Z.lxor (Z.lxor (rotate_right w2 17) (rotate_right w2 19)) (Z.shiftr w2 10) in
  words ++ [u32 (nth (i - 16) words 0 + s0 + nth (i - 7) words 0 + s1)].

Definition message_words (b : bytes) : list Z :=
  let first := map (fun i => load_be32 (drop (4 * i) b)) (seq 0 16) in
  fold_left extend_words (seq 16 48) first.

(** The eight working variables. *)
Record working := Working { va : Z; vb : Z; vc : Z; vd : Z; ve : Z; vf : Z; vg : Z; vh : Z }.

Definition round (words : list Z) (v : working) (i : nat) : working :=
  let '(Working a b c d e f g h) := v in
  let s1 := Z.lxor (Z.lxor (rotate_right e 6) (rotate_right e 11)) (rotate_right e 25) in
  let choice := Z.lxor (Z.land e f) (Z.land (u32 (Z.lnot e)) g) in
  let first := u32 (h + s1 + choice + nth i constants 0 + nth i words 0) in
  let s0 := Z.lxor (Z.lxor (rotate_right a 2) (rotate_right a 13)) (rotate_right a 22) in
  let majority := Z.lxor (Z.lxor (Z.land a b) (Z.land a c)) (Z.land b c) in
  let second := u32 (s0 + majority) in
  Working (u32 (first + second)) a b c (u32 (d + first)) e f g.

(** [transform], on the state of the context. *)
Definition transform (st : list Z) (b : bytes) : list Z :=
  let words := message_words b in
  let s i := nth i st 0 in
  let v := fold_left (round words) (seq 0 64)
             (Working (s 0%nat) (s 1%nat) (s 2%nat) (s 3%nat)
                      (s 4%nat) (s 5%nat) (s 6%nat) (s 7%nat)) in
  let '(Working a b c d e f g h) := v in
  [u32 (s 0%nat + a); u32 (s 1%nat + b); u32 (s 2%nat + c); u32 (s 3%nat + d);
   u32 (s 4%nat + e); u32 (s 5%nat + f); u32 (s 6%nat + g); u32 (s 7%nat + h)].

(** One iteration of the loop of [update] per unit of fuel; each consumes at
    least one byte, so the length of the input is enough. *)
Fixpoint update_loop (fuel : nat) (context : sha256_context_t) (b : bytes) : sha256_context_t :=
  match fuel, b with
  | _, [] => context
  | O, _ => context
  | S fuel, _ =>
      let available := 64 - block_length context in
      let count := if len b <? available then len b else available in
      let blk := ztake (block_length context) (block context) ++ ztake count b ++
                 zdrop (block_length context + count) (block context) in
      let bl := block_length context + count in
      let context :=
        if bl =? 64 then Context (transform (state context) blk) (bit_count context) blk 0
        else Context (state context) (bit_count context) blk bl in
      update_loop fuel context (zdrop count b)
  end.

Definition update (context : sha256_context_t) (b : bytes) : sha256_context_t :=
  update_loop (length b)
    (Context (state context) (u64 (bit_count context + u64 (len b * 8)))
             (block context) (block_length context)) b.

Definition initial_state : list Z :=
  [0x6a09e667;0xbb67ae85;0x3c6ef372;0xa54ff53a;0x510e527f;0x9b05688c;0x1f83d9ab;0x5be0cd19].

Definition egress_sha256 (data : bytes) : bytes :=
  let context := Context initial_state 0 (repeat 0 64) 0 in
  let context := update context data in
  let pad := 0x80 :: repeat 0 127 in
  let pad_length := if block_length context <? 56 then 56 - block_length context
                    else 120 - block_length context in
  let original_bits := bit_count context in
  let context := update context (ztake pad_length pad) in
  let length_bytes := rev (map (fun i => u8 (Z.shiftr original_bits (i * 8))) (seqZ 0 8)) in
  let context := update context length_bytes in
  concat (map (fun i => store_be32 (nth i (state context) 0)) (seq 0 8)).

Definition hex_digit (n : Z) : Z := at_ (str "0123456789abcdef") n.

(** [bytes_to_hex] of server/receipt.c, [hex_encode] of audit.c and the loop of
    [egress_sha256_hex] are the same code. *)
Definition hex_encode (b : bytes) : bytes :=
  concat (map (fun x => [hex_digit (Z.shiftr x 4); hex_digit (Z.land x 0x0f)]) b).

Definition egress_sha256_hex (data : bytes) : bytes := hex_encode (egress_sha256 data).

(** The two failures are an input whose length would wrap and an allocation
    that fails; [None] is the return 0. *)
Definition egress_hmac_sha256 (alloc : bool) (key data : bytes) : option bytes :=
  let normalized :=
    if 64 <? len key then egress_sha256 key ++ repeat 0 32
    else key ++ repeat 0 (64 - length key) in
  let inner_pad := map (fun x => u8 (Z.lxor x 0x36)) normalized in
  let outer_pad := map (fun x => u8 (Z.lxor x 0x5c)) normalized in
  if SIZE_MAX - 64 <? len data then None
  else if negb alloc then None
  else
    let inner_digest := egress_sha256 (inner_pad ++ data) in
    Some (egress_sha256 (outer_pad ++ inner_digest)).

(** * The standard *)

Module Fips.

Definition rotr (n x : Z) : Z := x / 2 ^ n + (x mod 2 ^ n) * 2 ^ (32 - n).
Definition shr (n x : Z) : Z := x / 2 ^ n.
Definition ch (x y z : Z) : Z := Z.lxor (Z.land x y) (Z.land (2 ^ 32 - 1 - x) z).
Definition maj (x y z : Z) : Z := Z.lxor (Z.lxor (Z.land x y) (Z.land x z)) (Z.land y z).
Definition Sigma0 (x : Z) : Z := Z.lxor (Z.lxor (rotr 2 x) (rotr 13 x)) (rotr 22 x).
Definition Sigma1 (x : Z) : Z := Z.lxor (Z.lxor (rotr 6 x) (rotr 11 x)) (rotr 25 x).
Definition sigma0 (x : Z) : Z := Z.lxor (Z.lxor (rotr 7 x) (rotr 18 x)) (shr 3 x).
Definition sigma1 (x : Z) : Z := Z.lxor (Z.lxor (rotr 17 x) (rotr 19 x)) (shr 10 x).

(** Addition of 32-bit words. *)
Definition add (l : list Z) : Z := foldr Z.add 0 l mod 2 ^ 32.

(** The schedule of section 6.2.2, step 1, as a recurrence: the last sixteen
    words give the next. *)
Definition next_word (window : list Z) : Z :=
  add [sigma1 (nth 14 window 0); nth 9 window 0; sigma0 (nth 1 window 0); nth 0 window 0].

Fixpoint schedule (n : nat) (window : list Z) : list Z :=
  match n with
  | O => []
  | S n => nth 0 window 0 :: schedule n (tail window ++ [next_word window])
  end.

Definition block_words (b : bytes) : list Z :=
  map (fun i => be (take 4 (drop (4 * i) b))) (seq 0 16).

(** Step 3, for one word of the schedule and its constant. *)
Definition step (v : list Z) (kw : Z * Z) : list Z :=
  match v with
  | [a; b; c; d; e; f; g; h] =>
      let t1 := add [h; Sigma1 e; ch e f g; kw.1; kw.2] in
      let t2 := add [Sigma0 a; maj a b c] in
      [add [t1; t2]; a; b; c; add [d; t1]; e; f; g]
  | _ => v
  end.

(** The constants of sections 4.2.2 and 5.3.3: the first 32 bits of the
    fractional parts of the cube roots of the first sixty-four primes, and of
    the square roots of the first eight. *)
Definition primes : list Z :=
  List.filter (fun n => forallb (fun d => negb (n mod d =? 0)) (seqZ 2 (n - 2))) (seqZ 2 310).

(** The integer cube root, bit by bit from the top. *)
Fixpoint cube_root (bits : nat) (root n : Z) : Z :=
  match bits with
  | O => root
  | S bits =>
      let candidate := root + 2 ^ Z.of_nat bits in
      cube_root bits (if candidate ^ 3 <=? n then candidate else root) n
  end.

Definition K : list Z := map (fun p => cube_root 36 0 (p * 2 ^ 96) mod 2 ^ 32) primes.

Definition H0 : list Z := map (fun p => Z.sqrt (p * 2 ^ 64) mod 2 ^ 32) (take 8 primes).

Definition compress (st : list Z) (b : bytes) : list Z :=
  zip_with (fun x y => add [x; y]) st
    (fold_left step (zip K (schedule 64 (block_words b))) st).

(** The padding of section 5.1.1, in bytes: the bit 1, the least number of
    zeroes that reaches a length of 56 modulo 64, the length in bits. *)
Definition padding (n : Z) : bytes :=
  0x80 :: repeat 0 (Z.to_nat ((55 - n) mod 64)) ++ be_bytes 8 (8 * n).

Definition blocks (m : bytes) : list bytes :=
  map (fun i => take 64 (drop (64 * i) m)) (seq 0 (length m / 64)).

Definition hash (m : bytes) : list Z := fold_left compress (blocks m) H0.

Definition sha256 (m : bytes) : bytes :=
  concat (map (be_bytes 4) (hash (m ++ padding (len m)))).

(** HMAC as RFC 2104 defines it, over blocks of 64 bytes. *)
Definition hmac (key text : bytes) : bytes :=
  let k := if 64 <? len key then sha256 key else key in
  let k0 := k ++ repeat 0 (64 - length k) in
  sha256 (map (Z.lxor 0x5c) k0 ++ sha256 (map (Z.lxor 0x36) k0 ++ text)).

End Fips.

(** * Words *)

#[local] Open Scope Z_scope.

Lemma u32_range z : is_u32 (u32 z).
Proof. unfold is_u32, u32. apply Z.mod_pos_bound. lia. Qed.

Lemma u32_bitwise (f : Z -> Z -> Z) (fb : bool -> bool -> bool) :
  (forall a b n, 0 <= n -> Z.testbit (f a b) n = fb (Z.testbit a n) (Z.testbit b n)) ->
  fb false false = false ->
  forall x y, is_u32 x -> is_u32 y -> is_u32 (f x y).
Proof.
  intros Hf Hb x y Hx Hy. unfold is_u32.
  replace (f x y) with (f x y mod 2 ^ 32); [apply Z.mod_pos_bound; lia|].
  apply Z.bits_inj'. intros n Hn. destruct (Z.lt_ge_cases n 32).
  - by rewrite Z.mod_pow2_bits_low by lia.
  - rewrite Z.mod_pow2_bits_high, Hf by lia.
    rewrite <-(Z.mod_small x (2 ^ 32)), <-(Z.mod_small y (2 ^ 32)) by done.
    by rewrite !Z.mod_pow2_bits_high by lia.
Qed.

Lemma u32_lxor x y : is_u32 x -> is_u32 y -> is_u32 (Z.lxor x y).
Proof. apply (u32_bitwise Z.lxor xorb); [intros; apply Z.lxor_spec|done]. Qed.

Lemma u32_land x y : is_u32 x -> is_u32 y -> is_u32 (Z.land x y).
Proof. apply (u32_bitwise Z.land andb); [intros; apply Z.land_spec|done]. Qed.

Lemma u32_lnot x : is_u32 x -> u32 (Z.lnot x) = 2 ^ 32 - 1 - x.
Proof.
  intros Hx. unfold u32, is_u32 in *. unfold Z.lnot. symmetry.
  apply Z.mod_unique_pos with (q := -1); lia.
Qed.

Lemma rotate_right_rotr x n : is_u32 x -> 0 < n < 32 -> rotate_right x n = Fips.rotr n x.
Proof.
  intros Hx Hn. unfold rotate_right, Fips.rotr, u32, is_u32 in *.
  rewrite Z.shiftr_div_pow2, Z.shiftl_mul_pow2 by lia.
  assert (H32 : 2 ^ 32 = 2 ^ n * 2 ^ (32 - n)) by (rewrite <-Z.pow_add_r by lia; f_equal; lia).
  assert (0 < 2 ^ n) by (apply Z.pow_pos_nonneg; lia).
  assert (0 < 2 ^ (32 - n)) by (apply Z.pow_pos_nonneg; lia).
  rewrite H32 in Hx |- *. rewrite Z.mul_mod_distr_r by lia.
  rewrite Z.lor_comm, <-Z.shiftl_mul_pow2 by lia.
  rewrite lor_disjoint; [rewrite Z.shiftl_mul_pow2 by lia; lia|lia|].
  split; [apply Z.div_pos; lia|]. apply Z.div_lt_upper_bound; lia.
Qed.

Lemma rotr_range x n : is_u32 x -> 0 < n < 32 -> is_u32 (Fips.rotr n x).
Proof.
  intros Hx Hn. unfold Fips.rotr, is_u32 in *.
  assert (H32 : 2 ^ 32 = 2 ^ n * 2 ^ (32 - n)) by (rewrite <-Z.pow_add_r by lia; f_equal; lia).
  assert (0 < 2 ^ n) by (apply Z.pow_pos_nonneg; lia).
  assert (0 < 2 ^ (32 - n)) by (apply Z.pow_pos_nonneg; lia).
  rewrite H32 in Hx |- *. pose proof (Z.mod_pos_bound x (2 ^ n)).
  assert (0 <= x / 2 ^ n < 2 ^ (32 - n))
    by (split; [apply Z.div_pos; lia|apply Z.div_lt_upper_bound; lia]).
  nia.
Qed.

Lemma load_be32_be b :
  Forall is_byte b -> (4 <= length b)%nat -> load_be32 b = be (take 4 b) /\ is_u32 (load_be32 b).
Proof.
  intros Hb Hl. destruct b as [|x0 [|x1 [|x2 [|x3 b]]]]; simpl in Hl; try lia.
  rewrite !Forall_cons in Hb. destruct Hb as (H0 & H1 & H2 & H3 & _).
  assert (E : load_be32 (x0 :: x1 :: x2 :: x3 :: b) = be [x0; x1; x2; x3]).
  { unfold load_be32. cbv [at_ Z.to_nat Pos.to_nat Pos.iter_op Init.Nat.add nth].
    unfold u32. rewrite Z.mod_small
      by (rewrite Z.shiftl_mul_pow2 by lia; unfold is_byte in *; lia).
    change 24 with (16 + 8). rewrite <-Z.shiftl_shiftl by lia.
    replace (Z.shiftl (Z.shiftl x0 16) 8) with (Z.shiftl (Z.shiftl (Z.shiftl x0 8) 8) 8)
      by (rewrite !Z.shiftl_shiftl by lia; f_equal; lia).
    replace (Z.shiftl x1 16) with (Z.shiftl (Z.shiftl x1 8) 8)
      by (rewrite !Z.shiftl_shiftl by lia; f_equal; lia).
    rewrite <-!Z.shiftl_lor. rewrite !lor8 by done. reflexivity. }
  split; [exact E|]. rewrite E. apply be_bound. forall_list.
Qed.

(** * The message schedule *)

Lemma extend_words_next ws :
  Forall is_u32 ws -> (16 <= length ws)%nat ->
  extend_words ws (length ws) = ws ++ [Fips.next_word (drop (length ws - 16) ws)].
Proof.
  intros Hw Hl. unfold extend_words. f_equal. f_equal.
  assert (Hr : forall i, is_u32 (nth i ws 0)).
  { intros i. destruct (nth_in_or_default i ws 0) as [Hi| ->]; [|unfold is_u32; lia].
    rewrite Forall_forall in Hw. apply Hw. by apply list_elem_of_In. }
  assert (Hn : forall k, nth k (drop (length ws - 16) ws) 0 = nth (length ws - 16 + k) ws 0).
  { intros k. rewrite <-(take_drop (length ws - 16) ws) at 4.
    rewrite app_nth2; rewrite length_take; [f_equal; lia|lia]. }
  unfold Fips.next_word, Fips.add, Fips.sigma0, Fips.sigma1, Fips.shr. rewrite !Hn.
  replace (length ws - 16 + 14)%nat with (length ws - 2)%nat by lia.
  replace (length ws - 16 + 9)%nat with (length ws - 7)%nat by lia.
  replace (length ws - 16 + 1)%nat with (length ws - 15)%nat by lia.
  replace (length ws - 16 + 0)%nat with (length ws - 16)%nat by lia.
  rewrite !rotate_right_rotr by (done || lia). rewrite !Z.shiftr_div_pow2 by lia.
  unfold u32. simpl. f_equal. lia.
Qed.

Lemma schedule_16 w : length w = 16%nat -> Fips.schedule 16 w = w.
Proof.
  intros H. do 16 (destruct w as [|? w]; [done|]). destruct w; [reflexivity|done].
Qed.

Lemma length_schedule n w : length (Fips.schedule n w) = n.
Proof. revert w. induction n; intros w; simpl; [done|]. by rewrite IHn. Qed.

(** The array filled in place is the recurrence unrolled. *)
Lemma extend_words_schedule n ws :
  Forall is_u32 ws -> (16 <= length ws)%nat ->
  fold_left extend_words (seq (length ws) n) ws =
    take (length ws - 16) ws ++ Fips.schedule (n + 16) (drop (length ws - 16) ws) /\
  Forall is_u32 (fold_left extend_words (seq (length ws) n) ws).
Proof.
  revert ws. induction n as [|n IH]; intros ws Hw Hl; cbn [seq fold_left Nat.add].
  - rewrite schedule_16 by (rewrite length_drop; lia). by rewrite take_drop.
  - rewrite extend_words_next by done.
    destruct (drop (length ws - 16) ws) as [|y l] eqn:Ed.
    { apply (f_equal length) in Ed. rewrite length_drop in Ed. simpl in Ed. lia. }
    assert (Ew : ws = take (length ws - 16) ws ++ y :: l) by (by rewrite <-Ed, take_drop).
    assert (Ht : length (take (length ws - 16) ws) = (length ws - 16)%nat)
      by (rewrite length_take; lia).
    set (A := take (length ws - 16) ws) in *. clearbody A.
    set (x := Fips.next_word (y :: l)).
    assert (Hx : Forall is_u32 (ws ++ [x]))
      by (apply Forall_app; split; [done|]; apply Forall_singleton, u32_range).
    destruct (IH (ws ++ [x])) as [E F]; [done|rewrite length_app; lia|].
    rewrite length_app in E, F. cbn [length] in E, F.
    rewrite Nat.add_1_r in E, F. split; [|exact F]. rewrite E. clear E F IH Hx.
    replace (S (length ws) - 16)%nat with (length (A ++ [y])) by (rewrite length_app; simpl; lia).
    assert (Ews : ws ++ [x] = (A ++ [y]) ++ l ++ [x]) by (rewrite Ew, <-!app_assoc; done).
    rewrite Ews, take_app_length, drop_app_length, <-app_assoc. done.
Qed.

Lemma block_words_u32 b :
  Forall is_byte b -> length b = 64%nat ->
  map (fun i => load_be32 (drop (4 * i) b)) (seq 0 16) = Fips.block_words b /\
  Forall is_u32 (Fips.block_words b).
Proof.
  intros Hb Hl. assert (H : forall i, (i < 16)%nat ->
    load_be32 (drop (4 * i) b) = be (take 4 (drop (4 * i) b)) /\
    is_u32 (load_be32 (drop (4 * i) b))).
  { intros i Hi. apply load_be32_be; [by apply Forall_drop|rewrite length_drop; lia]. }
  unfold Fips.block_words. split.
  - apply map_ext_in. intros i [_ Hi]%in_seq. apply H. lia.
  - apply Forall_forall. intros x (i & -> & Hi)%list_elem_of_fmap.
    apply elem_of_seq in Hi. destruct (H i) as [<- ?]; [lia|done].
Qed.

Lemma message_words_schedule b :
  Forall is_byte b -> length b = 64%nat ->
  message_words b = Fips.schedule 64 (Fips.block_words b) /\ Forall is_u32 (message_words b).
Proof.
  intros Hb Hl. destruct (block_words_u32 b Hb Hl) as [E F]. unfold message_words. cbv zeta. rewrite E.
  assert (L : length (Fips.block_words b) = 16%nat) by done.
  destruct (extend_words_schedule 48 (Fips.block_words b)) as [E' F']; [done|by rewrite L|].
  rewrite L in E', F'. change (16 - 16)%nat with 0%nat in E'.
  rewrite take_0, drop_0 in E'. change (48 + 16)%nat with 64%nat in E'.
  rewrite app_nil_l in E'. rewrite E'. rewrite E' in F'.
  split; [reflexivity|exact F'].
Qed.

(** * The compression function *)

Definition registers (v : working) : list Z :=
  [va v; vb v; vc v; vd v; ve v; vf v; vg v; vh v].

Lemma round_step words v i :
  Forall is_u32 (registers v) ->
  registers (round words v i) =
    Fips.step (registers v) (nth i constants 0, nth i words 0) /\
  Forall is_u32 (registers (round words v i)).
Proof.
  destruct v as [a b c d e f g h]. unfold registers, round.
  generalize (nth i constants 0) (nth i words 0). intros k w.
  cbn [va vb vc vd ve vf vg vh]. intros Hv.
  assert (Hr : is_u32 a /\ is_u32 e) by
    (split; [apply (Forall_lookup_1 _ _ 0%nat a Hv)|apply (Forall_lookup_1 _ _ 4%nat e Hv)]; done).
  destruct Hr as [Ha He]. rewrite !rotate_right_rotr, u32_lnot by (done || lia).
  unfold Fips.step, Fips.add, Fips.Sigma1, Fips.Sigma0, Fips.ch, Fips.maj, u32.
  cbn [foldr fst snd]. rewrite !Z.add_0_r, !Z.add_assoc. split; [reflexivity|].
  repeat match goal with H : Forall _ (_ :: _) |- _ => apply Forall_cons in H as [? H] end.
  repeat (apply Forall_cons_2; [first [assumption|apply u32_range]|]). constructor.
Qed.

Lemma fold_left_nth {A B} (f : A -> B * B -> A) (d : B) l1 l2 v :
  length l1 = length l2 ->
  fold_left f (zip l1 l2) v =
  fold_left (fun v i => f v (nth i l1 d, nth i l2 d)) (seq 0 (length l1)) v.
Proof.
  revert l2 v. induction l1 as [|x l1 IH]; intros [|y l2] v Hl; try done.
  cbn [length seq fold_left zip zip_with nth]. rewrite <-seq_shift.
  rewrite (IH l2) by (simpl in Hl; lia).
  generalize (f v (x, y)) as w. generalize (seq 0 (length l1)) as s.
  induction s as [|i s IHs]; intros w; [done|]. simpl. apply IHs.
Qed.

Lemma rounds_steps words l v :
  Forall is_u32 (registers v) ->
  registers (fold_left (round words) l v) =
    fold_left (fun r i => Fips.step r (nth i constants 0, nth i words 0)) l (registers v) /\
  Forall is_u32 (registers (fold_left (round words) l v)).
Proof.
  revert v. induction l as [|i l IH]; intros v Hv; [done|]. cbn [fold_left].
  destruct (round_step words v i Hv) as [E F]. rewrite <-E. by apply IH.
Qed.

(** The tables of the code are the constants of the standard. *)
Lemma constants_K : constants = Fips.K.
Proof. vm_compute. reflexivity. Qed.

Lemma initial_state_H0 : initial_state = Fips.H0.
Proof. vm_compute. reflexivity. Qed.

Lemma transform_compress st b :
  Forall is_u32 st -> length st = 8%nat -> Forall is_byte b -> length b = 64%nat ->
  transform st b = Fips.compress st b /\ Forall is_u32 (transform st b).
Proof.
  intros Hs Hl Hb Hlb. do 8 (destruct st as [|? st]; [done|]). destruct st; [|done].
  unfold transform, Fips.compress. rewrite <-constants_K. cbn [nth].
  destruct (message_words_schedule b Hb Hlb) as [Ew Fw]. rewrite <-Ew.
  destruct (rounds_steps (message_words b) (seq 0 64) (Working z z0 z1 z2 z3 z4 z5 z6) Hs)
    as [Er Fr].
  rewrite (fold_left_nth _ 0) by (rewrite Ew, length_schedule; reflexivity).
  change (length constants) with 64%nat.
  change [z; z0; z1; z2; z3; z4; z5; z6]
    with (registers (Working z z0 z1 z2 z3 z4 z5 z6)). rewrite <-Er.
  destruct (fold_left (round (message_words b)) (seq 0 64) _) as [a' b' c' d' e' f' g' h'].
  unfold registers, Fips.add, u32. cbn -[Z.pow].
  rewrite !Z.add_0_r. split; [reflexivity|].
  repeat (apply Forall_cons_2; [apply u32_range|]). constructor.
Qed.

(** * The stream *)

(** The bytes of a message behind its last complete block. *)
Definition partial (m : bytes) : bytes := drop (64 * (length m / 64)) m.

Lemma length_partial m : length (partial m) = (length m mod 64)%nat.
Proof.
  unfold partial. rewrite length_drop. pose proof (Nat.div_mod_eq (length m) 64). lia.
Qed.

Lemma blocks_app m x :
  map (fun i => take 64 (drop (64 * i) (m ++ x))) (seq 0 (length m / 64)) = Fips.blocks m.
Proof.
  unfold Fips.blocks. apply map_ext_in. intros i [_ Hi]%in_seq.
  pose proof (Nat.div_mod_eq (length m) 64).
  rewrite drop_app_le, take_app_le by (rewrite ?length_drop; lia). done.
Qed.

Lemma hash_short m x :
  (length m mod 64 + length x < 64)%nat ->
  Fips.hash (m ++ x) = Fips.hash m /\ partial (m ++ x) = partial m ++ x.
Proof.
  intros H. pose proof (Nat.div_mod_eq (length m) 64).
  assert (Hd : (length (m ++ x) / 64 = length m / 64)%nat).
  { rewrite length_app. symmetry.
    apply (Nat.div_unique _ _ _ (length m mod 64 + length x)); lia. }
  unfold Fips.hash, partial. split.
  - unfold Fips.blocks at 1. by rewrite Hd, blocks_app.
  - rewrite Hd, drop_app_le by lia. done.
Qed.

Lemma hash_full m x :
  (length m mod 64 + length x = 64)%nat ->
  Fips.hash (m ++ x) = Fips.compress (Fips.hash m) (partial m ++ x) /\ partial (m ++ x) = [].
Proof.
  intros H. pose proof (Nat.div_mod_eq (length m) 64).
  assert (Hd : (length (m ++ x) / 64 = S (length m / 64))%nat).
  { rewrite length_app. symmetry. apply (Nat.div_unique _ _ _ 0); lia. }
  unfold Fips.hash, partial. split.
  - unfold Fips.blocks at 1. rewrite Hd, seq_S, map_app, fold_left_app, blocks_app.
    cbn [map fold_left Nat.add]. f_equal. rewrite drop_app_le by lia.
    apply take_ge. rewrite length_app, length_drop. lia.
  - rewrite Hd. apply drop_ge. rewrite length_app. lia.
Qed.

(** What a context, the bit count apart, says of the message fed so far. *)
Record holds (m : bytes) (c : sha256_context_t) : Prop := {
  holds_state : state c = Fips.hash m;
  holds_words : Forall is_u32 (state c) /\ length (state c) = 8%nat;
  holds_block : length (block c) = 64%nat;
  holds_length : block_length c = Z.of_nat (length m mod 64);
  holds_partial : ztake (block_length c) (block c) = partial m;
}.

Lemma holds_step m c x :
  Forall is_byte m -> Forall is_byte x ->
  holds m c -> (length m mod 64 + length x <= 64)%nat ->
  let blk := ztake (block_length c) (block c) ++ x ++ zdrop (block_length c + len x) (block c) in
  holds (m ++ x)
    (if block_length c + len x =? 64 then Context (transform (state c) blk) (bit_count c) blk 0
     else Context (state c) (bit_count c) blk (block_length c + len x)).
Proof.
  intros Hm Hx [Hs [Hw H8] Hb Hl Hp] Hle blk. pose proof (length_partial m) as Lp.
  assert (Eb : blk = (partial m ++ x) ++ zdrop (block_length c + len x) (block c))
    by (unfold blk; by rewrite Hp, app_assoc).
  assert (Lb : length blk = 64%nat).
  { rewrite Eb, !length_app, Lp. unfold zdrop, len. rewrite length_drop. rewrite Hl. lia. }
  unfold len in *. rewrite Hl in *.
  destruct (Z.eqb_spec (Z.of_nat (length m mod 64) + Z.of_nat (length x)) 64).
  - destruct (hash_full m x) as [E Ep]; [lia|].
    assert (Ef : blk = partial m ++ x).
    { rewrite Eb. unfold zdrop. rewrite drop_ge by lia. by rewrite app_nil_r. }
    destruct (transform_compress (state c) (partial m ++ x)) as [Et Ft]; [done|done| |by rewrite <-Ef|].
    { apply Forall_app. split; [by apply Forall_drop|done]. }
    split; cbn [state block block_length]; [congruence|split; [by rewrite Ef|]|done| |by rewrite Ep].
    + unfold transform. by destruct (fold_left _ _ _).
    + rewrite length_app, <-(Nat.mod_unique (length m + length x) 64 (S (length m / 64)) 0); [done|lia|].
      pose proof (Nat.div_mod_eq (length m) 64). lia.
  - destruct (hash_short m x) as [E Ep]; [lia|].
    split; cbn [state block block_length]; [congruence|done|done| |].
    + rewrite length_app, <-(Nat.mod_unique (length m + length x) 64 (length m / 64) (length m mod 64 + length x));
        [lia|lia|]. pose proof (Nat.div_mod_eq (length m) 64). lia.
    + rewrite Eb, Ep. unfold ztake. rewrite take_app_le by (rewrite length_app; lia).
      apply take_ge. rewrite length_app. lia.
Qed.

Lemma update_loop_holds fuel m c b :
  Forall is_byte m -> Forall is_byte b -> (length b <= fuel)%nat ->
  holds m c ->
  holds (m ++ b) (update_loop fuel c b) /\ bit_count (update_loop fuel c b) = bit_count c.
Proof.
  revert m c b. induction fuel as [|fuel IH]; intros m c b Hm Hb Hf Hc.
  { destruct b; [|simpl in Hf; lia]. by rewrite app_nil_r. }
  destruct b as [|y b']; [by rewrite app_nil_r|]. cbn [update_loop].
  set (b := y :: b') in *. pose proof (holds_length m c Hc) as Hl.
  pose proof (Nat.mod_upper_bound (length m) 64).
  set (count := if len b <? 64 - block_length c then len b else 64 - block_length c).
  assert (Hn : 0 < count <= len b /\ block_length c + count <= 64).
  { unfold count. assert (0 < len b) by (unfold len, b; simpl; lia).
    destruct (Z.ltb_spec (len b) (64 - block_length c)); lia. }
  assert (Lx : len (ztake count b) = count) by (rewrite len_ztake; lia).
  pose proof (holds_step m c (ztake count b) Hm (Forall_take _ _ _ Hb) Hc) as Hs.
  cbv zeta in Hs. rewrite Lx in Hs.
  specialize (Hs ltac:(unfold len in *; lia)).
  assert (Eb : m ++ b = (m ++ ztake count b) ++ zdrop count b)
    by (by rewrite <-app_assoc, ztake_zdrop).
  rewrite Eb. apply (IH _ _ (zdrop count b)) in Hs as [H1 H2].
  - split; [exact H1|]. rewrite H2. by destruct (block_length c + count =? 64).
  - apply Forall_app. split; [done|by apply Forall_take].
  - by apply Forall_drop.
  - unfold zdrop. rewrite length_drop. unfold len in *. lia.
Qed.

(** [update] appends to the message a context holds, whatever the pieces the
    message arrives in. *)
Lemma update_holds m c b :
  Forall is_byte m -> Forall is_byte b -> holds m c ->
  holds (m ++ b) (update c b) /\ bit_count (update c b) = u64 (bit_count c + u64 (len b * 8)).
Proof.
  intros Hm Hb [H1 H2 H3 H4 H5]. unfold update.
  apply (update_loop_holds (length b) m (Context (state c) (u64 (bit_count c + u64 (len b * 8)))
           (block c) (block_length c)) b Hm Hb); [done|by split].
Qed.

Lemma holds_initial : holds [] (Context initial_state 0 (repeat 0 64) 0).
Proof.
  split; [exact initial_state_H0|split; [|done]|done|done|done].
  unfold initial_state, is_u32. repeat (apply Forall_cons_2; [lia|]). constructor.
Qed.

Lemma padding_bytes (n : nat) :
  let bl := Z.of_nat (n mod 64) in
  ztake (if bl <? 56 then 56 - bl else 120 - bl) (0x80 :: repeat 0 127) =
  0x80 :: repeat 0 (Z.to_nat ((55 - Z.of_nat n) mod 64)).
Proof.
  intros bl. set (pl := if bl <? 56 then 56 - bl else 120 - bl).
  pose proof (Nat.mod_upper_bound n 64).
  assert (Hp : 1 <= pl <= 64)
    by (unfold pl, bl in *; destruct (Z.ltb_spec (Z.of_nat (n mod 64)) 56); lia).
  assert (E : (55 - Z.of_nat n) mod 64 = pl - 1).
  { symmetry. apply Z.mod_unique_pos with
      (q := - Z.of_nat (n / 64) - (if bl <? 56 then 0 else 1)); [lia|].
    pose proof (Nat.div_mod_eq n 64). unfold pl, bl in *.
    destruct (Z.ltb_spec (Z.of_nat (n mod 64)) 56); lia. }
  rewrite E. unfold ztake. replace (Z.to_nat pl) with (S (Z.to_nat (pl - 1))) by lia.
  cbn [take]. f_equal.
  replace 127%nat with (Z.to_nat (pl - 1) + (128 - Z.to_nat pl))%nat by lia.
  rewrite repeat_app, take_app_length'; [done|symmetry; apply repeat_length].
Qed.

Lemma length_bytes_be v :
  rev (map (fun i => u8 (Z.shiftr v (i * 8))) (seqZ 0 8)) = be_bytes 8 v.
Proof. reflexivity. Qed.

Lemma store_be32_bytes v : store_be32 v = be_bytes 4 v.
Proof. unfold store_be32. cbn -[u8 Z.shiftr]. by rewrite Z.shiftr_0_r. Qed.

Lemma nth_seq_map {A} (d : A) l : map (fun i => nth i l d) (seq 0 (length l)) = l.
Proof.
  induction l as [|x l IH]; [done|]. cbn [length seq map nth]. f_equal.
  rewrite <-seq_shift, map_map. exact IH.
Qed.

Lemma egress_sha256_fips data :
  Forall is_byte data -> len data < 2 ^ 61 -> egress_sha256 data = Fips.sha256 data.
Proof.
  intros Hd Hl. unfold egress_sha256.
  destruct (update_holds [] _ data ltac:(constructor) Hd holds_initial) as [H1 B1].
  set (c1 := update (Context initial_state 0 (repeat 0 64) 0) data) in *. clearbody c1.
  rewrite app_nil_l in H1. pose proof (len_nonneg data).
  assert (Eb : bit_count c1 = 8 * len data).
  { rewrite B1. cbn [bit_count]. unfold u64. rewrite !Z.mod_small; [lia|lia|].
    rewrite Z.mod_small; lia. }
  rewrite (holds_length _ _ H1), padding_bytes, length_bytes_be, Eb.
  set (zeros := 0x80 :: repeat 0 _).
  assert (Hz : Forall is_byte zeros).
  { unfold zeros. apply Forall_cons_2; [unfold is_byte; lia|]. apply Forall_forall.
    intros x Hx. apply list_elem_of_In, repeat_spec in Hx as ->. unfold is_byte. lia. }
  destruct (update_holds data c1 zeros Hd Hz H1) as [H2 _].
  set (c2 := update c1 zeros) in *. clearbody c2.
  destruct (update_holds (data ++ zeros) c2 (be_bytes 8 (8 * len data))) as [H3 _];
    [by apply Forall_app|apply be_bytes_is_byte|done|].
  set (c3 := update c2 _) in *. clearbody c3.
  unfold Fips.sha256, Fips.padding. rewrite <-app_assoc in H3.
  change ((128 :: repeat 0 (Z.to_nat ((55 - len data) mod 64)) ++ be_bytes 8 (8 * len data)))
    with (zeros ++ be_bytes 8 (8 * len data)).
  rewrite <-(holds_state _ _ H3). destruct (holds_words _ _ H3) as [_ L8].
  f_equal. transitivity (map (be_bytes 4)
    (map (fun i => nth i (state c3) 0) (seq 0 (length (state c3))))).
  - rewrite L8, map_map. apply map_ext. intros. apply store_be32_bytes.
  - by rewrite nth_seq_map.
Qed.

Lemma length_sha256 data : length (egress_sha256 data) = 32%nat.
Proof. reflexivity. Qed.


Lemma store_be32_is_byte v : Forall is_byte (store_be32 v).
Proof. rewrite store_be32_bytes. apply be_bytes_is_byte. Qed.

Lemma sha256_is_byte data : Forall is_byte (egress_sha256 data).
Proof.
  unfold egress_sha256. apply Forall_concat, Forall_map, Forall_forall. intros.
  apply store_be32_is_byte.
Qed.

(** ** Hexadecimal *)

Lemma hex_digit_inj x y :
  0 <= x < 16 -> 0 <= y < 16 -> hex_digit x = hex_digit y -> x = y.
Proof.
  intros Hx Hy.
  assert (H : forallb (fun x => forallb (fun y => implb (hex_digit x =? hex_digit y) (x =? y))
                (seqZ 0 16)) (seqZ 0 16) = true) by reflexivity.
  rewrite forallb_Forall, Forall_forall in H. specialize (H x ltac:(apply elem_of_seqZ; lia)).
  rewrite forallb_Forall, Forall_forall in H. specialize (H y ltac:(apply elem_of_seqZ; lia)).
  intros E. rewrite E, Z.eqb_refl in H. by apply Z.eqb_eq.
Qed.

Lemma nibbles x : is_byte x ->
  0 <= Z.shiftr x 4 < 16 /\ 0 <= Z.land x 0x0f < 16 /\ x = 16 * Z.shiftr x 4 + Z.land x 0x0f.
Proof.
  intros Hx. change 15 with (Z.ones 4).
  rewrite Z.shiftr_div_pow2, Z.land_ones by lia. unfold is_byte in Hx.
  change (2 ^ 4) with 16. zlia.
Qed.

Lemma length_hex_encode b : length (hex_encode b) = (2 * length b)%nat.
Proof.
  unfold hex_encode. induction b as [|x b IH]; [done|]. cbn -[Nat.mul hex_digit].
  rewrite IH. lia.
Qed.

Lemma hex_encode_inj a b :
  Forall is_byte a -> Forall is_byte b -> hex_encode a = hex_encode b -> a = b.
Proof.
  unfold hex_encode. revert b.
  induction a as [|x a IH]; intros [|y b] Ha Hb E; try done.
  apply Forall_cons in Ha as [Hx Ha]. apply Forall_cons in Hb as [Hy Hb].
  cbn -[hex_digit Z.shiftr Z.land] in E. injection E as E1 E2 E3.
  destruct (nibbles x Hx) as (? & ? & Ex), (nibbles y Hy) as (? & ? & Ey).
  apply hex_digit_inj in E1; [|done|done]. apply hex_digit_inj in E2; [|done|done].
  f_equal; [lia|]. by apply IH.
Qed.

(** The characters of a hexadecimal string. *)
Definition hex_char (c : Z) : Prop := c ∈ str "0123456789abcdef".

Lemma hex_digit_char n : 0 <= n < 16 -> hex_char (hex_digit n).
Proof.
  intros Hn. unfold hex_char, hex_digit, at_. apply list_elem_of_In, nth_In. simpl. lia.
Qed.

Lemma hex_encode_chars b : Forall is_byte b -> Forall hex_char (hex_encode b).
Proof.
  intros Hb. unfold hex_encode. apply Forall_concat, Forall_map. eapply Forall_impl; [exact Hb|].
  intros x Hx. destruct (nibbles x Hx) as (? & ? & _). simpl.
  repeat (apply Forall_cons_2; [by apply hex_digit_char|]). constructor.
Qed.

(** * Theorems *)

(** C32: [egress_sha256] computes SHA-256 as FIPS 180-4 defines it, for every
    message of less than 2^64 bits, and its hexadecimal form is 64 lower-case
    digits from which the digest can be read back. *)
Theorem sha256_is_fips (data : bytes) :
  Forall is_byte data -> len data < 2 ^ 61 ->
  egress_sha256 data = Fips.sha256 data /\
  length (egress_sha256_hex data) = 64%nat /\ Forall hex_char (egress_sha256_hex data) /\
  forall digest, Forall is_byte digest ->
    hex_encode digest = egress_sha256_hex data -> digest = Fips.sha256 data.
Proof.
  intros Hd Hl. pose proof (egress_sha256_fips data Hd Hl) as E. unfold egress_sha256_hex.
  split_and!; [done|by rewrite length_hex_encode|apply hex_encode_chars, sha256_is_byte|].
  intros digest Hg Eh. rewrite <-E.
  by apply hex_encode_inj in Eh; [|done|apply sha256_is_byte].
Qed.

Lemma sha256_is_fips_witness :
  Fips.sha256 (str "abc") = egress_sha256 (str "abc") /\
  egress_sha256_hex (str "abc") =
    str "ba7816bf8f01cfea414140de5dae2223b00361a396177a9cb410ff61f20015ad".
Proof.
  split; [|vm_compute; reflexivity]. 
  destruct (sha256_is_fips (str "abc")) as [E _];
    [byte_list|reflexivity|symmetry; exact E].
Defined.

Lemma lxor_pad k l :
  is_byte k -> Forall is_byte l -> map (fun x => u8 (Z.lxor x k)) l = map (Z.lxor k) l.
Proof.
  intros Hk Hl. apply map_ext_Forall. eapply Forall_impl; [exact Hl|]. intros x Hx.
  rewrite Z.lxor_comm. unfold u8. apply Z.mod_small. by apply byte_lxor.
Qed.

(** [egress_hmac_sha256] computes HMAC as RFC 2104 defines it, for a key
    of any length the audit accepts, and reports a failed allocation instead of
    a code. *)
Theorem hmac_is_rfc2104 (key data : bytes) (alloc : bool) :
  Forall is_byte key -> Forall is_byte data -> len key <= 4096 -> len data < 2 ^ 60 ->
  egress_hmac_sha256 alloc key data = if alloc then Some (Fips.hmac key data) else None.
Proof.
  intros Hk Hd Lk Ld. unfold egress_hmac_sha256, Fips.hmac, SIZE_MAX.
  destruct (Z.ltb_spec (2 ^ 64 - 1 - 64) (len data)); [lia|].
  destruct alloc; [|done]. cbn [negb]. f_equal.
  rewrite <-(egress_sha256_fips key) by (done || lia).
  set (k0 := if 64 <? len key then egress_sha256 key ++ repeat 0 32
             else key ++ repeat 0 (64 - length key)).
  assert (E0 : (if 64 <? len key then egress_sha256 key else key) ++
    repeat 0 (64 - length (if 64 <? len key then egress_sha256 key else key)) = k0)
    by (unfold k0; by destruct (64 <? len key)).
  rewrite E0. assert (H0 : Forall is_byte k0).
  { assert (Hz : forall n, Forall is_byte (repeat 0 n)) by
      (intros n; induction n; constructor; [unfold is_byte; lia|done]).
    unfold k0. destruct (64 <? len key); apply Forall_app; split; auto using sha256_is_byte. }
  assert (L0 : len k0 = 64).
  { unfold k0. destruct (Z.ltb_spec 64 (len key)); rewrite len_app; unfold len in *;
      rewrite repeat_length, ?length_sha256; lia. }
  clearbody k0. rewrite !lxor_pad by (done || unfold is_byte; lia).
  assert (Hp : forall k, is_byte k -> Forall is_byte (map (Z.lxor k) k0)).
  { intros k Hb. apply Forall_map. eapply Forall_impl; [exact H0|]. intros. by apply byte_lxor. }
  assert (Lp : forall k, len (map (Z.lxor k) k0) = 64) by (intros; unfold len; by rewrite length_map).
  rewrite (egress_sha256_fips (_ ++ data));
    [|apply Forall_app; split; [apply Hp; unfold is_byte; lia|done]|rewrite len_app, Lp; lia].
  apply egress_sha256_fips.
  - apply Forall_app. split; [apply Hp; unfold is_byte; lia|].
    rewrite <-egress_sha256_fips; [apply sha256_is_byte| |rewrite len_app, Lp; lia].
    apply Forall_app. split; [apply Hp; unfold is_byte; lia|done].
  - rewrite len_app, Lp. rewrite <-egress_sha256_fips; [| |rewrite len_app, Lp; lia].
    + unfold len. rewrite length_sha256. lia.
    + apply Forall_app. split; [apply Hp; unfold is_byte; lia|done].
Qed.

Lemma hmac_is_rfc2104_witness :
  egress_hmac_sha256 true (str "key") (str "The quick brown fox") =
    Some (Fips.hmac (str "key") (str "The quick brown fox")).
Proof.
  exact (hmac_is_rfc2104 (str "key") (str "The quick brown fox") true
    ltac:(byte_list) ltac:(byte_list) ltac:(vm_compute; discriminate) eq_refl).
Defined.
