(* ===== verification/Config.v ===== *)
(** The configuration of a proxy (src/config.c), its principals, and the
    credential lookups of src/core/http.c that read them.

    A configuration is a record; every setter of the public interface is a
    function that returns its result code and the configuration afterwards.
    The filesystem and inet_pton are interfaces ([Fs], [Inet]).  The accessors
    of receipts in config.c are in Receipt.v; those of metrics are projections. *)

From S2P Require Import Prelude Common Codec.

(** * Limits *)

Definition EGRESS_MAX_USERNAME : Z := 63.
Definition EGRESS_MAX_SECRET : Z := 255.
Definition EGRESS_MAX_INVOCATION_ID : Z := 127.
Definition EGRESS_MAX_PRINCIPALS : Z := 64.
Definition EGRESS_HANDSHAKE_MAX : Z := 16384.
Definition EGRESS_DEFAULT_MAX_CONNECTIONS : Z := 128.
Definition EGRESS_DEFAULT_BUFFER_BYTES : Z := 32768.
Definition EGRESS_MIN_BUFFER_BYTES : Z := EGRESS_HANDSHAKE_MAX + 64.
Definition EGRESS_MAX_BUFFER_BYTES : Z := 1024 * 1024.

(** The size of [sun_path] of a Unix socket address. *)
Definition SUN_PATH_SIZE : Z := 108.

(** * Data *)

Record egress_principal_t := Principal {
  username : bytes;
  secret : bytes;
  invocation_id : bytes;
  max_active_connections : Z;
  max_bytes_per_connection : Z;
  max_bytes_total : Z;
}.

#[export] Instance eta_principal : Eta egress_principal_t := fun p =>
  Principal (username p) (secret p) (invocation_id p)
    (max_active_connections p) (max_bytes_per_connection p) (max_bytes_total p).

(** What [calloc] leaves in an entry. *)
Definition zero_principal : egress_principal_t := Principal [] [] [] 0 0 0.

(** [UNIX_PEER_OTHER] is any value that is not an enumerator. *)
Inductive maelys_egress_unix_peer_policy_t :=
| MAELYS_EGRESS_UNIX_PEER_AUTHENTICATED
| MAELYS_EGRESS_UNIX_PEER_SAME_EUID
| UNIX_PEER_OTHER.

#[export] Instance peer_policy_eq_dec : EqDecision maelys_egress_unix_peer_policy_t.
Proof. solve_decision. Defined.

(** The principals are the first [principal_count] entries of the array; the
    shared objects a configuration refers to are handles. *)
Record maelys_egress_config := Config {
  native_only : bool;
  listen_unix : bool;
  listen_host : bytes;
  port : Z;
  unix_path : bytes;
  unix_peer_policy : maelys_egress_unix_peer_policy_t;
  principals : list egress_principal_t;
  authentication_set : bool;
  unauthenticated_loopback : bool;
  unix_principal_bound : bool;
  native_principal_bound : bool;
  unix_principal_index : nat;
  max_connections : Z;
  buffer_bytes : Z;
  handshake_timeout_ms : Z;
  idle_timeout_ms : Z;
  receipt_sink : bool;
  tls_provider : option Z;
  admin_enabled : bool;
  admin_host : bytes;
  admin_port : Z;
  audit : option Z;
  attestor : option Z;
}.

#[export] Instance eta_config : Eta maelys_egress_config := fun c =>
  Config (native_only c) (listen_unix c) (listen_host c) (port c) (unix_path c)
    (unix_peer_policy c) (principals c) (authentication_set c) (unauthenticated_loopback c)
    (unix_principal_bound c) (native_principal_bound c) (unix_principal_index c)
    (max_connections c) (buffer_bytes c) (handshake_timeout_ms c) (idle_timeout_ms c)
    (receipt_sink c) (tls_provider c) (admin_enabled c) (admin_host c) (admin_port c)
    (audit c) (attestor c).

Definition principal_count (c : maelys_egress_config) : Z := len (principals c).

(** [memset(&scratch, 0, sizeof(scratch))]. *)
Definition zero_config : maelys_egress_config :=
  Config false false [] 0 [] MAELYS_EGRESS_UNIX_PEER_AUTHENTICATED [] false false false false 0 0 0 0 0
    false None false [] 0 None None.

(** [maelys_egress_config_create], when the allocation succeeds. *)
Definition maelys_egress_config_create : maelys_egress_config :=
  zero_config <| listen_host := snprintf_s 64 (str "127.0.0.1") |>
    <| max_connections := EGRESS_DEFAULT_MAX_CONNECTIONS |>
    <| buffer_bytes := EGRESS_DEFAULT_BUFFER_BYTES |>
    <| handshake_timeout_ms := 10000 |>
    <| idle_timeout_ms := 60000 |>
    <| admin_host := snprintf_s 64 (str "127.0.0.1") |>.

(** * The filesystem *)

Inductive maelys_sys_result_t := SYS_OK | SYS_ERR_NOT_FOUND | SYS_ERR_OS | SYS_ERR_OTHER.

(** The calls the listener checks make: [open] of the root, [openat] with
    O_DIRECTORY and O_NOFOLLOW, [fstat] (owner and mode), [geteuid], and
    System's [maelys_sys_file_path_identity]. *)
Class Fs := {
  fs_dir : Type;
  fs_open_root : option fs_dir;
  fs_openat : fs_dir -> bytes -> option fs_dir;
  fs_fstat : fs_dir -> option (Z * Z);
  fs_geteuid : Z;
  maelys_sys_file_path_identity : bytes -> maelys_sys_result_t;
}.

(** The permission bits of [S_IRWXU | S_IRWXG | S_IRWXO], octal 0777, and of
    [S_IRWXU], octal 0700. *)
Definition S_IRWXALL : Z := 511.
Definition S_IRWXU : Z := 448.

(** * Listeners *)

Section Listeners.
Context `{Inet} `{Fs}.

Definition maelys_egress_config_set_listen (c : maelys_egress_config) (numeric_host : bytes)
    (port_ : Z) : maelys_egress_result_t * maelys_egress_config :=
  if native_principal_bound c || unix_principal_bound c then (MAELYS_EGRESS_ERR_STATE, c)
  else if negb (is_some (inet_pton4 numeric_host)) && negb (is_some (inet_pton6 numeric_host))
  then (MAELYS_EGRESS_ERR_ARGUMENT, c)
  else if 64 <=? len numeric_host then (MAELYS_EGRESS_ERR_ARGUMENT, c)
  else (MAELYS_EGRESS_OK,
        c <| listen_host := snprintf_s 64 numeric_host |> <| port := port_ |>
          <| native_only := false |> <| listen_unix := false |> <| unix_path := [] |>).

(** The loop over the components; a component per unit of fuel. *)
Fixpoint lexical_loop (fuel : nat) (component : bytes) : bool :=
  match fuel, component with
  | _, [] => false
  | O, _ => false
  | S fuel, _ =>
      let slash := index_of c_slash component in
      let length := match slash with Some i => Z.of_nat i | None => len component end in
      if (length =? 0) || ((length =? 1) && (at_ component 0 =? c_dot)) ||
         ((length =? 2) && (at_ component 0 =? c_dot) && (at_ component 1 =? c_dot)) then false
      else match slash with
           | None => true
           | Some i => lexical_loop fuel (drop (S i) component)
           end
  end.

Definition unix_path_lexically_canonical (path : bytes) : bool :=
  match path with
  | x :: (_ :: _) => if negb (x =? c_slash) then false else lexical_loop (length path) (tail path)
  | _ => false
  end.

(** The walk to the parent, a component per unit of fuel; [None] is
    [safe = 0]. *)
Fixpoint parent_loop (fuel : nat) (directory : fs_dir) (component : bytes) : option fs_dir :=
  match fuel, component with
  | _, [] => Some directory
  | O, _ => None
  | S fuel, _ =>
      let slash := index_of c_slash component in
      let length := match slash with Some i => Z.of_nat i | None => len component end in
      if (length =? 0) || (SUN_PATH_SIZE <=? length) then None
      else match fs_openat directory (ztake length component) with
           | None => None
           | Some next =>
               parent_loop fuel next
                 (match slash with Some i => drop (S i) component | None => [] end)
           end
  end.

Definition egress_unix_parent_is_private (path : bytes) : bool :=
  let parent := snprintf_s SUN_PATH_SIZE path in
  match last_index_of c_slash parent with
  | None | Some O => false
  | Some last =>
      let parent := take last parent in
      match fs_open_root with
      | None => false
      | Some directory =>
          match parent_loop (length parent) directory (tail parent) with
          | None => false
          | Some directory =>
              match fs_fstat directory with
              | None => false
              | Some (st_uid, st_mode) =>
                  negb (negb (st_uid =? fs_geteuid) || negb (Z.land st_mode S_IRWXALL =? S_IRWXU))
              end
          end
      end
  end.

Definition maelys_egress_config_set_listen_unix (c : maelys_egress_config) (path : bytes)
    (path_length : Z) (peer_policy : maelys_egress_unix_peer_policy_t)
  : maelys_egress_result_t * maelys_egress_config :=
  let bounded_length := Z.min (len path) SUN_PATH_SIZE in
  if native_principal_bound c || unix_principal_bound c then (MAELYS_EGRESS_ERR_STATE, c)
  else if (path_length =? 0) || negb (bounded_length =? path_length) ||
          (SUN_PATH_SIZE <=? path_length) || bool_decide (peer_policy = UNIX_PEER_OTHER)
  then (MAELYS_EGRESS_ERR_ARGUMENT, c)
  else if negb (unix_path_lexically_canonical path) then (MAELYS_EGRESS_ERR_ARGUMENT, c)
  else if negb (egress_unix_parent_is_private path) then (MAELYS_EGRESS_ERR_DENIED, c)
  else match maelys_sys_file_path_identity path with
       | SYS_OK => (MAELYS_EGRESS_ERR_STATE, c)
       | SYS_ERR_NOT_FOUND =>
           (MAELYS_EGRESS_OK,
            c <| unix_path := path |> <| native_only := false |> <| listen_unix := true |>
              <| unix_peer_policy := peer_policy |> <| port := 0 |>)
       | _ => (MAELYS_EGRESS_ERR_IO, c)
       end.

End Listeners.

(** * Principals *)

Definition username_char (x : Z) : bool :=
  is_lower x || is_upper x || is_digit x || (x =? c_minus) || (x =? c_underscore) ||
  (x =? c_dot) || (x =? c_plus) || (x =? c_at) || (x =? c_slash).

Definition invocation_char (x : Z) : bool :=
  is_lower x || is_upper x || is_digit x || (x =? c_minus) || (x =? c_underscore) ||
  (x =? c_dot) || (x =? c_colon) || (x =? c_slash).

(** A NULL invocation id is [None]. *)
Definition canonical_principal_identity (username_ : bytes) (invocation : option bytes) : bool :=
  if (len username_ =? 0) || (EGRESS_MAX_USERNAME <? len username_) ||
     match invocation with
     | Some i => (len i =? 0) || (EGRESS_MAX_INVOCATION_ID <? len i)
     | None => false
     end
  then false
  else if negb (forallb username_char username_) then false
  else match invocation with
       | Some i => forallb invocation_char i
       | None => true
       end.

(** The entry [principals[0]] an endpoint-bound principal is written to; it was
    zero before, the array being empty. *)
Definition bound_principal (username_ : bytes) (invocation : option bytes) : egress_principal_t :=
  let p := zero_principal <| username := snprintf_s (EGRESS_MAX_USERNAME + 1) username_ |> in
  match invocation with
  | Some i => p <| invocation_id := snprintf_s (EGRESS_MAX_INVOCATION_ID + 1) i |>
  | None => p
  end.

Definition maelys_egress_config_set_unix_principal (c : maelys_egress_config)
    (username_ : bytes) (invocation : option bytes)
  : maelys_egress_result_t * maelys_egress_config :=
  if negb (canonical_principal_identity username_ invocation) then (MAELYS_EGRESS_ERR_ARGUMENT, c)
  else if negb (listen_unix c) || negb (bool_decide (unix_peer_policy c = MAELYS_EGRESS_UNIX_PEER_SAME_EUID))
  then (MAELYS_EGRESS_ERR_DENIED, c)
  else if native_principal_bound c || unix_principal_bound c ||
          negb (principal_count c =? 0) || authentication_set c
  then (MAELYS_EGRESS_ERR_STATE, c)
  else (MAELYS_EGRESS_OK,
        c <| principals := [bound_principal username_ invocation] |>
          <| unix_principal_index := 0%nat |> <| unix_principal_bound := true |>).

(** [enabled] is any [int]. *)
Definition maelys_egress_config_set_native_only (c : maelys_egress_config) (enabled : Z)
  : maelys_egress_result_t * maelys_egress_config :=
  if negb (enabled =? 0) && negb (enabled =? 1) then (MAELYS_EGRESS_ERR_ARGUMENT, c)
  else if native_principal_bound c || unix_principal_bound c then (MAELYS_EGRESS_ERR_STATE, c)
  else
    let c := c <| native_only := negb (enabled =? 0) |> in
    if negb (enabled =? 0) then
      (MAELYS_EGRESS_OK,
       c <| listen_unix := false |> <| listen_host := [] |> <| unix_path := [] |> <| port := 0 |>)
    else if len (listen_host c) =? 0 then
      (MAELYS_EGRESS_OK, c <| listen_host := snprintf_s 64 (str "127.0.0.1") |>)
    else (MAELYS_EGRESS_OK, c).

Definition maelys_egress_config_set_native_principal (c : maelys_egress_config)
    (principal : bytes) (invocation : option bytes)
  : maelys_egress_result_t * maelys_egress_config :=
  if negb (canonical_principal_identity principal invocation) then (MAELYS_EGRESS_ERR_ARGUMENT, c)
  else if negb (native_only c) || listen_unix c || is_some (tls_provider c) ||
          unauthenticated_loopback c || negb (principal_count c =? 0) ||
          authentication_set c || unix_principal_bound c || native_principal_bound c
  then (MAELYS_EGRESS_ERR_STATE, c)
  else (MAELYS_EGRESS_OK,
        c <| principals := [bound_principal principal invocation] |>
          <| native_principal_bound := true |>).

Definition maelys_egress_config_add_principal (c : maelys_egress_config)
    (username_ secret_ : bytes) (invocation : option bytes)
  : maelys_egress_result_t * maelys_egress_config :=
  if native_principal_bound c || unix_principal_bound c then (MAELYS_EGRESS_ERR_STATE, c)
  else if (len username_ =? 0) || (EGRESS_MAX_USERNAME <? len username_) ||
          (len secret_ <? 16) || (EGRESS_MAX_SECRET <? len secret_) ||
          is_some (index_of c_colon username_) ||
          match invocation with
          | Some i => (len i =? 0) || (EGRESS_MAX_INVOCATION_ID <? len i)
          | None => false
          end ||
          (EGRESS_MAX_PRINCIPALS <=? principal_count c)
  then (MAELYS_EGRESS_ERR_ARGUMENT, c)
  else if negb (canonical_principal_identity username_ invocation)
  then (MAELYS_EGRESS_ERR_ARGUMENT, c)
  else if existsb (fun x => (x <=? 0x20) || (0x7f <=? x)) secret_
  then (MAELYS_EGRESS_ERR_ARGUMENT, c)
  else if existsb (fun p => egress_constant_time_equal secret_ (secret p)) (principals c)
  then (MAELYS_EGRESS_ERR_ARGUMENT, c)
  else
    let p := zero_principal <| username := snprintf_s (EGRESS_MAX_USERNAME + 1) username_ |>
               <| secret := snprintf_s (EGRESS_MAX_SECRET + 1) secret_ |> in
    let p := match invocation with
             | Some i => p <| invocation_id := snprintf_s (EGRESS_MAX_INVOCATION_ID + 1) i |>
             | None => p
             end in
    (MAELYS_EGRESS_OK,
     c <| principals := principals c ++ [p] |> <| authentication_set := true |>).

Definition maelys_egress_config_set_authentication (c : maelys_egress_config)
    (username_ secret_ : bytes) : maelys_egress_result_t * maelys_egress_config :=
  if native_principal_bound c || unix_principal_bound c then (MAELYS_EGRESS_ERR_STATE, c)
  else match maelys_egress_config_add_principal zero_config username_ secret_ None with
       | (MAELYS_EGRESS_OK, scratch) =>
           (MAELYS_EGRESS_OK,
            c <| principals := take 1 (principals scratch) |> <| authentication_set := true |>)
       | (result, _) => (result, c)
       end.

(** The loop over the principals, which stops at the first of that name. *)
Fixpoint set_quota (ps : list egress_principal_t) (username_ : bytes) (active per_connection total : Z)
  : option (list egress_principal_t) :=
  match ps with
  | [] => None
  | p :: ps =>
      if beq (username p) username_ then
        Some (p <| max_active_connections := active |>
                <| max_bytes_per_connection := per_connection |>
                <| max_bytes_total := total |> :: ps)
      else cons p <$> set_quota ps username_ active per_connection total
  end.

Definition maelys_egress_config_set_principal_quota_v2 (c : maelys_egress_config)
    (username_ : bytes) (active per_connection total : Z)
  : maelys_egress_result_t * maelys_egress_config :=
  if (len username_ =? 0) || (4096 <? active) then (MAELYS_EGRESS_ERR_ARGUMENT, c)
  else match set_quota (principals c) username_ active per_connection total with
       | Some ps => (MAELYS_EGRESS_OK, c <| principals := ps |>)
       | None => (MAELYS_EGRESS_ERR_ARGUMENT, c)
       end.

Definition maelys_egress_config_set_principal_quota (c : maelys_egress_config)
    (username_ : bytes) (active per_connection : Z)
  : maelys_egress_result_t * maelys_egress_config :=
  maelys_egress_config_set_principal_quota_v2 c username_ active per_connection 0.

(** * The other settings *)

Definition maelys_egress_config_allow_unauthenticated_loopback (c : maelys_egress_config)
    (enabled : Z) : maelys_egress_result_t * maelys_egress_config :=
  if native_principal_bound c then (MAELYS_EGRESS_ERR_STATE, c)
  else (MAELYS_EGRESS_OK, c <| unauthenticated_loopback := negb (enabled =? 0) |>).

Definition maelys_egress_config_set_limits (c : maelys_egress_config)
    (connections buffer handshake_timeout idle_timeout : Z)
  : maelys_egress_result_t * maelys_egress_config :=
  if (connections =? 0) || (4096 <? connections) || (buffer <? EGRESS_MIN_BUFFER_BYTES) ||
     (EGRESS_MAX_BUFFER_BYTES <? buffer) || (handshake_timeout =? 0) || (idle_timeout =? 0)
  then (MAELYS_EGRESS_ERR_ARGUMENT, c)
  else (MAELYS_EGRESS_OK,
        c <| max_connections := connections |> <| buffer_bytes := buffer |>
          <| handshake_timeout_ms := handshake_timeout |> <| idle_timeout_ms := idle_timeout |>).

Definition maelys_egress_config_set_receipt_sink (c : maelys_egress_config) (sink : bool)
  : maelys_egress_config := c <| receipt_sink := sink |>.

Definition maelys_egress_config_set_tls_listener (c : maelys_egress_config) (provider : option Z)
  : maelys_egress_result_t * maelys_egress_config :=
  if native_principal_bound c then (MAELYS_EGRESS_ERR_STATE, c)
  else (MAELYS_EGRESS_OK, c <| tls_provider := provider |>).

Definition maelys_egress_config_set_admin_listen (c : maelys_egress_config)
    (numeric_loopback_host : bytes) (port_ : Z) : maelys_egress_result_t * maelys_egress_config :=
  if negb (beq numeric_loopback_host (str "127.0.0.1")) &&
     negb (beq numeric_loopback_host (str "::1"))
  then (MAELYS_EGRESS_ERR_ARGUMENT, c)
  else (MAELYS_EGRESS_OK,
        c <| admin_host := snprintf_s 64 numeric_loopback_host |> <| admin_port := port_ |>
          <| admin_enabled := true |>).

(** [healthy] is [maelys_egress_audit_healthy] of the handle at the call. *)
Definition maelys_egress_config_set_audit (c : maelys_egress_config) (audit_ : option Z)
    (healthy : bool) : maelys_egress_result_t * maelys_egress_config :=
  if is_some audit_ && negb healthy then (MAELYS_EGRESS_ERR_STATE, c)
  else (MAELYS_EGRESS_OK, c <| audit := audit_ |>).

Definition maelys_egress_config_set_receipt_attestor (c : maelys_egress_config)
    (attestor_ : option Z) : maelys_egress_result_t * maelys_egress_config :=
  (MAELYS_EGRESS_OK, c <| attestor := attestor_ |>).

(** * Credentials (src/core/http.c) *)

(** The index of the last principal that matches; [username_] is [None] for a
    NULL pointer, which matches every name. *)
Fixpoint last_match (ps : list egress_principal_t) (username_ : option bytes) (secret_ : bytes)
    (i : nat) (matched : option nat) : option nat :=
  match ps with
  | [] => matched
  | p :: ps =>
      let username_matches :=
        match username_ with
        | Some u => egress_constant_time_equal u (username p)
        | None => true
        end in
      let secret_matches := egress_constant_time_equal secret_ (secret p) in
      last_match ps username_ secret_ (S i)
        (if username_matches && secret_matches then Some i else matched)
  end.

(** The invocation id and the index written to the output parameters; [None]
    is the return 0, with the id empty and the index [SIZE_MAX]. *)
Definition egress_credentials_lookup (c : maelys_egress_config) (username_ : option bytes)
    (secret_ : bytes) : option (bytes * nat) :=
  if negb (authentication_set c) then None
  else match last_match (principals c) username_ secret_ 0 None with
       | None => None
       | Some matched =>
           Some (snprintf_s (EGRESS_MAX_INVOCATION_ID + 1)
                   (invocation_id (nth matched (principals c) zero_principal)), matched)
       end.

Definition egress_credentials_match (c : maelys_egress_config) (username_ secret_ : bytes) : bool :=
  is_some (egress_credentials_lookup c (Some username_) secret_).

Definition egress_unix_principal_lookup (c : maelys_egress_config) : option (bytes * nat) :=
  if negb (listen_unix c) || negb (unix_principal_bound c) ||
     (principal_count c <=? Z.of_nat (unix_principal_index c))
  then None
  else Some (snprintf_s (EGRESS_MAX_INVOCATION_ID + 1)
               (invocation_id (nth (unix_principal_index c) (principals c) zero_principal)),
             unix_principal_index c).

(** * Sequences of calls *)

Inductive config_call :=
| SetListen (host : bytes) (port_ : Z)
| SetListenUnix (path : bytes) (path_length : Z) (peer : maelys_egress_unix_peer_policy_t)
| SetUnixPrincipal (name : bytes) (invocation : option bytes)
| SetNativeOnly (enabled : Z)
| SetNativePrincipal (name : bytes) (invocation : option bytes)
| SetAuthentication (name secret_ : bytes)
| AddPrincipal (name secret_ : bytes) (invocation : option bytes)
| SetPrincipalQuota (name : bytes) (active per_connection total : Z)
| AllowUnauthenticatedLoopback (enabled : Z)
| SetLimits (connections buffer handshake idle : Z)
| SetReceiptSink (sink : bool)
| SetTlsListener (provider : option Z)
| SetAdminListen (host : bytes) (port_ : Z)
| SetAudit (audit_ : option Z) (healthy : bool)
| SetReceiptAttestor (attestor_ : option Z).

Section Calls.
Context `{Inet} `{Fs}.

Definition config_apply (c : maelys_egress_config) (call : config_call)
  : maelys_egress_result_t * maelys_egress_config :=
  match call with
  | SetListen host p => maelys_egress_config_set_listen c host p
  | SetListenUnix path n peer => maelys_egress_config_set_listen_unix c path n peer
  | SetUnixPrincipal name i => maelys_egress_config_set_unix_principal c name i
  | SetNativeOnly e => maelys_egress_config_set_native_only c e
  | SetNativePrincipal name i => maelys_egress_config_set_native_principal c name i
  | SetAuthentication name s => maelys_egress_config_set_authentication c name s
  | AddPrincipal name s i => maelys_egress_config_add_principal c name s i
  | SetPrincipalQuota name a b t => maelys_egress_config_set_principal_quota_v2 c name a b t
  | AllowUnauthenticatedLoopback e => maelys_egress_config_allow_unauthenticated_loopback c e
  | SetLimits n b h i => maelys_egress_config_set_limits c n b h i
  | SetReceiptSink s => (MAELYS_EGRESS_OK, maelys_egress_config_set_receipt_sink c s)
  | SetTlsListener p => maelys_egress_config_set_tls_listener c p
  | SetAdminListen host p => maelys_egress_config_set_admin_listen c host p
  | SetAudit a h => maelys_egress_config_set_audit c a h
  | SetReceiptAttestor a => maelys_egress_config_set_receipt_attestor c a
  end.

End Calls.

(** The sizes and timeouts of a call are unsigned. *)
Definition call_typed (call : config_call) : Prop :=
  match call with
  | SetLimits n b h i => is_u64 n /\ is_u64 b /\ is_u64 h /\ is_u64 i
  | SetPrincipalQuota _ active per_connection total => is_u64 active /\ is_u64 per_connection /\ is_u64 total
  | _ => True
  end.

(** The configurations a sequence of calls can reach; the filesystem may
    change between two of them. *)
Inductive reachable `{Inet} : maelys_egress_config -> Prop :=
| reachable_create : reachable maelys_egress_config_create
| reachable_call (fs : Fs) c call :
    reachable c -> call_typed call -> reachable (config_apply c call).2.

(** * Socket paths *)

(** The two path checks of the repository are one. *)
Lemma lexical_loop_path_loop fuel part :
  part <> [] \/ fuel = O -> lexical_loop fuel part = Bootstrap.path_loop fuel part.
Proof.
  revert part. induction fuel as [|fuel IH]; intros part Hp; [by destruct part|].
  destruct Hp as [Hp|]; [|done]. destruct part as [|y part]; [done|].
  cbn [lexical_loop Bootstrap.path_loop].
  destruct (index_of c_slash (y :: part)) as [i|]; [|done].
  destruct (_ || _); [done|]. destruct (drop (S i) (y :: part)) as [|z rest] eqn:Ed.
  - destruct fuel; done.
  - apply IH. by left.
Qed.

Lemma lexically_canonical_path path :
  unix_path_lexically_canonical path = Bootstrap.egress_bootstrap_path_valid path.
Proof.
  unfold unix_path_lexically_canonical, Bootstrap.egress_bootstrap_path_valid.
  destruct path as [|x [|y path]]; [done|done|]. destruct (negb (x =? c_slash)); [done|].
  apply lexical_loop_path_loop. by left.
Qed.

(** * The invariant *)

Definition visible (x : Z) : Prop := 0x20 < x < 0x7f.

(** The identity of a principal, as both kinds of principal have it. *)
Record identity_ok (p : egress_principal_t) : Prop := {
  id_username : 1 <= len (username p) <= EGRESS_MAX_USERNAME;
  id_username_chars : forallb username_char (username p) = true;
  id_invocation : len (invocation_id p) <= EGRESS_MAX_INVOCATION_ID;
  id_invocation_chars : forallb invocation_char (invocation_id p) = true;
}.

Definition secret_ok (p : egress_principal_t) : Prop :=
  16 <= len (secret p) <= EGRESS_MAX_SECRET /\ Forall visible (secret p).

(** The quotas a principal may have; 0 is no limit. *)
Record quota_ok (p : egress_principal_t) : Prop := {
  quota_ok_active : 0 <= max_active_connections p <= 4096;
  quota_ok_stream : is_u64 (max_bytes_per_connection p);
  quota_ok_total : is_u64 (max_bytes_total p);
}.

Record config_ok `{Inet} (c : maelys_egress_config) : Prop := {
  ok_identities : Forall identity_ok (principals c);
  ok_quotas : Forall quota_ok (principals c);
  ok_count : principal_count c <= EGRESS_MAX_PRINCIPALS;
  ok_secrets : authentication_set c = true ->
    Forall secret_ok (principals c) /\ NoDup (map secret (principals c));
  ok_authenticated : authentication_set c = true ->
    principals c <> [] /\ unix_principal_bound c = false /\ native_principal_bound c = false;
  ok_unauthenticated : authentication_set c = false ->
    unix_principal_bound c = false -> native_principal_bound c = false -> principals c = [];
  ok_unix_bound : unix_principal_bound c = true ->
    listen_unix c = true /\ unix_peer_policy c = MAELYS_EGRESS_UNIX_PEER_SAME_EUID /\
    native_principal_bound c = false /\ unix_principal_index c = 0%nat /\
    exists p, principals c = [p] /\ secret p = [];
  ok_native_bound : native_principal_bound c = true ->
    native_only c = true /\ tls_provider c = None /\ unauthenticated_loopback c = false /\
    exists p, principals c = [p] /\ secret p = [];
  ok_native : native_only c = true -> listen_unix c = false /\ listen_host c = [];
  ok_unix : listen_unix c = true ->
    unix_path_lexically_canonical (unix_path c) = true /\ len (unix_path c) < SUN_PATH_SIZE /\
    unix_peer_policy c <> UNIX_PEER_OTHER;
  ok_tcp : native_only c = false -> listen_unix c = false ->
    listen_host c = str "127.0.0.1" \/ is_Some (inet_pton4 (listen_host c)) \/
    is_Some (inet_pton6 (listen_host c));
  ok_limits : 1 <= max_connections c <= 4096 /\
    EGRESS_MIN_BUFFER_BYTES <= buffer_bytes c <= EGRESS_MAX_BUFFER_BYTES /\
    handshake_timeout_ms c <> 0 /\ idle_timeout_ms c <> 0;
  ok_admin : admin_host c = str "127.0.0.1" \/ admin_host c = str "::1";
}.

(** A setter that fails changes nothing: open its guards and keep the
    successful branch. *)
Ltac setter :=
  repeat match goal with
  | |- context [if ?b then _ else _] => destruct b eqn:?
  | |- context [match ?o with SYS_OK => _ | _ => _ end] => destruct o eqn:?
  end; try done; cbn [snd]; bool_simp.

Section Invariant.
Context `{Inet} `{Fs}.

Lemma snprintf_s_id n s : len s < n -> snprintf_s n s = s.
Proof. intros. unfold snprintf_s. apply ztake_all. lia. Qed.

Lemma config_create_ok : config_ok maelys_egress_config_create.
Proof.
  split; simpl; try done; by left.
Qed.

Lemma set_listen_ok c host p :
  config_ok c -> config_ok (maelys_egress_config_set_listen c host p).2.
Proof.
  intros Hok. unfold maelys_egress_config_set_listen. setter.
  destruct Hok. split; simpl; try done; try congruence.
  intros _ _. right. rewrite snprintf_s_id by lia.
  destruct (inet_pton4 host); [by left|]. destruct (inet_pton6 host); [by right|].
  simpl in *. naive_solver.
Qed.

Lemma set_listen_unix_ok c path n peer :
  config_ok c -> config_ok (maelys_egress_config_set_listen_unix c path n peer).2.
Proof.
  intros Hok. unfold maelys_egress_config_set_listen_unix. setter.
  destruct Hok. split; simpl; try done; try congruence.
  intros _. unfold SUN_PATH_SIZE in *. split_and!; [done|lia|]. by intros ->.
Qed.

Lemma canonical_identity_ok u i :
  canonical_principal_identity u i = true ->
  1 <= len u <= EGRESS_MAX_USERNAME /\ forallb username_char u = true /\
  len (default [] i) <= EGRESS_MAX_INVOCATION_ID /\
  forallb invocation_char (default [] i) = true.
Proof.
  unfold canonical_principal_identity, EGRESS_MAX_USERNAME, EGRESS_MAX_INVOCATION_ID.
  intros H'. pose proof (len_nonneg u).
  destruct i as [i|]; cbn [default]; guards; bool_simp; split_and!; done || lia.
Qed.

Lemma bound_principal_ok u i :
  canonical_principal_identity u i = true ->
  identity_ok (bound_principal u i) /\ quota_ok (bound_principal u i) /\ secret (bound_principal u i) = [].
Proof.
  intros (Hu & Hc & Hi & Hd)%canonical_identity_ok. unfold bound_principal.
  split; [|destruct i; split; [by constructor|done|by constructor|done]].
  destruct i as [i|]; cbn [default id] in *; split; simpl; rewrite ?snprintf_s_id by lia;
    done.
Qed.

Lemma set_unix_principal_ok c u i :
  config_ok c -> config_ok (maelys_egress_config_set_unix_principal c u i).2.
Proof.
  intros Hok. unfold maelys_egress_config_set_unix_principal. setter.
  destruct (bound_principal_ok u i) as (Hi & Hq & Hs); [done|].
  destruct Hok. split; simpl; try done; try congruence.
  - by apply Forall_singleton.
  - by apply Forall_singleton.
  - intros _. split_and!; try done. eexists. split; [reflexivity|done].
Qed.

Lemma set_native_only_ok c e :
  config_ok c -> config_ok (maelys_egress_config_set_native_only c e).2.
Proof.
  intros Hok. unfold maelys_egress_config_set_native_only. setter;
    (destruct Hok; split; simpl in *; try done; try congruence).
  - intros _ _. by left.
  - intros _ Hu. apply ok_tcp0; [|done]. apply not_true_is_false. intros En.
    destruct (ok_native0 En) as [_ E]. by rewrite E in *.
Qed.

Lemma set_native_principal_ok c u i :
  config_ok c -> config_ok (maelys_egress_config_set_native_principal c u i).2.
Proof.
  intros Hok. unfold maelys_egress_config_set_native_principal. setter.
  destruct (bound_principal_ok u i) as (Hi & Hq & Hs); [done|].
  destruct Hok. split; simpl; try done; try congruence.
  - by apply Forall_singleton.
  - by apply Forall_singleton.
  - destruct (tls_provider c); [done|]. intros _. split_and!; try done.
    eexists. split; [reflexivity|done].
Qed.

(** What an accepted credential principal is. *)
Lemma add_principal_spec c u s i c' :
  maelys_egress_config_add_principal c u s i = (MAELYS_EGRESS_OK, c') ->
  exists p, c' = c <| principals := principals c ++ [p] |> <| authentication_set := true |> /\
    username p = u /\ secret p = s /\ invocation_id p = default [] i /\
    identity_ok p /\ quota_ok p /\ secret_ok p /\ s ∉ map secret (principals c) /\
    principal_count c < EGRESS_MAX_PRINCIPALS /\
    native_principal_bound c = false /\ unix_principal_bound c = false.
Proof.
  unfold maelys_egress_config_add_principal.
  repeat match goal with |- context [if ?b then _ else _] => destruct b eqn:?; [done|] end.
  intros [= <-]. bool_simp.
  destruct (canonical_identity_ok u i) as (Hu & Hc & Hi & Hd); [done|].
  assert (Hv : Forall visible s).
  { apply Forall_forall. intros x Hx. unfold visible.
    match goal with E : existsb _ s = false |- _ => pose proof (proj1 (existsb_false_Forall _ _) E) as Hf end.
    rewrite Forall_forall in Hf. specialize (Hf x Hx). simpl in Hf. bool_simp. lia. }
  assert (Hn : s ∉ map secret (principals c)).
  { intros (p & -> & Hp)%list_elem_of_fmap.
    match goal with E : existsb _ (principals c) = false |- _ =>
      pose proof (proj1 (existsb_false_Forall _ _) E) as Hf end.
    rewrite Forall_forall in Hf. specialize (Hf p Hp). simpl in Hf.
    assert (H0n : 0 ∉ secret p)
      by (rewrite Forall_forall in Hv; intros H0n; specialize (Hv 0 H0n); unfold visible in Hv; lia).
    by rewrite (proj2 (constant_time_equal_eq _ _ H0n H0n) eq_refl) in Hf. }
  unfold EGRESS_MAX_USERNAME, EGRESS_MAX_SECRET, EGRESS_MAX_INVOCATION_ID, EGRESS_MAX_PRINCIPALS in *.
  eexists. split; [reflexivity|].
  destruct i as [i|]; cbn [default id] in *; simpl; rewrite !snprintf_s_id by (simpl; lia).
  all: split_and!; try done; lia.
Qed.

Lemma add_principal_ok c u s i :
  config_ok c -> config_ok (maelys_egress_config_add_principal c u s i).2.
Proof.
  intros Hok. destruct (maelys_egress_config_add_principal c u s i) as [r c'] eqn:E.
  destruct (decide (r = MAELYS_EGRESS_OK)) as [->|Hr].
  - apply add_principal_spec in E as (p & -> & Hu & Hs & Hi & Hid & Hq & Hsec & Hn & Hc & Hb1 & Hb2).
    destruct Hok. split; simpl; try done; try congruence.
    + apply Forall_app. split; [done|by apply Forall_singleton].
    + apply Forall_app. split; [done|by apply Forall_singleton].
    + unfold principal_count in *. simpl. rewrite len_app. unfold len at 2. simpl. lia.
    + intros _. destruct (authentication_set c) eqn:Ea.
      * destruct ok_secrets0 as [H1 H2]; [done|].
        rewrite map_app, Forall_app, NoDup_app, Forall_singleton. split_and!; try done.
        -- intros x Hx Hy%list_elem_of_singleton. simpl in Hy. congruence.
        -- apply NoDup_singleton.
      * rewrite ok_unauthenticated0 by done. split; [by apply Forall_singleton|apply NoDup_singleton].
    + intros _. split_and!; [by destruct (principals c)|done|done].
  - revert E. unfold maelys_egress_config_add_principal.
    repeat match goal with |- context [if ?b then _ else _] => destruct b end; by intros [= <- <-].
Qed.

Lemma set_authentication_ok c u s :
  config_ok c -> config_ok (maelys_egress_config_set_authentication c u s).2.
Proof.
  intros Hok. unfold maelys_egress_config_set_authentication. setter.
  destruct (maelys_egress_config_add_principal zero_config u s None) as [[] scratch] eqn:E; try done.
  apply add_principal_spec in E as (p & -> & Hu & Hs & Hi & Hid & Hq & Hsec & _). simpl.
  destruct Hok. split; simpl; try done; try congruence.
  - by apply Forall_singleton.
  - by apply Forall_singleton.
  - intros _. split; [by apply Forall_singleton|apply NoDup_singleton].
Qed.

Lemma set_quota_fields ps u a b t ps' :
  set_quota ps u a b t = Some ps' ->
  map (fun p => (username p, secret p, invocation_id p)) ps' =
  map (fun p => (username p, secret p, invocation_id p)) ps.
Proof.
  revert ps'. induction ps as [|p ps IH]; intros ps' E; simpl in E; [done|].
  destruct (beq (username p) u); [by simplify_eq|].
  apply fmap_Some in E as (ps2 & E & ->). simpl. by rewrite (IH _ E).
Qed.

(** Properties of principals that quotas do not enter. *)
Lemma set_quota_Forall (P : egress_principal_t -> Prop) ps u a b t ps' :
  (forall p q, username p = username q -> secret p = secret q ->
     invocation_id p = invocation_id q -> P p -> P q) ->
  set_quota ps u a b t = Some ps' -> Forall P ps -> Forall P ps'.
Proof.
  intros HP. revert ps'. induction ps as [|p ps IH]; intros ps' E Hf; simpl in E; [done|].
  apply Forall_cons in Hf as [Hp Hf].
  destruct (beq (username p) u); simplify_eq.
  - apply Forall_cons. split; [by eapply HP; [..|exact Hp]|done].
  - apply fmap_Some in E as (ps2 & E & ->). apply Forall_cons. split; [done|by apply IH].
Qed.

Lemma set_quota_ok ps u a b t ps' :
  0 <= a <= 4096 -> is_u64 b -> is_u64 t ->
  set_quota ps u a b t = Some ps' -> Forall quota_ok ps -> Forall quota_ok ps'.
Proof.
  intros Ha Hb Ht. revert ps'. induction ps as [|p ps IH]; intros ps' E Hf; simpl in E; [done|].
  apply Forall_cons in Hf as [Hp Hf]. destruct (beq (username p) u); simplify_eq.
  - apply Forall_cons. by split; [constructor|].
  - apply fmap_Some in E as (ps2 & E & ->). apply Forall_cons. split; [done|by apply IH].
Qed.

Lemma set_principal_quota_ok c u a b t :
  0 <= a -> is_u64 b -> is_u64 t -> config_ok c -> config_ok (maelys_egress_config_set_principal_quota_v2 c u a b t).2.
Proof.
  intros Ha Hb Ht Hok. unfold maelys_egress_config_set_principal_quota_v2. setter.
  destruct (set_quota (principals c) u a b t) as [ps|] eqn:E; [|done]. cbn [snd].
  pose proof (set_quota_fields _ _ _ _ _ _ E) as Ef.
  assert (Es : map secret ps = map secret (principals c)).
  { apply (f_equal (map (fun x => x.1.2))) in Ef. by rewrite !map_map in Ef. }
  assert (El : length ps = length (principals c)) by (by rewrite <-(length_map secret), Es, length_map).
  assert (Hone : forall p, principals c = [p] -> secret p = [] ->
             exists q, ps = [q] /\ secret q = []).
  { intros p Ep Hp. rewrite Ep in Es, El. destruct ps as [|q [|? ?]]; [done| |done].
    exists q. split; [done|]. simpl in Es. congruence. }
  destruct Hok. split; simpl; try done; try congruence.
  - eapply set_quota_Forall; [|exact E|done]. intros p q E1 E2 E3 []. split; congruence.
  - by eapply set_quota_ok; [| | |exact E|].
  - unfold principal_count, len in *. simpl. by rewrite El.
  - intros Hx. rewrite Es. destruct (ok_secrets0 Hx). split; [|done].
    eapply set_quota_Forall; [|exact E|done]. unfold secret_ok. intros p q E1 E2 E3. by rewrite E2.
  - intros Hx. destruct (ok_authenticated0 Hx) as (Hn & ? & ?). split_and!; try done.
    intros ->. by destruct (principals c).
  - intros Hx Hu Hn. rewrite ok_unauthenticated0 in El by done. by destruct ps.
  - intros Hu. destruct (ok_unix_bound0 Hu) as (? & ? & ? & ? & p & ? & ?). split_and!; eauto.
  - intros Hn. destruct (ok_native_bound0 Hn) as (? & ? & ? & p & ? & ?). split_and!; eauto.
Qed.

Lemma config_apply_ok c call :
  call_typed call -> config_ok c -> config_ok (config_apply c call).2.
Proof.
  intros Ht Hok. destruct call; simpl.
  - by apply set_listen_ok.
  - by apply set_listen_unix_ok.
  - by apply set_unix_principal_ok.
  - by apply set_native_only_ok.
  - by apply set_native_principal_ok.
  - by apply set_authentication_ok.
  - by apply add_principal_ok.
  - destruct Ht as (Ha & Hb & Hc). apply set_principal_quota_ok; try done. unfold is_u64 in Ha. lia.
  - unfold maelys_egress_config_allow_unauthenticated_loopback. setter.
    destruct Hok. split; simpl; try done; congruence.
  - unfold maelys_egress_config_set_limits. setter. simpl in Ht. unfold is_u64 in Ht.
    destruct Hok. split; simpl; try done; lia.
  - destruct Hok. split; done.
  - unfold maelys_egress_config_set_tls_listener. setter.
    destruct Hok. split; simpl; try done; congruence.
  - unfold maelys_egress_config_set_admin_listen. setter.
    destruct Hok. split; simpl; try done.
    match goal with E : negb _ && negb _ = false |- _ =>
      apply andb_false_iff in E as [E|E]; apply negb_false_iff, beq_spec in E; subst end;
      [left|right]; reflexivity.
  - unfold maelys_egress_config_set_audit. setter. destruct Hok. split; done.
  - destruct Hok. split; done.
Qed.

End Invariant.

Lemma reachable_ok `{Inet} c : reachable c -> config_ok c.
Proof.
  induction 1; [exact config_create_ok|]. by apply config_apply_ok.
Qed.

(** * Credentials *)

(** A principal with this secret and, if one is given, this name. *)
Definition holds_credentials (u : option bytes) (s : bytes) (p : egress_principal_t) : Prop :=
  secret p = s /\ from_option (fun u => username p = u) True u.

Definition nul_free (s : bytes) : Prop := 0 ∉ s.

Lemma username_char_nul u : forallb username_char u = true -> nul_free u.
Proof. rewrite forallb_Forall, Forall_forall. intros Hf Hz. by specialize (Hf 0 Hz). Qed.

Lemma last_match_inv ps u s i m :
  Forall (fun p => nul_free (username p) /\ nul_free (secret p)) ps -> nul_free s ->
  from_option nul_free True u ->
  (exists k p, ps !! k = Some p /\ holds_credentials u s p /\
               last_match ps u s i m = Some (i + k)%nat) \/
  (last_match ps u s i m = m /\ Forall (fun p => ~ holds_credentials u s p) ps).
Proof.
  revert i m. induction ps as [|p ps IH]; intros i m Hps Hs Hu; [by right|].
  apply Forall_cons in Hps as [[Hpu Hps] Hf]. cbn [last_match].
  assert (Ht : match u with Some u => egress_constant_time_equal u (username p) | None => true end
               && egress_constant_time_equal s (secret p) = true <-> holds_credentials u s p).
  { unfold holds_credentials. rewrite andb_true_iff, constant_time_equal_eq by done.
    destruct u as [u|]; simpl in *; [rewrite constant_time_equal_eq by done|]; naive_solver. }
  destruct (_ && _).
  - destruct (IH (S i) (Some i) Hf Hs Hu) as [(k & q & Hk & Hq & E)|[E Hn]].
    + left. exists (S k), q. rewrite E. split_and!; [done|done|f_equal; lia].
    + left. exists 0%nat, p. rewrite E. split_and!; [done|by apply Ht|f_equal; lia].
  - destruct (IH (S i) m Hf Hs Hu) as [(k & q & Hk & Hq & E)|[E Hn]].
    + left. exists (S k), q. rewrite E. split_and!; [done|done|f_equal; lia].
    + right. split; [done|]. apply Forall_cons. split; [by intros ?%Ht|done].
Qed.

Lemma NoDup_map_lookup {A B} (f : A -> B) l i j x y :
  NoDup (map f l) -> l !! i = Some x -> l !! j = Some y -> f x = f y -> i = j.
Proof.
  intros Hn Hi Hj E. eapply NoDup_lookup; [exact Hn| |];
    change (map f l) with (f <$> l); rewrite list_lookup_fmap; [rewrite Hi|rewrite Hj]; simpl.
  - by rewrite E.
  - done.
Qed.

Lemma config_ok_nul `{Inet} c :
  config_ok c -> authentication_set c = true ->
  Forall (fun p => nul_free (username p) /\ nul_free (secret p)) (principals c).
Proof.
  intros Hok Ha. destruct (ok_secrets c Hok Ha) as [Hs _]. pose proof (ok_identities c Hok) as Hi.
  rewrite Forall_forall in *. intros p Hp. specialize (Hs p Hp) as [_ Hv]. destruct (Hi p Hp).
  split; [by apply username_char_nul|]. intros Hz. rewrite Forall_forall in Hv.
  specialize (Hv 0 Hz). unfold visible in Hv. lia.
Qed.

Lemma credentials_lookup_spec `{Inet} c u s inv i :
  config_ok c -> nul_free s -> from_option nul_free True u ->
  egress_credentials_lookup c u s = Some (inv, i) <->
  authentication_set c = true /\
  exists p, principals c !! i = Some p /\ holds_credentials u s p /\ inv = invocation_id p.
Proof.
  intros Hok Hs Hu. unfold egress_credentials_lookup.
  destruct (authentication_set c) eqn:Ha; simpl; [|naive_solver].
  assert (Hinv : forall k p, principals c !! k = Some p ->
    snprintf_s (EGRESS_MAX_INVOCATION_ID + 1)
      (invocation_id (nth k (principals c) zero_principal)) = invocation_id p).
  { intros k p Hk. rewrite (nth_lookup_Some _ _ _ _ Hk). apply snprintf_s_id.
    pose proof (ok_identities c Hok) as Hi. rewrite Forall_lookup in Hi. destruct (Hi _ _ Hk). lia. }
  destruct (last_match_inv (principals c) u s 0 None (config_ok_nul c Hok Ha) Hs Hu)
    as [(k & p & Hk & Hp & E)|[E Hn]]; rewrite E.
  - simpl. rewrite (Hinv k p Hk). split.
    + intros [= <- <-]. split; [done|]. by exists p.
    + intros (_ & q & Hq & Hc & ->).
      assert (i = k) as ->.
      { destruct (ok_secrets c Hok Ha) as [_ Hnd].
        eapply NoDup_map_lookup; [exact Hnd|exact Hq|exact Hk|].
        destruct Hp as [-> _], Hc as [-> _]. done. }
      rewrite Hk in Hq. by simplify_eq.
  - split; [done|]. intros (_ & q & Hq & Hc & ->). exfalso.
    rewrite Forall_lookup in Hn. by apply (Hn i q Hq).
Qed.

(** * Properties *)

(** A filesystem in which nothing can be opened; only the closed examples use
    it. *)
Definition empty_fs : Fs := {|
  fs_dir := unit;
  fs_open_root := None;
  fs_openat _ _ := None;
  fs_fstat _ := None;
  fs_geteuid := 0;
  maelys_sys_file_path_identity _ := SYS_ERR_OTHER;
|}.

Definition example_config : maelys_egress_config :=
  (@config_apply dotted_inet empty_fs maelys_egress_config_create
     (AddPrincipal (str "agent") (str "0123456789abcdef") (Some (str "run-1")))).2.

Lemma example_config_reachable : @reachable dotted_inet example_config.
Proof. apply reachable_call; [apply reachable_create|exact I]. Qed.

(** Every configuration a sequence of setter calls can build is
    consistent.  Its principals have bounded, canonical identities and, when
    credentials authenticate, distinct visible secrets of 16 to 255 bytes; an
    endpoint-bound principal is alone, has no secret, excludes credentials, and
    is bound to a same-user Unix listener or to native-only mode without TLS
    and without the unauthenticated exemption; the listener is one of native,
    Unix with a canonical path, or a numeric address; the limits are within
    their bounds; the admin endpoint is a loopback address. *)
Theorem config_reachable_consistent `{Inet} c : reachable c -> config_ok c.
Proof. apply reachable_ok. Qed.

Lemma config_reachable_consistent_witness :
  secret <$> (principals example_config !! 0%nat) = Some (str "0123456789abcdef") /\
  @config_ok dotted_inet example_config.
Proof.
  split; [reflexivity|].
  apply (@config_reachable_consistent dotted_inet), example_config_reachable.
Defined.

(** Credentials admit exactly the principal that holds them.  On any
    configuration the setters can build, a lookup by name and secret, or by
    secret alone, returns an index and an invocation id exactly when
    credentials are enabled and that principal has that secret and that name:
    there is never a second one. *)
Theorem credentials_lookup_correct `{Inet} c u s inv i :
  reachable c -> nul_free s -> from_option nul_free True u ->
  egress_credentials_lookup c u s = Some (inv, i) <->
  authentication_set c = true /\
  exists p, principals c !! i = Some p /\ holds_credentials u s p /\ inv = invocation_id p.
Proof. intros Hr. by apply credentials_lookup_spec, reachable_ok. Qed.

Lemma credentials_lookup_correct_witness :
  egress_credentials_lookup example_config None (str "0123456789abcdef") =
    Some (str "run-1", 0%nat).
Proof.
  apply (@credentials_lookup_correct dotted_inet);
    [apply example_config_reachable|apply has_char_false; reflexivity|exact I|].
  split; [reflexivity|]. eexists. split_and!; [reflexivity|split; [reflexivity|exact I]|reflexivity].
Defined.

(** The listener, the kind of authentication and the identities: what an
    endpoint-bound principal is bound to. *)
Definition endpoint (c : maelys_egress_config) :=
  (native_only c, listen_unix c, listen_host c, port c, unix_path c, unix_peer_policy c,
   authentication_set c, unix_principal_bound c, native_principal_bound c,
   unix_principal_index c,
   map (fun p => (username p, secret p, invocation_id p)) (principals c)).

(** A setter that fails leaves the configuration as it was; and once a
    principal is bound to the endpoint no setter, whatever its arguments and
    its result, changes the listener, the peer policy, the principal or the
    absence of credentials. *)
Theorem config_failure_atomic_and_bound_immutable `{Inet} `{Fs} c call :
  ((config_apply c call).1 <> MAELYS_EGRESS_OK -> (config_apply c call).2 = c) /\
  (native_principal_bound c || unix_principal_bound c = true ->
   endpoint (config_apply c call).2 = endpoint c).
Proof.
  split.
  - destruct call; simpl; unfold maelys_egress_config_set_listen,
      maelys_egress_config_set_listen_unix, maelys_egress_config_set_unix_principal,
      maelys_egress_config_set_native_only, maelys_egress_config_set_native_principal,
      maelys_egress_config_set_authentication, maelys_egress_config_add_principal,
      maelys_egress_config_set_principal_quota_v2,
      maelys_egress_config_allow_unauthenticated_loopback, maelys_egress_config_set_limits,
      maelys_egress_config_set_tls_listener, maelys_egress_config_set_admin_listen,
      maelys_egress_config_set_audit; repeat case_match; try done.
  - intros Hb. destruct call; simpl; unfold maelys_egress_config_set_listen,
      maelys_egress_config_set_listen_unix, maelys_egress_config_set_unix_principal,
      maelys_egress_config_set_native_only, maelys_egress_config_set_native_principal,
      maelys_egress_config_set_authentication, maelys_egress_config_add_principal,
      maelys_egress_config_allow_unauthenticated_loopback, maelys_egress_config_set_limits,
      maelys_egress_config_set_tls_listener, maelys_egress_config_set_admin_listen,
      maelys_egress_config_set_audit; rewrite ?Hb; repeat case_match; try done.
    + bool_simp. by apply orb_true_iff in Hb as [Hb|Hb]; rewrite Hb in *.
    + unfold maelys_egress_config_set_principal_quota_v2. case_match; [done|].
      destruct (set_quota _ _ _ _ _) as [ps|] eqn:E; [|done].
      unfold endpoint. simpl. by rewrite (set_quota_fields _ _ _ _ _ _ E).
Qed.

Lemma config_failure_atomic_and_bound_immutable_witness :
  let c := (@config_apply dotted_inet empty_fs
              (@config_apply dotted_inet empty_fs maelys_egress_config_create (SetNativeOnly 1)).2
              (SetNativePrincipal (str "agent") None)).2 in
  endpoint (@config_apply dotted_inet empty_fs c (SetNativeOnly 0)).2 = endpoint c.
Proof.
  intros c. apply (@config_failure_atomic_and_bound_immutable dotted_inet empty_fs). reflexivity.
Defined.

(** * The parent directory *)

Section Parent.
Context `{Fs}.

(** Descending through a list of components. *)
Fixpoint walk (directory : fs_dir) (components : list bytes) : option fs_dir :=
  match components with
  | [] => Some directory
  | name :: components => next ← fs_openat directory name; walk next components
  end.

Lemma parent_loop_walk fuel directory components :
  components <> [] ->
  Forall (fun c => path_component c /\ c_slash ∉ c) components ->
  len (join c_slash components) < SUN_PATH_SIZE ->
  (length (join c_slash components) < fuel)%nat ->
  parent_loop fuel directory (join c_slash components) = walk directory components.
Proof.
  revert fuel directory. induction components as [|c cs IH]; intros fuel d Hn Hf Hl Hfu; [done|].
  apply Forall_cons in Hf as [[(Hc & _) Hs] Hf]. destruct fuel as [|fuel]; [lia|].
  destruct c as [|x c]; [done|]. set (s := x :: c) in *.
  assert (Hlen : 0 < len s) by (unfold len, s; simpl; lia).
  destruct cs as [|c' cs].
  - change (join c_slash [s]) with s in *. unfold s at 1. cbn [parent_loop walk]. fold s.
    rewrite (proj2 (index_of_None c_slash s)) by done.
    destruct (Z.eqb_spec (len s) 0); [lia|]. destruct (Z.leb_spec SUN_PATH_SIZE (len s)); [lia|].
    cbn [orb]. rewrite ztake_all by lia. destruct (fs_openat d s); [|done]. by destruct fuel.
  - assert (Ej : join c_slash (s :: c' :: cs) = s ++ c_slash :: join c_slash (c' :: cs)) by done.
    rewrite Ej in *. rewrite len_app in Hl. pose proof (len_nonneg (c_slash :: join c_slash (c' :: cs))).
    rewrite length_app in Hfu. simpl length in Hfu.
    change (s ++ ?t) with (x :: c ++ t). cbn [parent_loop walk].
    change (x :: c ++ ?t) with (s ++ t). rewrite index_of_app by done.
    change (Z.of_nat (length s)) with (len s).
    destruct (Z.eqb_spec (len s) 0); [lia|]. destruct (Z.leb_spec SUN_PATH_SIZE (len s)); [lia|].
    cbn [orb]. rewrite ztake_app_len by done. destruct (fs_openat d s) as [next|]; [|done]. simpl mbind.
    replace (drop (S (length s)) (s ++ c_slash :: join c_slash (c' :: cs)))
      with (join c_slash (c' :: cs))
      by (rewrite (drop_app_ge s _ (S (length s))) by lia;
          replace (S (length s) - length s)%nat with 1%nat by lia; done).
    apply IH; [done|done| |simpl length in *; lia].
    unfold len in *. simpl length in *. lia.
Qed.

(** The parent of a Unix listener.  For a canonical path that fits a socket
    address, the check succeeds exactly when there is at least one directory
    above the socket, every one of them opens from the root without following
    a symbolic link, and the last is owned by the caller with mode 0700. *)
Theorem unix_parent_private_correct (path : bytes) (components : list bytes) (name : bytes) :
  path = c_slash :: join c_slash (components ++ [name]) ->
  Forall (fun c => path_component c /\ c_slash ∉ c) (components ++ [name]) ->
  len path < SUN_PATH_SIZE ->
  egress_unix_parent_is_private path = true <->
  components <> [] /\
  exists root directory mode, fs_open_root = Some root /\
    walk root components = Some directory /\
    fs_fstat directory = Some (fs_geteuid, mode) /\ Z.land mode S_IRWXALL = S_IRWXU.
Proof.
  intros -> Hf Hl. apply Forall_app in Hf as [Hf [[_ Hn] _]%Forall_cons].
  unfold egress_unix_parent_is_private. rewrite snprintf_s_id by done.
  destruct (decide (components = [])) as [->|Hne].
  { change (c_slash :: join c_slash ([] ++ [name])) with ([] ++ c_slash :: name).
    rewrite last_index_of_app by done. simpl. naive_solver. }
  rewrite join_snoc in * by done.
  change (c_slash :: join c_slash components ++ c_slash :: name)
    with ((c_slash :: join c_slash components) ++ c_slash :: name) in *.
  rewrite last_index_of_app, take_app_length by done. cbn [length tail].
  rewrite len_app in Hl. pose proof (len_nonneg (c_slash :: name)).
  destruct fs_open_root as [root|]; [|split; [done|by intros (_ & ? & ? & ? & [=] & _)]].
  rewrite parent_loop_walk; [|done|done|unfold len in *; simpl length in *; lia|simpl; lia].
  destruct (walk root components) as [d|] eqn:Ew.
  2: { split; [done|]. intros (_ & ? & ? & ? & [= <-] & E & _). congruence. }
  destruct (fs_fstat d) as [[uid mode]|] eqn:Ed.
  2: { split; [done|]. intros (_ & ? & ? & ? & [= <-] & E & ? & _). congruence. }
  rewrite negb_true_iff, orb_false_iff, !negb_false_iff, !Z.eqb_eq.
  split.
  - intros [-> Hm]. split; [done|]. by exists root, d, mode.
  - intros (_ & r & d' & m & [= <-] & E & Es & Em). rewrite Ew in E. by simplify_eq.
Qed.
End Parent.

(** One private directory below the root. *)
Definition example_fs : Fs := {|
  fs_dir := nat;
  fs_open_root := Some 0%nat;
  fs_openat d name := if beq name (str "run") then Some (S d) else None;
  fs_fstat d := match d with O => Some (0, 0x1ed) | _ => Some (1000, 0x41c0) end;
  fs_geteuid := 1000;
  maelys_sys_file_path_identity _ := SYS_ERR_NOT_FOUND;
|}.

Lemma unix_parent_private_correct_witness :
  @egress_unix_parent_is_private example_fs (str "/run/egress.sock") = true.
Proof.
  apply (@unix_parent_private_correct example_fs (str "/run/egress.sock") [str "run"] (str "egress.sock")).
  - reflexivity.
  - apply Forall_cons_2; [|apply Forall_cons_2; [|apply Forall_nil_2]];
      (split; [split_and!; discriminate|apply has_char_false; reflexivity]).
  - reflexivity.
  - split; [discriminate|]. by exists 0%nat, 1%nat, 0x41c0.
Defined.
