(* ===== verification/Policy.v ===== *)
(** Destination policies (src/core/policy.c).

    A policy is built by adding destinations and requiring TLS server names,
    then sealed: its destinations are sorted, resolved once, and digested; from
    then on it only answers lookups.  Name resolution is the interface
    [Resolver], which may answer differently at every sealing; the allocations
    that can fail are arguments.  The abstract view of a policy is a finite map
    from host and port to the two flags. *)

From stdpp Require Import gmap.
From S2P Require Import Prelude Common Sha256.
#[local] Open Scope Z_scope.

(** * Data *)

Definition EGRESS_MAX_DESTINATIONS : Z := 256.
Definition EGRESS_MAX_PINNED_ADDRESSES : Z := 16.
Definition INET6_ADDRSTRLEN : Z := 46.

(** [sizeof(struct sockaddr_storage)]. *)
Definition SOCKADDR_STORAGE_SIZE : Z := 128.

Record egress_address_t := Address { storage : sockaddr; addr_length : Z }.

#[export] Instance address_eq_dec : EqDecision egress_address_t.
Proof. solve_decision. Defined.

Record egress_destination_t := Destination {
  dest_host : bytes;
  dest_port : Z;
  allow_private : bool;
  require_tls_sni : bool;
  addresses : list egress_address_t;
}.

#[export] Instance eta_destination : Eta egress_destination_t := fun d =>
  Destination (dest_host d) (dest_port d) (allow_private d) (require_tls_sni d) (addresses d).

Definition address_count (d : egress_destination_t) : Z := len (addresses d).

Record maelys_egress_policy := Policy {
  destinations : list egress_destination_t;
  capacity : Z;
  sealed : bool;
  digest_hex : bytes;
}.

#[export] Instance eta_policy : Eta maelys_egress_policy := fun p =>
  Policy (destinations p) (capacity p) (sealed p) (digest_hex p).

Definition count (p : maelys_egress_policy) : Z := len (destinations p).

Definition AF_INET : Z := 2.
Definition AF_INET6 : Z := 10.

Definition sa_family (a : sockaddr) : Z :=
  match a with
  | AF_INET_addr _ _ => AF_INET
  | AF_INET6_addr _ _ _ _ => AF_INET6
  | AF_OTHER_addr family => family
  end.

(** An entry of the list [getaddrinfo] returns. *)
Record addrinfo := Addrinfo { ai_family : Z; ai_addrlen : Z; ai_addr : sockaddr }.

(** [getaddrinfo] with the hints of the code, on a host and the decimal text of
    a port; [None] is a failed lookup. *)
Class Resolver := getaddrinfo : bytes -> bytes -> option (list addrinfo).

(** * Building *)

(** [maelys_egress_policy_create], when the allocation succeeds. *)
Definition maelys_egress_policy_create : maelys_egress_policy := Policy [] 0 false [].

Definition is_destination (host : bytes) (port : Z) (d : egress_destination_t) : bool :=
  (dest_port d =? port) && bool_decide (strcmp (dest_host d) host = Eq).

(** The index of the destination the pointer returned refers to. *)
Fixpoint find_index (ds : list egress_destination_t) (host : bytes) (port : Z) : option nat :=
  match ds with
  | [] => None
  | d :: ds => if is_destination host port d then Some 0%nat else S <$> find_index ds host port
  end.

Definition find_mutable_destination (p : maelys_egress_policy) (host : bytes) (port : Z)
  : option nat := if sealed p then None else find_index (destinations p) host port.

Section Building.
Context `{Inet}.

Definition maelys_egress_policy_require_tls_sni (p : maelys_egress_policy)
    (canonical_host : bytes) (port : Z) : maelys_egress_result_t * maelys_egress_policy :=
  if sealed p || (port =? 0) then (MAELYS_EGRESS_ERR_ARGUMENT, p)
  else match egress_canonical_host canonical_host with
       | None => (MAELYS_EGRESS_ERR_ARGUMENT, p)
       | Some host =>
           if is_some (inet_pton4 host) || is_some (inet_pton6 host)
           then (MAELYS_EGRESS_ERR_ARGUMENT, p)
           else match find_mutable_destination p host port with
                | None => (MAELYS_EGRESS_ERR_ARGUMENT, p)
                | Some i =>
                    (MAELYS_EGRESS_OK,
                     p <| destinations := alter (fun d => d <| require_tls_sni := true |>) i
                                            (destinations p) |>)
                end
       end.

(** [grow] and [copy] say whether [realloc] and [egress_strdup] succeed. *)
Definition maelys_egress_policy_allow_tcp (grow copy : bool) (p : maelys_egress_policy)
    (canonical_host : bytes) (port : Z) (allow_private_addresses : bool)
  : maelys_egress_result_t * maelys_egress_policy :=
  if sealed p || (port =? 0) then (MAELYS_EGRESS_ERR_ARGUMENT, p)
  else match egress_canonical_host canonical_host with
       | None => (MAELYS_EGRESS_ERR_ARGUMENT, p)
       | Some host =>
           if existsb (is_destination host port) (destinations p)
           then (MAELYS_EGRESS_ERR_ARGUMENT, p)
           else if EGRESS_MAX_DESTINATIONS <=? count p then (MAELYS_EGRESS_ERR_ARGUMENT, p)
           else if (count p =? capacity p) && negb grow then (MAELYS_EGRESS_ERR_MEMORY, p)
           else
             let p := if count p =? capacity p
                      then p <| capacity := if negb (capacity p =? 0) then capacity p * 2 else 8 |>
                      else p in
             if negb copy then (MAELYS_EGRESS_ERR_MEMORY, p)
             else (MAELYS_EGRESS_OK,
                   p <| destinations :=
                     destinations p ++ [Destination host port allow_private_addresses false []] |>)
       end.

End Building.

(** * Sealing *)

Definition address_equal (left right : egress_address_t) : bool :=
  (addr_length left =? addr_length right) && bool_decide (storage left = storage right).

Definition raw_address (a : sockaddr) : bytes :=
  match a with
  | AF_INET_addr _ raw => raw
  | AF_INET6_addr _ _ raw _ => raw
  | AF_OTHER_addr _ => []
  end.

(** [memcmp] of address bytes of equal length is their lexicographic order. *)
Definition address_compare (a b : egress_address_t) : comparison :=
  let family_a := sa_family (storage a) in
  let family_b := sa_family (storage b) in
  if negb (family_a =? family_b) then (if family_a <? family_b then Lt else Gt)
  else strcmp (raw_address (storage a)) (raw_address (storage b)).

Definition destination_compare (a b : egress_destination_t) : comparison :=
  match strcmp (dest_host a) (dest_host b) with
  | Eq => if dest_port a <? dest_port b then Lt else if dest_port b <? dest_port a then Gt else Eq
  | c => c
  end.

(** [qsort] under a comparison function: a sorted permutation.  The keys of the
    destinations of a policy are distinct, so theirs is the only one; addresses
    that compare equal are kept in the order they came in. *)
Definition le_of {A} (cmp : A -> A -> comparison) (a b : A) : Prop := cmp a b <> Gt.

#[export] Instance le_of_dec {A} (cmp : A -> A -> comparison) : RelDecision (le_of cmp).
Proof. intros a b. unfold le_of. apply _. Defined.

Definition qsort {A} (cmp : A -> A -> comparison) (l : list A) : list A :=
  merge_sort (le_of cmp) l.

(** The loop over the answers of the resolver, with its two ways out. *)
Fixpoint resolve_loop (d : egress_destination_t) (answers : list addrinfo)
  : maelys_egress_result_t * egress_destination_t :=
  match answers with
  | [] => (MAELYS_EGRESS_OK, d)
  | a :: answers =>
      if (SOCKADDR_STORAGE_SIZE <? ai_addrlen a) ||
         (negb (ai_family a =? AF_INET) && negb (ai_family a =? AF_INET6))
      then resolve_loop d answers
      else if negb (allow_private d) && egress_address_is_private (Some (ai_addr a))
      then (MAELYS_EGRESS_ERR_DENIED, d)
      else
        let candidate := Address (ai_addr a) (ai_addrlen a) in
        if existsb (address_equal candidate) (addresses d) then resolve_loop d answers
        else if EGRESS_MAX_PINNED_ADDRESSES <=? address_count d
        then (MAELYS_EGRESS_ERR_ARGUMENT, d)
        else resolve_loop (d <| addresses := addresses d ++ [candidate] |>) answers
  end.

Definition resolve_destination `{Resolver} (d : egress_destination_t)
  : maelys_egress_result_t * egress_destination_t :=
  match getaddrinfo (dest_host d) (decimal (dest_port d)) with
  | None => (MAELYS_EGRESS_ERR_IO, d)
  | Some answers =>
      match resolve_loop d answers with
      | (MAELYS_EGRESS_OK, d) =>
          let d := d <| addresses := qsort address_compare (addresses d) |> in
          if address_count d =? 0 then (MAELYS_EGRESS_ERR_IO, d) else (MAELYS_EGRESS_OK, d)
      | failed => failed
      end
  end.

Section Digest.
Context `{Inet}.

Definition b2z (b : bool) : Z := if b then 1 else 0.

Definition tab : bytes := [c_htab].
Definition newline : bytes := [c_lf].

Definition destination_line (d : egress_destination_t) : bytes :=
  str "tcp" ++ tab ++ dest_host d ++ tab ++ decimal (dest_port d) ++ tab ++
  decimal (b2z (allow_private d)) ++ tab ++ decimal (b2z (require_tls_sni d)) ++ newline.

(** The numeric form [inet_ntop] gives an address; [None] is its failure, or a
    family that is neither. *)
Definition numeric_address (a : egress_address_t) : option bytes :=
  let family := sa_family (storage a) in
  if family =? AF_INET then inet_ntop4 (raw_address (storage a))
  else if family =? AF_INET6 then inet_ntop6 (raw_address (storage a))
  else None.

Definition address_line (a : egress_address_t) (numeric : bytes) : bytes :=
  str "addr" ++ tab ++ decimal (if sa_family (storage a) =? AF_INET then 4 else 6) ++ tab ++
  numeric ++ newline.

(** One [snprintf] into what is left of the buffer; [None] when it does not
    fit. *)
Definition put (cap : Z) (used text : bytes) : option bytes :=
  if cap - len used <=? len text then None else Some (used ++ text).

Fixpoint put_addresses (cap : Z) (used : bytes) (l : list egress_address_t) : option bytes :=
  match l with
  | [] => Some used
  | a :: l =>
      numeric ← numeric_address a;
      used ← put cap used (address_line a numeric);
      put_addresses cap used l
  end.

Fixpoint put_destinations (cap : Z) (used : bytes) (l : list egress_destination_t)
  : option bytes :=
  match l with
  | [] => Some used
  | d :: l =>
      used ← put cap used (destination_line d);
      used ← put_addresses cap used (addresses d);
      put_destinations cap used l
  end.

Definition digest_capacity (ds : list egress_destination_t) : Z :=
  fold_left (fun capacity d =>
    capacity + (len (dest_host d) + 32 + address_count d * (INET6_ADDRSTRLEN + 16))) ds 16.

(** [mem] says whether the buffer is allocated; a digest that cannot be
    computed is left empty. *)
Definition egress_policy_compute_digest (mem : bool) (p : maelys_egress_policy)
  : maelys_egress_policy :=
  let cap := digest_capacity (destinations p) in
  if negb mem then p <| digest_hex := [] |>
  else match put_destinations cap [] (destinations p) with
       | None => p <| digest_hex := [] |>
       | Some canonical => p <| digest_hex := egress_sha256_hex canonical |>
       end.

(** The loop of the sealing: the destinations resolved so far and the failing
    one stay in the policy. *)
Fixpoint resolve_all `{Resolver} (ds : list egress_destination_t)
  : maelys_egress_result_t * list egress_destination_t :=
  match ds with
  | [] => (MAELYS_EGRESS_OK, [])
  | d :: ds =>
      match resolve_destination d with
      | (MAELYS_EGRESS_OK, d) =>
          let '(result, ds) := resolve_all ds in (result, d :: ds)
      | (result, d) => (result, d :: ds)
      end
  end.

Definition maelys_egress_policy_seal `{Resolver} (mem : bool) (p : maelys_egress_policy)
  : maelys_egress_result_t * maelys_egress_policy :=
  if sealed p || (count p =? 0) then (MAELYS_EGRESS_ERR_ARGUMENT, p)
  else
    let p := p <| destinations := qsort destination_compare (destinations p) |> in
    let '(result, ds) := resolve_all (destinations p) in
    let p := p <| destinations := ds |> in
    match result with
    | MAELYS_EGRESS_OK =>
        let p := egress_policy_compute_digest mem p in
        if len (digest_hex p) =? 0 then (MAELYS_EGRESS_ERR_MEMORY, p)
        else (MAELYS_EGRESS_OK, p <| sealed := true |>)
    | _ => (result, p)
    end.

(** The loop that rebuilds the destinations of a sealed policy in a new one;
    [mem i] are the two allocations of the [i]-th step. *)
Fixpoint copy_destinations (mem : nat -> bool * bool) (i : nat) (copy : maelys_egress_policy)
    (ds : list egress_destination_t) : maelys_egress_result_t * maelys_egress_policy :=
  match ds with
  | [] => (MAELYS_EGRESS_OK, copy)
  | d :: ds =>
      match maelys_egress_policy_allow_tcp (mem i).1 (mem i).2 copy (dest_host d) (dest_port d)
              (allow_private d) with
      | (MAELYS_EGRESS_OK, copy) =>
          if require_tls_sni d then
            match maelys_egress_policy_require_tls_sni copy (dest_host d) (dest_port d) with
            | (MAELYS_EGRESS_OK, copy) => copy_destinations mem (S i) copy ds
            | failed => failed
            end
          else copy_destinations mem (S i) copy ds
      | failed => failed
      end
  end.

(** The result and the output policy, which is NULL when the call fails. *)
Definition maelys_egress_policy_reseal `{Resolver} (create : bool) (mem : nat -> bool * bool)
    (digest : bool) (source : maelys_egress_policy)
  : maelys_egress_result_t * option maelys_egress_policy :=
  if negb (sealed source) then (MAELYS_EGRESS_ERR_ARGUMENT, None)
  else if negb create then (MAELYS_EGRESS_ERR_MEMORY, None)
  else match copy_destinations mem 0 maelys_egress_policy_create (destinations source) with
       | (MAELYS_EGRESS_OK, copy) =>
           match maelys_egress_policy_seal digest copy with
           | (MAELYS_EGRESS_OK, copy) => (MAELYS_EGRESS_OK, Some copy)
           | (result, _) => (result, None)
           end
       | (result, _) => (result, None)
       end.

End Digest.

(** * Lookups *)

Definition maelys_egress_policy_is_sealed (p : option maelys_egress_policy) : bool :=
  match p with Some p => sealed p | None => false end.

Definition maelys_egress_policy_digest_hex (p : option maelys_egress_policy) : option bytes :=
  match p with Some p => if sealed p then Some (digest_hex p) else None | None => None end.

(** The loop stops at the first destination whose host is beyond the one
    looked for. *)
Fixpoint find_loop (ds : list egress_destination_t) (host : bytes) (port : Z)
  : option egress_destination_t :=
  match ds with
  | [] => None
  | d :: ds =>
      match strcmp host (dest_host d) with
      | Eq => if port =? dest_port d then Some d else find_loop ds host port
      | Lt => None
      | Gt => find_loop ds host port
      end
  end.

(** [None] for a NULL policy or for no destination. *)
Definition egress_policy_find (p : option maelys_egress_policy) (host : bytes) (port : Z)
  : option egress_destination_t :=
  match p with
  | None => None
  | Some p =>
      if negb (sealed p) || (port =? 0) then None else find_loop (destinations p) host port
  end.

#[global] Arguments destination_line : simpl never.
#[global] Arguments address_line : simpl never.

(** * Orders *)

(** What [qsort] needs of a comparison function. *)
Class Comparison {A} (cmp : A -> A -> comparison) : Prop := {
  cmp_antisym : forall a b, cmp b a = CompOpp (cmp a b);
  cmp_eq_l : forall a b c, cmp a b = Eq -> cmp a c = cmp b c;
  cmp_lt_trans : Transitive (fun a b => cmp a b = Lt);
}.

#[export] Instance strcmp_comparison : Comparison strcmp.
Proof.
  split; [apply strcmp_antisym|by intros a b c ->%strcmp_Eq|intros a b c; apply strcmp_trans].
Qed.

(** Comparing a number first and then by another function. *)
Definition lex {A} (key : A -> Z) (cmp : A -> A -> comparison) (a b : A) : comparison :=
  match key a ?= key b with Eq => cmp a b | c => c end.

Definition lex_after {A} (cmp : A -> A -> comparison) (key : A -> Z) (a b : A) : comparison :=
  match cmp a b with Eq => key a ?= key b | c => c end.

#[export] Instance lex_comparison {A} (key : A -> Z) cmp :
  Comparison cmp -> Comparison (lex key cmp).
Proof.
  intros [H1 H2 H3]. split; unfold lex.
  - intros a b. rewrite (Z.compare_antisym (key a)). destruct (key a ?= key b); simpl; auto.
  - intros a b c. destruct (Z.compare_spec (key a) (key b)) as [->| |]; [|done|done].
    intros E. destruct (key b ?= key c); auto.
  - intros a b c. destruct (Z.compare_spec (key a) (key b)) as [->|Hab|]; [| |done].
    + intros E1. destruct (Z.compare_spec (key b) (key c)); [by eauto|done|done].
    + intros _ Hbc. assert (key a < key c) as Hac
        by (destruct (Z.compare_spec (key b) (key c)); [lia|lia|done]).
      by rewrite (proj2 (Z.compare_lt_iff _ _) Hac).
Qed.

#[export] Instance lex_after_comparison {A} cmp (key : A -> Z) :
  Comparison cmp -> Comparison (lex_after cmp key).
Proof.
  intros [H1 H2 H3]. split; unfold lex_after.
  - intros a b. rewrite H1. destruct (cmp a b); simpl; [apply Z.compare_antisym|done|done].
  - intros a b c. destruct (cmp a b) eqn:E; [|done|done]. intros ->%Z.compare_eq_iff.
    by rewrite (H2 _ _ c E).
  - intros a b c. destruct (cmp a b) eqn:E; [| |done].
    + intros Hl. rewrite (H2 _ _ c E). destruct (cmp b c); [|done|done].
      rewrite !Z.compare_lt_iff in *. lia.
    + intros _. destruct (cmp b c) eqn:E'; [| |done]; intros _.
      * assert (cmp a c = Lt) as ->; [|done].
        rewrite H1, (H2 c b a), <-H1; [done|]. by rewrite H1, E'.
      * by rewrite (H3 a b c).
Qed.

Lemma comparison_on {A B} (f : A -> B) cmp :
  Comparison cmp -> Comparison (fun a b => cmp (f a) (f b)).
Proof. intros [H1 H2 H3]. split; eauto. Qed.

Lemma comparison_ext {A} (cmp cmp' : A -> A -> comparison) :
  (forall a b, cmp a b = cmp' a b) -> Comparison cmp' -> Comparison cmp.
Proof.
  intros E [H1 H2 H3]. split; intros ? ?; [rewrite !E; eauto| |].
  - intros c. rewrite !E. eauto.
  - intros c. cbn beta. rewrite !E. apply H3.
Qed.

#[export] Instance destination_comparison : Comparison destination_compare.
Proof.
  apply (comparison_ext _ (lex_after (fun a b => strcmp (dest_host a) (dest_host b)) dest_port));
    [|apply lex_after_comparison, comparison_on, strcmp_comparison].
  intros a b. unfold destination_compare, lex_after.
  destruct (strcmp _ _); [|done|done].
  destruct (Z.compare_spec (dest_port a) (dest_port b)) as [->|Hl|Hl].
  - by rewrite Z.ltb_irrefl.
  - by rewrite (proj2 (Z.ltb_lt _ _) Hl).
  - rewrite (proj2 (Z.ltb_lt _ _) Hl). by destruct (Z.ltb_spec (dest_port a) (dest_port b)); [lia|].
Qed.

Section Sorting.
Context {A : Type} (cmp : A -> A -> comparison) {Hc : Comparison cmp}.

#[export] Instance le_of_total : Total (le_of cmp).
Proof using Hc.
  intros a b. unfold le_of. rewrite (@cmp_antisym _ cmp _ a b). destruct (cmp a b); simpl; auto.
Qed.

#[export] Instance le_of_trans : Transitive (le_of cmp).
Proof using Hc.
  intros a b c. unfold le_of. destruct (cmp a b) eqn:E; [| |done].
  - by rewrite (@cmp_eq_l _ cmp _ a b c E).
  - intros _. destruct (cmp b c) eqn:E'; [| |done]; intros _.
    + rewrite (@cmp_antisym _ cmp _ c a), (@cmp_eq_l _ cmp _ c b a),
        <-(@cmp_antisym _ cmp _ b a); [by rewrite E|by rewrite (@cmp_antisym _ cmp _ b c), E'].
    + by rewrite (@cmp_lt_trans _ cmp _ a b c).
Qed.

Lemma qsort_sorted l : StronglySorted (le_of cmp) (qsort cmp l).
Proof using Hc. apply StronglySorted_merge_sort; apply _. Qed.

Lemma qsort_perm l : qsort cmp l ≡ₚ l.
Proof. apply merge_sort_Permutation. Qed.

Lemma le_of_antisym a b : le_of cmp a b -> le_of cmp b a -> cmp a b = Eq.
Proof using Hc.
  unfold le_of. rewrite (@cmp_antisym _ cmp _ a b). by destruct (cmp a b).
Qed.

(** Whatever the algorithm, the sorted permutation is unique when equal keys
    are equal elements. *)
Lemma qsort_unique l1 l2 :
  (forall a b, a ∈ l1 -> b ∈ l1 -> cmp a b = Eq -> a = b) -> l1 ≡ₚ l2 ->
  qsort cmp l1 = qsort cmp l2.
Proof using Hc.
  intros Hk Hp. eapply (StronglySorted_unique_strong (le_of cmp)).
  - intros a b Ha Hb H1 H2. rewrite qsort_perm in Ha. rewrite qsort_perm, <-Hp in Hb.
    apply Hk; [done|done|]. by apply le_of_antisym.
  - apply qsort_sorted.
  - apply qsort_sorted.
  - by rewrite !qsort_perm, Hp.
Qed.
End Sorting.

(** The part of an address the order and the digest see. *)
Definition address_key (a : egress_address_t) : Z * bytes :=
  (sa_family (storage a), raw_address (storage a)).

Definition key_compare : Z * bytes -> Z * bytes -> comparison :=
  lex fst (fun a b => strcmp a.2 b.2).

#[export] Instance key_comparison : Comparison key_compare.
Proof. apply lex_comparison, comparison_on, strcmp_comparison. Qed.

Lemma key_compare_Eq a b : key_compare a b = Eq -> a = b.
Proof.
  unfold key_compare, lex. destruct (Z.compare_spec a.1 b.1) as [E| |]; [|done|done].
  intros Es%strcmp_Eq. by destruct a, b; simpl in *; subst.
Qed.

Lemma address_compare_key a b : address_compare a b = key_compare (address_key a) (address_key b).
Proof.
  unfold address_compare, key_compare, lex, address_key. cbn [fst snd].
  destruct (Z.compare_spec (sa_family (storage a)) (sa_family (storage b))) as [->|Hl|Hl].
  - by rewrite Z.eqb_refl.
  - rewrite (proj2 (Z.eqb_neq _ _)) by lia. by rewrite (proj2 (Z.ltb_lt _ _) Hl).
  - rewrite (proj2 (Z.eqb_neq _ _)) by lia. cbn [negb].
    by destruct (Z.ltb_spec (sa_family (storage a)) (sa_family (storage b))); [lia|].
Qed.

#[export] Instance address_comparison : Comparison address_compare.
Proof.
  eapply comparison_ext; [exact address_compare_key|]. apply comparison_on, key_comparison.
Qed.

Lemma StronglySorted_map {A B} (R : A -> A -> Prop) (S : B -> B -> Prop) (f : A -> B) l :
  (forall a b, R a b -> S (f a) (f b)) -> StronglySorted R l -> StronglySorted S (map f l).
Proof.
  intros H. induction 1 as [|a l Hs IH Hf]; simpl; constructor; [done|].
  apply Forall_map. by eapply Forall_impl; [exact Hf|]; simpl; auto.
Qed.

Lemma StronglySorted_unmap {A B} (R : A -> A -> Prop) (S : B -> B -> Prop) (f : A -> B) l :
  (forall a b, S (f a) (f b) -> R a b) -> StronglySorted S (map f l) -> StronglySorted R l.
Proof.
  intros H. induction l as [|a l IH]; simpl; [constructor|].
  intros [Hf Hs]%StronglySorted_cons. apply (Forall_map f) in Hf.
  constructor; [auto|]. by eapply Forall_impl; [exact Hf|]; simpl; auto.
Qed.

(** The keys of sorted addresses do not depend on the order they came in. *)
Lemma sorted_addresses_keys l1 l2 :
  map address_key l1 ≡ₚ map address_key l2 ->
  map address_key (qsort address_compare l1) = map address_key (qsort address_compare l2).
Proof.
  intros Hp. eapply (StronglySorted_unique_strong (le_of key_compare)).
  - intros a b _ _ H1 H2. apply key_compare_Eq. by apply le_of_antisym; [apply _|..].
  - eapply StronglySorted_map; [|apply qsort_sorted, _].
    intros a b. unfold le_of. by rewrite address_compare_key.
  - eapply StronglySorted_map; [|apply qsort_sorted, _].
    intros a b. unfold le_of. by rewrite address_compare_key.
  - by rewrite !qsort_perm.
Qed.

(** * The invariant *)

Definition dest_key (d : egress_destination_t) : bytes * Z := (dest_host d, dest_port d).

Record destination_ok `{Inet} (d : egress_destination_t) : Prop := {
  dest_ok_host : egress_canonical_host (dest_host d) = Some (dest_host d);
  dest_ok_port : 0 < dest_port d < 2 ^ 16;
  dest_ok_sni : require_tls_sni d = true ->
    inet_pton4 (dest_host d) = None /\ inet_pton6 (dest_host d) = None;
  dest_ok_count : address_count d <= EGRESS_MAX_PINNED_ADDRESSES;
  dest_ok_distinct : NoDup (addresses d);
  dest_ok_global : allow_private d = false ->
    Forall (fun a => egress_address_is_private (Some (storage a)) = false) (addresses d);
}.

(** The text a policy is digested from, without a buffer. *)
Definition destination_text `{Inet} (d : egress_destination_t) : option bytes :=
  lines ← mapM (fun a => address_line a <$> numeric_address a) (addresses d);
  Some (destination_line d ++ concat lines).

Definition policy_text `{Inet} (ds : list egress_destination_t) : option bytes :=
  @concat Z <$> mapM destination_text ds.

Record policy_ok `{Inet} (p : maelys_egress_policy) : Prop := {
  policy_ok_destinations : Forall destination_ok (destinations p);
  policy_ok_keys : NoDup (map dest_key (destinations p));
  policy_ok_count : count p <= EGRESS_MAX_DESTINATIONS;
  policy_ok_sealed : sealed p = true ->
    destinations p <> [] /\
    StronglySorted (le_of destination_compare) (destinations p) /\
    Forall (fun d => addresses d <> []) (destinations p) /\
    exists text, policy_text (destinations p) = Some text /\
      digest_hex p = egress_sha256_hex text;
}.

Inductive policy_call :=
| AllowTcp (grow copy : bool) (host : bytes) (port : Z) (private : bool)
| RequireTlsSni (host : bytes) (port : Z)
| Seal (resolver : Resolver) (mem : bool).

Definition policy_call_typed (call : policy_call) : Prop :=
  match call with
  | AllowTcp _ _ _ port _ | RequireTlsSni _ port => is_u16 port
  | Seal _ _ => True
  end.

Definition policy_apply `{Inet} (p : maelys_egress_policy) (call : policy_call)
  : maelys_egress_result_t * maelys_egress_policy :=
  match call with
  | AllowTcp grow copy host port private =>
      maelys_egress_policy_allow_tcp grow copy p host port private
  | RequireTlsSni host port => maelys_egress_policy_require_tls_sni p host port
  | Seal resolver mem => @maelys_egress_policy_seal _ resolver mem p
  end.

Inductive policy_reachable `{Inet} : maelys_egress_policy -> Prop :=
| policy_reachable_create : policy_reachable maelys_egress_policy_create
| policy_reachable_call p call :
    policy_reachable p -> policy_call_typed call -> policy_reachable (policy_apply p call).2.

Section PolicyInvariant.
Context `{Inet}.

Lemma canonical_host_idem s t :
  egress_canonical_host s = Some t -> egress_canonical_host t = Some t.
Proof. rewrite !egress_canonical_host_form. apply canonical_form_idem. Qed.

Lemma is_destination_key host port d :
  is_destination host port d = true <-> dest_key d = (host, port).
Proof.
  unfold is_destination, dest_key. rewrite andb_true_iff, bool_decide_eq_true, Z.eqb_eq, strcmp_Eq.
  naive_solver.
Qed.

Lemma find_index_Some ds host port i :
  find_index ds host port = Some i -> exists d, ds !! i = Some d /\ dest_key d = (host, port).
Proof.
  revert i. induction ds as [|d ds IH]; intros i E; simpl in E; [done|].
  destruct (is_destination host port d) eqn:Ed; simplify_eq.
  - exists d. split; [done|by apply is_destination_key].
  - apply fmap_Some in E as (j & E & ->). by apply IH.
Qed.

Lemma allow_tcp_ok grow copy p host port private :
  is_u16 port -> policy_ok p ->
  policy_ok (maelys_egress_policy_allow_tcp grow copy p host port private).2.
Proof.
  intros Hp Hok. unfold maelys_egress_policy_allow_tcp.
  destruct (sealed p || (port =? 0)) eqn:Es; [done|].
  destruct (egress_canonical_host host) as [h|] eqn:Eh; [|done].
  destruct (existsb _ _) eqn:Ee; [done|].
  destruct (EGRESS_MAX_DESTINATIONS <=? count p) eqn:Ec; [done|].
  destruct ((count p =? capacity p) && negb grow); [done|]. bool_simp.
  set (p' := if count p =? capacity p then _ else p).
  assert (Hp' : destinations p' = destinations p /\ sealed p' = sealed p /\
                digest_hex p' = digest_hex p) by (unfold p'; by destruct (_ =? _)).
  destruct Hp' as (Ed & Es' & Eg). clearbody p'.
  destruct Hok. destruct copy; cbn [negb snd].
  2: { split; unfold count in *; rewrite ?Ed, ?Es', ?Eg; try done. }
  split; simpl; rewrite ?Ed, ?Es'; try congruence.
  - apply Forall_app. split; [done|]. apply Forall_singleton. unfold is_u16 in Hp.
    split; simpl; try done; [by apply canonical_host_idem in Eh|lia|by constructor].
  - rewrite map_app. apply NoDup_app. split_and!; [done| |apply NoDup_singleton].
    intros k (d & -> & Hd)%list_elem_of_fmap Hk%list_elem_of_singleton.
    rewrite existsb_false_Forall, Forall_forall in Ee. specialize (Ee d Hd).
    by rewrite (proj2 (is_destination_key h port d) Hk) in Ee.
  - unfold count in *. simpl. rewrite len_app. unfold len at 2. simpl. lia.
Qed.

Lemma alter_sni_key ds i :
  map dest_key (alter (fun d => d <| require_tls_sni := true |>) i ds) = map dest_key ds.
Proof.
  revert i. induction ds as [|d ds IH]; intros [|i]; [done|done|done|].
  simpl. by rewrite <-(IH i).
Qed.

Lemma require_sni_ok p host port :
  policy_ok p -> policy_ok (maelys_egress_policy_require_tls_sni p host port).2.
Proof.
  intros Hok. unfold maelys_egress_policy_require_tls_sni, find_mutable_destination.
  destruct (sealed p) eqn:Es; [done|]. destruct (port =? 0); [done|]. cbn [orb].
  destruct (egress_canonical_host host) as [h|] eqn:Eh; [|done].
  destruct (inet_pton4 h) eqn:E4, (inet_pton6 h) eqn:E6; cbn [is_some orb]; try done.
  destruct (find_index _ _ _) as [i|] eqn:Ei; [|done]. cbn [snd].
  apply find_index_Some in Ei as (d & Hi & Hk).
  destruct Hok. split; simpl; [| | |congruence].
  - apply Forall_alter; [done|]. intros d' Hd' []. split; simpl; try done.
    intros _. unfold dest_key in Hk. by simplify_eq.
  - by rewrite alter_sni_key.
  - unfold count, len in *. simpl. by rewrite length_alter.
Qed.
(** Resolution changes the addresses of a destination only. *)
Lemma resolve_loop_fields d answers r d' :
  resolve_loop d answers = (r, d') -> d' = d <| addresses := addresses d' |>.
Proof.
  revert d. induction answers as [|a answers IH]; intros d E; simpl in E.
  { simplify_eq. by destruct d'. }
  destruct (_ || _) in E; [by apply IH|].
  destruct (negb (allow_private d) && _) in E; [by simplify_eq; destruct d'|].
  destruct (existsb _ _) in E; [by apply IH|].
  destruct (_ <=? _) in E; [by simplify_eq; destruct d'|]. by apply IH in E.
Qed.

Lemma resolve_loop_ok d answers r d' :
  destination_ok d -> resolve_loop d answers = (r, d') -> destination_ok d'.
Proof.
  revert d. induction answers as [|a answers IH]; intros d Hd E; simpl in E; [by simplify_eq|].
  destruct (_ || _) in E; [by eapply IH|].
  destruct (negb (allow_private d) && _) eqn:Ep in E; [by simplify_eq|].
  destruct (existsb _ _) eqn:Ee in E; [by eapply IH|].
  destruct (_ <=? _) eqn:Ec in E; [by simplify_eq|]. bool_simp.
  eapply IH; [|exact E]. destruct Hd. unfold address_count in *. split; simpl; try done.
  - unfold address_count in *. simpl. rewrite len_app. unfold len at 2. simpl. lia.
  - apply NoDup_app. split_and!; [done| |apply NoDup_singleton].
    intros x Hx ->%list_elem_of_singleton. rewrite existsb_false_Forall, Forall_forall in Ee.
    specialize (Ee _ Hx). unfold address_equal in Ee. rewrite Z.eqb_refl in Ee.
    by rewrite bool_decide_true in Ee.
  - intros Hp. rewrite Hp in Ep. simpl in Ep.
    apply Forall_app. split; [auto|]. by apply Forall_singleton.
Qed.

Lemma destination_ok_perm d l :
  l ≡ₚ addresses d -> destination_ok d -> destination_ok (d <| addresses := l |>).
Proof.
  intros Hp []. split; simpl; try done.
  - unfold address_count, len in *. simpl. by rewrite Hp.
  - by rewrite Hp.
  - intros. rewrite Hp. auto.
Qed.

Lemma resolve_destination_ok `{Resolver} d r d' :
  destination_ok d -> resolve_destination d = (r, d') ->
  destination_ok d' /\ d' = d <| addresses := addresses d' |> /\
  (r = MAELYS_EGRESS_OK -> addresses d' <> []).
Proof.
  intros Hd. unfold resolve_destination.
  destruct (getaddrinfo _ _) as [answers|]; [|intros [= <- <-]; by destruct d].
  destruct (resolve_loop d answers) as [r1 d1] eqn:E.
  pose proof (resolve_loop_ok _ _ _ _ Hd E) as H1. pose proof (resolve_loop_fields _ _ _ _ E) as H2.
  assert (H3 : destination_ok (d1 <| addresses := qsort address_compare (addresses d1) |>))
    by (apply destination_ok_perm; [apply qsort_perm|done]).
  assert (H4 : d1 <| addresses := qsort address_compare (addresses d1) |> =
               d <| addresses := qsort address_compare (addresses d1) |>) by (by rewrite H2).
  destruct r1; try (intros [= <- <-]; done).
  destruct (address_count _ =? 0) eqn:Ec; intros [= <- <-]; (split; [exact H3|split; [exact H4|]]);
    [done|]. intros _ En. unfold address_count in Ec. by rewrite En in Ec.
Qed.

Lemma resolve_all_ok `{Resolver} ds r ds' :
  Forall destination_ok ds -> resolve_all ds = (r, ds') ->
  Forall destination_ok ds' /\ Forall2 (fun d d' => d' = d <| addresses := addresses d' |>) ds ds' /\
  (r = MAELYS_EGRESS_OK -> Forall (fun d => addresses d <> []) ds').
Proof.
  revert r ds'. induction ds as [|d ds IH]; intros r ds' Hf E; simpl in E.
  { simplify_eq. repeat constructor. }
  apply Forall_cons in Hf as [Hd Hf].
  destruct (resolve_destination d) as [r1 d1] eqn:E1.
  destruct (resolve_destination_ok d r1 d1 Hd E1) as (H1 & H2 & H3).
  assert (Hid : Forall2 (fun d d' => d' = d <| addresses := addresses d' |>) ds ds)
    by (apply Forall_Forall2_diag, Forall_true; by intros []).
  destruct r1; simplify_eq; try by (split_and!; [constructor|constructor|]).
  destruct (resolve_all ds) as [r2 ds2] eqn:E2. simplify_eq.
  destruct (IH _ _ Hf eq_refl) as (H4 & H5 & H6).
  split_and!; [by constructor|by constructor|]. intros Hr. constructor; auto.
Qed.

Lemma put_Some cap used text out : put cap used text = Some out -> out = used ++ text.
Proof. unfold put. destruct (_ <=? _); congruence. Qed.

Lemma put_addresses_text cap used l out :
  put_addresses cap used l = Some out ->
  exists lines, mapM (fun a => address_line a <$> numeric_address a) l = Some lines /\
    out = used ++ concat lines.
Proof.
  revert used. induction l as [|a l IH]; intros used E; simpl in E.
  { simplify_eq. exists []. by rewrite app_nil_r. }
  destruct (numeric_address a) as [n|] eqn:En; [|done]. simpl in E.
  destruct (put cap used (address_line a n)) as [u|] eqn:Eu; [|done]. simpl in E.
  apply put_Some in Eu as ->. apply IH in E as (lines & El & ->).
  exists (address_line a n :: lines). simpl. rewrite En, El. simpl. by rewrite <-app_assoc.
Qed.

Lemma put_destinations_text cap used ds out :
  put_destinations cap used ds = Some out ->
  exists text, policy_text ds = Some text /\ out = used ++ text.
Proof.
  unfold policy_text. revert used. induction ds as [|d ds IH]; intros used E; simpl in E.
  { simplify_eq. exists []. by rewrite app_nil_r. }
  destruct (put cap used (destination_line d)) as [u|] eqn:Eu; [|done]. simpl in E.
  destruct (put_addresses cap u (addresses d)) as [v|] eqn:Ev; [|done]. simpl in E.
  apply put_Some in Eu as ->. apply put_addresses_text in Ev as (lines & El & ->).
  apply IH in E as (text & Et & ->). apply fmap_Some in Et as (texts & Em & ->).
  assert (Ed : destination_text d = Some (destination_line d ++ concat lines))
    by (unfold destination_text; by rewrite El).
  exists ((destination_line d ++ concat lines) ++ concat texts).
  split; [cbn [mapM]; rewrite Ed, Em; reflexivity|by rewrite <-!app_assoc].
Qed.

Lemma same_addresses_keys ds ds' :
  Forall2 (fun d d' => d' = d <| addresses := addresses d' |>) ds ds' ->
  map dest_key ds' = map dest_key ds.
Proof. induction 1 as [|d d' ds ds' -> _ IH]; simpl; [done|]. by rewrite IH. Qed.

(** The order of destinations is the order of their keys. *)
Definition key_destination (k : bytes * Z) : egress_destination_t := Destination k.1 k.2 false false [].

Lemma sorted_same_keys ds ds' :
  map dest_key ds' = map dest_key ds ->
  StronglySorted (le_of destination_compare) ds -> StronglySorted (le_of destination_compare) ds'.
Proof.
  intros E Hs. apply (StronglySorted_unmap _ (fun a b =>
    le_of destination_compare (key_destination a) (key_destination b)) dest_key); [done|].
  rewrite E. by eapply StronglySorted_map; [|exact Hs].
Qed.

Lemma seal_ok `{Resolver} mem p :
  policy_ok p -> policy_ok (maelys_egress_policy_seal mem p).2.
Proof.
  intros Hok. unfold maelys_egress_policy_seal.
  destruct (sealed p) eqn:Es; [done|]. destruct (count p =? 0) eqn:Ec; [done|]. cbn [orb].
  set (sorted := qsort destination_compare (destinations p)).
  assert (Hp : sorted ≡ₚ destinations p) by apply qsort_perm. simpl.
  destruct (resolve_all sorted) as [r ds] eqn:E. destruct Hok.
  destruct (resolve_all_ok sorted r ds) as (H1 & H2 & H3); [by rewrite Hp|done|].
  pose proof (same_addresses_keys _ _ H2) as Hk. pose proof (Forall2_length _ _ _ H2) as Hl.
  assert (Hlen : length ds = length (destinations p)) by (by rewrite <-Hl, Hp).
  assert (Hnd : NoDup (map dest_key ds)) by (by rewrite Hk, Hp).
  bool_simp. unfold count, len in *.
  assert (Hun : forall g, policy_ok (Policy ds (capacity p) (sealed p) g))
    by (intros g; rewrite Es; split; simpl; try done; unfold count, len; simpl; lia).
  destruct r; simpl; try apply Hun. unfold egress_policy_compute_digest.
  destruct mem; simpl; [|apply Hun].
  destruct (put_destinations _ _ _) as [text|] eqn:Et; simpl; [|apply Hun].
  split; simpl; try done; [unfold count, len; simpl; lia|].
  intros _. split_and!.
  - intros ->. simpl in Hlen. lia.
  - eapply sorted_same_keys; [exact Hk|apply qsort_sorted, _].
  - auto.
  - apply put_destinations_text in Et as (t & Ht & ->). by exists t.
Qed.

End PolicyInvariant.

Lemma policy_reachable_ok `{Inet} p : policy_reachable p -> policy_ok p.
Proof.
  induction 1 as [|p [] Hr IH Ht]; simpl in *.
  - split; simpl; try done. constructor.
  - by apply allow_tcp_ok.
  - by apply require_sni_ok.
  - by apply seal_ok.
Qed.

(** * The abstract view *)

(** A policy as a map from host and port to its two flags. *)
Definition flags (d : egress_destination_t) : bool * bool := (allow_private d, require_tls_sni d).

Definition view (p : maelys_egress_policy) : gmap (bytes * Z) (bool * bool) :=
  list_to_map (map (fun d => (dest_key d, flags d)) (destinations p)).

(** What a call that returns [result] does to the map: only a successful
    addition or requirement changes it. *)
Definition view_apply `{Inet} (m : gmap (bytes * Z) (bool * bool)) (call : policy_call)
    (result : maelys_egress_result_t) : gmap (bytes * Z) (bool * bool) :=
  match call, result with
  | AllowTcp _ _ host port private, MAELYS_EGRESS_OK =>
      match egress_canonical_host host with
      | Some h => <[(h, port) := (private, false)]> m
      | None => m
      end
  | RequireTlsSni host port, MAELYS_EGRESS_OK =>
      match egress_canonical_host host with
      | Some h => alter (fun f => (f.1, true)) (h, port) m
      | None => m
      end
  | _, _ => m
  end.

Lemma view_lookup p k f :
  NoDup (map dest_key (destinations p)) ->
  view p !! k = Some f <-> exists d, d ∈ destinations p /\ dest_key d = k /\ flags d = f.
Proof.
  intros Hn. unfold view. rewrite <-elem_of_list_to_map.
  - change (map ?g ?l) with (g <$> l). rewrite list_elem_of_fmap. naive_solver.
  - change (map ?g ?l) with (g <$> l). rewrite <-list_fmap_compose. exact Hn.
Qed.

Lemma view_same ds ds' :
  Forall2 (fun d d' => d' = d <| addresses := addresses d' |>) ds ds' ->
  map (fun d => (dest_key d, flags d)) ds' = map (fun d => (dest_key d, flags d)) ds.
Proof. induction 1 as [|d d' ds ds' -> _ IH]; simpl; [done|]. by rewrite IH. Qed.

Section View.
Context `{Inet}.

Lemma allow_tcp_view grow copy p host port private :
  view (maelys_egress_policy_allow_tcp grow copy p host port private).2 =
  view_apply (view p) (AllowTcp grow copy host port private)
    (maelys_egress_policy_allow_tcp grow copy p host port private).1.
Proof.
  unfold maelys_egress_policy_allow_tcp, view_apply. destruct (_ || _); [done|].
  destruct (egress_canonical_host host) as [h|] eqn:Eh; [|done].
  destruct (existsb _ _) eqn:Ee; [done|]. destruct (_ <=? _); [done|].
  destruct (_ && _); [done|].
  set (p' := if count p =? capacity p then _ else p).
  assert (Ed : destinations p' = destinations p) by (unfold p'; by destruct (_ =? _)).
  clearbody p'. destruct copy; cbn [negb fst snd]; unfold view; simpl; rewrite Ed; [|done].
  rewrite map_app. simpl. rewrite list_to_map_snoc; [done|].
  change (map ?g ?l) with (g <$> l). rewrite <-list_fmap_compose.
  intros (d & Ek & Hd)%list_elem_of_fmap.
  rewrite existsb_false_Forall, Forall_forall in Ee. specialize (Ee d Hd).
  rewrite (proj2 (is_destination_key h port d)) in Ee; [done|]. by symmetry.
Qed.

Lemma require_sni_view p host port :
  NoDup (map dest_key (destinations p)) ->
  view (maelys_egress_policy_require_tls_sni p host port).2 =
  view_apply (view p) (RequireTlsSni host port)
    (maelys_egress_policy_require_tls_sni p host port).1.
Proof.
  intros Hn. unfold maelys_egress_policy_require_tls_sni, view_apply, find_mutable_destination.
  destruct (sealed p) eqn:Es; [done|]. destruct (port =? 0); [done|]. cbn [orb].
  destruct (egress_canonical_host host) as [h|] eqn:Eh; [|done].
  destruct (_ || _); [done|]. destruct (find_index _ _ _) as [i|] eqn:Ei; [|done]. cbn [fst snd].
  apply find_index_Some in Ei as (d & Hi & Hk). apply map_eq. intros k. apply option_eq. intros f.
  set (p' := p <| destinations := _ |>).
  assert (Hn' : NoDup (map dest_key (destinations p'))) by (unfold p'; simpl; by rewrite alter_sni_key).
  assert (Hl : forall j x, destinations p' !! j = Some x <->
    exists y, destinations p !! j = Some y /\
      x = if decide (j = i) then y <| require_tls_sni := true |> else y).
  { intros j x. unfold p'. simpl. destruct (decide (j = i)) as [->|Hj].
    - rewrite list_lookup_alter_eq, fmap_Some. naive_solver.
    - rewrite list_lookup_alter_ne by done. naive_solver. }
  rewrite (view_lookup p' k f Hn').
  destruct (decide (k = (h, port))) as [->|Hne].
  - rewrite lookup_alter_eq, fmap_Some.
    assert (Hv : view p !! (h, port) = Some (flags d))
      by (apply view_lookup; [done|]; exists d; split_and!; [by eapply list_elem_of_lookup_2|done|done]).
    rewrite Hv. split.
    + intros (x & (j & (y & Hj & ->)%Hl)%list_elem_of_lookup & Hkx & <-). exists (flags d).
      split; [done|]. assert (j = i) as ->.
      { eapply (NoDup_lookup (map dest_key (destinations p))); [done| |];
          change (map ?g ?l) with (g <$> l); rewrite list_lookup_fmap; [rewrite Hj|rewrite Hi]; simpl.
        - reflexivity.
        - f_equal. rewrite Hk, <-Hkx. by destruct (decide (j = i)). }
      rewrite decide_True by done. rewrite Hi in Hj. by simplify_eq.
    + intros (g & [= <-] & ->). exists (d <| require_tls_sni := true |>). split_and!; [|done|done].
      apply list_elem_of_lookup. exists i. apply Hl. exists d. by rewrite decide_True.
  - rewrite lookup_alter_ne by done. rewrite view_lookup by done. split.
    + intros (x & (j & (y & Hj & ->)%Hl)%list_elem_of_lookup & Hkx & <-). exists y.
      destruct (decide (j = i)) as [->|]; [|split_and!; [by eapply list_elem_of_lookup_2|done|done]].
      exfalso. apply Hne. rewrite Hi in Hj. by simplify_eq.
    + intros (y & (j & Hj)%list_elem_of_lookup & Hky & <-). exists y. split_and!; [|done|done].
      apply list_elem_of_lookup. exists j. apply Hl. exists y. split; [done|].
      rewrite decide_False; [done|]. intros ->. rewrite Hi in Hj. by simplify_eq.
Qed.

Lemma seal_view `{Resolver} mem p :
  Forall destination_ok (destinations p) -> NoDup (map dest_key (destinations p)) ->
  view (maelys_egress_policy_seal mem p).2 = view p.
Proof.
  intros Hf Hn. unfold maelys_egress_policy_seal.
  destruct (sealed p); [done|]. destruct (count p =? 0); [done|]. cbn [orb].
  set (sorted := qsort destination_compare (destinations p)).
  assert (Hp : sorted ≡ₚ destinations p) by apply qsort_perm. simpl.
  destruct (resolve_all sorted) as [r ds] eqn:E.
  destruct (resolve_all_ok sorted r ds) as (_ & H2 & _); [by rewrite Hp|done|].
  assert (Hv : forall c s g, view (Policy ds c s g) = view p).
  { intros. unfold view. simpl. rewrite (view_same _ _ H2). apply list_to_map_proper.
    - change (map ?g ?l) with (g <$> l). rewrite <-list_fmap_compose. by rewrite Hp.
    - by rewrite Hp. }
  destruct r; simpl; try apply Hv. unfold egress_policy_compute_digest.
  destruct mem; simpl; [|apply Hv].
  destruct (put_destinations _ _ _) as [text|] eqn:Et; simpl; apply Hv.
Qed.
End View.

(** * Lookups *)

Lemma find_loop_sound ds host port d :
  find_loop ds host port = Some d -> d ∈ ds /\ dest_key d = (host, port).
Proof.
  induction ds as [|x ds IH]; simpl; [done|]. intros E.
  destruct (strcmp host (dest_host x)) eqn:Es; [|done|].
  - destruct (Z.eqb_spec port (dest_port x)) as [->|].
    + simplify_eq. apply strcmp_Eq in Es as ->. split; [apply list_elem_of_here|done].
    + destruct (IH E). split; [by apply list_elem_of_further|done].
  - destruct (IH E). split; [by apply list_elem_of_further|done].
Qed.

(** Stopping early is safe in a sorted list. *)
Lemma find_loop_complete ds d :
  StronglySorted (le_of destination_compare) ds -> d ∈ ds ->
  exists d', find_loop ds (dest_host d) (dest_port d) = Some d'.
Proof.
  induction ds as [|x ds IH]; intros Hs Hd; [by apply not_elem_of_nil in Hd|].
  apply StronglySorted_cons in Hs as [Hf Hs]. simpl.
  apply elem_of_cons in Hd as [->|Hd].
  - rewrite (proj2 (strcmp_Eq _ _) eq_refl), Z.eqb_refl. eauto.
  - destruct (strcmp (dest_host d) (dest_host x)) eqn:Es; [|exfalso|by apply IH].
    + destruct (dest_port d =? dest_port x); [eauto|by apply IH].
    + rewrite Forall_forall in Hf. apply (Hf d Hd). unfold destination_compare.
      by rewrite strcmp_antisym, Es.
Qed.

Lemma find_spec `{Inet} p host port d :
  policy_ok p -> sealed p = true ->
  egress_policy_find (Some p) host port = Some d <->
  d ∈ destinations p /\ dest_key d = (host, port).
Proof.
  intros Hok Hs. unfold egress_policy_find. rewrite Hs. cbn [negb orb].
  destruct Hok. destruct (policy_ok_sealed0 Hs) as (_ & Hsort & _).
  destruct (Z.eqb_spec port 0) as [->|Hp].
  { split; [done|]. intros [Hd [= _ E]]. rewrite Forall_forall in policy_ok_destinations0.
    destruct (policy_ok_destinations0 d Hd). lia. }
  split; [apply find_loop_sound|]. intros [Hd Hk].
  destruct (find_loop_complete _ d Hsort Hd) as (d' & E).
  pose proof (find_loop_sound _ _ _ _ E) as [Hd' Hk'].
  assert (d' = d) as ->.
  { apply list_elem_of_lookup in Hd as (i & Hi), Hd' as (j & Hj).
    assert (i = j) as ->; [|congruence].
    eapply (NoDup_lookup (map dest_key (destinations p))); [done| |];
      change (map ?g ?l) with (g <$> l); rewrite list_lookup_fmap; [rewrite Hi|rewrite Hj]; simpl;
      [reflexivity|]. f_equal. rewrite Hk'. by destruct d. }
  unfold dest_key in Hk. by injection Hk as <- <-.
Qed.

(** * Properties *)

Lemma policy_apply_sealed `{Inet} p call :
  sealed p = true ->
  (policy_apply p call).1 = MAELYS_EGRESS_ERR_ARGUMENT /\ (policy_apply p call).2 = p.
Proof.
  intros Hs. destruct call; simpl; unfold maelys_egress_policy_allow_tcp,
    maelys_egress_policy_require_tls_sni, maelys_egress_policy_seal; by rewrite Hs.
Qed.

Lemma policy_apply_OK `{Inet} p call :
  policy_ok p -> (policy_apply p call).1 = MAELYS_EGRESS_OK ->
  match call with
  | AllowTcp _ _ host port _ =>
      exists h, egress_canonical_host host = Some h /\ view p !! (h, port) = None
  | RequireTlsSni host port =>
      exists h, egress_canonical_host host = Some h /\ is_Some (view p !! (h, port))
  | Seal _ _ => sealed (policy_apply p call).2 = true /\ view p <> ∅
  end.
Proof.
  intros Hok. destruct call as [grow copy host port private|host port|resolver mem]; simpl.
  - unfold maelys_egress_policy_allow_tcp. destruct (_ || _); [done|].
    destruct (egress_canonical_host host) as [h|]; [|done].
    destruct (existsb _ _) eqn:Ee; [done|]. intros _. exists h. split; [done|].
    apply eq_None_not_Some. intros [f (d & Hd & Hk & _)%view_lookup]; [|apply Hok].
    rewrite existsb_false_Forall, Forall_forall in Ee. specialize (Ee d Hd).
    by rewrite (proj2 (is_destination_key h port d)) in Ee.
  - unfold maelys_egress_policy_require_tls_sni, find_mutable_destination.
    destruct (sealed p); [done|]. destruct (port =? 0); [done|]. cbn [orb].
    destruct (egress_canonical_host host) as [h|]; [|done]. destruct (_ || _); [done|].
    destruct (find_index _ _ _) as [i|] eqn:Ei; [|done]. intros _. exists h. split; [done|].
    apply find_index_Some in Ei as (d & Hi & Hk). exists (flags d).
    apply view_lookup; [apply Hok|]. exists d. split_and!; [by eapply list_elem_of_lookup_2|done|done].
  - unfold maelys_egress_policy_seal. destruct (sealed p) eqn:Es; [done|].
    destruct (count p =? 0) eqn:Ec; [done|]. cbn [orb]. simpl.
    destruct (resolve_all _) as [[] ds]; try done. simpl.
    destruct (_ =? 0) in |- *; [done|]. intros _. split; [done|]. bool_simp. intros E.
    destruct (destinations p) as [|d ds'] eqn:Ed; [by unfold count in Ec; rewrite Ed in Ec|].
    assert (view p !! dest_key d = Some (flags d)) as Hv.
    { apply view_lookup; [apply Hok|]. exists d. rewrite Ed. split_and!; [apply list_elem_of_here|done|done]. }
    by rewrite E, lookup_empty in Hv.
Qed.

(** Every policy a sequence of additions, requirements and sealings can
    build is consistent: canonical hosts, ports in range, no two destinations
    with one host and port, a server name required of names only, at most
    sixteen distinct pinned addresses each, none of them private unless the
    destination opted in; and a sealed one is sorted, has an address for every
    destination, and carries the digest of its own canonical text. *)
Theorem policy_reachable_consistent `{Inet} p : policy_reachable p -> policy_ok p.
Proof. apply policy_reachable_ok. Qed.

(** A policy implements a finite map from host and port to its flags.
    Every call, whatever its result, does to the map exactly what the abstract
    specification says; an addition succeeds only on a fresh key, a requirement
    only on a present one; and once sealed no call changes the policy at all. *)
Theorem policy_refines_map `{Inet} p call :
  policy_reachable p -> policy_call_typed call ->
  let result := (policy_apply p call).1 in
  let p' := (policy_apply p call).2 in
  view p' = view_apply (view p) call result /\
  (sealed p = true -> result = MAELYS_EGRESS_ERR_ARGUMENT /\ p' = p) /\
  (result = MAELYS_EGRESS_OK ->
     match call with
     | AllowTcp _ _ host port _ =>
         exists h, egress_canonical_host host = Some h /\ view p !! (h, port) = None
     | RequireTlsSni host port =>
         exists h, egress_canonical_host host = Some h /\ is_Some (view p !! (h, port))
     | Seal _ _ => sealed p' = true /\ view p <> ∅
     end).
Proof.
  intros Hr Ht result p'. pose proof (policy_reachable_ok p Hr) as Hok.
  subst result p'. split_and!.
  - destruct Hok. destruct call; simpl.
    + apply allow_tcp_view.
    + by apply require_sni_view.
    + by rewrite seal_view.
  - apply policy_apply_sealed.
  - by apply policy_apply_OK.
Qed.

Lemma policy_refines_map_witness :
  view (@policy_apply dotted_inet maelys_egress_policy_create
          (AllowTcp true true (str "Example.COM") 443 false)).2 =
  <[(str "example.com", 443) := (false, false)]> ∅.
Proof.
  destruct (@policy_refines_map dotted_inet maelys_egress_policy_create
    (AllowTcp true true (str "Example.COM") 443 false)) as [E _];
    [apply policy_reachable_create|simpl; unfold is_u16; lia|].
  etransitivity; [exact E|reflexivity].
Defined.

(** C4: what the proxy may connect to.  In a sealed policy a lookup returns a
    destination exactly when the map has the host and port, with the flags of
    the map, at least one pinned address, and no private address unless the
    flag allows it; a policy that is not sealed admits nothing. *)
Theorem policy_find_is_lookup `{Inet} p host port :
  policy_reachable p ->
  (sealed p = false -> egress_policy_find (Some p) host port = None) /\
  (sealed p = true ->
     flags <$> egress_policy_find (Some p) host port = view p !! (host, port)) /\
  (forall d, egress_policy_find (Some p) host port = Some d ->
     dest_key d = (host, port) /\ 1 <= address_count d <= EGRESS_MAX_PINNED_ADDRESSES /\
     (allow_private d = false ->
        Forall (fun a => egress_address_is_private (Some (storage a)) = false) (addresses d)) /\
     (require_tls_sni d = true -> inet_pton4 host = None /\ inet_pton6 host = None)).
Proof.
  intros Hr. pose proof (policy_reachable_ok p Hr) as Hok. split_and!.
  - intros Hs. unfold egress_policy_find. by rewrite Hs.
  - intros Hs. apply option_eq. intros f.
    rewrite view_lookup, fmap_Some by apply Hok. setoid_rewrite (find_spec p host port _ Hok Hs).
    naive_solver.
  - intros d E. assert (Hs : sealed p = true)
      by (unfold egress_policy_find in E; by destruct (sealed p)).
    apply (find_spec p host port d Hok Hs) in E as [Hd Hk].
    destruct Hok. destruct (policy_ok_sealed0 Hs) as (_ & _ & Hne & _).
    rewrite Forall_forall in policy_ok_destinations0, Hne.
    destruct (policy_ok_destinations0 d Hd). specialize (Hne d Hd).
    unfold dest_key in Hk. simplify_eq. split_and!; try done.
    unfold address_count, len. destruct (addresses d); [done|]. simpl. lia.
Qed.
