(* ===== verification/PolicyDigest.v ===== *)
(** The digest of a sealed policy (src/core/policy.c,
    [egress_policy_compute_digest]).

    The digest is SHA-256 of a canonical text.  The theorems say that the
    buffer the code allocates always holds the text, that the text determines
    the policy, and that it depends on the set of destinations and answers and
    not on the order they came in. *)

From stdpp Require Import gmap.
From S2P Require Import Prelude Common Sha256 Policy.
#[local] Open Scope Z_scope.

(** * Lines *)

Lemma app_cons_inj (c : Z) a b x y :
  c ∉ a -> c ∉ b -> a ++ c :: x = b ++ c :: y -> a = b /\ x = y.
Proof.
  revert b. induction a as [|z a IH]; intros [|w b] Ha Hb E; simpl in *; simplify_eq; try done.
  - exfalso. apply Hb, list_elem_of_here.
  - exfalso. apply Ha, list_elem_of_here.
  - apply not_elem_of_cons in Ha as [_ Ha]. apply not_elem_of_cons in Hb as [_ Hb].
    destruct (IH b Ha Hb) as [-> ->]; done.
Qed.

(** Newline-terminated lines can be told apart. *)
Lemma lines_inj l1 l2 :
  Forall (fun s => c_lf ∉ s) l1 -> Forall (fun s => c_lf ∉ s) l2 ->
  concat (map (fun s => s ++ newline) l1) = concat (map (fun s => s ++ newline) l2) -> l1 = l2.
Proof.
  revert l2. induction l1 as [|a l1 IH]; intros [|b l2] H1 H2 E; simpl in E.
  - done.
  - by destruct b.
  - by destruct a.
  - apply Forall_cons in H1 as [Ha H1]. apply Forall_cons in H2 as [Hb H2].
    rewrite <-!app_assoc in E. simpl in E. apply app_cons_inj in E as [-> E]; [|done|done].
    f_equal. by apply IH.
Qed.

Definition destination_fields (d : egress_destination_t) : list bytes :=
  [str "tcp"; dest_host d; decimal (dest_port d); decimal (b2z (allow_private d));
   decimal (b2z (require_tls_sni d))].

Definition address_fields (family : Z) (numeric : bytes) : list bytes :=
  [str "addr"; decimal (if family =? AF_INET then 4 else 6); numeric].

Lemma destination_line_fields d :
  destination_line d = join c_htab (destination_fields d) ++ newline.
Proof.
  unfold destination_line, destination_fields, tab, join.
  repeat (rewrite <-!app_assoc || cbn [app]). reflexivity.
Qed.

Lemma address_line_fields a numeric :
  address_line a numeric = join c_htab (address_fields (sa_family (storage a)) numeric) ++ newline.
Proof.
  unfold address_line, address_fields, tab, join.
  repeat (rewrite <-!app_assoc || cbn [app]). reflexivity.
Qed.

(** * Well-formed addresses and hosts *)

Definition address_wf (a : egress_address_t) : Prop :=
  match storage a with
  | AF_INET_addr _ raw => network_bytes 4 raw
  | AF_INET6_addr _ _ raw _ => network_bytes 16 raw
  | AF_OTHER_addr _ => False
  end.

(** Neither a tab nor a newline. *)
Definition field_char (c : Z) : Prop := c <> c_htab /\ c <> c_lf.

Lemma numeric_field c : numeric_char c -> field_char c.
Proof. intros H. split; intros ->; done. Qed.

Lemma digits_field s : Forall (fun c => is_digit c = true) s -> Forall field_char s.
Proof. intros H. eapply Forall_impl; [exact H|]. intros c Hc. split; intros ->; done. Qed.

Lemma field_free s : Forall field_char s -> (c_htab ∉ s) /\ (c_lf ∉ s).
Proof.
  rewrite Forall_forall. intros H. split; intros Hin; destruct (H _ Hin); done.
Qed.

Section Text.
Context `{Inet} {laws : InetLaws}.

Lemma canonical_host_field s t :
  egress_canonical_host s = Some t -> Forall field_char t.
Proof using laws.
  rewrite egress_canonical_host_form. intros (_ & [(_ & [b Hb] & ->)|(_ & -> & Hl & _)]).
  - eapply Forall_impl; [by eapply pton6_chars|]. apply numeric_field.
  - rewrite <-(join_split_on c_dot s). rewrite Forall_map. generalize (split_on c_dot s), Hl.
    clear. intros l Hl.
    assert (Hd : field_char (lower c_dot)) by done.
    induction Hl as [|x l (_ & Hx & _) Hl IH]; [constructor|].
    assert (Hx' : Forall (fun c => field_char (lower c)) x).
    { eapply Forall_impl; [exact Hx|]. intros c Hc%host_char_lower. unfold host_char in Hc.
      split; intros E; rewrite E in Hc; done. }
    destruct l as [|y l]; [done|].
    change (join c_dot (x :: y :: l)) with (x ++ c_dot :: join c_dot (y :: l)).
    apply Forall_app. split; [done|]. by apply Forall_cons.
Qed.

Lemma numeric_address_text a t :
  address_wf a -> numeric_address a = Some t ->
  Forall numeric_char t /\ len t < 46 /\
  (if sa_family (storage a) =? AF_INET then inet_pton4 t else inet_pton6 t) =
    Some (raw_address (storage a)).
Proof using laws.
  unfold address_wf, numeric_address. destruct (storage a) as [port raw|port flow raw scope|f]; simpl.
  - intros [Hl Hb] E. destruct (ntop4_text raw t Hl Hb E) as (? & ? & ?). split_and!; [done|lia|done].
  - intros [Hl Hb] E. destruct (ntop6_text raw t Hl Hb E) as (? & ? & ?). split_and!; [done|lia|done].
  - done.
Qed.

(** ** The text as lines *)

Definition numerics_of (d : egress_destination_t) (ns : list bytes) : Prop :=
  Forall2 (fun a n => numeric_address a = Some n) (addresses d) ns.

Definition address_text_line (a : egress_address_t) (n : bytes) : bytes :=
  join c_htab (address_fields (sa_family (storage a)) n).

Definition destination_lines (d : egress_destination_t) (ns : list bytes) : list bytes :=
  join c_htab (destination_fields d) :: zip_with address_text_line (addresses d) ns.

Lemma destination_text_lines d t :
  destination_text d = Some t ->
  exists ns, numerics_of d ns /\
    t = concat (map (fun s => s ++ newline) (destination_lines d ns)).
Proof.
  unfold destination_text, numerics_of, destination_lines. intros E.
  apply bind_Some in E as (lines & El & E). apply (inj Some) in E as <-. apply mapM_Some in El.
  assert (Hl : exists ns, Forall2 (fun a n => numeric_address a = Some n) (addresses d) ns /\
    lines = map (fun s => s ++ newline) (zip_with address_text_line (addresses d) ns)).
  { clear -El. induction El as [|a line l lines (n & En & ->)%fmap_Some _ (ns & Hf & ->)].
    - exists []. split; [constructor|done].
    - exists (n :: ns). split; [by constructor|]. simpl. by rewrite address_line_fields. }
  destruct Hl as (ns & Hf & ->). exists ns. split; [done|]. cbn [map concat].
  by rewrite destination_line_fields.
Qed.

Lemma policy_text_lines ds t :
  policy_text ds = Some t ->
  exists nss, Forall2 numerics_of ds nss /\
    t = concat (map (fun s => s ++ newline) (concat (zip_with destination_lines ds nss))).
Proof.
  unfold policy_text. intros (texts & Em & ->)%fmap_Some. apply mapM_Some in Em.
  induction Em as [|d text ds texts Et _ (nss & Hf & E)].
  - exists []. split; [constructor|done].
  - apply destination_text_lines in Et as (ns & Hn & ->).
    exists (ns :: nss). split; [by constructor|].
    cbn [zip_with concat]. rewrite map_app, concat_app. by f_equal.
Qed.

(** The characters of the fields, for well-formed data. *)
Lemma destination_fields_chars d :
  destination_ok d -> Forall (Forall field_char) (destination_fields d).
Proof using laws.
  intros [Hh Hp _ _ _ _]. unfold destination_fields.
  rewrite !Forall_cons. split_and!; [|by eapply canonical_host_field| | | |constructor].
  - by repeat (apply Forall_cons_2; [done|]).
  - apply digits_field, decimal_digits. lia.
  - apply digits_field, decimal_digits. by destruct (allow_private d).
  - apply digits_field, decimal_digits. by destruct (require_tls_sni d).
Qed.

Lemma address_fields_chars a n :
  address_wf a -> numeric_address a = Some n ->
  Forall (Forall field_char) (address_fields (sa_family (storage a)) n).
Proof using laws.
  intros Hw (Hc & _)%numeric_address_text; [|done]. unfold address_fields.
  rewrite !Forall_cons. split_and!; [by repeat (apply Forall_cons_2; [done|])| | |constructor].
  - apply digits_field, decimal_digits. by destruct (_ =? _).
  - eapply Forall_impl; [exact Hc|]. apply numeric_field.
Qed.

Lemma join_chars c l : field_char c \/ c = c_htab -> Forall (Forall field_char) l -> c_lf ∉ join c l.
Proof.
  intros Hc. induction 1 as [|x l Hx Hl IH]; [apply not_elem_of_nil|].
  destruct l as [|y l]; [by apply field_free|].
  change (join c (x :: y :: l)) with (x ++ c :: join c (y :: l)).
  rewrite elem_of_app, elem_of_cons. intros [Hin|[<-|Hin]]; [|by destruct Hc as [[]|]|done].
  by destruct (field_free x Hx).
Qed.

(** Tab-separated fields can be told apart. *)
Lemma fields_inj l1 l2 :
  l1 <> [] -> l2 <> [] -> Forall (Forall field_char) l1 -> Forall (Forall field_char) l2 ->
  join c_htab l1 = join c_htab l2 -> l1 = l2.
Proof.
  intros Hn1 Hn2 H1 H2 E.
  assert (Hf : forall l, Forall (Forall field_char) l -> Forall (fun s => c_htab ∉ s) l).
  { intros l Hl. eapply Forall_impl; [exact Hl|]. intros x Hx. by apply field_free. }
  rewrite <-(split_on_join c_htab l1), <-(split_on_join c_htab l2) by auto. by rewrite E.
Qed.

(** What the digest says of a destination. *)
Definition summary (d : egress_destination_t) : bytes * Z * (bool * bool) * list (Z * bytes) :=
  (dest_key d, flags d, map address_key (addresses d)).

Lemma b2z_inj a b : decimal (b2z a) = decimal (b2z b) -> a = b.
Proof. by destruct a, b. Qed.

Lemma destination_fields_inj d1 d2 :
  destination_ok d1 -> destination_ok d2 ->
  destination_fields d1 = destination_fields d2 -> dest_key d1 = dest_key d2 /\ flags d1 = flags d2.
Proof.
  intros H1 H2. destruct H1 as [_ Hp1 _ _ _ _], H2 as [_ Hp2 _ _ _ _].
  unfold destination_fields, dest_key, flags. intros E.
  apply (inj2 cons) in E as [_ E]. apply (inj2 cons) in E as [-> E].
  apply (inj2 cons) in E as [Ep E]. apply (inj2 cons) in E as [Ea E].
  apply (inj2 cons) in E as [Es _].
  apply b2z_inj in Ea, Es. apply decimal_inj in Ep; [|unfold is_u64; lia|unfold is_u64; lia].
  by rewrite Ea, Es, Ep.
Qed.

Lemma address_fields_inj a1 a2 n1 n2 :
  address_wf a1 -> address_wf a2 ->
  numeric_address a1 = Some n1 -> numeric_address a2 = Some n2 ->
  address_fields (sa_family (storage a1)) n1 = address_fields (sa_family (storage a2)) n2 ->
  address_key a1 = address_key a2.
Proof using laws.
  intros W1 W2 N1 N2 E. destruct (numeric_address_text a1 n1 W1 N1) as (_ & _ & E1).
  destruct (numeric_address_text a2 n2 W2 N2) as (_ & _ & E2). unfold address_fields in E.
  apply (inj2 cons) in E as [_ E]. apply (inj2 cons) in E as [Ef E].
  apply (inj2 cons) in E as [-> _].
  assert (Hf : sa_family (storage a1) = sa_family (storage a2)).
  { unfold address_wf in *. destruct (storage a1), (storage a2); simpl in *; try done. }
  unfold address_key. f_equal; [done|]. rewrite Hf in E1. rewrite E1 in E2. by simplify_eq.
Qed.

Lemma destination_line_head d : head (join c_htab (destination_fields d)) = Some 116.
Proof. reflexivity. Qed.

Lemma address_line_head a n : head (address_text_line a n) = Some 97.
Proof. reflexivity. Qed.

(** The lines of the addresses end where the next destination begins. *)
Lemma address_lines_split (A1 A2 R1 R2 : list bytes) :
  Forall (fun l => head l = Some 97) A1 -> Forall (fun l => head l = Some 97) A2 ->
  (forall l, head R1 = Some l -> head l = Some 116) ->
  (forall l, head R2 = Some l -> head l = Some 116) ->
  A1 ++ R1 = A2 ++ R2 -> A1 = A2 /\ R1 = R2.
Proof.
  intros H1. revert A2. induction H1 as [|x A1 Hx H1 IH]; intros A2 H2 HR1 HR2 E.
  - destruct A2 as [|y A2]; [done|]. simpl in E. subst R1.
    apply Forall_cons in H2 as [Hy _]. specialize (HR1 y eq_refl). congruence.
  - destruct A2 as [|y A2]; simpl in E.
    + subst R2. specialize (HR2 x eq_refl). congruence.
    + apply Forall_cons in H2 as [Hy H2]. simplify_eq.
      destruct (IH A2 H2 HR1 HR2) as [-> ->]; done.
Qed.

Lemma zip_heads d ns :
  Forall (fun l => head l = Some 97) (zip_with address_text_line (addresses d) ns).
Proof.
  generalize (addresses d) as l. intros l. revert ns.
  induction l as [|a l IH]; intros [|n ns]; constructor; [apply address_line_head|apply IH].
Qed.

Lemma lines_heads ds nss l :
  head (concat (zip_with destination_lines ds nss)) = Some l -> head l = Some 116.
Proof. destruct ds as [|d ds], nss as [|ns nss]; simpl; try done. intros [= <-]. done. Qed.

Lemma address_lines_inj l1 l2 ns1 ns2 :
  Forall address_wf l1 -> Forall address_wf l2 ->
  Forall2 (fun a n => numeric_address a = Some n) l1 ns1 ->
  Forall2 (fun a n => numeric_address a = Some n) l2 ns2 ->
  zip_with address_text_line l1 ns1 = zip_with address_text_line l2 ns2 ->
  map address_key l1 = map address_key l2.
Proof using laws.
  intros W1 W2 H1. revert l2 ns2 W1 W2.
  induction H1 as [|a1 n1 l1 ns1 N1 H1 IH]; intros l2 ns2 W1 W2 H2 E.
  - by destruct H2.
  - destruct H2 as [|a2 n2 l2 ns2 N2 H2]; [done|]. simpl in E.
    apply (inj2 cons) in E as [Eh E]. apply Forall_cons in W1 as [Wa1 W1].
    apply Forall_cons in W2 as [Wa2 W2]. simpl. f_equal; [|by eapply IH].
    unfold address_text_line in Eh. apply fields_inj in Eh; try done;
      [by eapply address_fields_inj|by apply address_fields_chars|by apply address_fields_chars].
Qed.

Lemma policy_lines_inj ds1 ds2 nss1 nss2 :
  Forall destination_ok ds1 -> Forall destination_ok ds2 ->
  Forall (fun d => Forall address_wf (addresses d)) ds1 ->
  Forall (fun d => Forall address_wf (addresses d)) ds2 ->
  Forall2 numerics_of ds1 nss1 -> Forall2 numerics_of ds2 nss2 ->
  concat (zip_with destination_lines ds1 nss1) = concat (zip_with destination_lines ds2 nss2) ->
  map summary ds1 = map summary ds2.
Proof using laws.
  intros O1 O2 W1 W2 H1. revert ds2 nss2 O1 O2 W1 W2.
  induction H1 as [|d1 ns1 ds1 nss1 N1 H1 IH]; intros ds2 nss2 O1 O2 W1 W2 H2 E.
  - by destruct H2.
  - destruct H2 as [|d2 ns2 ds2 nss2 N2 H2]; [done|].
    cbn [zip_with concat] in E. unfold destination_lines at 1 3 in E. cbn [app] in E.
    apply (inj2 cons) in E as [Eh E].
    apply address_lines_split in E as [Ea Er];
      [|apply zip_heads|apply zip_heads|apply lines_heads|apply lines_heads].
    apply Forall_cons in O1 as [Od1 O1], O2 as [Od2 O2], W1 as [Wd1 W1], W2 as [Wd2 W2].
    apply fields_inj in Eh; [|done|done|by apply destination_fields_chars..].
    apply destination_fields_inj in Eh as [Ek Ef]; [|done|done].
    cbn [map]. f_equal; [|by eapply IH]. unfold summary. rewrite Ek, Ef. f_equal.
    by eapply address_lines_inj.
Qed.

Lemma policy_lines_free ds nss :
  Forall destination_ok ds -> Forall (fun d => Forall address_wf (addresses d)) ds ->
  Forall2 numerics_of ds nss ->
  Forall (fun l => c_lf ∉ l) (concat (zip_with destination_lines ds nss)).
Proof using laws.
  intros O W H2. induction H2 as [|d ns ds nss N _ IH]; [constructor|].
  apply Forall_cons in O as [Od O], W as [Wd W]. cbn [zip_with concat].
  apply Forall_app. split; [|by apply IH]. unfold destination_lines. apply Forall_cons_2.
  - apply join_chars; [by right|by apply destination_fields_chars].
  - unfold numerics_of in N. revert Wd. clear -N laws.
    induction N as [|a n l ns Hn _ IH]; intros W; constructor.
    + apply join_chars; [by right|]. apply Forall_cons in W as [Wa _].
      by apply address_fields_chars.
    + apply Forall_cons in W as [_ W]. by apply IH.
Qed.

Lemma policy_text_inj ds1 ds2 t :
  Forall destination_ok ds1 -> Forall destination_ok ds2 ->
  Forall (fun d => Forall address_wf (addresses d)) ds1 ->
  Forall (fun d => Forall address_wf (addresses d)) ds2 ->
  policy_text ds1 = Some t -> policy_text ds2 = Some t -> map summary ds1 = map summary ds2.
Proof using laws.
  intros O1 O2 W1 W2 (nss1 & H1 & ->)%policy_text_lines (nss2 & H2 & E)%policy_text_lines.
  eapply policy_lines_inj; try done.
  by apply lines_inj in E; [|by apply policy_lines_free..].
Qed.

(** ** The buffer *)

Lemma put_addresses_fits cap used l lines :
  mapM (fun a => address_line a <$> numeric_address a) l = Some lines ->
  len used + len (concat lines) < cap -> put_addresses cap used l = Some (used ++ concat lines).
Proof.
  intros Hm. apply mapM_Some in Hm. revert used.
  induction Hm as [|a line l lines (n & En & ->)%fmap_Some _ IH]; intros used Hc.
  { by rewrite app_nil_r. }
  cbn [concat] in *. rewrite len_app in Hc. cbn [put_addresses]. rewrite En. cbn [mbind option_bind].
  pose proof (len_nonneg (concat lines)). unfold put.
  destruct (Z.leb_spec (cap - len used) (len (address_line a n))); [lia|]. cbn [mbind option_bind].
  rewrite IH by (rewrite len_app; lia). by rewrite app_assoc.
Qed.

Lemma put_destinations_fits cap used ds text :
  policy_text ds = Some text -> len used + len text < cap ->
  put_destinations cap used ds = Some (used ++ text).
Proof.
  unfold policy_text. intros (texts & Hm & ->)%fmap_Some. apply mapM_Some in Hm. revert used.
  induction Hm as [|d t ds texts Et _ IH]; intros used Hc.
  { by rewrite app_nil_r. }
  cbn [concat] in *. rewrite len_app in Hc. pose proof (len_nonneg (concat texts)).
  unfold destination_text in Et. apply bind_Some in Et as (lines & El & Et).
  apply (inj Some) in Et as <-. rewrite len_app in Hc. pose proof (len_nonneg (concat lines)).
  cbn [put_destinations]. unfold put.
  destruct (Z.leb_spec (cap - len used) (len (destination_line d))); [lia|]. cbn [mbind option_bind].
  rewrite (put_addresses_fits _ _ _ lines) by (done || rewrite len_app; lia). cbn [mbind option_bind].
  rewrite IH by (rewrite !len_app; lia). by rewrite !app_assoc.
Qed.

Definition line_bound (d : egress_destination_t) : Z :=
  len (dest_host d) + 32 + address_count d * (INET6_ADDRSTRLEN + 16).

Lemma destination_line_len d : destination_ok d -> len (destination_line d) <= len (dest_host d) + 15.
Proof.
  intros [_ Hp _ _ _ _]. unfold destination_line, tab, newline. rewrite !len_app.
  pose proof (decimal_len_u16 (dest_port d)). unfold is_u16 in *.
  assert (Hb : forall b, len (decimal (b2z b)) = 1) by (by intros []). rewrite !Hb.
  change (len (str "tcp")) with 3. change (len [c_htab]) with 1. change (len [c_lf]) with 1. lia.
Qed.

Lemma address_lines_len l lines :
  Forall address_wf l -> mapM (fun a => address_line a <$> numeric_address a) l = Some lines ->
  len (concat lines) <= len l * 62.
Proof using laws.
  intros W Hm. apply mapM_Some in Hm.
  induction Hm as [|a line l lines (n & En & ->)%fmap_Some _ IH]; [done|].
  apply Forall_cons in W as [Wa W]. cbn [concat]. rewrite len_app, len_cons. specialize (IH W).
  destruct (numeric_address_text a n Wa En) as (_ & Hl & _).
  assert (len (address_line a n) <= 53); [|lia].
  unfold address_line, tab, newline. rewrite !len_app.
  change (len (str "addr")) with 4. change (len [c_htab]) with 1. change (len [c_lf]) with 1.
  destruct (_ =? AF_INET); [change (len (decimal 4)) with 1|change (len (decimal 6)) with 1]; lia.
Qed.

Lemma digest_capacity_sum ds k :
  fold_left (fun c d => c + line_bound d) ds k = k + foldr (fun d c => line_bound d + c) 0 ds.
Proof. revert k. induction ds as [|d ds IH]; intros k; simpl; [lia|]. rewrite IH. lia. Qed.

Lemma policy_text_fits ds text :
  Forall destination_ok ds -> Forall (fun d => Forall address_wf (addresses d)) ds ->
  policy_text ds = Some text -> len text + 16 <= digest_capacity ds.
Proof using laws.
  intros O W. change (digest_capacity ds) with (fold_left (fun c d => c + line_bound d) ds 16).
  rewrite digest_capacity_sum. unfold policy_text.
  intros (texts & Hm & ->)%fmap_Some. apply mapM_Some in Hm.
  assert (len (concat texts) <= foldr (fun d c => line_bound d + c) 0 ds); [|lia].
  induction Hm as [|d t ds texts Et _ IH]; [done|].
  apply Forall_cons in O as [Od O], W as [Wd W]. cbn [concat foldr]. rewrite len_app.
  specialize (IH O W). set (rest := foldr _ 0 ds) in *. unfold destination_text in Et. apply bind_Some in Et as (lines & El & Et).
  apply (inj Some) in Et as <-. rewrite len_app.
  pose proof (destination_line_len d Od). pose proof (address_lines_len _ _ Wd El).
  unfold line_bound, address_count, INET6_ADDRSTRLEN. lia.
Qed.
End Text.


Section Order.
Context `{Inet}.

(** The answers of a resolver that the code keeps. *)
Definition usable (a : addrinfo) : bool :=
  negb ((SOCKADDR_STORAGE_SIZE <? ai_addrlen a) ||
        (negb (ai_family a =? AF_INET) && negb (ai_family a =? AF_INET6))).

Definition candidate (a : addrinfo) : egress_address_t := Address (ai_addr a) (ai_addrlen a).

Lemma address_equal_eq a b : address_equal a b = true <-> a = b.
Proof.
  unfold address_equal. rewrite andb_true_iff, Z.eqb_eq, bool_decide_eq_true.
  destruct a, b. simpl. naive_solver.
Qed.

(** A resolution that succeeds pins each usable answer once. *)
Lemma resolve_loop_elem d answers d' :
  resolve_loop d answers = (MAELYS_EGRESS_OK, d') ->
  forall x, x ∈ addresses d' <->
    x ∈ addresses d \/ exists a, a ∈ answers /\ usable a = true /\ x = candidate a.
Proof.
  revert d. induction answers as [|a answers IH]; intros d E x; simpl in E.
  { simplify_eq. split; [by left|]. intros [?|(a & Ha & _)]; [done|by apply not_elem_of_nil in Ha]. }
  destruct (_ || _) eqn:Eu in E.
  { rewrite (IH d E x). unfold usable. setoid_rewrite elem_of_cons.
    split; [naive_solver|]. intros [?|(b & [->|?] & Hb & ?)]; [naive_solver| |naive_solver].
    by rewrite Eu in Hb. }
  destruct (negb (allow_private d) && _) in E; [done|].
  destruct (existsb _ _) eqn:Ee in E.
  - rewrite (IH d E x). setoid_rewrite elem_of_cons. split; [naive_solver|].
    intros [?|(b & [->|?] & Hb & ->)]; [naive_solver| |naive_solver]. left.
    apply existsb_exists in Ee as (y & Hy & Exy). apply address_equal_eq in Exy.
    apply list_elem_of_In. unfold candidate. by rewrite Exy.
  - destruct (_ <=? _) in E; [done|]. rewrite (IH _ E x). simpl.
    rewrite elem_of_app, list_elem_of_singleton. setoid_rewrite elem_of_cons. unfold usable.
    split; [|naive_solver]. intros [[?| -> ]|?]; [by left| |naive_solver]. right. exists a.
    rewrite Eu. split_and!; [by left|done|done].
Qed.

(** Two resolvers that give the same answers in some order. *)
Definition same_answers (r1 r2 : Resolver) : Prop :=
  forall host service, option_Forall2 Permutation (@getaddrinfo r1 host service) (@getaddrinfo r2 host service).

Definition unresolved (d : egress_destination_t) : Prop := addresses d = [].

Lemma resolve_destination_keys (r1 r2 : Resolver) d d1 d2 :
  same_answers r1 r2 -> destination_ok d -> unresolved d ->
  @resolve_destination r1 d = (MAELYS_EGRESS_OK, d1) ->
  @resolve_destination r2 d = (MAELYS_EGRESS_OK, d2) ->
  map address_key (addresses d1) = map address_key (addresses d2).
Proof.
  intros Hs Hok Hu. unfold resolve_destination.
  specialize (Hs (dest_host d) (decimal (dest_port d))).
  destruct (@getaddrinfo r1 _ _) as [a1|]; [|done].
  destruct (@getaddrinfo r2 _ _) as [a2|]; [|done].
  inversion Hs as [? ? Hp|]; subst.
  destruct (resolve_loop d a1) as [[] e1] eqn:E1; try done.
  destruct (resolve_loop d a2) as [[] e2] eqn:E2; try done.
  destruct (_ =? 0); [done|]. destruct (_ =? 0); [done|]. intros [= <-] [= <-]. simpl.
  apply sorted_addresses_keys, fmap_Permutation, NoDup_Permutation.
  - by destruct (resolve_loop_ok _ _ _ _ Hok E1).
  - by destruct (resolve_loop_ok _ _ _ _ Hok E2).
  - intros x. rewrite (resolve_loop_elem _ _ _ E1), (resolve_loop_elem _ _ _ E2).
    setoid_rewrite Hp. done.
Qed.

Lemma resolve_all_keys (r1 r2 : Resolver) ds ds1 ds2 :
  same_answers r1 r2 -> Forall destination_ok ds -> Forall unresolved ds ->
  @resolve_all r1 ds = (MAELYS_EGRESS_OK, ds1) ->
  @resolve_all r2 ds = (MAELYS_EGRESS_OK, ds2) -> map summary ds1 = map summary ds2.
Proof.
  intros Hs. revert ds1 ds2. induction ds as [|d ds IH]; intros ds1 ds2 Hok Hu E1 E2.
  { simpl in *. by simplify_eq. }
  apply Forall_cons in Hok as [Hd Hok]. apply Forall_cons in Hu as [Hud Hu].
  cbn [resolve_all] in E1, E2.
  destruct (@resolve_destination r1 d) as [[] d1] eqn:D1; try done.
  destruct (@resolve_destination r2 d) as [[] d2] eqn:D2; try done.
  destruct (@resolve_all r1 ds) as [t1 e1] eqn:A1. destruct (@resolve_all r2 ds) as [t2 e2] eqn:A2.
  simplify_eq. simpl. f_equal; [|by apply IH].
  unfold summary. rewrite (resolve_destination_keys r1 r2 d d1 d2) by done.
  destruct (@resolve_destination_ok _ r1 d _ d1 Hd D1) as (_ & -> & _).
  by destruct (@resolve_destination_ok _ r2 d _ d2 Hd D2) as (_ & -> & _).
Qed.

Lemma address_lines_key l1 l2 :
  map address_key l1 = map address_key l2 ->
  mapM (fun a => address_line a <$> numeric_address a) l1 =
  mapM (fun a => address_line a <$> numeric_address a) l2.
Proof.
  revert l2. induction l1 as [|a l1 IH]; intros [|b l2] E; try done.
  simpl in E. apply (inj2 cons) in E as [Ek E]. cbn [mapM]. rewrite (IH _ E).
  unfold address_key in Ek. injection Ek as Ef Er.
  unfold numeric_address, address_line. by rewrite Ef, Er.
Qed.

(** The text depends on the summaries alone. *)
Lemma policy_text_summary ds1 ds2 :
  map summary ds1 = map summary ds2 -> policy_text ds1 = policy_text ds2.
Proof.
  intros E. unfold policy_text. f_equal. revert ds2 E.
  induction ds1 as [|d1 ds1 IH]; intros [|d2 ds2] E; try done. simpl in E.
  apply (inj2 cons) in E as [Ed E]. cbn [mapM]. rewrite (IH _ E).
  assert (destination_text d1 = destination_text d2) as ->; [|done].
  unfold summary, dest_key, flags in Ed. injection Ed as Eh Ep Ea Es El.
  unfold destination_text, destination_line. by rewrite Eh, Ep, Ea, Es, (address_lines_key _ _ El).
Qed.
End Order.

Lemma seal_OK_inv `{Inet} `{Resolver} mem p q :
  maelys_egress_policy_seal mem p = (MAELYS_EGRESS_OK, q) ->
  exists ds, resolve_all (qsort destination_compare (destinations p)) = (MAELYS_EGRESS_OK, ds) /\
    exists text, policy_text ds = Some text /\ digest_hex q = egress_sha256_hex text.
Proof.
  unfold maelys_egress_policy_seal. destruct (_ || _); [done|]. simpl.
  destruct (resolve_all _) as [[] ds]; try done. unfold egress_policy_compute_digest.
  destruct mem; simpl; [|done].
  destruct (put_destinations _ _ _) as [text|] eqn:Et; simpl; [|done]. intros [= <-].
  apply put_destinations_text in Et as (t & Ht & ->). exists ds. split; [done|]. by exists t.
Qed.

(** Resolution itself never reports an exhausted memory. *)
Lemma resolve_all_memory `{Resolver} ds r ds' :
  resolve_all ds = (r, ds') -> r <> MAELYS_EGRESS_ERR_MEMORY.
Proof.
  assert (Hl : forall answers d r d', resolve_loop d answers = (r, d') -> r <> MAELYS_EGRESS_ERR_MEMORY).
  { induction answers as [|a answers IH]; intros d r' d' E; simpl in E; [by simplify_eq|].
    repeat (case_match; simplify_eq/=; eauto). }
  revert r ds'. induction ds as [|d ds IH]; intros r ds' E; simpl in E; [by simplify_eq|].
  unfold resolve_destination in E. destruct (getaddrinfo _ _) as [answers|]; [|by simplify_eq].
  destruct (resolve_loop d answers) as [r1 d1] eqn:El. apply Hl in El.
  destruct r1; simplify_eq; try done.
  destruct (_ =? 0) in E; [by simplify_eq|].
  destruct (resolve_all ds) as [r2 ds2] eqn:E2. simplify_eq. by eapply IH.
Qed.

Lemma seal_OK_destinations `{Inet} `{Resolver} mem p q :
  maelys_egress_policy_seal mem p = (MAELYS_EGRESS_OK, q) ->
  sealed q = true /\
  resolve_all (qsort destination_compare (destinations p)) = (MAELYS_EGRESS_OK, destinations q).
Proof.
  unfold maelys_egress_policy_seal. destruct (_ || _); [done|]. simpl.
  destruct (resolve_all _) as [[] ds]; try done. unfold egress_policy_compute_digest.
  destruct mem; simpl; [|done].
  destruct (put_destinations _ _ _) as [text|] eqn:Et; simpl; [|done]. by intros [= <-].
Qed.

Lemma destination_compare_Eq a b : destination_compare a b = Eq -> dest_key a = dest_key b.
Proof.
  unfold destination_compare, dest_key. destruct (strcmp _ _) eqn:Es; [|done|done].
  apply strcmp_Eq in Es as ->. destruct (Z.ltb_spec (dest_port a) (dest_port b)); [done|].
  destruct (Z.ltb_spec (dest_port b) (dest_port a)); [done|]. intros _. f_equal. lia.
Qed.

Lemma same_key_eq ds a b :
  NoDup (map dest_key ds) -> a ∈ ds -> b ∈ ds -> destination_compare a b = Eq -> a = b.
Proof.
  intros Hn (i & Hi)%list_elem_of_lookup (j & Hj)%list_elem_of_lookup E%destination_compare_Eq.
  assert (i = j) as ->; [|congruence].
  eapply (NoDup_lookup (map dest_key ds)); [done| |];
    change (map ?g ?l) with (g <$> l); rewrite list_lookup_fmap; [rewrite Hi|rewrite Hj]; simpl;
    [reflexivity|by rewrite E].
Qed.

(** * Properties *)

(** ** Resealing *)

Lemma find_index_app ds d host port :
  Forall (fun x => is_destination host port x = false) ds -> is_destination host port d = true ->
  find_index (ds ++ [d]) host port = Some (length ds).
Proof.
  intros Hf Hd. induction Hf as [|x ds Hx _ IH]; simpl; [by rewrite Hd|]. by rewrite Hx, IH.
Qed.

(** One step of the copy appends the destination, without its addresses. *)
Lemma copy_step `{Inet} grow copy d q q' :
  destination_ok d ->
  maelys_egress_policy_allow_tcp grow copy q (dest_host d) (dest_port d) (allow_private d) =
    (MAELYS_EGRESS_OK, q') ->
  destinations q' = destinations q ++
    [Destination (dest_host d) (dest_port d) (allow_private d) false []] /\
  sealed q' = false /\
  (require_tls_sni d = true ->
   exists q'', maelys_egress_policy_require_tls_sni q' (dest_host d) (dest_port d) =
     (MAELYS_EGRESS_OK, q'') /\ sealed q'' = false /\
     destinations q'' = destinations q ++ [d <| addresses := [] |>]).
Proof.
  intros [Hh Hp Hsni _ _ _] E. unfold maelys_egress_policy_allow_tcp in E. rewrite Hh in E.
  destruct (sealed q) eqn:Es; [done|]. cbn [orb] in E.
  destruct (Z.eqb_spec (dest_port d) 0); [done|].
  destruct (existsb _ _) eqn:Ee; [done|]. destruct (_ <=? _); [done|]. destruct (_ && _); [done|].
  destruct copy; [|done]. cbn [negb] in E. injection E as <-.
  set (q1 := if count q =? capacity q then _ else q).
  assert (E1 : destinations q1 = destinations q /\ sealed q1 = false)
    by (unfold q1; by destruct (_ =? _)). destruct E1 as [Ed Es1]. clearbody q1.
  simpl. rewrite Ed, Es1. split_and!; [done|done|]. intros Hr.
  destruct (Hsni Hr) as [H4 H6]. unfold maelys_egress_policy_require_tls_sni. simpl.
  rewrite Es1, Hh, H4, H6, (proj2 (Z.eqb_neq _ _)) by done. cbn [orb is_some].
  unfold find_mutable_destination. simpl. rewrite Es1.
  apply existsb_false_Forall in Ee. rewrite find_index_app; [|done|by apply is_destination_key].
  eexists. split; [reflexivity|]. simpl. split; [done|].
  rewrite <-(Nat.add_0_r (length (destinations q))).
  rewrite alter_app_r. simpl. destruct d. simpl in *. by rewrite Hr.
Qed.

Lemma copy_destinations_view `{Inet} mem i q ds q' :
  Forall destination_ok ds ->
  copy_destinations mem i q ds = (MAELYS_EGRESS_OK, q') ->
  destinations q' = destinations q ++ map (fun d => d <| addresses := [] |>) ds.
Proof.
  intros Hf. revert i q. induction Hf as [|d ds Hd Hf IH]; intros i q E; simpl in E.
  { simplify_eq. by rewrite app_nil_r. }
  destruct (maelys_egress_policy_allow_tcp _ _ _ _ _ _) as [[] q1] eqn:E1; try done.
  destruct (copy_step _ _ d q q1 Hd E1) as (A1 & A2 & A3).
  destruct (require_tls_sni d) eqn:Er.
  - destruct (A3 eq_refl) as (q2 & E2 & S2 & D2). rewrite E2 in E.
    rewrite (IH _ _ E), D2, <-app_assoc. done.
  - rewrite (IH _ _ E), A1, <-app_assoc. cbn [map app]. do 2 f_equal.
    destruct d; simpl in *; by rewrite Er.
Qed.

(** Resealing.  A successful reseal of a sealed policy yields another
    sealed policy with exactly the same hosts, ports and flags, resolved afresh
    (none of the old addresses is carried over); and sealing reports an
    exhausted memory only when the allocation failed or an address has no
    numeric form: the buffer sized by the code always holds the text. *)
Theorem policy_reseal_same_map `{Inet} {laws : InetLaws} (r : Resolver) create mem digest p q :
  policy_reachable p ->
  (@maelys_egress_policy_reseal _ r create mem digest p = (MAELYS_EGRESS_OK, Some q) ->
     sealed p = true /\ sealed q = true /\ view q = view p /\
     @resolve_all r (qsort destination_compare
       (map (fun d => d <| addresses := [] |>) (destinations p))) = (MAELYS_EGRESS_OK, destinations q)) /\
  (@maelys_egress_policy_seal _ r digest p = (MAELYS_EGRESS_ERR_MEMORY, q) ->
     Forall (fun d => Forall address_wf (addresses d)) (destinations q) ->
     digest = false \/ policy_text (destinations q) = None).
Proof.
  intros Hr. pose proof (policy_reachable_ok _ Hr) as Hok. split.
  - unfold maelys_egress_policy_reseal. destruct (sealed p) eqn:Es; [|done]. cbn [negb].
    destruct create; [|done]. cbn [negb].
    destruct (copy_destinations _ _ _ _) as [[] c] eqn:Ec; try done.
    destruct (maelys_egress_policy_seal _ _) as [[] q'] eqn:Eq; try done. intros [= ->].
    apply copy_destinations_view in Ec; [|apply Hok]. 
    change (destinations maelys_egress_policy_create ++ ?l) with l in Ec.
    destruct (seal_OK_destinations _ _ _ Eq) as (Sq & Aq). rewrite Ec in Aq.
    split_and!; [done|done| |done].
    assert (Hc : view c = view p).
    { unfold view. rewrite Ec, map_map. done. }
    rewrite <-Hc. rewrite <-(seal_view digest c), Eq; [done| |].
    + rewrite Ec. apply Forall_map. eapply Forall_impl; [apply Hok|]. intros d []. split; simpl; done || constructor.
    + rewrite Ec, map_map. apply Hok.
  - intros E W. destruct digest; [right|by left].
    destruct (policy_text (destinations q)) as [text|] eqn:Et; [|done]. exfalso.
    assert (Oq : policy_ok q) by (pose proof (seal_ok true p Hok) as O; by rewrite E in O).
    pose proof (policy_text_fits _ _ (policy_ok_destinations _ Oq) W Et) as Hfit.
    revert E. unfold maelys_egress_policy_seal. destruct (_ || _); [done|]. simpl.
    destruct (resolve_all _) as [res ds] eqn:Er.
    pose proof (resolve_all_memory _ _ _ Er) as Hm.
    destruct res; try (intros [=]; done). unfold egress_policy_compute_digest. simpl.
    destruct (put_destinations (digest_capacity ds) [] ds) as [t|] eqn:Ep; simpl; [done|].
    intros [= <-]. simpl in Et, Hfit. rewrite (put_destinations_fits _ _ _ _ Et) in Ep; [done|].
    change (len []) with 0. lia.
Qed.

(** The digest identifies the policy.  Two sealed policies carry equal
    digests only if their canonical texts have equal SHA-256 hashes, and equal
    texts mean the same hosts and ports in the same order with the same flags
    and the same pinned addresses: nothing a connection decision reads is left
    out of the text or can be confused in it. *)
Theorem policy_digest_identifies `{Inet} {laws : InetLaws} p1 p2 :
  policy_reachable p1 -> policy_reachable p2 -> sealed p1 = true -> sealed p2 = true ->
  Forall (fun d => Forall address_wf (addresses d)) (destinations p1) ->
  Forall (fun d => Forall address_wf (addresses d)) (destinations p2) ->
  digest_hex p1 = digest_hex p2 ->
  exists t1 t2,
    policy_text (destinations p1) = Some t1 /\ policy_text (destinations p2) = Some t2 /\
    egress_sha256 t1 = egress_sha256 t2 /\
    (t1 = t2 -> map summary (destinations p1) = map summary (destinations p2)).
Proof.
  intros R1 R2 S1 S2 W1 W2 E.
  pose proof (policy_reachable_ok _ R1) as O1. pose proof (policy_reachable_ok _ R2) as O2.
  destruct (policy_ok_sealed _ O1 S1) as (_ & _ & _ & t1 & T1 & D1).
  destruct (policy_ok_sealed _ O2 S2) as (_ & _ & _ & t2 & T2 & D2).
  exists t1, t2. split_and!; [done|done| |].
  - rewrite D1, D2 in E. unfold egress_sha256_hex in E.
    by apply hex_encode_inj in E; [|apply sha256_is_byte..].
  - intros ->. apply (policy_text_inj _ _ t2); try done; by destruct O1, O2.
Qed.

(** The digest does not depend on order.  Two policies with the same
    destinations added in any order, sealed against resolvers that return the
    same answers in any order, carry the same digest whenever both sealings
    succeed. *)
Theorem policy_digest_order_independent `{Inet} (r1 r2 : Resolver) m1 m2 p1 p2 q1 q2 :
  policy_reachable p1 -> policy_reachable p2 -> destinations p1 ≡ₚ destinations p2 ->
  Forall unresolved (destinations p1) -> same_answers r1 r2 ->
  @maelys_egress_policy_seal _ r1 m1 p1 = (MAELYS_EGRESS_OK, q1) ->
  @maelys_egress_policy_seal _ r2 m2 p2 = (MAELYS_EGRESS_OK, q2) ->
  digest_hex q1 = digest_hex q2.
Proof.
  intros R1 R2 Hp Hu Hs E1 E2.
  pose proof (policy_reachable_ok _ R1) as O1.
  destruct (@seal_OK_inv _ r1 _ _ _ E1) as (ds1 & A1 & T1).
  destruct (@seal_OK_inv _ r2 _ _ _ E2) as (ds2 & A2 & T2).
  assert (Eq : qsort destination_compare (destinations p1) = qsort destination_compare (destinations p2)).
  { apply qsort_unique; [apply _| |done]. intros a b Ha Hb Hc. by eapply same_key_eq; [apply O1|..]. }
  rewrite <-Eq in A2.
  assert (Hsum : map summary ds1 = map summary ds2).
  { apply (resolve_all_keys r1 r2 _ ds1 ds2 Hs) in A2; try done; rewrite qsort_perm; [apply O1|done]. }
  apply policy_text_summary in Hsum. destruct T1 as (t1 & X1 & ->), T2 as (t2 & X2 & ->). congruence.
Qed.

(** ** Examples *)

Definition example_answers : list addrinfo :=
  [Addrinfo AF_INET 16 (AF_INET_addr 443 [1; 1; 1; 1]);
   Addrinfo AF_INET 16 (AF_INET_addr 443 [8; 8; 8; 8])].

Definition resolver_forward : Resolver := fun _ _ => Some example_answers.
Definition resolver_backward : Resolver := fun _ _ => Some (rev example_answers).

Definition allow (p : maelys_egress_policy) (host : string) : maelys_egress_policy :=
  (@policy_apply dotted_inet p (AllowTcp true true (str host) 443 false)).2.

Definition example_ab : maelys_egress_policy :=
  allow (allow maelys_egress_policy_create "a.example") "b.example".
Definition example_ba : maelys_egress_policy :=
  allow (allow maelys_egress_policy_create "b.example") "a.example".

Definition sealed_by (r : Resolver) (p : maelys_egress_policy) : maelys_egress_policy :=
  (@policy_apply dotted_inet p (Seal r true)).2.

Lemma allow_reachable p host :
  @policy_reachable dotted_inet p -> @policy_reachable dotted_inet (allow p host).
Proof. intros H. apply policy_reachable_call; [done|simpl; unfold is_u16; lia]. Qed.

Lemma sealed_reachable r p :
  @policy_reachable dotted_inet p -> @policy_reachable dotted_inet (sealed_by r p).
Proof. intros H. apply policy_reachable_call; [done|exact I]. Qed.

Lemma example_ab_reachable : @policy_reachable dotted_inet example_ab.
Proof. apply allow_reachable, allow_reachable, policy_reachable_create. Qed.

Lemma example_ba_reachable : @policy_reachable dotted_inet example_ba.
Proof. apply allow_reachable, allow_reachable, policy_reachable_create. Qed.

Lemma policy_digest_order_independent_witness :
  digest_hex (sealed_by resolver_forward example_ab) =
  digest_hex (sealed_by resolver_backward example_ba).
Proof.
  apply (@policy_digest_order_independent dotted_inet resolver_forward resolver_backward true true
           example_ab example_ba).
  - apply example_ab_reachable.
  - apply example_ba_reachable.
  - apply (Permutation_swap _ _ []).
  - repeat (apply Forall_cons_2; [reflexivity|]). constructor.
  - intros host service. constructor. apply Permutation_rev.
  - vm_compute. reflexivity.
  - vm_compute. reflexivity.
Defined.

Lemma policy_digest_identifies_witness :
  exists t1 t2,
    @policy_text dotted_inet (destinations (sealed_by resolver_forward example_ab)) = Some t1 /\
    @policy_text dotted_inet (destinations (sealed_by resolver_backward example_ba)) = Some t2 /\
    egress_sha256 t1 = egress_sha256 t2 /\
    (t1 = t2 -> map summary (destinations (sealed_by resolver_forward example_ab)) =
                map summary (destinations (sealed_by resolver_backward example_ba))).
Proof.
  apply (@policy_digest_identifies dotted_inet dotted_inet_laws).
  - apply sealed_reachable, example_ab_reachable.
  - apply sealed_reachable, example_ba_reachable.
  - vm_compute. reflexivity.
  - vm_compute. reflexivity.
  - vm_compute. repeat (apply Forall_cons_2 || apply Forall_nil_2);
      (split; [reflexivity|byte_list]).
  - vm_compute. repeat (apply Forall_cons_2 || apply Forall_nil_2);
      (split; [reflexivity|byte_list]).
  - vm_compute. reflexivity.
Defined.

Lemma policy_reachable_consistent_witness :
  sealed (sealed_by resolver_forward example_ab) = true /\
  @policy_ok dotted_inet (sealed_by resolver_forward example_ab).
Proof.
  split; [vm_compute; reflexivity|].
  apply (@policy_reachable_consistent dotted_inet), sealed_reachable, example_ab_reachable.
Defined.

Lemma policy_find_is_lookup_witness :
  flags <$> egress_policy_find (Some (sealed_by resolver_forward example_ab)) (str "b.example") 443 =
  Some (false, false).
Proof.
  destruct (@policy_find_is_lookup dotted_inet (sealed_by resolver_forward example_ab)
              (str "b.example") 443) as (_ & E & _);
    [apply sealed_reachable, example_ab_reachable|].
  rewrite E by (vm_compute; reflexivity). vm_compute. reflexivity.
Defined.

Definition resealed : maelys_egress_policy :=
  default maelys_egress_policy_create
    (@maelys_egress_policy_reseal dotted_inet resolver_backward true (fun _ => (true, true)) true
       (sealed_by resolver_forward example_ab)).2.

Lemma policy_reseal_same_map_witness :
  view resealed = view (sealed_by resolver_forward example_ab).
Proof.
  destruct (@policy_reseal_same_map dotted_inet dotted_inet_laws resolver_backward true
    (fun _ => (true, true)) true (sealed_by resolver_forward example_ab) resealed) as [E _];
    [apply sealed_reachable, example_ab_reachable|].
  destruct E as (_ & _ & E & _); [vm_compute; reflexivity|exact E].
Defined.
