(* ===== verification/Http.v ===== *)
(** The HTTP proxy request parser (src/core/http.c).

    The parser works in place on a copy of the header: it overwrites the bytes
    that end the request line, the method and the target with NUL, and reads C
    strings from offsets of that buffer.  [egress_parse_http_request] keeps
    those writes and offsets.  What a failed parse leaves in the output
    structure is not modelled: the caller discards it. *)

From S2P Require Import Prelude Common Config.

Definition EGRESS_AUTHORITY_SIZE : Z := EGRESS_MAX_HOST + 16.

(** * Characters *)

(** [strchr] on a literal also finds the terminating NUL. *)
Definition token_char (byte : Z) : bool :=
  is_upper byte || is_lower byte || is_digit byte ||
  has_char byte (str "!#$%&'*+-.^_`|~" ++ [0]).

Definition base64_char (byte : Z) : bool :=
  is_upper byte || is_lower byte || is_digit byte || (byte =? c_plus) || (byte =? c_slash).

(** * Ports and authorities *)

Fixpoint parse_port_loop (text : bytes) (value : Z) : option Z :=
  match text with
  | [] => Some value
  | p :: text =>
      if negb (is_digit p) then None
      else
        let value := value * 10 + (p - c_0) in
        if 65535 <? value then None else parse_port_loop text value
  end.

Definition parse_port (text : bytes) : option Z :=
  if len text =? 0 then None
  else match parse_port_loop text 0 with
       | None => None
       | Some value => if value =? 0 then None else Some value
       end.

(** The host between its delimiters and the text of the port, if any. *)
Definition split_authority (authority : bytes) : option (bytes * option bytes) :=
  if at_ authority 0 =? c_lbracket then
    match index_of c_rbracket authority with
    | None => None
    | Some end_ =>
        let next := at_ authority (Z.of_nat end_ + 1) in
        if negb (next =? 0) && negb (next =? c_colon) then None
        else
          let port_text := if next =? c_colon then Some (drop (end_ + 2) authority) else None in
          let host_length := Z.of_nat end_ - 1 in
          if (host_length =? 0) || (EGRESS_MAX_HOST <? host_length) then None
          else Some (ztake host_length (drop 1 authority), port_text)
    end
  else
    match last_index_of c_colon authority with
    | Some colon =>
        if bool_decide (index_of c_colon authority = Some colon) then
          if (Z.of_nat colon =? 0) || (EGRESS_MAX_HOST <? Z.of_nat colon) then None
          else Some (take colon authority, Some (drop (S colon) authority))
        else None
    | None =>
        if (len authority =? 0) || (EGRESS_MAX_HOST <? len authority) then None
        else Some (authority, None)
    end.

Definition parse_authority `{Inet} (authority : bytes) (default_port : Z) : option (bytes * Z) :=
  if (len authority =? 0) || has_char c_at authority then None
  else match split_authority authority with
       | None => None
       | Some (raw_host, port_text) =>
           match egress_canonical_host raw_host with
           | None => None
           | Some host =>
               match port_text with
               | None => Some (host, default_port)
               | Some text =>
                   match parse_port text with Some port => Some (host, port) | None => None end
               end
           end
       end.

(** * Credentials *)

(** The table of [decode_base64], zero outside the alphabet. *)
Definition base64_value (c : Z) : Z :=
  if is_upper c then c - c_A
  else if is_lower c then c - c_a + 26
  else if is_digit c then c - c_0 + 52
  else if c =? c_plus then 62
  else if c =? c_slash then 63
  else 0.

(** The loop over groups of four characters; [used] is the output so far. *)
Fixpoint decode_groups (input : bytes) (capacity : Z) (used : bytes) : option bytes :=
  match input with
  | [] => Some used
  | c0 :: c1 :: c2 :: c3 :: rest =>
      let final := match rest with [] => true | _ => false end in
      if negb (base64_char c0) || negb (base64_char c1) then None
      else if negb (c2 =? c_eq) && negb (base64_char c2) then None
      else if negb (c3 =? c_eq) && negb (base64_char c3) then None
      else if ((c2 =? c_eq) && negb (c3 =? c_eq)) || ((c2 =? c_eq) && negb final) ||
              ((c3 =? c_eq) && negb final) then None
      else if ((c2 =? c_eq) && negb (Z.land (base64_value c1) 0x0f =? 0)) ||
              ((c3 =? c_eq) && negb (c2 =? c_eq) && negb (Z.land (base64_value c2) 0x03 =? 0))
      then None
      else
        let value := Z.lor (Z.lor (Z.lor (Z.shiftl (base64_value c0) 18)
                                         (Z.shiftl (base64_value c1) 12))
                                  (Z.shiftl (if c2 =? c_eq then 0 else base64_value c2) 6))
                           (if c3 =? c_eq then 0 else base64_value c3) in
        let count := if c2 =? c_eq then 1 else if c3 =? c_eq then 2 else 3 in
        if capacity <? len used + count then None
        else decode_groups rest capacity
               (used ++ ztake count [u8 (Z.shiftr value 16); u8 (Z.shiftr value 8); u8 value])
  | _ => None
  end.

Definition decode_base64 (input : bytes) (capacity : Z) : option bytes :=
  if (len input =? 0) || negb (len input mod 4 =? 0) then None
  else decode_groups input capacity [].

(** The invocation id and the principal index, [None] for [SIZE_MAX], that the
    lookups write through their output parameters. *)
Definition identity : Type := bytes * option nat.

Definition no_identity : identity := ([], None).

Definition lookup_identity (found : option (bytes * nat)) : bool * identity :=
  match found with
  | Some (invocation, index) => (true, (invocation, Some index))
  | None => (false, no_identity)
  end.

Definition auth_header_matches (config : maelys_egress_config) (value : bytes) (out : identity)
  : bool * identity :=
  if negb (authentication_set config) then (unauthenticated_loopback config, out)
  else if strncaseeq value (str "Bearer ") 7
  then lookup_identity (egress_credentials_lookup config None (drop 7 value))
  else if negb (strncaseeq value (str "Basic ") 6) then (false, out)
  else match decode_base64 (drop 6 value) (EGRESS_MAX_USERNAME + EGRESS_MAX_SECRET + 1) with
       | None => (false, out)
       | Some decoded =>
           match index_of c_colon (cstr decoded) with
           | None => (false, out)
           | Some separator =>
               lookup_identity
                 (egress_credentials_lookup config (Some (take separator decoded))
                    (cstr (drop (S separator) decoded)))
           end
       end.

(** * The request *)

Record egress_proxy_request_t := Request {
  protocol : maelys_egress_protocol_t;
  request_host : bytes;
  request_port : Z;
  consumed : Z;
  forward_bytes : bytes;
  request_identity : identity;
}.

(** The results 0, 1, -1 and -2. *)
Inductive parse_result :=
| Incomplete
| Complete (request : egress_proxy_request_t)
| Protocol
| Authentication.

Definition crlf : bytes := [c_cr; c_lf].

(** The loop over the bytes of the header; [prev] is the byte before. *)
Fixpoint framing_ok (prev : option Z) (request_line : bool) (header : bytes) : bool :=
  match header with
  | [] => true
  | b :: rest =>
      if (b =? 0) || (b =? 0x7f) ||
         ((b <? 0x20) && negb (b =? c_cr) && negb (b =? c_lf) && negb (b =? c_htab)) then false
      else if (b =? c_htab) && request_line then false
      else
        let request_line := if b =? c_lf then false else request_line in
        if (b =? c_lf) && negb (bool_decide (prev = Some c_cr)) then false
        else if (b =? c_cr) && negb (bool_decide (head rest = Some c_lf)) then false
        else framing_ok (Some b) request_line rest
  end.

(** Blanks around a field value. *)
Definition is_blank (c : Z) : bool := (c =? c_space) || (c =? c_htab).

Fixpoint skip_blanks (s : bytes) : bytes :=
  match s with
  | [] => []
  | x :: s' => if is_blank x then skip_blanks s' else s
  end.

Definition trim (s : bytes) : bytes := rev (skip_blanks (rev (skip_blanks s))).

(** [append_bytes]. *)
Definition append_bytes (capacity : Z) (output bytes_ : bytes) : option bytes :=
  if capacity <? len output + len bytes_ then None else Some (output ++ bytes_).

(** A field written back: its name, a colon and a space, its value. *)
Definition append_field (capacity : Z) (output name value : bytes) : option bytes :=
  output ← append_bytes capacity output name;
  output ← append_bytes capacity output (str ": ");
  output ← append_bytes capacity output value;
  append_bytes capacity output crlf.

(** The variables of the loop over the fields. *)
Record fields_state := Fields {
  authenticated : bool;
  auth_headers : Z;
  host_headers : Z;
  content_length_headers : Z;
  header_host : bytes;
  header_port : Z;
  rewritten : bytes;
  found_identity : identity;
}.

#[export] Instance eta_fields : Eta fields_state := fun s =>
  Fields (authenticated s) (auth_headers s) (host_headers s) (content_length_headers s)
    (header_host s) (header_port s) (rewritten s) (found_identity s).

Section Parser.
Context `{Inet} (config : maelys_egress_config) (endpoint_bound connect_method : bool)
  (rewritten_capacity : Z).

(** The field as it is forwarded; a CONNECT request forwards none. *)
Definition forward_field (s : fields_state) (name value : bytes) : option fields_state :=
  if connect_method then Some s
  else
    output ← append_field rewritten_capacity (rewritten s) name value;
    Some (s <| rewritten := output |>).

(** The body of the loop for one field; [None] is the return -1. *)
Definition http_field (s : fields_state) (name value : bytes) : option fields_state :=
  if strcaseeq name (str "Proxy-Authorization") then
    let s := s <| auth_headers := auth_headers s + 1 |> in
    if negb endpoint_bound then
      let '(matches, found) := auth_header_matches config value (found_identity s) in
      Some (s <| authenticated := matches |> <| found_identity := found |>)
    else Some s
  else if strcaseeq name (str "Host") then
    let s := s <| host_headers := host_headers s + 1 |> in
    match parse_authority value (if connect_method then 443 else 80) with
    | None => None
    | Some (host, port) =>
        forward_field (s <| header_host := host |> <| header_port := port |>) name value
    end
  else if strcaseeq name (str "Proxy-Connection") || strcaseeq name (str "Connection") ||
          strcaseeq name (str "Keep-Alive") then Some s
  else if strcaseeq name (str "Transfer-Encoding") then None
  else if strcaseeq name (str "Content-Length") then
    let s := s <| content_length_headers := content_length_headers s + 1 |> in
    if (1 <? content_length_headers s) || (len value =? 0) then None
    else if negb (forallb is_digit value) then None
    else forward_field s name value
  else forward_field s name value.

(** The loop over the lines, one per unit of fuel; every line takes at least
    its terminator, so the length of the buffer is enough. *)
Fixpoint http_fields (fuel : nat) (line : bytes) (s : fields_state) : option fields_state :=
  match fuel with
  | O => None
  | S fuel =>
      if len (cstr line) =? 0 then Some s
      else match find_sub crlf (cstr line) with
           | None => None
           | Some O => Some s
           | Some end_ =>
               let text := take end_ line in
               match index_of c_colon text with
               | None | Some O => None
               | Some colon =>
                   let name := take colon text in
                   if negb (forallb token_char name) then None
                   else match http_field s name (trim (drop (S colon) text)) with
                        | None => None
                        | Some s => http_fields fuel (drop (end_ + 2) line) s
                        end
               end
           end
  end.

End Parser.

(** ** The request line *)

(** The target of a request that is not CONNECT: its authority and the target
    in origin form. *)
Definition absolute_target (target : bytes) : option (bytes * bytes) :=
  if negb (prefixb (str "http://") target) then None
  else
    let begin := drop 7 target in
    let slash := index_of c_slash begin in
    let question := index_of c_question begin in
    let path := match slash, question with
                | None, _ => question
                | Some s, Some q => if (q <? s)%nat then question else slash
                | Some _, None => slash
                end in
    let authority_length := match path with Some i => Z.of_nat i | None => len begin end in
    if (authority_length =? 0) || (EGRESS_AUTHORITY_SIZE <=? authority_length) then None
    else Some (ztake authority_length begin,
               match path with Some i => drop i begin | None => str "/" end).

(** What the request line decides: the protocol, the host, the port and, for a
    forward request, the target in origin form. *)
Record request_line := RequestLine {
  line_method : bytes;
  line_protocol : maelys_egress_protocol_t;
  line_host : bytes;
  line_port : Z;
  origin_target : bytes;
}.

Definition connect_line (l : request_line) : bool :=
  bool_decide (line_protocol l = MAELYS_EGRESS_PROTOCOL_HTTP_CONNECT).

(** From the method and the target, once they are separated. *)
Definition request_target `{Inet} (method target : bytes) : option request_line :=
  if (len method =? 0) || (16 <? len method) then None
  else if negb (forallb token_char method) then None
  else if beq method (str "CONNECT") then
    if EGRESS_AUTHORITY_SIZE <=? len target then None
    else
      match parse_authority (snprintf_s EGRESS_AUTHORITY_SIZE target) 443 with
      | None => None
      | Some (host, port) =>
          Some (RequestLine method MAELYS_EGRESS_PROTOCOL_HTTP_CONNECT host port [])
      end
  else
    match absolute_target target with
    | None => None
    | Some (authority, origin) =>
        match parse_authority authority 80 with
        | None => None
        | Some (host, port) =>
            if has_char c_hash origin then None
            else Some (RequestLine method MAELYS_EGRESS_PROTOCOL_HTTP_FORWARD host port origin)
        end
    end.

(** The line a forward request starts with upstream. *)
Definition forward_line (l : request_line) : bytes :=
  line_method l ++ str " " ++
  (if at_ (origin_target l) 0 =? c_question then str "/" else []) ++ origin_target l ++
  str " HTTP/1.1" ++ crlf.

Definition initial_fields (line : bytes) (found : identity) : fields_state :=
  Fields false 0 0 0 [] 0 line found.

(** The checks behind the loop over the fields. *)
Definition http_conclude (config : maelys_egress_config) (endpoint_bound : bool) (l : request_line)
    (header_length : Z) (s : fields_state) : parse_result :=
  if (endpoint_bound && negb (auth_headers s =? 0)) || (1 <? auth_headers s) ||
     (negb endpoint_bound && authentication_set config &&
      (negb (auth_headers s =? 1) || negb (authenticated s)))
  then Authentication
  else if negb endpoint_bound && negb (authentication_set config) &&
          negb (unauthenticated_loopback config)
  then Authentication
  else if negb (host_headers s =? 1) || negb (beq (header_host s) (line_host l)) ||
          negb (header_port s =? line_port l)
  then Protocol
  else if connect_line l
  then Complete (Request (line_protocol l) (line_host l) (line_port l) header_length []
                   (found_identity s))
  else match append_bytes (header_length + 64) (rewritten s)
               (str "Connection: close" ++ crlf ++ crlf) with
       | None => Protocol
       | Some output =>
           Complete (Request (line_protocol l) (line_host l) (line_port l) header_length output
                       (found_identity s))
       end.

(** The writes into the copy of the header that separate the method, the target
    and the version; the method, the target and the buffer afterwards. *)
Definition split_request_line (header : bytes) (first_end : nat) : option (bytes * bytes * bytes) :=
  let header := <[first_end := 0]> header in
  match index_of c_space header with
  | None => None
  | Some space =>
      let header := <[space := 0]> header in
      let target := S space in
      match index_of c_space (drop target header) with
      | None => None
      | Some space =>
          let header := <[(target + space)%nat := 0]> header in
          let version := cstr (drop (S (target + space)) header) in
          if has_char c_space version || negb (beq version (str "HTTP/1.1")) then None
          else Some (cstr header, cstr (drop target header), header)
      end
  end.

(** [header_copy] and [rewrite_copy] say whether the two buffers are
    allocated. *)
Definition egress_parse_http_request `{Inet} (header_copy rewrite_copy : bool)
    (config : maelys_egress_config) (b : bytes) : parse_result :=
  let '(endpoint_bound, found) := lookup_identity (egress_unix_principal_lookup config) in
  match find_sub (crlf ++ crlf) b with
  | None => if EGRESS_HANDSHAKE_MAX <=? len b then Protocol else Incomplete
  | Some header_end =>
      let header_length := Z.of_nat header_end + 4 in
      let header := ztake header_length b in
      if negb (framing_ok None true header) then Protocol
      else if negb header_copy then Protocol
      else
        match find_sub crlf header with
        | None => Protocol
        | Some first_end =>
            match split_request_line header first_end with
            | None => Protocol
            | Some (method, target, header) =>
                match request_target method target with
                | None => Protocol
                | Some l =>
                    let connect_method := connect_line l in
                    let prefix := if connect_method then [] else forward_line l in
                    if negb connect_method && negb rewrite_copy then Protocol
                    else if negb connect_method && (header_length + 64 <=? len prefix)
                    then Protocol
                    else
                      match http_fields config endpoint_bound connect_method
                              (header_length + 64) (length header)
                              (drop (first_end + 2) header) (initial_fields prefix found) with
                      | None => Protocol
                      | Some s => http_conclude config endpoint_bound l header_length s
                      end
                end
            end
        end
  end.
