(* ===== verification/HttpFacts.v ===== *)
(** What the HTTP proxy parser accepts.

    [message] is a request head as lines, [render] its bytes.  The parser, with
    its in-place writes and offsets, is shown to be the interpretation of the
    lines ([parse_render]); acceptance is then characterised in terms of
    the fields. *)

From S2P Require Import Prelude Common Config Http.

(** * Messages *)

Record message := Message { start_line : bytes; field_lines : list bytes }.

Definition render_lines (ls : list bytes) : bytes := concat (map (fun l => l ++ crlf) ls).

Definition render (m : message) : bytes :=
  start_line m ++ crlf ++ render_lines (field_lines m) ++ crlf.

Lemma render_lines_app a b : render_lines (a ++ b) = render_lines a ++ render_lines b.
Proof. unfold render_lines. by rewrite map_app, concat_app. Qed.

Lemma render_lines_cons l ls : render_lines (l :: ls) = l ++ crlf ++ render_lines ls.
Proof. unfold render_lines. cbn [map concat]. by rewrite <-app_assoc. Qed.

(** The bytes of a line: no control but, in a field line, the tab. *)
Definition line_char (start : bool) (c : Z) : Prop :=
  c <> 0x7f /\ (0x20 <= c \/ (c = c_htab /\ start = false)).

Record message_ok (m : message) : Prop := {
  message_start : Forall (line_char true) (start_line m);
  message_fields : Forall (Forall (line_char false)) (field_lines m);
  message_nonempty : Forall (fun l => l <> []) (field_lines m);
}.

(** * Framing *)

Lemma line_char_weaken s c : line_char true c -> line_char s c.
Proof. unfold line_char. intros [? [?|[? ?]]]; [tauto|done]. Qed.

Lemma line_char_plain s c : line_char s c -> c <> c_cr /\ c <> c_lf /\ c <> 0.
Proof. unfold line_char. intros [? [?|[-> _]]]; lia. Qed.

Lemma framing_text x prev start rest :
  Forall (line_char start) x -> prev <> Some c_cr ->
  framing_ok prev start (x ++ crlf ++ rest) = framing_ok (Some c_lf) false rest.
Proof.
  revert prev. induction x as [|c x IH]; intros prev Hx Hp.
  - simpl. by destruct prev.
  - apply Forall_cons in Hx as [Hc Hx]. pose proof (line_char_plain _ _ Hc) as (H1 & H2 & H3).
    cbn [app framing_ok]. destruct Hc as [H4 H5].
    assert (E1 : (c =? 0) || (c =? 127) || ((c <? 32) && negb (c =? 13) && negb (c =? 10) && negb (c =? 9)) = false).
    { destruct H5 as [H5|[-> _]]; [|done].
      rewrite (proj2 (Z.eqb_neq c 0)), (proj2 (Z.eqb_neq c 127)), (proj2 (Z.ltb_ge c 32)) by done.
      done. }
    rewrite E1. assert (E2 : (c =? 9) && start = false).
    { destruct H5 as [H5|[-> ->]]; [|done]. by rewrite (proj2 (Z.eqb_neq c 9)) by lia. }
    rewrite E2. rewrite (proj2 (Z.eqb_neq c 10)), (proj2 (Z.eqb_neq c 13)) by done. cbn [andb].
    apply IH; [done|]. congruence.
Qed.

(** A framed header starts with a line. *)
Lemma framing_split h prev start :
  framing_ok prev start h = true -> prev <> Some c_cr ->
  exists x, Forall (line_char start) x /\
    (h = x \/ exists h', h = x ++ crlf ++ h' /\ framing_ok (Some c_lf) false h' = true).
Proof.
  revert prev. induction h as [|c h IH]; intros prev E Hp.
  { exists []. split; [constructor|by left]. }
  revert E. cbn [framing_ok].
  do 2 (case_match; [done|]).
  match goal with |- (if ?b then _ else _) = _ -> _ => destruct b eqn:E3; [done|] end.
  match goal with |- (if ?b then _ else _) = _ -> _ => destruct b eqn:E4; [done|] end.
  intros E.
  destruct (Z.eqb_spec c c_lf) as [->|Hlf].
  { simpl in E3. rewrite bool_decide_false in E3 by done. done. }
  destruct (Z.eqb_spec c c_cr) as [->|Hcr].
  - simpl in E4. bool_simp. destruct h as [|d h]; [done|]. simpl in E4. simplify_eq.
    exists []. split; [constructor|]. right. exists h. split; [done|].
    simpl in E. by rewrite andb_false_r in E || idtac.
  - destruct (IH (Some c) E) as (x & Hx & Hh); [congruence|].
    exists (c :: x). split.
    + constructor; [|done]. unfold line_char.
      destruct (Z.eqb_spec c 0), (Z.eqb_spec c 127), (Z.ltb_spec c 32), (Z.eqb_spec c 9);
        simpl in *; try done; split; try lia. right. by destruct start.
    + destruct Hh as [->|(h' & -> & ?)]; [by left|]. right. by exists h'.
Qed.

Definition blank_line : bytes := crlf ++ crlf.

Lemma find_sub_skip needle c s :
  prefixb needle (c :: s) = false -> find_sub needle (c :: s) = S <$> find_sub needle s.
Proof. intros E. simpl. by rewrite E. Qed.

Lemma option_fmap_add n m (o : option nat) :
  (fun k => (n + k)%nat) <$> ((fun k => (m + k)%nat) <$> o) = (fun k => (n + m + k)%nat) <$> o.
Proof. destruct o; simpl; [f_equal; lia|done]. Qed.

Lemma find_sub_text needle start x s :
  head needle = Some c_cr -> Forall (line_char start) x ->
  find_sub needle (x ++ s) = (fun k => (length x + k)%nat) <$> find_sub needle s.
Proof.
  intros Hn. induction x as [|c x IH]; intros Hx; [cbn [app]; by destruct (find_sub needle s)|].
  apply Forall_cons in Hx as [Hc Hx]. destruct (line_char_plain _ _ Hc) as (H1 & _).
  cbn [app]. rewrite find_sub_skip.
  - rewrite (IH Hx). by destruct (find_sub needle s).
  - destruct needle as [|d needle]; [done|]. simpl in *. simplify_eq.
    by rewrite (proj2 (Z.eqb_neq c_cr c)) by congruence.
Qed.

Lemma find_crlf_text start x s :
  Forall (line_char start) x -> find_sub crlf (x ++ crlf ++ s) = Some (length x).
Proof. intros Hx. rewrite (find_sub_text _ start) by done. simpl. f_equal. lia. Qed.

Lemma find_blank_none start x : Forall (line_char start) x -> find_sub blank_line (crlf ++ x) = None.
Proof.
  intros Hx. assert (E : find_sub blank_line x = None).
  { rewrite <-(app_nil_r x). by rewrite (find_sub_text _ start). }
  destruct x as [|c x]; [done|]. apply Forall_cons in Hx as [Hc _].
  destruct (line_char_plain _ _ Hc) as (H1 & _). unfold blank_line, crlf in *.
  cbn [app] in *. rewrite find_sub_skip; [rewrite find_sub_skip; [by rewrite E|done]|].
  cbn [prefixb]. by rewrite (proj2 (Z.eqb_neq c_cr c)) by congruence.
Qed.

(** Non-empty lines hold no blank line. *)
Lemma find_blank_lines ls t :
  Forall (Forall (line_char false)) ls -> Forall (fun l => l <> []) ls ->
  find_sub blank_line (crlf ++ render_lines ls ++ t) =
    (fun k => (length (render_lines ls) + k)%nat) <$> find_sub blank_line (crlf ++ t).
Proof.
  intros Hc Hn. induction ls as [|l ls IH].
  { change (render_lines [] ++ t) with t. by destruct (find_sub blank_line (crlf ++ t)). }
  apply Forall_cons in Hc as [Hl Hc], Hn as [Hne Hn]. specialize (IH Hc Hn).
  assert (E : render_lines (l :: ls) = l ++ crlf ++ render_lines ls)
    by (unfold render_lines; simpl; by rewrite <-app_assoc).
  rewrite E, <-!app_assoc. destruct l as [|c l]; [done|].
  assert (Hcr : c <> c_cr) by (apply Forall_cons in Hl as [Hc' _]; by apply line_char_plain in Hc' as (? & _)).
  transitivity ((fun k => (2 + k)%nat) <$> find_sub blank_line ((c :: l) ++ crlf ++ render_lines ls ++ t)).
  - unfold crlf at 1. cbn [app]. rewrite find_sub_skip;
      [rewrite find_sub_skip; [|done]; by destruct (find_sub blank_line (c :: _))|].
    unfold blank_line, crlf. cbn [app prefixb].
    by rewrite (proj2 (Z.eqb_neq c_cr c)) by congruence.
  - rewrite (find_sub_text _ false) by done. rewrite IH, !option_fmap_add.
    apply option_fmap_ext. intros k. rewrite !length_app. simpl. lia.
Qed.

Lemma find_blank_render m rest :
  message_ok m -> find_sub blank_line (render m ++ rest) = Some (length (render m) - 4)%nat.
Proof.
  intros [Hs Hc Hn]. unfold render. rewrite <-!app_assoc, (find_sub_text _ true) by done.
  rewrite find_blank_lines by done.
  change (find_sub blank_line (crlf ++ crlf ++ rest)) with (Some 0%nat).
  cbn [fmap option_fmap option_map]. f_equal.
  rewrite !length_app. change (length crlf) with 2%nat. lia.
Qed.

Lemma framing_lines n h :
  (length h <= n)%nat -> framing_ok (Some c_lf) false h = true ->
  exists ls x, h = render_lines ls ++ x /\ Forall (Forall (line_char false)) ls /\
    Forall (line_char false) x.
Proof.
  revert h. induction n as [|n IH]; intros h Hl E.
  { destruct h; [|simpl in Hl; lia]. exists [], []. by repeat constructor. }
  destruct (framing_split h _ _ E) as (x & Hx & [->|(h' & -> & E')]); [done| |].
  - exists [], x. split_and!; [done|constructor|done].
  - destruct (IH h') as (ls & y & -> & Hls & Hy); [|done|].
    { rewrite !length_app in Hl. simpl in Hl. lia. }
    exists (x :: ls), y. split_and!; [|by constructor|done].
    unfold render_lines. simpl. by rewrite <-!app_assoc.
Qed.

(** The first empty line of a list. *)
Lemma first_empty (ls : list bytes) :
  Forall (fun l => l <> []) ls \/
  exists ls' ls'', ls = ls' ++ [] :: ls'' /\ Forall (fun l => l <> []) ls'.
Proof.
  induction ls as [|l ls IH]; [by left|]. destruct l as [|c l].
  - right. exists [], ls. split; [done|constructor].
  - destruct IH as [IH|(ls' & ls'' & -> & IH)]; [left; by constructor|].
    right. exists ((c :: l) :: ls'), ls''. split; [done|by constructor].
Qed.

Lemma find_sub_take needle b e :
  find_sub needle b = Some e -> find_sub needle (take (e + length needle) b) = Some e.
Proof.
  revert e. induction b as [|c b IH]; intros e E; simpl in E.
  - rewrite take_nil. destruct needle; [exact E|done].
  - destruct (prefixb needle (c :: b)) eqn:Ep; simplify_eq.
    + apply prefixb_spec in Ep as (s & ->). rewrite Nat.add_0_l, take_app_length.
      destruct needle; [done|]. simpl. rewrite Z.eqb_refl. simpl.
      rewrite (proj2 (prefixb_spec _ _)); [done|]. exists []. by rewrite app_nil_r.
    + apply fmap_Some in E as (k & E & ->). cbn [Nat.add take]. rewrite find_sub_skip; [by rewrite IH|].
      destruct (prefixb needle (c :: take (k + length needle) b)) eqn:E2; [|done].
      apply prefixb_spec in E2 as (t & E2). exfalso. apply eq_true_false_abs in Ep; [done|].
      apply prefixb_spec. exists (t ++ drop (k + length needle) b).
      by rewrite app_assoc, <-E2, <-app_comm_cons, take_drop.
Qed.

(** A framed header is the rendering of a message. *)
Lemma header_message b e :
  find_sub blank_line b = Some e -> framing_ok None true (take (e + 4) b) = true ->
  exists m, message_ok m /\ take (e + 4) b = render m.
Proof.
  intros Hf Ef. pose proof (find_sub_take _ _ _ Hf) as Ht. change (length blank_line) with 4%nat in Ht.
  assert (Hl : (length (take (e + 4) b) <= e + 4)%nat) by (rewrite length_take; lia).
  set (h := take (e + 4) b) in *. clearbody h.
  destruct (framing_split h _ _ Ef) as (x & Hx & [->|(h' & -> & E')]); [done| |].
  { rewrite <-(app_nil_r x), (find_sub_text _ true) in Ht by done. done. }
  destruct (framing_lines _ h' (le_n _) E') as (ls & y & -> & Hls & Hy).
  destruct (first_empty ls) as [Hn|(ls' & ls'' & -> & Hn)].
  { rewrite (find_sub_text _ true) in Ht by done. rewrite find_blank_lines in Ht by done.
    by rewrite (find_blank_none false y Hy) in Ht. }
  apply Forall_app in Hls as [Hls' Hls''].
  assert (Hok : message_ok (Message x ls')) by (by split).
  assert (Er : x ++ crlf ++ render_lines (ls' ++ [] :: ls'') ++ y =
               render (Message x ls') ++ render_lines ls'' ++ y).
  { unfold render. rewrite render_lines_app, render_lines_cons. cbn [start_line field_lines].
    by rewrite <-!app_assoc. }
  rewrite Er in *. rewrite (find_blank_render _ _ Hok) in Ht. injection Ht as He.
  exists (Message x ls'). split; [done|]. rewrite length_app in Hl.
  assert (4 <= length (render (Message x ls')))%nat
    by (unfold render; rewrite !length_app; simpl; lia).
  destruct (render_lines ls'' ++ y); [by rewrite app_nil_r|simpl in Hl; lia].
Qed.

Lemma framing_lines_ok ls rest :
  Forall (Forall (line_char false)) ls ->
  framing_ok (Some c_lf) false (render_lines ls ++ rest) = framing_ok (Some c_lf) false rest.
Proof.
  induction 1 as [|l ls Hl _ IH]; [done|].
  unfold render_lines. simpl. rewrite <-!app_assoc. rewrite framing_text by done. exact IH.
Qed.

Lemma framing_render m : message_ok m -> framing_ok None true (render m) = true.
Proof.
  intros [Hs Hc _]. unfold render. rewrite framing_text by done. by rewrite framing_lines_ok.
Qed.

(** * The request line *)

Lemma cstr_app_zero a b : cstr (a ++ 0 :: b) = cstr a.
Proof. induction a as [|c a IH]; simpl; [done|]. destruct (c =? 0); [done|]. by rewrite IH. Qed.

Lemma cstr_nul_free a : Forall (fun c => c <> 0) a -> cstr a = a.
Proof.
  induction 1 as [|c a Hc _ IH]; [done|]. simpl.
  rewrite (proj2 (Z.eqb_neq c 0)) by done. by rewrite IH.
Qed.

Lemma line_nul_free start x : Forall (line_char start) x -> Forall (fun c => c <> 0) x.
Proof.
  intros H. eapply Forall_impl; [exact H|]. intros c Hc. by apply line_char_plain in Hc as (_ & _ & ?).
Qed.

Lemma insert_at (a b : bytes) (x y : Z) : <[length a := y]> (a ++ x :: b) = a ++ y :: b.
Proof. rewrite <-(Nat.add_0_r (length a)), insert_app_r. done. Qed.

Lemma drop_past (a b : bytes) (x : Z) : drop (S (length a)) (a ++ x :: b) = b.
Proof. by rewrite drop_app_ge, Nat.sub_succ_l, Nat.sub_diag by lia. Qed.

Definition version_line : bytes := str "HTTP/1.1".

Lemma index_of_skip c a b :
  c ∉ a -> index_of c (a ++ b) = Nat.add (length a) <$> index_of c b.
Proof.
  induction a as [|x a IH]; simpl; intros H; [by destruct (index_of c b)|].
  apply not_elem_of_cons in H as [Hx Ha]. rewrite (proj2 (Z.eqb_neq x c)) by congruence.
  rewrite IH by done. by destruct (index_of c b).
Qed.

(** A space of the rest of the header, which ends with a line feed. *)
Lemma index_of_before_end s k :
  index_of c_space (s ++ [c_lf]) = Some k ->
  exists s1 s2, s = s1 ++ c_space :: s2 /\ k = length s1.
Proof.
  intros E. pose proof (index_of_Some _ _ _ E) as (Es & _ & Hk).
  rewrite length_app in Hk. simpl in Hk. destruct (decide (k = length s)) as [->|Hne].
  - rewrite drop_past, take_app_length in Es. apply (inj (app s)) in Es. done.
  - exists (take k s), (drop (S k) s). rewrite take_app_le, drop_app_le in Es by lia.
    rewrite app_comm_cons, app_assoc in Es. apply app_inj_tail in Es as [Es _].
    rewrite length_take. split; [done|lia].
Qed.

(** A text that runs to the end of the header is not the version. *)
Lemma overrun_is_no_version s : Forall (fun c => c <> 0) s -> beq (cstr (s ++ [c_lf])) version_line = false.
Proof.
  intros Hs. destruct (beq _ _) eqn:E; [|done]. apply beq_spec in E.
  rewrite cstr_nul_free in E by (apply Forall_app; split; [done|by constructor]).
  change version_line with (str "HTTP/1." ++ [49]) in E. by apply app_inj_tail in E as [_ E].
Qed.

(** What the writes at the two spaces leave, wherever these are. *)
Lemma split_request_line_at header first_end a b rest :
  <[first_end := 0]> header = a ++ c_space :: b ++ c_space :: rest ->
  c_space ∉ a -> c_space ∉ b ->
  split_request_line header first_end =
  if has_char c_space (cstr rest) || negb (beq (cstr rest) version_line) then None
  else Some (cstr a, cstr b, a ++ 0 :: b ++ 0 :: rest).
Proof.
  intros E Ha Hb. unfold split_request_line. rewrite E, index_of_app by done.
  rewrite insert_at, drop_past, index_of_app by done.
  assert (El : (S (length a) + length b)%nat = length (a ++ 0 :: b)) by (rewrite length_app; simpl; lia).
  assert (Ei : <[length (a ++ 0 :: b) := 0]> (a ++ 0 :: b ++ c_space :: rest) = a ++ 0 :: b ++ 0 :: rest).
  { change (0 :: b ++ ?x) with ((0 :: b) ++ x). by rewrite app_assoc, insert_at, <-app_assoc. }
  assert (Ed : drop (S (length (a ++ 0 :: b))) (a ++ 0 :: b ++ 0 :: rest) = rest).
  { change (0 :: b ++ ?x) with ((0 :: b) ++ x). by rewrite app_assoc, drop_past. }
  rewrite El, Ei, Ed, drop_past, !cstr_app_zero. done.
Qed.

Lemma split_request_line_one header first_end a rest :
  <[first_end := 0]> header = a ++ c_space :: rest -> c_space ∉ a ->
  index_of c_space rest = None -> split_request_line header first_end = None.
Proof.
  intros E Ha Hr. unfold split_request_line. by rewrite E, index_of_app, insert_at, drop_past, Hr.
Qed.

(** When the second space is beyond the first line, what follows it is not the
    version. *)
Lemma split_request_line_beyond header first_end a t s :
  <[first_end := 0]> header = a ++ c_space :: t ++ s ++ [c_lf] ->
  c_space ∉ a -> c_space ∉ t -> (forall s1 s2, s = s1 ++ c_space :: s2 -> Forall (fun c => c <> 0) s2) ->
  split_request_line header first_end = None.
Proof.
  intros E Ha Ht Hs. destruct (index_of c_space (s ++ [c_lf])) as [k|] eqn:Ek.
  - pose proof (index_of_Some _ _ _ Ek) as (_ & Hf & _).
    apply index_of_before_end in Ek as (s1 & s2 & -> & ->).
    rewrite take_app_le, take_app_length in Hf by (rewrite length_app; lia).
    rewrite (split_request_line_at _ _ a (t ++ s1) (s2 ++ [c_lf])); [|by rewrite E, <-!app_assoc|done|set_solver].
    rewrite overrun_is_no_version, orb_true_r by eauto. done.
  - eapply split_request_line_one; [done..|]. by rewrite index_of_skip, Ek.
Qed.

Lemma split_request_line_words l rest :
  Forall (line_char true) l -> Forall (fun c => c <> 0) rest ->
  split_request_line (l ++ crlf ++ rest ++ [c_lf]) (length l) =
  match split_on c_space l with
  | [method; target; version] =>
      if beq version version_line
      then Some (method, target, method ++ 0 :: target ++ 0 :: version ++ 0 :: c_lf :: rest ++ [c_lf])
      else None
  | _ => None
  end.
Proof.
  intros Hl Hr. pose proof (line_nul_free _ _ Hl) as Hn.
  assert (E : <[length l := 0]> (l ++ crlf ++ rest ++ [c_lf]) = l ++ (0 :: c_lf :: rest) ++ [c_lf])
    by apply insert_at.
  revert E. generalize (l ++ crlf ++ rest ++ [c_lf]) as header, (length l) as first_end. intros header first_end E.
  assert (Hfree : forall s1 s2, 0 :: c_lf :: rest = s1 ++ c_space :: s2 -> Forall (fun c => c <> 0) s2).
  { intros [|x [|y s1]] s2 [=]; simplify_eq/=. by apply Forall_app in Hr as [_ [_ ?]%Forall_cons]. }
  destruct (index_of c_space l) as [i|] eqn:Ei.
  - apply index_of_Some in Ei as (El & Hi & _).
    set (method := take i l) in *. set (t := drop (S i) l) in *. clearbody method t. subst l.
    apply Forall_app in Hn as [Hnm [_ Hnt]%Forall_cons].
    rewrite <-app_assoc, <-app_comm_cons in E. rewrite split_on_app by done.
    destruct (index_of c_space t) as [j|] eqn:Ej.
    + apply index_of_Some in Ej as (Et & Hj & _).
      set (target := take j t) in *. set (v := drop (S j) t) in *. clearbody target v. subst t.
      apply Forall_app in Hnt as [Hng [_ Hnv]%Forall_cons].
      rewrite <-app_assoc, <-!app_comm_cons in E.
      rewrite (split_request_line_at _ _ _ _ _ E), split_on_app, !cstr_app_zero, !cstr_nul_free by done.
      destruct (beq v version_line) eqn:Ev.
      * apply beq_spec in Ev as ->. done.
      * rewrite orb_true_r. destruct (split_on c_space v) as [|v' [|]] eqn:Es; try done.
        assert (v' = v) as -> by (by rewrite <-(join_split_on c_space v), Es). by rewrite Ev.
    + apply index_of_None in Ej. rewrite (split_on_free c_space t t) by done.
      by eapply split_request_line_beyond.
  - apply index_of_None in Ei. rewrite (split_on_free c_space l l) by done.
    destruct (index_of c_space (rest ++ [c_lf])) as [k|] eqn:Ek.
    + pose proof (index_of_Some _ _ _ Ek) as (_ & Hf & _).
      apply index_of_before_end in Ek as (s1 & s2 & -> & ->).
      rewrite take_app_le, take_app_length in Hf by (rewrite length_app; lia).
      eapply (split_request_line_beyond _ _ (l ++ 0 :: c_lf :: s1) [] s2).
      * rewrite E. simpl. by rewrite <-!app_assoc.
      * set_solver.
      * set_solver.
      * intros s3 s4 ->. apply (Hfree (0 :: c_lf :: s1 ++ c_space :: s3) s4). simpl. by rewrite <-app_assoc.
    + unfold split_request_line. rewrite E, index_of_skip by done. simpl. by rewrite Ek.
Qed.

(** * The fields *)

Notation field := (bytes * bytes)%type.

(** A line as a field: a token, a colon and the trimmed value. *)
Definition split_field (line : bytes) : option field :=
  match index_of c_colon line with
  | None | Some O => None
  | Some colon =>
      if forallb token_char (take colon line)
      then Some (take colon line, trim (drop (S colon) line)) else None
  end.

Inductive field_kind := FAuthorization | FHost | FHop | FTransfer | FLength | FOther.

Definition same_kind (a b : field_kind) : bool :=
  match a, b with
  | FAuthorization, FAuthorization | FHost, FHost | FHop, FHop
  | FTransfer, FTransfer | FLength, FLength | FOther, FOther => true
  | _, _ => false
  end.

Definition kind_of (f : field) : field_kind :=
  if strcaseeq f.1 (str "Proxy-Authorization") then FAuthorization
  else if strcaseeq f.1 (str "Host") then FHost
  else if strcaseeq f.1 (str "Proxy-Connection") || strcaseeq f.1 (str "Connection") ||
          strcaseeq f.1 (str "Keep-Alive") then FHop
  else if strcaseeq f.1 (str "Transfer-Encoding") then FTransfer
  else if strcaseeq f.1 (str "Content-Length") then FLength
  else FOther.

(** The values of the fields of a kind, in order. *)
Definition values (k : field_kind) (fs : list field) : list bytes :=
  map snd (List.filter (fun f => same_kind (kind_of f) k) fs).

Definition decimal_text (v : bytes) : Prop := v <> [] /\ Forall (fun c => is_digit c = true) v.

(** The fields a forward request keeps, and a field as a line. *)
Definition kept (f : field) : bool :=
  match kind_of f with FHost | FLength | FOther => true | _ => false end.

Definition field_line (f : field) : bytes := f.1 ++ str ": " ++ f.2.

Lemma append_field_total capacity output name value :
  append_field capacity output name value =
  if capacity <? len output + len (field_line (name, value) ++ crlf) then None
  else Some (output ++ field_line (name, value) ++ crlf).
Proof.
  unfold append_field, append_bytes, field_line. cbn [fst snd].
  pose proof (len_nonneg output). pose proof (len_nonneg name). pose proof (len_nonneg value).
  assert (len crlf = 2) by done. assert (len (str ": ") = 2) by done.
  repeat (match goal with |- context [capacity <? ?x] => destruct (Z.ltb_spec capacity x) end;
          cbn [mbind option_bind]; rewrite ?len_app in *; try done; try lia).
  by rewrite <-!app_assoc.
Qed.

Lemma render_lines_nul_free ls :
  Forall (Forall (line_char false)) ls -> Forall (fun c => c <> 0) (render_lines ls).
Proof.
  induction 1 as [|l ls Hl _ IH]; [constructor|]. rewrite render_lines_cons, !Forall_app.
  split_and!; [by eapply line_nul_free|by repeat constructor|done].
Qed.

Section Fields.
Context `{Inet} (config : maelys_egress_config) (endpoint_bound connect_method : bool) (capacity : Z).
Set Default Proof Using "Type".

#[local] Notation read_field s f := (http_field config endpoint_bound connect_method capacity s f.1 f.2).
#[local] Notation loop := (http_fields config endpoint_bound connect_method capacity).

(** The loop as a fold over lines. *)
Fixpoint read_lines (ls : list bytes) (s : fields_state) : option fields_state :=
  match ls with
  | [] => Some s
  | l :: ls => f ← split_field l; s ← read_field s f; read_lines ls s
  end.

Lemma loop_reads_lines ls fuel s :
  Forall (Forall (line_char false)) ls -> Forall (fun l => l <> []) ls -> (length ls < fuel)%nat ->
  loop fuel (render_lines ls ++ crlf) s = read_lines ls s.
Proof.
  intros Hc. revert fuel s. induction Hc as [|l ls Hl Hc IH]; intros fuel s Hn Hf.
  { destruct fuel; [lia|done]. }
  apply Forall_cons in Hn as [Hne Hn]. destruct fuel as [|fuel]; simpl in Hf; [lia|].
  rewrite render_lines_cons, <-!app_assoc. cbn [http_fields read_lines].
  assert (Hnul : Forall (fun c => c <> 0) (l ++ crlf ++ render_lines ls ++ crlf)).
  { assert (Forall (fun c => c <> 0) crlf) by (by repeat constructor).
    rewrite !Forall_app. split_and!; try done; [by eapply line_nul_free|by apply render_lines_nul_free]. }
  rewrite cstr_nul_free, (find_crlf_text false) by done.
  rewrite (proj2 (Z.eqb_neq _ 0)) by (rewrite len_app; pose proof (len_nonneg l); 
     pose proof (len_nonneg (render_lines ls ++ crlf)); rewrite len_app; change (len crlf) with 2; lia).
  destruct (length l) as [|n] eqn:El; [by destruct l|]. rewrite <-El, take_app_length.
  unfold split_field. destruct (index_of c_colon l) as [[|colon]|]; [done| |done].
  destruct (forallb token_char (take (S colon) l)); [|done]. cbn [negb mbind option_bind fst snd].
  destruct (http_field _ _ _ _ _ _ _) as [s'|]; [|done]. cbn [mbind option_bind].
  replace (drop (length l + 2) (l ++ crlf ++ render_lines ls ++ crlf)) with (render_lines ls ++ crlf).
  - apply IH; [done|lia].
  - rewrite drop_app_ge by lia. by replace (length l + 2 - length l)%nat with 2%nat by lia.
Qed.

Fixpoint read_all (fs : list field) (s : fields_state) : option fields_state :=
  match fs with
  | [] => Some s
  | f :: fs => s ← read_field s f; read_all fs s
  end.

Lemma read_lines_all ls s : read_lines ls s = (mapM split_field ls ≫= fun fs => read_all fs s).
Proof.
  revert s. induction ls as [|l ls IH]; intros s; [done|]. simpl.
  destruct (split_field l) as [f|]; [|done]. simpl.
  destruct (http_field _ _ _ _ _ _ _) as [s'|] eqn:E; simpl.
  - rewrite IH. destruct (mapM split_field ls); simpl; [by rewrite E|done].
  - destruct (mapM split_field ls); simpl; [by rewrite E|done].
Qed.

(** The effect of a field by its kind. *)
Definition default_port : Z := if connect_method then 443 else 80.

Lemma read_field_kind s f :
  read_field s f =
  match kind_of f with
  | FAuthorization =>
      let s := s <| auth_headers := auth_headers s + 1 |> in
      if endpoint_bound then Some s
      else let r := auth_header_matches config f.2 (found_identity s) in
           Some (s <| authenticated := r.1 |> <| found_identity := r.2 |>)
  | FHost =>
      r ← parse_authority f.2 default_port;
      forward_field connect_method capacity
        (s <| host_headers := host_headers s + 1 |> <| header_host := r.1 |> <| header_port := r.2 |>)
        f.1 f.2
  | FHop => Some s
  | FTransfer => None
  | FLength =>
      let s := s <| content_length_headers := content_length_headers s + 1 |> in
      if (1 <? content_length_headers s) || (len f.2 =? 0) || negb (forallb is_digit f.2) then None
      else forward_field connect_method capacity s f.1 f.2
  | FOther => forward_field connect_method capacity s f.1 f.2
  end.
Proof.
  unfold http_field, kind_of.
  destruct (strcaseeq f.1 (str "Proxy-Authorization")).
  { destruct endpoint_bound; [done|]. cbn [negb]. by destruct (auth_header_matches _ _ _). }
  destruct (strcaseeq f.1 (str "Host")).
  { fold default_port. by destruct (parse_authority f.2 default_port) as [[h p]|]. }
  destruct (_ || _ || strcaseeq f.1 (str "Keep-Alive")); [done|].
  destruct (strcaseeq f.1 (str "Transfer-Encoding")); [done|].
  destruct (strcaseeq f.1 (str "Content-Length")); [|done]. cbn zeta.
  destruct (_ || (len f.2 =? 0)); [done|]. cbn [orb]. by destruct (negb _).
Qed.

(** The state behind the fields that all pass. *)
Definition authorize (r : bool * identity) (v : bytes) : bool * identity :=
  if endpoint_bound then r else auth_header_matches config v r.2.

Definition host_of (r : bytes * Z) (v : bytes) : bytes * Z :=
  default r (parse_authority v default_port).

Definition forwarded (fs : list field) : bytes :=
  if connect_method then [] else concat (map (fun f => field_line f ++ crlf) (List.filter kept fs)).

Definition after (s : fields_state) (fs : list field) : fields_state :=
  let auth := fold_left authorize (values FAuthorization fs) (authenticated s, found_identity s) in
  let host := fold_left host_of (values FHost fs) (header_host s, header_port s) in
  Fields auth.1 (auth_headers s + len (values FAuthorization fs))
    (host_headers s + len (values FHost fs))
    (content_length_headers s + len (values FLength fs))
    host.1 host.2 (rewritten s ++ forwarded fs) auth.2.

Record fields_pass (s : fields_state) (fs : list field) : Prop := {
  pass_transfer : values FTransfer fs = [];
  pass_length : values FLength fs = [] \/ content_length_headers s + len (values FLength fs) <= 1;
  pass_decimal : Forall decimal_text (values FLength fs);
  pass_host : Forall (fun v => is_Some (parse_authority v default_port)) (values FHost fs);
  pass_room : len (rewritten s ++ forwarded fs) <= capacity;
}.

Lemma values_cons k f fs :
  values k (f :: fs) = (if same_kind (kind_of f) k then [f.2] else []) ++ values k fs.
Proof. unfold values. simpl. by destruct (same_kind _ _). Qed.

Lemma forwarded_cons f fs :
  forwarded (f :: fs) =
  (if negb connect_method && kept f then field_line f ++ crlf else []) ++ forwarded fs.
Proof.
  unfold forwarded. destruct connect_method; [done|]. simpl. destruct (kept f); [|done].
  by rewrite map_cons, concat_cons.
Qed.

Lemma forward_field_room s f :
  len (rewritten s) <= capacity ->
  forward_field connect_method capacity s f.1 f.2 =
  let output := rewritten s ++ (if negb connect_method then field_line f ++ crlf else []) in
  if len output <=? capacity then Some (s <| rewritten := output |>) else None.
Proof.
  intros Hs. unfold forward_field. destruct connect_method; cbn [negb].
  - cbn zeta. rewrite app_nil_r, (proj2 (Z.leb_le _ _)) by done. by destruct s.
  - rewrite append_field_total. destruct f as [n v]. cbn [fst snd]. cbn zeta. rewrite <-len_app.
    destruct (Z.ltb_spec capacity (len (rewritten s ++ field_line (n, v) ++ crlf))),
      (Z.leb_spec (len (rewritten s ++ field_line (n, v) ++ crlf)) capacity); try lia; done.
Qed.

Lemma decimal_text_spec v :
  (len v =? 0) || negb (forallb is_digit v) = false <-> decimal_text v.
Proof.
  unfold decimal_text. rewrite orb_false_iff, negb_false_iff, forallb_Forall, Z.eqb_neq.
  destruct v; [split; intros [? _]; done|]. rewrite len_cons. pose proof (len_nonneg v).
  split; intros [? ?]; split; done || lia.
Qed.

(** The parts of [fields_pass] and of [after] that a field takes. *)
Ltac by_kind K :=
  repeat match goal with H : fields_pass _ _ |- _ => destruct H end;
  repeat match goal with |- fields_pass _ _ => constructor end;
  unfold after in *; rewrite ?values_cons, ?K in *;
  cbn [same_kind app rewritten content_length_headers host_headers
       auth_headers header_host header_port authenticated found_identity update fold_left] in *;
  rewrite ?len_cons, ?Forall_cons in *.

Lemma forward_field_step s f fs :
  len (rewritten s) <= capacity -> kept f = true ->
  match forward_field connect_method capacity s f.1 f.2 with
  | Some s1 =>
      len (rewritten s1) <= capacity /\ rewritten s1 ++ forwarded fs = rewritten s ++ forwarded (f :: fs) /\
      s1 = s <| rewritten := rewritten s1 |>
  | None => capacity < len (rewritten s ++ forwarded (f :: fs))
  end.
Proof.
  intros Hs Hk. rewrite forward_field_room by done. cbn zeta. rewrite forwarded_cons, Hk, andb_true_r.
  rewrite app_assoc. destruct (Z.leb_spec (len (rewritten s ++ if negb connect_method then field_line f ++ crlf else [])) capacity).
  - done.
  - rewrite len_app. pose proof (len_nonneg (forwarded fs)). lia.
Qed.

(** One field, kind by kind. *)
Lemma read_field_step s f fs :
  len (rewritten s) <= capacity ->
  match read_field s f with
  | Some s1 =>
      len (rewritten s1) <= capacity /\
      (fields_pass s (f :: fs) <-> fields_pass s1 fs) /\ after s (f :: fs) = after s1 fs
  | None => ~ fields_pass s (f :: fs)
  end.
Proof.
  intros Hs. rewrite read_field_kind.
  destruct (kind_of f) eqn:K.
  - assert (A : forall r, authorize r f.2 = if endpoint_bound then r else auth_header_matches config f.2 r.2) by done.
    assert (F : forwarded (f :: fs) = forwarded fs)
      by (rewrite forwarded_cons; unfold kept; by rewrite K, andb_false_r).
    destruct endpoint_bound; cbn zeta; (split; [done|split; [split; intros P|]]); by_kind K; rewrite ?F in *;
      try done; rewrite A; cbn [snd]; rewrite <-?surjective_pairing; f_equal; lia.
  - destruct (parse_authority f.2 default_port) as [[h p]|] eqn:E; cbn [mbind option_bind fst snd].
    2: { intros P. by_kind K. destruct pass_host0 as [[? ?] _]. congruence. }
    match goal with |- context [forward_field _ _ ?s0 _ _] => pose proof (forward_field_step s0 f fs Hs) as F end.
    specialize (F ltac:(unfold kept; by rewrite K)). destruct (forward_field _ _ _ _ _) as [s1|].
    + destruct F as (F1 & F2 & ->). cbn [rewritten update] in F1, F2. split; [done|].
      assert (Eh : forall r, host_of r f.2 = (h, p)) by (intros; unfold host_of; by rewrite E).
      split; [split; intros P|]; by_kind K; rewrite ?F2 in *; try done; try tauto.
      rewrite Eh. f_equal; lia.
    + intros P. by_kind K. cbn [rewritten update] in *. lia.
  - split; [done|]. assert (F : forwarded (f :: fs) = forwarded fs)
      by (rewrite forwarded_cons; unfold kept; by rewrite K, andb_false_r).
    split; [split; intros P|]; by_kind K; by rewrite ?F in *.
  - intros P. by_kind K. done.
  - cbn zeta. cbn [content_length_headers update].
    destruct ((1 <? content_length_headers s + 1) || (len f.2 =? 0) || negb (forallb is_digit f.2)) eqn:E.
    + intros P. by_kind K. destruct pass_decimal0 as [Hd%decimal_text_spec _]. 
      rewrite <-orb_assoc, Hd, orb_false_r in E. pose proof (len_nonneg (values FLength fs)).
      destruct pass_length0; [done|lia].
    + rewrite <-orb_assoc in E. apply orb_false_iff in E as [E Hd%decimal_text_spec].
      match goal with |- context [forward_field _ _ ?s0 _ _] => pose proof (forward_field_step s0 f fs Hs) as F end.
      specialize (F ltac:(unfold kept; by rewrite K)). destruct (forward_field _ _ _ _ _) as [s1|].
      * destruct F as (F1 & F2 & ->). cbn [rewritten update] in F1, F2. split; [done|].
        split; [split; intros P|]; by_kind K; rewrite ?F2 in *; try done; try tauto.
        -- right. destruct pass_length0; [done|lia].
        -- right. destruct pass_length0 as [->|]; [rewrite len_nil|]; lia.
        -- f_equal; lia.
      * intros P. by_kind K. cbn [rewritten update] in *. lia.
  - pose proof (forward_field_step s f fs Hs) as F.
    specialize (F ltac:(unfold kept; by rewrite K)). destruct (forward_field _ _ _ _ _) as [s1|].
    + destruct F as (F1 & F2 & ->). cbn [rewritten update] in F1, F2. split; [done|].
      split; [split; intros P|]; by_kind K; by rewrite ?F2 in *.
    + intros P. by_kind K. cbn [rewritten update] in *. lia.
Qed.

Lemma read_all_spec fs s s' :
  len (rewritten s) <= capacity ->
  read_all fs s = Some s' <-> fields_pass s fs /\ s' = after s fs.
Proof.
  revert s. induction fs as [|f fs IH]; intros s Hs.
  - cbn [read_all]. assert (after s [] = s) as ->.
    { unfold after, forwarded. simpl. rewrite !Z.add_0_r. destruct s. by destruct connect_method; rewrite app_nil_r. }
    split; [intros [= ->]|intros [_ ->]; done]. split; [|done]. constructor; simpl; try done; [by left|].
    unfold forwarded. destruct connect_method; by rewrite app_nil_r.
  - cbn [read_all]. pose proof (read_field_step s f fs Hs) as F.
    destruct (http_field _ _ _ _ _ _ _) as [s1|]; cbn [mbind option_bind].
    + destruct F as (F1 & F2 & F3). by rewrite IH, F2, F3.
    + split; [done|]. by intros [? _].
Qed.

End Fields.

(** * The interpretation of a message *)

Section Interpretation.
Context `{Inet} (config : maelys_egress_config).
Set Default Proof Using "Type".

Definition start_of (line : bytes) : option request_line :=
  match split_on c_space line with
  | [method; target; version] =>
      if beq version version_line then request_target method target else None
  | _ => None
  end.

Definition interpret (m : message) : parse_result :=
  let '(endpoint_bound, found) := lookup_identity (egress_unix_principal_lookup config) in
  match start_of (start_line m) with
  | None => Protocol
  | Some l =>
      let connect_method := connect_line l in
      let prefix := if connect_method then [] else forward_line l in
      let capacity := len (render m) + 64 in
      if negb connect_method && (capacity <=? len prefix) then Protocol
      else match mapM split_field (field_lines m) ≫= fun fs =>
                   read_all config endpoint_bound connect_method capacity fs
                     (initial_fields prefix found) with
           | None => Protocol
           | Some s => http_conclude config endpoint_bound l (len (render m)) s
           end
  end.

(** The first line once its words are separated, and its terminator. *)
Definition start_separated (method target version : bytes) : bytes :=
  method ++ 0 :: target ++ 0 :: version.

Definition crlf_nul : bytes := [0; c_lf].

Lemma start_separated_length line method target version :
  split_on c_space line = [method; target; version] ->
  length (start_separated method target version) = length line.
Proof.
  intros E. rewrite <-(join_split_on c_space line), E. unfold start_separated. simpl.
  rewrite !length_app. simpl. by rewrite !length_app.
Qed.

Lemma render_lines_length ls : (length ls <= length (render_lines ls))%nat.
Proof. induction ls as [|l ls IH]; [done|]. rewrite render_lines_cons, !length_app. simpl. lia. Qed.

(** The parser on the rendering of a message, whatever follows it. *)
Lemma parse_render m rest :
  message_ok m -> egress_parse_http_request true true config (render m ++ rest) = interpret m.
Proof.
  intros Hm. pose proof Hm as [Hs Hc Hn]. unfold egress_parse_http_request, interpret.
  destruct (lookup_identity _) as [endpoint_bound found].
  change (crlf ++ crlf) with blank_line. rewrite find_blank_render by done.
  assert (Hlen : (4 <= length (render m))%nat) by (unfold render; rewrite !length_app; simpl; lia).
  assert (El : Z.of_nat (length (render m) - 4) + 4 = len (render m)) by (unfold len; lia).
  assert (Et : ztake (len (render m)) (render m ++ rest) = render m)
    by (unfold ztake, len; by rewrite Nat2Z.id, take_app_length).
  rewrite El. cbn zeta. rewrite Et.
  rewrite framing_render by done. cbn [negb].
  assert (Er : render_lines (field_lines m) ++ crlf = (render_lines (field_lines m) ++ [c_cr]) ++ [c_lf])
    by (by rewrite <-app_assoc).
  assert (Hnul : Forall (fun c => c <> 0) (render_lines (field_lines m) ++ [c_cr])).
  { apply Forall_app. split; [by apply render_lines_nul_free|by constructor]. }
  assert (Ef : find_sub crlf (render m) = Some (length (start_line m)))
    by (unfold render; by rewrite (find_crlf_text true)).
  assert (Ew : split_request_line (render m) (length (start_line m)) = _)
    by (unfold render; rewrite Er; by apply split_request_line_words).
  rewrite Ef, Ew.
  unfold start_of. destruct (split_on c_space (start_line m)) as [|method [|target [|version []]]] eqn:Esp; try done.
  destruct (beq version version_line) eqn:Ev; [|done].
  destruct (request_target method target) as [l|]; [|done].
  rewrite andb_false_r. destruct (negb (connect_line l) && _); [done|].
  rewrite <-Er. set (header := method ++ _).
  assert (Eh : header = (start_separated method target version ++ crlf_nul) ++ render_lines (field_lines m) ++ crlf).
  { unfold header, start_separated, crlf_nul. rewrite <-!app_assoc. simpl. by rewrite <-!app_assoc. }
  assert (Ed : drop (length (start_line m) + 2) header = render_lines (field_lines m) ++ crlf).
  { rewrite Eh. apply drop_app_length'. rewrite length_app, (start_separated_length _ _ _ _ Esp). simpl. lia. }
  rewrite Ed, loop_reads_lines, read_lines_all; [done..|].
  rewrite Eh, !length_app. pose proof (render_lines_length (field_lines m)). simpl. lia.
Qed.

(** ** Acceptance *)

(** What a forward request sends upstream. *)
Definition upstream_head (l : request_line) (fs : list field) : bytes :=
  if connect_line l then []
  else forward_line l ++ forwarded false fs ++ str "Connection: close" ++ crlf ++ crlf.

(** Who asks, from the values of the Proxy-Authorization fields. *)
Definition identified (auths : list bytes) (who : identity) : Prop :=
  match egress_unix_principal_lookup config with
  | Some (invocation, index) => auths = [] /\ who = (invocation, Some index)
  | None =>
      if authentication_set config
      then exists v, auths = [v] /\ auth_header_matches config v no_identity = (true, who)
      else unauthenticated_loopback config = true /\ len auths <= 1 /\ who = no_identity
  end.

Record accepted (m : message) (l : request_line) (fs : list field) (r : egress_proxy_request_t) : Prop := {
  accepted_line : start_of (start_line m) = Some l;
  accepted_fields : mapM split_field (field_lines m) = Some fs;
  accepted_transfer : values FTransfer fs = [];
  accepted_length : len (values FLength fs) <= 1;
  accepted_decimal : Forall decimal_text (values FLength fs);
  accepted_host : exists v, values FHost fs = [v] /\
    parse_authority v (default_port (connect_line l)) = Some (line_host l, line_port l);
  accepted_identity : identified (values FAuthorization fs) (request_identity r);
  accepted_room : len (upstream_head l fs) <= len (render m) + 64;
  accepted_request : r = Request (line_protocol l) (line_host l) (line_port l) (len (render m))
                           (upstream_head l fs) (request_identity r);
}.

Definition auth_outcome (endpoint_bound : bool) (s : fields_state) : bool :=
  (endpoint_bound && negb (auth_headers s =? 0)) || (1 <? auth_headers s) ||
  (negb endpoint_bound && authentication_set config &&
   (negb (auth_headers s =? 1) || negb (authenticated s))) ||
  (negb endpoint_bound && negb (authentication_set config) && negb (unauthenticated_loopback config)).

(** The identity check of [http_conclude] behind the fields. *)
Lemma auth_outcome_identified endpoint_bound found connect_method prefix fs who :
  lookup_identity (egress_unix_principal_lookup config) = (endpoint_bound, found) ->
  let s := after config endpoint_bound connect_method (initial_fields prefix found) fs in
  (auth_outcome endpoint_bound s = false /\ who = found_identity s) <->
  identified (values FAuthorization fs) who.
Proof.
  intros El s. unfold identified, auth_outcome, s, after. cbn [auth_headers authenticated found_identity].
  cbn [initial_fields auth_headers]. rewrite Z.add_0_l.
  destruct (egress_unix_principal_lookup config) as [[inv idx]|]; simpl in El; simplify_eq.
  - destruct (values FAuthorization fs) as [|v vs] eqn:Ev.
    + simpl. intuition done.
    + pose proof (len_nonneg vs). rewrite len_cons, (proj2 (Z.eqb_neq _ 0)) by lia. simpl.
      split; by intros [? _].
  - destruct (values FAuthorization fs) as [|v [|v' vs]] eqn:Ev; cbn [fold_left authorize].
    + simpl. destruct (authentication_set config), (unauthenticated_loopback config); simpl;
        [split; [by intros [? _]|by intros (? & ? & _)]..|intuition done|split; [by intros [? _]|by intros [? _]]].
    + change (len [v]) with 1. simpl.
      destruct (authentication_set config) eqn:Ea.
      * destruct (auth_header_matches config v no_identity) as [ok who'] eqn:Em. simpl. split.
        -- intros [E ->]. exists v. split; [done|]. rewrite orb_false_r in E. by destruct ok.
        -- intros (v' & [= <-] & E). rewrite Em in E. simplify_eq. done.
      * unfold auth_header_matches. rewrite Ea. simpl.
        destruct (unauthenticated_loopback config); simpl; split; try tauto.
        -- intros [_ ->]. split_and!; [done|lia|done].
        -- by intros [? _].
        -- by intros [? _].
    + pose proof (len_nonneg vs). rewrite !len_cons, (proj2 (Z.ltb_lt 1 _)) by lia. simpl.
      split; [by intros [? _]|]. destruct (authentication_set config).
      * by intros (? & ? & _).
      * intros (_ & ? & _). lia.
Qed.

Lemma http_conclude_complete endpoint_bound l n s r :
  http_conclude config endpoint_bound l n s = Complete r <->
  auth_outcome endpoint_bound s = false /\
  (host_headers s = 1 /\ header_host s = line_host l /\ header_port s = line_port l) /\
  (let output := if connect_line l then [] else rewritten s ++ str "Connection: close" ++ crlf ++ crlf in
   (connect_line l = true \/ len output <= n + 64) /\
   r = Request (line_protocol l) (line_host l) (line_port l) n output (found_identity s)).
Proof.
  unfold http_conclude, auth_outcome. destruct (_ || _ || _) eqn:E1; cbn [orb]; [split; [done|by intros [? _]]|].
  destruct (_ && negb (authentication_set config) && _) eqn:E2; [split; [done|by intros [? _]]|]. clear E1.
  destruct (_ || _ || _) eqn:E3.
  { split; [done|]. intros (_ & (H1 & H2 & H3) & _).
    rewrite H1, H2, H3, beq_refl, !Z.eqb_refl in E3. done. }
  apply orb_false_iff in E3 as [E3 H3%negb_false_iff%Z.eqb_eq].
  apply orb_false_iff in E3 as [H1%negb_false_iff%Z.eqb_eq H2%negb_false_iff%beq_spec].
  destruct (connect_line l); cbn zeta.
  { split; [intros [= <-]; split_and!; auto|by intros (_ & _ & _ & ->)]. }
  unfold append_bytes. set (close := str "Connection: close" ++ crlf ++ crlf). rewrite <-len_app.
  destruct (Z.ltb_spec (n + 64) (len (rewritten s ++ close))).
  - split; [done|]. intros (_ & _ & [?|?] & _); [done|lia].
  - split; [intros [= <-]; split_and!; auto|by intros (_ & _ & _ & ->)].
Qed.

Lemma values_host_one connect_method vs h p :
  Forall (fun v => is_Some (parse_authority v (default_port connect_method))) vs ->
  len vs = 1 ->
  fold_left (host_of connect_method) vs ([], 0) = (h, p) <->
  exists v, vs = [v] /\ parse_authority v (default_port connect_method) = Some (h, p).
Proof.
  intros Hv Hl. destruct vs as [|v [|v' vs]].
  - done.
  - apply Forall_cons in Hv as [[[h' p'] E] _]. simpl. unfold host_of. rewrite E. simpl.
    split; [intros [= -> ->]; eauto|]. intros (? & [= <-] & E'). congruence.
  - rewrite !len_cons in Hl. pose proof (len_nonneg vs). lia.
Qed.

(** What the request line and the fields leave to [http_conclude]. *)
Lemma upstream_head_rewritten endpoint_bound found l fs :
  let s := initial_fields (if connect_line l then [] else forward_line l) found in
  let s' := after config endpoint_bound (connect_line l) s fs in
  upstream_head l fs =
  if connect_line l then [] else rewritten s' ++ str "Connection: close" ++ crlf ++ crlf.
Proof. unfold upstream_head. simpl. destruct (connect_line l); [done|]. by rewrite <-app_assoc. Qed.

Lemma accepted_complete endpoint_bound found m l fs r :
  lookup_identity (egress_unix_principal_lookup config) = (endpoint_bound, found) ->
  start_of (start_line m) = Some l -> mapM split_field (field_lines m) = Some fs ->
  let s := initial_fields (if connect_line l then [] else forward_line l) found in
  accepted m l fs r <->
  fields_pass (connect_line l) (len (render m) + 64) s fs /\
  http_conclude config endpoint_bound l (len (render m))
    (after config endpoint_bound (connect_line l) s fs) = Complete r.
Proof.
  intros El Es Ef s. pose proof (upstream_head_rewritten endpoint_bound found l fs) as Hu.
  rewrite http_conclude_complete.
  pose proof (auth_outcome_identified endpoint_bound found (connect_line l)
    (if connect_line l then [] else forward_line l) fs (request_identity r) El) as Ha.
  cbn zeta in Hu, Ha |- *. fold s in Hu, Ha. set (s' := after _ _ _ s fs) in *. rewrite <-Hu.
  assert (Hm : 0 <= len (render m)) by apply len_nonneg.
  split.
  - intros [_ _ Ht Hl Hd (v & Ev & Hv) Hi Hroom Hreq]. apply Ha in Hi as [Hi Hw].
    assert (Hh : Forall (fun v => is_Some (parse_authority v (default_port (connect_line l)))) (values FHost fs))
      by (rewrite Ev; constructor; [by rewrite Hv|done]).
    split; [constructor; try done|].
    + by right.
    + unfold upstream_head in Hroom. unfold s, forwarded in *. destruct (connect_line l); simpl; [change (len []) with 0; lia|].
      revert Hroom. generalize (str "Connection: close" ++ crlf ++ crlf) as close. intros close Hroom.
      pose proof (len_nonneg close). rewrite !len_app in Hroom. rewrite len_app. lia.
    + split; [done|]. split; [|split; [by right|by rewrite <-Hw]].
      pose proof (values_host_one (connect_line l) (values FHost fs) (line_host l) (line_port l) Hh) as Hf.
      unfold s', after. cbn [host_headers header_host header_port]. unfold s. cbn [initial_fields host_headers header_host header_port].
      rewrite Ev in Hf |- *. rewrite (proj2 (Hf eq_refl)) by eauto. done.
  - intros [[Ht Hl Hd Hh Hroom] (Hi & (H1 & H2 & H3) & Hc & Hreq)].
    constructor; try done.
    + destruct Hl as [->|Hl]; [done|]. exact Hl.
    + unfold s', after in H1, H2, H3. cbn [host_headers header_host header_port] in *.
      apply (values_host_one (connect_line l) (values FHost fs) (line_host l) (line_port l)); [done|exact H1|].
      rewrite <-H2, <-H3. apply surjective_pairing.
    + apply Ha. split; [done|]. by rewrite Hreq.
    + destruct Hc as [Hc|Hc]; [|done]. unfold upstream_head. rewrite Hc. change (len []) with 0. lia.
    + by rewrite Hreq.
Qed.

Lemma interpret_accepts m r : interpret m = Complete r <-> exists l fs, accepted m l fs r.
Proof.
  unfold interpret. destruct (lookup_identity _) as [endpoint_bound found] eqn:El.
  destruct (start_of (start_line m)) as [l|] eqn:Es;
    [|split; [done|intros (l & fs & A); by rewrite (accepted_line _ _ _ _ A) in Es]].
  destruct (mapM split_field (field_lines m)) as [fs|] eqn:Ef; cbn [mbind option_bind].
  2: { split; [by destruct (_ && _)|]. intros (l' & fs & A). by rewrite (accepted_fields _ _ _ _ A) in Ef. }
  transitivity (accepted m l fs r).
  2: { split; [by eauto|]. intros (l' & fs' & A). pose proof (accepted_line _ _ _ _ A).
       pose proof (accepted_fields _ _ _ _ A). by simplify_eq. }
  rewrite (accepted_complete endpoint_bound found m l fs r) by done. cbn zeta.
  set (s := initial_fields _ found). assert (Hm : 0 <= len (render m)) by apply len_nonneg.
  destruct (negb (connect_line l) && _) eqn:Eg.
  - apply andb_true_iff in Eg as [Hc%negb_true_iff Hp%Z.leb_le]. split; [done|].
    intros [_ A%http_conclude_complete]. exfalso. destruct A as (_ & _ & [?|Hr] & _); [congruence|].
    rewrite Hc in Hr, Hp. unfold s in Hr. rewrite Hc in Hr. revert Hr.
    assert (Hcl : len (str "Connection: close" ++ crlf ++ crlf) = 21) by done. revert Hcl.
    generalize (str "Connection: close" ++ crlf ++ crlf) as close. intros close Hcl Hr.
    cbn [rewritten after initial_fields] in Hr. rewrite !len_app in Hr.
    pose proof (len_nonneg (forwarded false fs)). lia.
  - assert (Hp : len (rewritten s) <= len (render m) + 64).
    { unfold s. simpl. destruct (connect_line l); [change (len []) with 0; lia|]. simpl in Eg. lia. }
    pose proof (fun s' => read_all_spec config endpoint_bound (connect_line l) _ fs s s' Hp) as R.
    destruct (read_all _ _ _ _ fs s) as [s'|] eqn:E.
    + destruct (proj1 (R s') eq_refl) as [P ->]. tauto.
    + split; [done|]. intros [P _]. pose proof (proj2 (R _) (conj P eq_refl)); done.
Qed.

End Interpretation.
