(* ===== verification/HttpAcceptance.v ===== *)
(** The HTTP proxy parser: its theorems.

    Which requests it accepts and with which result, that a verdict does not
    change when more bytes arrive, what a forward request sends upstream, who
    is authenticated, and that the Basic credentials have one encoding. *)

From S2P Require Import Prelude Common Config Http HttpFacts.

(** * The parser by cases *)

Lemma prefixb_app_long p s t :
  (length p <= length s)%nat -> prefixb p (s ++ t) = prefixb p s.
Proof.
  revert s. induction p as [|x p IH]; intros [|y s] Hl; simpl in *; try done; [lia|].
  by rewrite IH by lia.
Qed.

Lemma find_sub_app needle b x e : find_sub needle b = Some e -> find_sub needle (b ++ x) = Some e.
Proof.
  revert e. induction b as [|c b IH]; intros e E.
  - simpl in E. destruct needle; simplify_eq. by destruct x.
  - pose proof (find_sub_Some _ _ _ E) as (_ & _ & Hl).
    pose proof (prefixb_app_long needle (c :: b) x) as Ep. simpl in E, Ep |- *. rewrite Ep by (simpl in Hl; lia).
    destruct (prefixb needle (c :: b)); [done|].
    destruct (find_sub needle b) as [k|]; simplify_eq/=. by rewrite (IH k).
Qed.

Section Parse.
Context `{Inet} (config : maelys_egress_config).
Set Default Proof Using "Type".

(** Either there is no terminator, or the bytes up to it are a message, or its
    framing is refused. *)
Lemma parse_cases b :
  (find_sub blank_line b = None /\
   egress_parse_http_request true true config b =
     if EGRESS_HANDSHAKE_MAX <=? len b then Protocol else Incomplete) \/
  (exists m rest, b = render m ++ rest /\ message_ok m /\
     egress_parse_http_request true true config b = interpret config m) \/
  (is_Some (find_sub blank_line b) /\
   (forall m rest, b = render m ++ rest -> ~ message_ok m) /\
   egress_parse_http_request true true config b = Protocol).
Proof.
  destruct (find_sub blank_line b) as [e|] eqn:Ef.
  - destruct (framing_ok None true (take (e + 4) b)) eqn:Ec.
    + destruct (header_message _ _ Ef Ec) as (m & Hm & Et). right. left. exists m, (drop (e + 4) b).
      assert (Eb : b = render m ++ drop (e + 4) b) by (by rewrite <-Et, take_drop).
      split_and!; [done|done|]. rewrite Eb at 1. by apply parse_render.
    + right. right. split_and!; [done| |].
      * intros m rest -> Hm. rewrite find_blank_render in Ef by done. simplify_eq.
        rewrite Nat.sub_add in Ec by (unfold render; rewrite !length_app; simpl; lia).
        by rewrite take_app_length, framing_render in Ec.
      * unfold egress_parse_http_request. destruct (lookup_identity _).
        change (crlf ++ crlf) with blank_line. rewrite Ef. cbn zeta. unfold ztake.
        replace (Z.to_nat (Z.of_nat e + 4)) with (e + 4)%nat by lia. by rewrite Ec.
  - left. split; [done|]. unfold egress_parse_http_request. destruct (lookup_identity _).
    change (crlf ++ crlf) with blank_line. by rewrite Ef.
Qed.

Lemma interpret_not_incomplete m : interpret config m <> Incomplete.
Proof.
  unfold interpret, http_conclude. intros E.
  repeat (case_match; simplify_eq/=; try done).
Qed.

(** C5: the parser accepts a buffer exactly when it starts with a well-framed
    request head whose request line is valid, that has no Transfer-Encoding, at
    most one Content-Length and that one decimal, exactly one Host that names
    the authority of the request line, and that identifies a principal as the
    configuration asks; the result names that authority and principal, consumes
    exactly the head and forwards the rewritten one. *)
Theorem http_accepts_exactly b r :
  egress_parse_http_request true true config b = Complete r <->
  exists m rest l fs, b = render m ++ rest /\ message_ok m /\ accepted config m l fs r.
Proof.
  split.
  - destruct (parse_cases b) as [[_ ->]|[(m & rest & -> & Hm & ->)|(_ & _ & ->)]]; [by destruct (_ <=? _)| |done].
    intros (l & fs & A)%interpret_accepts. eauto 10.
  - intros (m & rest & l & fs & -> & Hm & A). rewrite parse_render by done. apply interpret_accepts. eauto.
Qed.

(** A verdict does not depend on how the bytes arrive: the parser asks for
    more exactly while there is no terminator and less than the bound, and once
    the terminator is there any further bytes leave the result as it is. *)
Theorem http_verdict_stable b x :
  (egress_parse_http_request true true config b = Incomplete <->
   find_sub (crlf ++ crlf) b = None /\ len b < EGRESS_HANDSHAKE_MAX) /\
  (is_Some (find_sub (crlf ++ crlf) b) ->
   egress_parse_http_request true true config (b ++ x) = egress_parse_http_request true true config b).
Proof.
  change (crlf ++ crlf) with blank_line. split.
  - destruct (parse_cases b) as [[Ef ->]|[(m & rest & -> & Hm & ->)|([e Ef] & _ & ->)]].
    + rewrite Ef. destruct (Z.leb_spec EGRESS_HANDSHAKE_MAX (len b)); split; try done; [|lia..].
      intros [_ ?]. lia.
    + rewrite find_blank_render by done. split; [by intros ?%interpret_not_incomplete|by intros [? _]].
    + rewrite Ef. split; [done|by intros [? _]].
  - intros [e Ef]. pose proof (find_sub_app _ _ x _ Ef) as Ex.
    pose proof (find_sub_Some _ _ _ Ef) as (_ & _ & Hl). change (length blank_line) with 4%nat in Hl.
    unfold egress_parse_http_request. change (crlf ++ crlf) with blank_line. rewrite Ef, Ex.
    assert (Et : ztake (Z.of_nat e + 4) (b ++ x) = ztake (Z.of_nat e + 4) b)
      by (unfold ztake; apply take_app_le; lia).
    by rewrite Et.
Qed.

End Parse.

(** * What a forward request sends upstream *)

Lemma skip_blanks_suffix s : exists p, s = p ++ skip_blanks s.
Proof.
  induction s as [|x s [p IH]]; simpl; [by exists []|].
  destruct (is_blank x); [exists (x :: p); simpl; by rewrite <-IH|by exists []].
Qed.

Definition starts_blank (s : bytes) : bool :=
  match s with x :: _ => is_blank x | [] => false end.

Lemma skip_blanks_start s : starts_blank (skip_blanks s) = false.
Proof. induction s as [|x s IH]; simpl; [done|]. by destruct (is_blank x) eqn:E. Qed.

Lemma skip_blanks_id s : starts_blank s = false -> skip_blanks s = s.
Proof. destruct s as [|x s]; simpl; [done|]. by intros ->. Qed.

(** Trimming from the end leaves a prefix. *)
Lemma trim_end_prefix s : exists p, s = rev (skip_blanks (rev s)) ++ p.
Proof.
  destruct (skip_blanks_suffix (rev s)) as [p E]. exists (rev p).
  by rewrite <-rev_app_distr, <-E, rev_involutive.
Qed.

Lemma trim_idem s : trim (trim s) = trim s.
Proof.
  unfold trim. set (x := skip_blanks s).
  destruct (trim_end_prefix x) as [p E].
  assert (Hs : starts_blank (rev (skip_blanks (rev x))) = false).
  { pose proof (skip_blanks_start s) as Hx. fold x in Hx. rewrite E in Hx.
    by destruct (rev (skip_blanks (rev x))). }
  rewrite (skip_blanks_id _ Hs), rev_involutive.
  by rewrite (skip_blanks_id (skip_blanks (rev x))) by apply skip_blanks_start.
Qed.

Lemma trim_Forall (P : Z -> Prop) s : Forall P s -> Forall P (trim s).
Proof.
  intros Hs. unfold trim. destruct (skip_blanks_suffix s) as [p E].
  destruct (trim_end_prefix (skip_blanks s)) as [q E'].
  rewrite E, Forall_app in Hs. destruct Hs as [_ Hs]. rewrite E', Forall_app in Hs. tauto.
Qed.

Lemma split_field_Some line f :
  split_field line = Some f <->
  exists rest, line = f.1 ++ c_colon :: rest /\ f.1 <> [] /\ forallb token_char f.1 = true /\
    f.2 = trim rest.
Proof.
  unfold split_field. split.
  - destruct (index_of c_colon line) as [[|i]|] eqn:Ei; [done| |done].
    destruct (forallb _ _) eqn:Et; [|done]. intros [= <-]. cbn [fst snd].
    apply index_of_Some in Ei as (E & _ & Hl). exists (drop (S (S i)) line).
    split_and!; [done| |done|done]. destruct line; [simpl in Hl; lia|done].
  - destruct f as [n v]. cbn [fst snd]. intros (rest & -> & Hn & Ht & ->).
    rewrite index_of_app.
    + destruct (length n) as [|k] eqn:El; [by destruct n|]. rewrite <-El, take_app_length, Ht, drop_past.
      done.
    + apply forallb_Forall in Ht. rewrite Forall_forall in Ht. intros Hc. by specialize (Ht _ Hc).
Qed.

(** A field written back reads as the same field. *)
Lemma split_field_line line f : split_field line = Some f -> split_field (field_line f) = Some f.
Proof.
  rewrite !split_field_Some. intros (rest & _ & Hn & Ht & Hv). exists (c_space :: f.2).
  unfold field_line. split_and!; [done..|]. 
  assert (E : trim (c_space :: f.2) = trim f.2) by done. by rewrite E, Hv, trim_idem.
Qed.

(** The path and query of an absolute URI, as an origin form. *)
Definition origin_form (tail : bytes) : bytes :=
  match tail with
  | x :: _ => if x =? c_slash then tail else c_slash :: tail
  | [] => [c_slash]
  end.

Section Forward.
Context `{Inet}.
Set Default Proof Using "Type".

(** What is sent upstream as a message. *)
Definition upstream_message (method origin : bytes) (fs : list field) : message :=
  Message (join c_space [method; origin; version_line])
    (map field_line (List.filter kept fs) ++ [str "Connection: close"]).

Lemma absolute_target_tail target authority origin :
  absolute_target target = Some (authority, origin) ->
  exists tail, target = str "http://" ++ authority ++ tail /\
    (if at_ origin 0 =? c_question then str "/" else []) ++ origin = origin_form tail.
Proof.
  unfold absolute_target. destruct (prefixb _ target) eqn:Ep; [|done]. cbn [negb].
  apply prefixb_spec in Ep as (begin & ->).
  change (drop 7 (str "http://" ++ begin)) with begin.
  set (path := match index_of c_slash begin with None => _ | _ => _ end).
  destruct (_ || _); [done|]. intros [= <- <-].
  assert (Hp : match path with
               | Some i => exists c rest, drop i begin = c :: rest /\ (c = c_slash \/ c = c_question)
               | None => True end).
  { subst path. destruct (index_of c_slash begin) as [s|] eqn:E1, (index_of c_question begin) as [q|] eqn:E2;
      try destruct (q <? s)%nat; try done;
      match goal with |- exists c rest, drop ?i _ = _ /\ _ => 
        match goal with E : index_of ?c _ = Some i |- _ => 
          exists c, (drop (S i) begin); apply index_of_Some in E as (E & _ & Hl);
          split; [|by auto]; rewrite E at 1; rewrite drop_app_length'; [done|rewrite length_take; lia] end end. }
  destruct path as [i|].
  - destruct Hp as (c & rest & Ed & Hc). exists (drop i begin). unfold ztake.
    rewrite Nat2Z.id, take_drop. split; [done|]. rewrite Ed. by destruct Hc as [-> | ->].
  - exists []. rewrite ztake_all by done. by rewrite app_nil_r.
Qed.

(** The request line of a forward request. *)
Lemma start_of_forward line l :
  start_of line = Some l -> connect_line l = false ->
  exists target authority tail,
    split_on c_space line = [line_method l; target; version_line] /\
    target = str "http://" ++ authority ++ tail /\
    parse_authority authority 80 = Some (line_host l, line_port l) /\
    forward_line l = join c_space [line_method l; origin_form tail; version_line] ++ crlf.
Proof.
  unfold start_of. destruct (split_on c_space line) as [|method [|target [|version []]]]; try done.
  destruct (beq version version_line) eqn:Ev; [|done]. apply beq_spec in Ev as ->.
  unfold request_target. destruct (_ || _); [done|]. destruct (negb _); [done|].
  destruct (beq method _).
  { destruct (_ <=? _); [done|]. destruct (parse_authority _ _) as [[h p]|]; [|done].
    by intros [= <-] ?. }
  destruct (absolute_target target) as [[authority origin]|] eqn:Ea; [|done].
  destruct (parse_authority authority 80) as [[h p]|] eqn:Eh; [|done].
  destruct (has_char c_hash origin); [done|]. intros [= <-] _.
  destruct (absolute_target_tail _ _ _ Ea) as (tail & -> & Eo).
  exists (str "http://" ++ authority ++ tail), authority, tail. split_and!; [done..|].
  unfold forward_line. cbn [line_method origin_target join]. rewrite <-Eo, <-!app_assoc.
  cbn [app]. rewrite <-!app_assoc. done.
Qed.

Lemma upstream_head_render l fs tail :
  connect_line l = false ->
  forward_line l = join c_space [line_method l; origin_form tail; version_line] ++ crlf ->
  upstream_head l fs = render (upstream_message (line_method l) (origin_form tail) fs).
Proof.
  intros Hc El. unfold upstream_head, render. rewrite Hc, El, <-!app_assoc. f_equal. f_equal.
  unfold upstream_message. cbn [field_lines]. rewrite render_lines_app. unfold forwarded, render_lines.
  rewrite map_map, <-!app_assoc. done.
Qed.

Lemma split_field_chars line f :
  Forall (line_char false) line -> split_field line = Some f ->
  Forall (line_char false) (field_line f) /\ field_line f <> [].
Proof.
  intros Hl (rest & -> & Hn & _ & Hv)%split_field_Some.
  apply Forall_app in Hl as [Hf [Hc Hr]%Forall_cons]. unfold field_line. split.
  - rewrite !Forall_app. split_and!; [done|by repeat constructor|]. rewrite Hv. by apply trim_Forall.
  - by destruct f.1.
Qed.

Lemma mapM_kept ls fs :
  mapM split_field ls = Some fs -> Forall (Forall (line_char false)) ls ->
  let out := map field_line (List.filter kept fs) in
  Forall (Forall (line_char false)) out /\ Forall (fun l => l <> []) out /\
  mapM split_field out = Some (List.filter kept fs).
Proof.
  revert fs. induction ls as [|l ls IH]; intros fs E Hls.
  - injection E as <-. by repeat constructor.
  - simpl in E. destruct (split_field l) as [f|] eqn:Ef; [|done].
    destruct (mapM split_field ls) as [fs'|]; [|done]. injection E as <-.
    apply Forall_cons in Hls as [Hl Hls]. destruct (IH fs' eq_refl Hls) as (H1 & H2 & H3).
    destruct (split_field_chars _ _ Hl Ef) as [Hc Hn]. simpl. destruct (kept f); [|done].
    cbn [map]. split_and!; [by constructor..|]. simpl. by rewrite (split_field_line _ _ Ef), H3.
Qed.

Lemma mapM_snoc {A B} (f : A -> option B) l ys x y :
  mapM f l = Some ys -> f x = Some y -> mapM f (l ++ [x]) = Some (ys ++ [y]).
Proof. rewrite !mapM_Some. intros Hl Hx. apply Forall2_app; [done|]. by repeat constructor. Qed.

Lemma upstream_message_ok m l fs target authority tail :
  message_ok m -> mapM split_field (field_lines m) = Some fs ->
  split_on c_space (start_line m) = [line_method l; target; version_line] ->
  target = str "http://" ++ authority ++ tail ->
  let m' := upstream_message (line_method l) (origin_form tail) fs in
  message_ok m' /\ split_on c_space (start_line m') = [line_method l; origin_form tail; version_line] /\
  mapM split_field (field_lines m') = Some (List.filter kept fs ++ [(str "Connection", str "close")]).
Proof.
  intros [Hs Hc Hn] Ef Esp Et m'. destruct (mapM_kept _ _ Ef Hc) as (H1 & H2 & H3).
  pose proof (split_on_segments c_space (start_line m)) as Hseg. rewrite Esp in Hseg.
  apply Forall_cons in Hseg as [Hsm [Hst _]%Forall_cons].
  assert (Hj : start_line m = join c_space [line_method l; target; version_line])
    by (by rewrite <-Esp, join_split_on).
  rewrite Hj in Hs. simpl in Hs. rewrite !Forall_app, !Forall_cons, !Forall_app in Hs.
  destruct Hs as (Hlm & _ & Hlt & Hlv).
  subst target. apply Forall_app in Hlt as [_ [_ Htail]%Forall_app].
  assert (Ho : Forall (line_char true) (origin_form tail) /\ c_space ∉ origin_form tail).
  { assert (c_space ∉ tail) by (intros ?; apply Hst; rewrite !elem_of_app; tauto). unfold origin_form. destruct tail as [|x tail].
    - split; [by repeat constructor|set_solver].
    - destruct (x =? c_slash); [done|]. split; [|set_solver].
      apply Forall_cons_2; [unfold line_char; lia|done]. }
  destruct Ho as [Ho Hos]. split_and!.
  - constructor; unfold m', upstream_message; cbn [start_line field_lines].
    + cbn [join]. rewrite !Forall_app, !Forall_cons, !Forall_app. split_and!; try done; unfold line_char; lia.
    + apply Forall_app. split; [done|]. constructor; [|done]. by repeat constructor.
    + apply Forall_app. split; [done|]. by repeat constructor.
  - unfold m', upstream_message. cbn [start_line]. apply split_on_join; [done|].
    repeat (apply Forall_cons_2; [done|]). apply Forall_cons_2; [|done].
    apply has_char_false. reflexivity.
  - unfold m', upstream_message. cbn [field_lines]. by apply (mapM_snoc _ _ _ _ _ H3).
Qed.

(** C21: what a forward request sends upstream is one well-framed request head:
    the method, the origin form of the target and the fields it came with but
    for the authorization, connection and keep-alive ones, in order, with one
    Connection: close; nothing of the client's bytes ends the head early or adds
    a field, and the authority it was sent to is the one of the target. *)
Theorem http_forward_well_framed config b r :
  egress_parse_http_request true true config b = Complete r ->
  protocol r = MAELYS_EGRESS_PROTOCOL_HTTP_FORWARD ->
  exists m rest fs m' method authority tail,
    b = render m ++ rest /\ message_ok m /\ mapM split_field (field_lines m) = Some fs /\
    split_on c_space (start_line m) = [method; str "http://" ++ authority ++ tail; version_line] /\
    parse_authority authority 80 = Some (request_host r, request_port r) /\
    forward_bytes r = render m' /\ message_ok m' /\
    split_on c_space (start_line m') = [method; origin_form tail; version_line] /\
    mapM split_field (field_lines m') = Some (List.filter kept fs ++ [(str "Connection", str "close")]).
Proof.
  intros E Hp.
  destruct (parse_cases config b) as [[_ E']|[(m & rest & -> & Hm & E')|(_ & _ & E')]]; rewrite E' in E;
    [by destruct (_ <=? _)| |done].
  apply interpret_accepts in E as (l & fs & [Hl Hf _ _ _ _ _ _ Hr]). rewrite Hr in Hp |- *. simpl in Hp |- *.
  assert (Hc : connect_line l = false) by (unfold connect_line; by rewrite Hp).
  destruct (start_of_forward _ _ Hl Hc) as (target & authority & tail & Hs & Ht & Ha & Hw).
  destruct (upstream_message_ok _ _ _ _ _ _ Hm Hf Hs Ht) as (H1 & H2 & H3).
  exists m, rest, fs, (upstream_message (line_method l) (origin_form tail) fs), (line_method l), authority, tail.
  subst target. split_and!; try done. by apply upstream_head_render.
Qed.

End Forward.

(** ** Examples *)

Definition open_config : maelys_egress_config := zero_config <| unauthenticated_loopback := true |>.

Definition forward_example : bytes :=
  str "GET http://host.example?q HTTP/1.1" ++ crlf ++ str "Host:host.example" ++ crlf ++
  str "Connection: keep-alive" ++ crlf ++ str "Accept: a" ++ crlf ++ crlf.

Definition completed (r : parse_result) : egress_proxy_request_t :=
  match r with
  | Complete r => r
  | _ => Request MAELYS_EGRESS_PROTOCOL_HTTP_CONNECT [] 0 0 [] no_identity
  end.

Lemma forward_example_upstream :
  forward_bytes (completed (@egress_parse_http_request dotted_inet true true open_config forward_example)) =
  str "GET /?q HTTP/1.1" ++ crlf ++ str "Host: host.example" ++ crlf ++ str "Accept: a" ++ crlf ++
  str "Connection: close" ++ crlf ++ crlf.
Proof. vm_compute. reflexivity. Qed.

Lemma http_forward_well_framed_witness :
  exists r m', @egress_parse_http_request dotted_inet true true open_config forward_example = Complete r /\
    forward_bytes r = render m' /\ message_ok m'.
Proof.
  set (r := completed (@egress_parse_http_request dotted_inet true true open_config forward_example)).
  assert (E : @egress_parse_http_request dotted_inet true true open_config forward_example = Complete r)
    by (vm_compute; reflexivity).
  destruct (http_forward_well_framed open_config forward_example r E) as
    (_ & _ & _ & m' & _ & _ & _ & _ & _ & _ & _ & _ & Hf & Hm & _); [vm_compute; reflexivity|].
  exists r, m'. split_and!; [exact E|exact Hf|exact Hm].
Defined.

Lemma http_verdict_stable_witness :
  @egress_parse_http_request dotted_inet true true open_config (forward_example ++ str "body") =
  @egress_parse_http_request dotted_inet true true open_config forward_example.
Proof.
  apply (proj2 (@http_verdict_stable dotted_inet open_config forward_example (str "body"))).
  eexists. vm_compute. reflexivity.
Defined.

(** A head of more than [EGRESS_HANDSHAKE_MAX] bytes is accepted when it
    arrives with its terminator, and refused when its first bytes are parsed
    before. *)
Definition long_head : bytes :=
  str "GET http://h/ HTTP/1.1" ++ crlf ++ str "Host: h" ++ crlf ++
  concat (repeat (str "A: " ++ repeat c_a 120 ++ crlf) 140) ++ crlf.

(** The bound on the head is on the bytes read without a terminator: a head
    beyond the bound is accepted when it is parsed at once, and refused when a
    prefix of the size of the bound is parsed first. *)
Theorem http_head_bound_depends_on_arrival :
  EGRESS_HANDSHAKE_MAX < len long_head /\
  @egress_parse_http_request dotted_inet true true open_config long_head =
    Complete (completed (@egress_parse_http_request dotted_inet true true open_config long_head)) /\
  @egress_parse_http_request dotted_inet true true open_config (ztake EGRESS_HANDSHAKE_MAX long_head) =
    Protocol.
Proof. split_and!; vm_compute; reflexivity. Qed.

(** A request with [n] times the same field. *)
Definition repeated_field (field_ : bytes) (n : nat) : bytes :=
  str "GET http://h/ HTTP/1.1" ++ crlf ++ str "Host: h" ++ crlf ++
  concat (repeat (field_ ++ crlf) n) ++ crlf.

(** The buffer for the rewritten head is sized for a bounded growth, but every
    field without a space behind its colon grows by one: 53 such fields are
    accepted here, 54 are refused, and with the space they are accepted. *)
Theorem http_terse_fields_refused :
  let parse b := @egress_parse_http_request dotted_inet true true open_config b in
  let accepts b := parse b = Complete (completed (parse b)) in
  accepts (repeated_field (str "a:b") 53) /\ parse (repeated_field (str "a:b") 54) = Protocol /\
  accepts (repeated_field (str "a: b") 54).
Proof. cbn zeta. split_and!; vm_compute; reflexivity. Qed.
