(* ===== verification/HttpAuth.v ===== *)
(** Authentication of HTTP proxy requests.

    The Basic credentials of [decode_base64] against the encoding of RFC 4648
    ([encode_base64]), and which principal an accepted request belongs to. *)

From S2P Require Import Prelude Common Config Http HttpFacts HttpAcceptance.

(** * Base64 *)

Definition base64_symbol (v : Z) : Z :=
  if v <? 26 then c_A + v
  else if v <? 52 then c_a + (v - 26)
  else if v <? 62 then c_0 + (v - 52)
  else if v =? 62 then c_plus else c_slash.

(** RFC 4648, section 4: three bytes as four symbols, the rest padded. *)
Fixpoint encode_base64 (b : bytes) : bytes :=
  match b with
  | [] => []
  | [b0] => [base64_symbol (b0 / 4); base64_symbol (b0 mod 4 * 16); c_eq; c_eq]
  | [b0; b1] =>
      [base64_symbol (b0 / 4); base64_symbol (b0 mod 4 * 16 + b1 / 16);
       base64_symbol (b1 mod 16 * 4); c_eq]
  | b0 :: b1 :: b2 :: rest =>
      base64_symbol (b0 / 4) :: base64_symbol (b0 mod 4 * 16 + b1 / 16) ::
      base64_symbol (b1 mod 16 * 4 + b2 / 64) :: base64_symbol (b2 mod 64) :: encode_base64 rest
  end.

Lemma base64_symbol_value v : 0 <= v < 64 -> base64_char (base64_symbol v) = true /\ base64_value (base64_symbol v) = v.
Proof.
  intros Hv. assert (H : forall x, x ∈ seqZ 0 64 ->
    base64_char (base64_symbol x) && (base64_value (base64_symbol x) =? x) = true).
  { apply Forall_forall, forallb_Forall. vm_compute. reflexivity. }
  specialize (H v ltac:(apply elem_of_seqZ; lia)). apply andb_true_iff in H as [? ?%Z.eqb_eq]. done.
Qed.

Lemma base64_value_symbol c : base64_char c = true -> base64_symbol (base64_value c) = c /\ 0 <= base64_value c < 64.
Proof.
  intros Hc. assert (Hb : is_byte c).
  { unfold base64_char, is_upper, is_lower, is_digit, in_range in Hc. unfold is_byte. lia. }
  pose proof (byte_forall (fun c => negb (base64_char c) ||
    (base64_symbol (base64_value c) =? c) && (0 <=? base64_value c) && (base64_value c <? 64))
    ltac:(vm_compute; reflexivity) c Hb) as H. cbn beta in H. rewrite Hc in H. simpl in H. lia.
Qed.

Lemma base64_char_eq : base64_char c_eq = false.
Proof. reflexivity. Qed.

(** The bytes of a group. *)
Definition group_bytes (v0 v1 v2 v3 : Z) : bytes :=
  let value := Z.lor (Z.lor (Z.lor (Z.shiftl v0 18) (Z.shiftl v1 12)) (Z.shiftl v2 6)) v3 in
  [u8 (Z.shiftr value 16); u8 (Z.shiftr value 8); u8 value].

Lemma group_bytes_spec v0 v1 v2 v3 :
  0 <= v0 < 64 -> 0 <= v1 < 64 -> 0 <= v2 < 64 -> 0 <= v3 < 64 ->
  group_bytes v0 v1 v2 v3 = [v0 * 4 + v1 / 16; v1 mod 16 * 16 + v2 / 4; v2 mod 4 * 64 + v3].
Proof.
  intros. unfold group_bytes. rewrite <-!Z.lor_assoc.
  rewrite (lor_disjoint v2 v3 6) by lia. rewrite (lor_disjoint v1 _ 12) by lia.
  rewrite (lor_disjoint v0 _ 18) by lia. rewrite !Z.shiftr_div_pow2 by lia. unfold u8.
  change (2 ^ 6) with 64. change (2 ^ 12) with 4096. change (2 ^ 18) with 262144.
  change (2 ^ 16) with 65536. change (2 ^ 8) with 256. repeat f_equal; zlia.
Qed.

Lemma land_low v n : 0 <= n -> Z.land v (2 ^ n - 1) = v mod 2 ^ n.
Proof. intros. replace (2 ^ n - 1) with (Z.ones n) by (rewrite Z.ones_equiv; lia). by apply Z.land_ones. Qed.

(** The decoder on a full group, on one with one pad and on one with two. *)
Lemma decode_full c0 c1 c2 c3 rest capacity used :
  base64_char c0 = true -> base64_char c1 = true -> base64_char c2 = true -> base64_char c3 = true ->
  decode_groups (c0 :: c1 :: c2 :: c3 :: rest) capacity used =
  if capacity <? len used + 3 then None
  else decode_groups rest capacity (used ++ group_bytes (base64_value c0) (base64_value c1) (base64_value c2) (base64_value c3)).
Proof.
  intros H0 H1 H2 H3. cbn [decode_groups].
  assert (E2 : (c2 =? c_eq) = false) by (apply Z.eqb_neq; intros ->; done).
  assert (E3 : (c3 =? c_eq) = false) by (apply Z.eqb_neq; intros ->; done).
  rewrite H0, H1, H2, H3, E2, E3. cbn [negb orb andb]. by destruct (_ <? _).
Qed.

Lemma decode_pad1 c0 c1 c2 capacity used :
  base64_char c0 = true -> base64_char c1 = true -> base64_char c2 = true ->
  decode_groups [c0; c1; c2; c_eq] capacity used =
  if negb (base64_value c2 mod 4 =? 0) || (capacity <? len used + 2) then None
  else Some (used ++ take 2 (group_bytes (base64_value c0) (base64_value c1) (base64_value c2) 0)).
Proof.
  intros H0 H1 H2. cbn [decode_groups].
  assert (E2 : (c2 =? c_eq) = false) by (apply Z.eqb_neq; intros ->; done).
  rewrite H0, H1, H2, E2. cbn [negb orb andb]. change (c_eq =? c_eq) with true. cbn [negb orb andb].
  change 3 with (2 ^ 2 - 1) at 1. rewrite land_low by lia. change (2 ^ 2) with 4.
  destruct (negb _); [done|]. cbn [orb]. by destruct (_ <? _).
Qed.

Lemma decode_pad2 c0 c1 capacity used :
  base64_char c0 = true -> base64_char c1 = true ->
  decode_groups [c0; c1; c_eq; c_eq] capacity used =
  if negb (base64_value c1 mod 16 =? 0) || (capacity <? len used + 1) then None
  else Some (used ++ take 1 (group_bytes (base64_value c0) (base64_value c1) 0 0)).
Proof.
  intros H0 H1. cbn [decode_groups]. rewrite H0, H1. cbn [negb orb andb].
  change (c_eq =? c_eq) with true. cbn [negb orb andb].
  change 15 with (2 ^ 4 - 1) at 1. rewrite land_low by lia. change (2 ^ 4) with 16.
  destruct (negb _); [done|]. cbn [orb]. by destruct (_ <? _).
Qed.

(** The groups the decoder goes through. *)
Lemma decode_groups_inv c0 c1 c2 c3 rest capacity used out :
  decode_groups (c0 :: c1 :: c2 :: c3 :: rest) capacity used = Some out ->
  base64_char c0 = true /\ base64_char c1 = true /\
  ((base64_char c2 = true /\ base64_char c3 = true) \/
   (base64_char c2 = true /\ c3 = c_eq /\ rest = []) \/ (c2 = c_eq /\ c3 = c_eq /\ rest = [])).
Proof.
  cbn [decode_groups]. intros E.
  destruct (base64_char c0), (base64_char c1); cbn [negb orb] in E; try done.
  split_and!; [done..|].
  destruct (Z.eqb_spec c2 c_eq) as [->|N2], (Z.eqb_spec c3 c_eq) as [->|N3]; destruct rest;
    cbn [negb orb andb] in E; try done; try (destruct (base64_char c2); cbn [negb orb andb] in E; try done);
    try (destruct (base64_char c3); cbn [negb orb andb] in E; try done); auto.
Qed.

Lemma symbol_is c v : base64_symbol (base64_value c) = c -> v = base64_value c -> base64_symbol v = c.
Proof. by intros ? ->. Qed.

Lemma group_values c0 c1 c2 c3 b0 b1 b2 :
  base64_char c0 = true -> base64_char c1 = true -> base64_char c2 = true -> base64_char c3 = true ->
  group_bytes (base64_value c0) (base64_value c1) (base64_value c2) (base64_value c3) = [b0; b1; b2] ->
  Forall is_byte [b0; b1; b2] /\
  [c0; c1; c2; c3] = [base64_symbol (b0 / 4); base64_symbol (b0 mod 4 * 16 + b1 / 16);
                      base64_symbol (b1 mod 16 * 4 + b2 / 64); base64_symbol (b2 mod 64)].
Proof.
  intros [S0 V0]%base64_value_symbol [S1 V1]%base64_value_symbol [S2 V2]%base64_value_symbol
    [S3 V3]%base64_value_symbol.
  rewrite group_bytes_spec by done. intros [= <- <- <-]. split.
  - repeat (apply Forall_cons_2; [unfold is_byte; zlia|]). apply Forall_nil_2.
  - repeat (f_equal; try (symmetry; apply symbol_is; [done|zlia])).
Qed.

(** The canonical decoder: what it accepts is the encoding of its result. *)
Lemma decode_groups_encoded n input capacity used out :
  (length input <= n)%nat -> decode_groups input capacity used = Some out ->
  exists b, out = used ++ b /\ Forall is_byte b /\ input = encode_base64 b /\
    (b = [] \/ len used + len b <= capacity).
Proof.
  revert input used. induction n as [|n IH]; intros input used Hn E.
  { destruct input; [|simpl in Hn; lia]. injection E as <-. exists [].
    rewrite app_nil_r. split_and!; auto. }
  destruct input as [|c0 [|c1 [|c2 [|c3 rest]]]]; try done.
  { injection E as <-. exists []. rewrite app_nil_r. split_and!; auto. }
  pose proof (decode_groups_inv _ _ _ _ _ _ _ _ E) as (H0 & H1 & [[H2 H3]|[(H2 & -> & ->)|(-> & -> & ->)]]).
  - rewrite decode_full in E by done. destruct (Z.ltb_spec capacity (len used + 3)) as [|Hc]; [done|].
    destruct (IH rest _ ltac:(simpl in Hn; lia) E) as (b & -> & Hb & -> & Hcap).
    destruct (group_bytes (base64_value c0) (base64_value c1) (base64_value c2) (base64_value c3))
      as [|b0 [|b1 [|b2 []]]] eqn:Eg; try done.
    destruct (group_values _ _ _ _ _ _ _ H0 H1 H2 H3 Eg) as [Hg Es].
    exists ([b0; b1; b2] ++ b). split_and!.
    + by rewrite <-app_assoc.
    + by apply Forall_app.
    + cbn [app encode_base64]. by injection Es as <- <- <- <-.
    + right. rewrite len_app in Hcap |- *. change (len [b0; b1; b2]) with 3 in *.
      destruct Hcap as [->|?]; [change (len []) with 0|]; lia.
  - rewrite decode_pad1 in E by done. destruct (_ || _) eqn:Eg in E; [done|]. apply (inj Some) in E as <-.
    apply orb_false_iff in Eg as [Hz%negb_false_iff%Z.eqb_eq Hc%Z.ltb_ge].
    apply base64_value_symbol in H0 as [S0 V0], H1 as [S1 V1], H2 as [S2 V2].
    rewrite group_bytes_spec by done. cbn [take]. eexists. split; [done|]. split_and!.
    + repeat (apply Forall_cons_2; [unfold is_byte; zlia|]). apply Forall_nil_2.
    + cbn [encode_base64]. repeat (f_equal; try (symmetry; apply symbol_is; [done|zlia])).
    + right. exact Hc.
  - rewrite decode_pad2 in E by done. destruct (_ || _) eqn:Eg in E; [done|]. apply (inj Some) in E as <-.
    apply orb_false_iff in Eg as [Hz%negb_false_iff%Z.eqb_eq Hc%Z.ltb_ge].
    apply base64_value_symbol in H0 as [S0 V0], H1 as [S1 V1].
    rewrite group_bytes_spec by done. cbn [take]. eexists. split; [done|]. split_and!.
    + repeat (apply Forall_cons_2; [unfold is_byte; zlia|]). apply Forall_nil_2.
    + cbn [encode_base64]. repeat (f_equal; try (symmetry; apply symbol_is; [done|zlia])).
    + right. exact Hc.
Qed.

Lemma symbol_ok v : 0 <= v < 64 -> base64_char (base64_symbol v) = true.
Proof. apply base64_symbol_value. Qed.

Lemma symbol_value v : 0 <= v < 64 -> base64_value (base64_symbol v) = v.
Proof. apply base64_symbol_value. Qed.

Lemma decode_groups_encode n b capacity used :
  (length b <= n)%nat -> Forall is_byte b -> b = [] \/ len used + len b <= capacity ->
  decode_groups (encode_base64 b) capacity used = Some (used ++ b).
Proof.
  revert b used. induction n as [|n IH]; intros b used Hn Hb Hc.
  { destruct b; [|simpl in Hn; lia]. by rewrite app_nil_r. }
  destruct b as [|b0 [|b1 [|b2 rest]]].
  - by rewrite app_nil_r.
  - destruct Hc as [?|Hc]; [done|]. change (len [b0]) with 1 in Hc.
    apply Forall_cons in Hb as [B0 _]. unfold is_byte in B0. cbn [encode_base64].
    rewrite decode_pad2, !symbol_value, group_bytes_spec by (try apply symbol_ok; zlia).
    rewrite (proj2 (Z.eqb_eq _ 0)), (proj2 (Z.ltb_ge _ _)) by zlia. cbn [negb orb take].
    repeat f_equal. zlia.
  - destruct Hc as [?|Hc]; [done|]. change (len [b0; b1]) with 2 in Hc.
    apply Forall_cons in Hb as [B0 [B1 _]%Forall_cons]. unfold is_byte in B0, B1. cbn [encode_base64].
    rewrite decode_pad1, !symbol_value, group_bytes_spec by (try apply symbol_ok; zlia).
    rewrite (proj2 (Z.eqb_eq _ 0)), (proj2 (Z.ltb_ge _ _)) by zlia. cbn [negb orb take].
    repeat f_equal; zlia.
  - destruct Hc as [?|Hc]; [done|].
    apply Forall_cons in Hb as [B0 [B1 [B2 Hr]%Forall_cons]%Forall_cons]. unfold is_byte in B0, B1, B2.
    rewrite !len_cons in Hc. pose proof (len_nonneg rest). cbn [encode_base64].
    rewrite decode_full, !symbol_value, group_bytes_spec by (try apply symbol_ok; zlia).
    rewrite (proj2 (Z.ltb_ge _ _)) by lia.
    rewrite IH; [|simpl in Hn; lia|done|right; rewrite len_app, !len_cons; change (len (@nil Z)) with 0; lia].
    rewrite <-app_assoc. cbn [app]. repeat f_equal; zlia.
Qed.

Lemma encode_base64_length n b : (length b <= n)%nat -> len (encode_base64 b) mod 4 = 0 /\ (encode_base64 b = [] <-> b = []).
Proof.
  revert b. induction n as [|n IH]; intros b Hn; [by destruct b; [|simpl in Hn; lia]|].
  destruct b as [|b0 [|b1 [|b2 rest]]]; [done..|]. cbn [encode_base64].
  destruct (IH rest ltac:(simpl in Hn; lia)) as [E _]. rewrite !len_cons. split; [zlia|done].
Qed.

Lemma decode_base64_spec input capacity out :
  decode_base64 input capacity = Some out <->
  input = encode_base64 out /\ Forall is_byte out /\ out <> [] /\ len out <= capacity.
Proof.
  unfold decode_base64. split.
  - destruct (_ || _) eqn:Eg; [done|]. intros E.
    apply orb_false_iff in Eg as [Hn%Z.eqb_neq _].
    destruct (decode_groups_encoded _ _ _ _ _ (reflexivity _) E) as (b & Eb & Hb & -> & Hc).
    cbn [app] in Eb. subst b. destruct Hc as [->|Hc]; [done|].
    split_and!; [done..| |exact Hc]. by intros ->.
  - intros (-> & Hb & Hn & Hc). destruct (encode_base64_length _ out (reflexivity _)) as [Hm He].
    rewrite Hm, (proj2 (Z.eqb_neq _ 0)); [|].
    + by rewrite (decode_groups_encode (length out) out capacity []) by auto.
    + destruct (encode_base64 out) as [|x l] eqn:E; [by destruct Hn; apply He|]. rewrite len_cons. pose proof (len_nonneg l). lia.
Qed.

(** The Base64 decoder accepts exactly the canonical encodings of RFC 4648
    of one or more bytes that fit: every byte string has one accepted text, and
    unused bits, misplaced padding and other characters are refused. *)
Theorem decode_base64_canonical input capacity out :
  decode_base64 input capacity = Some out <->
  input = encode_base64 out /\ Forall is_byte out /\ out <> [] /\ len out <= capacity.
Proof. apply decode_base64_spec. Qed.

(** * Who is authenticated *)

(** The credentials a Proxy-Authorization value shows: a bearer secret, or a
    user name and a secret; a secret ends at its first NUL. *)
Definition presents (value : bytes) (u : option bytes) (s : bytes) : Prop :=
  (strncaseeq value (str "Bearer ") 7 = true /\ u = None /\ s = drop 7 value) \/
  (strncaseeq value (str "Bearer ") 7 = false /\ strncaseeq value (str "Basic ") 6 = true /\
   exists user rest, drop 6 value = encode_base64 (user ++ c_colon :: rest) /\
     Forall is_byte (user ++ c_colon :: rest) /\
     len (user ++ c_colon :: rest) <= EGRESS_MAX_USERNAME + EGRESS_MAX_SECRET + 1 /\
     c_colon ∉ user /\ nul_free user /\ u = Some user /\ s = cstr rest).

(** The first colon of a C string. *)
Lemma index_of_cstr c d i :
  c <> 0 -> index_of c (cstr d) = Some i <->
  exists user rest, d = user ++ c :: rest /\ c ∉ user /\ nul_free user /\ i = length user.
Proof.
  intros Hc. revert i. induction d as [|x d IH]; intros i; cbn [cstr].
  { split; [done|]. by intros ([|? ?] & ? & ? & _). }
  destruct (Z.eqb_spec x 0) as [->|Hx].
  { split; [done|]. intros ([|y user] & rest & E & _ & Hn & _); cbn [app] in E; [congruence|].
    injection E as <- _. unfold nul_free in Hn. set_solver. }
  cbn [index_of]. destruct (Z.eqb_spec x c) as [->|Hxc].
  - split.
    + intros [= <-]. exists [], d. split_and!; [done|set_solver| |done]. by apply has_char_false.
    + intros ([|y user] & rest & E & Hu & _ & ->); [done|]. injection E as <- _. set_solver.
  - rewrite fmap_Some. split.
    + intros (k & (user & rest & -> & Hu & Hn & ->)%IH & ->). exists (x :: user), rest.
      unfold nul_free in *. split_and!; [done|set_solver..|done].
    + intros ([|y user] & rest & E & Hu & Hn & ->); cbn [app] in E; [congruence|]. injection E as <- ->.
      exists (length user). split; [|done]. apply IH. exists user, rest. unfold nul_free in *.
      split_and!; [done|set_solver..|done].
Qed.

Lemma auth_header_presents config value who :
  authentication_set config = true ->
  auth_header_matches config value no_identity = (true, who) <->
  exists u s inv i, presents value u s /\ egress_credentials_lookup config u s = Some (inv, i) /\
    who = (inv, Some i).
Proof.
  intros Ha. unfold auth_header_matches, presents. rewrite Ha. cbn [negb].
  destruct (strncaseeq value (str "Bearer ") 7) eqn:Eb.
  { split.
    - destruct (egress_credentials_lookup config None _) as [[inv i]|] eqn:El; simpl; [|done].
      intros [= <-]. exists None, (drop 7 value), inv, i. split_and!; [by left|done|done].
    - intros (u & s & inv & i & [(_ & -> & ->)|(? & _)] & El & ->); [|done]. by rewrite El. }
  destruct (strncaseeq value (str "Basic ") 6) eqn:Ec; cbn [negb].
  2: { split; [done|]. intros (u & s & inv & i & [(? & _)|(_ & ? & _)] & _); done. }
  split.
  - destruct (decode_base64 (drop 6 value) _) as [decoded|] eqn:Ed; [|done].
    apply decode_base64_spec in Ed as (E & Hb & _ & Hl).
    destruct (index_of c_colon (cstr decoded)) as [sep|] eqn:Es; [|done].
    apply index_of_cstr in Es as (user & rest & -> & Hu & Hn & ->); [|done].
    rewrite take_app_length, drop_past.
    destruct (egress_credentials_lookup config _ _) as [[inv i]|] eqn:El; simpl; [|done].
    intros [= <-]. exists (Some user), (cstr rest), inv, i. split_and!; [|done|done].
    right. split_and!; [done|done|]. exists user, rest. by split_and!.
  - intros (u & s & inv & i & [(? & _)|(_ & _ & user & rest & E & Hb & Hl & Hu & Hn & -> & ->)] & El & ->); [done|].
    rewrite (proj2 (decode_base64_spec _ _ (user ++ c_colon :: rest))); [|by split_and!; [..|destruct user|]].
    assert (Ei : index_of c_colon (cstr (user ++ c_colon :: rest)) = Some (length user))
      by (apply index_of_cstr; [done|]; exists user, rest; by split_and!).
    rewrite Ei.
    by rewrite take_app_length, drop_past, El.
Qed.

Lemma field_values_chars m fs k :
  message_ok m -> mapM split_field (field_lines m) = Some fs ->
  Forall (Forall (fun c => c <> 0)) (values k fs).
Proof.
  intros [_ Hc _]. generalize (field_lines m) Hc. clear Hc. intros ls Hls. revert fs.
  induction Hls as [|l ls Hl _ IH]; intros fs E; simpl in E; [injection E as <-; constructor|].
  destruct (split_field l) as [f|] eqn:Ef; [|done]. destruct (mapM split_field ls) as [fs'|]; [|done].
  injection E as <-. rewrite values_cons. apply Forall_app. split; [|by apply IH].
  destruct (same_kind _ _); [|constructor]. constructor; [|constructor].
  apply split_field_Some in Ef as (rest & -> & _ & _ & ->). apply trim_Forall.
  apply Forall_app in Hl as [_ [_ Hr]%Forall_cons]. by eapply line_nul_free.
Qed.

(** C22: when credentials are required and no principal is bound to the
    endpoint, a request is accepted only with one Proxy-Authorization field that
    shows, as a bearer token or as canonical Basic credentials, the secret (and
    user name) of a configured principal, and it is accounted to that principal. *)
Theorem http_authenticated `{Inet} config b r :
  reachable config -> egress_parse_http_request true true config b = Complete r ->
  authentication_set config = true -> egress_unix_principal_lookup config = None ->
  exists m rest fs value u s i p,
    b = render m ++ rest /\ message_ok m /\ mapM split_field (field_lines m) = Some fs /\
    values FAuthorization fs = [value] /\ presents value u s /\
    principals config !! i = Some p /\ holds_credentials u s p /\
    request_identity r = (invocation_id p, Some i).
Proof.
  intros Hreach E Ha Hu.
  destruct (parse_cases config b) as [[_ E']|[(m & rest & -> & Hm & E')|(_ & _ & E')]]; rewrite E' in E;
    [by destruct (_ <=? _)| |done].
  apply interpret_accepts in E as (l & fs & A). pose proof (accepted_identity _ _ _ _ _ A) as Hi.
  pose proof (accepted_fields _ _ _ _ _ A) as Hf. unfold identified in Hi. rewrite Hu, Ha in Hi.
  destruct Hi as (value & Hv & (u & s & inv & i & Hp & Hl & Hw)%auth_header_presents); [|done].
  pose proof (field_values_chars _ _ FAuthorization Hm Hf) as Hn. rewrite Hv in Hn. apply Forall_cons in Hn as [Hn _].
  apply credentials_lookup_spec in Hl as (_ & p & Hpi & Hh & ->).
  - exists m, rest, fs, value, u, s, i, p. by split_and!.
  - by apply reachable_ok.
  - destruct Hp as [(_ & _ & ->)|(_ & _ & user & rest' & _ & _ & _ & _ & _ & _ & ->)].
    + intros Hz. rewrite <-(take_drop 7 value), Forall_app, !Forall_forall in Hn. by apply (proj2 Hn 0).
    + apply cstr_no_nul.
  - by destruct Hp as [(_ & -> & _)|(_ & _ & user & rest' & _ & _ & _ & _ & ? & -> & _)].
Qed.

Definition connect_example : bytes :=
  str "CONNECT host.example:8443 HTTP/1.1" ++ crlf ++ str "Host: host.example:8443" ++ crlf ++
  str "Proxy-Authorization: Basic " ++ encode_base64 (str "agent:0123456789abcdef") ++ crlf ++ crlf.

Lemma http_authenticated_witness :
  exists r p, @egress_parse_http_request dotted_inet true true example_config connect_example = Complete r /\
    principals example_config !! 0%nat = Some p /\ request_identity r = (invocation_id p, Some 0%nat).
Proof.
  set (r := completed (@egress_parse_http_request dotted_inet true true example_config connect_example)).
  assert (E : @egress_parse_http_request dotted_inet true true example_config connect_example = Complete r)
    by (vm_compute; reflexivity).
  destruct (@http_authenticated dotted_inet example_config connect_example r) as
    (m & rest & fs & value & u & s & i & p & _ & _ & _ & _ & _ & Hp & _ & Hi);
    [apply example_config_reachable|exact E|reflexivity|reflexivity|].
  exists r, p. assert (i = 0%nat) as -> by (vm_compute in Hi; congruence).
  split_and!; [exact E|exact Hp|exact Hi].
Defined.
