(* ===== verification/Socks.v ===== *)
(** SOCKS5 frames (src/core/socks.c): the greeting, the credentials of RFC 1929
    and the request of RFC 1928, one call per frame.

    The wire formats are stated as encoders; each phase is shown to accept
    exactly what they produce. *)

From S2P Require Import Prelude Common Config Http.

(** * Definitions *)

(** What the function leaves behind its pointers: the phase, the bytes
    consumed, the response and the identity kept with the connection. *)
Record socks_state := Socks {
  phase : Z;
  out_consumed : Z;
  out_response : bytes;
  authenticated_identity : identity;
}.

#[export] Instance eta_socks : Eta socks_state := fun s =>
  Socks (phase s) (out_consumed s) (out_response s) (authenticated_identity s).

(** The results 0, 1, 2, -1 and -2. *)
Inductive frame_result :=
| FrameIncomplete
| FrameConsumed
| FrameRequest (request : egress_proxy_request_t)
| FrameProtocol
| FrameAuthentication.

(** The address of a request: the text of the host, its offset and its length
    on the wire; [inl] is a return from the function. *)
Definition request_address `{Inet} (b : bytes) : frame_result + bytes * Z * Z :=
  let length := len b in
  if at_ b 3 =? 1 then
    if length <? 10 then inl FrameIncomplete
    else match inet_ntop4 (ztake 4 (zdrop 4 b)) with
         | None => inl FrameProtocol
         | Some text => inr (text, 4, 4)
         end
  else if at_ b 3 =? 4 then
    if length <? 22 then inl FrameIncomplete
    else match inet_ntop6 (ztake 16 (zdrop 4 b)) with
         | None => inl FrameProtocol
         | Some text => inr (text, 4, 16)
         end
  else if at_ b 3 =? 3 then
    if length <? 5 then inl FrameIncomplete
    else
      let host_length := at_ b 4 in
      if (host_length =? 0) || (EGRESS_MAX_HOST <? host_length) then inl FrameProtocol
      else if length <? 5 + host_length + 2 then inl FrameIncomplete
      else if has_char 0 (ztake host_length (zdrop 5 b)) then inl FrameProtocol
      else inr (ztake host_length (zdrop 5 b), 5, host_length)
  else inl FrameProtocol.

Definition egress_parse_socks_frame `{Inet} (b : bytes) (config : maelys_egress_config)
    (s : socks_state) : frame_result * socks_state :=
  let length := len b in
  if (phase s <? 0) || (2 <? phase s) then (FrameProtocol, s)
  else
    let s := s <| out_consumed := 0 |> <| out_response := [] |> in
    if phase s =? 0 then
      if length <? 2 then (FrameIncomplete, s)
      else if negb (at_ b 0 =? 5) || (at_ b 1 =? 0) then (FrameProtocol, s)
      else
        let needed := 2 + at_ b 1 in
        if length <? needed then (FrameIncomplete, s)
        else
          let '(endpoint_bound, found) := lookup_identity (egress_unix_principal_lookup config) in
          let wanted := if endpoint_bound then 0 else if authentication_set config then 2 else 0 in
          let offered := has_char wanted (ztake (at_ b 1) (zdrop 2 b)) in
          let s := s <| authenticated_identity := found |>
                     <| out_response := [5; if offered then wanted else 0xff] |>
                     <| out_consumed := needed |> in
          if negb offered then (FrameProtocol, s)
          else (FrameConsumed, s <| phase := if wanted =? 2 then 1 else 2 |>)
    else if phase s =? 1 then
      if length <? 2 then (FrameIncomplete, s)
      else if negb (at_ b 0 =? 1) then (FrameProtocol, s)
      else
        let user_length := at_ b 1 in
        if user_length =? 0 then (FrameProtocol, s)
        else if length <? 3 + user_length then (FrameIncomplete, s)
        else
          let secret_length := at_ b (2 + user_length) in
          let needed := 3 + user_length + secret_length in
          if secret_length =? 0 then (FrameProtocol, s)
          else if length <? needed then (FrameIncomplete, s)
          else
            let valid_sizes := (user_length <=? EGRESS_MAX_USERNAME) &&
                               (secret_length <=? EGRESS_MAX_SECRET) in
            let username_ := cstr (ztake user_length (zdrop 2 b)) in
            let secret_ := cstr (ztake secret_length (zdrop (3 + user_length) b)) in
            let '(authenticated_, found) :=
              if valid_sizes
              then lookup_identity (egress_credentials_lookup config (Some username_) secret_)
              else (false, authenticated_identity s) in
            let s := s <| authenticated_identity := found |>
                       <| out_response := [1; if authenticated_ then 0 else 1] |>
                       <| out_consumed := needed |> in
            if negb authenticated_ then (FrameAuthentication, s)
            else (FrameConsumed, s <| phase := 2 |>)
    else if length <? 4 then (FrameIncomplete, s)
    else if negb (at_ b 0 =? 5) || negb (at_ b 1 =? 1) || negb (at_ b 2 =? 0)
    then (FrameProtocol, s)
    else
      match request_address b with
      | inl result => (result, s)
      | inr (raw_host, host_offset, host_length) =>
          let port_offset := host_offset + host_length in
          if length <? port_offset + 2 then (FrameIncomplete, s)
          else
            let port_ := u16 (Z.lor (u16 (Z.shiftl (at_ b port_offset) 8))
                                    (at_ b (port_offset + 1))) in
            let consumed_ := port_offset + 2 in
            if port_ =? 0 then (FrameProtocol, s)
            else match egress_canonical_host raw_host with
                 | None => (FrameProtocol, s)
                 | Some host =>
                     let found := authenticated_identity s in
                     (FrameRequest
                        (Request MAELYS_EGRESS_PROTOCOL_SOCKS5 host port_ consumed_ []
                           (snprintf_s (EGRESS_MAX_INVOCATION_ID + 1) found.1, found.2)),
                      s <| out_consumed := consumed_ |>)
                 end
      end.

(** * Wire formats *)

Definition encode_greeting (methods : bytes) : bytes := 5 :: len methods :: methods.

Definition encode_credentials (user secret_ : bytes) : bytes :=
  1 :: len user :: user ++ len secret_ :: secret_.

Inductive socks_address :=
| AddressV4 (b : bytes)
| AddressV6 (b : bytes)
| AddressDomain (name : bytes).

Definition encode_address (a : socks_address) : bytes :=
  match a with
  | AddressV4 b => 1 :: b
  | AddressV6 b => 4 :: b
  | AddressDomain name => 3 :: len name :: name
  end.

Definition encode_request (a : socks_address) (port_ : Z) : bytes :=
  [5; 1; 0] ++ encode_address a ++ [port_ / 256; port_ mod 256].

Definition address_wf (a : socks_address) : Prop :=
  match a with
  | AddressV4 b => len b = 4
  | AddressV6 b => len b = 16
  | AddressDomain name => 1 <= len name <= EGRESS_MAX_HOST /\ nul_free name
  end.

Definition socks_host `{Inet} (a : socks_address) : option bytes :=
  match a with
  | AddressV4 b => inet_ntop4 b
  | AddressV6 b => inet_ntop6 b
  | AddressDomain name => Some name
  end.

(** * Indexing *)

Lemma at_app_l a b i : 0 <= i < len a -> at_ (a ++ b) i = at_ a i.
Proof. unfold at_, len. intros. apply app_nth1. lia. Qed.

Lemma at_app_here a x b i : i = len a -> at_ (a ++ x :: b) i = x.
Proof. intros ->. unfold at_, len. rewrite Nat2Z.id, app_nth2 by lia. by rewrite Nat.sub_diag. Qed.

Lemma slice_app {A} i n (a b : list A) :
  0 <= i -> 0 <= n -> i + n <= len a -> ztake n (zdrop i (a ++ b)) = ztake n (zdrop i a).
Proof.
  unfold ztake, zdrop, len. intros. rewrite drop_app_le by lia. apply take_app_le.
  rewrite length_drop. lia.
Qed.

Lemma slice_here {A} i n (a b c : list A) :
  i = len a -> n = len b -> ztake n (zdrop i (a ++ b ++ c)) = b.
Proof. intros -> ->. by rewrite zdrop_app_len, ztake_app_len. Qed.

(** A list with a slice of [n] elements behind the first [i]. *)
Lemma slice_split {A} i n (b : list A) :
  0 <= i -> 0 <= n -> i + n <= len b ->
  exists a x c, b = a ++ x ++ c /\ len a = i /\ len x = n.
Proof.
  intros Hi Hn Hl. exists (ztake i b), (ztake n (zdrop i b)), (zdrop n (zdrop i b)).
  rewrite !ztake_zdrop. split; [done|]. rewrite !len_ztake; [done| |lia].
  rewrite len_zdrop; lia.
Qed.

Lemma at_byte b i : Forall is_byte b -> is_byte (at_ b i).
Proof.
  intros Hb. unfold at_. destruct (decide (Z.to_nat i < length b)%nat).
  - rewrite Forall_forall in Hb. apply Hb. rewrite list_elem_of_In. by apply nth_In.
  - rewrite nth_overflow by lia. unfold is_byte. lia.
Qed.

Section Frames.
Context `{Inet} (config : maelys_egress_config).
Set Default Proof Using "Type".

(** Bytes are either missing in the shorter buffer or there in both. *)
Ltac both_have b x :=
  match goal with |- context [len b <? ?k] =>
    destruct (Z.ltb_spec (len b) k); [done|];
    rewrite (proj2 (Z.ltb_ge (len b + len x) k)) by lia
  end.

Lemma request_address_stable b x :
  Forall is_byte b -> 4 <= len b -> request_address b <> inl FrameIncomplete ->
  request_address (b ++ x) = request_address b.
Proof.
  intros Hb Hl. unfold request_address. cbn zeta. pose proof (at_byte b 4 Hb) as H4. unfold is_byte in H4.
  pose proof (len_nonneg x). rewrite !len_app, !(at_app_l b x 3) by lia.
  destruct (at_ b 3 =? 1); [both_have b x; by rewrite slice_app by lia|].
  destruct (at_ b 3 =? 4); [both_have b x; by rewrite slice_app by lia|].
  destruct (at_ b 3 =? 3); [|done]. both_have b x. rewrite !(at_app_l b x 4) by lia.
  destruct (_ || _); [done|]. both_have b x. by rewrite slice_app by lia.
Qed.

(** The verdict on a frame does not depend on how the bytes arrive: once
    it is not that more bytes are needed, further bytes change neither it nor
    what is consumed, answered or identified. *)
Theorem socks_frame_stable b x s :
  Forall is_byte b -> (egress_parse_socks_frame b config s).1 <> FrameIncomplete ->
  egress_parse_socks_frame (b ++ x) config s = egress_parse_socks_frame b config s.
Proof.
  intros Hb. unfold egress_parse_socks_frame. pose proof (fun i => at_byte b i Hb) as Hat. unfold is_byte in Hat.
  pose proof (len_nonneg x). rewrite !len_app. pose proof (Hat 1).
  destruct (_ || (2 <? phase s)); [done|]. cbn zeta. cbn [phase update].
  destruct (phase s =? 0).
  { both_have b x. rewrite !(at_app_l b x) by lia. destruct (_ || _); [done|]. both_have b x.
    by rewrite slice_app by lia. }
  destruct (phase s =? 1).
  { both_have b x. rewrite !(at_app_l b x 0), !(at_app_l b x 1) by lia. destruct (negb _); [done|].
    destruct (at_ b 1 =? 0); [done|]. both_have b x. pose proof (Hat (2 + at_ b 1)).
    rewrite !(at_app_l b x (2 + at_ b 1)) by lia. destruct (_ =? 0); [done|]. both_have b x.
    by rewrite !slice_app by lia. }
  both_have b x. rewrite !(at_app_l b x) by lia. destruct (_ || _); [done|].
  destruct (request_address b) as [r|[[raw offset] n]] eqn:E.
  - destruct r; try done; rewrite request_address_stable; try done; rewrite E; done.
  - rewrite request_address_stable by (done || lia || by rewrite E). rewrite E.
    assert (0 <= offset /\ 0 <= n) as [? ?].
    { unfold request_address in E. pose proof (Hat 4). repeat case_match; simplify_eq; lia. }
    both_have b x. by rewrite !(at_app_l b x) by lia.
Qed.

Lemma request_address_encode a rest :
  address_wf a -> (exists p0 p1 rest', rest = p0 :: p1 :: rest') ->
  request_address ([5; 1; 0] ++ encode_address a ++ rest) =
  match socks_host a with
  | None => inl FrameProtocol
  | Some text => inr (text, match a with AddressDomain _ => 5 | _ => 4 end, len (encode_address a) -
                        match a with AddressDomain _ => 2 | _ => 1 end)
  end.
Proof.
  intros Ha (p0 & p1 & rest' & ->). pose proof (len_nonneg rest') as Hr.
  destruct a as [x|x|x]; cbn [encode_address socks_host] in *; unfold request_address; cbn zeta.
  - change ([5; 1; 0] ++ (1 :: x) ++ ?r) with ([5; 1; 0; 1] ++ x ++ r). cbn [address_wf] in Ha.
    change (at_ ([5; 1; 0; 1] ++ _) 3 =? 1) with true. cbn iota.
    rewrite !len_app, !len_cons, (slice_here 4 4) by done.
    rewrite Ha, (proj2 (Z.ltb_ge _ _)) by (rewrite len_nil; lia). by destruct (inet_ntop4 x).
  - change ([5; 1; 0] ++ (4 :: x) ++ ?r) with ([5; 1; 0; 4] ++ x ++ r). cbn [address_wf] in Ha.
    change (at_ ([5; 1; 0; 4] ++ _) 3 =? 1) with false. change (at_ ([5; 1; 0; 4] ++ _) 3 =? 4) with true.
    cbn iota. rewrite !len_app, !len_cons, (slice_here 4 16) by done.
    rewrite Ha, (proj2 (Z.ltb_ge _ _)) by (rewrite len_nil; lia). by destruct (inet_ntop6 x).
  - change ([5; 1; 0] ++ (3 :: len x :: x) ++ ?r) with ([5; 1; 0; 3; len x] ++ x ++ r). destruct Ha as [Ha Hn].
    change (at_ ([5; 1; 0; 3; len x] ++ _) 3) with 3. change (at_ ([5; 1; 0; 3; len x] ++ _) 4) with (len x).
    change (3 =? 1) with false. change (3 =? 4) with false. change (3 =? 3) with true. cbn iota.
    rewrite !len_app, !len_cons, len_nil, (slice_here 5 (len x)) by done.
    rewrite !(proj2 (Z.ltb_ge _ _)), (proj2 (Z.eqb_neq _ 0)) by lia. cbn [orb].
    rewrite (proj2 (has_char_false 0 x)) by done. repeat f_equal. lia.
Qed.

(** The wire format of a port. *)
Lemma socks_port p0 p1 :
  is_byte p0 -> is_byte p1 -> u16 (Z.lor (u16 (Z.shiftl p0 8)) p1) = p0 * 256 + p1.
Proof.
  unfold is_byte, u16. intros. rewrite (Z.mod_small (Z.shiftl p0 8)) by (rewrite Z.shiftl_mul_pow2; lia).
  rewrite lor8 by (unfold is_byte; lia). apply Z.mod_small. lia.
Qed.

Lemma encode_address_length a : address_wf a -> 3 <= len (encode_address a) - match a with AddressDomain _ => 0 | _ => 1 end.
Proof. destruct a; simpl; rewrite !len_cons; lia. Qed.

Lemma parse_request a p0 p1 rest s :
  address_wf a -> is_byte p0 -> is_byte p1 -> phase s = 2 ->
  (egress_parse_socks_frame (([5; 1; 0] ++ encode_address a ++ [p0; p1]) ++ rest) config s).1 =
  if p0 * 256 + p1 =? 0 then FrameProtocol
  else match socks_host a ≫= egress_canonical_host with
       | None => FrameProtocol
       | Some host =>
           FrameRequest (Request MAELYS_EGRESS_PROTOCOL_SOCKS5 host (p0 * 256 + p1)
             (len ([5; 1; 0] ++ encode_address a ++ [p0; p1])) []
             (snprintf_s (EGRESS_MAX_INVOCATION_ID + 1) (authenticated_identity s).1,
              (authenticated_identity s).2))
       end.
Proof.
  intros Ha H0 H1 Hp. unfold egress_parse_socks_frame. cbn zeta. cbn [phase update]. rewrite Hp.
  change ((2 <? 0) || (2 <? 2)) with false. change (2 =? 0) with false. change (2 =? 1) with false. cbn iota.
  pose proof (encode_address_length a Ha) as Hl. pose proof (len_nonneg rest).
  set (pre := [5; 1; 0] ++ encode_address a).
  assert (Epre : len pre = 3 + len (encode_address a)) by (unfold pre; rewrite len_app; done).
  assert (Eb : ([5; 1; 0] ++ encode_address a ++ [p0; p1]) ++ rest = pre ++ p0 :: p1 :: rest)
    by (unfold pre; rewrite <-!app_assoc; done).
  assert (Ec : [5; 1; 0] ++ encode_address a ++ [p0; p1] = pre ++ [p0; p1]) by (unfold pre; by rewrite <-!app_assoc).
  rewrite Eb, Ec. assert (Elen : len (pre ++ p0 :: p1 :: rest) = len pre + 2 + len rest) by (rewrite len_app, !len_cons; lia).
  rewrite Elen. rewrite (proj2 (Z.ltb_ge _ 4)) by (destruct a; lia).
  pose proof (request_address_encode a (p0 :: p1 :: rest) Ha ltac:(eauto)) as Er.
  rewrite app_assoc in Er. fold pre in Er.
  rewrite Er. change (at_ (pre ++ _) 0 =? 5) with true.
  change (at_ (pre ++ _) 1 =? 1) with true. change (at_ (pre ++ _) 2 =? 0) with true. cbn [negb orb].
  destruct (socks_host a) as [text|]; cbn [mbind option_bind]; [|by destruct (_ =? 0)].
  set (offset := match a with AddressDomain _ => 5 | _ => 4 end).
  set (n := len (encode_address a) - _).
  assert (Eo : offset + n = len pre) by (unfold offset, n; destruct a; lia).
  rewrite Eo. rewrite (proj2 (Z.ltb_ge _ _)) by lia.
  rewrite (at_app_here pre p0) by done.
  assert (E1 : at_ (pre ++ p0 :: p1 :: rest) (len pre + 1) = p1).
  { change (p0 :: p1 :: rest) with ([p0] ++ p1 :: rest). rewrite app_assoc. apply at_app_here. by rewrite len_app. }
  rewrite E1, socks_port by done. destruct (_ =? 0); [done|].
  destruct (egress_canonical_host text); [|done]. cbn [fst]. f_equal. f_equal. by rewrite len_app.
Qed.

(** A request that parses has the wire format. *)
Lemma request_shape b s r :
  Forall is_byte b -> phase s = 2 -> (egress_parse_socks_frame b config s).1 = FrameRequest r ->
  exists a p0 p1 rest, address_wf a /\ is_byte p0 /\ is_byte p1 /\
    b = ([5; 1; 0] ++ encode_address a ++ [p0; p1]) ++ rest.
Proof.
  intros Hb Hp. unfold egress_parse_socks_frame. cbn zeta. cbn [phase update]. rewrite Hp.
  change ((2 <? 0) || (2 <? 2)) with false. change (2 =? 0) with false. change (2 =? 1) with false. cbn iota.
  destruct (Z.ltb_spec (len b) 4) as [|Hl]; [done|].
  destruct b as [|b0 [|b1 [|b2 [|b3 t]]]]; [by rewrite ?len_cons, len_nil in Hl..|].
  change (at_ (b0 :: _) 0) with b0. change (at_ (b0 :: b1 :: _) 1) with b1. change (at_ (b0 :: b1 :: b2 :: _) 2) with b2.
  destruct (Z.eqb_spec b0 5) as [->|]; [|done]. destruct (Z.eqb_spec b1 1) as [->|]; [|done].
  destruct (Z.eqb_spec b2 0) as [->|]; [|done]. cbn [negb orb].
  rewrite !Forall_cons in Hb. destruct Hb as (_ & _ & _ & _ & Ht).
  assert (Hs : forall n, 0 <= n -> n + 2 <= len t -> exists x p0 p1 rest, t = x ++ [p0; p1] ++ rest /\ len x = n /\
    is_byte p0 /\ is_byte p1).
  { intros n Hn Hlt. destruct (slice_split n 2 t) as (x & [|p0 [|p1 [|? ?]]] & c & -> & Hx & Hy); try done; try lia.
    - exists x, p0, p1, c. rewrite !Forall_app, !Forall_cons in Ht. by destruct Ht as (_ & (? & ? & _) & _).
    - rewrite !len_cons in Hy. pose proof (len_nonneg l). lia. }
  unfold request_address. cbn zeta. change (at_ (5 :: 1 :: 0 :: b3 :: _) 3) with b3. rewrite !len_cons.
  destruct (Z.eqb_spec b3 1) as [->|N1].
  { destruct (_ <? 10) eqn:E10; [done|]. destruct (Hs 4) as (x & p0 & p1 & rest & -> & Hx & ? & ?); [lia..|]. intros _.
    exists (AddressV4 x), p0, p1, rest. split_and!; [done..|]. simpl. by rewrite <-app_assoc. }
  destruct (Z.eqb_spec b3 4) as [->|N4].
  { destruct (_ <? 22) eqn:E22; [done|]. destruct (Hs 16) as (x & p0 & p1 & rest & -> & Hx & ? & ?); [lia..|]. intros _.
    exists (AddressV6 x), p0, p1, rest. split_and!; [done..|]. simpl. by rewrite <-app_assoc. }
  destruct (Z.eqb_spec b3 3) as [->|N3]; [|done]. destruct (_ <? 5) eqn:E5; [done|].
  destruct t as [|n t]; [by rewrite len_nil in E5|]. change (at_ (5 :: 1 :: 0 :: 3 :: n :: _) 4) with n.
  destruct (_ || _) eqn:En; [done|]. apply orb_false_iff in En as [En%Z.eqb_neq En'%Z.ltb_ge].
  rewrite len_cons. destruct (_ <? 5 + n + 2) eqn:El; [done|]. apply Forall_cons in Ht as [Hnb Ht]. unfold is_byte in Hnb.
  change (zdrop 5 (5 :: 1 :: 0 :: 3 :: n :: t)) with t.
  destruct (has_char 0 (ztake n t)) eqn:Ez; [done|]. apply has_char_false in Ez.
  destruct (slice_split n 2 t) as (x & [|p0 [|p1 [|? ?]]] & c & -> & Hx & Hy); try done; try lia.
  2: { rewrite !len_cons in Hy. pose proof (len_nonneg l). lia. }
  rewrite <-Hx, ztake_app_len in Ez. intros _. rewrite !Forall_app, !Forall_cons in Ht. destruct Ht as (_ & (? & ? & _) & _).
  exists (AddressDomain x), p0, p1, c. split; [|split; [done|split; [done|]]].
  - split; [lia|exact Ez].
  - simpl. by rewrite Hx, <-app_assoc.
Qed.

(** C24: a request frame is accepted exactly when it starts with the encoding
    of an address and a port that is not zero, with the name of the host free
    of NUL, within the bound and canonical; the request names that host and
    port, consumes exactly the frame and belongs to the identity the handshake
    established. *)
Theorem socks_request_exact b s r :
  Forall is_byte b -> phase s = 2 ->
  (egress_parse_socks_frame b config s).1 = FrameRequest r <->
  exists a port_ rest text host,
    b = encode_request a port_ ++ rest /\ address_wf a /\ 0 < port_ < 2 ^ 16 /\
    socks_host a = Some text /\ egress_canonical_host text = Some host /\
    r = Request MAELYS_EGRESS_PROTOCOL_SOCKS5 host port_ (len (encode_request a port_)) []
          (snprintf_s (EGRESS_MAX_INVOCATION_ID + 1) (authenticated_identity s).1,
           (authenticated_identity s).2).
Proof.
  intros Hb Hp. split.
  - intros E. destruct (request_shape b s r Hb Hp E) as (a & p0 & p1 & rest & Ha & H0 & H1 & ->).
    rewrite parse_request in E by done. destruct (Z.eqb_spec (p0 * 256 + p1) 0); [done|].
    destruct (socks_host a) as [text|] eqn:Et; [|done]. cbn [mbind option_bind] in E.
    destruct (egress_canonical_host text) as [host|] eqn:Eh; [|done]. apply (f_equal (fun x => match x with FrameRequest r => Some r | _ => None end)) in E.
    unfold is_byte in *. exists a, (p0 * 256 + p1), rest, text, host.
    assert (Er : encode_request a (p0 * 256 + p1) = [5; 1; 0] ++ encode_address a ++ [p0; p1]).
    { unfold encode_request. repeat f_equal; zlia. }
    rewrite Er. split_and!; try done; [lia|lia|]. by injection E as <-.
  - intros (a & port_ & rest & text & host & -> & Ha & Hport & Et & Eh & ->). unfold encode_request.
    rewrite parse_request; [|done|unfold is_byte; zlia|unfold is_byte; zlia|done].
    assert (E : port_ / 256 * 256 + port_ mod 256 = port_) by zlia. rewrite E, (proj2 (Z.eqb_neq _ 0)) by lia.
    rewrite Et. cbn [mbind option_bind]. by rewrite Eh.
Qed.

(** ** The handshake *)

(** The method the configuration asks for. *)
Definition wanted_method : Z :=
  if (lookup_identity (egress_unix_principal_lookup config)).1 then 0
  else if authentication_set config then 2 else 0.

Lemma greeting_consumed b s s' :
  Forall is_byte b -> phase s = 0 -> egress_parse_socks_frame b config s = (FrameConsumed, s') ->
  exists methods rest, b = encode_greeting methods ++ rest /\
    ztake (out_consumed s') b = encode_greeting methods /\ wanted_method ∈ methods /\
    phase s' = (if wanted_method =? 2 then 1 else 2) /\
    authenticated_identity s' = (lookup_identity (egress_unix_principal_lookup config)).2.
Proof.
  intros Hb Hp. unfold egress_parse_socks_frame. cbn zeta. cbn [phase update]. rewrite Hp.
  change ((0 <? 0) || (2 <? 0)) with false. change (0 =? 0) with true. cbn iota.
  destruct (Z.ltb_spec (len b) 2) as [|Hl]; [done|].
  destruct b as [|b0 [|n t]]; [by rewrite ?len_cons, len_nil in Hl..|].
  change (at_ (b0 :: _) 0) with b0. change (at_ (b0 :: n :: t) 1) with n.
  destruct (Z.eqb_spec b0 5) as [->|]; [|done]. cbn [negb orb]. destruct (n =? 0); [done|].
  rewrite !len_cons. destruct (Z.ltb_spec (1 + (1 + len t)) (2 + n)) as [|Hn]; [done|].
  rewrite !Forall_cons in Hb. destruct Hb as (_ & Hnb & _). unfold is_byte in Hnb.
  destruct (lookup_identity _) as [bound found] eqn:El. cbn [fst snd].
  assert (Ew : (if bound then 0 else if authentication_set config then 2 else 0) = wanted_method)
    by (unfold wanted_method; by rewrite El).
  rewrite Ew. change (zdrop 2 (5 :: n :: t)) with t.
  destruct (has_char wanted_method (ztake n t)) eqn:Ec; [|done]. cbn [negb]. intros [= <-].
  cbn [phase out_consumed authenticated_identity update]. apply has_char_spec in Ec.
  assert (Eln : len (ztake n t) = n) by (apply len_ztake; lia).
  exists (ztake n t), (zdrop n t). unfold encode_greeting. rewrite Eln. split_and!; try done.
  - cbn [app]. by rewrite ztake_zdrop.
  - unfold ztake. by replace (Z.to_nat (2 + n)) with (S (S (Z.to_nat n))) by lia.
Qed.

Lemma credentials_consumed b s s' :
  Forall is_byte b -> phase s = 1 -> egress_parse_socks_frame b config s = (FrameConsumed, s') ->
  exists user secret_ rest inv i, b = encode_credentials user secret_ ++ rest /\
    ztake (out_consumed s') b = encode_credentials user secret_ /\ phase s' = 2 /\
    egress_credentials_lookup config (Some (cstr user)) (cstr secret_) = Some (inv, i) /\
    authenticated_identity s' = (inv, Some i).
Proof.
  intros Hb Hp. unfold egress_parse_socks_frame. cbn zeta. cbn [phase update authenticated_identity]. rewrite Hp.
  change ((1 <? 0) || (2 <? 1)) with false. change (1 =? 0) with false. change (1 =? 1) with true. cbn iota.
  destruct (Z.ltb_spec (len b) 2) as [|Hl]; [done|].
  destruct b as [|b0 [|n t]]; [by rewrite ?len_cons, len_nil in Hl..|].
  change (at_ (b0 :: _) 0) with b0. change (at_ (b0 :: n :: t) 1) with n.
  destruct (Z.eqb_spec b0 1) as [->|]; [|done]. cbn [negb]. destruct (n =? 0); [done|].
  rewrite !len_cons. destruct (Z.ltb_spec (1 + (1 + len t)) (3 + n)) as [|Hn]; [done|].
  rewrite !Forall_cons in Hb. destruct Hb as (_ & Hnb & Ht). unfold is_byte in Hnb.
  destruct (slice_split n 1 t) as (user & [|k [|? ?]] & c & -> & Hu & Hk); [lia..|done| |].
  2: { rewrite !len_cons in Hk. pose proof (len_nonneg l). lia. }
  change (1 :: n :: user ++ [k] ++ c) with (([1; n] ++ user) ++ k :: c).
  rewrite (at_app_here ([1; n] ++ user) k) by (rewrite len_app; change (len [1; n]) with 2; lia).
  destruct (k =? 0); [done|]. rewrite !len_app, Hu. change (len [k]) with 1.
  destruct (Z.ltb_spec (1 + (1 + (n + (1 + len c)))) (3 + n + k)) as [|Hc]; [done|].
  rewrite !Forall_app, !Forall_cons in Ht. destruct Ht as (_ & (Hkb & _) & _). unfold is_byte in Hkb.
  assert (Hs : len (ztake k c) = k) by (apply len_ztake; lia).
  rewrite <-(app_assoc [1; n] user), (slice_here 2 n [1; n] user) by done.
  replace ([1; n] ++ user ++ k :: c) with (([1; n] ++ user ++ [k]) ++ ztake k c ++ zdrop k c)
    by (rewrite ztake_zdrop, <-!app_assoc; done).
  rewrite (slice_here (3 + n) k) by (done || rewrite !len_app, Hu; change (len [1; n]) with 2; change (len [k]) with 1; lia).
  destruct (_ && _); [|done].
  destruct (egress_credentials_lookup config _ _) as [[inv i]|] eqn:E; cbn [lookup_identity negb]; [|done].
  intros [= <-]. cbn [phase out_consumed authenticated_identity update].
  exists user, (ztake k c), (zdrop k c), inv, i.
  assert (Ee : encode_credentials user (ztake k c) = ([1; n] ++ user ++ [k]) ++ ztake k c).
  { unfold encode_credentials. rewrite Hu, Hs, <-!app_assoc. done. }
  assert (El : 3 + n + k = len (([1; n] ++ user ++ [k]) ++ ztake k c)).
  { rewrite !len_app, Hu, Hs. change (len [1; n]) with 2. change (len [k]) with 1. lia. }
  split_and!; [by rewrite Ee, (app_assoc _ (ztake k c) (zdrop k c))| |done..].
  rewrite Ee, El, (app_assoc _ (ztake k c) (zdrop k c)). apply ztake_app_len.
Qed.

(** The frames consumed since the connection started, and the state they
    leave. *)
Inductive handshake : bytes -> socks_state -> Prop :=
| handshake_start inv i : handshake [] (Socks 0 0 [] (inv, i))
| handshake_frame history s b s' :
    handshake history s -> Forall is_byte b ->
    egress_parse_socks_frame b config s = (FrameConsumed, s') ->
    handshake (history ++ ztake (out_consumed s') b) s'.

Definition handshake_inv (history : bytes) (s : socks_state) : Prop :=
  (history = [] /\ phase s = 0) \/
  (exists methods, history = encode_greeting methods /\ wanted_method ∈ methods /\
    authenticated_identity s = (lookup_identity (egress_unix_principal_lookup config)).2 /\
    phase s = (if wanted_method =? 2 then 1 else 2)) \/
  (exists methods user secret_ inv i,
    history = encode_greeting methods ++ encode_credentials user secret_ /\
    wanted_method = 2 /\ 2 ∈ methods /\ phase s = 2 /\
    egress_credentials_lookup config (Some (cstr user)) (cstr secret_) = Some (inv, i) /\
    authenticated_identity s = (inv, Some i)).

Lemma handshake_phases b s s' :
  phase s = 2 -> egress_parse_socks_frame b config s = (FrameConsumed, s') -> False.
Proof.
  intros Hp. unfold egress_parse_socks_frame. cbn zeta. cbn [phase update]. rewrite Hp.
  change ((2 <? 0) || (2 <? 2)) with false. change (2 =? 0) with false. change (2 =? 1) with false. cbn iota.
  destruct (_ <? 4); [done|]. destruct (_ || _); [done|].
  assert (Hr : request_address b <> inl FrameConsumed) by (unfold request_address; repeat case_match; done).
  intros E. repeat (case_match; simplify_eq; try done).
Qed.

Lemma handshake_ok history s : handshake history s -> handshake_inv history s.
Proof.
  induction 1 as [inv i|history s b s' _ IH Hb E]; [by left|].
  destruct IH as [[-> Hp]|[(methods & -> & Hw & Hi & Hp)|(m & u & c & inv & i & _ & _ & _ & Hp & _)]].
  - destruct (greeting_consumed b s s' Hb Hp E) as (methods & rest & -> & Ht & Hw & Hp' & Hi).
    right. left. exists methods. by rewrite Ht.
  - destruct (Z.eqb_spec wanted_method 2) as [Ew|Ew]; [|by destruct (handshake_phases b s s' Hp E)].
    destruct (credentials_consumed b s s' Hb Hp E) as (user & secret_ & rest & inv & i & -> & Ht & Hp' & Hl & Hi').
    right. right. exists methods, user, secret_, inv, i. rewrite Ht. rewrite Ew in Hw. by split_and!.
  - by destruct (handshake_phases b s s' Hp E).
Qed.

(** A request comes in the last phase, with the identity kept before. *)
Lemma request_identified b s r s' :
  egress_parse_socks_frame b config s = (FrameRequest r, s') ->
  phase s = 2 /\
  request_identity r =
    (snprintf_s (EGRESS_MAX_INVOCATION_ID + 1) (authenticated_identity s).1, (authenticated_identity s).2).
Proof.
  assert (Hr : forall r', request_address b <> inl (FrameRequest r')) by (unfold request_address; intros; repeat case_match; done).
  unfold egress_parse_socks_frame. destruct (_ || _) eqn:Eo; [done|]. apply orb_false_iff in Eo as [E1 E2]. cbn zeta.
  cbn [phase update authenticated_identity]. destruct (Z.eqb_spec (phase s) 0); [intros E; repeat (case_match; simplify_eq; try done)|].
  destruct (Z.eqb_spec (phase s) 1); [intros E; repeat (case_match; simplify_eq; try done)|].
  intros E. split; [lia|]. repeat (case_match; simplify_eq/=; try done); congruence.
Qed.

(** C23: when credentials are required and no principal is bound to the
    endpoint, a SOCKS client gets a request through only after a greeting that
    offers the user name method and credentials of a configured principal, and
    that principal is the identity the request carries. *)
Theorem socks_authenticated history s b r s' :
  reachable config -> handshake history s ->
  egress_parse_socks_frame b config s = (FrameRequest r, s') ->
  authentication_set config = true -> egress_unix_principal_lookup config = None ->
  exists methods user secret_ i p,
    history = encode_greeting methods ++ encode_credentials user secret_ /\ 2 ∈ methods /\
    principals config !! i = Some p /\ holds_credentials (Some (cstr user)) (cstr secret_) p /\
    request_identity r = (invocation_id p, Some i).
Proof.
  intros Hreach Hh [Hp Hid]%request_identified Ha Hu. apply handshake_ok in Hh.
  assert (Ew : wanted_method = 2) by (unfold wanted_method; by rewrite Hu, Ha).
  destruct Hh as [[_ ?]|[(methods & _ & _ & _ & Hp')|(methods & user & secret_ & inv & i & -> & _ & Hm & _ & Hl & Hi)]].
  - congruence.
  - rewrite Ew in Hp'. simpl in Hp'. congruence.
  - apply reachable_ok in Hreach as Hok.
    apply credentials_lookup_spec in Hl as (_ & p & Hpi & Hh & ->); [|done|apply cstr_no_nul|apply cstr_no_nul].
    exists methods, user, secret_, i, p. split_and!; [done..|]. rewrite Hid, Hi. cbn [fst snd]. rewrite snprintf_s_id; [done|].
    pose proof (ok_identities config Hok) as Hids. rewrite Forall_lookup in Hids. destruct (Hids _ _ Hpi). lia.
Qed.

End Frames.

(** ** Examples *)

Definition start_state : socks_state := Socks 0 0 [] no_identity.
Definition request_state : socks_state := start_state <| phase := 2 |>.

Definition greeting_example : bytes := encode_greeting [0; 2].
Definition credentials_example : bytes := encode_credentials (str "agent") (str "0123456789abcdef").
Definition request_example : bytes := encode_request (AddressDomain (str "Host.Example")) 443.

Lemma socks_frame_stable_witness :
  @egress_parse_socks_frame dotted_inet (greeting_example ++ [1]) example_config start_state =
  @egress_parse_socks_frame dotted_inet greeting_example example_config start_state.
Proof. apply (@socks_frame_stable dotted_inet); [byte_list|vm_compute; discriminate]. Defined.

Lemma socks_request_exact_witness :
  (@egress_parse_socks_frame dotted_inet request_example example_config request_state).1 =
  FrameRequest (Request MAELYS_EGRESS_PROTOCOL_SOCKS5 (str "host.example") 443 (len request_example) []
    ([], None)).
Proof.
  apply (@socks_request_exact dotted_inet example_config); [byte_list|reflexivity|].
  exists (AddressDomain (str "Host.Example")), 443, [], (str "Host.Example"), (str "host.example").
  split; [reflexivity|]. split; [split; [vm_compute; split; discriminate|apply has_char_false; reflexivity]|].
  split; [lia|]. split; [reflexivity|]. split; [vm_compute; reflexivity|reflexivity].
Defined.

Lemma socks_authenticated_witness :
  exists s r s', @handshake dotted_inet example_config (greeting_example ++ credentials_example) s /\
    @egress_parse_socks_frame dotted_inet request_example example_config s = (FrameRequest r, s') /\
    exists methods user secret_ i p,
      greeting_example ++ credentials_example = encode_greeting methods ++ encode_credentials user secret_ /\
      principals example_config !! i = Some p /\ request_identity r = (invocation_id p, Some i).
Proof.
  set (s1 := (@egress_parse_socks_frame dotted_inet greeting_example example_config start_state).2).
  set (s2 := (@egress_parse_socks_frame dotted_inet credentials_example example_config s1).2).
  assert (Hh : @handshake dotted_inet example_config (greeting_example ++ credentials_example) s2).
  { change (greeting_example ++ credentials_example)
      with (([] ++ ztake (out_consumed s1) greeting_example) ++ ztake (out_consumed s2) credentials_example).
    apply (handshake_frame _ _ s1); [|byte_list|vm_compute; reflexivity].
    apply (handshake_frame _ _ start_state); [apply handshake_start|byte_list|vm_compute; reflexivity]. }
  set (r := Request MAELYS_EGRESS_PROTOCOL_SOCKS5 (str "host.example") 443 (len request_example) [] (str "run-1", Some 0%nat)).
  set (s3 := (@egress_parse_socks_frame dotted_inet request_example example_config s2).2).
  assert (Er : @egress_parse_socks_frame dotted_inet request_example example_config s2 = (FrameRequest r, s3))
    by (vm_compute; reflexivity).
  exists s2, r, s3. split; [exact Hh|]. split; [exact Er|].
  destruct (@socks_authenticated dotted_inet example_config _ s2 _ r s3 example_config_reachable Hh Er) as
    (methods & user & secret_ & i & p & He & _ & Hp & _ & Hi); [reflexivity..|].
  exists methods, user, secret_, i, p. split; [exact He|]. split; [exact Hp|exact Hi].
Defined.
