(* ===== verification/ClientHello.v ===== *)
(** The TLS ClientHello guard (src/core/clienthello.c).

    The records are reassembled, the handshake message is walked and its server
    name compared with the destination.  The theorems give the messages that
    pass as an encoder: a ClientHello with exactly one DNS server name, which is
    the destination, and without encrypted ClientHello. *)

From S2P Require Import Prelude Common Config Http Socks.

(** * Definitions *)

(** The results 0, 1 and -1. *)
Inductive hello_result := HelloIncomplete | HelloMatch | HelloRejected.

Definition read_u16 (p : bytes) : Z := u16 (Z.lor (u16 (Z.shiftl (at_ p 0) 8)) (at_ p 1)).

Definition read_u24 (p : bytes) : Z :=
  Z.lor (Z.lor (Z.shiftl (at_ p 0) 16) (Z.shiftl (at_ p 1) 8)) (at_ p 2).

(** The loop over the records; [rest] is what is behind [offset].  A record
    takes at least six bytes, so the length of the input is fuel enough. *)
Fixpoint collect_records (fuel : nat) (rest handshake : bytes) (needed : Z)
  : hello_result + bytes * Z :=
  if negb (len handshake <? needed) then inr (handshake, needed)
  else match fuel with
  | O => inl HelloIncomplete
  | S fuel =>
      if len rest <? 5 then inl HelloIncomplete
      else if negb (at_ rest 0 =? 22) || negb (at_ rest 1 =? 3) then inl HelloRejected
      else
        let record_length := read_u16 (zdrop 3 rest) in
        if (record_length =? 0) || (EGRESS_HANDSHAKE_MAX <? record_length) then inl HelloRejected
        else if len rest - 5 <? record_length then inl HelloIncomplete
        else if EGRESS_HANDSHAKE_MAX - len handshake <? record_length then inl HelloRejected
        else
          let handshake := handshake ++ ztake record_length (zdrop 5 rest) in
          let rest := zdrop (5 + record_length) rest in
          if 4 <=? len handshake then
            if negb (at_ handshake 0 =? 1) then inl HelloRejected
            else
              let body_length := read_u24 (zdrop 1 handshake) in
              if EGRESS_HANDSHAKE_MAX - 4 <? body_length then inl HelloRejected
              else collect_records fuel rest handshake (body_length + 4)
          else collect_records fuel rest handshake needed
  end.

(** From the fixed fields to the extensions; [p] holds the [remaining] bytes. *)
Definition hello_extensions (p : bytes) : option bytes :=
  if len p <? 2 + 32 + 1 then None
  else
    let p := zdrop 34 p in
    let session_id_length := at_ p 0 in
    let p := zdrop 1 p in
    if len p <? session_id_length then None
    else
      let p := zdrop session_id_length p in
      if len p <? 2 then None
      else
        let cipher_length := read_u16 p in
        let p := zdrop 2 p in
        if (cipher_length <? 2) || negb (Z.land cipher_length 1 =? 0) || (len p <? cipher_length)
        then None
        else
          let p := zdrop cipher_length p in
          if len p <? 1 then None
          else
            let compression_length := at_ p 0 in
            let p := zdrop 1 p in
            if (compression_length =? 0) || (len p <? compression_length) then None
            else
              let p := zdrop compression_length p in
              if len p <? 2 then None
              else
                let extensions_length := read_u16 p in
                let p := zdrop 2 p in
                if negb (extensions_length =? len p) then None else Some p.

(** The loop over the names of the extension; every name takes four bytes. *)
Fixpoint server_names `{Inet} (fuel : nat) (name expected_host : bytes) (dns_names total_names : Z)
  : bool :=
  match fuel with
  | O => false
  | S fuel =>
      if len name =? 0 then (dns_names =? 1) && (total_names =? 1)
      else if len name <? 3 then false
      else
        let name_type := at_ name 0 in
        let name_length := read_u16 (zdrop 1 name) in
        let name := zdrop 3 name in
        if (name_length =? 0) || (len name <? name_length) then false
        else
          let total_names := total_names + 1 in
          let continue := server_names fuel (zdrop name_length name) expected_host in
          if name_type =? 0 then
            let dns_names := dns_names + 1 in
            if negb (dns_names =? 1) || (EGRESS_MAX_HOST <? name_length) then false
            else
              let candidate := ztake name_length name in
              if has_char 0 candidate then false
              else match egress_canonical_host candidate with
                   | None => false
                   | Some canonical =>
                       if negb (beq canonical expected_host) then false
                       else continue dns_names total_names
                   end
          else continue dns_names total_names
  end.

(** The loop over the extensions; every one takes four bytes or more. *)
Fixpoint hello_extension_loop `{Inet} (fuel : nat) (p expected_host : bytes) (seen_sni : bool) : bool :=
  match fuel with
  | O => false
  | S fuel =>
      if len p =? 0 then seen_sni
      else if len p <? 4 then false
      else
        let type := read_u16 p in
        let extension_length := read_u16 (zdrop 2 p) in
        let p := zdrop 4 p in
        if len p <? extension_length then false
        else if (type =? 0xfe0d) || (type =? 0xffce) then false
        else
          let body := ztake extension_length p in
          let continue := hello_extension_loop fuel (zdrop extension_length p) expected_host in
          if type =? 0 then
            if seen_sni then false
            else if (extension_length <? 2) || negb (read_u16 body =? extension_length - 2) then false
            else if negb (server_names (S (length body)) (zdrop 2 body) expected_host 0 0) then false
            else continue true
          else continue seen_sni
  end.

Definition egress_tls_client_hello_matches `{Inet} (b expected_host : bytes) : hello_result :=
  match collect_records (length b) b [] 4 with
  | inl result => result
  | inr (handshake, needed) =>
      match hello_extensions (ztake (needed - 4) (zdrop 4 handshake)) with
      | None => HelloRejected
      | Some p =>
          if hello_extension_loop (S (length p)) p expected_host false
          then HelloMatch else HelloRejected
      end
  end.

(** * Messages *)

Definition enc16 (v : Z) : bytes := [v / 256; v mod 256].
Definition enc24 (v : Z) : bytes := [v / 65536; v / 256 mod 256; v mod 256].

(** A length-prefixed vector. *)
Definition vector8 (b : bytes) : bytes := len b :: b.
Definition vector16 (b : bytes) : bytes := enc16 (len b) ++ b.

Definition encode_extension (e : Z * bytes) : bytes := enc16 e.1 ++ vector16 e.2.

Record client_hello := Hello {
  version_random : bytes;
  session_id : bytes;
  cipher_suites : bytes;
  compression_methods : bytes;
  extensions : list (Z * bytes);
}.

Definition encode_extensions (es : list (Z * bytes)) : bytes := concat (map encode_extension es).

Definition encode_body (h : client_hello) : bytes :=
  version_random h ++ vector8 (session_id h) ++ vector16 (cipher_suites h) ++
  vector8 (compression_methods h) ++ vector16 (encode_extensions (extensions h)).

(** The handshake message. *)
Definition encode_hello (h : client_hello) : bytes :=
  1 :: enc24 (len (encode_body h)) ++ encode_body h.

Definition extension_wf (e : Z * bytes) : Prop := is_u16 e.1 /\ is_u16 (len e.2).

Record hello_wf (h : client_hello) : Prop := {
  wf_fixed : len (version_random h) = 34;
  wf_session : len (session_id h) < 256;
  wf_ciphers : 2 <= len (cipher_suites h) < 2 ^ 16 /\ len (cipher_suites h) mod 2 = 0;
  wf_compression : 1 <= len (compression_methods h) < 256;
  wf_extensions : Forall extension_wf (extensions h);
  wf_size : len (encode_extensions (extensions h)) < 2 ^ 16;
}.

(** The server names: one DNS name, the destination, and no encrypted hello. *)
Definition encode_sni (name : bytes) : bytes := vector16 (0 :: vector16 name).

Definition is_ech (e : Z * bytes) : bool := (e.1 =? 0xfe0d) || (e.1 =? 0xffce).

Definition names_destination `{Inet} (expected : bytes) (body : bytes) : Prop :=
  exists name, body = encode_sni name /\ 1 <= len name <= EGRESS_MAX_HOST /\ nul_free name /\
    egress_canonical_host name = Some expected.

Definition sni_ok `{Inet} (expected : bytes) (es : list (Z * bytes)) : Prop :=
  Forall (fun e => is_ech e = false) es /\
  exists body, List.filter (fun e => e.1 =? 0) es = [(0, body)] /\ names_destination expected body.

(** * Numbers *)

Lemma read_u16_bytes a b r : is_byte a -> is_byte b -> read_u16 (a :: b :: r) = a * 256 + b.
Proof. apply socks_port. Qed.

Lemma read_u16_enc v r : is_u16 v -> read_u16 (enc16 v ++ r) = v.
Proof.
  unfold is_u16, enc16. intros. cbn [app]. rewrite read_u16_bytes by (unfold is_byte; zlia). zlia.
Qed.

Lemma enc16_bytes a b : is_byte a -> is_byte b -> enc16 (a * 256 + b) = [a; b].
Proof. unfold is_byte, enc16. intros. repeat f_equal; zlia. Qed.

Lemma read_u24_bytes a b c r :
  is_byte a -> is_byte b -> is_byte c -> read_u24 (a :: b :: c :: r) = a * 65536 + b * 256 + c.
Proof.
  unfold is_byte, read_u24. intros. change (at_ (a :: b :: c :: r) 0) with a.
  change (at_ (a :: b :: c :: r) 1) with b. change (at_ (a :: b :: c :: r) 2) with c.
  rewrite <-Z.lor_assoc, (lor_disjoint b c 8), (lor_disjoint a _ 16) by lia. lia.
Qed.

Lemma read_u24_enc v r : 0 <= v < 2 ^ 24 -> read_u24 (enc24 v ++ r) = v.
Proof.
  intros. unfold enc24. cbn [app]. rewrite read_u24_bytes by (unfold is_byte; zlia). zlia.
Qed.

Lemma enc24_bytes a b c : is_byte a -> is_byte b -> is_byte c -> enc24 (a * 65536 + b * 256 + c) = [a; b; c].
Proof. unfold is_byte, enc24. intros. repeat f_equal; zlia. Qed.

(** * Vectors *)

Lemma cut {A} n (p : list A) : 0 <= n <= len p -> exists a b, p = a ++ b /\ len a = n.
Proof. intros. exists (ztake n p), (zdrop n p). by rewrite ztake_zdrop, len_ztake. Qed.

Lemma zdrop_cut {A} n (a b : list A) : len a = n -> zdrop n (a ++ b) = b.
Proof. intros <-. apply zdrop_app_len. Qed.

Lemma ztake_cut {A} n (a b : list A) : len a = n -> ztake n (a ++ b) = a.
Proof. intros <-. apply ztake_app_len. Qed.

(** A vector of eight-bit length read off the front. *)
Lemma read_vector8 p :
  Forall is_byte p -> 1 <= len p -> at_ p 0 <= len (zdrop 1 p) ->
  exists v r, p = vector8 v ++ r /\ len v = at_ p 0 /\ zdrop (at_ p 0) (zdrop 1 p) = r /\ Forall is_byte r.
Proof.
  intros Hb Hl Hv. destruct p as [|n p]; [by rewrite len_nil in Hl|]. apply Forall_cons in Hb as [Hn Hb].
  change (at_ (n :: p) 0) with n in *. change (zdrop 1 (n :: p)) with p in *. unfold is_byte in Hn.
  destruct (cut n p) as (v & r & -> & Hlen); [lia|]. exists v, r. apply Forall_app in Hb as [_ Hb].
  unfold vector8. rewrite Hlen, zdrop_cut by done. by split_and!.
Qed.

Lemma read_vector16 p :
  Forall is_byte p -> 2 <= len p -> read_u16 p <= len (zdrop 2 p) ->
  exists v r, p = vector16 v ++ r /\ len v = read_u16 p /\ zdrop (read_u16 p) (zdrop 2 p) = r /\
    ztake (read_u16 p) (zdrop 2 p) = v /\ Forall is_byte v /\ Forall is_byte r /\ is_u16 (len v).
Proof.
  intros Hb Hl Hv. destruct p as [|a [|b p]]; [by rewrite ?len_cons, len_nil in Hl..|].
  rewrite !Forall_cons in Hb. destruct Hb as (Ha & Hb & Hp).
  change (zdrop 2 (a :: b :: p)) with p in *. rewrite read_u16_bytes in * by done.
  assert (0 <= a * 256 + b < 2 ^ 16) by (unfold is_byte in *; lia).
  destruct (cut (a * 256 + b) p) as (v & r & -> & Hlen); [lia|]. exists v, r. apply Forall_app in Hp as [Hv' Hr].
  unfold vector16. rewrite Hlen, enc16_bytes, zdrop_cut, ztake_cut by done. by split_and!.
Qed.

Lemma vector8_read v r : len v < 256 -> at_ (vector8 v ++ r) 0 = len v /\ zdrop 1 (vector8 v ++ r) = v ++ r.
Proof. done. Qed.

Lemma vector16_read v r :
  len v < 2 ^ 16 -> read_u16 (vector16 v ++ r) = len v /\ zdrop 2 (vector16 v ++ r) = v ++ r.
Proof.
  intros Hv. unfold vector16. rewrite <-app_assoc, read_u16_enc; [done|].
  pose proof (len_nonneg v). unfold is_u16. lia.
Qed.

(** * The fixed part *)

Definition fixed_part (fixed sid ciphers comp ext : bytes) : bytes :=
  fixed ++ vector8 sid ++ vector16 ciphers ++ vector8 comp ++ vector16 ext.

Definition fixed_wf (fixed sid ciphers comp ext : bytes) : Prop :=
  len fixed = 34 /\ len sid < 256 /\ (2 <= len ciphers < 2 ^ 16 /\ len ciphers mod 2 = 0) /\
  1 <= len comp < 256 /\ len ext < 2 ^ 16.

Lemma land_1 v : Z.land v 1 = v mod 2.
Proof. change 1 with (Z.ones 1). by rewrite Z.land_ones. Qed.

Lemma hello_extensions_Some p ext :
  Forall is_byte p -> hello_extensions p = Some ext ->
  exists fixed sid ciphers comp, p = fixed_part fixed sid ciphers comp ext /\
    fixed_wf fixed sid ciphers comp ext.
Proof.
  intros Hb. unfold hello_extensions. cbn zeta.
  destruct (Z.ltb_spec (len p) (2 + 32 + 1)) as [|H0]; [done|].
  destruct (cut 34 p) as (fixed & p1 & -> & Hf); [lia|]. rewrite (zdrop_cut 34) by done.
  apply Forall_app in Hb as [_ Hb]. rewrite len_app in H0.
  destruct (Z.ltb_spec (len (zdrop 1 p1)) (at_ p1 0)) as [|H1]; [done|].
  destruct (read_vector8 p1) as (sid & p2 & Ep1 & Hs & -> & Hb2); [done|lia|lia|].
  pose proof (at_byte p1 0 Hb) as Hs'. unfold is_byte in Hs'.
  destruct (Z.ltb_spec (len p2) 2) as [|H2]; [done|].
  destruct (_ || (len (zdrop 2 p2) <? read_u16 p2)) eqn:E3; [done|].
  apply orb_false_iff in E3 as [[Hc Hce]%orb_false_iff H3%Z.ltb_ge].
  destruct (read_vector16 p2) as (ciphers & p3 & Ep2 & Hc' & -> & _ & _ & Hb3 & Hcu); [done|lia|lia|].
  destruct (Z.ltb_spec (len p3) 1) as [|H4]; [done|].
  destruct (_ || (len (zdrop 1 p3) <? at_ p3 0)) eqn:E5; [done|].
  apply orb_false_iff in E5 as [Hm%Z.eqb_neq H5%Z.ltb_ge].
  destruct (read_vector8 p3) as (comp & p4 & Ep3 & Hm' & -> & Hb4); [done|lia|lia|].
  pose proof (at_byte p3 0 Hb3) as Hm''. unfold is_byte in Hm''.
  destruct (Z.ltb_spec (len p4) 2) as [|H6]; [done|].
  destruct (Z.eqb_spec (read_u16 p4) (len (zdrop 2 p4))) as [E7|]; [|done]. cbn [negb]. intros [= <-].
  destruct (read_vector16 p4) as (e & r & Ep4 & He & Er & _ & _ & _ & Heu); [done|lia|lia|].
  assert (r = []) as ->.
  { rewrite <-Er, E7. unfold zdrop, len. rewrite Nat2Z.id. by rewrite drop_all. }
  rewrite app_nil_r in Ep4. assert (E8 : zdrop 2 p4 = e) by (by rewrite Ep4).
  exists fixed, sid, ciphers, comp. split.
  - unfold fixed_part. rewrite E8, <-Ep4, <-Ep3, <-Ep2. by rewrite Ep1.
  - rewrite E8. unfold is_u16 in *. rewrite land_1 in Hce. unfold fixed_wf.
    rewrite Hc', Hs, Hm'. split_and!; lia.
Qed.

Lemma hello_extensions_encode fixed sid ciphers comp ext :
  fixed_wf fixed sid ciphers comp ext -> hello_extensions (fixed_part fixed sid ciphers comp ext) = Some ext.
Proof.
  intros (Hf & Hs & [Hc Hce] & Hm & He). unfold hello_extensions, fixed_part. cbn zeta.
  pose proof (len_nonneg sid). pose proof (len_nonneg ext).
  assert (L8 : forall v, len (vector8 v) = 1 + len v) by (intros; unfold vector8; apply len_cons).
  assert (L16 : forall v, len (vector16 v) = 2 + len v) by (intros; unfold vector16; by rewrite len_app).
  rewrite (zdrop_cut 34) by done. rewrite (proj2 (Z.ltb_ge _ _)) by (rewrite !len_app, !L8, !L16; lia).
  rewrite (proj1 (vector8_read sid _ Hs)), (proj2 (vector8_read sid _ Hs)).
  rewrite (proj2 (Z.ltb_ge _ _)), zdrop_app_len by (rewrite !len_app, !L8, !L16; lia).
  rewrite (proj2 (Z.ltb_ge _ _)) by (rewrite !len_app, !L8, !L16; lia).
  rewrite (proj1 (vector16_read ciphers _ (proj2 Hc))), (proj2 (vector16_read ciphers _ (proj2 Hc))).
  rewrite land_1, Hce, !(proj2 (Z.ltb_ge _ _)), zdrop_app_len by (rewrite ?len_app, ?L8, ?L16; lia).
  change (negb (0 =? 0)) with false. cbn [orb]. rewrite (proj2 (Z.ltb_ge _ _)) by (rewrite ?len_app, ?L8, ?L16; lia).
  rewrite (proj1 (vector8_read comp _ (proj2 Hm))), (proj2 (vector8_read comp _ (proj2 Hm))).
  rewrite (proj2 (Z.eqb_neq (len comp) 0)), !(proj2 (Z.ltb_ge _ _)), zdrop_app_len by (rewrite ?len_app, ?L8, ?L16; lia).
  cbn [orb]. rewrite (proj2 (Z.ltb_ge _ _)) by (rewrite ?len_app, ?L8, ?L16; lia).
  rewrite <-(app_nil_r (vector16 ext)), (proj1 (vector16_read ext _ He)), (proj2 (vector16_read ext _ He)).
  by rewrite app_nil_r, Z.eqb_refl.
Qed.

(** * The server names *)

Section Names.
Context `{Inet} (expected : bytes).
Set Default Proof Using "Type".

(** Every name counts: behind one there is none. *)
Lemma server_names_count fuel name d t :
  server_names fuel name expected d t = true -> t <= 1 /\ (name <> [] -> t <= 0).
Proof.
  revert name d t. induction fuel as [|fuel IH]; intros name d t E; [done|]. cbn [server_names] in E.
  destruct (Z.eqb_spec (len name) 0) as [Hl|Hl].
  { destruct name; [|rewrite len_cons in Hl; pose proof (len_nonneg name); lia].
    apply andb_true_iff in E as [_ ?%Z.eqb_eq]. split; [lia|done]. }
  destruct (len name <? 3); [done|]. cbn zeta in E. destruct (_ || _); [done|].
  assert (forall d', server_names fuel (zdrop (read_u16 (zdrop 1 name)) (zdrop 3 name)) expected d' (t + 1) = true ->
    t <= 1 /\ (name <> [] -> t <= 0)) as Hc.
  { intros d' [? _]%IH. split; [|intros _]; lia. }
  destruct (_ =? 0); [|by eapply Hc]. destruct (_ || _); [done|]. destruct (has_char _ _); [done|].
  destruct (egress_canonical_host _); [|done]. destruct (negb _); [done|]. by eapply Hc.
Qed.

Lemma server_names_one fuel name :
  Forall is_byte name -> (1 < fuel)%nat ->
  server_names fuel name expected 0 0 = true <->
  exists n, name = 0 :: vector16 n /\ 1 <= len n <= EGRESS_MAX_HOST /\ nul_free n /\
    egress_canonical_host n = Some expected.
Proof.
  intros Hb Hf. destruct fuel as [|[|fuel]]; [lia..|]. split.
  - cbn [server_names]. destruct (Z.eqb_spec (len name) 0) as [Hl|Hl]; [done|].
    destruct (Z.ltb_spec (len name) 3) as [|H3]; [done|]. cbn zeta.
    destruct name as [|t p]; [by rewrite len_nil in Hl|]. apply Forall_cons in Hb as [Ht Hp]. rewrite len_cons in H3.
    change (zdrop 1 (t :: p)) with p. change (zdrop 3 (t :: p)) with (zdrop 2 p). change (at_ (t :: p) 0) with t.
    destruct (_ || _) eqn:Eg; [done|]. apply orb_false_iff in Eg as [En%Z.eqb_neq El%Z.ltb_ge].
    destruct (read_vector16 p) as (n & r & Ep & Hn & Er & Etk & _ & _ & Hu); [done|lia|lia|].
    rewrite Er, Etk.
    assert (Hr : forall d, server_names (S fuel) r expected d 1 = true -> r = []).
    { intros d [_ Hc]%server_names_count. destruct r; [done|]. specialize (Hc ltac:(done)). lia. }
    change (0 + 1) with 1. destruct (Z.eqb_spec t 0) as [->|Ht0].
    + change (negb (1 =? 1)) with false. cbn [orb]. destruct (Z.ltb_spec EGRESS_MAX_HOST (read_u16 p)) as [|Hm]; [done|].
      destruct (has_char 0 n) eqn:Ez; [done|]. destruct (egress_canonical_host n) as [c|] eqn:Ec; [|done].
      destruct (beq c expected) eqn:Eb; [|done]. apply beq_spec in Eb as ->. cbn [negb]. intros E%Hr.
      exists n. rewrite Ep, E, app_nil_r. apply has_char_false in Ez. rewrite Hn in *.
      unfold is_u16 in Hu. split_and!; try done; try lia.
    + fold (server_names (S fuel) r expected 0 1). intros E. pose proof (Hr _ E) as ->. done.
  - intros (n & -> & Hn & Hz & Ec). pose proof (vector16_read n [] ltac:(unfold EGRESS_MAX_HOST in Hn; lia)) as [E1 E2].
    rewrite !app_nil_r in *. cbn [server_names]. change (at_ (0 :: vector16 n) 0 =? 0) with true.
    change (zdrop 1 (0 :: vector16 n)) with (vector16 n).
    change (zdrop 3 (0 :: vector16 n)) with (zdrop 2 (vector16 n)). rewrite E1, E2.
    assert (El : len (0 :: vector16 n) = 3 + len n) by (unfold vector16; rewrite len_cons, len_app; unfold enc16; rewrite !len_cons, len_nil; lia).
    rewrite El. rewrite !(proj2 (Z.eqb_neq _ 0)), !(proj2 (Z.ltb_ge _ _)) by lia.
    cbn [orb negb]. change (0 + 1) with 1. change (negb (1 =? 1)) with false. cbn [orb].
    rewrite ztake_all by done. rewrite (proj2 (has_char_false 0 n)) by done.
    rewrite Ec, beq_refl. cbn [negb]. unfold zdrop. rewrite drop_ge by (unfold len; lia). done.
Qed.

(** The body of the server name extension. *)
Lemma sni_body body :
  Forall is_byte body -> is_u16 (len body) ->
  (len body <? 2) || negb (read_u16 body =? len body - 2) = false /\
  server_names (S (length body)) (zdrop 2 body) expected 0 0 = true <->
  names_destination expected body.
Proof.
  intros Hb Hu. unfold names_destination. split.
  - intros [[H2%Z.ltb_ge Hr%negb_false_iff%Z.eqb_eq]%orb_false_iff Hn].
    destruct (read_vector16 body) as (v & r & Ev & Hv & Er & Et & Hvb & _); [done|done|rewrite len_zdrop; lia|].
    assert (r = []) as ->.
    { rewrite <-Er. apply drop_ge. unfold zdrop. rewrite length_drop. unfold len in *. lia. }
    rewrite app_nil_r in Ev.
    assert (Ez : zdrop 2 body = v) by (by rewrite Ev).
    rewrite Ez in Hn. apply server_names_one in Hn as (n & -> & ?); [|done|unfold len in *; lia].
    exists n. by split.
  - intros (n & -> & Hn & Hz & Hc). unfold encode_sni in *. set (v := 0 :: vector16 n) in *.
    assert (Elen : len (vector16 v) = 2 + len v) by (unfold vector16; by rewrite len_app).
    unfold is_u16 in Hu. pose proof (len_nonneg v).
    pose proof (vector16_read v [] ltac:(lia)) as [E1 E2]. rewrite !app_nil_r in *. split.
    + rewrite Elen, E1. apply orb_false_iff. split; [lia|]. apply negb_false_iff, Z.eqb_eq. lia.
    + rewrite E2. apply server_names_one; [|unfold len in *; lia|by exists n].
      unfold vector16 in Hb. by apply Forall_app in Hb as [_ Hb].
Qed.

(** What the loop over the extensions accepts, with or without a server name
    seen before. *)
Definition names_once (seen : bool) (es : list (Z * bytes)) : Prop :=
  if seen then List.filter (fun e => e.1 =? 0) es = []
  else exists body, List.filter (fun e => e.1 =? 0) es = [(0, body)] /\ names_destination expected body.

Definition extensions_pass (seen : bool) (es : list (Z * bytes)) : Prop :=
  Forall extension_wf es /\ Forall (fun e => is_ech e = false) es /\ names_once seen es.

Lemma encode_extension_split p :
  Forall is_byte p -> 4 <= len p -> read_u16 (zdrop 2 p) <= len (zdrop 4 p) ->
  exists e r, p = encode_extension e ++ r /\ extension_wf e /\ e.1 = read_u16 p /\
    len e.2 = read_u16 (zdrop 2 p) /\ ztake (read_u16 (zdrop 2 p)) (zdrop 4 p) = e.2 /\
    zdrop (read_u16 (zdrop 2 p)) (zdrop 4 p) = r /\ Forall is_byte e.2 /\ Forall is_byte r.
Proof.
  intros Hb Hl Hv. destruct p as [|a [|b p]]; [by rewrite ?len_cons, ?len_nil in Hl..|].
  rewrite !Forall_cons in Hb. destruct Hb as (Ha & Hb & Hp). rewrite !len_cons in Hl.
  change (zdrop 2 (a :: b :: p)) with p in *. change (zdrop 4 (a :: b :: p)) with (zdrop 2 p) in *.
  destruct (read_vector16 p) as (v & r & Ep & Hv' & Er & Et & Hvb & Hrb & Hu); [done|lia|done|].
  exists (a * 256 + b, v), r. rewrite read_u16_bytes by done. unfold encode_extension. cbn [fst snd].
  rewrite enc16_bytes by done. split_and!; try done; [by rewrite Ep|].
  unfold extension_wf, is_u16, is_byte in *. simpl. lia.
Qed.

Lemma read_encode_extension e r :
  extension_wf e ->
  4 <= len (encode_extension e ++ r) /\ read_u16 (encode_extension e ++ r) = e.1 /\
  read_u16 (zdrop 2 (encode_extension e ++ r)) = len e.2 /\
  ztake (len e.2) (zdrop 4 (encode_extension e ++ r)) = e.2 /\
  zdrop (len e.2) (zdrop 4 (encode_extension e ++ r)) = r /\
  len e.2 <= len (zdrop 4 (encode_extension e ++ r)).
Proof.
  intros [H1 H2]. unfold encode_extension, vector16.
  assert (E4 : zdrop 4 ((enc16 e.1 ++ enc16 (len e.2) ++ e.2) ++ r) = e.2 ++ r) by (by rewrite <-!app_assoc).
  assert (E2 : zdrop 2 ((enc16 e.1 ++ enc16 (len e.2) ++ e.2) ++ r) = enc16 (len e.2) ++ e.2 ++ r) by (by rewrite <-!app_assoc).
  rewrite E4, E2, !read_u16_enc, ztake_app_len, zdrop_app_len, <-!app_assoc, read_u16_enc by done.
  unfold enc16. rewrite !len_app, !len_cons, len_nil. pose proof (len_nonneg e.2). pose proof (len_nonneg r).
  split_and!; try done; lia.
Qed.

Lemma loop_accepts fuel p seen :
  Forall is_byte p -> (length p < fuel)%nat ->
  hello_extension_loop fuel p expected seen = true <->
  exists es, p = encode_extensions es /\ extensions_pass seen es.
Proof.
  revert p seen. induction fuel as [|fuel IH]; intros p seen Hb Hf; [lia|]. cbn [hello_extension_loop].
  destruct (Z.eqb_spec (len p) 0) as [Hl|Hl].
  { destruct p; [|rewrite len_cons in Hl; pose proof (len_nonneg p); lia]. split.
    - intros ->. exists []. done.
    - intros ([|e es] & E & _ & _ & Hn); [|by apply (f_equal length) in E].
      destruct seen; [done|]. by destruct Hn as (? & ? & _). }
  assert (Hf4 : forall e r, p = encode_extension e ++ r -> (length r < fuel)%nat).
  { intros e r ->. rewrite length_app in Hf. unfold encode_extension, enc16 in Hf. simpl in Hf. lia. }
  split.
  - destruct (Z.ltb_spec (len p) 4) as [|H4]; [done|]. cbn zeta.
    destruct (Z.ltb_spec (len (zdrop 4 p)) (read_u16 (zdrop 2 p))) as [|Hv]; [done|].
    destruct (encode_extension_split p Hb H4 Hv) as (e & r & Ep & Hw & Et & Elen & Eb & Er & Hbe & Hbr).
    rewrite Er, Eb, <-Et, <-Elen. destruct (_ || _) eqn:Ech; [done|].
    assert (Hgo : forall seen', hello_extension_loop fuel r expected seen' = true ->
      (forall es, names_once seen' es -> names_once seen (e :: es)) ->
      exists es, p = encode_extensions es /\ extensions_pass seen es).
    { intros seen' (es & -> & Hwf & He & Hn)%IH Hs; [|done|by eapply Hf4]. exists (e :: es). split; [done|].
      split_and!; [by constructor|by constructor|by apply Hs]. }
    destruct (Z.eqb_spec e.1 0) as [E0|E0].
    + destruct seen; [done|]. destruct ((len e.2 <? 2) || _) eqn:Ex; [done|]. destruct (server_names _ _ _ _ _) eqn:En; cbn [negb]; [|done].
      intros Hl'. apply (Hgo _ Hl'). intros es Hes. exists e.2. cbn [names_once] in Hes. cbn [List.filter].
      rewrite (proj2 (Z.eqb_eq _ _) E0), Hes. split; [by rewrite <-E0, <-surjective_pairing|].
      apply sni_body; [done|apply Hw|done].
    + intros Hl'. apply (Hgo _ Hl'). intros es Hes. unfold names_once in *. simpl.
      by rewrite (proj2 (Z.eqb_neq _ _) E0).
  - intros ([|e es] & -> & Hw & He & Hn); [done|].
    apply Forall_cons in Hw as [We Hw], He as [Ee He]. cbn [encode_extensions map concat] in *.
    fold (encode_extensions es) in *. specialize (Hf4 e (encode_extensions es) eq_refl).
    apply Forall_app in Hb as [Hbe Hbr].
    destruct (read_encode_extension e (encode_extensions es) We) as (E4 & E1 & E2 & Ezt & Ezd & Hlen).
    rewrite (proj2 (Z.ltb_ge _ 4)) by lia. cbn zeta. rewrite E1, E2, (proj2 (Z.ltb_ge _ _)) by lia.
    unfold is_ech in Ee. rewrite Ee, Ezt, Ezd.
    assert (Hgo : forall seen', names_once seen' es -> hello_extension_loop fuel (encode_extensions es) expected seen' = true).
    { intros seen' Hs. apply IH; [done|done|]. by exists es. }
    unfold names_once in Hn. simpl in Hn. destruct (Z.eqb_spec e.1 0) as [E0|E0]; [|by apply Hgo].
    destruct seen; [done|]. destruct Hn as (body & Eq & Hd). injection Eq as -> Eq. cbn [snd] in *.
    assert (Hbb : Forall is_byte body).
    { unfold encode_extension, vector16 in Hbe. rewrite !Forall_app in Hbe. by destruct Hbe as (_ & _ & ?). }
    apply sni_body in Hd as [-> ->]; [|done|apply We]. cbn [negb]. by apply Hgo.
Qed.

End Names.

(** * The records *)

(** A handshake record: the minor version and the fragment. *)
Definition encode_record (r : Z * bytes) : bytes := 22 :: 3 :: r.1 :: vector16 r.2.

Definition encode_records (rs : list (Z * bytes)) : bytes := concat (map encode_record rs).

Definition fragments (rs : list (Z * bytes)) : bytes := concat (map snd rs).

(** The first four bytes of a message, and the length they announce. *)
Definition header (handshake : bytes) (needed : Z) : Prop :=
  4 <= len handshake /\ at_ handshake 0 = 1 /\ needed = read_u24 (zdrop 1 handshake) + 4 /\
  needed <= EGRESS_HANDSHAKE_MAX.

Definition expects (handshake : bytes) (needed : Z) : Prop :=
  (len handshake < 4 /\ needed = 4) \/ header handshake needed.

Lemma read_u24_app p q : 3 <= len p -> read_u24 (p ++ q) = read_u24 p.
Proof. intros. unfold read_u24. by rewrite !at_app_l by lia. Qed.

Lemma read_u24_range p : Forall is_byte p -> 0 <= read_u24 p < 2 ^ 24.
Proof.
  intros Hb. pose proof (at_byte p 0 Hb). pose proof (at_byte p 1 Hb). pose proof (at_byte p 2 Hb).
  unfold read_u24, is_byte in *. rewrite <-Z.lor_assoc, (lor_disjoint (at_ p 1) _ 8), (lor_disjoint (at_ p 0) _ 16) by lia. lia.
Qed.

Lemma header_app h x n : 4 <= len h -> header (h ++ x) n <-> header h n.
Proof.
  intros Hl. unfold header. rewrite len_app. pose proof (len_nonneg x).
  assert (E : zdrop 1 (h ++ x) = zdrop 1 h ++ x) by (unfold zdrop; apply drop_app_le; unfold len in Hl; lia).
  rewrite E, read_u24_app by (rewrite len_zdrop; lia). rewrite at_app_l by lia.
  split; intros (? & ? & ? & ?); split_and!; done || lia.
Qed.

Lemma header_fun h n m : header h n -> header h m -> n = m.
Proof. intros (_ & _ & -> & _) (_ & _ & -> & _). done. Qed.

(** One iteration of the loop on a record. *)
Lemma collect_record fuel r rest hs needed :
  is_u16 (len r.2) -> len hs < needed ->
  collect_records (S fuel) (encode_record r ++ rest) hs needed =
  if (len r.2 =? 0) || (EGRESS_HANDSHAKE_MAX <? len r.2) then inl HelloRejected
  else if EGRESS_HANDSHAKE_MAX - len hs <? len r.2 then inl HelloRejected
  else
    let hs := hs ++ r.2 in
    if 4 <=? len hs then
      if negb (at_ hs 0 =? 1) then inl HelloRejected
      else if EGRESS_HANDSHAKE_MAX - 4 <? read_u24 (zdrop 1 hs) then inl HelloRejected
      else collect_records fuel rest hs (read_u24 (zdrop 1 hs) + 4)
    else collect_records fuel rest hs needed.
Proof.
  intros Hu Hn. cbn [collect_records]. rewrite (proj2 (Z.ltb_lt _ _) Hn). cbn [negb].
  unfold encode_record. set (b := (22 :: 3 :: r.1 :: vector16 r.2) ++ rest).
  assert (E3 : zdrop 3 b = vector16 r.2 ++ rest) by done.
  destruct (vector16_read r.2 rest ltac:(unfold is_u16 in Hu; lia)) as [E1 E2].
  assert (E5 : zdrop 5 b = r.2 ++ rest) by (rewrite <-E2; done).
  assert (El : len b = 5 + len r.2 + len rest).
  { unfold b, vector16, enc16. rewrite len_app, !len_cons, len_app, !len_cons, len_nil. lia. }
  pose proof (len_nonneg r.2). pose proof (len_nonneg rest).
  rewrite E3, E1, E5, ztake_app_len, El, !(proj2 (Z.ltb_ge _ 5)) by lia.
  change (at_ b 0 =? 22) with true. change (at_ b 1 =? 3) with true. cbn [negb orb].
  destruct (_ || _); [done|]. rewrite (proj2 (Z.ltb_ge _ (len r.2))) by lia.
  assert (Ed : zdrop (5 + len r.2) b = rest).
  { replace (zdrop (5 + len r.2) b) with (zdrop (len r.2) (zdrop 5 b));
      [by rewrite E5, zdrop_app_len|unfold zdrop; rewrite drop_drop; f_equal; lia]. }
  rewrite Ed. done.
Qed.

Lemma split_record rest :
  Forall is_byte rest -> 5 <= len rest -> at_ rest 0 = 22 -> at_ rest 1 = 3 ->
  read_u16 (zdrop 3 rest) <= len rest - 5 ->
  exists r rest', rest = encode_record r ++ rest' /\ Forall is_byte rest' /\ Forall is_byte r.2 /\ is_u16 (len r.2).
Proof.
  intros Hb Hl H0 H1 Hr. destruct rest as [|a [|b [|c p]]]; [by rewrite ?len_cons, ?len_nil in Hl..|].
  change (at_ (a :: _) 0) with a in H0. change (at_ (a :: b :: _) 1) with b in H1. subst a b.
  change (zdrop 3 (22 :: 3 :: c :: p)) with p in Hr. rewrite !len_cons in *.
  rewrite !Forall_cons in Hb. destruct Hb as (_ & _ & _ & Hb).
  destruct (read_vector16 p) as (v & r & -> & Hv & _ & _ & Hvb & Hrb & Hu);
    [done|lia|rewrite len_zdrop; lia|]. by exists (c, v), r.
Qed.

Definition record_ok (r : Z * bytes) : Prop := 1 <= len r.2 <= EGRESS_HANDSHAKE_MAX.

(** The records the loop takes from [hs] on to have [n] bytes: no more than
    needed, and within the bound. *)
Record taken (hs : bytes) (rs : list (Z * bytes)) (n : Z) : Prop := {
  taken_ok : Forall record_ok rs;
  taken_bound : rs = [] \/ len (hs ++ fragments rs) <= EGRESS_HANDSHAKE_MAX;
  taken_header : header (hs ++ fragments rs) n;
  taken_enough : n <= len (hs ++ fragments rs);
  taken_last : rs = [] \/ len (hs ++ fragments (removelast rs)) < n;
}.

Lemma fragments_cons r rs : fragments (r :: rs) = r.2 ++ fragments rs.
Proof. done. Qed.

Lemma removelast_fragments r rs : rs <> [] -> fragments (removelast (r :: rs)) = r.2 ++ fragments (removelast rs).
Proof. destruct rs; done. Qed.

Lemma expects_range hs n : Forall is_byte hs -> expects hs n -> 4 <= n.
Proof.
  intros Hb [[_ ->]|(_ & _ & -> & _)]; [done|].
  assert (Forall is_byte (zdrop 1 hs)) by (by apply Forall_drop). pose proof (read_u24_range _ H). lia.
Qed.

Lemma encode_records_cons r rs : encode_records (r :: rs) = encode_record r ++ encode_records rs.
Proof. done. Qed.

(** A message that is not complete is shorter than what its header will ask. *)
Lemma expects_before hs needed x n :
  Forall is_byte (hs ++ x) -> expects hs needed -> len hs < needed -> header (hs ++ x) n -> len hs < n.
Proof.
  intros Hb Hx Hl Hh. pose proof (expects_range _ n Hb (or_intror Hh)).
  destruct Hx as [[? ->]|Hx]; [lia|]. pose proof Hx as (? & _).
  rewrite header_app in Hh by done. by rewrite (header_fun _ _ _ Hh Hx).
Qed.

Lemma collect_inv fuel rest hs needed x :
  Forall is_byte rest -> len hs < needed -> collect_records (S fuel) rest hs needed = inr x ->
  exists r rest', rest = encode_record r ++ rest' /\ Forall is_byte rest' /\ Forall is_byte r.2 /\ is_u16 (len r.2).
Proof.
  intros Hb Hl. cbn [collect_records]. rewrite (proj2 (Z.ltb_lt _ _) Hl). cbn [negb].
  destruct (Z.ltb_spec (len rest) 5) as [|H5]; [done|]. destruct (_ || _) eqn:E0; [done|].
  apply orb_false_iff in E0 as [A0%negb_false_iff%Z.eqb_eq A1%negb_false_iff%Z.eqb_eq]. cbn zeta.
  destruct ((read_u16 _ =? 0) || _); [done|].
  destruct (Z.ltb_spec (len rest - 5) (read_u16 (zdrop 3 rest))) as [|Hr]; [done|].
  intros _. by apply split_record.
Qed.

Lemma collect_done fuel rest hs needed : needed <= len hs -> collect_records fuel rest hs needed = inr (hs, needed).
Proof. intros Hl. destruct fuel; cbn [collect_records]; by rewrite (proj2 (Z.ltb_ge _ _) Hl). Qed.

Lemma taken_nil hs n : expects hs n -> n <= len hs -> taken hs [] n.
Proof.
  intros Hx Hl. constructor; rewrite ?app_nil_r; auto. destruct Hx as [[? ->]|?]; [lia|done].
Qed.

Lemma taken_cons hs r rs n :
  record_ok r -> len (hs ++ r.2) <= EGRESS_HANDSHAKE_MAX -> len hs < n -> taken (hs ++ r.2) rs n -> taken hs (r :: rs) n.
Proof.
  intros Hr Hb Hl [H1 H2 H3 H4 H5]. rewrite <-app_assoc in *.
  constructor; rewrite ?fragments_cons; [by constructor|right|done|done|right].
  - destruct H2 as [->|?]; [|done]. by rewrite app_nil_r.
  - destruct rs as [|r' rs]; [by rewrite app_nil_r|]. rewrite removelast_fragments by done.
    destruct H5 as [?|H5]; [done|]. by rewrite ?app_assoc in *.
Qed.

Lemma collect_sound fuel rest hs needed hs' n :
  Forall is_byte rest -> Forall is_byte hs -> expects hs needed ->
  collect_records fuel rest hs needed = inr (hs', n) ->
  exists rs rest', rest = encode_records rs ++ rest' /\ hs' = hs ++ fragments rs /\ taken hs rs n /\
    Forall is_byte hs'.
Proof.
  revert rest hs needed. induction fuel as [|fuel IH]; intros rest hs needed Hb Hh Hx E.
  all: pose proof (expects_range _ _ Hh Hx) as H4.
  all: destruct (Z.ltb_spec (len hs) needed) as [Hl|Hl].
  2,4: rewrite collect_done in E by done; injection E as <- <-; exists [], rest; rewrite app_nil_r;
    by pose proof (taken_nil _ _ Hx Hl).
  { cbn [collect_records] in E. by rewrite (proj2 (Z.ltb_lt _ _) Hl) in E. }
  destruct (collect_inv _ _ _ _ _ Hb Hl E) as (r & rest' & -> & Hb' & Hrb & Hu).
  rewrite collect_record in E by done. destruct (_ || _) eqn:E1; [done|].
  destruct (Z.ltb_spec (EGRESS_HANDSHAKE_MAX - len hs) (len r.2)) as [|H2]; [done|]. cbn zeta in E.
  assert (Hr : record_ok r) by (unfold record_ok; pose proof (len_nonneg r.2); lia).
  assert (Hh' : Forall is_byte (hs ++ r.2)) by (by apply Forall_app).
  assert (Hgo : forall needed', expects (hs ++ r.2) needed' ->
    collect_records fuel rest' (hs ++ r.2) needed' = inr (hs', n) ->
    exists rs rest'', encode_record r ++ rest' = encode_records rs ++ rest'' /\ hs' = hs ++ fragments rs /\
      taken hs rs n /\ Forall is_byte hs').
  { intros needed' Hx' (rs & rest'' & -> & -> & Ht & Hbh)%IH; [|done..]. exists (r :: rs), rest''.
    rewrite encode_records_cons, fragments_cons. rewrite <-(app_assoc hs) in *.
    split_and!; [by rewrite app_assoc|done| |done].
    apply taken_cons; [done|rewrite len_app; lia| |done].
    eapply expects_before; [done..|]. rewrite app_assoc. apply Ht. }
  destruct (Z.leb_spec 4 (len (hs ++ r.2))) as [H4'|H4'].
  - destruct (Z.eqb_spec (at_ (hs ++ r.2) 0) 1) as [A1|]; [|done]. cbn [negb] in E.
    destruct (Z.ltb_spec (EGRESS_HANDSHAKE_MAX - 4) (read_u24 (zdrop 1 (hs ++ r.2)))) as [|Hm]; [done|].
    apply (Hgo _) in E; [done|]. right. unfold header. split_and!; try done. lia.
  - apply (Hgo _) in E; [done|]. left. split; [lia|]. destruct Hx as [[_ ->]|(? & _)]; [done|].
    rewrite len_app in H4'. pose proof (len_nonneg r.2). lia.
Qed.

Lemma collect_complete fuel hs needed rs rest n :
  Forall is_byte (hs ++ fragments rs) -> expects hs needed -> taken hs rs n -> (length rs <= fuel)%nat ->
  collect_records fuel (encode_records rs ++ rest) hs needed = inr (hs ++ fragments rs, n).
Proof.
  revert fuel hs needed. induction rs as [|r rs IH]; intros fuel hs needed Hb Hx Ht Hf.
  - destruct Ht as [_ _ Hh He _]. rewrite app_nil_r in *. destruct Hx as [[Hl _]|Hx]; [by destruct Hh; lia|].
    rewrite <-(header_fun _ _ _ Hh Hx) in *. by apply collect_done.
  - destruct fuel as [|fuel]; [simpl in Hf; lia|]. destruct Ht as [H1 H2 H3 H4 H5].
    apply Forall_cons in H1 as [Hr H1]. unfold record_ok in Hr. destruct H2 as [?|H2]; [done|]. destruct H5 as [?|H5]; [done|].
    rewrite encode_records_cons, <-(app_assoc (encode_record r)). rewrite fragments_cons in *.
    rewrite (app_assoc hs r.2 (fragments rs)) in *.
    assert (Hlen : len hs < n).
    { destruct rs as [|r' rs]; [by rewrite app_nil_r in H5|]. rewrite removelast_fragments, len_app in H5 by done.
      pose proof (len_nonneg (r.2 ++ fragments (removelast (r' :: rs)))). lia. }
    rewrite len_app in H2. pose proof (len_nonneg (fragments rs)).
    assert (Hlt : len hs < needed).
    { destruct Hx as [[? ->]|Hx]; [lia|]. pose proof Hx as (? & _). pose proof H3 as H3'.
      rewrite <-app_assoc, header_app in H3' by done. by rewrite <-(header_fun _ _ _ H3' Hx). }
    rewrite len_app in H2. rewrite collect_record; [|unfold is_u16, EGRESS_HANDSHAKE_MAX in *; lia|done].
    rewrite (proj2 (Z.eqb_neq _ 0)), !(proj2 (Z.ltb_ge _ _)) by lia. cbn [orb]. cbn zeta.
    assert (Ht : taken (hs ++ r.2) rs n).
    { constructor; try done.
      - destruct rs; [by left|right]. rewrite !len_app. lia.
      - destruct rs as [|r' rs]; [by left|right]. rewrite removelast_fragments in H5 by done. by rewrite <-app_assoc. }
    destruct (Z.leb_spec 4 (len (hs ++ r.2))) as [H4'|H4'].
    + pose proof H3 as H3'. rewrite header_app in H3' by done. pose proof H3' as (_ & A1 & En & Em).
      rewrite A1, (proj2 (Z.ltb_ge _ _)) by lia. cbn [negb]. change (negb (1 =? 1)) with false. cbn iota.
      rewrite <-En. apply IH; [done|by right|done|simpl in Hf; lia].
    + apply IH; [done| |done|simpl in Hf; lia]. left. split; [lia|].
      destruct Hx as [[_ ->]|(? & _)]; [done|]. rewrite len_app in H4'. pose proof (len_nonneg r.2). lia.
Qed.

(** * The guard *)

(** The records carry the message, and end with the record that completes it. *)
Definition delivers (rs : list (Z * bytes)) (h : client_hello) (trailing : bytes) : Prop :=
  Forall record_ok rs /\ fragments rs = encode_hello h ++ trailing /\
  len (fragments rs) <= EGRESS_HANDSHAKE_MAX /\
  len (fragments (removelast rs)) < len (encode_hello h).

Lemma encode_hello_header h trailing n :
  Forall is_byte (encode_hello h ++ trailing) -> len (encode_hello h) <= EGRESS_HANDSHAKE_MAX ->
  header (encode_hello h ++ trailing) n <-> n = len (encode_hello h).
Proof.
  intros Hb Hm. unfold encode_hello in *. set (body := encode_body h) in *.
  pose proof (len_nonneg body). pose proof (len_nonneg trailing).
  assert (El : len (1 :: enc24 (len body) ++ body) = 4 + len body) by (unfold enc24; rewrite len_cons, len_app, !len_cons, len_nil; lia).
  rewrite El in *. unfold header. change ((1 :: enc24 (len body) ++ body) ++ trailing) with (1 :: (enc24 (len body) ++ body) ++ trailing).
  change (at_ (1 :: _) 0) with 1. change (zdrop 1 (1 :: ?x)) with x.
  rewrite <-app_assoc, read_u24_enc by (unfold EGRESS_HANDSHAKE_MAX in *; lia).
  unfold enc24 at 1. rewrite len_cons, !len_app, !len_cons, len_nil. split; [intros (_ & _ & -> & _)|intros ->; split_and!]; lia.
Qed.

Lemma header_split hs n :
  Forall is_byte hs -> header hs n -> n <= len hs ->
  exists body trailing, hs = 1 :: enc24 (len body) ++ body ++ trailing /\ n = 4 + len body /\
    ztake (n - 4) (zdrop 4 hs) = body.
Proof.
  intros Hb (H4 & A0 & -> & _) Hn.
  destruct hs as [|a [|b [|c [|d hs]]]]; [by rewrite ?len_cons, ?len_nil in H4..|].
  change (at_ (a :: _) 0) with a in A0. subst a. change (zdrop 1 (1 :: b :: c :: d :: hs)) with (b :: c :: d :: hs) in *.
  rewrite !Forall_cons in Hb. destruct Hb as (_ & Hb & Hc & Hd & _). rewrite read_u24_bytes in * by done.
  rewrite !len_cons in Hn. unfold is_byte in *.
  destruct (cut (b * 65536 + c * 256 + d) hs) as (body & trailing & -> & El); [lia|].
  exists body, trailing. rewrite El, enc24_bytes by done. split_and!; [done|lia|].
  change (zdrop 4 (1 :: b :: c :: d :: body ++ trailing)) with (body ++ trailing). apply ztake_cut. lia.
Qed.

Lemma collect_no_match fuel rest hs needed : collect_records fuel rest hs needed <> inl HelloMatch.
Proof.
  revert rest hs needed. induction fuel as [|fuel IH]; intros rest hs needed; cbn [collect_records];
    (destruct (negb _); [done|]); [done|].
  destruct (_ <? 5); [done|]. destruct (_ || _); [done|]. cbn zeta. destruct (_ || _); [done|].
  destruct (_ <? read_u16 _); [done|]. destruct (_ <? read_u16 _); [done|]. destruct (4 <=? _); [|apply IH].
  destruct (negb _); [done|]. destruct (_ <? _); [done|]. apply IH.
Qed.

(** More bytes do not change a verdict. *)
Lemma collect_stable fuel fuel' rest x hs needed :
  (fuel <= fuel')%nat -> collect_records fuel rest hs needed <> inl HelloIncomplete ->
  collect_records fuel' (rest ++ x) hs needed = collect_records fuel rest hs needed.
Proof.
  revert fuel' rest hs needed. induction fuel as [|fuel IH]; intros fuel' rest hs needed Hf.
  { cbn [collect_records]. destruct (negb _) eqn:E; [|done]. intros _.
    apply collect_done. by apply negb_true_iff, Z.ltb_ge in E. }
  destruct fuel' as [|fuel']; [lia|]. cbn [collect_records]. destruct (negb _); [done|].
  rewrite (len_app rest x). pose proof (len_nonneg x). destruct (Z.ltb_spec (len rest) 5) as [|H5]; [done|].
  rewrite (proj2 (Z.ltb_ge (len rest + len x) 5)) by lia. rewrite !(at_app_l rest x) by lia. destruct (_ || _); [done|]. cbn zeta.
  assert (E3 : read_u16 (zdrop 3 (rest ++ x)) = read_u16 (zdrop 3 rest)).
  { unfold read_u16. assert (E : zdrop 3 (rest ++ x) = zdrop 3 rest ++ x)
      by (unfold zdrop; apply drop_app_le; unfold len in H5; lia).
    by rewrite E, !at_app_l by (rewrite len_zdrop; lia). }
  rewrite E3. destruct (_ || _); [done|]. destruct (Z.ltb_spec (len rest - 5) (read_u16 (zdrop 3 rest))) as [|Hr]; [done|].
  rewrite (proj2 (Z.ltb_ge (len rest + len x - 5) _)) by lia. destruct (_ <? _); [done|].
  assert (Hu : 0 <= read_u16 (zdrop 3 rest)) by (unfold read_u16, u16; zlia).
  rewrite slice_app by lia.
  assert (Ed : zdrop (5 + read_u16 (zdrop 3 rest)) (rest ++ x) = zdrop (5 + read_u16 (zdrop 3 rest)) rest ++ x)
    by (apply drop_app_le; unfold len in *; lia).
  rewrite Ed. destruct (4 <=? _); [|by apply IH; lia]. destruct (negb _); [done|]. destruct (_ <? _); [done|].
  by apply IH; lia.
Qed.

Section Guard.
Context `{Inet}.

Lemma matches_stable b x expected :
  egress_tls_client_hello_matches b expected <> HelloIncomplete ->
  egress_tls_client_hello_matches (b ++ x) expected = egress_tls_client_hello_matches b expected.
Proof.
  intros Hn. unfold egress_tls_client_hello_matches in *.
  rewrite (collect_stable (length b)); [done|rewrite length_app; lia|].
  intros E. by rewrite E in Hn.
Qed.

Set Default Proof Using "Type".

(** C8: the guard lets a client through exactly when its first bytes are
    handshake records that carry one well-formed ClientHello within the bound,
    that ClientHello has one server name extension with one DNS name whose
    canonical form is the destination, and it has no encrypted ClientHello
    extension. *)
Theorem client_hello_exact b expected :
  Forall is_byte b ->
  egress_tls_client_hello_matches b expected = HelloMatch <->
  exists rs rest h trailing,
    b = encode_records rs ++ rest /\ delivers rs h trailing /\ hello_wf h /\
    sni_ok expected (extensions h).
Proof.
  intros Hb. unfold egress_tls_client_hello_matches. split.
  - destruct (collect_records (length b) b [] 4) as [[]|[hs n]] eqn:E; try done.
    { by apply collect_no_match in E. }
    assert (Hx : expects [] 4) by (by left).
    destruct (collect_sound _ _ _ _ _ _ Hb (Forall_nil_2 _) Hx E)
      as (rs & rest & -> & -> & [H1 H2 H3 H4 H5] & Hbh). cbn [app] in *.
    destruct (header_split _ _ Hbh H3 H4) as (body & trailing & Eh & -> & ->).
    destruct (hello_extensions body) as [p|] eqn:Ep; [|done]. destruct (hello_extension_loop _ _ _ _) eqn:El; [|done]. intros _.
    assert (Hbody : Forall is_byte body) by (rewrite Eh in Hbh; rewrite Forall_cons, !Forall_app in Hbh; tauto).
    destruct (hello_extensions_Some _ _ Hbody Ep) as (fixed & sid & ciphers & comp & -> & Hf1 & Hf2 & Hf3 & Hf4 & Hf5).
    assert (Hp : Forall is_byte p) by (unfold fixed_part, vector16 in Hbody; rewrite !Forall_app in Hbody; tauto).
    apply loop_accepts in El as (es & -> & Hw & He & Hn); [|done|lia].
    exists rs, rest, (Hello fixed sid ciphers comp es), trailing.
    assert (Eb : encode_hello (Hello fixed sid ciphers comp es) ++ trailing = fragments rs)
      by (rewrite Eh; unfold encode_hello; cbn [app]; by rewrite <-app_assoc).
    split_and!; [done| |by constructor|by split].
    assert (Hne : rs <> []) by (intros ->; done).
    split_and!; [done|done|by destruct H2|]. destruct H5 as [?|H5]; [done|].
    unfold encode_hello. rewrite len_cons, len_app. unfold enc24. rewrite !len_cons, len_nil.
    change (encode_body _) with (fixed_part fixed sid ciphers comp (encode_extensions es)). lia.
  - intros (rs & rest & h & trailing & -> & (H1 & Ef & H2 & H5) & Hw & He & Hs).
    assert (Hbf : Forall is_byte (fragments rs)).
    { apply Forall_app in Hb as [Hb _]. clear -Hb. induction rs as [|r rs IH]; [constructor|].
      rewrite encode_records_cons, Forall_app in Hb. destruct Hb as [Hr Hb].
      rewrite fragments_cons. apply Forall_app. split; [|by apply IH]. unfold encode_record, vector16 in Hr.
      rewrite !Forall_cons, Forall_app in Hr. tauto. }
    assert (Hm : len (encode_hello h) <= EGRESS_HANDSHAKE_MAX)
      by (rewrite Ef, len_app in H2; pose proof (len_nonneg trailing); lia).
    assert (Hlen : (length rs <= length (encode_records rs ++ rest))%nat).
    { rewrite length_app. clear. induction rs as [|r rs IH]; [simpl; lia|].
      rewrite encode_records_cons, length_app. simpl. lia. }
    rewrite (collect_complete _ [] 4 rs rest (len (encode_hello h))); [|done|by left| |done].
    2: { constructor; cbn [app]; [done|by right| | |by right].
         - rewrite Ef. apply encode_hello_header; [by rewrite <-Ef|done|done].
         - rewrite Ef, len_app. pose proof (len_nonneg trailing). lia. }
    cbn [app]. rewrite Ef.
    assert (Ez : ztake (len (encode_hello h) - 4) (zdrop 4 (encode_hello h ++ trailing)) = encode_body h).
    { unfold encode_hello. change (zdrop 4 (?x ++ trailing)) with (encode_body h ++ trailing) at 1.
      rewrite len_cons, len_app. unfold enc24. rewrite !len_cons, len_nil. apply ztake_cut. lia. }
    rewrite Ez. destruct Hw as [W1 W2 W3 W4 W5 W6].
    change (encode_body h) with (fixed_part (version_random h) (session_id h) (cipher_suites h)
      (compression_methods h) (encode_extensions (extensions h))).
    rewrite (hello_extensions_encode _ _ _ _ _ (conj W1 (conj W2 (conj W3 (conj W4 W6))))).
    assert (Hbe : Forall is_byte (encode_extensions (extensions h))).
    { rewrite Ef in Hbf. unfold encode_hello, encode_body, vector16 in Hbf. rewrite !Forall_app, Forall_cons, !Forall_app in Hbf. tauto. }
    rewrite (proj2 (loop_accepts expected _ _ false Hbe (Nat.lt_succ_diag_r _))); [done|].
    exists (extensions h). split; [done|]. by split_and!.
Qed.

(** The verdict of the guard does not depend on how the bytes arrive. *)
Theorem client_hello_stable b x expected :
  egress_tls_client_hello_matches b expected <> HelloIncomplete ->
  egress_tls_client_hello_matches (b ++ x) expected = egress_tls_client_hello_matches b expected.
Proof. apply matches_stable. Qed.

End Guard.

(** ** Examples *)

Definition hello_example : client_hello :=
  Hello (3 :: 3 :: repeat 7 32) [] [19; 1] [0] [(0, encode_sni (str "Host.Example")); (43, [2; 3; 4])].

(** The message in two records. *)
Definition records_example : list (Z * bytes) :=
  [(1, take 3 (encode_hello hello_example)); (3, drop 3 (encode_hello hello_example))].

Lemma client_hello_exact_witness :
  @egress_tls_client_hello_matches dotted_inet (encode_records records_example) (str "host.example") = HelloMatch.
Proof.
  apply (@client_hello_exact dotted_inet); [byte_list|].
  exists records_example, [], hello_example, []. split; [reflexivity|]. split; [|split].
  - split; [|vm_compute; split; [reflexivity|split; [discriminate|reflexivity]]].
    apply Forall_cons_2; [vm_compute; split; discriminate|].
    apply Forall_cons_2; [vm_compute; split; discriminate|apply Forall_nil_2].
  - split; try (vm_compute; repeat split; discriminate || reflexivity).
    apply Forall_cons_2; [|apply Forall_cons_2; [|apply Forall_nil_2]];
      vm_compute; split; split; discriminate || reflexivity.
  - split; [apply Forall_cons_2; [reflexivity|apply Forall_cons_2; [reflexivity|apply Forall_nil_2]]|].
    exists (encode_sni (str "Host.Example")). split; [reflexivity|]. exists (str "Host.Example").
    split; [reflexivity|]. split; [vm_compute; split; discriminate|]. split; [apply has_char_false; reflexivity|].
    vm_compute. reflexivity.
Defined.

Lemma client_hello_stable_witness :
  @egress_tls_client_hello_matches dotted_inet (encode_records records_example ++ [1]) (str "host.example") =
  @egress_tls_client_hello_matches dotted_inet (encode_records records_example) (str "host.example").
Proof. apply (@client_hello_stable dotted_inet). vm_compute. discriminate. Defined.
