(* ===== verification/Receipt.v ===== *)
(** Receipts: the structure of src/internal.h, the canonical encoding of
    src/core/receipt.c that attestors sign and the audit journal stores, the
    accessors of src/config.c, and the attestor of src/core/attestor.c.

    Two theorems matter to a reader of receipts: the encoding is injective on
    the receipts a server makes, and it always fits the buffers it is given. *)

From S2P Require Import Prelude Common Codec Sha256 Config.

(** * Data *)

Definition EGRESS_MAX_ATTESTATION_BYTES : Z := 512.
Definition EGRESS_MAX_ADDRESS_TEXT : Z := 46.

Definition result_code (r : maelys_egress_result_t) : Z :=
  match r with
  | MAELYS_EGRESS_OK => 0
  | MAELYS_EGRESS_ERR_ARGUMENT => 1
  | MAELYS_EGRESS_ERR_MEMORY => 2
  | MAELYS_EGRESS_ERR_STATE => 3
  | MAELYS_EGRESS_ERR_IO => 4
  | MAELYS_EGRESS_ERR_DENIED => 5
  | MAELYS_EGRESS_ERR_PROTOCOL => 6
  | MAELYS_EGRESS_ERR_TIMEOUT => 7
  | MAELYS_EGRESS_ERR_CANCELLED => 8
  | MAELYS_EGRESS_ERR_UNSUPPORTED => 9
  | MAELYS_EGRESS_ERR_CRYPTO => 10
  end.

(** [MAELYS_EGRESS_PROTOCOL_NONE] is the 0 of a cleared connection. *)
Definition protocol_code (p : maelys_egress_protocol_t) : Z :=
  match p with
  | MAELYS_EGRESS_PROTOCOL_NONE => 0
  | MAELYS_EGRESS_PROTOCOL_HTTP_CONNECT => 1
  | MAELYS_EGRESS_PROTOCOL_HTTP_FORWARD => 2
  | MAELYS_EGRESS_PROTOCOL_SOCKS5 => 3
  | MAELYS_EGRESS_PROTOCOL_CONNECTOR => 4
  end.

Definition quota_scope_code (s : maelys_egress_quota_scope_t) : Z :=
  match s with
  | MAELYS_EGRESS_QUOTA_NONE => 0
  | MAELYS_EGRESS_QUOTA_ACTIVE_CONNECTIONS => 1
  | MAELYS_EGRESS_QUOTA_CONNECTION_BYTES => 2
  | MAELYS_EGRESS_QUOTA_EXECUTION_BYTES => 3
  end.

Record maelys_egress_receipt := Receipt {
  r_id : Z;
  r_protocol : maelys_egress_protocol_t;
  r_host : bytes;
  r_port : Z;
  r_result : maelys_egress_result_t;
  r_started_unix_ms : Z;
  r_duration_ms : Z;
  r_bytes_from_client : Z;
  r_bytes_to_client : Z;
  r_quota_scope : maelys_egress_quota_scope_t;
  r_quota_connection_max_bytes : Z;
  r_quota_execution_max_bytes : Z;
  r_quota_connection_observed_bytes : Z;
  r_quota_execution_before_bytes : Z;
  r_quota_execution_after_bytes : Z;
  r_policy_digest_hex : bytes;
  r_invocation_id : bytes;
  r_tls_sni_verified : bool;
  r_principal : bytes;
  r_policy_generation : Z;
  r_attestor : bytes;
  r_attestation_key_id : bytes;
  r_attestation_hex : bytes;
  r_upstream_address : bytes;
}.

#[export] Instance eta_receipt : Eta maelys_egress_receipt := fun r =>
  Receipt (r_id r) (r_protocol r) (r_host r) (r_port r) (r_result r) (r_started_unix_ms r)
    (r_duration_ms r) (r_bytes_from_client r) (r_bytes_to_client r) (r_quota_scope r)
    (r_quota_connection_max_bytes r) (r_quota_execution_max_bytes r)
    (r_quota_connection_observed_bytes r) (r_quota_execution_before_bytes r)
    (r_quota_execution_after_bytes r) (r_policy_digest_hex r) (r_invocation_id r)
    (r_tls_sni_verified r) (r_principal r) (r_policy_generation r) (r_attestor r)
    (r_attestation_key_id r) (r_attestation_hex r) (r_upstream_address r).

(** * The canonical encoding *)

Abbreviation c_bar := 124 (only parsing).

(** The conversions of the format string, in its order: [key=value], joined
    by bars. *)
Definition receipt_fields (r : maelys_egress_receipt) : list (bytes * bytes) :=
  [ (str "id", decimal (r_id r));
    (str "principal", r_principal r);
    (str "invocation", r_invocation_id r);
    (str "protocol", decimal (protocol_code (r_protocol r)));
    (str "host", r_host r);
    (str "port", decimal (r_port r));
    (str "result", decimal (result_code (r_result r)));
    (str "started", decimal (r_started_unix_ms r));
    (str "duration", decimal (r_duration_ms r));
    (str "from", decimal (r_bytes_from_client r));
    (str "to", decimal (r_bytes_to_client r));
    (str "policy", r_policy_digest_hex r);
    (str "generation", decimal (r_policy_generation r));
    (str "sni", decimal (if r_tls_sni_verified r then 1 else 0));
    (str "quota-scope", decimal (quota_scope_code (r_quota_scope r)));
    (str "quota-connection-max", decimal (r_quota_connection_max_bytes r));
    (str "quota-execution-max", decimal (r_quota_execution_max_bytes r));
    (str "quota-connection-observed", decimal (r_quota_connection_observed_bytes r));
    (str "quota-execution-before", decimal (r_quota_execution_before_bytes r));
    (str "quota-execution-after", decimal (r_quota_execution_after_bytes r));
    (str "address", r_upstream_address r) ].

Definition key_value (kv : bytes * bytes) : bytes := kv.1 ++ c_eq :: kv.2.

Definition receipt_text (r : maelys_egress_receipt) : bytes :=
  join c_bar (map key_value (receipt_fields r)).

(** [None] is the result -1. *)
Definition egress_receipt_canonical (r : maelys_egress_receipt) (capacity : Z) : option bytes :=
  if capacity =? 0 then None
  else if capacity <=? len (receipt_text r) then None
  else Some (receipt_text r).

(** * The accessors of src/config.c

    [None] is a NULL receipt; a string accessor returns [None] for NULL. *)

Definition receipt_number (f : maelys_egress_receipt -> Z) (r : option maelys_egress_receipt) : Z :=
  match r with Some r => f r | None => 0 end.

Definition receipt_string (f : maelys_egress_receipt -> bytes) (r : option maelys_egress_receipt)
  : option bytes :=
  match r with Some r => Some (f r) | None => None end.

(** The strings that are absent when they are empty. *)
Definition receipt_present (f : maelys_egress_receipt -> bytes) (r : option maelys_egress_receipt)
  : option bytes :=
  match r with Some r => if len (f r) =? 0 then None else Some (f r) | None => None end.

Definition maelys_egress_receipt_id := receipt_number r_id.
Definition maelys_egress_receipt_protocol (r : option maelys_egress_receipt) : Z :=
  receipt_number (fun r => protocol_code (r_protocol r)) r.
Definition maelys_egress_receipt_host := receipt_string r_host.
Definition maelys_egress_receipt_port := receipt_number r_port.
Definition maelys_egress_receipt_result (r : option maelys_egress_receipt)
  : maelys_egress_result_t :=
  match r with Some r => r_result r | None => MAELYS_EGRESS_ERR_ARGUMENT end.
Definition maelys_egress_receipt_started_unix_ms := receipt_number r_started_unix_ms.
Definition maelys_egress_receipt_duration_ms := receipt_number r_duration_ms.
Definition maelys_egress_receipt_bytes_from_client := receipt_number r_bytes_from_client.
Definition maelys_egress_receipt_bytes_to_client := receipt_number r_bytes_to_client.
Definition maelys_egress_receipt_policy_digest_hex := receipt_string r_policy_digest_hex.
Definition maelys_egress_receipt_invocation_id := receipt_present r_invocation_id.
Definition maelys_egress_receipt_tls_sni_verified (r : option maelys_egress_receipt) : Z :=
  receipt_number (fun r => if r_tls_sni_verified r then 1 else 0) r.
Definition maelys_egress_receipt_principal := receipt_present r_principal.
Definition maelys_egress_receipt_policy_generation := receipt_number r_policy_generation.
Definition maelys_egress_receipt_attestor := receipt_present r_attestor.
Definition maelys_egress_receipt_attestation_key_id := receipt_present r_attestation_key_id.
Definition maelys_egress_receipt_attestation_hex := receipt_present r_attestation_hex.
Definition maelys_egress_receipt_quota_scope (r : option maelys_egress_receipt)
  : maelys_egress_quota_scope_t :=
  match r with Some r => r_quota_scope r | None => MAELYS_EGRESS_QUOTA_NONE end.
Definition maelys_egress_receipt_quota_connection_max_bytes :=
  receipt_number r_quota_connection_max_bytes.
Definition maelys_egress_receipt_quota_execution_max_bytes :=
  receipt_number r_quota_execution_max_bytes.
Definition maelys_egress_receipt_quota_connection_observed_bytes :=
  receipt_number r_quota_connection_observed_bytes.
Definition maelys_egress_receipt_quota_execution_before_bytes :=
  receipt_number r_quota_execution_before_bytes.
Definition maelys_egress_receipt_quota_execution_after_bytes :=
  receipt_number r_quota_execution_after_bytes.
Definition maelys_egress_receipt_upstream_address := receipt_present r_upstream_address.

(** * Attestors *)

Definition safe_identity_char (c : Z) : bool :=
  is_lower c || is_upper c || is_digit c || (c =? c_minus) || (c =? c_underscore) ||
  (c =? c_dot) || (c =? c_colon) || (c =? c_slash).

(** [None] is a NULL pointer. *)
Definition safe_identity (value : option bytes) (maximum : Z) : bool :=
  match value with
  | None => false
  | Some value =>
      if (len value =? 0) || (maximum <=? len value) then false
      else forallb safe_identity_char value
  end.

(** [attest] stands for the callback and its context. *)
Record maelys_egress_attestor := Attestor {
  attestor_name : bytes;
  attestor_key_id : bytes;
  max_signature_bytes : Z;
  attest : Z;
}.

(** [mem] says whether the allocation succeeds. *)
Definition maelys_egress_attestor_create (mem : bool) (name key_id : option bytes)
    (max_signature : Z) (callback : option Z)
  : maelys_egress_result_t * option maelys_egress_attestor :=
  match name, key_id, callback with
  | Some n, Some k, Some f =>
      if negb (safe_identity name 64) || negb (safe_identity key_id 128) ||
         (max_signature =? 0) || (EGRESS_MAX_ATTESTATION_BYTES <? max_signature)
      then (MAELYS_EGRESS_ERR_ARGUMENT, None)
      else if negb mem then (MAELYS_EGRESS_ERR_MEMORY, None)
      else (MAELYS_EGRESS_OK,
            Some (Attestor (snprintf_s 64 n) (snprintf_s 128 k) max_signature f))
  | _, _, _ => (MAELYS_EGRESS_ERR_ARGUMENT, None)
  end.

(** * Well-formed receipts *)

(** The characters the strings of a receipt keep out of, so that a reader can
    cut the fields apart and the journal can quote them. *)
Definition receipt_char (c : Z) : Prop :=
  0x20 < c < 0x7f /\ c <> c_bar /\ c <> c_eq /\ c <> c_dquote /\ c <> c_backslash.

Definition receipt_word (maximum : Z) (s : bytes) : Prop :=
  Forall receipt_char s /\ len s <= maximum.

Record receipt_wf (r : maelys_egress_receipt) : Prop := {
  wf_principal : receipt_word EGRESS_MAX_USERNAME (r_principal r);
  wf_invocation : receipt_word EGRESS_MAX_INVOCATION_ID (r_invocation_id r);
  wf_host : receipt_word EGRESS_MAX_HOST (r_host r);
  wf_policy : receipt_word 64 (r_policy_digest_hex r);
  wf_address : receipt_word (EGRESS_MAX_ADDRESS_TEXT - 1) (r_upstream_address r);
  wf_attestor : receipt_word 63 (r_attestor r);
  wf_key_id : receipt_word 127 (r_attestation_key_id r);
  wf_attestation : receipt_word (2 * EGRESS_MAX_ATTESTATION_BYTES) (r_attestation_hex r);
  wf_port : is_u16 (r_port r);
  wf_numbers : Forall is_u64
    [r_id r; r_started_unix_ms r; r_duration_ms r; r_bytes_from_client r;
     r_bytes_to_client r; r_policy_generation r; r_quota_connection_max_bytes r;
     r_quota_execution_max_bytes r; r_quota_connection_observed_bytes r;
     r_quota_execution_before_bytes r; r_quota_execution_after_bytes r];
}.

Lemma decimal_receipt_char n : 0 <= n -> Forall receipt_char (decimal n).
Proof.
  intros. eapply Forall_impl; [by apply decimal_digits|].
  intros c Hc. unfold is_digit, in_range in Hc. bool_simp. unfold receipt_char. lia.
Qed.

Lemma result_code_range r : 0 <= result_code r <= 10.
Proof. destruct r; simpl; lia. Qed.
Lemma protocol_code_range p : 0 <= protocol_code p <= 4.
Proof. destruct p; simpl; lia. Qed.
Lemma quota_scope_code_range s : 0 <= quota_scope_code s <= 3.
Proof. destruct s; simpl; lia. Qed.

#[export] Instance result_code_inj : Inj (=) (=) result_code.
Proof. by intros [] []. Qed.
#[export] Instance protocol_code_inj : Inj (=) (=) protocol_code.
Proof. by intros [] []. Qed.
#[export] Instance quota_scope_code_inj : Inj (=) (=) quota_scope_code.
Proof. by intros [] []. Qed.

(** Every value of a receipt is made of the safe characters, and is no longer
    than its bound. *)
Definition field_bounds : list Z :=
  [20; 63; 127; 1; 253; 5; 2; 20; 20; 20; 20; 64; 20; 1; 1; 20; 20; 20; 20; 20; 45].

Lemma decimal_word n m : 0 < m <= 20 -> 0 <= n < 10 ^ m -> receipt_word m (decimal n).
Proof.
  intros Hm Hn. split; [apply decimal_receipt_char; lia|].
  unfold decimal, len.
  pose proof (decimal_fuel_length 20 n (Z.to_nat m)) as Hl. rewrite Z2Nat.id in Hl by lia. lia.
Qed.

Lemma receipt_values_wf r :
  receipt_wf r -> Forall2 receipt_word field_bounds (map snd (receipt_fields r)).
Proof.
  intros [Hp Hi Hh Hd Ha _ _ _ Ht Hn]. rewrite !Forall_cons in Hn. unfold is_u64, is_u16 in *.
  pose proof (result_code_range (r_result r)).
  pose proof (protocol_code_range (r_protocol r)).
  pose proof (quota_scope_code_range (r_quota_scope r)).
  assert (Hs : 0 <= (if r_tls_sni_verified r then 1 else 0) <= 1) by (case_match; lia).
  unfold receipt_fields, field_bounds. cbn [map snd].
  repeat (apply Forall2_cons; split); try apply Forall2_nil_2; try assumption;
    apply decimal_word; lia.
Qed.

Lemma word_free m s c :
  receipt_word m s -> ~ receipt_char c -> c ∉ s.
Proof. intros [Hs _] Hc Hin. rewrite Forall_forall in Hs. by apply Hc, Hs. Qed.

Lemma key_value_inj k v k' v' :
  c_eq ∉ k -> c_eq ∉ k' -> key_value (k, v) = key_value (k', v') -> (k, v) = (k', v').
Proof.
  unfold key_value; cbn [fst snd]. revert k'. induction k as [|x k IH]; intros [|y k'] Hk Hk' E.
  - by injection E as ->.
  - injection E as <- _. by destruct Hk'; left.
  - injection E as -> _. by destruct Hk; left.
  - injection E as -> E. assert ((k, v) = (k', v')) as [= -> ->]; [|done].
    rewrite not_elem_of_cons in Hk, Hk'. apply IH; tauto.
Qed.

Definition receipt_keys : list bytes := map fst (receipt_fields (Receipt 0
  MAELYS_EGRESS_PROTOCOL_NONE [] 0 MAELYS_EGRESS_OK 0 0 0 0 MAELYS_EGRESS_QUOTA_NONE 0 0 0 0 0
  [] [] false [] 0 [] [] [] [])).

Lemma receipt_keys_free : Forall (fun k => c_bar ∉ k /\ c_eq ∉ k) receipt_keys.
Proof.
  apply (bool_decide_unpack _). vm_compute. exact I.
Qed.

Lemma receipt_fields_keys r : map fst (receipt_fields r) = receipt_keys.
Proof. reflexivity. Qed.

(** A list of pairs is what its keys and values are. *)
Lemma pairs_eq {A B} (l l' : list (A * B)) :
  map fst l = map fst l' -> map snd l = map snd l' -> l = l'.
Proof.
  revert l'. induction l as [|[a b] l IH]; intros [|[a' b'] l'] [=] [=]; [done|].
  subst. f_equal. by apply IH.
Qed.

Lemma key_values_inj (l l' : list (bytes * bytes)) :
  Forall (fun kv => c_eq ∉ kv.1) l -> Forall (fun kv => c_eq ∉ kv.1) l' ->
  map key_value l = map key_value l' -> l = l'.
Proof.
  intros Hl. revert l'. induction Hl as [|[k v] l Hk Hl IH]; intros [|[k' v'] l'] Hl' [=]; [done|].
  inversion Hl'; subst. f_equal; [|by apply IH]. by apply key_value_inj.
Qed.

Lemma receipt_fields_free r :
  receipt_wf r ->
  Forall (fun kv => c_bar ∉ key_value kv) (receipt_fields r) /\
  Forall (fun kv => c_eq ∉ kv.1) (receipt_fields r).
Proof.
  intros Hwf. pose proof (receipt_values_wf _ Hwf) as Hv.
  pose proof receipt_keys_free as Hk. rewrite <-(receipt_fields_keys r) in Hk.
  revert Hv Hk. generalize field_bounds. induction (receipt_fields r) as [|[k v] l IH];
    intros bs Hv Hk; [by split; constructor|].
  inversion Hv; subst. inversion Hk; subst.
  edestruct IH; [eassumption..|]. split; constructor; try done; [|tauto].
  unfold key_value; cbn [fst snd] in *. rewrite not_elem_of_app, not_elem_of_cons.
  split; [tauto|]. split; [done|]. eapply word_free; [eassumption|]. unfold receipt_char; lia.
Qed.

Lemma receipt_text_inj r r' :
  receipt_wf r -> receipt_wf r' -> receipt_text r = receipt_text r' ->
  receipt_fields r = receipt_fields r'.
Proof.
  intros Hr Hr' E.
  destruct (receipt_fields_free _ Hr) as [Hb He], (receipt_fields_free _ Hr') as [Hb' He'].
  apply key_values_inj; [done..|].
  assert (Hs : forall l, Forall (fun kv => c_bar ∉ key_value kv) l ->
    Forall (fun seg => c_bar ∉ seg) (map key_value l)) by (induction 1; by constructor).
  apply (f_equal (split_on c_bar)) in E. unfold receipt_text in E.
  rewrite (split_on_join c_bar (map key_value (receipt_fields r))),
    (split_on_join c_bar (map key_value (receipt_fields r'))) in E; auto; done.
Qed.

(** ** Theorems *)

(** What an attestor signs: a receipt without its attestation. *)
Definition unsigned_receipt (r : maelys_egress_receipt) : maelys_egress_receipt :=
  r <| r_attestor := [] |> <| r_attestation_key_id := [] |> <| r_attestation_hex := [] |>.

Lemma fields_unsigned r r' :
  receipt_wf r -> receipt_wf r' -> receipt_fields r = receipt_fields r' ->
  unsigned_receipt r = unsigned_receipt r'.
Proof.
  intros [_ _ _ _ _ _ _ _ Hp Hn] [_ _ _ _ _ _ _ _ Hp' Hn'] E.
  rewrite !Forall_cons in Hn, Hn'. unfold is_u16 in Hp, Hp'.
  destruct r, r'. unfold receipt_fields in E. cbn [r_id r_protocol r_host r_port r_result
    r_started_unix_ms r_duration_ms r_bytes_from_client r_bytes_to_client r_quota_scope
    r_quota_connection_max_bytes r_quota_execution_max_bytes r_quota_connection_observed_bytes
    r_quota_execution_before_bytes r_quota_execution_after_bytes r_policy_digest_hex
    r_invocation_id r_tls_sni_verified r_principal r_policy_generation r_upstream_address] in *.
  pose proof (result_code_range r_result0). pose proof (result_code_range r_result1).
  pose proof (protocol_code_range r_protocol0). pose proof (protocol_code_range r_protocol1).
  pose proof (quota_scope_code_range r_quota_scope0).
  pose proof (quota_scope_code_range r_quota_scope1).
  injection E as ? ? ? ? ? ? ? ? ? ? ? ? ? E1 ? ? ? ? ? ? ?.
  repeat match goal with
  | H : decimal _ = decimal _ |- _ => apply decimal_inj in H; [|unfold is_u64 in *; lia..]
  end.
  repeat match goal with
  | H : result_code _ = result_code _ |- _ => apply (inj result_code) in H
  | H : protocol_code _ = protocol_code _ |- _ => apply (inj protocol_code) in H
  | H : quota_scope_code _ = quota_scope_code _ |- _ => apply (inj quota_scope_code) in H
  end.
  assert (r_tls_sni_verified0 = r_tls_sni_verified1) as ->
    by (destruct r_tls_sni_verified0, r_tls_sni_verified1; first [done|vm_compute in E1; done]).
  by subst.
Qed.

Lemma len_join c segs :
  segs <> [] -> len (join c segs) = foldr (fun s n => 1 + len s + n) 0 segs - 1.
Proof.
  induction segs as [|s segs IH]; [done|]. intros _. destruct segs as [|s' segs]; [simpl; lia|].
  change (join c (s :: s' :: segs)) with (s ++ c :: join c (s' :: segs)).
  rewrite len_app, len_cons, IH by done. cbn [foldr]. lia.
Qed.

Lemma receipt_text_len r : receipt_wf r -> len (receipt_text r) <= 1031.
Proof.
  intros Hwf. unfold receipt_text. rewrite len_join by done.
  assert (H : forall l bs, Forall2 receipt_word bs (map snd l) ->
    foldr (fun s n => 1 + len s + n) 0 (map key_value l) <=
    foldr (fun k n => 2 + len k + n) (foldr Z.add 0 bs) (map fst l)).
  { induction l as [|[k v] l IH]; intros bs Hb; inversion Hb as [|b w bs' ws [_ Hw] Hb' ]; subst;
      [done|]. cbn [map foldr fst snd] in *. specialize (IH _ Hb').
    change (key_value (k, v)) with (k ++ c_eq :: v). rewrite len_app, len_cons.
    assert (Hm : forall ks n m, foldr (fun k n => 2 + len k + n) (n + m) ks =
      n + foldr (fun (k : bytes) n => 2 + len k + n) m ks)
      by (induction ks as [|k' ks IHk]; intros; cbn [foldr]; [done|rewrite IHk; lia]).
    rewrite Hm. lia. }
  specialize (H _ _ (receipt_values_wf _ Hwf)). rewrite receipt_fields_keys in H.
  change (foldr _ _ receipt_keys) with 1032 in H. lia.
Qed.

Lemma Forall_join (P : Z -> Prop) c segs :
  P c -> Forall (Forall P) segs -> Forall P (join c segs).
Proof.
  intros Hc. induction 1 as [|s segs Hs Hf IH]; [constructor|].
  destruct segs; [done|]. apply Forall_app_2; [done|]. by constructor.
Qed.

Definition text_char (c : Z) : Prop := 0x20 < c < 0x7f /\ c <> c_dquote /\ c <> c_backslash.

Lemma receipt_word_text m s : receipt_word m s -> Forall text_char s.
Proof.
  intros [Hs _]. eapply Forall_impl; [exact Hs|]. unfold receipt_char, text_char. intros; lia.
Qed.

Lemma literal_text s :
  forallb (fun c => (0x22 <? c) && (c <? 0x7f) && negb (c =? c_backslash)) (str s) = true ->
  Forall text_char (str s).
Proof.
  intros Hs. apply forallb_Forall in Hs. eapply Forall_impl; [exact Hs|]. intros c Hc.
  cbn beta in Hc. bool_simp. unfold text_char. lia.
Qed.

Lemma receipt_text_chars r : receipt_wf r -> Forall text_char (receipt_text r).
Proof.
  intros Hwf. unfold receipt_text. apply Forall_join; [unfold text_char; lia|].
  pose proof (receipt_values_wf _ Hwf) as Hv.
  assert (Hk : Forall (Forall text_char) (map fst (receipt_fields r)))
    by (rewrite receipt_fields_keys; repeat constructor; vm_compute; intuition discriminate).
  revert Hv Hk. generalize field_bounds. induction (receipt_fields r) as [|[k v] l IH];
    intros bs Hv Hk; [constructor|].
  inversion Hv; subst. inversion Hk; subst. constructor; [|by eapply IH].
  apply Forall_app_2; [done|]. constructor; [unfold text_char; lia|]. by eapply receipt_word_text.
Qed.

(** The canonical encoding always fits the 2048 bytes its two users give
    it, in less than the 1060 bytes src/audit.c counts on, and two receipts have
    the same encoding exactly when they agree on everything but the
    attestation, so what is signed names one receipt. *)
Theorem receipt_canonical_identifies (r r' : maelys_egress_receipt) :
  receipt_wf r -> receipt_wf r' ->
  (exists text, egress_receipt_canonical r 2048 = Some text /\ len text <= 1060) /\
  (egress_receipt_canonical r 2048 = egress_receipt_canonical r' 2048 <->
   unsigned_receipt r = unsigned_receipt r').
Proof.
  intros Hr Hr'. pose proof (receipt_text_len _ Hr). pose proof (receipt_text_len _ Hr').
  unfold egress_receipt_canonical.
  destruct (Z.leb_spec 2048 (len (receipt_text r))); [lia|].
  destruct (Z.leb_spec 2048 (len (receipt_text r'))); [lia|]. cbn [Z.eqb].
  split; [eexists; split; [done|lia]|]. split.
  - intros E%(inj Some). apply fields_unsigned; [done..|]. by apply receipt_text_inj.
  - intros E. change (Some (receipt_text (unsigned_receipt r)) = Some (receipt_text (unsigned_receipt r'))).
    by rewrite E.
Qed.

Definition example_receipt : maelys_egress_receipt :=
  Receipt 7 MAELYS_EGRESS_PROTOCOL_SOCKS5 (str "host.example") 443 MAELYS_EGRESS_OK 1000 5 10 20
    MAELYS_EGRESS_QUOTA_NONE 0 0 0 0 0 (str "abcd") (str "run:1") true (str "agent") 3
    (str "hsm") (str "key/1") (str "00ff") (str "192.0.2.1").

Lemma word_check m s :
  forallb (fun c => (0x20 <? c) && (c <? 0x7f) && negb (c =? c_bar) && negb (c =? c_eq) &&
    negb (c =? c_dquote) && negb (c =? c_backslash)) s && (len s <=? m) = true ->
  receipt_word m s.
Proof.
  intros H. bool_simp. split; [|done].
  match goal with H : forallb _ _ = true |- _ => apply forallb_Forall in H; eapply Forall_impl; [exact H|] end.
  intros c Hc. cbn beta in Hc. bool_simp. unfold receipt_char. lia.
Qed.

Lemma example_receipt_wf : receipt_wf example_receipt.
Proof.
  constructor; try (apply word_check; vm_compute; reflexivity).
  - unfold is_u16; simpl; lia.
  - repeat constructor; simpl; lia.
Qed.

Lemma receipt_canonical_identifies_witness :
  egress_receipt_canonical example_receipt 2048 =
    egress_receipt_canonical (example_receipt <| r_attestor := [] |>) 2048.
Proof.
  assert (receipt_wf (example_receipt <| r_attestor := [] |>)) as Hwf.
  { destruct example_receipt_wf. constructor; try assumption. split; [apply Forall_nil_2|vm_compute; discriminate]. }
  apply (proj2 (receipt_canonical_identifies _ _ example_receipt_wf Hwf)). reflexivity.
Defined.
