(* ===== verification/Journal.v ===== *)
(** The audit journal of src/audit.c: an append-only file of receipts, each
    record chained to the one before by an HMAC, verified when it is reopened.

    The file is its bytes.  The answers of [read] and [write] are arguments, so
    that short writes, interruptions and failures are part of the model.  The
    locks, the reference count and the checks System makes on the file before
    it is locked are not. *)

From S2P Require Import Prelude Common Codec Sha256 Config Receipt.

Definition AUDIT_CANONICAL_CAPACITY : Z := 4096.
Definition AUDIT_RECORD_CAPACITY : Z := AUDIT_CANONICAL_CAPACITY + 512.

Record maelys_egress_audit := Audit {
  key : bytes;
  key_id : bytes;
  chain_hex : bytes;
  records : Z;
  healthy : bool;
}.

#[export] Instance eta_audit : Eta maelys_egress_audit := fun a =>
  Audit (key a) (key_id a) (chain_hex a) (records a) (healthy a).

(** * Records *)

(** ["name":], and the same up to the quote that opens a string. *)
Definition json_key (name : bytes) : bytes := [c_dquote] ++ name ++ [c_dquote; c_colon].
Definition json_marker (name : bytes) : bytes := json_key name ++ [c_dquote].

Definition sequence_marker : bytes :=
  str "{" ++ json_key (str "v") ++ str "1," ++ json_key (str "seq").

(** The record as the format string of both sides spells it. *)
Definition audit_record (sequence : Z) (key_id previous mac_hex canonical : bytes) : bytes :=
  sequence_marker ++ decimal sequence ++ str "," ++
  json_marker (str "key_id") ++ key_id ++ [c_dquote] ++ str "," ++
  json_marker (str "previous") ++ previous ++ [c_dquote] ++ str "," ++
  json_marker (str "mac") ++ mac_hex ++ [c_dquote] ++ str "," ++
  json_marker (str "canonical") ++ canonical ++ [c_dquote] ++ str "}" ++ [c_lf].

Definition prev_suffix (previous : bytes) : bytes := str "|prev=" ++ previous.

(** The canonical string of a record; [core] is the canonical receipt. *)
Definition audit_canonical (sequence : Z) (core : bytes) (r : maelys_egress_receipt)
    (chain : bytes) : bytes :=
  str "seq=" ++ decimal sequence ++ str "|" ++ core ++
  str "|attestor=" ++ r_attestor r ++
  str "|attestation_key=" ++ r_attestation_key_id r ++
  str "|attestation=" ++ r_attestation_hex r ++ prev_suffix chain.

(** * Appending *)

Inductive write_answer := WriteInterrupted | WriteFailed | Wrote (amount : Z).

(** The loop of [write_all], one answer per call of [write]: whether all was
    written, and the file afterwards.  An answer past the end of [writes] is a
    failure. *)
Fixpoint write_all (writes : list write_answer) (file b : bytes) : bool * bytes :=
  if len b =? 0 then (true, file)
  else match writes with
       | [] | WriteFailed :: _ => (false, file)
       | WriteInterrupted :: writes => write_all writes file b
       | Wrote amount :: writes =>
           if amount <=? 0 then (false, file)
           else write_all writes (file ++ ztake amount b) (zdrop amount b)
       end.

(** What the system answers while one record is appended: the allocation of
    the HMAC, the writes, and [fdatasync]. *)
Record append_answers := AppendAnswers {
  hmac_alloc : bool;
  writes : list write_answer;
  synced : bool;
}.

Definition egress_audit_append (env : append_answers) (a : maelys_egress_audit) (file : bytes)
    (r : maelys_egress_receipt) : bool * maelys_egress_audit * bytes :=
  if negb (healthy a) then (false, a, file)
  else
    let failed := a <| healthy := false |> in
    let sequence := u64 (records a + 1) in
    match egress_receipt_canonical r 2048 with
    | None => (false, failed, file)
    | Some core =>
        let canonical := audit_canonical sequence core r (chain_hex a) in
        if AUDIT_CANONICAL_CAPACITY <=? len canonical then (false, failed, file)
        else match egress_hmac_sha256 (hmac_alloc env) (key a) canonical with
             | None => (false, failed, file)
             | Some mac =>
                 let mac_hex := hex_encode mac in
                 let record := audit_record sequence (key_id a) (chain_hex a) mac_hex canonical in
                 if AUDIT_RECORD_CAPACITY <=? len record then (false, failed, file)
                 else
                   let '(written, file) := write_all (writes env) file record in
                   if written && synced env
                   then (true, a <| records := sequence |> <| chain_hex := mac_hex |>, file)
                   else (false, failed, file)
             end
    end.

(** * Reopening *)

(** The field between the marker and the next quote. *)
Definition quoted_field (line marker : bytes) (capacity : Z) : option bytes :=
  match find_sub marker line with
  | None => None
  | Some i =>
      let begin := drop (i + length marker) line in
      match index_of c_dquote begin with
      | None => None
      | Some n =>
          if (capacity <=? Z.of_nat n) || has_char c_backslash (take n begin) then None
          else Some (take n begin)
      end
  end.

Definition is_space (c : Z) : bool := (c =? c_space) || in_range c_htab c_cr c.

Fixpoint skip_spaces (s : bytes) : bytes :=
  match s with
  | [] => []
  | x :: s' => if is_space x then skip_spaces s' else s
  end.

Fixpoint digits_prefix (s : bytes) : bytes :=
  match s with
  | [] => []
  | x :: s => if is_digit x then x :: digits_prefix s else []
  end.

(** [strtoull] in base 10: the value, and what follows the number.  Without a
    digit nothing is taken. *)
Definition strtoull (s : bytes) : Z * bytes :=
  let after := skip_spaces s in
  let '(negative, rest) :=
    match after with
    | x :: rest => if x =? c_minus then (true, rest) else if x =? c_plus then (false, rest)
                   else (false, after)
    | [] => (false, after)
    end in
  let digits := digits_prefix rest in
  if len digits =? 0 then (0, s)
  else
    let value := undecimal digits in
    (if UINT64_MAX <? value then UINT64_MAX else if negative then u64 (- value) else value,
     drop (length digits) rest).

(** The checks on one line, its newline included: the MAC of the record when
    they all pass.  [alloc] is the allocation of the HMAC. *)
Definition resume_record (alloc : bool) (a : maelys_egress_audit) (sequence : Z) (line : bytes)
  : option bytes :=
  let text := cstr line in
  start ← find_sub sequence_marker text;
  let '(parsed_sequence, number_end) := strtoull (drop (start + length sequence_marker) text) in
  if negb (bool_decide (head number_end = Some 44)) || negb (parsed_sequence =? u64 (sequence + 1))
  then None
  else
    line_key_id ← quoted_field text (json_marker (str "key_id")) 64;
    previous ← quoted_field text (json_marker (str "previous")) 65;
    mac_hex ← quoted_field text (json_marker (str "mac")) 65;
    canonical ← quoted_field text (json_marker (str "canonical")) AUDIT_CANONICAL_CAPACITY;
    if negb (beq line_key_id (key_id a)) || negb (len previous =? 64) ||
       negb (len mac_hex =? 64) || negb (beq previous (chain_hex a)) then None
    else
      let suffix := prev_suffix previous in
      if (len canonical <? len suffix) ||
         negb (beq (zdrop (len canonical - len suffix) canonical) suffix) then None
      else
        expected ← egress_hmac_sha256 alloc (key a) canonical;
        if negb (egress_constant_time_equal (hex_encode expected) mac_hex) then None
        else
          let exact := audit_record parsed_sequence line_key_id previous mac_hex canonical in
          if (AUDIT_RECORD_CAPACITY <=? len exact) || negb (beq exact line) then None
          else Some mac_hex.

Inductive read_answer := ReadInterrupted | ReadFailed | ReadByte (byte : Z).

#[export] Instance read_answer_eq_dec : EqDecision read_answer.
Proof. solve_decision. Defined.

(** The loop over the bytes of the file; the end of [reads] is the end of the
    file. *)
Fixpoint resume_loop (alloc : Z -> bool) (reads : list read_answer) (line : bytes) (sequence : Z)
    (a : maelys_egress_audit) : bool * maelys_egress_audit :=
  match reads with
  | ReadInterrupted :: reads => resume_loop alloc reads line sequence a
  | ReadFailed :: _ => (false, a)
  | [] => if len line =? 0 then (true, a <| records := sequence |>) else (false, a)
  | ReadByte b :: reads =>
      if AUDIT_RECORD_CAPACITY <=? len line + 1 then (false, a)
      else
        let line := line ++ [b] in
        if negb (b =? c_lf) then resume_loop alloc reads line sequence a
        else match resume_record (alloc sequence) a sequence line with
             | None => (false, a)
             | Some mac_hex =>
                 resume_loop alloc reads [] (u64 (sequence + 1)) (a <| chain_hex := mac_hex |>)
             end
  end.

(** [seek] is the answer of the [lseek] to the start of the file. *)
Definition resume_audit (seek : bool) (alloc : Z -> bool) (reads : list read_answer) (a : maelys_egress_audit)
  : bool * maelys_egress_audit := if negb seek then (false, a) else resume_loop alloc reads [] 0 a.

(** ** Opening *)

Definition key_id_char (c : Z) : bool :=
  negb ((c <? 0x21) || (0x7e <? c) || (c =? c_dquote) || (c =? c_backslash)).

(** What the system answers before the journal is read: the identity-checked
    lock, the flags of the descriptor, the allocations. *)
Inductive open_answer := OpenRefused | OpenFlagsFailed | OpenNoMemory | OpenReady.

Definition zero_chain : bytes := repeat c_0 64.

Definition maelys_egress_audit_file_create (opened : open_answer) (seek : bool) (alloc : Z -> bool)
    (reads : list read_answer) (key_ key_id_ : bytes)
  : maelys_egress_result_t * option maelys_egress_audit :=
  if (len key_ <? 16) || (4096 <? len key_) || (len key_id_ =? 0) || (64 <=? len key_id_)
  then (MAELYS_EGRESS_ERR_ARGUMENT, None)
  else if negb (forallb key_id_char key_id_) then (MAELYS_EGRESS_ERR_ARGUMENT, None)
  else match opened with
       | OpenRefused => (MAELYS_EGRESS_ERR_DENIED, None)
       | OpenFlagsFailed => (MAELYS_EGRESS_ERR_IO, None)
       | OpenNoMemory => (MAELYS_EGRESS_ERR_MEMORY, None)
       | OpenReady =>
           match resume_audit seek alloc reads (Audit key_ (snprintf_s 64 key_id_) zero_chain 0 true) with
           | (true, a) => (MAELYS_EGRESS_OK, Some a)
           | (false, _) => (MAELYS_EGRESS_ERR_CRYPTO, None)
           end
       end.

(** ** Accessors *)

Definition maelys_egress_audit_record_count (a : option maelys_egress_audit) : Z :=
  match a with Some a => records a | None => 0 end.

Definition maelys_egress_audit_chain_copy (a : option maelys_egress_audit)
  : maelys_egress_result_t * option bytes :=
  match a with
  | Some a => (MAELYS_EGRESS_OK, Some (chain_hex a))
  | None => (MAELYS_EGRESS_ERR_ARGUMENT, None)
  end.

Definition maelys_egress_audit_healthy (a : option maelys_egress_audit) : bool :=
  match a with Some a => healthy a | None => false end.

(** * Fields between quotes *)

(** Whether the segments after a quote spell [name":"]. *)
Definition opens (name : bytes) (segs : list bytes) : bool :=
  match segs with
  | a :: b :: _ :: _ => beq b [c_colon] && beq a name
  | _ => false
  end.

(** The value of the first field called [name] in a text cut at its quotes. *)
Fixpoint find_field (name : bytes) (segs : list bytes) : option bytes :=
  match segs with
  | [] => None
  | _ :: segs =>
      if opens name segs
      then match segs with _ :: _ :: value :: _ :: _ => Some value | _ => None end
      else find_field name segs
  end.

Abbreviation quote_free := (fun s => c_dquote ∉ s) (only parsing).

Lemma prefixb_segment name q a t :
  c_dquote ∉ name -> c_dquote ∉ a ->
  prefixb (name ++ c_dquote :: q) (a ++ c_dquote :: t) = beq a name && prefixb q t.
Proof.
  revert a. induction name as [|x name IH]; intros [|y a] Hn Ha; cbn [app prefixb beq].
  - by rewrite Z.eqb_refl.
  - apply not_elem_of_cons in Ha as [Ha _]. by rewrite (proj2 (Z.eqb_neq c_dquote y)).
  - apply not_elem_of_cons in Hn as [Hn _]. by rewrite (proj2 (Z.eqb_neq x c_dquote)) by done.
  - apply not_elem_of_cons in Hn as [_ Hn], Ha as [_ Ha].
    rewrite IH by done. rewrite (Z.eqb_sym x y). by rewrite andb_assoc.
Qed.

Lemma prefixb_no_quote name q a : c_dquote ∉ a -> prefixb (name ++ c_dquote :: q) a = false.
Proof.
  intros Ha. apply not_true_is_false. intros [t Ht]%prefixb_spec. apply Ha. rewrite Ht. set_solver.
Qed.

Lemma prefixb_join name q segs :
  c_dquote ∉ name -> Forall quote_free segs ->
  prefixb (name ++ c_dquote :: q) (join c_dquote segs) =
  match segs with
  | a :: (_ :: _) as rest => beq a name && prefixb q (join c_dquote rest)
  | _ => false
  end.
Proof.
  intros Hn Hs. destruct segs as [|a [|b segs]].
  - apply prefixb_no_quote. set_solver.
  - apply prefixb_no_quote. by inversion Hs.
  - inversion Hs; subst. by apply prefixb_segment.
Qed.

Lemma opens_prefixb name segs :
  c_dquote ∉ name -> Forall quote_free segs ->
  prefixb (name ++ [c_dquote; c_colon; c_dquote]) (join c_dquote segs) = opens name segs.
Proof.
  intros Hn Hs. rewrite prefixb_join by done. destruct segs as [|a [|b segs]]; [done..|].
  inversion Hs; subst. change [c_colon; c_dquote] with ([c_colon] ++ c_dquote :: []).
  rewrite prefixb_join; [|set_solver|done]. destruct segs; cbn [opens prefixb]; [by rewrite andb_false_r|].
  by rewrite andb_true_r, andb_comm.
Qed.

Lemma find_sub_marker name s segs :
  c_dquote ∉ name -> c_dquote ∉ s -> Forall quote_free segs -> segs <> [] ->
  find_sub (json_marker name) (s ++ c_dquote :: join c_dquote segs) =
  if opens name segs then Some (length s)
  else Nat.add (S (length s)) <$> find_sub (json_marker name) (join c_dquote segs).
Proof.
  intros Hn Hs Hf Hne. induction s as [|x s IH].
  - change ([] ++ c_dquote :: join c_dquote segs) with (c_dquote :: join c_dquote segs).
    cbn [find_sub].
    assert (prefixb (json_marker name) (c_dquote :: join c_dquote segs) = opens name segs) as ->.
    { rewrite <-opens_prefixb by done. unfold json_marker, json_key.
      rewrite <-app_assoc. cbn [app prefixb]. by rewrite <-app_assoc. }
    done.
  - apply not_elem_of_cons in Hs as [Hx Hs]. cbn [app find_sub].
    assert (prefixb (json_marker name) (x :: s ++ c_dquote :: join c_dquote segs) = false) as ->.
    { cbn [json_marker json_key app prefixb]. by rewrite (proj2 (Z.eqb_neq c_dquote x)). }
    rewrite IH by done. destruct (opens name segs); [done|].
    by destruct (find_sub (json_marker name) (join c_dquote segs)).
Qed.

Lemma find_sub_no_quote name s : c_dquote ∉ s -> find_sub (json_marker name) s = None.
Proof.
  intros Hs. destruct (find_sub (json_marker name) s) as [i|] eqn:E; [|done].
  apply find_sub_Some in E as (t & E & _). exfalso. apply Hs. rewrite E. set_solver.
Qed.

(** The text from a value on, once its field is found. *)
Lemma drop_marker name s value rest :
  drop (length s + length (json_marker name))
    (s ++ c_dquote :: join c_dquote (name :: [c_colon] :: value :: rest)) =
  join c_dquote (value :: rest).
Proof.
  change (join c_dquote (name :: [c_colon] :: value :: rest))
    with (name ++ [c_dquote; c_colon; c_dquote] ++ join c_dquote (value :: rest)).
  assert (s ++ c_dquote :: name ++ [c_dquote; c_colon; c_dquote] ++ join c_dquote (value :: rest) =
    (s ++ json_marker name) ++ join c_dquote (value :: rest)) as ->.
  { unfold json_marker, json_key. by rewrite <-!app_assoc. }
  rewrite <-length_app. apply drop_app_length.
Qed.

Lemma quoted_field_join name segs capacity :
  c_dquote ∉ name -> Forall quote_free segs ->
  quoted_field (join c_dquote segs) (json_marker name) capacity =
  match find_field name segs with
  | Some value =>
      if (capacity <=? len value) || has_char c_backslash value then None else Some value
  | None => None
  end.
Proof.
  intros Hn Hf. induction segs as [|s segs IH]; [by unfold quoted_field; rewrite find_sub_no_quote by set_solver|].
  inversion Hf as [|? ? Hs Hf']; subst. destruct segs as [|s' segs].
  { unfold quoted_field. cbn [join find_field opens]. by rewrite find_sub_no_quote. }
  specialize (IH Hf'). revert IH.
  change (join c_dquote (s :: s' :: segs)) with (s ++ c_dquote :: join c_dquote (s' :: segs)).
  unfold quoted_field at 2. rewrite find_sub_marker by done. cbn [find_field].
  destruct (opens name (s' :: segs)) eqn:Ho.
  - intros _. destruct segs as [|b [|v rest]]; [done..|]. cbn [opens] in Ho.
    apply andb_true_iff in Ho as [->%beq_spec ->%beq_spec].
    rewrite drop_marker. destruct rest as [|r rest].
    + cbn [join]. inversion Hf' as [|? ? _ Hf2]; inversion Hf2 as [|? ? _ Hf3]; inversion Hf3.
      by rewrite (proj2 (index_of_None _ _)).
    + change (join c_dquote (v :: r :: rest)) with (v ++ c_dquote :: join c_dquote (r :: rest)).
      inversion Hf' as [|? ? _ Hf2]; inversion Hf2 as [|? ? _ Hf3]; inversion Hf3; subst.
      rewrite index_of_app by done. by rewrite take_app_length.
  - intros <-. unfold quoted_field.
    destruct (find_sub (json_marker name) (join c_dquote (s' :: segs))) as [i|]; [|done].
    cbn [fmap option_fmap option_map].
    assert (drop (S (length s) + i + length (json_marker name)) (s ++ c_dquote :: join c_dquote (s' :: segs)) =
      drop (i + length (json_marker name)) (join c_dquote (s' :: segs))) as ->; [|done].
    replace (S (length s) + i + length (json_marker name))%nat
      with (length s + S (i + length (json_marker name)))%nat by lia.
    by rewrite <-drop_drop, drop_app_length.
Qed.

(** * One record *)

Definition record_segments (sequence : Z) (key_id previous mac_hex canonical : bytes)
  : list bytes :=
  [ str "{"; str "v"; str ":1,"; str "seq"; str ":" ++ decimal sequence ++ str ",";
    str "key_id"; str ":"; key_id; str ",";
    str "previous"; str ":"; previous; str ",";
    str "mac"; str ":"; mac_hex; str ",";
    str "canonical"; str ":"; canonical; str "}" ++ [c_lf] ].

Lemma audit_record_join sequence kid previous mac canonical :
  audit_record sequence kid previous mac canonical =
  join c_dquote (record_segments sequence kid previous mac canonical).
Proof.
  unfold audit_record, record_segments, sequence_marker, json_marker, json_key.
  rewrite <-!app_assoc. cbn [join]. rewrite <-!app_assoc. reflexivity.
Qed.

(** What a canonical string must be for its record to be read back. *)
Record canonical_ok (chain canonical : bytes) : Prop := {
  ok_chars : Forall (fun c => c <> 0 /\ c <> c_lf /\ c <> c_dquote /\ c <> c_backslash) canonical;
  ok_length : len canonical < AUDIT_CANONICAL_CAPACITY;
  ok_suffix : exists body, canonical = body ++ prev_suffix chain;
}.

Record audit_ok (a : maelys_egress_audit) : Prop := {
  ok_key_id : forallb key_id_char (key_id a) = true /\ len (key_id a) < 64;
  ok_chain : Forall hex_char (chain_hex a) /\ len (chain_hex a) = 64;
  ok_records : is_u64 (records a);
}.

Lemma hex_char_range c : hex_char c -> 0x2f < c < 0x3a \/ 0x60 < c < 0x67.
Proof.
  unfold hex_char. intros H.
  assert (Forall (fun c => 0x2f < c < 0x3a \/ 0x60 < c < 0x67) (str "0123456789abcdef")) as Hf
    by (apply (bool_decide_unpack _); vm_compute; exact I).
  rewrite Forall_forall in Hf. by apply Hf.
Qed.

Lemma hex_free s c : Forall hex_char s -> ~ (0x2f < c < 0x3a \/ 0x60 < c < 0x67) -> c ∉ s.
Proof. intros Hs Hc Hin. eapply Forall_forall in Hs; [|done]. by apply hex_char_range in Hs. Qed.

Lemma key_id_free a c :
  audit_ok a -> (c < 0x21 \/ c = c_dquote \/ c = c_backslash) -> c ∉ key_id a.
Proof.
  intros [[Hk _] _ _] Hc Hin. apply forallb_Forall in Hk. eapply Forall_forall in Hk; [|done].
  unfold key_id_char in Hk. bool_simp. lia.
Qed.

Lemma digits_free s c : Forall (fun c => is_digit c = true) s -> is_digit c = false -> c ∉ s.
Proof. intros Hs Hc Hin. eapply Forall_forall in Hs; [|done]. congruence. Qed.

Lemma mac_hex_ok m :
  Forall is_byte m -> length m = 32%nat -> Forall hex_char (hex_encode m) /\ len (hex_encode m) = 64.
Proof.
  intros Hm Hl. split; [by apply hex_encode_chars|]. unfold len. rewrite length_hex_encode. lia.
Qed.

Lemma hmac_shape alloc k data m :
  egress_hmac_sha256 alloc k data = Some m -> Forall is_byte m /\ length m = 32%nat.
Proof.
  unfold egress_hmac_sha256. destruct (SIZE_MAX - 64 <? len data), alloc; try done.
  intros E%(inj Some). rewrite <-E. split; [apply sha256_is_byte|apply length_sha256].
Qed.

Lemma hmac_alloc_true alloc k data m :
  egress_hmac_sha256 alloc k data = Some m <->
  alloc = true /\ egress_hmac_sha256 true k data = Some m.
Proof.
  destruct alloc; [tauto|]. unfold egress_hmac_sha256. cbn [negb].
  destruct (_ <? _); split; [done|intros [[=] _]|done|intros [[=] _]].
Qed.

Lemma digits_prefix_app s c t :
  Forall (fun c => is_digit c = true) s -> is_digit c = false -> digits_prefix (s ++ c :: t) = s.
Proof.
  intros Hs Hc. induction Hs as [|x s Hx Hs IH]; cbn [app digits_prefix]; [by rewrite Hc|].
  by rewrite Hx, IH.
Qed.

Lemma strtoull_decimal n t :
  is_u64 n -> strtoull (decimal n ++ 44 :: t) = (n, 44 :: t).
Proof.
  intros Hn. pose proof (decimal_digits n ltac:(unfold is_u64 in *; lia)) as Hd.
  pose proof (decimal_nonempty n) as Hne.
  assert (Hu : undecimal (decimal n) = n) by (by apply undecimal_decimal).
  revert Hd Hne Hu. generalize (decimal n). intros [|x s] Hd Hne Hu; [done|].
  inversion Hd as [|? ? Hx Hs]; subst x0 l. unfold strtoull.
  assert (Hx' : c_0 <= x <= c_9) by (unfold is_digit, in_range in Hx; bool_simp; lia).
  assert (skip_spaces ((x :: s) ++ 44 :: t) = (x :: s) ++ 44 :: t) as ->.
  { cbn [app skip_spaces]. unfold is_space, in_range.
    rewrite (proj2 (Z.eqb_neq x c_space)), (proj2 (Z.leb_gt x c_cr)), andb_false_r by lia. done. }
  cbn [app]. rewrite (proj2 (Z.eqb_neq x c_minus)), (proj2 (Z.eqb_neq x c_plus)) by lia.
  change (x :: s ++ 44 :: t) with ((x :: s) ++ 44 :: t).
  rewrite digits_prefix_app by done. rewrite len_cons.
  rewrite (proj2 (Z.eqb_neq (1 + len s) 0)) by (pose proof (len_nonneg s); lia).
  rewrite Hu, (proj2 (Z.ltb_ge UINT64_MAX n)) by (unfold UINT64_MAX, is_u64 in *; lia).
  by rewrite drop_app_length.
Qed.

Lemma record_segments_free a sequence mac canonical :
  audit_ok a -> 0 <= sequence -> Forall hex_char mac -> canonical_ok (chain_hex a) canonical ->
  Forall quote_free (record_segments sequence (key_id a) (chain_hex a) mac canonical).
Proof.
  intros Ha Hs Hm Hc.
  assert (Hd : c_dquote ∉ decimal sequence)
    by (eapply digits_free; [by apply decimal_digits|done]).
  assert (Hk : c_dquote ∉ key_id a) by (apply key_id_free; [done|lia]).
  assert (Hp : c_dquote ∉ chain_hex a) by (apply hex_free; [apply Ha|lia]).
  assert (Hx : c_dquote ∉ mac) by (by apply hex_free; [|lia]).
  assert (Hn : c_dquote ∉ canonical).
  { intros Hin. destruct Hc as [Hc _ _]. rewrite Forall_forall in Hc. apply Hc in Hin. lia. }
  assert (Hg : c_dquote ∉ str ":" ++ decimal sequence ++ str ",").
  { intros [Hi|Hi]%elem_of_cons; [done|]. apply elem_of_app in Hi as [Hi|Hi]; [done|].
    by apply list_elem_of_singleton in Hi. }
  unfold record_segments.
  repeat (apply Forall_cons_2; [first [assumption|apply has_char_false; by vm_compute]|]).
  apply Forall_nil_2.
Qed.

Lemma nul_free_record a sequence mac canonical :
  audit_ok a -> 0 <= sequence -> Forall hex_char mac -> canonical_ok (chain_hex a) canonical ->
  forall c, c = 0 \/ c = c_lf ->
  c ∉ removelast (audit_record sequence (key_id a) (chain_hex a) mac canonical).
Proof.
  intros Ha Hs Hm Hc c Hc0.
  assert (Hd : c ∉ decimal sequence)
    by (eapply digits_free; [by apply decimal_digits|destruct Hc0; by subst]).
  assert (Hk : c ∉ key_id a) by (apply key_id_free; [done|lia]).
  assert (Hp : c ∉ chain_hex a) by (apply hex_free; [apply Ha|lia]).
  assert (Hx : c ∉ mac) by (apply hex_free; [done|lia]).
  assert (Hn : c ∉ canonical).
  { intros Hin. destruct Hc as [Hc _ _]. rewrite Forall_forall in Hc. apply Hc in Hin. lia. }
  assert (Hl : forall s, forallb (fun x => 0x20 <? x) (str s) = true -> c ∉ str s).
  { intros s Hb Hin. apply forallb_Forall in Hb. rewrite Forall_forall in Hb.
    apply Hb in Hin. bool_simp. lia. }
  unfold audit_record, json_marker, json_key, sequence_marker.
  rewrite !app_assoc, List.removelast_last. rewrite !not_elem_of_app.
  repeat split; try done; try (by apply Hl; vm_compute); destruct Hc0; subst; set_solver.
Qed.

(** The record a line holds. *)
Definition record_of (a : maelys_egress_audit) (sequence : Z) (line mac : bytes) : Prop :=
  exists canonical m,
    canonical_ok (chain_hex a) canonical /\ egress_hmac_sha256 true (key a) canonical = Some m /\
    mac = hex_encode m /\
    line = audit_record (u64 (sequence + 1)) (key_id a) (chain_hex a) mac canonical /\
    len line < AUDIT_RECORD_CAPACITY.

Lemma quoted_field_Some line marker capacity v :
  quoted_field line marker capacity = Some v ->
  c_dquote ∉ v /\ c_backslash ∉ v /\ len v < capacity /\ (forall c, c ∉ line -> c ∉ v).
Proof.
  unfold quoted_field. destruct (find_sub marker line) as [i|]; [|done].
  set (begin := drop _ _). destruct (index_of c_dquote begin) as [n|] eqn:En; [|done].
  destruct (_ || _) eqn:Eg; [done|]. intros [= <-]. bool_simp.
  apply index_of_Some in En as (_ & Hn & _). rewrite has_char_false in *.
  split; [done|]. split; [done|]. split.
  - unfold len. pose proof (firstn_le_length n begin). lia.
  - intros c Hc Hin. apply Hc. rewrite <-(take_drop (i + length marker) line).
    apply elem_of_app. right. fold begin. rewrite <-(take_drop n begin). apply elem_of_app. by left.
Qed.

Lemma snoc_removelast_free (l : bytes) x c : c ∉ removelast (l ++ [x]) -> c ∉ l.
Proof. by rewrite List.removelast_last. Qed.

Lemma audit_record_snoc sequence kid previous mac canonical : exists l : bytes,
  audit_record sequence kid previous mac canonical = l ++ [c_lf] /\
  (forall c, c ∉ l -> c ∉ canonical).
Proof.
  eexists. split.
  - unfold audit_record. rewrite !app_assoc. reflexivity.
  - intros c Hc Hin. apply Hc. rewrite !elem_of_app. tauto.
Qed.

Lemma suffix_test (s suffix : bytes) :
  ((len s <? len suffix) || negb (beq (zdrop (len s - len suffix) s) suffix)) = false <->
  exists body, s = body ++ suffix.
Proof.
  rewrite orb_false_iff, negb_false_iff, beq_spec, Z.ltb_ge. split.
  - intros [Hl E]. exists (ztake (len s - len suffix) s). rewrite <-E at 2. by rewrite ztake_zdrop.
  - intros [body ->]. rewrite len_app. pose proof (len_nonneg body). split; [lia|].
    replace (len body + len suffix - len suffix) with (len body) by lia. apply zdrop_app_len.
Qed.

Lemma resume_record_sound alloc a sequence line mac :
  audit_ok a -> c_lf ∉ removelast line ->
  resume_record alloc a sequence line = Some mac -> alloc = true /\ record_of a sequence line mac.
Proof.
  intros Ha Hlf. unfold resume_record. cbn zeta.
  destruct (find_sub sequence_marker (cstr line)) as [start|]; [|done]. cbn [mbind option_bind].
  destruct (strtoull _) as [parsed number_end].
  destruct (negb (bool_decide _) || negb (parsed =? _)) eqn:E1; [done|].
  destruct (quoted_field _ (json_marker (str "key_id")) _) as [kid|]; [|done]. cbn [mbind option_bind].
  destruct (quoted_field _ (json_marker (str "previous")) _) as [previous|]; [|done]. cbn [mbind option_bind].
  destruct (quoted_field _ (json_marker (str "mac")) _) as [mac'|] eqn:Em; [|done]. cbn [mbind option_bind].
  destruct (quoted_field _ (json_marker (str "canonical")) _) as [canonical|] eqn:Ec; [|done].
  cbn [mbind option_bind].
  destruct (negb (beq kid _) || _ || _ || _) eqn:E2; [done|].
  destruct ((len canonical <? _) || _) eqn:E3; [done|]. apply suffix_test in E3.
  destruct (egress_hmac_sha256 alloc (key a) canonical) as [m|] eqn:Eh; [|done]. cbn [mbind option_bind].
  destruct (negb (egress_constant_time_equal _ _)) eqn:E4; [done|].
  destruct ((AUDIT_RECORD_CAPACITY <=? _) || _) eqn:E5; [done|]. intros [= <-]. bool_simp.
  repeat match goal with H : beq _ _ = true |- _ => apply beq_spec in H end. subst kid previous line parsed.
  apply quoted_field_Some in Em as (_ & _ & _ & Em), Ec as (Hq & Hb & Hl & Ec).
  apply hmac_alloc_true in Eh as [-> Eh]. destruct (hmac_shape _ _ _ _ Eh) as [Hm Hm32].
  split; [done|]. exists canonical, m. split_and!; try done.
  - destruct (audit_record_snoc (u64 (sequence + 1)) (key_id a) (chain_hex a) mac' canonical)
      as (l & El & Hin). rewrite El in Hlf. apply snoc_removelast_free, Hin in Hlf.
    constructor; [|done..]. apply Forall_forall. intros c Hc. split; [|split; [|split]]; intros ->; try done.
    by apply (Ec 0); [apply cstr_no_nul|].
  - symmetry. apply constant_time_equal_eq; [|by apply Em, cstr_no_nul|done].
    apply hex_free; [by apply hex_encode_chars|lia].
Qed.

Lemma cstr_snoc s x : 0 ∉ s -> x <> 0 -> cstr (s ++ [x]) = s ++ [x].
Proof. intros Hs Hx. apply cstr_id. rewrite elem_of_app, list_elem_of_singleton. naive_solver. Qed.

Lemma u64_range z : is_u64 (u64 z).
Proof. unfold is_u64, u64. apply Z.mod_pos_bound. lia. Qed.

Lemma record_segments_fields n kid previous mac canonical :
  let segs := record_segments n kid previous mac canonical in
  find_field (str "key_id") segs = Some kid /\ find_field (str "previous") segs = Some previous /\
  find_field (str "mac") segs = Some mac /\ find_field (str "canonical") segs = Some canonical.
Proof.
  unfold record_segments. pose proof (decimal_nonempty n) as Hne. revert Hne.
  generalize (decimal n). intros [|x s] Hne; [done|]. cbv zeta.
  change (str ":") with [c_colon]. cbn [find_field opens].
  destruct (beq kid [c_colon]), (beq previous [c_colon]), (beq mac [c_colon]); split_and!; reflexivity.
Qed.

Lemma literal_free s : has_char c_dquote (str s) = false -> c_dquote ∉ str s.
Proof. apply has_char_false. Qed.

Lemma resume_record_complete a sequence line mac :
  audit_ok a -> record_of a sequence line mac -> resume_record true a sequence line = Some mac.
Proof.
  intros Ha (canonical & m & Hc & Hh & -> & -> & Hlen).
  destruct (hmac_shape _ _ _ _ Hh) as [Hm Hm32].
  destruct (mac_hex_ok m Hm Hm32) as [Hx Hx64]. set (mac := hex_encode m) in *.
  set (n := u64 (sequence + 1)). pose proof (u64_range (sequence + 1) : is_u64 n) as Hn.
  assert (Hn0 : 0 <= n) by (unfold is_u64 in Hn; lia).
  set (line := audit_record n _ _ _ _) in *.
  assert (Ht : cstr line = line).
  { destruct (audit_record_snoc n (key_id a) (chain_hex a) mac canonical) as (l & El & _).
    fold line in El. rewrite El. apply cstr_snoc; [|done].
    pose proof (nul_free_record a n mac canonical Ha Hn0 Hx Hc 0 (or_introl eq_refl)) as H0.
    fold line in H0. rewrite El in H0. by apply snoc_removelast_free in H0. }
  unfold resume_record. cbn zeta. rewrite Ht.
  assert (Hs : find_sub sequence_marker line = Some 0%nat).
  { unfold line, audit_record. generalize sequence_marker. intros s. generalize (decimal n ++ str "," ++
      json_marker (str "key_id") ++ key_id a ++ [c_dquote] ++ str "," ++
      json_marker (str "previous") ++ chain_hex a ++ [c_dquote] ++ str "," ++
      json_marker (str "mac") ++ mac ++ [c_dquote] ++ str "," ++
      json_marker (str "canonical") ++ canonical ++ [c_dquote] ++ str "}" ++ [c_lf]).
    intros t. pose proof (prefixb_app s t) as Hp. destruct (s ++ t); cbn [find_sub]; by rewrite Hp. }
  rewrite Hs. cbn [mbind option_bind Nat.add].
  assert (Hd : drop (length sequence_marker) line = decimal n ++ 44 ::
      json_marker (str "key_id") ++ key_id a ++ [c_dquote] ++ str "," ++
      json_marker (str "previous") ++ chain_hex a ++ [c_dquote] ++ str "," ++
      json_marker (str "mac") ++ mac ++ [c_dquote] ++ str "," ++
      json_marker (str "canonical") ++ canonical ++ [c_dquote] ++ str "}" ++ [c_lf]).
  { unfold line, audit_record. by rewrite drop_app_length. }
  rewrite Hd, strtoull_decimal by done. cbn [head]. rewrite bool_decide_true by done.
  rewrite Z.eqb_refl. cbn [negb orb].
  assert (Hj : line = join c_dquote (record_segments n (key_id a) (chain_hex a) mac canonical))
    by apply audit_record_join.
  pose proof (record_segments_free a n mac canonical Ha Hn0 Hx Hc) as Hf.
  destruct Ha as [[Hk Hkl] [Hp Hpl] _]. destruct Hc as [Hch Hcl Hsuf].
  assert (Hq : forall name capacity v, c_dquote ∉ name ->
    find_field name (record_segments n (key_id a) (chain_hex a) mac canonical) = Some v ->
    len v < capacity -> c_backslash ∉ v ->
    quoted_field line (json_marker name) capacity = Some v).
  { intros name capacity v H1 H2 H3 H4. rewrite Hj, quoted_field_join, H2 by done.
    rewrite (proj2 (Z.leb_gt _ _)), (proj2 (has_char_false _ _)) by done. done. }
  destruct (record_segments_fields n (key_id a) (chain_hex a) mac canonical) as (F1 & F2 & F3 & F4).
  rewrite (Hq _ 64 _ (literal_free "key_id" eq_refl) F1); [|done|].
  2:{ intros Hin. apply forallb_Forall in Hk. rewrite Forall_forall in Hk. by apply Hk in Hin. }
  rewrite (Hq _ 65 _ (literal_free "previous" eq_refl) F2); [|lia|apply hex_free; [done|lia]].
  rewrite (Hq _ 65 _ (literal_free "mac" eq_refl) F3); [|lia|apply hex_free; [done|lia]].
  rewrite (Hq _ AUDIT_CANONICAL_CAPACITY _ (literal_free "canonical" eq_refl) F4); [|done|].
  2:{ intros Hin. rewrite Forall_forall in Hch. apply Hch in Hin. lia. }
  cbn [mbind option_bind]. rewrite !beq_refl, Hpl, Hx64. cbn [Z.eqb Pos.eqb negb orb].
  rewrite (proj2 (suffix_test _ _) Hsuf), Hh. cbn [mbind option_bind].
  assert (H0 : 0 ∉ mac) by (apply hex_free; [done|lia]).
  fold mac. rewrite (proj2 (constant_time_equal_eq mac mac H0 H0)) by done.
  cbn [negb]. fold line. by rewrite (proj2 (Z.leb_gt _ _)).
Qed.

(** * The journal *)

(** A file of records, from a chain value and a count to the ones after it:
    every record carries the count, the chain value before it and the MAC of
    its canonical string, which names the chain value too. *)
Inductive journal (k kid : bytes) : bytes -> Z -> bytes -> bytes -> Z -> Prop :=
| journal_nil chain sequence : journal k kid chain sequence [] chain sequence
| journal_cons chain sequence canonical m file chain' sequence' :
    canonical_ok chain canonical ->
    egress_hmac_sha256 true k canonical = Some m ->
    len (audit_record (u64 (sequence + 1)) kid chain (hex_encode m) canonical) <
      AUDIT_RECORD_CAPACITY ->
    journal k kid (hex_encode m) (u64 (sequence + 1)) file chain' sequence' ->
    journal k kid chain sequence
      (audit_record (u64 (sequence + 1)) kid chain (hex_encode m) canonical ++ file)
      chain' sequence'.

Lemma journal_app k kid c0 n0 f c1 n1 g c2 n2 :
  journal k kid c0 n0 f c1 n1 -> journal k kid c1 n1 g c2 n2 -> journal k kid c0 n0 (f ++ g) c2 n2.
Proof. induction 1; intros; [done|]. rewrite <-app_assoc. econstructor; eauto. Qed.

(** Reading a line: the bytes before the newline are collected. *)
Lemma resume_loop_line alloc line' line rest sequence a :
  c_lf ∉ line' -> len (line ++ line' ++ [c_lf]) < AUDIT_RECORD_CAPACITY ->
  resume_loop alloc (map ReadByte (line' ++ c_lf :: rest)) line sequence a =
  match resume_record (alloc sequence) a sequence (line ++ line' ++ [c_lf]) with
  | None => (false, a)
  | Some mac_hex =>
      resume_loop alloc (map ReadByte rest) [] (u64 (sequence + 1)) (a <| chain_hex := mac_hex |>)
  end.
Proof.
  revert line. induction line' as [|x line' IH]; intros line Hx Hl;
    pose proof Hl as Hl'; autorewrite with len in Hl'; cbn [app map resume_loop].
  - by rewrite (proj2 (Z.leb_gt _ _)) by lia.
  - pose proof (len_nonneg line'). rewrite (proj2 (Z.leb_gt _ _)) by lia.
    apply not_elem_of_cons in Hx as [Hx Hx'].
    rewrite (proj2 (Z.eqb_neq x c_lf)) by congruence. cbn [negb].
    rewrite IH; [|done|autorewrite with len; lia]. by rewrite <-app_assoc.
Qed.

Definition at_chain (a : maelys_egress_audit) (chain : bytes) (n : Z) : maelys_egress_audit :=
  a <| chain_hex := chain |> <| records := n |>.

Lemma audit_ok_chain a m n :
  audit_ok a -> Forall is_byte m -> length m = 32%nat -> is_u64 n ->
  audit_ok (at_chain a (hex_encode m) n).
Proof. intros [Hk Hc Hr] Hm Hl Hn. constructor; [done| |done]. by apply mac_hex_ok. Qed.

Lemma resume_journal_complete k kid chain sequence file chain' sequence' :
  journal k kid chain sequence file chain' sequence' ->
  forall a, audit_ok a -> k = key a -> kid = key_id a -> chain = chain_hex a ->
  resume_loop (fun _ => true) (map ReadByte file) [] sequence a = (true, at_chain a chain' sequence').
Proof.
  intros Hj.
  induction Hj as [chain sequence|chain sequence canonical m file chain' sequence' Hc Hh Hl Hj IH];
    intros a Ha -> -> ->.
  { by destruct a. }
  destruct (hmac_shape _ _ _ _ Hh) as [Hm Hm32]. destruct (mac_hex_ok m Hm Hm32) as [Hx _].
  set (record := audit_record _ _ _ _ _) in *.
  assert (Hr : resume_record true a sequence record = Some (hex_encode m))
    by (apply resume_record_complete; [done|]; exists canonical, m; done).
  destruct (audit_record_snoc (u64 (sequence + 1)) (key_id a) (chain_hex a) (hex_encode m) canonical)
    as (l & El & _). fold record in El.
  pose proof (nul_free_record a _ _ _ Ha (proj1 (u64_range (sequence + 1))) Hx Hc c_lf (or_intror eq_refl)) as Hlf.
  fold record in Hlf. rewrite El in *. apply snoc_removelast_free in Hlf.
  rewrite <-app_assoc. change ([c_lf] ++ file) with (c_lf :: file).
  rewrite resume_loop_line by done. cbn [app]. rewrite Hr.
  rewrite (IH (a <| chain_hex := hex_encode m |>)); [by destruct a| |done..].
  destruct Ha as [Hk _ Hn]. constructor; [done| |done]. by apply mac_hex_ok.
Qed.

Lemma resume_loop_unterminated alloc file line sequence a :
  c_lf ∉ file -> line ++ file <> [] ->
  (resume_loop alloc (map ReadByte file) line sequence a).1 = false.
Proof.
  revert line. induction file as [|x file IH]; intros line Hx Hne; cbn [map resume_loop].
  - rewrite app_nil_r in Hne. destruct line; [done|]. rewrite len_cons.
    rewrite (proj2 (Z.eqb_neq _ _)) by (pose proof (len_nonneg line); lia). done.
  - case_match; [done|]. apply not_elem_of_cons in Hx as [Hx Hx'].
    rewrite (proj2 (Z.eqb_neq x c_lf)) by congruence. cbn [negb].
    apply IH; [done|]. by destruct line.
Qed.

Lemma resume_loop_oversized alloc line' line rest sequence a :
  c_lf ∉ line' -> AUDIT_RECORD_CAPACITY <= len (line ++ line' ++ [c_lf]) ->
  (resume_loop alloc (map ReadByte (line' ++ c_lf :: rest)) line sequence a).1 = false.
Proof.
  revert line. induction line' as [|x line' IH]; intros line Hx Hl;
    pose proof Hl as Hl'; autorewrite with len in Hl'; cbn [app map resume_loop].
  - by rewrite (proj2 (Z.leb_le _ _)) by lia.
  - case_match; [done|]. apply not_elem_of_cons in Hx as [Hx Hx'].
    rewrite (proj2 (Z.eqb_neq x c_lf)) by congruence. cbn [negb].
    apply IH; [done|]. autorewrite with len. lia.
Qed.

Lemma resume_journal_sound a sequence file a' :
  audit_ok a ->
  resume_loop (fun _ => true) (map ReadByte file) [] sequence a = (true, a') ->
  exists chain' sequence',
    journal (key a) (key_id a) (chain_hex a) sequence file chain' sequence' /\
    a' = at_chain a chain' sequence'.
Proof.
  remember (length file) as n eqn:En. revert file En a sequence.
  induction (lt_wf n) as [n _ IH]; intros file -> a sequence Ha Hr.
  destruct (index_of c_lf file) as [i|] eqn:Ei; cycle 1.
  { apply index_of_None in Ei. destruct file as [|x file].
    - injection Hr as <-. exists (chain_hex a), sequence. split; [constructor|by destruct a].
    - pose proof (resume_loop_unterminated (fun _ => true) (x :: file) [] sequence a Ei ltac:(done)) as H.
      by rewrite Hr in H. }
  apply index_of_Some in Ei as (Ef & Hi & Hlt).
  set (line := take i file) in *. set (rest := drop (S i) file) in *.
  rewrite Ef in Hr. destruct (Z.ltb_spec (len ([] ++ line ++ [c_lf])) AUDIT_RECORD_CAPACITY) as [Hs|Hs].
  2:{ pose proof (resume_loop_oversized (fun _ => true) line [] rest sequence a Hi Hs) as H. by rewrite Hr in H. }
  rewrite resume_loop_line in Hr by done. cbn [app] in Hr, Hs.
  destruct (resume_record true a sequence (line ++ [c_lf])) as [mac|] eqn:Er; [|done].
  apply resume_record_sound in Er as [_ (canonical & m & Hc & Hh & -> & El & Hl)]; [|done|].
  2:{ by rewrite List.removelast_last. }
  destruct (hmac_shape _ _ _ _ Hh) as [Hm Hm32].
  edestruct (IH (length rest)) as (chain' & sequence' & Hj & ->);
    [subst rest; rewrite length_drop; lia|done| |exact Hr|].
  { destruct Ha as [Hk _ Hn]. constructor; [done| |done]. by apply mac_hex_ok. }
  exists chain', sequence'. split; [|by destruct a].
  rewrite Ef. change (c_lf :: rest) with ([c_lf] ++ rest). rewrite app_assoc, El.
  econstructor; try done. by rewrite <-El.
Qed.

(** * Appending *)

Lemma write_all_spec ws file b :
  match write_all ws file b with
  | (true, file') => file' = file ++ b
  | (false, file') => exists p s, b = p ++ s /\ file' = file ++ p
  end.
Proof.
  revert file b. induction ws as [|w ws IH]; intros file b; cbn [write_all].
  - destruct (Z.eqb_spec (len b) 0) as [E|E].
    + destruct b; [by rewrite app_nil_r|]. rewrite len_cons in E. pose proof (len_nonneg b). lia.
    + exists [], b. by rewrite app_nil_r.
  - destruct (Z.eqb_spec (len b) 0) as [E|E].
    { destruct b; [by rewrite app_nil_r|]. rewrite len_cons in E. pose proof (len_nonneg b). lia. }
    destruct w as [| |amount]; [apply IH|exists [], b; by rewrite app_nil_r|].
    destruct (amount <=? 0); [exists [], b; by rewrite app_nil_r|].
    specialize (IH (file ++ ztake amount b) (zdrop amount b)).
    destruct (write_all _ _ _) as [[] file'].
    + rewrite IH, <-app_assoc. by rewrite ztake_zdrop.
    + destruct IH as (p & s & E1 & ->). exists (ztake amount b ++ p), s.
      rewrite <-app_assoc. rewrite <-E1, ztake_zdrop. by rewrite app_assoc.
Qed.

(** Evaluates the lengths of literals. *)
Ltac literal_lengths :=
  repeat match goal with
  | |- context [len (str ?s)] =>
      let v := eval vm_compute in (len (str s)) in change (len (str s)) with v
  end.

Definition receipt_canonical_string (chain : bytes) (n : Z) (r : maelys_egress_receipt) : bytes :=
  audit_canonical n (receipt_text r) r chain.

Definition chain_ok (chain : bytes) : Prop := Forall hex_char chain /\ len chain = 64.

Lemma canonical_string_len chain n r :
  receipt_wf r -> is_u64 n -> chain_ok chain -> len (receipt_canonical_string chain n r) <= 2400.
Proof.
  intros Hr Hn [_ Hc]. pose proof (receipt_text_len _ Hr). pose proof (decimal_len_u64 _ Hn).
  destruct Hr as [_ _ _ _ _ [_ Ha] [_ Hk] [_ Hx] _ _].
  unfold receipt_canonical_string, audit_canonical, prev_suffix. rewrite !len_app. literal_lengths.
  unfold EGRESS_MAX_ATTESTATION_BYTES in *. lia.
Qed.

Lemma canonical_string_ok chain n r :
  receipt_wf r -> is_u64 n -> chain_ok chain -> canonical_ok chain (receipt_canonical_string chain n r).
Proof.
  intros Hr Hn Hc. pose proof (canonical_string_len _ _ _ Hr Hn Hc) as Hl. constructor.
  - apply (Forall_impl text_char); [|unfold text_char; lia].
    pose proof (receipt_text_chars _ Hr). destruct Hc as [Hc _]. destruct Hr.
    unfold receipt_canonical_string, audit_canonical, prev_suffix. revert H.
    generalize (receipt_text r). intros text H.
    repeat apply Forall_app_2; try (by eapply receipt_word_text); try (by apply literal_text); try done.
    + eapply receipt_word_text, decimal_word with (m := 20); [|unfold is_u64 in Hn]; lia.
    + eapply Forall_impl; [exact Hc|]. intros c Hx%hex_char_range. unfold text_char. lia.
  - unfold AUDIT_CANONICAL_CAPACITY. lia.
  - eexists. unfold receipt_canonical_string, audit_canonical. rewrite !app_assoc. reflexivity.
Qed.

Lemma hmac_some k data :
  len data <= SIZE_MAX - 64 -> exists m, egress_hmac_sha256 true k data = Some m.
Proof.
  intros H. unfold egress_hmac_sha256. rewrite (proj2 (Z.ltb_ge _ _)) by done. eauto.
Qed.

Definition receipt_mac (k chain : bytes) (n : Z) (r : maelys_egress_receipt) : bytes :=
  hex_encode (default [] (egress_hmac_sha256 true k (receipt_canonical_string chain n r))).

Definition receipt_record (k kid chain : bytes) (n : Z) (r : maelys_egress_receipt) : bytes :=
  audit_record n kid chain (receipt_mac k chain n r) (receipt_canonical_string chain n r).

(** What the journal promises: the file that stands for a list of receipts,
    and where the chain is after them. *)
Fixpoint journal_of (k kid chain : bytes) (n : Z) (rs : list maelys_egress_receipt)
  : bytes * (bytes * Z) :=
  match rs with
  | [] => ([], (chain, n))
  | r :: rs =>
      let n := u64 (n + 1) in
      let '(file, last) := journal_of k kid (receipt_mac k chain n r) n rs in
      (receipt_record k kid chain n r ++ file, last)
  end.

Lemma journal_of_snoc k kid chain n rs r :
  let '(file, (chain', n')) := journal_of k kid chain n rs in
  journal_of k kid chain n (rs ++ [r]) =
  (file ++ receipt_record k kid chain' (u64 (n' + 1)) r,
   (receipt_mac k chain' (u64 (n' + 1)) r, u64 (n' + 1))).
Proof.
  revert chain n. induction rs as [|r0 rs IH]; intros chain n; cbn [journal_of app].
  - by rewrite app_nil_r.
  - specialize (IH (receipt_mac k chain (u64 (n + 1)) r0) (u64 (n + 1))).
    destruct (journal_of _ _ _ _ rs) as [file [chain' n']]. rewrite IH. by rewrite app_assoc.
Qed.

Definition kid_ok (kid : bytes) : Prop := forallb key_id_char kid = true /\ len kid < 64.

Lemma receipt_mac_spec k chain n r :
  receipt_wf r -> is_u64 n -> chain_ok chain ->
  exists m, egress_hmac_sha256 true k (receipt_canonical_string chain n r) = Some m /\
    receipt_mac k chain n r = hex_encode m /\ chain_ok (receipt_mac k chain n r).
Proof.
  intros Hr Hn Hc. destruct (hmac_some k (receipt_canonical_string chain n r)) as [m Hm].
  { pose proof (canonical_string_len _ _ _ Hr Hn Hc). unfold SIZE_MAX. lia. }
  destruct (hmac_shape _ _ _ _ Hm). exists m. unfold receipt_mac. rewrite Hm. cbn [default].
  split_and!; [done..|]. by apply mac_hex_ok.
Qed.

Lemma receipt_record_len k kid chain n r :
  kid_ok kid -> receipt_wf r -> is_u64 n -> chain_ok chain ->
  len (receipt_record k kid chain n r) < AUDIT_RECORD_CAPACITY.
Proof.
  intros [_ Hk] Hr Hn Hc. destruct (receipt_mac_spec k _ _ _ Hr Hn Hc) as (_ & _ & _ & _ & Hm).
  pose proof (canonical_string_len _ _ _ Hr Hn Hc). pose proof (decimal_len_u64 _ Hn).
  destruct Hc as [_ Hc].
  unfold receipt_record, audit_record, sequence_marker, json_marker, json_key.
  rewrite !len_app. literal_lengths.
  change (len [c_dquote]) with 1. change (len [c_dquote; c_colon]) with 2. change (len [c_lf]) with 1.
  unfold AUDIT_RECORD_CAPACITY, AUDIT_CANONICAL_CAPACITY. lia.
Qed.

(** The file of a list of receipts is a journal. *)
Lemma journal_of_journal k kid chain n rs :
  kid_ok kid -> chain_ok chain -> is_u64 n -> Forall receipt_wf rs ->
  let '(file, (chain', n')) := journal_of k kid chain n rs in
  journal k kid chain n file chain' n' /\ chain_ok chain' /\ is_u64 n'.
Proof.
  intros Hk Hc Hn Hrs. revert chain n Hc Hn. induction Hrs as [|r rs Hr Hrs IH]; intros chain n Hc Hn;
    cbn [journal_of]; [split; [constructor|done]|].
  pose proof (u64_range (n + 1)) as Hu.
  destruct (receipt_mac_spec k chain _ r Hr Hu Hc) as (m & Hm & Em & Hc').
  specialize (IH _ _ Hc' Hu). destruct (journal_of _ _ _ _ rs) as [file [chain' n']].
  destruct IH as [IH IH']. split; [|done]. pose proof (receipt_record_len k kid chain _ r Hk Hr Hu Hc) as Hl.
  unfold receipt_record in Hl |- *. rewrite Em in *. econstructor; [by apply canonical_string_ok|done..].
Qed.

(** One call of [egress_audit_append] on a healthy journal: the record in full,
    or a part of it and a journal that takes no more. *)
Lemma append_spec env a file r :
  audit_ok a -> healthy a = true -> receipt_wf r ->
  let record := receipt_record (key a) (key_id a) (chain_hex a) (u64 (records a + 1)) r in
  match egress_audit_append env a file r with
  | (true, a', file') =>
      file' = file ++ record /\
      a' = at_chain a (receipt_mac (key a) (chain_hex a) (u64 (records a + 1)) r) (u64 (records a + 1))
  | (false, a', file') => a' = a <| healthy := false |> /\ exists part rest, record = part ++ rest /\ file' = file ++ part
  end.
Proof.
  intros [Hk Hc Hn] Hh Hr record. pose proof (u64_range (records a + 1)) as Hu.
  destruct (receipt_mac_spec (key a) _ _ _ Hr Hu Hc) as (m & Hm & Em & _).
  pose proof (receipt_record_len (key a) (key_id a) _ _ _ Hk Hr Hu Hc) as Hl. fold record in Hl.
  pose proof (canonical_string_len _ _ _ Hr Hu Hc) as Hs.
  assert (Hfail : exists part rest, record = part ++ rest /\ file = file ++ part)
    by (exists [], record; by rewrite app_nil_r).
  unfold egress_audit_append. rewrite Hh. cbn [negb]. unfold egress_receipt_canonical.
  rewrite (proj2 (Z.leb_gt 2048 (len (receipt_text r)))) by (pose proof (receipt_text_len _ Hr); lia).
  cbn [Z.eqb]. change (audit_canonical _ (receipt_text r) r _) with (receipt_canonical_string (chain_hex a) (u64 (records a + 1)) r).
  rewrite (proj2 (Z.leb_gt _ _)) by (unfold AUDIT_CANONICAL_CAPACITY; lia).
  destruct (egress_hmac_sha256 (hmac_alloc env) (key a) _) as [m'|] eqn:Eh; [|done].
  apply hmac_alloc_true in Eh as [_ Eh]. rewrite Hm in Eh. apply (inj Some) in Eh as <-.
  rewrite <-Em. change (audit_record _ _ _ _ _) with record.
  rewrite (proj2 (Z.leb_gt _ _)) by done.
  pose proof (write_all_spec (writes env) file record) as Hw.
  destruct (write_all (writes env) file record) as [[] file']; cbn [andb]; [|done].
  destruct (synced env); [by destruct a|].
  split; [done|]. exists record, []. by rewrite app_nil_r.
Qed.

(** * Theorems *)

Definition key_ok (k kid : bytes) : Prop := 16 <= len k <= 4096 /\ kid <> [] /\ kid_ok kid.

Definition fresh_audit (k kid : bytes) : maelys_egress_audit := Audit k kid zero_chain 0 true.

Lemma zero_chain_ok : chain_ok zero_chain.
Proof. split; [|done]. apply Forall_forall. intros c Hc%list_elem_of_In%repeat_spec. subst.
  apply (bool_decide_unpack _). by vm_compute. Qed.

Lemma fresh_ok k kid : kid_ok kid -> audit_ok (fresh_audit k kid).
Proof. intros Hk. constructor; [done|apply zero_chain_ok|unfold is_u64; simpl; lia]. Qed.

Lemma create_resume k kid seek alloc reads :
  key_ok k kid ->
  maelys_egress_audit_file_create OpenReady seek alloc reads k kid =
  match resume_audit seek alloc reads (fresh_audit k kid) with
  | (true, a) => (MAELYS_EGRESS_OK, Some a)
  | (false, _) => (MAELYS_EGRESS_ERR_CRYPTO, None)
  end.
Proof.
  intros (Hl & Hne & Hc & Hk). unfold maelys_egress_audit_file_create, fresh_audit.
  assert (len kid <> 0) by (destruct kid; [done|]; rewrite len_cons; pose proof (len_nonneg kid); lia).
  rewrite (proj2 (Z.ltb_ge (len k) 16)), (proj2 (Z.ltb_ge 4096 (len k))),
    (proj2 (Z.eqb_neq (len kid) 0)), (proj2 (Z.leb_gt 64 (len kid))), Hc by lia.
  cbn [orb negb]. by rewrite snprintf_s_id by lia.
Qed.

(** What [read] delivers, interruptions apart. *)
Definition bytes_read (reads : list read_answer) : bytes :=
  omap (fun x => match x with ReadByte b => Some b | _ => None end) reads.

Lemma resume_loop_reads alloc reads line sequence a :
  Forall (fun x => x <> ReadFailed) reads ->
  resume_loop alloc reads line sequence a =
  resume_loop alloc (map ReadByte (bytes_read reads)) line sequence a.
Proof.
  intros Hf. revert line sequence a. induction Hf as [|[| |b] reads Hx Hf IH]; intros line sequence a;
    [done|exact (IH line sequence a)|done|].
  change (bytes_read (ReadByte b :: reads)) with (b :: bytes_read reads). cbn [map resume_loop].
  repeat case_match; auto.
Qed.

Lemma resume_loop_failed alloc reads line sequence a :
  ReadFailed ∈ reads -> (resume_loop alloc reads line sequence a).1 = false.
Proof.
  intros Hin. revert line sequence a. induction reads as [|x reads IH]; intros line sequence a;
    [by apply not_elem_of_nil in Hin|].
  apply elem_of_cons in Hin as [<-|Hin]; [done|]. destruct x; cbn [resume_loop]; [by apply IH|done|].
  repeat case_match; auto; done.
Qed.

(** C34: a journal is reopened exactly when its file is an unbroken chain of
    records, each with the next number, the MAC of the record before and its own
    MAC under the key, and nothing after them; the journal then continues from
    that chain value and count.  A seek or a read that fails refuses the file,
    whatever was read. *)
Theorem audit_reopen_exact (k kid : bytes) (seek : bool) (reads : list read_answer) (a : maelys_egress_audit) :
  key_ok k kid ->
  maelys_egress_audit_file_create OpenReady seek (fun _ => true) reads k kid = (MAELYS_EGRESS_OK, Some a) <->
  seek = true /\ (ReadFailed ∉ reads) /\
  exists chain n, journal k kid zero_chain 0 (bytes_read reads) chain n /\ a = Audit k kid chain n true.
Proof.
  intros Hk. rewrite create_resume by done. unfold resume_audit. destruct seek; cbn [negb]; [|split; [done|by intros [? _]]].
  pose proof (fresh_ok k kid (proj2 (proj2 Hk))) as Ha.
  destruct (decide (ReadFailed ∈ reads)) as [Hin|Hin].
  { pose proof (resume_loop_failed (fun _ => true) reads [] 0 (fresh_audit k kid) Hin) as Hf.
    destruct (resume_loop _ _ _ _ _) as [[] ?]; [done|]. split; [done|tauto]. }
  rewrite resume_loop_reads.
  2:{ apply Forall_forall. intros x Hx ->. done. }
  split.
  - destruct (resume_loop _ _ _ _ _) as [[] a'] eqn:Er; [|done]. intros [= ->].
    apply resume_journal_sound in Er as (chain & n & Hj & ->); [|done].
    split_and!; [done|done|]. by exists chain, n.
  - intros (_ & _ & chain & n & Hj & ->). by rewrite (resume_journal_complete _ _ _ _ _ _ _ Hj _ Ha).
Qed.

(** The life of a journal: receipts appended, whatever the system answers, and
    the journal reopened while it is healthy. *)
Inductive audit_run (k kid : bytes) : list maelys_egress_receipt -> maelys_egress_audit -> bytes -> Prop :=
| run_open : audit_run k kid [] (fresh_audit k kid) []
| run_append rs a file env r ok a' file' :
    audit_run k kid rs a file -> receipt_wf r ->
    egress_audit_append env a file r = (ok, a', file') ->
    audit_run k kid (if ok : bool then rs ++ [r] else rs) a' file'
| run_reopen rs a file a' :
    audit_run k kid rs a file -> healthy a = true ->
    maelys_egress_audit_file_create OpenReady true (fun _ => true) (map ReadByte file) k kid =
      (MAELYS_EGRESS_OK, Some a') ->
    audit_run k kid rs a' file.

Definition holds_receipts (k kid : bytes) (rs : list maelys_egress_receipt)
    (a : maelys_egress_audit) (file : bytes) : Prop :=
  exists part, file = (journal_of k kid zero_chain 0 rs).1 ++ part /\ Forall receipt_wf rs /\
    (healthy a = true ->
     part = [] /\ a = Audit k kid (journal_of k kid zero_chain 0 rs).2.1
                            (journal_of k kid zero_chain 0 rs).2.2 true).

Lemma bytes_read_map file : bytes_read (map ReadByte file) = file.
Proof. induction file as [|x file IH]; [done|]. change (x :: bytes_read (map ReadByte file) = x :: file). by rewrite IH. Qed.

Lemma read_bytes_intact file : ReadFailed ∉ map ReadByte file.
Proof. intros (x & ? & ?)%list_elem_of_fmap. done. Qed.

(** The journal of healthy receipts reopens in the state it was left in. *)
Lemma reopen_journal_of k kid rs :
  key_ok k kid -> Forall receipt_wf rs ->
  let j := journal_of k kid zero_chain 0 rs in
  maelys_egress_audit_file_create OpenReady true (fun _ => true) (map ReadByte j.1) k kid =
    (MAELYS_EGRESS_OK, Some (Audit k kid j.2.1 j.2.2 true)) /\
  chain_ok j.2.1 /\ is_u64 j.2.2.
Proof.
  intros Hk Hrs. pose proof (journal_of_journal k kid zero_chain 0 rs (proj2 (proj2 Hk)) zero_chain_ok) as Hj.
  destruct (journal_of k kid zero_chain 0 rs) as [file [chain n]]. cbn [fst snd].
  destruct Hj as (Hj & Hc & Hn); [by unfold is_u64|done|]. split; [|done].
  rewrite create_resume by done. unfold resume_audit.
  by rewrite (resume_journal_complete _ _ _ _ _ _ _ Hj _ (fresh_ok k kid (proj2 (proj2 Hk)))).
Qed.

Lemma audit_run_holds k kid rs a file :
  key_ok k kid -> audit_run k kid rs a file -> holds_receipts k kid rs a file.
Proof.
  intros Hk. induction 1 as [|rs a file env r ok a' file' _ IH Hr Happ|rs a file a' _ IH Hh Hre].
  - exists []. by repeat split.
  - destruct IH as (part & Hfile & Hrs & IH). destruct (healthy a) eqn:Hh.
    + destruct (IH eq_refl) as [-> Ea]. rewrite app_nil_r in Hfile.
      destruct (reopen_journal_of k kid rs Hk Hrs) as (_ & Hc & Hn).
      assert (Hok : audit_ok a) by (subst a; constructor; [apply Hk|done..]).
      pose proof (append_spec env a file r Hok Hh Hr) as Hs. rewrite Happ in Hs.
      destruct ok.
      * destruct Hs as [-> ->]. exists []. rewrite app_nil_r.
        pose proof (journal_of_snoc k kid zero_chain 0 rs r) as Hj.
        destruct (journal_of k kid zero_chain 0 rs) as [good [chain n]]. subst a file.
        rewrite Hj. cbn [fst snd] in *. split; [done|]. split; [by apply Forall_app_2; [|constructor]|done].
      * destruct Hs as [-> (part & rest & _ & ->)]. exists part. subst file. split; [done|].
        split; [done|]. by destruct a.
    + unfold egress_audit_append in Happ. rewrite Hh in Happ. cbn [negb] in Happ.
      injection Happ as <- <- <-. exists part. split; [done|]. split; [done|]. congruence.
  - destruct IH as (part & Hfile & Hrs & IH). destruct (IH Hh) as [-> Ea].
    rewrite app_nil_r in Hfile. exists []. rewrite app_nil_r. split; [done|]. split; [done|].
    intros _. split; [done|].
    destruct (reopen_journal_of k kid rs Hk Hrs) as (Hc & _). rewrite <-Hfile, Hre in Hc. congruence.
Qed.

(** C33: whatever the system answers to its writes, the file of a journal is the
    records of exactly the receipts whose append succeeded, in order, followed
    by nothing while the journal is healthy and by at most the part of one
    refused record afterwards; and a healthy journal reopens in the state it
    was left in. *)
Theorem audit_journal_refines (k kid : bytes) (rs : list maelys_egress_receipt)
    (a : maelys_egress_audit) (file : bytes) :
  key_ok k kid -> audit_run k kid rs a file ->
  holds_receipts k kid rs a file /\
  (healthy a = true ->
   maelys_egress_audit_file_create OpenReady true (fun _ => true) (map ReadByte file) k kid =
     (MAELYS_EGRESS_OK, Some a)).
Proof.
  intros Hk Hrun. pose proof (audit_run_holds _ _ _ _ _ Hk Hrun) as Hh. split; [done|].
  intros Hhealthy. destruct Hh as (part & -> & Hrs & Hh). destruct (Hh Hhealthy) as [-> ->].
  rewrite app_nil_r. by apply reopen_journal_of.
Qed.

Definition example_key : bytes := repeat 7 32.
Definition example_kid : bytes := str "k1".

Lemma example_key_ok : key_ok example_key example_kid.
Proof. split; [vm_compute; intuition discriminate|]. split; [done|]. by split. Qed.

Lemma audit_reopen_exact_witness :
  let j := journal_of example_key example_kid zero_chain 0 [example_receipt] in
  maelys_egress_audit_file_create OpenReady true (fun _ => true) (ReadInterrupted :: map ReadByte j.1)
    example_key example_kid =
  (MAELYS_EGRESS_OK, Some (Audit example_key example_kid j.2.1 j.2.2 true)).
Proof.
  pose proof (journal_of_journal example_key example_kid zero_chain 0 [example_receipt]
    (proj2 (proj2 example_key_ok)) zero_chain_ok) as Hj.
  intros j. destruct j as [file [chain n]] eqn:Ej. unfold j in Ej. rewrite Ej in Hj. cbn [fst snd].
  destruct Hj as (Hj & _); [by unfold is_u64|constructor; [apply example_receipt_wf|constructor]|].
  apply (proj2 (audit_reopen_exact _ _ true _ _ example_key_ok)). split; [done|]. split.
  - rewrite not_elem_of_cons. split; [done|apply read_bytes_intact].
  - exists chain, n. split; [|done].
    change (bytes_read (ReadInterrupted :: map ReadByte file)) with (bytes_read (map ReadByte file)).
    by rewrite bytes_read_map.
Defined.

Definition example_answers : append_answers :=
  AppendAnswers true [WriteInterrupted; Wrote 100; Wrote 5000] true.

Definition example_appended : bool * maelys_egress_audit * bytes :=
  egress_audit_append example_answers (fresh_audit example_key example_kid) [] example_receipt.

Lemma audit_journal_refines_witness :
  example_appended.1.1 = true /\
  holds_receipts example_key example_kid [example_receipt] example_appended.1.2 example_appended.2.
Proof.
  assert (example_appended.1.1 = true) as E by (vm_compute; reflexivity).
  split; [exact E|].
  assert (Hrun : audit_run example_key example_kid [example_receipt]
    example_appended.1.2 example_appended.2).
  { eapply (run_append _ _ [] _ _ example_answers example_receipt true);
      [constructor|apply example_receipt_wf|]. rewrite <-E. fold example_appended.
    generalize example_appended. by intros [[] ?]. }
  apply (audit_journal_refines _ _ _ _ _ example_key_ok Hrun).
Defined.
