(* ===== verification/Buffer.v ===== *)
(** The helpers of src/server/internal.h and the token of
    src/server/admin.c: the relay buffers, the saturating counters and the
    tokens that name a connection to the reactor.

    A buffer is the array the code allocates, with the offset and length of
    the bytes it holds; the theorem is that the operations implement a bounded
    queue of bytes. *)

From S2P Require Import Prelude Common.

(** * Arithmetic *)

Definition add_saturating (value amount : Z) : Z :=
  if UINT64_MAX - value <? amount then UINT64_MAX else value + amount.

Lemma add_saturating_min value amount : add_saturating value amount = Z.min UINT64_MAX (value + amount).
Proof. unfold add_saturating. destruct (Z.ltb_spec (UINT64_MAX - value) amount); lia. Qed.

(** * Buffers *)

(** [data] is empty when the pointer is NULL. *)
Record egress_buffer_t := Buffer {
  data : bytes;
  capacity : Z;
  offset : Z;
  length_ : Z;
}.

#[export] Instance eta_buffer : Eta egress_buffer_t := fun b =>
  Buffer (data b) (capacity b) (offset b) (length_ b).

(** [memcpy] or [memmove] to an offset of an array. *)
Definition write_at (array : bytes) (position : Z) (b : bytes) : bytes :=
  ztake position array ++ b ++ zdrop (position + len b) array.

(** The bytes [length] from [offset]. *)
Definition content (b : egress_buffer_t) : bytes := ztake (length_ b) (zdrop (offset b) (data b)).

Definition buffer_compact (b : egress_buffer_t) : egress_buffer_t :=
  (if negb (offset b =? 0) && negb (length_ b =? 0)
   then b <| data := write_at (data b) 0 (content b) |> else b) <| offset := 0 |>.

(** The room, and the buffer afterwards. *)
Definition buffer_available (b : egress_buffer_t) : Z * egress_buffer_t :=
  let b := if (offset b + length_ b =? capacity b) && negb (offset b =? 0)
           then buffer_compact b else b in
  (capacity b - offset b - length_ b, b).

(** Bytes written after the ones held: the [memcpy] of [buffer_append], and
    what a [receive] into the buffer leaves there. *)
Definition buffer_put (b : egress_buffer_t) (bytes_ : bytes) : egress_buffer_t :=
  b <| data := write_at (data b) (offset b + length_ b) bytes_ |>
    <| length_ := length_ b + len bytes_ |>.

Definition buffer_append (b : egress_buffer_t) (bytes_ : bytes) : bool * egress_buffer_t :=
  let '(available, b) := buffer_available b in
  if available <? len bytes_ then (false, b) else (true, buffer_put b bytes_).

Definition buffer_consume (b : egress_buffer_t) (length : Z) : egress_buffer_t :=
  if length_ b <=? length then b <| offset := 0 |> <| length_ := 0 |>
  else b <| offset := offset b + length |> <| length_ := length_ b - length |>.

(** ** Invariant *)

Record buffer_wf (b : egress_buffer_t) : Prop := {
  wf_offset : 0 <= offset b;
  wf_length : 0 <= length_ b;
  wf_data : len (data b) = capacity b;
  wf_bound : offset b + length_ b <= capacity b;
}.

Lemma len_write_at array position b :
  0 <= position -> position + len b <= len array -> len (write_at array position b) = len array.
Proof.
  intros. pose proof (len_nonneg b). unfold write_at. rewrite !len_app.
  rewrite len_ztake, len_zdrop by lia. lia.
Qed.

Lemma read_write_at array position b :
  0 <= position -> position + len b <= len array ->
  ztake (len b) (zdrop position (write_at array position b)) = b.
Proof.
  intros. pose proof (len_nonneg b). unfold write_at.
  assert (len (ztake position array) = position) as E by (apply len_ztake; lia).
  rewrite <-E at 1. by rewrite zdrop_app_len, ztake_app_len.
Qed.

Lemma write_at_nil array position : write_at array position [] = array.
Proof. unfold write_at. rewrite len_nil, Z.add_0_r. cbn [app]. apply ztake_zdrop. Qed.

Lemma len_content b : buffer_wf b -> len (content b) = length_ b.
Proof.
  intros [Ho Hl Hd Hb]. unfold content. rewrite len_ztake; [done|]. rewrite len_zdrop; lia.
Qed.

Lemma ztake_ztake_app {A} n (l r : list A) :
  0 <= n -> n <= len l -> ztake n (l ++ r) = ztake n l.
Proof. intros. unfold ztake. rewrite take_app_le; [done|]. unfold len in *. lia. Qed.

Lemma ztake_plus {A} n m (l : list A) :
  0 <= n -> 0 <= m -> ztake (n + m) l = ztake n l ++ ztake m (zdrop n l).
Proof.
  intros. unfold ztake, zdrop. rewrite Z2Nat.inj_add by lia.
  rewrite <-(take_drop (Z.to_nat n) l) at 1.
  destruct (le_dec (Z.to_nat n) (length l)) as [Hn|Hn].
  - rewrite take_app_ge by (rewrite length_take; lia). rewrite length_take.
    replace (Z.to_nat n + Z.to_nat m - Z.to_nat n `min` length l)%nat with (Z.to_nat m) by lia. done.
  - rewrite (drop_ge l) by lia. rewrite app_nil_r, take_nil, app_nil_r.
    apply take_ge. rewrite length_take. lia.
Qed.

Lemma content_put b bytes_ :
  buffer_wf b -> len bytes_ <= capacity b - offset b - length_ b ->
  buffer_wf (buffer_put b bytes_) /\ content (buffer_put b bytes_) = content b ++ bytes_.
Proof.
  intros [Ho Hl Hd Hb] Hr. pose proof (len_nonneg bytes_).
  assert (Hlen : len (data (buffer_put b bytes_)) = capacity b).
  { change (data (buffer_put b bytes_)) with (write_at (data b) (offset b + length_ b) bytes_).
    rewrite len_write_at; lia. }
  split; [constructor; cbn; try lia; exact Hlen|].
  unfold content. cbn. set (d := data b) in *. set (o := offset b) in *. set (n := length_ b) in *.
  rewrite ztake_plus by lia. f_equal.
  - unfold write_at. unfold zdrop at 1.
    assert (E : len (ztake (o + n) d) = o + n) by (apply len_ztake; lia).
    rewrite drop_app_le by (unfold len in E; lia).
    rewrite ztake_ztake_app; [|lia|].
    2:{ fold (zdrop o (ztake (o + n) d)). rewrite len_zdrop; lia. }
    fold (zdrop o (ztake (o + n) d)). rewrite ztake_plus by lia.
    assert (E1 : len (ztake o d) = o) by (apply len_ztake; lia).
    rewrite <-E1 at 1. rewrite zdrop_app_len. apply ztake_all.
    rewrite len_ztake; [done|]. rewrite len_zdrop; lia.
  - etrans; [|apply (read_write_at d (o + n) bytes_); lia]. f_equal.
    unfold zdrop. rewrite drop_drop. f_equal. lia.
Qed.

Lemma compact_spec b :
  buffer_wf b ->
  buffer_wf (buffer_compact b) /\ content (buffer_compact b) = content b /\
  capacity (buffer_compact b) = capacity b /\ offset (buffer_compact b) = 0 /\
  length_ (buffer_compact b) = length_ b.
Proof.
  intros Hwf. pose proof (len_content _ Hwf) as Hc. destruct Hwf as [Ho Hl Hd Hb].
  unfold buffer_compact. destruct (Z.eqb_spec (offset b) 0) as [E0|E0];
    [|destruct (Z.eqb_spec (length_ b) 0) as [E1|E1]]; cbn [negb andb].
  - split_and!; try done; [constructor; cbn; lia|]. unfold content. cbn. by rewrite E0.
  - split_and!; try done; [constructor; cbn; lia|]. unfold content. cbn. by rewrite E1.
  - assert (len (write_at (data b) 0 (content b)) = len (data b)) as E by (apply len_write_at; lia).
    split_and!; try done; [constructor; cbn; lia|]. unfold content at 1. cbn.
    rewrite <-Hc at 1. apply read_write_at; lia.
Qed.

(** The room is what is left after the bytes held, or, when they reach the end
    of the array, all of the array they do not take; it is empty only when the
    buffer is full. *)
Lemma available_spec b room b' :
  buffer_wf b -> buffer_available b = (room, b') ->
  buffer_wf b' /\ content b' = content b /\ capacity b' = capacity b /\
  room = capacity b' - offset b' - length_ b' /\ 0 <= room /\
  (room = 0 <-> len (content b) = capacity b).
Proof.
  intros Hwf. pose proof (len_content _ Hwf) as Hc. destruct (compact_spec b Hwf) as (H1 & H2 & H3 & H4 & H5).
  pose proof Hwf as [Ho Hl Hd Hb]. unfold buffer_available.
  destruct (Z.eqb_spec (offset b + length_ b) (capacity b)); [destruct (Z.eqb_spec (offset b) 0)|];
    cbn [andb negb]; intros [<- <-]%pair_equal_spec; split_and!; try done; lia.
Qed.

Lemma buffer_append_spec b bytes_ :
  buffer_wf b ->
  match buffer_append b bytes_ with
  | (true, b') => buffer_wf b' /\ content b' = content b ++ bytes_ /\ capacity b' = capacity b
  | (false, b') => buffer_wf b' /\ content b' = content b /\ capacity b' = capacity b /\ bytes_ <> []
  end.
Proof.
  intros Hwf. unfold buffer_append. destruct (buffer_available b) as [room b'] eqn:Ea.
  destruct (available_spec _ _ _ Hwf Ea) as (H1 & H2 & H3 & H4 & H5 & _).
  destruct (Z.ltb_spec room (len bytes_)).
  - split_and!; try done. intros ->. rewrite len_nil in *. lia.
  - destruct (content_put b' bytes_ H1) as [H6 H7]; [lia|]. rewrite H7, H2. done.
Qed.

Lemma consume_spec b n :
  buffer_wf b -> 0 <= n ->
  buffer_wf (buffer_consume b n) /\ content (buffer_consume b n) = zdrop n (content b) /\
  capacity (buffer_consume b n) = capacity b.
Proof.
  intros Hwf Hn. pose proof (len_content _ Hwf) as Hc. destruct Hwf as [Ho Hl Hd Hb].
  unfold buffer_consume. destruct (Z.leb_spec (length_ b) n).
  - split_and!; [constructor; cbn; lia| |done]. unfold content at 1. cbn.
    unfold zdrop. rewrite (drop_ge (content b)) by (unfold len in Hc; lia). done.
  - split_and!; [constructor; cbn; lia| |done]. unfold content. cbn.
    unfold ztake, zdrop. rewrite skipn_firstn_comm, drop_drop.
    f_equal; [|f_equal]; lia.
Qed.

(** An empty buffer, as it is allocated. *)
Definition new_buffer (mem : bytes) (size : Z) : egress_buffer_t := Buffer mem size 0 0.

Lemma new_buffer_spec mem size :
  len mem = size -> buffer_wf (new_buffer mem size) /\ content (new_buffer mem size) = [].
Proof. intros <-. split; [|done]. constructor; cbn; pose proof (len_nonneg mem); lia. Qed.

(** * Tokens *)

Definition TOKEN_LISTENER : Z := 1.
Definition TOKEN_ADMIN_LISTENER : Z := 4.
Definition TOKEN_ADMIN_FLAG : Z := Z.shiftl 1 63.
Definition TOKEN_SIDE_CLIENT : Z := 2.
Definition TOKEN_SIDE_UPSTREAM : Z := 3.
Definition TOKEN_SLOT_SHIFT : Z := 2.
Definition TOKEN_GENERATION_SHIFT : Z := 16.

Definition connection_token (slot generation side : Z) : Z :=
  Z.lor (Z.lor (u64 (Z.shiftl generation TOKEN_GENERATION_SHIFT))
               (u64 (Z.shiftl slot TOKEN_SLOT_SHIFT))) side.

(** The slot, the generation and the side. *)
Definition decode_token (token : Z) : Z * Z * Z :=
  (Z.land (Z.shiftr token TOKEN_SLOT_SHIFT) 0x3fff, Z.shiftr token TOKEN_GENERATION_SHIFT,
   Z.land token 3).

Definition admin_token (slot generation : Z) : Z :=
  Z.lor (Z.lor (Z.lor TOKEN_ADMIN_FLAG (u64 (Z.shiftl generation TOKEN_GENERATION_SHIFT)))
               (u64 (Z.shiftl slot TOKEN_SLOT_SHIFT))) TOKEN_SIDE_CLIENT.

Lemma lor_add a b n : 0 <= n -> 0 <= b < 2 ^ n -> Z.lor (a * 2 ^ n) b = a * 2 ^ n + b.
Proof. intros. rewrite <-Z.shiftl_mul_pow2 by lia. rewrite lor_disjoint by lia. by rewrite Z.shiftl_mul_pow2. Qed.

Lemma token_value slot generation side :
  0 <= slot < 2 ^ 14 -> 0 <= generation < 2 ^ 47 -> 0 <= side < 4 ->
  connection_token slot generation side = generation * 2 ^ 16 + slot * 2 ^ 2 + side.
Proof.
  intros Hs Hg Hd. unfold connection_token, u64, TOKEN_GENERATION_SHIFT, TOKEN_SLOT_SHIFT.
  rewrite !Z.shiftl_mul_pow2 by lia. rewrite !Z.mod_small by lia.
  rewrite (lor_add generation (slot * 2 ^ 2) 16) by lia.
  replace (generation * 2 ^ 16 + slot * 2 ^ 2) with ((generation * 2 ^ 14 + slot) * 2 ^ 2) by lia.
  rewrite (lor_add _ side 2) by lia. lia.
Qed.

Lemma admin_token_value slot generation :
  0 <= slot < 2 ^ 14 -> 0 <= generation < 2 ^ 47 ->
  admin_token slot generation = 2 ^ 63 + connection_token slot generation TOKEN_SIDE_CLIENT.
Proof.
  intros Hs Hg. rewrite token_value by (try done; unfold TOKEN_SIDE_CLIENT; lia).
  unfold admin_token. rewrite <-(Z.lor_assoc TOKEN_ADMIN_FLAG), <-(Z.lor_assoc TOKEN_ADMIN_FLAG).
  change (Z.lor (Z.lor (u64 (Z.shiftl generation TOKEN_GENERATION_SHIFT))
    (u64 (Z.shiftl slot TOKEN_SLOT_SHIFT))) TOKEN_SIDE_CLIENT)
    with (connection_token slot generation TOKEN_SIDE_CLIENT).
  rewrite token_value by (try done; unfold TOKEN_SIDE_CLIENT; lia).
  change TOKEN_ADMIN_FLAG with (1 * 2 ^ 63). unfold TOKEN_SIDE_CLIENT. rewrite lor_add by lia. lia.
Qed.

Lemma decode_value slot generation side :
  0 <= slot < 2 ^ 14 -> 0 <= generation -> 0 <= side < 4 ->
  decode_token (generation * 2 ^ 16 + slot * 2 ^ 2 + side) = (slot, generation, side).
Proof.
  intros Hs Hg Hd. unfold decode_token, TOKEN_GENERATION_SHIFT, TOKEN_SLOT_SHIFT.
  change 0x3fff with (Z.ones 14). change 3 with (Z.ones 2).
  rewrite !Z.land_ones, !Z.shiftr_div_pow2 by lia. f_equal; [f_equal|]; zlia.
Qed.

Lemma land_flag z : 0 <= z < 2 ^ 64 ->
  Z.land z TOKEN_ADMIN_FLAG = if z <? 2 ^ 63 then 0 else 2 ^ 63.
Proof.
  intros Hz. apply Z.bits_inj'. intros n Hn. rewrite Z.land_spec.
  change TOKEN_ADMIN_FLAG with (2 ^ 63). rewrite Z.pow2_bits_eqb by lia.
  destruct (Z.eqb_spec 63 n) as [<-|Hne]; rewrite ?andb_false_r, ?andb_true_r.
  - destruct (Z.ltb_spec z (2 ^ 63)).
    + rewrite Z.bits_0. destruct (Z.eq_dec z 0) as [->|]; [apply Z.bits_0|].
      apply Z.bits_above_log2; [lia|]. apply Z.log2_lt_pow2; lia.
    + rewrite Z.pow2_bits_eqb by lia. change (63 =? 63) with true.
      replace z with (1 * 2 ^ 63 + (z - 2 ^ 63)) by lia.
      rewrite <-(lor_add 1 (z - 2 ^ 63) 63) by lia. by rewrite Z.lor_spec, Z.mul_1_l, Z.pow2_bits_true by lia.
  - destruct (z <? 2 ^ 63); [by rewrite Z.bits_0|]. by rewrite Z.pow2_bits_eqb, (proj2 (Z.eqb_neq 63 n)) by lia.
Qed.

(** What the reactor passes to [decode_token] for an administrative token. *)
Definition without_flag (token : Z) : Z := Z.land token (UINT64_MAX - TOKEN_ADMIN_FLAG).

Lemma without_flag_value z : 0 <= z < 2 ^ 63 -> without_flag (2 ^ 63 + z) = z.
Proof.
  intros Hz. unfold without_flag. change (UINT64_MAX - TOKEN_ADMIN_FLAG) with (Z.ones 63).
  rewrite Z.land_ones by lia. zlia.
Qed.

(** A token names one slot, generation and side of one kind of connection:
    it decodes to what it was made of, and no token of a connection is the
    token of a listener or, for a proxied connection, carries the flag of the
    administrative ones. *)
Theorem token_roundtrip (slot generation side : Z) :
  0 <= slot < 2 ^ 14 -> 0 <= generation < 2 ^ 47 ->
  side = TOKEN_SIDE_CLIENT \/ side = TOKEN_SIDE_UPSTREAM ->
  let token := connection_token slot generation side in
  let admin := admin_token slot generation in
  decode_token token = (slot, generation, side) /\
  Z.land token TOKEN_ADMIN_FLAG = 0 /\
  token <> TOKEN_LISTENER /\ token <> TOKEN_ADMIN_LISTENER /\
  decode_token (without_flag admin) = (slot, generation, TOKEN_SIDE_CLIENT) /\
  Z.land admin TOKEN_ADMIN_FLAG <> 0 /\
  admin <> TOKEN_LISTENER /\ admin <> TOKEN_ADMIN_LISTENER.
Proof.
  intros Hs Hg Hside token admin.
  assert (Hd : 2 <= side < 4) by (unfold TOKEN_SIDE_CLIENT, TOKEN_SIDE_UPSTREAM in Hside; lia).
  pose proof (token_value slot generation side Hs Hg ltac:(lia)) as Et.
  pose proof (admin_token_value slot generation Hs Hg) as Ea.
  pose proof (token_value slot generation TOKEN_SIDE_CLIENT Hs Hg ltac:(unfold TOKEN_SIDE_CLIENT; lia)) as Ec.
  unfold token, admin. rewrite Ea, Et, Ec, !land_flag, without_flag_value, !decode_value
    by (unfold TOKEN_SIDE_CLIENT; lia).
  unfold TOKEN_LISTENER, TOKEN_ADMIN_LISTENER, TOKEN_SIDE_CLIENT.
  split_and!; try done; try lia; case_match; bool_simp; lia.
Qed.

Lemma token_roundtrip_witness :
  decode_token (connection_token 4095 123456789 TOKEN_SIDE_UPSTREAM) = (4095, 123456789, TOKEN_SIDE_UPSTREAM).
Proof. apply (token_roundtrip 4095 123456789 TOKEN_SIDE_UPSTREAM); [lia|lia|by right]. Defined.

(** * The queue a buffer implements *)

(** The three ways the server uses a buffer: queueing its own bytes, receiving
    into the room that [buffer_available] reports, and dropping what was sent
    or parsed. *)
Inductive buffer_op :=
| Append (b : bytes)
| Receive (b : bytes)
| Consume (n : Z).

Definition apply_op (b : egress_buffer_t) (op : buffer_op) : egress_buffer_t :=
  match op with
  | Append x => (buffer_append b x).2
  | Receive x => let '(room, b) := buffer_available b in buffer_put b (ztake room x)
  | Consume n => buffer_consume b n
  end.

(** A queue of at most [size] bytes. *)
Inductive queue_step (size : Z) : bytes -> buffer_op -> bytes -> Prop :=
| queue_append q x : len (q ++ x) <= size -> queue_step size q (Append x) (q ++ x)
| queue_refuse q x : x <> [] -> queue_step size q (Append x) q
| queue_receive q x room :
    0 <= room <= size - len q -> (room = 0 -> len q = size) ->
    queue_step size q (Receive x) (q ++ ztake room x)
| queue_consume q n : queue_step size q (Consume n) (zdrop n q).

(** The array, offset and length of a buffer implement a bounded queue of
    bytes: every operation keeps the bounds and acts on the bytes held as on a
    queue, moving them inside the array or not; and receiving stops only when
    the buffer is full. *)
Theorem buffer_refines_queue (b : egress_buffer_t) (op : buffer_op) :
  buffer_wf b -> (forall n, op = Consume n -> 0 <= n) ->
  buffer_wf (apply_op b op) /\ capacity (apply_op b op) = capacity b /\
  queue_step (capacity b) (content b) op (content (apply_op b op)).
Proof.
  intros Hwf Hop. destruct op as [x|x|n]; cbn [apply_op].
  - pose proof (buffer_append_spec b x Hwf) as Ha. destruct (buffer_append b x) as [[] b']; cbn [snd].
    + destruct Ha as (H1 & H2 & H3). split_and!; [done..|]. rewrite H2. constructor.
      rewrite <-H2, (len_content _ H1). destruct H1. lia.
    + destruct Ha as (H1 & H2 & H3 & H4). split_and!; [done..|]. rewrite H2. by constructor.
  - destruct (buffer_available b) as [room b'] eqn:Ea.
    destruct (available_spec _ _ _ Hwf Ea) as (H1 & H2 & H3 & H4 & H5 & H6).
    assert (len (ztake room x) <= room).
    { unfold ztake, len. pose proof (length_take x (Z.to_nat room)). lia. }
    destruct (content_put b' (ztake room x) H1) as [H7 H8]; [lia|].
    split_and!; [done..|]. rewrite H8, H2. constructor; [|tauto].
    rewrite <-H2, (len_content _ H1). destruct H1. lia.
  - destruct (consume_spec b n Hwf (Hop n eq_refl)) as (H1 & H2 & H3).
    split_and!; [done..|]. rewrite H2. constructor.
Qed.

Lemma buffer_refines_queue_witness :
  let b := apply_op (apply_op (new_buffer (repeat 0 4) 4) (Append [1; 2; 3; 4])) (Consume 3) in
  queue_step 4 [4] (Receive [5; 6]) (content (apply_op b (Receive [5; 6]))) /\
  content (apply_op b (Receive [5; 6])) = [4; 5; 6].
Proof.
  split; [|reflexivity].
  apply (buffer_refines_queue
    (apply_op (apply_op (new_buffer (repeat 0 4) 4) (Append [1; 2; 3; 4])) (Consume 3)) (Receive [5; 6]));
    [constructor; vm_compute; congruence|done].
Defined.
