(* ===== verification/CliText.v ===== *)
(** The text the commands report (cli/commands.c): a buffer that grows as text is
    formatted into it.

    The formatter is the standard library's; [rendered] is the text a call of it
    stands for, [None] when it fails.  An allocation is the bytes it adds to the
    block.  [text_appends]: an append ends after at most two rounds and leaves
    the text before it with the new text after it, or nothing at all. *)

From S2P Require Import Prelude Buffer.

Module CliText.

Record text_buffer := TextBuffer {
  data : option bytes;
  size : Z;
  capacity : Z;
  failed : bool;
}.

#[export] Instance eta_text_buffer : Eta text_buffer := fun b =>
  TextBuffer (data b) (size b) (capacity b) (failed b).

Definition empty : text_buffer := TextBuffer None 0 0 false.

(** [vsnprintf] into the rest of a block: what fits and the end mark. *)
Definition format_into (block : bytes) (position room : Z) (s : bytes) : bytes :=
  if room =? 0 then block else write_at block position (ztake (room - 1) s ++ [0]).

(** [while (grown < needed) grown *= 2u]; doublings of a [size_t]. *)
Fixpoint grow (fuel : nat) (grown needed : Z) : option Z :=
  if grown <? needed then match fuel with O => None | S fuel => grow fuel (2 * grown mod 2 ^ 64) needed end
  else Some grown.

(** A round of the loop per unit of fuel; [None] when it is out. *)
Fixpoint text_append_loop (fuel : nat) (mem : nat -> Z -> option bytes) (rendered : option bytes) (b : text_buffer)
  : option text_buffer :=
  match fuel with
  | O => None
  | S fuel =>
      match rendered with
      | None => Some (b <| failed := true |>)
      | Some s =>
          let room := capacity b - size b in
          let b := match data b with
                   | Some block => b <| data := Some (format_into block (size b) room s) |>
                   | None => b
                   end in
          if is_some (data b) && (len s <? room) then Some (b <| size := size b + len s |>)
          else
            let needed := size b + len s + 1 in
            match grow 64 (if capacity b =? 0 then 1024 else capacity b) needed with
            | None => None
            | Some grown =>
                match mem fuel (grown - capacity b) with
                | None => Some (b <| failed := true |>)
                | Some tail =>
                    text_append_loop fuel mem rendered
                      (b <| data := Some (default [] (data b) ++ tail) |> <| capacity := grown |>)
                end
            end
      end
  end.

Definition text_append (fuel : nat) (mem : nat -> Z -> option bytes) (rendered : option bytes) (b : text_buffer)
  : option text_buffer :=
  if failed b then Some b else text_append_loop fuel mem rendered b.

(** The text up to its end mark. *)
Fixpoint to_nul (s : bytes) : bytes :=
  match s with
  | [] => []
  | c :: s => if c =? 0 then [] else c :: to_nul s
  end.

Definition text_value (b : text_buffer) : bytes :=
  match data b with Some block => if failed b then [] else to_nul block | None => [] end.

(** * Facts *)

(** A buffer on its way: the text is in place. *)
Record placed (t : bytes) (b : text_buffer) : Prop := {
  pl_size : size b = len t;
  pl_block : match data b with
             | None => t = [] /\ capacity b = 0
             | Some block => len block = capacity b /\ exists rest, block = t ++ rest
             end;
}.

(** A buffer between two appends: its text is [t], and ends with the mark. *)
Record holds_text (t : bytes) (b : text_buffer) : Prop := {
  ht_placed : placed t b;
  ht_failed : failed b = false;
  ht_mark : forall block, data b = Some block -> exists rest, block = t ++ 0 :: rest;
}.

Lemma to_nul_app t rest : Forall (fun c => c <> 0) t -> to_nul (t ++ 0 :: rest) = t.
Proof. induction 1 as [|c t Hc _ IH]; [done|]. simpl. destruct (Z.eqb_spec c 0); [done|]. by rewrite IH. Qed.

Lemma holds_text_value t b : holds_text t b -> Forall (fun c => c <> 0) t -> text_value b = t.
Proof.
  intros [[Hs Hb] Hf Hm] Ht. unfold text_value. rewrite Hf. destruct (data b) as [block|]; [|by destruct Hb].
  destruct (Hm block eq_refl) as [rest ->]. by apply to_nul_app.
Qed.

(** Doubling from the first block reaches any size below half the range. *)
Lemma grow_reaches fuel grown needed :
  0 < grown < 2 ^ 63 -> needed <= grown * 2 ^ Z.of_nat fuel -> needed <= 2 ^ 62 ->
  exists g, grow fuel grown needed = Some g /\ needed <= g /\ grown <= g /\ g < Z.max (2 * needed) (grown + 1).
Proof.
  revert grown. induction fuel as [|fuel IH]; intros grown Hg Hn H62; simpl grow.
  - change (2 ^ Z.of_nat 0) with 1 in Hn. destruct (Z.ltb_spec grown needed); [lia|]. exists grown; split_and!; [done|lia..].
  - destruct (Z.ltb_spec grown needed) as [Hlt|]; [|exists grown; split_and!; [done|lia..]].
    rewrite Z.mod_small by lia. destruct (IH (2 * grown)) as (g & Eg & H1 & H2 & H3); [lia| |done|].
    + rewrite Nat2Z.inj_succ, Z.pow_succ_r in Hn by lia. lia.
    + exists g. split_and!; [done|lia|lia|lia].
Qed.

#[local] Arguments grow : simpl never.

(** The last round: the text fits. *)
Lemma format_fits block t rest s room :
  block = t ++ rest -> len rest = room -> len s < room ->
  exists rest', format_into block (len t) room s = (t ++ s) ++ 0 :: rest' /\ len (format_into block (len t) room s) = len block.
Proof.
  intros -> Hr Hs. pose proof (len_nonneg s). unfold format_into. destruct (Z.eqb_spec room 0); [lia|].
  rewrite (ztake_all (room - 1)) by lia. unfold write_at. rewrite ztake_app_len.
  exists (zdrop (len t + len (s ++ [0])) (t ++ rest)). split; [by rewrite <-(app_assoc t), <-(app_assoc s)|].
  pose proof (len_nonneg t). assert (E : len (s ++ [0]) = len s + 1) by (by rewrite len_app).
  rewrite E, !len_app, len_zdrop; rewrite ?len_app, ?len_cons, ?len_nil; lia.
Qed.

(** A round that does not fit leaves the text in place. *)
Lemma format_places block t rest s room :
  block = t ++ rest -> len rest = room ->
  exists rest', format_into block (len t) room s = t ++ rest' /\ len rest' = room.
Proof.
  intros -> Hr. pose proof (len_nonneg rest). unfold format_into. destruct (Z.eqb_spec room 0) as [->|Hn]; [by exists rest|].
  unfold write_at. rewrite ztake_app_len. eexists. split; [done|].
  assert (Hl : len (ztake (room - 1) s) <= room - 1) by (apply len_ztake_le; lia).
  pose proof (len_nonneg (ztake (room - 1) s)). pose proof (len_nonneg t).
  assert (E : len (ztake (room - 1) s ++ [0]) = len (ztake (room - 1) s) + 1) by (by rewrite len_app).
  rewrite len_app, E, len_zdrop by (rewrite len_app; lia). rewrite len_app. lia.
Qed.

(** A round in which the text fits is the last. *)
Lemma round_fits fuel mem t s b block :
  placed t b -> failed b = false -> data b = Some block -> len s < capacity b - size b ->
  exists b', text_append_loop (S fuel) mem (Some s) b = Some b' /\ holds_text (t ++ s) b' /\ capacity b' = capacity b.
Proof.
  intros [Hsize Hblock] Hf Ed Hfit. rewrite Ed in Hblock. destruct Hblock as [Hlen [rest Eb]]. cbn [text_append_loop].
  rewrite Ed. simpl. rewrite (proj2 (Z.ltb_lt _ _) Hfit). eexists. split; [done|]. split; [|done].
  assert (Hrest : len rest = capacity b - size b) by (rewrite Eb, len_app in Hlen; lia).
  destruct (format_fits block t rest s _ Eb Hrest Hfit) as (rest' & E1 & E2). rewrite Hsize in *.
  split; simpl; [|done|].
  - split; simpl; [by rewrite len_app|]. split; [by rewrite E2|]. rewrite E1. by eexists.
  - intros ? [= <-]. rewrite E1. by eexists.
Qed.

(** A round in which it does not grows the block so that it does. *)
Lemma round_grows fuel mem t s b :
  placed t b -> failed b = false -> 0 <= capacity b < 2 ^ 63 -> len t + len s + 1 <= 2 ^ 62 ->
  (forall i n tail, mem i n = Some tail -> len tail = n) ->
  (data b = None \/ capacity b - size b <= len s) ->
  exists b1, placed t b1 /\
    (text_append_loop (S fuel) mem (Some s) b = Some b1 /\ failed b1 = true \/
     text_append_loop (S fuel) mem (Some s) b = text_append_loop fuel mem (Some s) b1 /\ failed b1 = false /\
     is_Some (data b1) /\ len s < capacity b1 - size b1 /\
     capacity b1 <= Z.max (capacity b) (Z.max 1024 (2 * (len t + len s + 1)))).
Proof.
  intros [Hsize Hblock] Hf Hcap H62 Hmem Hnot. cbn [text_append_loop].
  pose proof (len_nonneg s). pose proof (len_nonneg t).
  set (b0 := match data b with Some block => b <| data := Some (format_into block (size b) (capacity b - size b) s) |> | None => b end).
  assert (Hb : placed t b0 /\ size b0 = size b /\ capacity b0 = capacity b /\ failed b0 = false /\
    is_some (data b0) && (len s <? capacity b - size b) = false).
  { unfold b0. destruct (data b) as [block|] eqn:Ed; [|split_and!; [split; [done|by rewrite Ed]|done|done|done|by rewrite Ed]].
    destruct Hblock as [Hlen [rest ->]]. rewrite len_app in Hlen. rewrite Hsize.
    destruct (format_places (t ++ rest) t rest s (capacity b - len t) eq_refl) as (rest' & E1 & E2); [lia|].
    destruct Hnot as [|Hnot]; [done|]. split_and!; try done; [|simpl; lia].
    split; simpl; [done|]. rewrite E1. rewrite len_app. split; [lia|by eexists]. }
  clearbody b0. destruct Hb as (Hp0 & Es0 & Ec0 & Hf0 & ->). destruct Hp0 as [Hs0 Hb0].
  destruct (grow_reaches 64 (if capacity b0 =? 0 then 1024 else capacity b0) (size b0 + len s + 1)) as (g & -> & G1 & G2 & G3).
  { destruct (Z.eqb_spec (capacity b0) 0); lia. }
  { change (2 ^ Z.of_nat 64) with 18446744073709551616. destruct (Z.eqb_spec (capacity b0) 0); lia. }
  { lia. }
  destruct (mem fuel (g - capacity b0)) as [tail|] eqn:Em.
  - exists (b0 <| data := Some (default [] (data b0) ++ tail) |> <| capacity := g |>). apply Hmem in Em.
    split.
    + split; simpl; [lia|]. rewrite len_app. destruct (data b0) as [block|]; simpl.
      * destruct Hb0 as [Hl [rest ->]]. split; [lia|]. exists (rest ++ tail). by rewrite app_assoc.
      * destruct Hb0 as [-> Hc]. rewrite len_nil. split; [lia|by exists tail].
    + right. simpl. split_and!; [done|done|by eexists|lia|]. destruct (Z.eqb_spec (capacity b0) 0); lia.
  - exists (b0 <| failed := true |>). split; [|by left]. by split.
Qed.

(** An append to a buffer ends after at most two rounds, however large the
    text, and never outgrows its block or twice what it holds.  Either the
    formatter or an allocation failed, and the buffer then stands for nothing and
    stays so; or its text is the text before followed by the new text. *)
Theorem text_appends mem rendered t b :
  holds_text t b -> Forall (fun c => c <> 0) t -> capacity b < 2 ^ 63 ->
  (forall i n tail, mem i n = Some tail -> len tail = n) ->
  (forall s, rendered = Some s -> Forall (fun c => c <> 0) s /\ len t + len s + 1 <= 2 ^ 62) ->
  exists b', text_append 2 mem rendered b = Some b' /\
    (failed b' = true /\ text_value b' = [] \/
     exists s, rendered = Some s /\ holds_text (t ++ s) b' /\ text_value b' = t ++ s /\
       capacity b' <= Z.max (capacity b) (Z.max 1024 (2 * (len t + len s + 1)))).
Proof.
  intros [[Hsize Hblock] Hf Hmark] Ht Hcap Hmem Hr. unfold text_append. rewrite Hf.
  destruct rendered as [s|]; [|eexists; split; [done|left]; split; [done|]; unfold text_value; simpl; by destruct (data b)].
  destruct (Hr s eq_refl) as [Hs H62].
  assert (Hdone : forall b', holds_text (t ++ s) b' -> text_value b' = t ++ s).
  { intros b' Hb'. apply (holds_text_value _ _ Hb'). by apply Forall_app. }
  assert (Hc0 : 0 <= capacity b).
  { destruct (data b) as [block|]; [destruct Hblock as [<- _]; apply len_nonneg|by destruct Hblock as [_ ->]]. }
  assert (Hp : placed t b) by done.
  assert (Hfits : is_Some (data b) /\ len s < capacity b - size b \/ data b = None \/ capacity b - size b <= len s).
  { destruct (data b); [|by right; left]. destruct (Z.lt_ge_cases (len s) (capacity b - size b)); [left|right; right]; eauto. }
  destruct Hfits as [[[block Ed] Hfit]|Hnot].
  - destruct (round_fits 1 mem t s b block Hp Hf Ed Hfit) as (b' & -> & Hb' & Ec). exists b'. split; [done|]. right.
    exists s. split_and!; [done|done|auto|lia].
  - destruct (round_grows 1 mem t s b Hp Hf ltac:(lia) H62 Hmem Hnot) as (b1 & Hp1 & [[-> Hf1]|(-> & Hf1 & [block Ed] & Hfit & Hc)]).
    + exists b1. split; [done|]. left. split; [done|]. unfold text_value. rewrite Hf1. by destruct (data b1).
    + destruct (round_fits 0 mem t s b1 block Hp1 Hf1 Ed Hfit) as (b' & -> & Hb' & Ec). exists b'. split; [done|]. right.
      exists s. split_and!; [done|done|auto|lia].
Qed.

(** Blocks of zeros. *)
Definition example_mem (_ : nat) (n : Z) : option bytes := if n <? 0 then None else Some (repeat 0 (Z.to_nat n)).

Lemma example_mem_len i n tail : example_mem i n = Some tail -> len tail = n.
Proof.
  unfold example_mem. destruct (Z.ltb_spec n 0); [done|]. intros [= <-]. unfold len. rewrite repeat_length. lia.
Qed.

Lemma empty_holds : holds_text [] empty.
Proof. by split. Qed.

Lemma example_rendered : forall s, Some (str "valid") = Some s -> Forall (fun c => c <> 0) s /\ len (@nil Z) + len s + 1 <= 2 ^ 62.
Proof. intros s [= <-]. split; [|done]. by repeat constructor. Qed.

Lemma text_appends_witness :
  exists b', text_append 2 example_mem (Some (str "valid")) empty = Some b' /\
    (failed b' = true /\ text_value b' = [] \/
     exists s, Some (str "valid") = Some s /\ holds_text ([] ++ s) b' /\ text_value b' = [] ++ s /\
       capacity b' <= Z.max (capacity empty) (Z.max 1024 (2 * (len (@nil Z) + len s + 1)))).
Proof.
  exact (text_appends example_mem (Some (str "valid")) [] empty empty_holds (List.Forall_nil _) eq_refl example_mem_len
           example_rendered).
Defined.

End CliText.
