(* ===== verification/Server.v ===== *)
(** The state of the proxy server (src/server/internal.h), what it asks of the
    system, and the operations that account for bytes (src/server/quota.c).

    The server is one owner thread: its functions are programs of a state
    monad over the server, the open commands of the embedder's threads, the
    audit journal and the world.  The world is abstract; the class [Sys] lists
    the calls to libmaelys-sys, to the TLS provider and to the other callbacks
    of the embedder.  A trace records, newest first, what crosses the border of
    the server; no program reads it. *)

From S2P Require Import Prelude Common Codec Sha256 Config Policy Http Socks ClientHello.
From S2P Require Import Receipt Journal Buffer.

(** * Connections *)

Inductive connection_state_t :=
| CONNECTION_UNUSED
| CONNECTION_TLS_HANDSHAKE
| CONNECTION_HANDSHAKE
| CONNECTION_CONNECTING
| CONNECTION_IDENTITY
| CONNECTION_RELAY.

#[export] Instance connection_state_eq_dec : EqDecision connection_state_t.
Proof. solve_decision. Defined.

(** Readiness, as interests of a watch and as flags of an event; the code
    tests a flag against an interest, READ against READ and WRITE against
    WRITE. *)
Record interest := Interest { want_read : bool; want_write : bool }.

Record flags := Flags { ev_read : bool; ev_write : bool; ev_error : bool; ev_hup : bool }.

Definition no_interest : interest := Interest false false.
Definition INTEREST_READ : interest := Interest true false.
Definition INTEREST_WRITE : interest := Interest false true.

Definition interest_or (a b : interest) : interest :=
  Interest (want_read a || want_read b) (want_write a || want_write b).
Definition interest_null (a : interest) : bool := negb (want_read a) && negb (want_write a).
Definition interest_meets (a b : interest) : bool :=
  (want_read a && want_read b) || (want_write a && want_write b).
Definition flags_meet (f : flags) (a : interest) : bool :=
  (ev_read f && want_read a) || (ev_write f && want_write a).

(** Sockets are the native descriptors System gives them, [None] for NULL; a
    watch is a number, 0 for none.  The destination is the snapshot the
    connection points to once it is admitted.  [principal_index] is [None] for
    SIZE_MAX. *)
Record egress_connection_t := Connection {
  state : connection_state_t;
  generation : Z;
  client_socket : option Z;
  upstream_socket : option Z;
  client_fd : Z;
  upstream_fd : Z;
  client_watch : Z;
  upstream_watch : Z;
  client_to_upstream : egress_buffer_t;
  upstream_to_client : egress_buffer_t;
  socks_phase : Z;
  close_after_flush : bool;
  client_eof : bool;
  upstream_eof : bool;
  client_write_shutdown : bool;
  upstream_write_shutdown : bool;
  client_hup : bool;
  upstream_hup : bool;
  destination : option egress_destination_t;
  policy_digest_hex : bytes;
  conn_policy_generation : Z;
  address_index : nat;
  upstream_address : bytes;
  conn_protocol : maelys_egress_protocol_t;
  conn_host : bytes;
  authenticated_invocation_id : bytes;
  conn_invocation_id : bytes;
  conn_principal : bytes;
  principal_index : option nat;
  quota_bytes : Z;
  quota_total_bytes : Z;
  quota_stream_used : Z;
  quota_total_before : Z;
  quota_client_exempt_bytes : Z;
  quota_scope : maelys_egress_quota_scope_t;
  quota_exhausted : bool;
  quota_admitted : bool;
  conn_port : Z;
  started_mono_ms : Z;
  started_unix_ms : Z;
  last_activity_ms : Z;
  handshake_deadline_ms : Z;
  bytes_from_client : Z;
  bytes_to_client : Z;
  conn_result : maelys_egress_result_t;
  tls_sni_verified : bool;
  tls_session : option Z;
  tls_handshake_interest : interest;
  tls_read_interest : interest;
  tls_write_interest : interest;
  tls_shutdown_interest : interest;
  open_command : option nat;
}.

#[export] Instance eta_connection : Eta egress_connection_t := fun c =>
  Connection (state c) (generation c) (client_socket c) (upstream_socket c) (client_fd c)
    (upstream_fd c) (client_watch c) (upstream_watch c) (client_to_upstream c)
    (upstream_to_client c) (socks_phase c) (close_after_flush c) (client_eof c) (upstream_eof c)
    (client_write_shutdown c) (upstream_write_shutdown c) (client_hup c) (upstream_hup c)
    (destination c) (policy_digest_hex c) (conn_policy_generation c) (address_index c)
    (upstream_address c) (conn_protocol c) (conn_host c) (authenticated_invocation_id c)
    (conn_invocation_id c) (conn_principal c) (principal_index c) (quota_bytes c)
    (quota_total_bytes c) (quota_stream_used c) (quota_total_before c)
    (quota_client_exempt_bytes c) (quota_scope c) (quota_exhausted c) (quota_admitted c)
    (conn_port c) (started_mono_ms c) (started_unix_ms c) (last_activity_ms c)
    (handshake_deadline_ms c) (bytes_from_client c) (bytes_to_client c) (conn_result c)
    (tls_sni_verified c) (tls_session c) (tls_handshake_interest c) (tls_read_interest c)
    (tls_write_interest c) (tls_shutdown_interest c) (open_command c).

Definition zero_buffer : egress_buffer_t := Buffer [] 0 0 0.

(** A connection cleared by [memset]. *)
Definition zero_connection : egress_connection_t :=
  Connection CONNECTION_UNUSED 0 None None 0 0 0 0 zero_buffer zero_buffer 0 false false false
    false false false false None [] 0 0 [] MAELYS_EGRESS_PROTOCOL_NONE [] [] [] [] (Some 0%nat)
    0 0 0 0 0 MAELYS_EGRESS_QUOTA_NONE false false 0 0 0 0 0 0 0 MAELYS_EGRESS_OK false None
    no_interest no_interest no_interest no_interest None.

(** A slot that is free, with the generation of its last connection. *)
Definition free_connection (gen : Z) : egress_connection_t :=
  zero_connection <| client_fd := -1 |> <| upstream_fd := -1 |> <| generation := gen |>.

Definition in_use (c : egress_connection_t) : bool :=
  negb (bool_decide (state c = CONNECTION_UNUSED)).

(** * Open commands *)

(** [references] counts the holders; the last release frees the sockets the
    command still has. *)
Record egress_open_command := Command {
  references : Z;
  cancelled : bool;
  server_socket : option Z;
  command_client_fd : Z;
  completed : bool;
  command_result : maelys_egress_result_t;
  command_principal_index : nat;
  command_principal : bytes;
  command_invocation_id : bytes;
  command_host : bytes;
  command_port : Z;
}.

#[export] Instance eta_command : Eta egress_open_command := fun c =>
  Command (references c) (cancelled c) (server_socket c) (command_client_fd c) (completed c)
    (command_result c) (command_principal_index c) (command_principal c)
    (command_invocation_id c) (command_host c) (command_port c).

(** * Administrative connections *)

Definition EGRESS_MAX_ADMIN_CONNECTIONS : nat := 16.
Definition EGRESS_ADMIN_BUFFER : Z := 4096.

(** [request] and [response] are the bytes the arrays hold, their lengths the
    two length fields. *)
Record egress_admin_connection := AdminConnection {
  admin_socket : option Z;
  admin_fd : Z;
  admin_watch_ : Z;
  admin_generation : Z;
  admin_deadline_ms : Z;
  admin_request : bytes;
  admin_response : bytes;
  response_offset : Z;
}.

#[export] Instance eta_admin : Eta egress_admin_connection := fun a =>
  AdminConnection (admin_socket a) (admin_fd a) (admin_watch_ a) (admin_generation a)
    (admin_deadline_ms a) (admin_request a) (admin_response a) (response_offset a).

Definition free_admin (gen : Z) : egress_admin_connection :=
  AdminConnection None (-1) 0 gen 0 [] [] 0.

(** * The server *)

Record server_metrics := ServerMetrics {
  metric_accepted : Z;
  metric_active : Z;
  metric_admitted : Z;
  metric_denied : Z;
  metric_auth_failures : Z;
  metric_quota_denials : Z;
  metric_bytes_from_clients : Z;
  metric_bytes_to_clients : Z;
  metric_receipts : Z;
  metric_reload_failures : Z;
  metric_audit_failures : Z;
}.

#[export] Instance eta_metrics : Eta server_metrics := fun m =>
  ServerMetrics (metric_accepted m) (metric_active m) (metric_admitted m) (metric_denied m)
    (metric_auth_failures m) (metric_quota_denials m) (metric_bytes_from_clients m)
    (metric_bytes_to_clients m) (metric_receipts m) (metric_reload_failures m)
    (metric_audit_failures m).

Definition zero_metrics : server_metrics := ServerMetrics 0 0 0 0 0 0 0 0 0 0 0.

(** The counters of the principals are arrays of EGRESS_MAX_PRINCIPALS
    entries.  [loop] says whether the reactor exists. *)
Record maelys_egress_server := Server {
  server_references : Z;
  server_policy : maelys_egress_policy;
  server_config : maelys_egress_config;
  loop : bool;
  listener_socket : option Z;
  listener_fd : Z;
  listener_watch : Z;
  bound_port : Z;
  admin_listener_socket : option Z;
  admin_listener_fd : Z;
  admin_listener_watch : Z;
  admin_bound_port : Z;
  unix_socket_identity : Z;
  unix_socket_created : bool;
  connections : list egress_connection_t;
  connection_count : Z;
  started : bool;
  running : bool;
  stopping : bool;
  finalized : bool;
  command_queue : list nat;
  next_id : Z;
  policy_generation : Z;
  principal_active : list Z;
  principal_bytes_total : list Z;
  metrics : server_metrics;
  admin_connections : list egress_admin_connection;
  next_admin_generation : Z;
}.

#[export] Instance eta_server : Eta maelys_egress_server := fun s =>
  Server (server_references s) (server_policy s) (server_config s) (loop s) (listener_socket s)
    (listener_fd s) (listener_watch s) (bound_port s) (admin_listener_socket s)
    (admin_listener_fd s) (admin_listener_watch s) (admin_bound_port s)
    (unix_socket_identity s) (unix_socket_created s) (connections s) (connection_count s)
    (started s) (running s) (stopping s) (finalized s) (command_queue s) (next_id s)
    (policy_generation s) (principal_active s) (principal_bytes_total s) (metrics s)
    (admin_connections s) (next_admin_generation s).

Definition principal_in_range (s : maelys_egress_server) (index : option nat) : option nat :=
  match index with
  | Some i => if Z.of_nat i <? principal_count (server_config s) then Some i else None
  | None => None
  end.

(** An entry of an array of counters. *)
Definition counter (l : list Z) (i : nat) : Z := nth i l 0.
#[global] Arguments counter : simpl never.

(** * The system *)

Inductive connect_answer := ConnectFailed | ConnectInProgress | ConnectDone.
Inductive receive_answer := Received (b : bytes) | ReceiveClosed | ReceiveWouldBlock | ReceiveFailed.
Inductive send_answer := Sent (n : Z) | SendWouldBlock | SendFailed.

Inductive maelys_egress_tls_step_t :=
| MAELYS_EGRESS_TLS_COMPLETE
| MAELYS_EGRESS_TLS_WANT_READ
| MAELYS_EGRESS_TLS_WANT_WRITE
| MAELYS_EGRESS_TLS_CLOSED
| MAELYS_EGRESS_TLS_FAILED.

#[export] Instance tls_step_eq_dec : EqDecision maelys_egress_tls_step_t.
Proof. solve_decision. Defined.

(** One step of the reactor: it failed, was stopped, or delivered events. *)
Inductive loop_answer := StepFailed | StepStopped | StepEvents (events : list (Z * flags)).

(** The calls the server makes, each with the state of the world before and
    after.  [sys_pending] is how many connections [accept] hands out before it
    fails; [sys_alloc] is an allocation of which only the success matters. *)
Class Sys := {
  world : Type;
  sys_monotonic_ms : world -> Z * world;
  sys_wall_ms : world -> Z * world;
  sys_malloc : Z -> world -> option bytes * world;
  sys_alloc : world -> bool * world;
  sys_socket_create : Z -> world -> option Z * world;
  sys_socket_connect_start : Z -> egress_address_t -> world -> connect_answer * world;
  sys_socket_connect_complete : option Z -> world -> bool * world;
  sys_socket_receive : Z -> Z -> world -> receive_answer * world;
  sys_socket_send : Z -> bytes -> world -> send_answer * world;
  sys_socket_shutdown : Z -> world -> unit * world;
  sys_socket_release : Z -> world -> unit * world;
  sys_pending : Z -> world -> nat * world;
  sys_socket_accept : Z -> world -> Z * world;
  sys_fd_close : Z -> world -> unit * world;
  sys_peer_euid : Z -> world -> option Z * world;
  sys_geteuid : Z;
  sys_loop_watch_fd : Z -> interest -> Z -> world -> option Z * world;
  sys_loop_modify : Z -> interest -> world -> bool * world;
  sys_loop_unwatch : Z -> world -> unit * world;
  sys_loop_step : Z -> world -> loop_answer * world;
  sys_loop_stop : world -> bool * world;
  sys_loop_wake : world -> bool * world;
  tls_session_create : Z -> Z -> world -> maelys_egress_result_t * option Z * world;
  tls_handshake : Z -> Z -> world -> maelys_egress_tls_step_t * world;
  tls_read : Z -> Z -> Z -> world -> maelys_egress_tls_step_t * bytes * world;
  tls_write : Z -> Z -> bytes -> world -> maelys_egress_tls_step_t * Z * world;
  tls_shutdown : Z -> Z -> world -> maelys_egress_tls_step_t * world;
  tls_session_release : Z -> Z -> world -> unit * world;
  sys_attestor : Z -> maelys_egress_attestor;
  sys_attest : Z -> bytes -> Z -> world -> maelys_egress_result_t * bytes * world;
  sys_append_answers : world -> append_answers * world;
  sys_receipt_sink : maelys_egress_receipt -> world -> unit * world;
}.

(** What the contracts of these calls promise (the header of libmaelys-sys and
    include/maelys/egress_tls.h): a transfer is not longer than asked, a block
    has the size asked for, a watch is not 0, and a descriptor is not
    negative. *)
Class SysLaws `{Sys} := {
  law_monotonic w : is_u64 (sys_monotonic_ms w).1;
  law_wall w : is_u64 (sys_wall_ms w).1;
  law_malloc n w b : (sys_malloc n w).1 = Some b -> len b = n;
  law_create f w h : (sys_socket_create f w).1 = Some h -> 0 <= h;
  law_accept l w : 0 <= (sys_socket_accept l w).1;
  law_receive h n w b :
    (sys_socket_receive h n w).1 = Received b -> len b <= n /\ Forall is_byte b;
  law_send h b w n : (sys_socket_send h b w).1 = Sent n -> 0 <= n <= len b;
  law_tls_read p t n w : 0 <= n -> len (tls_read p t n w).1.2 <= n /\ Forall is_byte (tls_read p t n w).1.2;
  law_tls_write p t b w : 0 <= (tls_write p t b w).1.2 <= len b;
}.

(** * Programs *)

(** What crosses the border of a connection, and the ends of its life; a
    receipt comes with the principal its connection was charged to. *)
Inductive event :=
| Opened (slot : nat)
| FromClient (slot : nat) (b : bytes)
| FromUpstream (slot : nat) (b : bytes)
| ToClient (slot : nat) (b : bytes)
| ToUpstream (slot : nat) (b : bytes)
| Queued (slot : nat) (b : bytes)
| Taken (slot : nat) (n : Z) (forward : bytes)
| ConnectTo (slot : nat) (host : bytes) (port : Z) (address : egress_address_t)
| Emitted (slot : nat) (payer : option nat) (receipt : maelys_egress_receipt)
| Closed (slot : nat).

Section Programs.
Context `{Sys}.

Record machine := Machine {
  server : maelys_egress_server;
  commands : list egress_open_command;
  audit_log : maelys_egress_audit;
  audit_file : bytes;
  the_world : world;
  trace : list event;
}.

#[export] Instance eta_machine : Eta machine := fun m =>
  Machine (server m) (commands m) (audit_log m) (audit_file m) (the_world m) (trace m).

Definition M (A : Type) : Type := machine -> A * machine.

#[export] Instance M_ret : MRet M := fun A a m => (a, m).
#[export] Instance M_bind : MBind M := fun A B f x m => let '(a, m') := x m in f a m'.

Definition call {A} (f : world -> A * world) : M A := fun m =>
  let '(a, w) := f (the_world m) in (a, m <| the_world := w |>).

Definition note (e : event) : M unit := fun m => (tt, m <| trace := e :: trace m |>).

Definition get_server : M maelys_egress_server := fun m => (server m, m).
Definition set_server (f : maelys_egress_server -> maelys_egress_server) : M unit := fun m =>
  (tt, m <| server := f (server m) |>).

Definition get_config : M maelys_egress_config := fun m => (server_config (server m), m).

(** [&server->connections[slot]]. *)
Definition get_conn (slot : nat) : M egress_connection_t := fun m =>
  (nth slot (connections (server m)) zero_connection, m).
Definition set_conn (slot : nat) (f : egress_connection_t -> egress_connection_t) : M unit := fun m =>
  (tt, m <| server := server m <| connections := alter f slot (connections (server m)) |> |>).

Definition zero_command : egress_open_command :=
  Command 0 false None (-1) false MAELYS_EGRESS_OK 0 [] [] [] 0.

Definition get_command (id : nat) : M egress_open_command := fun m =>
  (nth id (commands m) zero_command, m).
Definition set_command (id : nat) (f : egress_open_command -> egress_open_command) : M unit := fun m =>
  (tt, m <| commands := alter f id (commands m) |>).

Definition with_audit (f : maelys_egress_audit -> bytes -> bool * maelys_egress_audit * bytes)
  : M bool := fun m =>
  let '(ok, log, file) := f (audit_log m) (audit_file m) in
  (ok, m <| audit_log := log |> <| audit_file := file |>).

Definition when (b : bool) (p : M unit) : M unit := if b then p else mret tt.

(** [atomic_fetch_add] on a metric. *)
Definition count_metric (f : server_metrics -> server_metrics) : M unit :=
  set_server (fun s => s <| metrics := f (metrics s) |>).

Definition monotonic_now : M Z := call sys_monotonic_ms.
Definition wall_now : M Z := call sys_wall_ms.

(** [maelys_sys_socket_native_fd]; -1 for NULL. *)
Definition native_fd (socket : option Z) : Z := match socket with Some h => h | None => -1 end.

(** [maelys_sys_socket_release]; nothing for NULL. *)
Definition socket_release (socket : option Z) : M unit :=
  match socket with Some h => call (sys_socket_release h) | None => mret tt end.

End Programs.
