(* ===== verification/Connection.v ===== *)
(** The life of a connection up to the relay (src/server/connection.c), with
    the byte quotas (src/server/quota.c), the receipt of a closed connection
    (src/server/receipt.c) and the completion of open commands
    (src/server/connector.c) it calls.

    Every function is the program of the C function of the same name; a result
    of [int] type is a boolean. *)

From S2P Require Import Prelude Common Codec Sha256 Config Policy Http Socks ClientHello.
From S2P Require Import Receipt Journal Buffer Server.

Section Connection.
Context `{Inet} `{Sys}.

(** * Quotas *)

Definition quota_remaining (maximum used : Z) : Z :=
  if maximum =? 0 then UINT64_MAX else if maximum <=? used then 0 else maximum - used.

(** The allowance and the scope that limits it. *)
Definition egress_quota_allowance (s : maelys_egress_server) (c : egress_connection_t)
  : Z * maelys_egress_quota_scope_t :=
  match quota_admitted c, principal_in_range s (principal_index c) with
  | true, Some p =>
      let stream := quota_remaining (quota_bytes c) (quota_stream_used c) in
      let total := quota_remaining (quota_total_bytes c) (counter (principal_bytes_total s) p) in
      if negb (quota_total_bytes c =? 0) && (total <=? stream)
      then (total, MAELYS_EGRESS_QUOTA_EXECUTION_BYTES)
      else if negb (quota_bytes c =? 0) then (stream, MAELYS_EGRESS_QUOTA_CONNECTION_BYTES)
      else (UINT64_MAX, MAELYS_EGRESS_QUOTA_NONE)
  | _, _ => (UINT64_MAX, MAELYS_EGRESS_QUOTA_NONE)
  end.

Definition quota_allowance (slot : nat) : M (Z * maelys_egress_quota_scope_t) :=
  s ← get_server;
  c ← get_conn slot;
  mret (egress_quota_allowance s c).

Definition egress_quota_charge (slot : nat) (amount : Z) : M unit :=
  s ← get_server;
  c ← get_conn slot;
  if (amount =? 0) || negb (quota_admitted c) then mret tt
  else match principal_in_range s (principal_index c) with
       | None => mret tt
       | Some p =>
           set_conn slot (fun c => c <| quota_stream_used := add_saturating (quota_stream_used c) amount |>);;
           set_server (fun s => s <| principal_bytes_total :=
             alter (fun used => add_saturating used amount) p (principal_bytes_total s) |>)
       end.

(** The principal whose total a connection is charged to. *)
Definition charged_to (s : maelys_egress_server) (c : egress_connection_t) : option nat :=
  if quota_admitted c then principal_in_range s (principal_index c) else None.

Definition egress_quota_deny (slot : nat) (scope : maelys_egress_quota_scope_t) : M unit :=
  c ← get_conn slot;
  when (bool_decide (quota_scope c = MAELYS_EGRESS_QUOTA_NONE))
    (set_conn slot (fun c => c <| quota_scope := scope |>);;
     count_metric (fun m => m <| metric_quota_denials := u64 (metric_quota_denials m + 1) |>));;
  set_conn slot (fun c => c <| conn_result := MAELYS_EGRESS_ERR_DENIED |>).

(** * Receipts *)

Definition bytes_to_hex (b : bytes) : bytes :=
  concat (map (fun x => [hex_digit (Z.shiftr x 4); hex_digit (Z.land x 0x0f)]) b).

(** The receipt of a connection, before it is attested. *)
Definition connection_receipt (s : maelys_egress_server) (c : egress_connection_t) (now : Z)
  : maelys_egress_receipt :=
  Receipt (generation c) (conn_protocol c) (snprintf_s (EGRESS_MAX_HOST + 1) (conn_host c))
    (conn_port c) (conn_result c) (started_unix_ms c)
    (if started_mono_ms c <=? now then now - started_mono_ms c else 0)
    (bytes_from_client c) (bytes_to_client c) (quota_scope c) (quota_bytes c)
    (quota_total_bytes c) (quota_stream_used c) (quota_total_before c)
    (match principal_in_range s (principal_index c) with
     | Some p => counter (principal_bytes_total s) p
     | None => 0
     end)
    (snprintf_s 65 (policy_digest_hex c))
    (snprintf_s (EGRESS_MAX_INVOCATION_ID + 1) (conn_invocation_id c))
    (tls_sni_verified c) (snprintf_s (EGRESS_MAX_USERNAME + 1) (conn_principal c))
    (conn_policy_generation c) [] [] []
    (snprintf_s EGRESS_MAX_ADDRESS_TEXT (upstream_address c)).

Definition count_audit_failure : M unit :=
  count_metric (fun m => m <| metric_audit_failures := u64 (metric_audit_failures m + 1) |>).

(** The signature, when it is one: from a successful callback, not empty and
    within the bound. *)
Definition attest_receipt (a : maelys_egress_attestor) (receipt : maelys_egress_receipt)
  : M (option bytes) :=
  match egress_receipt_canonical receipt 2048 with
  | None => mret None
  | Some canonical =>
      answer ← call (sys_attest (attest a) canonical (max_signature_bytes a));
      let '(result, signature) := answer in
      mret (if bool_decide (result = MAELYS_EGRESS_OK) && (0 <? len signature) &&
               (len signature <=? max_signature_bytes a)
            then Some signature else None)
  end.

(** The call of [egress_audit_append]; its result. *)
Definition append_to_audit (receipt : maelys_egress_receipt) : M bool :=
  env ← call sys_append_answers;
  with_audit (fun log file => egress_audit_append env log file receipt).

Definition egress_receipt_emit (slot : nat) : M unit :=
  now ← monotonic_now;
  s ← get_server;
  c ← get_conn slot;
  let receipt := connection_receipt s c now in
  attested ←
    match attestor (server_config s) with
    | None => mret (receipt, true)
    | Some handle =>
        let a := sys_attestor handle in
        signature ← attest_receipt a receipt;
        match signature with
        | Some signature =>
            mret (receipt <| r_attestor := snprintf_s 64 (attestor_name a) |>
                          <| r_attestation_key_id := snprintf_s 128 (attestor_key_id a) |>
                          <| r_attestation_hex := bytes_to_hex signature |>, true)
        | None => count_audit_failure;; mret (receipt, false)
        end
    end;
  let '(receipt, attestation_ok) := attested in
  when (receipt_sink (server_config s)) (call (sys_receipt_sink receipt));;
  note (Emitted slot (charged_to s c) receipt);;
  count_metric (fun m => m <| metric_receipts := u64 (metric_receipts m + 1) |>);;
  if is_some (audit (server_config s)) && attestation_ok then
    ok ← append_to_audit receipt;
    when (negb ok) count_audit_failure
  else mret tt.

(** * Open commands *)

Definition open_command_release (id : nat) : M unit :=
  command ← get_command id;
  set_command id (fun c => c <| references := references c - 1 |>);;
  when (references command =? 1)
    (socket_release (server_socket command);;
     when (0 <=? command_client_fd command) (call (sys_fd_close (command_client_fd command)));;
     set_command id (fun c => c <| server_socket := None |> <| command_client_fd := -1 |>)).

Definition egress_open_command_complete (id : nat) (result : maelys_egress_result_t) : M unit :=
  command ← get_command id;
  when (negb (completed command))
    (set_command id (fun c =>
       c <| command_result :=
              (if cancelled c && bool_decide (result = MAELYS_EGRESS_OK)
               then MAELYS_EGRESS_ERR_CANCELLED else result) |>
         <| completed := true |>));;
  open_command_release id.

(** * Closing *)

(** [egress_socket_release] on each end. *)
Definition release_client (slot : nat) : M unit :=
  c ← get_conn slot;
  socket_release (client_socket c);;
  set_conn slot (fun c => c <| client_socket := None |> <| client_fd := -1 |>).

Definition release_upstream (slot : nat) : M unit :=
  c ← get_conn slot;
  socket_release (upstream_socket c);;
  set_conn slot (fun c => c <| upstream_socket := None |> <| upstream_fd := -1 |>).

Definition egress_connection_close (slot : nat) : M unit :=
  c ← get_conn slot;
  if negb (in_use c) then mret tt
  else
    match open_command c with
    | Some id =>
        set_conn slot (fun c => c <| open_command := None |>);;
        egress_open_command_complete id
          (if bool_decide (conn_result c = MAELYS_EGRESS_OK) then MAELYS_EGRESS_ERR_IO
           else conn_result c)
    | None => mret tt
    end;;
    when (negb (client_watch c =? 0)) (call (sys_loop_unwatch (client_watch c)));;
    when (negb (upstream_watch c =? 0)) (call (sys_loop_unwatch (upstream_watch c)));;
    config ← get_config;
    match tls_session c, tls_provider config with
    | Some session, Some provider =>
        call (tls_session_release provider session);;
        set_conn slot (fun c => c <| tls_session := None |>)
    | _, _ => mret tt
    end;;
    release_client slot;;
    release_upstream slot;;
    s ← get_server;
    match quota_admitted c, principal_in_range s (principal_index c) with
    | true, Some p =>
        set_server (fun s => s <| principal_active :=
          alter (fun n => if n =? 0 then n else n - 1) p (principal_active s) |>)
    | _, _ => mret tt
    end;;
    count_metric (fun m => m
      <| metric_bytes_from_clients := u64 (metric_bytes_from_clients m + bytes_from_client c) |>
      <| metric_bytes_to_clients := u64 (metric_bytes_to_clients m + bytes_to_client c) |>);;
    when (bool_decide (conn_result c = MAELYS_EGRESS_ERR_DENIED))
      (count_metric (fun m => m <| metric_denied := u64 (metric_denied m + 1) |>));;
    egress_receipt_emit slot;;
    set_conn slot (fun c => free_connection (generation c));;
    set_server (fun s => if connection_count s =? 0 then s
                         else s <| connection_count := connection_count s - 1 |>);;
    count_metric (fun m => m <| metric_active := u64 (metric_active m - 1) |>);;
    note (Closed slot).

(** * Failing *)

Definition queue_to_client (slot : nat) (b : bytes) : M bool :=
  c ← get_conn slot;
  let '(ok, buffer) := buffer_append (upstream_to_client c) b in
  set_conn slot (fun c => c <| upstream_to_client := buffer |>);;
  if negb ok then mret false
  else
    note (Queued slot b);;
    set_conn slot (fun c => c <| quota_client_exempt_bytes :=
                                  add_saturating (quota_client_exempt_bytes c) (len b) |>);;
    mret true.

Definition crlf_text (lines : list string) : bytes := concat (map (fun l => str l ++ crlf) lines).

Definition response_407 : bytes :=
  str "HTTP/1.1 407 Proxy Authentication Required" ++ crlf ++
  str "Proxy-Authenticate: Basic realm=" ++ [c_dquote] ++ str "maelys-egress" ++ [c_dquote] ++ crlf ++
  crlf_text ["Connection: close"; "Content-Length: 0"]%string ++ crlf.
Definition response_403 : bytes :=
  crlf_text ["HTTP/1.1 403 Forbidden"; "Connection: close"; "Content-Length: 0"]%string ++ crlf.
Definition response_400 : bytes :=
  crlf_text ["HTTP/1.1 400 Bad Request"; "Connection: close"; "Content-Length: 0"]%string ++ crlf.
Definition response_502 : bytes :=
  crlf_text ["HTTP/1.1 502 Bad Gateway"; "Connection: close"; "Content-Length: 0"]%string ++ crlf.

Definition failure_response (result : maelys_egress_result_t) (authentication_failure : bool) : bytes :=
  if authentication_failure then response_407
  else match result with
       | MAELYS_EGRESS_ERR_DENIED => response_403
       | MAELYS_EGRESS_ERR_PROTOCOL => response_400
       | _ => response_502
       end.

Definition socks_failure (result : maelys_egress_result_t) : bytes :=
  [5; if bool_decide (result = MAELYS_EGRESS_ERR_DENIED) then 2 else 1; 0; 1; 0; 0; 0; 0; 0; 0].

Definition egress_connection_fail (slot : nat) (result : maelys_egress_result_t)
    (authentication_failure : bool) : M unit :=
  when authentication_failure
    (count_metric (fun m => m <| metric_auth_failures := u64 (metric_auth_failures m + 1) |>));;
  set_conn slot (fun c =>
    (if bool_decide (conn_result c = MAELYS_EGRESS_OK) then c <| conn_result := result |> else c)
      <| close_after_flush := true |>);;
  c ← get_conn slot;
  when (negb (upstream_watch c =? 0))
    (call (sys_loop_unwatch (upstream_watch c));;
     set_conn slot (fun c => c <| upstream_watch := 0 |>));;
  release_upstream slot;;
  match conn_protocol c with
  | MAELYS_EGRESS_PROTOCOL_CONNECTOR => egress_connection_close slot
  | MAELYS_EGRESS_PROTOCOL_SOCKS5 => queue_to_client slot (socks_failure result);; mret tt
  | _ => queue_to_client slot (failure_response result authentication_failure);; mret tt
  end.

(** * Watches *)

Definition watch_or_modify (fd : Z) (interests : interest) (token watch : Z) : M (bool * Z) :=
  if negb (watch =? 0) then
    ok ← call (sys_loop_modify watch interests);
    mret (ok, watch)
  else
    answer ← call (sys_loop_watch_fd fd interests token);
    mret (match answer with Some watch => (true, watch) | None => (false, watch) end).

(** [buffer_available] on each buffer of a connection. *)
Definition client_room (slot : nat) : M Z :=
  c ← get_conn slot;
  let '(room, buffer) := buffer_available (client_to_upstream c) in
  set_conn slot (fun c => c <| client_to_upstream := buffer |>);;
  mret room.

Definition upstream_room (slot : nat) : M Z :=
  c ← get_conn slot;
  let '(room, buffer) := buffer_available (upstream_to_client c) in
  set_conn slot (fun c => c <| upstream_to_client := buffer |>);;
  mret room.

(** [connection->tls_session && interest ? interest : other]. *)
Definition tls_or (c : egress_connection_t) (i other : interest) : interest :=
  if is_some (tls_session c) && negb (interest_null i) then i else other.

Definition client_interests (slot : nat) : M interest :=
  c ← get_conn slot;
  if bool_decide (state c = CONNECTION_TLS_HANDSHAKE) then mret (tls_handshake_interest c)
  else
    room ← (if negb (close_after_flush c) && negb (quota_exhausted c) && negb (client_eof c)
            then client_room slot else mret 0);
    mret (interest_or
      (interest_or
        (if 0 <? room then tls_or c (tls_read_interest c) INTEREST_READ else no_interest)
        (if negb (length_ (upstream_to_client c) =? 0)
         then tls_or c (tls_write_interest c) INTEREST_WRITE else no_interest))
      (tls_shutdown_interest c)).

Definition upstream_interests (slot : nat) : M interest :=
  c ← get_conn slot;
  match state c with
  | CONNECTION_CONNECTING => mret INTEREST_WRITE
  | CONNECTION_RELAY =>
      room ← (if negb (quota_exhausted c) && negb (upstream_eof c) then upstream_room slot
              else mret 0);
      mret (interest_or
        (if 0 <? room then INTEREST_READ else no_interest)
        (if negb (length_ (client_to_upstream c) =? 0) then INTEREST_WRITE else no_interest))
  | _ => mret no_interest
  end.

Definition update_client_watch (slot : nat) (interests : interest) : M bool :=
  c ← get_conn slot;
  if interest_null interests then
    when (negb (client_watch c =? 0))
      (call (sys_loop_unwatch (client_watch c));;
       set_conn slot (fun c => c <| client_watch := 0 |>));;
    mret true
  else
    answer ← watch_or_modify (client_fd c) interests
      (connection_token (Z.of_nat slot) (generation c) TOKEN_SIDE_CLIENT) (client_watch c);
    set_conn slot (fun c => c <| client_watch := answer.2 |>);;
    mret answer.1.

Definition update_upstream_watch (slot : nat) (interests : interest) : M bool :=
  c ← get_conn slot;
  if interest_null interests then
    when (negb (upstream_watch c =? 0))
      (call (sys_loop_unwatch (upstream_watch c));;
       set_conn slot (fun c => c <| upstream_watch := 0 |>));;
    mret true
  else
    answer ← watch_or_modify (upstream_fd c) interests
      (connection_token (Z.of_nat slot) (generation c) TOKEN_SIDE_UPSTREAM) (upstream_watch c);
    set_conn slot (fun c => c <| upstream_watch := answer.2 |>);;
    mret answer.1.

Definition egress_connection_update_watches (slot : nat) : M bool :=
  c ← get_conn slot;
  if negb (in_use c) then mret true
  else
    interests ← client_interests slot;
    let client_read := tls_or c (tls_read_interest c) INTEREST_READ in
    ok ← update_client_watch slot
      (if client_hup c && negb (client_eof c) && negb (interest_meets interests client_read)
       then no_interest else interests);
    if negb ok then mret false
    else if upstream_fd c <? 0 then mret true
    else
      interests ← upstream_interests slot;
      update_upstream_watch slot
        (if upstream_hup c && negb (upstream_eof c) && negb (want_read interests)
         then no_interest else interests).

(** * The tunnel guard *)

Definition egress_connection_enforce_tunnel_identity (slot : nat) : M bool :=
  c ← get_conn slot;
  if negb (bool_decide (state c = CONNECTION_IDENTITY)) || (length_ (client_to_upstream c) =? 0)
  then mret true
  else match egress_tls_client_hello_matches (content (client_to_upstream c)) (conn_host c) with
       | HelloIncomplete => mret true
       | HelloRejected =>
           egress_connection_fail slot MAELYS_EGRESS_ERR_DENIED false;;
           egress_connection_update_watches slot
       | HelloMatch =>
           now ← monotonic_now;
           set_conn slot (fun c => c <| tls_sni_verified := true |>
             <| state := CONNECTION_RELAY |> <| last_activity_ms := now |>);;
           egress_connection_update_watches slot
       end.

(** * Connecting *)

(** [capacity] is the size of the output array; empty when [inet_ntop] fails
    or the family is neither. *)
Definition address_text (address : egress_address_t) (capacity : Z) : bytes :=
  match numeric_address address with
  | Some text => if len text <? capacity then text else []
  | None => []
  end.

Definition response_200 : bytes :=
  crlf_text ["HTTP/1.1 200 Connection Established"; "Proxy-Agent: maelys-egress"]%string ++ crlf.

Definition socks_success : bytes := [5; 0; 0; 1; 0; 0; 0; 0; 0; 0].

Definition is_tunnel (p : maelys_egress_protocol_t) : bool :=
  match p with
  | MAELYS_EGRESS_PROTOCOL_HTTP_CONNECT | MAELYS_EGRESS_PROTOCOL_SOCKS5
  | MAELYS_EGRESS_PROTOCOL_CONNECTOR => true
  | _ => false
  end.

(** The reply to the client; a proxied connection whose reply does not fit is
    closed. *)
Definition connected_reply (slot : nat) : M bool :=
  c ← get_conn slot;
  match conn_protocol c with
  | MAELYS_EGRESS_PROTOCOL_HTTP_CONNECT => queue_to_client slot response_200
  | MAELYS_EGRESS_PROTOCOL_SOCKS5 => queue_to_client slot socks_success
  | _ => mret true
  end.

Definition complete_open (slot : nat) : M unit :=
  c ← get_conn slot;
  match (if in_use c then open_command c else None) with
  | None => mret tt
  | Some id =>
      command ← get_command id;
      if cancelled command then
        set_conn slot (fun c => c <| conn_result := MAELYS_EGRESS_ERR_CANCELLED |>);;
        egress_connection_close slot
      else
        set_conn slot (fun c => c <| open_command := None |>);;
        egress_open_command_complete id MAELYS_EGRESS_OK
  end.

Definition egress_connection_connected (slot : nat) : M unit :=
  now ← monotonic_now;
  set_conn slot (fun c =>
    let d := default (Destination [] 0 false false []) (destination c) in
    let c := match address_index c with
             | S i => match addresses d !! i with
                      | Some address =>
                          c <| upstream_address := address_text address EGRESS_MAX_ADDRESS_TEXT |>
                      | None => c
                      end
             | O => c
             end in
    c <| state := if is_tunnel (conn_protocol c) && require_tls_sni d
                  then CONNECTION_IDENTITY else CONNECTION_RELAY |>
      <| last_activity_ms := now |>);;
  replied ← connected_reply slot;
  if negb replied then
    set_conn slot (fun c => c <| conn_result := MAELYS_EGRESS_ERR_MEMORY |>);;
    egress_connection_close slot
  else
    enforced ← egress_connection_enforce_tunnel_identity slot;
    c ← get_conn slot;
    watched ← (if enforced && in_use c then egress_connection_update_watches slot else mret enforced);
    if negb watched then egress_connection_close slot
    else complete_open slot.

(** The loop over the pinned addresses that are left. *)
Fixpoint connect_loop (slot : nat) (rest : list egress_address_t) : M bool :=
  match rest with
  | [] =>
      egress_connection_fail slot MAELYS_EGRESS_ERR_IO false;;
      egress_connection_update_watches slot
  | address :: rest =>
      set_conn slot (fun c => c <| address_index := S (address_index c) |>);;
      created ← call (sys_socket_create (sa_family (storage address)));
      match created with
      | None => connect_loop slot rest
      | Some upstream =>
          set_conn slot (fun c => c <| upstream_socket := Some upstream |>
                                    <| upstream_fd := native_fd (Some upstream) |>);;
          c ← get_conn slot;
          note (ConnectTo slot (conn_host c) (conn_port c) address);;
          started ← call (sys_socket_connect_start upstream address);
          match started with
          | ConnectDone => egress_connection_connected slot;; mret true
          | ConnectInProgress =>
              set_conn slot (fun c => c <| state := CONNECTION_CONNECTING |>);;
              egress_connection_update_watches slot
          | ConnectFailed => release_upstream slot;; connect_loop slot rest
          end
      end
  end.

Definition egress_connection_connect_next (slot : nat) : M bool :=
  c ← get_conn slot;
  connect_loop slot
    (drop (address_index c) (addresses (default (Destination [] 0 false false []) (destination c)))).

(** * Admission *)

Definition fail_denied (slot : nat) : M bool :=
  egress_connection_fail slot MAELYS_EGRESS_ERR_DENIED false;;
  egress_connection_update_watches slot.

(** What the request says, and the quota of its principal. *)
Definition record_request (s : maelys_egress_server) (request : egress_proxy_request_t)
    (c : egress_connection_t) : egress_connection_t :=
  let c := c <| conn_protocol := protocol request |>
             <| conn_port := request_port request |>
             <| conn_host := snprintf_s (EGRESS_MAX_HOST + 1) (request_host request) |>
             <| conn_invocation_id :=
                  snprintf_s (EGRESS_MAX_INVOCATION_ID + 1) (request_identity request).1 |>
             <| principal_index := (request_identity request).2 |> in
  match principal_in_range s (request_identity request).2 with
  | None => c
  | Some p =>
      let principal := nth p (principals (server_config s)) zero_principal in
      c <| conn_principal := snprintf_s (EGRESS_MAX_USERNAME + 1) (username principal) |>
        <| quota_bytes := max_bytes_per_connection principal |>
        <| quota_total_bytes := max_bytes_total principal |>
        <| quota_total_before := counter (principal_bytes_total s) p |>
  end.

Definition too_many_active (s : maelys_egress_server) (index : option nat) : bool :=
  match principal_in_range s index with
  | None => false
  | Some p =>
      let principal := nth p (principals (server_config s)) zero_principal in
      negb (max_active_connections principal =? 0) &&
      (max_active_connections principal <=? counter (principal_active s) p)
  end.

(** The bytes to relay: what is to be forwarded, then what came after the
    request.  [None] is the return 0 of the two guards. *)
Definition rewrite_input (input : egress_buffer_t) (request : egress_proxy_request_t)
  : option egress_buffer_t :=
  if length_ input <? consumed request then None
  else
    let extra := zdrop (consumed request) (content input) in
    if capacity input <? len (forward_bytes request) + len extra then None
    else
      let moved := if len extra =? 0 then data input
                   else write_at (data input) (len (forward_bytes request)) extra in
      let copied := if len (forward_bytes request) =? 0 then moved
                    else write_at moved 0 (forward_bytes request) in
      Some (input <| data := copied |> <| offset := 0 |>
                  <| length_ := len (forward_bytes request) + len extra |>).

Definition admit_request (slot : nat) (index : option nat) : M unit :=
  s ← get_server;
  match principal_in_range s index with
  | None => mret tt
  | Some p =>
      set_server (fun s => s <| principal_active := alter (fun n => n + 1) p (principal_active s) |>);;
      set_conn slot (fun c => c <| quota_admitted := true |>)
  end;;
  count_metric (fun m => m <| metric_admitted := u64 (metric_admitted m + 1) |>).

Definition egress_connection_begin_request (slot : nat) (request : egress_proxy_request_t) : M bool :=
  s ← get_server;
  set_conn slot (record_request s request);;
  if too_many_active s (request_identity request).2 then
    set_conn slot (fun c => c <| quota_scope := MAELYS_EGRESS_QUOTA_ACTIVE_CONNECTIONS |>);;
    count_metric (fun m => m <| metric_quota_denials := u64 (metric_quota_denials m + 1) |>);;
    fail_denied slot
  else
    match egress_policy_find (Some (server_policy s)) (request_host request) (request_port request) with
    | None => fail_denied slot
    | Some selected =>
        set_conn slot (fun c => c
          <| destination := Some (selected <| dest_host := conn_host c |>) |>
          <| policy_digest_hex := snprintf_s 65 (digest_hex (server_policy s)) |>
          <| conn_policy_generation := policy_generation s |>);;
        if require_tls_sni selected &&
           bool_decide (protocol request = MAELYS_EGRESS_PROTOCOL_HTTP_FORWARD)
        then fail_denied slot
        else
          admit_request slot (request_identity request).2;;
          c ← get_conn slot;
          match rewrite_input (client_to_upstream c) request with
          | None => mret false
          | Some input =>
              set_conn slot (fun c => c <| client_to_upstream := input |>);;
              note (Taken slot (consumed request) (forward_bytes request));;
              answer ← quota_allowance slot;
              let '(allowance, scope) := answer in
              c ← get_conn slot;
              if (allowance <? length_ input) ||
                 ((allowance =? 0) &&
                  (negb (quota_bytes c =? 0) || negb (quota_total_bytes c =? 0)))
              then egress_quota_deny slot scope;; fail_denied slot
              else
                egress_quota_charge slot (length_ input);;
                egress_connection_connect_next slot
          end
    end.

(** * Handshakes *)

(** [buffer_consume] of a frame. *)
Definition consume_frame (slot : nat) (n : Z) : M unit :=
  when (negb (n =? 0))
    (set_conn slot (fun c => c <| client_to_upstream := buffer_consume (client_to_upstream c) n |>);;
     note (Taken slot n [])).

Definition refuse_frame (slot : nat) (result : maelys_egress_result_t) : M bool :=
  set_conn slot (fun c => c <| conn_result := result |> <| close_after_flush := true |>);;
  mret true.

(** What follows the reply to a frame; [again] is the next round. *)
Definition conclude_frame (slot : nat) (again : M bool) (parsed : frame_result) (s : socks_state) : M bool :=
  match parsed with
  | FrameRequest request => egress_connection_begin_request slot request
  | FrameProtocol => consume_frame slot (out_consumed s);; refuse_frame slot MAELYS_EGRESS_ERR_PROTOCOL
  | FrameAuthentication => consume_frame slot (out_consumed s);; refuse_frame slot MAELYS_EGRESS_ERR_DENIED
  | _ => consume_frame slot (out_consumed s);; again
  end.

(** One frame of the loop. *)
Definition parse_socks_round (slot : nat) (again : M bool) : M bool :=
  config ← get_config;
  c ← get_conn slot;
  let '(parsed, s) :=
    egress_parse_socks_frame (content (client_to_upstream c)) config
      (Socks (socks_phase c) 0 [] (authenticated_invocation_id c, principal_index c)) in
  set_conn slot (fun c => c <| socks_phase := phase s |>
    <| authenticated_invocation_id := (authenticated_identity s).1 |>
    <| principal_index := (authenticated_identity s).2 |>);;
  match parsed with
  | FrameIncomplete => mret true
  | _ =>
      queued ← (if len (out_response s) =? 0 then mret true
                else queue_to_client slot (out_response s));
      if negb queued then mret false
      else conclude_frame slot again parsed s
  end.

(** The loop over SOCKS frames: every frame that is consumed advances the
    phase, so three rounds are enough ([socks_rounds] of Lifecycle.v). *)
Fixpoint parse_socks_loop (rounds : nat) (slot : nat) : M bool :=
  match rounds with
  | O => mret true
  | S rounds => parse_socks_round slot (parse_socks_loop rounds slot)
  end.

Definition parse_socks (slot : nat) : M bool := parse_socks_loop 4 slot.

Definition egress_connection_process_handshake (slot : nat) : M bool :=
  c ← get_conn slot;
  if length_ (client_to_upstream c) =? 0 then mret true
  else if bool_decide (conn_protocol c = MAELYS_EGRESS_PROTOCOL_SOCKS5) ||
          (at_ (content (client_to_upstream c)) 0 =? 5) then
    set_conn slot (fun c => c <| conn_protocol := MAELYS_EGRESS_PROTOCOL_SOCKS5 |>);;
    parsed ← parse_socks slot;
    c ← get_conn slot;
    when (negb parsed && in_use c) (egress_connection_fail slot MAELYS_EGRESS_ERR_PROTOCOL false);;
    mret parsed
  else
    config ← get_config;
    header_copy ← call sys_alloc;
    rewrite_copy ← call sys_alloc;
    match egress_parse_http_request header_copy rewrite_copy config (content (client_to_upstream c)) with
    | Incomplete => mret true
    | Protocol =>
        set_conn slot (fun c => c <| conn_protocol := MAELYS_EGRESS_PROTOCOL_HTTP_CONNECT |>);;
        egress_connection_fail slot MAELYS_EGRESS_ERR_PROTOCOL false;;
        mret true
    | Authentication =>
        set_conn slot (fun c => c <| conn_protocol := MAELYS_EGRESS_PROTOCOL_HTTP_CONNECT |>);;
        egress_connection_fail slot MAELYS_EGRESS_ERR_DENIED true;;
        mret true
    | Complete request => egress_connection_begin_request slot request
    end.

End Connection.
