(* ===== verification/Relay.v ===== *)
(** The data plane (src/server/relay.c): readiness-driven reads and writes on
    both sides of a connection, the steps of the TLS provider, half-closes and
    the dispatch of an event; and the acceptance of connections
    (src/server/connection.c), which takes the first TLS step. *)

From S2P Require Import Prelude Common Codec Sha256 Config Policy Http Socks ClientHello.
From S2P Require Import Receipt Journal Buffer Server Connection.

Section Relay.
Context `{Inet} `{Sys}.

(** * Endpoints *)

(** The arguments of [read_into] and [write_from] on one side: its socket, the
    buffer it fills and the one it drains, its end of file and counters, and
    the events of the trace. *)
Record endpoint := Endpoint {
  end_socket : egress_connection_t -> option Z;
  in_buffer : egress_connection_t -> egress_buffer_t;
  set_in : egress_buffer_t -> egress_connection_t -> egress_connection_t;
  out_buffer : egress_connection_t -> egress_buffer_t;
  set_out : egress_buffer_t -> egress_connection_t -> egress_connection_t;
  set_eof : egress_connection_t -> egress_connection_t;
  count_in : Z -> egress_connection_t -> egress_connection_t;
  count_out : Z -> egress_connection_t -> egress_connection_t;
  arrived : nat -> bytes -> event;
  departed : nat -> bytes -> event;
}.

Definition client_end : endpoint := Endpoint client_socket
  client_to_upstream (fun b c => c <| client_to_upstream := b |>)
  upstream_to_client (fun b c => c <| upstream_to_client := b |>)
  (fun c => c <| client_eof := true |>)
  (fun n c => c <| bytes_from_client := u64 (bytes_from_client c + n) |>)
  (fun n c => c <| bytes_to_client := u64 (bytes_to_client c + n) |>)
  FromClient ToClient.

(** The upstream side counts into a variable nobody reads. *)
Definition upstream_end : endpoint := Endpoint upstream_socket
  upstream_to_client (fun b c => c <| upstream_to_client := b |>)
  client_to_upstream (fun b c => c <| client_to_upstream := b |>)
  (fun c => c <| upstream_eof := true |>)
  (fun _ c => c) (fun _ c => c)
  FromUpstream ToUpstream.

(** * Plain reads and writes *)

(** The result and the progress. *)
Definition read_into (e : endpoint) (slot : nat) (maximum : Z) : M (bool * bool) :=
  c ← get_conn slot;
  match end_socket e c with
  | None => mret (false, false)
  | Some socket =>
      let '(room, buffer) := buffer_available (in_buffer e c) in
      set_conn slot (set_in e buffer);;
      let available := if maximum <? room then maximum else room in
      if available =? 0 then mret (true, false)
      else
        answer ← call (sys_socket_receive socket available);
        match answer with
        | Received b =>
            set_conn slot (fun c => count_in e (len b) (set_in e (buffer_put (in_buffer e c) b) c));;
            note (arrived e slot b);;
            mret (true, true)
        | ReceiveClosed => set_conn slot (set_eof e);; mret (true, true)
        | ReceiveWouldBlock => mret (true, false)
        | ReceiveFailed => mret (false, false)
        end
  end.

Definition write_from (e : endpoint) (slot : nat) (maximum : Z) : M (bool * bool) :=
  c ← get_conn slot;
  let buffer := out_buffer e c in
  if length_ buffer =? 0 then mret (true, false)
  else
    let requested := if length_ buffer <? maximum then length_ buffer else maximum in
    if requested =? 0 then mret (false, false)
    else match end_socket e c with
         | None => mret (false, false)
         | Some socket =>
             let b := ztake requested (content buffer) in
             answer ← call (sys_socket_send socket b);
             match answer with
             | Sent written =>
                 set_conn slot (fun c =>
                   count_out e written (set_out e (buffer_consume (out_buffer e c) written) c));;
                 note (departed e slot (ztake written b));;
                 mret (true, negb (written =? 0))
             | SendWouldBlock => mret (true, false)
             | SendFailed => mret (false, false)
             end
         end.

(** * The TLS provider *)

Definition tls_interest (step : maelys_egress_tls_step_t) : interest :=
  match step with
  | MAELYS_EGRESS_TLS_WANT_READ => INTEREST_READ
  | MAELYS_EGRESS_TLS_WANT_WRITE => INTEREST_WRITE
  | _ => no_interest
  end.

Definition tls_waits (step : maelys_egress_tls_step_t) : bool :=
  match step with
  | MAELYS_EGRESS_TLS_WANT_READ | MAELYS_EGRESS_TLS_WANT_WRITE => true
  | _ => false
  end.

Definition egress_relay_advance_tls_handshake (slot : nat) : M bool :=
  config ← get_config;
  c ← get_conn slot;
  step ← call (tls_handshake (default 0 (tls_provider config)) (default 0 (tls_session c)));
  set_conn slot (fun c => c <| tls_handshake_interest := tls_interest step |>);;
  if bool_decide (step = MAELYS_EGRESS_TLS_COMPLETE) then
    set_conn slot (fun c => c <| state := CONNECTION_HANDSHAKE |>
                              <| tls_handshake_interest := no_interest |>);;
    mret true
  else
    when (negb (tls_waits step))
      (set_conn slot (fun c => c <| conn_result := MAELYS_EGRESS_ERR_CRYPTO |>));;
    mret (tls_waits step).

Definition in_handshake (c : egress_connection_t) : bool :=
  bool_decide (state c = CONNECTION_HANDSHAKE) || bool_decide (state c = CONNECTION_TLS_HANDSHAKE).

Definition tls_read_client (slot : nat) (session maximum : Z) : M (bool * bool) :=
  config ← get_config;
  room ← client_room slot;
  let available := if maximum <? room then maximum else room in
  if available =? 0 then mret (true, false)
  else
    answer ← call (tls_read (default 0 (tls_provider config)) session available);
    let '(step, b) := answer in
    set_conn slot (fun c => c <| tls_read_interest := tls_interest step |>);;
    if bool_decide (step = MAELYS_EGRESS_TLS_COMPLETE) && negb (len b =? 0) then
      set_conn slot (fun c =>
        c <| client_to_upstream := buffer_put (client_to_upstream c) b |>
          <| bytes_from_client := u64 (bytes_from_client c + len b) |>);;
      note (FromClient slot b);;
      c ← get_conn slot;
      when (negb (in_handshake c)) (egress_quota_charge slot (len b));;
      set_conn slot (fun c => c <| tls_read_interest := no_interest |>);;
      mret (true, true)
    else if bool_decide (step = MAELYS_EGRESS_TLS_CLOSED) then
      set_conn slot (fun c => c <| client_eof := true |> <| tls_read_interest := no_interest |>);;
      mret (true, true)
    else
      when (bool_decide (step = MAELYS_EGRESS_TLS_FAILED))
        (set_conn slot (fun c => c <| conn_result := MAELYS_EGRESS_ERR_CRYPTO |>));;
      mret (tls_waits step, false).

Definition read_from_client (slot : nat) : M (bool * bool) :=
  c ← get_conn slot;
  answer ← (if in_handshake c then mret (UINT64_MAX, MAELYS_EGRESS_QUOTA_NONE)
            else quota_allowance slot);
  let '(allowance, limiting_scope) := answer in
  if allowance =? 0 then
    egress_quota_deny slot limiting_scope;;
    set_conn slot (fun c => c <| quota_exhausted := true |>);;
    mret (true, false)
  else
    let maximum := if SIZE_MAX <? allowance then SIZE_MAX else allowance in
    match tls_session c with
    | None =>
        result ← read_into client_end slot maximum;
        c' ← get_conn slot;
        when (result.1 && negb (in_handshake c'))
          (egress_quota_charge slot (u64 (bytes_from_client c' - bytes_from_client c)));;
        mret result
    | Some session => tls_read_client slot session maximum
    end.

(** The bytes that are exempt go first; the others are charged. *)
Definition account_written (slot : nat) (written : Z) : M unit :=
  c ← get_conn slot;
  if negb (quota_client_exempt_bytes c =? 0)
  then set_conn slot (fun c =>
    c <| quota_client_exempt_bytes := u64 (quota_client_exempt_bytes c - written) |>)
  else egress_quota_charge slot written.

Definition tls_write_client (slot : nat) (session maximum : Z) : M (bool * bool) :=
  config ← get_config;
  c ← get_conn slot;
  let buffer := upstream_to_client c in
  if length_ buffer =? 0 then mret (true, false)
  else
    let b := ztake (if length_ buffer <? maximum then length_ buffer else maximum) (content buffer) in
    answer ← call (tls_write (default 0 (tls_provider config)) session b);
    let '(step, written) := answer in
    set_conn slot (fun c => c <| tls_write_interest := tls_interest step |>);;
    if bool_decide (step = MAELYS_EGRESS_TLS_COMPLETE) && negb (written =? 0) then
      set_conn slot (fun c =>
        c <| upstream_to_client := buffer_consume (upstream_to_client c) written |>
          <| bytes_to_client := u64 (bytes_to_client c + written) |>);;
      note (ToClient slot (ztake written b));;
      account_written slot written;;
      set_conn slot (fun c => c <| tls_write_interest := no_interest |>);;
      mret (true, true)
    else
      when (bool_decide (step = MAELYS_EGRESS_TLS_FAILED))
        (set_conn slot (fun c => c <| conn_result := MAELYS_EGRESS_ERR_CRYPTO |>));;
      mret (tls_waits step, false).

(** [progress] is what the variable holds before the call. *)
Definition write_to_client (slot : nat) (progress : bool) : M (bool * bool) :=
  c ← get_conn slot;
  answer ← (if negb (quota_client_exempt_bytes c =? 0)
            then mret (quota_client_exempt_bytes c, MAELYS_EGRESS_QUOTA_NONE)
            else quota_allowance slot);
  let '(allowance, limiting_scope) := answer in
  if allowance =? 0 then
    egress_quota_deny slot limiting_scope;;
    set_conn slot (fun c => c <| quota_exhausted := true |>);;
    mret (true, progress)
  else
    let maximum := if SIZE_MAX <? allowance then SIZE_MAX else allowance in
    match tls_session c with
    | None =>
        result ← write_from client_end slot maximum;
        c' ← get_conn slot;
        let written := u64 (bytes_to_client c' - bytes_to_client c) in
        when (result.1 && negb (written =? 0)) (account_written slot written);;
        mret result
    | Some session => tls_write_client slot session maximum
    end.

(** * Half-closes and completion *)

Definition half_close_upstream (slot : nat) : M unit :=
  c ← get_conn slot;
  match upstream_socket c with
  | Some socket =>
      when (client_eof c && (length_ (client_to_upstream c) =? 0) && negb (upstream_write_shutdown c))
        (call (sys_socket_shutdown socket);;
         set_conn slot (fun c => c <| upstream_write_shutdown := true |>))
  | None => mret tt
  end.

Definition half_close_client (slot : nat) : M bool :=
  config ← get_config;
  c ← get_conn slot;
  match client_socket c with
  | Some socket =>
      if upstream_eof c && (length_ (upstream_to_client c) =? 0) && negb (client_write_shutdown c) then
        match tls_session c with
        | None =>
            call (sys_socket_shutdown socket);;
            set_conn slot (fun c => c <| client_write_shutdown := true |>);;
            mret true
        | Some session =>
            step ← call (tls_shutdown (default 0 (tls_provider config)) session);
            set_conn slot (fun c => c <| tls_shutdown_interest := tls_interest step |>);;
            match step with
            | MAELYS_EGRESS_TLS_COMPLETE | MAELYS_EGRESS_TLS_CLOSED =>
                set_conn slot (fun c => c <| client_write_shutdown := true |>
                                          <| tls_shutdown_interest := no_interest |>);;
                mret true
            | MAELYS_EGRESS_TLS_WANT_READ | MAELYS_EGRESS_TLS_WANT_WRITE => mret true
            | MAELYS_EGRESS_TLS_FAILED =>
                set_conn slot (fun c => c <| conn_result := MAELYS_EGRESS_ERR_CRYPTO |>);;
                mret false
            end
        end
      else mret true
  | None => mret true
  end.

Definition apply_half_closes (slot : nat) : M bool :=
  half_close_upstream slot;;
  half_close_client slot.

Definition connection_complete (c : egress_connection_t) : bool :=
  if close_after_flush c then length_ (upstream_to_client c) =? 0
  else bool_decide (state c = CONNECTION_RELAY) && client_eof c && upstream_eof c &&
       (length_ (client_to_upstream c) =? 0) && (length_ (upstream_to_client c) =? 0).

(** * Dispatch *)

Definition touch_activity (slot : nat) (result : bool * bool) : M unit :=
  when (result.1 && result.2)
    (now ← monotonic_now;
     set_conn slot (fun c => c <| last_activity_ms := now |>)).

(** A hang-up without READ is handled as readability. *)
Definition hup_as_read (slot : nat) (side : Z) (f : flags) : M flags :=
  if ev_hup f && negb (ev_read f) && negb (ev_error f) then
    set_conn slot (fun c =>
      if side =? TOKEN_SIDE_CLIENT then c <| client_hup := true |>
      else if bool_decide (state c = CONNECTION_CONNECTING) then c
      else c <| upstream_hup := true |>);;
    mret (Flags true (ev_write f) (ev_error f) (ev_hup f))
  else mret f.

(** The part of a client event that reads: the result and the progress, [None]
    when the slot was closed on the way. *)
Definition client_readable (slot : nat) (f : flags) : M (option (bool * bool)) :=
  c ← get_conn slot;
  if bool_decide (state c = CONNECTION_TLS_HANDSHAKE) && flags_meet f (tls_handshake_interest c)
  then ok ← egress_relay_advance_tls_handshake slot; mret (Some (ok, false))
  else if flags_meet f (tls_or c (tls_read_interest c) INTEREST_READ) && negb (close_after_flush c)
  then
    result ← read_from_client slot;
    touch_activity slot result;;
    c ← get_conn slot;
    if result.1 && bool_decide (state c = CONNECTION_HANDSHAKE) then
      ok ← egress_connection_process_handshake slot;
      c ← get_conn slot;
      mret (if in_use c then Some (ok, result.2) else None)
    else if result.1 && bool_decide (state c = CONNECTION_IDENTITY) then
      ok ← egress_connection_enforce_tunnel_identity slot;
      c ← get_conn slot;
      mret (if in_use c then Some (ok, result.2) else None)
    else mret (Some result)
  else mret (Some (true, false)).

(** The part that writes. *)
Definition client_writable (slot : nat) (f : flags) (ok progress : bool) : M bool :=
  c ← get_conn slot;
  if ok && negb (bool_decide (state c = CONNECTION_TLS_HANDSHAKE)) &&
     negb (length_ (upstream_to_client c) =? 0) &&
     flags_meet f (tls_or c (tls_write_interest c) INTEREST_WRITE)
  then
    result ← write_to_client slot progress;
    touch_activity slot result;;
    mret result.1
  else mret ok.

(** What an event of the client does before the common end: [None] when the
    slot was closed on the way. *)
Definition dispatch_client (slot : nat) (f : flags) : M (option bool) :=
  read ← client_readable slot f;
  match read with
  | None => mret None
  | Some (ok, progress) =>
      ok ← client_writable slot f ok progress;
      when (ev_error f && negb (ev_read f)) (set_conn slot (fun c => c <| client_eof := true |>));;
      mret (Some ok)
  end.

Definition dispatch_upstream (slot : nat) (f : flags) : M (option bool) :=
  c ← get_conn slot;
  match state c with
  | CONNECTION_CONNECTING =>
      if ev_write f || ev_error f || ev_hup f then
        connected ← call (sys_socket_connect_complete (upstream_socket c));
        if connected : bool then
          egress_connection_connected slot;;
          c ← get_conn slot;
          mret (if in_use c then Some true else None)
        else
          call (sys_loop_unwatch (upstream_watch c));;
          set_conn slot (fun c => c <| upstream_watch := 0 |>);;
          release_upstream slot;;
          ok ← egress_connection_connect_next slot;
          mret (Some ok)
      else mret (Some true)
  | CONNECTION_RELAY =>
      ok ←
        (if ev_read f then
           result ← read_into upstream_end slot SIZE_MAX;
           touch_activity slot result;;
           mret result.1
         else mret true);
      ok ←
        (if ok && ev_write f then
           result ← write_from upstream_end slot SIZE_MAX;
           touch_activity slot result;;
           mret result.1
         else mret ok);
      when (ev_error f && negb (ev_read f)) (set_conn slot (fun c => c <| upstream_eof := true |>));;
      mret (Some ok)
  | _ => mret (Some true)
  end.

(** [if (connection->result == OK) connection->result = ERR_IO], then close. *)
Definition close_failed (slot : nat) : M unit :=
  set_conn slot (fun c =>
    if bool_decide (conn_result c = MAELYS_EGRESS_OK) then c <| conn_result := MAELYS_EGRESS_ERR_IO |>
    else c);;
  egress_connection_close slot.

(** The common end of a dispatch. *)
Definition dispatch_end (slot : nat) (ok : bool) : M unit :=
  c ← get_conn slot;
  answer ← quota_allowance slot;
  when (ok && quota_admitted c && (answer.1 =? 0) &&
        negb (bool_decide (answer.2 = MAELYS_EGRESS_QUOTA_NONE)))
    (egress_quota_deny slot answer.2;;
     set_conn slot (fun c => c <| quota_exhausted := true |>));;
  c ← get_conn slot;
  if ok && quota_exhausted c && (length_ (client_to_upstream c) =? 0) then egress_connection_close slot
  else if negb ok then close_failed slot
  else
    ok ← apply_half_closes slot;
    if negb ok then close_failed slot
    else
      c ← get_conn slot;
      if connection_complete c then egress_connection_close slot
      else
        ok ← egress_connection_update_watches slot;
        when (negb ok)
          (set_conn slot (fun c => c <| conn_result := MAELYS_EGRESS_ERR_IO |>);;
           egress_connection_close slot).

Definition egress_relay_dispatch (slot : nat) (side : Z) (f : flags) : M unit :=
  f ← hup_as_read slot side f;
  outcome ← (if side =? TOKEN_SIDE_CLIENT then dispatch_client slot f
             else if side =? TOKEN_SIDE_UPSTREAM then dispatch_upstream slot f
             else mret (Some true));
  match outcome with
  | None => mret tt
  | Some ok => dispatch_end slot ok
  end.

(** * Accepting *)

Definition egress_listener_unix_peer_allowed (config : maelys_egress_config) (client : Z) : M bool :=
  if negb (listen_unix config) ||
     bool_decide (unix_peer_policy config = MAELYS_EGRESS_UNIX_PEER_AUTHENTICATED)
  then mret true
  else
    uid ← call (sys_peer_euid client);
    mret (match uid with Some uid => uid =? sys_geteuid | None => false end).

(** The first free slot. *)
Fixpoint free_slot (cs : list egress_connection_t) : option nat :=
  match cs with
  | [] => None
  | c :: cs => if in_use c then S <$> free_slot cs else Some 0%nat
  end.

(** The fields of a new connection that do not depend on how it came. *)
Definition new_connection (config : maelys_egress_config) (st : connection_state_t) (gen : Z)
    (client : option Z) (index : option nat) (c2u u2c : option bytes) (mono unix : Z)
  : egress_connection_t :=
  zero_connection <| state := st |> <| generation := gen |> <| client_socket := client |>
    <| client_fd := native_fd client |> <| upstream_fd := -1 |> <| principal_index := index |>
    <| client_to_upstream := new_buffer (default [] c2u) (buffer_bytes config) |>
    <| upstream_to_client := new_buffer (default [] u2c) (buffer_bytes config) |>
    <| started_mono_ms := mono |> <| started_unix_ms := unix |> <| last_activity_ms := mono |>
    <| handshake_deadline_ms := add_saturating mono (handshake_timeout_ms config) |>.

(** The next id, and the slot filled with a new connection. *)
Definition open_slot (slot : nat) (st : connection_state_t) (client : option Z) (index : option nat)
  : M bool :=
  config ← get_config;
  set_server (fun s => s <| next_id := u64 (next_id s + 1) |>);;
  s ← get_server;
  c2u ← call (sys_malloc (buffer_bytes config));
  u2c ← call (sys_malloc (buffer_bytes config));
  mono ← monotonic_now;
  unix ← wall_now;
  set_conn slot (fun _ => new_connection config st (next_id s) client index c2u u2c mono unix);;
  note (Opened slot);;
  mret (is_some c2u && is_some u2c).

Definition count_opened : M unit :=
  set_server (fun s => s <| connection_count := connection_count s + 1 |>);;
  count_metric (fun m => m <| metric_active := u64 (metric_active m + 1) |>).

(** The session of a TLS listener and its first handshake step. *)
Definition start_tls (slot : nat) (provider : Z) : M unit :=
  c ← get_conn slot;
  answer ← call (tls_session_create provider (client_fd c));
  let '(result, session) := answer in
  set_conn slot (fun c => c <| tls_session := session |>);;
  if bool_decide (result = MAELYS_EGRESS_OK) then
    ok ← egress_relay_advance_tls_handshake slot;
    when (negb ok) (set_conn slot (fun c => c <| conn_result := MAELYS_EGRESS_ERR_CRYPTO |>))
  else set_conn slot (fun c => c <| conn_result := result |>).

Definition accept_one (client : Z) : M unit :=
  config ← get_config;
  allowed ← egress_listener_unix_peer_allowed config client;
  if negb allowed then socket_release (Some client)
  else
    count_metric (fun m => m <| metric_accepted := u64 (metric_accepted m + 1) |>);;
    s ← get_server;
    match (if max_connections config <=? connection_count s then None
           else free_slot (connections s)) with
    | None => socket_release (Some client)
    | Some slot =>
        allocated ← open_slot slot
          (if tls_provider config then CONNECTION_TLS_HANDSHAKE else CONNECTION_HANDSHAKE)
          (Some client) None;
        set_conn slot (fun c => c
          <| policy_digest_hex := snprintf_s 65 (digest_hex (server_policy s)) |>
          <| conn_policy_generation := policy_generation s |>);;
        count_opened;;
        match tls_provider config with
        | Some provider => start_tls slot provider
        | None => mret tt
        end;;
        c ← get_conn slot;
        ready ← (if allocated && (negb (is_some (tls_provider config)) || is_some (tls_session c)) &&
                    bool_decide (conn_result c = MAELYS_EGRESS_OK)
                 then egress_connection_update_watches slot else mret false);
        when (negb ready)
          (set_conn slot (fun c =>
             if bool_decide (conn_result c = MAELYS_EGRESS_OK)
             then c <| conn_result := MAELYS_EGRESS_ERR_MEMORY |> else c);;
           egress_connection_close slot)
    end.

(** The loop, while [accept] hands out connections. *)
Fixpoint accept_loop (pending : nat) (listener : Z) : M unit :=
  match pending with
  | O => mret tt
  | S pending =>
      client ← call (sys_socket_accept listener);
      accept_one client;;
      accept_loop pending listener
  end.

Definition egress_connection_accept_all : M unit :=
  s ← get_server;
  let listener := native_fd (listener_socket s) in
  pending ← call (sys_pending listener);
  accept_loop pending listener.

End Relay.
