(* ===== verification/Admin.v ===== *)
(** The loopback responder of src/server/admin.c: /healthz and /metrics, with
    its own slots, generations and deadlines.  Its bodies and responses always
    fit their arrays, so a request that is complete is always answered. *)

From S2P Require Import Prelude Common Codec Sha256 Config Policy Http Socks ClientHello.
From S2P Require Import Receipt Journal Buffer Server Connection Relay.

(** * Bodies *)

Definition quoted (s : string) : bytes := [c_dquote] ++ str s ++ [c_dquote].

Definition health_body (healthy_ : bool) (generation : Z) : bytes :=
  str "{" ++ quoted "status" ++ str ":" ++ (if healthy_ then quoted "ok" else quoted "degraded") ++
  str "," ++ quoted "policy_generation" ++ str ":" ++ decimal generation ++
  str "," ++ quoted "audit_healthy" ++ str ":" ++
  (if healthy_ then str "true" else str "false") ++ str "}" ++ [c_lf].

Definition metric_line (name : string) (value : Z) : bytes :=
  str "maelys_egress_" ++ str name ++ [c_space] ++ decimal value ++ [c_lf].

Definition type_line (name kind : string) : bytes :=
  str "# TYPE maelys_egress_" ++ str name ++ [c_space] ++ str kind ++ [c_lf].

Definition metrics_body (m : server_metrics) (generation : Z) : bytes :=
  type_line "connections_total" "counter" ++
  metric_line "connections_total" (metric_accepted m) ++
  type_line "connections_active" "gauge" ++
  metric_line "connections_active" (metric_active m) ++
  metric_line "admissions_total" (metric_admitted m) ++
  metric_line "denials_total" (metric_denied m) ++
  metric_line "auth_failures_total" (metric_auth_failures m) ++
  metric_line "quota_denials_total" (metric_quota_denials m) ++
  metric_line "bytes_from_clients_total" (metric_bytes_from_clients m) ++
  metric_line "bytes_to_clients_total" (metric_bytes_to_clients m) ++
  metric_line "receipts_total" (metric_receipts m) ++
  metric_line "policy_generation" generation ++
  metric_line "policy_reload_failures_total" (metric_reload_failures m) ++
  metric_line "audit_failures_total" (metric_audit_failures m).

Definition not_found_body : bytes := str "not found" ++ [c_lf].

Definition admin_head (status content_type : bytes) (body : bytes) : bytes :=
  str "HTTP/1.1 " ++ status ++ crlf ++ str "Content-Type: " ++ content_type ++ crlf ++
  str "Content-Length: " ++ decimal (len body) ++ crlf ++
  str "Connection: close" ++ crlf ++ str "Cache-Control: no-store" ++ crlf ++ crlf ++ body.

(** The status, the type and the body of the answer to a request. *)
Definition admin_answer (s : maelys_egress_server) (log : maelys_egress_audit) (request : bytes)
  : bytes * bytes * bytes :=
  if prefixb (str "GET /healthz HTTP/1.1" ++ crlf) request then
    let healthy_ := (negb (is_some (audit (server_config s))) || maelys_egress_audit_healthy (Some log)) &&
                    (metric_audit_failures (metrics s) =? 0) in
    (if healthy_ then str "200 OK" else str "503 Service Unavailable", str "application/json",
     health_body healthy_ (policy_generation s))
  else if prefixb (str "GET /metrics HTTP/1.1" ++ crlf) request then
    (str "200 OK", str "text/plain; version=0.0.4", metrics_body (metrics s) (policy_generation s))
  else (str "404 Not Found", str "text/plain", not_found_body).

Section Admin.
Context `{Sys}.

Definition get_admin (slot : nat) : M egress_admin_connection := fun m =>
  (nth slot (admin_connections (server m)) (free_admin 0), m).
Definition set_admin (slot : nat) (f : egress_admin_connection -> egress_admin_connection) : M unit :=
  set_server (fun s => s <| admin_connections := alter f slot (admin_connections s) |>).

Definition get_audit : M maelys_egress_audit := fun m => (audit_log m, m).

Definition egress_admin_close (slot : nat) : M unit :=
  a ← get_admin slot;
  when (negb (admin_watch_ a =? 0)) (call (sys_loop_unwatch (admin_watch_ a)));;
  socket_release (admin_socket a);;
  set_admin slot (fun a => free_admin (admin_generation a)).

Definition admin_watch (slot : nat) (interests : interest) : M bool :=
  a ← get_admin slot;
  if negb (admin_watch_ a =? 0) then call (sys_loop_modify (admin_watch_ a) interests)
  else
    answer ← call (sys_loop_watch_fd (admin_fd a) interests
                     (admin_token (Z.of_nat slot) (admin_generation a)));
    match answer with
    | Some watch => set_admin slot (fun a => a <| admin_watch_ := watch |>);; mret true
    | None => mret false
    end.

Definition prepare_admin_response (slot : nat) : M unit :=
  a ← get_admin slot;
  let text := cstr (admin_request a) in
  match find_sub (crlf ++ crlf) text with
  | None => mret tt
  | Some _ =>
      s ← get_server;
      log ← get_audit;
      let '(status, content_type, body) := admin_answer s log text in
      if 3072 <=? len body then egress_admin_close slot
      else
        let response := admin_head status content_type body in
        if EGRESS_ADMIN_BUFFER <=? len response then egress_admin_close slot
        else set_admin slot (fun a => a <| admin_response := response |>)
  end.

(** Reading the request: whether the connection is still to be served. *)
Definition admin_read (slot : nat) : M bool :=
  a ← get_admin slot;
  let available := EGRESS_ADMIN_BUFFER - 1 - len (admin_request a) in
  received ← call (sys_socket_receive (native_fd (admin_socket a)) available);
  served ←
    match received with
    | Received b =>
        set_admin slot (fun a => a <| admin_request := admin_request a ++ b |>);;
        prepare_admin_response slot;;
        mret true
    | ReceiveWouldBlock => mret true
    | _ => egress_admin_close slot;; mret false
    end;
  a ← get_admin slot;
  if negb served then mret false
  else if (len (admin_response a) =? 0) && (available =? 0) then egress_admin_close slot;; mret false
  else mret true.

Definition admin_write (slot : nat) : M bool :=
  a ← get_admin slot;
  sent ← call (sys_socket_send (native_fd (admin_socket a)) (zdrop (response_offset a) (admin_response a)));
  match sent with
  | SendFailed => egress_admin_close slot;; mret false
  | _ =>
      let written := match sent with Sent n => n | _ => 0 end in
      set_admin slot (fun a => a <| response_offset := response_offset a + written |>);;
      a ← get_admin slot;
      if response_offset a =? len (admin_response a) then egress_admin_close slot;; mret false
      else mret true
  end.

Definition egress_admin_dispatch (slot : nat) (f : flags) : M unit :=
  a ← get_admin slot;
  live ← (if (len (admin_response a) =? 0) && ev_read f then admin_read slot else mret true);
  if negb live then mret tt
  else
    a ← get_admin slot;
    live ← (if negb (len (admin_response a) =? 0) && ev_write f then admin_write slot else mret true);
    if negb live then mret tt
    else
      a ← get_admin slot;
      if ev_error f || (ev_hup f && (len (admin_response a) =? 0)) then egress_admin_close slot
      else
        admin_watch slot (if negb (len (admin_response a) =? 0) then INTEREST_WRITE else INTEREST_READ);;
        mret tt.

Fixpoint free_admin_slot (l : list egress_admin_connection) : option nat :=
  match l with
  | [] => None
  | a :: l => if 0 <=? admin_fd a then S <$> free_admin_slot l else Some 0%nat
  end.

Definition admin_accept_one (client : Z) : M unit :=
  s ← get_server;
  match free_admin_slot (admin_connections s) with
  | None => socket_release (Some client)
  | Some slot =>
      now ← monotonic_now;
      set_server (fun s => s <| next_admin_generation := u64 (next_admin_generation s + 1) |>);;
      s ← get_server;
      set_admin slot (fun _ =>
        AdminConnection (Some client) (native_fd (Some client)) 0 (next_admin_generation s)
          (add_saturating now 5000) [] [] 0);;
      ok ← admin_watch slot INTEREST_READ;
      when (negb ok) (egress_admin_close slot)
  end.

Fixpoint admin_accept_loop (pending : nat) (listener : Z) : M unit :=
  match pending with
  | O => mret tt
  | S pending =>
      client ← call (sys_socket_accept listener);
      admin_accept_one client;;
      admin_accept_loop pending listener
  end.

Definition egress_admin_accept_all : M unit :=
  s ← get_server;
  let listener := native_fd (admin_listener_socket s) in
  pending ← call (sys_pending listener);
  admin_accept_loop pending listener.

End Admin.

(** * Bounds *)

Record metrics_u64 (m : server_metrics) : Prop := {
  u64_accepted : is_u64 (metric_accepted m);
  u64_active : is_u64 (metric_active m);
  u64_admitted : is_u64 (metric_admitted m);
  u64_denied : is_u64 (metric_denied m);
  u64_auth_failures : is_u64 (metric_auth_failures m);
  u64_quota_denials : is_u64 (metric_quota_denials m);
  u64_from_clients : is_u64 (metric_bytes_from_clients m);
  u64_to_clients : is_u64 (metric_bytes_to_clients m);
  u64_receipts : is_u64 (metric_receipts m);
  u64_reload_failures : is_u64 (metric_reload_failures m);
  u64_audit_failures : is_u64 (metric_audit_failures m);
}.

(** The lengths of the literals of a goal. *)
Ltac literal_lengths :=
  rewrite ?len_app, ?len_cons, ?len_nil;
  repeat match goal with
  | |- context [len (str ?s)] => let n := eval vm_compute in (len (str s)) in change (len (str s)) with n
  | |- context [len (quoted ?s)] => let n := eval vm_compute in (len (quoted s)) in change (len (quoted s)) with n
  | |- context [len crlf] => change (len crlf) with 2
  end.

Lemma metric_line_len name value : is_u64 value -> len (metric_line name value) <= len (str name) + 36.
Proof. intros Hv. pose proof (decimal_len_u64 _ Hv). unfold metric_line. literal_lengths. lia. Qed.

Lemma type_line_len name kind : len (type_line name kind) = len (str name) + len (str kind) + 23.
Proof. unfold type_line. literal_lengths. lia. Qed.

Lemma metrics_body_len m g : metrics_u64 m -> is_u64 g -> len (metrics_body m g) <= 900.
Proof.
  intros [] Hg. unfold metrics_body. rewrite !len_app, !type_line_len.
  repeat match goal with
  | |- context [len (metric_line ?n ?v)] =>
      pose proof (metric_line_len n v ltac:(assumption)); generalize dependent (len (metric_line n v)); intros
  end.
  repeat match goal with Hx : context [len (str ?s)] |- _ => revert Hx end. literal_lengths. lia.
Qed.

Lemma admin_answer_len s log request :
  metrics_u64 (metrics s) -> is_u64 (policy_generation s) ->
  let '(status, content_type, body) := admin_answer s log request in
  len status <= 23 /\ len content_type <= 25 /\ len body <= 900.
Proof.
  intros Hm Hg. unfold admin_answer. destruct (prefixb _ _); [|destruct (prefixb _ _)].
  - pose proof (decimal_len_u64 _ Hg). cbn zeta. unfold health_body. destruct (_ && _); literal_lengths; lia.
  - pose proof (metrics_body_len _ _ Hm Hg). literal_lengths. lia.
  - unfold not_found_body. literal_lengths. lia.
Qed.

Lemma admin_head_len status content_type body :
  len status <= 23 -> len content_type <= 25 -> len body <= 900 ->
  len (admin_head status content_type body) < EGRESS_ADMIN_BUFFER.
Proof.
  intros Hs Hc Hb. pose proof (len_nonneg body). unfold admin_head. literal_lengths.
  assert (Hd : is_u64 (len body)) by (unfold is_u64; lia). pose proof (decimal_len_u64 _ Hd).
  unfold EGRESS_ADMIN_BUFFER. lia.
Qed.

(** A complete administrative request is always answered.  Whatever the
    request, the metrics (64-bit counters) and the policy generation, the
    response fits the array of the connection with its terminator, so
    [prepare_admin_response] stores it and never takes the path that closes the
    connection without an answer. *)
Theorem admin_always_answers `{Sys} slot m :
  metrics_u64 (metrics (server m)) -> is_u64 (policy_generation (server m)) ->
  let text := cstr (admin_request (nth slot (admin_connections (server m)) (free_admin 0))) in
  find_sub (crlf ++ crlf) text <> None ->
  let '(status, content_type, body) := admin_answer (server m) (audit_log m) text in
  let response := admin_head status content_type body in
  len response < EGRESS_ADMIN_BUFFER /\
  prepare_admin_response slot m = set_admin slot (fun a => a <| admin_response := response |>) m.
Proof.
  intros Hm Hg text Hf. pose proof (admin_answer_len (server m) (audit_log m) text Hm Hg) as Hl.
  unfold prepare_admin_response, mbind, M_bind, get_admin, get_server, get_audit. fold text.
  destruct (find_sub _ text); [|done]. destruct (admin_answer _ _ text) as [[status content_type] body].
  destruct Hl as (Hs & Hc & Hb). pose proof (admin_head_len _ _ _ Hs Hc Hb). split; [done|].
  rewrite (proj2 (Z.leb_gt _ _)) by lia. by rewrite (proj2 (Z.leb_gt _ _)).
Qed.
