(* ===== verification/Listener.v ===== *)
(** Listening sockets (src/server/listener.c): TCP listeners, private AF_UNIX
    listeners whose path is retired by identity, and the TCP pair that backs a
    native connector stream. *)

From S2P Require Import Prelude Common Codec Sha256 Config Policy Http Socks ClientHello.
From S2P Require Import Receipt Journal Buffer Server.

(** * The calls of a listener *)

(** The identity System gives a path: its number and its mode. *)
Record file_identity := FileIdentity { identity_number : Z; is_socket : bool }.

Inductive path_answer := PathFound (identity : file_identity) | PathMissing | PathUnknown.
Inductive accept_answer := Accepted (socket : Z) | AcceptWouldBlock | AcceptFailed.

(** [getaddrinfo] with the flags of a listener, the socket calls, [getsockname]
    and the calls on the path of a Unix socket. *)
Class ListenSys `{Sys} := {
  sys_getaddrinfo_passive : bytes -> Z -> world -> option (list addrinfo) * world;
  sys_socket_bind : Z -> sockaddr -> bool -> world -> bool * world;
  sys_socket_bind_path : Z -> bytes -> world -> bool * world;
  sys_socket_listen : Z -> Z -> world -> bool * world;
  sys_getsockname : Z -> world -> option sockaddr * world;
  sys_path_identity : bytes -> world -> path_answer * world;
  sys_chmod_private : bytes -> world -> bool * world;
  sys_unlink_same : bytes -> file_identity -> world -> unit * world;
  sys_fd_wait : Z -> interest -> Z -> world -> bool * world;
  sys_accept_one : Z -> world -> accept_answer * world;
  sys_socket_detach : Z -> world -> bool * world;
  sys_set_blocking : Z -> world -> bool * world;
}.

Definition AF_UNIX : Z := 1.

Section Listener.
Context `{ListenSys}.

Definition egress_listener_is_loopback_host (host : bytes) : bool :=
  beq host (str "127.0.0.1") || beq host (str "::1").

(** * TCP *)

(** The loop over the addresses: the first that can be bound. *)
Fixpoint bind_first (answers : list addrinfo) : M (option Z) :=
  match answers with
  | [] => mret None
  | address :: answers =>
      created ← call (sys_socket_create (ai_family address));
      match created with
      | None => bind_first answers
      | Some listener =>
          bound ← call (sys_socket_bind listener (ai_addr address) true);
          listening ← (if bound : bool then call (sys_socket_listen listener 128) else mret false);
          if listening : bool then mret (Some listener)
          else socket_release (Some listener);; bind_first answers
      end
  end.

(** [ntohs] of the port; [None] for a family that is neither. *)
Definition bound_port_of (a : sockaddr) : option Z :=
  match a with
  | AF_INET_addr p _ => Some p
  | AF_INET6_addr p _ _ _ => Some p
  | AF_OTHER_addr _ => None
  end.

(** The listener and its port. *)
Definition egress_listener_create_tcp (host : bytes) (port_ : Z) : M (option (Z * Z)) :=
  addresses ← call (sys_getaddrinfo_passive host port_);
  match addresses with
  | None => mret None
  | Some answers =>
      bound ← bind_first answers;
      match bound with
      | None => mret None
      | Some listener =>
          name ← call (sys_getsockname listener);
          match (name ≫= bound_port_of) with
          | Some p => mret (Some (listener, p))
          | None => socket_release (Some listener);; mret None
          end
      end
  end.

(** * Unix *)

Definition egress_listener_unlink_unix_identity (path : bytes) (identity : file_identity) : M unit :=
  when (negb (len path =? 0)) (call (sys_unlink_same path identity)).

(** The listener and the identity of the path it made. *)
Definition egress_listener_create_unix (path : bytes) : M (option (Z * file_identity)) :=
  present ← call (sys_path_identity path);
  match present with
  | PathFound _ | PathUnknown => mret None
  | PathMissing =>
      created ← call (sys_socket_create AF_UNIX);
      match created with
      | None => mret None
      | Some listener =>
          bound ← call (sys_socket_bind_path listener path);
          if negb bound then socket_release (Some listener);; mret None
          else
            made ← call (sys_path_identity path);
            match made with
            | PathFound identity =>
                if negb (is_socket identity) then socket_release (Some listener);; mret None
                else
                  private ← call (sys_chmod_private path);
                  listening ← (if private : bool then call (sys_socket_listen listener 128) else mret false);
                  if listening : bool then mret (Some (listener, identity))
                  else
                    socket_release (Some listener);;
                    egress_listener_unlink_unix_identity path identity;;
                    mret None
            | _ => socket_release (Some listener);; mret None
            end
      end
  end.

(** * The pair of a connector stream *)

(** 127.0.0.1 with the port left to the system. *)
Definition loopback_any : sockaddr := AF_INET_addr 0 [127; 0; 0; 1].

(** The wait for the connection to arrive; it ends when [accept] answers or the
    deadline passes, after at most [rounds] spurious wake-ups. *)
Fixpoint accept_wait (rounds : nat) (listener deadline : Z) : M (option Z) :=
  match rounds with
  | O => mret None
  | S rounds =>
      ready ← call (sys_fd_wait listener INTEREST_READ deadline);
      if negb ready then mret None
      else
        answer ← call (sys_accept_one listener);
        match answer with
        | Accepted socket => mret (Some socket)
        | AcceptWouldBlock => accept_wait rounds listener deadline
        | AcceptFailed => mret None
        end
  end.

(** The listener bound to a loopback port, and its address. *)
Definition pair_listener (listener : Z) : M (option sockaddr) :=
  bound ← call (sys_socket_bind listener loopback_any false);
  if negb bound then mret None
  else
    listening ← call (sys_socket_listen listener 1);
    if negb listening then mret None else call (sys_getsockname listener).

(** What the making of a pair holds when it reaches [done]: the embedder's
    socket, the relayed one and the detached descriptor. *)
Record pair_state := PairState {
  pair_ok : bool; pair_client : option Z; pair_relayed : option Z; pair_fd : Z;
}.

(** The embedder's end, once accepted: detached and made blocking. *)
Definition pair_detach (client relayed : Z) (connected : bool) (deadline : Z) : M pair_state :=
  done ←
    (if connected then mret true
     else
       ready ← call (sys_fd_wait client INTEREST_WRITE deadline);
       if negb ready then mret false else call (sys_socket_connect_complete (Some client)));
  if negb done then mret (PairState false (Some client) (Some relayed) (-1))
  else
    detached ← call (sys_socket_detach client);
    if negb detached then mret (PairState false (Some client) (Some relayed) (-1))
    else
      blocking ← call (sys_set_blocking client);
      mret (PairState blocking None (Some relayed) client).

(** The connection of the two ends. *)
Definition pair_connect (rounds : nat) (listener : Z) (address : sockaddr) : M pair_state :=
  created ← call (sys_socket_create AF_INET);
  match created with
  | None => mret (PairState false None None (-1))
  | Some client =>
      started ← call (sys_socket_connect_start client (Address address 16));
      match started with
      | ConnectFailed => mret (PairState false (Some client) None (-1))
      | _ =>
          now ← monotonic_now;
          let deadline := add_saturating now 5000 in
          accepted ← accept_wait rounds listener deadline;
          match accepted with
          | None => mret (PairState false (Some client) None (-1))
          | Some relayed =>
              pair_detach client relayed (match started with ConnectDone => true | _ => false end) deadline
          end
      end
  end.

(** The relayed socket and the embedder's descriptor. *)
Definition egress_listener_create_private_tcp_pair (rounds : nat) : M (option (Z * Z)) :=
  created ← call (sys_socket_create AF_INET);
  match created with
  | None => mret None
  | Some listener =>
      address ← pair_listener listener;
      pair ← match address with
             | None => mret (PairState false None None (-1))
             | Some address => pair_connect rounds listener address
             end;
      socket_release (Some listener);;
      match pair_ok pair, pair_relayed pair with
      | true, Some relayed => mret (Some (relayed, pair_fd pair))
      | _, _ =>
          socket_release (pair_client pair);;
          socket_release (pair_relayed pair);;
          when (0 <=? pair_fd pair) (call (sys_fd_close (pair_fd pair)));;
          mret None
      end
  end.

End Listener.
