(* ===== verification/Reactor.v ===== *)
(** The lifecycle and the owner loop of a server (src/server/server.c), and
    the native connector streams that enter it from other threads
    (src/server/connector.c, src/connector.c).

    A function another thread calls is a program of its own; System.v
    interleaves them with the actions of the owner. *)

From S2P Require Import Prelude Common Codec Sha256 Config Policy Http Socks ClientHello.
From S2P Require Import Receipt Journal Buffer Server Connection Relay Admin Listener.

Section Reactor.
Context `{Inet} `{Fs} `{ListenSys}.

(** * Policies *)

(** [mem] says whether every allocation of the copy succeeds. *)
Definition clone_policy (mem : bool) (source : maelys_egress_policy) : option maelys_egress_policy :=
  if negb mem then None
  else Some (source <| Policy.capacity := len (destinations source) |> <| sealed := true |>).

(** The result and the generation. *)
Definition maelys_egress_server_replace_policy (mem : bool) (policy : option maelys_egress_policy)
  : M (maelys_egress_result_t * Z) :=
  let failed := count_metric (fun m => m <| metric_reload_failures := u64 (metric_reload_failures m + 1) |>) in
  match policy with
  | None => failed;; mret (MAELYS_EGRESS_ERR_ARGUMENT, 0)
  | Some policy =>
      if negb (sealed policy) then failed;; mret (MAELYS_EGRESS_ERR_ARGUMENT, 0)
      else match clone_policy mem policy with
           | None => failed;; mret (MAELYS_EGRESS_ERR_MEMORY, 0)
           | Some copy =>
               s ← get_server;
               if stopping s then failed;; mret (MAELYS_EGRESS_ERR_STATE, 0)
               else
                 let generation := u64 (policy_generation s + 1) in
                 set_server (fun s => s <| server_policy := copy |> <| policy_generation := generation |>);;
                 mret (MAELYS_EGRESS_OK, generation)
           end
  end.

(** * Metrics *)

Record maelys_egress_metrics := Metrics {
  accepted : Z; active : Z; admitted : Z; denied : Z; auth_failures : Z; quota_denials : Z;
  bytes_from_clients : Z; bytes_to_clients : Z; receipts : Z; metrics_policy_generation : Z;
  reload_failures : Z; audit_failures : Z;
}.

Definition maelys_egress_server_metrics_snapshot (mem : bool)
  : M (maelys_egress_result_t * option maelys_egress_metrics) :=
  s ← get_server;
  let m := metrics s in
  if negb mem then mret (MAELYS_EGRESS_ERR_MEMORY, None)
  else mret (MAELYS_EGRESS_OK, Some (Metrics (metric_accepted m) (metric_active m)
    (metric_admitted m) (metric_denied m) (metric_auth_failures m) (metric_quota_denials m)
    (metric_bytes_from_clients m) (metric_bytes_to_clients m) (metric_receipts m)
    (policy_generation s) (metric_reload_failures m) (metric_audit_failures m))).

Definition maelys_egress_server_port : M Z := s ← get_server; mret (bound_port s).
Definition maelys_egress_server_admin_port : M Z := s ← get_server; mret (admin_bound_port s).
Definition maelys_egress_server_is_running : M bool :=
  s ← get_server; mret (running s && negb (stopping s)).
Definition maelys_egress_server_policy_generation : M Z :=
  s ← get_server; mret (policy_generation s).

(** * Deadlines *)

Definition connection_deadline (config : maelys_egress_config) (c : egress_connection_t) : Z :=
  match state c with
  | CONNECTION_TLS_HANDSHAKE | CONNECTION_HANDSHAKE | CONNECTION_CONNECTING | CONNECTION_IDENTITY =>
      handshake_deadline_ms c
  | _ => add_saturating (last_activity_ms c) (idle_timeout_ms config)
  end.

(** MAELYS_SYS_DEADLINE_INFINITE. *)
Definition DEADLINE_INFINITE : Z := UINT64_MAX.

Definition next_deadline (s : maelys_egress_server) : Z :=
  let deadline := fold_left (fun deadline c =>
    if in_use c then
      let candidate := connection_deadline (server_config s) c in
      if candidate <? deadline then candidate else deadline
    else deadline) (connections s) DEADLINE_INFINITE in
  fold_left (fun deadline a =>
    if (0 <=? admin_fd a) && (admin_deadline_ms a <? deadline) then admin_deadline_ms a else deadline)
    (admin_connections s) deadline.

(** One pass of each loop of [expire_connections]. *)
Definition expire_connection (now : Z) (slot : nat) : M unit :=
  config ← get_config;
  c ← get_conn slot;
  when (in_use c && (connection_deadline config c <=? now))
    (set_conn slot (fun c => c <| conn_result := MAELYS_EGRESS_ERR_TIMEOUT |>);;
     egress_connection_close slot).

Definition expire_admin (now : Z) (slot : nat) : M unit :=
  a ← get_admin slot;
  when ((0 <=? admin_fd a) && (admin_deadline_ms a <=? now)) (egress_admin_close slot).

(** [for (i = 0; i < count; ++i)]. *)
Fixpoint for_each {A} (l : list A) (f : A -> M unit) : M unit :=
  match l with
  | [] => mret tt
  | x :: l => f x;; for_each l f
  end.

(** The slots of a server. *)
Definition slots (config : maelys_egress_config) : list nat := seq 0 (Z.to_nat (max_connections config)).

Definition expire_connections : M unit :=
  now ← monotonic_now;
  config ← get_config;
  for_each (slots config) (expire_connection now);;
  for_each (seq 0 EGRESS_MAX_ADMIN_CONNECTIONS) (expire_admin now).

(** * Open commands *)

(** The connection of a command, once it has a slot. *)
Definition begin_command (slot id : nat) (command : egress_open_command) : M unit :=
  allocated ← open_slot slot CONNECTION_HANDSHAKE (server_socket command)
    (Some (command_principal_index command));
  set_command id (fun c => c <| server_socket := None |>);;
  set_conn slot (fun c => c <| conn_protocol := MAELYS_EGRESS_PROTOCOL_CONNECTOR |>
                            <| open_command := Some id |>);;
  count_metric (fun m => m <| metric_accepted := u64 (metric_accepted m + 1) |>);;
  count_opened;;
  if negb allocated then
    set_conn slot (fun c => c <| conn_result := MAELYS_EGRESS_ERR_MEMORY |>);;
    egress_connection_close slot
  else
    ok ← egress_connection_begin_request slot
      (Request MAELYS_EGRESS_PROTOCOL_CONNECTOR
         (snprintf_s (EGRESS_MAX_HOST + 1) (command_host command)) (command_port command) 0 []
         (snprintf_s (EGRESS_MAX_INVOCATION_ID + 1) (command_invocation_id command),
          Some (command_principal_index command)));
    c ← get_conn slot;
    when (negb ok && in_use c)
      (set_conn slot (fun c => c <| conn_result := MAELYS_EGRESS_ERR_IO |>);;
       egress_connection_close slot).

Definition process_command (id : nat) : M unit :=
  command ← get_command id;
  s ← get_server;
  if cancelled command || stopping s
  then egress_open_command_complete id MAELYS_EGRESS_ERR_CANCELLED
  else if max_connections (server_config s) <=? connection_count s
  then egress_open_command_complete id MAELYS_EGRESS_ERR_STATE
  else match free_slot (connections s) with
       | None => egress_open_command_complete id MAELYS_EGRESS_ERR_STATE
       | Some slot => begin_command slot id command
       end.

(** The commands queued so far, taken under the lock. *)
Definition take_commands : M (list nat) :=
  s ← get_server;
  set_server (fun s => s <| command_queue := [] |>);;
  mret (command_queue s).

Definition egress_open_commands_process : M unit :=
  queue ← take_commands;
  for_each queue process_command.

Definition cancel_command (slot : nat) : M unit :=
  c ← get_conn slot;
  match (if in_use c then open_command c else None) with
  | None => mret tt
  | Some id =>
      command ← get_command id;
      when (cancelled command)
        (set_conn slot (fun c => c <| conn_result := MAELYS_EGRESS_ERR_CANCELLED |>);;
         egress_connection_close slot)
  end.

Definition egress_open_commands_cancel : M unit :=
  config ← get_config;
  for_each (slots config) cancel_command.

Definition egress_open_commands_reject (result : maelys_egress_result_t) : M unit :=
  queue ← take_commands;
  for_each queue (fun id => egress_open_command_complete id result).

(** ** The embedder's threads *)

(** The principal a connector is bound to. *)
Definition connector_principal (config : maelys_egress_config) (native : bool)
    (user secret_ : option bytes) : option (bytes * nat) :=
  if native then
    if native_only config && native_principal_bound config && (principal_count config =? 1)
    then Some (snprintf_s (EGRESS_MAX_INVOCATION_ID + 1)
                 (invocation_id (nth 0 (principals config) zero_principal)), 0%nat)
    else None
  else if native_principal_bound config then None
  else match secret_ with
       | Some secret_ => egress_credentials_lookup config user secret_
       | None => None
       end.

(** On success the principal index, its name and its invocation id. *)
Definition egress_server_connector_bind (native : bool) (user secret_ : option bytes)
  : M (maelys_egress_result_t * option (nat * bytes * bytes)) :=
  if negb native && (negb (is_some user) || negb (is_some secret_))
  then mret (MAELYS_EGRESS_ERR_ARGUMENT, None)
  else
    s ← get_server;
    if finalized s || stopping s then mret (MAELYS_EGRESS_ERR_STATE, None)
    else
      match connector_principal (server_config s) native user secret_ with
      | Some (invocation, index) =>
          if principal_count (server_config s) <=? Z.of_nat index then
            count_metric (fun m => m <| metric_auth_failures := u64 (metric_auth_failures m + 1) |>);;
            mret (MAELYS_EGRESS_ERR_DENIED, None)
          else
            set_server (fun s => s <| server_references := server_references s + 1 |>);;
            mret (MAELYS_EGRESS_OK,
              Some (index,
                snprintf_s (EGRESS_MAX_USERNAME + 1)
                  (username (nth index (principals (server_config s)) zero_principal)),
                snprintf_s (EGRESS_MAX_INVOCATION_ID + 1) invocation))
      | None =>
          count_metric (fun m => m <| metric_auth_failures := u64 (metric_auth_failures m + 1) |>);;
          mret (MAELYS_EGRESS_ERR_DENIED, None)
      end.

Definition server_loop_wake_if_live : M bool :=
  s ← get_server;
  if finalized s || negb (loop s) then mret false else call sys_loop_wake.

(** A new command in the table; its id. *)
Definition add_command (command : egress_open_command) : M nat := fun m =>
  (length (commands m), m <| commands := commands m ++ [command] |>).

(** [egress_server_open_stream] up to its wait: the command it queued and the
    deadline of the wait, or the result it returns at once.  [sync] is the creation of the mutex and the
    condition. *)
Definition open_stream_begin (rounds : nat) (sync : bool) (index : nat) (principal invocation host : bytes)
    (port_ timeout_ms : Z) : M (maelys_egress_result_t + nat * Z) :=
  s ← get_server;
  if (port_ =? 0) || (timeout_ms =? 0) ||
     negb (bool_decide (egress_canonical_host host = Some host))
  then mret (inl MAELYS_EGRESS_ERR_ARGUMENT)
  else if stopping s || finalized s then mret (inl MAELYS_EGRESS_ERR_STATE)
  else
    mem ← call sys_alloc;
    if negb mem then mret (inl MAELYS_EGRESS_ERR_MEMORY)
    else
      pair ← (if sync then egress_listener_create_private_tcp_pair rounds else mret None);
      match pair with
      | None => mret (inl MAELYS_EGRESS_ERR_IO)
      | Some (relayed, client) =>
          id ← add_command
            (Command 1 false (Some relayed) client false MAELYS_EGRESS_OK index
               (snprintf_s (EGRESS_MAX_USERNAME + 1) principal)
               (snprintf_s (EGRESS_MAX_INVOCATION_ID + 1) invocation)
               (snprintf_s (EGRESS_MAX_HOST + 1) host) port_);
          s ← get_server;
          if stopping s || finalized s then
            open_command_release id;;
            mret (inl MAELYS_EGRESS_ERR_CANCELLED)
          else
            set_command id (fun c => c <| references := references c + 1 |>);;
            set_server (fun s => s <| command_queue := command_queue s ++ [id] |>);;
            now ← monotonic_now;
            woke ← server_loop_wake_if_live;
            when (negb woke) (set_command id (fun c => c <| cancelled := true |>));;
            mret (inr (id, add_saturating now timeout_ms))
      end.

(** How the wait of the embedder's thread ended. *)
Inductive wait_answer := WaitCompleted | WaitTimeout | WaitFailed.

(** [egress_server_open_stream] after its wait: the result and the descriptor. *)
Definition open_stream_end (id : nat) (waited : wait_answer) : M (maelys_egress_result_t * Z) :=
  match waited with
  | WaitCompleted => mret tt
  | _ => set_command id (fun c => c <| cancelled := true |>)
  end;;
  command ← get_command id;
  let result := if completed command then command_result command
                else match waited with
                     | WaitTimeout => MAELYS_EGRESS_ERR_TIMEOUT
                     | _ => MAELYS_EGRESS_ERR_IO
                     end in
  fd ← (if bool_decide (result = MAELYS_EGRESS_OK) then
          set_command id (fun c => c <| command_client_fd := -1 |>);;
          mret (command_client_fd command)
        else mret (-1));
  when (negb (bool_decide (result = MAELYS_EGRESS_OK)))
    (woke ← server_loop_wake_if_live; mret tt);;
  open_command_release id;;
  mret (result, fd).

(** ** Connectors and sessions *)

Definition egress_server_control_release : M unit :=
  set_server (fun s => s <| server_references := server_references s - 1 |>).


Record maelys_egress_connector := Connector {
  connector_references : Z;
  connector_index : nat;
  connector_name : bytes;
  connector_invocation : bytes;
}.

(** [mem] is the allocation of the connector. *)
Definition connector_create (mem native : bool) (user secret_ : option bytes)
  : M (maelys_egress_result_t * option maelys_egress_connector) :=
  if negb native && (negb (is_some user) || negb (is_some secret_))
  then mret (MAELYS_EGRESS_ERR_ARGUMENT, None)
  else if negb mem then mret (MAELYS_EGRESS_ERR_MEMORY, None)
  else
    answer ← egress_server_connector_bind native user secret_;
    mret (match answer with
          | (MAELYS_EGRESS_OK, Some (index, name, invocation)) =>
              (MAELYS_EGRESS_OK, Some (Connector 1 index name invocation))
          | (result, _) => (result, None)
          end).

Definition maelys_egress_server_connector_create (mem : bool) (user secret_ : option bytes)
  : M (maelys_egress_result_t * option maelys_egress_connector) :=
  connector_create mem false user secret_.

Definition maelys_egress_server_native_connector_create (mem : bool)
  : M (maelys_egress_result_t * option maelys_egress_connector) :=
  connector_create mem true None None.

(** The count that is left; the last holder lets the server go. *)
Definition maelys_egress_connector_release (connector : maelys_egress_connector) : M Z :=
  when (connector_references connector =? 1) egress_server_control_release;;
  mret (connector_references connector - 1).

(** [maelys_egress_connector_session_open] up to the wait of the stream. *)
Definition session_open_begin (rounds : nat) (mem sync : bool) (connector : maelys_egress_connector)
    (host : bytes) (port_ timeout_ms : Z) : M (maelys_egress_result_t + nat * Z) :=
  if (len host =? 0) || (port_ =? 0) || (timeout_ms =? 0) then mret (inl MAELYS_EGRESS_ERR_ARGUMENT)
  else if negb mem then mret (inl MAELYS_EGRESS_ERR_MEMORY)
  else open_stream_begin rounds sync (connector_index connector) (connector_name connector)
         (connector_invocation connector) host port_ timeout_ms.

(** A session is its descriptor. *)
Definition maelys_egress_session_take_fd (session : Z) : maelys_egress_result_t * Z * Z :=
  if session <? 0 then (MAELYS_EGRESS_ERR_STATE, -1, session) else (MAELYS_EGRESS_OK, session, -1).

Definition maelys_egress_session_release (session : Z) : M unit :=
  when (0 <=? session) (call (sys_fd_close session)).

(** * The owner loop *)

(** One event of the reactor. *)
Definition dispatch_event (token : Z) (f : flags) : M unit :=
  if token =? TOKEN_LISTENER then when (ev_read f) egress_connection_accept_all
  else if token =? TOKEN_ADMIN_LISTENER then when (ev_read f) egress_admin_accept_all
  else if negb (Z.land token TOKEN_ADMIN_FLAG =? 0) then
    let '(slot, gen, _) := decode_token (without_flag token) in
    if slot <? Z.of_nat EGRESS_MAX_ADMIN_CONNECTIONS then
      a ← get_admin (Z.to_nat slot);
      when ((0 <=? admin_fd a) && (admin_generation a =? gen)) (egress_admin_dispatch (Z.to_nat slot) f)
    else mret tt
  else
    let '(slot, gen, side) := decode_token token in
    config ← get_config;
    if max_connections config <=? slot then mret tt
    else
      c ← get_conn (Z.to_nat slot);
      when (in_use c && (generation c =? gen)) (egress_relay_dispatch (Z.to_nat slot) side f).

Definition serve_commands : M unit := egress_open_commands_process;; egress_open_commands_cancel.

(** One round of the loop: whether it goes on, or the result it ends with. *)
Definition run_round : M (option maelys_egress_result_t) :=
  serve_commands;;
  s ← get_server;
  answer ← call (sys_loop_step (next_deadline s));
  match answer with
  | StepFailed => mret (Some MAELYS_EGRESS_ERR_IO)
  | StepStopped => mret (Some MAELYS_EGRESS_OK)
  | StepEvents events =>
      for_each events (fun e => dispatch_event e.1 e.2);;
      serve_commands;;
      expire_connections;;
      mret None
  end.

(** At most [rounds] rounds; [None] while the loop is not over. *)
Fixpoint run_loop (rounds : nat) : M (option maelys_egress_result_t) :=
  s ← get_server;
  if stopping s then mret (Some MAELYS_EGRESS_OK)
  else match rounds with
       | O => mret None
       | S rounds =>
           answer ← run_round;
           match answer with
           | Some result => mret (Some result)
           | None => run_loop rounds
           end
       end.

(** The end of [maelys_egress_server_run]: nothing is relayed any more. *)
Definition close_slot_with (result : maelys_egress_result_t) (slot : nat) : M unit :=
  set_conn slot (fun c =>
    if in_use c && bool_decide (conn_result c = MAELYS_EGRESS_OK)
    then c <| conn_result := if bool_decide (result = MAELYS_EGRESS_OK)
                             then MAELYS_EGRESS_ERR_CANCELLED else result |>
    else c);;
  egress_connection_close slot.

Definition run_end (result : maelys_egress_result_t) : M unit :=
  egress_open_commands_reject MAELYS_EGRESS_ERR_CANCELLED;;
  config ← get_config;
  for_each (slots config) (close_slot_with result);;
  set_server (fun s => s <| running := false |>).

Definition maelys_egress_server_run (rounds : nat) : M (option maelys_egress_result_t) :=
  s ← get_server;
  if stopping s then mret (Some MAELYS_EGRESS_ERR_STATE)
  else
    set_server (fun s => s <| started := true |>);;
    if started s then mret (Some MAELYS_EGRESS_ERR_STATE)
    else
      set_server (fun s => s <| running := true |>);;
      answer ← run_loop rounds;
      match answer with
      | None => mret None
      | Some result => run_end result;; mret (Some result)
      end.

Definition maelys_egress_server_stop : M maelys_egress_result_t :=
  set_server (fun s => s <| stopping := true |>);;
  ok ← call sys_loop_stop;
  mret (if ok : bool then MAELYS_EGRESS_OK else MAELYS_EGRESS_ERR_IO).

(** ** Destruction *)

Definition release_listeners : M unit :=
  s ← get_server;
  when (negb (listener_watch s =? 0) && loop s) (call (sys_loop_unwatch (listener_watch s)));;
  when (negb (admin_listener_watch s =? 0) && loop s) (call (sys_loop_unwatch (admin_listener_watch s)));;
  for_each (seq 0 EGRESS_MAX_ADMIN_CONNECTIONS) (fun slot =>
    a ← get_admin slot;
    when (0 <=? admin_fd a) (egress_admin_close slot));;
  socket_release (listener_socket s);;
  socket_release (admin_listener_socket s);;
  when (unix_socket_created s)
    (egress_listener_unlink_unix_identity (unix_path (server_config s))
       (FileIdentity (unix_socket_identity s) true));;
  set_server (fun s => s <| listener_socket := None |> <| listener_fd := -1 |>
    <| admin_listener_socket := None |> <| admin_listener_fd := -1 |>
    <| unix_socket_created := false |> <| loop := false |>).

Definition maelys_egress_server_destroy : M unit :=
  s ← get_server;
  if running s then
    set_server (fun s => s <| stopping := true |>);;
    stopped ← call sys_loop_stop;
    mret tt
  else if finalized s then mret tt
  else
    set_server (fun s => s <| finalized := true |> <| stopping := true |>);;
    egress_open_commands_reject MAELYS_EGRESS_ERR_CANCELLED;;
    for_each (seq 0 (length (connections s))) egress_connection_close;;
    release_listeners;;
    set_server (fun s => s
      <| server_config := server_config s <| principals := map (fun _ => zero_principal)
                                                               (principals (server_config s)) |> |>
      <| connections := [] |>);;
    egress_server_control_release.

(** ** Creation *)

(** The guards on the configuration of a server. *)
Definition server_guards (config : maelys_egress_config) : bool :=
  let loopback := negb (native_only config) && negb (listen_unix config) &&
                  egress_listener_is_loopback_host (listen_host config) in
  let local_endpoint := native_only config || listen_unix config || loopback in
  if negb local_endpoint && negb (is_some (tls_provider config)) then false
  else if unix_principal_bound config &&
          (negb (listen_unix config) ||
           negb (bool_decide (unix_peer_policy config = MAELYS_EGRESS_UNIX_PEER_SAME_EUID)) ||
           (principal_count config <=? Z.of_nat (unix_principal_index config))) then false
  else if native_principal_bound config &&
          (negb (native_only config) || listen_unix config || negb (principal_count config =? 1) ||
           authentication_set config || unix_principal_bound config ||
           unauthenticated_loopback config || is_some (tls_provider config)) then false
  else if negb (authentication_set config) && negb (unix_principal_bound config) &&
          negb (native_principal_bound config) &&
          (listen_unix config || negb (unauthenticated_loopback config) || negb loopback) then false
  else if listen_unix config && negb (egress_unix_parent_is_private (unix_path config)) then false
  else true.

(** The server before it has a listener. *)
Definition initial_server (policy : maelys_egress_policy) (config : maelys_egress_config)
  : maelys_egress_server :=
  Server 1 policy config true None (-1) 0 0 None (-1) 0 0 0 false
    (repeat (free_connection 0) (Z.to_nat (max_connections config)))
    0 false false false false [] 0 1
    (repeat 0 (Z.to_nat EGRESS_MAX_PRINCIPALS)) (repeat 0 (Z.to_nat EGRESS_MAX_PRINCIPALS))
    zero_metrics (repeat (free_admin 0) EGRESS_MAX_ADMIN_CONNECTIONS) 0.

(** The proxy listener and its watch; a native-only server has none. *)
Definition create_listener (config : maelys_egress_config) : M maelys_egress_result_t :=
  if native_only config then mret MAELYS_EGRESS_OK
  else if listen_unix config && negb (egress_unix_parent_is_private (unix_path config))
  then mret MAELYS_EGRESS_ERR_DENIED
  else
    (if listen_unix config then
      made ← egress_listener_create_unix (unix_path config);
      set_server (fun s => s <| listener_socket := fst <$> made |>
        <| unix_socket_identity := match made with Some (_, i) => identity_number i | None => 0 end |>
        <| unix_socket_created := is_some made |>)
    else
      made ← egress_listener_create_tcp (listen_host config) (Config.port config);
      set_server (fun s => s <| listener_socket := fst <$> made |>
        <| bound_port := match made with Some (_, p) => p | None => bound_port s end |>));;
    set_server (fun s => s <| listener_fd := native_fd (listener_socket s) |>);;
    s ← get_server;
    match listener_socket s with
    | None => mret MAELYS_EGRESS_ERR_IO
    | Some _ =>
        watch ← call (sys_loop_watch_fd (listener_fd s) INTEREST_READ TOKEN_LISTENER);
        match watch with
        | None => mret MAELYS_EGRESS_ERR_IO
        | Some watch => set_server (fun s => s <| listener_watch := watch |>);; mret MAELYS_EGRESS_OK
        end
    end.

Definition create_admin_listener (config : maelys_egress_config) : M maelys_egress_result_t :=
  if negb (admin_enabled config) then mret MAELYS_EGRESS_OK
  else
    made ← egress_listener_create_tcp (admin_host config) (admin_port config);
    set_server (fun s => s <| admin_listener_socket := fst <$> made |>
      <| admin_listener_fd := native_fd (fst <$> made) |>
      <| admin_bound_port := match made with Some (_, p) => p | None => admin_bound_port s end |>);;
    match made with
    | None => mret MAELYS_EGRESS_ERR_IO
    | Some (listener, _) =>
        watch ← call (sys_loop_watch_fd listener INTEREST_READ TOKEN_ADMIN_LISTENER);
        match watch with
        | None => mret MAELYS_EGRESS_ERR_IO
        | Some watch => set_server (fun s => s <| admin_listener_watch := watch |>);; mret MAELYS_EGRESS_OK
        end
    end.

(** [mem] is the allocation of the server, its locks, its policy and its
    slots; [reactor] the creation of the loop.  A failure after the allocation
    destroys the server. *)
Definition maelys_egress_server_create (mem reactor : bool) (policy : option maelys_egress_policy)
    (config : maelys_egress_config) : M maelys_egress_result_t :=
  match policy with
  | None => mret MAELYS_EGRESS_ERR_ARGUMENT
  | Some policy =>
      if negb (sealed policy) then mret MAELYS_EGRESS_ERR_ARGUMENT
      else if negb (server_guards config) then mret MAELYS_EGRESS_ERR_DENIED
      else match clone_policy mem policy with
           | None => mret MAELYS_EGRESS_ERR_MEMORY
           | Some copy =>
               set_server (fun _ => initial_server copy config <| loop := reactor |>);;
               result ←
                 (if negb reactor then mret MAELYS_EGRESS_ERR_IO
                  else
                    result ← create_listener config;
                    if bool_decide (result = MAELYS_EGRESS_OK) then create_admin_listener config
                    else mret result);
               when (negb (bool_decide (result = MAELYS_EGRESS_OK))) maelys_egress_server_destroy;;
               mret result
           end
  end.

End Reactor.
