(* ===== verification/Invariant.v ===== *)
(** Reasoning about the programs of the server: what the trace says of a slot,
    the invariant of a slot, and weakest preconditions.

    A program that works on one slot is executed symbolically: [Frame] keeps,
    for one slot, its connection, its flow and its part of the counters exactly,
    and for all other slots only that they satisfy [slot_ok].  A specification
    says how the local part changes. *)

From S2P Require Import Prelude Common Codec Sha256 Config Policy Http Socks ClientHello.
From S2P Require Import Receipt Journal Buffer Server Connection.

(** * Flows *)

(** What the trace says of the current connection of a slot: the number of
    bytes received from the client; the bytes for the upstream, once requests
    are replaced by what is forwarded for them, and those sent; the number of
    bytes of replies; the bytes for the client and those sent; the host, the
    port and the address last connected to.  [balance] is the number of
    connections the slot has had less the number of its receipts. *)
Record flow := Flow {
  received : Z;
  up_in : bytes;
  up_out : bytes;
  replies : Z;
  down_in : bytes;
  down_out : bytes;
  target : option (bytes * Z * egress_address_t);
  balance : Z;
}.

#[export] Instance eta_flow : Eta flow := fun f =>
  Flow (received f) (up_in f) (up_out f) (replies f) (down_in f) (down_out f) (target f) (balance f).

Definition no_flow : flow := Flow 0 [] [] 0 [] [] None 0.

Definition event_slot (e : event) : nat :=
  match e with
  | Opened s | FromClient s _ | FromUpstream s _ | ToClient s _ | ToUpstream s _ | Queued s _
  | Taken s _ _ | ConnectTo s _ _ _ | Emitted s _ _ | Closed s => s
  end.

Definition flow_step (e : event) (f : flow) : flow :=
  match e with
  | Opened _ => no_flow <| balance := balance f + 1 |>
  | FromClient _ b => f <| received := received f + len b |> <| up_in := up_in f ++ b |>
  | Taken _ n forward => f <| up_in := forward ++ zdrop n (up_in f) |>
  | ToUpstream _ b => f <| up_out := up_out f ++ b |>
  | FromUpstream _ b => f <| down_in := down_in f ++ b |>
  | Queued _ b => f <| replies := replies f + len b |> <| down_in := down_in f ++ b |>
  | ToClient _ b => f <| down_out := down_out f ++ b |>
  | ConnectTo _ host port a => f <| target := Some (host, port, a) |>
  | Emitted _ _ _ => f <| balance := balance f - 1 |>
  | Closed _ => f
  end.

Fixpoint flow_of (slot : nat) (t : list event) : flow :=
  match t with
  | [] => no_flow
  | e :: t => if decide (event_slot e = slot) then flow_step e (flow_of slot t) else flow_of slot t
  end.

(** Payload bytes that reached the client: all but the replies, which go
    first. *)
Definition payload_down (f : flow) : Z := Z.max 0 (len (down_out f) - replies f).

(** * Tallies *)

Fixpoint tally {A} (P : A -> bool) (l : list A) : Z :=
  match l with
  | [] => 0
  | x :: l => (if P x then 1 else 0) + tally P l
  end.

Lemma tally_app {A} (P : A -> bool) l r : tally P (l ++ r) = tally P l + tally P r.
Proof. induction l as [|x l IH]; simpl; [done|]. rewrite IH. lia. Qed.

Lemma tally_nonneg {A} (P : A -> bool) l : 0 <= tally P l.
Proof. induction l as [|x l IH]; simpl; [lia|]. destruct (P x); lia. Qed.

Lemma tally_length {A} (P : A -> bool) l : tally P l <= Z.of_nat (length l).
Proof. induction l as [|x l IH]; cbn [tally length]; [done|]. destruct (P x); lia. Qed.

(** Sums. *)
Fixpoint zsum {A} (g : A -> Z) (l : list A) : Z :=
  match l with
  | [] => 0
  | x :: l => g x + zsum g l
  end.

Lemma zsum_app {A} (g : A -> Z) l r : zsum g (l ++ r) = zsum g l + zsum g r.
Proof. induction l as [|x l IH]; simpl; [done|]. rewrite IH. lia. Qed.

Lemma zsum_nonneg {A} (g : A -> Z) l : (forall x, x ∈ l -> 0 <= g x) -> 0 <= zsum g l.
Proof.
  induction l as [|x l IH]; simpl; intros Hg; [lia|].
  pose proof (Hg x (list_elem_of_here _ _)). enough (0 <= zsum g l) by lia. apply IH. intros y Hy. apply Hg. by right.
Qed.

(** All entries but one. *)
Definition others {A} (i : nat) (l : list A) : list A := take i l ++ drop (S i) l.

Lemma others_alter {A} (f : A -> A) i l : others i (alter f i l) = others i l.
Proof. unfold others. by rewrite take_alter_ge, drop_alter_lt by lia. Qed.

Lemma tally_others {A} (P : A -> bool) i l x :
  l !! i = Some x -> tally P l = tally P (others i l) + (if P x then 1 else 0).
Proof.
  intros Hx. rewrite <-(take_drop_middle l i x Hx) at 1. unfold others.
  rewrite !tally_app. simpl. lia.
Qed.

Lemma zsum_others {A} (g : A -> Z) i l x : l !! i = Some x -> zsum g l = zsum g (others i l) + g x.
Proof.
  intros Hx. rewrite <-(take_drop_middle l i x Hx) at 1. unfold others.
  rewrite !zsum_app. simpl. lia.
Qed.

Lemma others_lookup {A} i (l : list A) x : x ∈ others i l <-> exists j, j <> i /\ l !! j = Some x.
Proof.
  unfold others. rewrite elem_of_app. split.
  - intros [(j & Hj)%list_elem_of_lookup|(j & Hj)%list_elem_of_lookup].
    + apply lookup_take_Some in Hj as [Hj Hlt]. exists j. split; [lia|done].
    + rewrite lookup_drop in Hj. exists (S i + j)%nat. split; [lia|done].
  - intros (j & Hne & Hj). destruct (decide (j < i)%nat).
    + left. apply (list_elem_of_lookup_2 _ j). by rewrite lookup_take_lt.
    + right. apply (list_elem_of_lookup_2 _ (j - S i)%nat). rewrite lookup_drop.
      by replace (S i + (j - S i))%nat with j by lia.
Qed.

(** * The invariant of a slot *)

Section Slot.
Context `{Inet} `{Sys}.
Context (cfg : maelys_egress_config) (pols : list maelys_egress_policy).

Definition index_in_range (index : option nat) : option nat :=
  match index with
  | Some i => if Z.of_nat i <? principal_count cfg then Some i else None
  | None => None
  end.

Definition principal_of (p : nat) : egress_principal_t := nth p (principals cfg) zero_principal.

(** The principal a connection counts as active for. *)
Definition admitted_as (c : egress_connection_t) : option nat :=
  if quota_admitted c then index_in_range (principal_index c) else None.

(** What a connection contributes to the counters of the principals: the one
    it is active for, and the one it is charged to with the bytes it used. *)
Record account := Account {
  acc_active : option nat;
  acc_due : option (nat * Z);
}.

#[export] Instance eta_account : Eta account := fun a => Account (acc_active a) (acc_due a).

Definition no_account : account := Account None None.

Definition account_of (c : egress_connection_t) : account :=
  Account (admitted_as c) ((fun p => (p, quota_stream_used c)) <$> admitted_as c).

Lemma account_none c : quota_admitted c = false -> account_of c = no_account.
Proof. intros E. unfold account_of, admitted_as. by rewrite E. Qed.

Definition due (p : nat) (a : account) : Z :=
  match acc_due a with
  | Some (q, n) => if decide (q = p) then n else 0
  | None => 0
  end.

Definition use (p : nat) (c : egress_connection_t) : Z := due p (account_of c).

(** What the receipts of a trace say was charged to a principal. *)
Definition spends (p : nat) (e : event) : Z :=
  match e with
  | Emitted _ (Some q) r => if decide (q = p) then r_quota_connection_observed_bytes r else 0
  | _ => 0
  end.

Definition spent (p : nat) (t : list event) : Z := zsum (spends p) t.

Definition is_receipt (e : event) : bool :=
  match e with Emitted _ _ _ => true | _ => false end.

Lemma spends_none p e : is_receipt e = false -> spends p e = 0.
Proof. by destruct e. Qed.

(** A destination some policy in force has for a host and a port. *)
Definition pinned (host : bytes) (port : Z) (d : egress_destination_t) : Prop :=
  exists p, p ∈ pols /\ egress_policy_find (Some p) host port = Some d.

Definition pinned_address (host : bytes) (port : Z) (a : egress_address_t) : Prop :=
  exists d, pinned host port d /\ a ∈ addresses d.

Definition names_host (f : flow) (host : bytes) : Prop :=
  egress_tls_client_hello_matches (up_in f) host = HelloMatch.

(** Nothing has crossed yet: no byte was sent upstream, and the client was
    sent only replies. *)
Definition uncrossed (f : flow) : Prop := up_out f = [] /\ len (down_in f) = replies f.

(** The address of the upstream is recorded. *)
Definition named (f : flow) (c : egress_connection_t) : Prop :=
  exists a, target f = Some (conn_host c, conn_port c, a) /\
    upstream_address c = address_text a EGRESS_MAX_ADDRESS_TEXT.

(** What holds of every connection in use, even of one that is about to be
    closed. *)
Record base (f : flow) (c : egress_connection_t) : Prop := {
  base_balance : balance f = 1;
  base_from : bytes_from_client c = u64 (received f);
  base_to : bytes_to_client c = u64 (len (down_out f));
  base_host : len (conn_host c) <= EGRESS_MAX_HOST;
  base_address : upstream_address c = [] \/
    exists a, pinned_address (conn_host c) (conn_port c) a /\
      upstream_address c = address_text a EGRESS_MAX_ADDRESS_TEXT;
  base_named : uncrossed f \/ named f c;
  base_sni : tls_sni_verified c = true -> names_host f (conn_host c);
  base_used : 0 <= quota_stream_used c <= UINT64_MAX /\
    (quota_bytes c <> 0 -> quota_stream_used c <= quota_bytes c);
  base_admitted : quota_admitted c = true -> exists p,
    index_in_range (principal_index c) = Some p /\
    quota_bytes c = max_bytes_per_connection (principal_of p) /\
    quota_total_bytes c = max_bytes_total (principal_of p);
}.

Definition buffer_ok (b : egress_buffer_t) : Prop := buffer_wf b /\ capacity b = buffer_bytes cfg.

Definition handshaking (c : egress_connection_t) : Prop :=
  state c = CONNECTION_HANDSHAKE \/ state c = CONNECTION_TLS_HANDSHAKE.

(** A connection that has not made its request. *)
Record fresh (f : flow) (c : egress_connection_t) : Prop := {
  fresh_bytes : Forall is_byte (up_in f);
  fresh_admitted : quota_admitted c = false;
  fresh_destination : destination c = None;
  fresh_address : upstream_address c = [];
  fresh_sni : tls_sni_verified c = false;
  fresh_used : quota_stream_used c = 0;
}.

(** The bytes of a connection: its buffers hold exactly what is still to be
    sent. *)
Record carried (f : flow) (c : egress_connection_t) : Prop := {
  carried_up_ok : buffer_ok (client_to_upstream c);
  carried_down_ok : buffer_ok (upstream_to_client c);
  carried_up : up_in f = up_out f ++ content (client_to_upstream c);
  carried_down : down_in f = down_out f ++ content (upstream_to_client c);
  carried_replies : 0 <= replies f <= len (down_in f);
  carried_exempt : quota_client_exempt_bytes c = Z.max 0 (replies f - len (down_out f));
}.

(** The quota counter is exact. *)
Definition exact_use (f : flow) (c : egress_connection_t) : Prop :=
  quota_admitted c = true ->
  quota_stream_used c = Z.min UINT64_MAX (len (up_in f) + payload_down f).

(** The quota counter of a connection that may be closed: it is exact, unless
    the connection never got as far as being charged. *)
Definition fair (f : flow) (c : egress_connection_t) : Prop :=
  if quota_admitted c
  then quota_stream_used c = Z.min UINT64_MAX (len (up_in f) + payload_down f) \/
       (uncrossed f /\ quota_stream_used c = 0)
  else quota_stream_used c = 0.

Lemma fresh_fair f c : fresh f c -> fair f c.
Proof. intros []. unfold fair. by rewrite fresh_admitted0. Qed.

(** The upstream is an address of the destination. *)
Definition aimed (f : flow) (c : egress_connection_t) : Prop :=
  exists d a, destination c = Some d /\ a ∈ addresses d /\ target f = Some (conn_host c, conn_port c, a).

(** The address that is being tried is the last one connected to. *)
Definition trying (f : flow) (c : egress_connection_t) : Prop :=
  exists d i a, destination c = Some d /\ address_index c = S i /\ addresses d !! i = Some a /\
    target f = Some (conn_host c, conn_port c, a).

Record live (f : flow) (c : egress_connection_t) : Prop := {
  live_carried : carried f c;
  live_uncrossed : state c <> CONNECTION_RELAY -> uncrossed f;
  live_destination : handshaking c \/ exists d, destination c = Some d /\
    (require_tls_sni d = true -> is_tunnel (conn_protocol c) = true);
  live_target : handshaking c \/ aimed f c;
  live_pinned : forall d, destination c = Some d -> pinned (conn_host c) (conn_port c) d;
  live_sni : forall d, state c = CONNECTION_RELAY -> destination c = Some d ->
    require_tls_sni d = true -> tls_sni_verified c = true;
  live_exact : ~ handshaking c \/ close_after_flush c = false -> exact_use f c;
  live_fair : fair f c;
  live_trying : state c = CONNECTION_CONNECTING -> upstream_socket c <> None -> trying f c;
  live_named : ~ handshaking c -> state c <> CONNECTION_CONNECTING -> upstream_socket c <> None -> named f c;
}.

Definition slot_ok (f : flow) (c : egress_connection_t) : Prop :=
  (in_use c = false /\ quota_admitted c = false /\ balance f = 0) \/
  (in_use c = true /\ base f c /\ live f c /\
   (handshaking c -> close_after_flush c = false -> fresh f c)).

(** The totals of the principals. *)
Record totals_ok (tot : list Z) : Prop := {
  totals_length : length tot = Z.to_nat EGRESS_MAX_PRINCIPALS;
  totals_range : forall p, 0 <= counter tot p <= UINT64_MAX;
  totals_bound : forall p, max_bytes_total (principal_of p) <> 0 -> Z.of_nat p < principal_count cfg ->
    counter tot p <= max_bytes_total (principal_of p);
}.

(** ** Receipts and events *)

(** What a receipt says, against the flow of its connection and the principal
    it was charged to. *)
Record receipt_true (f : flow) (payer : option nat) (r : maelys_egress_receipt) : Prop := {
  true_from : r_bytes_from_client r = u64 (received f);
  true_to : r_bytes_to_client r = u64 (len (down_out f));
  true_address : r_upstream_address r = [] \/
    exists a, pinned_address (r_host r) (r_port r) a /\
      r_upstream_address r = address_text a EGRESS_MAX_ADDRESS_TEXT;
  true_named : uncrossed f \/ exists a, target f = Some (r_host r, r_port r, a) /\
    r_upstream_address r = address_text a EGRESS_MAX_ADDRESS_TEXT;
  true_sni : r_tls_sni_verified r = true -> names_host f (r_host r);
  true_quota : r_quota_connection_max_bytes r <> 0 ->
    r_quota_connection_observed_bytes r <= r_quota_connection_max_bytes r;
  true_use : match payer with
    | Some _ => r_quota_connection_observed_bytes r = Z.min UINT64_MAX (len (up_in f) + payload_down f) \/
        (uncrossed f /\ r_quota_connection_observed_bytes r = 0)
    | None => r_quota_connection_observed_bytes r = 0
    end;
}.

(** Connections go to pinned addresses, and what is sent is what comes next;
    upstream bytes go to an address of a destination that a policy has for the
    host, and where that asks for it only behind a ClientHello that names the
    host. *)
Definition event_ok (f : flow) (e : event) : Prop :=
  match e with
  | ConnectTo _ host port a => pinned_address host port a
  | ToUpstream _ b => up_out f ++ b `prefix_of` up_in f /\
      exists host port a d, target f = Some (host, port, a) /\ pinned host port d /\ a ∈ addresses d /\
        (require_tls_sni d = true -> names_host f host)
  | ToClient _ b => down_out f ++ b `prefix_of` down_in f
  | Emitted _ payer r => receipt_true f payer r
  | _ => True
  end.

Fixpoint trace_ok (t : list event) : Prop :=
  match t with
  | [] => True
  | e :: t => event_ok (flow_of (event_slot e) t) e /\ trace_ok t
  end.

(** * Frames *)

(** The part of the state that belongs to one slot: its flow, its connection,
    what it contributes to the number of connections and to the counters of the
    principals; and these counters. *)
Record local := Local {
  l_flow : flow;
  l_conn : egress_connection_t;
  l_count : Z;
  l_account : account;
  l_totals : list Z;
  l_actives : list Z;
}.

#[export] Instance eta_local : Eta local := fun l =>
  Local (l_flow l) (l_conn l) (l_count l) (l_account l) (l_totals l) (l_actives l).

Definition counts_for (p : nat) (c : egress_connection_t) : bool :=
  bool_decide (admitted_as c = Some p).

Record Frame (s : nat) (l : local) (m : machine) : Prop := {
  frame_config : server_config (server m) = cfg;
  frame_policy : server_policy (server m) ∈ pols;
  frame_policies : Forall (fun p => policy_ok p /\ sealed p = true) pols;
  frame_length : length (connections (server m)) = Z.to_nat (max_connections cfg);
  frame_conn : connections (server m) !! s = Some (l_conn l);
  frame_count : connection_count (server m) = tally in_use (others s (connections (server m))) + l_count l;
  frame_actives : principal_active (server m) = l_actives l;
  frame_active_length : length (l_actives l) = Z.to_nat EGRESS_MAX_PRINCIPALS;
  frame_active : forall p, Z.of_nat p < principal_count cfg ->
    counter (l_actives l) p =
    tally (counts_for p) (others s (connections (server m))) +
    (if bool_decide (acc_active (l_account l) = Some p) then 1 else 0);
  frame_active_bound : forall p, Z.of_nat p < principal_count cfg ->
    max_active_connections (principal_of p) <> 0 ->
    counter (l_actives l) p <= max_active_connections (principal_of p);
  frame_totals : principal_bytes_total (server m) = l_totals l;
  frame_paid : forall p, Z.of_nat p < principal_count cfg ->
    counter (l_totals l) p = Z.min UINT64_MAX
      (spent p (trace m) + zsum (use p) (others s (connections (server m))) + due p (l_account l));
  frame_flow : flow_of s (trace m) = l_flow l;
  frame_others : forall i c, i <> s -> connections (server m) !! i = Some c ->
    slot_ok (flow_of i (trace m)) c;
  frame_trace : trace_ok (trace m);
}.

Definition local_ok (l : local) : Prop :=
  slot_ok (l_flow l) (l_conn l) /\ totals_ok (l_totals l) /\
  l_count l = (if in_use (l_conn l) then 1 else 0) /\ l_account l = account_of (l_conn l).

(** What the others and the past have charged is not negative. *)
Lemma use_nonneg p f c : slot_ok f c -> 0 <= use p c.
Proof.
  intros Hs. unfold use. destruct Hs as [(_ & Hq & _)|(_ & [] & _)]; [by rewrite account_none|].
  unfold due, account_of. cbn. destruct (admitted_as c); cbn; [|lia]. destruct (decide _); lia.
Qed.

Lemma spent_nonneg p t : trace_ok t -> 0 <= spent p t.
Proof.
  unfold spent. induction t as [|e t IH]; cbn [trace_ok zsum]; [done|]. intros [He Ht]. specialize (IH Ht).
  enough (0 <= spends p e) by lia. destruct e as [| | | | | | | |s [q|] r|]; cbn; try lia. destruct (decide _); [|lia].
  destruct He. cbn in *. pose proof (len_nonneg (up_in (flow_of s t))). unfold payload_down, UINT64_MAX in *. lia.
Qed.

Lemma frame_rest s l m p : Frame s l m -> 0 <= spent p (trace m) + zsum (use p) (others s (connections (server m))).
Proof.
  intros []. pose proof (spent_nonneg p _ frame_trace0).
  enough (0 <= zsum (use p) (others s (connections (server m)))) by lia.
  apply zsum_nonneg. intros c (j & Hj & Hc)%others_lookup. eapply use_nonneg; eauto.
Qed.

(** ** The invariant of the server *)

Record Inv (m : machine) : Prop := {
  inv_config : server_config (server m) = cfg;
  inv_policy : server_policy (server m) ∈ pols;
  inv_policies : Forall (fun p => policy_ok p /\ sealed p = true) pols;
  inv_length : length (connections (server m)) = Z.to_nat (max_connections cfg);
  inv_count : connection_count (server m) = tally in_use (connections (server m));
  inv_active_length : length (principal_active (server m)) = Z.to_nat EGRESS_MAX_PRINCIPALS;
  inv_active : forall p, Z.of_nat p < principal_count cfg ->
    counter (principal_active (server m)) p = tally (counts_for p) (connections (server m));
  inv_active_bound : forall p, Z.of_nat p < principal_count cfg ->
    max_active_connections (principal_of p) <> 0 ->
    counter (principal_active (server m)) p <= max_active_connections (principal_of p);
  inv_totals : totals_ok (principal_bytes_total (server m));
  inv_paid : forall p, Z.of_nat p < principal_count cfg ->
    counter (principal_bytes_total (server m)) p =
    Z.min UINT64_MAX (spent p (trace m) + zsum (use p) (connections (server m)));
  inv_slots : forall i c, connections (server m) !! i = Some c -> slot_ok (flow_of i (trace m)) c;
  inv_trace : trace_ok (trace m);
}.

Lemma inv_frame s m :
  Inv m -> (s < Z.to_nat (max_connections cfg))%nat -> exists l, Frame s l m /\ local_ok l.
Proof.
  intros [] Hs. rewrite <-inv_length0 in Hs. apply lookup_lt_is_Some in Hs as [c Hc].
  exists (Local (flow_of s (trace m)) c (if in_use c then 1 else 0) (account_of c)
            (principal_bytes_total (server m)) (principal_active (server m))).
  split; [|by split_and!; cbn; auto]. constructor; cbn; auto.
  - rewrite inv_count0. by apply tally_others.
  - intros p Hp. rewrite inv_active0 by done. by apply (tally_others (counts_for p)).
  - intros p Hp. rewrite inv_paid0, (zsum_others (use p) _ _ _ Hc) by done. unfold use. f_equal. lia.
Qed.

Lemma frame_inv s l m : Frame s l m -> local_ok l -> Inv m.
Proof.
  intros [] (H1 & H2 & H3 & H4). constructor; rewrite ?frame_actives0; auto.
  - rewrite frame_count0, (tally_others _ _ _ _ frame_conn0), H3. done.
  - intros p Hp. rewrite frame_active0, (tally_others _ _ _ _ frame_conn0), H4 by done. done.
  - by rewrite frame_totals0.
  - intros p Hp. rewrite frame_totals0, frame_paid0, (zsum_others (use p) _ _ _ frame_conn0) by done.
    unfold use. rewrite H4. f_equal. lia.
  - intros i c Hi. destruct (decide (i = s)) as [->|]; [|by eauto].
    rewrite frame_flow0. congruence.
Qed.

(** * Weakest preconditions *)

Definition wp {A} (p : M A) (Q : A -> machine -> Prop) (m : machine) : Prop := Q (p m).1 (p m).2.

Lemma wp_bind {A B} (x : M A) (k : A -> M B) Q m :
  wp x (fun a => wp (k a) Q) m -> wp (x ≫= k) Q m.
Proof. unfold wp, mbind, M_bind. by destruct (x m). Qed.

Lemma wp_ret {A} (a : A) (Q : A -> machine -> Prop) m : Q a m -> wp (mret a) Q m.
Proof. done. Qed.

Lemma wp_mono {A} (p : M A) (Q Q' : A -> machine -> Prop) m :
  wp p Q m -> (forall a m', Q a m' -> Q' a m') -> wp p Q' m.
Proof. unfold wp. auto. Qed.

(** A program that leaves every frame as it is. *)
Definition quiet {A} (p : M A) : Prop :=
  forall s l m (Q : A -> machine -> Prop), Frame s l m ->
  (forall a m', Frame s l m' -> Q a m') -> wp p Q m.

Lemma quiet_bind {A B} (x : M A) (k : A -> M B) :
  quiet x -> (forall a, quiet (k a)) -> quiet (x ≫= k).
Proof.
  intros Hx Hk s l m Q Hf HQ. apply wp_bind. eapply Hx; [done|]. intros a m' Hf'.
  by eapply Hk.
Qed.

Lemma quiet_ret {A} (a : A) : quiet (mret a).
Proof. intros s l m Q Hf HQ. apply wp_ret. auto. Qed.

(** The fields a frame reads. *)
Definition same_view (m m' : machine) : Prop :=
  server_config (server m') = server_config (server m) /\
  server_policy (server m') = server_policy (server m) /\
  connections (server m') = connections (server m) /\
  connection_count (server m') = connection_count (server m) /\
  principal_active (server m') = principal_active (server m) /\
  principal_bytes_total (server m') = principal_bytes_total (server m) /\
  trace m' = trace m.

Lemma same_view_frame s l m m' : same_view m m' -> Frame s l m -> Frame s l m'.
Proof.
  intros (E1 & E2 & E3 & E4 & E5 & E6 & E7) []. constructor;
    rewrite ?E1, ?E2, ?E3, ?E4, ?E5, ?E6, ?E7; auto.
Qed.

Lemma quiet_same {A} (p : M A) : (forall m, same_view m (p m).2) -> quiet p.
Proof. intros Hp s l m Q Hf HQ. apply HQ. eapply same_view_frame; eauto. Qed.

Lemma quiet_call {A} (f : world -> A * world) : quiet (call f).
Proof. apply quiet_same. intros m. unfold call. destruct (f _). by repeat split. Qed.

Lemma quiet_get_server : quiet get_server.
Proof. by apply quiet_same. Qed.
Lemma quiet_get_config : quiet get_config.
Proof. by apply quiet_same. Qed.
Lemma quiet_get_conn slot : quiet (get_conn slot).
Proof. by apply quiet_same. Qed.
Lemma quiet_get_command id : quiet (get_command id).
Proof. by apply quiet_same. Qed.
Lemma quiet_set_command id f : quiet (set_command id f).
Proof. by apply quiet_same. Qed.
Lemma quiet_count_metric f : quiet (count_metric f).
Proof. by apply quiet_same. Qed.
Lemma quiet_with_audit f : quiet (with_audit f).
Proof. apply quiet_same. intros m. unfold with_audit. destruct (f _ _) as [[??]?]. by repeat split. Qed.
Lemma quiet_when b p : quiet p -> quiet (when b p).
Proof. unfold when. destruct b; [done|]. intros. apply quiet_ret. Qed.

Lemma wp_quiet {A} (p : M A) s l m (Q : A -> machine -> Prop) :
  quiet p -> Frame s l m -> (forall x m', Frame s l m' -> Q x m') -> wp p Q m.
Proof. intros Hp. apply Hp. Qed.

(** ** The slot of a frame *)

Lemma wp_get_conn s l m (Q : egress_connection_t -> machine -> Prop) :
  Frame s l m -> Q (l_conn l) m -> wp (get_conn s) Q m.
Proof.
  intros Hf HQ. unfold wp, get_conn. cbn.
  by rewrite (nth_lookup_Some _ _ _ _ (frame_conn _ _ _ Hf)).
Qed.

Lemma wp_get_server s l m (Q : maelys_egress_server -> machine -> Prop) :
  Frame s l m -> Q (server m) m -> wp get_server Q m.
Proof. done. Qed.

Lemma wp_get_config s l m (Q : maelys_egress_config -> machine -> Prop) :
  Frame s l m -> Q cfg m -> wp get_config Q m.
Proof. intros Hf HQ. unfold wp, get_config. cbn. by rewrite (frame_config _ _ _ Hf). Qed.

Lemma wp_call {A} s l m (g : world -> A * world) (Q : A -> machine -> Prop) :
  Frame s l m -> (forall w m', Frame s l m' -> Q (g w).1 m') -> wp (call g) Q m.
Proof.
  intros Hf HQ. pose proof (quiet_call g s l m (fun a m' => a = (g (the_world m)).1 -> Q a m') Hf) as Hq.
  unfold wp in *. apply Hq; [intros a m' Hm ->; by apply HQ|]. unfold call. by destruct (g _).
Qed.

Lemma wp_set_conn s f c k a t v m g (Q : unit -> machine -> Prop) :
  Frame s (Local f c k a t v) m ->
  (forall m', Frame s (Local f (g c) k a t v) m' -> Q tt m') -> wp (set_conn s g) Q m.
Proof.
  intros [] HQ. apply HQ. cbn in *. constructor; cbn; rewrite ?others_alter; auto.
  - by rewrite length_alter.
  - rewrite list_lookup_alter_eq. by rewrite frame_conn0.
  - intros i c' Hi Hc. apply frame_others0; [done|]. by rewrite list_lookup_alter_ne in Hc.
Qed.

Lemma wp_note s f c k a t v m e (Q : unit -> machine -> Prop) :
  Frame s (Local f c k a t v) m -> event_slot e = s /\ is_receipt e = false -> event_ok f e ->
  (forall m', Frame s (Local (flow_step e f) c k a t v) m' -> Q tt m') -> wp (note e) Q m.
Proof.
  intros [] [He Hr] Hok HQ. apply HQ. cbn in *. constructor; cbn; auto.
  - intros p Hp. rewrite spends_none by done. by apply frame_paid0.
  - rewrite decide_True by done. by rewrite frame_flow0.
  - intros i c' Hi Hc. rewrite decide_False by congruence. by apply frame_others0.
  - split; [|done]. by rewrite He, frame_flow0.
Qed.

(** A receipt takes over what its slot owes. *)
Lemma wp_note_receipt s f c k a p r t v m (Q : unit -> machine -> Prop) :
  Frame s (Local f c k (Account a ((fun q => (q, r_quota_connection_observed_bytes r)) <$> p)) t v) m ->
  receipt_true f p r ->
  (forall m', Frame s (Local (f <| balance := balance f - 1 |>) c k (Account a None) t v) m' -> Q tt m') ->
  wp (note (Emitted s p r)) Q m.
Proof.
  intros [] Hok HQ. apply HQ. cbn in *. constructor; cbn; auto.
  - intros q Hq. rewrite frame_paid0 by done. unfold due, spent. f_equal. destruct p; cbn; lia.
  - rewrite decide_True by done. by rewrite frame_flow0.
  - intros i c' Hi Hc. rewrite decide_False by congruence. by apply frame_others0.
  - split; [|done]. by rewrite frame_flow0.
Qed.

(** ** Soft changes *)

Definition buffer_eqv (b b' : egress_buffer_t) : Prop :=
  buffer_wf b -> buffer_wf b' /\ content b' = content b /\ capacity b' = capacity b.

(** A change of a connection the invariant does not see. *)
Record soft (c c' : egress_connection_t) : Prop := {
  soft_state : state c' = state c;
  soft_flush : close_after_flush c' = close_after_flush c;
  soft_destination : destination c' = destination c;
  soft_address : upstream_address c' = upstream_address c;
  soft_protocol : conn_protocol c' = conn_protocol c;
  soft_host : conn_host c' = conn_host c;
  soft_port : conn_port c' = conn_port c;
  soft_index : principal_index c' = principal_index c;
  soft_bytes : quota_bytes c' = quota_bytes c;
  soft_total : quota_total_bytes c' = quota_total_bytes c;
  soft_used : quota_stream_used c' = quota_stream_used c;
  soft_exempt : quota_client_exempt_bytes c' = quota_client_exempt_bytes c;
  soft_admitted : quota_admitted c' = quota_admitted c;
  soft_from : bytes_from_client c' = bytes_from_client c;
  soft_to : bytes_to_client c' = bytes_to_client c;
  soft_sni : tls_sni_verified c' = tls_sni_verified c;
  soft_up : buffer_eqv (client_to_upstream c) (client_to_upstream c');
  soft_down : buffer_eqv (upstream_to_client c) (upstream_to_client c');
  soft_socket : upstream_socket c' = None \/
    (upstream_socket c' = upstream_socket c /\ address_index c' = address_index c);
}.

#[export] Instance buffer_eqv_preorder : PreOrder buffer_eqv.
Proof.
  split; [done|]. intros a b c H1 H2 Ha. destruct (H1 Ha) as (Hb & E1 & E2).
  destruct (H2 Hb) as (Hc & E3 & E4). split_and!; congruence.
Qed.

#[export] Instance soft_preorder : PreOrder soft.
Proof.
  split; [intros c; constructor; auto; reflexivity|]. intros a b c [] []. constructor; try congruence; try by etransitivity.
  destruct soft_socket0 as [E|[E1 E2]], soft_socket1 as [E'|[E1' E2']]; auto; [left|right; split]; congruence.
Qed.

Lemma soft_trans a b c : soft a b -> soft b c -> soft a c.
Proof. apply soft_preorder. Qed.

Lemma soft_in_use c c' : soft c c' -> in_use c' = in_use c.
Proof. intros []. unfold in_use. by rewrite soft_state0. Qed.

Lemma soft_admitted_as c c' : soft c c' -> admitted_as c' = admitted_as c.
Proof. intros []. unfold admitted_as. by rewrite soft_admitted0, soft_index0. Qed.

Lemma soft_account c c' : soft c c' -> account_of c' = account_of c.
Proof. intros Hs. unfold account_of. by rewrite (soft_admitted_as _ _ Hs), (soft_used _ _ Hs). Qed.

Lemma soft_named f c c' : soft c c' -> named f c -> named f c'.
Proof. intros []. unfold named. by rewrite soft_host0, soft_port0, soft_address0. Qed.

Lemma soft_fair f c c' : soft c c' -> fair f c -> fair f c'.
Proof. intros []. unfold fair. by rewrite soft_admitted0, soft_used0. Qed.

(** A socket that is kept comes with its address. *)
Lemma soft_kept c c' :
  soft c c' -> upstream_socket c' <> None -> upstream_socket c <> None /\ address_index c' = address_index c.
Proof. intros [] Hn. destruct soft_socket0 as [|[E1 E2]]; [done|]. by rewrite <-E1. Qed.

Lemma soft_trying f c c' : soft c c' -> upstream_socket c' <> None -> trying f c -> trying f c'.
Proof.
  intros Hs Hn. destruct (soft_kept _ _ Hs Hn) as [_ E]. destruct Hs. unfold trying.
  by rewrite soft_destination0, soft_host0, soft_port0, E.
Qed.

Lemma soft_base f c c' : soft c c' -> base f c -> base f c'.
Proof.
  intros Hs []. pose proof (soft_named f _ _ Hs) as Hn.
  destruct Hs. constructor; rewrite ?soft_from0, ?soft_to0, ?soft_host0, ?soft_port0, ?soft_address0,
    ?soft_sni0, ?soft_used0, ?soft_bytes0, ?soft_admitted0, ?soft_index0, ?soft_total0; auto.
  destruct base_named0; auto.
Qed.

Lemma buffer_eqv_ok b b' : buffer_eqv b b' -> buffer_ok b -> buffer_ok b' /\ content b' = content b.
Proof. intros He [Hw Hc]. destruct (He Hw) as (? & ? & Hc'). split; [split; [done|]|done]. by rewrite Hc'. Qed.

Lemma soft_handshaking c c' : soft c c' -> handshaking c' <-> handshaking c.
Proof. intros []. unfold handshaking. by rewrite soft_state0. Qed.

Lemma soft_carried f c c' : soft c c' -> carried f c -> carried f c'.
Proof.
  intros [] []. destruct (buffer_eqv_ok _ _ soft_up0 carried_up_ok0) as [? E1].
  destruct (buffer_eqv_ok _ _ soft_down0 carried_down_ok0) as [? E2].
  constructor; rewrite ?E1, ?E2; auto; congruence.
Qed.

Lemma soft_live f c c' : soft c c' -> live f c -> live f c'.
Proof.
  intros Hs []. pose proof (soft_carried _ _ _ Hs live_carried0). pose proof (soft_handshaking _ _ Hs) as Hh.
  pose proof (soft_fair f _ _ Hs live_fair0). pose proof (soft_kept _ _ Hs) as Hk. pose proof (soft_named f _ _ Hs) as Hn.
  pose proof (soft_trying f _ _ Hs) as Hy.
  destruct Hs. constructor; unfold exact_use, aimed in *; rewrite ?Hh, ?soft_state0, ?soft_destination0, ?soft_protocol0,
    ?soft_host0, ?soft_port0, ?soft_sni0, ?soft_flush0, ?soft_admitted0, ?soft_used0; auto.
  - intros Hst Hne. apply Hy, live_trying0; auto. by apply Hk.
  - intros Hnh Hst Hne. apply Hn, live_named0; auto. by apply Hk.
Qed.

Lemma soft_fresh f c c' : soft c c' -> fresh f c -> fresh f c'.
Proof. intros [] []. constructor; congruence. Qed.

Lemma soft_slot_ok f c c' : soft c c' -> slot_ok f c -> slot_ok f c'.
Proof.
  intros Hs [(H1 & H2 & H3)|(H1 & H2 & H3 & H4)]; [left|right]; rewrite (soft_in_use _ _ Hs).
  - split_and!; [done| |done]. by rewrite (soft_admitted _ _ Hs).
  - split_and!; eauto using soft_base, soft_live. rewrite (soft_handshaking _ _ Hs), (soft_flush _ _ Hs).
    eauto using soft_fresh.
Qed.

Lemma soft_local_ok f c c' k a t v :
  soft c c' -> local_ok (Local f c k a t v) -> local_ok (Local f c' k a t v).
Proof.
  intros Hs (H1 & H2 & H3 & H4). cbn in *. unfold local_ok. cbn.
  rewrite (soft_in_use _ _ Hs), (soft_account _ _ Hs). split_and!; try done. by eapply soft_slot_ok.
Qed.

(** A program that changes one slot, and it softly. *)
Definition softly {A} (s : nat) (p : M A) : Prop :=
  forall f c k a t v m (Q : A -> machine -> Prop), Frame s (Local f c k a t v) m ->
  (forall x m' c', soft c c' -> Frame s (Local f c' k a t v) m' -> Q x m') -> wp p Q m.

Lemma softly_quiet {A} s (p : M A) : quiet p -> softly s p.
Proof. intros Hp f c k a t v m Q Hf HQ. eapply Hp; [done|]. intros x m' Hm. eapply HQ; [reflexivity|done]. Qed.

Lemma softly_bind {A B} s (x : M A) (g : A -> M B) :
  softly s x -> (forall a, softly s (g a)) -> softly s (x ≫= g).
Proof.
  intros Hx Hg f c k a t v m Q Hf HQ. apply wp_bind. eapply Hx; [done|]. intros y m' c' Hc Hf'.
  eapply Hg; [done|]. intros z m'' c'' Hc' Hf''. eapply HQ; [|done]. by etransitivity.
Qed.

Lemma softly_set_conn s g : (forall c, soft c (g c)) -> softly s (set_conn s g).
Proof. intros Hg f c k a t v m Q Hf HQ. eapply wp_set_conn; [done|]. intros m' Hm. eapply HQ; [apply Hg|done]. Qed.

Lemma wp_softly {A} (p : M A) s f c k a t v m (Q : A -> machine -> Prop) :
  softly s p -> Frame s (Local f c k a t v) m ->
  (forall x m' c', soft c c' -> Frame s (Local f c' k a t v) m' -> Q x m') -> wp p Q m.
Proof. intros Hp. apply Hp. Qed.

Lemma softly_when s b p : softly s p -> softly s (when b p).
Proof. unfold when. destruct b; [done|]. intros. apply softly_quiet, quiet_ret. Qed.

End Slot.

Create HintDb quiet discriminated.
Create HintDb softly discriminated.
#[export] Hint Resolve quiet_ret quiet_call quiet_get_server quiet_get_config quiet_get_conn
  quiet_get_command quiet_set_command quiet_count_metric quiet_with_audit quiet_when : quiet.

(** An update of fields a frame does not read. *)
#[export] Hint Extern 2 (quiet _ _ (set_server _)) =>
  (apply quiet_same; intros ?; repeat split; reflexivity) : quiet.

(** Closes a goal [quiet p] by the structure of [p]. *)
Ltac solve_quiet :=
  repeat first
    [ solve [auto 2 with quiet nocore]
    | apply quiet_when
    | apply quiet_bind; [|intros]
    | match goal with |- context [match ?x with _ => _ end] => destruct x end ].

(** A soft change by computation. *)
Ltac solve_soft := intros; constructor; try reflexivity; try done; try (by left); try (by right).

(** Closes a goal [softly s p] by the structure of [p]. *)
Ltac solve_softly :=
  repeat first
    [ solve [auto 2 with softly nocore]
    | apply softly_quiet; solve [solve_quiet]
    | apply softly_set_conn; solve [solve_soft]
    | apply softly_when
    | apply softly_bind; [|intros]
    | match goal with |- context [match ?x with _ => _ end] => destruct x end ].

(** Execution steps: a new frame replaces the old one. *)
Ltac frame_step lem :=
  lazymatch goal with
  | HF : Frame _ _ _ _ ?m |- wp _ _ ?m =>
      first [eapply lem; [exact HF|..] | eapply lem; [eassumption|exact HF|..]]
  end.

Ltac next :=
  lazymatch goal with
  | HF : Frame _ _ _ _ ?m |- forall _, Frame _ _ _ _ _ -> _ => clear dependent m; intros m HF
  end.

Ltac quiet_step :=
  lazymatch goal with
  | HF : Frame _ _ _ _ ?m |- wp _ _ ?m =>
      eapply wp_quiet; [solve [solve_quiet]|exact HF|clear dependent m]; intros ? m HF
  end.

Ltac soft_step :=
  lazymatch goal with
  | HF : Frame _ _ _ (Local _ ?c _ _ _ _) ?m |- wp _ _ ?m =>
      let c' := fresh "c" in let Hs := fresh "Hsoft" in
      eapply wp_softly; [solve [solve_softly]|exact HF|clear dependent m]; intros ? m c' Hs HF;
      try match goal with
      | H1 : soft ?c0 c |- _ => pose proof (soft_trans _ _ _ H1 Hs); clear H1 Hs; try clear c
      end
  end.

(** One step by the shape of the program. *)
Ltac step :=
  lazymatch goal with
  | |- wp (mbind _ _) _ _ => apply wp_bind
  | |- wp (mret _) _ _ => apply wp_ret
  | HF : Frame _ _ _ _ ?m |- wp (get_conn _) _ ?m => eapply wp_get_conn; [exact HF|]; cbn [l_conn]
  | HF : Frame _ _ _ _ ?m |- wp get_config _ ?m => eapply wp_get_config; [exact HF|]
  | HF : Frame _ _ _ _ ?m |- wp get_server _ ?m => eapply wp_get_server; [exact HF|]
  | HF : Frame _ _ _ _ ?m |- wp (set_conn _ _) _ ?m =>
      eapply wp_set_conn; [exact HF|clear dependent m]; intros m HF
  end.
