(* ===== verification/ConnectionFacts.v ===== *)
(** How the programs of Connection.v change the slot they work on. *)

From S2P Require Import Prelude Common Codec Sha256 Config Policy Http Socks ClientHello.
From S2P Require Import Receipt Journal Buffer Server Connection Invariant.

Section Facts.
Context `{Inet} `{SysLaws}.
Context (cfg : maelys_egress_config) (pols : list maelys_egress_policy).
Context (Hcfg : config_ok cfg).

Local Abbreviation Frame := (Frame cfg pols).
Local Abbreviation base := (base cfg pols).
Local Abbreviation live := (live cfg pols).
Local Abbreviation slot_ok := (slot_ok cfg pols).
Local Abbreviation quiet := (quiet cfg pols).
Local Abbreviation softly := (softly cfg pols).

(** * Quiet programs *)

Lemma quiet_monotonic_now : quiet monotonic_now.
Proof. apply quiet_call. Qed.
Lemma quiet_wall_now : quiet wall_now.
Proof. apply quiet_call. Qed.
Hint Resolve quiet_monotonic_now quiet_wall_now : quiet.

Lemma quiet_socket_release h : quiet (socket_release h).
Proof. unfold socket_release. solve_quiet. Qed.
Hint Resolve quiet_socket_release : quiet.

Lemma quiet_open_command_release id : quiet (open_command_release id).
Proof. unfold open_command_release. solve_quiet. Qed.
Hint Resolve quiet_open_command_release : quiet.

Lemma quiet_open_command_complete id r : quiet (egress_open_command_complete id r).
Proof. unfold egress_open_command_complete. solve_quiet. Qed.
Hint Resolve quiet_open_command_complete : quiet.

Lemma quiet_count_audit_failure : quiet count_audit_failure.
Proof. apply quiet_count_metric. Qed.
Hint Resolve quiet_count_audit_failure : quiet.

Lemma quiet_attest_receipt att r : quiet (attest_receipt att r).
Proof. unfold attest_receipt. solve_quiet. Qed.
Lemma quiet_append_to_audit r : quiet (append_to_audit r).
Proof. unfold append_to_audit. solve_quiet. Qed.
Lemma quiet_watch_or_modify fd i t w : quiet (watch_or_modify fd i t w).
Proof. unfold watch_or_modify. solve_quiet. Qed.
Lemma quiet_quota_allowance slot : quiet (quota_allowance slot).
Proof. unfold quota_allowance. solve_quiet. Qed.
Hint Resolve quiet_attest_receipt quiet_append_to_audit quiet_watch_or_modify
  quiet_quota_allowance : quiet.

(** * Soft programs *)

Lemma softly_release_client slot : softly slot (release_client slot).
Proof. unfold release_client. solve_softly. Qed.
Lemma softly_release_upstream slot : softly slot (release_upstream slot).
Proof. unfold release_upstream. solve_softly. Qed.
Lemma softly_quota_deny slot scope : softly slot (egress_quota_deny slot scope).
Proof. unfold egress_quota_deny. solve_softly. Qed.
Hint Resolve softly_release_client softly_release_upstream softly_quota_deny : softly.

Lemma available_eqv b : buffer_eqv b (buffer_available b).2.
Proof.
  intros Hb. destruct (buffer_available b) as [room b'] eqn:E.
  destruct (available_spec _ _ _ Hb E) as (? & ? & ? & _). done.
Qed.

Lemma softly_client_room slot : softly slot (client_room slot).
Proof.
  intros f c k a t v m Q HF HQ. unfold client_room. do 2 step.
  pose proof (available_eqv (client_to_upstream c)) as Ha.
  destruct (buffer_available (client_to_upstream c)) as [room b]. do 3 step.
  eapply HQ; [|exact HF]. solve_soft.
Qed.

Lemma softly_upstream_room slot : softly slot (upstream_room slot).
Proof.
  intros f c k a t v m Q HF HQ. unfold upstream_room. do 2 step.
  pose proof (available_eqv (upstream_to_client c)) as Ha.
  destruct (buffer_available (upstream_to_client c)) as [room b]. do 3 step.
  eapply HQ; [|exact HF]. solve_soft.
Qed.
Hint Resolve softly_client_room softly_upstream_room : softly.

Lemma softly_client_interests slot : softly slot (client_interests slot).
Proof. unfold client_interests. solve_softly. Qed.
Lemma softly_upstream_interests slot : softly slot (upstream_interests slot).
Proof. unfold upstream_interests. solve_softly. Qed.
Lemma softly_update_client_watch slot i : softly slot (update_client_watch slot i).
Proof. unfold update_client_watch. solve_softly. Qed.
Lemma softly_update_upstream_watch slot i : softly slot (update_upstream_watch slot i).
Proof. unfold update_upstream_watch. solve_softly. Qed.
Hint Resolve softly_client_interests softly_upstream_interests softly_update_client_watch
  softly_update_upstream_watch : softly.

Lemma softly_update_watches slot : softly slot (egress_connection_update_watches slot).
Proof. unfold egress_connection_update_watches. solve_softly. Qed.
Hint Resolve softly_update_watches : softly.

(** * Counters *)

Set Default Proof Using "Type*".

Lemma principal_in_range_cfg sv index :
  server_config sv = cfg -> principal_in_range sv index = index_in_range cfg index.
Proof. intros <-. done. Qed.

Lemma index_in_range_Some index p :
  index_in_range cfg index = Some p -> index = Some p /\ Z.of_nat p < principal_count cfg.
Proof.
  destruct index as [i|]; [|done]. simpl. destruct (Z.ltb_spec (Z.of_nat i) (principal_count cfg)); [|done].
  by intros [= ->].
Qed.

Lemma counter_alter g l p q :
  (p < length l)%nat -> counter (alter g p l) q = if decide (q = p) then g (counter l p) else counter l q.
Proof.
  intros Hp. unfold counter. rewrite !nth_lookup. destruct (decide (q = p)) as [->|Hq].
  - rewrite list_lookup_alter_eq. apply lookup_lt_is_Some in Hp as [x ->]. done.
  - by rewrite list_lookup_alter_ne.
Qed.

Lemma in_range_length p {A} (l : list A) :
  Z.of_nat p < principal_count cfg -> length l = Z.to_nat EGRESS_MAX_PRINCIPALS -> (p < length l)%nat.
Proof. intros Hp ->. pose proof (ok_count _ Hcfg). unfold EGRESS_MAX_PRINCIPALS in *. lia. Qed.

(** The slot stops to count for its principal. *)
Lemma wp_deactivate s f c k p n t v m (Q : unit -> machine -> Prop) :
  Frame s (Local f c k (Account (Some p) n) t v) m -> Z.of_nat p < principal_count cfg ->
  (forall m', Frame s (Local f c k (Account None n) t (alter (fun n => if n =? 0 then n else n - 1) p v)) m' -> Q tt m') ->
  wp (set_server (fun s => s <| principal_active :=
    alter (fun n => if n =? 0 then n else n - 1) p (principal_active s) |>)) Q m.
Proof.
  intros HF Hp HQ. apply HQ. pose proof (in_range_length p _ Hp (frame_active_length _ _ _ _ _ HF)) as Hl.
  destruct HF. cbn in *. pose proof (frame_active p Hp) as E. rewrite bool_decide_true in E by done.
  pose proof (tally_nonneg (counts_for cfg p) (others s (connections (server m)))) as Hn.
  constructor; cbn; auto.
  - by rewrite frame_actives.
  - by rewrite length_alter.
  - intros q Hq. rewrite counter_alter by done. rewrite bool_decide_false by done.
    destruct (decide (q = p)) as [->|Hne].
    + rewrite E. case_match; lia.
    + rewrite frame_active by done. rewrite bool_decide_false by congruence. lia.
  - intros q Hq Hm. rewrite counter_alter by done. specialize (frame_active_bound q Hq Hm).
    destruct (decide (q = p)) as [->|]; [|done]. destruct (_ =? 0); lia.
Qed.

(** The slot starts to count for a principal. *)
Lemma wp_activate s f c k p t v m (Q : unit -> machine -> Prop) :
  Frame s (Local f c k no_account t v) m -> Z.of_nat p < principal_count cfg ->
  (max_active_connections (principal_of cfg p) <> 0 ->
   counter v p < max_active_connections (principal_of cfg p)) ->
  (forall m', Frame s (Local f c k (Account (Some p) (Some (p, 0))) t (alter (fun n => n + 1) p v)) m' -> Q tt m') ->
  wp (set_server (fun s => s <| principal_active := alter (fun n => n + 1) p (principal_active s) |>)) Q m.
Proof.
  intros HF Hp Hb HQ. apply HQ. pose proof (in_range_length p _ Hp (frame_active_length _ _ _ _ _ HF)) as Hl.
  destruct HF. cbn in *. constructor; cbn; auto.
  - by rewrite frame_actives.
  - by rewrite length_alter.
  - intros q Hq. rewrite counter_alter by done. destruct (decide (q = p)) as [->|Hne].
    + rewrite frame_active by done. rewrite bool_decide_false, bool_decide_true by done. lia.
    + rewrite frame_active by done. by rewrite !bool_decide_false by congruence.
  - intros q Hq Hm. rewrite counter_alter by done. destruct (decide (q = p)) as [->|]; [|auto].
    specialize (Hb Hm). lia.
  - intros q Hq. rewrite frame_paid by done. unfold due. cbn. by destruct (decide (p = q)).
Qed.

Lemma wp_uncount s f c a t v m (Q : unit -> machine -> Prop) :
  Frame s (Local f c 1 a t v) m -> (forall m', Frame s (Local f c 0 a t v) m' -> Q tt m') ->
  wp (set_server (fun s => if connection_count s =? 0 then s
                           else s <| connection_count := connection_count s - 1 |>)) Q m.
Proof.
  intros [] HQ. apply HQ. cbn in *.
  pose proof (tally_nonneg in_use (others s (connections (server m)))).
  destruct (Z.eqb_spec (connection_count (server m)) 0); [lia|].
  constructor; cbn; auto. lia.
Qed.

Lemma wp_count s f c k a t v m (Q : unit -> machine -> Prop) :
  Frame s (Local f c k a t v) m -> (forall m', Frame s (Local f c (k + 1) a t v) m' -> Q tt m') ->
  wp (set_server (fun s => s <| connection_count := connection_count s + 1 |>)) Q m.
Proof. intros [] HQ. apply HQ. cbn in *. constructor; cbn; auto. lia. Qed.

(** * Receipts and closing *)

Lemma address_text_len a n : 0 < n -> len (address_text a n) < n.
Proof.
  intros Hn. unfold address_text. destruct (numeric_address a) as [t|]; [|by rewrite len_nil].
  destruct (Z.ltb_spec (len t) n); [done|by rewrite len_nil].
Qed.

Lemma connection_receipt_true sv f c now :
  server_config sv = cfg -> base f c -> fair f c ->
  receipt_true pols f (charged_to sv c) (connection_receipt sv c now).
Proof.
  intros Hsv [] Hf. assert (Eh : snprintf_s (EGRESS_MAX_HOST + 1) (conn_host c) = conn_host c)
    by (apply snprintf_s_id; lia).
  assert (Ea : snprintf_s EGRESS_MAX_ADDRESS_TEXT (upstream_address c) = upstream_address c).
  { apply snprintf_s_id. destruct base_address as [->|(x & _ & ->)]; [by rewrite len_nil|].
    by apply address_text_len. }
  constructor; cbn [connection_receipt r_bytes_from_client r_bytes_to_client r_upstream_address r_host
    r_port r_tls_sni_verified r_quota_connection_max_bytes r_quota_connection_observed_bytes];
    rewrite ?Eh, ?Ea; auto; [by apply base_used|].
  unfold charged_to, fair in *. rewrite (principal_in_range_cfg _ _ Hsv). destruct (quota_admitted c); [|done].
  destruct (base_admitted eq_refl) as (p & -> & _). done.
Qed.

Lemma emit_spec s f c k t v m (Q : unit -> machine -> Prop) :
  Frame s (Local f c k (account_of cfg c <| acc_active := None |>) t v) m -> base f c -> fair f c ->
  (forall m' f', f' = f <| balance := balance f - 1 |> -> Frame s (Local f' c k no_account t v) m' -> Q tt m') ->
  wp (egress_receipt_emit s) Q m.
Proof.
  intros HF Hb Hfair HQ. unfold egress_receipt_emit. step. quiet_step. do 4 step.
  pose proof (frame_config _ _ _ _ _ HF) as Hsv. generalize dependent (server m). intros sv Hsv.
  pose proof (connection_receipt_true sv f c x Hsv Hb Hfair) as Hr.
  assert (Ho : r_quota_connection_observed_bytes (connection_receipt sv c x) = quota_stream_used c) by done.
  assert (Hp : charged_to sv c = admitted_as cfg c)
    by (unfold charged_to, admitted_as; by rewrite (principal_in_range_cfg _ _ Hsv)).
  rewrite Hp in *. clear Hp. generalize dependent (connection_receipt sv c x). intros r Hr Ho. step.
  assert (Hrest : forall r' ok m', receipt_true pols f (admitted_as cfg c) r' ->
    r_quota_connection_observed_bytes r' = quota_stream_used c ->
    Frame s (Local f c k (account_of cfg c <| acc_active := None |>) t v) m' ->
    wp (when (receipt_sink (server_config sv)) (call (sys_receipt_sink r'));;
        note (Emitted s (admitted_as cfg c) r');;
        count_metric (fun m => m <| metric_receipts := u64 (metric_receipts m + 1) |>);;
        if is_some (audit (server_config sv)) && ok then
          ok ← append_to_audit r'; when (negb ok) count_audit_failure
        else mret tt) Q m').
  { clear m HF. intros r' ok m Hr' Ho' HF. step. quiet_step. do 1 step.
    unfold account_of in HF. rewrite <-Ho' in HF. frame_step wp_note_receipt; [done|]. next.
    step. quiet_step. quiet_step. destruct x2. eauto. }
  destruct (attestor (server_config sv)) as [h|].
  - step. quiet_step. destruct x0 as [sig|].
    + step. apply Hrest; [|done|done]. by destruct Hr.
    + step. quiet_step. step. by eapply Hrest.
  - step. by eapply Hrest.
Qed.

Lemma close_unused s f c k a t v m (Q : unit -> machine -> Prop) :
  Frame s (Local f c k a t v) m -> in_use c = false -> Q tt m -> wp (egress_connection_close s) Q m.
Proof. intros HF Hu HQ. unfold egress_connection_close. do 2 step. rewrite Hu. by apply HQ. Qed.

Lemma free_unused g : in_use (free_connection g) = false.
Proof. done. Qed.

(** The first half of a close: everything is let go, softly. *)
Lemma close_spec s f c a t v m (Q : unit -> machine -> Prop) :
  Frame s (Local f c 1 a t v) m -> in_use c = true -> base f c -> fair f c -> a = account_of cfg c ->
  (forall f' g v' m', balance f' = 0 -> Frame s (Local f' (free_connection g) 0 no_account t v') m' -> Q tt m') ->
  wp (egress_connection_close s) Q m.
Proof.
  intros HF Hu Hb Hfair Ha HQ. unfold egress_connection_close. do 2 step. rewrite Hu. cbn [negb]. step.
  soft_step. step. soft_step. step. soft_step. step. step. step. soft_step. step. soft_step. step.
  soft_step. do 2 step.
  match goal with H : soft c ?x |- _ => rename x into c', H into Hs end.
  assert (Hrest : forall v m', Frame s (Local f c' 1 (account_of cfg c <| acc_active := None |>) t v) m' ->
    wp (count_metric (fun m => m
      <| metric_bytes_from_clients := u64 (metric_bytes_from_clients m + bytes_from_client c) |>
      <| metric_bytes_to_clients := u64 (metric_bytes_to_clients m + bytes_to_client c) |>);;
    when (bool_decide (conn_result c = MAELYS_EGRESS_ERR_DENIED))
      (count_metric (fun m => m <| metric_denied := u64 (metric_denied m + 1) |>));;
    egress_receipt_emit s;;
    set_conn s (fun c => free_connection (generation c));;
    set_server (fun s => if connection_count s =? 0 then s
                         else s <| connection_count := connection_count s - 1 |>);;
    count_metric (fun m => m <| metric_active := u64 (metric_active m - 1) |>);;
    note (Closed s)) Q m').
  { clear m v HF. intros v m HF. step. quiet_step. step. quiet_step. step.
    rewrite <-(soft_account _ _ _ Hs) in HF. frame_step emit_spec; [by eapply soft_base|by eapply soft_fair|]. clear dependent m. intros m f' Hf' HF. do 3 step. frame_step wp_uncount. next.
    step. quiet_step. frame_step wp_note; [done|done|]. next. eapply HQ; [|exact HF]. subst f'. cbn. rewrite (base_balance _ _ _ _ Hb). done. }
  rewrite (principal_in_range_cfg _ _ (frame_config _ _ _ _ _ HF)). step. subst a.
  unfold account_of, admitted_as in HF, Hrest. destruct (quota_admitted c).
  - destruct (index_in_range cfg (principal_index c)) as [p|] eqn:Ep.
    + frame_step wp_deactivate; [apply (index_in_range_Some _ _ Ep)|]. next. by eapply Hrest.
    + step. by eapply Hrest.
  - step. by eapply Hrest.
Qed.

(** A slot whose counters are right: all that closing it needs. *)
Definition held (l : local) : Prop :=
  totals_ok cfg (l_totals l) /\ l_count l = (if in_use (l_conn l) then 1 else 0) /\
  l_account l = account_of cfg (l_conn l) /\
  (in_use (l_conn l) = true -> base (l_flow l) (l_conn l) /\ fair (l_flow l) (l_conn l)) /\
  (in_use (l_conn l) = false -> quota_admitted (l_conn l) = false /\ balance (l_flow l) = 0).

Local Abbreviation local_ok := (local_ok cfg pols).

Lemma local_ok_held l : local_ok l -> held l.
Proof.
  intros (Hs & Ht & Hk & Ha). unfold held. split_and!; try done; destruct Hs as [(Hu & Hq)|(Hu & Hb & [] & _)];
    try congruence; done.
Qed.

Lemma close_held s l m (Q : unit -> machine -> Prop) :
  Frame s l m -> held l ->
  (forall l' m', Frame s l' m' -> local_ok l' -> in_use (l_conn l') = false -> Q tt m') ->
  wp (egress_connection_close s) Q m.
Proof.
  destruct l as [f c k a t v]. intros HF (Ht & Hk & Ha & Hb & Hn) HQ. cbn in *.
  destruct (in_use c) eqn:Hu.
  - subst k. destruct (Hb eq_refl). frame_step close_spec; auto. intros f' g v' m' Hf' HF'. eapply HQ; [exact HF'| |done].
    split_and!; try done. by left.
  - eapply close_unused; [done|done|]. eapply HQ; [exact HF| |done].
    split_and!; cbn; try done; [left; auto|by rewrite Hu].
Qed.

(** * Replies *)

(** A reply in the buffer. *)
Definition queued (b : bytes) (c c' : egress_connection_t) : Prop :=
  exists buffer, c' = c <| upstream_to_client := buffer |>
      <| quota_client_exempt_bytes := add_saturating (quota_client_exempt_bytes c) (len b) |> /\
    (buffer_wf (upstream_to_client c) ->
     buffer_wf buffer /\ content buffer = content (upstream_to_client c) ++ b /\
     capacity buffer = capacity (upstream_to_client c)).

Lemma queue_spec s f c k a t v m b (Q : bool -> machine -> Prop) :
  Frame s (Local f c k a t v) m ->
  (forall m' c', soft c c' -> Frame s (Local f c' k a t v) m' -> Q false m') ->
  (forall m' c', queued b c c' -> Frame s (Local (flow_step (Queued s b) f) c' k a t v) m' -> Q true m') ->
  wp (queue_to_client s b) Q m.
Proof.
  intros HF Hno Hyes. unfold queue_to_client. do 2 step.
  pose proof (buffer_append_spec (upstream_to_client c) b) as Hap.
  destruct (buffer_append (upstream_to_client c) b) as [[] buffer]; cbn [negb]; do 2 step.
  - step. frame_step wp_note; [done|done|]. next. do 3 step. eapply Hyes; [|exact HF].
    by exists buffer.
  - step. eapply Hno; [|exact HF]. constructor; try done; [|by right]. cbn. intros Hw. destruct (Hap Hw) as (? & ? & ? & _).
    done.
Qed.

Lemma queued_uncrossed b s f : uncrossed f -> uncrossed (flow_step (Queued s b) f).
Proof. intros [E1 E2]. split; [done|]. cbn. rewrite len_app. lia. Qed.

Lemma queued_base b s f c c' : queued b c c' -> base f c -> base (flow_step (Queued s b) f) c'.
Proof.
  intros (buffer & -> & _) []. constructor; try done. destruct base_named; [left; by apply (queued_uncrossed b s)|by right].
Qed.

(** The client was sent nothing but replies. *)
Definition idle (f : flow) : Prop := uncrossed f /\ len (down_out f) <= replies f.

Lemma idle_payload f : idle f -> payload_down f = 0.
Proof. intros [_ Hs]. unfold payload_down. lia. Qed.

Lemma queued_idle b s f : idle f -> idle (flow_step (Queued s b) f).
Proof. intros [Hu Hs]. split; [by apply (queued_uncrossed b s)|]. cbn. pose proof (len_nonneg b). lia. Qed.

Lemma queued_fair b s f c c' : queued b c c' -> idle f -> fair f c -> fair (flow_step (Queued s b) f) c'.
Proof.
  intros (buffer & -> & _) Hi. pose proof (idle_payload _ Hi) as E.
  pose proof (idle_payload _ (queued_idle b s _ Hi)) as E'. unfold fair. rewrite E, E'. cbn.
  destruct (quota_admitted c); [|done]. intros [|[]]; [by left|right]. split; [|done]. by apply (queued_uncrossed b s).
Qed.

Lemma carried_idle f c : carried cfg f c -> uncrossed f -> idle f.
Proof.
  intros [] [Eu E]. split; [done|]. rewrite carried_down, len_app in E.
  pose proof (len_nonneg (content (upstream_to_client c))). lia.
Qed.

Lemma uncrossed_sent f c : carried cfg f c -> uncrossed f -> len (down_out f) <= replies f /\ payload_down f = 0.
Proof.
  intros [] [_ E]. rewrite carried_down, len_app in E. pose proof (len_nonneg (content (upstream_to_client c))).
  unfold payload_down. lia.
Qed.

Lemma queued_carried b s f c c' :
  queued b c c' -> carried cfg f c -> uncrossed f ->
  carried cfg (flow_step (Queued s b) f) c' /\ uncrossed (flow_step (Queued s b) f).
Proof.
  intros (buffer & -> & Hq) Hc Hu. destruct (uncrossed_sent _ _ Hc Hu) as [Hs _]. destruct Hc, Hu as [Hu1 Hu2].
  destruct carried_down_ok as [Hw Hcap]. destruct (Hq Hw) as (Hw' & Ec & Ecap).
  pose proof (len_nonneg b). pose proof (len_content _ Hw') as Hlen. pose proof Hw' as [_ _ _ Hbound].
  pose proof (wf_offset _ Hw'). rewrite Ec, len_app in Hlen.
  assert (Hmax : buffer_bytes cfg < UINT64_MAX).
  { destruct (ok_limits _ Hcfg) as (_ & [_ Hm] & _). unfold EGRESS_MAX_BUFFER_BYTES in Hm.
    unfold UINT64_MAX. lia. }
  rewrite carried_down, len_app in Hu2. split.
  - constructor; cbn; auto.
    + split; [done|congruence].
    + by rewrite Ec, app_assoc, carried_down.
    + rewrite len_app. lia.
    + rewrite carried_exempt, add_saturating_min. lia.
  - split; [done|]. cbn. rewrite carried_down, !len_app. lia.
Qed.

Lemma queued_live b s f c c' :
  queued b c c' -> live f c -> uncrossed f -> live (flow_step (Queued s b) f) c'.
Proof.
  intros Hq Hl Hu. destruct (queued_carried b s f c c' Hq (live_carried _ _ _ _ Hl) Hu) as [Hc' Hu'].
  destruct (uncrossed_sent _ _ Hc' Hu') as [_ E'].
  destruct (uncrossed_sent _ _ (live_carried _ _ _ _ Hl) Hu) as [_ E].
  pose proof (queued_fair b s f c c' Hq (carried_idle _ _ (live_carried _ _ _ _ Hl) Hu) (live_fair _ _ _ _ Hl)).
  destruct Hq as (buffer & -> & _), Hl. constructor; auto.
  intros Hx Hy. cbn in *. rewrite E'. specialize (live_exact Hx Hy). by rewrite E in live_exact.
Qed.

Lemma queued_fresh b s f c c' : queued b c c' -> fresh f c -> fresh (flow_step (Queued s b) f) c'.
Proof. intros (buffer & -> & _) []. by constructor. Qed.

(** * Failing *)

Definition flushing (c : egress_connection_t) : egress_connection_t := c <| close_after_flush := true |>.

Lemma flushing_base f c : base f c -> base f (flushing c).
Proof. intros []. by constructor. Qed.

Lemma live_flushing f c : live f c -> live f (flushing c).
Proof. intros []. constructor; auto; [by destruct live_carried|]. intros [Hn|]; [|done]. auto. Qed.

(** A connection that only flushes its replies. *)
Lemma idle_live f c : live f c -> state c <> CONNECTION_RELAY -> idle f.
Proof. intros [] Hst. eapply carried_idle; eauto. Qed.

Lemma flushed_ok f c k a t v :
  in_use c = true -> close_after_flush c = true -> base f c -> live f c ->
  totals_ok cfg t -> k = 1 -> a = account_of cfg c -> local_ok (Local f c k a t v).
Proof.
  intros Hu Hc Hb Hl Ht -> ->. split_and!; cbn; try done; [|by rewrite Hu].
  right. split_and!; try done. congruence.
Qed.

(** A slot on whose connection nothing has crossed. *)
Definition mild (l : local) : Prop := in_use (l_conn l) = true -> idle (l_flow l).

Lemma fail_spec s f c a t v m r au (Q : unit -> machine -> Prop) :
  Frame s (Local f c 1 a t v) m -> in_use c = true -> base f c -> fair f c -> idle f ->
  a = account_of cfg c -> totals_ok cfg t ->
  (forall l' m', Frame s l' m' -> held l' -> mild l' -> (live f (flushing c) -> local_ok l') -> Q tt m') ->
  wp (egress_connection_fail s r au) Q m.
Proof.
  intros HF Hu Hb Hfair Hidle Ha Ht HQ. unfold egress_connection_fail. step. quiet_step. do 2 step.
  match type of HF with Frame _ (Local _ ?x _ _ _ _) _ =>
    assert (Hs : soft (flushing c) x) by (destruct (bool_decide _); solve_soft); generalize dependent x end.
  intros c1 HF Hs. do 2 step. generalize (conn_protocol c1) as proto. intros proto. step. soft_step. step. soft_step.
  match goal with H : soft (flushing c) ?x |- _ => rename x into c', H into Hsoft end.
  assert (Hu' : in_use c' = true) by (by rewrite (soft_in_use _ _ Hsoft)).
  assert (Hb' : base f c') by eauto using soft_base, flushing_base.
  assert (Hfair' : fair f c') by (by eapply soft_fair).
  assert (Ha' : a = account_of cfg c') by (by rewrite (soft_account _ _ _ Hsoft)).
  assert (Hheld : held (Local f c' 1 a t v)) by (split_and!; cbn; try done; by rewrite Hu').
  assert (Hflush : close_after_flush c' = true) by (apply (soft_flush _ _ Hsoft)).
  assert (Hq : forall b, wp (queue_to_client s b;; mret tt) Q m).
  { intros b. step. frame_step queue_spec.
    - clear dependent m. intros m c2 Hc2 HF. step. pose proof (soft_trans _ _ _ Hsoft Hc2) as Hs2.
      eapply HQ; [exact HF| |by intros _|].
      + split_and!; cbn; try done.
        * by rewrite (soft_in_use _ _ Hc2), Hu'.
        * by rewrite (soft_account _ _ _ Hc2).
        * intros _. split; [by apply (soft_base _ _ _ _ _ Hc2)|by eapply soft_fair].
        * rewrite (soft_in_use _ _ Hc2). congruence.
      + intros Hl. eapply (soft_local_ok cfg pols f c'); [done|]. apply flushed_ok; auto.
        eapply soft_live; [exact Hsoft|exact Hl].
    - clear dependent m. intros m c2 Hc2 HF. step. pose proof (queued_base b s _ _ _ Hc2 Hb') as Hb2.
      assert (Hu2 : in_use c2 = true) by (by destruct Hc2 as (? & -> & _)).
      assert (Ha2 : a = account_of cfg c2) by (by destruct Hc2 as (? & -> & _)).
      eapply HQ; [exact HF| |intros _; by apply (queued_idle b s)|].
      + split_and!; cbn; try done; [by rewrite Hu2|intros _; split; [done|by apply (queued_fair b s f c')]|by rewrite Hu2].
      + intros Hl. destruct Hidle as [Hun _]. apply flushed_ok; auto; [by destruct Hc2 as (? & -> & _)|].
        eapply queued_live; eauto using soft_live. }
  destruct proto; try apply Hq. frame_step close_held; [done|]. clear dependent m. intros l' m HF Hok Hn.
  eapply HQ; eauto using local_ok_held. intros Hx. congruence.
Qed.

(** [egress_connection_fail] and the update of the watches that follows it. *)
Lemma fail_watches_spec s f c a t v m r au (Q : bool -> machine -> Prop) :
  Frame s (Local f c 1 a t v) m -> in_use c = true -> base f c -> a = account_of cfg c -> totals_ok cfg t ->
  live f (flushing c) -> uncrossed f ->
  (forall x l' m', Frame s l' m' -> local_ok l' -> mild l' -> Q x m') ->
  wp (egress_connection_fail s r au;; egress_connection_update_watches s) Q m.
Proof.
  intros HF Hu Hb Ha Ht Hl Hun HQ. step. pose proof (carried_idle _ _ (live_carried _ _ _ _ Hl) Hun) as Hi.
  frame_step fail_spec; auto; [by apply (live_fair _ _ _ _ Hl)|]. clear dependent m.
  intros [f' c' k' a' t' v'] m HF _ Hm Hok. specialize (Hok Hl). soft_step. eapply HQ; [exact HF|by eapply soft_local_ok|].
  intros Hu'. apply Hm. cbn in *. by rewrite <-(soft_in_use _ _ Hsoft).
Qed.

(** * The guard and the connection *)

Lemma settled_ok f c k a t v :
  in_use c = true -> base f c -> live f c -> ~ handshaking c -> totals_ok cfg t ->
  k = 1 -> a = account_of cfg c -> local_ok (Local f c k a t v).
Proof.
  intros Hu Hb Hl Hh Ht -> ->. split_and!; cbn; try done; [|by rewrite Hu]. right. by split_and!.
Qed.

Lemma in_use_state c : in_use c = true <-> state c <> CONNECTION_UNUSED.
Proof. unfold in_use. rewrite negb_true_iff. apply bool_decide_eq_false. Qed.

Lemma local_ok_used f c k a t v :
  local_ok (Local f c k a t v) -> state c <> CONNECTION_UNUSED ->
  k = 1 /\ a = account_of cfg c /\ totals_ok cfg t /\ in_use c = true /\ base f c /\ live f c /\
  (handshaking c -> close_after_flush c = false -> fresh f c).
Proof.
  intros (Hs & Ht & Hk & Ha) Hst%in_use_state. cbn in *. rewrite Hst in Hk.
  destruct Hs as [(Hu & _)|(_ & Hb & Hl & Hf)]; [congruence|]. by split_and!.
Qed.

Lemma enforce_spec s l m (Q : bool -> machine -> Prop) :
  Frame s l m -> local_ok l -> (forall x l' m', Frame s l' m' -> local_ok l' -> Q x m') ->
  wp (egress_connection_enforce_tunnel_identity s) Q m.
Proof.
  destruct l as [f c k a t v]. intros HF Hok HQ. unfold egress_connection_enforce_tunnel_identity. do 2 step.
  destruct (bool_decide (state c = CONNECTION_IDENTITY)) eqn:Est; cbn [negb orb]; [|step; by eapply HQ].
  destruct (length_ (client_to_upstream c) =? 0); [step; by eapply HQ|]. apply bool_decide_eq_true in Est.
  destruct (local_ok_used _ _ _ _ _ _ Hok) as (-> & -> & Ht & Hu & Hb & Hl & _); [by rewrite Est|].
  assert (Hun : uncrossed f) by (apply (live_uncrossed _ _ _ _ Hl); by rewrite Est).
  destruct (egress_tls_client_hello_matches _ _) eqn:Eh.
  - step. by eapply HQ.
  - step. quiet_step. do 2 step. soft_step. eapply HQ; [exact HF|]. eapply soft_local_ok; [done|].
    assert (Hn : names_host f (conn_host c)).
    { unfold names_host. destruct Hun as [E _]. by rewrite (carried_up _ _ _ (live_carried _ _ _ _ Hl)), E. }
    destruct Hl. apply settled_ok; auto; [by destruct Hb; constructor| |by intros []].
    assert (Hh : ~ handshaking c) by (intros []; congruence).
    constructor; cbn; auto; [by destruct live_carried|..].
    + right. by destruct live_destination.
    + right. by destruct live_target.
    + done.
    + intros _ _ Hs. apply live_named; auto. by rewrite Est.
  - frame_step fail_watches_spec; eauto using live_flushing.
Qed.

(** A connection between its request and its establishment. *)
Record opening (f : flow) (c : egress_connection_t) : Prop := {
  opening_used : in_use c = true;
  opening_base : base f c;
  opening_live : live f c;
  opening_state : handshaking c \/ state c = CONNECTION_CONNECTING;
  opening_exact : exact_use f c;
  opening_destination : exists d, destination c = Some d /\
    (require_tls_sni d = true -> is_tunnel (conn_protocol c) = true);
}.

Lemma opening_soft f c c' : soft c c' -> opening f c -> opening f c'.
Proof.
  intros Hs []. constructor; eauto using soft_base, soft_live; [by rewrite (soft_in_use _ _ Hs)|..];
    [by rewrite (soft_handshaking _ _ Hs), (soft_state _ _ Hs)|..]; destruct Hs; unfold exact_use in *;
    rewrite ?soft_state, ?soft_admitted, ?soft_used, ?soft_destination, ?soft_protocol; auto.
Qed.

Lemma opening_relay f c : opening f c -> state c <> CONNECTION_RELAY.
Proof. intros [_ _ _ [[E|E]|E] _ _]; by rewrite E. Qed.

Lemma opening_uncrossed f c : opening f c -> uncrossed f.
Proof. intros Ho. apply (live_uncrossed _ _ _ _ (opening_live _ _ Ho)). by eapply opening_relay. Qed.

Lemma complete_open_spec s l m (Q : unit -> machine -> Prop) :
  Frame s l m -> local_ok l -> (forall l' m', Frame s l' m' -> local_ok l' -> Q tt m') ->
  wp (complete_open s) Q m.
Proof.
  destruct l as [f c k a t v]. intros HF Hok HQ. unfold complete_open. do 2 step.
  destruct (if in_use c then open_command c else None) as [id|]; [|step; by eapply HQ].
  step. quiet_step. destruct (cancelled x).
  - do 2 step. frame_step close_held.
    + apply local_ok_held. eapply soft_local_ok; [|exact Hok]. solve_soft.
    + clear dependent m. intros l' m HF Hok' _. by eapply HQ.
  - do 2 step. quiet_step. destruct x0. eapply HQ; [exact HF|]. eapply soft_local_ok; [|exact Hok]. solve_soft.
Qed.

(** The state of a connection that was established. *)
Definition established (now : Z) (c : egress_connection_t) : egress_connection_t :=
  let d := default (Destination [] 0 false false []) (destination c) in
  let c := match address_index c with
           | S i => match addresses d !! i with
                    | Some address =>
                        c <| upstream_address := address_text address EGRESS_MAX_ADDRESS_TEXT |>
                    | None => c
                    end
           | O => c
           end in
  c <| state := if is_tunnel (conn_protocol c) && require_tls_sni d
                then CONNECTION_IDENTITY else CONNECTION_RELAY |>
    <| last_activity_ms := now |>.

(** The address that is recorded is a pinned one. *)
Lemma established_fields now f c d :
  destination c = Some d ->
  exists u, established now c = c <| upstream_address := u |>
      <| state := if is_tunnel (conn_protocol c) && require_tls_sni d
                  then CONNECTION_IDENTITY else CONNECTION_RELAY |> <| last_activity_ms := now |> /\
    (u = upstream_address c \/ exists a, a ∈ addresses d /\ u = address_text a EGRESS_MAX_ADDRESS_TEXT) /\
    (trying f c -> exists a, target f = Some (conn_host c, conn_port c, a) /\ u = address_text a EGRESS_MAX_ADDRESS_TEXT).
Proof.
  intros Hd. unfold established, trying. rewrite Hd. change (default _ (Some d)) with d. destruct (address_index c) as [|i].
  - exists (upstream_address c). split_and!; [by destruct c|by left|]. by intros (? & ? & ? & _ & ? & _).
  - destruct (addresses d !! i) as [x|] eqn:Ex.
    + exists (address_text x EGRESS_MAX_ADDRESS_TEXT). split_and!; [reflexivity|right|].
      * exists x. split; [|done]. by eapply list_elem_of_lookup_2.
      * intros (d' & i' & a & [= <-] & [= <-] & Ea & Et). exists a. split; [done|]. congruence.
    + exists (upstream_address c). split_and!; [by destruct c|by left|].
      intros (d' & i' & a & [= <-] & [= <-] & Ea & Et). congruence.
Qed.

Lemma established_ok now f c :
  opening f c -> aimed f c -> (upstream_socket c <> None -> trying f c) ->
  in_use (established now c) = true /\ base f (established now c) /\ live f (established now c) /\
  ~ handshaking (established now c) /\ account_of cfg (established now c) = account_of cfg c.
Proof.
  intros Ho Haim Htry. pose proof (opening_uncrossed _ _ Ho) as Hun. destruct Ho. destruct opening_destination0 as (d & Hd & Htun).
  destruct (established_fields now f c d Hd) as (u & -> & Hu & Hn).
  pose proof (live_pinned _ _ _ _ opening_live0 d Hd) as Hpin.
  split_and!; [by destruct (_ && _)| | |by unfold handshaking; cbn; destruct (_ && _); intros []|done].
  - destruct opening_base0. constructor; cbn; auto.
    destruct Hu as [->|(x & Hx & ->)]; [done|]. right. exists x. split; [|done]. by exists d.
  - destruct opening_live0. constructor; cbn; auto; [by destruct live_carried|..].
    + right. by exists d.
    + intros d' Hst Hd' Hreq. rewrite Hd in Hd'. injection Hd' as <-. rewrite Hreq, Htun in Hst by done. done.
    + intros _ _ Hs. apply Hn, Htry, Hs.
Qed.

Lemma connected_reply_spec s f c k a t v m (Q : bool -> machine -> Prop) :
  Frame s (Local f c k a t v) m ->
  (forall x m', Frame s (Local f c k a t v) m' -> Q x m') ->
  (forall x m' c', soft c c' -> Frame s (Local f c' k a t v) m' -> Q x m') ->
  (forall x b m' c', queued b c c' -> Frame s (Local (flow_step (Queued s b) f) c' k a t v) m' -> Q x m') ->
  wp (connected_reply s) Q m.
Proof.
  intros HF Hsame Hno Hyes. unfold connected_reply. do 2 step.
  destruct (conn_protocol c); try (step; by eapply Hsame); frame_step queue_spec; eauto.
Qed.

(** [egress_connection_connected] from the reply on. *)
Lemma connected_end_spec s l m replied (Q : unit -> machine -> Prop) :
  Frame s l m -> local_ok l -> (forall l' m', Frame s l' m' -> local_ok l' -> Q tt m') ->
  wp (if negb replied then
        set_conn s (fun c => c <| conn_result := MAELYS_EGRESS_ERR_MEMORY |>);;
        egress_connection_close s
      else
        enforced ← egress_connection_enforce_tunnel_identity s;
        c ← get_conn s;
        watched ← (if enforced && in_use c then egress_connection_update_watches s else mret enforced);
        if negb watched then egress_connection_close s
        else complete_open s) Q m.
Proof.
  intros HF Hok HQ. destruct l as [f c k a t v].
  assert (Hclose : forall l m, Frame s l m -> local_ok l -> wp (egress_connection_close s) Q m).
  { intros l' m' HF' Hok'. frame_step close_held; [by apply local_ok_held|]. eauto. }
  destruct replied; cbn [negb].
  - step. frame_step enforce_spec; [done|]. clear dependent m f c. intros enforced [f c k' a' t' v'] m HF Hok.
    do 3 step. soft_step. assert (Hok' : local_ok (Local f c0 k' a' t' v')) by (by eapply soft_local_ok).
    destruct x; cbn [negb]; [|by eapply Hclose]. by frame_step complete_open_spec.
  - do 2 step. eapply Hclose; [exact HF|]. eapply soft_local_ok; [|exact Hok]. solve_soft.
Qed.

Lemma connected_spec s f c a t v m (Q : unit -> machine -> Prop) :
  Frame s (Local f c 1 a t v) m -> opening f c -> aimed f c -> (upstream_socket c <> None -> trying f c) -> a = account_of cfg c -> totals_ok cfg t ->
  (forall l' m', Frame s l' m' -> local_ok l' -> Q tt m') -> wp (egress_connection_connected s) Q m.
Proof.
  intros HF Ho Haim Htry -> Ht HQ. unfold egress_connection_connected. step. quiet_step. do 2 step.
  match type of HF with Frame _ (Local _ ?y _ _ _ _) _ => change y with (established x c) in HF end.
  destruct (established_ok x _ _ Ho Haim Htry) as (Hu & Hb & Hl & Hh & Ha). rewrite <-Ha in HF.
  pose proof (opening_uncrossed _ _ Ho) as Hun. generalize dependent (established x c). intros c1 HF Hu Hb Hl Hh Ha.
  step. frame_step connected_reply_spec; clear dependent m.
  - intros replied m HF. frame_step connected_end_spec; [by apply settled_ok|done].
  - intros replied m c' Hs HF. frame_step connected_end_spec; [|done].
    eapply soft_local_ok; [done|]. by apply settled_ok.
  - intros replied b m c' Hq HF. frame_step connected_end_spec; [|done].
    apply settled_ok; eauto using queued_base, queued_live; by destruct Hq as (? & -> & _).
Qed.

(** The flow once an address of the destination was tried. *)
Lemma opening_aimed s f c d i a socket :
  opening f c -> destination c = Some d -> addresses d !! i = Some a ->
  let f' := flow_step (ConnectTo s (conn_host c) (conn_port c) a) f in
  let c' := c <| address_index := S i |> <| upstream_socket := Some socket |>
              <| upstream_fd := native_fd (Some socket) |> in
  opening f' c' /\ aimed f' c' /\ trying f' c'.
Proof.
  intros Ho Hd Ha f' c'. pose proof (opening_uncrossed _ _ Ho) as Hun. destruct Ho.
  assert (Haim : aimed f' c') by (exists d, a; split_and!; [done|by eapply list_elem_of_lookup_2|done]).
  assert (Htry : trying f' c') by (by exists d, i, a). split_and!; [|done|done]. constructor; auto.
  - destruct opening_base0. constructor; auto.
  - destruct opening_live0. constructor; auto; [by destruct live_carried|]. intros Hh Hst. by destruct opening_state0.
Qed.

(** Without a socket, the next address may change. *)
Lemma opening_indexed f c i :
  opening f c -> handshaking c \/ upstream_socket c = None -> opening f (c <| address_index := i |>).
Proof.
  intros [] Hs. constructor; auto; [by destruct opening_base0|]. destruct opening_live0. constructor; auto.
  - by destruct live_carried.
  - intros Hst Hn. cbn in *. destruct Hs as [[Hh|Hh]|]; congruence.
Qed.

Lemma release_upstream_spec s f c k a t v m (Q : unit -> machine -> Prop) :
  Frame s (Local f c k a t v) m ->
  (forall m' c', soft c c' -> upstream_socket c' = None -> address_index c' = address_index c ->
     Frame s (Local f c' k a t v) m' -> Q tt m') ->
  wp (release_upstream s) Q m.
Proof.
  intros HF HQ. unfold release_upstream. do 3 step. quiet_step. step. eapply HQ; [..|exact HF]; [solve_soft|done|done].
Qed.

Lemma connecting_ok f c k a t v :
  opening f c -> aimed f c -> trying f c -> totals_ok cfg t -> k = 1 -> a = account_of cfg c ->
  local_ok (Local f (c <| state := CONNECTION_CONNECTING |>) k a t v).
Proof.
  intros Ho Haim Htry Ht -> ->. pose proof (opening_uncrossed _ _ Ho). destruct Ho, opening_live0.
  apply settled_ok; auto; [by destruct opening_base0; constructor| |by intros []].
  constructor; cbn; auto; [by destruct live_carried|done..].
Qed.

(** The result of an attempt to serve a request: a refusal leaves a connection
    on which nothing has crossed. *)
Definition tried (x : bool) (l : local) : Prop :=
  held l /\ (x = true -> local_ok l) /\ (x = false -> mild l).

Lemma tried_ok x l : local_ok l -> (x = false -> mild l) -> tried x l.
Proof. intros Hl Hm. split_and!; auto using local_ok_held. Qed.

Lemma mild_soft f c c' k a t v : soft c c' -> mild (Local f c k a t v) -> mild (Local f c' k a t v).
Proof. intros Hs Hm Hu. apply Hm. cbn in *. by rewrite <-(soft_in_use _ _ Hs). Qed.

Lemma connect_loop_spec rest s f c a t v m d (Q : bool -> machine -> Prop) :
  Frame s (Local f c 1 a t v) m -> opening f c -> handshaking c \/ upstream_socket c = None ->
  destination c = Some d -> rest = drop (address_index c) (addresses d) ->
  a = account_of cfg c -> totals_ok cfg t ->
  (forall x l' m', Frame s l' m' -> local_ok l' -> (x = false -> mild l') -> Q x m') ->
  wp (connect_loop s rest) Q m.
Proof.
  revert f c m. induction rest as [|address rest IH]; intros f c m HF Ho Hsk Hd Hr Ha Ht HQ; cbn [connect_loop].
  { pose proof (opening_uncrossed _ _ Ho). destruct Ho.
    frame_step fail_watches_spec; eauto using live_flushing. }
  assert (Hx : addresses d !! address_index c = Some address).
  { rewrite <-(Nat.add_0_r (address_index c)), <-lookup_drop, <-Hr. done. }
  assert (Hr' : rest = drop (S (address_index c)) (addresses d)).
  { rewrite <-Nat.add_1_r, <-drop_drop, <-Hr. done. }
  do 3 step. quiet_step. destruct x as [upstream|].
  2:{ eapply IH; [exact HF|by apply opening_indexed|done..]. }
  do 5 step. frame_step wp_note; [done| |].
  { cbn. exists d. split; [|by eapply list_elem_of_lookup_2]. by apply (live_pinned _ _ _ _ (opening_live _ _ Ho)). }
  next. destruct (opening_aimed s f c d (address_index c) address upstream) as (Hof & Haim & Htry); [done..|].
  match type of HF with Frame _ (Local ?f' ?c' _ _ _ _) _ =>
    change (opening f' c') in Hof; change (aimed f' c') in Haim; change (trying f' c') in Htry;
    change (a = account_of cfg c') in Ha; change (destination c' = Some d) in Hd;
    change (handshaking c' \/ upstream_socket c = None) in Hsk;
    change (rest = drop (address_index c') (addresses d)) in Hr';
    clear Ho; revert HF Hof Haim Htry Ha Hd Hsk Hr'; generalize f'; generalize c' end.
  clear f. intros c' f HF Hof Haim Htry Ha Hd Hsk Hr'. step. quiet_step. destruct x.
  - step. frame_step release_upstream_spec. clear dependent m. intros m c2 Hs Hn Ei HF.
    eapply IH; [exact HF|by eapply opening_soft|by right|by rewrite (soft_destination _ _ Hs)|by rewrite Ei|
      by rewrite (soft_account _ _ _ Hs)|done..].
  - do 2 step. soft_step. eapply HQ; [exact HF|..].
    + eapply soft_local_ok; [done|]. by apply connecting_ok.
    + intros _. eapply mild_soft; [done|]. intros _. eapply idle_live; [by apply (opening_live _ _ Hof)|by eapply opening_relay].
  - step. frame_step connected_spec; auto.
    clear dependent m. intros l' m HF Hok. step. by eapply HQ.
Qed.

Lemma connect_next_spec s f c a t v m (Q : bool -> machine -> Prop) :
  Frame s (Local f c 1 a t v) m -> opening f c -> handshaking c \/ upstream_socket c = None ->
  a = account_of cfg c -> totals_ok cfg t ->
  (forall x l' m', Frame s l' m' -> local_ok l' -> (x = false -> mild l') -> Q x m') ->
  wp (egress_connection_connect_next s) Q m.
Proof.
  intros HF Ho Hsk Ha Ht HQ. unfold egress_connection_connect_next. do 2 step.
  destruct (opening_destination _ _ Ho) as (d & Hd & _). rewrite Hd. change (default _ (Some d)) with d.
  frame_step connect_loop_spec; eauto.
Qed.

(** * Quotas *)

(** [n] more bytes stay within the limits of a connection. *)
Definition allows (t : list Z) (c : egress_connection_t) (n : Z) : Prop :=
  quota_admitted c = true -> forall p, index_in_range cfg (principal_index c) = Some p ->
  (quota_bytes c <> 0 -> quota_stream_used c + n <= quota_bytes c) /\
  (quota_total_bytes c <> 0 -> counter t p + n <= quota_total_bytes c).

Lemma remaining_bound maximum used n :
  0 <= n <= quota_remaining maximum used -> maximum <> 0 -> used <= maximum -> used + n <= maximum.
Proof.
  unfold quota_remaining. intros Hn Hm Hu. destruct (Z.eqb_spec maximum 0); [done|].
  destruct (Z.leb_spec maximum used); lia.
Qed.

Lemma allowance_allows sv f t c n :
  server_config sv = cfg -> principal_bytes_total sv = t -> base f c -> totals_ok cfg t ->
  0 <= n <= (egress_quota_allowance sv c).1 -> allows t c n.
Proof.
  intros Hc Ht Hb [_ _ Hbound] Hn Had p Hp. unfold egress_quota_allowance in Hn.
  rewrite (principal_in_range_cfg _ _ Hc), Had, Hp, Ht in Hn. destruct Hb.
  destruct (base_admitted Had) as (p' & Hp' & Eq1 & Eq2). rewrite Hp in Hp'. injection Hp' as <-.
  pose proof (index_in_range_Some _ _ Hp) as [_ Hlt]. specialize (Hbound p). rewrite <-Eq2 in Hbound.
  destruct base_used as [Hr Hu].
  pose proof (remaining_bound (quota_bytes c) (quota_stream_used c) n) as R1.
  pose proof (remaining_bound (quota_total_bytes c) (counter t p) n) as R2.
  assert (Hn' : (quota_bytes c <> 0 -> n <= quota_remaining (quota_bytes c) (quota_stream_used c)) /\
    (quota_total_bytes c <> 0 -> n <= quota_remaining (quota_total_bytes c) (counter t p))).
  { assert (quota_bytes c = 0 -> quota_remaining (quota_bytes c) (quota_stream_used c) = UINT64_MAX) as Hz
      by (by intros ->).
    destruct (Z.eqb_spec (quota_total_bytes c) 0); cbn [negb andb] in Hn;
      [|destruct (Z.leb_spec (quota_remaining (quota_total_bytes c) (counter t p))
          (quota_remaining (quota_bytes c) (quota_stream_used c)))];
      destruct (Z.eqb_spec (quota_bytes c) 0); cbn [negb fst] in Hn; split; intros; try done; try lia. }
  destruct Hn'. split; intros; [apply R1|apply R2]; auto; split; auto; lia.
Qed.

Lemma allowance_nonneg sv c : 0 <= (egress_quota_allowance sv c).1.
Proof.
  unfold egress_quota_allowance, quota_remaining. repeat case_match; cbn [fst]; rewrite ?Z.leb_gt in *;
    unfold UINT64_MAX; lia.
Qed.

Lemma wp_allowance s f c k a t v m (Q : Z * maelys_egress_quota_scope_t -> machine -> Prop) :
  Frame s (Local f c k a t v) m -> base f c -> totals_ok cfg t ->
  (forall x, 0 <= x.1 -> (forall n, 0 <= n <= x.1 -> allows t c n) -> Q x m) -> wp (quota_allowance s) Q m.
Proof.
  intros HF Hb Ht HQ. unfold quota_allowance. do 5 step. apply HQ; [apply allowance_nonneg|]. intros n Hn.
  eapply allowance_allows; [apply (frame_config _ _ _ _ _ HF)|apply (frame_totals _ _ _ _ _ HF)|done..].
Qed.

Definition charged (n : Z) (c : egress_connection_t) : egress_connection_t :=
  c <| quota_stream_used := if quota_admitted c then add_saturating (quota_stream_used c) n
                            else quota_stream_used c |>.

Lemma charged_0 f c : base f c -> charged 0 c = c.
Proof.
  intros []. unfold charged. rewrite add_saturating_min.
  assert (E : (if quota_admitted c then Z.min UINT64_MAX (quota_stream_used c + 0) else quota_stream_used c) =
    quota_stream_used c) by (destruct (quota_admitted c); lia).
  rewrite E. by destruct c.
Qed.

Lemma charged_base f c t n : base f c -> 0 <= n -> allows t c n -> base f (charged n c).
Proof.
  intros Hb Hn Hall. pose proof Hb as []. constructor; cbn; auto. destruct base_used as [Hr Hu].
  destruct (quota_admitted c) eqn:Had; [|done]. destruct (base_admitted eq_refl) as (p & Hp & _).
  destruct (Hall Had p Hp) as [Hq _]. rewrite add_saturating_min. split; [lia|]. intros Hz. specialize (Hq Hz). lia.
Qed.

(** A charge is added to the total and to what the connection owes. *)
Lemma charged_total rest used n :
  0 <= rest -> 0 <= n ->
  add_saturating (Z.min UINT64_MAX (rest + used)) n = Z.min UINT64_MAX (rest + add_saturating used n).
Proof. intros. rewrite !add_saturating_min. lia. Qed.

Lemma charge_spec s f c k t v m n (Q : unit -> machine -> Prop) :
  Frame s (Local f c k (account_of cfg c) t v) m -> base f c -> totals_ok cfg t -> 0 <= n -> allows t c n ->
  (forall t' m', totals_ok cfg t' -> Frame s (Local f (charged n c) k (account_of cfg (charged n c)) t' v) m' -> Q tt m') ->
  wp (egress_quota_charge s n) Q m.
Proof.
  intros HF Hb Ht Hn Hall HQ. unfold egress_quota_charge. do 4 step.
  destruct (Z.eqb_spec n 0) as [->|Hz]; cbn [orb].
  { step. apply (HQ t); [done|]. by rewrite (charged_0 _ _ Hb). }
  destruct (quota_admitted c) eqn:Had; cbn [negb].
  2:{ step. apply (HQ t); [done|]. replace (charged n c) with c; [done|]. unfold charged. rewrite Had. by destruct c. }
  destruct (base_admitted _ _ _ _ Hb Had) as (p & Hp & Eq1 & Eq2).
  rewrite (principal_in_range_cfg _ _ (frame_config _ _ _ _ _ HF)), Hp. pose proof (index_in_range_Some _ _ Hp) as [_ Hlt].
  pose proof (in_range_length p t Hlt (totals_length _ _ Ht)) as Hlen.
  destruct (Hall Had p Hp) as [_ Htot]. do 2 step.
  apply (HQ (alter (fun used => add_saturating used n) p t)).
  - destruct Ht. constructor; [by rewrite length_alter|..].
    + intros q. rewrite counter_alter by done. destruct (decide (q = p)); [|done]. rewrite add_saturating_min.
      pose proof (totals_range p). lia.
    + intros q Hq Hlq. rewrite counter_alter by done. destruct (decide (q = p)) as [->|]; [|auto].
      rewrite <-Eq2 in Hq |- *. specialize (Htot Hq). rewrite add_saturating_min. lia.
  - assert (E : charged n c = c <| quota_stream_used := add_saturating (quota_stream_used c) n |>)
      by (unfold charged; by rewrite Had).
    rewrite E. pose proof (fun q => frame_rest _ _ _ _ _ q HF) as Hrest.
    destruct HF. unfold account_of, admitted_as in *. cbn in *. rewrite Had, Hp in *.
    constructor; cbn in *; auto; [by rewrite frame_totals|].
    intros q Hq. rewrite counter_alter by done. specialize (Hrest q).
    destruct (decide (q = p)) as [->|Hne]; rewrite frame_paid by done; unfold due; cbn.
    + rewrite !decide_True by done. by apply charged_total.
    + by rewrite !decide_False by done.
Qed.


(** * Admission *)

Lemma rewrite_spec b r b' :
  buffer_ok cfg b -> rewrite_input b r = Some b' ->
  buffer_ok cfg b' /\ content b' = forward_bytes r ++ zdrop (consumed r) (content b).
Proof.
  intros [Hw Hcap]. unfold rewrite_input. destruct (length_ b <? consumed r); [done|].
  generalize (zdrop (consumed r) (content b)) as extra. intros extra.
  generalize (forward_bytes r) as fwd. intros fwd.
  destruct (Z.ltb_spec (capacity b) (len fwd + len extra)) as [|Hfit]; [done|]. intros [= <-].
  pose proof (len_nonneg fwd). pose proof (len_nonneg extra). pose proof (wf_data _ Hw) as Hd.
  assert (E1 : (if len extra =? 0 then data b else write_at (data b) (len fwd) extra) =
    write_at (data b) (len fwd) extra).
  { destruct (Z.eqb_spec (len extra) 0); [|done]. destruct extra; [by rewrite write_at_nil|].
    rewrite len_cons in *. pose proof (len_nonneg extra). lia. }
  rewrite E1. clear E1. set (moved := write_at (data b) (len fwd) extra).
  assert (E2 : (if len fwd =? 0 then moved else write_at moved 0 fwd) = write_at moved 0 fwd).
  { destruct (Z.eqb_spec (len fwd) 0); [|done]. destruct fwd; [by rewrite write_at_nil|].
    rewrite len_cons in *. pose proof (len_nonneg fwd). lia. }
  rewrite E2. clear E2. assert (Hm : len moved = capacity b) by (unfold moved; rewrite len_write_at; lia).
  assert (Hl : len (write_at moved 0 fwd) = capacity b) by (rewrite len_write_at; lia).
  split; [split; [constructor; cbn; lia|done]|]. unfold content. cbn.
  change (zdrop 0 (write_at moved 0 fwd)) with (fwd ++ zdrop (len fwd) moved).
  rewrite ztake_plus, ztake_app_len, zdrop_app_len by lia. f_equal. unfold moved.
  apply read_write_at; lia.
Qed.

Lemma principal_quota_ok p : quota_ok (principal_of cfg p).
Proof.
  unfold principal_of. destruct (nth_in_or_default p (principals cfg) zero_principal) as [Hin| ->].
  - pose proof (ok_quotas _ Hcfg) as Hq. rewrite List.Forall_forall in Hq. auto.
  - by constructor.
Qed.

(** A request of a client. *)
Definition asked (r : egress_proxy_request_t) : Prop := protocol r <> MAELYS_EGRESS_PROTOCOL_NONE.

(** A connection between the end of its handshake and its admission or
    failure: nothing has been charged or sent. *)
Record pending (f : flow) (c : egress_connection_t) : Prop := {
  pending_used : in_use c = true;
  pending_state : handshaking c;
  pending_flush : close_after_flush c = false;
  pending_base : base f c;
  pending_carried : carried cfg f c;
  pending_uncrossed : uncrossed f;
  pending_pinned : forall d, destination c = Some d -> pinned pols (conn_host c) (conn_port c) d;
  pending_sni : tls_sni_verified c = false;
  pending_zero : quota_stream_used c = 0;
}.

(** The request that is recorded in a connection. *)
Record recorded (r : egress_proxy_request_t) (c : egress_connection_t) : Prop := {
  recorded_protocol : conn_protocol c = protocol r;
  recorded_port : conn_port c = request_port r;
  recorded_host : conn_host c = snprintf_s (EGRESS_MAX_HOST + 1) (request_host r);
  recorded_index : principal_index c = (request_identity r).2;
  recorded_quota : forall p, index_in_range cfg (principal_index c) = Some p ->
    quota_bytes c = max_bytes_per_connection (principal_of cfg p) /\
    quota_total_bytes c = max_bytes_total (principal_of cfg p);
}.

Lemma not_relay c : handshaking c -> state c <> CONNECTION_RELAY.
Proof. intros [E|E]; by rewrite E. Qed.

Lemma pending_fair f c : pending f c -> fair f c.
Proof. intros []. unfold fair. destruct (quota_admitted c); auto. Qed.

Lemma handshaking_connecting c : handshaking c -> state c <> CONNECTION_CONNECTING.
Proof. intros [E|E]; by rewrite E. Qed.

Lemma pending_flushing f c : pending f c -> live f (flushing c).
Proof.
  intros Hp. pose proof (pending_fair _ _ Hp). destruct Hp. pose proof (not_relay _ pending_state0).
  pose proof (handshaking_connecting _ pending_state0).
  constructor; cbn; auto; try by destruct pending_carried0.
  intros [Hn|]; [|done]. by destruct Hn.
Qed.

Lemma pending_idle f c : pending f c -> idle f.
Proof. intros []. by eapply carried_idle. Qed.

Lemma pending_soft f c c' : soft c c' -> pending f c -> pending f c'.
Proof.
  intros Hs []. constructor; eauto using soft_base, soft_carried; try (destruct Hs; congruence).
  - by rewrite (soft_in_use _ _ Hs).
  - by apply (soft_handshaking _ _ Hs).
  - destruct Hs. by rewrite soft_destination, soft_host, soft_port.
Qed.

Lemma recorded_soft r c c' : soft c c' -> recorded r c -> recorded r c'.
Proof. intros [] []. constructor; try congruence. by rewrite soft_index, soft_bytes, soft_total. Qed.

Lemma fail_pending s f c a t v m r au (Q : bool -> machine -> Prop) :
  Frame s (Local f c 1 a t v) m -> pending f c -> a = account_of cfg c -> totals_ok cfg t ->
  (forall x l' m', Frame s l' m' -> tried x l' -> Q x m') ->
  wp (egress_connection_fail s r au;; egress_connection_update_watches s) Q m.
Proof.
  intros HF Hp Ha Ht HQ. pose proof (pending_flushing _ _ Hp). destruct Hp.
  frame_step fail_watches_spec; eauto using tried_ok.
Qed.

Lemma snprintf_s_len n s : 0 < n -> len (snprintf_s n s) < n.
Proof. intros Hn. unfold snprintf_s, ztake, len. rewrite length_take. lia. Qed.


Lemma record_request_pending sv r f c :
  server_config sv = cfg -> in_use c = true -> handshaking c -> close_after_flush c = false ->
  base f c -> live f c -> fresh f c ->
  let c' := record_request sv r c in
  pending f c' /\ recorded r c' /\ quota_admitted c' = false /\ destination c' = None.
Proof.
  intros Hsv Hu Hh Hfl Hb Hl Hf. pose proof (live_uncrossed _ _ _ _ Hl (not_relay _ Hh)) as Hun.
  pose proof (live_carried _ _ _ _ Hl) as Hc. destruct Hf.
  pose proof (snprintf_s_len (EGRESS_MAX_HOST + 1) (request_host r)) as Hlen. unfold EGRESS_MAX_HOST in *.
  destruct (base_used _ _ _ _ Hb) as [_ Hq]. rewrite fresh_used in Hq. cbn zeta.
  unfold record_request. rewrite (principal_in_range_cfg _ _ Hsv), Hsv.
  destruct (index_in_range cfg (request_identity r).2) as [p|] eqn:Ep.
  - pose proof (quota_ok_stream _ (principal_quota_ok p)) as Hps. unfold is_u64, principal_of in Hps.
    split_and!; cbn; try done.
    + constructor; cbn; try done; [|by destruct Hc|by rewrite fresh_destination].
      destruct Hb. constructor; cbn; try done.
      * unfold EGRESS_MAX_HOST. lia.
      * by left.
      * by left.
      * by rewrite fresh_sni.
      * rewrite fresh_used. unfold UINT64_MAX. lia.
      * by rewrite fresh_admitted.
    + constructor; cbn; try done. intros q. rewrite Ep. by intros [= <-].
  - split_and!; cbn; try done.
    + constructor; cbn; try done; [|by destruct Hc|by rewrite fresh_destination].
      destruct Hb. constructor; cbn; try done.
      * unfold EGRESS_MAX_HOST. lia.
      * by left.
      * by left.
      * by rewrite fresh_sni.
      * by rewrite fresh_admitted.
    + constructor; cbn; try done. by rewrite Ep.
Qed.

(** What the policy in force says of a host and a port. *)
Lemma find_pinned sv host port d :
  server_policy sv ∈ pols -> Forall (fun p => policy_ok p /\ sealed p = true) pols ->
  egress_policy_find (Some (server_policy sv)) host port = Some d ->
  pinned pols host port d /\ dest_host d = host /\ len host <= EGRESS_MAX_HOST.
Proof.
  intros Hin Hall Hfind. split; [by exists (server_policy sv)|].
  rewrite Forall_forall in Hall. destruct (Hall _ Hin) as [Hok Hs].
  apply (find_spec _ _ _ _ Hok Hs) in Hfind as [Hd Hk]. unfold dest_key in Hk. injection Hk as Hh _. split; [done|].
  pose proof (policy_ok_destinations _ Hok) as Hds. rewrite Forall_forall in Hds. destruct (Hds d Hd).
  apply egress_canonical_host_form in dest_ok_host as [Hl _]. rewrite Hh in Hl. lia.
Qed.

Lemma too_many_active_false sv index v p :
  server_config sv = cfg -> principal_active sv = v -> too_many_active sv index = false ->
  index_in_range cfg index = Some p -> max_active_connections (principal_of cfg p) <> 0 ->
  counter v p < max_active_connections (principal_of cfg p).
Proof.
  intros Hc Hv Htoo Hp Hm. unfold too_many_active in Htoo. rewrite (principal_in_range_cfg _ _ Hc), Hp, Hc, Hv in Htoo.
  fold (principal_of cfg p) in Htoo. apply andb_false_iff in Htoo as [Hz|Hle].
  - apply negb_false_iff, Z.eqb_eq in Hz. congruence.
  - by apply Z.leb_gt in Hle.
Qed.

Definition with_admission (index : option nat) (c : egress_connection_t) : egress_connection_t :=
  match index_in_range cfg index with
  | Some _ => c <| quota_admitted := true |>
  | None => c
  end.

Lemma admit_spec s f c t v m index (Q : unit -> machine -> Prop) :
  Frame s (Local f c 1 no_account t v) m -> quota_admitted c = false -> principal_index c = index -> quota_stream_used c = 0 ->
  (forall p, index_in_range cfg index = Some p -> max_active_connections (principal_of cfg p) <> 0 ->
     counter v p < max_active_connections (principal_of cfg p)) ->
  (forall v' m', Frame s (Local f (with_admission index c) 1 (account_of cfg (with_admission index c)) t v') m' ->
     Q tt m') ->
  wp (admit_request s index) Q m.
Proof.
  intros HF Hq Hi Hz Hroom HQ. unfold admit_request. do 3 step.
  rewrite (principal_in_range_cfg _ _ (frame_config _ _ _ _ _ HF)). unfold with_admission, account_of, admitted_as in HQ.
  destruct (index_in_range cfg index) as [p|] eqn:Ep.
  - step. frame_step wp_activate; [apply (index_in_range_Some _ _ Ep)|by apply Hroom|]. next. step.
    quiet_step. destruct x. eapply HQ. cbn. rewrite Hi, Hz, Ep. exact HF.
  - step. quiet_step. destruct x. eapply HQ. rewrite Hq. exact HF.
Qed.

Lemma with_admission_pending f c r :
  pending f c -> recorded r c -> quota_admitted c = false ->
  let c' := with_admission (request_identity r).2 c in pending f c' /\ recorded r c' /\ destination c' = destination c.
Proof.
  intros Hp Hr Hq. cbn zeta. unfold with_admission.
  destruct (index_in_range cfg (request_identity r).2) as [p|] eqn:Ep; [|done].
  destruct Hp, Hr. split_and!; [|by constructor|done]. constructor; try done; [|by destruct pending_carried0].
  destruct pending_base0. constructor; try done. intros _. exists p. cbn.
  rewrite recorded_index0 in *. split; [done|]. by apply recorded_quota0.
Qed.

(** The input that is to be relayed is in place. *)
Lemma pending_rewritten s f c r input :
  pending f c -> rewrite_input (client_to_upstream c) r = Some input ->
  pending (flow_step (Taken s (consumed r) (forward_bytes r)) f) (c <| client_to_upstream := input |>) /\
  length_ input = len (up_in (flow_step (Taken s (consumed r) (forward_bytes r)) f)).
Proof.
  intros [] Hi. destruct pending_carried0, pending_uncrossed0 as [Hu1 Hu2].
  destruct (rewrite_spec _ _ _ carried_up_ok Hi) as [Hok Hc]. rewrite Hu1 in carried_up. cbn [app] in carried_up.
  split.
  - constructor; cbn; try done.
    + destruct pending_base0. constructor; cbn; try done. by rewrite pending_sni0.
    + constructor; cbn; try done. by rewrite Hc, Hu1, carried_up.
  - cbn. rewrite carried_up, <-Hc. symmetry. apply len_content, Hok.
Qed.

Lemma pending_opening f c t :
  pending f c -> allows t c (len (up_in f)) -> (exists d, destination c = Some d /\
    (require_tls_sni d = true -> is_tunnel (conn_protocol c) = true)) ->
  opening f (charged (len (up_in f)) c).
Proof.
  intros [] Hall Hd. pose proof (not_relay _ pending_state0). pose proof (handshaking_connecting _ pending_state0).
  assert (He : exact_use f (charged (len (up_in f)) c)).
  { intros Had. cbn in *. rewrite Had, pending_zero0, add_saturating_min.
    destruct (uncrossed_sent _ _ pending_carried0 pending_uncrossed0) as [_ ->]. f_equal. lia. }
  constructor; auto.
  - eapply charged_base; [done|apply len_nonneg|done].
  - constructor; cbn; auto; try by destruct pending_carried0.
    unfold fair, exact_use in *. cbn in *. destruct (quota_admitted c); auto.
Qed.

Lemma pending_refused f c t v :
  pending f c -> totals_ok cfg t -> tried false (Local f c 1 (account_of cfg c) t v).
Proof.
  intros Hp Ht. pose proof (pending_fair _ _ Hp). pose proof (pending_idle _ _ Hp). destruct Hp.
  split_and!; [|done|by intros _ _]. split_and!; cbn; auto; [by rewrite pending_used0|congruence].
Qed.

(** [egress_connection_begin_request] from the admission on. *)
Lemma admitted_request_spec s f c t v m r d (Q : bool -> machine -> Prop) :
  Frame s (Local f c 1 (account_of cfg c) t v) m -> pending f c -> recorded r c -> destination c = Some d ->
  (require_tls_sni d = true -> is_tunnel (protocol r) = true) -> totals_ok cfg t ->
  (forall x l' m', Frame s l' m' -> tried x l' -> Q x m') ->
  wp (c ← get_conn s;
      match rewrite_input (client_to_upstream c) r with
      | None => mret false
      | Some input =>
          set_conn s (fun c => c <| client_to_upstream := input |>);;
          note (Taken s (consumed r) (forward_bytes r));;
          answer ← quota_allowance s;
          let '(allowance, scope) := answer in
          c ← get_conn s;
          if (allowance <? length_ input) ||
             ((allowance =? 0) && (negb (quota_bytes c =? 0) || negb (quota_total_bytes c =? 0)))
          then egress_quota_deny s scope;; fail_denied s
          else egress_quota_charge s (length_ input);; egress_connection_connect_next s
      end) Q m.
Proof.
  intros HF Hp Hr Hd Htun Ht HQ. do 2 step.
  destruct (rewrite_input (client_to_upstream c) r) as [input|] eqn:Ei.
  2:{ step. eapply HQ; [exact HF|]. by apply pending_refused. }
  do 3 step. frame_step wp_note; [done|done|]. next.
  destruct (pending_rewritten s _ _ _ _ Hp Ei) as [Hp1 Hlen].
  generalize dependent (flow_step (Taken s (consumed r) (forward_bytes r)) f). clear f Hp. intros f HF Hp Hlen.
  match type of HF with Frame _ (Local _ ?y _ _ _ _) _ =>
    assert (Hr1 : recorded r y) by (by destruct Hr; constructor);
    change (pending f y) in Hp; change (account_of cfg c) with (account_of cfg y) in HF;
    change (destination y = Some d) in Hd; generalize dependent y end.
  clear c Hr Ei. intros c Hd HF Hp Hr.
  step. eapply wp_allowance; [exact HF|by destruct Hp|done|]. intros [allowance scope] _ Hall. do 2 step.
  destruct (_ || _) eqn:Edeny.
  - step. soft_step. frame_step fail_pending; auto; [by eapply pending_soft|].
    by rewrite (soft_account _ _ _ Hsoft).
  - apply orb_false_iff in Edeny as [Ele%Z.ltb_ge _]. pose proof (len_nonneg (up_in f)). cbn in Hall. rewrite Hlen in *.
    step. frame_step charge_spec; [by destruct Hp|done|done|by apply Hall|].
    clear dependent m. intros t' m Ht' HF.
    frame_step connect_next_spec; eauto using tried_ok; [|left; by destruct Hp].
    eapply pending_opening; [done|by apply Hall|]. exists d. by rewrite (recorded_protocol _ _ Hr).
Qed.

Lemma begin_request_spec s f c a t v m r (Q : bool -> machine -> Prop) :
  Frame s (Local f c 1 a t v) m -> in_use c = true -> handshaking c -> close_after_flush c = false ->
  base f c -> live f c -> fresh f c -> a = account_of cfg c -> totals_ok cfg t -> asked r ->
  (forall x l' m', Frame s l' m' -> tried x l' -> Q x m') ->
  wp (egress_connection_begin_request s r) Q m.
Proof.
  intros HF Hu Hh Hfl Hb Hl Hf -> Ht Hask HQ. unfold egress_connection_begin_request. do 2 step.
  pose proof (frame_config _ _ _ _ _ HF) as Hsv. pose proof (frame_policy _ _ _ _ _ HF) as Hpol.
  pose proof (frame_policies _ _ _ _ _ HF) as Hpols. pose proof (frame_actives _ _ _ _ _ HF) as Hact. cbn in Hact.
  assert (Ea : account_of cfg c = no_account) by (apply account_none, (fresh_admitted _ _ Hf)). rewrite Ea in HF.
  generalize dependent (server m). intros sv Hsv Hpol Hact. do 2 step.
  destruct (record_request_pending sv r f c) as (Hp & Hr & Hq & Hd); [done..|].
  clear Hb Hl Hf Hu Hh Hfl Ea. generalize dependent (record_request sv r c). clear c. intros c HF Hp Hr Hq Hd.
  assert (Ha : no_account = account_of cfg c) by (by rewrite account_none).
  destruct (too_many_active sv (request_identity r).2) eqn:Etoo.
  { step. soft_step. step. quiet_step. frame_step fail_pending; auto; [by eapply pending_soft|].
    by rewrite (soft_account _ _ _ Hsoft). }
  destruct (egress_policy_find (Some (server_policy sv)) (request_host r) (request_port r)) as [d|] eqn:Efind.
  2: by frame_step fail_pending.
  destruct (find_pinned sv _ _ _ Hpol Hpols Efind) as (Hpin & Hdh & Hlen).
  assert (Hhost : conn_host c = request_host r)
    by (rewrite (recorded_host _ _ Hr); apply snprintf_s_id; unfold EGRESS_MAX_HOST in *; lia).
  do 2 step. rewrite Hhost in HF. replace (d <| dest_host := request_host r |>) with d in HF by (by destruct d; cbn in *; subst).
  match type of HF with Frame _ (Local _ ?y _ _ _ _) _ =>
    assert (Hp1 : pending f y) by (destruct Hp; constructor; cbn; auto;
      [by destruct pending_base0|by destruct pending_carried0|];
      intros d' [= <-]; rewrite Hhost, (recorded_port _ _ Hr); done);
    assert (Hr1 : recorded r y) by (by destruct Hr; constructor);
    assert (Hq1 : quota_admitted y = false) by done;
    assert (Hd1 : destination y = Some d) by done;
    assert (Hi1 : principal_index y = (request_identity r).2) by (by destruct Hr);
    assert (Ha1 : no_account = account_of cfg y) by done;
    generalize dependent y end.
  clear c Hp Hr Hq Hd Ha Hhost. intros c HF Hp Hr Hq Hd Hi Ha.
  destruct (require_tls_sni d && bool_decide (protocol r = MAELYS_EGRESS_PROTOCOL_HTTP_FORWARD)) eqn:Esni.
  { by frame_step fail_pending. }
  assert (Htun : require_tls_sni d = true -> is_tunnel (protocol r) = true).
  { intros E. rewrite E in Esni. cbn in Esni. apply bool_decide_eq_false in Esni. unfold asked in Hask.
    by destruct (protocol r). }
  step. frame_step admit_spec; [done|done|by destruct Hp| |].
  { intros p Hp' Hm. by eapply too_many_active_false. }
  destruct (with_admission_pending f c r Hp Hr Hq) as (Hp2 & Hr2 & Hd2). rewrite Hd in Hd2.
  clear dependent m. intros v' m HF. by frame_step admitted_request_spec.
Qed.

(** * Handshakes *)

Lemma http_asked header_copy rewrite_copy b r :
  egress_parse_http_request header_copy rewrite_copy cfg b = Complete r -> asked r.
Proof.
  unfold egress_parse_http_request. destruct (lookup_identity _) as [bound found].
  destruct (find_sub _ b); [|by destruct (_ <=? _)]. destruct (negb _); [done|]. destruct (negb _); [done|].
  destruct (find_sub crlf _); [|done]. destruct (split_request_line _ _) as [[[method target] header]|]; [|done].
  destruct (request_target method target) as [l|] eqn:El; [|done].
  assert (Hl : line_protocol l <> MAELYS_EGRESS_PROTOCOL_NONE).
  { revert El. unfold request_target. destruct (_ || _); [done|]. destruct (negb _); [done|]. destruct (beq _ _).
    - destruct (_ <=? _); [done|]. destruct (parse_authority _ _) as [[]|]; [|done]. by intros [= <-].
    - destruct (absolute_target target) as [[]|]; [|done]. destruct (parse_authority _ _) as [[]|]; [|done].
      destruct (has_char _ _); [done|]. by intros [= <-]. }
  destruct (negb _ && negb _); [done|]. destruct (negb _ && _); [done|]. destruct (http_fields _ _ _ _ _ _ _); [|done].
  unfold http_conclude. destruct (_ || _); [done|]. destruct (_ && _); [done|]. destruct (_ || _); [done|].
  destruct (connect_line l); [by intros [= <-]|]. destruct (append_bytes _ _ _); [|done]. by intros [= <-].
Qed.

Lemma socks_asked b ss r s' : egress_parse_socks_frame b cfg ss = (FrameRequest r, s') -> asked r.
Proof.
  unfold egress_parse_socks_frame. destruct (_ || _); [done|]. cbn zeta.
  destruct (_ =? 0).
  { destruct (_ <? 2); [done|]. destruct (_ || _); [done|]. destruct (_ <? _); [done|].
    destruct (lookup_identity _). by destruct (negb _). }
  destruct (_ =? 1).
  { destruct (_ <? 2); [done|]. destruct (negb _); [done|]. destruct (_ =? 0); [done|]. destruct (_ <? _); [done|].
    destruct (_ =? 0); [done|]. destruct (_ <? _); [done|]. match goal with |- context [let '(_, _) := ?x in _] => destruct x end. by destruct (negb _). }
  destruct (_ <? 4); [done|]. destruct (_ || _); [done|].
  destruct (request_address b) as [x|[[raw o] n]] eqn:Er.
  - intros [= -> _]. revert Er. unfold request_address. cbn zeta.
    repeat match goal with |- context [match ?b with _ => _ end] => destruct b; try done end.
  - destruct (_ <? _); [done|]. destruct (_ =? 0); [done|]. destruct (egress_canonical_host raw); [|done].
    by intros [= <- _].
Qed.

Lemma socks_consumed b ss : Forall is_byte b -> 0 <= out_consumed ss ->
  0 <= out_consumed (egress_parse_socks_frame b cfg ss).2.
Proof.
  intros Hb Hss. pose proof (fun i => at_byte b i Hb) as Hat. unfold is_byte in Hat.
  unfold egress_parse_socks_frame. destruct (_ || _); [done|]. cbn zeta.
  destruct (_ =? 0).
  { destruct (_ <? 2); [done|]. destruct (_ || _); [done|]. destruct (_ <? _); [done|].
    destruct (lookup_identity _). pose proof (Hat 1). destruct (negb _); cbn; lia. }
  destruct (_ =? 1).
  { destruct (_ <? 2); [done|]. destruct (negb _); [done|]. destruct (_ =? 0); [done|]. destruct (_ <? _); [done|].
    destruct (_ =? 0); [done|]. destruct (_ <? _); [done|]. match goal with |- context [let '(_, _) := ?x in _] => destruct x end.
    pose proof (Hat 1). pose proof (Hat (2 + at_ b 1)). destruct (negb _); cbn; lia. }
  destruct (_ <? 4); [done|]. destruct (_ || _); [done|].
  destruct (request_address b) as [x|[[raw o] n]] eqn:Er; [done|].
  destruct (_ <? _); [done|]. destruct (_ =? 0); [done|]. destruct (egress_canonical_host raw); [|done]. cbn.
  revert Er. unfold request_address. cbn zeta. pose proof (Hat 4).
  repeat match goal with |- context [match ?b with _ => _ end] => destruct b; try done end; intros [= _ <- <-]; lia.
Qed.

(** A connection that waits for its request. *)
Record waiting (f : flow) (c : egress_connection_t) : Prop := {
  waiting_used : in_use c = true;
  waiting_state : handshaking c;
  waiting_flush : close_after_flush c = false;
  waiting_base : base f c;
  waiting_live : live f c;
  waiting_fresh : fresh f c;
}.

Lemma waiting_ok f c k a t v :
  waiting f c -> totals_ok cfg t -> k = 1 -> a = no_account -> local_ok (Local f c k a t v).
Proof.
  intros [] Ht -> ->. split_and!; cbn; try done.
  - right. by split_and!.
  - by rewrite waiting_used0.
  - by rewrite account_none by (by destruct waiting_fresh0).
Qed.

Lemma waiting_soft f c c' : soft c c' -> waiting f c -> waiting f c'.
Proof.
  intros Hs []. constructor; eauto using soft_base, soft_live, soft_fresh.
  - by rewrite (soft_in_use _ _ Hs).
  - by apply (soft_handshaking _ _ Hs).
  - by rewrite (soft_flush _ _ Hs).
Qed.

Lemma waiting_uncrossed f c : waiting f c -> uncrossed f.
Proof. intros []. apply (live_uncrossed _ _ _ _ waiting_live0), not_relay, waiting_state0. Qed.

Lemma waiting_idle f c : waiting f c -> idle f.
Proof. intros Hw. pose proof (waiting_uncrossed _ _ Hw). destruct Hw as [_ _ _ _ [] _]. by eapply carried_idle. Qed.

(** Before the request, the principal and the protocol may change. *)
Lemma waiting_identity f c phase_ proto id index :
  waiting f c ->
  waiting f (c <| socks_phase := phase_ |> <| authenticated_invocation_id := id |>
               <| principal_index := index |> <| conn_protocol := proto |>).
Proof.
  intros []. destruct waiting_fresh0. constructor; try done.
  - destruct waiting_base0. constructor; try done. cbn. by rewrite fresh_admitted.
  - destruct waiting_live0. constructor; try done; [by destruct live_carried|by left].
Qed.

Lemma waiting_queued b s f c c' : queued b c c' -> waiting f c -> waiting (flow_step (Queued s b) f) c'.
Proof.
  intros Hq Hw. pose proof (waiting_uncrossed _ _ Hw). destruct Hw.
  constructor; eauto using queued_base, queued_live, queued_fresh; by destruct Hq as (? & -> & _).
Qed.

Lemma waiting_taken s f c n :
  waiting f c -> 0 <= n ->
  waiting (flow_step (Taken s n []) f) (c <| client_to_upstream := buffer_consume (client_to_upstream c) n |>).
Proof.
  intros Hw Hn. destruct (waiting_uncrossed _ _ Hw) as [Hu1 Hu2]. destruct Hw.
  pose proof (waiting_fresh0) as []. pose proof (waiting_live0) as []. pose proof live_carried as [].
  rewrite Hu1 in carried_up. cbn [app] in carried_up. destruct carried_up_ok as [Hb Hc].
  destruct (consume_spec _ n Hb Hn) as (Hb' & Ec & Ecap).
  constructor; try done.
  - destruct waiting_base0. constructor; try done. cbn. by rewrite fresh_sni.
  - constructor; try done; cbn.
    + constructor; cbn; try done; [split; congruence|]. by rewrite Hu1, Ec, carried_up.
    + intros _ Had. change (quota_admitted c = true) in Had. congruence.
    + unfold fair. cbn. by rewrite fresh_admitted.
  - constructor; try done. cbn. by apply Forall_drop.
Qed.

Lemma waiting_flushing f c c' k a t v :
  waiting f c -> soft (flushing c) c' -> totals_ok cfg t -> k = 1 -> a = no_account -> local_ok (Local f c' k a t v).
Proof.
  intros [] Hs Ht -> ->. eapply soft_local_ok; [done|]. apply flushed_ok; auto using flushing_base, live_flushing.
  change (no_account = account_of cfg c). by rewrite account_none by (by destruct waiting_fresh0).
Qed.

Lemma waiting_close f c : waiting f c -> account_of cfg c = no_account.
Proof. intros []. apply account_none. by destruct waiting_fresh0. Qed.

Lemma held_fail_spec s l m r au (R : unit -> machine -> Prop) :
  Frame s l m -> held l -> mild l -> in_use (l_conn l) = true ->
  (forall l' m', Frame s l' m' -> held l' -> mild l' -> R tt m') -> wp (egress_connection_fail s r au) R m.
Proof.
  destruct l as [f c k a t' v']. intros HF (Hto & Hk & Ha & Hb & _) Hm Hu HR. cbn in *. rewrite Hu in Hk. subst k.
  destruct (Hb Hu). frame_step fail_spec; eauto.
Qed.

Section Frames.
Context (s : nat) (t v : list Z) (Q : bool -> machine -> Prop).
Context (Ht : totals_ok cfg t).
Context (HQ : forall x l' m', Frame s l' m' -> tried x l' -> Q x m').

Lemma waiting_return f c x m : Frame s (Local f c 1 no_account t v) m -> waiting f c -> Q x m.
Proof.
  intros HF Hw. eapply HQ; [exact HF|]. apply tried_ok; [by apply waiting_ok|]. intros _ _. by eapply waiting_idle.
Qed.

Lemma consume_frame_spec f c m n k :
  Frame s (Local f c 1 no_account t v) m -> waiting f c -> 0 <= n ->
  (forall f c m, Frame s (Local f c 1 no_account t v) m -> waiting f c -> wp k Q m) ->
  wp (consume_frame s n;; k) Q m.
Proof.
  intros HF Hw Hn Hk. step. unfold consume_frame, when. destruct (negb _); [|step; by eapply Hk]. do 2 step.
  frame_step wp_note; [done|done|]. next. eapply Hk; [exact HF|]. by apply waiting_taken.
Qed.

Lemma refuse_frame_spec f c m r :
  Frame s (Local f c 1 no_account t v) m -> waiting f c -> wp (refuse_frame s r) Q m.
Proof.
  intros HF Hw. unfold refuse_frame. do 3 step.
  assert (Hok : local_ok (Local f (c <| conn_result := r |> <| close_after_flush := true |>) 1 no_account t v))
    by (eapply waiting_flushing; try done; solve_soft).
  eapply HQ; [exact HF|]. apply tried_ok; [done|]. intros _ _. by eapply waiting_idle.
Qed.

Lemma conclude_frame_spec f c m again parsed ss :
  Frame s (Local f c 1 no_account t v) m -> waiting f c -> 0 <= out_consumed ss ->
  (forall r, parsed = FrameRequest r -> asked r) ->
  (forall f c m, Frame s (Local f c 1 no_account t v) m -> waiting f c -> wp again Q m) ->
  wp (conclude_frame s again parsed ss) Q m.
Proof.
  intros HF Hw Hn Hask Hagain. unfold conclude_frame.
  destruct parsed; try (frame_step consume_frame_spec; eauto using refuse_frame_spec).
  pose proof (waiting_close _ _ Hw). destruct Hw. frame_step begin_request_spec; eauto.
Qed.

Lemma parse_socks_loop_spec rounds f c m :
  Frame s (Local f c 1 no_account t v) m -> waiting f c -> wp (parse_socks_loop rounds s) Q m.
Proof.
  revert f c m. induction rounds as [|rounds IH]; intros f c m HF Hw; cbn [parse_socks_loop].
  { step. by eapply waiting_return. }
  unfold parse_socks_round. do 4 step.
  match goal with |- context [egress_parse_socks_frame ?b cfg ?s0] =>
    pose proof (socks_consumed b s0) as Hn; pose proof (socks_asked b s0) as Hask;
    destruct (egress_parse_socks_frame b cfg s0) as [parsed ss] end.
  assert (Hn' : 0 <= out_consumed ss).
  { apply Hn; [|done]. destruct (waiting_uncrossed _ _ Hw) as [Hu _].
    pose proof (fresh_bytes _ _ (waiting_fresh _ _ Hw)) as Hb.
    rewrite (carried_up _ _ _ (live_carried _ _ _ _ (waiting_live _ _ Hw))), Hu in Hb. done. }
  clear Hn. do 2 step.
  apply (waiting_identity _ _ (phase ss) (conn_protocol c) (authenticated_identity ss).1 (authenticated_identity ss).2) in Hw.
  match type of HF with Frame _ (Local _ ?y _ _ _ _) _ => change (waiting f y) in Hw; generalize dependent y end.
  clear c. intros c Hw HF.
  assert (Hq : wp (queued ← (if len (out_response ss) =? 0 then mret true else queue_to_client s (out_response ss));
    if negb queued then mret false else conclude_frame s (parse_socks_loop rounds s) parsed ss) Q m).
  { assert (Hgo : forall f c m, Frame s (Local f c 1 no_account t v) m -> waiting f c ->
      wp (conclude_frame s (parse_socks_loop rounds s) parsed ss) Q m)
      by (intros; eapply conclude_frame_spec; eauto; intros r ->; by eapply Hask).
    step. destruct (len (out_response ss) =? 0); [step; by eapply Hgo|].
    frame_step queue_spec; clear dependent m.
    - intros m c' Hs HF. cbn [negb]. step. eapply waiting_return; [exact HF|by eapply waiting_soft].
    - intros m c' Hq HF. cbn [negb]. eapply Hgo; [exact HF|by eapply waiting_queued]. }
  destruct parsed; [step; by eapply waiting_return|exact Hq..].
Qed.

Lemma http_failure_spec f c m r au :
  Frame s (Local f c 1 no_account t v) m -> waiting f c ->
  wp (set_conn s (fun c => c <| conn_protocol := MAELYS_EGRESS_PROTOCOL_HTTP_CONNECT |>);;
      egress_connection_fail s r au;; mret true) Q m.
Proof.
  intros HF Hw. do 3 step.
  apply (waiting_identity _ _ (socks_phase c) MAELYS_EGRESS_PROTOCOL_HTTP_CONNECT
    (authenticated_invocation_id c) (principal_index c)) in Hw.
  match type of HF with Frame _ (Local _ ?y _ _ _ _) _ => change (waiting f y) in Hw; generalize dependent y end.
  clear c. intros c Hw HF. pose proof (waiting_close _ _ Hw). pose proof (waiting_idle _ _ Hw). destruct Hw.
  frame_step fail_spec; eauto; [by apply (live_fair _ _ _ _ waiting_live0)|]. clear dependent m.
  intros l' m HF Hh Hm Hok. step. eapply HQ; [exact HF|]. apply tried_ok; eauto using live_flushing.
Qed.

End Frames.

Lemma process_handshake_spec s t v f c m (Q : bool -> machine -> Prop) :
  totals_ok cfg t ->
  (forall x l' m', Frame s l' m' -> tried x l' -> Q x m') ->
  Frame s (Local f c 1 no_account t v) m -> waiting f c -> wp (egress_connection_process_handshake s) Q m.
Proof.
  intros Ht HQ HF Hw. unfold egress_connection_process_handshake. do 2 step.
  destruct (length_ (client_to_upstream c) =? 0); [step; by eapply waiting_return|].
  destruct (_ || _).
  - do 2 step.
    apply (waiting_identity _ _ (socks_phase c) MAELYS_EGRESS_PROTOCOL_SOCKS5
      (authenticated_invocation_id c) (principal_index c)) in Hw.
    match type of HF with Frame _ (Local _ ?y _ _ _ _) _ => change (waiting f y) in Hw; generalize dependent y end.
    clear c. intros c Hw HF. step. eapply parse_socks_loop_spec; [done| |exact HF|done]. clear dependent m.
    intros x l m HF Hx. do 3 step. unfold when. destruct x; cbn [negb andb].
    { do 2 step. by eapply HQ. }
    destruct Hx as (Hh & _ & Hm). specialize (Hm eq_refl). destruct (in_use (l_conn l)) eqn:Hu.
    + frame_step held_fail_spec; [done..|]. clear dependent m. intros l' m HF Hh' Hm'. step. by eapply HQ.
    + do 2 step. by eapply HQ.
  - do 2 step. step. quiet_step. step. quiet_step.
    pose proof (http_asked x x0 (content (client_to_upstream c))) as Hask.
    destruct (egress_parse_http_request x x0 cfg (content (client_to_upstream c))); try by eapply http_failure_spec.
    + step. by eapply waiting_return.
    + pose proof (waiting_close _ _ Hw). destruct Hw. frame_step begin_request_spec; eauto.
Qed.


End Facts.

#[export] Hint Resolve quiet_monotonic_now quiet_wall_now quiet_socket_release
  quiet_open_command_release quiet_open_command_complete quiet_count_audit_failure
  quiet_attest_receipt quiet_append_to_audit quiet_watch_or_modify quiet_quota_allowance : quiet.
#[export] Hint Resolve softly_release_client softly_release_upstream softly_quota_deny
  softly_client_room softly_upstream_room softly_client_interests softly_upstream_interests
  softly_update_client_watch softly_update_upstream_watch softly_update_watches : softly.
