(* ===== verification/RelayFacts.v ===== *)
(** How the programs of Relay.v change the slot they work on: transfers,
    dispatch and acceptance keep the invariant. *)

From S2P Require Import Prelude Common Codec Sha256 Config Policy Http Socks ClientHello.
From S2P Require Import Receipt Journal Buffer Server Connection Relay Invariant ConnectionFacts.

Section Facts.
Context `{Inet} `{SysLaws}.
Context (cfg : maelys_egress_config) (pols : list maelys_egress_policy).
Context (Hcfg : config_ok cfg).
Set Default Proof Using "Type*".

Local Abbreviation Frame := (Frame cfg pols).
Local Abbreviation base := (base cfg pols).
Local Abbreviation live := (live cfg pols).
Local Abbreviation local_ok := (local_ok cfg pols).
Local Abbreviation held := (held cfg pols).
Local Abbreviation waiting := (waiting cfg pols).
Local Abbreviation softly := (softly cfg pols).
Local Abbreviation allows := (allows cfg).

(** * Soft programs *)

Lemma softly_touch_activity slot r : softly slot (touch_activity slot r).
Proof. unfold touch_activity. solve_softly. Qed.

Lemma softly_hup_as_read slot side f : softly slot (hup_as_read slot side f).
Proof.
  unfold hup_as_read. destruct (_ && _); [|solve_softly]. apply softly_bind; [|intros; solve_softly].
  apply softly_set_conn. intros c. destruct (_ =? _); [solve_soft|]. destruct (bool_decide _); solve_soft.
Qed.

Lemma softly_half_close_upstream slot : softly slot (half_close_upstream slot).
Proof. unfold half_close_upstream. solve_softly. Qed.
Lemma softly_half_close_client slot : softly slot (half_close_client slot).
Proof. unfold half_close_client. solve_softly. Qed.
Hint Resolve softly_touch_activity softly_hup_as_read softly_half_close_upstream
  softly_half_close_client : softly.
Lemma softly_apply_half_closes slot : softly slot (apply_half_closes slot).
Proof. unfold apply_half_closes. solve_softly. Qed.
Hint Resolve softly_apply_half_closes : softly.

Lemma held_soft f c c' k a t v : soft c c' -> held (Local f c k a t v) -> held (Local f c' k a t v).
Proof.
  intros Hs (Ht & Hk & Ha & Hb & Hn). cbn in *. unfold ConnectionFacts.held. cbn.
  rewrite (soft_in_use _ _ Hs), (soft_account _ _ _ Hs), (soft_admitted _ _ Hs).
  split_and!; try done. intros Hu. destruct (Hb Hu). split; [by eapply soft_base|by eapply soft_fair].
Qed.

(** * Settled connections *)

(** A connection past its handshake. *)
Record settled (f : flow) (c : egress_connection_t) : Prop := {
  settled_used : in_use c = true;
  settled_state : ~ handshaking c;
  settled_base : base f c;
  settled_live : live f c;
}.

Lemma settled_soft f c c' : soft c c' -> settled f c -> settled f c'.
Proof.
  intros Hs []. constructor; eauto using soft_base, soft_live; [by rewrite (soft_in_use _ _ Hs)|].
  by rewrite (soft_handshaking _ _ Hs).
Qed.

Lemma settled_local f c k a t v :
  settled f c -> totals_ok cfg t -> k = 1 -> a = account_of cfg c -> local_ok (Local f c k a t v).
Proof. intros [] Ht Hk Ha. by apply settled_ok. Qed.

Lemma settled_exact f c : settled f c -> exact_use f c.
Proof. intros []. apply (live_exact _ _ _ _ settled_live0). by left. Qed.

Lemma exact_fair f c : exact_use f c -> (quota_admitted c = false -> quota_stream_used c = 0) -> fair f c.
Proof. unfold exact_use, fair. destruct (quota_admitted c); auto. Qed.

(** * Reading from the client *)

(** [b] arrived from the client. *)
Definition fed (b : bytes) (c c' : egress_connection_t) : Prop :=
  exists buffer, soft (c <| client_to_upstream := buffer |>
                         <| bytes_from_client := u64 (bytes_from_client c + len b) |>) c' /\
    buffer_wf buffer /\ content buffer = content (client_to_upstream c) ++ b /\
    capacity buffer = capacity (client_to_upstream c).

Lemma fed_soft b c c' c'' : fed b c c' -> soft c' c'' -> fed b c c''.
Proof. intros (buffer & Hs & Hb) Hs'. exists buffer. split; [|done]. by etransitivity. Qed.

Lemma fed_base b s f c c' : fed b c c' -> base f c -> base (flow_step (FromClient s b) f) c'.
Proof.
  intros (buffer & Hs & _) []. eapply soft_base; [exact Hs|]. constructor; cbn; auto.
  - rewrite base_from. unfold u64. by rewrite Zplus_mod_idemp_l.
  - intros Hv. unfold names_host in *. specialize (base_sni Hv). cbn. by rewrite matches_stable, base_sni by congruence.
Qed.

Lemma fed_carried b s f c c' : fed b c c' -> carried cfg f c -> carried cfg (flow_step (FromClient s b) f) c'.
Proof.
  intros (buffer & Hs & Hw & Hc & Hcap) []. eapply soft_carried; [exact Hs|]. constructor; cbn; auto.
  - split; [done|]. rewrite Hcap. apply carried_up_ok.
  - by rewrite carried_up, Hc, app_assoc.
Qed.

Lemma fed_waiting b s f c c' :
  fed b c c' -> Forall is_byte b -> waiting f c -> waiting (flow_step (FromClient s b) f) c'.
Proof.
  intros Hf Hb []. pose proof (fed_base b s _ _ _ Hf waiting_base) as Hbase.
  pose proof (fed_carried b s _ _ _ Hf (live_carried _ _ _ _ waiting_live)) as Hcar.
  destruct Hf as (buffer & Hs & Hbuf). destruct waiting_live, waiting_fresh.
  assert (Hfresh : fresh (flow_step (FromClient s b) f) c').
  { eapply soft_fresh; [exact Hs|]. constructor; try done. cbn. by apply Forall_app. }
  constructor; auto; try (by rewrite (soft_in_use _ _ Hs) || by apply (soft_handshaking _ _ Hs)
    || by rewrite (soft_flush _ _ Hs)).
  pose proof (handshaking_connecting _ waiting_state) as Hcon.
  destruct Hs, Hfresh. constructor; auto.
  - intros Hst. rewrite soft_state in Hst. by destruct (live_uncrossed Hst).
  - left. unfold handshaking in *. by rewrite soft_state.
  - left. unfold handshaking in *. by rewrite soft_state.
  - intros d Hd. rewrite fresh_destination0 in Hd. done.
  - intros d Hst. destruct (not_relay _ waiting_state). by rewrite <-Hst, soft_state.
  - intros _ Had. congruence.
  - unfold fair. by rewrite fresh_admitted0.
  - intros Hst. destruct Hcon. by rewrite <-Hst, soft_state.
  - intros Hst. destruct Hst. unfold handshaking in *. by rewrite soft_state.
Qed.

Lemma fed_settled b s f c c' t :
  fed b c c' -> settled f c -> allows t c (len b) ->
  settled (flow_step (FromClient s b) f) (charged (len b) c') /\ allows t c' (len b) /\
  base (flow_step (FromClient s b) f) c'.
Proof.
  intros Hf Hset Hall. pose proof (settled_exact _ _ Hset) as Hex. destruct Hset.
  pose proof (fed_base b s _ _ _ Hf settled_base0) as Hbase.
  pose proof (fed_carried b s _ _ _ Hf (live_carried _ _ _ _ settled_live0)) as Hcar.
  destruct Hf as (buffer & Hs & Hbuf). destruct settled_live0.
  assert (Hall' : allows t c' (len b)).
  { destruct Hs. unfold ConnectionFacts.allows in *. cbn in *. by rewrite soft_admitted, soft_index, soft_bytes, soft_used, soft_total. }
  assert (Hh : ~ handshaking (charged (len b) c')).
  { destruct Hs. unfold handshaking in *. cbn in *. by rewrite soft_state. }
  assert (Hu : in_use (charged (len b) c') = true).
  { change (in_use c' = true). by rewrite (soft_in_use _ _ Hs). }
  split_and!; [|done|done]. constructor; auto.
  - eapply charged_base; [done|done|apply len_nonneg|done].
  - pose proof (soft_kept _ _ Hs) as Hk. pose proof (soft_trying f _ _ Hs) as Hy. pose proof (soft_named f _ _ Hs) as Hn.
    assert (Hnew : exact_use (flow_step (FromClient s b) f) (charged (len b) c')).
    { intros Had. destruct Hs. cbn in *. rewrite Had. rewrite soft_admitted in Had. specialize (Hex Had).
      rewrite soft_used, Hex, add_saturating_min, len_app. unfold payload_down. cbn. pose proof (len_nonneg b). lia. }
    destruct Hs. cbn in *. constructor; cbn; rewrite ?soft_state, ?soft_destination, ?soft_protocol, ?soft_host, ?soft_port, ?soft_sni; auto.
    + by destruct Hcar.
    + right. by destruct live_destination.
    + right. destruct live_target; [done|]. unfold aimed in *. cbn. by rewrite soft_destination, soft_host, soft_port.
    + apply exact_fair; [done|]. cbn. intros Had. rewrite Had, soft_used. unfold fair in live_fair. rewrite soft_admitted in Had. by rewrite Had in live_fair.
    + intros Hst Hne. apply Hy, live_trying; auto. by apply Hk.
    + intros _ Hst Hne. apply Hn, live_named; auto. by apply Hk.
Qed.

(** The bytes that a receive into the room of a buffer leaves there. *)
Lemma received_into b input room buffer :
  buffer_wf input -> buffer_available input = (room, buffer) -> len b <= room ->
  buffer_wf (buffer_put buffer b) /\ content (buffer_put buffer b) = content input ++ b /\
  capacity (buffer_put buffer b) = capacity input.
Proof.
  intros Hw Ha Hb. destruct (available_spec _ _ _ Hw Ha) as (Hw' & Hc & Hcap & Hroom & _).
  destruct (content_put buffer b Hw') as [Hp Hpc]; [lia|]. by rewrite Hpc, Hc.
Qed.

Definition an_end (e : endpoint) : Prop := e = client_end \/ e = upstream_end.

Lemma read_into_spec e s f c k a t v m maximum (Q : bool * bool -> machine -> Prop) :
  Frame s (Local f c k a t v) m -> an_end e -> buffer_wf (in_buffer e c) ->
  (forall x m' c', soft c c' -> Frame s (Local f c' k a t v) m' -> Q x m') ->
  (forall b buffer c1 m', soft c c1 -> len b <= maximum -> Forall is_byte b -> end_socket e c <> None ->
     buffer_wf buffer -> content buffer = content (in_buffer e c) ++ b ->
     capacity buffer = capacity (in_buffer e c) ->
     Frame s (Local (flow_step (arrived e s b) f) (count_in e (len b) (set_in e buffer c1)) k a t v) m' ->
     Q (true, true) m') ->
  wp (read_into e s maximum) Q m.
Proof.
  intros HF He Hok Hsoft Hfed. unfold read_into. do 2 step.
  destruct (end_socket e c) as [socket|] eqn:Esk; [|step; eapply Hsoft; [reflexivity|exact HF]].
  pose proof (available_eqv (in_buffer e c)) as Hv.
  destruct (buffer_available (in_buffer e c)) as [room buffer] eqn:Ea. do 2 step. cbn in Hv.
  assert (Hs : soft c (set_in e buffer c)) by (destruct He as [->| ->]; solve_soft).
  assert (Hin : in_buffer e (set_in e buffer c) = buffer) by (by destruct He as [->| ->]).
  assert (Hev : forall b, (event_slot (arrived e s b) = s /\ is_receipt (arrived e s b) = false) /\
    event_ok pols f (arrived e s b)) by (by destruct He as [->| ->]).
  destruct (_ =? 0); [step; by eapply Hsoft|]. step. frame_step wp_call. intros w m' HF'. clear dependent m.
  rename m' into m, HF' into HF.
  pose proof (law_receive socket (if maximum <? room then maximum else room) w) as Hlaw.
  destruct (sys_socket_receive socket (if maximum <? room then maximum else room) w).1 as [b| | |].
  - destruct (Hlaw b eq_refl) as [Hlen Hbyte]. do 3 step. frame_step wp_note; [apply Hev..|]. next. step.
    assert (len b <= room /\ len b <= maximum) as [] by (destruct (Z.ltb_spec maximum room); lia).
    rewrite Hin in HF. destruct (received_into b _ _ _ Hok Ea) as (? & ? & ?); [done|]. by eapply Hfed; [..|exact HF].
  - do 3 step. eapply Hsoft; [|exact HF]. etransitivity; [exact Hs|]. destruct He as [->| ->]; solve_soft.
  - step. by eapply Hsoft.
  - step. by eapply Hsoft.
Qed.

Lemma read_into_client_spec s f c k a t v m maximum (Q : bool * bool -> machine -> Prop) :
  Frame s (Local f c k a t v) m -> buffer_ok cfg (client_to_upstream c) ->
  (forall x m' c', soft c c' -> Frame s (Local f c' k a t v) m' -> Q x m') ->
  (forall b m' c', fed b c c' -> len b <= maximum -> Forall is_byte b ->
     Frame s (Local (flow_step (FromClient s b) f) c' k a t v) m' -> Q (true, true) m') ->
  wp (read_into client_end s maximum) Q m.
Proof.
  intros HF [Hok _] Hsoft Hfed. frame_step read_into_spec; [by left|done|done|].
  intros b buffer c1 m' Hs Hlen Hb _ Hw Hc Hcap HF'. eapply Hfed; [|done|done|exact HF'].
  exists buffer. split; [|done]. destruct Hs. constructor; cbn; try done. by rewrite soft_from.
Qed.

(** A connection that may read from its client. *)
Definition ready (f : flow) (c : egress_connection_t) : Prop := settled f c \/ waiting f c.

Lemma ready_soft f c c' : soft c c' -> ready f c -> ready f c'.
Proof. intros Hs [|]; [left; by eapply settled_soft|right; by eapply waiting_soft]. Qed.

Lemma ready_carried f c : ready f c -> carried cfg f c.
Proof. intros [[]|[]]; [by destruct settled_live0|by destruct waiting_live]. Qed.

Lemma ready_base f c : ready f c -> base f c.
Proof. by intros [[]|[]]. Qed.

Lemma in_handshake_spec c : in_handshake c = true <-> handshaking c.
Proof. unfold in_handshake, handshaking. by rewrite orb_true_iff, !bool_decide_eq_true. Qed.

Lemma fed_fields b c c' :
  fed b c c' -> in_handshake c' = in_handshake c /\ account_of cfg c' = account_of cfg c /\
  bytes_from_client c' = u64 (bytes_from_client c + len b).
Proof.
  intros (buffer & Hs & _). rewrite (soft_account _ _ _ Hs). destruct Hs. unfold in_handshake. by rewrite soft_state.
Qed.

(** The bytes that were read are charged, unless they belong to the
    handshake. *)
Lemma fed_charge_spec s f c k t v m b c' n (Q : unit -> machine -> Prop) :
  Frame s (Local (flow_step (FromClient s b) f) c' k (account_of cfg c) t v) m ->
  ready f c -> fed b c c' -> Forall is_byte b -> totals_ok cfg t -> n = len b ->
  (in_handshake c = false -> allows t c (len b)) ->
  (forall f' c'' t' m', Frame s (Local f' c'' k (account_of cfg c'') t' v) m' -> totals_ok cfg t' ->
     ready f' c'' -> Q tt m') ->
  wp (when (negb (in_handshake c')) (egress_quota_charge s n)) Q m.
Proof.
  intros HF Hr Hf Hb Ht -> Hall HQ. destruct (fed_fields _ _ _ Hf) as (Eh & Ea & _). rewrite Eh, <-Ea in *.
  destruct (in_handshake c) eqn:E; cbn [negb when].
  - step. eapply HQ; [exact HF|done|]. right. destruct Hr as [[]|Hw]; [by apply in_handshake_spec in E|].
    by eapply fed_waiting.
  - destruct Hr as [Hs|[]]; [|apply in_handshake_spec in waiting_state; congruence].
    destruct (fed_settled b s f c c' t Hf Hs (Hall eq_refl)) as (Hs' & Ha' & Hb').
    frame_step charge_spec; [done..|apply len_nonneg|done|]. clear dependent m. intros t' m Ht' HF.
    eapply HQ; [exact HF|done|by left].
Qed.

Lemma buffer_small b : buffer_ok cfg b -> len (content b) < 2 ^ 64.
Proof.
  intros [Hw Hc]. rewrite (len_content _ Hw). pose proof Hw as [? ? ? ?].
  destruct (ok_limits _ Hcfg) as (_ & [_ Hm] & _). unfold EGRESS_MAX_BUFFER_BYTES in Hm. lia.
Qed.

Lemma fed_small b f c c' : fed b c c' -> carried cfg f c -> 0 <= len b < 2 ^ 64.
Proof.
  intros (buffer & _ & Hw & Hc & Hcap) []. destruct carried_up_ok as [_ Hcap'].
  pose proof (buffer_small buffer) as Hs. rewrite Hc, len_app in Hs.
  pose proof (len_nonneg b). pose proof (len_nonneg (content (client_to_upstream c))).
  split; [done|]. enough (buffer_ok cfg buffer) by (specialize (Hs ltac:(done)); lia). split; [done|congruence].
Qed.

Lemma quiet_charge_zero s : quiet cfg pols (egress_quota_charge s 0).
Proof. unfold egress_quota_charge. do 2 (apply quiet_bind; [solve_quiet|intros]). apply quiet_ret. Qed.

Lemma u64_difference x n : 0 <= n < 2 ^ 64 -> u64 (u64 (x + n) - x) = n.
Proof. intros Hn. unfold u64. rewrite Zminus_mod_idemp_l. replace (x + n - x) with n by lia. by apply Z.mod_small. Qed.

Lemma plain_read_spec s f c t v m maximum (Q : bool * bool -> machine -> Prop) :
  Frame s (Local f c 1 (account_of cfg c) t v) m -> ready f c -> totals_ok cfg t ->
  (in_handshake c = false -> forall n, 0 <= n <= maximum -> allows t c n) ->
  (forall x f' c' t' m', Frame s (Local f' c' 1 (account_of cfg c') t' v) m' -> totals_ok cfg t' ->
     ready f' c' -> Q x m') ->
  wp (result ← read_into client_end s maximum;
      c' ← get_conn s;
      when (result.1 && negb (in_handshake c'))
        (egress_quota_charge s (u64 (bytes_from_client c' - bytes_from_client c)));;
      mret result) Q m.
Proof.
  intros HF Hr Ht Hall HQ. pose proof (ready_carried _ _ Hr) as Hc. step.
  frame_step read_into_client_spec; [by destruct Hc|..]; clear dependent m.
  - intros x m c' Hs HF. do 3 step. rewrite (soft_from _ _ Hs), Z.sub_diag. change (u64 0) with 0.
    eapply wp_quiet; [apply quiet_when, quiet_charge_zero|exact HF|]. clear dependent m. intros _ m HF. step.
    eapply HQ; [|done|by eapply ready_soft]. by rewrite (soft_account _ _ _ Hs).
  - intros b m c' Hf Hlen Hb HF. do 3 step. cbn [andb fst].
    destruct (fed_fields _ _ _ Hf) as (_ & _ & Efrom). pose proof (fed_small _ _ _ _ Hf Hc) as Hsmall.
    rewrite Efrom, u64_difference by done.
    frame_step fed_charge_spec; [done..| |].
    + intros E. apply Hall; [done|lia].
    + clear dependent m. intros f' c'' t' m HF Ht' Hr'. step. by eapply HQ.
Qed.

Lemma tls_read_client_spec s f c t v m session maximum (Q : bool * bool -> machine -> Prop) :
  Frame s (Local f c 1 (account_of cfg c) t v) m -> ready f c -> totals_ok cfg t -> 0 <= maximum ->
  (in_handshake c = false -> forall n, 0 <= n <= maximum -> allows t c n) ->
  (forall x f' c' t' m', Frame s (Local f' c' 1 (account_of cfg c') t' v) m' -> totals_ok cfg t' ->
     ready f' c' -> Q x m') ->
  wp (tls_read_client s session maximum) Q m.
Proof.
  intros HF Hr Ht Hmax Hall HQ. pose proof (ready_carried _ _ Hr) as Hc. unfold tls_read_client, client_room.
  do 5 step. pose proof (available_eqv (client_to_upstream c)) as He.
  destruct (buffer_available (client_to_upstream c)) as [room buffer] eqn:Ea. do 3 step. cbn in He.
  assert (Hs : soft c (c <| client_to_upstream := buffer |>)) by solve_soft.
  assert (Hret : forall x m' c', soft c c' -> Frame s (Local f c' 1 (account_of cfg c) t v) m' -> Q x m').
  { intros x m' c' Hs' HF'. eapply HQ; [|done|by eapply ready_soft]. by rewrite (soft_account _ _ _ Hs'). }
  set (available := if maximum <? room then maximum else room).
  destruct (available_spec _ _ _ (proj1 (carried_up_ok _ _ _ Hc)) Ea) as (Hw' & _ & _ & Hroom & _).
  assert (Hav : 0 <= available).
  { destruct Hw'. unfold available. destruct (Z.ltb_spec maximum room); lia. }
  destruct (_ =? 0); [step; by eapply Hret|]. step. frame_step wp_call. intros w m' HF'. clear dependent m.
  rename m' into m, HF' into HF.
  destruct (law_tls_read (default 0 (tls_provider cfg)) session available w Hav) as [Hlen Hbyte].
  destruct (tls_read (default 0 (tls_provider cfg)) session available w).1 as [stp b]. cbn [fst snd] in *.
  do 2 step.
  match type of HF with Frame _ (Local _ ?y _ _ _ _) _ =>
    assert (Hs1 : soft c y) by (etransitivity; [exact Hs|]; solve_soft) end.
  destruct (_ && _).
  - do 3 step. frame_step wp_note; [done|done|]. next. do 3 step.
    assert (len b <= room /\ len b <= maximum) as [] by (unfold available in Hlen; destruct (Z.ltb_spec maximum room); lia).
    match type of HF with Frame _ (Local _ ?y _ _ _ _) _ => assert (Hf : fed b c y) end.
    { exists (buffer_put buffer b). split; [solve_soft|]. eapply received_into; [apply (carried_up_ok _ _ _ Hc)|done|done]. }
    frame_step fed_charge_spec; [done..| |].
    + intros E. apply Hall; [done|]. pose proof (len_nonneg b). lia.
    + clear dependent m. intros f' c'' t' m HF Ht' Hr'. do 3 step. eapply HQ; [exact HF|done|].
      eapply ready_soft; [|exact Hr']. solve_soft.
  - destruct (bool_decide (stp = MAELYS_EGRESS_TLS_CLOSED)).
    + do 3 step. eapply Hret; [|exact HF]. etransitivity; [exact Hs1|]. solve_soft.
    + step. soft_step. step. eapply Hret; [|exact HF]. by etransitivity.
Qed.

Lemma read_from_client_spec s f c t v m (Q : bool * bool -> machine -> Prop) :
  Frame s (Local f c 1 (account_of cfg c) t v) m -> ready f c -> totals_ok cfg t ->
  (forall x f' c' t' m', Frame s (Local f' c' 1 (account_of cfg c') t' v) m' -> totals_ok cfg t' ->
     ready f' c' -> Q x m') ->
  wp (read_from_client s) Q m.
Proof.
  intros HF Hr Ht HQ. unfold read_from_client. do 2 step.
  assert (Hgo : forall allowance scope, 0 <= allowance ->
    (in_handshake c = false -> forall n, 0 <= n <= allowance -> allows t c n) ->
    wp (if allowance =? 0 then
          egress_quota_deny s scope;;
          set_conn s (fun c => c <| quota_exhausted := true |>);;
          mret (true, false)
        else
          let maximum := if SIZE_MAX <? allowance then SIZE_MAX else allowance in
          match tls_session c with
          | None =>
              result ← read_into client_end s maximum;
              c' ← get_conn s;
              when (result.1 && negb (in_handshake c'))
                (egress_quota_charge s (u64 (bytes_from_client c' - bytes_from_client c)));;
              mret result
          | Some session => tls_read_client s session maximum
          end) Q m).
  { intros allowance scope Hpos Hall. destruct (allowance =? 0).
    - step. soft_step. step. soft_step. step. eapply HQ; [|done|by eapply ready_soft].
      match goal with Hx : soft c ?y |- _ => by rewrite (soft_account cfg c y Hx) end.
    - cbn zeta. assert (Hall' : in_handshake c = false -> forall n, 0 <= n <= (if SIZE_MAX <? allowance then SIZE_MAX else allowance) ->
        allows t c n) by (intros E n Hn; apply Hall; [done|]; destruct (Z.ltb_spec SIZE_MAX allowance); lia).
      destruct (tls_session c); [frame_step tls_read_client_spec|frame_step plain_read_spec]; eauto.
      destruct (Z.ltb_spec SIZE_MAX allowance); [done|lia]. }
  step. destruct (in_handshake c) eqn:E.
  - step. by apply Hgo.
  - frame_step wp_allowance; [by apply ready_base|done|]. intros [allowance scope] Hpos Hall. by apply Hgo.
Qed.

(** * Writing *)

(** The part of [slot_ok] for connections in use. *)
Record serving (f : flow) (c : egress_connection_t) : Prop := {
  serving_used : in_use c = true;
  serving_base : base f c;
  serving_live : live f c;
  serving_fresh : handshaking c -> close_after_flush c = false -> fresh f c;
}.

Lemma serving_soft f c c' : soft c c' -> serving f c -> serving f c'.
Proof.
  intros Hs []. constructor; eauto using soft_base, soft_live; [by rewrite (soft_in_use _ _ Hs)|].
  rewrite (soft_handshaking _ _ Hs), (soft_flush _ _ Hs). eauto using soft_fresh.
Qed.

Lemma serving_local f c k a t v :
  serving f c -> totals_ok cfg t -> k = 1 -> a = account_of cfg c -> local_ok (Local f c k a t v).
Proof. intros [Hu] Ht -> ->. split_and!; cbn; [right; by split_and!|done|by rewrite Hu|done]. Qed.

Lemma settled_serving f c : settled f c -> serving f c.
Proof. intros []. by constructor. Qed.

Lemma local_serving f c k a t v :
  local_ok (Local f c k a t v) -> in_use c = true ->
  serving f c /\ k = 1 /\ a = account_of cfg c /\ totals_ok cfg t.
Proof.
  intros Hok Hu%in_use_state. edestruct local_ok_used as (? & ? & ? & ? & ? & ? & ?); [exact Hcfg|exact Hok|done|].
  by split_and!.
Qed.

(** The buffer that is left after sending [x] from it. *)
Definition left_over (x : bytes) (b b' : egress_buffer_t) : Prop :=
  buffer_wf b' /\ content b = x ++ content b' /\ capacity b' = capacity b.

Lemma consume_left b n b' requested :
  buffer_wf b -> b' = ztake requested (content b) -> 0 <= n <= len b' ->
  len (ztake n b') = n /\ left_over (ztake n b') b (buffer_consume b n).
Proof.
  intros Hw -> Hn. destruct (consume_spec b n Hw) as (Hw' & Hc & Hcap); [lia|].
  split; [by apply len_ztake|]. split_and!; try done. rewrite Hc.
  replace (ztake n (ztake requested (content b))) with (ztake n (content b)); [by rewrite ztake_zdrop|].
  unfold len, ztake in *. rewrite take_take. rewrite length_take in Hn. f_equal. lia.
Qed.

Lemma write_from_spec e s f c k a t v m maximum (Q : bool * bool -> machine -> Prop) :
  Frame s (Local f c k a t v) m -> an_end e -> buffer_wf (out_buffer e c) -> 0 <= maximum ->
  (forall x b, left_over x (out_buffer e c) b -> event_ok pols f (departed e s x)) ->
  (forall x m', Frame s (Local f c k a t v) m' -> Q x m') ->
  (forall x b m', left_over x (out_buffer e c) b -> len x <= maximum -> end_socket e c <> None ->
     Frame s (Local (flow_step (departed e s x) f) (count_out e (len x) (set_out e b c)) k a t v) m' ->
     Q (true, negb (len x =? 0)) m') ->
  wp (write_from e s maximum) Q m.
Proof.
  intros HF He Hw Hmax Hev Hno Hyes. pose proof (wf_length _ Hw). unfold write_from. do 2 step.
  destruct (_ =? 0); [step; by eapply Hno|].
  set (requested := if length_ (out_buffer e c) <? maximum then length_ (out_buffer e c) else maximum).
  destruct (requested =? 0); [step; by eapply Hno|].
  destruct (end_socket e c) as [socket|] eqn:Esk; [|step; by eapply Hno].
  step. frame_step wp_call. intros w m' HF'. clear dependent m. rename m' into m, HF' into HF.
  remember (ztake requested (content (out_buffer e c))) as b eqn:Eb.
  pose proof (law_send socket b w) as Hlaw. destruct (sys_socket_send socket b w).1 as [n| |]; [|step; by eapply Hno..].
  specialize (Hlaw n eq_refl). destruct (consume_left _ n _ requested Hw Eb Hlaw) as [Hlen Hleft].
  do 3 step. frame_step wp_note; [by destruct He as [->| ->]|by eapply Hev|]. next. step.
  rewrite <-Hlen at 1. eapply Hyes; [exact Hleft| |done|by rewrite Hlen; exact HF].
  assert (len b <= requested) by (rewrite Eb; apply len_ztake_le; unfold requested; case_match; lia).
  unfold requested in *. destruct (Z.ltb_spec (length_ (out_buffer e c)) maximum); lia.
Qed.

(** ** To the client *)

(** [x] was sent to the client. *)
Definition drained (x : bytes) (c c' : egress_connection_t) : Prop :=
  exists b, left_over x (upstream_to_client c) b /\
    soft (c <| upstream_to_client := b |> <| bytes_to_client := u64 (bytes_to_client c + len x) |>) c'.

Lemma drained_base x s f c c' : drained x c c' -> base f c -> base (flow_step (ToClient s x) f) c'.
Proof.
  intros (b & _ & Hs) []. eapply soft_base; [exact Hs|]. constructor; cbn; auto.
  rewrite base_to, len_app. unfold u64. by rewrite Zplus_mod_idemp_l.
Qed.

(** The bytes that are sent to the client are the next ones. *)
Lemma client_event_ok s f c x b :
  carried cfg f c -> left_over x (upstream_to_client c) b -> event_ok pols f (ToClient s x).
Proof. intros [] (_ & Hc & _). cbn. rewrite carried_down, Hc, app_assoc. by eexists. Qed.

(** What is subtracted from the exempt bytes or charged. *)
Definition accounted (n : Z) (c : egress_connection_t) : egress_connection_t :=
  if negb (quota_client_exempt_bytes c =? 0)
  then c <| quota_client_exempt_bytes := u64 (quota_client_exempt_bytes c - n) |>
  else charged n c.

Definition payable (t : list Z) (c : egress_connection_t) (n : Z) : Prop :=
  0 <= n /\ (quota_client_exempt_bytes c <> 0 -> n <= quota_client_exempt_bytes c) /\
  (quota_client_exempt_bytes c = 0 -> allows t c n).

(** Only the counters of the quota differ. *)
Lemma accounted_same n c :
  accounted n c = c <| quota_client_exempt_bytes := quota_client_exempt_bytes (accounted n c) |>
                    <| quota_stream_used := quota_stream_used (accounted n c) |>.
Proof. unfold accounted, charged. destruct c, (negb _); done. Qed.

Lemma accounted_base f c t n : base f c -> payable t c n -> base f (accounted n c).
Proof.
  intros Hb (Hn & _ & Hc). unfold accounted. destruct (Z.eqb_spec (quota_client_exempt_bytes c) 0); cbn [negb].
  - eapply charged_base; eauto.
  - destruct Hb. by constructor.
Qed.

(** The exempt bytes are at most those still to be sent. *)
Lemma exempt_small f c : carried cfg f c -> 0 <= quota_client_exempt_bytes c < 2 ^ 64.
Proof.
  intros []. pose proof (buffer_small _ carried_down_ok) as Hb. rewrite carried_exempt.
  rewrite carried_down, len_app in carried_replies. lia.
Qed.

Lemma drained_carried x s f c c' t :
  drained x c c' -> carried cfg f c -> payable t c (len x) ->
  carried cfg (flow_step (ToClient s x) f) (accounted (len x) c').
Proof.
  intros (b & (Hw & Hc & Hcap) & Hs) Hcar (Hn & Hex & _). pose proof (exempt_small _ _ Hcar) as Hsm. destruct Hcar, Hs.
  cbn in *. destruct (buffer_eqv_ok _ _ _ soft_up carried_up_ok) as [Hup Eup].
  destruct (buffer_eqv_ok cfg _ _ soft_down) as [Hdn Edn]; [split; [done|]; rewrite Hcap; apply carried_down_ok|].
  rewrite accounted_same. constructor; cbn; auto.
  - by rewrite Eup.
  - by rewrite Edn, <-app_assoc, <-Hc.
  - rewrite len_app. unfold accounted. rewrite soft_exempt.
    destruct (Z.eqb_spec (quota_client_exempt_bytes c) 0) as [E|E]; cbn.
    + rewrite ?soft_exempt. lia.
    + rewrite ?soft_exempt. specialize (Hex E). unfold u64. rewrite Z.mod_small by lia. lia.
Qed.

Lemma drained_exact x s f c c' t :
  drained x c c' -> carried cfg f c -> payable t c (len x) -> exact_use f c ->
  exact_use (flow_step (ToClient s x) f) (accounted (len x) c').
Proof.
  intros (b & _ & Hs) [] (Hn & Hex & _) Hu. destruct Hs. unfold exact_use, payload_down in *. cbn in *.
  rewrite len_app. pose proof (len_nonneg (up_in f)).
  unfold accounted. rewrite soft_exempt. destruct (Z.eqb_spec (quota_client_exempt_bytes c) 0) as [E|E]; cbn.
  - intros Had. rewrite Had. rewrite soft_admitted in Had. rewrite soft_used, (Hu Had), add_saturating_min. lia.
  - intros Had. rewrite soft_admitted in Had. specialize (Hex E). rewrite soft_used, (Hu Had). lia.
Qed.

(** Replies are not charged. *)
Lemma drained_replies x c c' f :
  drained x c c' -> carried cfg f c -> uncrossed f -> quota_client_exempt_bytes c = 0 -> len x = 0.
Proof.
  intros (b & (_ & Hct & _) & _) [] [_ Hr] E. rewrite carried_down, Hct, !len_app in Hr.
  pose proof (len_nonneg x). pose proof (len_nonneg (content b)). lia.
Qed.

Lemma drained_fair x s f c c' t :
  drained x c c' -> carried cfg f c -> payable t c (len x) -> fair f c ->
  fair (flow_step (ToClient s x) f) (accounted (len x) c').
Proof.
  intros Hd Hc Hp Hf. pose proof (drained_exact x s f c c' t Hd Hc Hp) as He.
  pose proof (drained_replies x c c' f Hd Hc) as Hr. destruct Hd as (b & _ & []). cbn in *.
  unfold fair, exact_use in *. unfold accounted in *. rewrite soft_exempt in *.
  destruct (Z.eqb_spec (quota_client_exempt_bytes c) 0) as [E|E]; cbn in *; rewrite soft_admitted, soft_used in *;
    (destruct (quota_admitted c); [|done]).
  - destruct Hf as [Hf|[Hu Hf]]; [left; by apply He|right]. split; [done|]. by rewrite Hf, Hr.
  - destruct Hf as [Hf|[Hu Hf]]; [left; by apply He|by right].
Qed.

Lemma drained_serving x s f c c' t :
  drained x c c' -> serving f c -> payable t c (len x) ->
  serving (flow_step (ToClient s x) f) (accounted (len x) c') /\
  base (flow_step (ToClient s x) f) c' /\ payable t c' (len x) /\ account_of cfg c' = account_of cfg c.
Proof.
  intros Hd [] Hp. pose proof (drained_base x s _ _ _ Hd serving_base0) as Hb.
  pose proof (drained_carried x s _ _ _ _ Hd (live_carried _ _ _ _ serving_live0) Hp) as Hc.
  pose proof (drained_exact x s _ _ _ _ Hd (live_carried _ _ _ _ serving_live0) Hp) as He.
  pose proof (drained_fair x s _ _ _ _ Hd (live_carried _ _ _ _ serving_live0) Hp (live_fair _ _ _ _ serving_live0)) as Hfair.
  destruct Hd as (b & _ & Hs). pose proof (soft_kept _ _ Hs) as Hk. pose proof (soft_trying f _ _ Hs) as Hy.
  pose proof (soft_named f _ _ Hs) as Hnm.
  assert (Hp' : payable t c' (len x)).
  { destruct Hs, Hp as (? & ? & Hal). cbn in *. split_and!; rewrite ?soft_exempt; auto. intros E.
    unfold ConnectionFacts.allows in *. rewrite soft_admitted, soft_index, soft_bytes, soft_used, soft_total. auto. }
  pose proof (accounted_base _ _ _ _ Hb Hp') as Hb'.
  split_and!; try done; [|by rewrite (soft_account _ _ _ Hs)]. destruct Hs, serving_live0. cbn in *.
  rewrite accounted_same in *. constructor; auto; cbn in *.
  - unfold in_use in *. cbn in *. by rewrite soft_state.
  - constructor; unfold handshaking, aimed in *; cbn; rewrite ?soft_state, ?soft_destination, ?soft_protocol, ?soft_host,
      ?soft_port, ?soft_sni, ?soft_flush; auto.
    + intros Hst Hne. apply Hy, live_trying; auto. by apply Hk.
    + intros Hh Hst Hne. apply Hnm, live_named; auto. by apply Hk.
  - unfold handshaking in *. cbn. rewrite soft_state, soft_flush. intros Hh Hf.
    destruct (serving_fresh0 Hh Hf). constructor; cbn; try congruence.
    unfold accounted. rewrite soft_exempt. destruct (negb _); cbn; [congruence|].
    rewrite soft_admitted, fresh_admitted. congruence.
Qed.

Lemma account_written_spec s f c k t v m n (Q : unit -> machine -> Prop) :
  Frame s (Local f c k (account_of cfg c) t v) m -> base f c -> totals_ok cfg t -> payable t c n ->
  (forall t' m', totals_ok cfg t' -> Frame s (Local f (accounted n c) k (account_of cfg (accounted n c)) t' v) m' ->
     Q tt m') ->
  wp (account_written s n) Q m.
Proof.
  intros HF Hb Ht (Hn & _ & Hc) HQ. unfold account_written, accounted in *. do 2 step.
  destruct (Z.eqb_spec (quota_client_exempt_bytes c) 0); cbn [negb] in *.
  - frame_step charge_spec; auto.
  - step. by eapply HQ.
Qed.

Lemma accounted_drained_spec x s f c c' k t v m n (Q : unit -> machine -> Prop) :
  Frame s (Local (flow_step (ToClient s x) f) c' k (account_of cfg c) t v) m ->
  serving f c -> drained x c c' -> totals_ok cfg t -> payable t c (len x) -> n = len x ->
  (forall f' c'' t' m', Frame s (Local f' c'' k (account_of cfg c'') t' v) m' -> totals_ok cfg t' ->
     serving f' c'' -> Q tt m') ->
  wp (account_written s n) Q m.
Proof.
  intros HF Hs Hd Ht Hp -> HQ. destruct (drained_serving x s _ _ _ _ Hd Hs Hp) as (Hs' & Hb & Hp' & Ha).
  rewrite <-Ha in HF. frame_step account_written_spec; [done..|]. clear dependent m. intros t' m Ht' HF.
  by eapply HQ.
Qed.

Lemma accounted_0 f c n : n = 0 -> base f c -> 0 <= quota_client_exempt_bytes c < 2 ^ 64 -> accounted n c = c.
Proof.
  intros -> Hb He. unfold accounted. destruct (negb _); [|by eapply charged_0].
  rewrite Z.sub_0_r. unfold u64. rewrite Z.mod_small by done. by destruct c.
Qed.

Section Writes.
Context (s : nat) (v : list Z) (Q : bool * bool -> machine -> Prop).
Context (HQ : forall x f c t m, Frame s (Local f c 1 (account_of cfg c) t v) m -> totals_ok cfg t ->
  serving f c -> Q x m).

Lemma soft_return f c c' t m x :
  Frame s (Local f c' 1 (account_of cfg c) t v) m -> totals_ok cfg t -> serving f c -> soft c c' -> Q x m.
Proof.
  intros HF Ht Hs Hc. eapply HQ; [|done|by eapply serving_soft]. by rewrite (soft_account _ _ _ Hc).
Qed.

Lemma tls_write_client_spec f c t m session maximum :
  Frame s (Local f c 1 (account_of cfg c) t v) m -> serving f c -> totals_ok cfg t -> 0 <= maximum ->
  (forall n, 0 <= n <= maximum -> payable t c n) ->
  wp (tls_write_client s session maximum) Q m.
Proof.
  intros HF Hsv Ht Hmax Hall. destruct (carried_down_ok _ _ _ (live_carried _ _ _ _ (serving_live _ _ Hsv))) as [Hw _].
  unfold tls_write_client. do 4 step. destruct (_ =? 0); [step; by eapply soft_return|].
  pose proof (wf_length _ Hw). set (requested := if length_ (upstream_to_client c) <? maximum then _ else _).
  assert (Hreq : 0 <= requested <= maximum) by (unfold requested; destruct (Z.ltb_spec (length_ (upstream_to_client c)) maximum); lia).
  remember (ztake requested (content (upstream_to_client c))) as b eqn:Eb. step. frame_step wp_call.
  intros w m' HF'. clear dependent m. rename m' into m, HF' into HF.
  pose proof (law_tls_write (default 0 (tls_provider cfg)) session b w) as Hlaw.
  destruct (tls_write (default 0 (tls_provider cfg)) session b w).1 as [stp n]. cbn [fst snd] in *.
  destruct (consume_left _ n _ requested Hw Eb Hlaw) as [Hlen Hleft]. do 2 step.
  destruct (_ && _).
  - do 3 step.
    frame_step wp_note; [done|eapply client_event_ok; [apply (live_carried _ _ _ _ (serving_live _ _ Hsv))|exact Hleft]|].
    next. step. assert (len b <= requested) by (rewrite Eb; apply len_ztake_le; lia).
    frame_step accounted_drained_spec; [exact Hsv| |done|apply Hall; lia|done|].
    + eexists. split; [exact Hleft|]. rewrite Hlen. solve_soft.
    + clear dependent m. intros f' c' t' m HF Ht' Hs'. do 3 step. eapply soft_return; [exact HF|done|done|]. solve_soft.
  - step. soft_step. step. eapply soft_return; [exact HF|done|done|]. etransitivity; [|done]. solve_soft.
Qed.

Lemma plain_write_spec f c t m maximum :
  Frame s (Local f c 1 (account_of cfg c) t v) m -> serving f c -> totals_ok cfg t -> 0 <= maximum ->
  (forall n, 0 <= n <= maximum -> payable t c n) ->
  wp (result ← write_from client_end s maximum;
      c' ← get_conn s;
      when (result.1 && negb (u64 (bytes_to_client c' - bytes_to_client c) =? 0))
        (account_written s (u64 (bytes_to_client c' - bytes_to_client c)));;
      mret result) Q m.
Proof.
  intros HF Hsv Ht Hmax Hall. pose proof (live_carried _ _ _ _ (serving_live _ _ Hsv)) as Hc.
  step. frame_step write_from_spec; [by left|by destruct (carried_down_ok _ _ _ Hc)|done|..].
  { intros x b. by apply client_event_ok. }
  all: clear dependent m.
  - intros x m HF. do 3 step. rewrite Z.sub_diag. change (u64 0 =? 0) with true. cbn [negb]. rewrite andb_false_r. cbn [when].
    do 2 step. by eapply soft_return.
  - intros x b m Hleft Hx _ HF. cbn [out_buffer client_end] in Hleft. do 3 step. cbn [fst andb].
    assert (Hd : drained x c (count_out client_end (len x) (set_out client_end b c))) by (exists b; split; [done|solve_soft]).
    pose proof (buffer_small _ (carried_down_ok _ _ _ Hc)) as Hsm. pose proof Hleft as (_ & Hct & _).
    rewrite Hct, len_app in Hsm. pose proof (len_nonneg x). pose proof (len_nonneg (content b)).
    cbn [count_out set_out client_end bytes_to_client] in *. cbn in HF |- *.
    rewrite u64_difference by lia. unfold when. destruct (Z.eqb_spec (len x) 0) as [E|E]; cbn [negb].
    + do 2 step. destruct (drained_serving x s _ _ _ t Hd Hsv (Hall (len x) ltac:(lia))) as (Hs' & Hb & _ & Ha).
      eapply HQ; [|done|]; [by rewrite <-Ha in HF; exact HF|].
      rewrite (accounted_0 _ _ _ E Hb) in Hs'; [done|]. cbn. by eapply exempt_small.
    + frame_step accounted_drained_spec; [exact Hsv|exact Hd|done|apply Hall; lia|done|].
      clear dependent m. intros f' c' t' m HF Ht' Hs'. step. by eapply HQ.
Qed.

Lemma write_to_client_spec f c t m progress :
  Frame s (Local f c 1 (account_of cfg c) t v) m -> serving f c -> totals_ok cfg t ->
  wp (write_to_client s progress) Q m.
Proof.
  intros HF Hsv Ht. pose proof (live_carried _ _ _ _ (serving_live _ _ Hsv)) as Hc.
  pose proof (exempt_small _ _ Hc) as Hsm. unfold write_to_client. do 3 step.
  assert (Hgo : forall allowance scope, (forall n, 0 <= n <= allowance -> payable t c n) -> 0 <= allowance ->
    wp (if allowance =? 0 then
          egress_quota_deny s scope;;
          set_conn s (fun c => c <| quota_exhausted := true |>);;
          mret (true, progress)
        else
          let maximum := if SIZE_MAX <? allowance then SIZE_MAX else allowance in
          match tls_session c with
          | None =>
              result ← write_from client_end s maximum;
              c' ← get_conn s;
              let written := u64 (bytes_to_client c' - bytes_to_client c) in
              when (result.1 && negb (written =? 0)) (account_written s written);;
              mret result
          | Some session => tls_write_client s session maximum
          end) Q m).
  { intros allowance scope Hall Hpos. destruct (allowance =? 0).
    - step. soft_step. step. soft_step. step. by eapply soft_return.
    - cbn zeta. destruct (Z.ltb_spec SIZE_MAX allowance), (tls_session c);
      [eapply tls_write_client_spec|eapply plain_write_spec|eapply tls_write_client_spec|eapply plain_write_spec];
      try done; try (intros n Hn; apply Hall; lia). }
  destruct (Z.eqb_spec (quota_client_exempt_bytes c) 0) as [E|E]; cbn [negb].
  - frame_step wp_allowance; [by apply serving_base|done|]. intros [allowance scope] Hpos Hall. apply Hgo; [|done].
    intros n Hn. split_and!; [lia|done|]. intros _. by apply Hall.
  - step. apply Hgo; [|lia]. intros n Hn. split_and!; [lia|lia|done].
Qed.

End Writes.

(** ** The upstream side *)

Definition relaying (f : flow) (c : egress_connection_t) : Prop :=
  serving f c /\ state c = CONNECTION_RELAY.

Lemma relaying_soft f c c' : soft c c' -> relaying f c -> relaying f c'.
Proof. intros Hs [? ?]. split; [by eapply serving_soft|]. by rewrite (soft_state _ _ Hs). Qed.

Lemma relaying_named f c : relaying f c -> upstream_socket c <> None -> named f c.
Proof.
  intros [[_ _ [] _] Hst] Hs. apply live_named; [|by rewrite Hst|done]. intros [Hh|Hh]; congruence.
Qed.

(** Bytes added at one end of a relay, or removed at the other. *)
Lemma relaying_moved f f' c up down :
  relaying f c -> named f c -> carried cfg f' (c <| client_to_upstream := up |> <| upstream_to_client := down |>) ->
  received f' = received f -> up_in f' = up_in f -> down_out f' = down_out f -> replies f' = replies f ->
  target f' = target f -> balance f' = balance f -> relaying f' (c <| client_to_upstream := up |> <| upstream_to_client := down |>).
Proof.
  intros [[] Hst] Hn Hc E1 E2 E3 E4 E5 E6. split; [|done]. constructor; try done.
  - destruct serving_base0. constructor; cbn; unfold names_host, named in *; rewrite ?E1, ?E2, ?E3, ?E5, ?E6; auto.
  - assert (Hh : ~ handshaking c) by (intros [Hh|Hh]; congruence). destruct serving_live0. constructor; try done.
    + unfold aimed in *. cbn. by rewrite E5.
    + unfold exact_use, payload_down in *. cbn. rewrite E2, E3, E4. auto.
    + apply exact_fair; [unfold exact_use, payload_down in *; cbn; rewrite E2, E3, E4; auto|]. cbn. intros Had.
      unfold fair in live_fair. by rewrite Had in live_fair.
    + cbn. congruence.
    + unfold named in *. cbn. by rewrite E5.
  - intros [Hh|Hh]; cbn in Hh; congruence.
Qed.

(** The bytes that are sent upstream are the next ones, and they may go there. *)
Lemma upstream_event_ok s f c x b :
  relaying f c -> left_over x (client_to_upstream c) b -> event_ok pols f (ToUpstream s x).
Proof.
  intros [[_ Hb [] _] Hst] (_ & Hc & _). split.
  - destruct live_carried. rewrite carried_up, Hc, app_assoc. by eexists.
  - destruct live_target as [[Hh|Hh]|(d & a & Hd & Ha & Ht)]; [congruence..|].
    exists (conn_host c), (conn_port c), a, d. split_and!; auto. intros Hr. by apply (base_sni _ _ _ _ Hb), live_sni with d.
Qed.

Section Upstream.
Context (s : nat) (k : Z) (a : account) (t v : list Z) (Q : bool * bool -> machine -> Prop).
Context (HQ : forall x f c m, Frame s (Local f c k a t v) m -> relaying f c -> a = account_of cfg c -> Q x m).

Lemma read_upstream_spec f c m :
  Frame s (Local f c k a t v) m -> relaying f c -> a = account_of cfg c ->
  wp (read_into upstream_end s SIZE_MAX) Q m.
Proof.
  intros HF Hr Ha. pose proof (live_carried _ _ _ _ (serving_live _ _ (proj1 Hr))) as Hc.
  frame_step read_into_spec; [by right|by destruct (carried_down_ok _ _ _ Hc)|..]; clear dependent m.
  - intros x m c' Hs HF. eapply HQ; [exact HF|by eapply relaying_soft|]. by rewrite (soft_account _ _ _ Hs).
  - intros b buffer c1 m Hs Hlen Hb Hsk Hw Hct Hcap HF. pose proof (soft_named f _ _ Hs (relaying_named _ _ Hr Hsk)) as Hn.
    eapply HQ; [exact HF| |by rewrite Ha; symmetry; apply (soft_account _ _ _ Hs)].
    apply (relaying_soft _ _ _ Hs) in Hr. cbn [set_in count_in upstream_end].
    pose proof (soft_carried _ _ _ _ Hs Hc) as [U D EU ED R X].
    apply (relaying_moved f _ c1 (client_to_upstream c1) buffer); try done. constructor; cbn; auto.
    + split; [done|]. rewrite Hcap. apply (carried_down_ok _ _ _ Hc).
    + cbn in Hct. by rewrite Hct, (carried_down _ _ _ Hc), app_assoc.
    + rewrite len_app. pose proof (len_nonneg b). lia.
Qed.

Lemma write_upstream_spec f c m :
  Frame s (Local f c k a t v) m -> relaying f c -> a = account_of cfg c ->
  wp (write_from upstream_end s SIZE_MAX) Q m.
Proof.
  intros HF Hr Ha. pose proof (live_carried _ _ _ _ (serving_live _ _ (proj1 Hr))) as Hc.
  frame_step write_from_spec; [by right|by destruct (carried_up_ok _ _ _ Hc)|done|..].
  { intros x b. by apply upstream_event_ok. }
  all: clear dependent m.
  - intros x m HF. by eapply HQ.
  - intros x b m (Hw & Hct & Hcap) _ Hsk HF. pose proof (relaying_named _ _ Hr Hsk) as Hn.
    eapply HQ; [exact HF| |done]. cbn [set_out count_out upstream_end].
    apply (relaying_moved f _ c b (upstream_to_client c)); try done. destruct Hc. constructor; cbn; auto.
    + split; [done|]. rewrite Hcap. apply carried_up_ok.
    + rewrite carried_up. cbn in Hct. by rewrite Hct, app_assoc.
Qed.

End Upstream.

(** * Dispatch *)

(** The handshake with the TLS provider. *)
Lemma advance_effect s f c k a t v m (Q : bool -> machine -> Prop) :
  Frame s (Local f c k a t v) m ->
  (forall x c' m', soft c c' \/ soft (c <| state := CONNECTION_HANDSHAKE |>) c' ->
     Frame s (Local f c' k a t v) m' -> Q x m') ->
  wp (egress_relay_advance_tls_handshake s) Q m.
Proof.
  intros HF HQ. unfold egress_relay_advance_tls_handshake. do 4 step. step. quiet_step. do 2 step.
  destruct (bool_decide _).
  - do 3 step. eapply HQ; [|exact HF]. right. solve_soft.
  - step. soft_step. step. eapply HQ; [|exact HF]. left. etransitivity; [|done]. solve_soft.
Qed.

Lemma advanced_serving f c :
  serving f c -> state c = CONNECTION_TLS_HANDSHAKE -> serving f (c <| state := CONNECTION_HANDSHAKE |>).
Proof.
  intros [_ [] [] Hfr] Hst. assert (Hh : handshaking c) by (by right). constructor; try done.
  - constructor; try done.
    + destruct live_carried. by constructor.
    + cbn. intros _. apply live_uncrossed. by rewrite Hst.
    + by left; left.
    + by left; left.
    + intros [Hn|Hn]; [by destruct Hn; left|]. cbn in Hn. apply live_exact. by right.
    + intros Hn. by destruct Hn; left.
  - intros _ Hn. cbn in Hn. by destruct (Hfr Hh Hn).
Qed.

Lemma advance_spec s f c k a t v m (Q : bool -> machine -> Prop) :
  Frame s (Local f c k a t v) m -> serving f c -> state c = CONNECTION_TLS_HANDSHAKE -> a = account_of cfg c ->
  (forall x c' m', Frame s (Local f c' k a t v) m' -> serving f c' -> a = account_of cfg c' -> Q x m') ->
  wp (egress_relay_advance_tls_handshake s) Q m.
Proof.
  intros HF Hs Hst Ha HQ. frame_step advance_effect. intros x c' m' Hc HF'. eapply HQ; [exact HF'|..].
  - destruct Hc; eauto using serving_soft, advanced_serving.
  - rewrite Ha. symmetry. destruct Hc as [Hc|Hc]; apply (soft_account cfg _ _ Hc).
Qed.

Lemma held_unused l : held l -> in_use (l_conn l) = false -> local_ok l.
Proof. intros (Ht & Hk & Ha & _ & Hn) Hu. split_and!; try done. left. auto. Qed.

(** What the first half of a dispatch establishes: a connection that may be
    about to fail, and satisfies the invariant otherwise. *)
Definition served (ok : bool) (l : local) : Prop :=
  held l /\ in_use (l_conn l) = true /\ (ok = true -> local_ok l).

Lemma served_ok ok l : local_ok l -> in_use (l_conn l) = true -> served ok l.
Proof. intros Hl Hu. split_and!; auto using local_ok_held. Qed.

Lemma served_soft ok f c c' k a t v :
  soft c c' -> served ok (Local f c k a t v) -> served ok (Local f c' k a t v).
Proof.
  intros Hs (Hh & Hu & Hl). split_and!; [by eapply held_soft| |].
  - cbn in *. by rewrite (soft_in_use _ _ Hs).
  - intros E. eapply soft_local_ok; [done|auto].
Qed.

Lemma ready_serving f c : ready f c -> serving f c.
Proof. intros [|[]]; [by apply settled_serving|by constructor]. Qed.

Lemma serving_ready f c : serving f c -> close_after_flush c = false -> ready f c.
Proof.
  intros [] Hf. destruct (in_handshake c) eqn:Eh.
  - right. apply in_handshake_spec in Eh. by constructor; auto.
  - left. constructor; auto. intros Hh%in_handshake_spec. congruence.
Qed.

Lemma serving_served ok f c t v :
  serving f c -> totals_ok cfg t -> served ok (Local f c 1 (account_of cfg c) t v).
Proof. intros Hs Ht. apply served_ok; [by apply serving_local|by destruct Hs]. Qed.

Lemma client_readable_spec s f c t v m fl (Q : option (bool * bool) -> machine -> Prop) :
  Frame s (Local f c 1 (account_of cfg c) t v) m -> serving f c -> totals_ok cfg t ->
  (forall l' m', Frame s l' m' -> local_ok l' -> Q None m') ->
  (forall ok progress l' m', Frame s l' m' -> served ok l' -> Q (Some (ok, progress)) m') ->
  wp (client_readable s fl) Q m.
Proof.
  intros HF Hs Ht Hnone Hsome. unfold client_readable. do 2 step. destruct (_ && _) eqn:E1.
  { apply andb_true_iff in E1 as [E1%bool_decide_eq_true _]. step. frame_step advance_spec; [done..|].
    clear dependent m. intros ok c' m HF Hs' Ha. step. eapply Hsome; [exact HF|]. rewrite Ha. by apply serving_served. }
  clear E1. destruct (_ && _) eqn:E2; [|step; eapply Hsome; [exact HF|]; by apply serving_served].
  apply andb_true_iff in E2 as [_ E2%negb_true_iff]. step.
  frame_step read_from_client_spec; [by apply serving_ready|done|]. clear dependent m f c.
  intros result f c t' m HF Ht' Hr. step. soft_step. rewrite <-(soft_account _ _ _ Hsoft) in HF.
  apply (ready_soft _ _ _ Hsoft) in Hr. clear dependent c t. rename c0 into c. do 2 step.
  assert (Hend : forall ok l m, Frame s l m -> held l -> (ok = true -> local_ok l) ->
    wp (c ← get_conn s; mret (if in_use c then Some (ok, result.2) else None)) Q m).
  { clear dependent m. intros ok l m HF Hh Hl. do 3 step. destruct (in_use (l_conn l)) eqn:Hu.
    - by eapply Hsome.
    - eapply Hnone; [exact HF|]. by apply held_unused. }
  destruct (_ && _) eqn:E3.
  { apply andb_true_iff in E3 as [_ E3%bool_decide_eq_true]. destruct Hr as [[_ Hst]|Hw]; [by destruct Hst; left|].
    assert (Ea : account_of cfg c = no_account) by (by eapply waiting_close).
    rewrite Ea in HF. step. eapply process_handshake_spec; eauto. intros y l' m' HF' (Hh & Hl & _). by eapply Hend. }
  clear E3. destruct (_ && _).
  - step. frame_step enforce_spec; [apply serving_local; eauto using ready_serving|]. eauto using local_ok_held.
  - step. destruct result as [ok progress]. eapply Hsome; [exact HF|]. apply serving_served; [by apply ready_serving|done].
Qed.

Lemma client_writable_spec s l m fl ok progress (Q : bool -> machine -> Prop) :
  Frame s l m -> served ok l ->
  (forall x l' m', Frame s l' m' -> served x l' -> Q x m') -> wp (client_writable s fl ok progress) Q m.
Proof.
  destruct l as [f c k a t v]. intros HF (Hh & Hu & Hl) HQ. unfold client_writable. do 2 step.
  destruct ok; cbn [andb]; [|step; by eapply HQ].
  destruct (_ && _); [|step; by eapply HQ; [exact HF|apply served_ok; auto]].
  destruct (local_serving _ _ _ _ _ _ (Hl eq_refl) Hu) as (Hs & -> & -> & Ht).
  step. eapply write_to_client_spec; [|exact HF|done|done]. clear dependent m f c t.
  intros x f c t m HF Ht Hs. step. soft_step. step. eapply HQ; [exact HF|].
  eapply served_soft; [done|]. by apply serving_served.
Qed.

Lemma dispatch_client_spec s f c t v m fl (Q : option bool -> machine -> Prop) :
  Frame s (Local f c 1 (account_of cfg c) t v) m -> serving f c -> totals_ok cfg t ->
  (forall l' m', Frame s l' m' -> local_ok l' -> Q None m') ->
  (forall ok l' m', Frame s l' m' -> served ok l' -> Q (Some ok) m') ->
  wp (dispatch_client s fl) Q m.
Proof.
  intros HF Hs Ht Hnone Hsome. unfold dispatch_client. step.
  frame_step client_readable_spec; [done|done|..]; clear dependent m.
  - intros l m HF Hl. step. by eapply Hnone.
  - intros ok progress l m HF Hsv. step. frame_step client_writable_spec; [done|]. clear dependent m l ok.
    intros ok [f' c' k a t' v'] m HF Hsv. step. soft_step. step. eapply Hsome; [exact HF|]. by eapply served_soft.
Qed.

Lemma connecting_opening f c : serving f c -> state c = CONNECTION_CONNECTING -> opening cfg pols f c.
Proof.
  intros [] Hst. assert (Hh : ~ handshaking c) by (intros [Hh|Hh]; congruence). constructor; auto.
  - apply (live_exact _ _ _ _ serving_live0). by left.
  - by destruct (live_destination _ _ _ _ serving_live0).
Qed.

Lemma connecting_aimed f c : serving f c -> state c = CONNECTION_CONNECTING -> aimed f c.
Proof. intros [_ _ [] _] Hst. destruct live_target as [[Hh|Hh]|]; [congruence..|done]. Qed.

Lemma opening_soft_local f c c' a t v m s :
  soft c c' -> Frame s (Local f c' 1 a t v) m -> opening cfg pols f c -> a = account_of cfg c ->
  opening cfg pols f c' /\ a = account_of cfg c'.
Proof. intros Hs _ Ho Ha. split; [by eapply opening_soft|]. by rewrite (soft_account _ _ _ Hs). Qed.

(** An event of the upstream while it is being connected. *)
Lemma connecting_event_spec s f c t v m (Q : option bool -> machine -> Prop) :
  Frame s (Local f c 1 (account_of cfg c) t v) m -> serving f c -> totals_ok cfg t ->
  state c = CONNECTION_CONNECTING ->
  (forall x l' m', Frame s l' m' -> local_ok l' -> Q x m') ->
  wp (connected ← call (sys_socket_connect_complete (upstream_socket c));
      if connected : bool then
        egress_connection_connected s;;
        c ← get_conn s;
        mret (if in_use c then Some true else None)
      else
        call (sys_loop_unwatch (upstream_watch c));;
        set_conn s (fun c => c <| upstream_watch := 0 |>);;
        release_upstream s;;
        ok ← egress_connection_connect_next s;
        mret (Some ok)) Q m.
Proof.
  intros HF Hs Ht Hst HQ. pose proof (connecting_opening _ _ Hs Hst) as Ho. step. quiet_step.
  match goal with |- wp (if ?b then _ else _) _ _ => destruct b end.
  - step. frame_step connected_spec; [done|by eapply connecting_aimed|by apply (live_trying _ _ _ _ (serving_live _ _ Hs))|done..|].
    clear dependent m. intros l m HF Hl. do 3 step. by eapply HQ.
  - step. quiet_step. step. soft_step. step. frame_step release_upstream_spec. clear dependent m. intros m c2 Hs2 Hn _ HF. step.
    pose proof (soft_trans _ _ _ Hsoft Hs2) as Hx.
    destruct (opening_soft_local _ _ _ _ _ _ _ _ Hx HF Ho eq_refl) as [Ho' Ha'].
    frame_step connect_next_spec; [done|by right|done|done|]. clear dependent m. intros ok l m HF Hl _. step.
    by eapply HQ.
Qed.

(** An event of the upstream while bytes are relayed. *)
Lemma relay_event_spec s f c t v m fl (Q : option bool -> machine -> Prop) :
  Frame s (Local f c 1 (account_of cfg c) t v) m -> relaying f c -> totals_ok cfg t ->
  (forall ok l' m', Frame s l' m' -> local_ok l' -> Q (Some ok) m') ->
  wp (ok ←
        (if ev_read fl then
           result ← read_into upstream_end s SIZE_MAX;
           touch_activity s result;;
           mret result.1
         else mret true);
      ok ←
        (if ok && ev_write fl then
           result ← write_from upstream_end s SIZE_MAX;
           touch_activity s result;;
           mret result.1
         else mret ok);
      when (ev_error fl && negb (ev_read fl)) (set_conn s (fun c => c <| upstream_eof := true |>));;
      mret (Some ok)) Q m.
Proof.
  intros HF Hr Ht HQ. remember (account_of cfg c) as a eqn:Ha.
  assert (Hend : forall ok f c m, Frame s (Local f c 1 a t v) m -> relaying f c -> a = account_of cfg c ->
    wp (when (ev_error fl && negb (ev_read fl)) (set_conn s (fun c => c <| upstream_eof := true |>));;
        mret (Some ok)) Q m).
  { clear dependent m f c. intros ok f c m HF Hr Ha. step. soft_step. step. eapply HQ; [exact HF|].
    eapply soft_local_ok; [done|]. apply serving_local; [by destruct Hr|done..]. }
  assert (Hwrite : forall (ok : bool) f c m, Frame s (Local f c 1 a t v) m -> relaying f c -> a = account_of cfg c ->
    wp (ok ← (if ok && ev_write fl then
                result ← write_from upstream_end s SIZE_MAX;
                touch_activity s result;;
                mret result.1
              else mret ok);
        when (ev_error fl && negb (ev_read fl)) (set_conn s (fun c => c <| upstream_eof := true |>));;
        mret (Some ok)) Q m).
  { clear dependent m f c. intros ok f c m HF Hr Ha. step. destruct (ok && ev_write fl); [|step; by eapply Hend]. step.
    eapply write_upstream_spec; [|exact HF|done|done]. clear dependent m f c. intros x f c m HF Hr Ha.
    step. soft_step. step. eapply Hend; [exact HF|by eapply relaying_soft|]. by rewrite (soft_account _ _ _ Hsoft). }
  step. destruct (ev_read fl); [|step; by eapply Hwrite]. step.
  eapply read_upstream_spec; [|exact HF|done|done]. clear dependent m f c. intros x f c m HF Hr Ha.
  step. soft_step. step. eapply Hwrite; [exact HF|by eapply relaying_soft|]. by rewrite (soft_account _ _ _ Hsoft).
Qed.

Lemma dispatch_upstream_spec s f c t v m fl (Q : option bool -> machine -> Prop) :
  Frame s (Local f c 1 (account_of cfg c) t v) m -> serving f c -> totals_ok cfg t ->
  (forall x l' m', Frame s l' m' -> local_ok l' -> Q x m') -> wp (dispatch_upstream s fl) Q m.
Proof.
  intros HF Hs Ht HQ. unfold dispatch_upstream. do 2 step.
  destruct (state c) eqn:Hst; try (step; eapply HQ; [exact HF|]; by apply serving_local).
  - destruct (_ || _); [by eapply connecting_event_spec|]. step. eapply HQ; [exact HF|]. by apply serving_local.
  - eapply relay_event_spec; eauto. by split.
Qed.

Lemma close_failed_spec s l m (Q : unit -> machine -> Prop) :
  Frame s l m -> held l -> (forall l' m', Frame s l' m' -> local_ok l' -> Q tt m') -> wp (close_failed s) Q m.
Proof.
  destruct l as [f c k a t v]. intros HF Hh HQ. unfold close_failed. step.
  eapply wp_softly; [|exact HF|].
  - apply softly_set_conn. intros c0. destruct (bool_decide _); solve_soft.
  - clear dependent m. intros _ m c' Hs HF. frame_step close_held; [by eapply held_soft|]. intros ? ? ? ? _. by eapply HQ.
Qed.

Lemma dispatch_end_spec s l m ok (Q : unit -> machine -> Prop) :
  Frame s l m -> held l -> (ok = true -> local_ok l) ->
  (forall l' m', Frame s l' m' -> local_ok l' -> Q tt m') -> wp (dispatch_end s ok) Q m.
Proof.
  destruct l as [f c k a t v]. intros HF Hh Hl HQ. unfold dispatch_end. do 3 step. quiet_step. step. soft_step.
  apply (held_soft _ _ _ _ _ _ _ Hsoft) in Hh.
  assert (Hl' : ok = true -> local_ok (Local f c0 k a t v)) by (intros E; eapply soft_local_ok; [exact Hsoft|auto]).
  clear dependent c. rename c0 into c. do 2 step.
  assert (Hclose : forall l m, Frame s l m -> held l -> wp (egress_connection_close s) Q m).
  { clear dependent m. intros l m HF Hheld. frame_step close_held; [done|]. intros ? ? ? ? _. by eapply HQ. }
  destruct (_ && _); [by eapply Hclose|]. destruct ok; cbn [negb]; [|by eapply close_failed_spec].
  specialize (Hl' eq_refl). step. soft_step. apply (held_soft _ _ _ _ _ _ _ Hsoft) in Hh.
  eapply soft_local_ok in Hl'; [|exact Hsoft]. clear dependent c. rename c0 into c.
  destruct (negb _); [by eapply close_failed_spec|]. do 2 step. destruct (connection_complete c); [by eapply Hclose|].
  step. soft_step. apply (held_soft _ _ _ _ _ _ _ Hsoft) in Hh.
  eapply soft_local_ok in Hl'; [|exact Hsoft]. clear dependent c. rename c0 into c.
  unfold when. destruct (negb _); [|step; by eapply HQ]. step. soft_step. eapply Hclose; [exact HF|]. by eapply held_soft.
Qed.

Lemma relay_dispatch_spec s l m side fl (Q : unit -> machine -> Prop) :
  Frame s l m -> local_ok l -> in_use (l_conn l) = true ->
  (forall l' m', Frame s l' m' -> local_ok l' -> Q tt m') -> wp (egress_relay_dispatch s side fl) Q m.
Proof.
  destruct l as [f c k a t v]. intros HF Hl Hu HQ. destruct (local_serving _ _ _ _ _ _ Hl Hu) as (Hs & -> & -> & Ht).
  unfold egress_relay_dispatch. step. soft_step. rewrite <-(soft_account _ _ _ Hsoft) in HF.
  apply (serving_soft _ _ _ Hsoft) in Hs. clear dependent c. rename c0 into c. step.
  assert (Hok : local_ok (Local f c 1 (account_of cfg c) t v)) by (by apply serving_local).
  destruct (side =? TOKEN_SIDE_CLIENT); [|destruct (side =? TOKEN_SIDE_UPSTREAM)].
  - frame_step dispatch_client_spec; [done|done|..]; clear dependent m.
    + intros l m HF Hl. step. by eapply HQ.
    + intros ok l m HF (Hh & _ & Hl). by eapply dispatch_end_spec.
  - frame_step dispatch_upstream_spec; [done|done|]. clear dependent m. intros [ok|] l m HF Hl; [|step; by eapply HQ].
    eapply dispatch_end_spec; eauto using local_ok_held.
  - step. eapply dispatch_end_spec; eauto using local_ok_held.
Qed.

End Facts.

#[export] Hint Resolve softly_touch_activity softly_hup_as_read softly_half_close_upstream
  softly_half_close_client softly_apply_half_closes : softly.
