(* ===== verification/OwnerFacts.v ===== *)
(** The actions of the owner thread and of the embedder's threads keep the
    invariant of the server: acceptance, open commands, expiry, events and the
    end of a run. *)

From S2P Require Import Prelude Common Codec Sha256 Config Policy Http Socks ClientHello.
From S2P Require Import Receipt Journal Buffer Server Connection Relay Admin Listener Reactor.
From S2P Require Import Invariant ConnectionFacts RelayFacts.

Section Facts.
Context `{Inet} `{Fs} `{ListenSys} `{!SysLaws}.
Context (cfg : maelys_egress_config) (pols : list maelys_egress_policy).
Context (Hcfg : config_ok cfg).
Set Default Proof Using "Type*".

Local Abbreviation Frame := (Frame cfg pols).
Local Abbreviation base := (base cfg pols).
Local Abbreviation live := (live cfg pols).
Local Abbreviation local_ok := (local_ok cfg pols).
Local Abbreviation held := (held cfg pols).
Local Abbreviation serving := (serving cfg pols).
Local Abbreviation softly := (softly cfg pols).
Local Abbreviation quiet := (quiet cfg pols).
Local Abbreviation Inv := (Inv cfg pols).

(** * Opening a slot *)

(** The flow of a new connection. *)
Definition born_flow : flow := no_flow <| balance := 1 |>.

(** A connection that was just opened; [ok] says that it has its buffers. *)
Record newborn (ok : bool) (c : egress_connection_t) : Prop := {
  newborn_state : handshaking c;
  newborn_flush : close_after_flush c = false;
  newborn_base : base born_flow c;
  newborn_fresh : fresh born_flow c;
  newborn_live : ok = true -> live born_flow c;
}.

Lemma newborn_soft ok c c' : soft c c' -> newborn ok c -> newborn ok c'.
Proof.
  intros Hs []. constructor; eauto using soft_base, soft_fresh, soft_live; [|by rewrite (soft_flush _ _ Hs)].
  by apply (soft_handshaking _ _ Hs).
Qed.

Lemma newborn_used ok c : newborn ok c -> in_use c = true.
Proof. intros [[Hs|Hs] _ _ _ _]; unfold in_use; by rewrite Hs. Qed.

Lemma newborn_admitted ok c : newborn ok c -> account_of cfg c = no_account.
Proof. intros []. by apply account_none, (fresh_admitted _ _ newborn_fresh0). Qed.

Lemma newborn_serving c : newborn true c -> serving born_flow c.
Proof. intros Hn. pose proof (newborn_used _ _ Hn). destruct Hn. constructor; auto. Qed.

Lemma newborn_held ok c t v : newborn ok c -> totals_ok cfg t -> held (Local born_flow c 1 no_account t v).
Proof.
  intros Hn Ht. pose proof (newborn_used _ _ Hn) as Hu. pose proof (newborn_admitted _ _ Hn). destruct Hn.
  split_and!; cbn; try done; [by rewrite Hu|intros _; split; [done|by apply fresh_fair]|by rewrite Hu].
Qed.

Lemma new_connection_newborn st g client index c2u u2c mono unix :
  (st = CONNECTION_HANDSHAKE \/ st = CONNECTION_TLS_HANDSHAKE) ->
  (forall b, c2u = Some b -> len b = buffer_bytes cfg) -> (forall b, u2c = Some b -> len b = buffer_bytes cfg) ->
  newborn (is_some c2u && is_some u2c) (new_connection cfg st g client index c2u u2c mono unix).
Proof.
  intros Hst Hup Hdn. constructor; try done.
  - constructor; try done; by left.
  - intros [Eu Ed]%andb_true_iff. destruct c2u as [b|]; [|done]. destruct u2c as [b'|]; [|done].
    destruct (new_buffer_spec b (buffer_bytes cfg)) as [W1 C1]; [by apply Hup|].
    destruct (new_buffer_spec b' (buffer_bytes cfg)) as [W2 C2]; [by apply Hdn|].
    constructor; try done; by left.
Qed.

Lemma open_slot_spec s f c k a t v m st client index (Q : bool -> machine -> Prop) :
  Frame s (Local f c k a t v) m -> balance f = 0 ->
  (st = CONNECTION_HANDSHAKE \/ st = CONNECTION_TLS_HANDSHAKE) ->
  (forall ok c' m', Frame s (Local born_flow c' k a t v) m' -> newborn ok c' -> state c' = st -> Q ok m') ->
  wp (open_slot s st client index) Q m.
Proof.
  intros HF Hbal Hst HQ. unfold open_slot. do 3 step. quiet_step. do 2 step. generalize (next_id (server m)). intros g.
  step. frame_step wp_call. intros w1 m1 HF1. clear dependent m. step. frame_step wp_call. intros w2 m HF. clear dependent m1.
  step. quiet_step. step. quiet_step. do 3 step. frame_step wp_note; [done|done|]. next. step. cbn [flow_step] in HF.
  rewrite Hbal in HF. change (no_flow <| balance := 0 + 1 |>) with born_flow in HF.
  eapply HQ; [exact HF| |done]. apply new_connection_newborn; [done|..]; intros b; apply law_malloc.
Qed.

Lemma free_slot_spec cs i : free_slot cs = Some i -> exists c, cs !! i = Some c /\ in_use c = false.
Proof.
  revert i. induction cs as [|c cs IH]; intros i; cbn [free_slot]; [done|].
  destruct (in_use c) eqn:Hu; [|intros [= <-]; by exists c].
  destruct (free_slot cs) as [j|]; [|done]. intros [= <-]. by apply IH.
Qed.

(** The frame of a free slot. *)
Lemma inv_free s m :
  Inv m -> free_slot (connections (server m)) = Some s ->
  exists f c t v, Frame s (Local f c 0 no_account t v) m /\ balance f = 0 /\ totals_ok cfg t.
Proof.
  intros Hi (c & Hc & Hu)%free_slot_spec.
  destruct (inv_frame cfg pols s m Hi) as ([f c' k a t v] & HF & Hs & Ht & Hk & Ha).
  { rewrite <-(inv_length _ _ _ Hi). by eapply lookup_lt_Some. }
  pose proof (frame_conn _ _ _ _ _ HF) as Hc'. cbn in *. rewrite Hc in Hc'. injection Hc' as <-.
  rewrite Hu in Hk. subst k. destruct Hs as [(_ & Hq & Hbal)|[Hu' _]]; [|congruence].
  rewrite (account_none _ _ Hq) in Ha. subst a. by exists f, c, t, v.
Qed.

(** * Programs that keep the invariant *)

Definition keeps {A} (p : M A) : Prop :=
  forall m (Q : A -> machine -> Prop), Inv m -> (forall x m', Inv m' -> Q x m') -> wp p Q m.

Lemma keeps_ret {A} (x : A) : keeps (mret x).
Proof. intros m Q Hm HQ. by apply wp_ret, HQ. Qed.

Lemma keeps_bind {A B} (p : M A) (g : A -> M B) : keeps p -> (forall x, keeps (g x)) -> keeps (p ≫= g).
Proof. intros Hp Hg m Q Hm HQ. apply wp_bind. eapply Hp; [done|]. intros x m' Hm'. by apply Hg. Qed.

Lemma keeps_when b p : keeps p -> keeps (when b p).
Proof. unfold when. destruct b; [done|]. intros _. apply keeps_ret. Qed.

Lemma slot_zero : (0 < Z.to_nat (max_connections cfg))%nat.
Proof. destruct (ok_limits _ Hcfg) as ([Hm _] & _). lia. Qed.

Lemma keeps_quiet {A} (p : M A) : quiet p -> keeps p.
Proof.
  intros Hp m Q Hm HQ. destruct (inv_frame cfg pols 0 m Hm slot_zero) as (l & HF & Hl).
  eapply Hp; [exact HF|]. intros x m' HF'. apply HQ. by eapply frame_inv.
Qed.

Lemma keeps_for_each {A} (l : list A) (g : A -> M unit) : (forall x, x ∈ l -> keeps (g x)) -> keeps (for_each l g).
Proof.
  induction l as [|x l IH]; intros Hg; cbn [for_each]; [apply keeps_ret|].
  apply keeps_bind; [apply Hg; by left|]. intros _. apply IH. intros y Hy. apply Hg. by right.
Qed.

(** A program on one slot. *)
Lemma keeps_slot {A} s (p : M A) :
  (s < Z.to_nat (max_connections cfg))%nat ->
  (forall l m (Q : A -> machine -> Prop), Frame s l m -> local_ok l ->
     (forall x l' m', Frame s l' m' -> local_ok l' -> Q x m') -> wp p Q m) -> keeps p.
Proof.
  intros Hs Hp m Q Hm HQ. destruct (inv_frame cfg pols s m Hm Hs) as (l & HF & Hl).
  eapply Hp; [exact HF|done|]. intros x l' m' HF' Hl'. apply HQ. by eapply frame_inv.
Qed.

Lemma wp_inv_config m (Q : maelys_egress_config -> machine -> Prop) : Inv m -> Q cfg m -> wp get_config Q m.
Proof. intros Hm HQ. unfold wp, get_config. cbn. by rewrite (inv_config _ _ _ Hm). Qed.

Lemma wp_server m (Q : maelys_egress_server -> machine -> Prop) : Q (server m) m -> wp get_server Q m.
Proof. done. Qed.

Lemma wp_keeps {A} (p : M A) m (Q : A -> machine -> Prop) :
  keeps p -> Inv m -> (forall x m', Inv m' -> Q x m') -> wp p Q m.
Proof. intros Hp. apply Hp. Qed.

(** * Acceptance *)

Lemma newborn_advanced ok c :
  newborn ok c -> state c = CONNECTION_TLS_HANDSHAKE -> newborn ok (c <| state := CONNECTION_HANDSHAKE |>).
Proof.
  intros Hn Hst. constructor.
  - by left.
  - by destruct Hn.
  - by destruct Hn as [_ _ [] _ _].
  - by destruct Hn as [_ _ _ [] _].
  - intros ->. by apply (serving_live cfg pols), advanced_serving, Hst; [|apply newborn_serving].
Qed.

Lemma start_tls_spec s c k a t v m ok provider (Q : unit -> machine -> Prop) :
  Frame s (Local born_flow c k a t v) m -> newborn ok c -> state c = CONNECTION_TLS_HANDSHAKE ->
  (forall c' m', Frame s (Local born_flow c' k a t v) m' -> newborn ok c' -> Q tt m') ->
  wp (start_tls s provider) Q m.
Proof.
  intros HF Hn Hst HQ. unfold start_tls. do 3 step. quiet_step. destruct x as [result session]. step. soft_step.
  assert (Hn' : newborn ok c0) by (by eapply newborn_soft). rewrite <-(soft_state _ _ Hsoft) in Hst.
  clear dependent c. rename c0 into c. destruct (bool_decide _).
  - step. frame_step advance_effect. clear dependent m. intros x' c' m Hc HF.
    assert (Hn2 : newborn ok c') by (destruct Hc; eauto using newborn_soft, newborn_advanced).
    soft_step. destruct x0. eapply HQ; [exact HF|]. by eapply newborn_soft.
  - soft_step. destruct x0. eapply HQ; [exact HF|]. by eapply newborn_soft.
Qed.

Lemma quiet_unix_peer_allowed config client : quiet (egress_listener_unix_peer_allowed config client).
Proof. unfold egress_listener_unix_peer_allowed. solve_quiet. Qed.
Hint Resolve quiet_unix_peer_allowed : quiet.

Lemma count_opened_spec s f c k a t v m (Q : unit -> machine -> Prop) :
  Frame s (Local f c k a t v) m -> (forall m', Frame s (Local f c (k + 1) a t v) m' -> Q tt m') ->
  wp count_opened Q m.
Proof. intros HF HQ. unfold count_opened. step. frame_step wp_count. next. quiet_step. destruct x. auto. Qed.

(** The part of [accept_one] on the slot it found. *)
Lemma accept_slot_spec s f c t v m client sv (Q : unit -> machine -> Prop) :
  Frame s (Local f c 0 no_account t v) m -> balance f = 0 -> totals_ok cfg t ->
  (forall l' m', Frame s l' m' -> local_ok l' -> Q tt m') ->
  wp (allocated ← open_slot s
        (if tls_provider cfg then CONNECTION_TLS_HANDSHAKE else CONNECTION_HANDSHAKE) (Some client) None;
      set_conn s (fun c => c
        <| policy_digest_hex := snprintf_s 65 (digest_hex (server_policy sv)) |>
        <| conn_policy_generation := policy_generation sv |>);;
      count_opened;;
      match tls_provider cfg with
      | Some provider => start_tls s provider
      | None => mret tt
      end;;
      c ← get_conn s;
      ready ← (if allocated && (negb (is_some (tls_provider cfg)) || is_some (tls_session c)) &&
                  bool_decide (conn_result c = MAELYS_EGRESS_OK)
               then egress_connection_update_watches s else mret false);
      when (negb ready)
        (set_conn s (fun c =>
           if bool_decide (conn_result c = MAELYS_EGRESS_OK)
           then c <| conn_result := MAELYS_EGRESS_ERR_MEMORY |> else c);;
         egress_connection_close s)) Q m.
Proof.
  intros HF Hbal Ht HQ. step. frame_step open_slot_spec; [done|destruct (tls_provider cfg); auto|]. clear dependent m f c.
  intros ok c m HF Hn Hst. step. soft_step. rewrite <-(soft_state _ _ Hsoft) in Hst. apply (newborn_soft _ _ _ Hsoft) in Hn.
  clear dependent c. rename c0 into c. step. frame_step count_opened_spec. next. cbn [Z.add] in HF. step.
  assert (Hend : forall c m, Frame s (Local born_flow c 1 no_account t v) m -> newborn ok c ->
    wp (c ← get_conn s;
        ready ← (if ok && (negb (is_some (tls_provider cfg)) || is_some (tls_session c)) &&
                    bool_decide (conn_result c = MAELYS_EGRESS_OK)
                 then egress_connection_update_watches s else mret false);
        when (negb ready)
          (set_conn s (fun c =>
             if bool_decide (conn_result c = MAELYS_EGRESS_OK)
             then c <| conn_result := MAELYS_EGRESS_ERR_MEMORY |> else c);;
           egress_connection_close s)) Q m).
  { clear dependent m c. intros c m HF Hn. do 3 step.
    assert (Hclose : forall c m, Frame s (Local born_flow c 1 no_account t v) m -> newborn ok c ->
      wp (set_conn s (fun c =>
             if bool_decide (conn_result c = MAELYS_EGRESS_OK)
             then c <| conn_result := MAELYS_EGRESS_ERR_MEMORY |> else c);;
           egress_connection_close s) Q m).
    { clear dependent m c. intros c m HF Hn. step. eapply wp_softly; [|exact HF|].
      - apply softly_set_conn. intros c0. destruct (bool_decide _); solve_soft.
      - clear dependent m. intros _ m c' Hs HF. frame_step close_held; [|by eauto].
        eapply newborn_held; [by eapply newborn_soft|done]. }
    destruct ok; cbn [andb]; [|step; cbn [negb when]; by eapply Hclose].
    match goal with |- wp (if ?b then _ else _) _ _ => destruct b end; [|step; cbn [negb when]; by eapply Hclose].
    soft_step. apply (newborn_soft _ _ _ Hsoft) in Hn. clear dependent c. rename c0 into c.
    unfold when. destruct (negb _); [by eapply Hclose|]. step. eapply HQ; [exact HF|].
    apply serving_local; eauto using newborn_serving. by rewrite (newborn_admitted _ _ Hn). }
  destruct (tls_provider cfg) as [provider|]; [|step; by eapply Hend].
  frame_step start_tls_spec; [done..|]. clear dependent m c. intros c m HF Hn. by eapply Hend.
Qed.

Lemma keeps_accept_one client : keeps (accept_one client).
Proof.
  intros m Q Hm HQ. unfold accept_one. apply wp_bind. eapply wp_inv_config; [done|]. apply wp_bind.
  eapply wp_keeps; [apply keeps_quiet, quiet_unix_peer_allowed|done|]. clear dependent m. intros allowed m Hm.
  destruct (negb allowed); [eapply wp_keeps; [apply keeps_quiet; solve_quiet|done|done]|].
  apply wp_bind. eapply wp_keeps; [apply keeps_quiet; solve_quiet|done|]. clear dependent m. intros _ m Hm.
  apply wp_bind, wp_server.
  destruct (max_connections cfg <=? connection_count (server m)).
  { eapply wp_keeps; [apply keeps_quiet; solve_quiet|done|done]. }
  destruct (free_slot (connections (server m))) as [s|] eqn:Es.
  - destruct (inv_free s m Hm Es) as (f & c & t & v & HF & Hbal & Ht). eapply accept_slot_spec; [exact HF|done|done|].
    intros l' m' HF' Hl'. apply HQ. by eapply frame_inv.
  - eapply wp_keeps; [apply keeps_quiet; solve_quiet|done|done].
Qed.

Lemma keeps_accept_all : keeps egress_connection_accept_all.
Proof.
  unfold egress_connection_accept_all. apply keeps_bind; [apply keeps_quiet; solve_quiet|]. intros sv.
  apply keeps_bind; [apply keeps_quiet; solve_quiet|]. intros pending.
  induction pending as [|pending IH]; cbn [accept_loop]; [apply keeps_ret|].
  apply keeps_bind; [apply keeps_quiet; solve_quiet|]. intros client. apply keeps_bind; [apply keeps_accept_one|done].
Qed.

(** * Open commands *)

Lemma newborn_command ok c p o : newborn ok c -> newborn ok (c <| conn_protocol := p |> <| open_command := o |>).
Proof.
  intros []. constructor; try done; [by destruct newborn_base0|by destruct newborn_fresh0|].
  intros Hok. destruct (newborn_live0 Hok). constructor; try done; [by destruct live_carried|by left].
Qed.

(** The part of [begin_command] that runs once the connection has its
    buffers. *)
Lemma command_request_spec s c t v m r (Q : unit -> machine -> Prop) :
  Frame s (Local born_flow c 1 no_account t v) m -> newborn true c -> totals_ok cfg t -> asked r ->
  (forall l' m', Frame s l' m' -> local_ok l' -> Q tt m') ->
  wp (ok ← egress_connection_begin_request s r;
      c ← get_conn s;
      when (negb ok && in_use c)
        (set_conn s (fun c => c <| conn_result := MAELYS_EGRESS_ERR_IO |>);;
         egress_connection_close s)) Q m.
Proof.
  intros HF Hn Ht Hr HQ. pose proof (newborn_used _ _ Hn). pose proof (newborn_admitted _ _ Hn). destruct Hn. step.
  frame_step begin_request_spec; auto. clear dependent m c. intros ok [f c k a t' v'] m HF (Hh & Hl & _). do 2 step.
  unfold when. destruct ok; cbn [negb andb]; [step; by eapply HQ; [exact HF|apply Hl]|].
  cbn [l_conn]. destruct (in_use c) eqn:Hu.
  - step. soft_step. frame_step close_held; [by eapply held_soft|]. eauto.
  - step. eapply HQ; [exact HF|]. by apply held_unused.
Qed.

Lemma begin_command_spec s f c t v m id command (Q : unit -> machine -> Prop) :
  Frame s (Local f c 0 no_account t v) m -> balance f = 0 -> totals_ok cfg t ->
  (forall l' m', Frame s l' m' -> local_ok l' -> Q tt m') -> wp (begin_command s id command) Q m.
Proof.
  intros HF Hbal Ht HQ. unfold begin_command. step. frame_step open_slot_spec; [done|by left|]. clear dependent m f c.
  intros ok c m HF Hn _. step. quiet_step. do 2 step.
  apply (newborn_command _ _ MAELYS_EGRESS_PROTOCOL_CONNECTOR (Some id)) in Hn.
  match type of HF with Frame _ (Local _ ?y _ _ _ _) _ => change (newborn ok y) in Hn; generalize dependent y end.
  clear c. intros c Hn HF. step. quiet_step. step. frame_step count_opened_spec. next. cbn [Z.add] in HF.
  destruct ok; cbn [negb].
  - frame_step command_request_spec; done.
  - step. soft_step. frame_step close_held; [|by eauto]. eapply newborn_held; [by eapply newborn_soft|done].
Qed.

Lemma keeps_process_command id : keeps (process_command id).
Proof.
  intros m Q Hm HQ. unfold process_command. apply wp_bind. eapply wp_keeps; [apply keeps_quiet; solve_quiet|done|].
  clear dependent m. intros command m Hm. apply wp_bind, wp_server.
  assert (Hdone : forall r, wp (egress_open_command_complete id r) Q m).
  { intros r. eapply wp_keeps; [apply keeps_quiet; solve_quiet|done|done]. }
  destruct (_ || _); [done|]. destruct (_ <=? _); [done|]. destruct (free_slot (connections (server m))) as [s|] eqn:Es; [|done].
  destruct (inv_free s m Hm Es) as (f & c & t & v & HF & Hbal & Ht). eapply begin_command_spec; [exact HF|done|done|].
  intros l' m' HF' Hl'. apply HQ. by eapply frame_inv.
Qed.

(** Closing a slot for a reason. *)
Lemma close_with_spec s l m g (Q : unit -> machine -> Prop) :
  Frame s l m -> held l -> (forall c, soft c (g c)) ->
  (forall l' m', Frame s l' m' -> local_ok l' -> in_use (l_conn l') = false -> Q tt m') ->
  wp (set_conn s g;; egress_connection_close s) Q m.
Proof.
  destruct l as [f c k a t v]. intros HF Hh Hg HQ. step. eapply wp_softly; [by apply softly_set_conn|exact HF|].
  clear dependent m. intros _ m c' Hs HF. frame_step close_held; [by eapply held_soft|]. eauto.
Qed.

Lemma cancel_command_spec s l m (Q : unit -> machine -> Prop) :
  Frame s l m -> local_ok l -> (forall x l' m', Frame s l' m' -> local_ok l' -> Q x m') ->
  wp (cancel_command s) Q m.
Proof.
  intros HF Hl HQ. unfold cancel_command. do 2 step.
  destruct (if in_use (l_conn l) then open_command (l_conn l) else None) as [id|]; [|step; by eapply HQ].
  step. quiet_step. unfold when. destruct (cancelled x); [|step; by eapply HQ].
  frame_step close_with_spec; [by apply local_ok_held|solve_soft|]. eauto.
Qed.

(** * Expiry and the end of a run *)

Lemma expire_connection_spec now s l m (Q : unit -> machine -> Prop) :
  Frame s l m -> local_ok l -> (forall x l' m', Frame s l' m' -> local_ok l' -> Q x m') ->
  wp (expire_connection now s) Q m.
Proof.
  intros HF Hl HQ. unfold expire_connection. do 4 step. unfold when. destruct (_ && _); [|step; by eapply HQ].
  frame_step close_with_spec; [by apply local_ok_held|solve_soft|]. eauto.
Qed.

Lemma close_slot_with_spec result s l m (Q : unit -> machine -> Prop) :
  Frame s l m -> local_ok l ->
  (forall l' m', Frame s l' m' -> local_ok l' -> in_use (l_conn l') = false -> Q tt m') ->
  wp (close_slot_with result s) Q m.
Proof.
  intros HF Hl HQ. unfold close_slot_with. frame_step close_with_spec; [by apply local_ok_held| |done].
  intros c. destruct (_ && _); solve_soft.
Qed.

Lemma slots_lt slot : slot ∈ slots cfg -> (slot < Z.to_nat (max_connections cfg))%nat.
Proof. unfold slots. rewrite elem_of_seq. lia. Qed.

Lemma keeps_get_config {A} (g : maelys_egress_config -> M A) : keeps (g cfg) -> keeps (get_config ≫= g).
Proof. intros Hg m Q Hm HQ. apply wp_bind. eapply wp_inv_config; [done|]. by apply Hg. Qed.

(** * Programs the invariant does not see *)

Lemma quiet_get_admin slot : quiet (get_admin slot).
Proof. by apply quiet_same. Qed.
Lemma quiet_set_admin slot g : quiet (set_admin slot g).
Proof. by apply quiet_same. Qed.
Lemma quiet_get_audit : quiet get_audit.
Proof. by apply quiet_same. Qed.
Lemma quiet_add_command c : quiet (add_command c).
Proof. by apply quiet_same. Qed.
Lemma quiet_take_commands : quiet take_commands.
Proof. by apply quiet_same. Qed.
Hint Resolve quiet_get_admin quiet_set_admin quiet_get_audit quiet_add_command quiet_take_commands : quiet.

Lemma quiet_admin_close slot : quiet (egress_admin_close slot).
Proof. unfold egress_admin_close. solve_quiet. Qed.
Lemma quiet_admin_watch slot i : quiet (admin_watch slot i).
Proof. unfold admin_watch. solve_quiet. Qed.
Hint Resolve quiet_admin_close quiet_admin_watch : quiet.

Lemma quiet_prepare_admin_response slot : quiet (prepare_admin_response slot).
Proof.
  unfold prepare_admin_response. apply quiet_bind; [solve_quiet|]. intros a.
  destruct (find_sub _ _); [|apply quiet_ret]. do 2 (apply quiet_bind; [solve_quiet|intros]).
  destruct (admin_answer _ _ _) as [[status content_type] body].
  destruct (_ <=? _); [solve_quiet|]. cbn zeta. destruct (_ <=? _); solve_quiet.
Qed.
Hint Resolve quiet_prepare_admin_response : quiet.

Lemma quiet_admin_read slot : quiet (admin_read slot).
Proof. unfold admin_read. solve_quiet. Qed.
Lemma quiet_admin_write slot : quiet (admin_write slot).
Proof. unfold admin_write. solve_quiet. Qed.
Hint Resolve quiet_admin_read quiet_admin_write : quiet.

Lemma quiet_admin_dispatch slot f : quiet (egress_admin_dispatch slot f).
Proof. unfold egress_admin_dispatch. solve_quiet. Qed.
Lemma quiet_admin_accept_one client : quiet (admin_accept_one client).
Proof. unfold admin_accept_one. solve_quiet. Qed.
Hint Resolve quiet_admin_dispatch quiet_admin_accept_one : quiet.

Lemma quiet_admin_accept_all : quiet egress_admin_accept_all.
Proof.
  unfold egress_admin_accept_all. do 2 (apply quiet_bind; [solve_quiet|intros]).
  match goal with |- quiet (admin_accept_loop ?n _) => induction n as [|n IH]; cbn [admin_accept_loop] end;
    [apply quiet_ret|]. do 2 (apply quiet_bind; [solve_quiet|intros]). done.
Qed.
Lemma quiet_expire_admin now slot : quiet (expire_admin now slot).
Proof. unfold expire_admin. solve_quiet. Qed.
Hint Resolve quiet_admin_accept_all quiet_expire_admin : quiet.

Lemma quiet_for_each {A} (l : list A) g : (forall x, quiet (g x)) -> quiet (for_each l g).
Proof. intros Hg. induction l as [|x l IH]; cbn [for_each]; [apply quiet_ret|]. by apply quiet_bind. Qed.

Lemma quiet_reject result : quiet (egress_open_commands_reject result).
Proof.
  unfold egress_open_commands_reject. apply quiet_bind; [solve_quiet|]. intros q. apply quiet_for_each. intros. solve_quiet.
Qed.

(** ** Other threads *)

Lemma quiet_accept_wait rounds listener deadline : quiet (accept_wait rounds listener deadline).
Proof. induction rounds; cbn [accept_wait]; solve_quiet. Qed.
Hint Resolve quiet_accept_wait : quiet.

Lemma quiet_pair_connect rounds listener a : quiet (pair_connect rounds listener a).
Proof. unfold pair_connect, pair_detach. solve_quiet. Qed.
Hint Resolve quiet_pair_connect : quiet.

Lemma quiet_private_tcp_pair rounds : quiet (egress_listener_create_private_tcp_pair rounds).
Proof. unfold egress_listener_create_private_tcp_pair, pair_listener. solve_quiet. Qed.
Lemma quiet_wake_if_live : quiet server_loop_wake_if_live.
Proof. unfold server_loop_wake_if_live. solve_quiet. Qed.
Hint Resolve quiet_private_tcp_pair quiet_wake_if_live : quiet.

Lemma quiet_open_stream_begin rounds sync index principal invocation host port_ timeout :
  quiet (open_stream_begin rounds sync index principal invocation host port_ timeout).
Proof. unfold open_stream_begin. solve_quiet. Qed.
Lemma quiet_open_stream_end id waited : quiet (open_stream_end id waited).
Proof. unfold open_stream_end. solve_quiet. Qed.
Lemma quiet_connector_bind native user secret_ : quiet (egress_server_connector_bind native user secret_).
Proof. unfold egress_server_connector_bind. solve_quiet. Qed.
Hint Resolve quiet_open_stream_begin quiet_open_stream_end quiet_connector_bind : quiet.

Lemma quiet_session_open_begin rounds mem sync connector host port_ timeout :
  quiet (session_open_begin rounds mem sync connector host port_ timeout).
Proof. unfold session_open_begin. solve_quiet. Qed.
Lemma quiet_connector_create mem native user secret_ : quiet (connector_create mem native user secret_).
Proof. unfold connector_create. solve_quiet. Qed.
Lemma quiet_connector_release connector : quiet (maelys_egress_connector_release connector).
Proof. unfold maelys_egress_connector_release, egress_server_control_release. solve_quiet. Qed.
Lemma quiet_session_release session : quiet (maelys_egress_session_release session).
Proof. unfold maelys_egress_session_release. solve_quiet. Qed.
Lemma quiet_stop : quiet maelys_egress_server_stop.
Proof. unfold maelys_egress_server_stop. solve_quiet. Qed.
Lemma quiet_metrics_snapshot mem : quiet (maelys_egress_server_metrics_snapshot mem).
Proof. unfold maelys_egress_server_metrics_snapshot. solve_quiet. Qed.

(** * Events *)

Lemma keeps_dispatch_event token f : keeps (dispatch_event token f).
Proof.
  unfold dispatch_event. destruct (_ =? _); [apply keeps_when, keeps_accept_all|].
  destruct (_ =? _); [apply keeps_quiet; solve_quiet|]. destruct (negb _).
  { destruct (decode_token _) as [[slot gen] side]. apply keeps_quiet. solve_quiet. }
  destruct (decode_token _) as [[slot gen] side]. apply keeps_get_config.
  destruct (Z.leb_spec (max_connections cfg) slot) as [|Hs]; [apply keeps_ret|].
  destruct (ok_limits _ Hcfg) as ([Hm _] & _).
  apply (keeps_slot (Z.to_nat slot)); [lia|]. intros l m Q HF Hl HQ. do 2 step. unfold when.
  destruct (in_use (l_conn l)) eqn:Hu; cbn [andb]; [|step; by eapply HQ].
  destruct (_ =? _); [|step; by eapply HQ]. frame_step relay_dispatch_spec; eauto.
Qed.

End Facts.

#[export] Hint Resolve quiet_get_admin quiet_set_admin quiet_get_audit quiet_add_command quiet_take_commands
  quiet_admin_close quiet_expire_admin quiet_reject quiet_wake_if_live
  quiet_open_stream_begin quiet_open_stream_end quiet_connector_bind quiet_session_open_begin
  quiet_connector_create quiet_connector_release quiet_session_release quiet_stop quiet_metrics_snapshot : quiet.
