(* ===== verification/System.v ===== *)
(** The server as a transition system.  The owner thread runs
    [maelys_egress_server_run]; other threads open streams, replace the policy,
    read the metrics and stop the server.  A step is one action of the owner or
    one call of another thread, in any order: the functions of src/server share
    the policy, the queue of commands and the flags of the lifecycle only under
    the locks or atomics that make such an action indivisible for the others. *)

From S2P Require Import Prelude Common Codec Sha256 Config Policy Http Socks ClientHello.
From S2P Require Import Receipt Journal Buffer Server Connection Relay Admin Listener Reactor.
From S2P Require Import Invariant ConnectionFacts RelayFacts OwnerFacts.

Section System.
Context `{Inet} `{Fs} `{ListenSys}.

(** * Actions *)

Inductive owner_action :=
| MarkStarted
| MarkRunning
| WaitForEvents
| Dispatch (token : Z) (f : flags)
| TakeCommands
| ProcessCommand (id : nat)
| CancelCommand (slot : nat)
| ReadClock
| ExpireConnection (now : Z) (slot : nat)
| ExpireAdmin (now : Z) (slot : nat)
| RejectCommands
| CloseSlot (result : maelys_egress_result_t) (slot : nat)
| Finish.

Definition perform (a : owner_action) : M unit :=
  match a with
  | MarkStarted => set_server (fun s => s <| started := true |>)
  | MarkRunning => set_server (fun s => s <| running := true |>)
  | WaitForEvents => s ← get_server; answer ← call (sys_loop_step (next_deadline s)); mret tt
  | Dispatch token f => dispatch_event token f
  | TakeCommands => queue ← take_commands; mret tt
  | ProcessCommand id => process_command id
  | CancelCommand slot => cancel_command slot
  | ReadClock => now ← monotonic_now; mret tt
  | ExpireConnection now slot => expire_connection now slot
  | ExpireAdmin now slot => expire_admin now slot
  | RejectCommands => egress_open_commands_reject MAELYS_EGRESS_ERR_CANCELLED
  | CloseSlot result slot => close_slot_with result slot
  | Finish => set_server (fun s => s <| running := false |>)
  end.

(** The slots the owner goes through are those of the array. *)
Definition action_ok (config : maelys_egress_config) (a : owner_action) : Prop :=
  match a with
  | CancelCommand slot | ExpireConnection _ slot | CloseSlot _ slot => slot ∈ slots config
  | _ => True
  end.

(** Calls of other threads that leave the policy alone. *)
Inductive other_action :=
| Stop
| MetricsSnapshot (mem : bool)
| ConnectorCreate (mem native : bool) (user secret_ : option bytes)
| ConnectorRelease (connector : maelys_egress_connector)
| SessionOpenBegin (rounds : nat) (mem sync : bool) (connector : maelys_egress_connector)
    (host : bytes) (port_ timeout_ms : Z)
| SessionOpenEnd (id : nat) (waited : wait_answer)
| SessionRelease (session : Z).

Definition perform_other (a : other_action) : M unit :=
  match a with
  | Stop => result ← maelys_egress_server_stop; mret tt
  | MetricsSnapshot mem => answer ← maelys_egress_server_metrics_snapshot mem; mret tt
  | ConnectorCreate mem native user secret_ => answer ← connector_create mem native user secret_; mret tt
  | ConnectorRelease connector => left ← maelys_egress_connector_release connector; mret tt
  | SessionOpenBegin rounds mem sync connector host port_ timeout_ms =>
      answer ← session_open_begin rounds mem sync connector host port_ timeout_ms; mret tt
  | SessionOpenEnd id waited => answer ← open_stream_end id waited; mret tt
  | SessionRelease session => maelys_egress_session_release session
  end.

(** * Reachable states *)

Definition owner_step (config : maelys_egress_config) (m m' : machine) : Prop :=
  exists a, action_ok config a /\ m' = (perform a m).2.

(** The states between the creation of a server and its destruction, with the
    policies that have been in force. *)
Inductive server_reachable (config : maelys_egress_config)
  : list maelys_egress_policy -> machine -> Prop :=
| reachable_created mem reactor policy m :
    Config.reachable config -> policy_reachable policy -> trace m = [] ->
    (maelys_egress_server_create mem reactor (Some policy) config m).1 = MAELYS_EGRESS_OK ->
    let m' := (maelys_egress_server_create mem reactor (Some policy) config m).2 in
    server_reachable config [server_policy (server m')] m'
| reachable_owner policies m m' :
    server_reachable config policies m -> owner_step config m m' -> server_reachable config policies m'
| reachable_other policies m a :
    server_reachable config policies m -> server_reachable config policies (perform_other a m).2
| reachable_replace policies m mem policy :
    server_reachable config policies m -> policy_reachable policy ->
    let m' := (maelys_egress_server_replace_policy mem (Some policy) m).2 in
    server_reachable config (server_policy (server m') :: policies) m'
| reachable_destroy policies m :
    server_reachable config policies m -> running (server m) = true ->
    server_reachable config policies (maelys_egress_server_destroy m).2.

(** * More policies *)

Section Mono.
Context (config : maelys_egress_config) (policies : list maelys_egress_policy) (policy : maelys_egress_policy).
Set Default Proof Using "Type".

Lemma pinned_mono host port_ d : pinned policies host port_ d -> pinned (policy :: policies) host port_ d.
Proof. intros (p & Hp & Hf). exists p. split; [by right|done]. Qed.

Lemma pinned_address_mono host port_ a :
  pinned_address policies host port_ a -> pinned_address (policy :: policies) host port_ a.
Proof. intros (d & Hd & Ha). exists d. split; [by apply pinned_mono|done]. Qed.

Lemma base_mono f c : base config policies f c -> base config (policy :: policies) f c.
Proof.
  intros []. constructor; auto. destruct base_address as [|(a & Ha & E)]; [by left|]. right. exists a.
  split; [by apply pinned_address_mono|done].
Qed.

Lemma live_mono f c : live config policies f c -> live config (policy :: policies) f c.
Proof. intros []. constructor; auto. intros d Hd. by apply pinned_mono, live_pinned. Qed.

Lemma slot_ok_mono f c : slot_ok config policies f c -> slot_ok config (policy :: policies) f c.
Proof. intros [|(? & ? & ? & ?)]; [by left|]. right. split_and!; auto using base_mono, live_mono. Qed.

Lemma trace_ok_mono t : trace_ok policies t -> trace_ok (policy :: policies) t.
Proof.
  induction t as [|e t IH]; cbn [trace_ok]; [done|]. intros [He Ht]. split; [|by apply IH].
  destruct e; cbn in *; auto.
  - destruct He as (Hp & host & port_ & a & d & ? & ? & ? & ?). split; [done|].
    exists host, port_, a, d. auto using pinned_mono.
  - by apply pinned_address_mono.
  - destruct He. constructor; auto. destruct true_address as [|(a & Ha & E)]; [by left|]. right. exists a.
    split; [by apply pinned_address_mono|done].
Qed.

(** The invariant when another policy comes into force. *)
Lemma inv_install m m' :
  Inv config policies m -> policy_ok policy -> sealed policy = true ->
  server_policy (server m') = policy -> server_config (server m') = server_config (server m) ->
  connections (server m') = connections (server m) ->
  connection_count (server m') = connection_count (server m) ->
  principal_active (server m') = principal_active (server m) ->
  principal_bytes_total (server m') = principal_bytes_total (server m) -> trace m' = trace m ->
  Inv config (policy :: policies) m'.
Proof.
  intros [] Hok Hs E1 E2 E3 E4 E5 E6 E7. constructor; rewrite ?E1, ?E2, ?E3, ?E4, ?E5, ?E6, ?E7; auto.
  - by left.
  - eauto using slot_ok_mono.
  - by apply trace_ok_mono.
Qed.

End Mono.

(** * The invariant *)

Section Invariance.
Context `{!SysLaws}.
Context (config : maelys_egress_config) (Hconfig : config_ok config).
Set Default Proof Using "Type*".

Lemma keeps_inv {A} policies (p : M A) m : keeps config policies p -> Inv config policies m -> Inv config policies (p m).2.
Proof. intros Hp Hm. by apply (Hp m (fun _ m' => Inv config policies m')). Qed.

Lemma keeps_perform policies a : action_ok config a -> keeps config policies (perform a).
Proof.
  destruct a; cbn [perform action_ok]; intros Ha; try solve [apply keeps_quiet; [done|]; solve_quiet].
  - by apply keeps_dispatch_event.
  - by apply keeps_process_command.
  - eapply keeps_slot; [done|by eapply slots_lt|]. intros. by eapply cancel_command_spec.
  - eapply keeps_slot; [done|by eapply slots_lt|]. intros. by eapply expire_connection_spec.
  - eapply keeps_slot; [done|by eapply slots_lt|]. intros l m Q HF Hl HQ. eapply close_slot_with_spec; eauto.
Qed.

Lemma keeps_perform_other policies a : keeps config policies (perform_other a).
Proof. destruct a; cbn [perform_other]; (apply keeps_quiet; [done|]); solve_quiet. Qed.

Lemma keeps_destroy policies m :
  Inv config policies m -> running (server m) = true -> Inv config policies (maelys_egress_server_destroy m).2.
Proof.
  intros Hm Hr. assert (E : (maelys_egress_server_destroy m).2 = (maelys_egress_server_stop m).2).
  { unfold maelys_egress_server_destroy, maelys_egress_server_stop, mbind, M_bind, get_server. rewrite Hr.
    unfold set_server. by destruct (call _ _). }
  rewrite E. apply keeps_inv; [|done]. apply keeps_quiet; [done|]. solve_quiet.
Qed.

Lemma clone_policy_ok mem policy copy :
  policy_ok policy -> sealed policy = true -> clone_policy mem policy = Some copy ->
  policy_ok copy /\ sealed copy = true.
Proof using Type.
  intros [] Hs. unfold clone_policy. destruct mem; [|done]. intros [= <-]. split; [|done].
  constructor; cbn; auto.
Qed.

Lemma replace_policy_inv policies m mem policy :
  Inv config policies m -> policy_reachable policy ->
  let m' := (maelys_egress_server_replace_policy mem (Some policy) m).2 in
  Inv config (server_policy (server m') :: policies) m'.
Proof.
  intros Hm Hp%policy_reachable_ok. pose proof Hm as [].
  assert (Hcur : policy_ok (server_policy (server m)) /\ sealed (server_policy (server m)) = true).
  { rewrite Forall_forall in inv_policies. by apply inv_policies. }
  unfold maelys_egress_server_replace_policy. destruct (sealed policy) eqn:Hs; cbn [negb].
  2:{ eapply inv_install; [exact Hm|apply Hcur|apply Hcur|done..]. }
  destruct (clone_policy mem policy) as [copy|] eqn:Ec.
  2:{ eapply inv_install; [exact Hm|apply Hcur|apply Hcur|done..]. }
  destruct (clone_policy_ok _ _ _ Hp Hs Ec) as [Hok Hsl].
  unfold mbind, M_bind, get_server. destruct (stopping (server m)).
  - eapply inv_install; [exact Hm|apply Hcur|apply Hcur|done..].
  - eapply inv_install; [exact Hm|done..].
Qed.

(** ** Creation *)

Lemma tally_repeat {A} (P : A -> bool) x n : P x = false -> tally P (repeat x n) = 0.
Proof. intros Hx. induction n; cbn [repeat tally]; [done|]. by rewrite Hx. Qed.

Lemma zsum_repeat {A} (g : A -> Z) x n : g x = 0 -> zsum g (repeat x n) = 0.
Proof. intros Hx. induction n; cbn [repeat zsum]; [done|]. by rewrite Hx. Qed.

Lemma counter_repeat n p : counter (repeat 0 n) p = 0.
Proof. unfold counter. revert p. induction n; intros [|p]; cbn; done. Qed.

Lemma initial_inv policy reactor m :
  policy_ok policy -> sealed policy = true -> trace m = [] ->
  Inv config [policy] (m <| server := initial_server policy config <| loop := reactor |> |>).
Proof.
  intros Hp Hs Ht. constructor; cbn [server trace]; cbn; rewrite ?Ht; try done.
  - by left.
  - by constructor.
  - by rewrite repeat_length.
  - by rewrite tally_repeat.
  - intros p Hlt. rewrite counter_repeat, tally_repeat; [done|]. unfold counts_for, admitted_as. cbn. by apply bool_decide_eq_false.
  - intros p Hlt Hm. rewrite counter_repeat. pose proof (principal_quota_ok _ Hconfig p) as []. lia.
  - constructor; [by rewrite repeat_length|..].
    + intros p. rewrite counter_repeat. unfold UINT64_MAX. lia.
    + intros p Hm Hlt. rewrite counter_repeat. pose proof (principal_quota_ok _ Hconfig p) as []. unfold is_u64 in *. lia.
  - intros p Hlt. by rewrite counter_repeat, zsum_repeat.
  - intros i c Hi. left. apply list_elem_of_lookup_2, list_elem_of_In, repeat_spec in Hi. by rewrite Hi.
Qed.

Lemma quiet_bind_first policies answers : quiet config policies (bind_first answers).
Proof. induction answers; cbn [bind_first]; solve_quiet. Qed.
Hint Resolve quiet_bind_first : quiet.

Lemma quiet_create_tcp policies host port_ : quiet config policies (egress_listener_create_tcp host port_).
Proof. unfold egress_listener_create_tcp. solve_quiet. Qed.
Lemma quiet_create_unix policies path : quiet config policies (egress_listener_create_unix path).
Proof. unfold egress_listener_create_unix, egress_listener_unlink_unix_identity. solve_quiet. Qed.
Hint Resolve quiet_create_tcp quiet_create_unix : quiet.

Lemma quiet_create_listener policies c : quiet config policies (create_listener c).
Proof. unfold create_listener. solve_quiet. Qed.
Lemma quiet_create_admin_listener policies c : quiet config policies (create_admin_listener c).
Proof. unfold create_admin_listener. solve_quiet. Qed.
Hint Resolve quiet_create_listener quiet_create_admin_listener : quiet.

(** A server that was created has a copy of the policy it was given. *)
Lemma create_installs mem reactor policy m :
  policy_ok policy -> trace m = [] ->
  (maelys_egress_server_create mem reactor (Some policy) config m).1 = MAELYS_EGRESS_OK ->
  exists copy, clone_policy mem policy = Some copy /\
    Inv config [copy] (maelys_egress_server_create mem reactor (Some policy) config m).2.
Proof.
  intros Hp Ht. unfold maelys_egress_server_create. destruct (sealed policy) eqn:Hs; [|done].
  destruct (server_guards config); [|done]. cbn [negb].
  destruct (clone_policy mem policy) as [copy|] eqn:Ec; [|done].
  destruct (clone_policy_ok _ _ _ Hp Hs Ec) as [Hok Hsl]. pose proof (initial_inv copy reactor m Hok Hsl Ht) as Hi.
  match goal with |- (?p m).1 = _ -> _ => enough (Hwp : wp p (fun r m' => r = MAELYS_EGRESS_OK -> Inv config [copy] m') m) end.
  - intros E. exists copy. split; [done|exact (Hwp E)].
  - apply wp_bind. unfold wp at 1, set_server. cbn [snd]. apply wp_bind.
    eapply wp_keeps with (cfg := config) (pols := [copy]); [done| |exact Hi|].
    { apply keeps_quiet; [done|]. solve_quiet. }
    intros result m' Hm'. apply wp_bind. unfold when. destruct (decide (result = MAELYS_EGRESS_OK)) as [->|Hr].
    + by apply wp_ret, wp_ret.
    + apply wp_mono with (Q := fun _ _ => True); [done|]. intros _ m'' _. by apply wp_ret.
Qed.

Lemma create_inv mem reactor policy m :
  policy_ok policy -> trace m = [] ->
  (maelys_egress_server_create mem reactor (Some policy) config m).1 = MAELYS_EGRESS_OK ->
  let m' := (maelys_egress_server_create mem reactor (Some policy) config m).2 in
  Inv config [server_policy (server m')] m'.
Proof.
  intros Hp Ht E. destruct (create_installs _ _ _ _ Hp Ht E) as (copy & _ & Hm).
  pose proof (inv_policy _ _ _ Hm) as Hin%list_elem_of_singleton. cbv zeta. by rewrite Hin.
Qed.

Lemma reachable_inv policies m : server_reachable config policies m -> Inv config policies m.
Proof.
  induction 1 as [mem reactor policy m _ Hp Ht E|policies m m' _ IH (a & Ha & ->)|policies m a _ IH
    |policies m mem policy _ IH Hp|policies m _ IH Hr].
  - apply create_inv; auto using policy_reachable_ok.
  - apply keeps_inv; auto using keeps_perform.
  - apply keeps_inv; auto using keeps_perform_other.
  - by apply replace_policy_inv.
  - by apply keeps_destroy.
Qed.

(** * Runs *)

(** A program that is a sequence of actions of the owner. *)
Definition stepwise {A} policies (p : M A) : Prop :=
  keeps config policies p /\
  forall m, Inv config policies m -> rtc (owner_step config) m (p m).2.

Section Stepwise.
Context (policies : list maelys_egress_policy).

Lemma stepwise_ret {A} (x : A) : stepwise policies (mret x).
Proof. split; [by apply keeps_ret|]. intros m _. apply rtc_refl. Qed.

Lemma stepwise_bind {A B} (p : M A) (g : A -> M B) :
  stepwise policies p -> (forall x, stepwise policies (g x)) -> stepwise policies (p ≫= g).
Proof.
  intros [Hp Sp] Hg. split; [apply keeps_bind; [done|done|apply Hg]|]. intros m Hm.
  pose proof (keeps_inv _ _ _ Hp Hm) as Hm'. specialize (Sp m Hm). unfold mbind, M_bind. destruct (p m) as [x m'].
  etransitivity; [exact Sp|]. by apply Hg.
Qed.

Lemma stepwise_config {A} (g : maelys_egress_config -> M A) :
  stepwise policies (g config) -> stepwise policies (get_config ≫= g).
Proof.
  intros [Hp Sp]. split; [by apply keeps_get_config|]. intros m Hm. unfold mbind, M_bind, get_config.
  rewrite (inv_config _ _ _ Hm). by apply Sp.
Qed.

Lemma stepwise_server {A} (g : maelys_egress_server -> M A) :
  (forall s, stepwise policies (g s)) -> stepwise policies (get_server ≫= g).
Proof.
  intros Hg. split; [apply keeps_bind; [done|apply keeps_quiet; [done|]; solve_quiet|apply Hg]|].
  intros m Hm. by apply Hg.
Qed.

(** An action whose result is used. *)
Lemma stepwise_action {A} a (p : M A) :
  action_ok config a -> (forall m, (p m).2 = (perform a m).2) -> stepwise policies p.
Proof.
  intros Ha E. split.
  - intros m Q Hm HQ. unfold wp. apply HQ. rewrite E. apply keeps_inv; [by apply keeps_perform|done].
  - intros m _. apply rtc_once. exists a. by rewrite E.
Qed.

Lemma stepwise_for_each {A} (l : list A) (g : A -> M unit) :
  (forall x, x ∈ l -> stepwise policies (g x)) -> stepwise policies (for_each l g).
Proof.
  induction l as [|x l IH]; intros Hg; cbn [for_each]; [apply stepwise_ret|].
  apply stepwise_bind; [apply Hg; by left|]. intros _. apply IH. intros y Hy. apply Hg. by right.
Qed.

Lemma stepwise_serve_commands : stepwise policies serve_commands.
Proof.
  apply stepwise_bind; [apply stepwise_bind|intros _].
  - by apply (stepwise_action TakeCommands).
  - intros q. apply stepwise_for_each. intros id _. by apply (stepwise_action (ProcessCommand id)).
  - apply stepwise_config, stepwise_for_each. intros slot Hs. by apply (stepwise_action (CancelCommand slot)).
Qed.

Lemma stepwise_expire : stepwise policies expire_connections.
Proof.
  apply stepwise_bind; [|intros now; apply stepwise_config, stepwise_bind; [|intros _]].
  - apply (stepwise_action ReadClock); [done|]. intros m. cbn. unfold mbind, M_bind. by destruct (monotonic_now m).
  - apply stepwise_for_each. intros slot Hs. by apply (stepwise_action (ExpireConnection now slot)).
  - apply stepwise_for_each. intros slot Hs. by apply (stepwise_action (ExpireAdmin now slot)).
Qed.

Lemma stepwise_run_round : stepwise policies run_round.
Proof.
  apply stepwise_bind; [apply stepwise_serve_commands|intros _].
  match goal with |- stepwise _ (get_server ≫= fun s => @?p s ≫= ?k) => 
    enough (Hk : forall x, stepwise policies (k x)) end.
  - split.
    + apply keeps_bind; [done|apply keeps_quiet; [done|]; solve_quiet|]. intros s. apply keeps_bind; [done| |apply Hk].
      apply keeps_quiet; [done|]. solve_quiet.
    + intros m Hm. assert (Hw : owner_step config m (perform WaitForEvents m).2) by (by exists WaitForEvents).
      pose proof (keeps_inv _ _ _ (keeps_perform policies WaitForEvents I) Hm) as Hm'.
      cbn [perform] in Hw, Hm'. unfold mbind, M_bind, get_server in *.
      destruct (call (sys_loop_step (next_deadline (server m))) m) as [x m']. cbn [snd] in *.
      eapply rtc_l; [exact Hw|]. by apply Hk.
  - intros [| |events]; [apply stepwise_ret..|]. apply stepwise_bind; [|intros _; apply stepwise_bind; [|intros _; apply stepwise_bind; [|intros _]]].
    + apply stepwise_for_each. intros e _. by apply (stepwise_action (Dispatch e.1 e.2)).
    + apply stepwise_serve_commands.
    + apply stepwise_expire.
    + apply stepwise_ret.
Qed.

Lemma stepwise_run_loop rounds : stepwise policies (run_loop rounds).
Proof.
  induction rounds as [|rounds IH]; cbn [run_loop]; apply stepwise_server; intros s;
    (destruct (stopping s); [apply stepwise_ret|]); [apply stepwise_ret|].
  apply stepwise_bind; [apply stepwise_run_round|]. intros [result|]; [apply stepwise_ret|done].
Qed.

Lemma stepwise_run_end result : stepwise policies (run_end result).
Proof.
  apply stepwise_bind; [by apply (stepwise_action RejectCommands)|intros _].
  apply stepwise_config, stepwise_bind; [|intros _; by apply (stepwise_action Finish)].
  apply stepwise_for_each. intros slot Hs. by apply (stepwise_action (CloseSlot result slot)).
Qed.

Lemma stepwise_run rounds : stepwise policies (maelys_egress_server_run rounds).
Proof.
  apply stepwise_server. intros s. destruct (stopping s); [apply stepwise_ret|].
  apply stepwise_bind; [by apply (stepwise_action MarkStarted)|intros _].
  destruct (started s); [apply stepwise_ret|]. apply stepwise_bind; [by apply (stepwise_action MarkRunning)|intros _].
  apply stepwise_bind; [apply stepwise_run_loop|]. intros [result|]; [|apply stepwise_ret].
  apply stepwise_bind; [apply stepwise_run_end|]. intros _. apply stepwise_ret.
Qed.

End Stepwise.

End Invariance.

(** * What holds of every reachable state *)

Lemma reachable_config config policies m : server_reachable config policies m -> config_ok config.
Proof. induction 1; auto using reachable_ok. Qed.

Section Properties.
Context `{!SysLaws}.
Context (config : maelys_egress_config) (policies : list maelys_egress_policy) (m : machine).

Lemma reachable_holds : server_reachable config policies m -> Inv config policies m.
Proof. intros Hr. by apply reachable_inv; [apply (reachable_config _ _ _ Hr)|]. Qed.

Lemma trace_event after e before :
  trace_ok policies (after ++ e :: before) -> event_ok policies (flow_of (event_slot e) before) e.
Proof. induction after as [|x after IH]; cbn; [by intros []|]. intros [_ Ht]. auto. Qed.

Lemma reachable_event after e before :
  server_reachable config policies m -> trace m = after ++ e :: before ->
  event_ok policies (flow_of (event_slot e) before) e.
Proof. intros Hr Ht. apply (trace_event after). rewrite <-Ht. apply (inv_trace _ _ _ (reachable_holds Hr)). Qed.

Lemma reachable_slot i c :
  server_reachable config policies m -> connections (server m) !! i = Some c ->
  slot_ok config policies (flow_of i (trace m)) c.
Proof. intros Hr. apply (inv_slots _ _ _ (reachable_holds Hr)). Qed.

(** C1: no byte leaves the proxy except to a destination its policy names.
    Whatever the clients, the upstreams and the embedder do, and in whatever
    order, each [connect] goes to an address that a policy which has been in
    force pins for the requested host and port; bytes are sent upstream only on
    a connection last connected to such an address, and when the destination
    asks for it only after the client's own first bytes were a complete
    ClientHello whose server name is that host. *)
Theorem egress_confined after e before :
  server_reachable config policies m -> trace m = after ++ e :: before ->
  match e with
  | ConnectTo _ host port_ a =>
      exists p d, p ∈ policies /\ egress_policy_find (Some p) host port_ = Some d /\ a ∈ addresses d
  | ToUpstream slot b =>
      let f := flow_of slot before in
      exists host port_ a p d, target f = Some (host, port_, a) /\ p ∈ policies /\
        egress_policy_find (Some p) host port_ = Some d /\ a ∈ addresses d /\
        (require_tls_sni d = true -> egress_tls_client_hello_matches (up_in f) host = HelloMatch)
  | _ => True
  end.
Proof.
  intros Hr Ht. pose proof (reachable_event _ _ _ Hr Ht) as He. destruct e; cbn in *; try done.
  - destruct He as (_ & host & port_ & a & d & Et & (p & Hp & Hf) & Ha & Hs). by exists host, port_, a, p, d.
  - destruct He as (d & (p & Hp & Hf) & Ha). by exists p, d.
Qed.

(** C3: the relay neither loses, invents, repeats nor reorders bytes.  What is
    sent on one side continues what was sent before to a prefix of what arrived
    on the other (requests replaced by what is forwarded for them, replies of
    the proxy inserted), and the buffer of a connection holds exactly the bytes
    that arrived and were not sent, within its capacity. *)
Theorem relay_exact :
  server_reachable config policies m ->
  (forall after before slot b, trace m = after ++ ToUpstream slot b :: before ->
     up_out (flow_of slot before) ++ b `prefix_of` up_in (flow_of slot before)) /\
  (forall after before slot b, trace m = after ++ ToClient slot b :: before ->
     down_out (flow_of slot before) ++ b `prefix_of` down_in (flow_of slot before)) /\
  (forall slot c, connections (server m) !! slot = Some c -> in_use c = true ->
     let f := flow_of slot (trace m) in
     up_in f = up_out f ++ content (client_to_upstream c) /\
     down_in f = down_out f ++ content (upstream_to_client c) /\
     len (content (client_to_upstream c)) <= buffer_bytes config /\
     len (content (upstream_to_client c)) <= buffer_bytes config).
Proof.
  intros Hr. split_and!.
  - intros after before slot b Ht. apply (reachable_event _ _ _ Hr Ht).
  - intros after before slot b Ht. apply (reachable_event _ _ _ Hr Ht).
  - intros slot c Hc Hu f. destruct (reachable_slot _ _ Hr Hc) as [(Hn & _)|(_ & _ & [[] _ _ _ _ _ _] & _)]; [congruence|].
    assert (Hcap : forall b, buffer_ok config b -> len (content b) <= buffer_bytes config).
    { intros b [Hw <-]. rewrite (len_content _ Hw). destruct Hw. lia. }
    split_and!; auto.
Qed.

(** C19: a receipt says what happened.  The counters of every receipt that was
    emitted are the numbers of bytes that had crossed the client's side of its
    connection (modulo 2^64).  Its upstream address is empty or one that a
    policy in force pins for its host and port; when any byte went to or came
    from the upstream, it is the address the connection was connected to, for
    the host and the port of the receipt.  It reports a verified server name
    only when the client's bytes named that host.  The use it reports is within
    the limit it reports, and it is exactly the bytes received for the upstream
    and the bytes of the upstream sent to the client, up to saturation at
    2^64-1, or 0 when the connection was not charged to a principal or ended
    before anything crossed. *)
Theorem receipts_faithful after slot payer r before :
  server_reachable config policies m -> trace m = after ++ Emitted slot payer r :: before ->
  let f := flow_of slot before in
  r_bytes_from_client r = u64 (received f) /\ r_bytes_to_client r = u64 (len (down_out f)) /\
  (r_upstream_address r = [] \/ exists p d a, p ∈ policies /\
     egress_policy_find (Some p) (r_host r) (r_port r) = Some d /\ a ∈ addresses d /\
     r_upstream_address r = address_text a EGRESS_MAX_ADDRESS_TEXT) /\
  (up_out f <> [] \/ len (down_in f) <> replies f -> exists a,
     target f = Some (r_host r, r_port r, a) /\
     r_upstream_address r = address_text a EGRESS_MAX_ADDRESS_TEXT) /\
  match payer with
  | Some _ => r_quota_connection_observed_bytes r = Z.min UINT64_MAX (len (up_in f) + payload_down f) \/
      (uncrossed f /\ r_quota_connection_observed_bytes r = 0)
  | None => r_quota_connection_observed_bytes r = 0
  end /\
  (r_tls_sni_verified r = true -> egress_tls_client_hello_matches (up_in f) (r_host r) = HelloMatch) /\
  (r_quota_connection_max_bytes r <> 0 ->
     r_quota_connection_observed_bytes r <= r_quota_connection_max_bytes r).
Proof.
  intros Hr Ht f. pose proof (reachable_event _ _ _ Hr Ht) as []. split_and!; auto.
  - destruct true_address as [|(a & (d & (p & Hp & Hf) & Ha) & E)]; [by left|]. right. by exists p, d, a.
  - intros Hc. destruct true_named as [[]|]; [|done]. by destruct Hc.
Qed.

(** The connections a slot has had, and its receipts. *)
Definition is_opened (slot : nat) (e : event) : bool :=
  match e with Opened s => bool_decide (s = slot) | _ => false end.
Definition is_emitted (slot : nat) (e : event) : bool :=
  match e with Emitted s _ _ => bool_decide (s = slot) | _ => false end.

Lemma balance_counts slot t :
  balance (flow_of slot t) = tally (is_opened slot) t - tally (is_emitted slot) t.
Proof.
  induction t as [|e t IH]; [done|]. cbn [flow_of tally].
  destruct (decide (event_slot e = slot)) as [E|E]; destruct e; cbn in *; subst;
    rewrite ?bool_decide_eq_true_2 by done; rewrite ?bool_decide_eq_false_2 by done; rewrite ?IH; lia.
Qed.

(** C6: every connection gets exactly one receipt.  For each slot, the number
    of connections it has ever had is the number of receipts emitted for it,
    plus one while it is in use: no close skips its receipt, whichever path
    leads to it, and none emits two. *)
Theorem receipts_complete slot c :
  server_reachable config policies m -> connections (server m) !! slot = Some c ->
  tally (is_opened slot) (trace m) = tally (is_emitted slot) (trace m) + (if in_use c then 1 else 0).
Proof.
  intros Hr Hc. pose proof (balance_counts slot (trace m)) as Hb.
  destruct (reachable_slot _ _ Hr Hc) as [(-> & _ & E)|(-> & [] & _)]; lia.
Qed.

(** C20: the counters of the server are exact.  The number of connections is the
    number of slots in use and at most the configured maximum; the active
    connections of a principal are those in use that were admitted for it, and
    no more than its limit. *)
Theorem counts_exact :
  server_reachable config policies m ->
  connection_count (server m) = tally in_use (connections (server m)) /\
  connection_count (server m) <= max_connections config /\
  (forall p, Z.of_nat p < principal_count config ->
     counter (principal_active (server m)) p = tally (counts_for config p) (connections (server m)) /\
     (max_active_connections (principal_of config p) <> 0 ->
      counter (principal_active (server m)) p <= max_active_connections (principal_of config p))).
Proof.
  intros Hr. pose proof (reachable_holds Hr) as []. destruct (ok_limits _ (reachable_config _ _ _ Hr)) as ([Hm _] & _).
  split_and!; auto. rewrite inv_count. pose proof (tally_length in_use (connections (server m))). lia.
Qed.

(** C7: quotas are enforced and charged exactly.  A connection admitted for a
    principal has, once its request is done, used exactly the bytes received
    for the upstream and the bytes of the upstream sent to the client, up to
    saturation at 2^64-1; the use never passes the limit per connection.  The
    total of a principal is exactly what its connections have used, up to the
    same saturation: the sum of what the receipts charged to it report and of
    what the connections still open have used; and it never passes its
    limit. *)
Theorem quotas_exact :
  server_reachable config policies m ->
  (forall slot c, connections (server m) !! slot = Some c -> quota_admitted c = true ->
     ~ handshaking c ->
     quota_stream_used c = Z.min UINT64_MAX (len (up_in (flow_of slot (trace m))) +
                                             payload_down (flow_of slot (trace m))) /\
     (quota_bytes c <> 0 -> quota_stream_used c <= quota_bytes c)) /\
  (forall p, Z.of_nat p < principal_count config ->
     counter (principal_bytes_total (server m)) p =
       Z.min UINT64_MAX (spent p (trace m) + zsum (use config p) (connections (server m))) /\
     (max_bytes_total (principal_of config p) <> 0 ->
      counter (principal_bytes_total (server m)) p <= max_bytes_total (principal_of config p))).
Proof.
  intros Hr. split.
  - intros slot c Hc Had Hh. destruct (reachable_slot _ _ Hr Hc) as [(_ & Hn & _)|(_ & [] & [] & _)]; [congruence|].
    split; [|apply base_used]. apply live_exact; auto.
  - intros p Hp. pose proof (reachable_holds Hr) as []. split; [by apply inv_paid|]. intros Hm. by apply totals_bound.
Qed.

(** A run of the server is a sequence of the actions of the owner, so all
    of the above holds whenever another thread looks, however long the run is:
    [maelys_egress_server_run] reaches its final state through actions only,
    and that state is reachable again. *)
Lemma run_refines_steps rounds :
  server_reachable config policies m ->
  rtc (owner_step config) m (maelys_egress_server_run rounds m).2 /\
  server_reachable config policies (maelys_egress_server_run rounds m).2.
Proof.
  intros Hr. destruct (stepwise_run config (reachable_config _ _ _ Hr) policies rounds) as [_ Hs].
  specialize (Hs m (reachable_holds Hr)). split; [done|]. revert Hr.
  induction Hs as [|m1 m2 m3 Hst _ IH]; [done|]. intros Hr. apply IH. by apply (reachable_owner _ _ m1).
Qed.

End Properties.

End System.
