(* ===== verification/Lifecycle.v ===== *)
(** Isolation of slots, deadlines, and the end of a run. *)

From S2P Require Import Prelude Common Codec Sha256 Config Policy Http Socks ClientHello.
From S2P Require Import Receipt Journal Buffer Server Connection Relay Admin Listener Reactor.
From S2P Require Import Invariant ConnectionFacts RelayFacts OwnerFacts System.

(** * Isolation *)

Section Within.
Context `{Inet} `{Sys}.

(** A program that changes no connection but one. *)
Definition within {A} (s : nat) (p : M A) : Prop :=
  forall m i, i <> s -> connections (server (p m).2) !! i = connections (server m) !! i.

Lemma within_ret {A} s (x : A) : within s (mret x).
Proof. done. Qed.

Lemma within_bind {A B} s (p : M A) (g : A -> M B) : within s p -> (forall x, within s (g x)) -> within s (p ≫= g).
Proof.
  intros Hp Hg m i Hi. unfold mbind, M_bind. specialize (Hp m i Hi). destruct (p m) as [x m']. cbn [snd] in Hp.
  rewrite (Hg x m' i Hi). done.
Qed.

Lemma within_when s b p : within s p -> within s (when b p).
Proof. unfold when. by destruct b. Qed.

Lemma within_set_conn s g : within s (set_conn s g).
Proof. intros m i Hi. cbn. by rewrite list_lookup_alter_ne. Qed.

(** A program that changes no connection. *)
Lemma within_same {A} s (p : M A) : (forall m, connections (server (p m).2) = connections (server m)) -> within s p.
Proof. intros Hp m i _. by rewrite Hp. Qed.

Lemma within_set_server s g : (forall sv, connections (g sv) = connections sv) -> within s (set_server g).
Proof. intros Hg. apply within_same. intros m. apply Hg. Qed.

Lemma within_call {A} s (g : world -> A * world) : within s (call g).
Proof. apply within_same. intros m. unfold call. by destruct (g _). Qed.

Lemma within_monotonic_now s : within s monotonic_now.
Proof. apply within_call. Qed.
Lemma within_wall_now s : within s wall_now.
Proof. apply within_call. Qed.

Lemma within_with_audit s g : within s (with_audit g).
Proof. apply within_same. intros m. unfold with_audit. by destruct (g _ _) as [[??]?]. Qed.

End Within.

Create HintDb within discriminated.
#[export] Hint Resolve within_ret within_set_conn within_call within_monotonic_now within_wall_now
  within_with_audit : within.
#[export] Hint Extern 2 (within _ (set_server _)) =>
  (apply within_set_server; intros; repeat case_match; reflexivity) : within.
#[export] Hint Extern 3 (within _ _) => (apply within_same; reflexivity) : within.

(** Closes a goal [within s p] by the structure of [p]. *)
Ltac solve_within :=
  repeat first
    [ solve [auto 2 with within nocore]
    | apply within_when
    | apply within_bind; [|intros]
    | match goal with |- context [match ?x with _ => _ end] => destruct x end ].

Section Programs.
Context `{Inet} `{Sys}.

Lemma within_receipt_emit s slot : within s (egress_receipt_emit slot).
Proof. unfold egress_receipt_emit, attest_receipt, append_to_audit. solve_within. Qed.
Lemma within_command_complete s id result : within s (egress_open_command_complete id result).
Proof. unfold egress_open_command_complete, open_command_release, socket_release. solve_within. Qed.
Lemma within_release_client s : within s (release_client s).
Proof. unfold release_client, socket_release. solve_within. Qed.
Lemma within_release_upstream s : within s (release_upstream s).
Proof. unfold release_upstream, socket_release. solve_within. Qed.
Hint Resolve within_receipt_emit within_command_complete within_release_client within_release_upstream : within.

Lemma within_close s : within s (egress_connection_close s).
Proof. unfold egress_connection_close. solve_within. Qed.
Hint Resolve within_close : within.

(** ** Connections *)

Lemma within_quota_charge s n : within s (egress_quota_charge s n).
Proof. unfold egress_quota_charge. solve_within. Qed.
Lemma within_quota_deny s scope : within s (egress_quota_deny s scope).
Proof. unfold egress_quota_deny. solve_within. Qed.
Lemma within_queue s b : within s (queue_to_client s b).
Proof. unfold queue_to_client. solve_within. Qed.
Lemma within_client_room s : within s (client_room s).
Proof. unfold client_room. solve_within. Qed.
Lemma within_upstream_room s : within s (upstream_room s).
Proof. unfold upstream_room. solve_within. Qed.
Hint Resolve within_quota_charge within_quota_deny within_queue within_client_room within_upstream_room : within.

Lemma within_fail s result authentication : within s (egress_connection_fail s result authentication).
Proof. unfold egress_connection_fail. solve_within. Qed.
Lemma within_update_watches s : within s (egress_connection_update_watches s).
Proof.
  unfold egress_connection_update_watches, client_interests, upstream_interests, update_client_watch,
    update_upstream_watch, watch_or_modify. solve_within.
Qed.
Hint Resolve within_fail within_update_watches : within.

Lemma within_enforce s : within s (egress_connection_enforce_tunnel_identity s).
Proof. unfold egress_connection_enforce_tunnel_identity. solve_within. Qed.
Hint Resolve within_enforce : within.

Lemma within_connected s : within s (egress_connection_connected s).
Proof. unfold egress_connection_connected, connected_reply, complete_open. solve_within. Qed.
Hint Resolve within_connected : within.

Lemma within_connect_loop s rest : within s (connect_loop s rest).
Proof. induction rest; cbn [connect_loop]; solve_within. Qed.
Hint Resolve within_connect_loop : within.

Lemma within_connect_next s : within s (egress_connection_connect_next s).
Proof. unfold egress_connection_connect_next. solve_within. Qed.
Hint Resolve within_connect_next : within.

Lemma within_begin_request s request : within s (egress_connection_begin_request s request).
Proof. unfold egress_connection_begin_request, fail_denied, admit_request. solve_within. Qed.
Hint Resolve within_begin_request : within.

Lemma within_parse_socks_loop rounds s : within s (parse_socks_loop rounds s).
Proof.
  induction rounds; cbn [parse_socks_loop]; unfold parse_socks_round, conclude_frame, consume_frame, refuse_frame; solve_within.
Qed.
Hint Resolve within_parse_socks_loop : within.

Lemma within_process_handshake s : within s (egress_connection_process_handshake s).
Proof. unfold egress_connection_process_handshake, parse_socks. solve_within. Qed.
Hint Resolve within_process_handshake : within.

(** ** Transfers and dispatch *)

Lemma within_touch_activity s result : within s (touch_activity s result).
Proof. unfold touch_activity. solve_within. Qed.
Lemma within_read_into e s maximum : within s (read_into e s maximum).
Proof. unfold read_into. solve_within. Qed.
Lemma within_write_from e s maximum : within s (write_from e s maximum).
Proof. unfold write_from. solve_within. Qed.
Lemma within_advance s : within s (egress_relay_advance_tls_handshake s).
Proof. unfold egress_relay_advance_tls_handshake. solve_within. Qed.
Lemma within_account_written s n : within s (account_written s n).
Proof. unfold account_written. solve_within. Qed.
Lemma within_quota_allowance s slot : within s (quota_allowance slot).
Proof. unfold quota_allowance. solve_within. Qed.
Hint Resolve within_touch_activity within_read_into within_write_from within_advance within_account_written
  within_quota_allowance : within.

Lemma within_read_from_client s : within s (read_from_client s).
Proof. unfold read_from_client, tls_read_client. solve_within. Qed.
Lemma within_write_to_client s progress : within s (write_to_client s progress).
Proof. unfold write_to_client, tls_write_client. solve_within. Qed.
Hint Resolve within_read_from_client within_write_to_client : within.

Lemma within_dispatch_client s f : within s (dispatch_client s f).
Proof. unfold dispatch_client, client_readable, client_writable. solve_within. Qed.
Lemma within_dispatch_upstream s f : within s (dispatch_upstream s f).
Proof. unfold dispatch_upstream. solve_within. Qed.
Lemma within_dispatch_end s ok : within s (dispatch_end s ok).
Proof.
  unfold dispatch_end, close_failed, apply_half_closes, half_close_upstream, half_close_client. solve_within.
Qed.
Hint Resolve within_dispatch_client within_dispatch_upstream within_dispatch_end : within.

Lemma within_relay_dispatch s side f : within s (egress_relay_dispatch s side f).
Proof. unfold egress_relay_dispatch, hup_as_read. solve_within. Qed.

(** * Rounds of the SOCKS handshake *)

Lemma consumed_advances b config s s' :
  egress_parse_socks_frame b config s = (FrameConsumed, s') -> 0 <= phase s < phase s' /\ phase s' <= 2.
Proof.
  unfold egress_parse_socks_frame. cbn zeta.
  change (phase (s <| out_consumed := 0 |> <| out_response := [] |>)) with (phase s).
  destruct (Z.ltb_spec (phase s) 0), (Z.ltb_spec 2 (phase s)); try done. cbn [orb].
  destruct (Z.eqb_spec (phase s) 0) as [E|E]; [|destruct (Z.eqb_spec (phase s) 1) as [E'|E']].
  - destruct (_ <? 2); [done|]. destruct (_ || _); [done|]. destruct (_ <? _); [done|].
    destruct (lookup_identity _). destruct (negb _); [done|]. intros [= <-]. cbn. destruct (_ =? 2); lia.
  - destruct (_ <? 2); [done|]. destruct (negb _); [done|]. destruct (_ =? 0); [done|]. destruct (_ <? _); [done|].
    destruct (_ =? 0); [done|]. destruct (_ <? _); [done|].
    match goal with |- context [let '(_, _) := ?x in _] => destruct x end. destruct (negb _); [done|].
    intros [= <-]. cbn. lia.
  - destruct (_ <? 4); [done|]. destruct (_ || _); [done|].
    destruct (request_address b) as [x|[[raw o] n]] eqn:Er; [|repeat case_match; done].
    intros [= -> _]. revert Er. unfold request_address. cbn zeta.
    repeat match goal with |- context [match ?b with _ => _ end] => destruct b; try done end.
Qed.

Definition phase_of (slot : nat) (m : machine) : Z :=
  socks_phase (nth slot (connections (server m)) zero_connection).

Lemma bind_ext {A B} (p : M A) (g h : A -> M B) m :
  g (p m).1 (p m).2 = h (p m).1 (p m).2 -> (p ≫= g) m = (p ≫= h) m.
Proof. unfold mbind, M_bind. by destruct (p m). Qed.

Definition phase_kept {A} (slot : nat) (p : M A) : Prop := forall m, phase_of slot (p m).2 = phase_of slot m.

Lemma phase_bind {A B} slot (p : M A) (g : A -> M B) :
  phase_kept slot p -> (forall x, phase_kept slot (g x)) -> phase_kept slot (p ≫= g).
Proof. intros Hp Hg m. unfold mbind, M_bind. specialize (Hp m). destruct (p m) as [x m']. by rewrite Hg. Qed.

Lemma phase_after slot g m c :
  connections (server m) !! slot = Some c -> phase_of slot (set_conn slot g m).2 = socks_phase (g c).
Proof.
  intros Hc. unfold phase_of. cbn. erewrite nth_lookup_Some; [done|]. by rewrite list_lookup_alter_eq, Hc.
Qed.

Lemma phase_set_conn slot g : (forall c, socks_phase (g c) = socks_phase c) -> phase_kept slot (set_conn slot g).
Proof.
  intros Hg m. destruct (connections (server m) !! slot) as [c|] eqn:Hc.
  - rewrite (phase_after _ _ _ _ Hc), Hg. unfold phase_of. by rewrite (nth_lookup_Some _ _ _ _ Hc).
  - unfold phase_of. cbn. rewrite !nth_overflow; [done|by apply lookup_ge_None|]. rewrite length_alter. by apply lookup_ge_None.
Qed.

Lemma phase_queue slot b : phase_kept slot (queue_to_client slot b).
Proof.
  unfold queue_to_client. apply phase_bind; [done|intros c]. destruct (buffer_append _ b) as [ok buffer].
  apply phase_bind; [by apply phase_set_conn|intros _]. destruct (negb ok); [done|].
  apply phase_bind; [done|intros _]. apply phase_bind; [by apply phase_set_conn|done].
Qed.

Lemma phase_consume slot n : phase_kept slot (consume_frame slot n).
Proof.
  unfold consume_frame, when. destruct (negb _); [|done]. apply phase_bind; [by apply phase_set_conn|done].
Qed.

Lemma rounds_enough slot n m :
  (1 <= n)%nat -> 3 - phase_of slot m <= Z.of_nat n ->
  parse_socks_loop n slot m = parse_socks_loop (S n) slot m.
Proof.
  revert m. induction n as [|n IH]; intros m Hn Hp; [lia|].
  change (parse_socks_round slot (parse_socks_loop n slot) m =
    parse_socks_round slot (parse_socks_loop (S n) slot) m).
  apply bind_ext, bind_ext. cbn [fst snd get_config get_conn].
  set (c := nth slot (connections (server m)) zero_connection).
  destruct (egress_parse_socks_frame _ _ _) as [parsed st] eqn:Ep. apply bind_ext.
  set (m1 := (set_conn slot _ m).2).
  assert (Hnext : parsed = FrameConsumed -> phase_of slot m1 = phase st /\ phase_of slot m < phase st <= 2).
  { intros ->. apply consumed_advances in Ep as Hadv. destruct Hadv as [Hadv H2]. cbn [phase] in Hadv.
    assert (Hm : phase_of slot m < phase st) by (unfold phase_of; fold c; lia). split; [|lia].
    destruct (connections (server m) !! slot) as [c'|] eqn:Hc; [unfold m1; by rewrite (phase_after _ _ _ _ Hc)|].
    exfalso. unfold c in Ep. rewrite nth_overflow in Ep by (by apply lookup_ge_None). by vm_compute in Ep. }
  destruct parsed; try done. apply bind_ext. destruct (negb _); [done|]. cbn [conclude_frame]. apply bind_ext.
  destruct (Hnext eq_refl) as [E1 E2]. apply IH; [lia|].
  assert (Hq : phase_kept slot (if len (out_response st) =? 0 then mret true else queue_to_client slot (out_response st)))
    by (destruct (_ =? 0); [done|apply phase_queue]).
  rewrite phase_consume, Hq. lia.
Qed.

(** The SOCKS handshake terminates.  Three rounds of its loop are all that
    the C loop ever makes: any further round changes nothing, whatever the
    bytes and the configuration, because each frame that is consumed takes the
    connection to a later of the three phases. *)
Theorem socks_rounds slot n m : parse_socks_loop (3 + n) slot m = parse_socks_loop 3 slot m.
Proof.
  destruct (decide (0 <= phase_of slot m)) as [Hp|Hp].
  - induction n as [|n IH]; [done|]. rewrite <-IH. symmetry. apply rounds_enough; lia.
  - change (parse_socks_round slot (parse_socks_loop (2 + n) slot) m = parse_socks_round slot (parse_socks_loop 2 slot) m).
    apply bind_ext, bind_ext. cbn [fst snd get_config get_conn].
    destruct (egress_parse_socks_frame _ _ _) as [parsed st] eqn:Ep. apply bind_ext.
    destruct parsed; try done. apply consumed_advances in Ep as [Ep _]. unfold phase_of in Hp. cbn in Ep. lia.
Qed.

End Programs.

#[export] Hint Resolve within_close within_relay_dispatch : within.

Section Lifecycle.
Context `{Inet} `{Fs} `{ListenSys}.

Lemma within_expire now s : within s (expire_connection now s).
Proof. unfold expire_connection. solve_within. Qed.
Lemma within_close_slot_with result s : within s (close_slot_with result s).
Proof. unfold close_slot_with. solve_within. Qed.

(** An event concerns one connection.  The dispatch of an event that names
    a slot and a generation leaves every other connection as it is, and does
    nothing at all when the slot is free or has a connection of another
    generation, as after an event that was still queued when its connection was
    closed and the slot reused. *)
Theorem event_isolated token f m slot gen side :
  token <> TOKEN_LISTENER -> token <> TOKEN_ADMIN_LISTENER -> Z.land token TOKEN_ADMIN_FLAG = 0 ->
  decode_token token = (slot, gen, side) ->
  let m' := (dispatch_event token f m).2 in
  (forall i, i <> Z.to_nat slot -> connections (server m') !! i = connections (server m) !! i) /\
  (forall c, connections (server m) !! Z.to_nat slot = Some c ->
     in_use c = false \/ generation c <> gen -> m' = m).
Proof.
  intros H1' H2' H3' Ed. unfold dispatch_event. rewrite (proj2 (Z.eqb_neq _ _) H1'), (proj2 (Z.eqb_neq _ _) H2'), H3', Ed.
  cbn [negb Z.eqb]. split.
  - intros i Hi. match goal with |- context [(?p m).2] => enough (Hw : within (Z.to_nat slot) p) by (by apply Hw) end.
    solve_within.
  - intros c Hc Hs. unfold mbind, M_bind, get_config, get_conn. destruct (_ <=? slot); [done|].
    rewrite (nth_lookup_Some _ _ _ _ Hc). destruct Hs as [-> | Hg%Z.eqb_neq]; [done|]. by rewrite Hg, andb_false_r.
Qed.

(** * Deadlines *)

Lemma fold_least {A} (use : A -> bool) (key : A -> Z) l d :
  let r := fold_left (fun d a => if use a then (if key a <? d then key a else d) else d) l d in
  r <= d /\ (forall a, a ∈ l -> use a = true -> r <= key a) /\
  (r = d \/ exists a, a ∈ l /\ use a = true /\ r = key a).
Proof.
  cbn zeta. revert d. induction l as [|a l IH]; intros d; cbn [fold_left].
  { split_and!; [done|by intros ? ?%not_elem_of_nil|by left]. }
  set (d' := if use a then if key a <? d then key a else d else d). destruct (IH d') as (Hle & Hall & Hex).
  assert (Hd' : d' <= d /\ (use a = true -> d' <= key a) /\ (d' = d \/ (use a = true /\ d' = key a))).
  { unfold d'. destruct (use a), (Z.ltb_spec (key a) d); split_and!; auto; try done; lia. }
  destruct Hd' as (L1 & L2 & L3). split_and!; [lia| |].
  - intros x [->|Hx]%elem_of_cons Hu; [specialize (L2 Hu); lia|auto].
  - destruct Hex as [->|(x & Hx & Hu & ->)]; [|right; exists x; split_and!; [by right|done..]].
    destruct L3 as [->|[Hu ->]]; [by left|]. right. exists a. split_and!; [by left|done..].
Qed.

(** The loop never waits past a deadline.  [next_deadline] is at most the
    deadline of every connection in use and of every open administrative
    connection, and is one of them, or the infinite deadline when there is
    none. *)
Theorem next_deadline_least (s : maelys_egress_server) :
  (forall c, c ∈ connections s -> in_use c = true -> next_deadline s <= connection_deadline (server_config s) c) /\
  (forall a, a ∈ admin_connections s -> 0 <= admin_fd a -> next_deadline s <= admin_deadline_ms a) /\
  (next_deadline s = DEADLINE_INFINITE \/
   (exists c, c ∈ connections s /\ in_use c = true /\
      next_deadline s = connection_deadline (server_config s) c) \/
   (exists a, a ∈ admin_connections s /\ 0 <= admin_fd a /\ next_deadline s = admin_deadline_ms a)).
Proof.
  pose proof (fold_least in_use (connection_deadline (server_config s)) (connections s) DEADLINE_INFINITE) as (_ & C2 & C3).
  set (d := fold_left _ _ _) in C2, C3.
  pose proof (fold_least (fun a => 0 <=? admin_fd a) admin_deadline_ms (admin_connections s) d) as (A1 & A2 & A3).
  assert (E : next_deadline s =
    fold_left (fun d a => if 0 <=? admin_fd a then if admin_deadline_ms a <? d then admin_deadline_ms a else d else d)
      (admin_connections s) d).
  { unfold next_deadline. fold d. clear. generalize d. clear d. induction (admin_connections s) as [|a l IH]; intros e; cbn [fold_left]; [done|].
    rewrite IH. by destruct (0 <=? admin_fd a), (admin_deadline_ms a <? e). }
  rewrite E. split_and!.
  - intros c Hc Hu. specialize (C2 c Hc Hu). lia.
  - intros a Ha Hfd. apply A2; [done|]. by apply Z.leb_le.
  - destruct A3 as [->|(a & Ha & Hu & ->)].
    + destruct C3 as [->|(c & Hc & Hu & ->)]; [by left|]. right. left. by exists c.
    + right. right. exists a. split_and!; [done|by apply Z.leb_le|done].
Qed.

(** * Loops over the slots *)

Section Slots.
Context `{!SysLaws}.
Context (config : maelys_egress_config) (policies : list maelys_egress_policy).
Context (Hconfig : config_ok config).
Set Default Proof Using "Type*".

(** A step on each slot changes it by [change]. *)
Lemma for_slots (g : nat -> M unit) (change : egress_connection_t -> egress_connection_t -> Prop) l :
  NoDup l -> (forall s, s ∈ l -> within s (g s)) ->
  (forall s m c, s ∈ l -> Inv config policies m -> connections (server m) !! s = Some c ->
     Inv config policies (g s m).2 /\
     exists c', connections (server (g s m).2) !! s = Some c' /\ change c c') ->
  forall m, Inv config policies m -> (forall s, s ∈ l -> (s < length (connections (server m)))%nat) ->
  Inv config policies (for_each l g m).2 /\
  forall i c, connections (server m) !! i = Some c ->
    exists c', connections (server (for_each l g m).2) !! i = Some c' /\ (if decide (i ∈ l) then change c c' else c' = c).
Proof.
  intros Hnd Hw Hg. induction l as [|s l IH]; intros m Hm Hlen.
  { split; [done|]. intros i c Hc. exists c. destruct (decide (i ∈ [])) as [Hi|]; [by apply elem_of_nil in Hi|done]. }
  apply NoDup_cons in Hnd as [Hs Hnd]. assert (Hin : s ∈ s :: l) by (by left).
  destruct (lookup_lt_is_Some_2 _ _ (Hlen s Hin)) as [cs Hcs]. destruct (Hg s m cs Hin Hm Hcs) as (Hm' & cs' & Hcs' & Hch).
  assert (E : for_each (s :: l) g m = for_each l g (g s m).2).
  { cbn [for_each]. unfold mbind, M_bind. by destruct (g s m). }
  rewrite E. destruct (IH Hnd) with (m := (g s m).2) as [Hi Hrest].
  - intros x Hx. apply Hw. by right.
  - intros x m0 c Hx. apply Hg. by right.
  - done.
  - intros x Hx. specialize (Hlen x). rewrite (inv_length _ _ _ Hm) in Hlen. rewrite (inv_length _ _ _ Hm').
    apply Hlen. by right.
  - split; [done|]. intros i c Hc. destruct (decide (i = s)) as [->|Hne].
    + destruct (Hrest s cs' Hcs') as (c' & Hc' & Hd). rewrite decide_False in Hd by done. subst c'.
      exists cs'. rewrite decide_True by done. split; [done|]. congruence.
    + destruct (Hrest i c) as (c' & Hc' & Hd); [by rewrite (Hw s Hin m i Hne)|]. exists c'. split; [done|].
      destruct (decide (i ∈ l)); [rewrite decide_True; [done|by right]|].
      rewrite decide_False; [done|]. by intros [|]%elem_of_cons.
Qed.

Lemma slot_range m s : Inv config policies m -> s ∈ slots config -> (s < length (connections (server m)))%nat.
Proof. intros Hm Hs. rewrite (inv_length _ _ _ Hm). by eapply slots_lt. Qed.

Lemma all_slots m i c : Inv config policies m -> connections (server m) !! i = Some c -> i ∈ slots config.
Proof. intros Hm Hc%lookup_lt_Some. rewrite (inv_length _ _ _ Hm) in Hc. unfold slots. apply elem_of_seq. lia. Qed.

Definition expired (now : Z) (c c' : egress_connection_t) : Prop :=
  if in_use c && (connection_deadline config c <=? now) then in_use c' = false else c' = c.

Lemma expire_one now s m c :
  s ∈ slots config -> Inv config policies m -> connections (server m) !! s = Some c ->
  Inv config policies (expire_connection now s m).2 /\
  exists c', connections (server (expire_connection now s m).2) !! s = Some c' /\ expired now c c'.
Proof.
  intros Hs Hm Hc. destruct (inv_frame config policies s m Hm) as (l & HF & Hl); [by eapply slots_lt|].
  pose proof (frame_conn _ _ _ _ _ HF) as E. rewrite Hc in E. injection E as E.
  change (wp (expire_connection now s) (fun _ m' => Inv config policies m' /\
    exists c', connections (server m') !! s = Some c' /\ expired now c c') m).
  unfold expire_connection. do 4 step. unfold when, expired. rewrite E. destruct (_ && _).
  - eapply close_with_spec; [done|exact HF|by apply local_ok_held|solve_soft|]. clear dependent m.
    intros l' m' HF' Hl' Hu. split; [by eapply frame_inv|]. exists (l_conn l'). split; [|done].
    apply (frame_conn _ _ _ _ _ HF').
  - step. split; [done|]. exists c. subst c. done.
Qed.

Lemma close_one result s m c :
  s ∈ slots config -> Inv config policies m -> connections (server m) !! s = Some c ->
  Inv config policies (close_slot_with result s m).2 /\
  exists c', connections (server (close_slot_with result s m).2) !! s = Some c' /\ in_use c' = false.
Proof.
  intros Hs Hm Hc. destruct (inv_frame config policies s m Hm) as (l & HF & Hl); [by eapply slots_lt|].
  change (wp (close_slot_with result s) (fun _ m' => Inv config policies m' /\
    exists c', connections (server m') !! s = Some c' /\ in_use c' = false) m).
  eapply close_slot_with_spec; [done|exact HF|done|]. intros l' m' HF' Hl' Hu. split; [by eapply frame_inv|].
  exists (l_conn l'). split; [|done]. apply (frame_conn _ _ _ _ _ HF').
Qed.

Lemma run_end_clean result m :
  Inv config policies m ->
  running (server (run_end result m).2) = false /\
  forall slot c, connections (server (run_end result m).2) !! slot = Some c -> in_use c = false.
Proof.
  intros Hm. set (m1 := (egress_open_commands_reject MAELYS_EGRESS_ERR_CANCELLED m).2).
  assert (Hm1 : Inv config policies m1) by (apply keeps_inv; [done| |done]; apply keeps_quiet; [done|]; solve_quiet).
  destruct (for_slots (close_slot_with result) (fun _ c' => in_use c' = false) (slots config)) with (m := m1)
    as [Hm2 Hall]; auto using within_close_slot_with.
  { apply NoDup_ListNoDup, seq_NoDup. }
  { intros. by eapply close_one. }
  { intros. by eapply slot_range. }
  set (m2 := (for_each (slots config) (close_slot_with result) m1).2) in *.
  assert (E : (run_end result m).2 = m2 <| server := server m2 <| running := false |> |>).
  { unfold run_end, m2, m1, mbind, M_bind, get_config. destruct (egress_open_commands_reject _ m) as [u m3] eqn:Er.
    cbn [snd]. subst m1. cbn [snd] in Hm1. rewrite (inv_config _ _ _ Hm1). by destruct (for_each (slots config) _ m3). }
  rewrite E. split; [done|]. cbn. intros slot c Hc.
  assert (Hlt : (slot < length (connections (server m1)))%nat).
  { rewrite (inv_length _ _ _ Hm1), <-(inv_length _ _ _ Hm2). by eapply lookup_lt_Some. }
  destruct (lookup_lt_is_Some_2 _ _ Hlt) as [c1 Hc1]. destruct (Hall slot c1 Hc1) as (c' & Hc' & Hd).
  rewrite decide_True in Hd by (by eapply all_slots). congruence.
Qed.

End Slots.

Lemma tally_none {A} (P : A -> bool) l : (forall i x, l !! i = Some x -> P x = false) -> tally P l = 0.
Proof.
  induction l as [|x l IH]; intros Hl; cbn [tally]; [done|]. rewrite (Hl 0%nat x eq_refl), IH; [done|].
  intros i y Hy. by apply (Hl (S i)).
Qed.

(** A first run: the two flags, the loop and the end. *)
Lemma run_split rounds m :
  stopping (server m) = false -> started (server m) = false ->
  exists m1,
    (forall `{!SysLaws} config policies, config_ok config -> Inv config policies m -> Inv config policies m1) /\
    maelys_egress_server_run rounds m =
      match run_loop rounds m1 with
      | (None, m2) => (None, m2)
      | (Some result, m2) => (Some result, (run_end result m2).2)
      end.
Proof.
  intros Hstop Hstart.
  exists (set_server (fun s => s <| running := true |>) (set_server (fun s => s <| started := true |>) m).2).2. split.
  - intros HL config policies Hcfg Hm. do 2 (apply keeps_inv; [done|apply keeps_quiet; [done|]; solve_quiet|]). done.
  - unfold maelys_egress_server_run, mbind, M_bind, get_server. rewrite Hstop, Hstart.
    destruct (set_server _ m) as [[] m1]. cbn [snd]. destruct (set_server _ m1) as [[] m2]. cbn [snd].
    destruct (run_loop rounds m2) as [[r|] m3]; [|done]. by destruct (run_end r m3).
Qed.

Lemma within_for_each {A} s (l : list A) (g : A -> M unit) : (forall x, within s (g x)) -> within s (for_each l g).
Proof. intros Hg. induction l; cbn [for_each]; [apply within_ret|]. by apply within_bind. Qed.

Lemma within_expire_admin s now slot : within s (expire_admin now slot).
Proof. unfold expire_admin, egress_admin_close, socket_release, set_admin. solve_within. Qed.

Section Properties.
Context `{!SysLaws}.
Context (config : maelys_egress_config) (policies : list maelys_egress_policy) (m : machine).

(** C26: expiry is exact.  A pass of [expire_connections] closes precisely the
    connections in use whose deadline the clock has reached, and leaves all
    others untouched: the handshake deadline counts until bytes are relayed,
    the idle deadline from then on. *)
Theorem expiry_exact slot c :
  server_reachable config policies m -> connections (server m) !! slot = Some c ->
  let now := (sys_monotonic_ms (the_world m)).1 in
  exists c', connections (server (expire_connections m).2) !! slot = Some c' /\
    if in_use c && (connection_deadline config c <=? now) then in_use c' = false else c' = c.
Proof.
  intros Hr Hc now. pose proof (reachable_config _ _ _ Hr) as Hcfg. pose proof (reachable_holds _ _ _ Hr) as Hm.
  set (m1 := (monotonic_now m).2).
  assert (Hm1 : Inv config policies m1) by (apply keeps_inv; [done| |done]; apply keeps_quiet; [done|]; solve_quiet).
  assert (Hc1 : connections (server m1) !! slot = Some c).
  { rewrite <-Hc. by apply (within_monotonic_now (S slot)). }
  destruct (for_slots config policies Hcfg (expire_connection now) (expired config now) (slots config)) with (m := m1)
    as [Hm2 Hall]; auto using within_expire.
  { apply NoDup_ListNoDup, seq_NoDup. }
  { intros. by apply expire_one. }
  { intros. by eapply slot_range. }
  destruct (Hall slot c Hc1) as (c' & Hc' & Hd). rewrite decide_True in Hd by (by eapply all_slots).
  exists c'. split; [|done]. rewrite <-Hc'.
  assert (E : (expire_connections m).2 = (for_each (seq 0 EGRESS_MAX_ADMIN_CONNECTIONS) (expire_admin now)
    (for_each (slots config) (expire_connection now) m1).2).2).
  { unfold expire_connections, m1, now, monotonic_now, mbind, M_bind, call, get_config.
    destruct (sys_monotonic_ms (the_world m)) as [t w]. cbn [fst snd].
    change (server (m <| the_world := w |>)) with (server m). rewrite (inv_config _ _ _ Hm).
    by destruct (for_each (slots config) (expire_connection t) (m <| the_world := w |>)). }
  rewrite E. apply (within_for_each (S slot)); [|lia]. intros x. apply within_expire_admin.
Qed.

(** C25: a run that ends leaves nothing behind.  Whatever ended the loop, once
    [maelys_egress_server_run] returns every slot is free, no connection is
    counted, neither in all nor for a principal, the server no longer runs, and
    every connection it ever had has its receipt. *)
Theorem run_ends_clean rounds result :
  server_reachable config policies m -> stopping (server m) = false -> started (server m) = false ->
  (maelys_egress_server_run rounds m).1 = Some result ->
  let m' := (maelys_egress_server_run rounds m).2 in
  running (server m') = false /\ connection_count (server m') = 0 /\
  (forall p, Z.of_nat p < principal_count config -> counter (principal_active (server m')) p = 0) /\
  (forall slot c, connections (server m') !! slot = Some c ->
     in_use c = false /\ tally (is_opened slot) (trace m') = tally (is_emitted slot) (trace m')).
Proof.
  intros Hr Hstop Hstart. pose proof (reachable_config _ _ _ Hr) as Hcfg. pose proof (reachable_holds _ _ _ Hr) as Hm.
  pose proof (stepwise_run config Hcfg policies rounds) as [Hk _]. pose proof (keeps_inv _ Hcfg _ _ _ Hk Hm) as Hm'. revert Hm'.
  destruct (run_split rounds m Hstop Hstart) as (m1 & Hm1 & Erun). rewrite Erun.
  destruct (run_loop rounds m1) as [[r|] m2] eqn:El; [|done]. cbn [fst snd]. intros Hm' [= ->].
  pose proof (stepwise_run_loop config Hcfg policies rounds) as [Hkl _]. specialize (Hm1 _ config policies Hcfg Hm).
  pose proof (keeps_inv _ Hcfg _ _ _ Hkl Hm1) as Hm2. rewrite El in Hm2. cbn [snd] in Hm2.
  destruct (run_end_clean config policies Hcfg result m2 Hm2) as [Hrun Hall].
  pose proof Hm' as []. split_and!; [done|..].
  - rewrite inv_count. by apply tally_none.
  - intros p Hp. rewrite inv_active by done. apply tally_none. intros i c Hc. destruct (inv_slots i c Hc) as [(_ & Hq & _)|[Hu _]].
    + unfold counts_for, admitted_as. rewrite Hq. by apply bool_decide_eq_false.
    + specialize (Hall i c Hc). congruence.
  - intros slot c Hc. specialize (Hall slot c Hc). split; [done|]. pose proof (balance_counts slot
      (trace (run_end result m2).2)) as Hb. destruct (inv_slots slot c Hc) as [(_ & _ & E)|[Hu _]]; [lia|congruence].
Qed.

End Properties.

End Lifecycle.
