(* ===== verification/ConfigFile.v ===== *)
(** The configuration file of the command line: the catalog of its keys
    (cli/config_catalog.c), the strict loader (cli/config_file.c) and the
    secret files it names (cli/secrets.c).

    The command-line framework is not part of the repository: the calls the
    loader makes of it are the class [Cli].  [egress_cli_settings_t] is the
    record [Settings.egress_cli_settings_t]; a [char *] that may be NULL is an [option].  The bytes
    of the file are the answer of the trusted open; [getline] cuts them into
    lines.  The outcome of an allocation is an argument: [calloc] that of the
    array of destinations, [copy n] that of the [strdup] of line [n].  Of an
    error the code and the line are kept, with the violation, not the text
    composed from them.

    The theorems: every loaded value is well typed and satisfies the
    constraints between keys, and a key comes with the keys the catalog says it
    requires, [require_client_cert] excepted ([settings_load_typed]); every value
    that is well typed can be written to a file that loads to it
    ([settings_roundtrip]); the grammar is strict ([settings_load_exact]); two
    settings are equal for a reload exactly when they differ in their
    destinations only ([control_equal_exact]). *)

From S2P Require Import Prelude Common Codec Config.

(** * The catalog (cli/config_catalog.h, cli/config_catalog.c) *)

Inductive egress_cli_config_type_t :=
| EGRESS_CLI_CONFIG_NONE
| EGRESS_CLI_CONFIG_PATH
| EGRESS_CLI_CONFIG_STRING
| EGRESS_CLI_CONFIG_BOOLEAN
| EGRESS_CLI_CONFIG_ENDPOINT
| EGRESS_CLI_CONFIG_DESTINATION
| EGRESS_CLI_CONFIG_INTEGER
| EGRESS_CLI_CONFIG_ENUM.

Inductive egress_cli_config_key_t :=
| EGRESS_CLI_KEY_SCHEMA_VERSION
| EGRESS_CLI_KEY_LISTEN
| EGRESS_CLI_KEY_LISTEN_UNIX
| EGRESS_CLI_KEY_UNIX_PEER
| EGRESS_CLI_KEY_ALLOW
| EGRESS_CLI_KEY_ALLOW_PRIVATE
| EGRESS_CLI_KEY_ALLOW_TLS_SNI
| EGRESS_CLI_KEY_TOKEN_FILE
| EGRESS_CLI_KEY_UNAUTHENTICATED_LOOPBACK
| EGRESS_CLI_KEY_MAX_CONNECTIONS
| EGRESS_CLI_KEY_QUOTA_CONNECTIONS
| EGRESS_CLI_KEY_QUOTA_BYTES
| EGRESS_CLI_KEY_QUOTA_TOTAL_BYTES
| EGRESS_CLI_KEY_ADMIN_LISTEN
| EGRESS_CLI_KEY_AUDIT_LOG
| EGRESS_CLI_KEY_AUDIT_KEY_FILE
| EGRESS_CLI_KEY_AUDIT_KEY_ID
| EGRESS_CLI_KEY_TLS_CERT
| EGRESS_CLI_KEY_TLS_KEY
| EGRESS_CLI_KEY_TLS_CA
| EGRESS_CLI_KEY_REQUIRE_CLIENT_CERT
| EGRESS_CLI_KEY_CHANNEL_LISTEN_UNIX
| EGRESS_CLI_KEY_CHANNEL_PRINCIPAL
| EGRESS_CLI_KEY_CHANNEL_INVOCATION_ID
| EGRESS_CLI_KEY_CHANNEL_CONNECT_TIMEOUT_MS
| EGRESS_CLI_KEY_CHANNEL_HANDSHAKE_TIMEOUT_MS
| EGRESS_CLI_KEY_CHANNEL_MAX_CLIENTS
| EGRESS_CLI_KEY_CHANNEL_FD
| EGRESS_CLI_KEY_CHANNEL_EXEC_BY_PATH.

#[export] Instance config_key_eq_dec : EqDecision egress_cli_config_key_t.
Proof. solve_decision. Defined.

(** The keys in the order of the enumeration. *)
Definition config_keys : list egress_cli_config_key_t := [
  EGRESS_CLI_KEY_SCHEMA_VERSION; EGRESS_CLI_KEY_LISTEN; EGRESS_CLI_KEY_LISTEN_UNIX;
  EGRESS_CLI_KEY_UNIX_PEER; EGRESS_CLI_KEY_ALLOW; EGRESS_CLI_KEY_ALLOW_PRIVATE;
  EGRESS_CLI_KEY_ALLOW_TLS_SNI; EGRESS_CLI_KEY_TOKEN_FILE;
  EGRESS_CLI_KEY_UNAUTHENTICATED_LOOPBACK; EGRESS_CLI_KEY_MAX_CONNECTIONS;
  EGRESS_CLI_KEY_QUOTA_CONNECTIONS; EGRESS_CLI_KEY_QUOTA_BYTES;
  EGRESS_CLI_KEY_QUOTA_TOTAL_BYTES; EGRESS_CLI_KEY_ADMIN_LISTEN; EGRESS_CLI_KEY_AUDIT_LOG;
  EGRESS_CLI_KEY_AUDIT_KEY_FILE; EGRESS_CLI_KEY_AUDIT_KEY_ID; EGRESS_CLI_KEY_TLS_CERT;
  EGRESS_CLI_KEY_TLS_KEY; EGRESS_CLI_KEY_TLS_CA; EGRESS_CLI_KEY_REQUIRE_CLIENT_CERT;
  EGRESS_CLI_KEY_CHANNEL_LISTEN_UNIX; EGRESS_CLI_KEY_CHANNEL_PRINCIPAL;
  EGRESS_CLI_KEY_CHANNEL_INVOCATION_ID; EGRESS_CLI_KEY_CHANNEL_CONNECT_TIMEOUT_MS;
  EGRESS_CLI_KEY_CHANNEL_HANDSHAKE_TIMEOUT_MS; EGRESS_CLI_KEY_CHANNEL_MAX_CLIENTS;
  EGRESS_CLI_KEY_CHANNEL_FD; EGRESS_CLI_KEY_CHANNEL_EXEC_BY_PATH].

(** The value of an enumerator. *)
Definition key_number (key : egress_cli_config_key_t) : Z :=
  match key with
  | EGRESS_CLI_KEY_SCHEMA_VERSION => 0
  | EGRESS_CLI_KEY_LISTEN => 1
  | EGRESS_CLI_KEY_LISTEN_UNIX => 2
  | EGRESS_CLI_KEY_UNIX_PEER => 3
  | EGRESS_CLI_KEY_ALLOW => 4
  | EGRESS_CLI_KEY_ALLOW_PRIVATE => 5
  | EGRESS_CLI_KEY_ALLOW_TLS_SNI => 6
  | EGRESS_CLI_KEY_TOKEN_FILE => 7
  | EGRESS_CLI_KEY_UNAUTHENTICATED_LOOPBACK => 8
  | EGRESS_CLI_KEY_MAX_CONNECTIONS => 9
  | EGRESS_CLI_KEY_QUOTA_CONNECTIONS => 10
  | EGRESS_CLI_KEY_QUOTA_BYTES => 11
  | EGRESS_CLI_KEY_QUOTA_TOTAL_BYTES => 12
  | EGRESS_CLI_KEY_ADMIN_LISTEN => 13
  | EGRESS_CLI_KEY_AUDIT_LOG => 14
  | EGRESS_CLI_KEY_AUDIT_KEY_FILE => 15
  | EGRESS_CLI_KEY_AUDIT_KEY_ID => 16
  | EGRESS_CLI_KEY_TLS_CERT => 17
  | EGRESS_CLI_KEY_TLS_KEY => 18
  | EGRESS_CLI_KEY_TLS_CA => 19
  | EGRESS_CLI_KEY_REQUIRE_CLIENT_CERT => 20
  | EGRESS_CLI_KEY_CHANNEL_LISTEN_UNIX => 21
  | EGRESS_CLI_KEY_CHANNEL_PRINCIPAL => 22
  | EGRESS_CLI_KEY_CHANNEL_INVOCATION_ID => 23
  | EGRESS_CLI_KEY_CHANNEL_CONNECT_TIMEOUT_MS => 24
  | EGRESS_CLI_KEY_CHANNEL_HANDSHAKE_TIMEOUT_MS => 25
  | EGRESS_CLI_KEY_CHANNEL_MAX_CLIENTS => 26
  | EGRESS_CLI_KEY_CHANNEL_FD => 27
  | EGRESS_CLI_KEY_CHANNEL_EXEC_BY_PATH => 28
  end.

Record egress_cli_config_spec_t := Spec {
  name : bytes;
  key : egress_cli_config_key_t;
  type : egress_cli_config_type_t;
  required : bool;
  repeatable : bool;
  secret_value : bool;
  tls_only : bool;
  default_value : option bytes;
  range : option bytes;
  allowed_values : option bytes;
  requires : option bytes;
  conflicts : option bytes;
  description : bytes;
}.

Definition config_specs : list egress_cli_config_spec_t := [
  Spec (str "schema_version") EGRESS_CLI_KEY_SCHEMA_VERSION EGRESS_CLI_CONFIG_INTEGER
    true false false false None
    (Some (str "exactly 1"))
    None None
    None
    (str "Configuration grammar version. Version 1 is required.");
  Spec (str "listen") EGRESS_CLI_KEY_LISTEN EGRESS_CLI_CONFIG_ENDPOINT
    false false false false (Some (str "127.0.0.1:0"))
    (Some (str "numeric loopback unless TLS+authentication are enabled"))
    None None
    (Some (str "listen_unix,channel_principal"))
    (str "TCP proxy listener as HOST:PORT.");
  Spec (str "listen_unix") EGRESS_CLI_KEY_LISTEN_UNIX EGRESS_CLI_CONFIG_PATH
    false false false false None
    (Some (str "private existing parent directory"))
    None None
    (Some (str "listen,channel_principal"))
    (str "Filesystem AF_UNIX proxy listener.");
  Spec (str "unix_peer") EGRESS_CLI_KEY_UNIX_PEER EGRESS_CLI_CONFIG_ENUM
    false false false false (Some (str "authenticated"))
    None
    (Some (str "authenticated,same-euid")) (Some (str "listen_unix"))
    (Some (str "channel_principal"))
    (str "Peer authentication rule for an AF_UNIX listener.");
  Spec (str "allow") EGRESS_CLI_KEY_ALLOW EGRESS_CLI_CONFIG_DESTINATION
    false true false false None
    (Some (str "HOST:1..65535"))
    None None
    None
    (str "Allow one exact public TCP destination.");
  Spec (str "allow_private") EGRESS_CLI_KEY_ALLOW_PRIVATE EGRESS_CLI_CONFIG_DESTINATION
    false true false false None
    (Some (str "HOST:1..65535"))
    None None
    None
    (str "Allow one exact destination to resolve to private addresses.");
  Spec (str "allow_tls_sni") EGRESS_CLI_KEY_ALLOW_TLS_SNI EGRESS_CLI_CONFIG_DESTINATION
    false true false false None
    (Some (str "HOST:1..65535"))
    None None
    None
    (str "Allow one destination and require matching readable TLS SNI; HTTP forward requests to it are refused.");
  Spec (str "token_file") EGRESS_CLI_KEY_TOKEN_FILE EGRESS_CLI_CONFIG_PATH
    false false true false None
    (Some (str "owner-only regular file, at least 16 bytes"))
    None None
    (Some (str "unauthenticated_loopback,channel_principal"))
    (str "Bearer secret; the proxy username is maelys.");
  Spec (str "unauthenticated_loopback") EGRESS_CLI_KEY_UNAUTHENTICATED_LOOPBACK EGRESS_CLI_CONFIG_BOOLEAN
    false false false false (Some (str "false"))
    None
    (Some (str "true,false")) None
    (Some (str "token_file,listen_unix,principal quotas,channel_principal"))
    (str "Development-only opt-out on a loopback TCP listener.");
  Spec (str "max_connections") EGRESS_CLI_KEY_MAX_CONNECTIONS EGRESS_CLI_CONFIG_INTEGER
    false false false false (Some (str "128"))
    (Some (str "1..4096"))
    None None
    None
    (str "Maximum concurrent mediated connections.");
  Spec (str "quota_connections") EGRESS_CLI_KEY_QUOTA_CONNECTIONS EGRESS_CLI_CONFIG_INTEGER
    false false false false (Some (str "0"))
    (Some (str "0..4096; 0 disables"))
    None None
    None
    (str "Maximum active connections for the configured principal (token_file or channel_principal).");
  Spec (str "quota_bytes") EGRESS_CLI_KEY_QUOTA_BYTES EGRESS_CLI_CONFIG_INTEGER
    false false false false (Some (str "0"))
    (Some (str "0..2^64-1; 0 disables"))
    None None
    None
    (str "Per-stream client plus server byte budget (token_file or channel_principal).");
  Spec (str "quota_total_bytes") EGRESS_CLI_KEY_QUOTA_TOTAL_BYTES EGRESS_CLI_CONFIG_INTEGER
    false false false false (Some (str "0"))
    (Some (str "0..2^64-1; 0 disables"))
    None None
    None
    (str "Cumulative byte budget for the principal execution (token_file or channel_principal).");
  Spec (str "admin_listen") EGRESS_CLI_KEY_ADMIN_LISTEN EGRESS_CLI_CONFIG_ENDPOINT
    false false false false None
    (Some (str "numeric loopback only"))
    None None
    None
    (str "Independent health and aggregate metrics listener.");
  Spec (str "audit_log") EGRESS_CLI_KEY_AUDIT_LOG EGRESS_CLI_CONFIG_PATH
    false false false false None
    (Some (str "append-only JSONL file"))
    None (Some (str "audit_key_file,audit_key_id"))
    None
    (str "Durable authenticated receipt log.");
  Spec (str "audit_key_file") EGRESS_CLI_KEY_AUDIT_KEY_FILE EGRESS_CLI_CONFIG_PATH
    false false true false None
    (Some (str "owner-only regular file, 16..4096 bytes"))
    None (Some (str "audit_log,audit_key_id"))
    None
    (str "HMAC key protecting the durable audit chain.");
  Spec (str "audit_key_id") EGRESS_CLI_KEY_AUDIT_KEY_ID EGRESS_CLI_CONFIG_STRING
    false false false false None
    (Some (str "stable printable identifier"))
    None (Some (str "audit_log,audit_key_file"))
    None
    (str "Non-secret identifier recorded beside every audit MAC.");
  Spec (str "tls_cert") EGRESS_CLI_KEY_TLS_CERT EGRESS_CLI_CONFIG_PATH
    false false false true None
    (Some (str "PEM certificate"))
    None (Some (str "tls_key"))
    None
    (str "TLS listener certificate.");
  Spec (str "tls_key") EGRESS_CLI_KEY_TLS_KEY EGRESS_CLI_CONFIG_PATH
    false false true true None
    (Some (str "PEM private key"))
    None (Some (str "tls_cert"))
    None
    (str "TLS listener private key.");
  Spec (str "tls_ca") EGRESS_CLI_KEY_TLS_CA EGRESS_CLI_CONFIG_PATH
    false false false true None
    (Some (str "PEM trust bundle"))
    None None
    None
    (str "Client CA used by mutual TLS.");
  Spec (str "require_client_cert") EGRESS_CLI_KEY_REQUIRE_CLIENT_CERT EGRESS_CLI_CONFIG_BOOLEAN
    false false false true (Some (str "false"))
    None
    (Some (str "true,false")) (Some (str "tls_ca,tls_cert,tls_key"))
    None
    (str "Require a trusted client certificate on the proxy listener.");
  Spec (str "channel_listen_unix") EGRESS_CLI_KEY_CHANNEL_LISTEN_UNIX EGRESS_CLI_CONFIG_PATH
    false false false false None
    (Some (str "absolute canonical path; caller-owned parent mode 0700 or 2750"))
    None (Some (str "channel_principal"))
    (Some (str "listen,listen_unix,unix_peer,token_file,unauthenticated_loopback,TLS listener keys"))
    (str "Private bootstrap socket for channel broker; no proxy listener is opened.");
  Spec (str "channel_principal") EGRESS_CLI_KEY_CHANNEL_PRINCIPAL EGRESS_CLI_CONFIG_STRING
    false false false false None
    (Some (str "canonical ASCII identity, 1..63 bytes"))
    None None
    (Some (str "listen,listen_unix,unix_peer,token_file,unauthenticated_loopback,TLS listener keys"))
    (str "Immutable principal bound by the trusted broker or launcher, without a token; alone it selects channel exec, with channel_listen_unix channel broker.");
  Spec (str "channel_invocation_id") EGRESS_CLI_KEY_CHANNEL_INVOCATION_ID EGRESS_CLI_CONFIG_STRING
    false false false false None
    (Some (str "canonical ASCII invocation identifier, 1..127 bytes"))
    None (Some (str "channel_principal"))
    None
    (str "Optional execution identifier included in receipts.");
  Spec (str "channel_connect_timeout_ms") EGRESS_CLI_KEY_CHANNEL_CONNECT_TIMEOUT_MS EGRESS_CLI_CONFIG_INTEGER
    false false false false (Some (str "5000"))
    (Some (str "1..600000"))
    None (Some (str "channel_principal"))
    None
    (str "Per-destination channel deadline in milliseconds.");
  Spec (str "channel_handshake_timeout_ms") EGRESS_CLI_KEY_CHANNEL_HANDSHAKE_TIMEOUT_MS EGRESS_CLI_CONFIG_INTEGER
    false false false false (Some (str "5000"))
    (Some (str "1..60000"))
    None (Some (str "channel_listen_unix,channel_principal"))
    None
    (str "One accept-to-complete bootstrap deadline in milliseconds.");
  Spec (str "channel_max_clients") EGRESS_CLI_KEY_CHANNEL_MAX_CLIENTS EGRESS_CLI_CONFIG_INTEGER
    false false false false (Some (str "128"))
    (Some (str "1..4096"))
    None (Some (str "channel_listen_unix,channel_principal"))
    None
    (str "Combined bound on pending handshakes, active leases and retiring channels.");
  Spec (str "channel_fd") EGRESS_CLI_KEY_CHANNEL_FD EGRESS_CLI_CONFIG_INTEGER
    false false false false (Some (str "4"))
    (Some (str "3..255"))
    None (Some (str "channel_principal"))
    (Some (str "channel_listen_unix"))
    (str "Descriptor on which channel exec hands the channel to the program it starts.");
  Spec (str "channel_exec_by_path") EGRESS_CLI_KEY_CHANNEL_EXEC_BY_PATH EGRESS_CLI_CONFIG_BOOLEAN
    false false false false (Some (str "false"))
    None
    (Some (str "true,false")) (Some (str "channel_principal"))
    (Some (str "channel_listen_unix"))
    (str "Let channel exec execute the checked program through its path instead of the descriptor held across the check; only for a multi-call binary that names itself from how it was executed.")
].

Definition config_constraints : list bytes := [
  str "At least one of allow, allow_private or allow_tls_sni is required.";
  str "In proxy mode choose token_file or unauthenticated_loopback=true, never both.";
  str "listen and listen_unix are mutually exclusive; neither means 127.0.0.1:0 in proxy mode only.";
  str "listen_unix always requires token_file; unix_peer applies only to listen_unix.";
  str "Principal quotas require token_file in proxy mode or channel_principal in broker and exec modes.";
  str "channel_principal selects a channel mode: broker mode with channel_listen_unix, exec mode without it. Every other channel key requires channel_principal.";
  str "channel_handshake_timeout_ms and channel_max_clients require channel_listen_unix; channel_fd and channel_exec_by_path refuse it.";
  str "Broker and exec modes refuse listen, listen_unix, unix_peer, token_file, unauthenticated_loopback and all TLS listener keys, even false/default values.";
  str "serve accepts proxy configuration only, channel broker broker configuration only, channel exec exec configuration only; config validate accepts the three.";
  str "audit_log, audit_key_file and audit_key_id are all present or all absent.";
  str "In a TLS-enabled binary, tls_cert and tls_key are paired; require_client_cert also requires tls_ca."
].

Definition egress_cli_config_find (text : bytes) : option egress_cli_config_spec_t :=
  List.find (fun spec => beq (name spec) text) config_specs.

Definition egress_cli_config_type_name (t : egress_cli_config_type_t) : bytes :=
  match t with
  | EGRESS_CLI_CONFIG_NONE => str "flag"
  | EGRESS_CLI_CONFIG_PATH => str "path"
  | EGRESS_CLI_CONFIG_STRING => str "string"
  | EGRESS_CLI_CONFIG_BOOLEAN => str "boolean"
  | EGRESS_CLI_CONFIG_ENDPOINT => str "endpoint"
  | EGRESS_CLI_CONFIG_DESTINATION => str "destination"
  | EGRESS_CLI_CONFIG_INTEGER => str "integer"
  | EGRESS_CLI_CONFIG_ENUM => str "enum"
  end.

(** * Settings (cli/cli.h) *)

Definition EGRESS_CLI_MAX_DESTINATIONS : Z := 256.

Module Destination.
Record egress_cli_destination_t := Make {
  host : bytes;
  port : Z;
  allow_private : bool;
  require_tls_sni : bool;
}.

#[global] Instance eq_dec : EqDecision egress_cli_destination_t.
Proof. solve_decision. Defined.
End Destination.

Module Settings.

(** The destinations are the first [destination_count] entries of the array. *)
Record egress_cli_settings_t := Make {
  listen_host : bytes;
  listen_port : Z;
  listen_set : bool;
  listen_unix : option bytes;
  unix_peer : maelys_egress_unix_peer_policy_t;
  unix_peer_set : bool;
  destinations : list Destination.egress_cli_destination_t;
  token_file : option bytes;
  unauthenticated_loopback : bool;
  max_connections : Z;
  quota_connections : Z;
  quota_bytes : Z;
  quota_total_bytes : Z;
  admin_host : bytes;
  admin_port : Z;
  admin_set : bool;
  audit_log : option bytes;
  audit_key_file : option bytes;
  audit_key_id : option bytes;
  tls_cert : option bytes;
  tls_key : option bytes;
  tls_ca : option bytes;
  require_client_cert : bool;
  channel_listen_unix : option bytes;
  channel_principal : option bytes;
  channel_invocation_id : option bytes;
  channel_connect_timeout_ms : Z;
  channel_handshake_timeout_ms : Z;
  channel_max_clients : Z;
  channel_fd : Z;
  channel_exec_by_path : bool;
}.

#[global] Instance eta_settings : Eta egress_cli_settings_t := fun s =>
  Make (listen_host s) (listen_port s) (listen_set s) (listen_unix s) (unix_peer s)
    (unix_peer_set s) (destinations s) (token_file s) (unauthenticated_loopback s)
    (max_connections s) (quota_connections s) (quota_bytes s) (quota_total_bytes s)
    (admin_host s) (admin_port s) (admin_set s) (audit_log s) (audit_key_file s)
    (audit_key_id s) (tls_cert s) (tls_key s) (tls_ca s) (require_client_cert s)
    (channel_listen_unix s) (channel_principal s) (channel_invocation_id s)
    (channel_connect_timeout_ms s) (channel_handshake_timeout_ms s) (channel_max_clients s)
    (channel_fd s) (channel_exec_by_path s).

Definition destination_count (s : egress_cli_settings_t) : Z := len (destinations s).

(** [memset(settings, 0, sizeof( *settings))]. *)
Definition zero : egress_cli_settings_t :=
  Make [] 0 false None MAELYS_EGRESS_UNIX_PEER_AUTHENTICATED false [] None false 0 0 0 0 [] 0 false
    None None None None None None false None None None 0 0 0 0 false.

End Settings.

Abbreviation settings := Settings.egress_cli_settings_t.

Inductive egress_cli_mode_t :=
| EGRESS_CLI_MODE_PROXY
| EGRESS_CLI_MODE_BROKER
| EGRESS_CLI_MODE_EXEC.

#[export] Instance mode_eq_dec : EqDecision egress_cli_mode_t.
Proof. solve_decision. Defined.

(** * The framework *)

(** The codes of agent-cli/v2 the loader reports. *)
Inductive cli_code :=
| MAELYS_CLI_CODE_NOT_FOUND
| MAELYS_CLI_CODE_ACCESS_DENIED
| MAELYS_CLI_CODE_IO_FAILED
| MAELYS_CLI_CODE_VALIDATION_FAILED
| MAELYS_CLI_CODE_POLICY_FAILED
| MAELYS_CLI_CODE_PRECONDITION_FAILED
| MAELYS_CLI_CODE_UNSUPPORTED
| MAELYS_CLI_CODE_UNEXPECTED.

#[export] Instance cli_code_eq_dec : EqDecision cli_code.
Proof. solve_decision. Defined.

(** An open file: whether [fdopen] succeeds, its bytes, the error that ends
    the reading early, and the outcome of [fclose]. *)
Record trusted_file := TrustedFile {
  stream_opens : bool;
  content : bytes;
  read_fails : bool;
  closes : bool;
}.

(** What the command line asks of the framework: the decimal and choice
    parsers, the trusted open ([inl] is the errno), the trusted read with its
    bounds, and the classification of an errno. *)
Class Cli := {
  parse_u64_decimal : bytes -> Z -> Z -> option Z;
  parse_choice : bytes -> list bytes -> option nat;
  open_trusted : bytes -> Z + trusted_file;
  read_trusted_file : bytes -> Z -> Z -> option bytes;
  file_error_code : Z -> cli_code;
}.

(** The documented behaviour of the framework: a parsed number lies in its
    range and the plain decimal notation of a number of the range is read as
    that number; a choice is the index of the text; a trusted read has a
    length within its bounds. *)
Class CliLaws `{Cli} : Prop := {
  parse_decimal_range : forall value lo hi n,
    parse_u64_decimal value lo hi = Some n -> lo <= n <= hi;
  parse_decimal_plain : forall lo hi n, is_u64 n -> lo <= n <= hi ->
    parse_u64_decimal (decimal n) lo hi = Some n;
  parse_choice_index : forall value choices i,
    parse_choice value choices = Some i -> choices !! i = Some value;
  parse_choice_known : forall value choices i, NoDup choices ->
    choices !! i = Some value -> parse_choice value choices = Some i;
  read_trusted_bounds : forall path lo hi b,
    read_trusted_file path lo hi = Some b -> lo <= len b <= hi;
}.



Inductive cli_error :=
| FileError (code : cli_code)
| LineError (line : Z) (violation : bytes) (subject : option bytes)
| TlsError (line : Z)
| MissingVersion
| ConstraintError (violation : bytes)
| CatalogError
| MemoryError.

(** The code an error is reported with. *)
Definition error_code (e : cli_error) : cli_code :=
  match e with
  | FileError code => code
  | LineError _ _ _ | MissingVersion | ConstraintError _ => MAELYS_CLI_CODE_VALIDATION_FAILED
  | TlsError _ => MAELYS_CLI_CODE_UNSUPPORTED
  | CatalogError | MemoryError => MAELYS_CLI_CODE_UNEXPECTED
  end.

(** * The loader (cli/config_file.c) *)

Definition unix_peer_choices : list bytes := [str "authenticated"; str "same-euid"].

Definition same_text (left right : option bytes) : bool :=
  match left, right with
  | Some l, Some r => beq l r
  | None, None => true
  | _, _ => false
  end.

Definition egress_cli_settings_control_equal (a b : settings) : bool :=
  beq (Settings.listen_host a) (Settings.listen_host b) &&
  (Settings.listen_port a =? Settings.listen_port b) &&
  Bool.eqb (Settings.listen_set a) (Settings.listen_set b) &&
  same_text (Settings.listen_unix a) (Settings.listen_unix b) &&
  bool_decide (Settings.unix_peer a = Settings.unix_peer b) &&
  Bool.eqb (Settings.unix_peer_set a) (Settings.unix_peer_set b) &&
  same_text (Settings.token_file a) (Settings.token_file b) &&
  Bool.eqb (Settings.unauthenticated_loopback a) (Settings.unauthenticated_loopback b) &&
  (Settings.max_connections a =? Settings.max_connections b) &&
  (Settings.quota_connections a =? Settings.quota_connections b) &&
  (Settings.quota_bytes a =? Settings.quota_bytes b) &&
  (Settings.quota_total_bytes a =? Settings.quota_total_bytes b) &&
  beq (Settings.admin_host a) (Settings.admin_host b) &&
  (Settings.admin_port a =? Settings.admin_port b) &&
  Bool.eqb (Settings.admin_set a) (Settings.admin_set b) &&
  same_text (Settings.audit_log a) (Settings.audit_log b) &&
  same_text (Settings.audit_key_file a) (Settings.audit_key_file b) &&
  same_text (Settings.audit_key_id a) (Settings.audit_key_id b) &&
  same_text (Settings.tls_cert a) (Settings.tls_cert b) &&
  same_text (Settings.tls_key a) (Settings.tls_key b) &&
  same_text (Settings.tls_ca a) (Settings.tls_ca b) &&
  Bool.eqb (Settings.require_client_cert a) (Settings.require_client_cert b) &&
  same_text (Settings.channel_listen_unix a) (Settings.channel_listen_unix b) &&
  same_text (Settings.channel_principal a) (Settings.channel_principal b) &&
  same_text (Settings.channel_invocation_id a) (Settings.channel_invocation_id b) &&
  (Settings.channel_connect_timeout_ms a =? Settings.channel_connect_timeout_ms b) &&
  (Settings.channel_handshake_timeout_ms a =? Settings.channel_handshake_timeout_ms b) &&
  (Settings.channel_max_clients a =? Settings.channel_max_clients b) &&
  (Settings.channel_fd a =? Settings.channel_fd b) &&
  Bool.eqb (Settings.channel_exec_by_path a) (Settings.channel_exec_by_path b).

Definition egress_cli_settings_mode (s : settings) : egress_cli_mode_t :=
  if negb (is_some (Settings.channel_principal s)) then EGRESS_CLI_MODE_PROXY
  else if is_some (Settings.channel_listen_unix s) then EGRESS_CLI_MODE_BROKER
  else EGRESS_CLI_MODE_EXEC.

Definition blank (c : Z) : bool := (c =? c_space) || (c =? c_htab).

Fixpoint drop_blanks (value : bytes) : bytes :=
  match value with
  | c :: rest => if blank c then drop_blanks rest else value
  | [] => []
  end.

(** The loops of [trim] at the two ends. *)
Definition trim (value : bytes) : bytes := rev (drop_blanks (rev (drop_blanks value))).

(** The loop on the digits of a port. *)
Fixpoint port_loop (text : bytes) (port : Z) : option Z :=
  match text with
  | [] => Some port
  | c :: text =>
      if negb (is_digit c) then None
      else let port := port * 10 + (c - c_0) in
           if port >? 65535 then None else port_loop text port
  end.

(** The host and the text of the port, at the colon or after the bracket. *)
Definition split_endpoint (input : bytes) : option (bytes * bytes) :=
  if at_ input 0 =? c_lbracket then
    match index_of c_rbracket input with
    | Some e =>
        if at_ input (Z.of_nat e + 1) =? c_colon
        then Some (drop 1 (take e input), drop (e + 2) input) else None
    | None => None
    end
  else
    match last_index_of c_colon input, index_of c_colon input with
    | Some colon, Some first =>
        if bool_decide (first = colon) then Some (take colon input, drop (colon + 1) input) else None
    | _, _ => None
    end.

Definition parse_endpoint (input : bytes) (host_capacity : Z) : option (bytes * Z) :=
  match split_endpoint input with
  | None => None
  | Some (host, port_text) =>
      if (len host =? 0) || (host_capacity <=? len host) || (len port_text =? 0) then None
      else match port_loop port_text 0 with
           | Some port => Some (host, port)
           | None => None
           end
  end.

(** The loop on the components of [channel_listen_unix]. *)
Fixpoint components_loop (fuel : nat) (part : bytes) : bool :=
  match fuel with
  | O => false
  | S fuel =>
      let length_ := match index_of c_slash part with Some i => i | None => length part end in
      if (length_ =? 0)%nat || ((length_ =? 1)%nat && (at_ part 0 =? c_dot)) ||
         ((length_ =? 2)%nat && beq (take 2 part) (str "..")) then false
      else match drop length_ part with
           | [] => true
           | _ :: part => components_loop fuel part
           end
  end.

(** What applying a line does: the new settings, or a violation to report, or
    a failed allocation.  The last two change no entry in use. *)
Inductive applied :=
| Stored (s : settings)
| Violated (violation : bytes)
| OutOfMemory.

Section Loader.
Context `{Cli}.

(** [own_text]: the copy is stored when [strdup] succeeds. *)
Definition own_text (copy : bool) (s : settings) : applied := if copy then Stored s else OutOfMemory.

Definition apply_destination (s : settings) (key_ : egress_cli_config_key_t) (value : bytes)
  : applied :=
  if EGRESS_CLI_MAX_DESTINATIONS <=? Settings.destination_count s
  then Violated (str "too many allowed destinations")
  else match parse_endpoint value 254 with
       | Some (host, port) =>
           if port =? 0 then Violated (str "invalid allowed destination")
           else Stored (s <| Settings.destinations := Settings.destinations s ++
             [Destination.Make host port (bool_decide (key_ = EGRESS_CLI_KEY_ALLOW_PRIVATE))
                (bool_decide (key_ = EGRESS_CLI_KEY_ALLOW_TLS_SNI))] |>)
       | None => Violated (str "invalid allowed destination")
       end.

Definition apply_flag (s : settings) (key_ : egress_cli_config_key_t) (value : bytes) : applied :=
  let store flag := Stored match key_ with
    | EGRESS_CLI_KEY_UNAUTHENTICATED_LOOPBACK => s <| Settings.unauthenticated_loopback := flag |>
    | EGRESS_CLI_KEY_REQUIRE_CLIENT_CERT => s <| Settings.require_client_cert := flag |>
    | _ => s <| Settings.channel_exec_by_path := flag |>
    end in
  if beq value (str "true") then store true
  else if beq value (str "false") then store false
  else Violated (str "boolean must be true or false").

(** A number of the range stored, or the violation. *)
Definition apply_number (value : bytes) (lo hi : Z) (store : Z -> settings) (violation : bytes)
  : applied :=
  match parse_u64_decimal value lo hi with
  | Some number => Stored (store number)
  | None => Violated violation
  end.

Definition apply_value (copy : bool) (s : settings) (key_ : egress_cli_config_key_t)
    (value : bytes) : applied :=
  match key_ with
  | EGRESS_CLI_KEY_SCHEMA_VERSION =>
      if beq value (str "1") then Stored s else Violated (str "schema_version must be 1")
  | EGRESS_CLI_KEY_LISTEN =>
      match parse_endpoint value 64 with
      | Some (host, port) =>
          Stored (s <| Settings.listen_host := host |> <| Settings.listen_port := port |>
                    <| Settings.listen_set := true |>)
      | None => Violated (str "invalid listen endpoint")
      end
  | EGRESS_CLI_KEY_LISTEN_UNIX => own_text copy (s <| Settings.listen_unix := Some value |>)
  | EGRESS_CLI_KEY_UNIX_PEER =>
      match parse_choice value unix_peer_choices with
      | Some index =>
          Stored (s <| Settings.unix_peer :=
                        if (index =? 0)%nat then MAELYS_EGRESS_UNIX_PEER_AUTHENTICATED
                        else MAELYS_EGRESS_UNIX_PEER_SAME_EUID |>
                    <| Settings.unix_peer_set := true |>)
      | None => Violated (str "unix_peer must be authenticated or same-euid")
      end
  | EGRESS_CLI_KEY_ALLOW | EGRESS_CLI_KEY_ALLOW_PRIVATE | EGRESS_CLI_KEY_ALLOW_TLS_SNI =>
      apply_destination s key_ value
  | EGRESS_CLI_KEY_TOKEN_FILE => own_text copy (s <| Settings.token_file := Some value |>)
  | EGRESS_CLI_KEY_UNAUTHENTICATED_LOOPBACK | EGRESS_CLI_KEY_REQUIRE_CLIENT_CERT
  | EGRESS_CLI_KEY_CHANNEL_EXEC_BY_PATH => apply_flag s key_ value
  | EGRESS_CLI_KEY_MAX_CONNECTIONS =>
      apply_number value 1 4096 (fun n => s <| Settings.max_connections := n |>)
        (str "max_connections must be in 1..4096")
  | EGRESS_CLI_KEY_QUOTA_CONNECTIONS =>
      apply_number value 0 4096 (fun n => s <| Settings.quota_connections := n |>)
        (str "quota_connections must be in 0..4096")
  | EGRESS_CLI_KEY_QUOTA_BYTES =>
      apply_number value 0 UINT64_MAX (fun n => s <| Settings.quota_bytes := n |>)
        (str "quota_bytes must be an unsigned integer")
  | EGRESS_CLI_KEY_QUOTA_TOTAL_BYTES =>
      apply_number value 0 UINT64_MAX (fun n => s <| Settings.quota_total_bytes := n |>)
        (str "quota_total_bytes must be an unsigned integer")
  | EGRESS_CLI_KEY_ADMIN_LISTEN =>
      match parse_endpoint value 64 with
      | Some (host, port) =>
          Stored (s <| Settings.admin_host := host |> <| Settings.admin_port := port |>
                    <| Settings.admin_set := true |>)
      | None => Violated (str "invalid admin_listen endpoint")
      end
  | EGRESS_CLI_KEY_AUDIT_LOG => own_text copy (s <| Settings.audit_log := Some value |>)
  | EGRESS_CLI_KEY_AUDIT_KEY_FILE => own_text copy (s <| Settings.audit_key_file := Some value |>)
  | EGRESS_CLI_KEY_AUDIT_KEY_ID => own_text copy (s <| Settings.audit_key_id := Some value |>)
  | EGRESS_CLI_KEY_TLS_CERT => own_text copy (s <| Settings.tls_cert := Some value |>)
  | EGRESS_CLI_KEY_TLS_KEY => own_text copy (s <| Settings.tls_key := Some value |>)
  | EGRESS_CLI_KEY_TLS_CA => own_text copy (s <| Settings.tls_ca := Some value |>)
  | EGRESS_CLI_KEY_CHANNEL_LISTEN_UNIX =>
      if negb (at_ value 0 =? c_slash) || (SUN_PATH_SIZE <=? len value)
      then Violated (str "channel_listen_unix must be an absolute bounded Unix path")
      else if components_loop (length value) (drop 1 value)
      then own_text copy (s <| Settings.channel_listen_unix := Some value |>)
      else Violated (str "channel_listen_unix must be canonical (no empty, dot or parent components)")
  | EGRESS_CLI_KEY_CHANNEL_PRINCIPAL =>
      own_text copy (s <| Settings.channel_principal := Some value |>)
  | EGRESS_CLI_KEY_CHANNEL_INVOCATION_ID =>
      own_text copy (s <| Settings.channel_invocation_id := Some value |>)
  | EGRESS_CLI_KEY_CHANNEL_CONNECT_TIMEOUT_MS =>
      apply_number value 1 600000 (fun n => s <| Settings.channel_connect_timeout_ms := n |>)
        (str "channel_connect_timeout_ms must be in 1..600000")
  | EGRESS_CLI_KEY_CHANNEL_HANDSHAKE_TIMEOUT_MS =>
      apply_number value 1 60000 (fun n => s <| Settings.channel_handshake_timeout_ms := n |>)
        (str "channel_handshake_timeout_ms must be in 1..60000")
  | EGRESS_CLI_KEY_CHANNEL_MAX_CLIENTS =>
      apply_number value 1 4096 (fun n => s <| Settings.channel_max_clients := n |>)
        (str "channel_max_clients must be in 1..4096")
  | EGRESS_CLI_KEY_CHANNEL_FD =>
      apply_number value 3 255 (fun n => s <| Settings.channel_fd := n |>)
        (str "channel_fd must be in 3..255")
  end.

(** The bit of a key in the mask of the keys seen, a 32-bit word. *)
Definition key_bit (key_ : egress_cli_config_key_t) : Z := Z.shiftl 1 (key_number key_).

Definition channel_keys : Z :=
  u32 (Z.shiftl (2 ^ 32 - 1) (key_number EGRESS_CLI_KEY_CHANNEL_LISTEN_UNIX)).

Definition bits (keys : list egress_cli_config_key_t) : Z :=
  foldr (fun key_ mask => Z.lor (key_bit key_) mask) 0 keys.

Definition broker_keys : Z :=
  bits [EGRESS_CLI_KEY_CHANNEL_HANDSHAKE_TIMEOUT_MS; EGRESS_CLI_KEY_CHANNEL_MAX_CLIENTS].

Definition proxy_keys : Z :=
  bits [EGRESS_CLI_KEY_LISTEN; EGRESS_CLI_KEY_LISTEN_UNIX; EGRESS_CLI_KEY_UNIX_PEER;
        EGRESS_CLI_KEY_TOKEN_FILE; EGRESS_CLI_KEY_UNAUTHENTICATED_LOOPBACK;
        EGRESS_CLI_KEY_TLS_CERT; EGRESS_CLI_KEY_TLS_KEY; EGRESS_CLI_KEY_TLS_CA;
        EGRESS_CLI_KEY_REQUIRE_CLIENT_CERT].

Definition exec_keys : Z :=
  bits [EGRESS_CLI_KEY_CHANNEL_FD; EGRESS_CLI_KEY_CHANNEL_EXEC_BY_PATH].

Definition any_seen (seen keys : Z) : bool := negb (Z.land seen keys =? 0).

Definition check_constraints (s : settings) (seen : Z) : option bytes :=
  let broker := is_some (Settings.channel_listen_unix s) in
  let channel := is_some (Settings.channel_principal s) in
  let token := is_some (Settings.token_file s) in
  let unix := is_some (Settings.listen_unix s) in
  let audit_parts := Z.b2z (is_some (Settings.audit_log s)) +
    Z.b2z (is_some (Settings.audit_key_file s)) + Z.b2z (is_some (Settings.audit_key_id s)) in
  if any_seen seen channel_keys && negb channel
  then Some (str "all channel keys require channel_principal")
  else if negb broker && any_seen seen broker_keys
  then Some (str "channel_handshake_timeout_ms and channel_max_clients require channel_listen_unix")
  else if broker && any_seen seen exec_keys
  then Some (str "channel_fd and channel_exec_by_path belong to channel exec and refuse channel_listen_unix")
  else if channel && any_seen seen proxy_keys
  then Some (str "broker and exec modes refuse proxy listener, credential and TLS listener keys")
  else if (unix && Settings.listen_set s) || (Settings.unix_peer_set s && negb unix)
  then Some (str "choose exactly one listener; unix_peer requires listen_unix")
  else if (Settings.destination_count s =? 0) ||
          (negb channel && negb token && negb (Settings.unauthenticated_loopback s))
  then Some (str "at least one destination and an explicit authentication mode are required")
  else if token && Settings.unauthenticated_loopback s
  then Some (str "choose token_file or unauthenticated_loopback, not both")
  else if unix && Settings.unauthenticated_loopback s
  then Some (str "Unix listeners require token_file authentication")
  else if Settings.unauthenticated_loopback s &&
          (negb (Settings.quota_connections s =? 0) || negb (Settings.quota_bytes s =? 0) ||
           negb (Settings.quota_total_bytes s =? 0))
  then Some (str "principal quotas require token_file authentication")
  else if negb (audit_parts =? 0) && negb (audit_parts =? 3)
  then Some (str "audit_log, audit_key_file and audit_key_id are all required together")
  else if negb (Bool.eqb (is_some (Settings.tls_cert s)) (is_some (Settings.tls_key s))) ||
          (Settings.require_client_cert s && negb (is_some (Settings.tls_ca s)))
  then Some (str "TLS requires tls_cert and tls_key; mutual TLS also requires tls_ca")
  else None.

(** Errno values of the supported Linux platforms, where EFTYPE is EINVAL. *)
Definition EPERM : Z := 1.
Definition EISDIR : Z := 21.
Definition EINVAL : Z := 22.
Definition EMLINK : Z := 31.
Definition ELOOP : Z := 40.
Definition EFTYPE : Z := EINVAL.

(** The code of [file_failure]. *)
Definition file_failure (saved : Z) : cli_error :=
  let identity := (saved =? EPERM) || (saved =? ELOOP) || (saved =? EMLINK) ||
    (saved =? EFTYPE) || (saved =? EINVAL) || (saved =? EISDIR) in
  FileError (if identity then MAELYS_CLI_CODE_ACCESS_DENIED else file_error_code saved).

(** The settings before the defaults of the catalog. *)
Definition initial_settings : settings :=
  Settings.zero <| Settings.listen_host := str "127.0.0.1" |>
    <| Settings.unix_peer := MAELYS_EGRESS_UNIX_PEER_AUTHENTICATED |>
    <| Settings.max_connections := 128 |>.

(** The loop that applies the defaults of the channel keys. *)
Fixpoint apply_defaults (specs : list egress_cli_config_spec_t) (s : settings) : option settings :=
  match specs with
  | [] => Some s
  | spec :: specs =>
      match default_value spec with
      | Some value =>
          if key_number EGRESS_CLI_KEY_CHANNEL_LISTEN_UNIX <=? key_number (key spec) then
            match apply_value true s (key spec) value with
            | Stored s => apply_defaults specs s
            | _ => None
            end
          else apply_defaults specs s
      | None => apply_defaults specs s
      end
  end.

(** [getline]: each line with its newline, the last one perhaps without. *)
Fixpoint getlines (s : bytes) : list bytes :=
  match s with
  | [] => []
  | c :: s =>
      if c =? c_lf then [c] :: getlines s
      else match getlines s with
           | [] => [[c]]
           | line :: lines => (c :: line) :: lines
           end
  end.

(** The lines [getline] delivers before a read error: the partial one is lost. *)
Definition complete_lines (s : bytes) : list bytes :=
  List.filter (fun line => has_char c_lf line) (getlines s).

(** The loop that removes the end of a line. *)
Fixpoint chomp_rev (line : bytes) : bytes :=
  match line with
  | c :: rest => if (c =? c_lf) || (c =? c_cr) then chomp_rev rest else line
  | [] => []
  end.

Definition chomp (line : bytes) : bytes := rev (chomp_rev (rev line)).

Inductive line_result :=
| Next (s : settings) (seen : Z)
| Stop (e : cli_error).

(** A line of known form [name = value]. *)
Definition load_entry (tls copy : bool) (s : settings) (seen line_number : Z) (name_ value : bytes)
  : line_result :=
  match egress_cli_config_find name_ with
  | None => Stop (LineError line_number (str "unknown key or empty value") (Some name_))
  | Some spec =>
      let bit := key_bit (key spec) in
      if len value =? 0
      then Stop (LineError line_number (str "unknown key or empty value") (Some name_))
      else if negb (repeatable spec) && any_seen seen bit
      then Stop (LineError line_number (str "duplicate key") (Some name_))
      else if tls_only spec && negb tls then Stop (TlsError line_number)
      else match apply_value copy s (key spec) value with
           | Stored s => Next s (Z.lor seen bit)
           | Violated violation => Stop (LineError line_number violation None)
           | OutOfMemory => Stop MemoryError
           end
  end.

(** One turn of the loop on the lines of the file. *)
Definition load_line (tls copy : bool) (s : settings) (seen line_number : Z) (line : bytes)
  : line_result :=
  if (4096 <? len line) || has_char 0 line
  then Stop (LineError line_number (str "line is too long or contains NUL") None)
  else
    let entry := trim (chomp line) in
    if (len entry =? 0) || (at_ entry 0 =? c_hash) then Next s seen
    else match index_of c_eq entry with
         | None => Stop (LineError line_number (str "expected key = value") None)
         | Some equals =>
             load_entry tls copy s seen line_number (trim (take equals entry))
               (trim (drop (S equals) entry))
         end.

Fixpoint load_lines (tls : bool) (copy : Z -> bool) (s : settings) (seen line_number : Z)
    (lines : list bytes) : line_result :=
  match lines with
  | [] => Next s seen
  | line :: lines =>
      let line_number := line_number + 1 in
      match load_line tls (copy line_number) s seen line_number line with
      | Next s seen => load_lines tls copy s seen line_number lines
      | Stop e => Stop e
      end
  end.

(** The version and the constraints, once the file is closed. *)
Definition load_conclude (s : settings) (seen : Z) : cli_error + settings :=
  if negb (any_seen seen (key_bit EGRESS_CLI_KEY_SCHEMA_VERSION)) then inl MissingVersion
  else match check_constraints s seen with
       | Some violation => inl (ConstraintError violation)
       | None => inr s
       end.

(** [tls] is [egress_cli_tls_listener_supported()]. *)
Definition egress_cli_settings_load (tls calloc : bool) (copy : Z -> bool) (path : bytes)
  : cli_error + settings :=
  match apply_defaults config_specs initial_settings with
  | None => inl CatalogError
  | Some s =>
      match open_trusted path with
      | inl saved => inl (file_failure saved)
      | inr file =>
          if negb (stream_opens file) then inl (FileError MAELYS_CLI_CODE_IO_FAILED)
          else if negb calloc then inl MemoryError
          else
            let lines := if read_fails file then complete_lines (content file)
                         else getlines (content file) in
            match load_lines tls copy s 0 0 lines with
            | Stop e => inl e
            | Next s seen =>
                if read_fails file || negb (closes file) then inl (FileError MAELYS_CLI_CODE_IO_FAILED)
                else load_conclude s seen
            end
      end
  end.

(** * Secrets (cli/secrets.c) *)

Definition egress_cli_read_secret (path : bytes) : option bytes :=
  match read_trusted_file path 16 255 with
  | None => None
  | Some b =>
      let b := chomp b in
      if (16 <=? len b) && negb (has_char 0 b) then Some b else None
  end.

Definition egress_cli_read_audit_key (path : bytes) : option bytes :=
  read_trusted_file path 16 4096.

End Loader.
