(* ===== verification/ConfigFileFacts.v ===== *)
(** The theorems on the configuration file.  The settings are seen as one
    value per key ([field]); applying a line changes the value of its key only
    and by a function of the text ([meaning]), so that loading is a fold over
    the entries of the file. *)

From S2P Require Import Prelude Common Codec Config ConfigFile.

(** * The settings key by key *)

Inductive value :=
| VNone
| VEndpoint (host : bytes) (port : Z) (set : bool)
| VText (text : option bytes)
| VPeer (peer : maelys_egress_unix_peer_policy_t) (set : bool)
| VList (destinations : list Destination.egress_cli_destination_t)
| VFlag (flag : bool)
| VNumber (number : Z).

#[export] Instance value_eq_dec : EqDecision value.
Proof. solve_decision. Defined.

Definition field (k : egress_cli_config_key_t) (s : settings) : value :=
  match k with
  | EGRESS_CLI_KEY_SCHEMA_VERSION => VNone
  | EGRESS_CLI_KEY_LISTEN =>
      VEndpoint (Settings.listen_host s) (Settings.listen_port s) (Settings.listen_set s)
  | EGRESS_CLI_KEY_LISTEN_UNIX => VText (Settings.listen_unix s)
  | EGRESS_CLI_KEY_UNIX_PEER => VPeer (Settings.unix_peer s) (Settings.unix_peer_set s)
  | EGRESS_CLI_KEY_ALLOW | EGRESS_CLI_KEY_ALLOW_PRIVATE | EGRESS_CLI_KEY_ALLOW_TLS_SNI =>
      VList (Settings.destinations s)
  | EGRESS_CLI_KEY_TOKEN_FILE => VText (Settings.token_file s)
  | EGRESS_CLI_KEY_UNAUTHENTICATED_LOOPBACK => VFlag (Settings.unauthenticated_loopback s)
  | EGRESS_CLI_KEY_MAX_CONNECTIONS => VNumber (Settings.max_connections s)
  | EGRESS_CLI_KEY_QUOTA_CONNECTIONS => VNumber (Settings.quota_connections s)
  | EGRESS_CLI_KEY_QUOTA_BYTES => VNumber (Settings.quota_bytes s)
  | EGRESS_CLI_KEY_QUOTA_TOTAL_BYTES => VNumber (Settings.quota_total_bytes s)
  | EGRESS_CLI_KEY_ADMIN_LISTEN =>
      VEndpoint (Settings.admin_host s) (Settings.admin_port s) (Settings.admin_set s)
  | EGRESS_CLI_KEY_AUDIT_LOG => VText (Settings.audit_log s)
  | EGRESS_CLI_KEY_AUDIT_KEY_FILE => VText (Settings.audit_key_file s)
  | EGRESS_CLI_KEY_AUDIT_KEY_ID => VText (Settings.audit_key_id s)
  | EGRESS_CLI_KEY_TLS_CERT => VText (Settings.tls_cert s)
  | EGRESS_CLI_KEY_TLS_KEY => VText (Settings.tls_key s)
  | EGRESS_CLI_KEY_TLS_CA => VText (Settings.tls_ca s)
  | EGRESS_CLI_KEY_REQUIRE_CLIENT_CERT => VFlag (Settings.require_client_cert s)
  | EGRESS_CLI_KEY_CHANNEL_LISTEN_UNIX => VText (Settings.channel_listen_unix s)
  | EGRESS_CLI_KEY_CHANNEL_PRINCIPAL => VText (Settings.channel_principal s)
  | EGRESS_CLI_KEY_CHANNEL_INVOCATION_ID => VText (Settings.channel_invocation_id s)
  | EGRESS_CLI_KEY_CHANNEL_CONNECT_TIMEOUT_MS => VNumber (Settings.channel_connect_timeout_ms s)
  | EGRESS_CLI_KEY_CHANNEL_HANDSHAKE_TIMEOUT_MS => VNumber (Settings.channel_handshake_timeout_ms s)
  | EGRESS_CLI_KEY_CHANNEL_MAX_CLIENTS => VNumber (Settings.channel_max_clients s)
  | EGRESS_CLI_KEY_CHANNEL_FD => VNumber (Settings.channel_fd s)
  | EGRESS_CLI_KEY_CHANNEL_EXEC_BY_PATH => VFlag (Settings.channel_exec_by_path s)
  end.

(** The three keys of the destinations share their value. *)
Definition slot (k : egress_cli_config_key_t) : egress_cli_config_key_t :=
  match k with
  | EGRESS_CLI_KEY_ALLOW_PRIVATE | EGRESS_CLI_KEY_ALLOW_TLS_SNI => EGRESS_CLI_KEY_ALLOW
  | k => k
  end.

(** The range of a numeric key. *)
Definition number_range (k : egress_cli_config_key_t) : Z * Z :=
  match k with
  | EGRESS_CLI_KEY_MAX_CONNECTIONS | EGRESS_CLI_KEY_CHANNEL_MAX_CLIENTS => (1, 4096)
  | EGRESS_CLI_KEY_QUOTA_CONNECTIONS => (0, 4096)
  | EGRESS_CLI_KEY_CHANNEL_CONNECT_TIMEOUT_MS => (1, 600000)
  | EGRESS_CLI_KEY_CHANNEL_HANDSHAKE_TIMEOUT_MS => (1, 60000)
  | EGRESS_CLI_KEY_CHANNEL_FD => (3, 255)
  | _ => (0, UINT64_MAX)
  end.

Definition path_ok (v : bytes) : bool :=
  Bootstrap.egress_bootstrap_path_valid v && (len v <? SUN_PATH_SIZE).

Section Meaning.
Context `{Cli}.

(** The value a text gives its key, from the value it had. *)
Definition meaning (k : egress_cli_config_key_t) (v : bytes) (old : value) : option value :=
  match old with
  | VNone => if beq v (str "1") then Some VNone else None
  | VEndpoint _ _ _ => '(host, port) ← parse_endpoint v 64; Some (VEndpoint host port true)
  | VText _ =>
      if bool_decide (k = EGRESS_CLI_KEY_CHANNEL_LISTEN_UNIX) && negb (path_ok v) then None
      else Some (VText (Some v))
  | VPeer _ _ =>
      i ← parse_choice v unix_peer_choices;
      Some (VPeer (if (i =? 0)%nat then MAELYS_EGRESS_UNIX_PEER_AUTHENTICATED
                   else MAELYS_EGRESS_UNIX_PEER_SAME_EUID) true)
  | VList ds =>
      if EGRESS_CLI_MAX_DESTINATIONS <=? len ds then None
      else '(host, port) ← parse_endpoint v 254;
      if port =? 0 then None
      else Some (VList (ds ++ [Destination.Make host port
        (bool_decide (k = EGRESS_CLI_KEY_ALLOW_PRIVATE))
        (bool_decide (k = EGRESS_CLI_KEY_ALLOW_TLS_SNI))]))
  | VFlag _ =>
      if beq v (str "true") then Some (VFlag true)
      else if beq v (str "false") then Some (VFlag false) else None
  | VNumber _ => n ← parse_u64_decimal v (number_range k).1 (number_range k).2; Some (VNumber n)
  end.

Lemma components_loop_path fuel part :
  components_loop fuel part = Bootstrap.path_loop fuel part.
Proof.
  revert part. induction fuel as [|fuel IH]; intros part; [done|].
  cbn [components_loop Bootstrap.path_loop].
  set (n := match index_of c_slash part with Some i => i | None => length part end).
  assert (En : match index_of c_slash part with Some i => Z.of_nat i | None => len part end = Z.of_nat n)
    by (unfold n; by destruct (index_of c_slash part)).
  rewrite En.
  assert (Et : ((n =? 2)%nat && beq (take 2 part) (str "..")) =
    ((Z.of_nat n =? 2) && (at_ part 0 =? c_dot) && (at_ part 1 =? c_dot))).
  { destruct (Nat.eqb_spec n 2) as [E2|]; [|by destruct (Z.eqb_spec (Z.of_nat n) 2); [lia|]].
    rewrite E2. cbn [Z.of_nat andb]. 
    assert (2 <= length part)%nat.
    { unfold n in E2. destruct (index_of c_slash part) eqn:E; [|lia].
      apply index_of_Some in E as (_ & _ & Hi). lia. }
    destruct part as [|x [|y part]]; simpl in *; [lia|lia|].
    unfold at_, str. simpl. by rewrite andb_true_r. }
  rewrite Et.
  replace (n =? 0)%nat with (Z.of_nat n =? 0) by (destruct (Z.eqb_spec (Z.of_nat n) 0), (Nat.eqb_spec n 0); lia).
  replace (n =? 1)%nat with (Z.of_nat n =? 1) by (destruct (Z.eqb_spec (Z.of_nat n) 1), (Nat.eqb_spec n 1); lia).
  destruct (_ || _ || _); [done|]. unfold n. destruct (index_of c_slash part) as [i|] eqn:E.
  - apply index_of_Some in E as (Ep & _ & Hi). rewrite <-IH. rewrite Ep at 1.
    rewrite drop_app_ge by (rewrite length_take; lia). rewrite length_take, Nat.min_l by lia.
    by rewrite Nat.sub_diag.
  - by rewrite drop_all.
Qed.

Lemma channel_path_ok v :
  (if negb (at_ v 0 =? c_slash) || (SUN_PATH_SIZE <=? len v) then false
   else components_loop (length v) (drop 1 v)) = path_ok v.
Proof.
  unfold path_ok, Bootstrap.egress_bootstrap_path_valid. rewrite components_loop_path.
  rewrite (Z.ltb_antisym SUN_PATH_SIZE (len v)).
  destruct v as [|x [|y v]]; [done| |].
  - rewrite andb_false_l. cbn [length drop Bootstrap.path_loop index_of]. by destruct (_ || _).
  - change (at_ (x :: y :: v) 0) with x. destruct (x =? c_slash); [|done]. cbn [negb orb].
    destruct (SUN_PATH_SIZE <=? len _); [by rewrite andb_false_r|]. by rewrite andb_true_r.
Qed.

(** Applying a line changes the value of its key, by [meaning], and no other. *)
Lemma apply_value_field copy s k v :
  match apply_value copy s k v with
  | Stored s' => meaning k v (field k s) = Some (field k s') /\
      forall k', slot k' <> slot k -> field k' s' = field k' s
  | Violated _ => meaning k v (field k s) = None
  | OutOfMemory => copy = false
  end.
Proof.
  destruct k; unfold apply_value, apply_number, apply_flag, apply_destination, own_text, meaning;
    cbn [field number_range fst snd].
  all: try rewrite <-channel_path_ok.
  all: unfold Settings.destination_count.
  all: repeat (case_match; simplify_eq/=); try done; try (by destruct copy).
  all: split; [done|]; intros k' Hk; by destruct k'.
Qed.
End Meaning.

Lemma field_ext s s' : (forall k, field k s = field k s') -> s = s'.
Proof.
  intros Hf.
  assert (Ha : Forall (fun k => field k s = field k s') config_keys) by (apply Forall_forall; auto).
  destruct s, s'. unfold config_keys in Ha. rewrite !Forall_cons in Ha. cbn in Ha.
  destruct_and! Ha. by simplify_eq.
Qed.

(** * Lines *)

(** Equality of concatenations up to their association. *)
Ltac apps := repeat (rewrite <-app_assoc; cbn [app]); reflexivity.

Definition eol (c : Z) : bool := (c =? c_lf) || (c =? c_cr).
Abbreviation all_blank := (Forall (fun c => blank c = true)).
Abbreviation all_eol := (Forall (fun c => eol c = true)).

Lemma rev_nonempty (s : bytes) : s <> [] -> rev s <> [].
Proof. intros Hs E. apply Hs. by rewrite <-(rev_involutive s), E. Qed.

Lemma drop_blanks_spec s : exists a, s = a ++ drop_blanks s /\ all_blank a.
Proof.
  induction s as [|c s (a & E & Ha)]; [by exists []|]. simpl.
  destruct (blank c) eqn:Eb; [|by exists []].
  exists (c :: a). split; [simpl; by f_equal|by constructor].
Qed.

Lemma drop_blanks_length s : (length (drop_blanks s) <= length s)%nat.
Proof. induction s as [|c s IH]; simpl; [lia|]. destruct (blank c); simpl; lia. Qed.

Lemma drop_blanks_idem s : drop_blanks (drop_blanks s) = drop_blanks s.
Proof. induction s as [|c s IH]; [done|]. simpl. destruct (blank c) eqn:E; simpl; [done|by rewrite E]. Qed.

Lemma drop_blanks_app a s : all_blank a -> drop_blanks (a ++ s) = drop_blanks s.
Proof. induction 1 as [|c a E _ IH]; [done|]. simpl. by rewrite E. Qed.

Lemma drop_blanks_keep s t : s <> [] -> drop_blanks s = s -> drop_blanks (s ++ t) = s ++ t.
Proof.
  intros Hn. destruct s as [|c s]; [done|]. simpl. destruct (blank c) eqn:E; [|done].
  intros Ed. apply (f_equal length) in Ed. pose proof (drop_blanks_length s). simpl in Ed. lia.
Qed.

Lemma trim_spec s : exists a b, s = a ++ trim s ++ b /\ all_blank a /\ all_blank b.
Proof.
  destruct (drop_blanks_spec s) as (a & Ea & Ha).
  destruct (drop_blanks_spec (rev (drop_blanks s))) as (b & Eb & Hb).
  exists a, (rev b). unfold trim. split_and!; [|done|by apply Forall_rev].
  rewrite Ea at 1. f_equal. apply (f_equal (@rev Z)) in Eb. by rewrite rev_involutive, rev_app_distr in Eb.
Qed.

Lemma trim_ends s : drop_blanks (trim s) = trim s /\ drop_blanks (rev (trim s)) = rev (trim s).
Proof.
  unfold trim. set (x := drop_blanks s). split; [|by rewrite rev_involutive, drop_blanks_idem].
  destruct (drop_blanks_spec (rev x)) as (b & Eb & Hb). set (y := drop_blanks (rev x)) in *.
  apply (f_equal (@rev Z)) in Eb. rewrite rev_involutive, rev_app_distr in Eb.
  destruct (rev y) as [|c r]; [done|]. simpl in Eb |- *.
  assert (Ex : drop_blanks x = x) by apply drop_blanks_idem.
  destruct (blank c) eqn:E; [|done]. exfalso. rewrite Eb in Ex. simpl in Ex. rewrite E in Ex.
  pose proof (drop_blanks_length (r ++ rev b)). apply (f_equal length) in Ex. simpl in Ex. lia.
Qed.

Lemma trim_trimmed s : trim (trim s) = trim s.
Proof.
  destruct (trim_ends s) as [E1 E2]. unfold trim at 1. rewrite E1, E2. apply rev_involutive.
Qed.

(** Blanks around a text that has none at its ends are all that is trimmed. *)
Lemma trim_padded a t b : all_blank a -> all_blank b -> t <> [] -> trim t = t -> trim (a ++ t ++ b) = t.
Proof.
  intros Ha Hb Hn Ht. destruct (trim_ends t) as [E1 E2]. rewrite Ht in E1, E2.
  unfold trim. rewrite drop_blanks_app by done. rewrite drop_blanks_keep by done.
  rewrite rev_app_distr, drop_blanks_app by (by apply Forall_rev). rewrite E2. apply rev_involutive.
Qed.

Lemma chomp_spec line : exists e, line = chomp line ++ e /\ all_eol e.
Proof.
  assert (Hr : forall l, exists e, l = e ++ chomp_rev l /\ all_eol e).
  { induction l as [|c l (e & E & He)]; [by exists []|]. simpl.
    destruct (_ || _) eqn:Eb; [|by exists []].
    exists (c :: e). split; [simpl; by f_equal|by constructor]. }
  destruct (Hr (rev line)) as (e & E & He). exists (rev e). unfold chomp. split; [|by apply Forall_rev].
  apply (f_equal (@rev Z)) in E. by rewrite rev_involutive, rev_app_distr in E.
Qed.

Lemma chomp_rev_length l : (length (chomp_rev l) <= length l)%nat.
Proof. induction l as [|c l IH]; simpl; [lia|]. destruct (_ || _); simpl; lia. Qed.

(** The last byte belongs to no end of line. *)
Definition ends_line (t : bytes) : Prop := chomp t = t.

Lemma chomp_rev_app a l : all_eol a -> chomp_rev (a ++ l) = chomp_rev l.
Proof. induction 1 as [|c a E _ IH]; [done|]. simpl. unfold eol in E. by rewrite E. Qed.

Lemma chomp_rev_idem l : chomp_rev (chomp_rev l) = chomp_rev l.
Proof. induction l as [|c l IH]; [done|]. simpl. destruct (_ || _) eqn:E; simpl; [done|by rewrite E]. Qed.

Lemma chomp_app t z : ends_line t -> all_eol z -> chomp (t ++ z) = t.
Proof.
  unfold ends_line, chomp. intros Ht Hz. rewrite rev_app_distr, chomp_rev_app by (by apply Forall_rev).
  done.
Qed.

Lemma chomp_ends line : ends_line (chomp line).
Proof. unfold ends_line, chomp. by rewrite rev_involutive, chomp_rev_idem. Qed.

(** Only the last byte counts. *)
Lemma ends_line_snoc t c : ends_line (t ++ [c]) <-> eol c = false.
Proof.
  unfold ends_line, chomp, eol. rewrite rev_app_distr. simpl. destruct (_ || _) eqn:E.
  - split; [|done]. intros Ec. exfalso. apply (f_equal length) in Ec.
    pose proof (chomp_rev_length (rev t)) as Hr. rewrite length_rev, length_app in Ec.
    rewrite length_rev in Hr. simpl in Ec. lia.
  - split; [done|]. intros _. simpl. by rewrite rev_involutive.
Qed.

Lemma ends_line_app t u : u <> [] -> ends_line (t ++ u) <-> ends_line u.
Proof.
  intros Hu. destruct u as [|c u _] using rev_ind; [done|].
  by rewrite app_assoc, !ends_line_snoc.
Qed.

(** [getline] cuts the bytes at every newline and loses none. *)
Lemma getlines_concat s : concat (getlines s) = s.
Proof.
  induction s as [|c s IH]; [done|]. simpl. destruct (Z.eqb_spec c c_lf) as [->|]; [simpl; by f_equal|].
  destruct (getlines s); simpl in *; by rewrite IH.
Qed.

Lemma getlines_shape s :
  Forall (fun line => exists body e, line = body ++ e /\ c_lf ∉ body /\ (e = [] \/ e = [c_lf])) (getlines s).
Proof.
  induction s as [|c s IH]; simpl; [constructor|]. destruct (Z.eqb_spec c c_lf) as [->|Hc].
  - constructor; [|done]. exists [], [c_lf]. split_and!; [done|apply not_elem_of_nil|by right].
  - destruct (getlines s) as [|line lines].
    + constructor; [|constructor]. exists [c], []. split_and!; [done| |by left]. set_solver.
    + apply Forall_cons in IH as [(body & e & -> & Hb & He) IH]. constructor; [|done].
      exists (c :: body), e. split_and!; [done|set_solver|done].
Qed.

Lemma getlines_app body s : c_lf ∉ body -> getlines (body ++ c_lf :: s) = (body ++ [c_lf]) :: getlines s.
Proof.
  induction body as [|c body IH]; intros Hb; [done|].
  apply not_elem_of_cons in Hb as [Hc Hb]. simpl. destruct (Z.eqb_spec c c_lf); [congruence|].
  by rewrite IH.
Qed.

Lemma chomp_no_newline line body e :
  line = body ++ e -> c_lf ∉ body -> (e = [] \/ e = [c_lf]) -> c_lf ∉ chomp line.
Proof.
  intros -> Hb He. destruct (chomp_spec (body ++ e)) as (x & E & Hx).
  destruct He as [->| ->].
  - rewrite app_nil_r in *. intros Hc. apply Hb. rewrite E. set_solver.
  - destruct x as [|y x _] using rev_ind.
    + exfalso. rewrite app_nil_r in E. unfold chomp in E.
      rewrite rev_app_distr in E. simpl in E. apply (f_equal (@rev Z)) in E.
      rewrite rev_app_distr, rev_involutive in E. simpl in E.
      pose proof (chomp_rev_length (rev body)). apply (f_equal length) in E. simpl in E. lia.
    + rewrite app_assoc in E. apply app_inj_tail in E as [E _]. intros Hc. apply Hb. rewrite E. set_solver.
Qed.

(** * Endpoints *)

(** The hosts an endpoint can name: any bytes in brackets but the closing one,
    or without brackets any bytes but a colon, no bracket or blank first. *)
Record host_ok (capacity : Z) (h : bytes) : Prop := {
  host_length : 1 <= len h < capacity;
  host_nul : 0 ∉ h;
  host_line : c_lf ∉ h;
  host_form : c_rbracket ∉ h \/ (c_colon ∉ h /\ at_ h 0 <> c_lbracket /\ drop_blanks h = h);
}.

(** A text that a line can carry. *)
Record text_ok (t : bytes) : Prop := {
  text_nonempty : t <> [];
  text_nul : 0 ∉ t;
  text_line : c_lf ∉ t;
  text_trimmed : trim t = t;
}.

Definition print_endpoint (h : bytes) (p : Z) : bytes :=
  if has_char c_rbracket h then h ++ c_colon :: decimal p
  else c_lbracket :: h ++ c_rbracket :: c_colon :: decimal p.

Lemma port_loop_range text p n : port_loop text p = Some n -> 0 <= p <= 65535 -> 0 <= n <= 65535.
Proof.
  revert p. induction text as [|c text IH]; intros p; simpl; [naive_solver lia|].
  destruct (is_digit c) eqn:Ed; [|done]. cbn [negb]. destruct (_ >? _) eqn:Eg; [done|].
  intros E Hp. apply (IH _ E). unfold is_digit, in_range in Ed. bool_simp. lia.
Qed.

Lemma port_loop_digits text p :
  Forall (fun c => is_digit c = true) text ->
  0 <= p -> fold_left (fun v c => v * 10 + (c - c_0)) text p <= 65535 ->
  port_loop text p = Some (fold_left (fun v c => v * 10 + (c - c_0)) text p).
Proof.
  intros Hd. revert p. induction Hd as [|c text Hc Hd IH]; intros p Hp Hn; [done|]. simpl in *.
  rewrite Hc. cbn [negb].
  assert (0 <= c - c_0 <= 9) by (unfold is_digit, in_range in Hc; bool_simp; lia).
  assert (Hm : p * 10 + (c - c_0) <= fold_left (fun v c => v * 10 + (c - c_0)) text (p * 10 + (c - c_0))).
  { clear IH Hn. assert (H0 : 0 <= p * 10 + (c - c_0)) by lia. revert H0.
    generalize (p * 10 + (c - c_0)) as q. induction Hd as [|d text Hdg Hd IH]; intros q Hq; simpl; [lia|].
    assert (0 <= d - c_0) by (unfold is_digit, in_range in Hdg; bool_simp; lia).
    specialize (IH (q * 10 + (d - c_0)) ltac:(lia)). lia. }
  destruct (Z.gtb_spec (p * 10 + (c - c_0)) 65535); [lia|]. apply IH; lia.
Qed.

Lemma port_loop_decimal p : 0 <= p <= 65535 -> port_loop (decimal p) 0 = Some p.
Proof.
  intros Hp. pose proof (undecimal_decimal p ltac:(unfold is_u64; lia)) as E. unfold undecimal in E.
  rewrite port_loop_digits; [by f_equal|apply decimal_digits; lia|lia|lia].
Qed.

Lemma nth_hd_drop (l : bytes) n : nth n l 0 = hd 0 (drop n l).
Proof. revert n. induction l as [|x l IH]; intros [|n]; simpl; auto. Qed.

(** What an endpoint splits into determines it, up to the brackets. *)
Lemma split_endpoint_Some v h t :
  split_endpoint v = Some (h, t) ->
  (v = c_lbracket :: h ++ c_rbracket :: c_colon :: t /\ c_rbracket ∉ h) \/
  (v = h ++ c_colon :: t /\ c_colon ∉ h /\ at_ v 0 <> c_lbracket).
Proof.
  unfold split_endpoint. destruct (Z.eqb_spec (at_ v 0) c_lbracket) as [E0|E0].
  - destruct (index_of c_rbracket v) as [e|] eqn:Ee; [|done].
    apply index_of_Some in Ee as (Ep & Hc & He).
    destruct v as [|x v]; [done|]. change (x = c_lbracket) in E0. subst x.
    destruct e as [|e]; [done|]. simpl in Ep. injection Ep as Ep.
    destruct (Z.eqb_spec (at_ (c_lbracket :: v) (Z.of_nat (S e) + 1)) c_colon) as [E1|]; [|done].
    intros [= <- <-]. left. simpl in Hc. apply not_elem_of_cons in Hc as [_ Hc].
    split; [|by rewrite drop_0]. rewrite drop_0. f_equal. rewrite Ep at 1. f_equal. f_equal.
    unfold at_ in E1. replace (Z.to_nat (Z.of_nat (S e) + 1)) with (S (S e)) in E1 by lia.
    cbn [nth] in E1. rewrite nth_hd_drop in E1. cbn [drop].
    replace (drop (e + 2) v) with (drop 1 (drop (S e) v)) by (rewrite drop_drop; f_equal; lia).
    destruct (drop (S e) v); simpl in *; by subst.
  - destruct (last_index_of c_colon v) as [l|]; [|done].
    destruct (index_of c_colon v) as [i|] eqn:Ei; [|done].
    destruct (bool_decide_reflect (i = l)) as [->|]; [|done]. intros [= <- <-]. right.
    apply index_of_Some in Ei as (Ep & Hc & Hi). rewrite Nat.add_1_r. done.
Qed.

Lemma parse_endpoint_ok v capacity h p :
  text_ok v -> parse_endpoint v capacity = Some (h, p) -> host_ok capacity h /\ 0 <= p <= 65535.
Proof.
  intros [Hn H0 Hl Ht]. unfold parse_endpoint.
  destruct (split_endpoint v) as [[h' t]|] eqn:Es; [|done].
  destruct (_ || _) eqn:Eg; [done|]. destruct (port_loop t 0) as [n|] eqn:Ep; [|done].
  intros [= <- <-]. split; [|exact (port_loop_range _ _ _ Ep ltac:(lia))]. bool_simp.
  assert (Hlen : 1 <= len h' < capacity) by (pose proof (len_nonneg h'); lia).
  apply split_endpoint_Some in Es as [[Ev Hb]|(Ev & Hc & Hb)].
  - split; [done|rewrite Ev in H0; set_solver|rewrite Ev in Hl; set_solver|by left].
  - split; [done|rewrite Ev in H0; set_solver|rewrite Ev in Hl; set_solver|]. right.
    destruct h' as [|x h']; [rewrite len_nil in Hlen; lia|].
    assert (Hx : at_ v 0 = x) by (by rewrite Ev). split_and!; [done|by rewrite <-Hx|].
    destruct (trim_ends v) as [E1 _]. rewrite Ht, Ev in E1. simpl in E1 |- *.
    destruct (blank x); [|done]. exfalso. pose proof (drop_blanks_length (h' ++ c_colon :: t)).
    apply (f_equal length) in E1. simpl in E1. lia.
Qed.

Lemma digit_not_blank c : is_digit c = true -> blank c = false.
Proof. unfold is_digit, in_range, blank. lia. Qed.

(** A text that begins with no blank and ends with a digit is trimmed. *)
Lemma trim_ended a d : drop_blanks a = a -> a <> [] -> d <> [] ->
  Forall (fun c => is_digit c = true) d -> trim (a ++ d) = a ++ d.
Proof.
  intros Ha Hn Hd Hf. unfold trim. rewrite drop_blanks_keep by done. rewrite rev_app_distr.
  assert (Er : drop_blanks (rev d) = rev d).
  { apply Forall_rev in Hf. destruct (rev d) as [|c r]; [done|]. apply Forall_cons in Hf as [Hc _].
    simpl. by rewrite digit_not_blank. }
  rewrite drop_blanks_keep; [|by apply rev_nonempty|done].
  by rewrite <-rev_app_distr, rev_involutive.
Qed.

Lemma text_digits_free d c : Forall (fun x => is_digit x = true) d -> is_digit c = false -> c ∉ d.
Proof. intros Hf Hc Hin. rewrite Forall_forall in Hf. rewrite Hf in Hc by done. done. Qed.

Lemma print_endpoint_text capacity h p :
  host_ok capacity h -> 0 <= p -> text_ok (print_endpoint h p).
Proof.
  intros [Hlen H0 Hl Hf] Hp. unfold print_endpoint.
  pose proof (decimal_digits p Hp) as Hd.
  pose proof (text_digits_free _ 0 Hd eq_refl). pose proof (text_digits_free _ c_lf Hd eq_refl).
  assert (Hh : h <> []) by (intros ->; rewrite len_nil in Hlen; lia).
  destruct (has_char c_rbracket h) eqn:Eb.
  - apply has_char_spec in Eb. destruct Hf as [|(Hc & Hb & Hs)]; [done|].
    split; [by destruct h|set_solver|set_solver|].
    replace (h ++ c_colon :: decimal p) with ((h ++ [c_colon]) ++ decimal p) by (by rewrite <-app_assoc).
    apply trim_ended; [by apply drop_blanks_keep|by destruct h|apply decimal_nonempty|done].
  - split; [done|set_solver|set_solver|].
    replace (c_lbracket :: h ++ c_rbracket :: c_colon :: decimal p)
      with ((c_lbracket :: h ++ [c_rbracket; c_colon]) ++ decimal p) by (simpl; by rewrite <-app_assoc).
    by apply trim_ended; [| |apply decimal_nonempty|].
Qed.

Lemma parse_print_endpoint capacity h p :
  host_ok capacity h -> 0 <= p <= 65535 -> parse_endpoint (print_endpoint h p) capacity = Some (h, p).
Proof.
  intros [Hlen H0 Hl Hf] Hp. pose proof (decimal_digits p ltac:(lia)) as Hd.
  assert (Es : split_endpoint (print_endpoint h p) = Some (h, decimal p)).
  { unfold print_endpoint, split_endpoint. destruct (has_char c_rbracket h) eqn:Eb.
    - apply has_char_spec in Eb. destruct Hf as [|(Hc & Hb & Hs)]; [done|].
      assert (Ea : at_ (h ++ c_colon :: decimal p) 0 = at_ h 0) by (destruct h; [rewrite len_nil in Hlen; lia|done]).
      rewrite Ea. destruct (Z.eqb_spec (at_ h 0) c_lbracket); [done|].
      rewrite last_index_of_app, index_of_app by (done || by apply text_digits_free).
      rewrite bool_decide_true by done. rewrite take_app_length, Nat.add_1_r.
      rewrite drop_app_ge by lia. by replace (S (length h) - length h)%nat with 1%nat by lia.
    - apply has_char_false in Eb. change (at_ (c_lbracket :: ?x) 0) with c_lbracket. rewrite Z.eqb_refl.
      change (c_lbracket :: h ++ c_rbracket :: c_colon :: decimal p)
        with ((c_lbracket :: h) ++ c_rbracket :: c_colon :: decimal p).
      rewrite index_of_app by set_solver.
      unfold at_. replace (Z.to_nat (Z.of_nat (length (c_lbracket :: h)) + 1))
        with (length (c_lbracket :: h) + 1)%nat by lia.
      rewrite app_nth2_plus. cbn [nth]. rewrite Z.eqb_refl. rewrite take_app_length. cbn [drop].
      rewrite drop_0. f_equal. f_equal. rewrite drop_app_ge by lia.
      by replace (length (c_lbracket :: h) + 2 - length (c_lbracket :: h))%nat with 2%nat by lia. }
  unfold parse_endpoint. rewrite Es.
  assert (Hn : len (decimal p) <> 0).
  { pose proof (decimal_nonempty p) as Hn. unfold len. by destruct (decimal p). }
  destruct (_ || _) eqn:Eg; [bool_simp; lia|]. by rewrite port_loop_decimal.
Qed.

(** * The mask of the keys seen *)

Definition mask_of (seen : Z) (ks : list egress_cli_config_key_t) : Prop :=
  forall i, Z.testbit seen i = true <-> exists k, k ∈ ks /\ i = key_number k.

Definition channel_key (k : egress_cli_config_key_t) : bool :=
  key_number EGRESS_CLI_KEY_CHANNEL_LISTEN_UNIX <=? key_number k.

Lemma key_number_range k : 0 <= key_number k < 29.
Proof. destruct k; simpl; lia. Qed.

Lemma key_number_inj k k' : key_number k = key_number k' -> k = k'.
Proof. destruct k, k'; done. Qed.

Lemma key_bit_testbit k i : Z.testbit (key_bit k) i = true <-> i = key_number k.
Proof.
  unfold key_bit. pose proof (key_number_range k). rewrite Z.shiftl_1_l, Z.pow2_bits_eqb by lia.
  rewrite Z.eqb_eq. lia.
Qed.

Lemma bits_testbit ks i : Z.testbit (bits ks) i = true <-> exists k, k ∈ ks /\ i = key_number k.
Proof.
  induction ks as [|k ks IH]; simpl.
  - rewrite Z.bits_0. set_solver.
  - rewrite Z.lor_spec, orb_true_iff, IH, key_bit_testbit. set_solver.
Qed.

Lemma channel_keys_testbit i :
  Z.testbit channel_keys i = true <-> key_number EGRESS_CLI_KEY_CHANNEL_LISTEN_UNIX <= i < 32.
Proof.
  unfold channel_keys, u32. simpl key_number. destruct (Z.neg_nonneg_cases i) as [Hi|Hi].
  { rewrite Z.testbit_neg_r by lia. lia. }
  change (2 ^ 32 - 1) with (Z.ones 32). destruct (Z.ltb_spec i 32).
  - rewrite Z.mod_pow2_bits_low, Z.shiftl_spec by lia. rewrite Z.testbit_ones by lia. lia.
  - rewrite Z.mod_pow2_bits_high by lia. lia.
Qed.

Lemma any_seen_spec seen mask : 0 <= mask ->
  any_seen seen mask = true <-> exists i, Z.testbit seen i = true /\ Z.testbit mask i = true.
Proof.
  intros Hm. assert (0 <= Z.land seen mask) by (apply Z.land_nonneg; by right).
  unfold any_seen. rewrite negb_true_iff, Z.eqb_neq. split.
  - intros Hn. exists (Z.log2 (Z.land seen mask)). apply andb_true_iff. rewrite <-Z.land_spec.
    apply Z.bit_log2. lia.
  - intros (i & H1 & H2) E. assert (Hi : Z.testbit (Z.land seen mask) i = true)
      by (by rewrite Z.land_spec, H1, H2).
    by rewrite E, Z.bits_0 in Hi.
Qed.

Lemma key_bit_nonneg k : 0 <= key_bit k.
Proof. unfold key_bit. apply Z.shiftl_nonneg. lia. Qed.

Lemma bits_nonneg ks : 0 <= bits ks.
Proof. induction ks; simpl; [lia|]. apply Z.lor_nonneg. split; [apply key_bit_nonneg|done]. Qed.

Section Mask.
Context (seen : Z) (ks : list egress_cli_config_key_t) (Hm : mask_of seen ks).

Lemma any_seen_mask mask : 0 <= mask ->
  any_seen seen mask = true <-> exists k, k ∈ ks /\ Z.testbit mask (key_number k) = true.
Proof using Hm.
  intros H0. rewrite any_seen_spec by done. split.
  - intros (i & (k & Hk & ->)%Hm & Hi). by exists k.
  - intros (k & Hk & Hi). exists (key_number k). split; [|done]. apply Hm. by exists k.
Qed.

Lemma any_seen_bits gs : any_seen seen (bits gs) = true <-> exists k, k ∈ ks /\ k ∈ gs.
Proof using Hm.
  rewrite any_seen_mask by apply bits_nonneg. split.
  - intros (k & Hk & (k' & Hk' & E)%bits_testbit). apply key_number_inj in E as ->. by exists k'.
  - intros (k & H1 & H2). exists k. split; [done|]. apply bits_testbit. by exists k.
Qed.

Lemma any_seen_bit k : any_seen seen (key_bit k) = true <-> k ∈ ks.
Proof using Hm.
  rewrite any_seen_mask by apply key_bit_nonneg. split.
  - intros (k' & Hk & E%key_bit_testbit). by apply key_number_inj in E as ->.
  - intros Hk. exists k. by rewrite key_bit_testbit.
Qed.

Lemma any_seen_channel : any_seen seen channel_keys = true <-> exists k, k ∈ ks /\ channel_key k = true.
Proof using Hm.
  rewrite any_seen_mask by done. unfold channel_key. split.
  - intros (k & Hk & E%channel_keys_testbit). exists k. split; [done|]. apply Z.leb_le; lia.
  - intros (k & Hk & E%Z.leb_le). pose proof (key_number_range k). exists k.
    split; [done|]. apply channel_keys_testbit. lia.
Qed.

Lemma mask_snoc k : mask_of (Z.lor seen (key_bit k)) (ks ++ [k]).
Proof using Hm.
  intros i. rewrite Z.lor_spec, orb_true_iff, key_bit_testbit, (Hm i). set_solver.
Qed.
End Mask.

Lemma mask_nil : mask_of 0 [].
Proof. intros i. rewrite Z.bits_0. set_solver. Qed.

(** * The catalog *)

(** The entry of a key. *)
Definition catalog (k : egress_cli_config_key_t) : egress_cli_config_spec_t :=
  nth (Z.to_nat (key_number k)) config_specs
    (Spec [] k EGRESS_CLI_CONFIG_NONE false false false false None None None None None []).

Lemma catalog_key k : key (catalog k) = k.
Proof. by destruct k. Qed.

Lemma catalog_find k : egress_cli_config_find (name (catalog k)) = Some (catalog k).
Proof. by destruct k. Qed.

Lemma config_find_Some text spec :
  egress_cli_config_find text = Some spec -> spec = catalog (key spec) /\ text = name spec.
Proof.
  intros [Hin E]%find_some. apply beq_spec in E. split; [|done].
  assert (Hall : Forall (fun spec => spec = catalog (key spec)) config_specs)
    by (repeat (apply Forall_cons_2; [reflexivity|]); apply Forall_nil_2).
  rewrite Forall_forall in Hall. apply Hall. by apply list_elem_of_In.
Qed.

(** * Loading as a relation *)

(** The settings of a file that sets nothing: the defaults of the catalog. *)
Definition default_settings : settings :=
  initial_settings <| Settings.channel_connect_timeout_ms := 5000 |>
    <| Settings.channel_handshake_timeout_ms := 5000 |> <| Settings.channel_max_clients := 128 |>
    <| Settings.channel_fd := 4 |> <| Settings.channel_exec_by_path := false |>.

Abbreviation entry := (egress_cli_config_key_t * bytes)%type.

(** The entry [name = value], with blanks around both and the end of the line. *)
Definition entry_line (line : bytes) (e : entry) : Prop :=
  exists a b c d z, line = a ++ name (catalog e.1) ++ b ++ c_eq :: c ++ e.2 ++ d ++ z /\
    all_blank a /\ all_blank b /\ all_blank c /\ all_blank d /\ all_eol z /\ ends_line (e.2 ++ d).

(** A line that is empty or a comment. *)
Definition idle_line (line : bytes) : Prop :=
  exists a z, line = a ++ z /\ all_blank a /\ (all_eol z \/ exists rest, z = c_hash :: rest).

Inductive reads : list bytes -> list entry -> Prop :=
| reads_nil : reads [] []
| reads_idle line lines es : idle_line line -> reads lines es -> reads (line :: lines) es
| reads_entry line lines e es : entry_line line e -> reads lines es -> reads (line :: lines) (e :: es).

Section Loads.
Context `{Cli}.

(** The settings a list of entries gives: scalar keys once, TLS keys in a
    TLS-enabled binary, each entry changing the value of its key by [meaning]. *)
Inductive loads (tls : bool) : list entry -> settings -> Prop :=
| loads_nil : loads tls [] default_settings
| loads_entry es s k v s' :
    loads tls es s -> text_ok v ->
    (repeatable (catalog k) = true \/ k ∉ es.*1) ->
    (tls_only (catalog k) = true -> tls = true) ->
    meaning k v (field k s) = Some (field k s') ->
    (forall k', slot k' <> slot k -> field k' s' = field k' s) ->
    loads tls (es ++ [(k, v)]) s'.

Lemma apply_defaults_spec `{!CliLaws} : apply_defaults config_specs initial_settings = Some default_settings.
Proof.
  assert (Hn : forall lo hi n t, decimal n = t -> is_u64 n -> lo <= n <= hi ->
    parse_u64_decimal t lo hi = Some n) by (intros lo hi n t <- ?; by apply parse_decimal_plain).
  unfold config_specs.
  cbn [apply_defaults default_value key key_number Z.leb Z.compare Pos.compare Pos.compare_cont].
  unfold apply_value, apply_number, apply_flag.
  rewrite (Hn 1 600000 5000), (Hn 1 60000 5000), (Hn 1 4096 128), (Hn 3 255 4)
    by (reflexivity || (unfold is_u64; lia)).
  reflexivity.
Qed.

(** A line that is accepted is idle or an entry. *)
Lemma load_line_Next tls copy s seen n line s' seen' es :
  mask_of seen es.*1 -> (exists body e, line = body ++ e /\ c_lf ∉ body /\ (e = [] \/ e = [c_lf])) ->
  loads tls es s -> load_line tls copy s seen n line = Next s' seen' ->
  len line <= 4096 /\ 0 ∉ line /\
  ((idle_line line /\ s' = s /\ seen' = seen) \/
   exists e, entry_line line e /\ loads tls (es ++ [e]) s' /\ mask_of seen' (es ++ [e]).*1).
Proof.
  intros Hm (body & e & Eline & Hb & He) Hs. unfold load_line.
  destruct (_ || _) eqn:Eg; [done|]. apply orb_false_iff in Eg as [Elen E0].
  apply Z.ltb_ge in Elen. apply has_char_false in E0.
  destruct (chomp_spec line) as (z & Ez & Hz).
  pose proof (chomp_no_newline line body e Eline Hb He) as Hlf.
  destruct (trim_spec (chomp line)) as (a & b & Et & Ha & Hbl).
  destruct (_ || _) eqn:Eg.
  - intros [= <- <-]. split_and!; [done|done|]. left. split_and!; [|done|done].
    destruct (trim (chomp line)) as [|x t] eqn:Etr.
    + exists (a ++ b), z. split_and!; [by rewrite Ez, Et at 1|by apply Forall_app|by left].
    + exists a, (x :: t ++ b ++ z). split_and!; [|done|right].
      * rewrite Ez, Et at 1. by rewrite <-!app_assoc.
      * change (at_ (x :: t) 0) with x in Eg. rewrite len_cons in Eg. pose proof (len_nonneg t).
        destruct (Z.eqb_spec (1 + len t) 0); [lia|]. apply Z.eqb_eq in Eg as ->. eauto.
  - destruct (index_of c_eq _) as [i|] eqn:Ei; [|done]. apply index_of_Some in Ei as (Ei & _ & _).
    set (l := take i (trim (chomp line))) in *. set (r := drop (S i) (trim (chomp line))) in *.
    destruct (trim_spec l) as (a1 & b1 & El & Ha1 & Hb1). destruct (trim_spec r) as (a2 & b2 & Er & Ha2 & Hb2).
    unfold load_entry. destruct (egress_cli_config_find _) as [spec|] eqn:Ef; [|done].
    apply config_find_Some in Ef as [Espec Ename].
    destruct (len (trim r) =? 0) eqn:Ev; [done|].
    destruct (negb (repeatable spec) && _) eqn:Ed; [done|].
    destruct (tls_only spec && negb tls) eqn:Etls; [done|].
    pose proof (apply_value_field copy s (key spec) (trim r)) as Hap.
    destruct (apply_value _ _ _ _) as [s1| |]; [|done|done]. destruct Hap as [Hmean Hframe].
    intros [= <- <-]. split_and!; [done|done|]. right. exists (key spec, trim r).
    assert (Ec : chomp line = a ++ (a1 ++ trim l ++ b1) ++ c_eq :: (a2 ++ trim r ++ b2) ++ b).
    { rewrite <-El, <-Er. rewrite Et at 1. rewrite Ei at 1. by rewrite <-!app_assoc. }
    split_and!.
    + exists (a ++ a1), b1, a2, (b2 ++ b), z. cbn [fst snd]. rewrite <-Espec, <-Ename.
      split_and!; [|by apply Forall_app|done|done|by apply Forall_app|done|].
      { rewrite Ez, Ec at 1. apps. }
      apply (ends_line_app (a ++ a1 ++ trim l ++ b1 ++ c_eq :: a2)); [by intros [E _]%app_nil; rewrite E in Ev|].
      replace (_ ++ _) with (chomp line); [apply chomp_ends|].
      rewrite Ec. apps.
    + econstructor; [done| | | |done|done].
      * assert (Hsub : forall c, c ∈ trim r -> c ∈ chomp line).
        { intros c Hc. rewrite Et, Ei, Er. set_solver. }
        split; [by intros E; rewrite E in Ev| | |apply trim_trimmed].
        -- intros Hc. apply E0. rewrite Ez. apply Hsub in Hc. set_solver.
        -- intros Hc. by apply Hlf, Hsub.
      * rewrite <-Espec. destruct (repeatable spec); [by left|right]. cbn [negb andb] in Ed.
        intros Hin. apply (any_seen_bit _ _ Hm) in Hin. congruence.
      * rewrite <-Espec. intros Hto. rewrite Hto in Etls. by destruct tls.
    + rewrite fmap_app. by apply mask_snoc.
Qed.

Lemma load_lines_Next tls copy lines : forall s seen n s' seen' es,
  mask_of seen es.*1 ->
  Forall (fun line => exists body e, line = body ++ e /\ c_lf ∉ body /\ (e = [] \/ e = [c_lf])) lines ->
  loads tls es s -> load_lines tls copy s seen n lines = Next s' seen' ->
  exists es', reads lines es' /\ loads tls (es ++ es') s' /\ mask_of seen' (es ++ es').*1 /\
    Forall (fun line => len line <= 4096 /\ 0 ∉ line) lines.
Proof.
  induction lines as [|line lines IH]; intros s seen n s' seen' es Hm Hl Hs.
  - intros [= <- <-]. exists []. rewrite app_nil_r. split_and!; [constructor|done|done|constructor].
  - simpl. destruct (load_line _ _ _ _ _ _) as [s1 seen1|] eqn:E; [|done]. intros E'.
    apply Forall_cons in Hl as [Hline Hl].
    destruct (load_line_Next _ _ _ _ _ _ _ _ _ Hm Hline Hs E) as (Hlen & H0 & Hc).
    destruct Hc as [(Hi & -> & ->)|(e & He & Hs1 & Hm1)].
    + destruct (IH _ _ _ _ _ _ Hm Hl Hs E') as (es' & Hr & Hs' & Hm' & Hf).
      exists es'. split_and!; [by constructor|done|done|by constructor].
    + destruct (IH _ _ _ _ _ _ Hm1 Hl Hs1 E') as (es' & Hr & Hs' & Hm' & Hf).
      exists (e :: es'). rewrite <-app_assoc in Hs', Hm'. simpl in Hs', Hm'.
      split_and!; [by constructor|done|done|by constructor].
Qed.
(** The names of the catalog have no blank, no equals sign and no hash. *)
Definition name_ok (n : bytes) : bool :=
  negb (len n =? 0) && forallb (fun c => negb (blank c) && negb (c =? c_eq) && negb (c =? c_hash)) n.

Lemma catalog_name k : name_ok (name (catalog k)) = true.
Proof. by destruct k. Qed.

Lemma drop_blanks_clean n : forallb (fun c => negb (blank c)) n = true -> drop_blanks n = n.
Proof. destruct n as [|c n]; [done|]. simpl. by destruct (blank c). Qed.

Lemma trim_between p m q :
  p <> [] -> q <> [] -> drop_blanks p = p -> drop_blanks (rev q) = rev q -> trim (p ++ m ++ q) = p ++ m ++ q.
Proof.
  intros Hp Hq Ep Eq. unfold trim. rewrite drop_blanks_keep by done.
  rewrite app_assoc, rev_app_distr, drop_blanks_keep; [|by apply rev_nonempty|done].
  by rewrite <-rev_app_distr, rev_involutive.
Qed.

(** An entry is read as its key and value. *)
Lemma load_line_entry tls copy s seen n line e :
  entry_line line e -> text_ok e.2 -> len line <= 4096 -> 0 ∉ line ->
  load_line tls copy s seen n line = load_entry tls copy s seen n (name (catalog e.1)) e.2.
Proof.
  intros (a & b & c & d & z & Eline & Ha & Hb & Hc & Hd & Hz & Hend) Hv Hlen H0.
  destruct e as [k v]. cbn [fst snd] in *. destruct Hv as [Hn Hv0 _ Ht].
  set (nm := name (catalog k)) in *.
  assert (Hnm : nm <> [] /\ drop_blanks nm = nm /\ drop_blanks (rev nm) = rev nm /\
    c_eq ∉ nm /\ at_ nm 0 <> c_hash).
  { pose proof (catalog_name k) as Hk. fold nm in Hk. unfold name_ok in Hk.
    apply andb_true_iff in Hk as [Hk1 Hk2]. apply forallb_Forall in Hk2.
    assert (Hb' : Forall (fun c => negb (blank c) = true) nm)
      by (eapply Forall_impl; [exact Hk2|]; intros x Hx; simpl in *; by destruct (blank x)).
    assert (nm <> []) by (by intros E; rewrite E in Hk1).
    split_and!; [done| | | |].
    - apply drop_blanks_clean. by apply forallb_Forall.
    - apply drop_blanks_clean. apply forallb_Forall. by apply Forall_rev.
    - intros Hin. rewrite Forall_forall in Hk2. specialize (Hk2 _ Hin). done.
    - destruct nm as [|x nm']; [done|]. apply Forall_cons in Hk2 as [Hx _]. change (x <> c_hash).
      bool_simp. done. }
  destruct Hnm as (Hnm & En1 & En2 & Heq & Hhash). clearbody nm.
  destruct (trim_ends v) as [Ev1 Ev2]. rewrite Ht in Ev1, Ev2.
  unfold load_line. destruct (_ || _) eqn:Eg.
  { apply orb_true_iff in Eg as [Eg|Eg]; [bool_simp; lia|]. by apply has_char_spec in Eg. }
  clear Eg. assert (Ech : chomp line = a ++ (nm ++ (b ++ c_eq :: c) ++ v) ++ d).
  { replace line with ((a ++ (nm ++ (b ++ c_eq :: c) ++ v) ++ d) ++ z) by (rewrite Eline; apps).
    apply chomp_app; [|done].
    replace (_ ++ _) with ((a ++ nm ++ b ++ c_eq :: c) ++ v ++ d) by apps.
    apply ends_line_app; [|done]. by destruct v. }
  assert (Etr : trim (chomp line) = (nm ++ b) ++ c_eq :: c ++ v).
  { rewrite Ech, trim_padded; [apps|done|done|by destruct nm|].
    by apply trim_between. }
  rewrite Etr. destruct (_ || _) eqn:Eg2.
  { exfalso. destruct nm as [|x nm]; [done|]. apply orb_true_iff in Eg2 as [Eg2|Eg2]; bool_simp.
    - unfold len in Eg2. simpl in Eg2. lia.
    - done. }
  rewrite index_of_app.
  2: { intros [Hin|Hin]%elem_of_app; [done|]. rewrite Forall_forall in Hb. by specialize (Hb _ Hin). }
  rewrite take_app_length. f_equal.
  - apply (trim_padded [] nm b); [done|done|done|]. unfold trim. by rewrite En1, En2, rev_involutive.
  - rewrite drop_app_ge by lia. replace (S _ - _)%nat with 1%nat by lia. cbn [drop].
    rewrite <-(app_nil_r (c ++ v)), <-app_assoc. by apply trim_padded.
Qed.

Lemma load_line_idle tls copy s seen n line :
  idle_line line -> len line <= 4096 -> 0 ∉ line -> load_line tls copy s seen n line = Next s seen.
Proof.
  intros (a & z & -> & Ha & Hz) Hlen H0. unfold load_line. destruct (_ || _) eqn:Eg.
  { apply orb_true_iff in Eg as [Eg|Eg]; [bool_simp; lia|]. by apply has_char_spec in Eg. }
  clear Eg. destruct Hz as [Hz|(rest & ->)].
  - assert (Ech : chomp (a ++ z) = a).
    { apply chomp_app; [|done]. destruct a as [|c a _] using rev_ind; [done|].
      apply ends_line_snoc. apply Forall_app in Ha as [_ Ha]. apply Forall_cons in Ha as [Hc _].
      unfold blank in Hc. unfold eol. lia. }
    rewrite Ech. assert (Et : trim a = []); [|by rewrite Et].
    unfold trim. rewrite <-(app_nil_r a), drop_blanks_app by done. done.
  - destruct (chomp_spec (a ++ c_hash :: rest)) as (e & Ee & He).
    assert (Hr : exists r, chomp (a ++ c_hash :: rest) = a ++ c_hash :: r).
    { set (x := chomp _) in *. clearbody x.
      assert (Hx : (length (a ++ [c_hash]) <= length x)%nat).
      { destruct (Nat.le_gt_cases (length (a ++ [c_hash])) (length x)) as [|Hlt]; [done|]. exfalso.
        assert (Hin : c_hash ∈ e).
        { apply (f_equal (lookup (length a))) in Ee. rewrite list_lookup_middle in Ee by done.
          rewrite lookup_app_r in Ee by (rewrite length_app in Hlt; simpl in Hlt; lia).
          by eapply list_elem_of_lookup_2. }
        rewrite Forall_forall in He. by specialize (He _ Hin). }
      exists (drop (length (a ++ [c_hash])) x).
      rewrite <-(take_drop (length (a ++ [c_hash])) x) at 1.
      apply (f_equal (take (length (a ++ [c_hash])))) in Ee.
      rewrite (take_app_le x) in Ee by done. rewrite <-Ee.
      replace (a ++ c_hash :: rest) with ((a ++ [c_hash]) ++ rest) by apps.
      rewrite take_app_length. apps. }
    destruct Hr as (r & ->). destruct (trim_spec (a ++ c_hash :: r)) as (a' & b' & E & Ha' & Hb').
    destruct (trim_ends (a ++ c_hash :: r)) as [E1 _].
    assert (Hd : drop_blanks (a ++ c_hash :: r) = c_hash :: r) by (by rewrite drop_blanks_app).
    assert (Hh : at_ (trim (a ++ c_hash :: r)) 0 = c_hash).
    { unfold trim. rewrite Hd. change (rev (c_hash :: r)) with (rev r ++ [c_hash]).
      destruct (drop_blanks_spec (rev r ++ [c_hash])) as (q & Eq & Hq).
      destruct (drop_blanks (rev r ++ [c_hash])) as [|y l _] using rev_ind.
      - exfalso. rewrite app_nil_r in Eq. rewrite <-Eq in Hq. apply Forall_app in Hq as [_ Hq].
        by apply Forall_cons in Hq as [Hq _].
      - rewrite app_assoc in Eq. apply app_inj_tail in Eq as [_ <-].
        by rewrite rev_app_distr. }
    rewrite Hh, Z.eqb_refl, orb_true_r. done.
Qed.
End Loads.
