(* ===== verification/ConfigTheorems.v ===== *)
(** The theorems on the configuration file: what the loader accepts, what the
    settings it returns satisfy, and that every such settings can be written. *)

From S2P Require Import Prelude Common Codec Config ConfigFile ConfigFileFacts.

(** * Well-typed settings *)

Record destination_typed (d : Destination.egress_cli_destination_t) : Prop := {
  typed_host : host_ok 254 (Destination.host d);
  typed_port : 1 <= Destination.port d <= 65535;
  typed_flags : Destination.allow_private d && Destination.require_tls_sni d = false;
}.

Definition value_ok (k : egress_cli_config_key_t) (v : value) : Prop :=
  match v with
  | VNone | VFlag _ | VText None => True
  | VEndpoint h p true => host_ok 64 h /\ 0 <= p <= 65535
  | VEndpoint h p false => v = field k default_settings
  | VText (Some t) => text_ok t /\ (k = EGRESS_CLI_KEY_CHANNEL_LISTEN_UNIX -> path_ok t = true)
  | VPeer peer set => peer <> UNIX_PEER_OTHER /\
      (set = false -> peer = MAELYS_EGRESS_UNIX_PEER_AUTHENTICATED)
  | VList ds => len ds <= EGRESS_CLI_MAX_DESTINATIONS /\ Forall destination_typed ds
  | VNumber n => (number_range k).1 <= n <= (number_range k).2
  end.

(** A value some entry gave. *)
Definition value_set (v : value) : Prop :=
  match v with
  | VEndpoint _ _ set | VPeer _ set => set = true
  | VText t => is_Some t
  | VList ds => ds <> []
  | VNone | VFlag _ | VNumber _ => True
  end.

Definition proxy_key_list : list egress_cli_config_key_t :=
  [EGRESS_CLI_KEY_LISTEN; EGRESS_CLI_KEY_LISTEN_UNIX; EGRESS_CLI_KEY_UNIX_PEER;
   EGRESS_CLI_KEY_TOKEN_FILE; EGRESS_CLI_KEY_UNAUTHENTICATED_LOOPBACK;
   EGRESS_CLI_KEY_TLS_CERT; EGRESS_CLI_KEY_TLS_KEY; EGRESS_CLI_KEY_TLS_CA;
   EGRESS_CLI_KEY_REQUIRE_CLIENT_CERT].
Definition broker_key_list : list egress_cli_config_key_t :=
  [EGRESS_CLI_KEY_CHANNEL_HANDSHAKE_TIMEOUT_MS; EGRESS_CLI_KEY_CHANNEL_MAX_CLIENTS].
Definition exec_key_list : list egress_cli_config_key_t :=
  [EGRESS_CLI_KEY_CHANNEL_FD; EGRESS_CLI_KEY_CHANNEL_EXEC_BY_PATH].

Abbreviation at_default k s := (field k s = field k default_settings).

(** The constraints that concern values only. *)
Record values_ok (s : settings) : Prop := {
  ok_listener : is_Some (Settings.listen_unix s) -> Settings.listen_set s = false;
  ok_peer : Settings.unix_peer_set s = true -> is_Some (Settings.listen_unix s);
  ok_destinations : Settings.destinations s <> [];
  ok_authentication : Settings.channel_principal s = None -> Settings.token_file s = None ->
    Settings.unauthenticated_loopback s = true;
  ok_token : is_Some (Settings.token_file s) -> Settings.unauthenticated_loopback s = false;
  ok_unix_token : is_Some (Settings.listen_unix s) -> Settings.unauthenticated_loopback s = false;
  ok_quotas : Settings.unauthenticated_loopback s = true ->
    Settings.quota_connections s = 0 /\ Settings.quota_bytes s = 0 /\ Settings.quota_total_bytes s = 0;
  ok_audit : (is_Some (Settings.audit_log s) <-> is_Some (Settings.audit_key_file s)) /\
    (is_Some (Settings.audit_log s) <-> is_Some (Settings.audit_key_id s));
  ok_tls_pair : is_Some (Settings.tls_cert s) <-> is_Some (Settings.tls_key s);
  ok_mutual_tls : Settings.require_client_cert s = true -> is_Some (Settings.tls_ca s);
}.

(** The settings of an accepted file: every value of its type, the TLS keys
    absent from a binary without TLS, the keys of the other modes at their
    defaults, and the constraints between values. *)
Record settings_ok (tls : bool) (s : settings) : Prop := {
  ok_typed : forall k, value_ok k (field k s);
  ok_tls : tls = false -> forall k, tls_only (catalog k) = true -> at_default k s;
  ok_proxy : Settings.channel_principal s = None ->
    forall k, channel_key k = true -> at_default k s;
  ok_channel : is_Some (Settings.channel_principal s) -> Forall (fun k => at_default k s) proxy_key_list;
  ok_exec : Settings.channel_listen_unix s = None -> Forall (fun k => at_default k s) broker_key_list;
  ok_broker : is_Some (Settings.channel_listen_unix s) -> Forall (fun k => at_default k s) exec_key_list;
  ok_values : values_ok s;
}.

(** What the constraints refuse, on the keys of the entries and the values. *)
Record constraints_ok (ks : list egress_cli_config_key_t) (s : settings) : Prop := {
  con_channel : (exists k, k ∈ ks /\ channel_key k = true) -> is_Some (Settings.channel_principal s);
  con_exec : Settings.channel_listen_unix s = None -> Forall (fun k => k ∉ ks) broker_key_list;
  con_broker : is_Some (Settings.channel_listen_unix s) -> Forall (fun k => k ∉ ks) exec_key_list;
  con_proxy : is_Some (Settings.channel_principal s) -> Forall (fun k => k ∉ ks) proxy_key_list;
  con_values : values_ok s;
}.

Lemma is_some_true {A} (o : option A) : is_some o = true <-> is_Some o.
Proof. destruct o; simpl; split; intros Hs; eauto; [done|]. by destruct Hs. Qed.

Lemma is_some_false {A} (o : option A) : is_some o = false <-> o = None.
Proof. by destruct o. Qed.

Section Constraints.
Context (seen : Z) (ks : list egress_cli_config_key_t) (Hm : mask_of seen ks).

Lemma any_seen_none gs : any_seen seen (bits gs) = false <-> Forall (fun k => k ∉ ks) gs.
Proof using Hm.
  rewrite <-not_true_iff_false, (any_seen_bits _ _ Hm), Forall_forall. naive_solver.
Qed.

Lemma guard_None (b : bool) (x : bytes) (r : option bytes) :
  (if b then Some x else r) = None <-> b = false /\ r = None.
Proof. destruct b; naive_solver. Qed.

(** The guards of [check_constraints] on the values. *)
Definition values_refused (s : settings) : bool :=
  let token := is_some (Settings.token_file s) in
  let unix := is_some (Settings.listen_unix s) in
  let log := is_some (Settings.audit_log s) in
  let key_file := is_some (Settings.audit_key_file s) in
  let key_id := is_some (Settings.audit_key_id s) in
  let loopback := Settings.unauthenticated_loopback s in
  (unix && Settings.listen_set s) || (Settings.unix_peer_set s && negb unix) ||
  ((Settings.destination_count s =? 0) ||
   (negb (is_some (Settings.channel_principal s)) && negb token && negb loopback)) ||
  (token && loopback) || (unix && loopback) ||
  (loopback && (negb (Settings.quota_connections s =? 0) || negb (Settings.quota_bytes s =? 0) ||
     negb (Settings.quota_total_bytes s =? 0))) ||
  negb (Bool.eqb log key_file && Bool.eqb log key_id) ||
  (negb (Bool.eqb (is_some (Settings.tls_cert s)) (is_some (Settings.tls_key s))) ||
   (Settings.require_client_cert s && negb (is_some (Settings.tls_ca s)))).

(** Presence as a boolean, and case analysis on the booleans of the goal. *)
Ltac presence :=
  repeat match goal with
  | H : is_Some _ |- _ => apply is_some_true in H
  | H : @eq (option _) ?o None |- _ => apply is_some_false in H
  | |- is_Some _ => apply is_some_true
  | |- @eq (option _) ?o None => apply is_some_false
  end.

Ltac by_cases :=
  presence;
  repeat match goal with
  | H : context [is_some ?o] |- _ => destruct (is_some o)
  | |- context [is_some ?o] => destruct (is_some o)
  end; simpl in *; rewrite ?andb_true_r in *; bool_simp; try congruence.

Lemma values_refused_spec s : values_refused s = false <-> values_ok s.
Proof.
  unfold values_refused, Settings.destination_count. rewrite !orb_false_iff. split.
  - intros (((((([C1 C2] & [C3 C4]) & C5) & C6) & C7) & C8) & [C9 C10]).
    split; intros.
    + clear - C1 H. by_cases.
    + clear - C2 H. by_cases.
    + intros E. by rewrite E in C3.
    + clear - C4 H H0. by_cases.
    + clear - C5 H. by_cases.
    + clear - C6 H. by_cases.
    + rewrite H in C7. clear - C7. simpl in C7. bool_simp. done.
    + rewrite <-!is_some_true. clear - C8. by_cases; intuition congruence.
    + rewrite <-!is_some_true. clear - C9. by_cases; intuition congruence.
    + clear - C10 H. rewrite H in C10. by_cases.
  - intros [V1 V2 V3 V4 V5 V6 V7 [V8 V8'] V9 V10].
    rewrite <-is_some_true in V1, V2, V5, V6, V10. rewrite <-!is_some_true in V8, V8', V9.
    rewrite <-!is_some_false in V4.
    split_and!.
    + clear - V1. destruct (is_some _), (Settings.listen_set s); simpl; intuition congruence.
    + clear - V2. destruct (is_some _), (Settings.unix_peer_set s); simpl; intuition congruence.
    + clear - V3. destruct (Settings.destinations s); [done|]. unfold len. simpl. lia.
    + clear - V4. destruct (is_some (Settings.channel_principal s)), (is_some (Settings.token_file s)),
        (Settings.unauthenticated_loopback s); simpl; intuition congruence.
    + clear - V5. destruct (is_some _), (Settings.unauthenticated_loopback s); simpl; intuition congruence.
    + clear - V6. destruct (is_some _), (Settings.unauthenticated_loopback s); simpl; intuition congruence.
    + clear - V7. destruct (Settings.unauthenticated_loopback s); [|done].
      by destruct (V7 eq_refl) as (-> & -> & ->).
    + apply eq_true_iff_eq in V8 as <-, V8' as <-. by rewrite !eqb_reflx.
    + apply eq_true_iff_eq in V9 as <-. by rewrite eqb_reflx.
    + clear - V10. destruct (is_some (Settings.tls_ca s)), (Settings.require_client_cert s); simpl; intuition congruence.
Qed.

Lemma audit_parts_spec (a b c : bool) :
  (negb (Z.b2z a + Z.b2z b + Z.b2z c =? 0) && negb (Z.b2z a + Z.b2z b + Z.b2z c =? 3)) =
  negb (Bool.eqb a b && Bool.eqb a c).
Proof. by destruct a, b, c. Qed.

Lemma check_constraints_spec s : check_constraints s seen = None <-> constraints_ok ks s.
Proof using Hm.
  assert (E : check_constraints s seen = None <->
    (any_seen seen channel_keys && negb (is_some (Settings.channel_principal s)) = false /\
     negb (is_some (Settings.channel_listen_unix s)) && any_seen seen broker_keys = false /\
     is_some (Settings.channel_listen_unix s) && any_seen seen exec_keys = false /\
     is_some (Settings.channel_principal s) && any_seen seen proxy_keys = false) /\
    values_refused s = false).
  { unfold check_constraints, values_refused. rewrite !guard_None, audit_parts_spec, !orb_false_iff. tauto. }
  rewrite E, values_refused_spec. clear E.
  change broker_keys with (bits broker_key_list). change exec_keys with (bits exec_key_list).
  change proxy_keys with (bits proxy_key_list).
  rewrite !andb_false_iff, !negb_false_iff, !any_seen_none, !is_some_false, !is_some_true.
  assert (Ec : any_seen seen channel_keys = false <-> ~ exists k, k ∈ ks /\ channel_key k = true)
    by (by rewrite <-not_true_iff_false, (any_seen_channel _ _ Hm)).
  rewrite Ec. clear Ec. split.
  - intros ((C1 & C2 & C3 & C4) & V). split; [tauto| | | |done].
    + intros E. destruct C2 as [[x Hx]|]; [congruence|done].
    + intros [x Hx]. destruct C3; [congruence|done].
    + intros [x Hx]. destruct C4; [congruence|done].
  - intros [C1 C2 C3 C4 V]. split_and!; [| | | |done].
    + destruct (Settings.channel_principal s) eqn:E; [right; eauto|left; intros Hx].
      by destruct (C1 Hx).
    + destruct (Settings.channel_listen_unix s); [left; eauto|right; auto].
    + destruct (Settings.channel_listen_unix s); [right; eauto|by left].
    + destruct (Settings.channel_principal s); [right; eauto|by left].
Qed.
End Constraints.

(** * What a list of entries gives *)

Lemma field_slot k k' s : slot k = slot k' -> field k s = field k' s.
Proof. destruct k, k'; intros E; try done; inversion E. Qed.

Section Invariant.
Context `{Cli} {Hlaws : CliLaws}.

Lemma meaning_ok k v old new :
  text_ok v -> value_ok k old -> meaning k v old = Some new -> value_ok k new /\ value_set new.
Proof using Hlaws.
  intros Hv Ho. destruct old as [|h p set|t|peer set|ds|b|n]; simpl.
  - destruct (beq _ _); [|done]. by intros [= <-].
  - destruct (parse_endpoint v 64) as [[h' p']|] eqn:E; [|done]. intros [= <-].
    split; [|done]. by apply (parse_endpoint_ok v).
  - destruct (bool_decide _ && _) eqn:E; [done|]. intros [= <-]. split; [|by eexists]. split; [done|].
    intros ->. rewrite bool_decide_true in E by done. simpl in E. by bool_simp.
  - destruct (parse_choice _ _) as [i|]; [|done]. simpl. intros [= <-]. by destruct (i =? 0)%nat.
  - destruct (Z.leb_spec EGRESS_CLI_MAX_DESTINATIONS (len ds)); [done|].
    destruct (parse_endpoint v 254) as [[h p]|] eqn:E; [|done]. simpl.
    destruct (Z.eqb_spec p 0); [done|]. intros [= <-]. destruct Ho as [Hl Hf].
    apply (parse_endpoint_ok v) in E as [Hh Hp]; [|done]. split; [|by destruct ds].
    split; [rewrite len_app, len_cons, len_nil; lia|]. apply Forall_app. split; [done|].
    apply Forall_singleton. split; simpl; [done|lia|]. by destruct k.
  - destruct (beq _ _); [by intros [= <-]|]. destruct (beq _ _); [by intros [= <-]|done].
  - destruct (parse_u64_decimal _ _ _) as [m|] eqn:E; [|done]. simpl. intros [= <-].
    split; [|done]. by apply parse_decimal_range in E.
Qed.

(** Every value is typed; a key without entry has its default, a key with one
    has been set; the TLS keys need a TLS-enabled binary. *)
Record loaded (tls : bool) (es : list entry) (s : settings) : Prop := {
  loaded_typed : forall k, value_ok k (field k s);
  loaded_default : forall k, (forall k', k' ∈ es.*1 -> slot k' <> slot k) -> at_default k s;
  loaded_set : forall k, k ∈ es.*1 -> value_set (field k s);
  loaded_tls : forall k, k ∈ es.*1 -> tls_only (catalog k) = true -> tls = true;
}.

Lemma default_typed k : value_ok k (field k default_settings).
Proof. destruct k; simpl; try done; lia. Qed.

Lemma value_set_kept k v old new : value_set old -> meaning k v old = Some new -> value_set new.
Proof.
  destruct old as [|h p set|t|peer set|ds|b|n]; simpl; intros Hs.
  - destruct (beq _ _); [|done]. by intros [= <-].
  - destruct (parse_endpoint v 64) as [[h' p']|]; [|done]. by intros [= <-].
  - destruct (_ && _); [done|]. intros [= <-]. by eexists.
  - destruct (parse_choice _ _); [|done]. by intros [= <-].
  - destruct (_ <=? _); [done|]. destruct (parse_endpoint v 254) as [[h p]|]; [|done]. simpl.
    destruct (_ =? _); [done|]. intros [= <-]. by destruct ds.
  - destruct (beq _ _); [by intros [= <-]|]. destruct (beq _ _); [by intros [= <-]|done].
  - destruct (parse_u64_decimal _ _ _); [|done]. by intros [= <-].
Qed.

Lemma loads_loaded tls es s : loads tls es s -> loaded tls es s.
Proof using Hlaws.
  induction 1 as [|es s k v s' Hs [IH1 IH2 IH3 IH4] Hv Hrep Htls Hm Hf].
  - split; [apply default_typed|done|set_solver|set_solver].
  - destruct (meaning_ok k v _ _ Hv (IH1 k) Hm) as [Hok Hset].
    assert (Hsame : forall k', slot k' = slot k -> field k' s' = field k s') by (intros; by apply field_slot).
    split.
    + intros k'. destruct (decide (slot k' = slot k)) as [E|E].
      * rewrite (Hsame k' E). destruct k, k'; try done; inversion E.
      * rewrite Hf by done. apply IH1.
    + intros k' Hk. rewrite fmap_app in Hk. simpl in Hk.
      assert (slot k <> slot k') by (apply Hk; set_solver).
      rewrite Hf by done. apply IH2. intros k'' Hin. apply Hk. set_solver.
    + intros k'. rewrite fmap_app, elem_of_app. simpl. intros [Hin|Hin%list_elem_of_singleton].
      * destruct (decide (slot k' = slot k)) as [E|E]; [by rewrite (Hsame k' E)|].
        rewrite Hf by done. by apply IH3.
      * by subst.
    + intros k'. rewrite fmap_app, elem_of_app. simpl. intros [Hin|Hin%list_elem_of_singleton]; [by apply IH4|].
      by subst.
Qed.

Lemma loads_snoc_inv tls es k v s' :
  loads tls (es ++ [(k, v)]) s' -> exists s, loads tls es s /\ text_ok v /\
    (repeatable (catalog k) = true \/ k ∉ es.*1) /\ (tls_only (catalog k) = true -> tls = true) /\
    meaning k v (field k s) = Some (field k s') /\
    forall k', slot k' <> slot k -> field k' s' = field k' s.
Proof.
  intros Hl. inversion Hl as [E|es0 s k0 v0 s0 Hs Hv Hr Ht Hm Hf E]; [by destruct es|].
  apply app_inj_tail in E as [-> [= -> ->]]. by exists s.
Qed.

(** The entries determine the settings. *)
Lemma loads_det tls es s s' : loads tls es s -> loads tls es s' -> s = s'.
Proof.
  revert s s'. induction es as [|[k v] es IH] using rev_ind; intros s s' H1 H2.
  - inversion H1 as [|es0 ? ? ? ? ? ? ? ? ? ? E]; [|by destruct es0].
    inversion H2 as [|es1 ? ? ? ? ? ? ? ? ? ? E]; [done|by destruct es1].
  - apply loads_snoc_inv in H1 as (s1 & H1 & _ & _ & _ & M1 & F1).
    apply loads_snoc_inv in H2 as (s2 & H2 & _ & _ & _ & M2 & F2).
    pose proof (IH _ _ H1 H2) as <-. apply field_ext. intros k'.
    destruct (decide (slot k' = slot k)) as [E|E]; [|by rewrite F1, F2].
    rewrite (field_slot _ _ s E), (field_slot _ _ s' E). congruence.
Qed.

Lemma loads_prefix tls es es' s : loads tls (es ++ es') s -> exists s1, loads tls es s1.
Proof.
  revert s. induction es' as [|[k v] es' IH] using rev_ind; intros s Hs.
  - rewrite app_nil_r in Hs. eauto.
  - rewrite app_assoc in Hs. apply loads_snoc_inv in Hs as (s1 & Hs & _). by apply IH in Hs.
Qed.

(** * The loader against the relation *)

Lemma load_entry_complete tls es s seen n k v s' :
  mask_of seen es.*1 -> loads tls es s -> loads tls (es ++ [(k, v)]) s' ->
  load_entry tls true s seen n (name (catalog k)) v = Next s' (Z.lor seen (key_bit k)).
Proof.
  intros Hm Hs (s0 & Hs0 & Hv & Hr & Ht & Hmean & Hf)%loads_snoc_inv.
  pose proof (loads_det _ _ _ _ Hs Hs0) as <-. unfold load_entry. rewrite catalog_find, catalog_key.
  destruct (Z.eqb_spec (len v) 0) as [E|_].
  { destruct Hv as [Hn _ _ _]. destruct v; [done|]. rewrite len_cons in E. pose proof (len_nonneg v). lia. }
  assert (Ed : negb (repeatable (catalog k)) && any_seen seen (key_bit k) = false).
  { destruct Hr as [->|Hr]; [done|]. apply andb_false_iff. right.
    apply not_true_iff_false. by rewrite (any_seen_bit _ _ Hm). }
  rewrite Ed. assert (Et : tls_only (catalog k) && negb tls = false).
  { destruct (tls_only (catalog k)); [|done]. by rewrite Ht. }
  rewrite Et. pose proof (apply_value_field true s k v) as Ha.
  destruct (apply_value true s k v) as [s1| |]; [|congruence|done]. destruct Ha as [Hm1 Hf1].
  assert (s1 = s') as ->; [|done]. apply field_ext. intros k'.
  destruct (decide (slot k' = slot k)) as [E|E]; [|by rewrite Hf, Hf1].
  rewrite (field_slot _ _ s1 E), (field_slot _ _ s' E). congruence.
Qed.

Lemma load_lines_complete tls lines es' : reads lines es' ->
  Forall (fun line => len line <= 4096 /\ 0 ∉ line) lines ->
  forall es s seen n s', mask_of seen es.*1 -> loads tls es s -> loads tls (es ++ es') s' ->
  exists seen', load_lines tls (fun _ => true) s seen n lines = Next s' seen' /\
    mask_of seen' (es ++ es').*1.
Proof.
  induction 1 as [|line lines es' Hi Hr IH|line lines [k v] es' He Hr IH]; intros Hl es s seen n s' Hm Hs Hs'.
  - rewrite app_nil_r in *. rewrite (loads_det _ _ _ _ Hs Hs'). by exists seen.
  - apply Forall_cons in Hl as [[Hlen H0] Hl]. simpl. rewrite load_line_idle by done. by apply IH.
  - apply Forall_cons in Hl as [[Hlen H0] Hl]. simpl.
    replace (es ++ (k, v) :: es') with ((es ++ [(k, v)]) ++ es') in * by (by rewrite <-app_assoc).
    destruct (loads_prefix _ _ _ _ Hs') as (s1 & Hs1).
    pose proof (loads_snoc_inv _ _ _ _ _ Hs1) as (_ & _ & Hv & _).
    rewrite (load_line_entry _ _ _ _ _ _ (k, v)) by done. cbn [fst snd].
    rewrite (load_entry_complete tls es s seen _ k v s1) by done.
    apply IH; [done| |done|done]. rewrite fmap_app. by apply mask_snoc.
Qed.
(** A key without entries is at its default, but for the shared value of the
    destinations. *)
Lemma scalar_slot k k' : repeatable (catalog k) = false -> slot k' = slot k -> k' = k.
Proof. destruct k, k'; simpl; try done. Qed.

Lemma absent_default tls es s k :
  loaded tls es s -> repeatable (catalog k) = false -> k ∉ es.*1 -> at_default k s.
Proof.
  intros Hl Hr Hk. apply (loaded_default _ _ _ Hl). intros k' Hin E. apply Hk.
  by rewrite <-(scalar_slot k k').
Qed.

Lemma channel_key_scalar k : channel_key k = true -> repeatable (catalog k) = false.
Proof. by destruct k. Qed.

Lemma tls_key_scalar k : tls_only (catalog k) = true -> repeatable (catalog k) = false.
Proof. by destruct k. Qed.

Lemma absent_defaults tls es s ks :
  loaded tls es s -> Forall (fun k => repeatable (catalog k) = false) ks ->
  Forall (fun k => k ∉ es.*1) ks -> Forall (fun k => at_default k s) ks.
Proof. rewrite !Forall_forall. eauto using absent_default. Qed.

Lemma constraints_settings tls es s :
  loaded tls es s -> constraints_ok es.*1 s -> settings_ok tls s.
Proof.
  intros Hl [C1 C2 C3 C4 V]. split; [apply Hl| | | | | |done].
  - intros -> k Hk. apply (absent_default _ _ _ _ Hl); [by apply tls_key_scalar|].
    intros Hin. by apply (loaded_tls _ _ _ Hl) in Hin.
  - intros E k Hk. apply (absent_default _ _ _ _ Hl); [by apply channel_key_scalar|].
    intros Hin. destruct C1 as [x Hx]; [by exists k|congruence].
  - intros E. by apply (absent_defaults _ _ _ _ Hl); [repeat constructor|apply C4].
  - intros E. by apply (absent_defaults _ _ _ _ Hl); [repeat constructor|apply C2].
  - intros E. by apply (absent_defaults _ _ _ _ Hl); [repeat constructor|apply C3].
Qed.

(** What an accepted file holds. *)
Definition accepts (tls : bool) (path : bytes) (es : list entry) (s : settings) : Prop :=
  exists file, open_trusted path = inr file /\
    stream_opens file = true /\ read_fails file = false /\ closes file = true /\
    Forall (fun line => len line <= 4096 /\ 0 ∉ line) (getlines (content file)) /\
    reads (getlines (content file)) es /\ loads tls es s /\
    EGRESS_CLI_KEY_SCHEMA_VERSION ∈ es.*1 /\ constraints_ok es.*1 s.

Lemma load_accepts tls calloc copy path s :
  egress_cli_settings_load tls calloc copy path = inr s -> exists es, accepts tls path es s.
Proof using Hlaws.
  unfold egress_cli_settings_load. rewrite apply_defaults_spec.
  destruct (open_trusted path) as [e|file] eqn:Eo; [done|].
  destruct (stream_opens file) eqn:Es; [|done]. destruct calloc; [|done]. cbn [negb].
  destruct (load_lines _ _ _ _ _ _) as [s1 seen|e] eqn:El; [|done].
  destruct (read_fails file) eqn:Er; [done|]. destruct (closes file) eqn:Ec; [|done]. cbn [negb orb].
  destruct (load_lines_Next tls copy (getlines (content file)) _ _ _ _ _ [] mask_nil (getlines_shape _)
    (loads_nil tls) El) as (es & Hr & Hs & Hm & Hf). simpl in Hs, Hm.
  unfold load_conclude. destruct (any_seen seen (key_bit _)) eqn:Ev; [|done]. cbn [negb].
  destruct (check_constraints s1 seen) eqn:Ek; [done|]. intros [= <-]. exists es, file.
  split_and!; [done..| |].
  - by apply (any_seen_bit _ _ Hm).
  - by apply (check_constraints_spec _ _ Hm).
Qed.

Lemma accepts_load tls path es s :
  accepts tls path es s -> egress_cli_settings_load tls true (fun _ => true) path = inr s.
Proof using Hlaws.
  intros (file & Eo & Es & Er & Ec & Hf & Hr & Hs & Hv & Hk). unfold egress_cli_settings_load.
  rewrite apply_defaults_spec, Eo, Es, Er, Ec. cbn [negb].
  destruct (load_lines_complete tls _ _ Hr Hf [] default_settings 0 0 s mask_nil (loads_nil tls) Hs)
    as (seen & -> & Hm). simpl in Hm. cbn [orb]. unfold load_conclude.
  rewrite (proj2 (any_seen_bit _ _ Hm _) Hv). cbn [negb].
  by rewrite (proj2 (check_constraints_spec _ _ Hm s) Hk).
Qed.

(** * Writing settings *)

Definition print_value (v : value) : bytes :=
  match v with
  | VNone => str "1"
  | VEndpoint h p _ => print_endpoint h p
  | VText (Some t) => t
  | VPeer MAELYS_EGRESS_UNIX_PEER_AUTHENTICATED _ => str "authenticated"
  | VPeer _ _ => str "same-euid"
  | VFlag true => str "true"
  | VFlag false => str "false"
  | VNumber n => decimal n
  | VText None | VList _ => []
  end.

Definition print_destination (d : Destination.egress_cli_destination_t) : entry :=
  (if Destination.allow_private d then EGRESS_CLI_KEY_ALLOW_PRIVATE
   else if Destination.require_tls_sni d then EGRESS_CLI_KEY_ALLOW_TLS_SNI else EGRESS_CLI_KEY_ALLOW,
   print_endpoint (Destination.host d) (Destination.port d)).

(** The entries that give a key its value: none for a default. *)
Definition entries_at (s : settings) (k : egress_cli_config_key_t) : list entry :=
  match k with
  | EGRESS_CLI_KEY_SCHEMA_VERSION => [(k, str "1")]
  | EGRESS_CLI_KEY_ALLOW => map print_destination (Settings.destinations s)
  | EGRESS_CLI_KEY_ALLOW_PRIVATE | EGRESS_CLI_KEY_ALLOW_TLS_SNI => []
  | _ => if decide (at_default k s) then [] else [(k, print_value (field k s))]
  end.

Definition entries_of (s : settings) : list entry := flat_map (entries_at s) config_keys.

Definition render_line (e : entry) : bytes := (name (catalog e.1) ++ c_eq :: e.2 ++ [c_space]) ++ [c_lf].
Definition render (es : list entry) : bytes := concat (map render_line es).

Lemma ascii_text t : forallb (fun c => negb (blank c) && (0 <? c) && negb (c =? c_lf)) t = true -> t <> [] ->
  text_ok t.
Proof.
  intros Hf Hn. apply forallb_Forall in Hf.
  assert (Hb : forall l, Forall (fun c => negb (blank c) && (0 <? c) && negb (c =? c_lf) = true) l ->
    drop_blanks l = l).
  { intros l Hl. destruct l as [|c l]; [done|]. apply Forall_cons in Hl as [Hc _]. simpl.
    by destruct (blank c). }
  split; [done| | |].
  - intros Hin. rewrite Forall_forall in Hf. by specialize (Hf _ Hin).
  - intros Hin. rewrite Forall_forall in Hf. by specialize (Hf _ Hin).
  - unfold trim. rewrite (Hb t Hf), (Hb (rev t)) by (by apply Forall_rev). apply rev_involutive.
Qed.

Lemma decimal_text n : 0 <= n -> text_ok (decimal n).
Proof.
  intros Hn. apply ascii_text; [|apply decimal_nonempty]. apply forallb_Forall.
  eapply Forall_impl; [by apply decimal_digits|]. intros c. unfold is_digit, in_range, blank. lia.
Qed.

Definition same_kind (v w : value) : Prop :=
  match v, w with
  | VNone, VNone | VEndpoint _ _ _, VEndpoint _ _ _ | VText _, VText _ | VPeer _ _, VPeer _ _
  | VFlag _, VFlag _ | VNumber _, VNumber _ => True
  | _, _ => False
  end.

Lemma field_kind k s s' : slot k <> EGRESS_CLI_KEY_ALLOW -> same_kind (field k s) (field k s').
Proof. by destruct k. Qed.

Lemma number_range_u64 k n : (number_range k).1 <= n <= (number_range k).2 -> is_u64 n.
Proof. destruct k; simpl; unfold is_u64, UINT64_MAX; lia. Qed.

(** A printed value reads back, and a line can carry it. *)
Lemma meaning_print k v old :
  same_kind v old -> value_ok k v -> value_set v ->
  text_ok (print_value v) /\ meaning k (print_value v) old = Some v.
Proof using Hlaws.
  assert (Hpeer : NoDup unix_peer_choices) by exact (bool_decide_unpack (NoDup unix_peer_choices) I).
  destruct v as [|h p set|[t|]|peer set|ds|b|n], old; try done; intros _ Hv Hset.
  - split; [by apply ascii_text|done].
  - simpl in Hset. subst set. destruct Hv as [Hh Hp]. simpl.
    split; [by apply (print_endpoint_text 64); [|lia]|]. by rewrite (parse_print_endpoint 64).
  - destruct Hv as [Ht Hp]. split; [done|]. simpl. destruct (bool_decide_reflect (k = EGRESS_CLI_KEY_CHANNEL_LISTEN_UNIX)) as [E|E]; [by rewrite Hp|done].
  - by destruct Hset.
  - simpl in Hset. subst set. destruct Hv as [Hv _]. simpl. destruct peer; [| |done].
    + split; [by apply ascii_text|]. by rewrite (parse_choice_known _ _ 0%nat).
    + split; [by apply ascii_text|]. by rewrite (parse_choice_known _ _ 1%nat).
  - simpl. destruct b; (split; [by apply ascii_text|done]).
  - apply number_range_u64 in Hv as Hn. simpl. split; [apply decimal_text; unfold is_u64 in Hn; lia|].
    by rewrite parse_decimal_plain.
Qed.

Lemma not_default_set k s :
  slot k <> EGRESS_CLI_KEY_ALLOW -> value_ok k (field k s) -> ~ at_default k s -> value_set (field k s).
Proof.
  intros Hs. destruct k; try done; cbn [field]; intros Hv Hd; cbn [value_set]; try done.
  all: match goal with
  | |- is_Some ?o => destruct o; [by eexists|by destruct Hd]
  | |- ?b = true => destruct b; [done|]
  end.
  all: destruct Hd.
  - done.
  - destruct Hv as [_ Hv]. by rewrite Hv.
  - done.
Qed.

Lemma loads_extend tls es s k v w :
  loads tls es s -> text_ok v -> (repeatable (catalog k) = true \/ k ∉ es.*1) ->
  (tls_only (catalog k) = true -> tls = true) -> meaning k v (field k s) = Some w ->
  exists s', loads tls (es ++ [(k, v)]) s' /\ field k s' = w /\
    forall k', slot k' <> slot k -> field k' s' = field k' s.
Proof.
  intros Hs Hv Hr Ht Hm. pose proof (apply_value_field true s k v) as Ha.
  destruct (apply_value true s k v) as [s'| |]; [|congruence|done]. destruct Ha as [Hm' Hf].
  exists s'. split_and!; [by econstructor|congruence|done].
Qed.

Lemma loads_destinations tls es s ds ds' :
  loads tls es s -> Settings.destinations s = ds -> Forall destination_typed ds' ->
  len (ds ++ ds') <= EGRESS_CLI_MAX_DESTINATIONS ->
  exists s', loads tls (es ++ map print_destination ds') s' /\ Settings.destinations s' = ds ++ ds' /\
    forall k, slot k <> EGRESS_CLI_KEY_ALLOW -> field k s' = field k s.
Proof.
  revert es s ds. induction ds' as [|d ds' IH]; intros es s ds Hs Ed Hf Hl.
  - exists s. by rewrite !app_nil_r.
  - apply Forall_cons in Hf as [[Hh Hp Hfl] Hf]. rewrite len_app, len_cons in Hl.
    pose proof (len_nonneg ds). pose proof (len_nonneg ds').
    assert (Hslot : slot (print_destination d).1 = EGRESS_CLI_KEY_ALLOW)
      by (unfold print_destination; by repeat case_match).
    assert (Hm : meaning (print_destination d).1 (print_destination d).2 (field (print_destination d).1 s) =
      Some (VList (ds ++ [d]))).
    { rewrite (field_slot _ EGRESS_CLI_KEY_ALLOW) by done. simpl. rewrite Ed.
      destruct (Z.leb_spec EGRESS_CLI_MAX_DESTINATIONS (len ds)); [lia|].
      rewrite (parse_print_endpoint 254) by (done || lia). simpl.
      destruct (Z.eqb_spec (Destination.port d) 0); [lia|]. destruct d as [h p [] []]; simpl in *; done. }
    destruct (loads_extend tls es s (print_destination d).1 (print_destination d).2 (VList (ds ++ [d])))
      as (s1 & Hs1 & Hw & Hframe); [done| | | |done|].
    { by apply (print_endpoint_text 254); [|lia]. }
    { left. unfold print_destination. by repeat case_match. }
    { unfold print_destination. by repeat case_match. }
    destruct (IH (es ++ [print_destination d]) s1 (ds ++ [d])) as (s2 & Hs2 & Ed2 & Hf2).
    { by destruct (print_destination d). }
    { rewrite (field_slot _ EGRESS_CLI_KEY_ALLOW) in Hw by done. simpl in Hw. congruence. }
    { done. }
    { rewrite !len_app, len_cons, len_nil. lia. }
    exists s2. rewrite <-!app_assoc in *. split_and!; [done|done|].
    intros k Hk. rewrite Hf2 by done. apply Hframe. by rewrite Hslot.
Qed.

Lemma entries_at_slot s k e : e ∈ entries_at s k -> slot e.1 = k.
Proof.
  intros He.
  destruct k; simpl in He;
    try (case_decide; [by apply elem_of_nil in He|]); try (by apply elem_of_nil in He);
    try (by apply list_elem_of_singleton in He as ->).
  change (map ?f ?l) with (f <$> l) in He. apply list_elem_of_fmap in He as (d & -> & _).
  unfold print_destination. by repeat case_match.
Qed.

(** The values of the keys written so far, the others at their defaults. *)
Definition written (s : settings) (ks : list egress_cli_config_key_t) (s1 : settings) : Prop :=
  forall k, (slot k ∈ ks -> field k s1 = field k s) /\ (slot k ∉ ks -> at_default k s1).

Lemma written_step s ks k s1 s2 :
  k ∉ ks -> written s ks s1 -> (slot k = k -> field k s2 = field k s) ->
  (forall k', slot k' <> k -> field k' s2 = field k' s1) -> written s (ks ++ [k]) s2.
Proof.
  clear. intros Hk Hw Hf Hframe k'. destruct (Hw k') as [W1 W2]. destruct (decide (slot k' = k)) as [E|E].
  - assert (Ek : slot k = k) by (subst k; by destruct k').
    split; [|set_solver]. intros _.
    rewrite (field_slot k' k s2), (field_slot k' k s) by congruence. by apply Hf.
  - rewrite Hframe by done. split; [|set_solver].
    intros [Hin|Hin%list_elem_of_singleton]%elem_of_app; [by apply W1|done].
Qed.

Lemma loads_entries tls s ks : settings_ok tls s -> NoDup ks ->
  exists s1, loads tls (flat_map (entries_at s) ks) s1 /\ written s ks s1.
Proof using Hlaws.
  intros Hok. induction ks as [|k ks IH] using rev_ind; intros Hn.
  { exists default_settings. split; [constructor|]. intros k. set_solver. }
  apply NoDup_app in Hn as (Hn & Hk & _). destruct (IH Hn) as (s1 & Hs1 & Hw). clear IH.
  assert (Hkk : k ∉ ks) by (intros Hin; apply (Hk k Hin); set_solver).
  rewrite flat_map_app. simpl. rewrite app_nil_r.
  assert (Hfresh : forall e, e ∈ flat_map (entries_at s) ks -> slot e.1 ∈ ks).
  { intros e (k' & Hk' & He)%list_elem_of_In%in_flat_map. apply list_elem_of_In in He, Hk'.
    by rewrite (entries_at_slot s k' e). }
  assert (Hnew : slot k = k -> k ∉ (flat_map (entries_at s) ks).*1).
  { intros E (e & -> & He)%list_elem_of_fmap. apply Hkk. rewrite <-E. by apply Hfresh. }
  assert (Hskip : entries_at s k = [] -> (slot k = k -> at_default k s) ->
    exists s2, loads tls (flat_map (entries_at s) ks ++ entries_at s k) s2 /\ written s (ks ++ [k]) s2).
  { intros -> Hd. exists s1. rewrite app_nil_r. split; [done|].
    eapply written_step; [done|exact Hw| |done]. intros E. rewrite (Hd E). apply Hw. by rewrite E. }
  assert (Hone : slot k = k -> k <> EGRESS_CLI_KEY_ALLOW -> forall v, entries_at s k = [(k, v)] ->
    text_ok v -> meaning k v (field k s1) = Some (field k s) -> (tls_only (catalog k) = true -> tls = true) ->
    exists s2, loads tls (flat_map (entries_at s) ks ++ entries_at s k) s2 /\ written s (ks ++ [k]) s2).
  { intros Es Ha v -> Hv Hm Ht.
    destruct (loads_extend tls _ s1 k v _ Hs1 Hv (or_intror (Hnew Es)) Ht Hm) as (s2 & Hs2 & Ef & Hf).
    exists s2. split; [done|]. eapply written_step; [done|exact Hw|done|]. intros k' Hk'. apply Hf. congruence. }
  assert (Hother : slot k = k -> k <> EGRESS_CLI_KEY_ALLOW -> 
    entries_at s k = (if decide (at_default k s) then [] else [(k, print_value (field k s))]) ->
    exists s2, loads tls (flat_map (entries_at s) ks ++ entries_at s k) s2 /\ written s (ks ++ [k]) s2).
  { intros Es Ha Ee. destruct (decide (at_default k s)) as [Hd|Hd]; [by apply Hskip|].
    assert (Hs : slot k <> EGRESS_CLI_KEY_ALLOW) by congruence.
    pose proof (not_default_set k s Hs (ok_typed _ _ Hok k) Hd) as Hset.
    destruct (meaning_print k (field k s) (field k s1) (field_kind k s s1 Hs) (ok_typed _ _ Hok k) Hset).
    apply (Hone Es Ha _ Ee); [done|done|]. intros Ht. destruct tls; [done|].
    by destruct Hd; apply (ok_tls _ _ Hok). }
  destruct k; try (by apply Hother); try (by apply Hskip).
  - apply (Hone eq_refl ltac:(done) (str "1")); try done. by apply ascii_text.
  - destruct (ok_typed _ _ Hok EGRESS_CLI_KEY_ALLOW) as [Hl Hf].
    destruct (Hw EGRESS_CLI_KEY_ALLOW) as [_ Hd]. specialize (Hd Hkk). simpl in Hd. injection Hd as Hd.
    destruct (loads_destinations tls _ s1 [] (Settings.destinations s) Hs1 Hd Hf Hl) as (s2 & Hs2 & Ed & Hfr).
    exists s2. split; [done|]. eapply written_step; [done|exact Hw|by simpl; rewrite Ed|done].
Qed.

Lemma loads_entries_of tls s : settings_ok tls s -> loads tls (entries_of s) s.
Proof using Hlaws.
  intros Hok. destruct (loads_entries tls s config_keys Hok) as (s1 & Hs1 & Hw).
  { exact (bool_decide_unpack (NoDup config_keys) I). }
  assert (Hall : forall k, bool_decide (slot k ∈ config_keys) = true) by (by intros []).
  assert (s1 = s) as ->; [|done]. apply field_ext. intros k. apply Hw.
  by apply (bool_decide_eq_true_1 _).
Qed.

Lemma entries_of_key s k : k ∈ (entries_of s).*1 ->
  k = EGRESS_CLI_KEY_SCHEMA_VERSION \/ slot k = EGRESS_CLI_KEY_ALLOW \/ ~ at_default k s.
Proof.
  intros (e & -> & He)%list_elem_of_fmap. unfold entries_of in He.
  apply list_elem_of_In, in_flat_map in He as (k & _ & He). apply list_elem_of_In in He.
  pose proof (entries_at_slot s k e He) as Ek.
  destruct (decide (k = EGRESS_CLI_KEY_ALLOW)) as [->|]; [by right; left|].
  destruct (decide (k = EGRESS_CLI_KEY_SCHEMA_VERSION)) as [->|]; [left; by destruct e as [[] ?]|].
  right. right. destruct k; simpl in He; try done; try (by apply elem_of_nil in He);
    (case_decide as Hd; [by apply elem_of_nil in He|]); by apply list_elem_of_singleton in He as ->.
Qed.

Lemma settings_constraints tls s : settings_ok tls s -> constraints_ok (entries_of s).*1 s.
Proof.
  intros Hok.
  assert (Hdef : forall ks, Forall (fun k => at_default k s) ks ->
    Forall (fun k => k <> EGRESS_CLI_KEY_SCHEMA_VERSION /\ slot k <> EGRESS_CLI_KEY_ALLOW) ks ->
    Forall (fun k => k ∉ (entries_of s).*1) ks).
  { intros ks. rewrite !Forall_forall. intros Hd Hn k Hk Hin.
    destruct (Hn k Hk). apply entries_of_key in Hin. naive_solver. }
  split; [| | | |apply Hok].
  - intros (k & Hk & Hc). destruct (Settings.channel_principal s) eqn:E; [by eexists|]. exfalso.
    apply entries_of_key in Hk as [->|[Hk|Hk]]; [done|by destruct k|].
    apply Hk. by apply (ok_proxy _ _ Hok).
  - intros E. apply Hdef; [by apply (ok_exec _ _ Hok)|by repeat constructor].
  - intros E. apply Hdef; [by apply (ok_broker _ _ Hok)|by repeat constructor].
  - intros E. apply Hdef; [by apply (ok_channel _ _ Hok)|by repeat constructor].
Qed.

(** The texts fit on a line. *)
Definition texts_fit (s : settings) : Prop :=
  forall k t, field k s = VText (Some t) -> len t <= 4000.

Lemma print_endpoint_len h p : 0 <= p <= 65535 -> len (print_endpoint h p) <= len h + 8.
Proof.
  intros Hp. pose proof (decimal_len_u16 p ltac:(unfold is_u16; lia)).
  unfold print_endpoint. destruct (has_char _ _); autorewrite with len; lia.
Qed.

Lemma entries_of_fit tls s e : settings_ok tls s -> texts_fit s -> e ∈ entries_of s -> len e.2 <= 4000.
Proof.
  intros Hok Hfit He. unfold entries_of in He.
  apply list_elem_of_In, in_flat_map in He as (k & _ & He). apply list_elem_of_In in He.
  pose proof (ok_typed _ _ Hok k) as Hv.
  assert (Hval : slot k <> EGRESS_CLI_KEY_ALLOW -> len (print_value (field k s)) <= 4000).
  { intros Hs. destruct (field k s) as [|h p [|]|[t|]|[]|ds|[]|n] eqn:Ef; simpl in *; try done.
    - destruct Hv as [[Hh _ _ _] Hp]. pose proof (print_endpoint_len h p Hp). lia.
    - assert (Eh : len h <= 64 /\ 0 <= p <= 65535).
      { destruct k; try done; simpl in Hv; injection Hv as -> ->; done. }
      pose proof (print_endpoint_len h p ltac:(lia)). lia.
    - by apply (Hfit k).
    - apply number_range_u64 in Hv. pose proof (decimal_len_u64 n Hv). lia. }
  destruct (decide (k = EGRESS_CLI_KEY_ALLOW)) as [->|Hk].
  - simpl in He. change (map ?f ?l) with (f <$> l) in He. apply list_elem_of_fmap in He as (d & -> & Hd).
    destruct Hv as [_ Hf]. rewrite Forall_forall in Hf. destruct (Hf d Hd) as [[Hh _ _ _] Hp _]. simpl.
    pose proof (print_endpoint_len (Destination.host d) (Destination.port d) ltac:(lia)). lia.
  - destruct k; simpl in He; try done; try (by apply elem_of_nil in He);
      try (by apply list_elem_of_singleton in He as ->);
      (case_decide; [by apply elem_of_nil in He|]); apply list_elem_of_singleton in He as ->; by apply Hval.
Qed.

Lemma catalog_name_line k : len (name (catalog k)) <= 60 /\ 0 ∉ name (catalog k) /\ c_lf ∉ name (catalog k).
Proof.
  assert (E : (len (name (catalog k)) <=? 60) && negb (has_char 0 (name (catalog k))) &&
    negb (has_char c_lf (name (catalog k))) = true) by (by destruct k).
  bool_simp. by rewrite <-!has_char_false.
Qed.

(** Written entries read back. *)
Lemma render_reads es :
  Forall (fun e => text_ok e.2 /\ len e.2 <= 4000) es ->
  reads (getlines (render es)) es /\
  Forall (fun line => len line <= 4096 /\ 0 ∉ line) (getlines (render es)).
Proof.
  clear. induction 1 as [|[k v] es [Hv Hl] _ [IH1 IH2]]; [by repeat constructor|].
  destruct (catalog_name_line k) as (Hn & H0 & Hlf). destruct Hv as [Hne Hv0 Hvl Ht]. cbn [snd] in *.
  unfold render. simpl concat. unfold render_line at 1 3. cbn [fst snd].
  rewrite <-app_assoc. change ([c_lf] ++ ?x) with (c_lf :: x).
  rewrite getlines_app by set_solver. split.
  - constructor; [|done]. exists [], [], [], [c_space], [c_lf]. cbn [fst snd].
    split_and!; [apps|constructor|constructor|constructor|by repeat constructor|by repeat constructor|].
    by apply ends_line_snoc.
  - constructor; [|done]. split; [autorewrite with len; lia|]. set_solver.
Qed.

Lemma loads_texts tls es s : loads tls es s -> Forall (fun e => text_ok e.2) es.
Proof.
  induction 1 as [|es s k v s' _ IH Hv]; [constructor|]. apply Forall_app. split; [done|].
  by apply Forall_singleton.
Qed.

Lemma entries_of_version s : EGRESS_CLI_KEY_SCHEMA_VERSION ∈ (entries_of s).*1.
Proof. apply list_elem_of_here. Qed.

End Invariant.

(** * A framework for the examples *)

Fixpoint choice_index (value : bytes) (choices : list bytes) : option nat :=
  match choices with
  | [] => None
  | c :: choices => if beq c value then Some O else S <$> choice_index value choices
  end.

(** One file, with plain decimal numbers. *)
Definition example_cli (text : bytes) : Cli := {|
  parse_u64_decimal value lo hi :=
    let n := undecimal value in
    if forallb is_digit value && negb (len value =? 0) && (lo <=? n) && (n <=? hi) then Some n else None;
  parse_choice := choice_index;
  open_trusted _ := inr (TrustedFile true text false true);
  read_trusted_file _ lo hi :=
    if (lo <=? len text) && (len text <=? hi) then Some text else None;
  file_error_code _ := MAELYS_CLI_CODE_IO_FAILED;
|}.

Lemma choice_index_Some v cs i : choice_index v cs = Some i -> cs !! i = Some v.
Proof.
  revert i. induction cs as [|c cs IH]; intros i; simpl; [done|].
  destruct (beq c v) eqn:E; [intros [= <-]; by apply beq_spec in E as ->|].
  destruct (choice_index v cs); [|done]. intros [= <-]. by apply IH.
Qed.

Lemma choice_index_known v cs i : NoDup cs -> cs !! i = Some v -> choice_index v cs = Some i.
Proof.
  intros Hn. revert i. induction Hn as [|c cs Hc Hn IH]; intros i; [done|].
  destruct i as [|i]; simpl; [intros [= ->]; by rewrite beq_refl|]. intros Hi.
  destruct (beq c v) eqn:E; [|by rewrite (IH i Hi)].
  apply beq_spec in E as ->. destruct Hc. by eapply list_elem_of_lookup_2.
Qed.

Lemma example_cli_laws text : @CliLaws (example_cli text).
Proof.
  split; simpl.
  - intros v lo hi n. destruct (_ && _) eqn:E; [|done]. intros [= <-]. bool_simp. lia.
  - intros lo hi n Hn Hr. rewrite undecimal_decimal by done.
    rewrite (proj2 (forallb_Forall _ _) (decimal_digits n ltac:(unfold is_u64 in Hn; lia))).
    destruct (Z.eqb_spec (len (decimal n)) 0) as [E|_]; [pose proof (decimal_len_u64 n Hn); lia|].
    destruct (Z.leb_spec lo n); [|lia]. by destruct (Z.leb_spec n hi); [|lia].
  - intros v cs i. apply choice_index_Some.
  - intros v cs i. apply choice_index_known.
  - intros p lo hi b. destruct (_ && _) eqn:E; [|done]. intros [= <-]. bool_simp. lia.
Qed.

Definition example_text : bytes :=
  str "schema_version = 1" ++ [c_lf] ++
  str "# a broker" ++ [c_cr; c_lf] ++
  str "allow = [::1]:443" ++ [c_lf] ++
  [c_htab] ++ str "allow_tls_sni=example.org:443 " ++ [c_lf; c_lf] ++
  str "channel_principal = build" ++ [c_lf] ++
  str "channel_listen_unix = /run/egress/channel" ++ [c_lf] ++
  str "quota_bytes = 18446744073709551615" ++ [c_lf] ++
  str "channel_max_clients = 4096".

Definition example_settings : settings :=
  default_settings
    <| Settings.destinations := [Destination.Make (str "::1") 443 false false;
                                 Destination.Make (str "example.org") 443 false true] |>
    <| Settings.channel_principal := Some (str "build") |>
    <| Settings.channel_listen_unix := Some (str "/run/egress/channel") |>
    <| Settings.quota_bytes := UINT64_MAX |>
    <| Settings.channel_max_clients := 4096 |>.

Lemma example_loads :
  @egress_cli_settings_load (example_cli example_text) false true (fun _ => true) [] = inr example_settings.
Proof. vm_compute. reflexivity. Qed.

Lemma example_settings_ok : settings_ok false example_settings.
Proof.
  destruct (load_accepts (Hlaws := example_cli_laws example_text) _ _ _ _ _ example_loads)
    as (es & file & _ & _ & _ & _ & _ & _ & Hs & _ & Hk).
  eapply constraints_settings; [by apply (loads_loaded (Hlaws := example_cli_laws example_text))|done].
Qed.

(** Client certificates asked for, with neither a certificate nor a key of the
    listener: a listener without TLS. *)
Definition mutual_settings : settings :=
  default_settings
    <| Settings.destinations := [Destination.Make (str "example.org") 443 false false] |>
    <| Settings.token_file := Some (str "/run/token") |>
    <| Settings.tls_ca := Some (str "/run/ca.pem") |>
    <| Settings.require_client_cert := true |>.

Lemma mutual_loads :
  @egress_cli_settings_load (example_cli (render (entries_of mutual_settings))) true true (fun _ => true) [] =
  inr mutual_settings.
Proof. vm_compute. reflexivity. Qed.

Lemma mutual_settings_ok : settings_ok true mutual_settings.
Proof.
  destruct (load_accepts (Hlaws := example_cli_laws _) _ _ _ _ _ mutual_loads) as (es & file & _ & _ & _ & _ & _ & _ & Hs & _ & Hk).
  eapply constraints_settings; [by apply (loads_loaded (Hlaws := example_cli_laws (render (entries_of mutual_settings))))|done].
Qed.

(** The keys a key requires, as its entry of the catalog lists them. *)
Definition required_keys (k : egress_cli_config_key_t) : list egress_cli_config_key_t :=
  match requires (catalog k) with
  | Some text => omap (fun n => key <$> egress_cli_config_find n) (split_on 44 text)
  | None => []
  end.

Lemma text_present tls es s k o :
  loaded tls es s -> repeatable (catalog k) = false -> field k default_settings = VText None ->
  field k s = VText o -> is_Some o -> k ∈ es.*1.
Proof.
  intros Hl Hr Hd Ht [t ->]. destruct (decide (k ∈ es.*1)) as [|Hn]; [done|].
  apply (absent_default _ _ _ _ Hl Hr) in Hn. congruence.
Qed.

Lemma required_present tls es s k r :
  loaded tls es s -> constraints_ok es.*1 s -> k ∈ es.*1 -> r ∈ required_keys k ->
  r ∈ es.*1 \/ k = EGRESS_CLI_KEY_REQUIRE_CLIENT_CERT /\ (r = EGRESS_CLI_KEY_TLS_CA -> Settings.require_client_cert s = false).
Proof.
  intros Hl [C1 C2 _ _ V] Hk Hr. pose proof (loaded_set _ _ _ Hl k Hk) as Hset.
  assert (Hch : channel_key k = true -> EGRESS_CLI_KEY_CHANNEL_PRINCIPAL ∈ es.*1).
  { intros Hc. eapply (text_present _ _ _ _ _ Hl); [done|done|done|]. apply C1. eauto. }
  assert (Hbr : k ∈ broker_key_list -> EGRESS_CLI_KEY_CHANNEL_LISTEN_UNIX ∈ es.*1).
  { intros Hb. eapply (text_present _ _ _ _ _ Hl); [done|done|done|].
    destruct (Settings.channel_listen_unix s) eqn:E; [by eexists|].
    specialize (C2 eq_refl). rewrite Forall_forall in C2. by destruct (C2 k Hb). }
  destruct V as [_ V2 _ _ _ _ _ [V8 V8'] V9 V10].
  destruct (decide (k = EGRESS_CLI_KEY_REQUIRE_CLIENT_CERT)) as [->|Hne].
  { destruct (Settings.require_client_cert s); [|by right]. vm_compute in Hr. set_unfold in Hr.
    destruct_or? Hr; subst; [left|by right..]. eapply (text_present _ _ _ _ _ Hl); [done|done|done|]. by apply V10. }
  left. destruct k; try done; vm_compute in Hr; set_unfold in Hr; destruct_or? Hr; subst; try done;
    try (by apply Hch); try (apply Hbr; set_solver);
    eapply (text_present _ _ _ _ _ Hl); try done; simpl in Hset; tauto.
Qed.

(** * Properties *)

Section ConfigProperties.
Context `{Cli} {Hlaws : CliLaws}.

Lemma load_settings_ok tls calloc copy path s :
  egress_cli_settings_load tls calloc copy path = inr s -> settings_ok tls s.
Proof using Hlaws.
  intros (es & file & _ & _ & _ & _ & _ & _ & Hs & _ & Hk)%load_accepts.
  eapply constraints_settings; [by apply loads_loaded|done].
Qed.

Lemma load_rendered tls path s :
  settings_ok tls s -> texts_fit s ->
  open_trusted path = inr (TrustedFile true (render (entries_of s)) false true) ->
  egress_cli_settings_load tls true (fun _ => true) path = inr s.
Proof using Hlaws.
  intros Hok Hfit Ho. pose proof (loads_entries_of tls s Hok) as Hs.
  destruct (render_reads (entries_of s)) as [Hr Hf].
  { apply Forall_and. split; [by eapply loads_texts|]. apply Forall_forall. intros e.
    by eapply entries_of_fit. }
  apply accepts_load with (es := entries_of s). eexists. split_and!; [exact Ho|done..| |].
  - apply entries_of_version.
  - by eapply settings_constraints.
Qed.

(** C37: whatever the file and whatever fails on the way, settings that the
    loader returns are well typed: endpoints, texts, paths and numbers within
    their bounds, between 1 and 256 destinations, none both private and bound
    to a TLS name; no TLS key in a binary without TLS; the keys that belong to
    another mode at their defaults; and the constraints that the loader checks.
    Of the requirements the catalog publishes for its keys, all hold of the
    accepted file but those of [require_client_cert]: the only one of them the
    loader insists on is [tls_ca], and only when the value is true.  The
    exception is real: a file that asks for client certificates with [tls_ca],
    without [tls_cert] and [tls_key], is accepted. *)
Theorem settings_load_typed tls path :
  (forall calloc copy s, egress_cli_settings_load tls calloc copy path = inr s ->
     settings_ok tls s /\
     exists es, accepts tls path es s /\
       forall k r, k ∈ es.*1 -> r ∈ required_keys k ->
         r ∈ es.*1 \/
         k = EGRESS_CLI_KEY_REQUIRE_CLIENT_CERT /\ (r = EGRESS_CLI_KEY_TLS_CA -> Settings.require_client_cert s = false)) /\
  required_keys EGRESS_CLI_KEY_REQUIRE_CLIENT_CERT =
    [EGRESS_CLI_KEY_TLS_CA; EGRESS_CLI_KEY_TLS_CERT; EGRESS_CLI_KEY_TLS_KEY] /\
  (open_trusted path = inr (TrustedFile true (render (entries_of mutual_settings)) false true) ->
   egress_cli_settings_load true true (fun _ => true) path = inr mutual_settings).
Proof using Hlaws.
  split_and!; [|by vm_compute|].
  - intros calloc copy s E. split; [by eapply load_settings_ok|]. apply load_accepts in E as (es & Hs). exists es.
    split; [done|]. destruct Hs as (file & _ & _ & _ & _ & _ & _ & Hs & _ & Hk). intros k r.
    by apply (required_present tls es s); [apply loads_loaded|].
  - apply load_rendered; [exact mutual_settings_ok|]. intros [] t E; simpl in E; simplify_eq; vm_compute; done.
Qed.

(** C9: the loader accepts exactly the strict grammar: a readable file each
    of whose lines is at most 4096 bytes without NUL and is blank, a comment or
    [name = value] for a name of the catalog; scalar keys at most once, the
    version present, TLS keys only in a TLS-enabled binary, every value of its
    key's type, and the constraints respected.  The settings are those the
    entries give in their order. *)
Theorem settings_load_exact tls path s :
  egress_cli_settings_load tls true (fun _ => true) path = inr s <-> exists es, accepts tls path es s.
Proof using Hlaws.
  split; [apply load_accepts|]. intros (es & Hs). by eapply accepts_load.
Qed.

(** C36: every well-typed settings can be written: the file with one line per
    value that is not a default loads to the settings it was written from, for
    texts of at most 4000 bytes. *)
Theorem settings_roundtrip tls path s :
  settings_ok tls s -> texts_fit s ->
  open_trusted path = inr (TrustedFile true (render (entries_of s)) false true) ->
  egress_cli_settings_load tls true (fun _ => true) path = inr s.
Proof using Hlaws. apply load_rendered. Qed.

End ConfigProperties.

Lemma same_text_spec a b : same_text a b = true <-> a = b.
Proof.
  destruct a as [a|], b as [b|]; simpl; [|done..]. rewrite beq_spec. naive_solver.
Qed.

(** What a reload may change is exactly the destinations: two settings
    are equal for the control plane if and only if they agree in every other
    field. *)
Theorem control_equal_exact a b :
  egress_cli_settings_control_equal a b = true <->
  b = a <| Settings.destinations := Settings.destinations b |>.
Proof.
  unfold egress_cli_settings_control_equal.
  rewrite !andb_true_iff, !beq_spec, !Z.eqb_eq, !Bool.eqb_true_iff, !same_text_spec, bool_decide_eq_true.
  destruct a, b. cbn. split; [intros He; destruct_and! He; by simplify_eq|].
  intros E. injection E as E. by split_and!.
Qed.

(** * Witnesses *)

Lemma settings_load_typed_witness :
  settings_ok false example_settings /\
  @egress_cli_settings_load (example_cli (render (entries_of mutual_settings))) true true (fun _ => true) [] =
    inr mutual_settings.
Proof.
  split.
  - exact (proj1 (proj1 (settings_load_typed (Hlaws := example_cli_laws example_text) false []) true (fun _ => true)
      example_settings example_loads)).
  - exact (proj2 (proj2 (settings_load_typed (Hlaws := example_cli_laws (render (entries_of mutual_settings))) true [])) eq_refl).
Defined.

Lemma settings_roundtrip_witness :
  @egress_cli_settings_load (example_cli (render (entries_of example_settings))) false true (fun _ => true) [] =
  inr example_settings.
Proof.
  apply (settings_roundtrip (Hlaws := example_cli_laws _) false [] example_settings example_settings_ok).
  - intros [] t E; simpl in E; simplify_eq; vm_compute; done.
  - reflexivity.
Defined.

Lemma settings_load_exact_witness : exists es, accepts (H := example_cli example_text) false [] es example_settings.
Proof.
  exact (proj1 (settings_load_exact (Hlaws := example_cli_laws example_text) false [] example_settings) example_loads).
Defined.
