(* ===== verification/ChannelServer.v ===== *)
(** The server side of the channel (src/channel_server.c): one thread that
    reads a request, opens a session through its connector and answers with the
    status and the stream.

    Descriptor passing, the event loop and the clock belong to maelys-system,
    which is not part of the repository: they are the calls of the class
    [ChannelSys], on a world that is otherwise unknown, with what their contract
    promises in [ChannelLaws].  [apple] says for which platform the file is
    compiled: on macOS the thread keeps its copy of a stream until the client
    has it.  A program is a state monad over the channel, the world and a trace
    that no program reads.

    The theorems: a request is answered by one response with the status of the
    table, a stream travels with OK and only with it, and the connector is asked
    for exactly what the client encoded ([serve_one_exact]); over a whole run
    every request is answered in its turn but perhaps the last, and every
    descriptor taken from the connector is closed ([channel_run_balanced]); a
    kept copy is released within its bound ([held_released]). *)

From S2P Require Import Prelude Common Codec Config Policy Receipt Server Reactor.

(** * Descriptor passing *)

Module Fdpass.
(** The results of the library; [OS true] is an interrupted call. *)
Inductive result := OK | WOULD_BLOCK | CLOSED | RESET | ARGUMENT | OS (interrupted : bool) | OTHER.

#[global] Instance result_eq_dec : EqDecision result.
Proof. solve_decision. Defined.

(** What a receive yields: the bytes, the descriptors it had room for, and the
    flags. *)
Record received := Message {
  data : bytes;
  fds : list Z;
  truncated : bool;
  control_truncated : bool;
  surplus : bool;
}.

Definition flagged (r : received) : bool := truncated r || control_truncated r || surplus r.

(** The contract of a receive with a buffer of [capacity] bytes and room for
    [room] descriptors: those beyond are closed by the library. *)
Record receives (capacity : Z) (room : nat) (r : received) : Prop := {
  receives_length : len (data r) <= capacity;
  receives_bytes : Forall is_byte (data r);
  receives_room : (length (fds r) <= room)%nat;
  receives_fds : Forall (fun fd => 0 <= fd) (fds r);
}.
End Fdpass.

(** * The world of the thread *)

Definition CHANNEL_HOLD_MS : Z := 1000.
Definition CHANNEL_HOLD_PAUSE_MAX_MS : Z := 8.

Inductive channel_token := TOKEN_REQUESTS | TOKEN_WAKEUP | TOKEN_OTHER.

Record channel_signal := Signal {
  token : channel_token;
  readable : bool;
  hung_up : bool;
}.

(** [ch_arm] is the creation of the loop and its two watches; [ch_loop_step]
    waits until the deadline ([None] is infinite) and yields at most four
    events, or [None] for a failure.  A session that opens is its descriptor. *)
Class ChannelSys := {
  cworld : Type;
  ch_receive : Z -> Z -> nat -> cworld -> (Fdpass.result * Fdpass.received) * cworld;
  ch_send : Z -> bytes -> option Z -> cworld -> Fdpass.result * cworld;
  ch_session_open : bytes -> Z -> Z -> cworld -> (maelys_egress_result_t * Z) * cworld;
  ch_close : Z -> cworld -> unit * cworld;
  ch_clock : cworld -> option Z * cworld;
  ch_in_use : Z -> cworld -> bool * cworld;
  ch_arm : cworld -> bool * cworld;
  ch_loop_step : option Z -> cworld -> option (list channel_signal) * cworld;
}.

Class ChannelLaws `{ChannelSys} : Prop := {
  law_ch_receive fd capacity room w r :
    (ch_receive fd capacity room w).1 = (Fdpass.OK, r) -> Fdpass.receives capacity room r;
  law_ch_open host port timeout w fd :
    (ch_session_open host port timeout w).1 = (MAELYS_EGRESS_OK, fd) -> 0 <= fd;
  law_ch_clock w n : (ch_clock w).1 = Some n -> 0 <= n;
}.

(** What the thread does that another process, or its own descriptor table,
    sees. *)
Inductive channel_event :=
| Request (b : bytes)
| Asked (host : bytes) (port timeout : Z)
| Took (fd : Z)
| Answered (b : bytes) (stream : option Z)
| Refused (b : bytes)
| Dropped (fd : Z).

Record maelys_egress_channel := Channel_ {
  connect_timeout_ms : Z;
  server_fd : Z;
  held_fd : Z;
  held_until : Z;
  held_check : Z;
  held_pause : Z;
}.

#[export] Instance eta_channel : Eta maelys_egress_channel := fun c =>
  Channel_ (connect_timeout_ms c) (server_fd c) (held_fd c) (held_until c) (held_check c) (held_pause c).

#[export] Existing Instance Channel.status_eq_dec.

(** The explicit table of the contract. *)
Definition status_of (result : maelys_egress_result_t) : Channel.maelys_egress_channel_status_t :=
  match result with
  | MAELYS_EGRESS_OK => Channel.OK
  | MAELYS_EGRESS_ERR_DENIED => Channel.DENIED
  | MAELYS_EGRESS_ERR_TIMEOUT => Channel.TIMEOUT
  | MAELYS_EGRESS_ERR_CANCELLED | MAELYS_EGRESS_ERR_STATE => Channel.CANCELLED
  | MAELYS_EGRESS_ERR_MEMORY => Channel.RESOURCE
  | MAELYS_EGRESS_ERR_ARGUMENT | MAELYS_EGRESS_ERR_PROTOCOL => Channel.MALFORMED
  | _ => Channel.INTERNAL
  end.

Section Thread.
Context `{ChannelSys} (apple : bool).

Record cstate := CState {
  channel : maelys_egress_channel;
  the_cworld : cworld;
  ctrace : list channel_event;
}.

#[export] Instance eta_cstate : Eta cstate := fun s => CState (channel s) (the_cworld s) (ctrace s).

Definition P (A : Type) : Type := cstate -> A * cstate.

#[export] Instance P_ret : MRet P := fun A a s => (a, s).
#[export] Instance P_bind : MBind P := fun A B f x s => let '(a, s') := x s in f a s'.

Definition ask {A} (f : cworld -> A * cworld) : P A := fun s =>
  let '(a, w) := f (the_cworld s) in (a, s <| the_cworld := w |>).
Definition record (e : channel_event) : P unit := fun s => (tt, s <| ctrace := e :: ctrace s |>).
Definition get_channel : P maelys_egress_channel := fun s => (channel s, s).
Definition set_channel (f : maelys_egress_channel -> maelys_egress_channel) : P unit := fun s =>
  (tt, s <| channel := f (channel s) |>).
Definition whenever (b : bool) (p : P unit) : P unit := if b then p else mret tt.

(** [maelys_sys_fd_close], which closes a descriptor that is not -1. *)
Definition fd_close (fd : Z) : P unit := whenever (0 <=? fd) (ask (ch_close fd);; record (Dropped fd)).

(** The whole response, or nothing: whether the kernel took the datagram. *)
Definition send_response (status : Channel.maelys_egress_channel_status_t) (stream_fd : Z) : P bool :=
  match Channel.maelys_egress_channel_encode_response (Channel.status_code status) Channel.RESPONSE_SIZE with
  | None => mret false
  | Some response =>
      c ← get_channel;
      let stream := if 0 <=? stream_fd then Some stream_fd else None in
      sent ← ask (ch_send (server_fd c) response stream);
      if bool_decide (sent = Fdpass.OK) then record (Answered response stream);; mret true
      else record (Refused response);; mret false
  end.

Definition release_held : P unit :=
  c ← get_channel;
  fd_close (held_fd c);;
  set_channel (fun c => c <| held_fd := -1 |>).

(** What is left of the stream: -1 when it is kept. *)
Definition hold_stream (stream_fd : Z) : P unit :=
  if apple then
    if 0 <=? stream_fd then
      now ← ask ch_clock;
      match now with
      | Some now =>
          set_channel (fun c => c <| held_fd := stream_fd |> <| held_until := u64 (now + CHANNEL_HOLD_MS) |>
            <| held_pause := 1 |> <| held_check := u64 (now + 1) |>)
      | None => fd_close stream_fd
      end
    else mret tt
  else fd_close stream_fd.

Definition check_held : P unit :=
  if apple then
    c ← get_channel;
    if held_fd c <? 0 then mret tt
    else
      now ← ask ch_clock;
      match now with
      | None => release_held
      | Some now =>
          if held_until c <=? now then release_held
          else
            used ← ask (ch_in_use (held_fd c));
            if used : bool then release_held
            else whenever (held_check c <=? now)
              (let pause := if held_pause c <? CHANNEL_HOLD_PAUSE_MAX_MS then u64 (held_pause c * 2)
                            else held_pause c in
               set_channel (fun c => c <| held_pause := pause |>
                 <| held_check := Z.min (u64 (now + pause)) (held_until c) |>))
      end
  else mret tt.

(** The session of a decoded request: the result and the stream, -1 without
    one.  Taking the descriptor leaves nothing for the release of the session. *)
Definition open_session (host : bytes) (port_ : Z) : P (maelys_egress_result_t * Z) :=
  c ← get_channel;
  record (Asked host port_ (connect_timeout_ms c));;
  opened ← ask (ch_session_open host port_ (connect_timeout_ms c));
  match opened with
  | (MAELYS_EGRESS_OK, session) =>
      record (Took session);;
      let '(result, stream_fd, session) := maelys_egress_session_take_fd session in
      fd_close session;;
      mret (result, stream_fd)
  | (result, _) => mret (result, -1)
  end.

(** The status of a received request, its stream and its host and port. *)
Definition serve_request (r : Fdpass.received) : P (Channel.maelys_egress_channel_status_t * Z) :=
  if Fdpass.truncated r || Fdpass.control_truncated r || Fdpass.surplus r
  then mret (Channel.MALFORMED, -1)
  else
    let '(status, decoded) := Channel.maelys_egress_channel_decode_request (Fdpass.data r) in
    if bool_decide (status = Channel.OK) then
      '(result, stream_fd) ← open_session (Channel.host decoded) (Channel.port decoded);
      mret (status_of result, stream_fd)
    else mret (status, -1).

(** [false] is the return 0: the channel is gone. *)
Definition serve_one : P bool :=
  c ← get_channel;
  '(got, r) ← ask (ch_receive (server_fd c)
                    (Channel.REQUEST_HEADER_SIZE + Channel.MAX_HOST + 1) 0);
  if bool_decide (got = Fdpass.WOULD_BLOCK) then mret true
  else if negb (bool_decide (got = Fdpass.OK)) then mret false
  else
    record (Request (Fdpass.data r));;
    release_held;;
    '(status, stream_fd) ← serve_request r;
    delivered ← send_response status stream_fd;
    (if (delivered : bool) then hold_stream stream_fd else fd_close stream_fd);;
    mret delivered.

(** One event, while the thread serves. *)
Definition serve_event (e : channel_signal) : P bool :=
  match token e with
  | TOKEN_WAKEUP => mret false
  | TOKEN_REQUESTS =>
      served ← (if readable e then serve_one else mret true);
      mret (served && negb (hung_up e))
  | TOKEN_OTHER => mret true
  end.

Fixpoint serve_events (events : list channel_signal) : P bool :=
  match events with
  | [] => mret true
  | e :: events => serving ← serve_event e; if serving : bool then serve_events events else mret false
  end.

(** A turn of the loop: whether the thread goes on serving. *)
Definition channel_turn : P bool :=
  check_held;;
  c ← get_channel;
  events ← ask (ch_loop_step (if 0 <=? held_fd c then Some (held_check c) else None));
  match events with
  | None => mret false
  | Some events => serve_events events
  end.

(** The loop, a unit of fuel per turn: whether it has ended. *)
Fixpoint channel_loop (turns : nat) : P bool :=
  match turns with
  | O => mret false
  | S turns => serving ← channel_turn; if serving : bool then channel_loop turns else mret true
  end.

(** The end of the thread closes what it owns. *)
Definition channel_end : P unit :=
  release_held;;
  c ← get_channel;
  ask (ch_close (server_fd c));;
  set_channel (fun c => c <| server_fd := -1 |>).

(** The thread: [None] while the loop has not ended within the turns. *)
Definition channel_main (turns : nat) : P (option bool) :=
  armed ← ask ch_arm;
  if armed : bool then
    ended ← channel_loop turns;
    if ended : bool then channel_end;; mret (Some true) else mret None
  else channel_end;; mret (Some false).

End Thread.

(** * Traces *)

(** The trace is kept latest first. *)
Definition conversation (e : channel_event) : bool :=
  match e with Took _ | Dropped _ => false | _ => true end.

Definition taken (l : list channel_event) : list Z :=
  omap (fun e => match e with Took fd => Some fd | _ => None end) l.
Definition dropped (l : list channel_event) : list Z :=
  omap (fun e => match e with Dropped fd => Some fd | _ => None end) l.

Definition holding (c : maelys_egress_channel) : list Z :=
  if 0 <=? held_fd c then [held_fd c] else [].

Section Facts.
Context `{ChannelSys} (apple : bool).

(** Every descriptor taken is kept or was dropped. *)
Definition balanced (s : cstate) : Prop :=
  taken (ctrace s) ≡ₚ holding (channel s) ++ dropped (ctrace s).

(** A program that keeps the two ends and the timeout of the channel, adds to
    the trace, and has a postcondition. *)
Definition runs {A} (p : P A) (s : cstate) (Q : A -> list channel_event -> cstate -> Prop) : Prop :=
  let '(a, s') := p s in exists l, ctrace s' = l ++ ctrace s /\ Q a l s'.

Lemma runs_bind {A B} (p : P A) (f : A -> P B) s Q :
  runs p s (fun a l s' => runs (f a) s' (fun b l' => Q b (l' ++ l))) -> runs (p ≫= f) s Q.
Proof.
  unfold runs, mbind, P_bind. destruct (p s) as [a s']. intros (l & El & Hf).
  destruct (f a s') as [b s'']. destruct Hf as (l' & El' & HQ).
  exists (l' ++ l). by rewrite El', El, app_assoc.
Qed.

Lemma runs_mono {A} (p : P A) s (Q R : A -> list channel_event -> cstate -> Prop) :
  runs p s Q -> (forall a l s', Q a l s' -> R a l s') -> runs p s R.
Proof. unfold runs. destruct (p s). intros (l & El & HQ) HR. eauto. Qed.

Lemma runs_ret {A} (a : A) s Q : Q a [] s -> runs (mret a) s Q.
Proof. intros HQ. exists []. done. Qed.

Lemma runs_ask {A} (f : cworld -> A * cworld) s Q :
  Q (f (the_cworld s)).1 [] (s <| the_cworld := (f (the_cworld s)).2 |>) -> runs (ask f) s Q.
Proof. unfold runs, ask. destruct (f (the_cworld s)) as [a w]. intros HQ. by exists []. Qed.

Lemma runs_record e s Q : Q tt [e] (s <| ctrace := e :: ctrace s |>) -> runs (record e) s Q.
Proof. intros HQ. by exists [e]. Qed.

Lemma runs_get s Q : Q (channel s) [] s -> runs get_channel s Q.
Proof. intros HQ. by exists []. Qed.

Lemma runs_set f s Q : Q tt [] (s <| channel := f (channel s) |>) -> runs (set_channel f) s Q.
Proof. intros HQ. by exists []. Qed.

Lemma runs_close fd s Q :
  (forall w, Q tt (if 0 <=? fd then [Dropped fd] else [])
     (CState (channel s) w ((if 0 <=? fd then [Dropped fd] else []) ++ ctrace s))) ->
  runs (fd_close fd) s Q.
Proof.
  intros HQ. unfold fd_close, whenever. destruct (0 <=? fd).
  - apply runs_bind, runs_ask. apply runs_record. apply HQ.
  - apply runs_ret. specialize (HQ (the_cworld s)). by destruct s.
Qed.

Lemma runs_release s Q :
  (forall w, let l := map Dropped (holding (channel s)) in
     Q tt l (CState (channel s <| held_fd := -1 |>) w (l ++ ctrace s))) ->
  runs release_held s Q.
Proof.
  intros HQ. unfold release_held, holding in *. apply runs_bind, runs_get, runs_bind, runs_close.
  intros w. apply runs_set. destruct (0 <=? held_fd (channel s)); apply (HQ w).
Qed.
End Facts.

(** Runs the next call of the program in the goal. *)
Ltac prog :=
  first [apply runs_close; intros ? | apply runs_release; intros ?; cbn zeta
        | apply runs_bind | apply runs_get | apply runs_set | apply runs_record
        | apply runs_ret | apply runs_ask];
  cbn [app].

Section Serve.
Context `{ChannelSys} {Hlaws : ChannelLaws} (apple : bool).

(** The reply to a request: its status and its stream. *)
Inductive replies (timeout : Z) (r : Fdpass.received) :
  list channel_event -> Channel.maelys_egress_channel_status_t -> option Z -> Prop :=
| replies_refused status :
    status = (if Fdpass.flagged r then Channel.MALFORMED
              else (Channel.maelys_egress_channel_decode_request (Fdpass.data r)).1) ->
    status <> Channel.OK -> replies timeout r [] status None
| replies_opened host port w result fd :
    Fdpass.flagged r = false ->
    Channel.maelys_egress_channel_decode_request (Fdpass.data r) =
      (Channel.OK, Channel.Request 1 1 port (len host) host) ->
    (ch_session_open host port timeout w).1 = (result, fd) ->
    replies timeout r [Asked host port timeout] (status_of result)
      (if bool_decide (result = MAELYS_EGRESS_OK) then Some fd else None).

Lemma status_of_OK r : status_of r = Channel.OK <-> r = MAELYS_EGRESS_OK.
Proof. by destruct r. Qed.

Lemma runs_open_session host port s Q :
  (forall w result fd, 
     (ch_session_open host port (connect_timeout_ms (channel s)) (the_cworld s)).1 = (result, fd) ->
     let ok := bool_decide (result = MAELYS_EGRESS_OK) in
     let l := (if ok then [Took fd] else []) ++ [Asked host port (connect_timeout_ms (channel s))] in
     Q (result, if ok then fd else -1) l (CState (channel s) w (l ++ ctrace s))) ->
  runs (open_session host port) s Q.
Proof using Hlaws.
  intros HQ. unfold open_session. prog. prog. prog. prog. prog. prog.
  simpl. destruct (ch_session_open _ _ _ _) as [[result fd] w] eqn:E. cbn [fst snd].
  pose proof (fun w' => HQ w' result fd eq_refl) as HQ'. cbn zeta in HQ'. clear HQ.
  destruct (bool_decide_reflect (result = MAELYS_EGRESS_OK)) as [->|Hne].
  - assert (Hfd : 0 <= fd) by (eapply (law_ch_open host port); by rewrite E).
    prog. prog. unfold maelys_egress_session_take_fd. destruct (Z.ltb_spec fd 0); [lia|].
    prog. prog. prog. apply HQ'.
  - destruct result; try done; prog; exact (HQ' w).
Qed.

Lemma runs_serve_request r s Q :
  Forall is_byte (Fdpass.data r) ->
  (forall w asked status stream, replies (connect_timeout_ms (channel s)) r asked status stream ->
     let l := match stream with Some fd => [Took fd] | None => [] end ++ asked in
     (forall fd, stream = Some fd -> 0 <= fd) ->
     Q (status, default (-1) stream) l (CState (channel s) w (l ++ ctrace s))) ->
  runs (serve_request r) s Q.
Proof using Hlaws.
  intros Hb HQ. unfold serve_request. destruct (Fdpass.truncated r || _ || _) eqn:Ef.
  - prog. specialize (HQ (the_cworld s) [] Channel.MALFORMED None). destruct s. apply HQ; [|done].
    constructor; [|done]. unfold Fdpass.flagged. by rewrite Ef.
  - destruct (Channel.maelys_egress_channel_decode_request (Fdpass.data r)) as [status decoded] eqn:Ed.
    destruct (bool_decide_reflect (status = Channel.OK)) as [->|Hne].
    + assert (Ed' : Channel.maelys_egress_channel_decode_request (Fdpass.data r) =
        (Channel.OK, Channel.Request 1 1 (Channel.port decoded) (len (Channel.host decoded)) (Channel.host decoded))).
      { apply ChannelFacts.decode_message_request; [done|]. unfold ChannelFacts.decode_message. by rewrite Ed. }
      prog. apply runs_open_session. intros w result fd E. cbn zeta. prog.
      pose proof (replies_opened (connect_timeout_ms (channel s)) r (Channel.host decoded) (Channel.port decoded) _ result fd Ef Ed' E) as Hr.
      specialize (HQ w _ _ _ Hr).
      destruct (bool_decide_reflect (result = MAELYS_EGRESS_OK)) as [->|].
      * apply HQ. intros fd' [= <-]. eapply law_ch_open. exact E.
      * by apply HQ.
    + prog. specialize (HQ (the_cworld s) [] status None). destruct s. apply HQ; [|done].
      constructor; [|done]. unfold Fdpass.flagged. rewrite Ef. by rewrite Ed.
Qed.

(** What the thread never changes. *)
Definition same_ends (c c' : maelys_egress_channel) : Prop :=
  connect_timeout_ms c' = connect_timeout_ms c /\ server_fd c' = server_fd c.

Definition ledger (s : cstate) (l : list channel_event) (s' : cstate) : Prop :=
  holding (channel s) ++ taken l ≡ₚ holding (channel s') ++ dropped l.

Definition wire_response (status : Channel.maelys_egress_channel_status_t) : bytes :=
  default [] (Channel.maelys_egress_channel_encode_response (Channel.status_code status) Channel.RESPONSE_SIZE).

(** What [serve_one] does: a request that arrives gets one reply, and without
    one nothing happens, the thread going on only when there was none yet. *)
Definition served (s : cstate) (go : bool) (l : list channel_event) (s' : cstate) : Prop :=
  match (ch_receive (server_fd (channel s)) (Channel.REQUEST_HEADER_SIZE + Channel.MAX_HOST + 1) 0 (the_cworld s)).1 with
  | (Fdpass.OK, r) =>
      exists asked status stream,
        replies (connect_timeout_ms (channel s)) r asked status stream /\
        List.filter conversation l =
          (if go then Answered (wire_response status) stream else Refused (wire_response status)) ::
          asked ++ [Request (Fdpass.data r)]
  | (got, _) => l = [] /\ channel s' = channel s /\ go = bool_decide (got = Fdpass.WOULD_BLOCK)
  end.

Lemma taken_app a b : taken (a ++ b) = taken a ++ taken b.
Proof. apply omap_app. Qed.
Lemma dropped_app a b : dropped (a ++ b) = dropped a ++ dropped b.
Proof. apply omap_app. Qed.
Lemma taken_dropping fds : taken (map Dropped fds) = [].
Proof. induction fds; simpl; auto. Qed.
Lemma dropped_dropping fds : dropped (map Dropped fds) = fds.
Proof. induction fds as [|fd fds IH]; simpl; [done|]. change (dropped (Dropped fd :: ?l)) with (fd :: dropped l). by rewrite IH. Qed.
Lemma talk_dropping fds : List.filter conversation (map Dropped fds) = [].
Proof. induction fds; simpl; auto. Qed.

Lemma asked_talk timeout r asked status stream :
  replies timeout r asked status stream ->
  List.filter conversation asked = asked /\ taken asked = [] /\ dropped asked = [].
Proof. by intros []. Qed.

Lemma runs_send status stream_fd s Q :
  (forall w (go : bool), let stream := if 0 <=? stream_fd then Some stream_fd else None in
     let l := [if go then Answered (wire_response status) stream else Refused (wire_response status)] in
     Q go l (CState (channel s) w (l ++ ctrace s))) ->
  runs (send_response status stream_fd) s Q.
Proof.
  intros HQ. unfold send_response.
  assert (Ew : Channel.maelys_egress_channel_encode_response (Channel.status_code status) Channel.RESPONSE_SIZE =
    Some (wire_response status)) by (by destruct status).
  rewrite Ew. prog. prog. prog. prog. destruct (ch_send _ _ _ _) as [sent w]. cbn [fst snd].
  destruct (bool_decide _).
  - prog. prog. prog. apply (HQ w true).
  - prog. prog. prog. apply (HQ w false).
Qed.

(** Giving up the stream after the reply: dropped, or kept. *)
Lemma runs_abandon (go : bool) stream_fd s Q :
  holding (channel s) = [] ->
  (forall w c' l, same_ends (channel s) c' -> List.filter conversation l = [] ->
     taken l = [] -> holding c' ++ dropped l ≡ₚ (if 0 <=? stream_fd then [stream_fd] else []) ->
     Q tt l (CState c' w (l ++ ctrace s))) ->
  runs (if go then hold_stream apple stream_fd else fd_close stream_fd) s Q.
Proof.
  intros Hh HQ.
  assert (Hn : (0 <=? held_fd (channel s)) = false) by (unfold holding in Hh; by destruct (0 <=? _)).
  assert (Hclose : runs (fd_close stream_fd) s Q).
  { apply runs_close. intros w. apply HQ; [done|by destruct (0 <=? _)|by destruct (0 <=? _)|].
    rewrite Hh. by destruct (0 <=? stream_fd). }
  destruct go; [|done]. unfold hold_stream. destruct apple; [|done].
  destruct (0 <=? stream_fd) eqn:Es.
  - prog. prog. destruct (ch_clock _) as [[now|] w] eqn:Ec; cbn [fst snd].
    + prog. apply (HQ w _ []); [done..|]. unfold holding. simpl. by rewrite Es.
    + prog. specialize (HQ w0 (channel s) [Dropped stream_fd]). rewrite Es. apply HQ; try done.
      rewrite Hh. done.
  - prog. specialize (HQ (the_cworld s) (channel s) []). destruct s. apply HQ; try done. by rewrite Hh.
Qed.

Lemma serve_one_runs s :
  runs (serve_one apple) s (fun go l s' =>
    served s go l s' /\ same_ends (channel s) (channel s') /\ ledger s l s').
Proof using Hlaws.
  unfold serve_one. prog. prog. prog. prog.
  destruct (ch_receive _ _ _ _) as [[got r] w0] eqn:Er. cbn [fst snd].
  assert (Hnone : got <> Fdpass.OK ->
    served s (bool_decide (got = Fdpass.WOULD_BLOCK)) [] (s <| the_cworld := w0 |>) /\
    same_ends (channel s) (channel s) /\ ledger s [] (s <| the_cworld := w0 |>)).
  { intros Hg. split_and!; [|by split|unfold ledger; by rewrite !app_nil_r].
    unfold served. rewrite Er. by destruct got. }
  destruct (bool_decide_reflect (got = Fdpass.WOULD_BLOCK)) as [->|]; [prog; by apply Hnone|].
  destruct (bool_decide_reflect (got = Fdpass.OK)) as [->|]; [|prog; by apply Hnone].
  pose proof (law_ch_receive _ _ _ _ _ (f_equal fst Er)) as Hr.
  cbn [negb]. prog. prog. prog. prog. prog.
  apply runs_serve_request; [apply Hr|]. intros w2 asked status stream Hrep. cbn zeta. intros Hfd.
  prog. apply runs_send. intros w3 go. cbn zeta. prog. apply runs_abandon; [done|].
  intros w4 c' l Hends Hl Ht Hd. prog. simpl in Hends.
  destruct (asked_talk _ _ _ _ _ Hrep) as (Ha1 & Ha2 & Ha3).
  assert (Es : (if 0 <=? default (-1) stream then Some (default (-1) stream) else None) = stream).
  { destruct stream as [fd|]; [|done]. specialize (Hfd fd eq_refl). simpl.
    by destruct (Z.leb_spec 0 fd); [|lia]. }
  split_and!.
  - unfold served. rewrite Er. exists asked, status, stream. split; [exact Hrep|].
    rewrite Es, app_nil_r, !List.filter_app, Hl, talk_dropping, Ha1. cbn [List.filter conversation app].
    destruct go; destruct stream; simpl; by rewrite ?app_nil_r.
  - exact Hends.
  - unfold ledger. simpl. rewrite app_nil_r, !taken_app, !dropped_app, Ht, Ha2, Ha3, taken_dropping, dropped_dropping.
    assert (Hk : dropped (match stream with Some fd => [Took fd] | None => [] end) = [] /\
      taken (match stream with Some fd => [Took fd] | None => [] end) =
        (if 0 <=? default (-1) stream then [default (-1) stream] else [])).
    { destruct stream as [fd|]; [|done]. specialize (Hfd fd eq_refl). simpl. split; [done|].
      by destruct (Z.leb_spec 0 fd); [|lia]. }
    destruct Hk as [-> ->]. rewrite <-Hd.
    destruct go; cbn; rewrite ?app_nil_r, ?app_nil_l; rewrite (app_assoc (holding c')); apply Permutation_app_comm.
Qed.

(** * Whole runs *)

(** A conversation, latest first: requests, each with what was asked of the
    connector and its answer, and once an answer is not taken nothing more. *)
Inductive dialogue (timeout : Z) : bool -> list channel_event -> Prop :=
| dialogue_nil : dialogue timeout true []
| dialogue_turn l go r asked status stream :
    dialogue timeout true l -> replies timeout r asked status stream ->
    dialogue timeout go
      ((if go then Answered (wire_response status) stream else Refused (wire_response status)) ::
       asked ++ Request (Fdpass.data r) :: l).

(** The invariant of the thread. *)
Record channel_ok (timeout : Z) (go : bool) (s : cstate) : Prop := {
  channel_dialogue : exists open, dialogue timeout open (List.filter conversation (ctrace s)) /\
    (go = true -> open = true);
  channel_balanced : balanced s;
  channel_timeout : connect_timeout_ms (channel s) = timeout;
}.

Definition keeps {A} (timeout : Z) (p : P A) (go : A -> bool) : Prop :=
  forall s, channel_ok timeout true s -> let '(a, s') := p s in channel_ok timeout (go a) s'.

Lemma keeps_runs {A} timeout (p : P A) (go : A -> bool) (Q : cstate -> A -> list channel_event -> cstate -> Prop) :
  (forall s, channel_ok timeout true s -> runs p s (Q s)) ->
  (forall s a l s', channel_ok timeout true s -> ctrace s' = l ++ ctrace s -> Q s a l s' ->
     channel_ok timeout (go a) s') -> keeps timeout p go.
Proof.
  intros Hr Hk s Hs. specialize (Hr s Hs). unfold runs in Hr. destruct (p s) as [a s'].
  destruct Hr as (l & El & HQ). by eapply Hk.
Qed.

Lemma ledger_balanced s l s' : balanced s -> ctrace s' = l ++ ctrace s -> ledger s l s' -> balanced s'.
Proof.
  unfold balanced, ledger. intros Hb -> Hl. rewrite taken_app, dropped_app, Hb.
  rewrite (Permutation_app_comm (taken l)), <-app_assoc, (Permutation_app_comm (dropped _)), app_assoc.
  rewrite Hl. by rewrite <-app_assoc.
Qed.

Lemma serve_one_keeps timeout : keeps timeout (serve_one apple) id.
Proof using Hlaws.
  eapply keeps_runs; [intros s Hs; apply serve_one_runs|].
  intros s go l s' Hs El (Hsv & [Et _] & Hl). destruct Hs as [(open & Hd & Ho) Hbal Ht].
  split; [|by eapply ledger_balanced|congruence].
  rewrite (Ho eq_refl) in Hd. rewrite El, List.filter_app.
  unfold served in Hsv. destruct (ch_receive _ _ _ _) as [[got r] w]. cbn [fst] in Hsv.
  destruct got; try (destruct Hsv as (-> & _); by exists true).
  destruct Hsv as (asked & status & stream & Hrep & ->). rewrite Ht in Hrep. exists go. split; [|done]. cbn [app]. rewrite <-app_assoc. by constructor.
Qed.

Lemma quiet_keeps s l s' timeout go :
  channel_ok timeout go s -> ctrace s' = l ++ ctrace s -> List.filter conversation l = [] ->
  ledger s l s' -> connect_timeout_ms (channel s') = timeout ->
  channel_ok timeout go s'.
Proof.
  intros [Hd Hbal Ht] El Hl Hled Ht'. split; [|by eapply ledger_balanced|done].
  by rewrite El, List.filter_app, Hl.
Qed.

Lemma check_held_keeps timeout : keeps timeout (check_held apple) (fun _ => true).
Proof.
  eapply (keeps_runs _ _ _ (fun s _ l s' => List.filter conversation l = [] /\ ledger s l s' /\
    connect_timeout_ms (channel s') = connect_timeout_ms (channel s)));
    [|intros s a l s' Hs El (Hl & Hled & Ht); eapply quiet_keeps; try done; rewrite Ht; apply Hs].
  intros s _. unfold check_held.
  assert (Hrel : forall s1, channel s1 = channel s -> runs release_held s1 (fun _ l s' =>
    List.filter conversation l = [] /\ ledger s l s' /\
    connect_timeout_ms (channel s') = connect_timeout_ms (channel s))).
  { intros s1 E. prog. rewrite talk_dropping. unfold ledger. rewrite taken_dropping, dropped_dropping, E.
    split_and!; [done| |done]. rewrite app_nil_r. done. }
  assert (Hnop : forall s1, channel s1 = channel s -> List.filter conversation [] = [] /\ ledger s [] s1 /\
    connect_timeout_ms (channel s1) = connect_timeout_ms (channel s)).
  { intros s1 E. unfold ledger. rewrite E. by split_and!. }
  destruct apple; [|prog; by apply Hnop]. prog. prog.
  destruct (Z.ltb_spec (held_fd (channel s)) 0); [prog; by apply Hnop|].
  assert (Hrel' : forall s1 Q, channel s1 = channel s ->
    (forall l s', List.filter conversation l = [] /\ ledger s l s' /\
       connect_timeout_ms (channel s') = connect_timeout_ms (channel s) -> Q tt l s') -> runs release_held s1 Q).
  { intros s1 Q E HQ. eapply runs_mono; [by apply Hrel|]. intros [] l s' Hl. by apply HQ. }
  prog. prog. destruct (ch_clock _) as [[now|] w]; cbn [fst snd];
    [|apply Hrel'; [done|]; intros l s'; by rewrite !app_nil_r].
  destruct (Z.leb_spec (held_until (channel s)) now); [apply Hrel'; [done|]; intros l s'; by rewrite !app_nil_r|].
  prog. prog. destruct (ch_in_use _ _) as [[] w']; cbn [fst snd];
    [apply Hrel'; [done|]; intros l s'; by rewrite !app_nil_r|].
  unfold whenever. destruct (_ <=? now); [|prog; by apply Hnop]. prog. split_and!; [done|by unfold ledger, holding|done].
Qed.

Lemma serve_event_keeps timeout e : keeps timeout (serve_event apple e) id.
Proof using Hlaws.
  intros s Hs. unfold serve_event. destruct (token e).
  - unfold mbind, P_bind. destruct (readable e).
    + pose proof (serve_one_keeps timeout s Hs) as Hk. destruct (serve_one apple s) as [served_ s'].
      simpl. destruct Hk as [(open & Hd & Ho) ? ?]. split; [|done..]. exists open. split; [done|].
      unfold id in *. intros E. apply Ho. by destruct served_.
    + simpl. destruct Hs as [(open & Hd & Ho) ? ?]. split; [|done..]. exists open. auto.
  - destruct Hs as [(open & Hd & Ho) ? ?]. split; [|done..]. exists open. auto.
  - done.
Qed.

Lemma serve_events_keeps timeout events : keeps timeout (serve_events apple events) id.
Proof using Hlaws.
  induction events as [|e events IH]; intros s Hs; [done|]. simpl. unfold mbind, P_bind.
  pose proof (serve_event_keeps timeout e s Hs) as Hk. destruct (serve_event apple e s) as [[] s']; [by apply IH|done].
Qed.

Lemma world_ok timeout go s w : channel_ok timeout go s -> channel_ok timeout go (s <| the_cworld := w |>).
Proof. by intros []. Qed.

Lemma channel_turn_keeps timeout : keeps timeout (channel_turn apple) id.
Proof using Hlaws.
  intros s Hs. unfold channel_turn, mbind, P_bind.
  pose proof (check_held_keeps timeout s Hs) as Hk. destruct (check_held apple s) as [[] s1].
  unfold get_channel, ask. destruct (ch_loop_step _ _) as [[events|] w].
  - apply serve_events_keeps. by apply world_ok.
  - simpl. unfold id. destruct Hk as [(open & Hd & Ho) ? ?]. split; [|done..]. exists open. auto.
Qed.

Lemma channel_loop_keeps timeout turns : keeps timeout (channel_loop apple turns) negb.
Proof using Hlaws.
  induction turns as [|turns IH]; intros s Hs; [done|]. simpl. unfold mbind, P_bind.
  pose proof (channel_turn_keeps timeout s Hs) as Hk. destruct (channel_turn apple s) as [[] s']; [by apply IH|done].
Qed.

Lemma channel_end_ok timeout go s :
  channel_ok timeout go s -> let '(_, s') := channel_end s in
  channel_ok timeout go s' /\ holding (channel s') = [] /\ server_fd (channel s') = -1.
Proof.
  intros Hs.
  assert (Hr : runs channel_end s (fun _ l s' => List.filter conversation l = [] /\ ledger s l s' /\
    connect_timeout_ms (channel s') = connect_timeout_ms (channel s) /\
    holding (channel s') = [] /\ server_fd (channel s') = -1)).
  { unfold channel_end. prog. prog. prog. prog. prog. prog. prog. cbn [fst snd].
    rewrite talk_dropping. unfold ledger. rewrite taken_dropping, dropped_dropping.
    split_and!; [done| |done|done|done]. by rewrite app_nil_r. }
  unfold runs in Hr. destruct (channel_end s) as [[] s']. destruct Hr as (l & El & Hl & Hled & Ht & Hh & Hf).
  split_and!; [|done|done]. eapply quiet_keeps; try done. rewrite Ht. apply Hs.
Qed.

(** A channel as [maelys_egress_channel_create] hands it to its thread. *)
Definition fresh (timeout : Z) (s : cstate) : Prop :=
  ctrace s = [] /\ held_fd (channel s) = -1 /\ connect_timeout_ms (channel s) = timeout.

Lemma fresh_channel_ok timeout s : fresh timeout s -> channel_ok timeout true s.
Proof.
  intros (Et & Eh & Ec). split; [|unfold balanced|done].
  - exists true. rewrite Et. split; [constructor|done].
  - unfold holding. rewrite Et, Eh. done.
Qed.

Lemma channel_main_ok timeout turns s :
  fresh timeout s -> let '(ended, s') := channel_main apple turns s in
  channel_ok timeout false s' /\ (ended <> None -> holding (channel s') = [] /\ server_fd (channel s') = -1).
Proof using Hlaws.
  intros Hs%fresh_channel_ok. unfold channel_main, mbind, P_bind, ask.
  assert (Hend : forall go s1 (b : bool), channel_ok timeout go s1 ->
    let '(ended, s') := (let '(_, s'') := channel_end s1 in (Some b, s'')) in
    channel_ok timeout false s' /\ (ended <> None -> holding (channel s') = [] /\ server_fd (channel s') = -1)).
  { intros go s1 b H1. pose proof (channel_end_ok timeout go s1 H1) as He. destruct (channel_end s1) as [[] s'].
    destruct He as ([(open & Hd & Ho) ? ?] & ? & ?). split; [|done]. split; [|done..]. exists open. done. }
  destruct (ch_arm _) as [[] w].
  - pose proof (channel_loop_keeps timeout turns _ (world_ok _ _ _ w Hs)) as Hk.
    destruct (channel_loop apple turns _) as [[] s1]; [by eapply Hend|]. simpl in Hk. split; [|done].
    destruct Hk as [(open & Hd & Ho) ? ?]. split; [|done..]. exists open. done.
  - eapply Hend. by apply world_ok.
Qed.

Lemma replies_stream timeout r asked status stream :
  replies timeout r asked status stream -> status = Channel.OK <-> is_Some stream.
Proof.
  intros [status' _ Hne|host port w result fd _ _ _]; [by split; [|intros []]|].
  rewrite status_of_OK. case_bool_decide; split; done || by intros [].
Qed.

(** [serve_one] answers a request that has arrived with exactly one
    datagram: the response whose status is MALFORMED when descriptors or excess
    bytes came with the request, that of the decoder when it refuses the bytes,
    and otherwise that of the table for what the connector said when asked for
    exactly the decoded host and port; a stream goes with it when the status is
    OK and only then.  Without a request it does nothing.  Every descriptor that
    leaves the channel or the connector in the call is kept or closed, and the
    thread serves on exactly when the answer was taken or none was due. *)
Theorem serve_one_exact s :
  (let '(go, s') := serve_one apple s in
   exists l, ctrace s' = l ++ ctrace s /\ served s go l s' /\ same_ends (channel s) (channel s') /\
     ledger s l s') /\
  (forall timeout r asked status stream, replies timeout r asked status stream ->
     status = Channel.OK <-> is_Some stream).
Proof using Hlaws.
  split; [|exact replies_stream]. pose proof (serve_one_runs s) as Hr. unfold runs in Hr.
  destruct (serve_one apple s) as [go s']. destruct Hr as (l & El & ? & ? & ?). by exists l.
Qed.

(** However long the thread runs, and whatever the clients, the connector
    and the kernel answer, its conversation is a sequence of requests, each
    answered in its turn with the reply that is due, ending at the first answer
    that was not taken; every descriptor taken from the connector is closed or
    the one copy being kept, and once the thread has ended all are closed and
    so is its end of the pair. *)
Theorem channel_run_balanced timeout turns s :
  fresh timeout s ->
  let '(ended, s') := channel_main apple turns s in
  (exists open, dialogue timeout open (List.filter conversation (ctrace s'))) /\
  taken (ctrace s') ≡ₚ holding (channel s') ++ dropped (ctrace s') /\
  (is_Some ended -> taken (ctrace s') ≡ₚ dropped (ctrace s') /\ server_fd (channel s') = -1).
Proof using Hlaws.
  intros Hf. pose proof (channel_main_ok timeout turns s Hf) as Hm.
  destruct (channel_main apple turns s) as [ended s']. destruct Hm as ([(open & Hd & _) Hb _] & He).
  split; [by exists open|]. split; [exact Hb|]. intros [b ->]. destruct (He ltac:(done)) as [Hh Hs].
  split; [|exact Hs]. unfold balanced in Hb. by rewrite Hh in Hb.
Qed.

Lemma release_held_none s : held_fd (channel (release_held s).2) = -1.
Proof.
  unfold release_held, fd_close, whenever, mbind, P_bind, get_channel. destruct (0 <=? _); [|done].
  unfold ask. by destruct (ch_close _ _).
Qed.

(** A kept copy: after a check it is released, or the next check lies ahead and
    not beyond the bound, so the loop neither spins nor keeps it longer; as long
    as the clock is not within a pause of wrapping around. *)
Lemma held_released s :
  apple = true -> 0 <= held_fd (channel s) -> 1 <= held_pause (channel s) <= 2 * CHANNEL_HOLD_PAUSE_MAX_MS ->
  let c := channel s in let c' := channel (check_held apple s).2 in
  held_fd c' = -1 \/
  exists now, (ch_clock (the_cworld s)).1 = Some now /\
    (0 <= now -> now + 2 * CHANNEL_HOLD_PAUSE_MAX_MS <= UINT64_MAX ->
     now < held_check c' <= Z.max (held_check c) (held_until c) /\
     now < held_until c' /\ held_fd c' = held_fd c /\
     1 <= held_pause c' <= 2 * CHANNEL_HOLD_PAUSE_MAX_MS).
Proof.
  intros -> Hh Hp. cbn zeta. unfold check_held, mbind, P_bind, get_channel.
  destruct (Z.ltb_spec (held_fd (channel s)) 0); [lia|]. unfold ask.
  destruct (ch_clock (the_cworld s)) as [[now|] w]; [|left; apply release_held_none].
  destruct (Z.leb_spec (held_until (channel s)) now); [left; apply release_held_none|].
  cbn beta. destruct (ch_in_use _ _) as [[] w']; [left; apply release_held_none|].
  right. exists now. split; [done|]. unfold whenever, CHANNEL_HOLD_PAUSE_MAX_MS, UINT64_MAX in *. intros Hn Hw.
  destruct (Z.leb_spec (held_check (channel s)) now); simpl; [|lia].
  unfold u64. destruct (Z.ltb_spec (held_pause (channel s)) 8); rewrite ?(Z.mod_small (held_pause _ * 2)) by lia;
    rewrite Z.mod_small by lia; lia.
Qed.

(** A stop is heeded: events that hold the wake-up end the serving, and an
    ended loop is not changed by more turns. *)
Lemma wakeup_ends events s :
  Exists (fun e => token e = TOKEN_WAKEUP) events -> (serve_events apple events s).1 = false.
Proof.
  intros He. revert s. induction He as [e events Ht|e events _ IH]; intros s; simpl; unfold mbind, P_bind.
  - unfold serve_event. by rewrite Ht.
  - destruct (serve_event apple e s) as [[] s']; [apply IH|done].
Qed.

Lemma channel_loop_more turns more s s' :
  channel_loop apple turns s = (true, s') -> channel_loop apple (turns + more) s = (true, s').
Proof.
  revert s. induction turns as [|turns IH]; intros s; simpl; [done|]. unfold mbind, P_bind.
  destruct (channel_turn apple s) as [[] s1]; auto.
Qed.

End Serve.

(** * Creating and destroying a channel *)

Module Endpoints.

(** What a channel holds; [CLIENT] is the end of the pair handed to the
    caller. *)
Inductive handle := MEMORY | SERVER | CLIENT | WAKEUP | LOCK | CONDITION | CONNECTOR | THREAD.

#[global] Instance handle_eq_dec : EqDecision handle.
Proof. solve_decision. Defined.

(** What the operating system says to each call of the creation; [arms] is the
    report of the thread ([ch_arm]). *)
Record answers := Answers {
  allocates : bool;
  pairs : bool;
  nonblocking : bool;
  wakes : bool;
  locks : bool;
  conditions : bool;
  threads : bool;
  arms : bool;
}.

(** The handles alive, and the signals sent.  Releasing one that is not alive
    is [None], a use after free. *)
Record process := Process { live : list handle; signalled : bool }.

#[global] Instance eta_process : Eta process := fun p => Process (live p) (signalled p).

Definition obtain (h : handle) (p : process) : process := p <| live := h :: live p |>.

Fixpoint remove_one (h : handle) (l : list handle) : option (list handle) :=
  match l with
  | [] => None
  | h' :: l => if decide (h = h') then Some l else (h' ::.) <$> remove_one h l
  end.

Definition release (h : handle) (p : process) : option process :=
  l ← remove_one h (live p); Some (p <| live := l |>).

(** The fields of the structure: whether each holds a handle. *)
Record fields := Fields {
  f_server : bool;
  f_wakeup : bool;
  f_lock : bool;
  f_condition : bool;
  f_connector : bool;
  f_thread : bool;
}.

Definition release_if (b : bool) (h : handle) (p : process) : option process :=
  if b then release h p else Some p.

Definition egress_channel_stop (f : fields) (p : process) : process :=
  if f_thread f then p <| signalled := true |> else p.

(** The thread that ends closes the server end and leaves -1 in the field
    ([channel_end]), so a joined thread leaves nothing to close twice. *)
Definition thread_join (f : fields) (p : process) : option (bool * process) :=
  p ← release THREAD p;
  p ← release_if (f_server f) SERVER p;
  Some (false, p).

Definition maelys_egress_channel_destroy (f : fields) (p : process) : option process :=
  '(server, p) ← (if f_thread f then thread_join f (egress_channel_stop f p)
                  else Some (f_server f, p));
  p ← release_if (f_condition f) CONDITION p;
  p ← release_if (f_lock f) LOCK p;
  p ← release_if (f_wakeup f) WAKEUP p;
  p ← release_if server SERVER p;
  p ← release_if (f_connector f) CONNECTOR p;
  release MEMORY p.

(** [fail]: the client end is closed when there is one. *)
Definition abandon (paired : bool) (f : fields) (p : process) : option process :=
  p ← release_if paired CLIENT p;
  maelys_egress_channel_destroy f p.

Definition create_result : Type := maelys_egress_result_t * option fields.

Definition maelys_egress_channel_create (connector : bool) (connect_timeout_ms : Z) (a : answers) (p : process)
  : option (create_result * process) :=
  let fails paired f p := p ← abandon paired f p; Some ((MAELYS_EGRESS_ERR_IO, None), p) in
  if negb connector || (connect_timeout_ms =? 0) then Some ((MAELYS_EGRESS_ERR_ARGUMENT, None), p)
  else if negb (allocates a) then Some ((MAELYS_EGRESS_ERR_MEMORY, None), p)
  else
    let p := obtain MEMORY p in
    if negb (pairs a) then fails false (Fields false false false false false false) p
    else
      let p := obtain SERVER (obtain CLIENT p) in
      if negb (nonblocking a) then fails true (Fields true false false false false false) p
      else if negb (wakes a) then fails true (Fields true false false false false false) p
      else
        let p := obtain WAKEUP p in
        if negb (locks a) then fails true (Fields true true false false false false) p
        else
          let p := obtain LOCK p in
          if negb (conditions a) then fails true (Fields true true true false false false) p
          else
            let p := obtain CONNECTOR (obtain CONDITION p) in
            if negb (threads a) then fails true (Fields true true true true true false) p
            else
              let p := obtain THREAD p in
              let f := Fields true true true true true true in
              if negb (arms a) then fails true f p
              else Some ((MAELYS_EGRESS_OK, Some f), p).

Definition all_granted (a : answers) : bool :=
  allocates a && pairs a && nonblocking a && wakes a && locks a && conditions a && threads a && arms a.

(** Creating is all or nothing: it succeeds exactly when its arguments are
    usable and every call succeeds, a failure leaves the process as it was, and
    destroying a channel that was created leaves only the client end, no handle
    being released twice. *)
Lemma channel_create_all_or_nothing connector timeout a p :
  exists result f p', maelys_egress_channel_create connector timeout a p = Some ((result, f), p') /\
    (result = MAELYS_EGRESS_OK <-> connector = true /\ timeout <> 0 /\ all_granted a = true) /\
    match f with
    | None => result <> MAELYS_EGRESS_OK /\ live p' = live p
    | Some f => result = MAELYS_EGRESS_OK /\
        exists p'', maelys_egress_channel_destroy f p' = Some p'' /\ live p'' = CLIENT :: live p /\
          signalled p'' = true
    end.
Proof.
  unfold maelys_egress_channel_create, all_granted.
  destruct connector; [|eexists _, _, _; split; [done|]; split; [split; naive_solver|done]].
  destruct (Z.eqb_spec timeout 0); [eexists _, _, _; split; [done|]; split; [split; naive_solver|done]|].
  destruct a as [[] [] [] [] [] [] [] []]; simpl; eexists _, _, _; (split; [reflexivity|]);
    (split; [split; naive_solver|]); simpl; split; try done; by eexists.
Qed.

End Endpoints.

(** * A world *)

(** A client that asks for example.com:443 twice, the second time with a
    descriptor attached, and then a stop. *)
Definition example_request : bytes :=
  default [] (Channel.maelys_egress_channel_encode_request (str "example.com") 443 30).

Definition example_channel : ChannelSys := {|
  cworld := nat;
  ch_receive _ capacity _ n :=
    ((if 0 <=? capacity then Fdpass.OK else Fdpass.ARGUMENT,
      Fdpass.Message (take (Z.to_nat capacity) example_request) [] false false (Nat.eqb n 1)), S n);
  ch_send _ _ _ n := (Fdpass.OK, n);
  ch_session_open _ _ _ n := ((MAELYS_EGRESS_OK, 9), n);
  ch_close _ n := (tt, n);
  ch_clock n := (Some (Z.of_nat n), n);
  ch_in_use _ n := (false, n);
  ch_arm n := (true, n);
  ch_loop_step _ n := (Some [Signal (if Nat.ltb n 2 then TOKEN_REQUESTS else TOKEN_WAKEUP) true false], n);
|}.

#[local] Existing Instance example_channel.

Lemma example_channel_laws : ChannelLaws.
Proof.
  split; simpl.
  - intros fd capacity room w r E. destruct (Z.leb_spec 0 capacity); [|done]. injection E as <-.
    split; simpl; [|apply Forall_take, (bool_decide_unpack (Forall is_byte example_request)); by vm_compute|lia|constructor].
    unfold len. rewrite length_take. lia.
  - by intros _ _ _ _ fd [= <-].
  - intros w n [= <-]. lia.
Qed.

Definition example_cstate : cstate := CState (Channel_ 5000 4 (-1) 0 0 0) 0%nat [].

Lemma serve_one_exact_witness :
  (let '(go, s') := serve_one true example_cstate in
   exists l, ctrace s' = l ++ ctrace example_cstate /\ served example_cstate go l s' /\
     same_ends (channel example_cstate) (channel s') /\ ledger example_cstate l s') /\
  (serve_one true example_cstate).1 = true.
Proof.
  split; [|by vm_compute].
  exact (proj1 (serve_one_exact (Hlaws := example_channel_laws) true example_cstate)).
Defined.

Lemma channel_run_balanced_witness :
  (let '(ended, s') := channel_main true 3 example_cstate in
   (exists open, dialogue 5000 open (List.filter conversation (ctrace s'))) /\
   taken (ctrace s') ≡ₚ holding (channel s') ++ dropped (ctrace s') /\
   (is_Some ended -> taken (ctrace s') ≡ₚ dropped (ctrace s') /\ server_fd (channel s') = -1)) /\
  (channel_main true 3 example_cstate).1 = Some true.
Proof.
  split; [|by vm_compute].
  exact (channel_run_balanced (Hlaws := example_channel_laws) true 5000 3 example_cstate
           (conj eq_refl (conj eq_refl eq_refl))).
Defined.

(** The run, latest first: the first request gets a stream, the second is
    malformed; the copy of the stream is closed in between. *)
Example example_run :
  ctrace (channel_main true 3 example_cstate).2 =
    [Answered (wire_response Channel.MALFORMED) None; Dropped 9; Request example_request;
     Answered (wire_response Channel.OK) (Some 9); Took 9; Asked (str "example.com") 443 5000;
     Request example_request].
Proof. by vm_compute. Qed.
