(* ===== verification/Client.v ===== *)
(** The library of the confined process: the request on a channel
    (client/client.c) and the opening of a channel through the broker
    (client/channel_open.c).

    Both calls are sequences of system calls with loops around [poll].  What the
    kernel and maelys-system's descriptor passing answer is given as arguments:
    an answer per call, and for a loop the list of the answers of its turns.
    [None] is a loop that has not ended within the turns given.  The effects a
    call has outside are listed in the order of the code.

    The theorems: the clock arithmetic is exact ([elapsed_ms_exact]) and the
    wait ends, on time ([await_response_ends]); a stream is returned exactly for
    a well-formed OK with one descriptor, and every other descriptor received is
    closed ([client_connect_exact]); a client and the thread of ChannelServer.v
    agree on every outcome ([channel_end_to_end]).  The theorems on the opening of
    a channel are in ClientOpen.v. *)

From S2P Require Import Prelude Common Codec Config Policy Receipt Server Reactor ChannelServer.

Inductive maelys_egress_client_result_t :=
| CLIENT_OK | CLIENT_ERR_ARGUMENT | CLIENT_ERR_IO | CLIENT_ERR_UNANSWERED | CLIENT_ERR_PROTOCOL
| CLIENT_ERR_DENIED | CLIENT_ERR_TIMEOUT | CLIENT_ERR_CANCELLED | CLIENT_ERR_UNSUPPORTED
| CLIENT_ERR_RESOURCE | CLIENT_ERR_INTERNAL | CLIENT_ERR_BUSY.

#[export] Instance client_result_eq_dec : EqDecision maelys_egress_client_result_t.
Proof. solve_decision. Defined.

(** [None] is a value outside the enumeration. *)
Definition maelys_egress_client_result_string (result : option maelys_egress_client_result_t) : bytes :=
  match result with
  | Some CLIENT_OK => str "ok"
  | Some CLIENT_ERR_ARGUMENT => str "argument"
  | Some CLIENT_ERR_IO => str "io"
  | Some CLIENT_ERR_UNANSWERED => str "unanswered"
  | Some CLIENT_ERR_PROTOCOL => str "protocol"
  | Some CLIENT_ERR_DENIED => str "denied"
  | Some CLIENT_ERR_TIMEOUT => str "timeout"
  | Some CLIENT_ERR_CANCELLED => str "cancelled"
  | Some CLIENT_ERR_UNSUPPORTED => str "unsupported"
  | Some CLIENT_ERR_RESOURCE => str "resource"
  | Some CLIENT_ERR_INTERNAL => str "internal"
  | Some CLIENT_ERR_BUSY => str "busy"
  | None => str "unknown"
  end.

Definition maelys_egress_client_abi_version : Z := 2.
Definition maelys_egress_client_abi_compatible_since : Z := 1.

(** * Time *)

Record timespec := Timespec { tv_sec : Z; tv_nsec : Z }.

(** What POSIX says of a time of the monotonic clock; a second count of 63 bits
    is that of a 64-bit [time_t]. *)
Definition timespec_ok (t : timespec) : Prop := 0 <= tv_sec t < 2 ^ 63 /\ 0 <= tv_nsec t < 1000000000.

Definition nanoseconds (t : timespec) : Z := tv_sec t * 1000000000 + tv_nsec t.

(** [None] is the return 0. *)
Definition elapsed_ms (started now : timespec) : option Z :=
  if (tv_sec now <? tv_sec started) || ((tv_sec now =? tv_sec started) && (tv_nsec now <? tv_nsec started))
  then None
  else
    let seconds := u64 (tv_sec now - tv_sec started) in
    let ns := tv_nsec now - tv_nsec started in
    let '(seconds, ns) := if ns <? 0 then (u64 (seconds - 1), ns + 1000000000) else (seconds, ns) in
    Some (if UINT64_MAX / 1000 <? seconds then UINT64_MAX else u64 (seconds * 1000 + ns / 1000000)).

Inductive poll_answer := POLL_READY | POLL_IDLE | POLL_INTERRUPTED | POLL_FAILED.

(** A turn of a wait: what the clock says, and what the poll that follows answers
    to the timeout it is given, in milliseconds; -1 is none. *)
Record turn := Turn { clock : option timespec; polled : Z -> poll_answer }.

(** The timeout of a poll for [left] milliseconds. *)
Definition poll_timeout (left : Z) : Z := if INT_MAX <? left then INT_MAX else left.

(** The loop of [await_response]: 1, 0 or -1. *)
Fixpoint await_response_loop (read_timeout_ms : Z) (started : timespec) (turns : list turn) : option Z :=
  match turns with
  | [] => None
  | t :: turns =>
      let poll timeout :=
        match polled t timeout with
        | POLL_INTERRUPTED => await_response_loop read_timeout_ms started turns
        | POLL_FAILED => Some (-1)
        | POLL_READY => Some 1
        | POLL_IDLE => await_response_loop read_timeout_ms started turns
        end in
      if read_timeout_ms =? 0 then poll (-1)
      else
        match clock t with
        | None => Some (-1)
        | Some now =>
            match elapsed_ms started now with
            | None => Some (-1)
            | Some elapsed =>
                if read_timeout_ms <=? elapsed then Some 0
                else
                  let remaining := read_timeout_ms - elapsed in
                  poll (poll_timeout remaining)
            end
        end
  end.

(** [started] is what the clock says before the loop, [None] a failure. *)
Definition await_response (read_timeout_ms : Z) (started : option timespec) (turns : list turn) : option Z :=
  if read_timeout_ms =? 0 then await_response_loop 0 (Timespec 0 0) turns
  else match started with
       | None => Some (-1)
       | Some started => await_response_loop read_timeout_ms started turns
       end.

(** * A request on the channel *)

(** [ClientGot] is a descriptor the kernel gives. *)
Inductive client_effect :=
| ClientSent (b : bytes)
| ClientShutdown
| ClientGot (fd : Z)
| ClientClosed (fd : Z).

Definition close_quietly (fd : Z) : list client_effect := if 0 <=? fd then [ClientClosed fd] else [].

Definition from_status (status : Z) : maelys_egress_client_result_t :=
  if status =? 0 then CLIENT_OK
  else if status =? 1 then CLIENT_ERR_DENIED
  else if status =? 2 then CLIENT_ERR_TIMEOUT
  else if status =? 3 then CLIENT_ERR_CANCELLED
  else if status =? 4 then CLIENT_ERR_PROTOCOL
  else if status =? 5 then CLIENT_ERR_UNSUPPORTED
  else if status =? 6 then CLIENT_ERR_RESOURCE
  else CLIENT_ERR_INTERNAL.

(** What follows the reception: the result, the stream (-1 without one) and what
    is closed. *)
Definition client_receive (r : Fdpass.received) : maelys_egress_client_result_t * Z * list client_effect :=
  let rights := length (Fdpass.fds r) in
  let stream := match Fdpass.fds r with fd :: _ => fd | [] => -1 end in
  let refuse result := (result, -1, close_quietly stream) in
  if Fdpass.truncated r || Fdpass.control_truncated r then refuse CLIENT_ERR_PROTOCOL
  else
    match Channel.maelys_egress_channel_decode_response (Fdpass.data r) with
    | None => refuse CLIENT_ERR_PROTOCOL
    | Some decoded =>
        let status := Channel.response_status decoded in
        if negb (status =? Channel.status_code Channel.UNSUPPORTED) &&
           negb (Channel.response_version decoded =? Channel.PROTOCOL_VERSION)
        then refuse CLIENT_ERR_PROTOCOL
        else
          let result := from_status status in
          if negb (bool_decide (result = CLIENT_OK)) then
            let carried := negb (Nat.eqb rights 0) || Fdpass.surplus r in
            if carried then refuse CLIENT_ERR_PROTOCOL else refuse result
          else if Fdpass.surplus r || negb (Nat.eqb rights 1) || (stream <? 0)
          then refuse CLIENT_ERR_PROTOCOL
          else (CLIENT_OK, stream, [])
    end.

(** What the kernel answers to the calls of [maelys_egress_client_connect]. *)
Record connect_answers := ConnectAnswers {
  sent_answer : Fdpass.result;
  started_answer : option timespec;
  turns_answer : list turn;
  got_answer : Fdpass.result;
  message_answer : Fdpass.received;
}.

Definition maelys_egress_client_connect (channel_fd : Z) (host : bytes) (port read_timeout_ms : Z)
  (a : connect_answers) : option (maelys_egress_client_result_t * Z * list client_effect) :=
  match Channel.maelys_egress_channel_encode_request host port (Channel.REQUEST_HEADER_SIZE + Channel.MAX_HOST) with
  | None => Some (CLIENT_ERR_ARGUMENT, -1, [])
  | Some request =>
      if channel_fd <? 0 then Some (CLIENT_ERR_ARGUMENT, -1, [])
      else if negb (bool_decide (sent_answer a = Fdpass.OK)) then Some (CLIENT_ERR_IO, -1, [])
      else
        ready ← await_response read_timeout_ms (started_answer a) (turns_answer a);
        Some (if ready <? 0 then (CLIENT_ERR_IO, -1, [ClientSent request])
              else if ready =? 0 then (CLIENT_ERR_UNANSWERED, -1, [ClientSent request; ClientShutdown])
              else if negb (bool_decide (got_answer a = Fdpass.OK)) then (CLIENT_ERR_IO, -1, [ClientSent request])
              else
                let '(result, stream, effects) := client_receive (message_answer a) in
                (result, stream, ClientSent request :: map ClientGot (Fdpass.fds (message_answer a)) ++ effects))
  end.

(** * Opening a channel *)

Record maelys_egress_client_channel := ClientChannel {
  lease : Z;
  client_end : Z;
  client_connect_timeout_ms : Z;
}.

(** [None] is NULL. *)
Definition maelys_egress_client_channel_close (channel : option maelys_egress_client_channel) : list client_effect :=
  match channel with
  | None => []
  | Some c => close_quietly (client_end c) ++ close_quietly (lease c)
  end.

Definition maelys_egress_client_channel_fd (channel : option maelys_egress_client_channel) : Z :=
  match channel with Some c => client_end c | None => -1 end.

Definition maelys_egress_client_channel_connect_timeout_ms (channel : option maelys_egress_client_channel) : Z :=
  match channel with Some c => client_connect_timeout_ms c | None => 0 end.

(** [None] is a failure of the clock. *)
Definition now_ms (clock : option timespec) : Z :=
  match clock with
  | None => UINT64_MAX
  | Some now => u64 (u64 (tv_sec now) * 1000 + tv_nsec now / 1000000)
  end.

Fixpoint await_io (deadline : Z) (turns : list turn) : option Z :=
  match turns with
  | [] => None
  | t :: turns =>
      let now := now_ms (clock t) in
      if now =? UINT64_MAX then Some (-1)
      else if deadline <=? now then Some 0
      else let left := deadline - now in
           match polled t (poll_timeout left) with
           | POLL_INTERRUPTED => await_io deadline turns
           | POLL_FAILED => Some (-1)
           | POLL_READY => Some 1
           | POLL_IDLE => await_io deadline turns
           end
  end.

Definition status_result (status : Z) : maelys_egress_client_result_t :=
  if status =? Bootstrap.OK then CLIENT_OK
  else if status =? Bootstrap.DENIED then CLIENT_ERR_DENIED
  else if status =? Bootstrap.BUSY then CLIENT_ERR_BUSY
  else if status =? Bootstrap.CANCELLED then CLIENT_ERR_CANCELLED
  else if status =? Bootstrap.MALFORMED then CLIENT_ERR_PROTOCOL
  else if status =? Bootstrap.UNSUPPORTED then CLIENT_ERR_UNSUPPORTED
  else if status =? Bootstrap.RESOURCE then CLIENT_ERR_RESOURCE
  else CLIENT_ERR_INTERNAL.

(** What the kernel says of a descriptor: [None] is a failed call, and the
    values are whether it is a datagram socket and whether its peer is a Unix
    one. *)
Record descriptor := Descriptor {
  datagram : option bool;
  peer_unix : option bool;
  cloexec : bool;
}.

Definition is_channel (d : descriptor) : bool :=
  match datagram d with
  | Some true => match peer_unix d with Some true => cloexec d | _ => false end
  | _ => false
  end.

Inductive connect_answer := CONNECT_DONE | CONNECT_PENDING | CONNECT_FAILED.

(** A wait and what the call after it answers: [maelys_sys_fd_stream_send] to the
    bytes it is offered, [maelys_sys_fd_stream_receive] to the room it is given,
    always with room for one descriptor. *)
Record send_call := SendCall {
  send_turns : list turn;
  send_reply : bytes -> Fdpass.result * Z;
}.

Record receive_call := ReceiveCall {
  receive_turns : list turn;
  receive_reply : Z -> Fdpass.result * Fdpass.received;
}.

Record open_answers := OpenAnswers {
  open_started : option timespec;
  open_calloc : bool;
  open_socket : Z;
  open_fcntl : bool;
  open_connect : connect_answer;
  open_connect_turns : list turn;
  open_so_error : bool;
  open_peer : bool;
  open_sends : list send_call;
  open_receives : list receive_call;
  open_descriptor : descriptor;
  open_tail : Fdpass.result;
}.

(** A call to try again. *)
Definition retries (io : Fdpass.result) : bool :=
  bool_decide (io = Fdpass.WOULD_BLOCK) || bool_decide (io = Fdpass.OS true).

(** A wait that must succeed: the failure otherwise. *)
Definition awaited {A} (ready : option Z) (fail : maelys_egress_client_result_t -> A) (go : option A) : option A :=
  ready ← ready;
  if ready =? 0 then Some (fail CLIENT_ERR_UNANSWERED)
  else if ready <? 0 then Some (fail CLIENT_ERR_IO)
  else go.

(** The request: how far it got, or the failure; and what was sent. *)
Fixpoint send_request (deadline : Z) (request : bytes) (progress : Z) (sends : list send_call)
  : option ((maelys_egress_client_result_t + Z) * list client_effect) :=
  if len request <=? progress then Some (inr progress, [])
  else
    match sends with
    | [] => None
    | s :: sends =>
        awaited (await_io deadline (send_turns s)) (fun e => (inl e, []))
          (let offered := zdrop progress request in
           let '(io, sent) := send_reply s offered in
           if retries io then send_request deadline request progress sends
           else if bool_decide (io = Fdpass.CLOSED) || bool_decide (io = Fdpass.RESET) then Some (inr progress, [])
           else if negb (bool_decide (io = Fdpass.OK)) || (sent =? 0) then Some (inl CLIENT_ERR_IO, [])
           else
             '(result, effects) ← send_request deadline request (progress + sent) sends;
             Some (result, ClientSent (ztake sent offered) :: effects))
    end.

(** The response: the bytes or the failure, the descriptor of byte zero (-1
    without one) and the effects. *)
Fixpoint receive_response (deadline : Z) (response : bytes) (channel : Z) (receives : list receive_call)
  : option ((maelys_egress_client_result_t + bytes) * Z * list client_effect) :=
  if Bootstrap.RESPONSE_SIZE <=? len response then Some (inr response, channel, [])
  else
    match receives with
    | [] => None
    | a :: receives =>
        awaited (await_io deadline (receive_turns a)) (fun e => (inl e, channel, []))
          (let progress := len response in
           let '(io, r) := receive_reply a (if negb (progress =? 0) then Bootstrap.RESPONSE_SIZE - progress else 1) in
           if retries io then receive_response deadline response channel receives
           else if negb (bool_decide (io = Fdpass.OK)) then Some (inl CLIENT_ERR_IO, channel, [])
           else
             let count := negb (Nat.eqb (length (Fdpass.fds r)) 0) in
             let passed := match Fdpass.fds r with fd :: _ => fd | [] => -1 end in
             let malformed := Fdpass.flagged r || (len (Fdpass.data r) =? 0) ||
                              (count && (negb (progress =? 0) || (0 <=? channel))) in
             let got := map ClientGot (Fdpass.fds r) in
             let '(channel, closed) :=
               if count then if malformed then (channel, [ClientClosed passed]) else (passed, [])
               else (channel, []) in
             if malformed then Some (inl CLIENT_ERR_PROTOCOL, channel, got ++ closed)
             else
               '(result, channel, effects) ← receive_response deadline (response ++ Fdpass.data r) channel receives;
               Some (result, channel, got ++ closed ++ effects))
    end.

(** The connection of a socket that was obtained: whether it stands. *)
Definition connect_lease (deadline : Z) (a : open_answers) : option (option maelys_egress_client_result_t) :=
  match open_connect a with
  | CONNECT_DONE => Some None
  | CONNECT_FAILED => Some (Some CLIENT_ERR_IO)
  | CONNECT_PENDING =>
      awaited (await_io deadline (open_connect_turns a)) Some
        (Some (if open_so_error a && open_peer a then None else Some CLIENT_ERR_IO))
  end.

(** What the answer of the broker comes to, once it is complete. *)
Definition open_verdict (request_complete : bool) (response : bytes) (channel : Z) (a : open_answers)
  : maelys_egress_client_result_t * Z :=
  match Bootstrap.egress_bootstrap_decode_response response with
  | None => (CLIENT_ERR_PROTOCOL, 0)
  | Some (status, timeout) =>
      if ((status =? Bootstrap.OK) && negb request_complete) ||
         negb (eqb (status =? Bootstrap.OK) (0 <=? channel))
      then (CLIENT_ERR_PROTOCOL, timeout)
      else
        let result := status_result status in
        (if negb (bool_decide (result = CLIENT_OK)) then result
         else if negb (is_channel (open_descriptor a)) then CLIENT_ERR_PROTOCOL
         else if negb (retries (open_tail a)) then
           if bool_decide (open_tail a = Fdpass.OK) then CLIENT_ERR_PROTOCOL else CLIENT_ERR_IO
         else CLIENT_OK, timeout)
  end.

Definition open_result : Type := maelys_egress_client_result_t * option maelys_egress_client_channel * list client_effect.

(** [fail]: the handle is closed. *)
Definition open_fail (effects : list client_effect) (lease_ channel : Z) (result : maelys_egress_client_result_t)
  : open_result :=
  (result, None, effects ++ maelys_egress_client_channel_close (Some (ClientChannel lease_ channel 0))).

(** The exchange on a connected lease. *)
Definition open_exchange (deadline lease_ : Z) (a : open_answers) (effects : list client_effect) : option open_result :=
  let request := Bootstrap.egress_bootstrap_request in
  '(sent, written) ← send_request deadline request 0 (open_sends a);
  let effects := effects ++ written in
  match sent with
  | inl e => Some (open_fail effects lease_ (-1) e)
  | inr progress =>
      '(received, channel, got) ← receive_response deadline [] (-1) (open_receives a);
      let effects := effects ++ got in
      match received with
      | inl e => Some (open_fail effects lease_ channel e)
      | inr response =>
          let '(result, timeout) := open_verdict (progress =? len request) response channel a in
          Some (if bool_decide (result = CLIENT_OK) then
                  (CLIENT_OK, Some (ClientChannel lease_ channel timeout), effects)
                else open_fail effects lease_ channel result)
      end
  end.

Definition maelys_egress_client_channel_open (path : bytes) (timeout : Z) (a : open_answers) : option open_result :=
  if (timeout =? 0) || (timeout =? UINT64_MAX) || negb (Bootstrap.egress_bootstrap_path_valid path) ||
     (SUN_PATH_SIZE <=? len path)
  then Some (CLIENT_ERR_ARGUMENT, None, [])
  else
    let started := now_ms (open_started a) in
    if started =? UINT64_MAX then Some (CLIENT_ERR_IO, None, [])
    else
      let deadline := if UINT64_MAX - started <=? timeout then UINT64_MAX - 1 else started + timeout in
      if negb (open_calloc a) then Some (CLIENT_ERR_RESOURCE, None, [])
      else
        let lease_ := open_socket a in
        if lease_ <? 0 then Some (open_fail [] lease_ (-1) CLIENT_ERR_IO)
        else
          let effects := [ClientGot lease_] in
          if negb (open_fcntl a) then Some (open_fail effects lease_ (-1) CLIENT_ERR_IO)
          else
            connected ← connect_lease deadline a;
            match connected with
            | Some e => Some (open_fail effects lease_ (-1) e)
            | None => open_exchange deadline lease_ a effects
            end.

(** * The clock and the waits *)

(** The elapsed time is exact, in whole milliseconds, as long as their number is
    one of 64 bits; a clock that goes back is refused. *)
Lemma elapsed_ms_exact started now :
  timespec_ok started -> timespec_ok now -> nanoseconds now - nanoseconds started < 2 ^ 64 * 1000000 ->
  elapsed_ms started now =
    if nanoseconds now <? nanoseconds started then None
    else Some ((nanoseconds now - nanoseconds started) / 1000000).
Proof.
  destruct started as [s1 n1], now as [s2 n2].
  unfold timespec_ok, elapsed_ms, nanoseconds, UINT64_MAX, u64. cbn [tv_sec tv_nsec].
  intros [Hs1 Hn1] [Hs2 Hn2] Hb.
  destruct (Z.ltb_spec (s2 * 1000000000 + n2) (s1 * 1000000000 + n1)) as [Hlt|Hge].
  - assert ((s2 <? s1) || ((s2 =? s1) && (n2 <? n1)) = true) as ->; [|done].
    destruct (Z.ltb_spec s2 s1), (Z.eqb_spec s2 s1), (Z.ltb_spec n2 n1); simpl; done || lia.
  - assert ((s2 <? s1) || ((s2 =? s1) && (n2 <? n1)) = false) as ->
      by (destruct (Z.ltb_spec s2 s1), (Z.eqb_spec s2 s1), (Z.ltb_spec n2 n1); simpl; done || lia).
    assert (Hms : forall s n, (s * 1000000000 + n) / 1000000 = s * 1000 + n / 1000000).
    { intros s n. rewrite <-Z.div_add_l by done. f_equal. lia. }
    assert (Hwhole : forall s n, 0 <= s -> 0 <= n < 1000000000 -> s * 1000000000 + n < 2 ^ 64 * 1000000 ->
      Some (if (2 ^ 64 - 1) / 1000 <? s then 2 ^ 64 - 1 else (s * 1000 + n / 1000000) mod 2 ^ 64) =
      Some ((s * 1000000000 + n) / 1000000)).
    { intros s n Hs0 Hn0 Hsn. rewrite Hms. change ((2 ^ 64 - 1) / 1000) with 18446744073709551.
      pose proof (Z.div_mod n 1000000 ltac:(lia)). pose proof (Z.mod_pos_bound n 1000000 ltac:(lia)).
      destruct (Z.ltb_spec 18446744073709551 s); [lia|]. rewrite Z.mod_small by lia. done. }
    rewrite (Z.mod_small (s2 - s1)) by lia. destruct (Z.ltb_spec (n2 - n1) 0).
    + rewrite (Z.mod_small (s2 - s1 - 1)) by lia. rewrite Hwhole by lia. do 2 f_equal. lia.
    + rewrite Hwhole by lia. do 2 f_equal. lia.
Qed.

(** The last second before the saturation is not guarded: the milliseconds of
    it that do not fit wrap around. *)
Example elapsed_ms_last_second :
  elapsed_ms (Timespec 0 0) (Timespec 18446744073709551 615000000) = Some UINT64_MAX /\
  elapsed_ms (Timespec 0 0) (Timespec 18446744073709551 616000000) = Some 0 /\
  elapsed_ms (Timespec 0 0) (Timespec 18446744073709552 0) = Some UINT64_MAX.
Proof. by vm_compute. Qed.

(** What a turn decides, [None] when the loop goes on. *)
Definition poll_verdict (p : poll_answer) : option Z :=
  match p with
  | POLL_READY => Some 1
  | POLL_FAILED => Some (-1)
  | POLL_IDLE | POLL_INTERRUPTED => None
  end.

Definition response_verdict (read_timeout_ms : Z) (started : timespec) (t : turn) : option Z :=
  if read_timeout_ms =? 0 then poll_verdict (polled t (-1))
  else match clock t ≫= elapsed_ms started with
       | None => Some (-1)
       | Some elapsed =>
           if read_timeout_ms <=? elapsed then Some 0
           else poll_verdict (polled t (poll_timeout (read_timeout_ms - elapsed)))
       end.

Definition io_verdict (deadline : Z) (t : turn) : option Z :=
  let now := now_ms (clock t) in
  if now =? UINT64_MAX then Some (-1) else if deadline <=? now then Some 0
  else poll_verdict (polled t (poll_timeout (deadline - now))).

Lemma head_omap_cons {A B} (f : A -> option B) x l :
  head (omap f (x :: l)) = match f x with Some y => Some y | None => head (omap f l) end.
Proof. cbn. by destruct (f x). Qed.

(** A wait is decided by the first turn that decides: signals and early returns
    neither end it nor extend it. *)
Lemma await_response_first timeout started turns :
  await_response_loop timeout started turns = head (omap (response_verdict timeout started) turns).
Proof.
  induction turns as [|t turns IH]; [done|]. rewrite head_omap_cons, <-IH. simpl. unfold response_verdict.
  destruct (timeout =? 0); [by destruct (polled t (-1))|].
  destruct (clock t) as [now|]; simpl; [|done]. destruct (elapsed_ms started now); simpl; [|done].
  destruct (timeout <=? _); [done|]. by destruct (polled t (poll_timeout _)).
Qed.

Lemma await_io_first deadline turns : await_io deadline turns = head (omap (io_verdict deadline) turns).
Proof.
  induction turns as [|t turns IH]; [done|]. rewrite head_omap_cons, <-IH. simpl. unfold io_verdict.
  destruct (_ =? UINT64_MAX); [done|]. destruct (deadline <=? _); [done|]. by destruct (polled t (poll_timeout _)).
Qed.

Lemma head_omap_Some {A B} (f : A -> option B) l b :
  head (omap f l) = Some b <-> exists l1 a l2, l = l1 ++ a :: l2 /\ f a = Some b /\ Forall (fun x => f x = None) l1.
Proof.
  split.
  - induction l as [|x l IH]; [done|]. cbn. destruct (f x) as [y|] eqn:E.
    + intros [= ->]. by exists [], x, l.
    + intros (l1 & a & l2 & -> & Ha & Hf)%IH. exists (x :: l1), a, l2. split_and!; [done|done|by constructor].
  - intros (l1 & a & l2 & -> & Ha & Hf). induction Hf as [|x l1 Hx _ IH]; cbn; [by rewrite Ha|by rewrite Hx].
Qed.

Lemma head_omap_is_Some {A B} (f : A -> option B) l a :
  a ∈ l -> is_Some (f a) -> is_Some (head (omap f l)).
Proof.
  induction 1 as [l|a x l _ IH]; intros [b E]; cbn.
  - rewrite E. by eexists.
  - destruct (f x); [by eexists|]. apply IH. by eexists.
Qed.

(** The time a wait of [timeout] milliseconds that started at [started] has
    left is over at [now]. *)
Definition overdue (timeout : Z) (started now : timespec) : Prop :=
  timeout * 1000000 <= nanoseconds now - nanoseconds started.

Definition turns_ok (started : timespec) (turns : list turn) : Prop :=
  Forall (fun t => forall now, clock t = Some now -> timespec_ok now /\
    0 <= nanoseconds now - nanoseconds started < 2 ^ 64 * 1000000) turns.

(** What a poll of the wait is asked for at [now]: the whole milliseconds that
    are left, the last one counted in full. *)
Definition wait_for (timeout : Z) (started now : timespec) : Z :=
  poll_timeout (timeout - (nanoseconds now - nanoseconds started) / 1000000).

Lemma wait_for_bounds timeout started now :
  ~ overdue timeout started now ->
  0 < wait_for timeout started now <= INT_MAX /\
  nanoseconds now + (wait_for timeout started now - 1) * 1000000 < nanoseconds started + timeout * 1000000.
Proof.
  unfold overdue, wait_for, poll_timeout, INT_MAX. intros Ho.
  pose proof (Z.div_mod (nanoseconds now - nanoseconds started) 1000000 ltac:(lia)).
  pose proof (Z.mod_pos_bound (nanoseconds now - nanoseconds started) 1000000 ltac:(lia)).
  destruct (Z.ltb_spec (2 ^ 31 - 1) (timeout - (nanoseconds now - nanoseconds started) / 1000000)); lia.
Qed.

(** A turn whose clock is right decides by the time, then by its poll. *)
Lemma response_verdict_clocked timeout started t now :
  0 < timeout -> timespec_ok started -> timespec_ok now ->
  0 <= nanoseconds now - nanoseconds started < 2 ^ 64 * 1000000 -> clock t = Some now ->
  (overdue timeout started now /\ response_verdict timeout started t = Some 0) \/
  (~ overdue timeout started now /\
   response_verdict timeout started t = poll_verdict (polled t (wait_for timeout started now))).
Proof.
  intros Hp Hs Hn Hb Hc. unfold response_verdict, overdue, wait_for. destruct (Z.eqb_spec timeout 0); [lia|].
  rewrite Hc. simpl. rewrite elapsed_ms_exact by (done || lia).
  destruct (Z.ltb_spec (nanoseconds now) (nanoseconds started)); [lia|].
  pose proof (Z.div_mod (nanoseconds now - nanoseconds started) 1000000 ltac:(lia)).
  pose proof (Z.mod_pos_bound (nanoseconds now - nanoseconds started) 1000000 ltac:(lia)).
  destruct (Z.leb_spec timeout ((nanoseconds now - nanoseconds started) / 1000000)); [left|right]; (split; [nia|done]).
Qed.

Lemma response_verdict_clock timeout started t v :
  0 < timeout -> response_verdict timeout started t = v -> v <> Some (-1) -> exists now, clock t = Some now.
Proof.
  intros Hp <- Hv. unfold response_verdict in Hv. destruct (Z.eqb_spec timeout 0); [lia|].
  destruct (clock t) as [now|]; [by exists now|done].
Qed.

(** A turn that found time left and whose poll, asked for no more than that,
    neither failed nor found a response. *)
Definition passed_over (timeout : Z) (started : timespec) (t : turn) : Prop :=
  exists now, clock t = Some now /\ ~ overdue timeout started now /\
    (polled t (wait_for timeout started now) = POLL_IDLE \/ polled t (wait_for timeout started now) = POLL_INTERRUPTED).

Lemma passed_over_spec timeout started turns t :
  0 < timeout -> timespec_ok started -> turns_ok started turns -> t ∈ turns ->
  response_verdict timeout started t = None -> passed_over timeout started t.
Proof.
  intros Hp Hs Ht Hin Hv. destruct (response_verdict_clock _ _ _ _ Hp Hv) as [now Hc]; [done|].
  unfold turns_ok in Ht. rewrite Forall_forall in Ht. destruct (Ht t Hin now Hc) as [Hn Hb].
  destruct (response_verdict_clocked timeout started t now) as [[_ E]|[Ho E]]; try done; [congruence|].
  exists now. split_and!; [done|done|]. rewrite Hv in E. destruct (polled t _); auto; done.
Qed.

(** The kernel is prompt: the wait begins, and a poll returns, at most [delay]
    nanoseconds after its time; the clock of the next turn shows it. *)
Fixpoint prompt (timeout : Z) (started : timespec) (delay latest : Z) (turns : list turn) : Prop :=
  match turns with
  | [] => True
  | t :: turns =>
      match clock t with
      | None => True
      | Some now => nanoseconds now <= latest + delay /\
          prompt timeout started delay (nanoseconds now + wait_for timeout started now * 1000000) turns
      end
  end.

Lemma prompt_bound timeout started delay latest before t now after :
  prompt timeout started delay latest (before ++ t :: after) -> clock t = Some now ->
  Forall (passed_over timeout started) before -> latest < nanoseconds started + (timeout + 1) * 1000000 ->
  nanoseconds now < nanoseconds started + (timeout + 1) * 1000000 + delay.
Proof.
  revert latest. induction before as [|t0 before IH]; intros latest Hpr Hc Hb Hl; cbn in Hpr.
  - rewrite Hc in Hpr. lia.
  - apply Forall_cons in Hb as [(now0 & Hc0 & Ho & _) Hb]. rewrite Hc0 in Hpr. destruct Hpr as [_ Hpr].
    eapply IH; [exact Hpr|done|done|]. pose proof (wait_for_bounds _ _ _ Ho). lia.
Qed.

(** C39: the wait for a response is one interval of the monotonic clock.  As soon
    as a turn of the loop finds the time over, the wait has ended, whatever
    signals and early returns of [poll] came before.  It says that the deadline
    passed only when a turn found the time over, and every turn before found time
    left and asked [poll] for what was left of it, at most [INT_MAX], and got no
    response; so where polls return within the time they ask for, but for some
    delay, the deadline is reported less than a millisecond and that delay after
    it passed.  A response is reported when the poll of a turn that found time
    left, asked for what was left, says so. *)
Theorem await_response_ends timeout started turns :
  0 < timeout -> timespec_ok started -> turns_ok started turns ->
  (forall t now, t ∈ turns -> clock t = Some now -> overdue timeout started now ->
     is_Some (await_response timeout (Some started) turns)) /\
  (await_response timeout (Some started) turns = Some 0 ->
     exists before t now after, turns = before ++ t :: after /\ clock t = Some now /\ overdue timeout started now /\
       Forall (passed_over timeout started) before /\
       (forall delay, 0 <= delay -> prompt timeout started delay (nanoseconds started) turns ->
          nanoseconds now < nanoseconds started + (timeout + 1) * 1000000 + delay)) /\
  (await_response timeout (Some started) turns = Some 1 ->
     exists before t now after, turns = before ++ t :: after /\ clock t = Some now /\ ~ overdue timeout started now /\
       Forall (passed_over timeout started) before /\ polled t (wait_for timeout started now) = POLL_READY).
Proof.
  intros Hp Hs Ht. unfold await_response. destruct (Z.eqb_spec timeout 0); [lia|]. rewrite await_response_first.
  assert (Hclocked : forall t now, t ∈ turns -> clock t = Some now ->
    (overdue timeout started now /\ response_verdict timeout started t = Some 0) \/
    (~ overdue timeout started now /\
     response_verdict timeout started t = poll_verdict (polled t (wait_for timeout started now)))).
  { intros t now Hin Hc. unfold turns_ok in Ht. rewrite Forall_forall in Ht. destruct (Ht t Hin now Hc) as [Hn Hb].
    by apply response_verdict_clocked. }
  assert (Hover : forall before t after, turns = before ++ t :: after ->
    Forall (fun x => response_verdict timeout started x = None) before -> Forall (passed_over timeout started) before).
  { intros before t after Et. rewrite !Forall_forall. intros Hb x Hx. eapply passed_over_spec; [done..| |by apply Hb].
    rewrite Et. set_solver. }
  split_and!.
  - intros t now Hin Hc Ho. eapply head_omap_is_Some; [done|].
    destruct (Hclocked t now Hin Hc) as [[_ ->]|[? _]]; [by eexists|done].
  - intros (before & t & after & Et & Hv & Hb)%head_omap_Some.
    destruct (response_verdict_clock _ _ _ _ Hp Hv) as [now Hc]; [done|]. specialize (Hover _ _ _ Et Hb).
    exists before, t, now, after. split_and!; try done.
    + destruct (Hclocked t now) as [[? _]|[_ E]]; [rewrite Et; set_solver|done|done|]. rewrite Hv in E. by destruct (polled _ _).
    + intros delay Hd Hpr. rewrite Et in Hpr. eapply prompt_bound; [exact Hpr|done|done|lia].
  - intros (before & t & after & Et & Hv & Hb)%head_omap_Some.
    destruct (response_verdict_clock _ _ _ _ Hp Hv) as [now Hc]; [done|]. specialize (Hover _ _ _ Et Hb).
    destruct (Hclocked t now) as [[_ E]|[Ho E]]; [rewrite Et; set_solver|done|congruence|].
    exists before, t, now, after. split_and!; try done. rewrite Hv in E. by destruct (polled _ _).
Qed.

Definition example_turns : list turn :=
  [Turn (Some (Timespec 10 500000000)) (fun _ => POLL_INTERRUPTED); Turn (Some (Timespec 11 2000000)) (fun _ => POLL_READY)].

Lemma await_response_ends_witness :
  is_Some (await_response 1000 (Some (Timespec 10 0)) example_turns) /\
  await_response 1000 (Some (Timespec 10 0)) example_turns = Some 0.
Proof.
  assert (Ho : timespec_ok (Timespec 10 0)) by (by vm_compute).
  assert (Ht : turns_ok (Timespec 10 0) example_turns).
  { repeat constructor; simpl in *; unfold nanoseconds; simplify_eq; simpl; lia. }
  split; [|by vm_compute].
  apply (await_response_ends 1000 (Timespec 10 0) example_turns ltac:(lia) Ho Ht)
    with (t := Turn (Some (Timespec 11 2000000)) (fun _ => POLL_READY)) (now := Timespec 11 2000000); [right; left|done|].
  unfold overdue, nanoseconds. simpl. lia.
Defined.

(** * The answer to a request *)

Definition client_got (l : list client_effect) : list Z :=
  omap (fun e => match e with ClientGot fd => Some fd | _ => None end) l.
Definition client_closed (l : list client_effect) : list Z :=
  omap (fun e => match e with ClientClosed fd => Some fd | _ => None end) l.

Definition kept (fd : Z) : list Z := if 0 <=? fd then [fd] else [].

(** A response of version 1 whose status is OK; the reserved bytes are free. *)
Definition ok_response (b : bytes) : Prop :=
  exists x y, b = write_u32 Channel.RESPONSE_MAGIC ++ [Channel.PROTOCOL_VERSION; 0; x; y].

Lemma decode_response_ok b :
  Forall is_byte b ->
  ok_response b <->
  exists reserved, Channel.maelys_egress_channel_decode_response b = Some (Channel.Response 1 0 reserved).
Proof.
  intros Hb. split.
  - intros (x & y & ->). eexists. done.
  - intros [z E]. unfold Channel.maelys_egress_channel_decode_response, Channel.RESPONSE_SIZE in E.
    destruct (Z.eqb_spec (len b) 8) as [El|]; [|done].
    destruct (Z.eqb_spec (read_u32 b) Channel.RESPONSE_MAGIC) as [Em|]; [|done]. cbn [negb] in E.
    destruct b as [|a [|a0 [|a1 [|a2 [|v [|s [|x [|y [|? ?]]]]]]]]]; unfold len in El; simpl in El; try lia.
    injection E as Ev Es _. exists x, y. cbv in Ev, Es. subst v s.
    apply read_u32_magic in Em; [|by vm_compute|done|unfold len; simpl; lia]. by rewrite <-Em.
Qed.

Lemma client_closed_quietly fd : client_closed (close_quietly fd) = kept fd.
Proof. unfold close_quietly, kept. by destruct (0 <=? fd). Qed.

Lemma from_status_OK status : from_status status = CLIENT_OK <-> status = 0.
Proof.
  unfold from_status. destruct (Z.eqb_spec status 0); [by subst|]. split; [|done]. intros E.
  repeat case_match; done.
Qed.

(** What the kernel delivers to a client. *)
Definition response_received (r : Fdpass.received) : Prop := Fdpass.receives (Channel.RESPONSE_SIZE + 1) 1 r.

Lemma client_receive_cases r :
  response_received r ->
  let '(result, stream, effects) := client_receive r in
  (result = CLIENT_OK <->
     Fdpass.flagged r = false /\
     (exists reserved, Channel.maelys_egress_channel_decode_response (Fdpass.data r) =
        Some (Channel.Response 1 0 reserved)) /\ length (Fdpass.fds r) = 1%nat) /\
  (result = CLIENT_OK <-> 0 <= stream) /\
  result <> CLIENT_ERR_UNANSWERED /\
  effects = map ClientClosed (client_closed effects) /\ kept stream ++ client_closed effects = Fdpass.fds r.
Proof.
  intros [_ Hb Hroom Hfds]. unfold client_receive, Fdpass.flagged.
  set (stream := match Fdpass.fds r with fd :: _ => fd | [] => -1 end).
  assert (Hk : kept stream = Fdpass.fds r /\ (0 <= stream <-> length (Fdpass.fds r) = 1%nat)).
  { subst stream. unfold kept. destruct (Fdpass.fds r) as [|fd [|? ?]]; simpl in *; [done| |lia].
    apply Forall_cons in Hfds as [Hfd _]. by destruct (Z.leb_spec 0 fd); [|lia]. }
  destruct Hk as [Hk Hs].
  assert (Hno : forall result P, result <> CLIENT_OK -> ~ P -> result <> CLIENT_ERR_UNANSWERED ->
    (result = CLIENT_OK <-> P) /\ (result = CLIENT_OK <-> 0 <= -1) /\ result <> CLIENT_ERR_UNANSWERED /\
    close_quietly stream = map ClientClosed (client_closed (close_quietly stream)) /\
    kept (-1) ++ client_closed (close_quietly stream) = Fdpass.fds r).
  { intros result P Hr HP Hu. rewrite client_closed_quietly. split_and!; [tauto|split; [done|lia]|done| |done].
    unfold close_quietly, kept. by destruct (0 <=? stream). }
  destruct (Fdpass.truncated r || Fdpass.control_truncated r) eqn:Et; [apply Hno; naive_solver|].
  destruct (Channel.maelys_egress_channel_decode_response (Fdpass.data r)) as [d|] eqn:Ed;
    [|apply Hno; [done| |done]; intros (_ & [z E] & _); congruence].
  destruct d as [v st z]. cbn [Channel.response_status Channel.response_version Channel.status_code].
  destruct (negb (st =? 5) && negb (v =? Channel.PROTOCOL_VERSION)) eqn:Ev.
  { apply Hno; [done| |done]. intros (_ & [z' [= -> -> _]] & _). done. }
  destruct (bool_decide_reflect (from_status st = CLIENT_OK)) as [E|E].
  - rewrite from_status_OK in E. subst st. assert (v = 1) as -> by (simpl in Ev; unfold Channel.PROTOCOL_VERSION in Ev; lia).
    cbn [negb]. destruct (Fdpass.surplus r || negb (Nat.eqb (length (Fdpass.fds r)) 1) || (stream <? 0)) eqn:Es.
    + apply Hno; [done| |done]. intros (Hx & _ & Hl). rewrite Hl in *. destruct (Fdpass.surplus r); [done|]. simpl in *. lia.
    + assert (length (Fdpass.fds r) = 1%nat) as Hl.
      { destruct (Nat.eqb_spec (length (Fdpass.fds r)) 1); [done|]. by destruct (Fdpass.surplus r). }
      destruct (Fdpass.surplus r); [done|]. simpl. rewrite app_nil_r. split_and!; [|tauto|done|done|done].
      split; [|done]. intros _. split_and!; [done|by eexists|done].
  - assert (Hn : ~ (Fdpass.truncated r || Fdpass.control_truncated r || Fdpass.surplus r = false /\
      (exists reserved, Some (Channel.Response v st z) = Some (Channel.Response 1 0 reserved)) /\
      length (Fdpass.fds r) = 1%nat)) by (intros (_ & [z' [= -> -> _]] & _); by apply E).
    cbn [negb]. rewrite Et in Hn.
    destruct (negb (Nat.eqb (length (Fdpass.fds r)) 0) || Fdpass.surplus r); apply Hno; try done.
    unfold from_status. by repeat case_match.
Qed.

Lemma client_receive_spec r :
  response_received r ->
  let '(result, stream, effects) := client_receive r in
  (result = CLIENT_OK <->
     Fdpass.flagged r = false /\ ok_response (Fdpass.data r) /\ length (Fdpass.fds r) = 1%nat) /\
  (result = CLIENT_OK <-> 0 <= stream) /\ result <> CLIENT_ERR_UNANSWERED /\
  effects = map ClientClosed (client_closed effects) /\ kept stream ++ client_closed effects = Fdpass.fds r.
Proof.
  intros Hr. pose proof (client_receive_cases r Hr) as Hc. destruct (client_receive r) as [[result stream] effects].
  by rewrite decode_response_ok by apply Hr.
Qed.

(** A request this library can send. *)
Definition request_of (host : bytes) (port : Z) (b : bytes) : Prop :=
  Channel.maelys_egress_channel_encode_request host port (Channel.REQUEST_HEADER_SIZE + Channel.MAX_HOST) = Some b.

(** When [maelys_egress_client_connect] succeeds. *)
Record connects (fd : Z) (host : bytes) (port timeout : Z) (a : connect_answers) : Prop := {
  connects_request : exists b, request_of host port b;
  connects_fd : 0 <= fd;
  connects_sent : sent_answer a = Fdpass.OK;
  connects_ready : await_response timeout (started_answer a) (turns_answer a) = Some 1;
  connects_got : got_answer a = Fdpass.OK;
  connects_whole : Fdpass.flagged (message_answer a) = false;
  connects_response : ok_response (Fdpass.data (message_answer a));
  connects_stream : length (Fdpass.fds (message_answer a)) = 1%nat;
}.

Lemma client_got_closing l : client_got (map ClientClosed l) = [].
Proof. induction l; simpl; auto. Qed.
Lemma client_got_getting l : client_got (map ClientGot l) = l.
Proof. induction l as [|x l IH]; simpl; [done|]. change (client_got (ClientGot x :: ?l)) with (x :: client_got l). by rewrite IH. Qed.
Lemma client_closed_getting l : client_closed (map ClientGot l) = [].
Proof. induction l; simpl; auto. Qed.
Lemma client_got_app a b : client_got (a ++ b) = client_got a ++ client_got b.
Proof. apply omap_app. Qed.
Lemma client_closed_app a b : client_closed (a ++ b) = client_closed a ++ client_closed b.
Proof. apply omap_app. Qed.

Lemma await_response_values timeout started turns ready :
  await_response timeout started turns = Some ready -> ready = -1 \/ ready = 0 \/ ready = 1.
Proof.
  assert (Hl : forall T s, await_response_loop T s turns = Some ready -> ready = -1 \/ ready = 0 \/ ready = 1).
  { intros T s. rewrite await_response_first. intros (l1 & t & l2 & _ & Hv & _)%head_omap_Some.
    unfold response_verdict, poll_verdict in Hv. repeat case_match; naive_solver. }
  unfold await_response. destruct (timeout =? 0); [apply Hl|]. destruct started; [apply Hl|]. naive_solver.
Qed.

(** What the theorem says of an outcome. *)
Definition connect_outcome (fd : Z) (host : bytes) (port timeout : Z) (a : connect_answers)
  (result : maelys_egress_client_result_t) (stream : Z) (effects : list client_effect) : Prop :=
  (result = CLIENT_OK <-> connects fd host port timeout a) /\
  (result = CLIENT_OK <-> 0 <= stream) /\
  client_got effects = kept stream ++ client_closed effects /\
  (result = CLIENT_OK -> Fdpass.fds (message_answer a) = [stream]) /\
  (forall b, ClientSent b ∈ effects -> request_of host port b) /\
  (ClientShutdown ∈ effects <-> result = CLIENT_ERR_UNANSWERED).

Lemma connect_refused fd host port timeout a result effects :
  result <> CLIENT_OK -> ~ connects fd host port timeout a -> client_got effects = client_closed effects ->
  (forall b, ClientSent b ∈ effects -> request_of host port b) ->
  (ClientShutdown ∈ effects <-> result = CLIENT_ERR_UNANSWERED) ->
  connect_outcome fd host port timeout a result (-1) effects.
Proof. intros. by split_and!. Qed.

Lemma connect_answered fd host port timeout a b :
  response_received (message_answer a) -> request_of host port b -> 0 <= fd -> sent_answer a = Fdpass.OK ->
  await_response timeout (started_answer a) (turns_answer a) = Some 1 -> got_answer a = Fdpass.OK ->
  let '(result, stream, effects) := client_receive (message_answer a) in
  connect_outcome fd host port timeout a result stream
    (ClientSent b :: map ClientGot (Fdpass.fds (message_answer a)) ++ effects).
Proof.
  intros Hm Hb Hfd Hs Hr Hg. pose proof (client_receive_spec _ Hm) as Hc.
  destruct (client_receive (message_answer a)) as [[result stream] effects].
  destruct Hc as (Hok & Hstream & Hu & Heff & Hfds).
  assert (Hin : forall e, e ∈ map ClientGot (Fdpass.fds (message_answer a)) ++ effects ->
    (exists x, e = ClientGot x) \/ exists x, e = ClientClosed x).
  { intros e. rewrite Heff, elem_of_app, !list_elem_of_fmap. naive_solver. }
  split_and!.
  - rewrite Hok. split; [intros (? & ? & ?); split; eauto|by intros []].
  - done.
  - change (client_got (ClientSent b :: ?l)) with (client_got l).
    change (client_closed (ClientSent b :: ?l)) with (client_closed l).
    rewrite client_got_app, client_closed_app, client_got_getting, client_closed_getting.
    assert (client_got effects = []) as -> by (rewrite Heff; apply client_got_closing).
    by rewrite app_nil_r.
  - intros ->. assert (0 <= stream) as Hp by (by apply Hstream). rewrite <-Hfds.
    assert (length (kept stream ++ client_closed effects) = 1%nat) as Hlen by (rewrite Hfds; by apply Hok).
    unfold kept in *. destruct (Z.leb_spec 0 stream); [|lia]. simpl in *. by destruct (client_closed effects).
  - intros b' [[= ->]|[[x ?]|[x ?]]%Hin]%elem_of_cons; done.
  - split; [|done]. by intros [?|[[x ?]|[x ?]]%Hin]%elem_of_cons.
Qed.

(** [maelys_egress_client_connect] returns OK exactly when the request was
    valid and sent, a response was ready in time, and what came is the response
    of version 1 with status OK, whole, with exactly one descriptor and none
    beyond it.  Every descriptor received is the stream returned, with OK and
    only then, or closed; nothing but the request is sent, and the channel is
    shut down exactly when the answer did not come in time. *)
Theorem client_connect_exact fd host port timeout a result stream effects :
  response_received (message_answer a) ->
  maelys_egress_client_connect fd host port timeout a = Some (result, stream, effects) ->
  connect_outcome fd host port timeout a result stream effects.
Proof.
  intros Hm E. unfold maelys_egress_client_connect in E.
  destruct (Channel.maelys_egress_channel_encode_request _ _ _) as [b|] eqn:Eb.
  2:{ simplify_eq. apply connect_refused; try (done || set_solver). intros [[b Hb] _ _ _ _ _ _ _].
      unfold request_of in Hb. congruence. }
  destruct (Z.ltb_spec fd 0); [simplify_eq; apply connect_refused; try (done || set_solver); intros []; lia|].
  destruct (bool_decide_reflect (sent_answer a = Fdpass.OK)) as [Es|Es]; cbn [negb] in E;
    [|simplify_eq; apply connect_refused; try (done || set_solver); by intros []].
  destruct (await_response _ _ _) as [ready|] eqn:Er; [|done]. cbn in E. injection E as E.
  assert (Hsent : forall l, (forall x, ClientSent x ∉ l) ->
    forall b0, ClientSent b0 ∈ ClientSent b :: l -> request_of host port b0).
  { intros l Hl b0 [[= ->]|Hin]%elem_of_cons; [exact Eb|]. by apply Hl in Hin. }
  destruct (await_response_values _ _ _ _ Er) as [->|[->| ->]]; cbn in E.
  - simplify_eq. apply connect_refused; try done; [|apply Hsent; set_solver|set_solver].
    intros []. congruence.
  - simplify_eq. apply connect_refused; try done; [|apply Hsent; set_solver|set_solver].
    intros []. congruence.
  - destruct (bool_decide_reflect (got_answer a = Fdpass.OK)) as [Eg|Eg]; cbn [negb] in E.
    + pose proof (connect_answered fd host port timeout a b Hm Eb ltac:(lia) Es Er Eg) as Ho.
      destruct (client_receive _) as [[result' stream'] effects']. by simplify_eq.
    + simplify_eq. apply connect_refused; try done; [by intros []|apply Hsent; set_solver|set_solver].
Qed.

Definition example_answer : connect_answers := {|
  sent_answer := Fdpass.OK;
  started_answer := Some (Timespec 10 0);
  turns_answer := [Turn (Some (Timespec 10 500000000)) (fun _ => POLL_INTERRUPTED); Turn (Some (Timespec 10 600000000)) (fun _ => POLL_READY)];
  got_answer := Fdpass.OK;
  message_answer := Fdpass.Message (wire_response Channel.OK) [7] false false false;
|}.

Lemma client_connect_exact_witness :
  connect_outcome 3 (str "example.com") 443 1000 example_answer CLIENT_OK 7 [ClientSent example_request; ClientGot 7].
Proof.
  apply client_connect_exact; [|by vm_compute]. split; [by vm_compute| |simpl; lia|repeat constructor; lia].
  apply (bool_decide_unpack (Forall is_byte (wire_response Channel.OK))). by vm_compute.
Defined.

(** * Client and thread together *)

(** What the client is told for what the connector said. *)
Definition client_outcome (result : maelys_egress_result_t) : maelys_egress_client_result_t :=
  match result with
  | MAELYS_EGRESS_OK => CLIENT_OK
  | MAELYS_EGRESS_ERR_DENIED => CLIENT_ERR_DENIED
  | MAELYS_EGRESS_ERR_TIMEOUT => CLIENT_ERR_TIMEOUT
  | MAELYS_EGRESS_ERR_CANCELLED | MAELYS_EGRESS_ERR_STATE => CLIENT_ERR_CANCELLED
  | MAELYS_EGRESS_ERR_MEMORY => CLIENT_ERR_RESOURCE
  | MAELYS_EGRESS_ERR_ARGUMENT | MAELYS_EGRESS_ERR_PROTOCOL => CLIENT_ERR_PROTOCOL
  | _ => CLIENT_ERR_INTERNAL
  end.

(** The client side of an exchange in which the datagrams arrive. *)
Record exchanged (response : bytes) (stream : option Z) (timeout : Z) (a : connect_answers) : Prop := {
  exchanged_sent : sent_answer a = Fdpass.OK;
  exchanged_ready : await_response timeout (started_answer a) (turns_answer a) = Some 1;
  exchanged_got : got_answer a = Fdpass.OK;
  exchanged_message : message_answer a =
    Fdpass.Message response (match stream with Some fd => [fd] | None => [] end) false false false;
}.

Lemma client_receive_response result fd :
  (result = MAELYS_EGRESS_OK -> 0 <= fd) ->
  let stream := if bool_decide (result = MAELYS_EGRESS_OK) then Some fd else None in
  client_receive (Fdpass.Message (wire_response (status_of result))
    (match stream with Some fd => [fd] | None => [] end) false false false) =
  (client_outcome result, default (-1) stream, []).
Proof.
  intros Hfd. destruct result; try done. cbn zeta. specialize (Hfd eq_refl). simpl. unfold client_receive. simpl.
  by destruct (Z.ltb_spec fd 0); [lia|].
Qed.

Section EndToEnd.
Context `{ChannelSys} {Hlaws : ChannelLaws} (apple : bool).

(** C12: A client and the thread that serves it.  When the thread receives the
    datagram a client sends for a host and port, it asks the connector for
    exactly that host and port, and if its answer is taken, the client that
    receives it returns what the connector said, in the client's words: a
    stream, the one the connector opened, exactly when the session opened. *)
Theorem channel_end_to_end s host port b :
  is_u16 port -> request_of host port b ->
  (ch_receive (server_fd (channel s)) (Channel.REQUEST_HEADER_SIZE + Channel.MAX_HOST + 1) 0 (the_cworld s)).1 =
    (Fdpass.OK, Fdpass.Message b [] false false false) ->
  (serve_one apple s).1 = true ->
  exists w result fd response l,
    (ch_session_open host port (connect_timeout_ms (channel s)) w).1 = (result, fd) /\
    let stream := if bool_decide (result = MAELYS_EGRESS_OK) then Some fd else None in
    ctrace (serve_one apple s).2 = l ++ ctrace s /\
    List.filter conversation l =
      [Answered response stream; Asked host port (connect_timeout_ms (channel s)); Request b] /\
    forall channel_fd timeout a, 0 <= channel_fd -> exchanged response stream timeout a ->
      maelys_egress_client_connect channel_fd host port timeout a =
        Some (client_outcome result, default (-1) stream, ClientSent b :: map ClientGot (option_list stream)).
Proof using Hlaws.
  intros Hport Hreq Erecv Ego. pose proof (serve_one_runs apple s) as Hr. unfold runs in Hr.
  destruct (serve_one apple s) as [go s']. simpl in Ego. subst go.
  destruct Hr as (l & El & Hs & _). unfold served in Hs. rewrite Erecv in Hs.
  destruct Hs as (asked & status & stream & Hrep & Htalk).
  assert (Hd : Channel.maelys_egress_channel_decode_request b = (Channel.OK, Channel.Request 1 1 port (len host) host)).
  { unfold request_of in Hreq. apply ChannelFacts.encode_request_eq in Hreq as (? & ? & ? & ? & ->); [|done].
    by apply ChannelFacts.decode_request_bytes. }
  inversion Hrep as [? Est Hne|host' port' w result fd _ Ed Eo]; subst; [simpl in Hne; by rewrite Hd in Hne|].
  simpl in Ed. rewrite Hd in Ed. injection Ed as <- _ <-.
  exists w, result, fd, (wire_response (status_of result)), l. split; [exact Eo|]. cbn zeta.
  split; [exact El|]. split; [exact Htalk|]. intros channel_fd timeout a Hfd [Hs Ha Hg Hm].
  unfold maelys_egress_client_connect. unfold request_of in Hreq. rewrite Hreq.
  destruct (Z.ltb_spec channel_fd 0); [lia|]. rewrite Hs, Ha, Hg, Hm.
  cbn -[client_receive wire_response status_of client_outcome].
  rewrite client_receive_response by (intros ->; eapply law_ch_open; exact Eo).
  rewrite app_nil_r. by destruct (bool_decide _).
Qed.
End EndToEnd.

#[local] Existing Instance example_channel.

Lemma channel_end_to_end_witness :
  exists w result fd response l,
    (ch_session_open (str "example.com") 443 5000 w).1 = (result, fd) /\
    let stream := if bool_decide (result = MAELYS_EGRESS_OK) then Some fd else None in
    ctrace (serve_one true example_cstate).2 = l ++ [] /\
    List.filter conversation l =
      [Answered response stream; Asked (str "example.com") 443 5000; Request example_request] /\
    forall channel_fd timeout a, 0 <= channel_fd -> exchanged response stream timeout a ->
      maelys_egress_client_connect channel_fd (str "example.com") 443 timeout a =
        Some (client_outcome result, default (-1) stream, ClientSent example_request :: map ClientGot (option_list stream)).
Proof.
  apply (channel_end_to_end (Hlaws := example_channel_laws) true example_cstate (str "example.com") 443 example_request);
    [unfold is_u16; lia|by vm_compute..].
Defined.
