(* ===== verification/ClientOpen.v ===== *)
(** Theorems on [maelys_egress_client_channel_open] (client/channel_open.c,
    modelled in Client.v): the handshake with the broker succeeds exactly on the
    OK frame with its descriptor on byte zero, however the kernel cuts the
    stream, and every descriptor obtained is in the handle or closed. *)

From S2P Require Import Prelude Common Codec Config Policy Receipt Server Reactor ChannelServer Client.

(** * The OK frame *)

Lemma bootstrap_OK_bytes t :
  Bootstrap.egress_bootstrap_response Bootstrap.OK t = str "MEBP" ++ [1; 0; 1; 0] ++ be_bytes 8 t.
Proof. done. Qed.

Lemma decode_bootstrap_OK b t :
  Forall is_byte b ->
  Bootstrap.egress_bootstrap_decode_response b = Some (Bootstrap.OK, t) <->
  0 < t <= UINT64_MAX /\ b = Bootstrap.egress_bootstrap_response Bootstrap.OK t.
Proof.
  intros Hb. split.
  - unfold Bootstrap.egress_bootstrap_decode_response, Bootstrap.RESPONSE_SIZE, Bootstrap.UNSUPPORTED,
      Bootstrap.OK, Bootstrap.INTERNAL.
    intros E. guards. destruct (at_ b 5 <=? 7) eqn:E7; [|simplify_eq]. simplify_eq. bool_simp. rewrite beq_spec in *.
    change (str "MEBP") with [77; 69; 66; 80] in *.
    destruct b as [|b0 [|b1 [|b2 [|b3 [|b4 [|b5 [|b6 [|b7 r]]]]]]]]; try (unfold len in *; simpl in *; lia).
    cbv [at_ Z.to_nat Pos.to_nat Pos.iter_op Init.Nat.add nth] in *. change (drop 8 _) with r in *. simplify_eq/=.
    assert (Hr : Forall is_byte r) by (by rewrite !Forall_cons in Hb; apply Hb).
    assert (Hl : length r = 8%nat) by (unfold len in *; simpl in *; lia).
    rewrite be_loop64 in * by (done || lia). pose proof (be_bound r Hr) as Hbd. unfold len in Hbd. rewrite Hl in Hbd.
    change (256 ^ Z.of_nat 8) with (2 ^ 64) in Hbd. unfold UINT64_MAX.
    match goal with H : context [be r =? 0] |- _ => destruct (Z.eqb_spec (be r) 0); [done|] end.
    split; [lia|]. change (Bootstrap.egress_bootstrap_response 0) with (Bootstrap.egress_bootstrap_response Bootstrap.OK). rewrite bootstrap_OK_bytes.
    assert (b6 = 1) as -> by (destruct (Z.eqb_spec b6 1); done).
    assert (r = be_bytes 8 (be r)) as Er; [|change (str "MEBP") with [77; 69; 66; 80]; by rewrite <-Er].
    apply be_inj; [done|apply be_bytes_is_byte|by rewrite length_be_bytes|]. rewrite be_be_bytes.
    symmetry. apply Z.mod_small. exact Hbd.
  - intros [Ht ->]. unfold UINT64_MAX in Ht. rewrite bootstrap_OK_bytes. unfold Bootstrap.egress_bootstrap_decode_response.
    change (drop 8 (str "MEBP" ++ [1; 0; 1; 0] ++ be_bytes 8 t)) with (be_bytes 8 t).
    rewrite be_loop64, be_be_bytes by (apply be_bytes_is_byte || by rewrite length_be_bytes).
    rewrite Z.mod_small by (change (256 ^ Z.of_nat 8) with (2 ^ 64); lia).
    destruct (Z.eqb_spec t 0); [lia|]. done.
Qed.

(** * The loops *)

Lemma await_io_values deadline turns ready :
  await_io deadline turns = Some ready -> ready = -1 \/ ready = 0 \/ ready = 1.
Proof.
  rewrite await_io_first. intros (l1 & t & l2 & _ & Hv & _)%head_omap_Some.
  unfold io_verdict, poll_verdict in Hv. repeat case_match; naive_solver.
Qed.

(** A wait either lets the loop go on or ends it with an error. *)
Lemma awaited_cases {A} deadline turns (fail : maelys_egress_client_result_t -> A) (go : option A) :
  (await_io deadline turns = Some 1 /\ awaited (await_io deadline turns) fail go = go) \/
  (await_io deadline turns <> Some 1 /\
   (awaited (await_io deadline turns) fail go = None \/
    awaited (await_io deadline turns) fail go = Some (fail CLIENT_ERR_UNANSWERED) \/
    awaited (await_io deadline turns) fail go = Some (fail CLIENT_ERR_IO))).
Proof.
  destruct (await_io deadline turns) as [v|] eqn:E; [|right; split; [done|by left]].
  destruct (await_io_values _ _ _ E) as [->|[->| ->]].
  - right. split; [done|]. right. by right.
  - right. split; [done|]. right. by left.
  - by left.
Qed.

(** The calls of a loop as they happen: what each answers to what it is given. *)
Record send_answer := SendAnswer {
  sent_turns : list turn;
  send_io : Fdpass.result;
  send_count : Z;
}.

Record receive_answer := ReceiveAnswer {
  received_turns : list turn;
  receive_io : Fdpass.result;
  receive_message : Fdpass.received;
}.

(** The sends of [request] from [progress] on: each is offered what is left. *)
Fixpoint sends_of (request : bytes) (progress : Z) (calls : list send_call) : list send_answer :=
  match calls with
  | [] => []
  | s :: calls =>
      let '(io, n) := send_reply s (zdrop progress request) in
      SendAnswer (send_turns s) io n ::
        sends_of request (if bool_decide (io = Fdpass.OK) then progress + n else progress) calls
  end.

(** The receives of a frame from [progress] on: byte zero is asked for alone, then
    all that is missing. *)
Fixpoint receives_of (progress : Z) (calls : list receive_call) : list receive_answer :=
  match calls with
  | [] => []
  | a :: calls =>
      let '(io, m) := receive_reply a (if progress =? 0 then 1 else Bootstrap.RESPONSE_SIZE - progress) in
      ReceiveAnswer (receive_turns a) io m ::
        receives_of (if bool_decide (io = Fdpass.OK) then progress + len (Fdpass.data m) else progress) calls
  end.

(** The contracts of descriptor passing: a send takes at most the bytes offered,
    a receive gives at most the bytes and the one descriptor there is room for. *)
Definition sends_kept (calls : list send_call) : Prop :=
  Forall (fun s => forall b n, send_reply s b = (Fdpass.OK, n) -> 0 <= n <= len b) calls.

Definition receives_kept (calls : list receive_call) : Prop :=
  Forall (fun a => forall capacity m, receive_reply a capacity = (Fdpass.OK, m) -> Fdpass.receives capacity 1 m) calls.

(** The loops on the answers. *)
Fixpoint send_answers (deadline size progress : Z) (sends : list send_answer)
  : option (maelys_egress_client_result_t + Z) :=
  if size <=? progress then Some (inr progress)
  else
    match sends with
    | [] => None
    | s :: sends =>
        awaited (await_io deadline (sent_turns s)) inl
          (let io := send_io s in
           if retries io then send_answers deadline size progress sends
           else if bool_decide (io = Fdpass.CLOSED) || bool_decide (io = Fdpass.RESET) then Some (inr progress)
           else if negb (bool_decide (io = Fdpass.OK)) || (send_count s =? 0) then Some (inl CLIENT_ERR_IO)
           else send_answers deadline size (progress + send_count s) sends)
    end.

Fixpoint receive_answers (deadline : Z) (response : bytes) (channel : Z) (receives : list receive_answer)
  : option ((maelys_egress_client_result_t + bytes) * Z * list client_effect) :=
  if Bootstrap.RESPONSE_SIZE <=? len response then Some (inr response, channel, [])
  else
    match receives with
    | [] => None
    | a :: receives =>
        awaited (await_io deadline (received_turns a)) (fun e => (inl e, channel, []))
          (let io := receive_io a in
           let r := receive_message a in
           if retries io then receive_answers deadline response channel receives
           else if negb (bool_decide (io = Fdpass.OK)) then Some (inl CLIENT_ERR_IO, channel, [])
           else
             let count := negb (Nat.eqb (length (Fdpass.fds r)) 0) in
             let passed := match Fdpass.fds r with fd :: _ => fd | [] => -1 end in
             let malformed := Fdpass.flagged r || (len (Fdpass.data r) =? 0) ||
                              (count && (negb (len response =? 0) || (0 <=? channel))) in
             let got := map ClientGot (Fdpass.fds r) in
             let '(channel, closed) :=
               if count then if malformed then (channel, [ClientClosed passed]) else (passed, [])
               else (channel, []) in
             if malformed then Some (inl CLIENT_ERR_PROTOCOL, channel, got ++ closed)
             else
               '(result, channel, effects) ← receive_answers deadline (response ++ Fdpass.data r) channel receives;
               Some (result, channel, got ++ closed ++ effects))
    end.

(** What the kernel says of a send: at most the bytes offered. *)
Fixpoint sends_ok (room : Z) (sends : list send_answer) : Prop :=
  match sends with
  | [] => True
  | s :: sends =>
      if bool_decide (send_io s = Fdpass.OK) then 0 <= send_count s <= room /\ sends_ok (room - send_count s) sends
      else sends_ok room sends
  end.

Definition send_advances (deadline : Z) (s : send_answer) : Prop :=
  await_io deadline (sent_turns s) = Some 1 /\
  (retries (send_io s) = true \/ (send_io s = Fdpass.OK /\ 0 < send_count s)).

Fixpoint sent_bytes (sends : list send_answer) : Z :=
  match sends with
  | [] => 0
  | s :: sends => (if bool_decide (send_io s = Fdpass.OK) then send_count s else 0) + sent_bytes sends
  end.

Lemma retries_OK io : retries io = true -> io <> Fdpass.OK.
Proof. unfold retries. by intros H ->. Qed.

Lemma sent_bytes_nonneg deadline sends : Forall (send_advances deadline) sends -> 0 <= sent_bytes sends.
Proof.
  induction 1 as [|s sends [_ [Hr|[_ Hc]]] _ IH]; simpl; [lia| |case_bool_decide; lia].
  apply retries_OK in Hr. case_bool_decide; [done|lia].
Qed.

(** The answers a loop consumes: a prefix of those that would come. *)
Definition consumes {A} (P : A -> Prop) (Q : list A -> Prop) (l : list A) : Prop :=
  exists before after, l = before ++ after /\ Forall P before /\ Q before.

Lemma consumes_nil {A} (P : A -> Prop) Q : consumes P Q [] <-> Q [].
Proof.
  split; [|intros HQ; by exists [], []].
  intros (before & after & E & _ & HQ). by destruct before.
Qed.

Lemma consumes_cons {A} (P : A -> Prop) Q a l :
  consumes P Q (a :: l) <-> Q [] \/ (P a /\ consumes P (fun before => Q (a :: before)) l).
Proof.
  split.
  - intros ([|a' before] & after & E & Hb & HQ); [by left|]. simplify_eq/=.
    apply Forall_cons in Hb as [? ?]. right. split; [done|]. by exists before, after.
  - intros [HQ|[Ha (before & after & -> & Hb & HQ)]]; [by exists [], (a :: l)|].
    exists (a :: before), after. split_and!; [done|by constructor|done].
Qed.

Lemma consumes_iff {A} (P : A -> Prop) Q R l :
  (forall before, Forall P before -> Q before <-> R before) -> consumes P Q l <-> consumes P R l.
Proof.
  intros HQR. split; intros (before & after & -> & Hb & HQ); exists before, after;
    (split_and!; [done|done|by apply HQR]).
Qed.

(** The request is sent whole exactly when enough sends in a row advance. *)
Lemma send_request_whole deadline size progress sends :
  progress <= size -> sends_ok (size - progress) sends ->
  send_answers deadline size progress sends = Some (inr size) <->
  consumes (send_advances deadline) (fun before => progress + sent_bytes before = size) sends.
Proof.
  revert progress. induction sends as [|s sends IH]; intros progress Hp Hok; cbn [send_answers].
  - rewrite consumes_nil. cbn [sent_bytes]. destruct (Z.leb_spec size progress); [|split; [done|lia]].
    split; [lia|]. intros _. do 2 f_equal. lia.
  - rewrite consumes_cons. cbn [sent_bytes]. destruct (Z.leb_spec size progress).
    { split; [lia|]. intros _. do 2 f_equal. lia. }
    destruct (awaited_cases (A := maelys_egress_client_result_t + Z) deadline (sent_turns s) inl
      (if retries (send_io s) then send_answers deadline size progress sends
       else if bool_decide (send_io s = Fdpass.CLOSED) || bool_decide (send_io s = Fdpass.RESET) then Some (inr progress)
       else if negb (bool_decide (send_io s = Fdpass.OK)) || (send_count s =? 0) then Some (inl CLIENT_ERR_IO)
       else send_answers deadline size (progress + send_count s) sends)) as [[Hw ->]|[Hw Hf]].
    2:{ split; [by destruct Hf as [->|[-> | ->]]|]. intros [?|[[Hw' _] _]]; [lia|done]. }
    cbn [sends_ok] in Hok. unfold send_advances at 1.
    destruct (retries (send_io s)) eqn:Er.
    { pose proof (retries_OK _ Er). case_bool_decide; [done|]. rewrite IH by done.
      split; [intros Hc; right; split; [by auto|]|intros [?|[_ Hc]]; [lia|]];
        (eapply consumes_iff; [|exact Hc]); intros; simpl; lia. }
    case_bool_decide as Eo.
    + rewrite Eo. rewrite !bool_decide_eq_false_2 by done. cbn [orb].
      cbn [negb orb]. destruct (Z.eqb_spec (send_count s) 0).
      { split; [done|]. intros [?|[[_ [?|[_ ?]]] _]]; done || lia. }
      destruct Hok as [Hc Hok]. rewrite IH by (lia || by replace (size - (progress + send_count s)) with (size - progress - send_count s) by lia).
      split; [intros Hx; right; split; [split; [done|right; split; [done|lia]]|]|intros [?|[_ Hx]]; [lia|]];
        (eapply consumes_iff; [|exact Hx]); intros; simpl; lia.
    + destruct (_ || _); cbn; (split; [|intros [?|[[_ [?|[? _]]] _]]; done || lia]); intros [= ?]; lia.
Qed.

(** What the kernel says of a receive: at most the bytes and the one descriptor
    there is room for. *)
Fixpoint receives_ok (progress : Z) (receives : list receive_answer) : Prop :=
  match receives with
  | [] => True
  | a :: receives =>
      if bool_decide (receive_io a = Fdpass.OK) then
        Fdpass.receives (if progress =? 0 then 1 else Bootstrap.RESPONSE_SIZE - progress) 1 (receive_message a) /\
        receives_ok (progress + len (Fdpass.data (receive_message a))) receives
      else receives_ok progress receives
  end.

Definition messages (receives : list receive_answer) : list Fdpass.received :=
  omap (fun a => if bool_decide (receive_io a = Fdpass.OK) then Some (receive_message a) else None) receives.

Definition stream_of (ms : list Fdpass.received) : bytes := concat (map Fdpass.data ms).

(** A message of the frame: whole, with bytes, and after the first one without
    descriptors. *)
Definition whole (m : Fdpass.received) : Prop := Fdpass.flagged m = false /\ Fdpass.data m <> [].
Definition plain (m : Fdpass.received) : Prop := whole m /\ Fdpass.fds m = [].

Definition receive_advances (deadline : Z) (a : receive_answer) : Prop :=
  await_io deadline (received_turns a) = Some 1 /\
  (retries (receive_io a) = true \/ receive_io a = Fdpass.OK).

Definition receives_response (deadline : Z) (response : bytes) (channel : Z) (receives : list receive_answer)
  (r : bytes) (channel' : Z) : Prop :=
  exists effects, receive_answers deadline response channel receives = Some (inr r, channel', effects).

Definition first_fd (m : Fdpass.received) : Z := match Fdpass.fds m with fd :: _ => fd | [] => -1 end.

Lemma whole_spec m : whole m <-> Fdpass.flagged m || (len (Fdpass.data m) =? 0) = false.
Proof.
  unfold whole, len. rewrite orb_false_iff. destruct (Fdpass.data m); simpl; [by split; intros [? ?]|].
  split; intros [? _]; split; done || lia.
Qed.

Lemma receives_more deadline response channel receives got r channel' :
  (exists effects, ('(result, channel, e) ← receive_answers deadline response channel receives;
     Some (result, channel, got ++ e)) = Some (inr r, channel', effects)) <->
  receives_response deadline response channel receives r channel'.
Proof.
  unfold receives_response. destruct (receive_answers _ _ _ _) as [[[result c] e]|]; simpl;
    split; intros [effects E]; simplify_eq; by eexists.
Qed.

(** A turn of the loop, by cases. *)
Lemma receive_turn deadline response channel a receives r channel' :
  len response < Bootstrap.RESPONSE_SIZE ->
  receives_response deadline response channel (a :: receives) r channel' <->
  await_io deadline (received_turns a) = Some 1 /\
  if retries (receive_io a) then receives_response deadline response channel receives r channel'
  else
    let m := receive_message a in
    receive_io a = Fdpass.OK /\ whole m /\ (Fdpass.fds m = [] \/ (response = [] /\ channel < 0)) /\
    receives_response deadline (response ++ Fdpass.data m)
      (match Fdpass.fds m with fd :: _ => fd | [] => channel end) receives r channel'.
Proof.
  intros Hl. unfold receives_response at 1. cbn [receive_answers].
  destruct (Z.leb_spec Bootstrap.RESPONSE_SIZE (len response)); [lia|].
  match goal with |- context [awaited (await_io deadline (received_turns a)) ?f ?g] =>
    destruct (awaited_cases deadline (received_turns a) f g) as [[Hw ->]|[Hw Hf]] end.
  2:{ split; [intros [effects E]|by intros [? _]]. by destruct Hf as [Hf|[Hf|Hf]]; rewrite Hf in E. }
  cbn zeta. destruct (retries (receive_io a)); [unfold receives_response; tauto|].
  case_bool_decide as Eo; cbn [negb]; [|split; [by intros [? ?]|tauto]].
  rewrite whole_spec. destruct (Fdpass.flagged (receive_message a) || _) eqn:Em.
  { cbn [orb]. split; [|naive_solver]. intros [effects E]. by case_match. }
  cbn [orb]. destruct (Fdpass.fds (receive_message a)) as [|fd fds]; cbn [length Nat.eqb negb andb].
  - rewrite receives_more. tauto.
  - assert (Hfree : negb (len response =? 0) || (0 <=? channel) = false <-> response = [] /\ channel < 0).
    { unfold len. destruct response; simpl; [|split; [done|by intros [? _]]]. rewrite Z.leb_gt. tauto. }
    destruct (negb (len response =? 0) || (0 <=? channel)).
    + split; [by intros [? ?]|]. intros (_ & _ & _ & [?|?] & _); [done|]. by apply Hfree in H0.
    + rewrite receives_more. naive_solver.
Qed.

Lemma receives_done deadline response channel receives r channel' :
  Bootstrap.RESPONSE_SIZE <= len response ->
  receives_response deadline response channel receives r channel' <-> r = response /\ channel' = channel.
Proof.
  intros Hl. unfold receives_response. destruct receives; cbn [receive_answers];
    (destruct (Z.leb_spec Bootstrap.RESPONSE_SIZE (len response)); [|lia]);
    (split; [intros [effects E]; by simplify_eq|intros [-> ->]; by eexists]).
Qed.

Lemma messages_cons a receives :
  messages (a :: receives) =
    (if bool_decide (receive_io a = Fdpass.OK) then [receive_message a] else []) ++ messages receives.
Proof. unfold messages. cbn. by case_bool_decide. Qed.

Lemma len_zero (b : bytes) : len b = 0 <-> b = [].
Proof. unfold len. destruct b; simpl; split; done || lia. Qed.

(** [r] is what was there and the messages of [before], without descriptors. *)
Definition completes (response r : bytes) (before : list receive_answer) : Prop :=
  Forall plain (messages before) /\ r = response ++ stream_of (messages before) /\ len r = Bootstrap.RESPONSE_SIZE.

Lemma completes_retry response r a before :
  receive_io a <> Fdpass.OK -> completes response r (a :: before) <-> completes response r before.
Proof. intros Ha. unfold completes. by rewrite messages_cons, bool_decide_eq_false_2. Qed.

Lemma completes_message response r a before :
  receive_io a = Fdpass.OK ->
  completes response r (a :: before) <->
  plain (receive_message a) /\ completes (response ++ Fdpass.data (receive_message a)) r before.
Proof.
  intros Ha. unfold completes. rewrite messages_cons, bool_decide_eq_true_2 by done. cbn [app].
  rewrite Forall_cons. unfold stream_of. cbn [map concat]. rewrite app_assoc. tauto.
Qed.

(** The part of a frame after byte zero. *)
Lemma receive_tail deadline response channel receives r channel' :
  response <> [] -> len response <= Bootstrap.RESPONSE_SIZE -> receives_ok (len response) receives ->
  receives_response deadline response channel receives r channel' <->
  channel' = channel /\ consumes (receive_advances deadline) (completes response r) receives.
Proof.
  revert response channel. induction receives as [|a receives IH]; intros response channel Hne Hl Hok.
  - rewrite consumes_nil. unfold completes. cbn. rewrite app_nil_r.
    destruct (Z.lt_ge_cases (len response) Bootstrap.RESPONSE_SIZE).
    + split; [intros [effects E]; cbn in E|intros (_ & _ & -> & ?); lia].
      by destruct (Z.leb_spec Bootstrap.RESPONSE_SIZE (len response)); [lia|].
    + rewrite receives_done by lia. split; [intros [-> ->]|naive_solver]. split_and!; [done|constructor|done|lia].
  - rewrite consumes_cons. destruct (Z.lt_ge_cases (len response) Bootstrap.RESPONSE_SIZE) as [Hlt|Hge].
    + rewrite receive_turn by done. cbn [receives_ok] in Hok. unfold receive_advances at 1.
      assert (Hbase : ~ completes response r []).
      { intros (_ & -> & El). cbn in El. rewrite app_nil_r in El. lia. }
      destruct (retries (receive_io a)) eqn:Er.
      { pose proof (retries_OK _ Er). rewrite bool_decide_eq_false_2 in Hok by done. rewrite IH by done.
        rewrite (consumes_iff _ (fun before => completes response r (a :: before)) (completes response r))
          by (intros; by apply completes_retry). tauto. }
      case_bool_decide as Eo; [|split; [tauto|intuition congruence]].
      destruct Hok as [[Hlen Hby _ _] Hok]. cbn zeta.
      destruct (Z.eqb_spec (len response) 0) as [Hz|_]; [by apply len_zero in Hz|].
      rewrite IH; [|by destruct response|rewrite len_app; lia|by rewrite len_app].
      rewrite (consumes_iff _ (fun before => completes response r (a :: before)) _)
        by (intros; by apply completes_message).
      split.
      * intros (Hw & _ & Hwh & [Hf|[? _]] & -> & before & after & -> & Hb & HQ); [|done]. rewrite Hf.
        split; [done|]. right. split; [by auto|]. by exists before, after.
      * intros (-> & [?|([Hw _] & before & after & -> & Hb & [Hwh Hf] & HQ)]); [tauto|]. rewrite Hf.
        split_and!; [done|done|done|by left|done|by exists before, after].
    + assert (len response = Bootstrap.RESPONSE_SIZE) as El by lia. rewrite receives_done by lia. split.
      * intros [-> ->]. split; [done|]. left. unfold completes. cbn. rewrite app_nil_r. split_and!; [constructor|done|done].
      * assert (Hfull : forall before, completes response r before -> r = response).
        { intros before (_ & -> & El'). rewrite len_app in El'.
          assert (stream_of (messages before) = []) as -> by (apply len_zero; lia). apply app_nil_r. }
        intros (-> & [HQ|(_ & before & after & _ & _ & HQ)]); (split; [|done]); by eapply Hfull.
Qed.

(** The whole frame: byte zero comes alone, and only it may carry the
    descriptor. *)
Definition framed (r : bytes) (channel : Z) (before : list receive_answer) : Prop :=
  exists m ms, messages before = m :: ms /\ whole m /\ len (Fdpass.data m) = 1 /\ Forall plain ms /\ channel = first_fd m /\
    r = stream_of (m :: ms) /\ len r = Bootstrap.RESPONSE_SIZE.

Lemma framed_retry r channel a before :
  receive_io a <> Fdpass.OK -> framed r channel (a :: before) <-> framed r channel before.
Proof. intros Ha. unfold framed. by rewrite messages_cons, bool_decide_eq_false_2. Qed.

Lemma framed_message r channel a before :
  receive_io a = Fdpass.OK ->
  framed r channel (a :: before) <->
  whole (receive_message a) /\ len (Fdpass.data (receive_message a)) = 1 /\
  channel = first_fd (receive_message a) /\ completes (Fdpass.data (receive_message a)) r before.
Proof.
  intros Ha. unfold framed, completes. rewrite messages_cons, bool_decide_eq_true_2 by done. cbn [app]. split.
  - intros (m & ms & E & Hm). simplify_eq. unfold stream_of in Hm. cbn [map concat] in Hm. tauto.
  - intros Hm. eexists _, _. split; [done|]. unfold stream_of. cbn [map concat]. tauto.
Qed.

Lemma receive_frame deadline receives r channel :
  receives_ok 0 receives ->
  receives_response deadline [] (-1) receives r channel <->
  consumes (receive_advances deadline) (framed r channel) receives.
Proof.
  assert (Hbase : ~ framed r channel []) by (by intros (m & ms & E & _)).
  induction receives as [|a receives IH]; intros Hok; [rewrite consumes_nil; split; [by intros [effects E]|done]|].
  rewrite consumes_cons, receive_turn by done. cbn [receives_ok] in Hok. unfold receive_advances at 1.
  destruct (retries (receive_io a)) eqn:Er.
  { pose proof (retries_OK _ Er). rewrite bool_decide_eq_false_2 in Hok by done. rewrite IH by done.
    rewrite (consumes_iff _ (fun before => framed r channel (a :: before)) (framed r channel))
      by (intros; by apply framed_retry). tauto. }
  case_bool_decide as Eo; [|split; [tauto|intuition congruence]].
  destruct Hok as [[Hlen Hby _ _] Hok]. cbn [Z.eqb] in Hlen. cbn zeta.
  rewrite app_nil_l. change (0 + ?x) with x in Hok.
  rewrite (consumes_iff _ (fun before => framed r channel (a :: before)) _) by (intros; by apply framed_message).
  split.
  - intros (Hw & _ & Hwh & _ & Hr). apply receive_tail in Hr; [|by apply Hwh|unfold Bootstrap.RESPONSE_SIZE; lia|done].
    destruct Hr as [-> (before & after & -> & Hb & HQ)]. right. split; [by auto|]. exists before, after.
    split_and!; try done. destruct Hwh as [_ Hne]. rewrite <-len_zero in Hne. pose proof (len_nonneg (Fdpass.data (receive_message a))). lia.
  - intros [?|([Hw _] & before & after & -> & Hb & Hwh & _ & -> & HQ)]; [done|].
    split_and!; [done|done|done|by right|]. apply receive_tail; [by apply Hwh|unfold Bootstrap.RESPONSE_SIZE; lia|done|].
    split; [done|]. by exists before, after.
Qed.

(** * Descriptors *)

(** The descriptors of a run of the loop: each is the channel's or closed. *)
Lemma receive_ledger deadline response channel receives result channel' effects :
  receives_ok (len response) receives ->
  receive_answers deadline response channel receives = Some (result, channel', effects) ->
  kept channel ++ client_got effects ≡ₚ kept channel' ++ client_closed effects.
Proof.
  revert response channel result channel' effects.
  induction receives as [|a receives IH]; intros response channel result channel' effects Hok E; cbn [receive_answers] in E.
  { by case_match; simplify_eq. }
  destruct (Bootstrap.RESPONSE_SIZE <=? len response); [by simplify_eq|].
  match type of E with awaited (await_io deadline (received_turns a)) ?f ?g = _ =>
    destruct (awaited_cases deadline (received_turns a) f g) as [[_ Eg]|[_ [Eg|[Eg|Eg]]]]; rewrite Eg in E; simplify_eq; try done end.
  clear Eg. cbn [receives_ok] in Hok. destruct (retries (receive_io a)) eqn:Er.
  { pose proof (retries_OK _ Er). rewrite bool_decide_eq_false_2 in Hok by done. by eapply IH. }
  case_bool_decide as Eo; cbn [negb] in E; [|by simplify_eq]. destruct Hok as [[_ _ Hroom Hfds] Hok].
  rewrite <-len_app in Hok.
  set (m := receive_message a) in *. set (bad := _ || (_ && _)) in E.
  assert (Hlen : (exists fd, 0 <= fd /\ Fdpass.fds m = [fd]) \/ Fdpass.fds m = []).
  { destruct (Fdpass.fds m) as [|fd [|? ?]]; simpl in *; [by right| |lia]. left. exists fd.
    by apply Forall_cons in Hfds as [? _]. }
  destruct Hlen as [(fd & Hfd & Ef)|Ef]; rewrite Ef in E; cbn [length Nat.eqb negb map] in E.
  - destruct bad eqn:Eb; cbn [app] in E; [by simplify_eq/=|].
    subst bad. rewrite Ef in Eb. cbn [length Nat.eqb negb andb] in Eb.
    destruct (receive_answers _ _ _ _) as [[[result1 channel1] effects1]|] eqn:E1; [|done]. cbn in E. simplify_eq.
    apply IH in E1; [|done]. change (client_got (ClientGot fd :: ?l)) with (fd :: client_got l).
    change (client_closed (ClientGot fd :: ?l)) with (client_closed l). rewrite <-E1.
    assert (kept channel = []) as -> by (unfold kept; destruct (0 <=? channel); [by rewrite !orb_true_r in Eb|done]).
    unfold kept. by destruct (Z.leb_spec 0 fd); [|lia].
  - destruct bad; cbn [app] in E; [by simplify_eq|].
    destruct (receive_answers _ _ _ _) as [[[result1 channel1] effects1]|] eqn:E1; [|done]. cbn in E. simplify_eq.
    by apply IH in E1.
Qed.

Lemma framed_bytes deadline r channel receives :
  receives_ok 0 receives -> consumes (receive_advances deadline) (framed r channel) receives -> Forall is_byte r.
Proof.
  intros Hok (before & after & -> & _ & m & ms & Em & _ & _ & _ & _ & -> & _). rewrite <-Em. clear m ms Em.
  unfold stream_of. generalize 0 Hok. clear Hok. intros n. revert n.
  induction before as [|a before IH]; intros n Hok; [constructor|]. cbn [app receives_ok] in Hok.
  rewrite messages_cons. case_bool_decide; [|by eapply IH]. destruct Hok as [[_ Hb _ _] Hok].
  cbn. apply Forall_app. split; [done|]. by eapply IH.
Qed.

(** * The calls and their answers *)

Lemma sends_of_ok request progress calls :
  sends_kept calls -> 0 <= progress <= len request -> sends_ok (len request - progress) (sends_of request progress calls).
Proof.
  intros Hk. revert progress. induction Hk as [|s calls Hs _ IH]; intros progress Hp; [done|]. cbn [sends_of].
  destruct (send_reply s (zdrop progress request)) as [io n] eqn:E. cbn [sends_ok send_io send_count].
  destruct (bool_decide_reflect (io = Fdpass.OK)) as [->|]; [|by apply IH].
  specialize (Hs _ _ E). rewrite len_zdrop in Hs by done. split; [done|].
  replace (len request - progress - n) with (len request - (progress + n)) by lia. apply IH. lia.
Qed.

Lemma receives_of_ok progress calls : receives_kept calls -> receives_ok progress (receives_of progress calls).
Proof.
  intros Hk. revert progress. induction Hk as [|a calls Ha _ IH]; intros progress; [done|]. cbn [receives_of].
  destruct (receive_reply a _) as [io m] eqn:E. cbn [receives_ok receive_io receive_message].
  destruct (bool_decide_reflect (io = Fdpass.OK)) as [->|]; [|by apply IH]. split; [by apply Ha|by apply IH].
Qed.

Definition client_sent (l : list client_effect) : bytes :=
  concat (omap (fun e => match e with ClientSent b => Some b | _ => None end) l).

Lemma client_sent_app a b : client_sent (a ++ b) = client_sent a ++ client_sent b.
Proof. unfold client_sent. by rewrite omap_app, concat_app. Qed.

Lemma awaited_fmap {A B} (g : A -> B) ready fail go :
  g <$> awaited ready fail go = awaited ready (fun e => g (fail e)) (g <$> go).
Proof. unfold awaited. destruct ready as [v|]; [|done]. cbn. by destruct (v =? 0), (v <? 0). Qed.

Lemma send_request_answers deadline request progress calls :
  fst <$> send_request deadline request progress calls =
    send_answers deadline (len request) progress (sends_of request progress calls).
Proof.
  revert progress. induction calls as [|s calls IH]; intros progress; cbn [send_request sends_of];
    [cbn; by destruct (len request <=? progress)|].
  destruct (send_reply s (zdrop progress request)) as [io n]. cbn [send_answers sent_turns send_io send_count].
  destruct (len request <=? progress); [done|]. rewrite awaited_fmap. cbn zeta.
  destruct (retries io) eqn:Er; [rewrite bool_decide_eq_false_2 by (by apply retries_OK); by rewrite IH|].
  destruct (_ || _); [done|]. destruct (bool_decide (io = Fdpass.OK)); cbn [negb orb]; [|done].
  destruct (n =? 0); [done|]. rewrite <-IH. by destruct (send_request _ _ _ _) as [[]|].
Qed.

Lemma receive_response_answers deadline response channel calls :
  receive_response deadline response channel calls =
    receive_answers deadline response channel (receives_of (len response) calls).
Proof.
  revert response channel. induction calls as [|a calls IH]; intros response channel; cbn [receive_response receives_of]; [done|].
  assert (Ec : (if negb (len response =? 0) then Bootstrap.RESPONSE_SIZE - len response else 1) =
    (if len response =? 0 then 1 else Bootstrap.RESPONSE_SIZE - len response)) by (by destruct (len response =? 0)).
  rewrite Ec. destruct (receive_reply a _) as [io m]. cbn [receive_answers received_turns receive_io receive_message].
  destruct (_ <=? len response); [done|]. f_equal.
  destruct (retries io) eqn:Er; [rewrite bool_decide_eq_false_2 by (by apply retries_OK); by rewrite IH|].
  destruct (bool_decide (io = Fdpass.OK)); cbn [negb]; [|done].
  destruct (if negb (Nat.eqb (length (Fdpass.fds m)) 0) then _ else _) as [channel' closed].
  destruct (Fdpass.flagged m || _ || _); [done|]. by rewrite IH, len_app.
Qed.

Lemma zsplit (b : bytes) i n :
  0 <= i -> 0 <= n -> ztake i b ++ ztake n (zdrop i b) = ztake (i + n) b /\ zdrop n (zdrop i b) = zdrop (i + n) b.
Proof.
  intros Hi Hn. unfold ztake, zdrop. rewrite Z2Nat.inj_add, drop_drop by lia. split; [|done].
  by rewrite take_take_drop.
Qed.

(** What is sent is the request, as far as it got. *)
Lemma send_request_sent deadline request progress calls result effects :
  sends_kept calls -> 0 <= progress <= len request ->
  send_request deadline request progress calls = Some (result, effects) ->
  client_got effects = [] /\ client_closed effects = [] /\ client_sent effects `prefix_of` zdrop progress request /\
  (forall e, result = inl e -> e <> CLIENT_OK) /\
  (forall p, result = inr p -> progress <= p <= len request /\ ztake progress request ++ client_sent effects = ztake p request).
Proof.
  intros Hk. revert progress result effects. induction Hk as [|s calls Hs _ IH]; intros progress result effects Hp E;
    cbn [send_request] in E.
  { destruct (Z.leb_spec (len request) progress); simplify_eq. split_and!; try done; [by eexists|].
    intros p [= <-]. split; [lia|]. apply app_nil_r. }
  assert (Hnone : forall r, (forall e, r = inl e -> e <> CLIENT_OK) -> (forall p, r = inr p -> p = progress) ->
    Some (r, []) = Some (result, effects) ->
    client_got effects = [] /\ client_closed effects = [] /\ client_sent effects `prefix_of` zdrop progress request /\
    (forall e, result = inl e -> e <> CLIENT_OK) /\
    (forall p, result = inr p -> progress <= p <= len request /\ ztake progress request ++ client_sent effects = ztake p request)).
  { intros r He Hr [= -> <-]. split_and!; try done; [apply prefix_nil|]. intros p ->. rewrite (Hr p eq_refl).
    split; [lia|]. apply app_nil_r. }
  destruct (Z.leb_spec (len request) progress); [eapply Hnone; [| |exact E]; naive_solver|].
  match type of E with awaited (await_io deadline (send_turns s)) ?f ?g = _ =>
    destruct (awaited_cases deadline (send_turns s) f g) as [[_ Eg]|[_ [Eg|[Eg|Eg]]]]; rewrite Eg in E; clear Eg end;
    [|done|eapply Hnone; [| |exact E]; naive_solver..].
  cbn zeta in E. destruct (send_reply s (zdrop progress request)) as [io n] eqn:Es.
  destruct (retries io); [by apply (IH progress)|]. destruct (_ || _); [eapply Hnone; [| |exact E]; naive_solver|].
  destruct (bool_decide_reflect (io = Fdpass.OK)) as [->|]; cbn [negb orb] in E; [|eapply Hnone; [| |exact E]; naive_solver].
  destruct (n =? 0); [eapply Hnone; [| |exact E]; naive_solver|].
  destruct (send_request deadline request (progress + n) calls) as [[r l]|] eqn:Er; [|done]. cbn in E. simplify_eq.
  pose proof (Hs _ _ Es) as Hn. rewrite len_zdrop in Hn by done. destruct (IH (progress + n) _ _ ltac:(lia) Er) as (Hg & Hc & Hpre & He & Hr).
  destruct (zsplit request progress n) as [E1 E2]; [lia|lia|]. split_and!; try done.
  - change (client_sent (ClientSent ?x :: l)) with (x ++ client_sent l). pose proof (prefix_app (ztake n (zdrop progress request)) _ _ Hpre) as Hp'.
    by rewrite <-E2, ztake_zdrop in Hp'.
  - intros p Ep. destruct (Hr p Ep) as [Hb Et]. split; [lia|].
    change (client_sent (ClientSent ?x :: l)) with (x ++ client_sent l). by rewrite app_assoc, E1.
Qed.

(** * The theorem *)

Definition open_deadline (timeout : Z) (a : open_answers) : Z :=
  let started := now_ms (open_started a) in
  if UINT64_MAX - started <=? timeout then UINT64_MAX - 1 else started + timeout.

Definition connected (deadline : Z) (a : open_answers) : Prop :=
  open_connect a = CONNECT_DONE \/
  (open_connect a = CONNECT_PENDING /\ await_io deadline (open_connect_turns a) = Some 1 /\
   open_so_error a = true /\ open_peer a = true).

(** When a channel is opened, and what its handle is. *)
Record opens (path : bytes) (timeout : Z) (a : open_answers) (c : maelys_egress_client_channel) : Prop := {
  opens_timeout : timeout <> 0 /\ timeout <> UINT64_MAX;
  opens_path : Bootstrap.egress_bootstrap_path_valid path = true /\ len path < SUN_PATH_SIZE;
  opens_clock : now_ms (open_started a) <> UINT64_MAX;
  opens_resources : open_calloc a = true /\ open_fcntl a = true;
  opens_lease : open_socket a = lease c /\ 0 <= lease c;
  opens_connected : connected (open_deadline timeout a) a;
  opens_request : consumes (send_advances (open_deadline timeout a))
    (fun before => sent_bytes before = len Bootstrap.egress_bootstrap_request)
    (sends_of Bootstrap.egress_bootstrap_request 0 (open_sends a));
  opens_response : consumes (receive_advances (open_deadline timeout a))
    (framed (Bootstrap.egress_bootstrap_response Bootstrap.OK (client_connect_timeout_ms c)) (client_end c))
    (receives_of 0 (open_receives a));
  opens_granted : 0 < client_connect_timeout_ms c <= UINT64_MAX;
  opens_channel : 0 <= client_end c /\ is_channel (open_descriptor a) = true;
  opens_quiet : retries (open_tail a) = true;
}.

Lemma status_result_OK status : status_result status = CLIENT_OK <-> status = Bootstrap.OK.
Proof.
  unfold status_result. destruct (Z.eqb_spec status Bootstrap.OK); [by subst|]. split; [|done]. intros E.
  repeat case_match; done.
Qed.

Lemma open_verdict_OK complete response channel a t :
  open_verdict complete response channel a = (CLIENT_OK, t) <->
  Bootstrap.egress_bootstrap_decode_response response = Some (Bootstrap.OK, t) /\ complete = true /\
  0 <= channel /\ is_channel (open_descriptor a) = true /\ retries (open_tail a) = true.
Proof.
  unfold open_verdict. destruct (Bootstrap.egress_bootstrap_decode_response response) as [[status t']|]; [|split; [done|by intros [? _]]].
  split.
  - intros E. destruct (_ || _) eqn:Eg; [done|].
    destruct (bool_decide_reflect (status_result status = CLIENT_OK)) as [Es|Es]; cbn [negb] in E; [|simplify_eq].
    apply status_result_OK in Es. subst status. simpl in Eg.
    destruct (is_channel _); [|done]. destruct (retries _); cbn [negb] in E; [|by case_bool_decide].
    destruct complete; [|done]. destruct (Z.leb_spec 0 channel); [|done]. by simplify_eq.
  - intros ([= -> ->] & -> & Hc & -> & ->). simpl. by destruct (Z.leb_spec 0 channel); [|lia].
Qed.

Lemma open_exchange_OK deadline lease_ a effects c :
  receives_kept (open_receives a) -> sends_kept (open_sends a) ->
  (exists effects', open_exchange deadline lease_ a effects = Some (CLIENT_OK, Some c, effects')) <->
  lease c = lease_ /\
  consumes (send_advances deadline) (fun before => sent_bytes before = len Bootstrap.egress_bootstrap_request)
    (sends_of Bootstrap.egress_bootstrap_request 0 (open_sends a)) /\
  consumes (receive_advances deadline)
    (framed (Bootstrap.egress_bootstrap_response Bootstrap.OK (client_connect_timeout_ms c)) (client_end c))
    (receives_of 0 (open_receives a)) /\
  0 < client_connect_timeout_ms c <= UINT64_MAX /\ 0 <= client_end c /\
  is_channel (open_descriptor a) = true /\ retries (open_tail a) = true.
Proof.
  intros Hr%(receives_of_ok 0) Hs. apply (sends_of_ok Bootstrap.egress_bootstrap_request 0) in Hs; [|done].
  rewrite <-receive_frame by done.
  rewrite <-(consumes_iff _ (fun before => 0 + sent_bytes before = len Bootstrap.egress_bootstrap_request) _)
    by done.
  rewrite <-send_request_whole, <-send_request_answers by (by rewrite ?Z.sub_0_r).
  unfold open_exchange, receives_response. rewrite receive_response_answers. change (len []) with 0.
  split.
  - intros [effects' E]. destruct (send_request _ _ _ _) as [[[e|progress] written]|]; [done| |done]. cbn in E.
    destruct (receive_answers _ _ _ _) as [[[[e|response] channel] got]|] eqn:Er; [done| |done]. cbn in E.
    destruct (open_verdict _ _ _ _) as [result t] eqn:Ev. case_bool_decide as Eo; [|done]. subst result. simplify_eq.
    apply open_verdict_OK in Ev as (Ed & Ep & Hc & Hd & Ht). apply Z.eqb_eq in Ep as ->.
    rewrite decode_bootstrap_OK in Ed; [|eapply framed_bytes; [exact Hr|]; apply receive_frame; [done|by eexists]].
    destruct Ed as [Ht' ->]. simpl. split_and!; try done; try lia. by eexists.
  - intros (<- & ([s written] & -> & Es)%fmap_Some & [got ->] & Ht & Hc & Hd & Hq). cbn in Es. subst s. cbn -[open_verdict].
    match goal with |- context [open_verdict ?p ?r ?ch a] =>
      assert (open_verdict p r ch a = (CLIENT_OK, client_connect_timeout_ms c)) as -> end.
    { apply open_verdict_OK. split_and!; try done. apply decode_bootstrap_OK; [|done].
      rewrite bootstrap_OK_bytes. apply Forall_app. split; [byte_list|]. apply Forall_app.
      split; [byte_list|apply be_bytes_is_byte]. }
    case_bool_decide; [|done]. destruct c. by eexists.
Qed.

(** What every outcome of the call satisfies. *)
Definition open_settled (o : open_result) : Prop :=
  let '(result, handle, effects) := o in
  (result = CLIENT_OK <-> is_Some handle) /\
  client_got effects ≡ₚ
    match handle with Some c => [lease c; client_end c] | None => [] end ++ client_closed effects /\
  client_sent effects `prefix_of` Bootstrap.egress_bootstrap_request /\
  (result = CLIENT_OK -> client_sent effects = Bootstrap.egress_bootstrap_request).

Lemma open_fail_settled effects lease_ channel result :
  result <> CLIENT_OK -> client_got effects ≡ₚ kept channel ++ kept lease_ ++ client_closed effects ->
  client_sent effects `prefix_of` Bootstrap.egress_bootstrap_request ->
  open_settled (open_fail effects lease_ channel result).
Proof.
  intros Hr Hl Hb. unfold open_fail, open_settled, maelys_egress_client_channel_close. cbn [lease client_end].
  split_and!; [by split; [|intros []]| | |done].
  - rewrite client_got_app, !client_closed_app, !client_closed_quietly, client_got_app.
    assert (forall fd, client_got (close_quietly fd) = []) as Hq.
    { intros fd. unfold close_quietly. by destruct (0 <=? fd). }
    rewrite !Hq, !app_nil_r, Hl. simpl. solve_Permutation.
  - rewrite client_sent_app. assert (client_sent (close_quietly channel ++ close_quietly lease_) = []) as ->
      by (unfold close_quietly; by repeat case_match). by rewrite app_nil_r.
Qed.

Lemma receive_response_effects deadline response channel receives result channel' effects :
  receive_answers deadline response channel receives = Some (result, channel', effects) ->
  client_sent effects = [] /\ (forall e, result = inl e -> e <> CLIENT_OK).
Proof.
  revert response channel result channel' effects.
  induction receives as [|a receives IH]; intros response channel result channel' effects E; cbn [receive_answers] in E;
    [by case_match; simplify_eq|].
  case_match; [by simplify_eq|].
  match type of E with awaited (await_io deadline (received_turns a)) ?f ?g = _ =>
    destruct (awaited_cases deadline (received_turns a) f g) as [[_ Eg]|[_ [Eg|[Eg|Eg]]]]; rewrite Eg in E;
      simplify_eq; try (split; [done|naive_solver]) end.
  clear Eg. destruct (retries _); [by eapply IH|]. destruct (negb (bool_decide _)); [simplify_eq; split; [done|naive_solver]|].
  assert (Hg : forall l, client_sent (map ClientGot l) = []) by (by induction l).
  set (bad := _ || (_ && _)) in E. destruct (if negb _ then _ else _) as [channel1 closed] eqn:Ec.
  assert (Hc : client_sent closed = []) by (by repeat case_match; simplify_eq).
  destruct bad; [simplify_eq; split; [by rewrite client_sent_app, Hg, Hc|naive_solver]|].
  destruct (receive_answers _ _ _ _) as [[[result1 channel2] effects1]|] eqn:E1; [|done]. cbn in E. simplify_eq.
  apply IH in E1 as [Hn ?]. split; [|done]. by rewrite !client_sent_app, Hg, Hc, Hn.
Qed.

Lemma open_exchange_settled deadline lease_ a o :
  0 <= lease_ -> receives_kept (open_receives a) -> sends_kept (open_sends a) ->
  open_exchange deadline lease_ a [ClientGot lease_] = Some o -> open_settled o.
Proof.
  intros Hl Hr%(receives_of_ok 0) Hs E. unfold open_exchange in E.
  assert (Hk : kept lease_ = [lease_]) by (unfold kept; by destruct (Z.leb_spec 0 lease_); [|lia]).
  destruct (send_request _ _ _ _) as [[sent written]|] eqn:Es; [|done]; cbn -[open_verdict] in E.
  apply send_request_sent in Es as (Hsg & Hsc & Hpre & Hse & Hsr); [|done|done]. change (zdrop 0 ?b) with b in Hpre.
  destruct sent as [e|progress].
  { simplify_eq. change (ClientGot lease_ :: written) with ([ClientGot lease_] ++ written).
    apply open_fail_settled; [by apply Hse| |done]. by rewrite client_got_app, client_closed_app, Hsg, Hsc, Hk. }
  rewrite receive_response_answers in E.
  destruct (receive_answers _ _ _ _) as [[[received channel] got]|] eqn:Er; [|done]. cbn -[open_verdict] in E.
  destruct (receive_response_effects _ _ _ _ _ _ _ Er) as [Hns Herr].
  apply (receive_ledger _ [] (-1)) in Er; [|done]. cbn in Er.
  set (effects := ClientGot lease_ :: written ++ got) in *.
  assert (Hg : client_got effects ≡ₚ kept channel ++ kept lease_ ++ client_closed effects).
  { subst effects. rewrite Hk. change (ClientGot lease_ :: ?l) with ([ClientGot lease_] ++ l).
    rewrite !client_got_app, !client_closed_app, Hsg, Hsc, Er. simpl. solve_Permutation. }
  assert (Hb : client_sent effects = client_sent written).
  { change (client_sent effects) with (client_sent (written ++ got)). by rewrite client_sent_app, Hns, app_nil_r. }
  destruct received as [e|response]; [simplify_eq; apply open_fail_settled; [by apply Herr|done|by rewrite Hb]|].
  destruct (open_verdict _ _ _ _) as [result t] eqn:Ev. case_bool_decide as Eo.
  - subst result. simplify_eq. apply open_verdict_OK in Ev as (_ & Ep & Hc & _). unfold open_settled. cbn [lease client_end].
    split_and!; [done| |by rewrite Hb|].
    + rewrite Hg, Hk. unfold kept. destruct (Z.leb_spec 0 channel); [|lia]. simpl. solve_Permutation.
    + intros _. destruct (Hsr _ eq_refl) as [_ Ew]. apply Z.eqb_eq in Ep. rewrite Hb. rewrite Ep, (ztake_all (len _)) in Ew by done. exact Ew.
  - simplify_eq. apply open_fail_settled; [done|done|by rewrite Hb].
Qed.

Lemma connect_lease_spec deadline a :
  (connect_lease deadline a = Some None <-> connected deadline a) /\
  (forall e, connect_lease deadline a = Some (Some e) -> e <> CLIENT_OK).
Proof.
  unfold connect_lease, connected. destruct (open_connect a); [split; [split; auto|done]| |split; [split; [done|naive_solver]|naive_solver]].
  match goal with |- context [awaited (await_io deadline (open_connect_turns a)) ?f ?g] =>
    destruct (awaited_cases deadline (open_connect_turns a) f g) as [[Hw ->]|[Hw [->|[-> | ->]]]] end;
    [|split; [split; [done|naive_solver]|naive_solver]..].
  destruct (open_so_error a), (open_peer a); cbn; (split; [split; [|naive_solver]|naive_solver]); naive_solver.
Qed.

(** C13: opening a channel through the broker succeeds exactly when the arguments
    are usable, the lease is connected, the whole request was sent, each send
    being offered what the sends before it left, and the bytes received, the
    first asked for alone and however the others were cut, are the OK frame that
    grants a timeout, without flags, with one descriptor, which comes with byte
    zero and is a connected close-on-exec Unix datagram socket, and nothing
    behind the frame; the handle is then the lease, that descriptor and that
    timeout, and what was sent is the request.  In every other case there is no
    handle, every descriptor obtained has been closed and what was sent is a
    prefix of the request.  Assumed of the calls: a send takes at most the bytes
    it is offered, and a receive gives at most the bytes and the one descriptor
    it has room for. *)
Theorem channel_open_exact path timeout a :
  receives_kept (open_receives a) -> sends_kept (open_sends a) ->
  (forall c, (exists effects, maelys_egress_client_channel_open path timeout a = Some (CLIENT_OK, Some c, effects)) <->
     opens path timeout a c) /\
  (forall o, maelys_egress_client_channel_open path timeout a = Some o -> open_settled o).
Proof.
  intros Hr Hs. unfold maelys_egress_client_channel_open. fold (open_deadline timeout a).
  assert (Hno : forall o, (o.1.1 = CLIENT_OK -> False) -> open_settled o -> (forall c, ~ opens path timeout a c) ->
    (forall c, (exists effects, Some o = Some (CLIENT_OK, Some c, effects)) <-> opens path timeout a c) /\
    (forall o', Some o = Some o' -> open_settled o')).
  { intros o Ho Hset Hn. split; [|by intros o' [= <-]]. intros c. split; [|by intros ?%Hn].
    intros [effects [= ->]]. by destruct Ho. }
  assert (Hnone : forall result, result <> CLIENT_OK -> open_settled (result, None, [])).
  { intros result Hne. split_and!; [by split; [|intros []]|done|apply prefix_nil|done]. }
  destruct ((timeout =? 0) || (timeout =? UINT64_MAX) || negb (Bootstrap.egress_bootstrap_path_valid path) ||
     (SUN_PATH_SIZE <=? len path)) eqn:Ea.
  { apply Hno; [done|by apply Hnone|]. intros c [[? ?] [Hp ?] _ _ _ _ _ _ _ _ _]. rewrite Hp in Ea.
    destruct (Z.eqb_spec timeout 0), (Z.eqb_spec timeout UINT64_MAX), (Z.leb_spec SUN_PATH_SIZE (len path)); done || lia. }
  destruct (Z.eqb_spec (now_ms (open_started a)) UINT64_MAX); [apply Hno; [done|by apply Hnone|by intros c []]|].
  destruct (open_calloc a) eqn:Ec; cbn [negb]; [|apply Hno; [done|by apply Hnone|intros c Ho; destruct (opens_resources _ _ _ _ Ho); congruence]].
  destruct (Z.ltb_spec (open_socket a) 0) as [Hl|Hl].
  { apply Hno; [done| |intros c Ho; destruct (opens_lease _ _ _ _ Ho); lia]. apply open_fail_settled; [done| |apply prefix_nil].
    unfold kept. by destruct (Z.leb_spec 0 (open_socket a)); [lia|]. }
  assert (Hlease : forall e, e <> CLIENT_OK ->
    open_settled (open_fail [ClientGot (open_socket a)] (open_socket a) (-1) e)).
  { intros e He. apply open_fail_settled; [done| |apply prefix_nil]. unfold kept.
    by destruct (Z.leb_spec 0 (open_socket a)); [|lia]. }
  destruct (open_fcntl a) eqn:Ef; cbn [negb]; [|apply Hno; [done|by apply Hlease|intros c Ho; destruct (opens_resources _ _ _ _ Ho); congruence]].
  destruct (connect_lease_spec (open_deadline timeout a) a) as [Hcon Herr].
  destruct (connect_lease (open_deadline timeout a) a) as [[e|]|] eqn:Ecl; cbv [mbind option_bind].
  - specialize (Herr e eq_refl). apply Hno; [done|by apply Hlease|]. intros c Ho.
    pose proof (proj2 Hcon (opens_connected _ _ _ _ Ho)). congruence.
  - split; [|intros o; by apply open_exchange_settled]. intros c. rewrite open_exchange_OK by done.
    rewrite !orb_false_iff, negb_false_iff, !Z.eqb_neq, Z.leb_gt in Ea. split.
    + intros (Hle & Hreq & Hres & Hgr & Hch & Hd & Hq).
      split; [tauto|tauto|done|done|split; [done|lia]|by apply Hcon|done..].
    + intros [_ _ _ _ [El ?] _ ? ? ? [? ?] ?]. rewrite El. tauto.
  - split; [|done]. intros c. split; [by intros [? ?]|]. intros Ho.
    pose proof (proj2 Hcon (opens_connected _ _ _ _ Ho)). congruence.
Qed.

(** A broker whose answer comes a byte at a time after an interruption. *)
Definition example_ready : list turn := [Turn (Some (Timespec 5 0)) (fun _ => POLL_READY)].

Definition example_receive (b : Z) (fds : list Z) : receive_call :=
  ReceiveCall example_ready (fun capacity =>
    if capacity <? 1 then (Fdpass.WOULD_BLOCK, Fdpass.Message [] [] false false false)
    else (Fdpass.OK, Fdpass.Message [b] fds false false false)).

Definition example_open : open_answers := {|
  open_started := Some (Timespec 5 0);
  open_calloc := true;
  open_socket := 3;
  open_fcntl := true;
  open_connect := CONNECT_DONE;
  open_connect_turns := [];
  open_so_error := true;
  open_peer := true;
  open_sends := [SendCall example_ready (fun _ => (Fdpass.OS true, 0)); SendCall example_ready (fun b => (Fdpass.OK, len b))];
  open_receives :=
    example_receive 77 [4] :: map (fun b => example_receive b [])
      (tail (Bootstrap.egress_bootstrap_response Bootstrap.OK 5000));
  open_descriptor := Descriptor (Some true) (Some true) true;
  open_tail := Fdpass.WOULD_BLOCK;
|}.

Lemma example_receive_kept b fds capacity m :
  is_byte b -> (length fds <= 1)%nat -> Forall (fun fd => 0 <= fd) fds ->
  receive_reply (example_receive b fds) capacity = (Fdpass.OK, m) -> Fdpass.receives capacity 1 m.
Proof.
  intros Hb Hl Hf. cbn. destruct (Z.ltb_spec capacity 1); intros [= <-]. split; cbn; [change (len [b]) with 1; lia|by constructor|done..].
Qed.

Lemma example_receives_kept : receives_kept (open_receives example_open).
Proof.
  apply Forall_cons. split; [intros capacity m; apply example_receive_kept; [done|simpl; lia|repeat constructor; lia]|].
  apply Forall_map. assert (Hb : Forall is_byte (tail (Bootstrap.egress_bootstrap_response Bootstrap.OK 5000))) by byte_list.
  eapply Forall_impl; [exact Hb|]. intros b Hb' capacity m. apply example_receive_kept; [done|simpl; lia|constructor].
Qed.

Lemma channel_open_exact_witness :
  opens (str "/run/egress.sock") 1000 example_open (ClientChannel 3 4 5000) /\
  maelys_egress_client_channel_open (str "/run/egress.sock") 1000 example_open =
    Some (CLIENT_OK, Some (ClientChannel 3 4 5000),
          [ClientGot 3; ClientSent Bootstrap.egress_bootstrap_request; ClientGot 4]).
Proof.
  split; [|by vm_compute].
  apply (channel_open_exact (str "/run/egress.sock") 1000 example_open).
  - exact example_receives_kept.
  - apply Forall_cons. split; [intros b n [= <-]|apply Forall_singleton; intros b n [= <-]; pose proof (len_nonneg b); lia].
  - eexists. by vm_compute.
Defined.
