(* ===== verification/ChannelBroker.v ===== *)
(** The broker that hands out channels (src/channel_broker.c): a thread that
    accepts clients on a Unix socket, reads the bootstrap request, creates a
    channel and passes its client end, and a second thread, the reaper, that
    destroys the channels of clients that left.

    The calls of maelys-system and of the operating system, and the functions of
    other files, are the class [BrokerSys] on a world that is otherwise unknown.
    A program is a state monad over the broker, the world and a trace no program
    reads.  The reaper shares the queue, the channel of a slot and its flag
    [reaped] with the broker: at each point where the broker touches one of them
    the world says how many actions the reaper has made meanwhile ([yield]), so
    a run is any interleaving of the two. *)

From S2P Require Import Prelude Common Codec Config Policy Receipt Buffer Server Reactor ChannelServer.

Inductive broker_phase := BROKER_REQUEST | BROKER_RESPONSE | BROKER_LEASE.

#[export] Instance broker_phase_eq_dec : EqDecision broker_phase.
Proof. solve_decision. Defined.

Module Slot.
(** A channel is named by a number; [passed] is the client end. *)
Record broker_slot := Slot {
  socket : option Z;
  watch : bool;
  token : Z;
  deadline : Z;
  channel : option Z;
  reaped : bool;
  passed : Z;
  phase : broker_phase;
  status : Z;
  progress : Z;
  bytes_ : bytes;
}.

#[global] Instance eta_slot : Eta broker_slot := fun s =>
  Slot (socket s) (watch s) (token s) (deadline s) (channel s) (reaped s) (passed s) (phase s) (status s)
    (progress s) (bytes_ s).

Definition reset_slot : broker_slot :=
  Slot None false 0 0 None false (-1) BROKER_REQUEST 0 0 (replicate (Z.to_nat Bootstrap.RESPONSE_SIZE) 0).
End Slot.
Notation broker_slot := Slot.broker_slot.

(** The identity maelys-system reads of a path. *)
Record file_identity := FileIdentity {
  device : Z;
  inode : Z;
  mode : Z;
  owner : Z;
}.

Record maelys_egress_channel_broker := Broker {
  connect_timeout : Z;
  handshake_timeout : Z;
  serial : Z;
  slots : list broker_slot;
  reap_queue : list nat;
  reaping : option nat;
  reaper_stopping : bool;
  stopping : bool;
  running : bool;
  result : maelys_egress_result_t;
  owns_path : bool;
  identity : file_identity;
  parent_identity : file_identity;
}.

#[export] Instance eta_broker : Eta maelys_egress_channel_broker := fun b =>
  Broker (connect_timeout b) (handshake_timeout b) (serial b) (slots b) (reap_queue b) (reaping b)
    (reaper_stopping b) (stopping b) (running b) (result b) (owns_path b) (identity b) (parent_identity b).

Record broker_signal := BrokerSignal {
  bs_token : Z;
  bs_read : bool;
  bs_write : bool;
  bs_end : bool;
}.

(** [br_watch_own] watches the listener (token 0) or the wakeup (token 1);
    [br_stop] says whether another thread asked for the end by now, [br_reaper]
    how many actions the reaper made. *)
Class BrokerSys := {
  bworld : Type;
  br_accept : bworld -> option Z * bworld;
  br_receive : Z -> Z -> bworld -> (Fdpass.result * Fdpass.received) * bworld;
  br_send : Z -> bytes -> option Z -> bworld -> (Fdpass.result * Z) * bworld;
  br_deadline_after : Z -> bworld -> option Z * bworld;
  br_watch : Z -> Z -> bworld -> bool * bworld;
  br_modify : bool -> bworld -> bool * bworld;
  br_channel_create : Z -> bworld -> (maelys_egress_result_t * (Z * Z)) * bworld;
  br_clock : bworld -> option Z * bworld;
  br_loop_create : bworld -> bool * bworld;
  br_watch_own : Z -> bworld -> bool * bworld;
  br_loop_step : Z -> bworld -> option (list broker_signal) * bworld;
  br_connector_running : bworld -> bool * bworld;
  br_stop : bworld -> bool * bworld;
  br_reaper : bworld -> nat * bworld;
  br_parent_identity : bworld -> option file_identity * bworld;
  br_unlink_same : file_identity -> bworld -> bool * bworld;
  br_identity_same : file_identity -> file_identity -> bool;
  br_euid : Z;
}.

Class BrokerLaws `{BrokerSys} : Prop := {
  law_br_accept w fd : (br_accept w).1 = Some fd -> 0 <= fd;
  law_br_receive fd capacity w r :
    (br_receive fd capacity w).1 = (Fdpass.OK, r) -> Fdpass.receives capacity 0 r;
  law_br_send fd b right w n : (br_send fd b right w).1 = (Fdpass.OK, n) -> 0 <= n <= len b;
  law_br_create timeout w channel fd :
    (br_channel_create timeout w).1 = (MAELYS_EGRESS_OK, (channel, fd)) -> 0 <= fd;
}.

(** What clients and the rest of the process see; a slot is named by its
    index. *)
Inductive broker_event :=
| Accepted (index : nat) (socket token : Z)
| TurnedAway (socket : Z) (b : bytes)
| Heard (index : nat) (b : bytes)
| Decided (index : nat) (status : Z) (grant : option (Z * Z))
| Told (index : nat) (b : bytes) (right : option Z)
| Left (index : nat) (socket passed : Z)
| Destroyed (index : nat) (channel : Z).

Section Broker.
Context `{BrokerSys}.

Record bstate := BState {
  broker : maelys_egress_channel_broker;
  the_bworld : bworld;
  btrace : list broker_event;
}.

#[export] Instance eta_bstate : Eta bstate := fun s => BState (broker s) (the_bworld s) (btrace s).

Definition B (A : Type) : Type := bstate -> A * bstate.

#[export] Instance B_ret : MRet B := fun A a s => (a, s).
#[export] Instance B_bind : MBind B := fun A C f x s => let '(a, s') := x s in f a s'.

Definition bask {A} (f : bworld -> A * bworld) : B A := fun s =>
  let '(a, w) := f (the_bworld s) in (a, s <| the_bworld := w |>).
Definition note (e : broker_event) : B unit := fun s => (tt, s <| btrace := e :: btrace s |>).
Definition get_broker : B maelys_egress_channel_broker := fun s => (broker s, s).
Definition set_broker (f : maelys_egress_channel_broker -> maelys_egress_channel_broker) : B unit := fun s =>
  (tt, s <| broker := f (broker s) |>).

Definition slot_at (index : nat) (b : maelys_egress_channel_broker) : broker_slot :=
  default Slot.reset_slot (slots b !! index).
Definition get_slot (index : nat) : B broker_slot := b ← get_broker; mret (slot_at index b).
Definition set_slot (index : nat) (f : broker_slot -> broker_slot) : B unit :=
  set_broker (fun b => b <| slots := alter f index (slots b) |>).

(** * The reaper *)

(** One action of the reaper: taking the head of the queue, or destroying the
    channel of the slot it took and marking the slot. *)
Definition reaper_action : B unit :=
  b ← get_broker;
  match reaping b with
  | Some index =>
      (match Slot.channel (slot_at index b) with
       | Some channel => note (Destroyed index channel)
       | None => mret tt
       end);;
      set_slot index (fun s => s <| Slot.reaped := true |>);;
      set_broker (fun b => b <| reaping := None |>)
  | None =>
      match reap_queue b with
      | index :: queue => set_broker (fun b => b <| reap_queue := queue |> <| reaping := Some index |>)
      | [] => mret tt
      end
  end.

Fixpoint reaper_actions (count : nat) : B unit :=
  match count with
  | O => mret tt
  | S count => reaper_action;; reaper_actions count
  end.

Definition yield : B unit := count ← bask br_reaper; reaper_actions count.

Definition stop_reaper : B unit := set_broker (fun b => b <| reaper_stopping := true |>).

(** * Slots *)

Definition collect_slot (index : nat) : B unit :=
  yield;;
  slot ← get_slot index;
  match Slot.socket slot, Slot.channel slot with
  | None, Some _ => if Slot.reaped slot then set_slot index (fun _ => Slot.reset_slot) else mret tt
  | _, _ => mret tt
  end.

Definition drop_slot (index : nat) : B unit :=
  slot ← get_slot index;
  match Slot.socket slot with
  | None => mret tt
  | Some socket =>
      note (Left index socket (Slot.passed slot));;
      set_slot index (fun s => s <| Slot.watch := false |> <| Slot.passed := -1 |> <| Slot.socket := None |>);;
      match Slot.channel slot with
      | None => set_slot index (fun _ => Slot.reset_slot)
      | Some _ => yield;; set_broker (fun b => b <| reap_queue := reap_queue b ++ [index] |>)
      end
  end.

Definition retry_io (r : Fdpass.result) : bool :=
  bool_decide (r = Fdpass.WOULD_BLOCK) || bool_decide (r = Fdpass.OS true).

Definition answer (index : nat) (status : Z) : B bool :=
  b ← get_broker;
  '(status, grant) ←
    (if status =? Bootstrap.OK then
       '(result, (channel, fd)) ← bask (br_channel_create (connect_timeout b));
       let '(status, grant) :=
         match result with
         | MAELYS_EGRESS_OK => (status, Some (channel, fd))
         | MAELYS_EGRESS_ERR_MEMORY => (Bootstrap.RESOURCE, None)
         | _ => (Bootstrap.INTERNAL, None)
         end in
       set_slot index (fun s =>
         s <| Slot.channel := fst <$> grant |> <| Slot.passed := default (-1) (snd <$> grant) |>);;
       mret (status, grant)
     else mret (status, None));
  note (Decided index status grant);;
  set_slot index (fun s =>
    s <| Slot.phase := BROKER_RESPONSE |> <| Slot.status := status |> <| Slot.progress := 0 |>
      <| Slot.bytes_ := Bootstrap.egress_bootstrap_response status (connect_timeout b) |>);;
  bask (br_modify true).

(** The receiving half of [serve_slot]: [Some] is what the function returns. *)
Definition serve_read (index : nat) : B (option bool) :=
  slot ← get_slot index;
  let request := bool_decide (Slot.phase slot = BROKER_REQUEST) in
  '(result, r) ← bask (br_receive (default (-1) (Slot.socket slot))
                        (if request then Bootstrap.REQUEST_SIZE - Slot.progress slot else 1));
  if retry_io result then mret None
  else if negb (bool_decide (result = Fdpass.OK)) then mret (Some false)
  else if negb request then mret (Some false)
  else if Fdpass.flagged r || (len (Fdpass.data r) =? 0) then
    returned ← answer index Bootstrap.MALFORMED; mret (Some returned)
  else
    note (Heard index (Fdpass.data r));;
    let progress := Slot.progress slot + len (Fdpass.data r) in
    let bytes_ := write_at (Slot.bytes_ slot) (Slot.progress slot) (Fdpass.data r) in
    set_slot index (fun s => s <| Slot.bytes_ := bytes_ |> <| Slot.progress := progress |>);;
    if progress =? Bootstrap.REQUEST_SIZE then
      returned ← answer index (Bootstrap.egress_bootstrap_decode_request (ztake progress bytes_));
      mret (Some returned)
    else mret None.

(** The sending half. *)
Definition serve_write (index : nat) : B bool :=
  slot ← get_slot index;
  let right := if Slot.progress slot =? 0
               then (if 0 <=? Slot.passed slot then Some (Slot.passed slot) else None) else None in
  let rest := zdrop (Slot.progress slot) (ztake Bootstrap.RESPONSE_SIZE (Slot.bytes_ slot)) in
  '(result, sent) ← bask (br_send (default (-1) (Slot.socket slot)) rest right);
  if retry_io result then mret true
  else if negb (bool_decide (result = Fdpass.OK)) || (sent =? 0) then mret false
  else
    note (Told index (ztake sent rest) right);;
    let progress := Slot.progress slot + sent in
    set_slot index (fun s => s <| Slot.progress := progress |>);;
    if progress =? Bootstrap.RESPONSE_SIZE then
      if negb (Slot.status slot =? Bootstrap.OK) then mret false
      else
        set_slot index (fun s => s <| Slot.phase := BROKER_LEASE |>);;
        bask (br_modify false)
    else mret true.

Definition serve_slot (index : nat) (e : broker_signal) : B bool :=
  early ← (if bs_read e || bs_end e then serve_read index else mret None);
  match early with
  | Some b => mret b
  | None =>
      slot ← get_slot index;
      if bool_decide (Slot.phase slot = BROKER_RESPONSE) && bs_write e then serve_write index else mret true
  end.

(** * Accepting *)

(** The index the search of [accept_one] ends at, [None] at the capacity. *)
Fixpoint find_free (indices : list nat) : B (option nat) :=
  match indices with
  | [] => mret None
  | index :: indices =>
      collect_slot index;;
      slot ← get_slot index;
      match Slot.socket slot, Slot.channel slot with
      | None, None => mret (Some index)
      | _, _ => find_free indices
      end
  end.

Definition slot_token (serial : Z) (index : nat) : Z := Z.lor (u64 (Z.shiftl serial 16)) (Z.of_nat index + 2).

Definition accept_one : B unit :=
  accepted ← bask br_accept;
  match accepted with
  | None => mret tt
  | Some socket =>
      b ← get_broker;
      found ← find_free (seq 0 (length (slots b)));
      match found with
      | None =>
          let response := Bootstrap.egress_bootstrap_response Bootstrap.BUSY 0 in
          bask (br_send socket response None);;
          note (TurnedAway socket response)
      | Some index =>
          set_broker (fun b => b <| serial := u64 (serial b + 1) |>);;
          b ← get_broker;
          let token := slot_token (serial b) index in
          note (Accepted index socket token);;
          set_slot index (fun s => s <| Slot.socket := Some socket |> <| Slot.token := token |>);;
          deadline ← bask (br_deadline_after (handshake_timeout b));
          match deadline with
          | None => drop_slot index
          | Some deadline =>
              set_slot index (fun s => s <| Slot.deadline := deadline |>);;
              watched ← bask (br_watch socket token);
              if watched : bool then set_slot index (fun s => s <| Slot.watch := true |>) else drop_slot index
          end
      end
  end.

(** * The thread *)

Definition parent_unchanged : B bool :=
  b ← get_broker;
  current ← bask br_parent_identity;
  mret (match current with
        | None => false
        | Some current => br_identity_same current (parent_identity b) && (owner current =? br_euid) &&
                          (mode current =? mode (parent_identity b))
        end).

Definition load_stopping : B bool :=
  asked ← bask br_stop;
  set_broker (fun b => b <| stopping := stopping b || asked |>);;
  b ← get_broker;
  mret (stopping b).

Definition fail_io : B unit := set_broker (fun b => b <| result := MAELYS_EGRESS_ERR_IO |>).

(** The deadline of the step, over the slots of [indices]. *)
Fixpoint scan_slots (now deadline : Z) (indices : list nat) : B Z :=
  match indices with
  | [] => mret deadline
  | index :: indices =>
      collect_slot index;;
      slot ← get_slot index;
      match Slot.socket slot with
      | None => scan_slots now deadline indices
      | Some _ =>
          if bool_decide (Slot.phase slot = BROKER_LEASE) then scan_slots now deadline indices
          else if Slot.deadline slot <=? now then drop_slot index;; scan_slots now deadline indices
          else scan_slots now (Z.min deadline (Slot.deadline slot)) indices
      end
  end.

(** A slot's event: [index] is the unsigned subtraction of the code, so the
    tokens 0 and 1 are handled before. *)
Definition slot_event (e : broker_signal) : B unit :=
  b ← get_broker;
  let index := u64 (Z.land (bs_token e) 0xffff - 2) in
  if Z.of_nat (length (slots b)) <=? index then mret tt
  else
    let index := Z.to_nat index in
    let slot := slot_at index b in
    match Slot.socket slot with
    | None => mret tt
    | Some _ =>
        if negb (Slot.token slot =? bs_token e) then mret tt
        else
          now ← bask br_clock;
          match now with
          | None => drop_slot index
          | Some now =>
              if negb (bool_decide (Slot.phase slot = BROKER_LEASE)) && (Slot.deadline slot <=? now)
              then drop_slot index
              else
                served ← serve_slot index e;
                if served : bool then mret tt else drop_slot index
          end
    end.

(** The events of a step: [false] when the thread is no longer ready. *)
Fixpoint handle_events (events : list broker_signal) : B bool :=
  match events with
  | [] => mret true
  | e :: events =>
      stop ← load_stopping;
      if stop : bool then mret true
      else if bs_token e =? 1 then set_broker (fun b => b <| stopping := true |>);; mret true
      else if bs_token e =? 0 then
        unchanged ← parent_unchanged;
        if unchanged : bool then accept_one;; handle_events events else fail_io;; mret false
      else slot_event e;; handle_events events
  end.

(** The body of the loop: [None] is a break, and the value whether the thread is
    still ready. *)
Definition broker_turn : B (option bool) :=
  now ← bask br_clock;
  match now with
  | None => fail_io;; mret None
  | Some now =>
      b ← get_broker;
      deadline ← scan_slots now (u64 (now + 50)) (seq 0 (length (slots b)));
      events ← bask (br_loop_step deadline);
      match events with
      | None => fail_io;; mret None
      | Some events => ready ← handle_events events; mret (Some ready)
      end
  end.

(** The loop, a unit of fuel per turn: whether it has ended. *)
Fixpoint broker_loop (turns : nat) (ready : bool) : B bool :=
  match turns with
  | O => mret false
  | S turns =>
      if negb ready then mret true
      else
        stop ← load_stopping;
        if stop : bool then mret true
        else
          serving ← bask br_connector_running;
          if negb serving then mret true
          else
            ready ← broker_turn;
            match ready with
            | None => mret true
            | Some ready => broker_loop turns ready
            end
  end.

Definition remove_path : B unit :=
  b ← get_broker;
  if negb (owns_path b) then mret tt
  else
    unchanged ← parent_unchanged;
    removed ← (if unchanged : bool then bask (br_unlink_same (identity b)) else mret false);
    (if removed : bool then mret tt else fail_io);;
    set_broker (fun b => b <| owns_path := false |>).

Fixpoint drop_slots (indices : list nat) : B unit :=
  match indices with
  | [] => mret tt
  | index :: indices => drop_slot index;; drop_slots indices
  end.

(** The beginning of the thread: whether it has a loop, and whether the loop
    watches the listener and the wakeup. *)
Definition broker_arm : B (bool * bool) :=
  created ← bask br_loop_create;
  listener ← (if created : bool then bask (br_watch_own 0) else mret false);
  ready ← (if listener : bool then bask (br_watch_own 1) else mret false);
  set_broker (fun b => b <| result := if ready : bool then MAELYS_EGRESS_OK else MAELYS_EGRESS_ERR_IO |>
    <| running := ready |>);;
  mret (created, ready).

(** The end of the thread: the slots, and what follows the release of the loop
    and the listener. *)
Definition drop_all : B unit :=
  b ← get_broker;
  drop_slots (seq 0 (length (slots b))).

Definition broker_close : B unit :=
  remove_path;;
  stop_reaper;;
  set_broker (fun b => b <| running := false |>).

Definition broker_end : B unit := drop_all;; broker_close.

(** The thread: whether it has ended within the turns. *)
Definition broker_main (turns : nat) : B bool :=
  '(_, ready) ← broker_arm;
  ended ← (if ready : bool then broker_loop turns true else mret true);
  if ended : bool then broker_end;; mret true else mret false.

Definition maelys_egress_channel_broker_is_running (b : option maelys_egress_channel_broker) : bool :=
  match b with Some b => running b && negb (stopping b) | None => false end.

End Broker.
