(* ===== verification/BrokerFacts.v ===== *)
(** What the broker promises each client (ChannelBroker.v, src/channel_broker.c)
    and the proof that the broker's two threads, in any interleaving, keep it.

    The promise is the automaton [seat_next]: what may happen on one of the
    broker's slots, from the arrival of a client to the end of its channel.  The
    invariant [ok] says that the trace of every slot follows the automaton, whose
    state the slot implements; this file proves it kept by the steps of one
    slot, BrokerTheorems.v by whole runs. *)

From S2P Require Import Prelude Common Codec Config Policy Receipt Buffer Server Reactor ChannelServer ChannelBroker.

(** * The protocol of a seat *)

Inductive stage :=
| Asking (got : bytes)
| Answering (status : Z) (grant : option (Z * Z)) (sent : Z)
| Leased (channel passed : Z).

Inductive seat :=
| Free
| Seated (token socket : Z) (st : stage)
| Retiring (channel : Z).

(** The descriptor and the channel a stage holds. *)
Definition stage_grant (st : stage) : option (Z * Z) :=
  match st with
  | Asking _ => None
  | Answering _ grant _ => grant
  | Leased channel passed => Some (channel, passed)
  end.

(** The statuses a request may be answered with: OK and a channel for the exact
    request and nothing else, the decoder's verdict for eight other bytes,
    MALFORMED for anything shorter. *)
Definition decision_allowed (got : bytes) (status : Z) (grant : option (Z * Z)) : bool :=
  let exact := bool_decide (got = Bootstrap.egress_bootstrap_request) in
  match grant with
  | Some (_, passed) => exact && (status =? Bootstrap.OK) && (0 <=? passed)
  | None =>
      if exact then (status =? Bootstrap.RESOURCE) || (status =? Bootstrap.INTERNAL)
      else negb (status =? Bootstrap.OK) && (status =? Bootstrap.egress_bootstrap_decode_request got)
  end.

Definition stage_next (timeout : Z) (st : stage) (e : broker_event) : option stage :=
  match st, e with
  | Asking got, Heard _ b =>
      if (0 <? len b) && (len (got ++ b) <=? Bootstrap.REQUEST_SIZE) then Some (Asking (got ++ b)) else None
  | Asking got, Decided _ status grant =>
      if decision_allowed got status grant then Some (Answering status grant 0) else None
  | Answering status grant sent, Told _ b fd =>
      if (0 <? len b) && bool_decide (b `prefix_of` zdrop sent (Bootstrap.egress_bootstrap_response status timeout)) &&
         bool_decide (fd = if sent =? 0 then snd <$> grant else None)
      then Some (match grant with
                 | Some (channel, passed) =>
                     if sent + len b =? Bootstrap.RESPONSE_SIZE then Leased channel passed
                     else Answering status grant (sent + len b)
                 | None => Answering status grant (sent + len b)
                 end)
      else None
  | _, _ => None
  end.

(** [None] is a step the protocol does not allow. *)
Definition seat_next (timeout : Z) (st : seat) (e : broker_event) : option seat :=
  match st, e with
  | Free, Accepted _ socket token => Some (Seated token socket (Asking []))
  | Seated token socket g, Left _ socket' passed =>
      if (socket' =? socket) && (passed =? default (-1) (snd <$> stage_grant g))
      then Some (match stage_grant g with Some (channel, _) => Retiring channel | None => Free end)
      else None
  | Seated token socket g, e => Seated token socket <$> stage_next timeout g e
  | Retiring channel, Destroyed _ channel' => if channel' =? channel then Some Free else None
  | _, _ => None
  end.

Definition event_index (e : broker_event) : option nat :=
  match e with
  | Accepted i _ _ | Heard i _ | Decided i _ _ | Told i _ _ | Left i _ _ | Destroyed i _ => Some i
  | TurnedAway _ _ => None
  end.

(** The seat after a trace, latest event first. *)
Fixpoint seat_after (timeout : Z) (index : nat) (t : list broker_event) : option seat :=
  match t with
  | [] => Some Free
  | e :: t =>
      st ← seat_after timeout index t;
      if bool_decide (event_index e = Some index) then seat_next timeout st e else Some st
  end.

(** * The state of a slot *)

Definition slot_grant (s : broker_slot) : option (Z * Z) :=
  channel ← Slot.channel s; Some (channel, Slot.passed s).

Definition slot_stage (s : broker_slot) : stage :=
  match Slot.phase s with
  | BROKER_REQUEST => Asking (ztake (Slot.progress s) (Slot.bytes_ s))
  | BROKER_RESPONSE => Answering (Slot.status s) (slot_grant s) (Slot.progress s)
  | BROKER_LEASE => Leased (default 0 (Slot.channel s)) (Slot.passed s)
  end.

Definition slot_seat (s : broker_slot) : seat :=
  match Slot.socket s with
  | Some socket => Seated (Slot.token s) socket (slot_stage s)
  | None =>
      match Slot.channel s with
      | None => Free
      | Some channel => if Slot.reaped s then Free else Retiring channel
      end
  end.

(** The fields of a slot that holds a client. *)
Definition seated_ok (timeout : Z) (s : broker_slot) : Prop :=
  Slot.reaped s = false /\
  match Slot.phase s with
  | BROKER_REQUEST =>
      Slot.channel s = None /\ Slot.passed s = -1 /\ len (Slot.bytes_ s) = Bootstrap.RESPONSE_SIZE /\
      0 <= Slot.progress s < Bootstrap.REQUEST_SIZE
  | BROKER_RESPONSE =>
      Slot.bytes_ s = Bootstrap.egress_bootstrap_response (Slot.status s) timeout /\
      0 <= Slot.progress s <= Bootstrap.RESPONSE_SIZE /\
      match Slot.channel s with
      | Some _ => Slot.status s = Bootstrap.OK /\ 0 <= Slot.passed s
      | None => Slot.status s <> Bootstrap.OK /\ Slot.passed s = -1
      end
  | BROKER_LEASE => is_Some (Slot.channel s) /\ 0 <= Slot.passed s
  end.

Definition slot_ok (timeout : Z) (s : broker_slot) : Prop :=
  match Slot.socket s, Slot.channel s with
  | Some _, _ => seated_ok timeout s
  | None, Some _ => Slot.passed s = -1
  | None, None => s = Slot.reset_slot
  end.

(** A slot the reaper has to serve. *)
Definition retiring (s : broker_slot) : Prop :=
  Slot.socket s = None /\ is_Some (Slot.channel s) /\ Slot.reaped s = false.

(** The slots the reaper has before it; [extra] is one being queued. *)
Definition to_reap (extra : list nat) (b : maelys_egress_channel_broker) : list nat :=
  option_list (reaping b) ++ reap_queue b ++ extra.

(** The tokens given, each with the serial number [n] had then. *)
Fixpoint tokens_ok (n : Z) (t : list broker_event) : Prop :=
  match t with
  | [] => n = 0
  | Accepted i _ token :: t => exists m, n = u64 (m + 1) /\ token = slot_token n i /\ tokens_ok m t
  | _ :: t => tokens_ok n t
  end.

Record broker_inv (timeout : Z) (extra : list nat) (b : maelys_egress_channel_broker) (t : list broker_event) : Prop := {
  inv_timeout : connect_timeout b = timeout;
  inv_slots : forall i s, slots b !! i = Some s -> slot_ok timeout s;
  inv_seats : forall i, seat_after timeout i t = Some (default Free (slot_seat <$> slots b !! i));
  inv_queue : NoDup (to_reap extra b) /\
    forall i, i ∈ to_reap extra b <-> exists s, slots b !! i = Some s /\ retiring s;
  inv_tokens : tokens_ok (serial b) t;
}.

(** * Programs *)

Section Programs.
Context `{BrokerSys}.

Definition bwp {A} (p : B A) (s : bstate) (Q : A -> bstate -> Prop) : Prop := let '(a, s') := p s in Q a s'.

Lemma bwp_bind {A C} (p : B A) (f : A -> B C) s Q :
  bwp p s (fun a s' => bwp (f a) s' Q) -> bwp (p ≫= f) s Q.
Proof. unfold bwp, mbind, B_bind. by destruct (p s). Qed.

Lemma bwp_mono {A} (p : B A) s (Q R : A -> bstate -> Prop) :
  bwp p s Q -> (forall a s', Q a s' -> R a s') -> bwp p s R.
Proof. unfold bwp. destruct (p s). auto. Qed.

Lemma bwp_ret {A} (a : A) s (Q : A -> bstate -> Prop) : Q a s -> bwp (mret a) s Q.
Proof. done. Qed.

Lemma bwp_ask {A} (f : bworld -> A * bworld) s (Q : A -> bstate -> Prop) :
  Q (f (the_bworld s)).1 (s <| the_bworld := (f (the_bworld s)).2 |>) -> bwp (bask f) s Q.
Proof. unfold bwp, bask. by destruct (f (the_bworld s)). Qed.

Lemma bwp_note e s (Q : unit -> bstate -> Prop) : Q tt (s <| btrace := e :: btrace s |>) -> bwp (note e) s Q.
Proof. done. Qed.

Lemma bwp_get s (Q : _ -> bstate -> Prop) : Q (broker s) s -> bwp get_broker s Q.
Proof. done. Qed.

Lemma bwp_get_slot i s (Q : _ -> bstate -> Prop) : Q (slot_at i (broker s)) s -> bwp (get_slot i) s Q.
Proof. done. Qed.

Lemma bwp_set f s (Q : unit -> bstate -> Prop) : Q tt (s <| broker := f (broker s) |>) -> bwp (set_broker f) s Q.
Proof. done. Qed.

Lemma bwp_set_slot i f s (Q : unit -> bstate -> Prop) :
  Q tt (s <| broker := broker s <| slots := alter f i (slots (broker s)) |> |>) -> bwp (set_slot i f) s Q.
Proof. done. Qed.
End Programs.

Ltac bstep :=
  lazymatch goal with
  | |- bwp (_ ≫= _) _ _ => apply bwp_bind
  | |- bwp (get_slot _) _ _ => apply bwp_get_slot
  | |- bwp get_broker _ _ => apply bwp_get
  | |- bwp (set_slot _ _) _ _ => apply bwp_set_slot
  | |- bwp (set_broker _) _ _ => apply bwp_set
  | |- bwp (note _) _ _ => apply bwp_note
  | |- bwp (bask _) _ _ => apply bwp_ask
  | |- bwp (mret _) _ _ => apply bwp_ret
  end.

(** * The invariant, one step at a time *)

Definition seat_run (timeout : Z) (st : seat) (l : list broker_event) : option seat :=
  foldr (fun e st => st ≫= fun st => seat_next timeout st e) (Some st) l.

Lemma seat_after_app timeout i l t :
  seat_after timeout i (l ++ t) =
  seat_after timeout i t ≫= fun st =>
    seat_run timeout st (List.filter (fun e => bool_decide (event_index e = Some i)) l).
Proof.
  induction l as [|e l IH]; simpl; [by destruct (seat_after _ _ _)|]. rewrite IH.
  destruct (seat_after timeout i t) as [st|]; simpl; [|done]. case_bool_decide; simpl; [done|].
  by destruct (seat_run _ _ _).
Qed.

Lemma alter_insert {A} (f : A -> A) i (l : list A) x : l !! i = Some x -> alter f i l = <[i:=f x]> l.
Proof.
  revert i. induction l as [|y l IH]; intros [|i] E; simpl in *; simplify_eq; [done|]. f_equal. by apply IH.
Qed.

Lemma alter_alter {A} (f g : A -> A) i (l : list A) : alter f i (alter g i l) = alter (f ∘ g) i l.
Proof. revert i. induction l as [|y l IH]; intros [|i]; simpl; [done..|]. f_equal. apply IH. Qed.

Lemma filter_own i l :
  Forall (fun e => event_index e = Some i) l ->
  forall j, List.filter (fun e => bool_decide (event_index e = Some j)) l = if bool_decide (j = i) then l else [].
Proof.
  intros Hl j. induction Hl as [|e l He _ IH]; simpl; [by case_bool_decide|]. rewrite He, IH.
  repeat case_bool_decide; simplify_eq; done.
Qed.

Lemma inv_update timeout extra extra' b b' t i s s' l :
  broker_inv timeout extra b t -> slots b !! i = Some s -> slots b' = <[i:=s']> (slots b) ->
  connect_timeout b' = connect_timeout b -> Forall (fun e => event_index e = Some i) l ->
  seat_run timeout (slot_seat s) l = Some (slot_seat s') -> slot_ok timeout s' ->
  NoDup (to_reap extra' b') ->
  (forall j, j ∈ to_reap extra' b' <-> if bool_decide (j = i) then retiring s' else j ∈ to_reap extra b) ->
  tokens_ok (serial b') (l ++ t) ->
  broker_inv timeout extra' b' (l ++ t).
Proof.
  intros [Ht Hs Hseat [Hnd Hq] _] Ei Eb Ect Hl Hrun Hok Hnd' Hq' Htok. pose proof (lookup_lt_Some _ _ _ Ei) as Hlt. split.
  - congruence.
  - intros j sj. rewrite Eb. intros [(-> & <- & _)|[_ Ej]]%list_lookup_insert_Some; [done|]. by eapply Hs.
  - intros j. rewrite seat_after_app, Hseat, (filter_own i l Hl). simpl. rewrite Eb.
    case_bool_decide as Eij; [subst j|].
    + rewrite Ei. simpl. by rewrite Hrun, list_lookup_insert_eq by done.
    + by rewrite list_lookup_insert_ne by done.
  - split; [done|]. intros j. rewrite Hq', Eb. case_bool_decide as Eij; [subst j|].
    + rewrite list_lookup_insert_eq by done. naive_solver.
    + by rewrite list_lookup_insert_ne, Hq by done.
  - done.
Qed.

(** A slot that stays with its client. *)
Lemma inv_seated timeout extra b t i s s' l :
  broker_inv timeout extra b t -> slots b !! i = Some s -> is_Some (Slot.socket s) -> is_Some (Slot.socket s') ->
  Forall (fun e => event_index e = Some i) l ->
  seat_run timeout (slot_seat s) l = Some (slot_seat s') -> slot_ok timeout s' -> tokens_ok (serial b) (l ++ t) ->
  broker_inv timeout extra (b <| slots := <[i:=s']> (slots b) |>) (l ++ t).
Proof.
  intros Hinv Ei [? E1] [? E2] Hl Hrun Hok Htok. eapply inv_update; try done; [apply Hinv|].
  intros j. case_bool_decide as Eij; [subst j|done].
  destruct Hinv as [_ _ _ [_ Hq] _]. transitivity (i ∈ to_reap extra b); [done|]. rewrite Hq. unfold retiring. naive_solver.
Qed.

Lemma inv_fields timeout extra b b' t :
  broker_inv timeout extra b t -> slots b' = slots b -> connect_timeout b' = connect_timeout b ->
  reap_queue b' = reap_queue b -> reaping b' = reaping b -> serial b' = serial b -> broker_inv timeout extra b' t.
Proof.
  intros [? ? Hseat Hq ?] Es Et Eq Er En. split; [congruence|by rewrite Es|intros i; by rewrite Es| |congruence].
  unfold to_reap in *. by rewrite Es, Eq, Er.
Qed.

(** * The reaper *)

Section Invariant.
Context `{BrokerSys} (timeout : Z).

(** A state with the invariant. *)
Definition ok (extra : list nat) (s : bstate) : Prop := broker_inv timeout extra (broker s) (btrace s).

(** Every client was there before. *)
Definition no_new_clients (s s' : bstate) : Prop :=
  forall i slot, slots (broker s') !! i = Some slot -> is_Some (Slot.socket slot) -> slots (broker s) !! i = Some slot.

(** The slots of clients, and the number of slots: what the reaper leaves. *)
Definition same_clients (s s' : bstate) : Prop :=
  length (slots (broker s')) = length (slots (broker s)) /\
  (forall i slot, slots (broker s) !! i = Some slot -> is_Some (Slot.socket slot) \/ Slot.channel slot = None ->
    slots (broker s') !! i = Some slot) /\
  no_new_clients s s'.

Lemma no_new_trans s1 s2 s3 : no_new_clients s1 s2 -> no_new_clients s2 s3 -> no_new_clients s1 s3.
Proof. intros H1 H2 i slot E Hs. apply H1; [|done]. by apply H2. Qed.

Lemma no_new_alter s s' f i :
  slots (broker s') = alter f i (slots (broker s)) -> (forall slot, slots (broker s) !! i = Some slot -> Slot.socket (f slot) = None) ->
  no_new_clients s s'.
Proof.
  intros E Hf j slot. rewrite E. destruct (decide (i = j)) as [<-|Hne]; [|by rewrite list_lookup_alter_ne].
  destruct (slots (broker s) !! i) as [old|] eqn:Eo.
  2:{ intros Ej. apply lookup_lt_Some in Ej. rewrite length_alter in Ej. apply lookup_ge_None in Eo. lia. }
  rewrite (alter_insert _ _ _ _ Eo), list_lookup_insert_eq by (by eapply lookup_lt_Some).
  intros [= <-] [? ?]. specialize (Hf old eq_refl). congruence.
Qed.

Lemma no_new_refl s : no_new_clients s s.
Proof. by intros i slot. Qed.

Lemma same_clients_refl s : same_clients s s.
Proof. split_and!; [done|done|apply no_new_refl]. Qed.

Lemma same_clients_trans s1 s2 s3 : same_clients s1 s2 -> same_clients s2 s3 -> same_clients s1 s3.
Proof. intros (? & ? & ?) (? & ? & ?). split_and!; [congruence|eauto|by eapply no_new_trans]. Qed.

Lemma reaper_action_ok extra s :
  ok extra s -> bwp reaper_action s (fun _ s' => ok extra s' /\ same_clients s s').
Proof.
  intros Hok. unfold reaper_action. bstep. bstep. destruct (reaping (broker s)) as [i|] eqn:Er.
  - pose proof Hok as [_ Hslots _ [Hnd Hq] Htok].
    assert (Hi : i ∈ to_reap extra (broker s)) by (unfold to_reap; rewrite Er; set_solver).
    apply Hq in Hi as (slot & Ei & Hsock & [ch Ech] & Hre).
    bstep. unfold slot_at. rewrite Ei. simpl. rewrite Ech. bstep. bstep. bstep. bstep. simpl. split.
    + change (Destroyed i ch :: btrace s) with ([Destroyed i ch] ++ btrace s).
      eapply (inv_update _ extra extra _ _ _ i slot (slot <| Slot.reaped := true |>)); [exact Hok|done| |done|by constructor| | | | |exact Htok].
      * simpl. by erewrite alter_insert.
      * unfold slot_seat. simpl. rewrite Hsock, Ech, Hre. simpl. by rewrite Z.eqb_refl.
      * specialize (Hslots i slot Ei). unfold slot_ok in *. simpl. by rewrite Hsock, Ech in *.
      * unfold to_reap in *. simpl. rewrite Er in Hnd. simpl in Hnd. by apply NoDup_cons in Hnd as [_ ?].
      * unfold to_reap in *. simpl. rewrite Er in *. intros j. simpl in *. apply NoDup_cons in Hnd as [Hn _].
        case_bool_decide; [subst j|set_solver]. split; [done|]. intros (_ & _ & Ht). done.
    + split_and!; simpl; [by rewrite length_alter| |].
      * intros j sj Ej Hj. rewrite list_lookup_alter_ne; [done|].
        intros ->. simplify_eq. destruct Hj as [[? ?]|?]; congruence.
      * eapply no_new_alter; [done|]. intros slot' E. simpl. congruence.
  - destruct (reap_queue (broker s)) as [|i queue] eqn:Eq; [bstep; split; [done|apply same_clients_refl]|].
    bstep. split; [|exact (same_clients_refl s)]. destruct Hok as [? ? ? Hq ?]. split; [done..| |done].
    unfold to_reap in *. simpl. by rewrite Er, Eq in Hq.
Qed.

Lemma reaper_actions_ok extra count s :
  ok extra s -> bwp (reaper_actions count) s (fun _ s' => ok extra s' /\ same_clients s s').
Proof.
  revert s. induction count as [|count IH]; intros s Hok; simpl; [bstep; split; [done|apply same_clients_refl]|].
  bstep. eapply bwp_mono; [by apply reaper_action_ok|]. intros [] s1 [H1 S1].
  eapply bwp_mono; [by apply IH|]. intros [] s2 [H2 S2]. split; [done|]. by eapply same_clients_trans.
Qed.

Lemma yield_ok extra s : ok extra s -> bwp yield s (fun _ s' => ok extra s' /\ same_clients s s').
Proof.
  intros Hok. unfold yield. bstep. bstep. eapply bwp_mono; [by apply reaper_actions_ok|].
  intros [] s' [? S]. split; [done|]. exact S.
Qed.

End Invariant.

(** * The programs of the broker *)

Section Slots.
Context `{BrokerSys} (timeout : Z).

(** What a program that works on slot [i] leaves of the others. *)
Definition others_kept (i : nat) (s s' : bstate) : Prop :=
  length (slots (broker s')) = length (slots (broker s)) /\
  forall j slot, j <> i -> slots (broker s) !! j = Some slot ->
    is_Some (Slot.socket slot) \/ Slot.channel slot = None -> slots (broker s') !! j = Some slot.

Lemma same_others i s s' : same_clients s s' -> others_kept i s s'.
Proof. intros (? & ? & _). split; [done|]. eauto. Qed.

Lemma slot_at_lookup i b slot : slots b !! i = Some slot -> slot_at i b = slot.
Proof. unfold slot_at. by intros ->. Qed.

Lemma slot_at_out i b : slots b !! i = None -> slot_at i b = Slot.reset_slot.
Proof. unfold slot_at. by intros ->. Qed.

Lemma not_retiring_queue extra s i slot :
  ok timeout extra s -> slots (broker s) !! i = Some slot -> ~ retiring slot -> i ∉ to_reap extra (broker s).
Proof. intros [_ _ _ [_ Hq] _] Ei Hn. rewrite Hq. naive_solver. Qed.

Lemma collect_slot_ok i s :
  ok timeout [] s -> bwp (collect_slot i) s (fun _ s' => ok timeout [] s' /\ same_clients s s').
Proof.
  intros Hok. unfold collect_slot. bstep. eapply bwp_mono; [by apply yield_ok|]. intros [] s1 [H1 S1].
  bstep. bstep. destruct (slots (broker s1) !! i) as [slot|] eqn:Ei.
  2:{ rewrite slot_at_out by done. cbn [Slot.socket Slot.channel Slot.reset_slot]. by bstep. }
  rewrite (slot_at_lookup _ _ _ Ei).
  destruct (Slot.socket slot) eqn:Es; [by bstep|]. destruct (Slot.channel slot) eqn:Ec; [|by bstep].
  destruct (Slot.reaped slot) eqn:Er; [|by bstep]. bstep. simpl.
  assert (Hn : i ∉ to_reap [] (broker s1)) by (eapply not_retiring_queue; [done..|]; intros (? & _ & ?); congruence).
  split.
  - eapply (inv_update timeout [] [] (broker s1) _ (btrace s1) i slot Slot.reset_slot []); [exact H1|done| | |constructor| |done| | |apply H1].
    + simpl. by erewrite alter_insert.
    + done.
    + unfold slot_seat. by rewrite Es, Ec, Er.
    + apply H1.
    + intros j. change (to_reap [] _) with (to_reap [] (broker s1)) at 1. case_bool_decide; [subst j|done].
      split; [done|]. by intros (_ & [? ?] & _).
  - eapply same_clients_trans; [exact S1|]. split_and!; simpl; [by rewrite length_alter| |].
    + intros j sj Ej Hj. rewrite list_lookup_alter_ne; [done|]. intros ->. simplify_eq. destruct Hj as [[? ?]|?]; congruence.
    + by eapply no_new_alter.
Qed.

(** What leaves with a client. *)
Lemma left_seat slot socket i :
  slot_ok timeout slot -> Slot.socket slot = Some socket ->
  seat_run timeout (slot_seat slot) [Left i socket (Slot.passed slot)] =
    Some (match Slot.channel slot with Some channel => Retiring channel | None => Free end).
Proof.
  intros Hok Es. unfold slot_ok in Hok. rewrite Es in Hok. destruct Hok as [_ Hok].
  unfold slot_seat. rewrite Es. simpl. rewrite Z.eqb_refl. unfold slot_stage, slot_grant.
  destruct (Slot.phase slot); simpl.
  - destruct Hok as (-> & -> & _). done.
  - destruct Hok as (_ & _ & Hc). destruct (Slot.channel slot); simpl; [by rewrite Z.eqb_refl|].
    destruct Hc as [_ ->]. done.
  - destruct Hok as [[ch ->] _]. simpl. by rewrite Z.eqb_refl.
Qed.

Definition dropped_slot (slot : broker_slot) : broker_slot :=
  slot <| Slot.watch := false |> <| Slot.passed := -1 |> <| Slot.socket := None |>.

Lemma drop_slot_ok i s :
  ok timeout [] s ->
  bwp (drop_slot i) s (fun _ s' => ok timeout [] s' /\ others_kept i s s' /\ no_new_clients s s' /\
    Slot.socket (slot_at i (broker s')) = None).
Proof.
  intros Hok. unfold drop_slot. bstep. bstep. destruct (slots (broker s) !! i) as [slot|] eqn:Ei.
  2:{ rewrite slot_at_out by done. cbn [Slot.socket Slot.reset_slot]. bstep. split_and!; [done|apply same_others, same_clients_refl|apply no_new_refl|by rewrite slot_at_out]. }
  rewrite (slot_at_lookup _ _ _ Ei). pose proof (lookup_lt_Some _ _ _ Ei) as Hlt.
  destruct (Slot.socket slot) as [socket|] eqn:Es.
  2:{ bstep. split_and!; [done|apply same_others, same_clients_refl|apply no_new_refl|by rewrite (slot_at_lookup _ _ _ Ei)]. }
  pose proof Hok as [_ Hslots _ [Hnd _] Htok]. specialize (Hslots i slot Ei). pose proof (left_seat slot socket i Hslots Es) as Hrun.
  assert (Hn : i ∉ to_reap [] (broker s)) by (eapply not_retiring_queue; [done..|]; intros (? & _ & ?); congruence).
  unfold slot_ok in Hslots. rewrite Es in Hslots. destruct Hslots as [Hre _].
  bstep. bstep. bstep. bstep. simpl. destruct (Slot.channel slot) as [ch|] eqn:Ec.
  - bstep. eapply bwp_mono; [apply (yield_ok timeout [i])|].
    + eapply (inv_update timeout [] [i] (broker s) _ (btrace s) i slot (dropped_slot slot)
        [Left i socket (Slot.passed slot)]); [exact Hok|done| |done|by constructor| | | | |exact Htok].
      * simpl. by erewrite alter_insert.
      * rewrite Hrun. unfold slot_seat, dropped_slot. simpl. by rewrite Ec, Hre.
      * unfold slot_ok, dropped_slot. simpl. by rewrite Ec.
      * unfold to_reap in *. simpl in *. rewrite app_nil_r in *. rewrite app_assoc. apply NoDup_app.
        split_and!; [done|set_solver|apply NoDup_singleton].
      * intros j. unfold to_reap in *. simpl in *. rewrite app_nil_r in *. case_bool_decide; [subst j|set_solver].
        split; [|set_solver]. intros _. unfold retiring, dropped_slot. simpl. rewrite Ec. by split_and!.
    + intros [] s2 [H2 (L2 & S2 & N2)]. bstep. simpl in *. split_and!.
      * destruct H2 as [? ? ? Hq ?]. split; [done..| |done]. unfold to_reap in *. simpl. by rewrite app_nil_r.
      * split; [simpl; by rewrite L2, length_alter|]. intros j sj Hj Ej Hc. apply S2; [|done].
        by rewrite list_lookup_alter_ne.
      * eapply (no_new_trans s); [|exact N2]. by eapply no_new_alter.
      * destruct H2 as [_ _ _ [_ Hq] _]. destruct (proj1 (Hq i)) as (si & Esi & Hri).
        { unfold to_reap. set_solver. }
        change (slot_at i _) with (slot_at i (broker s2)). rewrite (slot_at_lookup _ _ _ Esi). apply Hri.
  - bstep. simpl. rewrite alter_alter. erewrite (alter_insert _ _ (slots (broker s))) by exact Ei. split_and!.
    + eapply (inv_update timeout [] [] (broker s) _ (btrace s) i slot Slot.reset_slot
        [Left i socket (Slot.passed slot)]); [exact Hok|done|done|done|by constructor| |done|done| |exact Htok].
      * by rewrite Hrun.
      * intros j. change (to_reap [] _) with (to_reap [] (broker s)) at 1. case_bool_decide; [subst j|done].
        split; [done|]. by intros (_ & [? ?] & _).
    + split; simpl; [by rewrite length_insert|]. intros j sj Hj Ej _. by rewrite list_lookup_insert_ne.
    + intros j sj. simpl. intros [(-> & <- & _)|[_ ?]]%list_lookup_insert_Some [? ?]; done.
    + unfold slot_at. simpl. by rewrite list_lookup_insert_eq.
Qed.
End Slots.

(** * A client's events *)

Section Serve.
Context `{BrokerSys} {Hlaws : BrokerLaws} (timeout : Z).

(** What [answer] decides for a status. *)
Definition decision (status status' : Z) (grant : option (Z * Z)) : Prop :=
  if status =? Bootstrap.OK then
    match grant with
    | Some (_, fd) => status' = Bootstrap.OK /\ 0 <= fd
    | None => status' = Bootstrap.RESOURCE \/ status' = Bootstrap.INTERNAL
    end
  else status' = status /\ grant = None.

Definition answered (slot : broker_slot) (status : Z) (grant : option (Z * Z)) : broker_slot :=
  slot <| Slot.channel := fst <$> grant |> <| Slot.passed := default (-1) (snd <$> grant) |>
    <| Slot.phase := BROKER_RESPONSE |> <| Slot.status := status |> <| Slot.progress := 0 |>
    <| Slot.bytes_ := Bootstrap.egress_bootstrap_response status timeout |>.

(** A state with another slot [i], world and trace. *)
Definition with_slot (s : bstate) (i : nat) (slot : broker_slot) (w : bworld) (l : list broker_event) : bstate :=
  BState (broker s <| slots := <[i:=slot]> (slots (broker s)) |>) w (l ++ btrace s).

Lemma bwp_answer i status s slot (Q : bool -> bstate -> Prop) :
  connect_timeout (broker s) = timeout -> slots (broker s) !! i = Some slot ->
  Slot.channel slot = None -> Slot.passed slot = -1 ->
  (forall w returned status' grant, decision status status' grant ->
     Q returned (with_slot s i (answered slot status' grant) w [Decided i status' grant])) ->
  bwp (answer i status) s Q.
Proof using Hlaws.
  intros Ht Ei Ec Ep HQ. unfold answer. bstep. bstep. bstep. unfold decision in HQ.
  destruct (status =? Bootstrap.OK) eqn:Es.
  - bstep. bstep. rewrite Ht. destruct (br_channel_create timeout (the_bworld s)) as [[result [ch fd]] w] eqn:Ecr. cbn [fst snd].
    set (r := match result with MAELYS_EGRESS_OK => _ | _ => _ end).
    assert (Hd : match r.2 with Some (_, fd) => r.1 = Bootstrap.OK /\ 0 <= fd
                 | None => r.1 = Bootstrap.RESOURCE \/ r.1 = Bootstrap.INTERNAL end).
    { subst r. destruct result; simpl; auto. split; [lia|]. eapply law_br_create. by rewrite Ecr. }
    destruct r as [status' grant]. simpl in Hd. bstep. bstep. bstep. bstep. bstep. bstep. bstep. bstep.
    destruct (br_modify true w) as [returned w'] eqn:Em. simpl in *. rewrite Em. simpl.
    specialize (HQ w' returned status' grant Hd). unfold with_slot in HQ. rewrite alter_alter, (alter_insert _ _ _ _ Ei). exact HQ.
  - bstep. bstep. bstep. bstep. bstep. bstep.
    destruct (br_modify true (the_bworld s)) as [returned w'] eqn:Em. simpl. rewrite Em. simpl.
    specialize (HQ w' returned status None (conj eq_refl eq_refl)). unfold with_slot in HQ.
    rewrite (alter_insert _ _ _ _ Ei), Ht. unfold answered in HQ. destruct slot. simpl in *. subst. exact HQ.
Qed.

Lemma others_with i s slot w l : others_kept i s (with_slot s i slot w l).
Proof. split; simpl; [by rewrite length_insert|]. intros j sj Hj Ej _. by rewrite list_lookup_insert_ne. Qed.

(** A client that stays seated. *)
Definition served_slot (i : nat) (s s' : bstate) : Prop :=
  ok timeout [] s' /\ others_kept i s s' /\
  exists slot, slots (broker s') !! i = Some slot /\ is_Some (Slot.socket slot).

Lemma served_with i s slot slot' w l :
  ok timeout [] s -> slots (broker s) !! i = Some slot -> is_Some (Slot.socket slot) ->
  Slot.socket slot' = Slot.socket slot -> Slot.token slot' = Slot.token slot -> seated_ok timeout slot' ->
  Forall (fun e => event_index e = Some i) l ->
  seat_run timeout (slot_seat slot) l = Some (slot_seat slot') ->
  (tokens_ok (serial (broker s)) (btrace s) -> tokens_ok (serial (broker s)) (l ++ btrace s)) ->
  served_slot i s (with_slot s i slot' w l).
Proof.
  intros Hok Ei Hs Es' Et' Hsl Hl Hrun Htok. split_and!.
  - eapply inv_seated; try done; [by rewrite Es'| |apply Htok, Hok]. unfold slot_ok. rewrite Es'. by destruct Hs as [? ->].
  - apply others_with.
  - exists slot'. rewrite Es'. split; [|done]. simpl. apply list_lookup_insert_eq. by eapply lookup_lt_Some.
Qed.

Lemma served_same i s slot w :
  ok timeout [] s -> slots (broker s) !! i = Some slot -> is_Some (Slot.socket slot) ->
  served_slot i s (s <| the_bworld := w |>).
Proof. intros Hok Ei Hs. split_and!; [done|by split|by exists slot]. Qed.

(** The seat of a slot whose stage changes. *)
Lemma seat_run_stage socket slot slot' l :
  Slot.socket slot = Some socket -> Slot.socket slot' = Some socket -> Slot.token slot' = Slot.token slot ->
  Forall (fun e => match e with Heard _ _ | Decided _ _ _ | Told _ _ _ => True | _ => False end) l ->
  foldr (fun e st => st ≫= fun st => stage_next timeout st e) (Some (slot_stage slot)) l = Some (slot_stage slot') ->
  seat_run timeout (slot_seat slot) l = Some (slot_seat slot').
Proof.
  intros Es Es' Et Hl. unfold slot_seat. rewrite Es, Es', Et. generalize (slot_stage slot') as g'.
  induction Hl as [|e l He _ IH]; simpl; [naive_solver|]. intros g'.
  destruct (foldr _ (Some (slot_stage slot)) l) as [g|] eqn:E; [|done]. simpl. intros Eg.
  unfold seat_run in *. simpl. rewrite (IH g eq_refl). simpl. destruct e; try done; by rewrite Eg.
Qed.

Lemma write_at_prefix a p b :
  0 <= p -> p + len b <= len a -> ztake (p + len b) (write_at a p b) = ztake p a ++ b.
Proof.
  intros Hp Hl. unfold write_at. pose proof (len_nonneg b).
  assert (E : len (ztake p a ++ b) = p + len b) by (rewrite len_app, len_ztake by lia; lia).
  rewrite app_assoc, <-E. apply ztake_app_len.
Qed.

Lemma short_malformed got :
  len got < Bootstrap.REQUEST_SIZE -> decision_allowed got Bootstrap.MALFORMED None = true.
Proof.
  intros Hl. unfold decision_allowed. case_bool_decide as E; [subst got; by vm_compute in Hl|].
  unfold Bootstrap.egress_bootstrap_decode_request. by destruct (Z.eqb_spec (len got) Bootstrap.REQUEST_SIZE); [lia|].
Qed.

Lemma decided_allowed got status grant :
  decision (Bootstrap.egress_bootstrap_decode_request got) status grant -> decision_allowed got status grant = true.
Proof.
  unfold decision, decision_allowed. intros Hd.
  destruct (Z.eqb_spec (Bootstrap.egress_bootstrap_decode_request got) Bootstrap.OK) as [E|E].
  - rewrite bootstrap_decode_request_OK in E. case_bool_decide; [|done]. destruct grant as [[ch fd]|].
    + destruct Hd as [-> Hfd]. simpl. lia.
    + destruct Hd as [-> | ->]; done.
  - destruct Hd as [-> ->]. case_bool_decide as Er; [subst got; done|]. rewrite Z.eqb_refl, andb_true_r.
    apply negb_true_iff. by apply Z.eqb_neq.
Qed.

Lemma answered_ok slot status grant :
  Slot.reaped slot = false -> decision_allowed (ztake (Slot.progress slot) (Slot.bytes_ slot)) status grant = true ->
  seated_ok timeout (answered slot status grant).
Proof.
  intros Hr Hd. split; [done|]. simpl. split_and!; [done|done|done|]. unfold decision_allowed in Hd.
  destruct grant as [[ch fd]|]; simpl.
  - case_bool_decide; [|done]. simpl in Hd. lia.
  - split; [|done]. intros ->. by case_bool_decide.
Qed.

Lemma answered_stage slot status grant i :
  Slot.phase slot = BROKER_REQUEST ->
  decision_allowed (ztake (Slot.progress slot) (Slot.bytes_ slot)) status grant = true ->
  stage_next timeout (slot_stage slot) (Decided i status grant) = Some (slot_stage (answered slot status grant)).
Proof.
  intros Hp Hd. unfold slot_stage at 1. rewrite Hp. simpl. rewrite Hd. unfold slot_stage, slot_grant. simpl.
  by destruct grant as [[ch fd]|].
Qed.

(** Writes the state in the goal as [s] with another slot. *)
Ltac as_slot s i slot' w l Ei :=
  match goal with |- served_slot _ _ ?x =>
    assert (x = with_slot s i slot' w l) as ->
      by (unfold with_slot; simpl; by rewrite ?alter_alter, (alter_insert _ _ _ _ Ei), ?list_insert_insert_eq)
  end.

(** A client, as the programs find it. *)
Lemma asking_slot s i slot :
  ok timeout [] s -> slots (broker s) !! i = Some slot -> is_Some (Slot.socket slot) -> seated_ok timeout slot.
Proof. intros [_ Hs _ _ _] Ei [? E]. specialize (Hs i slot Ei). unfold slot_ok in Hs. by rewrite E in Hs. Qed.

Lemma serve_read_ok s i slot :
  ok timeout [] s -> slots (broker s) !! i = Some slot -> is_Some (Slot.socket slot) ->
  bwp (serve_read i) s (fun _ s' => served_slot i s s').
Proof using Hlaws.
  intros Hok Ei [socket Hs]. pose proof (asking_slot s i slot Hok Ei (ex_intro _ _ Hs)) as [Hre Hsl].
  unfold serve_read. bstep. bstep. rewrite (slot_at_lookup _ _ _ Ei). bstep. bstep.
  destruct (br_receive _ _ _) as [[result r] w] eqn:Er. cbn [fst snd].
  assert (Hsame : served_slot i s (s <| the_bworld := w |>)) by (by eapply served_same).
  destruct (retry_io result); [by bstep|].
  destruct (bool_decide_reflect (result = Fdpass.OK)) as [->|]; cbn [negb]; [|by bstep].
  destruct (bool_decide_reflect (Slot.phase slot = BROKER_REQUEST)) as [Ep|]; cbn [negb]; [|by bstep].
  pose proof (law_br_receive _ _ _ _ (f_equal fst Er)) as [Hlen Hby _ _]. rewrite Ep in Hsl.
  destruct Hsl as (Hc & Hpa & Hb & Hp). unfold Bootstrap.RESPONSE_SIZE, Bootstrap.REQUEST_SIZE in *.
  destruct (Fdpass.flagged r || (len (Fdpass.data r) =? 0)) eqn:Ef.
  - bstep. apply (bwp_answer i Bootstrap.MALFORMED _ slot); [apply Hok|done|done|done|].
    intros w' returned status grant [-> ->]. bstep.
    assert (Hd : decision_allowed (ztake (Slot.progress slot) (Slot.bytes_ slot)) Bootstrap.MALFORMED None = true).
    { apply short_malformed. unfold Bootstrap.REQUEST_SIZE. rewrite len_ztake; lia. }
    apply (served_with i s slot _ w' _ Hok Ei); [by eexists|done|done|by apply answered_ok|by constructor| |done].
    eapply seat_run_stage; [done|done|done|by constructor|]. simpl. by apply answered_stage.
  - apply orb_false_iff in Ef as [_ Ef]. apply Z.eqb_neq in Ef. pose proof (len_nonneg (Fdpass.data r)) as Hnn.
    bstep. bstep. bstep. bstep.
    set (progress := Slot.progress slot + len (Fdpass.data r)).
    set (bytes' := write_at (Slot.bytes_ slot) (Slot.progress slot) (Fdpass.data r)).
    set (heard := slot <| Slot.bytes_ := bytes' |> <| Slot.progress := progress |>).
    assert (Et : ztake progress bytes' = ztake (Slot.progress slot) (Slot.bytes_ slot) ++ Fdpass.data r)
      by (apply write_at_prefix; lia).
    assert (Hst : stage_next timeout (slot_stage slot) (Heard i (Fdpass.data r)) = Some (slot_stage heard)).
    { unfold slot_stage. rewrite Ep. simpl. rewrite Ep, Et, len_app, len_ztake by lia.
      unfold Bootstrap.REQUEST_SIZE.
      destruct (Z.ltb_spec 0 (len (Fdpass.data r))), (Z.leb_spec (Slot.progress slot + len (Fdpass.data r)) 8); done || lia. }
    destruct (Z.eqb_spec progress 8) as [E8|E8].
    + bstep. apply (bwp_answer i _ _ heard); [apply Hok| |done|done|].
      { simpl. rewrite (alter_insert _ _ _ _ Ei). apply list_lookup_insert_eq. by eapply lookup_lt_Some. }
      intros w' returned status grant Hd%decided_allowed. bstep.
      as_slot s i (answered heard status grant) w' [Decided i status grant; Heard i (Fdpass.data r)] Ei.
      apply (served_with i s slot _ w' _ Hok Ei); [by eexists|done|done|by apply answered_ok|by repeat constructor| |done].
      eapply seat_run_stage; [done|done|done|by repeat constructor|]. simpl. rewrite Hst. simpl.
      apply answered_stage; [exact Ep|exact Hd].
    + bstep. as_slot s i heard w [Heard i (Fdpass.data r)] Ei.
      apply (served_with i s slot _ w _ Hok Ei); [by eexists|done|done| |by constructor| |done].
      * split; [done|]. simpl. rewrite Ep. unfold Bootstrap.RESPONSE_SIZE, Bootstrap.REQUEST_SIZE.
        split_and!; [done|done| |lia|lia]. subst bytes'. rewrite len_write_at; lia.
      * eapply seat_run_stage; [done|done|done|by constructor|]. exact Hst.
Qed.

Lemma length_response status t : len (Bootstrap.egress_bootstrap_response status t) = Bootstrap.RESPONSE_SIZE.
Proof. done. Qed.

Lemma serve_write_ok s i slot :
  ok timeout [] s -> slots (broker s) !! i = Some slot -> is_Some (Slot.socket slot) ->
  Slot.phase slot = BROKER_RESPONSE -> bwp (serve_write i) s (fun _ s' => served_slot i s s').
Proof using Hlaws.
  intros Hok Ei [socket Hs] Hph. pose proof (asking_slot s i slot Hok Ei (ex_intro _ _ Hs)) as [Hre Hsl].
  rewrite Hph in Hsl. destruct Hsl as (Hb & Hp & Hc).
  unfold serve_write. bstep. bstep. rewrite (slot_at_lookup _ _ _ Ei). cbn zeta.
  set (rest := zdrop (Slot.progress slot) (Bootstrap.egress_bootstrap_response (Slot.status slot) timeout)).
  assert (Hrest : len rest = Bootstrap.RESPONSE_SIZE - Slot.progress slot) by (subst rest; by rewrite len_zdrop).
  assert (zdrop (Slot.progress slot) (ztake Bootstrap.RESPONSE_SIZE (Slot.bytes_ slot)) = rest) as ->
    by (subst rest; by rewrite Hb, ztake_all).
  bstep. bstep.
  set (given := if Slot.progress slot =? 0 then if 0 <=? Slot.passed slot then Some (Slot.passed slot) else None else None).
  assert (Hgiven : given = if Slot.progress slot =? 0 then snd <$> slot_grant slot else None).
  { subst given. destruct (_ =? 0); [|done]. unfold slot_grant. destruct (Slot.channel slot); simpl.
    - by destruct (Z.leb_spec 0 (Slot.passed slot)); [|lia].
    - destruct Hc as [_ ->]. done. }
  destruct (br_send _ _ _ _) as [[result sent] w] eqn:Er. cbn [fst snd].
  assert (Hsame : served_slot i s (s <| the_bworld := w |>)) by (by eapply served_same).
  destruct (retry_io result); [by bstep|].
  destruct (bool_decide_reflect (result = Fdpass.OK)) as [->|]; cbn [negb orb]; [|by bstep].
  destruct (Z.eqb_spec sent 0); [by bstep|].
  pose proof (law_br_send _ _ _ _ _ (f_equal fst Er)) as Hsent.
  assert (Hlen : len (ztake sent rest) = sent) by (rewrite len_ztake; lia).
  set (told := slot <| Slot.progress := Slot.progress slot + sent |>).
  assert (Hst : stage_next timeout (slot_stage slot) (Told i (ztake sent rest) given) =
    Some (match slot_grant slot with
          | Some (channel, passed) => if Slot.progress slot + sent =? Bootstrap.RESPONSE_SIZE then Leased channel passed
                                      else Answering (Slot.status slot) (slot_grant slot) (Slot.progress slot + sent)
          | None => Answering (Slot.status slot) (slot_grant slot) (Slot.progress slot + sent)
          end)).
  { unfold slot_stage. rewrite Hph. cbn [stage_next]. rewrite Hlen. fold rest.
    destruct (Z.ltb_spec 0 sent); [|lia]. rewrite (bool_decide_eq_true_2 (ztake sent rest `prefix_of` rest)) by apply prefix_take.
    rewrite bool_decide_eq_true_2 by done. done. }
  bstep. bstep. bstep. bstep.
  assert (Htold : seated_ok timeout told).
  { split; [done|]. simpl. rewrite Hph. split_and!; [done|lia|lia|done]. }
  assert (Hrun : Slot.progress slot + sent <> Bootstrap.RESPONSE_SIZE \/ Slot.channel slot = None ->
    seat_run timeout (slot_seat slot) [Told i (ztake sent rest) given] = Some (slot_seat told)).
  { intros Hcase. eapply seat_run_stage; [done|done|done|by constructor|]. simpl. rewrite Hst. f_equal.
    unfold slot_stage, slot_grant. simpl. rewrite Hph. unfold slot_grant. simpl.
    destruct (Slot.channel slot); simpl; [|done]. destruct (Z.eqb_spec (Slot.progress slot + sent) Bootstrap.RESPONSE_SIZE); [|done].
    by destruct Hcase. }
  assert (Hstay : Slot.progress slot + sent <> Bootstrap.RESPONSE_SIZE \/ Slot.channel slot = None ->
    forall w', served_slot i s (with_slot s i told w' [Told i (ztake sent rest) given])).
  { intros Hcase w'. apply (served_with i s slot _ w' _ Hok Ei); [by eexists|done|done|done|by constructor|by apply Hrun|done]. }
  destruct (Z.eqb_spec (Slot.progress slot + sent) Bootstrap.RESPONSE_SIZE) as [E16|E16]; [|bstep; as_slot s i told w [Told i (ztake sent rest) given] Ei; apply Hstay; by left].
  destruct (Z.eqb_spec (Slot.status slot) Bootstrap.OK) as [Est|Est]; cbn [negb].
  - bstep. bstep. bstep. simpl. destruct (br_modify false w) as [returned w']. simpl.
    destruct (Slot.channel slot) as [ch|] eqn:Ec; [|by destruct Hc].
    as_slot s i (told <| Slot.phase := BROKER_LEASE |>) w' [Told i (ztake sent rest) given] Ei.
    apply (served_with i s slot _ w' _ Hok Ei); [by eexists|done|done| |by constructor| |done].
    + split; [done|]. simpl. split; [by eexists|]. apply Hc.
    + eapply seat_run_stage; [done|done|done|by constructor|]. simpl. rewrite Hst. unfold slot_grant, slot_stage. simpl.
      by rewrite Ec.
  - bstep. as_slot s i told w [Told i (ztake sent rest) given] Ei. apply Hstay. right. destruct (Slot.channel slot); [|done]. by destruct Hc.
Qed.

Lemma serve_slot_ok s i slot e :
  ok timeout [] s -> slots (broker s) !! i = Some slot -> is_Some (Slot.socket slot) ->
  bwp (serve_slot i e) s (fun _ s' => served_slot i s s').
Proof using Hlaws.
  intros Hok Ei Hs. unfold serve_slot. bstep.
  assert (Hread : bwp (if bs_read e || bs_end e then serve_read i else mret None) s (fun _ s' => served_slot i s s')).
  { destruct (_ || _); [by eapply serve_read_ok|]. bstep. split_and!; [done|by split|by exists slot]. }
  eapply bwp_mono; [exact Hread|]. intros [b|] s1 (H1 & [L1 O1] & slot1 & E1 & Hs1);
    [bstep; split_and!; [done|done|by exists slot1]|].
  bstep. bstep. rewrite (slot_at_lookup _ _ _ E1).
  case_bool_decide as Hph; cbn [andb]; [|bstep; split_and!; [done|done|by exists slot1]].
  destruct (bs_write e); [|bstep; split_and!; [done|done|by exists slot1]].
  eapply bwp_mono; [by eapply serve_write_ok|]. intros b s2 (H2 & [L2 O2] & Hx). split_and!; [done| |done].
  split; [congruence|]. eauto.
Qed.

End Serve.
