(* ===== verification/BrokerTheorems.v ===== *)
(** The theorems on the broker (ChannelBroker.v, src/channel_broker.c): the
    invariant of BrokerFacts.v over whole runs of its two threads, the end of a
    run, the handshake deadline and the tokens of the slots. *)

From S2P Require Import Prelude Common Codec Config Policy Receipt Buffer Server Reactor ChannelServer ChannelBroker BrokerFacts.

Section Threads.
Context `{BrokerSys} {Hlaws : BrokerLaws} (timeout : Z).

(** * Accepting *)

Lemma turned_away_ok s w socket b :
  ok timeout [] s -> ok timeout [] (s <| the_bworld := w |> <| btrace := TurnedAway socket b :: btrace s |>).
Proof.
  intros [? ? Hseat ? ?]. split; [done..| |done|done]. intros i. simpl. rewrite Hseat. done.
Qed.

Lemma find_free_ok indices s :
  ok timeout [] s -> Forall (fun i => (i < length (slots (broker s)))%nat) indices ->
  bwp (find_free indices) s (fun found s' => ok timeout [] s' /\
    match found with Some i => slots (broker s') !! i = Some Slot.reset_slot | None => True end).
Proof.
  revert s. induction indices as [|i indices IH]; intros s Hok Hf; cbn [find_free]; [by bstep|].
  apply Forall_cons in Hf as [Hi Hf]. bstep. eapply bwp_mono; [by apply collect_slot_ok|].
  intros [] s1 (H1 & L1 & _). bstep. bstep.
  assert (is_Some (slots (broker s1) !! i)) as [slot Ei] by (apply lookup_lt_is_Some; lia).
  rewrite (slot_at_lookup _ _ _ Ei).
  assert (Hrest : bwp (find_free indices) s1 (fun found s' => ok timeout [] s' /\
    match found with Some i => slots (broker s') !! i = Some Slot.reset_slot | None => True end)).
  { apply IH; [done|]. eapply Forall_impl; [exact Hf|]. simpl. lia. }
  destruct (Slot.socket slot) eqn:Es; [done|]. destruct (Slot.channel slot) eqn:Ec; [done|].
  bstep. split; [done|]. destruct H1 as [_ Hs _ _ _]. specialize (Hs i slot Ei). unfold slot_ok in Hs.
  rewrite Es, Ec in Hs. by subst slot.
Qed.

(** A field of a client's slot that the protocol does not see. *)
Lemma set_slot_ok s i slot f :
  ok timeout [] s -> slots (broker s) !! i = Some slot -> is_Some (Slot.socket slot) ->
  slot_seat (f slot) = slot_seat slot -> Slot.socket (f slot) = Slot.socket slot -> slot_ok timeout (f slot) ->
  ok timeout [] (s <| broker := broker s <| slots := alter f i (slots (broker s)) |> |>).
Proof.
  intros Hok Ei Hs Eseat Es Hslot. unfold ok. simpl. rewrite (alter_insert _ _ _ _ Ei).
  change (btrace s) with ([] ++ btrace s). eapply inv_seated; try done; [by rewrite Es|simpl; by rewrite Eseat|apply Hok].
Qed.

Definition arrival (socket token : Z) : broker_slot :=
  Slot.reset_slot <| Slot.socket := Some socket |> <| Slot.token := token |>.

Lemma accept_one_ok s : ok timeout [] s -> bwp accept_one s (fun _ s' => ok timeout [] s').
Proof.
  intros Hok. unfold accept_one. bstep. bstep.
  destruct (br_accept (the_bworld s)) as [[socket|] w]; cbn [fst snd]; [|by bstep].
  bstep. bstep. bstep. eapply bwp_mono; [apply find_free_ok; [exact Hok|]|].
  { apply Forall_forall. intros i [_ Hi]%elem_of_seq. simpl in *. lia. }
  intros [i|] s1 [H1 Ei]; [|cbn zeta; repeat bstep; by apply (turned_away_ok s1)].
  bstep. bstep. bstep. bstep. bstep. bstep. bstep. bstep. cbn zeta.
  set (token := slot_token (serial (broker (s1 <| broker := broker s1 <| serial := u64 (serial (broker s1) + 1) |> |>))) i).
  match goal with |- bwp _ ?x _ => set (s2 := x) end.
  assert (Ei2 : slots (broker s2) !! i = Some (arrival socket token)).
  { subst s2. simpl. rewrite (alter_insert _ _ _ _ Ei). apply list_lookup_insert_eq. by eapply lookup_lt_Some. }
  assert (H2 : ok timeout [] s2).
  { eapply (inv_update timeout [] [] (broker s1) _ (btrace s1) i Slot.reset_slot (arrival socket token) [Accepted i socket token]);
      [exact H1|done| |done|by constructor|done|done|apply H1| |].
    - simpl. by rewrite (alter_insert _ _ _ _ Ei).
    - intros j. change (to_reap [] (broker s2)) with (to_reap [] (broker s1)). case_bool_decide; [subst j|done].
      split; [|by intros [? _]]. destruct H1 as [_ _ _ [_ Hq] _]. rewrite Hq. unfold retiring.
      intros (slot & E & _ & [? Hc] & _). rewrite Ei in E. by simplify_eq.
    - exists (serial (broker s1)). split_and!; [done|done|apply H1]. }
  clearbody s2 token. bstep. bstep. destruct (br_deadline_after _ _) as [[deadline|] w1]; cbn [fst snd].
  2:{ eapply bwp_mono; [apply (drop_slot_ok timeout); exact H2|]. by intros [] s3 (? & _). }
  bstep. bstep. set (set_deadline := fun slot => slot <| Slot.deadline := deadline |>).
  assert (H3 := set_slot_ok s2 i _ set_deadline H2 Ei2 (ex_intro _ _ eq_refl) eq_refl eq_refl ltac:(by split)).
  bstep. bstep. destruct (br_watch _ _ _) as [[] w2]; cbn [fst snd].
  - bstep. eapply (set_slot_ok _ i (set_deadline (arrival socket token)) (fun slot => slot <| Slot.watch := true |>));
      [exact H3| |by eexists|done|done|by split].
    simpl. rewrite (alter_insert _ _ _ _ Ei2). apply list_lookup_insert_eq. by eapply lookup_lt_Some.
  - eapply bwp_mono; [apply (drop_slot_ok timeout); exact H3|]. by intros [] s3 (? & _).
Qed.
(** * The loop *)

(** A client in its handshake has time left at [now], and [deadline] is not
    beyond it. *)
Definition in_time (now deadline : Z) (slot : broker_slot) : Prop :=
  is_Some (Slot.socket slot) -> Slot.phase slot <> BROKER_LEASE -> now < Slot.deadline slot /\ deadline <= Slot.deadline slot.

Lemma scan_slots_ok now indices deadline s :
  ok timeout [] s ->
  bwp (scan_slots now deadline indices) s (fun deadline' s' => ok timeout [] s' /\ no_new_clients s s' /\
    deadline' <= deadline /\
    forall i slot, i ∈ indices -> slots (broker s') !! i = Some slot -> in_time now deadline' slot).
Proof using Hlaws.
  revert deadline s. induction indices as [|i indices IH]; intros deadline s Hok; cbn [scan_slots].
  { bstep. split_and!; [done|apply no_new_refl|done|set_solver]. }
  bstep. eapply bwp_mono; [by apply collect_slot_ok|]. intros [] s1 (H1 & _ & _ & N1). bstep. bstep.
  assert (Hrest : forall d s2, ok timeout [] s2 -> no_new_clients s1 s2 -> d <= deadline ->
    (forall slot, slots (broker s2) !! i = Some slot -> in_time now d slot) ->
    bwp (scan_slots now d indices) s2 (fun deadline' s' => ok timeout [] s' /\ no_new_clients s s' /\
      deadline' <= deadline /\
      forall j slot, j ∈ i :: indices -> slots (broker s') !! j = Some slot -> in_time now deadline' slot)).
  { intros d s2 H2 N2 Hd Hi. eapply bwp_mono; [by apply IH|]. intros d' s' (H' & N' & Hd' & Hj).
    split_and!; [done|by eauto using no_new_trans|lia|].
    intros j slot [->|Hin]%elem_of_cons E Hs Hph; [|by eapply Hj].
    destruct (Hi slot (N' _ _ E Hs) Hs Hph). lia. }
  assert (Hself : forall d, (forall slot, slots (broker s1) !! i = Some slot -> slot_at i (broker s1) = slot) ->
    (is_Some (Slot.socket (slot_at i (broker s1))) -> Slot.phase (slot_at i (broker s1)) <> BROKER_LEASE ->
       now < Slot.deadline (slot_at i (broker s1)) /\ d <= Slot.deadline (slot_at i (broker s1))) ->
    forall slot, slots (broker s1) !! i = Some slot -> in_time now d slot).
  { intros d Hat Hd slot E. by rewrite <-(Hat slot E). }
  pose proof (fun slot E => slot_at_lookup i (broker s1) slot E) as Hat.
  destruct (Slot.socket (slot_at i (broker s1))) as [socket|] eqn:Es.
  2:{ apply Hrest; [done|apply no_new_refl|lia|]. apply Hself; [done|]. intros [? Hx]. congruence. }
  case_bool_decide as Hph.
  { apply Hrest; [done|apply no_new_refl|lia|]. apply Hself; [done|]. by intros _ ?. }
  destruct (Z.leb_spec (Slot.deadline (slot_at i (broker s1))) now).
  - bstep. eapply bwp_mono; [by apply (drop_slot_ok timeout)|]. intros [] s2 (H2 & _ & N2 & Hnone).
    apply Hrest; [done|done|lia|]. intros slot E [? Hs]. rewrite (slot_at_lookup _ _ _ E) in Hnone. congruence.
  - apply Hrest; [done|apply no_new_refl|lia|]. apply Hself; [done|]. intros _ _. lia.
Qed.

Lemma slot_event_ok e s : ok timeout [] s -> bwp (slot_event e) s (fun _ s' => ok timeout [] s').
Proof using Hlaws.
  intros Hok. unfold slot_event. bstep. bstep. cbn zeta. destruct (_ <=? _) eqn:Er; [by bstep|].
  set (i := Z.to_nat _). assert (Hi : is_Some (slots (broker s) !! i)).
  { apply lookup_lt_is_Some. subst i. unfold u64 in *. pose proof (Z.mod_pos_bound (Z.land (bs_token e) 65535 - 2) (2 ^ 64) ltac:(lia)). lia. }
  destruct Hi as [slot Ei]. rewrite (slot_at_lookup _ _ _ Ei). destruct (Slot.socket slot) as [socket|] eqn:Es; [|by bstep].
  destruct (negb _); [by bstep|]. bstep. bstep.
  assert (Hdrop : forall s1, ok timeout [] s1 -> bwp (drop_slot i) s1 (fun _ s' => ok timeout [] s')).
  { intros s1 H1. eapply bwp_mono; [by apply (drop_slot_ok timeout)|]. by intros [] s2 (? & _). }
  destruct (br_clock _) as [[now|] w]; cbn [fst snd]; [|by apply Hdrop].
  destruct (_ && _); [by apply Hdrop|]. bstep. eapply bwp_mono; [eapply (serve_slot_ok timeout); [exact Hok|exact Ei|by eexists]|].
  intros [] s1 (H1 & _); [by bstep|by apply Hdrop].
Qed.

Lemma parent_unchanged_ok s : ok timeout [] s -> bwp parent_unchanged s (fun _ s' => ok timeout [] s').
Proof using Hlaws. intros Hok. unfold parent_unchanged. by repeat bstep. Qed.

Lemma load_stopping_ok s : ok timeout [] s -> bwp load_stopping s (fun _ s' => ok timeout [] s').
Proof using Hlaws. intros Hok. unfold load_stopping. repeat bstep. by eapply inv_fields. Qed.

Lemma fail_io_ok s : ok timeout [] s -> bwp fail_io s (fun _ s' => ok timeout [] s').
Proof using Hlaws. intros Hok. unfold fail_io. bstep. by eapply inv_fields. Qed.

Lemma handle_events_ok events s : ok timeout [] s -> bwp (handle_events events) s (fun _ s' => ok timeout [] s').
Proof using Hlaws.
  revert s. induction events as [|e events IH]; intros s Hok; cbn [handle_events]; [by bstep|].
  bstep. eapply bwp_mono; [by apply load_stopping_ok|]. intros [] s1 H1; [by bstep|].
  destruct (bs_token e =? 1); [bstep; bstep; bstep; by eapply inv_fields|].
  destruct (bs_token e =? 0).
  - bstep. eapply bwp_mono; [by apply parent_unchanged_ok|]. intros [] s2 H2; bstep.
    + eapply bwp_mono; [by apply accept_one_ok|]. intros [] s3 H3. by apply IH.
    + eapply bwp_mono; [by apply fail_io_ok|]. intros [] s3 H3. by bstep.
  - bstep. eapply bwp_mono; [by apply slot_event_ok|]. intros [] s2 H2. by apply IH.
Qed.

Lemma broker_turn_ok s : ok timeout [] s -> bwp broker_turn s (fun _ s' => ok timeout [] s').
Proof using Hlaws.
  intros Hok. unfold broker_turn. bstep. bstep.
  assert (Hfail : forall s1, ok timeout [] s1 -> bwp (fail_io;; mret (None (A := bool))) s1 (fun _ s' => ok timeout [] s')).
  { intros s1 H1. bstep. eapply bwp_mono; [by apply fail_io_ok|]. intros [] s2 H2. by bstep. }
  destruct (br_clock _) as [[now|] w]; cbn [fst snd]; [|by apply Hfail].
  bstep. bstep. bstep. eapply bwp_mono; [by apply scan_slots_ok|]. intros deadline s1 (H1 & _).
  bstep. bstep. destruct (br_loop_step _ _) as [[events|] w1]; cbn [fst snd]; [|by apply Hfail].
  bstep. eapply bwp_mono; [by apply handle_events_ok|]. intros ready s2 H2. by bstep.
Qed.

Lemma broker_loop_ok turns ready s : ok timeout [] s -> bwp (broker_loop turns ready) s (fun _ s' => ok timeout [] s').
Proof using Hlaws.
  revert ready s. induction turns as [|turns IH]; intros ready s Hok; cbn [broker_loop]; [by bstep|].
  destruct ready; cbn [negb]; [|by bstep]. bstep. eapply bwp_mono; [by apply load_stopping_ok|].
  intros [] s1 H1; [by bstep|]. bstep. bstep. destruct (br_connector_running _) as [[] w]; cbn [fst snd negb]; [|by bstep].
  bstep. eapply bwp_mono; [by apply broker_turn_ok|]. intros [ready|] s2 H2; [by apply IH|by bstep].
Qed.

(** * The end *)

Lemma drop_slots_ok indices s :
  ok timeout [] s ->
  bwp (drop_slots indices) s (fun _ s' => ok timeout [] s' /\ no_new_clients s s' /\
    length (slots (broker s')) = length (slots (broker s)) /\
    forall i slot, i ∈ indices -> slots (broker s') !! i = Some slot -> Slot.socket slot = None).
Proof using Hlaws.
  revert s. induction indices as [|i indices IH]; intros s Hok; cbn [drop_slots].
  { bstep. split_and!; [done|apply no_new_refl|done|set_solver]. }
  bstep. eapply bwp_mono; [by apply (drop_slot_ok timeout)|]. intros [] s1 (H1 & [L1 _] & N1 & Hi).
  eapply bwp_mono; [by apply IH|]. intros [] s2 (H2 & N2 & L2 & Hj).
  split_and!; [done|by eauto using no_new_trans|congruence|].
  intros j slot [->|Hin]%elem_of_cons E; [|by eapply Hj].
  destruct (Slot.socket slot) eqn:Es; [|done]. assert (E1 := N2 _ _ E (ex_intro _ _ Es)).
  rewrite (slot_at_lookup _ _ _ E1) in Hi. congruence.
Qed.

(** No client is left. *)
Definition vacated (s : bstate) : Prop := forall i slot, slots (broker s) !! i = Some slot -> Slot.socket slot = None.

Lemma remove_path_ok s :
  ok timeout [] s -> vacated s ->
  bwp remove_path s (fun _ s' => ok timeout [] s' /\ vacated s' /\ owns_path (broker s') = false).
Proof.
  intros H1 V1. unfold remove_path. bstep. bstep. destruct (owns_path (broker s)) eqn:Eo; cbn [negb]; [|by bstep].
  bstep. unfold parent_unchanged. bstep. bstep. bstep. bstep. bstep. bstep.
  set (unchanged := match _ with Some _ => _ | None => _ end). destruct unchanged.
  - bstep. destruct (br_unlink_same _ _) as [[] w]; cbn [fst snd].
    + bstep. bstep. bstep. split_and!; [by eapply inv_fields|done|done].
    + bstep. unfold fail_io. bstep. bstep. split_and!; [by eapply inv_fields|done|done].
  - bstep. bstep. unfold fail_io. bstep. bstep. split_and!; [by eapply inv_fields|done|done].
Qed.

Lemma drop_all_ok s : ok timeout [] s -> bwp drop_all s (fun _ s' => ok timeout [] s' /\ vacated s').
Proof using Hlaws.
  intros Hok. unfold drop_all. bstep. bstep. eapply bwp_mono; [by apply drop_slots_ok|].
  intros [] s1 (H1 & _ & L1 & Hi). split; [done|].
  intros i slot E. eapply Hi; [|exact E]. apply elem_of_seq. apply lookup_lt_Some in E. lia.
Qed.

Lemma broker_close_ok s :
  ok timeout [] s -> vacated s ->
  bwp broker_close s (fun _ s' => ok timeout [] s' /\ vacated s' /\ owns_path (broker s') = false).
Proof.
  intros H1 V1. unfold broker_close. bstep. eapply bwp_mono; [by apply remove_path_ok|].
  intros [] s2 (H2 & V2 & E2). unfold stop_reaper. bstep. bstep. bstep. split_and!; [by eapply inv_fields|done|done].
Qed.

Lemma broker_end_ok s :
  ok timeout [] s -> bwp broker_end s (fun _ s' => ok timeout [] s' /\ vacated s' /\ owns_path (broker s') = false).
Proof using Hlaws.
  intros Hok. unfold broker_end. bstep. eapply bwp_mono; [by apply drop_all_ok|].
  intros [] s1 [H1 V1]. by apply broker_close_ok.
Qed.

(** A broker as [maelys_egress_channel_broker_create] starts its threads. *)
Definition started (s : bstate) : Prop :=
  serial (broker s) = 0 /\ connect_timeout (broker s) = timeout /\ btrace s = [] /\ reap_queue (broker s) = [] /\ reaping (broker s) = None /\
  Forall (fun slot => slot = Slot.reset_slot) (slots (broker s)).

Lemma started_ok s : started s -> ok timeout [] s.
Proof using Hlaws.
  intros (En & Et & Etr & Eq & Er & Hs). rewrite Forall_lookup in Hs. split; [done|..| |by rewrite Etr].
  - intros i slot E. by rewrite (Hs i slot E).
  - intros i. rewrite Etr. simpl. destruct (slots (broker s) !! i) as [slot|] eqn:E; [|done]. by rewrite (Hs i slot E).
  - unfold to_reap. rewrite Eq, Er. simpl. split; [constructor|]. intros i. split; [set_solver|].
    intros (slot & E & _ & [? Hc] & _). by rewrite (Hs i slot E) in Hc.
Qed.

Lemma broker_arm_ok s : ok timeout [] s -> bwp broker_arm s (fun _ s' => ok timeout [] s').
Proof.
  intros Hok. unfold broker_arm. bstep. bstep. destruct (br_loop_create _) as [created w]; cbn [fst snd].
  bstep. set (Q := fun (_ : bool) s' => ok timeout [] s').
  assert (Hask : forall (b : bool) token s0, ok timeout [] s0 ->
    bwp (if b then bask (br_watch_own token) else mret false) s0 Q).
  { intros [] token s0 H0; bstep; [|done]. by eapply inv_fields. }
  eapply bwp_mono; [apply Hask; by eapply inv_fields|]. intros listener s1 H1. bstep.
  eapply bwp_mono; [by apply Hask|]. intros ready s2 H2. bstep. bstep. bstep. by eapply inv_fields.
Qed.

Lemma broker_main_ok turns s :
  started s -> bwp (broker_main turns) s (fun ended s' => ok timeout [] s' /\ (ended = true -> vacated s')).
Proof using Hlaws.
  intros Hs%started_ok. unfold broker_main. bstep. eapply bwp_mono; [by apply broker_arm_ok|].
  intros [created ready] s0 H0. bstep.
  apply (bwp_mono _ _ (fun _ s' => ok timeout [] s')); [destruct ready; [by apply broker_loop_ok|by bstep]|].
  intros [] s1 H1; [|by bstep]. bstep. eapply bwp_mono; [by apply broker_end_ok|]. intros [] s2 (? & ? & _). by bstep.
Qed.

End Threads.

(** * The reaper's end *)

Section Drain.
Context `{BrokerSys} (timeout : Z).

(** The actions the reaper has before it. *)
Definition pending (b : maelys_egress_channel_broker) : nat :=
  2 * length (reap_queue b) + match reaping b with Some _ => 1 | None => 0 end.

Lemma reaper_action_pending s :
  vacated s -> bwp reaper_action s (fun _ s' => pending (broker s') = pred (pending (broker s)) /\ vacated s').
Proof.
  intros Hv. unfold reaper_action. bstep. bstep. destruct (reaping (broker s)) as [i|] eqn:Er.
  - bstep. match goal with |- bwp ?p _ _ => assert (Hp : p = mret tt \/ exists e, p = note e) end.
    { destruct (Slot.channel _); [right; by eexists|by left]. }
    assert (Hset : forall l, bwp (set_slot i (fun s0 => s0 <| Slot.reaped := true |>);; set_broker (fun b => b <| reaping := None |>))
      (s <| btrace := l |>) (fun _ s' => pending (broker s') = pred (pending (broker s)) /\ vacated s')).
    { intros l. bstep. bstep. bstep. split; [unfold pending; simpl; rewrite Er; lia|].
      intros j slot. simpl. intros E. destruct (slots (broker s) !! i) as [old|] eqn:Eo.
      - rewrite (alter_insert _ _ _ _ Eo) in E. apply list_lookup_insert_Some in E as [(_ & <- & _)|[_ E]];
          [exact (Hv _ _ Eo)|by eapply Hv].
      - apply (Hv j). destruct (decide (i = j)) as [<-|Hne]; [|by rewrite list_lookup_alter_ne in E].
        apply lookup_lt_Some in E. rewrite length_alter in E. apply lookup_ge_None in Eo. lia. }
    destruct Hp as [->|[e ->]]; bstep; [|apply Hset]. specialize (Hset (btrace s)). by destruct s.
  - destruct (reap_queue (broker s)) as [|i queue] eqn:Eq; bstep.
    + unfold pending. by rewrite Er, Eq.
    + split; [|done]. unfold pending. simpl. rewrite Er, Eq. simpl. lia.
Qed.

Lemma reaper_actions_pending count s :
  vacated s -> bwp (reaper_actions count) s (fun _ s' => pending (broker s') = (pending (broker s) - count)%nat /\ vacated s').
Proof.
  revert s. induction count as [|count IH]; intros s Hv; cbn [reaper_actions]; [bstep; split; [lia|done]|].
  bstep. eapply bwp_mono; [by apply reaper_action_pending|]. intros [] s1 [E1 V1].
  eapply bwp_mono; [by apply IH|]. intros [] s2 [E2 V2]. split; [lia|done].
Qed.

Lemma drained_free s : ok timeout [] s -> vacated s -> pending (broker s) = 0%nat ->
  forall i, seat_after timeout i (btrace s) = Some Free.
Proof.
  intros [_ _ Hseat [_ Hq] _] Hv Hp i. rewrite Hseat. destruct (slots (broker s) !! i) as [slot|] eqn:E; [|done]. simpl.
  unfold slot_seat. rewrite (Hv i slot E). destruct (Slot.channel slot) eqn:Ec; [|done].
  destruct (Slot.reaped slot) eqn:Er; [done|]. exfalso.
  assert (Hin : i ∈ to_reap [] (broker s)) by (apply Hq; exists slot; split; [done|]; split_and!; [by eapply Hv|by eexists|done]).
  unfold pending, to_reap in *. destruct (reap_queue (broker s)); simpl in *; [|lia].
  destruct (reaping (broker s)); simpl in *; [lia|]. set_solver.
Qed.
End Drain.

(** * The ledger of a seat *)

(** What came to a slot and what was let go. *)
Definition sockets_in (i : nat) (t : list broker_event) : list Z :=
  omap (fun e => match e with Accepted j socket _ => if decide (j = i) then Some socket else None | _ => None end) t.
Definition sockets_out (i : nat) (t : list broker_event) : list Z :=
  omap (fun e => match e with Left j socket _ => if decide (j = i) then Some socket else None | _ => None end) t.
Definition channels_in (i : nat) (t : list broker_event) : list Z :=
  omap (fun e => match e with Decided j _ grant => if decide (j = i) then fst <$> grant else None | _ => None end) t.
Definition channels_out (i : nat) (t : list broker_event) : list Z :=
  omap (fun e => match e with Destroyed j channel => if decide (j = i) then Some channel else None | _ => None end) t.
Definition passed_in (i : nat) (t : list broker_event) : list Z :=
  omap (fun e => match e with Decided j _ grant => if decide (j = i) then snd <$> grant else None | _ => None end) t.
Definition passed_out (i : nat) (t : list broker_event) : list Z :=
  omap (fun e => match e with Left j _ passed => if decide (j = i) then (if 0 <=? passed then Some passed else None) else None
                 | _ => None end) t.

Definition seat_socket (st : seat) : list Z := match st with Seated _ socket _ => [socket] | _ => [] end.
Definition seat_channel (st : seat) : list Z :=
  match st with
  | Seated _ _ g => option_list (fst <$> stage_grant g)
  | Retiring channel => [channel]
  | Free => []
  end.
Definition seat_passed (st : seat) : list Z :=
  match st with Seated _ _ g => option_list (snd <$> stage_grant g) | _ => [] end.

(** Descriptors a seat has been granted are descriptors. *)
Definition seat_sound (st : seat) : Prop := Forall (fun fd => 0 <= fd) (seat_passed st).

Record settles (i : nat) (t : list broker_event) (st : seat) : Prop := {
  settles_sockets : sockets_in i t ≡ₚ seat_socket st ++ sockets_out i t;
  settles_channels : channels_in i t ≡ₚ seat_channel st ++ channels_out i t;
  settles_passed : passed_in i t ≡ₚ seat_passed st ++ passed_out i t;
  settles_sound : seat_sound st;
}.

Lemma stage_next_grant timeout g e g' :
  stage_next timeout g e = Some g' ->
  match e with
  | Decided _ status grant => stage_grant g = None /\ stage_grant g' = grant /\ Forall (fun fd => 0 <= fd) (option_list (snd <$> grant))
  | _ => stage_grant g' = stage_grant g
  end.
Proof.
  destruct g as [got|status grant sent|channel passed], e; simpl; intros E; try done.
  - by case_match; simplify_eq.
  - destruct (decision_allowed _ _ _) eqn:Ed; simplify_eq. split_and!; [done..|]. unfold decision_allowed in Ed.
    destruct grant as [[ch fd]|]; simpl; [|constructor]. constructor; [|constructor].
    destruct (Z.leb_spec 0 fd); [done|]. by rewrite andb_false_r in Ed.
  - destruct (_ && _); simplify_eq. destruct grant as [[ch fd]|]; [|done]. by destruct (_ =? _).
Qed.

Lemma settles_step timeout i t st e st' :
  settles i t st -> event_index e = Some i -> seat_next timeout st e = Some st' -> settles i (e :: t) st'.
Proof.
  intros [Hs Hc Hp Hd] He E.
  destruct e as [j socket token|socket b|j b|j status grant|j b given|j socket passed|j channel]; simpl in He; simplify_eq.
  - destruct st as [|? ? []|]; simpl in E; simplify_eq. split; cbn; rewrite ?decide_True by done; [by rewrite Hs|done|done|constructor].
  - destruct st as [|token socket g|]; simpl in E; [done| |done]. apply fmap_Some in E as (g' & Eg & ->).
    apply stage_next_grant in Eg. unfold seat_sound, seat_passed, seat_channel in *. rewrite <-Eg in *. by split.
  - destruct st as [|token socket g|]; simpl in E; [done| |done]. apply fmap_Some in E as (g' & Eg & ->).
    apply stage_next_grant in Eg as (Eg & Eg' & Hfd). unfold seat_sound, seat_passed, seat_channel in *. rewrite Eg in *.
    split; cbn; rewrite ?decide_True by done; unfold seat_sound; cbn; rewrite ?Eg'; [done| | |done].
    + destruct grant as [[ch fd]|]; simpl in *; by rewrite Hc.
    + destruct grant as [[ch fd]|]; simpl in *; by rewrite Hp.
  - destruct st as [|token socket g|]; simpl in E; [done| |done]. apply fmap_Some in E as (g' & Eg & ->).
    apply stage_next_grant in Eg. unfold seat_sound, seat_passed, seat_channel in *. rewrite <-Eg in *. by split.
  - destruct st as [|token socket' g|]; simpl in E; [done| |done]. case_match eqn:Eg; [|done]. simplify_eq.
    apply andb_true_iff in Eg as [->%Z.eqb_eq ->%Z.eqb_eq]. unfold seat_sound, seat_passed, seat_channel in *.
    destruct (stage_grant g) as [[ch fd]|]; simpl in *.
    + assert (0 <= fd) as Hfd by (by apply Forall_cons in Hd as [? _]).
      split; cbn; rewrite ?decide_True by done; [done|done| |constructor].
      destruct (Z.leb_spec 0 fd); [|lia]. done.
    + split; cbn; rewrite ?decide_True by done; [done|done|done|constructor].
  - destruct st as [|token socket g|ch]; simpl in E; [done| |].
    + apply fmap_Some in E as (g' & Eg & ->). by destruct g.
    + case_match eqn:Ech; [|done]. simplify_eq. apply Z.eqb_eq in Ech as ->.
      split; cbn; rewrite ?decide_True by done; [done|by rewrite Hc|done|constructor].
Qed.

Lemma settles_other i t st e : settles i t st -> event_index e <> Some i -> settles i (e :: t) st.
Proof.
  intros [Hs Hc Hp Hd] He. destruct e; simpl in He; split; cbn; try done; by rewrite decide_False by congruence.
Qed.

Lemma seat_settles timeout i t st : seat_after timeout i t = Some st -> settles i t st.
Proof.
  revert st. induction t as [|e t IH]; intros st E; simpl in E; [simplify_eq; split; try done; constructor|].
  destruct (seat_after timeout i t) as [st0|]; [|done]. simpl in E. specialize (IH st0 eq_refl).
  case_bool_decide; [by eapply settles_step|]. simplify_eq. by apply settles_other.
Qed.

(** Everything the slots ever had was let go of, once. *)
Definition all_released (t : list broker_event) : Prop :=
  forall i, sockets_in i t ≡ₚ sockets_out i t /\ channels_in i t ≡ₚ channels_out i t /\ passed_in i t ≡ₚ passed_out i t.

Lemma drained_released `{BrokerSys} timeout s :
  ok timeout [] s -> vacated s -> pending (broker s) = 0%nat -> all_released (btrace s).
Proof.
  intros Hok Hv Hp i. destruct (seat_settles timeout i (btrace s) Free) as [? ? ? _]; [|by split_and!].
  by apply (drained_free timeout s).
Qed.

(** * Tokens *)

(** The serial number above the index; [max_clients] is at most 4096. *)
Lemma slot_token_sum n i :
  0 <= n -> (i < 4096)%nat -> slot_token n i = (n mod 2 ^ 48) * 2 ^ 16 + (Z.of_nat i + 2).
Proof.
  intros Hn Hi. unfold slot_token, u64.
  assert (Z.shiftl n 16 mod 2 ^ 64 = Z.shiftl (n mod 2 ^ 48) 16) as ->.
  { rewrite !Z.shiftl_mul_pow2 by lia. change (2 ^ 64) with (2 ^ 48 * 2 ^ 16). by rewrite Z.mul_mod_distr_r by lia. }
  rewrite lor_disjoint by lia. done.
Qed.

Lemma slot_token_index n i :
  0 <= n -> (i < 4096)%nat -> u64 (Z.land (slot_token n i) 0xffff - 2) = Z.of_nat i.
Proof.
  intros Hn Hi. rewrite slot_token_sum by done. change 0xffff with (Z.ones 16). rewrite Z.land_ones by lia.
  rewrite Z.add_comm, Z_mod_plus_full, Z.mod_small by lia. unfold u64. rewrite Z.mod_small; lia.
Qed.

Lemma slot_token_serial n m i :
  0 <= n < 2 ^ 48 -> 0 <= m < 2 ^ 48 -> (i < 4096)%nat -> slot_token n i = slot_token m i -> n = m.
Proof. intros Hn Hm Hi. rewrite !slot_token_sum by lia. rewrite !Z.mod_small by lia. lia. Qed.

Definition arrivals (t : list broker_event) : Z :=
  len (List.filter (fun e => match e with Accepted _ _ _ => true | _ => false end) t).

Lemma arrivals_cons e t :
  arrivals (e :: t) = match e with Accepted _ _ _ => 1 | _ => 0 end + arrivals t.
Proof. unfold arrivals, len. destruct e; simpl; lia. Qed.

Lemma arrivals_nonneg t : 0 <= arrivals t.
Proof. apply len_nonneg. Qed.

Lemma tokens_serial n t : tokens_ok n t -> arrivals t < 2 ^ 64 -> n = arrivals t.
Proof.
  revert n. induction t as [|e t IH]; intros n Hn Ha; [exact Hn|]. rewrite arrivals_cons in *.
  destruct e; simpl in *; try (by apply IH). destruct Hn as (m & -> & _ & Hm). pose proof (arrivals_nonneg t).
  rewrite (IH m Hm) by lia. unfold u64. rewrite Z.mod_small by lia. lia.
Qed.

Lemma tokens_ok_tail n e t : tokens_ok n (e :: t) -> exists m, tokens_ok m t.
Proof. destruct e; simpl; [intros (m & _ & _ & Hm); by exists m|..]; intros Hn; by exists n. Qed.

Lemma tokens_shape n t1 t2 i fd token :
  tokens_ok n (t1 ++ Accepted i fd token :: t2) -> exists m, 0 <= m /\ token = slot_token m i.
Proof.
  revert n. induction t1 as [|e t1 IH]; intros n Hn.
  - destruct Hn as (m & -> & -> & _). exists (u64 (m + 1)). split; [apply Z.mod_pos_bound; lia|done].
  - destruct (tokens_ok_tail _ _ _ Hn) as [m Hm]. by eapply IH.
Qed.

(** The token of a client determines its arrival. *)
Lemma tokens_apart n t t1 t2 i fd fd' token :
  tokens_ok n t -> arrivals t < 2 ^ 48 -> (i < 4096)%nat ->
  t = t1 ++ Accepted i fd token :: t2 -> Accepted i fd' token ∉ t1.
Proof.
  revert n t1. induction t as [|e t IH]; intros n t1 Hn Ha Hi E; [by destruct t1|].
  assert (Hle : arrivals t <= arrivals (e :: t)) by (rewrite arrivals_cons; destruct e; lia).
  destruct t1 as [|e' t1]; [by intros Hin%elem_of_nil|]. simpl in E. injection E as <- E. intros [Hin|Hin]%elem_of_cons.
  - subst e. simpl in Hn. destruct Hn as (m & En & Et & Hm).
    assert (Hsplit : exists m', tokens_ok m' (Accepted i fd token :: t2) /\ arrivals (Accepted i fd token :: t2) <= arrivals t).
    { rewrite E in Hm |- *. clear -Hm. revert m Hm. induction t1 as [|e t1 IH]; intros m Hm; [exists m; by split|].
      destruct (tokens_ok_tail _ _ _ Hm) as [m' Hm'].
      destruct (IH m' Hm') as (k & Hk & Hle). exists k. split; [done|].
      simpl. rewrite (arrivals_cons e). destruct e; lia. }
    destruct Hsplit as (m' & Hm' & Hle'). pose proof (tokens_serial _ _ Hm' ltac:(lia)) as Em'.
    destruct Hm' as (m'' & _ & Et' & _).
    pose proof (arrivals_cons (Accepted i fd' token) t) as Earr. simpl in Earr.
    pose proof (tokens_serial _ _ Hm ltac:(lia)) as Em. subst m.
    pose proof (arrivals_nonneg t). pose proof (arrivals_nonneg (Accepted i fd token :: t2)).
    assert (En' : n = arrivals t + 1) by (rewrite En; unfold u64; apply Z.mod_small; lia).
    rewrite Et in Et'. apply slot_token_serial in Et'; lia.
  - destruct (tokens_ok_tail _ _ _ Hn) as [m Hm]. by eapply (IH m t1); try lia.
Qed.

Lemma seat_next_seated timeout st e token socket g :
  seat_next timeout st e = Some (Seated token socket g) ->
  (exists i, e = Accepted i socket token) \/
  ((exists g0, st = Seated token socket g0) /\ forall i socket' passed, e <> Left i socket' passed).
Proof.
  destruct st as [|k s g0|c]; simpl.
  - destruct e; try done. intros [= -> -> _]. left. by eexists.
  - destruct e as [| | | | |i s' p|]; simpl; intros E; try (apply fmap_Some in E as (g' & _ & [= <- <- _]); right; split; [by eexists|done]).
    destruct (_ && _); [|done]. by destruct (stage_grant g0) as [[? ?]|].
  - destruct e; try done. by destruct (_ =? _).
Qed.

(** The client of a seat came after the last that left. *)
Lemma seated_since timeout i t1 t0 token socket g socket' passed :
  seat_after timeout i (t1 ++ t0) = Some (Seated token socket g) -> Left i socket' passed ∈ t1 ->
  exists fd, Accepted i fd token ∈ t1.
Proof.
  revert token socket g. induction t1 as [|e t1 IH]; intros token socket g E Hin; [set_solver|].
  simpl in E. destruct (seat_after timeout i (t1 ++ t0)) as [st|] eqn:Est; [|done]. simpl in E.
  assert (Hrest : forall g0, st = Seated token socket g0 -> e <> Left i socket' passed -> exists fd, Accepted i fd token ∈ e :: t1).
  { intros g0 -> He. destruct (IH _ _ _ eq_refl) as [fd ?]; [set_solver|]. exists fd. set_solver. }
  case_bool_decide as He.
  - apply seat_next_seated in E as [[j ->]|[[g0 ->] Hl]]; [simpl in He; simplify_eq; exists socket; set_solver|].
    by eapply Hrest.
  - simplify_eq. eapply Hrest; [done|]. by intros ->.
Qed.

(** * The theorems *)

Section Theorems.
Context `{BrokerSys} {Hlaws : BrokerLaws} (timeout : Z).

(** C14: whatever clients, the kernel and the connector do, and however the
    broker and its reaper interleave, the events of each slot follow the
    protocol: a client is read until it has sent eight bytes, a channel is
    created and its descriptor passed for the exact request only, once and with
    the first bytes of the response, which are sent in order; when the client
    leaves, its socket and the descriptor are closed, and its channel is
    destroyed before the slot serves another.  The slot is the state the
    protocol is in. *)
Theorem broker_refines_protocol turns s :
  started timeout s ->
  forall i, seat_after timeout i (btrace (broker_main turns s).2) =
    Some (default Free (slot_seat <$> slots (broker (broker_main turns s).2) !! i)).
Proof using Hlaws.
  intros Hs. pose proof (broker_main_ok timeout turns s Hs) as Hm. unfold bwp in Hm.
  destruct (broker_main turns s) as [ended s']. apply Hm.
Qed.

(** When the broker has ended and the reaper has worked off its queue,
    which takes it two actions per channel, each slot has let go of everything
    it ever had, once: every socket accepted was closed, every channel created
    destroyed, and every descriptor kept for a client closed. *)
Theorem broker_releases_all turns s s' count :
  started timeout s -> broker_main turns s = (true, s') -> (pending (broker s') <= count)%nat ->
  all_released (btrace (reaper_actions count s').2).
Proof using Hlaws.
  intros Hs E Hc. pose proof (broker_main_ok timeout turns s Hs) as Hm. unfold bwp in Hm. rewrite E in Hm.
  destruct Hm as [Hok Hv]. specialize (Hv eq_refl).
  pose proof (reaper_actions_ok timeout [] count s' Hok) as Hr. pose proof (reaper_actions_pending count s' Hv) as Hp.
  unfold bwp in Hr, Hp. destruct (reaper_actions count s') as [[] s2]. destruct Hr as [H2 _], Hp as [Hp V2].
  apply (drained_released timeout s2); [done|done|lia].
Qed.

(** C38: A scan at time [now] leaves no client whose handshake is overdue, and
    the deadline it gives the loop is at most the initial one and comes no later
    than the first handshake deadline of those that remain: the broker wakes
    before a handshake can overrun, and a client on a lease has no deadline. *)
Theorem handshake_bounded now deadline s :
  ok timeout [] s ->
  let '(deadline', s') := scan_slots now deadline (seq 0 (length (slots (broker s)))) s in
  deadline' <= deadline /\
  forall i slot, slots (broker s') !! i = Some slot -> in_time now deadline' slot.
Proof using Hlaws.
  intros Hok. pose proof (scan_slots_ok timeout now (seq 0 (length (slots (broker s)))) deadline s Hok) as Hs.
  unfold bwp in Hs. destruct (scan_slots _ _ _ _) as [deadline' s']. destruct Hs as (_ & Hn & Hd & Hi). split; [done|].
  intros i slot E Hsock. eapply Hi; [|exact E|exact Hsock]. apply elem_of_seq.
  pose proof (lookup_lt_Some _ _ _ (Hn i slot E Hsock)). lia.
Qed.

(** An event that was queued for a client that has left changes nothing,
    also when another client has taken the slot meanwhile, as long as fewer
    than 2^48 clients have come. *)
Theorem stale_event_ignored s t1 t2 i fd token e socket passed :
  ok timeout [] s -> (i < length (slots (broker s)) <= 4096)%nat -> arrivals (btrace s) < 2 ^ 48 ->
  btrace s = t1 ++ Accepted i fd token :: t2 -> Left i socket passed ∈ t1 -> bs_token e = token ->
  slot_event e s = (tt, s).
Proof.
  intros Hok Hcap Ha Et Hleft He. pose proof Hok as [_ _ Hseat _ Htok]. specialize (Hseat i).
  destruct Hcap as [Hi Hcap]. destruct (lookup_lt_is_Some_2 _ _ Hi) as [slot Ei]. rewrite Ei in Hseat.
  assert (Htoken : exists n, 0 <= n /\ token = slot_token n i) by (rewrite Et in Htok; by eapply tokens_shape).
  destruct Htoken as (n & Hn & Etok).
  unfold slot_event, mbind, B_bind, get_broker. rewrite He, Etok, slot_token_index, Nat2Z.id by lia.
  destruct (Z.leb_spec (Z.of_nat (length (slots (broker s)))) (Z.of_nat i)); [lia|]. rewrite (slot_at_lookup _ _ _ Ei).
  destruct (Slot.socket slot) as [fd'|] eqn:Es; [|done]. destruct (Z.eqb_spec (Slot.token slot) (slot_token n i)) as [Eq|]; [|done].
  exfalso. cbn in Hseat. unfold slot_seat in Hseat. rewrite Es, Eq, <-Etok, Et in Hseat.
  destruct (seated_since _ _ _ _ _ _ _ _ _ Hseat Hleft) as [fd'' Hin].
  eapply tokens_apart; [exact Htok|exact Ha| |exact Et|exact Hin]. lia.
Qed.

End Theorems.

(** * A world *)

(** A client asks, gets its channel, and the broker is stopped. *)
Definition example_token : Z := slot_token 1 0.

Definition example_broker_sys : BrokerSys := {|
  bworld := nat;
  br_accept n := (Some 5, n);
  br_receive _ capacity n :=
    ((if 0 <=? capacity then Fdpass.OK else Fdpass.ARGUMENT,
      Fdpass.Message (take (Z.to_nat capacity) Bootstrap.egress_bootstrap_request) [] false false false), n);
  br_send _ b _ n := ((Fdpass.OK, len b), n);
  br_deadline_after t n := (Some (Z.of_nat n + t), n);
  br_watch _ _ n := (true, n);
  br_modify _ n := (true, n);
  br_channel_create _ n := ((MAELYS_EGRESS_OK, (1, 7)), n);
  br_clock n := (Some (Z.of_nat n), n);
  br_loop_create n := (true, n);
  br_watch_own _ n := (true, n);
  br_loop_step _ n :=
    (Some [match n with
           | 0%nat => BrokerSignal 0 true false false
           | 1%nat => BrokerSignal example_token true false false
           | 2%nat => BrokerSignal example_token false true false
           | _ => BrokerSignal 1 true false false
           end], S n);
  br_connector_running n := (true, n);
  br_stop n := (false, n);
  br_reaper n := (0%nat, n);
  br_parent_identity n := (Some (FileIdentity 1 2 448 1000), n);
  br_unlink_same _ n := (true, n);
  br_identity_same a b := (device a =? device b) && (inode a =? inode b);
  br_euid := 1000;
|}.

#[local] Existing Instance example_broker_sys.

Lemma example_broker_laws : BrokerLaws.
Proof.
  split; simpl.
  - by intros w fd [= <-].
  - intros fd capacity w r E. destruct (Z.leb_spec 0 capacity); [|done]. injection E as <-.
    split; simpl; [unfold len; rewrite length_take; lia|apply Forall_take; byte_list|lia|constructor].
  - intros fd b right w n [= <-]. pose proof (len_nonneg b). lia.
  - by intros timeout w channel fd [= _ <-].
Qed.

Definition example_bstate : bstate :=
  BState (Broker 5000 1000 0 [Slot.reset_slot; Slot.reset_slot] [] None false false false MAELYS_EGRESS_ERR_IO true
            (FileIdentity 1 3 49536 1000) (FileIdentity 1 2 448 1000)) 0%nat [].

Lemma example_started : started 5000 example_bstate.
Proof. split_and!; try done. repeat constructor. Qed.

(** The whole run, latest first. *)
Example example_broker_run :
  let '(ended, s') := broker_main 5 example_bstate in
  ended = true /\ pending (broker s') = 2%nat /\
  btrace (reaper_actions 2 s').2 =
    [Destroyed 0 1; Left 0 5 7; Told 0 (Bootstrap.egress_bootstrap_response Bootstrap.OK 5000) (Some 7);
     Decided 0 Bootstrap.OK (Some (1, 7)); Heard 0 Bootstrap.egress_bootstrap_request; Accepted 0 5 example_token].
Proof. by vm_compute. Qed.

Lemma broker_refines_protocol_witness :
  seat_after 5000 0 (btrace (broker_main 3 example_bstate).2) = Some (Seated example_token 5 (Leased 1 7)).
Proof.
  rewrite (broker_refines_protocol (Hlaws := example_broker_laws) 5000 3 example_bstate example_started 0). by vm_compute.
Defined.

Lemma example_broker_ends : broker_main 5 example_bstate = (true, (broker_main 5 example_bstate).2).
Proof. by vm_compute. Qed.

Lemma example_broker_pending : (pending (broker (broker_main 5 example_bstate).2) <= 2)%nat.
Proof. vm_compute. lia. Qed.

Lemma broker_releases_all_witness :
  all_released (btrace (reaper_actions 2 (broker_main 5 example_bstate).2).2) /\
  channels_in 0 (btrace (reaper_actions 2 (broker_main 5 example_bstate).2).2) = [1].
Proof.
  split; [|by vm_compute].
  exact (broker_releases_all (Hlaws := example_broker_laws) 5000 5 example_bstate (broker_main 5 example_bstate).2 2
    example_started example_broker_ends example_broker_pending).
Defined.

Lemma example_broker_ok turns : ok 5000 [] (broker_main turns example_bstate).2.
Proof.
  pose proof (broker_main_ok (Hlaws := example_broker_laws) 5000 turns example_bstate example_started) as Hm.
  unfold bwp in Hm. destruct (broker_main turns example_bstate). apply Hm.
Qed.

Lemma handshake_bounded_witness :
  let s := (broker_main 1 example_bstate).2 in
  (let '(deadline', s') := scan_slots 1 51 (seq 0 (length (slots (broker s)))) s in
   deadline' <= 51 /\ forall i slot, slots (broker s') !! i = Some slot -> in_time 1 deadline' slot) /\
  Slot.deadline (slot_at 0 (broker s)) = 1001.
Proof.
  split; [|by vm_compute].
  exact (handshake_bounded (Hlaws := example_broker_laws) 5000 1 51 (broker_main 1 example_bstate).2 (example_broker_ok 1)).
Defined.

Definition example_departure : list broker_event :=
  [Left 0 5 7; Told 0 (Bootstrap.egress_bootstrap_response Bootstrap.OK 5000) (Some 7);
   Decided 0 Bootstrap.OK (Some (1, 7)); Heard 0 Bootstrap.egress_bootstrap_request].

Lemma stale_event_ignored_witness :
  slot_event (BrokerSignal example_token true true true) (broker_main 5 example_bstate).2 =
    (tt, (broker_main 5 example_bstate).2).
Proof.
  assert (Hcap : (0 < length (slots (broker (broker_main 5 example_bstate).2)) <= 4096)%nat)
    by (vm_compute; lia).
  assert (Ha : arrivals (btrace (broker_main 5 example_bstate).2) < 2 ^ 48) by (by vm_compute).
  assert (Et : btrace (broker_main 5 example_bstate).2 = example_departure ++ Accepted 0 5 example_token :: [])
    by (by vm_compute).
  exact (stale_event_ignored 5000 (broker_main 5 example_bstate).2 example_departure [] 0 5 example_token
    (BrokerSignal example_token true true true) 5 7 (example_broker_ok 5) Hcap Ha Et (list_elem_of_here _ _) eq_refl).
Defined.
