(* ===== verification/BrokerLife.v ===== *)
(** The life of a broker (src/channel_broker.c): its creation with the private
    Unix socket clients connect to, the run of its threads, and its destruction.

    The handles of the process are a list: releasing or using one that is not
    alive is a fault, as is waiting for a thread that does not end, and a program
    that faults has no result.  The thread of
    ChannelBroker.v runs between the creation and the join of the destruction;
    the calls on the file system and the remaining calls of maelys-system are
    the class [HostSys]. *)

From S2P Require Import Prelude Common Codec Config Policy Receipt Buffer Server Reactor ChannelServer ChannelBroker BrokerFacts BrokerTheorems.

(** What the broker holds; [SLOTS] is the array, [MEMORY] the structure. *)
Inductive handle := MEMORY | SLOTS | CONNECTOR | PARENT | LISTENER | WAKEUP | LOCK | CONDITION | REAPER | THREAD | LOOP.

#[export] Instance broker_handle_eq_dec : EqDecision handle.
Proof. solve_decision. Defined.

Record file_stat := FileStat {
  st_dev : Z;
  st_ino : Z;
  st_mode : Z;
  st_uid : Z;
  st_gid : Z;
}.

(** The answers of [maelys_sys_file_path_identity]. *)
Inductive path_answer := Found (i : file_identity) | Missing | Unreadable.

(** What the creation does to the file system, and what it read of the parent
    and of the socket. *)
Inductive deed :=
| Inspected (parent : file_stat)
| Bound (path : bytes)
| Placed (info : file_stat)
| Chowned (path : bytes) (group : Z)
| Chmodded (path : bytes) (mode : Z)
| Listening.

Class HostSys `{BrokerSys} := {
  h_calloc : bworld -> bool * bworld;
  h_realpath : bytes -> bworld -> option bytes * bworld;
  h_open_directory : bytes -> bworld -> bool * bworld;
  h_fstat : bworld -> option file_stat * bworld;
  h_groups_count : bworld -> Z * bworld;
  h_getgroups : Z -> bworld -> list Z * bworld;
  h_path_identity : bytes -> bworld -> path_answer * bworld;
  h_socket : bworld -> bool * bworld;
  h_bind : bytes -> bworld -> bool * bworld;
  h_fstatat : bytes -> bworld -> option file_stat * bworld;
  h_chown : bytes -> Z -> bworld -> bool * bworld;
  h_chmod : bytes -> Z -> bworld -> bool * bworld;
  h_listen : bworld -> bool * bworld;
  h_wakeup : bworld -> bool * bworld;
  h_mutex : bworld -> bool * bworld;
  h_condition : bworld -> bool * bworld;
  h_thread : handle -> bworld -> bool * bworld;
  h_egid : Z;
}.

(** Modes, in octal in the code. *)
Definition MODE_7777 : Z := 0xfff.
Definition MODE_0700 : Z := 0x1c0.
Definition MODE_2750 : Z := 0x5e8.
Definition MODE_0600 : Z := 0x180.
Definition MODE_0660 : Z := 0x1b0.

Definition S_ISDIR (mode : Z) : bool := Z.land mode 0xf000 =? 0x4000.
Definition S_ISSOCK (mode : Z) : bool := Z.land mode 0xf000 =? 0xc000.

(** The pointers of the structure: whether each holds a handle. *)
Record fields := Fields {
  f_parent : bool;
  f_listener : bool;
  f_wake : bool;
  f_lock : bool;
  f_condition : bool;
  f_reaper : bool;
  f_thread : bool;
  f_loop : bool;
}.

#[export] Instance eta_fields : Eta fields := fun f =>
  Fields (f_parent f) (f_listener f) (f_wake f) (f_lock f) (f_condition f) (f_reaper f) (f_thread f) (f_loop f).

(** The field of a handle; those the structure always has are left out. *)
Definition holds (f : fields) (h : handle) : bool :=
  match h with
  | PARENT => f_parent f | LISTENER => f_listener f | WAKEUP => f_wake f | LOCK => f_lock f
  | CONDITION => f_condition f | REAPER => f_reaper f | THREAD => f_thread f | LOOP => f_loop f
  | MEMORY | SLOTS | CONNECTOR => false
  end.

Definition set_field (h : handle) (b : bool) (f : fields) : fields :=
  match h with
  | PARENT => f <| f_parent := b |> | LISTENER => f <| f_listener := b |> | WAKEUP => f <| f_wake := b |>
  | LOCK => f <| f_lock := b |> | CONDITION => f <| f_condition := b |> | REAPER => f <| f_reaper := b |>
  | THREAD => f <| f_thread := b |> | LOOP => f <| f_loop := b |>
  | MEMORY | SLOTS | CONNECTOR => f
  end.

Definition no_fields : fields := Fields false false false false false false false false.

Section Life.
Context `{HS : HostSys}.

(** [ready] is the thread's local, [ended] whether it has returned. *)
Record life := Life {
  state : bstate;
  path_ : bytes;
  fields_ : fields;
  ready : bool;
  ended : bool;
  live : list handle;
  deeds : list deed;
}.

#[export] Instance eta_life : Eta life := fun l =>
  Life (state l) (path_ l) (fields_ l) (ready l) (ended l) (live l) (deeds l).

Definition L (A : Type) : Type := life -> option (A * life).

#[export] Instance L_ret : MRet L := fun A a l => Some (a, l).
#[export] Instance L_bind : MBind L := fun A C f x l => '(a, l') ← x l; f a l'.

Definition fault {A} : L A := fun _ => None.
Definition get : L life := fun l => Some (l, l).
Definition modify (f : life -> life) : L unit := fun l => Some (tt, f l).
Definition lift {A} (x : B A) : L A := fun l => let '(a, s) := x (state l) in Some (a, l <| state := s |>).
Definition lask {A} (f : bworld -> A * bworld) : L A := lift (bask f).
Definition do_ (d : deed) : L unit := modify (fun l => l <| deeds := d :: deeds l |>).

(** * Handles *)

Fixpoint remove_one (h : handle) (l : list handle) : option (list handle) :=
  match l with
  | [] => None
  | h' :: l => if decide (h = h') then Some l else (h' ::.) <$> remove_one h l
  end.

Definition obtain (h : handle) : L unit := modify (fun l => l <| live := h :: live l |>).

Definition release (h : handle) : L unit := fun l =>
  rest ← remove_one h (live l); Some (tt, l <| live := rest |>).

(** A handle a field of the structure points to, and its release through the
    field, which does nothing when the field is null. *)
Definition hold (h : handle) : L unit := obtain h;; modify (fun l => l <| fields_ := set_field h true (fields_ l) |>).

Definition let_go (h : handle) : L unit :=
  l ← get;
  (if holds (fields_ l) h then release h else mret tt);;
  modify (fun l => l <| fields_ := set_field h false (fields_ l) |>).

Definition uses (h : handle) : L unit := fun l => if decide (h ∈ live l) then Some (tt, l) else None.

(** [k] when the condition of the code holds, and a failure otherwise. *)
Definition require (b : bool) (k : L bool) : L bool := if b then k else mret false.
#[local] Notation "'need' b ; k" := (require b k) (at level 100, b at level 90, k at level 200, right associativity).

(** * The socket *)

Definition group_member (group : Z) : L bool :=
  if group =? h_egid then mret true
  else
    count ← lask h_groups_count;
    if count <=? 0 then mret false
    else
      allocated ← lask h_calloc;
      if negb allocated then mret false
      else
        groups ← lask (h_getgroups count);
        mret (existsb (fun g => g =? group) groups).

(** The checks of the parent, from its path to its identity. *)
Definition open_parent (parent : bytes) (k : file_stat -> L bool) : L bool :=
  canonical ← lask (h_realpath parent);
  need (bool_decide (canonical = Some parent));
  opened ← lask (h_open_directory parent);
  need opened;
  hold PARENT;;
  status ← lask h_fstat;
  match status with
  | None => mret false
  | Some st =>
      do_ (Inspected st);;
      need (S_ISDIR (st_mode st) && (st_uid st =? br_euid));
      let mode := Z.land (st_mode st) MODE_7777 in
      suitable ← (if mode =? MODE_0700 then mret true else if mode =? MODE_2750 then group_member (st_gid st) else mret false);
      need suitable;
      current ← lask br_parent_identity;
      match current with
      | None => mret false
      | Some i =>
          lift (set_broker (fun b => b <| parent_identity := i |>));;
          need ((device i =? st_dev st) && (inode i =? st_ino st));
          unchanged ← lift parent_unchanged;
          need unchanged; k st
      end
  end.

(** From the socket to its identity, which the broker then owns. *)
Definition bind_socket (k : L bool) : L bool :=
  l ← get;
  existing ← lask (h_path_identity (path_ l));
  match existing with
  | Found _ | Unreadable => mret false
  | Missing =>
      created ← lask h_socket;
      need created;
      hold LISTENER;;
      bound ← lask (h_bind (path_ l));
      need bound;
      do_ (Bound (path_ l));;
      unchanged ← lift parent_unchanged;
      need unchanged;
      current ← lask (h_path_identity (path_ l));
      match current with
      | Missing | Unreadable => mret false
      | Found i =>
          lift (set_broker (fun b => b <| identity := i |>));;
          need (S_ISSOCK (mode i) && (owner i =? br_euid));
          lift (set_broker (fun b => b <| owns_path := true |>));;
          k
      end
  end.

(** The socket's group, when it is not the parent's. *)
Definition give_group (mode : Z) (st info : file_stat) : L bool :=
  l ← get;
  if (mode =? MODE_2750) && negb (st_gid info =? st_gid st) then
    changed ← lask (h_chown (path_ l) (st_gid st));
    if changed : bool then do_ (Chowned (path_ l) (st_gid st));; mret true else mret false
  else mret true.

(** The group and the mode of the socket, before it listens. *)
Definition open_socket (leaf : bytes) (st : file_stat) : L bool :=
  l ← get;
  let mode := Z.land (st_mode st) MODE_7777 in
  status ← lask (h_fstatat leaf);
  match status with
  | None => mret false
  | Some info =>
      do_ (Placed info);;
      let i := identity (broker (state l)) in
      need ((st_dev info =? device i) && (st_ino info =? inode i));
      grouped ← give_group mode st info;
      need grouped;
      let access := if mode =? MODE_0700 then MODE_0600 else MODE_0660 in
      changed ← lask (h_chmod (path_ l) access);
      need changed;
      do_ (Chmodded (path_ l) access);;
      unchanged ← lift parent_unchanged;
      need unchanged;
      listening ← lask h_listen;
      need listening;
      do_ Listening;; mret true
  end.

Definition create_listener : L bool :=
  l ← get;
  match last_index_of c_slash (path_ l) with
  | None => fault
  | Some O => mret false
  | Some slash =>
      open_parent (take slash (path_ l)) (fun st =>
        bind_socket (open_socket (drop (S slash) (path_ l)) st))
  end.

(** * The threads *)

Definition thread_arm : L bool :=
  uses LISTENER;; uses WAKEUP;;
  '(created, watched) ← lift broker_arm;
  (if created : bool then hold LOOP else mret tt);;
  modify (fun l => l <| ready := watched |>);;
  mret watched.

(** The thread from its announcement on, for [turns] turns of its loop or to its
    end. *)
Definition thread_run (turns : nat) : L unit :=
  l ← get;
  if ended l then mret tt
  else
    (if ready l then uses LOOP;; uses CONNECTOR else mret tt);; uses SLOTS;; uses LOCK;; uses CONDITION;;
    stopped ← lift (if ready l then broker_loop turns true else mret true);
    if stopped : bool then
      lift drop_all;;
      let_go LOOP;;
      let_go LISTENER;;
      lift broker_close;;
      modify (fun l => l <| ended := true |>)
    else mret tt.

(** The joins: what is left for the thread to do, which has been told to stop,
    within one more turn of its loop, and for the reaper, which works its queue
    off.  A join that would wait longer is a fault. *)
Definition thread_join : L unit :=
  thread_run 1;;
  l ← get;
  if ended l then let_go THREAD else fault.

Definition reaper_join : L unit :=
  uses LOCK;; uses CONDITION;; uses SLOTS;;
  lift (b ← get_broker; reaper_actions (pending b));;
  let_go REAPER.

(** * The operations *)

Definition maelys_egress_channel_broker_destroy (present : bool) : L maelys_egress_result_t :=
  if negb present then mret MAELYS_EGRESS_OK
  else
    l ← get;
    (if f_thread (fields_ l) then
       uses WAKEUP;; lift (set_broker (fun b => b <| stopping := true |>));; thread_join
     else mret tt);;
    l ← get;
    (if f_reaper (fields_ l) then uses LOCK;; uses CONDITION;; lift stop_reaper;; reaper_join else mret tt);;
    let_go LISTENER;;
    lift remove_path;;
    l ← get;
    let_go PARENT;;
    let_go WAKEUP;;
    let_go CONDITION;;
    let_go LOCK;;
    release CONNECTOR;;
    release SLOTS;;
    release MEMORY;;
    mret (result (broker (state l))).

Definition new_broker (connect_timeout_ms handshake_timeout_ms max_clients : Z) : maelys_egress_channel_broker :=
  Broker connect_timeout_ms handshake_timeout_ms 0 (replicate (Z.to_nat max_clients) Slot.reset_slot) [] None
    false false false MAELYS_EGRESS_ERR_IO false (FileIdentity 0 0 0 0) (FileIdentity 0 0 0 0).

Definition start_threads : L bool :=
  listening ← create_listener; need listening;
  woken ← lask h_wakeup; need woken;
  hold WAKEUP;;
  locked ← lask h_mutex; need locked;
  hold LOCK;;
  conditioned ← lask h_condition; need conditioned;
  hold CONDITION;;
  reaping ← lask (h_thread REAPER); need reaping;
  hold REAPER;;
  running ← lask (h_thread THREAD); need running;
  hold THREAD;;
  thread_arm.

Definition create_arguments (connector : bool) (path : bytes)
    (connect_timeout_ms handshake_timeout_ms max_clients : Z) : bool :=
  connector && Bootstrap.egress_bootstrap_path_valid path && (len path <? SUN_PATH_SIZE) &&
  negb (connect_timeout_ms =? 0) && (connect_timeout_ms <=? 600000) &&
  negb (handshake_timeout_ms =? 0) && (handshake_timeout_ms <=? 60000) &&
  negb (max_clients =? 0) && (max_clients <=? 4096).

(** The value is the result and whether the caller gets a broker. *)
Definition maelys_egress_channel_broker_create (connector : bool) (path : bytes)
    (connect_timeout_ms handshake_timeout_ms max_clients : Z) : L (maelys_egress_result_t * bool) :=
  if negb (create_arguments connector path connect_timeout_ms handshake_timeout_ms max_clients)
  then mret (MAELYS_EGRESS_ERR_ARGUMENT, false)
  else
    serving ← lask br_connector_running;
    if negb serving then mret (MAELYS_EGRESS_ERR_STATE, false)
    else
      allocated ← lask h_calloc;
      if negb allocated then mret (MAELYS_EGRESS_ERR_MEMORY, false)
      else
        obtain MEMORY;;
        allocated ← lask h_calloc;
        if negb allocated then release MEMORY;; mret (MAELYS_EGRESS_ERR_MEMORY, false)
        else
          obtain SLOTS;; obtain CONNECTOR;;
          lift (set_broker (fun _ => new_broker connect_timeout_ms handshake_timeout_ms max_clients));;
          modify (fun l => l <| path_ := path |> <| fields_ := no_fields |> <| ready := false |> <| ended := false |>);;
          started ← start_threads;
          if started : bool then mret (MAELYS_EGRESS_OK, true)
          else maelys_egress_channel_broker_destroy true;; mret (MAELYS_EGRESS_ERR_IO, false).

(** * Reasoning *)

Definition lwp {A} (x : L A) (l : life) (P : A -> life -> Prop) : Prop :=
  exists a l', x l = Some (a, l') /\ P a l'.

Lemma lwp_mono {A} (x : L A) l (P Q : A -> life -> Prop) :
  lwp x l P -> (forall a l', P a l' -> Q a l') -> lwp x l Q.
Proof. intros (a & l' & E & HP) HQ. exists a, l'. by auto. Qed.

Lemma lwp_bind {A C} (x : L A) (f : A -> L C) l (P : C -> life -> Prop) :
  lwp x l (fun a l' => lwp (f a) l' P) -> lwp (x ≫= f) l P.
Proof. intros (a & l' & E & c & l2 & E2 & HP). exists c, l2. split; [|done]. unfold mbind, L_bind. simpl. by rewrite E. Qed.

Lemma lwp_ret {A} (a : A) l (P : A -> life -> Prop) : P a l -> lwp (mret a) l P.
Proof. intros HP. by exists a, l. Qed.

Lemma lwp_get l (P : life -> life -> Prop) : P l l -> lwp get l P.
Proof. intros HP. by exists l, l. Qed.

Lemma lwp_modify f l (P : unit -> life -> Prop) : P tt (f l) -> lwp (modify f) l P.
Proof. intros HP. by exists tt, (f l). Qed.

Lemma lwp_lift {A} (x : B A) l (P : A -> life -> Prop) :
  bwp x (state l) (fun a s => P a (l <| state := s |>)) -> lwp (lift x) l P.
Proof. unfold bwp, lwp, lift. destruct (x (state l)) as [a s]. intros HP. by eexists _, _. Qed.

Lemma lwp_ask {A} (f : bworld -> A * bworld) l (P : A -> life -> Prop) :
  (forall a w, P a (l <| state := state l <| the_bworld := w |> |>)) -> lwp (lask f) l P.
Proof. intros HP. apply lwp_lift, bwp_ask. apply HP. Qed.

Lemma lwp_unchanged l (P : bool -> life -> Prop) :
  (forall a w, P a (l <| state := state l <| the_bworld := w |> |>)) -> lwp (lift parent_unchanged) l P.
Proof. intros HP. apply lwp_lift. unfold parent_unchanged. bstep. bstep. bstep. bstep. bstep. apply HP. Qed.

Lemma lwp_require b k l (P : bool -> life -> Prop) :
  (b = true -> lwp k l P) -> (b = false -> P false l) -> lwp (require b k) l P.
Proof. destruct b; intros H1 H2; [by apply H1|apply lwp_ret; by apply H2]. Qed.

Lemma lwp_uses h l (P : unit -> life -> Prop) : h ∈ live l -> P tt l -> lwp (uses h) l P.
Proof. intros Hin HP. exists tt, l. unfold uses. by rewrite decide_True. Qed.

Lemma remove_one_found h l : h ∈ l -> exists rest, remove_one h l = Some rest /\ l ≡ₚ h :: rest.
Proof.
  induction l as [|h' l IH]; intros Hin; [by apply elem_of_nil in Hin|]. simpl.
  destruct (decide (h = h')) as [<-|Hne]; [by eexists|].
  apply elem_of_cons in Hin as [?|Hin]; [done|]. destruct (IH Hin) as (rest & -> & Hp). exists (h' :: rest).
  split; [done|]. rewrite Hp. by constructor.
Qed.

Lemma lwp_release h rest l (P : unit -> life -> Prop) :
  live l ≡ₚ h :: rest -> (forall rest', rest' ≡ₚ rest -> P tt (l <| live := rest' |>)) -> lwp (release h) l P.
Proof.
  intros Hl HP. destruct (remove_one_found h (live l)) as (rest' & E & Hp); [rewrite Hl; by left|].
  exists tt, (l <| live := rest' |>). split; [unfold release; by rewrite E|]. apply HP.
  rewrite Hl in Hp. by apply (Permutation_cons_inv (a := h)) in Hp.
Qed.

(** * The handles of a structure *)

Definition held_if (b : bool) (h : handle) : list handle := if b then [h] else [].
Definition held (f : fields) : list handle :=
  held_if (f_parent f) PARENT ++ held_if (f_listener f) LISTENER ++ held_if (f_wake f) WAKEUP ++
  held_if (f_lock f) LOCK ++ held_if (f_condition f) CONDITION ++ held_if (f_reaper f) REAPER ++
  held_if (f_thread f) THREAD ++ held_if (f_loop f) LOOP.

(** The process has the handles of the structure and those of [base]. *)
Definition owns (base : list handle) (l : life) : Prop := live l ≡ₚ held (fields_ l) ++ base.

Lemma held_elem f h : holds f h = true -> h ∈ held f.
Proof.
  destruct f; destruct h; simpl; intros E; try discriminate E; subst; unfold held; simpl;
    rewrite ?elem_of_app, ?elem_of_cons, ?elem_of_app; tauto.
Qed.

(** The handles that are fields of their own. *)
Definition is_field (h : handle) : bool := match h with MEMORY | SLOTS | CONNECTOR => false | _ => true end.

Lemma held_set_true f h : is_field h = true -> holds f h = false -> held (set_field h true f) ≡ₚ h :: held f.
Proof.
  destruct f; destruct h; simpl; intros Hf E; try discriminate Hf; subst; unfold held; simpl; solve_Permutation.
Qed.

Lemma held_set_false f h : holds f h = true -> held f ≡ₚ h :: held (set_field h false f).
Proof.
  destruct f; destruct h; simpl; intros E; try discriminate E; subst; unfold held; simpl; solve_Permutation.
Qed.

Lemma lwp_hold base h l (P : unit -> life -> Prop) :
  is_field h = true -> holds (fields_ l) h = false -> owns base l ->
  (let l' := l <| live := h :: live l |> <| fields_ := set_field h true (fields_ l) |> in owns base l' -> P tt l') ->
  lwp (hold h) l P.
Proof.
  intros Hf Hh Ho HP. unfold hold, obtain. apply lwp_bind, lwp_modify, lwp_modify, HP.
  unfold owns in *. simpl. by rewrite (held_set_true _ _ Hf Hh), Ho.
Qed.

Lemma set_field_same f h : holds f h = false -> set_field h false f = f.
Proof. destruct f; destruct h; simpl; intros E; by subst. Qed.

Lemma lwp_let_go base h l (P : unit -> life -> Prop) :
  owns base l ->
  (forall rest, let l' := l <| live := rest |> <| fields_ := set_field h false (fields_ l) |> in
    owns base l' -> P tt l') ->
  lwp (let_go h) l P.
Proof.
  intros Ho HP. unfold let_go. apply lwp_bind, lwp_get, lwp_bind. destruct (holds (fields_ l) h) eqn:Eh.
  - apply (lwp_release _ (held (set_field h false (fields_ l)) ++ base)).
    + unfold owns in Ho. by rewrite Ho, (held_set_false _ _ Eh).
    + intros rest Hr. apply lwp_modify, HP. exact Hr.
  - apply lwp_ret, lwp_modify. specialize (HP (live l)). destruct l; apply HP. unfold owns in *. simpl in *.
    by rewrite (set_field_same _ _ Eh).
Qed.

Lemma owns_uses base l h : owns base l -> holds (fields_ l) h = true \/ h ∈ base -> h ∈ live l.
Proof. unfold owns. intros -> [Hh|Hh]; apply elem_of_app; [left; by apply held_elem|by right]. Qed.

(** * The socket *)

Section Socket.
Context (timeout : Z) (base : list handle) (l0 : life).

(** A broker in the making: it has at most the parent and the listener, and the
    threads find it as [started]. *)
Record preparing (l : life) : Prop := {
  pr_owns : owns base l;
  pr_path : path_ l = path_ l0;
  pr_thread : ready l = ready l0 /\ ended l = ended l0;
  pr_fields : exists p q, fields_ l = Fields p q false false false false false false;
  pr_started : started timeout (state l);
}.

(** What listening takes: a parent directory of the user's own that nobody else,
    or only a group of the process, can enter; the socket bound in it, given to
    that group, and with the matching mode, all before it listens. *)
Definition granted (path : bytes) (b : maelys_egress_channel_broker) (d : list deed) : Prop :=
  exists st info access group,
    d = Listening :: Chmodded path access :: group ++ [Placed info; Bound path; Inspected st] /\
    S_ISDIR (st_mode st) = true /\ st_uid st = br_euid /\
    device (parent_identity b) = st_dev st /\ inode (parent_identity b) = st_ino st /\
    S_ISSOCK (mode (identity b)) = true /\ owner (identity b) = br_euid /\
    device (identity b) = st_dev info /\ inode (identity b) = st_ino info /\
    (Z.land (st_mode st) MODE_7777 = MODE_0700 /\ access = MODE_0600 /\ group = [] \/
     Z.land (st_mode st) MODE_7777 = MODE_2750 /\ access = MODE_0660 /\
     (group = [Chowned path (st_gid st)] \/ group = [] /\ st_gid info = st_gid st)).

Definition settled (listening : bool) (l : life) : Prop :=
  preparing l /\
  (listening = true -> f_listener (fields_ l) = true /\ owns_path (broker (state l)) = true) /\
  exists d, deeds l = d ++ deeds l0 /\
    if listening then granted (path_ l0) (broker (state l)) d else Listening ∉ d.

Lemma preparing_world l w : preparing l -> preparing (l <| state := state l <| the_bworld := w |> |>).
Proof. by intros []. Qed.

Lemma preparing_deed l d : preparing l -> preparing (l <| deeds := d |>).
Proof. by intros []. Qed.

Lemma settled_failure l d :
  preparing l -> deeds l = d ++ deeds l0 -> Listening ∉ d -> settled false l.
Proof. intros Hp Ed Hd. split; [done|]. split; [done|]. by exists d. Qed.

#[local] Ltac prepared := repeat first [apply preparing_world | apply preparing_deed]; done.
(** A failure after the deeds [d]. *)
#[local] Ltac fails Ed d :=
  apply (settled_failure _ d); [prepared|simpl; rewrite ?Ed, <-?app_assoc; done|
    repeat first [apply not_elem_of_cons; split; [done|] | apply not_elem_of_app; split; [done|]];
    apply not_elem_of_nil].

Lemma give_group_ok mode st info l (P : bool -> life -> Prop) :
  (forall w, P false (l <| state := state l <| the_bworld := w |> |>)) ->
  (forall w group,
    mode = MODE_2750 /\ group = [Chowned (path_ l) (st_gid st)] \/
    group = [] /\ (mode = MODE_2750 -> st_gid info = st_gid st) ->
    P true (l <| state := state l <| the_bworld := w |> |> <| deeds := group ++ deeds l |>)) ->
  lwp (give_group mode st info) l P.
Proof.
  intros Hf Ht. unfold give_group. apply lwp_bind, lwp_get.
  destruct (Z.eqb_spec mode MODE_2750) as [->|Hne]; [destruct (Z.eqb_spec (st_gid info) (st_gid st)) as [E|E]|];
    cbn [andb negb].
  - apply lwp_ret. specialize (Ht (the_bworld (state l)) [] (or_intror (conj eq_refl (fun _ => E)))).
    by destruct l as [[]].
  - apply lwp_bind, lwp_ask. intros [] w; [|apply lwp_ret, Hf].
    apply lwp_bind, lwp_modify, lwp_ret. by apply (Ht w [Chowned (path_ l) (st_gid st)]); left.
  - apply lwp_ret. specialize (Ht (the_bworld (state l)) [] (or_intror (conj eq_refl (fun E => False_ind _ (Hne E))))).
    by destruct l as [[]].
Qed.

Lemma open_socket_ok leaf st l :
  preparing l -> f_listener (fields_ l) = true -> owns_path (broker (state l)) = true ->
  deeds l = [Bound (path_ l0); Inspected st] ++ deeds l0 ->
  S_ISDIR (st_mode st) = true -> st_uid st = br_euid ->
  device (parent_identity (broker (state l))) = st_dev st -> inode (parent_identity (broker (state l))) = st_ino st ->
  S_ISSOCK (mode (identity (broker (state l)))) = true -> owner (identity (broker (state l))) = br_euid ->
  Z.land (st_mode st) MODE_7777 = MODE_0700 \/ Z.land (st_mode st) MODE_7777 = MODE_2750 ->
  lwp (open_socket leaf st) l settled.
Proof.
  intros Hp Hf Ho Ed Hdir Huid Hpd Hpi Hsock Howner Hmode. unfold open_socket.
  pose proof (pr_path _ Hp) as Epath.
  apply lwp_bind, lwp_get, lwp_bind, lwp_ask. intros [info|] w1; [|apply lwp_ret; fails Ed [Bound (path_ l0); Inspected st]].
  apply lwp_bind, lwp_modify, lwp_require; [intros [Hd Hi]%andb_true_iff|intros _; fails Ed [Placed info; Bound (path_ l0); Inspected st]].
  set (seen := [Placed info; Bound (path_ l0); Inspected st]).
  apply lwp_bind, give_group_ok; [intros w2; apply lwp_require; [done|intros _; fails Ed seen]|].
  cbn [path_]. intros w2 group Hgroup. assert (Hsil : Listening ∉ group).
  { destruct Hgroup as [[_ ->]|[-> _]]; [|apply not_elem_of_nil]. by intros Hin%list_elem_of_singleton. }
  apply lwp_require; [intros _|done]. apply lwp_bind, lwp_ask. intros changed w3.
  apply lwp_require; [intros _|intros _; fails Ed (group ++ seen)]. apply lwp_bind, lwp_modify, lwp_bind, lwp_unchanged.
  set (access := if _ =? MODE_0700 then _ else _). intros unchanged w4.
  apply lwp_require; [intros _|intros _; fails Ed (Chmodded (path_ l) access :: group ++ seen)].
  apply lwp_bind, lwp_ask. intros listening w5.
  apply lwp_require; [intros _|intros _; fails Ed (Chmodded (path_ l) access :: group ++ seen)].
  apply lwp_bind, lwp_modify, lwp_ret. split; [prepared|]. split; [done|].
  exists (Listening :: Chmodded (path_ l) access :: group ++ seen). split; [simpl; rewrite Ed, <-app_assoc; done|].
  exists st, info, access, group. rewrite Epath. split_and!; try done; [apply Z.eqb_eq in Hd|apply Z.eqb_eq in Hi|]; [done|done|].
  unfold access. destruct Hmode as [E|E]; rewrite E in *; [left|right]; (split; [done|]; split; [done|]).
  - destruct Hgroup as [[[=] _]|[-> _]]; done.
  - destruct Hgroup as [[_ ->]|[-> Hg]]; [left; simpl; by rewrite Epath|right; auto].
Qed.

Lemma preparing_hold h l :
  preparing l -> h = PARENT \/ h = LISTENER ->
  owns base (l <| live := h :: live l |> <| fields_ := set_field h true (fields_ l) |>) ->
  preparing (l <| live := h :: live l |> <| fields_ := set_field h true (fields_ l) |>).
Proof.
  intros [_ Hpath Hth (p & q & Ef) Hs] Hh Ho. split; [done..| |done].
  simpl. rewrite Ef. destruct Hh as [->| ->]; by eexists _, _.
Qed.

Lemma preparing_broker l s :
  preparing l -> started timeout s -> preparing (l <| state := s |>).
Proof. by intros []. Qed.

Lemma bind_socket_ok st k l :
  preparing l -> f_listener (fields_ l) = false -> deeds l = [Inspected st] ++ deeds l0 ->
  (forall l1, preparing l1 -> f_listener (fields_ l1) = true -> owns_path (broker (state l1)) = true ->
    deeds l1 = [Bound (path_ l0); Inspected st] ++ deeds l0 ->
    parent_identity (broker (state l1)) = parent_identity (broker (state l)) ->
    S_ISSOCK (mode (identity (broker (state l1)))) = true -> owner (identity (broker (state l1))) = br_euid ->
    lwp k l1 settled) ->
  lwp (bind_socket k) l settled.
Proof.
  intros Hp Hf Ed Hk. unfold bind_socket. pose proof (pr_path _ Hp) as Epath.
  apply lwp_bind, lwp_get, lwp_bind, lwp_ask. intros [i| |] w1; try (apply lwp_ret; fails Ed [Inspected st]).
  apply lwp_bind, lwp_ask. intros created w2. apply lwp_require; [intros _|intros _; fails Ed [Inspected st]].
  apply lwp_bind. eapply (lwp_hold base LISTENER); [done|done|exact (pr_owns _ Hp)|]. intros l1 Ho.
  assert (Hp1 : preparing l1) by (apply preparing_hold; [prepared|by right|done]).
  assert (Ed1 : deeds l1 = [Inspected st] ++ deeds l0) by done. assert (Hf1 : f_listener (fields_ l1) = true) by done.
  assert (Epar : parent_identity (broker (state l1)) = parent_identity (broker (state l))) by done.
  clearbody l1. clear Hp Hf Ed Ho. pose proof (pr_path _ Hp1) as Epath1.
  apply lwp_bind, lwp_ask. intros bound w3. apply lwp_require; [intros _|intros _; fails Ed1 [Inspected st]].
  apply lwp_bind, lwp_modify, lwp_bind, lwp_unchanged. intros unchanged w4. rewrite Epath.
  set (seen := [Bound (path_ l0); Inspected st]).
  apply lwp_require; [intros _|intros _; fails Ed1 seen].
  apply lwp_bind, lwp_ask. intros [i| |] w5; try (apply lwp_ret; fails Ed1 seen).
  apply lwp_bind, lwp_lift, bwp_set.
  apply lwp_require.
  - intros [Hsock Howner]%andb_true_iff. apply lwp_bind, lwp_lift, bwp_set. apply Hk; try done.
    + destruct Hp1. by split.
    + simpl. by rewrite Ed1.
    + by apply Z.eqb_eq.
  - intros _. apply (settled_failure _ seen); [by destruct Hp1|simpl; by rewrite Ed1|].
    repeat (apply not_elem_of_cons; split; [done|]); apply not_elem_of_nil.
Qed.

Lemma group_member_ok group l (P : bool -> life -> Prop) :
  (forall a w, P a (l <| state := state l <| the_bworld := w |> |>)) -> lwp (group_member group) l P.
Proof.
  intros HP. unfold group_member. destruct (group =? h_egid).
  - apply lwp_ret. specialize (HP true (the_bworld (state l))). by destruct l as [[]].
  - apply lwp_bind, lwp_ask. intros count w1. destruct (count <=? 0); [apply lwp_ret, HP|].
    apply lwp_bind, lwp_ask. intros [] w2; [|apply lwp_ret, HP]. apply lwp_bind, lwp_ask. intros groups w3. apply lwp_ret, HP.
Qed.

Lemma open_parent_ok parent k l :
  preparing l -> fields_ l = no_fields -> deeds l = deeds l0 ->
  (forall st l1, preparing l1 -> f_listener (fields_ l1) = false -> deeds l1 = [Inspected st] ++ deeds l0 ->
    S_ISDIR (st_mode st) = true -> st_uid st = br_euid ->
    device (parent_identity (broker (state l1))) = st_dev st -> inode (parent_identity (broker (state l1))) = st_ino st ->
    Z.land (st_mode st) MODE_7777 = MODE_0700 \/ Z.land (st_mode st) MODE_7777 = MODE_2750 ->
    lwp (k st) l1 settled) ->
  lwp (open_parent parent k) l settled.
Proof.
  intros Hp Hf Ed Hk. unfold open_parent. apply lwp_bind, lwp_ask. intros canonical w1.
  apply lwp_require; [intros _|intros _; fails Ed (@nil deed)].
  apply lwp_bind, lwp_ask. intros opened w2. apply lwp_require; [intros _|intros _; fails Ed (@nil deed)].
  apply lwp_bind. eapply (lwp_hold base PARENT); [done|simpl; by rewrite Hf|exact (pr_owns _ Hp)|]. intros l1 Ho.
  assert (Hp1 : preparing l1) by (apply preparing_hold; [prepared|by left|done]).
  assert (Ed1 : deeds l1 = deeds l0) by done. assert (Hf1 : f_listener (fields_ l1) = false) by (simpl; by rewrite Hf).
  clearbody l1. clear Hp Hf Ed Ho.
  apply lwp_bind, lwp_ask. intros [st|] w3; [|apply lwp_ret; fails Ed1 (@nil deed)].
  apply lwp_bind, lwp_modify. set (seen := [Inspected st]).
  apply lwp_require; [intros [Hdir Huid%Z.eqb_eq]%andb_true_iff|intros _; fails Ed1 seen].
  set (mode := Z.land (st_mode st) MODE_7777). apply lwp_bind.
  apply (lwp_mono _ _ (fun (suitable : bool) l2 => (suitable = true -> mode = MODE_0700 \/ mode = MODE_2750) /\
    exists w, l2 = l1 <| state := state l1 <| the_bworld := w |> |> <| deeds := seen ++ deeds l1 |>)).
  { destruct (Z.eqb_spec mode MODE_0700); [apply lwp_ret; split; [by left|by eexists]|].
    destruct (Z.eqb_spec mode MODE_2750); [|apply lwp_ret; split; [done|by eexists]].
    apply group_member_ok. intros a w. split; [by right|by eexists]. }
  intros suitable l2 [Hmode [w4 ->]]. apply lwp_require; [intros Hs|intros _; fails Ed1 seen].
  apply lwp_bind, lwp_ask. intros [i|] w5; [|apply lwp_ret; fails Ed1 seen].
  apply lwp_bind, lwp_lift, bwp_set.
  match goal with |- lwp _ ?x _ => assert (Hp2 : preparing x) by (by destruct Hp1) end.
  apply lwp_require; [intros [Hd%Z.eqb_eq Hi%Z.eqb_eq]%andb_true_iff|intros _; fails Ed1 seen].
  apply lwp_bind, lwp_unchanged. intros unchanged w6.
  apply lwp_require; [intros _|intros _; fails Ed1 seen].
  apply Hk; [prepared|done|simpl; by rewrite Ed1|done|done|done|done|by apply Hmode].
Qed.

Lemma create_listener_ok :
  owns base l0 -> started timeout (state l0) -> fields_ l0 = no_fields ->
  Bootstrap.egress_bootstrap_path_valid (path_ l0) = true ->
  lwp create_listener l0 settled.
Proof.
  intros Ho Hs Hf Hvalid. unfold create_listener. apply lwp_bind, lwp_get.
  assert (Hp : preparing l0) by (split; try done; rewrite Hf; by eexists _, _).
  destruct (last_index_of c_slash (path_ l0)) as [[|slash]|] eqn:Es.
  - apply lwp_ret. by fails I (@nil deed).
  - apply open_parent_ok; [done..|]. intros st l1 Hp1 Hf1 Ed1 Hdir Huid Hd Hi Hmode.
    eapply bind_socket_ok; [done..|]. intros l2 Hp2 Hf2 Ho2 Ed2 Epar Hsock Howner. rewrite <-Epar in Hd, Hi.
    by apply open_socket_ok.
  - exfalso. unfold Bootstrap.egress_bootstrap_path_valid in Hvalid. destruct (path_ l0) as [|x [|y path]]; [done..|].
    destruct (Z.eqb_spec x c_slash) as [->|]; [|done]. apply last_index_of_None in Es. apply Es. by left.
Qed.

End Socket.

(** * Destruction *)

Section Destroy.
Context {Hlaws : BrokerLaws} (timeout : Z) (base : list handle).

(** A broker from its allocation on: the fields the threads need, and what they
    have left when they do not run. *)
Record sound (l : life) : Prop := {
  so_owns : owns (CONNECTOR :: SLOTS :: MEMORY :: base) l;
  so_state : ok timeout [] (state l);
  so_idle : f_thread (fields_ l) = false \/ ended l = true -> vacated (state l) /\ f_loop (fields_ l) = false;
  so_reaper : f_reaper (fields_ l) = true -> f_lock (fields_ l) = true /\ f_condition (fields_ l) = true;
  so_no_reaper : f_reaper (fields_ l) = false -> pending (broker (state l)) = 0%nat;
  so_thread : f_thread (fields_ l) = true -> f_reaper (fields_ l) = true /\ f_wake (fields_ l) = true;
  so_running : f_thread (fields_ l) = true -> ended l = false -> ready l = true -> f_loop (fields_ l) = true;
}.

Lemma sound_uses l h (P : unit -> life -> Prop) :
  sound l -> holds (fields_ l) h = true \/ h ∈ CONNECTOR :: SLOTS :: MEMORY :: base -> P tt l -> lwp (uses h) l P.
Proof. intros Hs Hh HP. apply lwp_uses; [|done]. eapply owns_uses; [exact (so_owns _ Hs)|exact Hh]. Qed.

Lemma sound_state l s :
  sound l -> ok timeout [] s -> (vacated (state l) -> vacated s) ->
  pending (broker s) = pending (broker (state l)) -> sound (l <| state := s |>).
Proof.
  intros [Ho Hok Hi Hr Hn Ht Hrun] Hok' Hv Hp. split; simpl; try done.
  - intros E. destruct (Hi E). auto.
  - intros E. by rewrite Hp, Hn.
Qed.

Lemma remove_path_trace s : bwp remove_path s (fun _ s' => btrace s' = btrace s).
Proof.
  unfold remove_path. bstep. bstep. destruct (owns_path (broker s)); cbn [negb]; [|by bstep].
  bstep. unfold parent_unchanged. bstep. bstep. bstep. bstep. bstep. bstep.
  set (unchanged := match _ with Some _ => _ | None => _ end). destruct unchanged; bstep.
  - destruct (br_unlink_same _ _) as [[] w]; cbn [fst snd]; bstep; unfold fail_io; bstep; by bstep.
  - bstep. unfold fail_io. bstep. by bstep.
Qed.

Lemma bwp_conj {A} (x : B A) s (P Q : A -> bstate -> Prop) :
  bwp x s P -> bwp x s Q -> bwp x s (fun a s' => P a s' /\ Q a s').
Proof. unfold bwp. by destruct (x s). Qed.

(** A thread that was told to stop leaves its loop in its next turn. *)
Lemma broker_loop_stopped turns r s :
  stopping (broker s) = true -> (0 < turns)%nat -> bwp (broker_loop turns r) s (fun stopped _ => stopped = true).
Proof.
  intros Es Ht. destruct turns as [|turns]; [lia|]. cbn [broker_loop]. destruct r; cbn [negb]; [|by bstep].
  bstep. unfold load_stopping. bstep. bstep. destruct (br_stop _) as [asked w]; cbn [fst snd].
  bstep. bstep. bstep. bstep. bstep.
  match goal with |- bwp (if ?c then _ else _) _ _ => change c with (stopping (broker s) || asked) end.
  rewrite Es. cbn [orb]. by bstep.
Qed.

Lemma thread_run_ok turns l :
  sound l -> f_thread (fields_ l) = true ->
  lwp (thread_run turns) l (fun _ l' => sound l' /\ f_thread (fields_ l') = true /\
    (stopping (broker (state l)) = true -> (0 < turns)%nat -> ended l' = true)).
Proof using Hlaws.
  intros Hs Ht. unfold thread_run. apply lwp_bind, lwp_get. destruct (ended l) eqn:Ee; [by apply lwp_ret|].
  destruct (so_thread _ Hs Ht) as [Hr Hw]. destruct (so_reaper _ Hs Hr) as [Hlo Hc].
  apply lwp_bind. apply (lwp_mono _ _ (fun _ l' => l' = l)).
  { destruct (ready l) eqn:Er; [|by apply lwp_ret]. apply lwp_bind, (sound_uses l); [done| |].
    - left. by apply (so_running _ Hs).
    - apply (sound_uses l); [done|right; set_solver|done]. }
  intros _ _ ->. apply lwp_bind, (sound_uses l); [done|right; set_solver|].
  apply lwp_bind, (sound_uses l); [done|by left|]. apply lwp_bind, (sound_uses l); [done|by left|].
  apply lwp_bind, lwp_lift.
  apply (bwp_mono _ _ (fun stopped s => ok timeout [] s /\
    (stopping (broker (state l)) = true -> (0 < turns)%nat -> stopped = true))).
  { destruct (ready l); [|bstep; split; [exact (so_state _ Hs)|done]].
    pose proof (broker_loop_ok timeout turns true _ (so_state _ Hs)) as Hl.
    destruct (decide (stopping (broker (state l)) = true /\ (0 < turns)%nat)) as [[E1 E2]|Hno].
    - eapply bwp_mono; [exact (bwp_conj _ _ _ _ Hl (broker_loop_stopped turns true _ E1 E2))|]. naive_solver.
    - eapply bwp_mono; [exact Hl|]. intros a s Hok. split; [exact Hok|]. intros E1 E2. by destruct Hno. }
  intros [] s1 [Hok1 Hst].
  2:{ apply lwp_ret. destruct Hs as [Ho Hok Hi ? Hn ? ?]. split_and!; [|done|].
      - split; simpl; try done; [|by rewrite Hr]. intros [E|E]; congruence.
      - intros E1 E2. discriminate (Hst E1 E2). }
  apply lwp_bind, lwp_lift. eapply bwp_mono; [apply (drop_all_ok timeout _ Hok1)|]. intros [] s2 [Hok2 Hv2].
  apply lwp_bind. eapply lwp_let_go; [exact (so_owns _ Hs)|]. intros rest1 l1 Ho1.
  apply lwp_bind. eapply lwp_let_go; [exact Ho1|]. intros rest2 l2 Ho2.
  apply lwp_bind, lwp_lift. eapply bwp_mono; [apply (broker_close_ok timeout s2 Hok2 Hv2)|]. intros [] s3 (Hok3 & Hv3 & _).
  apply lwp_modify. split_and!; [|done|done]. destruct Hs as [_ _ _ Hre Hn Hth _].
  split; simpl; try done. simpl. by rewrite Hr.
Qed.

Lemma thread_join_ok l :
  sound l -> f_thread (fields_ l) = true -> stopping (broker (state l)) = true ->
  lwp thread_join l (fun _ l' => sound l' /\ f_thread (fields_ l') = false).
Proof using Hlaws.
  intros Hs Ht Est. unfold thread_join. apply lwp_bind. eapply lwp_mono; [by apply thread_run_ok|].
  intros [] l1 (Hs1 & Ht1 & He). apply lwp_bind, lwp_get. rewrite (He Est ltac:(lia)).
  eapply lwp_let_go; [exact (so_owns _ Hs1)|]. intros rest l2 Ho. split; [|done].
  destruct Hs1 as [_ Hok Hi Hr Hn Hth _]. destruct (Hth Ht1) as [Hr1 _].
  split; simpl; try done. intros _. apply Hi. right. by apply He; [|lia].
Qed.

Lemma reaper_join_ok l :
  sound l -> f_thread (fields_ l) = false -> f_reaper (fields_ l) = true ->
  lwp reaper_join l (fun _ l' => sound l' /\ f_thread (fields_ l') = false /\ f_reaper (fields_ l') = false).
Proof using Hlaws.
  intros Hs Ht Hr. unfold reaper_join. destruct (so_reaper _ Hs Hr) as [Hlo Hc].
  apply lwp_bind, (sound_uses l); [done|by left|]. apply lwp_bind, (sound_uses l); [done|by left|].
  apply lwp_bind, (sound_uses l); [done|right; set_solver|].
  destruct (so_idle _ Hs (or_introl Ht)) as [Hv Hlp].
  apply lwp_bind, lwp_lift. bstep. bstep.
  eapply bwp_mono; [exact (bwp_conj _ _ _ _ (reaper_actions_ok timeout [] _ _ (so_state _ Hs)) (reaper_actions_pending _ _ Hv))|].
  intros [] s1 [[Hok1 _] [Hp1 Hv1]]. eapply lwp_let_go; [exact (so_owns _ Hs)|]. intros rest l1 Ho.
  split_and!; [|done|done].
  split; simpl; try done; [intros _; rewrite Hp1; lia|intros; congruence..].
Qed.

Lemma lwp_let_go' base' h l (P : unit -> life -> Prop) :
  owns base' l ->
  (forall l', owns base' l' -> fields_ l' = set_field h false (fields_ l) -> state l' = state l -> P tt l') ->
  lwp (let_go h) l P.
Proof. intros Ho HP. eapply lwp_let_go; [exact Ho|]. intros rest l' Ho'. by apply HP. Qed.

Lemma destroy_ok l :
  sound l ->
  lwp (maelys_egress_channel_broker_destroy true) l (fun r l' => live l' ≡ₚ base /\
    owns_path (broker (state l')) = false /\ all_released (btrace (state l')) /\ r = result (broker (state l'))).
Proof using Hlaws.
  intros Hs. unfold maelys_egress_channel_broker_destroy. cbn [negb]. apply lwp_bind, lwp_get, lwp_bind.
  apply (lwp_mono _ _ (fun _ l1 => sound l1 /\ f_thread (fields_ l1) = false)).
  { destruct (f_thread (fields_ l)) eqn:Ht; [|by apply lwp_ret]. destruct (so_thread _ Hs Ht) as [_ Hw].
    apply lwp_bind, (sound_uses l); [done|by left|]. apply lwp_bind, lwp_lift, bwp_set.
    apply thread_join_ok; [|done|done]. apply sound_state; [done| |done|done].
    eapply inv_fields; [exact (so_state _ Hs)|done..]. }
  intros [] l1 [Hs1 Ht1]. apply lwp_bind, lwp_get, lwp_bind.
  apply (lwp_mono _ _ (fun _ l2 => sound l2 /\ f_thread (fields_ l2) = false /\ f_reaper (fields_ l2) = false)).
  { destruct (f_reaper (fields_ l1)) eqn:Hr; [|by apply lwp_ret]. destruct (so_reaper _ Hs1 Hr) as [Hlo Hc].
    apply lwp_bind, (sound_uses l1); [done|by left|]. apply lwp_bind, (sound_uses l1); [done|by left|].
    apply lwp_bind, lwp_lift. unfold stop_reaper. apply bwp_set. apply reaper_join_ok; [|done|done].
    apply sound_state; [done| |done|done]. eapply inv_fields; [exact (so_state _ Hs1)|done..]. }
  intros [] l2 (Hs2 & Ht2 & Hr2). destruct (so_idle _ Hs2 (or_introl Ht2)) as [Hv2 Hl2].
  pose proof (so_state _ Hs2) as Hok2. pose proof (drained_released timeout _ Hok2 Hv2 (so_no_reaper _ Hs2 Hr2)) as Hall.
  apply lwp_bind. eapply lwp_let_go'; [exact (so_owns _ Hs2)|]. intros l3 Ho3 Ef3 Es3.
  apply lwp_bind, lwp_lift. rewrite Es3.
  eapply bwp_mono; [exact (bwp_conj _ _ _ _ (remove_path_ok timeout _ Hok2 Hv2) (remove_path_trace _))|].
  intros [] s4 [(_ & _ & Hown) Etr]. apply lwp_bind, lwp_get.
  apply lwp_bind. eapply lwp_let_go'; [exact Ho3|]. intros l5 Ho5 Ef5 Es5.
  apply lwp_bind. eapply lwp_let_go'; [exact Ho5|]. intros l6 Ho6 Ef6 Es6.
  apply lwp_bind. eapply lwp_let_go'; [exact Ho6|]. intros l7 Ho7 Ef7 Es7.
  apply lwp_bind. eapply lwp_let_go'; [exact Ho7|]. intros l8 Ho8 Ef8 Es8.
  assert (Hheld : held (fields_ l8) = []).
  { rewrite Ef8, Ef7, Ef6, Ef5. simpl. rewrite Ef3. destruct (fields_ l2). simpl in *. by subst. }
  unfold owns in Ho8. rewrite Hheld in Ho8. simpl in Ho8.
  apply lwp_bind. eapply lwp_release; [exact Ho8|]. intros r1 Hr1.
  apply lwp_bind. eapply lwp_release; [exact Hr1|]. intros r2 Hr2'.
  apply lwp_bind. eapply lwp_release; [exact Hr2'|]. intros r3 Hr3. apply lwp_ret. simpl.
  rewrite Es8, Es7, Es6, Es5. simpl. rewrite Etr. split_and!; done.
Qed.

(** * Creation *)

Lemma preparing_sound l0 l :
  preparing timeout (CONNECTOR :: SLOTS :: MEMORY :: base) l0 l -> sound l.
Proof using Hlaws.
  intros [Ho _ _ (p & q & Ef) Hst]. pose proof Hst as (_ & _ & _ & Eq & Er & Hs).
  split; rewrite ?Ef; try done.
  - by apply started_ok.
  - intros _. split; [|done]. intros i slot E. rewrite Forall_lookup in Hs. by rewrite (Hs i slot E).
  - intros _. unfold pending. by rewrite Eq, Er.
Qed.

(** What holds of a broker whose thread is not yet running. *)
Definition idle (l : life) : Prop := sound l /\ f_thread (fields_ l) = false /\ ended l = false /\ ready l = false.

Lemma idle_world l w : idle l -> idle (l <| state := state l <| the_bworld := w |> |>).
Proof.
  intros [Hs ?]. split; [|done]. apply sound_state; [done| |done|done].
  eapply inv_fields; [exact (so_state _ Hs)|done..].
Qed.

Lemma idle_hold h l (P : unit -> life -> Prop) :
  idle l -> h ∈ [WAKEUP; LOCK; CONDITION; REAPER; THREAD] -> holds (fields_ l) h = false ->
  (h = REAPER -> f_lock (fields_ l) = true /\ f_condition (fields_ l) = true) ->
  (h = THREAD -> f_reaper (fields_ l) = true /\ f_wake (fields_ l) = true) ->
  (let l' := l <| live := h :: live l |> <| fields_ := set_field h true (fields_ l) |> in
   sound l' -> (h <> THREAD -> idle l') -> P tt l') ->
  lwp (hold h) l P.
Proof.
  intros (Hs & Ht & He & Hr) Hin Hh HR HT HP.
  apply (lwp_hold (CONNECTOR :: SLOTS :: MEMORY :: base)); [|done|exact (so_owns _ Hs)|].
  { revert Hin. clear. rewrite !elem_of_cons, elem_of_nil. naive_solver. }
  intros l' Ho. assert (Hs' : sound l').
  { destruct Hs as [_ Hok Hi Hre Hn Hth Hrun]. destruct (Hi (or_introl Ht)) as [Hv Hl].
    rewrite !elem_of_cons, elem_of_nil in Hin. destruct Hin as [->|[->|[->|[->|[->|[]]]]]];
      split; simpl in *; try done; naive_solver congruence. }
  apply HP; [done|]. intros Hne. split; [done|]. split; [|done].
  rewrite !elem_of_cons, elem_of_nil in Hin. destruct Hin as [->|[->|[->|[->|[->|[]]]]]]; done.
Qed.

(** The deeds of a creation that began at [l0], and the path it owns. *)
Definition public (l0 l : life) : Prop :=
  owns_path (broker (state l)) = true /\
  exists d, deeds l = d ++ deeds l0 /\ granted (path_ l0) (broker (state l)) d.

Definition came_up (l0 : life) (up : bool) (l : life) : Prop :=
  sound l /\ (up = true -> f_thread (fields_ l) = true /\ ready l = true /\ ended l = false /\ public l0 l).

Lemma broker_arm_frame s :
  bwp broker_arm s (fun '(created, watched) s' => (watched = true -> created = true) /\
    owns_path (broker s') = owns_path (broker s) /\ identity (broker s') = identity (broker s) /\
    parent_identity (broker s') = parent_identity (broker s)).
Proof.
  unfold broker_arm. bstep. bstep. destruct (br_loop_create _) as [[] w]; cbn [fst snd].
  - bstep. bstep. destruct (br_watch_own 0 _) as [[] w1]; cbn [fst snd].
    + bstep. bstep. bstep. bstep. by bstep.
    + bstep. bstep. bstep. bstep. by bstep.
  - bstep. bstep. bstep. bstep. bstep. bstep. by bstep.
Qed.

Lemma thread_arm_ok l0 l :
  sound l -> f_thread (fields_ l) = true -> f_listener (fields_ l) = true -> f_loop (fields_ l) = false ->
  ended l = false -> public l0 l ->
  lwp thread_arm l (came_up l0).
Proof using Hlaws.
  intros Hs Ht Hli Hlo He [Hpath (d & Ed & Hg)]. unfold thread_arm. destruct (so_thread _ Hs Ht) as [Hr Hw].
  apply lwp_bind, (sound_uses l); [done|by left|]. apply lwp_bind, (sound_uses l); [done|by left|].
  apply lwp_bind, lwp_lift.
  eapply bwp_mono; [exact (bwp_conj _ _ _ _ (broker_arm_ok timeout _ (so_state _ Hs)) (broker_arm_frame _))|].
  intros [created watched] s1 [Hok1 (Hcw & Eo & Ei & Ep)]. apply lwp_bind.
  assert (Hpub : forall l', state l' = s1 -> deeds l' = deeds l -> public l0 l').
  { intros l' E1 E2. split; [by rewrite E1, Eo|]. exists d. split; [by rewrite E2|].
    unfold granted. rewrite E1, Ei, Ep. exact Hg. }
  destruct Hs as [Ho _ Hi Hre Hn Hth Hrun]. destruct created.
  - eapply lwp_hold; [done|done|exact Ho|]. intros l2 Ho2. apply lwp_bind, lwp_modify, lwp_ret. split.
    + split; simpl; try done; [intros [E|E]; congruence|intros E; congruence].
    + intros ->. split_and!; try done. by apply Hpub.
  - apply lwp_ret, lwp_bind, lwp_modify, lwp_ret. split; [|intros E; discriminate (Hcw E)].
    split; simpl; try done; [intros [E|E]; congruence|intros E; congruence|].
    intros _ _ E. discriminate (Hcw E).
Qed.

(** A step of the creation: a call that may fail, and the handle it gives. *)
Lemma start_step l0 f h k l :
  idle l -> public l0 l -> h ∈ [WAKEUP; LOCK; CONDITION; REAPER; THREAD] -> holds (fields_ l) h = false ->
  (h = REAPER -> f_lock (fields_ l) = true /\ f_condition (fields_ l) = true) ->
  (h = THREAD -> f_reaper (fields_ l) = true /\ f_wake (fields_ l) = true) ->
  (forall l', sound l' -> (h <> THREAD -> idle l') -> fields_ l' = set_field h true (fields_ l) -> ended l' = false ->
    public l0 l' -> lwp k l' (came_up l0)) ->
  lwp (given ← lask f; require given (hold h;; k)) l (came_up l0).
Proof.
  intros Hi Hpub Hin Hh HR HT Hk. apply lwp_bind, lwp_ask. intros given w.
  apply lwp_require; [intros _|intros _; split; [by apply idle_world|done]].
  apply lwp_bind, idle_hold; [by apply idle_world|done..|]. intros l' Hs' Hi'. apply Hk; try done. by apply Hi.
Qed.

Lemma start_threads_ok l :
  owns (CONNECTOR :: SLOTS :: MEMORY :: base) l -> started timeout (state l) -> fields_ l = no_fields ->
  ready l = false -> ended l = false -> Bootstrap.egress_bootstrap_path_valid (path_ l) = true ->
  lwp start_threads l (came_up l).
Proof using Hlaws.
  intros Ho Hst Hf Hr He Hvalid. unfold start_threads. apply lwp_bind.
  eapply lwp_mono; [by apply create_listener_ok|]. intros listening l1 (Hp & Hup & d & Ed & Hd).
  pose proof (preparing_sound _ _ Hp) as Hs1. destruct Hp as [_ Epath [Er Ee] (p & q & Ef) _].
  apply lwp_require; [intros ->|done]. destruct (Hup eq_refl) as [Hli Hown]. clear Hup.
  assert (Hpub : public l l1) by (split; [done|by exists d]). rewrite Ef in Hli. simpl in Hli. subst q.
  assert (Hi1 : idle l1) by (split_and!; [done|by rewrite Ef|congruence|congruence]).
  apply start_step; [done|done|set_solver|by rewrite Ef|done|done|]. rewrite Ef. simpl. intros l2 _ Hi2 Ef2 _ P2.
  apply start_step; [by apply Hi2|done|set_solver|by rewrite Ef2|done|done|]. rewrite Ef2. simpl. intros l3 _ Hi3 Ef3 _ P3.
  apply start_step; [by apply Hi3|done|set_solver|by rewrite Ef3|done|done|]. rewrite Ef3. simpl. intros l4 _ Hi4 Ef4 _ P4.
  apply start_step; [by apply Hi4|done|set_solver|by rewrite Ef4|by rewrite Ef4|done|]. rewrite Ef4. simpl. intros l5 _ Hi5 Ef5 _ P5.
  apply start_step; [by apply Hi5|done|set_solver|by rewrite Ef5|done|by rewrite Ef5|]. rewrite Ef5. simpl. intros l6 Hs6 _ Ef6 He6 P6.
  by apply thread_arm_ok; rewrite ?Ef6.
Qed.

End Destroy.

(** * The theorems *)

Section Theorems.
Context {Hlaws : BrokerLaws} (connector : bool) (path : bytes) (connect_timeout_ms handshake_timeout_ms max_clients : Z).

Notation create := (maelys_egress_channel_broker_create connector path connect_timeout_ms handshake_timeout_ms max_clients).
Notation arguments := (create_arguments connector path connect_timeout_ms handshake_timeout_ms max_clients).

(** The result without a broker: nothing is left of the attempt. *)
Definition refused (l : life) (r : maelys_egress_result_t) (l' : life) : Prop :=
  r <> MAELYS_EGRESS_OK /\ live l' ≡ₚ live l /\ (arguments = false <-> r = MAELYS_EGRESS_ERR_ARGUMENT) /\
  (r = MAELYS_EGRESS_ERR_IO -> owns_path (broker (state l')) = false) /\
  (r <> MAELYS_EGRESS_ERR_IO -> deeds l' = deeds l).

(** A broker whose thread serves. *)
Definition created (l : life) (l' : life) : Prop :=
  sound connect_timeout_ms (live l) l' /\ f_thread (fields_ l') = true /\ ready l' = true /\ ended l' = false /\
  owns_path (broker (state l')) = true /\
  exists d, deeds l' = d ++ deeds l /\ granted path (broker (state l')) d.

#[local] Ltac refuse Ea := unfold refused; rewrite Ea; split_and!; try done; by split.

Lemma create_ok l :
  btrace (state l) = [] ->
  lwp create l (fun '(r, present) l' =>
    if (present : bool) then r = MAELYS_EGRESS_OK /\ arguments = true /\ created l l' else refused l r l').
Proof using Hlaws.
  intros Etr. unfold maelys_egress_channel_broker_create. destruct arguments eqn:Ea; cbn [negb].
  2:{ apply lwp_ret. refuse Ea. }
  apply lwp_bind, lwp_ask. intros [] w1; cbn [negb]; [|apply lwp_ret; refuse Ea].
  apply lwp_bind, lwp_ask. intros [] w2; cbn [negb]; [|apply lwp_ret; refuse Ea].
  apply lwp_bind, lwp_modify, lwp_bind, lwp_ask. intros [] w3; cbn [negb].
  2:{ apply lwp_bind. eapply (lwp_release MEMORY (live l)); [done|]. intros rest Hrest. apply lwp_ret. refuse Ea. }
  apply lwp_bind, lwp_modify, lwp_bind, lwp_modify, lwp_bind, lwp_lift, bwp_set, lwp_bind, lwp_modify, lwp_bind.
  eapply lwp_mono.
  - apply (start_threads_ok connect_timeout_ms (live l)); try done.
    + unfold owns. reflexivity.
    + unfold started. split_and!; try done. by apply Forall_replicate.
    + unfold create_arguments in Ea. simpl. rewrite !andb_true_iff in Ea. tauto.
  - intros [] l1 [Hs Hup].
    + apply lwp_ret. destruct (Hup eq_refl) as (Ht & Hr & He & Hown & d & Ed & Hg). unfold created. split_and!; try done. by exists d.
    + apply lwp_bind. eapply lwp_mono; [exact (destroy_ok connect_timeout_ms (live l) l1 Hs)|]. intros r l2 (Hl & Hown & _). apply lwp_ret. refuse Ea.
Qed.

(** C15: creating a broker is all or nothing and never faults.  Either the caller
    gets a broker, for valid arguments only, and then its socket listens in a
    directory of the user's own that nobody else can enter, or only a group of
    the process, and had the group and the mode that say so before it listened
    ([granted]); or the result is an error, [ARGUMENT] exactly for invalid
    arguments, every handle taken meanwhile has been released, and a path that
    was bound and recognised is no longer the broker's. *)
Theorem broker_create_exact l :
  btrace (state l) = [] ->
  exists r present l', create l = Some ((r, present), l') /\
    if (present : bool) then
      r = MAELYS_EGRESS_OK /\ arguments = true /\
      live l' ≡ₚ held (fields_ l') ++ CONNECTOR :: SLOTS :: MEMORY :: live l /\
      exists d, deeds l' = d ++ deeds l /\ granted path (broker (state l')) d
    else refused l r l'.
Proof using Hlaws.
  intros Etr. destruct (create_ok l Etr) as ([r present] & l' & E & HP). exists r, present, l'. split; [done|].
  destruct present; [|done]. destruct HP as (Hr & Ha & Hs & _ & _ & _ & _ & Hd). split_and!; try done. exact (so_owns _ _ _ Hs).
Qed.

(** C35: A broker that was created can be destroyed after its thread has run for
    any number of turns: the destruction ends, with both threads joined, no
    handle is used after its release or released twice, the process has the
    handles it had before the creation, the path is given up, and all that
    clients were given has been taken back. *)
Theorem broker_life_balanced l l1 turns :
  btrace (state l) = [] -> create l = Some ((MAELYS_EGRESS_OK, true), l1) ->
  exists l2 r l3, thread_run turns l1 = Some (tt, l2) /\
    maelys_egress_channel_broker_destroy true l2 = Some (r, l3) /\
    live l3 ≡ₚ live l /\ owns_path (broker (state l3)) = false /\ all_released (btrace (state l3)).
Proof using Hlaws.
  intros Etr E. destruct (create_ok l Etr) as ([r0 present] & l1' & E' & HP). rewrite E in E'. simplify_eq.
  destruct HP as (_ & _ & Hs & Ht & _). destruct (thread_run_ok _ _ turns l1' Hs Ht) as ([] & l2 & E2 & Hs2 & _).
  destruct (destroy_ok _ _ l2 Hs2) as (r & l3 & E3 & Hl & Ho & Ha & _). by exists l2, r, l3.
Qed.

End Theorems.

End Life.

(** * A world *)

Section Example.
#[local] Existing Instance example_broker_sys.

(** A private directory, where every call succeeds. *)
#[local] Instance example_host : HostSys := {|
  h_calloc n := (true, n);
  h_realpath p n := (Some p, n);
  h_open_directory _ n := (true, n);
  h_fstat n := (Some (FileStat 1 2 (0x4000 + MODE_0700) 1000 100), n);
  h_groups_count n := (1, n);
  h_getgroups _ n := ([100], n);
  h_path_identity _ n := (if (n =? 0)%nat then Missing else Found (FileIdentity 1 3 (0xc000 + 0x1ed) 1000), n);
  h_socket n := (true, S n);
  h_bind _ n := (true, n);
  h_fstatat _ n := (Some (FileStat 1 3 (0xc000 + 0x1ed) 1000 100), n);
  h_chown _ _ n := (true, n);
  h_chmod _ _ n := (true, n);
  h_listen n := (true, 0%nat);
  h_wakeup n := (true, n);
  h_mutex n := (true, n);
  h_condition n := (true, n);
  h_thread _ n := (true, n);
  h_egid := 100;
|}.

Definition example_path : bytes := str "/run/egress/broker".
Definition example_life : life :=
  Life example_bstate [] no_fields false false [] [].

#[local] Notation example_create := (maelys_egress_channel_broker_create true example_path 5000 1000 2).

Definition example_created : life := default example_life (snd <$> example_create example_life).

Lemma example_create_runs : example_create example_life = Some ((MAELYS_EGRESS_OK, true), example_created).
Proof. by vm_compute. Qed.

Example example_deeds :
  deeds example_created =
    [Listening; Chmodded example_path MODE_0600; Placed (FileStat 1 3 (0xc000 + 0x1ed) 1000 100); Bound example_path;
     Inspected (FileStat 1 2 (0x4000 + MODE_0700) 1000 100)].
Proof. by vm_compute. Qed.

Lemma broker_create_exact_witness :
  exists r present l', example_create example_life = Some ((r, present), l') /\
    if (present : bool) then
      r = MAELYS_EGRESS_OK /\ create_arguments true example_path 5000 1000 2 = true /\
      live l' ≡ₚ held (fields_ l') ++ CONNECTOR :: SLOTS :: MEMORY :: live example_life /\
      exists d, deeds l' = d ++ deeds example_life /\ granted example_path (broker (state l')) d
    else refused true example_path 5000 1000 2 example_life r l'.
Proof. exact (broker_create_exact (Hlaws := example_broker_laws) true example_path 5000 1000 2 example_life eq_refl). Defined.

(** The client of the run comes and goes. *)
Lemma broker_life_balanced_witness :
  exists l2 r l3, thread_run 5 example_created = Some (tt, l2) /\
    maelys_egress_channel_broker_destroy true l2 = Some (r, l3) /\
    live l3 ≡ₚ live example_life /\ owns_path (broker (state l3)) = false /\ all_released (btrace (state l3)).
Proof.
  exact (broker_life_balanced (Hlaws := example_broker_laws) true example_path 5000 1000 2 example_life example_created 5
    eq_refl example_create_runs).
Defined.

Example example_life_ends :
  ('(_, l2) ← thread_run 5 example_created; '(r, l3) ← maelys_egress_channel_broker_destroy true l2;
   Some (r, live l3, channels_in 0 (btrace (state l3)))) = Some (MAELYS_EGRESS_OK, [], [1]).
Proof. by vm_compute. Qed.

End Example.
