(* ===== verification/Daemon.v ===== *)
(** The daemon (cli/serve.c, cli/reload.c, cli/commands.c): the policy and the
    server configuration made of the settings of a file, what [config validate]
    and [serve] say of it, and the reload of the policy on SIGHUP.

    The settings are those of ConfigFile.v, the policy and its operations those
    of Policy.v, the configuration that of Config.v, the server that of
    Reactor.v: the definitions here call them the way the command line does.
    What a run meets outside the program is a [surroundings]: the outcome of the
    allocations, the TLS module, the audit journal, the files. *)

From stdpp Require Import gmap.
From S2P Require Import Prelude Common Codec Sha256 Config Policy Receipt Journal Buffer Server Connection Relay Admin Listener Reactor ConfigFile ConfigFileFacts ConfigTheorems.
#[local] Open Scope Z_scope.

(** * The policy of a file *)

Section Build.
Context `{Inet}.

(** The loop over the destinations; [mem i] are the two allocations of the
    [i]-th step. *)
Fixpoint build_destinations (mem : nat -> bool * bool) (i : nat) (policy : maelys_egress_policy)
    (ds : list Destination.egress_cli_destination_t) : maelys_egress_result_t * maelys_egress_policy :=
  match ds with
  | [] => (MAELYS_EGRESS_OK, policy)
  | d :: ds =>
      match maelys_egress_policy_allow_tcp (mem i).1 (mem i).2 policy (Destination.host d) (Destination.port d)
              (Destination.allow_private d) with
      | (MAELYS_EGRESS_OK, policy) =>
          if Destination.require_tls_sni d then
            match maelys_egress_policy_require_tls_sni policy (Destination.host d) (Destination.port d) with
            | (MAELYS_EGRESS_OK, policy) => build_destinations mem (S i) policy ds
            | failed => failed
            end
          else build_destinations mem (S i) policy ds
      | failed => failed
      end
  end.

(** [create] is the allocation of the policy, [digest] that of its text. *)
Definition egress_cli_build_policy `{Resolver} (create : bool) (mem : nat -> bool * bool) (digest : bool)
    (s : settings) : maelys_egress_result_t * option maelys_egress_policy :=
  if negb create then (MAELYS_EGRESS_ERR_MEMORY, None)
  else match build_destinations mem 0 maelys_egress_policy_create (Settings.destinations s) with
       | (MAELYS_EGRESS_OK, policy) =>
           if Settings.destination_count s =? 0 then (MAELYS_EGRESS_ERR_ARGUMENT, None)
           else match maelys_egress_policy_seal digest policy with
                | (MAELYS_EGRESS_OK, policy) => (MAELYS_EGRESS_OK, Some policy)
                | (result, _) => (result, None)
                end
       | (result, _) => (result, None)
       end.

(** A destination of a file as an entry of the policy. *)
Definition declares (d : Destination.egress_cli_destination_t) (k : bytes * Z) (f : bool * bool) : Prop :=
  egress_canonical_host (Destination.host d) = Some k.1 /\ Destination.port d = k.2 /\
  (Destination.allow_private d, Destination.require_tls_sni d) = f.

Lemma allow_tcp_fresh grow copy p host port private p' :
  maelys_egress_policy_allow_tcp grow copy p host port private = (MAELYS_EGRESS_OK, p') ->
  sealed p = false /\ sealed p' = false /\
  exists h, egress_canonical_host host = Some h /\ view p' = <[(h, port) := (private, false)]> (view p) /\
    Forall (fun d => dest_key d <> (h, port)) (destinations p).
Proof.
  intros E. pose proof (allow_tcp_view grow copy p host port private) as Hv. rewrite E in Hv. cbn [fst snd] in Hv.
  revert E. unfold maelys_egress_policy_allow_tcp. destruct (sealed p) eqn:Es; [done|]. cbn [orb].
  destruct (port =? 0); [done|]. destruct (egress_canonical_host host) as [h|] eqn:Eh; [|done].
  destruct (existsb _ _) eqn:Ee; [done|]. destruct (_ <=? _); [done|]. destruct (_ && _); [done|].
  destruct copy; [|done]. cbn [negb]. intros [= <-]. split; [done|]. split.
  { simpl. by destruct (_ =? _). }
  exists h. unfold view_apply in Hv. rewrite Eh in Hv. split_and!; [done|exact Hv|].
  rewrite existsb_false_Forall in Ee. eapply Forall_impl; [exact Ee|]. simpl. intros d Hd Hk.
  by rewrite (proj2 (is_destination_key h port d) Hk) in Hd.
Qed.

Lemma view_fresh p k : NoDup (map dest_key (destinations p)) ->
  Forall (fun d => dest_key d <> k) (destinations p) -> view p !! k = None.
Proof.
  intros Hn Hf. destruct (view p !! k) as [f|] eqn:E; [|done]. apply view_lookup in E as (d & Hd & Hk & _); [|done].
  rewrite Forall_forall in Hf. by destruct (Hf d Hd).
Qed.

Lemma require_sni_sealed p host port p' :
  maelys_egress_policy_require_tls_sni p host port = (MAELYS_EGRESS_OK, p') -> sealed p' = sealed p.
Proof.
  unfold maelys_egress_policy_require_tls_sni. destruct (_ || _); [done|]. destruct (egress_canonical_host host); [|done].
  destruct (_ || _); [done|]. destruct (find_mutable_destination _ _ _); [|done]. by intros [= <-].
Qed.

(** The loop adds exactly the destinations it is given. *)
Lemma build_destinations_view mem i p ds p' :
  Forall (fun d => is_u16 (Destination.port d)) ds -> policy_ok p -> sealed p = false ->
  build_destinations mem i p ds = (MAELYS_EGRESS_OK, p') ->
  policy_ok p' /\ sealed p' = false /\
  forall k f, view p' !! k = Some f <-> view p !! k = Some f \/ exists d, d ∈ ds /\ declares d k f.
Proof.
  revert i p. induction ds as [|d ds IH]; intros i p Hu Hok Hs E; cbn [build_destinations] in E.
  { simplify_eq. split_and!; [done|done|]. intros k f. split; [by left|].
    intros [?|(d & Hd & _)]; [done|by apply elem_of_nil in Hd]. }
  apply Forall_cons in Hu as [Hd Hu].
  destruct (maelys_egress_policy_allow_tcp _ _ _ _ _ _) as [r1 p1] eqn:E1. destruct r1; try done.
  pose proof (allow_tcp_ok (mem i).1 (mem i).2 p (Destination.host d) _ (Destination.allow_private d) Hd Hok) as Hok1.
  rewrite E1 in Hok1. cbn [snd] in Hok1. destruct (allow_tcp_fresh _ _ _ _ _ _ _ E1) as (_ & Hs1 & h & Eh & Ev & Hf).
  pose proof (view_fresh p _ (policy_ok_keys _ Hok) Hf) as Hnone.
  assert (Hadd : forall p2, policy_ok p2 -> sealed p2 = false ->
    view p2 = <[(h, Destination.port d) := (Destination.allow_private d, Destination.require_tls_sni d)]> (view p) ->
    build_destinations mem (S i) p2 ds = (MAELYS_EGRESS_OK, p') ->
    policy_ok p' /\ sealed p' = false /\
    forall k f, view p' !! k = Some f <-> view p !! k = Some f \/ exists d', d' ∈ d :: ds /\ declares d' k f).
  { intros p2 Hok2 Hs2 Ev2 E2. destruct (IH _ _ Hu Hok2 Hs2 E2) as (Hok' & Hs' & Hv). split_and!; [done|done|].
    intros k f. rewrite Hv, Ev2, lookup_insert_Some. setoid_rewrite elem_of_cons. unfold declares.
    destruct k as [kh kp]. split.
    { intros [[[Ek Ef]|[_ Ek]]|(d' & Hin & Hdec)]; [right; exists d|by left|right; exists d'; auto].
      simplify_eq. split; [by left|done]. }
    intros [Ek|(d' & [->|Hin] & Hdec)]; [left; right; split; [intros Eq; rewrite Eq in Hnone; congruence|done]| |by right; eauto].
    left. left. destruct Hdec as (Ec & Ep & Ef). simpl in *. simplify_eq. done. }
  destruct (Destination.require_tls_sni d) eqn:Esni; [|by apply (Hadd p1)].
  destruct (maelys_egress_policy_require_tls_sni _ _ _) as [r2 p2] eqn:E2. destruct r2; try done.
  pose proof (require_sni_ok p1 (Destination.host d) (Destination.port d) Hok1) as Hok2. rewrite E2 in Hok2.
  pose proof (require_sni_view p1 (Destination.host d) (Destination.port d) (policy_ok_keys _ Hok1)) as Ev2.
  rewrite E2 in Ev2. unfold view_apply in Ev2. cbn [fst snd] in Ev2. rewrite Eh, Ev in Ev2.
  apply (Hadd p2); [done|by rewrite (require_sni_sealed _ _ _ _ E2)| |done].
  by rewrite Ev2, alter_insert_eq.
Qed.

(** A file builds a policy exactly of its destinations, or none. *)
Lemma build_policy_spec `{Resolver} create mem digest s r p :
  Forall (fun d => is_u16 (Destination.port d)) (Settings.destinations s) ->
  egress_cli_build_policy create mem digest s = (r, p) ->
  match p with
  | Some p => r = MAELYS_EGRESS_OK /\ sealed p = true /\ policy_ok p /\
      forall k f, view p !! k = Some f <-> exists d, d ∈ Settings.destinations s /\ declares d k f
  | None => r <> MAELYS_EGRESS_OK
  end.
Proof.
  intros Hu. unfold egress_cli_build_policy. destruct create; cbn [negb]; [|by intros [= <- <-]].
  destruct (build_destinations _ _ _ _) as [r1 p1] eqn:E1. destruct r1; try by intros [= <- <-].
  assert (Hok0 : policy_ok maelys_egress_policy_create) by apply policy_reachable_ok, policy_reachable_create.
  destruct (build_destinations_view _ _ _ _ _ Hu Hok0 eq_refl E1) as (Hok1 & Hs1 & Hv).
  destruct (Settings.destination_count s =? 0); [by intros [= <- <-]|].
  pose proof (seal_ok digest p1 Hok1) as Hok2.
  pose proof (seal_view digest p1 (policy_ok_destinations _ Hok1) (policy_ok_keys _ Hok1)) as Ev.
  destruct (maelys_egress_policy_seal digest p1) as [r2 p2] eqn:E2. cbn [snd] in *.
  destruct r2; try by intros [= <- <-]. intros [= <- <-]. split_and!; [done| |done|].
  - revert E2. unfold maelys_egress_policy_seal. destruct (_ || _); [done|]. destruct (resolve_all _) as [r ds].
    destruct r; try done. destruct (_ =? 0); [done|]. by intros [= <-].
  - intros k f. rewrite Ev, Hv. assert (view maelys_egress_policy_create = ∅) as -> by done.
    rewrite lookup_empty. naive_solver.
Qed.

End Build.

(** * The configuration of a file *)

(** What the run of a command meets: the allocations of the policy, that of the
    configuration, the provider the TLS module made of the files, the journal
    and its health. *)
Record surroundings := Surroundings {
  sr_create : bool;
  sr_mem : nat -> bool * bool;
  sr_digest : bool;
  sr_config : bool;
  sr_tls : maelys_egress_result_t * option Z;
  sr_audit : maelys_egress_result_t * option Z;
  sr_healthy : bool;
}.

(** [if (result == MAELYS_EGRESS_OK) result = f(config, ...)]. *)
Definition and_then (r : maelys_egress_result_t * maelys_egress_config)
    (f : maelys_egress_config -> maelys_egress_result_t * maelys_egress_config)
  : maelys_egress_result_t * maelys_egress_config :=
  match r with (MAELYS_EGRESS_OK, c) => f c | failed => failed end.
#[local] Notation "r ⟫ f" := (and_then r f) (at level 50, left associativity).

(** The step [f] when the settings ask for it. *)
Definition if_set (b : bool) (f : maelys_egress_config -> maelys_egress_result_t * maelys_egress_config)
    (c : maelys_egress_config) : maelys_egress_result_t * maelys_egress_config :=
  if b then f c else (MAELYS_EGRESS_OK, c).

Definition maelys_name : bytes := str "maelys".

Section Configure.
Context `{Inet} `{Fs} `{Cli}.

Definition configure_listener (s : settings) (c : maelys_egress_config)
  : maelys_egress_result_t * maelys_egress_config :=
  if is_some (Settings.channel_principal s) then maelys_egress_config_set_native_only c 1
  else match Settings.listen_unix s with
       | Some path => maelys_egress_config_set_listen_unix c path (len path) (Settings.unix_peer s)
       | None => maelys_egress_config_set_listen c (Settings.listen_host s) (Settings.listen_port s)
       end.

Definition configure_principal (s : settings) (c : maelys_egress_config)
  : maelys_egress_result_t * maelys_egress_config :=
  match Settings.channel_principal s with
  | Some principal => maelys_egress_config_set_native_principal c principal (Settings.channel_invocation_id s)
  | None => (MAELYS_EGRESS_OK, c)
  end.

Definition configure_tls (sr : surroundings) (c : maelys_egress_config)
  : maelys_egress_result_t * maelys_egress_config :=
  match sr_tls sr with
  | (MAELYS_EGRESS_OK, provider) => maelys_egress_config_set_tls_listener c provider
  | (result, _) => (result, c)
  end.

Definition configure_quota (s : settings) (c : maelys_egress_config)
  : maelys_egress_result_t * maelys_egress_config :=
  maelys_egress_config_set_principal_quota_v2 c (default maelys_name (Settings.channel_principal s))
    (Settings.quota_connections s) (Settings.quota_bytes s) (Settings.quota_total_bytes s).

(** The key is read also by a validation, which opens no journal. *)
Definition configure_audit (check_only : bool) (s : settings) (sr : surroundings) (c : maelys_egress_config)
  : maelys_egress_result_t * maelys_egress_config :=
  match egress_cli_read_audit_key (default [] (Settings.audit_key_file s)) with
  | None => (MAELYS_EGRESS_ERR_DENIED, c)
  | Some _ =>
      if check_only then (MAELYS_EGRESS_OK, c)
      else match sr_audit sr with
           | (MAELYS_EGRESS_OK, audit) => maelys_egress_config_set_audit c audit (sr_healthy sr)
           | (result, _) => (result, c)
           end
  end.

(** The configuration from its creation to its journal. *)
Definition configure (check_only : bool) (s : settings) (secret : bytes) (sr : surroundings)
  : maelys_egress_result_t * maelys_egress_config :=
  (MAELYS_EGRESS_OK, maelys_egress_config_create)
  ⟫ configure_listener s
  ⟫ configure_principal s
  ⟫ if_set (is_some (Settings.tls_cert s)) (configure_tls sr)
  ⟫ if_set (is_some (Settings.token_file s)) (fun c => maelys_egress_config_set_authentication c maelys_name secret)
  ⟫ if_set (is_some (Settings.token_file s) || is_some (Settings.channel_principal s)) (configure_quota s)
  ⟫ if_set (Settings.unauthenticated_loopback s) (fun c => maelys_egress_config_allow_unauthenticated_loopback c 1)
  ⟫ (fun c => maelys_egress_config_set_limits c (Settings.max_connections s) 32768 10000 60000)
  ⟫ if_set (Settings.admin_set s)
      (fun c => maelys_egress_config_set_admin_listen c (Settings.admin_host s) (Settings.admin_port s))
  ⟫ if_set (is_some (Settings.audit_log s)) (configure_audit check_only s sr).

Definition result_code (result : maelys_egress_result_t) : cli_code :=
  match result with
  | MAELYS_EGRESS_ERR_ARGUMENT => MAELYS_CLI_CODE_VALIDATION_FAILED
  | MAELYS_EGRESS_ERR_DENIED | MAELYS_EGRESS_ERR_CRYPTO => MAELYS_CLI_CODE_ACCESS_DENIED
  | MAELYS_EGRESS_ERR_IO | MAELYS_EGRESS_ERR_TIMEOUT => MAELYS_CLI_CODE_IO_FAILED
  | MAELYS_EGRESS_ERR_STATE | MAELYS_EGRESS_ERR_CANCELLED => MAELYS_CLI_CODE_PRECONDITION_FAILED
  | MAELYS_EGRESS_ERR_UNSUPPORTED => MAELYS_CLI_CODE_UNSUPPORTED
  | _ => MAELYS_CLI_CODE_UNEXPECTED
  end.

(** How far a command comes before it makes a server: the code of a failure, the
    digest of a validation, or the policy and the configuration of the server. *)
Inductive prepared :=
| Rejected (code : cli_code)
| Validated (digest : option bytes)
| Prepared (policy : maelys_egress_policy) (config : maelys_egress_config).

(** [egress_cli_run] up to the creation of the server; [exec] is whether a
    program is to be started. *)
Definition egress_cli_prepare `{Resolver} (s : settings) (check_only exec : bool) (sr : surroundings) : prepared :=
  match (match Settings.token_file s with Some path => egress_cli_read_secret path | None => Some [] end) with
  | None => Rejected MAELYS_CLI_CODE_ACCESS_DENIED
  | Some secret =>
      match egress_cli_build_policy (sr_create sr) (sr_mem sr) (sr_digest sr) s with
      | (MAELYS_EGRESS_OK, Some policy) =>
          if negb (sr_config sr) then Rejected (result_code MAELYS_EGRESS_ERR_MEMORY)
          else match configure check_only s secret sr with
               | (MAELYS_EGRESS_OK, c) =>
                   let c := if exec then c else maelys_egress_config_set_receipt_sink c true in
                   if check_only then Validated (maelys_egress_policy_digest_hex (Some policy))
                   else Prepared policy c
               | (result, _) => Rejected (result_code result)
               end
      | _ => Rejected MAELYS_CLI_CODE_POLICY_FAILED
      end
  end.

(** * What the configuration is *)

Definition with_quotas (s : settings) (p : egress_principal_t) : egress_principal_t :=
  p <| max_active_connections := Settings.quota_connections s |>
    <| max_bytes_per_connection := Settings.quota_bytes s |> <| max_bytes_total := Settings.quota_total_bytes s |>.

(** Who the server knows: the principal of a channel, the holder of the token,
    or nobody. *)
Definition settings_principals (s : settings) (secret : bytes) : list egress_principal_t :=
  match Settings.channel_principal s with
  | Some principal => [with_quotas s (bound_principal principal (Settings.channel_invocation_id s))]
  | None => if is_some (Settings.token_file s)
            then [with_quotas s (Principal maelys_name secret [] 0 0 0)] else []
  end.

(** The configuration the settings describe. *)
Definition settings_config (check_only : bool) (s : settings) (secret : bytes) (sr : surroundings)
  : maelys_egress_config :=
  let native := is_some (Settings.channel_principal s) in
  let unix := is_some (Settings.listen_unix s) in
  let admin := Settings.admin_set s in
  Config native unix
    (if native then [] else if unix then str "127.0.0.1" else Settings.listen_host s)
    (if native || unix then 0 else Settings.listen_port s)
    (default [] (Settings.listen_unix s)) (Settings.unix_peer s)
    (settings_principals s secret) (is_some (Settings.token_file s)) (Settings.unauthenticated_loopback s)
    false native 0 (Settings.max_connections s) 32768 10000 60000 false
    (if is_some (Settings.tls_cert s) then (sr_tls sr).2 else None)
    admin (if admin then Settings.admin_host s else str "127.0.0.1") (if admin then Settings.admin_port s else 0)
    (if is_some (Settings.audit_log s) && negb check_only then (sr_audit sr).2 else None) None.

Lemma and_then_OK r f c :
  r ⟫ f = (MAELYS_EGRESS_OK, c) -> exists c0, r = (MAELYS_EGRESS_OK, c0) /\ f c0 = (MAELYS_EGRESS_OK, c).
Proof. unfold and_then. destruct r as [[] c0]; try done. by exists c0. Qed.

Lemma snprintf_fits n s : len s < n -> snprintf_s n s = s.
Proof. intros Hn. unfold snprintf_s. apply ztake_all. lia. Qed.

(** The settings of the other modes of a channel. *)
Lemma channel_defaults tls s :
  settings_ok tls s -> is_Some (Settings.channel_principal s) ->
  Settings.listen_unix s = None /\ Settings.token_file s = None /\ Settings.unauthenticated_loopback s = false /\
  Settings.tls_cert s = None /\ Settings.unix_peer s = MAELYS_EGRESS_UNIX_PEER_AUTHENTICATED.
Proof.
  intros Hs Hp. pose proof (ok_channel _ _ Hs Hp) as Hd. unfold proxy_key_list in Hd. rewrite !Forall_cons in Hd.
  destruct Hd as (_ & Hu & Hpe & Ht & Hl & Hc & _). simpl in *. by simplify_eq.
Qed.

Lemma peer_default tls s :
  settings_ok tls s -> Settings.listen_unix s = None ->
  Settings.unix_peer s = MAELYS_EGRESS_UNIX_PEER_AUTHENTICATED.
Proof.
  intros Hs Hu. destruct (ok_typed _ _ Hs EGRESS_CLI_KEY_UNIX_PEER) as [_ Hp]. apply Hp.
  destruct (Settings.unix_peer_set s) eqn:E; [|done]. destruct (ok_peer _ (ok_values _ _ Hs) E). congruence.
Qed.

Lemma configure_listener_OK tls s c :
  settings_ok tls s -> configure_listener s maelys_egress_config_create = (MAELYS_EGRESS_OK, c) ->
  let native := is_some (Settings.channel_principal s) in
  let unix := is_some (Settings.listen_unix s) in
  c = maelys_egress_config_create <| native_only := native |> <| listen_unix := unix |>
        <| listen_host := if native then [] else if unix then str "127.0.0.1" else Settings.listen_host s |>
        <| port := if native || unix then 0 else Settings.listen_port s |>
        <| unix_path := default [] (Settings.listen_unix s) |> <| unix_peer_policy := Settings.unix_peer s |>.
Proof.
  intros Hs. unfold configure_listener. destruct (Settings.channel_principal s) as [principal|] eqn:Ep; simpl.
  - destruct (channel_defaults _ _ Hs ltac:(rewrite Ep; by eexists)) as (Eu & _ & _ & _ & Epeer).
    intros [= <-]. by rewrite Eu, Epeer.
  - destruct (Settings.listen_unix s) as [path|] eqn:Eu; simpl.
    + unfold maelys_egress_config_set_listen_unix. simpl. destruct (_ || _); [done|].
      destruct (negb (unix_path_lexically_canonical path)); [done|].
      destruct (negb (egress_unix_parent_is_private path)); [done|].
      destruct (maelys_sys_file_path_identity path); try done. by intros [= <-].
    + rewrite (peer_default _ _ Hs Eu). unfold maelys_egress_config_set_listen. simpl.
      destruct (_ && _); [done|]. destruct (Z.leb_spec 64 (len (Settings.listen_host s))) as [|Hl]; [done|].
      rewrite snprintf_fits by done. by intros [= <-].
Qed.

Lemma configure_tls_OK b sr c c' :
  if_set b (configure_tls sr) c = (MAELYS_EGRESS_OK, c') -> tls_provider c = None ->
  c' = c <| tls_provider := if b then (sr_tls sr).2 else None |>.
Proof.
  unfold if_set, configure_tls, maelys_egress_config_set_tls_listener. intros E Ht.
  destruct b; [|simplify_eq; destruct c'; simpl in *; by subst].
  destruct (sr_tls sr) as [[] provider]; try done. destruct (native_principal_bound c); [done|]. by simplify_eq.
Qed.

Lemma configure_loopback_OK b c c' :
  if_set b (fun c => maelys_egress_config_allow_unauthenticated_loopback c 1) c = (MAELYS_EGRESS_OK, c') ->
  unauthenticated_loopback c = false -> c' = c <| unauthenticated_loopback := b |>.
Proof.
  unfold if_set, maelys_egress_config_allow_unauthenticated_loopback. intros E Hu.
  destruct b; [|simplify_eq; destruct c'; simpl in *; by subst].
  destruct (native_principal_bound c); [done|]. by simplify_eq.
Qed.

Lemma configure_admin_OK b host port_ c c' :
  if_set b (fun c => maelys_egress_config_set_admin_listen c host port_) c = (MAELYS_EGRESS_OK, c') ->
  admin_enabled c = false -> admin_host c = str "127.0.0.1" -> admin_port c = 0 ->
  c' = c <| admin_enabled := b |> <| admin_host := if b then host else str "127.0.0.1" |>
         <| admin_port := if b then port_ else 0 |>.
Proof.
  unfold if_set, maelys_egress_config_set_admin_listen. intros E He Hh Hp.
  destruct b; [|simplify_eq; destruct c'; simpl in *; by subst].
  destruct (beq host (str "127.0.0.1")) eqn:E4; cbn [negb andb] in E.
  - apply beq_spec in E4 as ->. by simplify_eq.
  - destruct (beq host (str "::1")) eqn:E6; cbn [negb] in E; [|done]. apply beq_spec in E6 as ->. by simplify_eq.
Qed.

Lemma configure_audit_OK b check_only s sr c c' :
  if_set b (configure_audit check_only s sr) c = (MAELYS_EGRESS_OK, c') -> audit c = None ->
  c' = c <| audit := if b && negb check_only then (sr_audit sr).2 else None |>.
Proof.
  unfold if_set, configure_audit, maelys_egress_config_set_audit. intros E Ha.
  assert (Hsame : c = c <| audit := None |>) by (destruct c; simpl in *; by subst).
  destruct b; [|by injection E as <-]. destruct (egress_cli_read_audit_key _); [|done].
  destruct check_only; [by injection E as <-|]. cbn [andb negb]. destruct (sr_audit sr) as [[] audit_]; try done.
  destruct (_ && _); [done|]. by simplify_eq.
Qed.

Lemma configure_limits_OK s c c' :
  maelys_egress_config_set_limits c (Settings.max_connections s) 32768 10000 60000 = (MAELYS_EGRESS_OK, c') ->
  c' = c <| max_connections := Settings.max_connections s |> <| buffer_bytes := 32768 |>
         <| handshake_timeout_ms := 10000 |> <| idle_timeout_ms := 60000 |>.
Proof. unfold maelys_egress_config_set_limits. destruct (_ || _); [done|]. by intros [= <-]. Qed.

(** The quotas go to the only principal there is. *)
Lemma configure_quota_OK s c c' p :
  configure_quota s c = (MAELYS_EGRESS_OK, c') -> principals c = [p] -> c' = c <| principals := [with_quotas s p] |>.
Proof.
  unfold configure_quota, maelys_egress_config_set_principal_quota_v2. intros E Hp. rewrite Hp in E.
  destruct (_ || _); [done|]. cbn [set_quota] in E. destruct (beq _ _); [by simplify_eq|done].
Qed.

Lemma configure_authentication_OK c secret c' :
  maelys_egress_config_set_authentication c maelys_name secret = (MAELYS_EGRESS_OK, c') ->
  c' = c <| principals := [Principal maelys_name secret [] 0 0 0] |> <| authentication_set := true |>.
Proof.
  unfold maelys_egress_config_set_authentication. destruct (_ || _); [done|].
  unfold maelys_egress_config_add_principal. cbn [native_principal_bound unix_principal_bound zero_config orb].
  destruct ((len maelys_name =? 0) || _ || _ || _ || _ || _ || _) eqn:Eg; [done|].
  destruct (negb _); [done|]. destruct (existsb _ secret); [done|]. cbn [existsb principals zero_config app take].
  intros [= <-]. bool_simp. rewrite (snprintf_fits _ secret) by lia. reflexivity.
Qed.

(** The three steps that say who the server knows. *)
Lemma configure_identity_OK tls s secret c2 c3 c5 c6 f :
  settings_ok tls s -> principals c2 = [] -> authentication_set c2 = false ->
  configure_principal s c2 = (MAELYS_EGRESS_OK, c3) ->
  if_set (is_some (Settings.token_file s)) (fun c => maelys_egress_config_set_authentication c maelys_name secret)
    (c3 <| tls_provider := f |>) = (MAELYS_EGRESS_OK, c5) ->
  if_set (is_some (Settings.token_file s) || is_some (Settings.channel_principal s)) (configure_quota s) c5 =
    (MAELYS_EGRESS_OK, c6) ->
  native_principal_bound c2 = false ->
  c6 = c2 <| principals := settings_principals s secret |> <| authentication_set := is_some (Settings.token_file s) |>
          <| native_principal_bound := is_some (Settings.channel_principal s) |> <| tls_provider := f |>.
Proof.
  intros Hs Hp Ha E3 E5 E6 Hn. unfold settings_principals, configure_principal in *.
  destruct (Settings.channel_principal s) as [principal|] eqn:Ep.
  - destruct (channel_defaults _ _ Hs ltac:(rewrite Ep; by eexists)) as (_ & Et & _ & _ & _).
    rewrite Et in *. cbn [is_some if_set orb] in *. unfold maelys_egress_config_set_native_principal in E3.
    destruct (negb (canonical_principal_identity _ _)); [done|]. destruct (_ || _) in E3; [done|]. simplify_eq.
    rewrite (configure_quota_OK _ _ _ _ E6 eq_refl). destruct c2; simpl in *; by subst.
  - simplify_eq. destruct (is_some (Settings.token_file s)); cbn [if_set orb is_some] in *.
    + apply configure_authentication_OK in E5 as ->. rewrite (configure_quota_OK _ _ _ _ E6 eq_refl).
      destruct c3; simpl in *; by subst.
    + simplify_eq. destruct c3; simpl in *; by subst.
Qed.

Lemma configure_OK tls check_only s secret sr c :
  settings_ok tls s ->
  configure check_only s secret sr = (MAELYS_EGRESS_OK, c) -> c = settings_config check_only s secret sr.
Proof.
  intros Hs. unfold configure.
  intros (c9 & (c8 & (c7 & (c6 & (c5 & (c4 & (c3 & (c2 & (c1 & E1 & E2)%and_then_OK & E3)%and_then_OK & E4)%and_then_OK
    & E5)%and_then_OK & E6)%and_then_OK & E7)%and_then_OK & E8)%and_then_OK & E9)%and_then_OK & E10)%and_then_OK.
  injection E1 as <-. pose proof (configure_listener_OK _ _ _ Hs E2) as L. simpl in L.
  assert (Ht : tls_provider c3 = None).
  { assert (Ht2 : tls_provider c2 = None) by (by rewrite L). unfold configure_principal in E3.
    destruct (Settings.channel_principal s); [|by injection E3 as <-].
    unfold maelys_egress_config_set_native_principal in E3. destruct (negb _) in E3; [done|].
    destruct (_ || _) in E3; [done|]. by injection E3 as <-. }
  apply configure_tls_OK in E4; [|done]. rewrite E4 in E5.
  assert (I : c6 = c2 <| principals := settings_principals s secret |>
    <| authentication_set := is_some (Settings.token_file s) |>
    <| native_principal_bound := is_some (Settings.channel_principal s) |>
    <| tls_provider := if is_some (Settings.tls_cert s) then (sr_tls sr).2 else None |>).
  { eapply configure_identity_OK; [exact Hs|by rewrite L|by rewrite L|exact E3|exact E5|exact E6|by rewrite L]. }
  apply configure_loopback_OK in E7; [|by rewrite I, L]. apply configure_limits_OK in E8.
  apply configure_admin_OK in E9; [|by rewrite E8, E7, I, L..].
  apply configure_audit_OK in E10; [|by rewrite E9, E8, E7, I, L].
  rewrite E10, E9, E8, E7, I, L. reflexivity.
Qed.

End Configure.

(** * The command in the server's process *)

(** What the framework reports of a finite command. *)
Inductive cli_status :=
| CommandFailed (code : cli_code)
| CommandReported (violations : option cli_code).

Section Run.
Context `{Inet} `{Fs} `{ListenSys} `{Cli}.

(** The codes of a file that could not be read at all. *)
Definition unreadable (code : cli_code) : bool :=
  bool_decide (code = MAELYS_CLI_CODE_NOT_FOUND) || bool_decide (code = MAELYS_CLI_CODE_ACCESS_DENIED) ||
  bool_decide (code = MAELYS_CLI_CODE_IO_FAILED).

(** [config validate]. *)
Definition egress_cli_command_config_validate `{Resolver} (tls calloc : bool) (copy : Z -> bool) (path : bytes)
    (sr : surroundings) : cli_status :=
  match egress_cli_settings_load tls calloc copy path with
  | inl e => if unreadable (error_code e) then CommandFailed (error_code e) else CommandReported (Some (error_code e))
  | inr s =>
      match egress_cli_prepare s true false sr with
      | Validated _ => CommandReported None
      | Rejected code => CommandReported (Some code)
      | Prepared _ _ => CommandReported (Some MAELYS_CLI_CODE_UNEXPECTED)
      end
  end.

(** The file of a command and its mode. *)
Definition load_for (mode : egress_cli_mode_t) (tls calloc : bool) (copy : Z -> bool) (path : bytes)
  : cli_code + settings :=
  match egress_cli_settings_load tls calloc copy path with
  | inl e => inl (error_code e)
  | inr s => if bool_decide (egress_cli_settings_mode s = mode) then inr s
             else inl MAELYS_CLI_CODE_VALIDATION_FAILED
  end.

(** The part of [egress_cli_run] that makes the server: the code of a failure. *)
Definition egress_cli_start `{Resolver} (s : settings) (exec : bool) (sr : surroundings) (mem reactor : bool)
  : M (option cli_code) :=
  match egress_cli_prepare s false exec sr with
  | Rejected code => mret (Some code)
  | Validated _ => mret None
  | Prepared policy c =>
      result ← maelys_egress_server_create mem reactor (Some policy) c;
      mret (if bool_decide (result = MAELYS_EGRESS_OK) then None else Some (result_code result))
  end.

(** * Signals *)

Inductive signal_number := SIGINT | SIGTERM | SIGHUP.

#[export] Instance signal_eq_dec : EqDecision signal_number.
Proof. solve_decision. Defined.

(** What a reload meets: the file system and the resolver of the moment, and the
    allocations. *)
Record occasion := Occasion {
  oc_cli : Cli;
  oc_resolver : Resolver;
  oc_calloc : bool;
  oc_copy : Z -> bool;
  oc_create : bool;
  oc_mem : nat -> bool * bool;
  oc_digest : bool;
  oc_clone : bool;
}.

Inductive reload_outcome :=
| LoadRejected (code : cli_code)
| ControlRejected
| PolicyRejected (result : maelys_egress_result_t)
| Reloaded (generation : Z) (fresh : settings).

Definition reload (tls : bool) (path : bytes) (baseline : settings) (o : occasion) : M reload_outcome :=
  match @egress_cli_settings_load (oc_cli o) tls (oc_calloc o) (oc_copy o) path with
  | inl e => mret (LoadRejected (error_code e))
  | inr fresh =>
      if negb (egress_cli_settings_control_equal baseline fresh) then mret ControlRejected
      else
        let '(result, replacement) :=
          @egress_cli_build_policy _ (oc_resolver o) (oc_create o) (oc_mem o) (oc_digest o) fresh in
        if negb (bool_decide (result = MAELYS_EGRESS_OK)) then mret (PolicyRejected result)
        else
          '(result, generation) ← maelys_egress_server_replace_policy (oc_clone o) replacement;
          mret (if bool_decide (result = MAELYS_EGRESS_OK) then Reloaded generation fresh else PolicyRejected result)
  end.

(** What the waiter did with a signal. *)
Inductive waited :=
| Again
| Forwarded (signal : signal_number)
| Ended
| Told (outcome : reload_outcome).

(** One turn of the signal waiter.  [program] is whether a program was started,
    [stopping] whether the launcher has asked for the end, [signal] the answer of
    [sigwait].  The path of the file is never NULL here: only [config validate]
    gives none, and it waits for no signal. *)
Definition signal_turn (tls program stopping : bool) (config_path : bytes) (baseline : settings)
    (signal : option signal_number) (o : occasion) : M waited :=
  match signal with
  | None => mret Again
  | Some signal =>
      if program && stopping then mret Ended
      else if bool_decide (signal = SIGHUP) then
        outcome ← reload tls config_path baseline o; mret (Told outcome)
      else if program then mret (Forwarded signal)
      else result ← maelys_egress_server_stop; mret Ended
  end.

End Run.
