(* ===== verification/DaemonTheorems.v ===== *)
(** The theorems on the daemon (Daemon.v): what the settings of a file make of
    the policy and of the configuration, when a server is made of them, and that
    a daemon which reloads its file connects only to what its files name. *)

From stdpp Require Import gmap.
From S2P Require Import Prelude Common Codec Sha256 Config Policy PolicyDigest ClientHello Receipt Journal Buffer Server Connection Relay Admin Listener Reactor Invariant System Scenario ConfigFile ConfigFileFacts ConfigTheorems Daemon.
#[local] Open Scope Z_scope.

(** * Preparation *)

Section Prepare.
Context `{Inet} `{Fs} `{Cli} `{Resolver}.

Lemma settings_ports tls s : settings_ok tls s -> Forall (fun d => is_u16 (Destination.port d)) (Settings.destinations s).
Proof.
  intros Hs. destruct (ok_typed _ _ Hs EGRESS_CLI_KEY_ALLOW) as [_ Hd]. eapply Forall_impl; [exact Hd|].
  intros d [_ Hp _]. unfold is_u16. simpl in *. lia.
Qed.

(** The policy of a file. *)
Definition policy_of (s : settings) (p : maelys_egress_policy) : Prop :=
  sealed p = true /\ policy_ok p /\
  forall k f, view p !! k = Some f <-> exists d, d ∈ Settings.destinations s /\ declares d k f.

(** The secret of a file. *)
Definition secret_of (s : settings) (secret : bytes) : Prop :=
  match Settings.token_file s with Some path => egress_cli_read_secret path = Some secret | None => secret = [] end.

Lemma prepare_inv s check_only exec sr :
  match egress_cli_prepare s check_only exec sr with
  | Rejected _ => True
  | Validated digest => check_only = true /\ exists secret policy c, secret_of s secret /\
      egress_cli_build_policy (sr_create sr) (sr_mem sr) (sr_digest sr) s = (MAELYS_EGRESS_OK, Some policy) /\
      configure true s secret sr = (MAELYS_EGRESS_OK, c) /\ digest = maelys_egress_policy_digest_hex (Some policy)
  | Prepared policy c => check_only = false /\ exists secret c0, secret_of s secret /\
      egress_cli_build_policy (sr_create sr) (sr_mem sr) (sr_digest sr) s = (MAELYS_EGRESS_OK, Some policy) /\
      configure false s secret sr = (MAELYS_EGRESS_OK, c0) /\
      c = if exec then c0 else maelys_egress_config_set_receipt_sink c0 true
  end.
Proof.
  unfold egress_cli_prepare, secret_of.
  destruct (match Settings.token_file s with Some path => _ | None => _ end) as [secret|] eqn:Es; [|done].
  destruct (egress_cli_build_policy _ _ _ _) as [[] [policy|]] eqn:Ep; try done.
  destruct (sr_config sr); [|done]. cbn [negb].
  destruct (configure check_only s secret sr) as [[] c] eqn:Ec; try done.
  destruct check_only; split; try done.
  - exists secret, policy, c. split_and!; try done. destruct (Settings.token_file s); [done|by injection Es].
  - exists secret, c. split_and!; try done. destruct (Settings.token_file s); [done|by injection Es].
Qed.

(** C10: what a command makes of the settings of an accepted file is what the
    file says, and nothing else: the policy is sealed and names exactly the
    destinations of the file, in canonical form and with their two flags; the
    configuration is [settings_config], field by field, with the listener, the
    principal, its secret and quotas, the limits, TLS, the administrative
    listener and the journal of the file. *)
Theorem prepare_exact tls s exec sr policy c :
  settings_ok tls s -> egress_cli_prepare s false exec sr = Prepared policy c ->
  policy_of s policy /\
  exists secret, secret_of s secret /\ c = settings_config false s secret sr <| receipt_sink := negb exec |>.
Proof.
  intros Hs E. pose proof (prepare_inv s false exec sr) as Hi. rewrite E in Hi.
  destruct Hi as (_ & secret & c0 & Hsec & Ep & Ec & ->). split.
  - destruct (build_policy_spec _ _ _ _ _ _ (settings_ports _ _ Hs) Ep) as (_ & Hsl & Hok & Hv). done.
  - exists secret. split; [done|]. rewrite (configure_OK _ _ _ _ _ _ Hs Ec). by destruct exec.
Qed.

(** What the documentation of the listener asks for: a channel without listener;
    a socket in a private directory, with a token; a loopback address, with a
    token or the explicit choice to go without; or TLS with a token. *)
Definition guarded (s : settings) : bool :=
  is_some (Settings.channel_principal s) ||
  match Settings.listen_unix s with
  | Some path => egress_unix_parent_is_private path && is_some (Settings.token_file s)
  | None => if egress_listener_is_loopback_host (Settings.listen_host s)
            then is_some (Settings.token_file s) || Settings.unauthenticated_loopback s
            else is_some (Settings.tls_cert s) && is_some (Settings.token_file s)
  end.

Lemma guards_exact tls s secret sr sink :
  settings_ok tls s -> (is_some (Settings.tls_cert s) = true -> is_Some (sr_tls sr).2) ->
  server_guards (settings_config false s secret sr <| receipt_sink := sink |>) = guarded s.
Proof.
  intros Hs Htls. unfold server_guards, guarded, settings_config, settings_principals, principal_count. simpl.
  pose proof (ok_values _ _ Hs) as Hv.
  destruct (Settings.channel_principal s) as [principal|] eqn:Ep; simpl.
  { destruct (channel_defaults _ _ Hs ltac:(rewrite Ep; by eexists)) as (Eu & Et & El & Ec & _).
    by rewrite Eu, Et, El, Ec. }
  pose proof (ok_authentication _ Hv Ep) as Hauth. destruct (Settings.listen_unix s) as [path|] eqn:Eu; simpl.
  - pose proof (ok_unix_token _ Hv ltac:(rewrite Eu; by eexists)) as El. rewrite El in *.
    destruct (Settings.token_file s); [|by discriminate (Hauth eq_refl)]. simpl.
    by destruct (egress_unix_parent_is_private path).
  - destruct (egress_listener_is_loopback_host (Settings.listen_host s)); simpl.
    + destruct (Settings.token_file s); simpl; [done|]. by rewrite (Hauth eq_refl).
    + destruct (is_some (Settings.tls_cert s)); simpl; [|done]. destruct (Htls eq_refl) as [provider ->]. simpl.
      destruct (Settings.token_file s); simpl; [done|]. by rewrite (Hauth eq_refl).
Qed.

(** A validation is a preparation that opens no journal. *)
Lemma configure_check s secret sr c :
  configure false s secret sr = (MAELYS_EGRESS_OK, c) -> (configure true s secret sr).1 = MAELYS_EGRESS_OK.
Proof.
  unfold configure. intros (c9 & E & Ea)%and_then_OK. rewrite E. cbn [and_then].
  revert Ea. unfold if_set, configure_audit. destruct (is_some (Settings.audit_log s)); [|done].
  by destruct (egress_cli_read_audit_key _).
Qed.

Lemma check_configure s secret sr c :
  configure true s secret sr = (MAELYS_EGRESS_OK, c) ->
  (is_some (Settings.audit_log s) = true -> (sr_audit sr).1 = MAELYS_EGRESS_OK /\ sr_healthy sr = true) ->
  (configure false s secret sr).1 = MAELYS_EGRESS_OK.
Proof.
  unfold configure. intros (c9 & E & Ea)%and_then_OK Haudit. rewrite E. cbn [and_then].
  revert Ea. unfold if_set, configure_audit. destruct (is_some (Settings.audit_log s)); [|done].
  destruct (Haudit eq_refl) as [E1 E2]. destruct (egress_cli_read_audit_key _); [|done]. intros _.
  destruct (sr_audit sr) as [r audit_]. simpl in E1. subst r. unfold maelys_egress_config_set_audit. rewrite E2.
  cbn [negb]. by rewrite andb_false_r.
Qed.

#[local] Ltac refute := split; [done|by intros (? & ? & ? & ?)].

(** [config validate] finds a file valid exactly when a command started in
    the same surroundings, whose journal opens, gets as far as creating its
    server: the digest it prints is the digest of the policy of that server.
    The guards of the server are not among what it checks. *)
Theorem validate_exact s exec sr digest :
  (is_some (Settings.audit_log s) = true -> (sr_audit sr).1 = MAELYS_EGRESS_OK /\ sr_healthy sr = true) ->
  egress_cli_prepare s true exec sr = Validated digest <->
  exists policy c, egress_cli_prepare s false exec sr = Prepared policy c /\
    digest = maelys_egress_policy_digest_hex (Some policy).
Proof.
  intros Haudit. unfold egress_cli_prepare.
  destruct (match Settings.token_file s with Some path => _ | None => _ end) as [secret|]; [|refute].
  destruct (egress_cli_build_policy _ _ _ _) as [[] [policy|]]; try refute.
  destruct (sr_config sr); [|refute]. cbn [negb].
  destruct (configure true s secret sr) as [r1 c1] eqn:E1. destruct (configure false s secret sr) as [r0 c0] eqn:E0.
  destruct (decide (r1 = MAELYS_EGRESS_OK)) as [->|Hne].
  - pose proof (check_configure _ _ _ _ E1 Haudit) as Er. rewrite E0 in Er. simpl in Er. subst r0.
    split; [intros [= <-]; by eexists _, _|]. by intros (p & c & [= <- _] & ->).
  - assert (Hr0 : r0 <> MAELYS_EGRESS_OK).
    { intros ->. apply Hne. apply configure_check in E0. by rewrite E1 in E0. }
    destruct r1, r0; try done; refute.
Qed.

End Prepare.

(** * Exposure *)

Section Exposure.
Context `{Inet} `{Fs} `{ListenSys} `{Cli} `{Resolver}.

(** Programs that leave the configuration and the listener of the server. *)
Definition steady {A} (p : M A) : Prop :=
  forall m, server_config (server (p m).2) = server_config (server m) /\
    listener_socket (server (p m).2) = listener_socket (server m).

Lemma steady_ret {A} (x : A) : steady (mret x).
Proof. done. Qed.

Lemma steady_bind {A B} (p : M A) (k : A -> M B) : steady p -> (forall x, steady (k x)) -> steady (p ≫= k).
Proof.
  intros Hp Hk m. unfold mbind, M_bind. specialize (Hp m). destruct (p m) as [x m']. cbn in Hp.
  destruct Hp as [<- <-]. apply Hk.
Qed.

Lemma steady_call {A} (g : world -> A * world) : steady (call g).
Proof. intros m. unfold call. by destruct (g _). Qed.

#[local] Ltac solve_steady :=
  repeat first
    [ apply steady_ret | apply steady_call | assumption
    | match goal with Hs : forall _, steady _ |- _ => apply Hs end
    | match goal with Hs : forall _ _, steady _ |- _ => apply Hs end
    | (intros ?; split; reflexivity)
    | apply steady_bind; [|intros]
    | match goal with |- context [match ?x with _ => _ end] => destruct x end ].

Lemma steady_release h : steady (socket_release h).
Proof. unfold socket_release. solve_steady. Qed.

Lemma steady_create_tcp host port_ : steady (egress_listener_create_tcp host port_).
Proof.
  unfold egress_listener_create_tcp. apply steady_bind; [apply steady_call|]. intros [answers|]; [|apply steady_ret].
  pose proof steady_release. apply steady_bind; [|intros; solve_steady].
  induction answers; cbn [bind_first]; solve_steady.
Qed.

Lemma steady_create_unix path : steady (egress_listener_create_unix path).
Proof.
  unfold egress_listener_create_unix, egress_listener_unlink_unix_identity, when. pose proof steady_release.
  solve_steady.
Qed.

Lemma steady_create_admin c : steady (create_admin_listener c).
Proof. unfold create_admin_listener. pose proof steady_create_tcp. solve_steady. Qed.

Lemma steady_wp {A} (p : M A) (Q : A -> machine -> Prop) m :
  steady p ->
  (forall x m', server_config (server m') = server_config (server m) ->
     listener_socket (server m') = listener_socket (server m) -> Q x m') -> wp p Q m.
Proof. intros Hp HQ. destruct (Hp m). by apply HQ. Qed.

(** A creation that succeeds leaves a listener, unless the server is native. *)
Lemma create_listener_ends c m :
  wp (create_listener c) (fun r m' => server_config (server m') = server_config (server m) /\
    (r = MAELYS_EGRESS_OK -> if native_only c then listener_socket (server m') = listener_socket (server m)
                             else is_Some (listener_socket (server m')))) m.
Proof.
  unfold create_listener. destruct (native_only c); [done|]. destruct (_ && _); [done|]. apply wp_bind.
  apply wp_mono with (Q := fun _ m' => server_config (server m') = server_config (server m)).
  { destruct (listen_unix c); apply wp_bind; (eapply steady_wp; [auto using steady_create_tcp, steady_create_unix|]); done. }
  intros _ m1 E1. apply wp_bind, wp_bind. unfold wp at 1 2, set_server, get_server. cbn [fst snd server].
  cbn. destruct (listener_socket (server m1)) as [l|] eqn:El; [|by split].
  apply wp_bind. eapply steady_wp; [apply steady_call|]. intros [w|] m2 E2 El2; cbn in E2, El2; [|by apply wp_ret; split; [congruence|]].
  apply wp_bind. unfold wp, set_server. cbn. rewrite E2, El2. split; [done|]. intros _. by rewrite El.
Qed.

Lemma create_ends mem reactor policy c m :
  wp (maelys_egress_server_create mem reactor (Some policy) c) (fun r m' =>
    r = MAELYS_EGRESS_OK -> server_config (server m') = c /\
    if native_only c then listener_socket (server m') = None else is_Some (listener_socket (server m'))) m.
Proof.
  unfold maelys_egress_server_create. destruct (negb _); [done|]. destruct (negb _); [done|].
  destruct (clone_policy mem policy) as [copy|]; [|done]. apply wp_bind. unfold wp at 1, set_server. cbn [snd]. apply wp_bind.
  set (m0 := m <| server := _ |>).
  apply wp_mono with (Q := fun r m' => r = MAELYS_EGRESS_OK -> server_config (server m') = c /\
    if native_only c then listener_socket (server m') = None else is_Some (listener_socket (server m'))).
  - destruct reactor; cbn [negb]; [|done]. apply wp_bind. eapply wp_mono; [apply create_listener_ends|].
    intros r m1 [E1 Hl]. destruct (bool_decide_reflect (r = MAELYS_EGRESS_OK)) as [->|Hr]; [|by intros ?].
    eapply steady_wp; [apply steady_create_admin|]. intros r2 m2 E2 El2 _. rewrite E2, El2, E1. split; [done|].
    specialize (Hl eq_refl). by destruct (native_only c).
  - intros r m1 Hm1. unfold when. apply wp_bind. destruct (bool_decide_reflect (r = MAELYS_EGRESS_OK)) as [->|Hr]; cbn [negb].
    + by apply wp_ret, wp_ret.
    + apply wp_mono with (Q := fun _ _ => True); [done|]. intros _ m2 _. by apply wp_ret.
Qed.

(** The guards come before the first system call. *)
Lemma create_guarded mem reactor policy c m :
  server_guards c = false ->
  (maelys_egress_server_create mem reactor (Some policy) c m).2 = m /\
  (maelys_egress_server_create mem reactor (Some policy) c m).1 <> MAELYS_EGRESS_OK.
Proof.
  intros E. unfold maelys_egress_server_create. rewrite E. by destruct (negb _).
Qed.

(** What a server that was made of these settings listens to, and what it asks
    of its clients. *)
Definition exposed_as (s : settings) (sv : maelys_egress_server) : Prop :=
  let c := server_config sv in
  match Settings.channel_principal s, Settings.listen_unix s with
  | Some _, _ => listener_socket sv = None
  | None, Some path => is_Some (listener_socket sv) /\ listen_unix c = true /\ unix_path c = path /\
      egress_unix_parent_is_private path = true /\ authentication_set c = true
  | None, None => is_Some (listener_socket sv) /\ listen_unix c = false /\
      listen_host c = Settings.listen_host s /\
      if egress_listener_is_loopback_host (listen_host c)
      then authentication_set c = true \/ unauthenticated_loopback c = true
      else is_Some (tls_provider c) /\ authentication_set c = true
  end.

Lemma guarded_exposed tls s secret sr sink sv :
  settings_ok tls s -> (is_some (Settings.tls_cert s) = true -> is_Some (sr_tls sr).2) -> guarded s = true ->
  server_config sv = settings_config false s secret sr <| receipt_sink := sink |> ->
  (if is_some (Settings.channel_principal s) then listener_socket sv = None else is_Some (listener_socket sv)) ->
  exposed_as s sv.
Proof.
  intros Hs Htls Hg E Hl. unfold exposed_as, guarded in *. rewrite E. cbn.
  destruct (Settings.channel_principal s); cbn in *; [done|].
  destruct (Settings.listen_unix s) as [path|]; cbn in *.
  - apply andb_true_iff in Hg as [Hp Ht]. done.
  - split_and!; try done. destruct (egress_listener_is_loopback_host _); [by apply orb_true_iff|].
    apply andb_true_iff in Hg as [Hc Ht]. rewrite Hc. auto.
Qed.



End Exposure.

(** * The daemon and its reloads *)

Section ConfigReachable.
Context `{Inet} `{Fs} `{Cli}.

Lemma and_then_reachable r f :
  Config.reachable r.2 -> (forall c, Config.reachable c -> Config.reachable (f c).2) -> Config.reachable (and_then r f).2.
Proof. destruct r as [[] c]; simpl; auto. Qed.

Lemma if_set_reachable b f c :
  (Config.reachable c -> Config.reachable (f c).2) -> Config.reachable c -> Config.reachable (if_set b f c).2.
Proof. destruct b; simpl; auto. Qed.

Lemma reach_call c call : call_typed call -> Config.reachable c -> Config.reachable (config_apply c call).2.
Proof. intros Ht Hc. by apply reachable_call. Qed.

Lemma configure_reachable tls check_only s secret sr :
  settings_ok tls s -> Config.reachable (configure check_only s secret sr).2.
Proof.
  intros Hs.
  assert (Hn : forall k n, field k s = VNumber n -> is_u64 n).
  { intros k n E. pose proof (ok_typed _ _ Hs k) as Hk. rewrite E in Hk. by eapply number_range_u64. }
  assert (Hq1 := Hn EGRESS_CLI_KEY_QUOTA_CONNECTIONS _ eq_refl). assert (Hq2 := Hn EGRESS_CLI_KEY_QUOTA_BYTES _ eq_refl).
  assert (Hq3 := Hn EGRESS_CLI_KEY_QUOTA_TOTAL_BYTES _ eq_refl). assert (Hm := Hn EGRESS_CLI_KEY_MAX_CONNECTIONS _ eq_refl).
  unfold configure. repeat apply and_then_reachable; try (intros c Hc).
  - apply reachable_create.
  - unfold configure_listener. destruct (is_some _); [by apply (reach_call c (SetNativeOnly 1))|].
    destruct (Settings.listen_unix s) as [path|]; [by apply (reach_call c (SetListenUnix path (len path) _))|].
    by apply (reach_call c (SetListen _ _)).
  - unfold configure_principal. destruct (Settings.channel_principal s) as [principal|]; [|done].
    by apply (reach_call c (SetNativePrincipal principal _)).
  - apply if_set_reachable; [intros _|done]. unfold configure_tls. destruct (sr_tls sr) as [[] provider]; try done.
    by apply (reach_call c (SetTlsListener provider)).
  - apply if_set_reachable; [intros _|done]. by apply (reach_call c (SetAuthentication maelys_name secret)).
  - apply if_set_reachable; [intros _|done]. by apply (reach_call c (SetPrincipalQuota _ _ _ _)).
  - apply if_set_reachable; [intros _|done]. by apply (reach_call c (AllowUnauthenticatedLoopback 1)).
  - apply (reach_call c (SetLimits (Settings.max_connections s) 32768 10000 60000)); [|done]. by unfold is_u64; simpl; split_and!; try lia.
  - apply if_set_reachable; [intros _|done]. by apply (reach_call c (SetAdminListen _ _)).
  - apply if_set_reachable; [intros _|done]. unfold configure_audit. destruct (egress_cli_read_audit_key _); [|done].
    destruct check_only; [done|]. destruct (sr_audit sr) as [[] audit_]; try done.
    by apply (reach_call c (SetAudit audit_ _)).
Qed.

End ConfigReachable.

Section BuildReachable.
Context `{Inet}.

Lemma build_destinations_reachable mem i p ds :
  Forall (fun d => is_u16 (Destination.port d)) ds -> policy_reachable p ->
  policy_reachable (build_destinations mem i p ds).2.
Proof.
  revert i p. induction ds as [|d ds IH]; intros i p Hu Hp; cbn [build_destinations]; [done|].
  apply Forall_cons in Hu as [Hd Hu].
  pose proof (policy_reachable_call p (AllowTcp (mem i).1 (mem i).2 (Destination.host d) (Destination.port d)
    (Destination.allow_private d)) Hp Hd) as H1. cbn [policy_apply] in H1.
  destruct (maelys_egress_policy_allow_tcp _ _ _ _ _ _) as [r1 p1]. destruct r1; try done. cbn [snd] in H1.
  destruct (Destination.require_tls_sni d); [|by apply IH].
  pose proof (policy_reachable_call p1 (RequireTlsSni (Destination.host d) (Destination.port d)) H1 Hd) as H2.
  cbn [policy_apply] in H2. destruct (maelys_egress_policy_require_tls_sni _ _ _) as [r2 p2].
  destruct r2; try done. by apply IH.
Qed.

Lemma build_policy_reachable `{Resolver} create mem digest s r p :
  Forall (fun d => is_u16 (Destination.port d)) (Settings.destinations s) ->
  egress_cli_build_policy create mem digest s = (r, Some p) -> policy_reachable p.
Proof.
  intros Hu. unfold egress_cli_build_policy. destruct create; cbn [negb]; [|done].
  pose proof (build_destinations_reachable mem 0 _ _ Hu policy_reachable_create) as Hb.
  destruct (build_destinations _ _ _ _) as [r1 p1]. destruct r1; try done.
  destruct (Settings.destination_count s =? 0); [done|].
  pose proof (policy_reachable_call p1 (Seal _ digest) Hb I) as Hs. cbn [policy_apply] in Hs.
  destruct (maelys_egress_policy_seal digest p1) as [r2 p2]. destruct r2; try done. by intros [= _ <-].
Qed.

End BuildReachable.

Section Daemon.
Context `{Inet} `{Fs} `{ListenSys} (tls : bool) (path : bytes) (baseline : settings).

(** The settings in force after a turn of the signal waiter. *)
Definition in_force (w : waited) (ss : list settings) : list settings :=
  match w with Told (Reloaded _ fresh) => fresh :: ss | _ => ss end.

(** The states of a daemon that was started on the file at [path] with the
    settings [baseline]: the owner's steps, the calls of other threads, the
    turns of the signal waiter.  The list holds the settings of the files whose
    destinations have been in force, latest first. *)
Inductive daemon_reachable (config : maelys_egress_config) : list settings -> machine -> Prop :=
| daemon_started (cli : Cli) (resolver : Resolver) (laws : @CliLaws cli) calloc copy exec sr mem reactor m policy :
    egress_cli_settings_load tls calloc copy path = inr baseline -> trace m = [] ->
    egress_cli_prepare baseline false exec sr = Prepared policy config ->
    (egress_cli_start baseline exec sr mem reactor m).1 = None ->
    daemon_reachable config [baseline] (egress_cli_start baseline exec sr mem reactor m).2
| daemon_owner ss m m' :
    daemon_reachable config ss m -> owner_step config m m' -> daemon_reachable config ss m'
| daemon_other ss m a :
    daemon_reachable config ss m -> daemon_reachable config ss (perform_other a m).2
| daemon_signal ss m program stopping signal o (laws : @CliLaws (oc_cli o)) :
    daemon_reachable config ss m ->
    let turn := signal_turn tls program stopping path baseline signal o m in
    daemon_reachable config (in_force turn.1 ss) turn.2
| daemon_destroyed ss m :
    daemon_reachable config ss m -> running (server m) = true ->
    daemon_reachable config ss (maelys_egress_server_destroy m).2.

(** The policies of a reachable daemon are those of its files. *)
Definition from_files (ss : list settings) (p : maelys_egress_policy) : Prop := exists s, s ∈ ss /\ policy_of s p.

Lemma policy_of_clone s mem p copy : policy_of s p -> clone_policy mem p = Some copy -> policy_of s copy.
Proof.
  intros (Hs & Hok & Hv) E. destruct (clone_policy_ok _ _ _ Hok Hs E) as [Hok' Hs']. split_and!; [done|done|].
  revert E. unfold clone_policy. destruct mem; [|done]. by intros [= <-].
Qed.

(** The invariant: the server is one of System.v, its policies come from the
    files, and these differ from the first in their destinations only. *)
Definition daemon_inv (config : maelys_egress_config) (ss : list settings) (m : machine) : Prop :=
  exists policies, server_reachable config policies m /\ Forall (from_files ss) policies /\
    Forall (fun s => settings_ok tls s /\ egress_cli_settings_control_equal baseline s = true) ss.

Lemma from_files_mono s ss p : from_files ss p -> from_files (s :: ss) p.
Proof. intros (s' & Hs & Hp). exists s'. split; [by right|done]. Qed.

Lemma control_equal_refl s : egress_cli_settings_control_equal s s = true.
Proof.
  unfold egress_cli_settings_control_equal.
  assert (Ht : forall o, same_text o o = true) by (intros o; by apply same_text_spec).
  by rewrite !beq_refl, !Z.eqb_refl, !eqb_reflx, !Ht, bool_decide_true.
Qed.

Context {Slaws : SysLaws}.

Lemma started_inv config (cli : Cli) (resolver : Resolver) (laws : @CliLaws cli) calloc copy exec sr mem reactor m policy :
  egress_cli_settings_load tls calloc copy path = inr baseline -> trace m = [] ->
  egress_cli_prepare baseline false exec sr = Prepared policy config ->
  (egress_cli_start baseline exec sr mem reactor m).1 = None ->
  daemon_inv config [baseline] (egress_cli_start baseline exec sr mem reactor m).2.
Proof using Slaws.
  intros Hl Ht Ep Est. pose proof (load_settings_ok _ _ _ _ _ Hl) as Hs. pose proof (settings_ports _ _ Hs) as Hu.
  pose proof (prepare_inv baseline false exec sr) as Hi. rewrite Ep in Hi.
  destruct Hi as (_ & secret & c0 & Hsec & Eb & Ec & Econf).
  pose proof (build_policy_reachable _ _ _ _ _ _ Hu Eb) as Hreach.
  destruct (build_policy_spec _ _ _ _ _ _ Hu Eb) as (_ & Hpol).
  assert (Hconfig : Config.reachable config).
  { pose proof (configure_reachable tls false baseline secret sr Hs) as Hc. rewrite Ec in Hc. rewrite Econf.
    destruct exec; [done|]. by apply (reach_call c0 (SetReceiptSink true)). }
  revert Est. unfold egress_cli_start. rewrite Ep. unfold mbind, M_bind. intros Est.
  pose proof (create_installs config (reachable_ok _ Hconfig) mem reactor policy m (policy_reachable_ok _ Hreach) Ht) as Hcr.
  pose proof (reachable_created config mem reactor policy m Hconfig Hreach Ht) as Hr.
  destruct (maelys_egress_server_create mem reactor (Some policy) config m) as [r m']. cbn [fst snd] in *.
  assert (r = MAELYS_EGRESS_OK) as -> by (by revert Est; case_bool_decide).
  destruct (Hcr eq_refl) as (copy' & Eclone & Hinv). exists [server_policy (server m')]. split_and!.
  - by apply Hr.
  - pose proof (inv_policy _ _ _ Hinv) as Hin%list_elem_of_singleton. rewrite Hin. apply Forall_singleton.
    exists baseline. split; [by left|]. by eapply policy_of_clone.
  - apply Forall_singleton. split; [done|apply control_equal_refl].
Qed.

Lemma replace_policy_spec mem policy m :
  let '((r, g), m') := maelys_egress_server_replace_policy mem (Some policy) m in
  (r = MAELYS_EGRESS_OK /\ exists copy, clone_policy mem policy = Some copy /\ server_policy (server m') = copy) \/
  (r <> MAELYS_EGRESS_OK /\ server_policy (server m') = server_policy (server m)).
Proof.
  unfold maelys_egress_server_replace_policy. destruct (negb (sealed policy)); [by right|].
  destruct (clone_policy mem policy) as [copy|]; [|by right].
  unfold mbind, M_bind, get_server. destruct (stopping (server m)); [by right|]. left. by split; [|exists copy].
Qed.

(** A turn of the signal waiter. *)
Lemma signal_inv config ss m program stopping signal o (laws : @CliLaws (oc_cli o)) :
  daemon_inv config ss m ->
  let turn := signal_turn tls program stopping path baseline signal o m in
  daemon_inv config (in_force turn.1 ss) turn.2.
Proof using Slaws.
  intros (policies & Hr & Hf & Hss). unfold signal_turn. destruct signal as [signal|]; [|by exists policies].
  destruct (program && stopping); [by exists policies|]. destruct (bool_decide (signal = SIGHUP)).
  2:{ destruct program; [by exists policies|]. pose proof (reachable_other _ _ _ System.Stop Hr) as Hr'. cbn [perform_other] in Hr'.
      unfold mbind, M_bind in *. destruct (maelys_egress_server_stop m) as [r m']. by exists policies. }
  unfold reload.
  destruct (egress_cli_settings_load tls (oc_calloc o) (oc_copy o) path) as [e|fresh] eqn:El; [by exists policies|].
  destruct (egress_cli_settings_control_equal baseline fresh) eqn:Ectl; cbn [negb]; [|by exists policies].
  pose proof (load_settings_ok _ _ _ _ _ El) as Hs. pose proof (settings_ports _ _ Hs) as Hu.
  destruct (@egress_cli_build_policy _ (oc_resolver o) _ _ _ fresh) as [r replacement] eqn:Eb.
  destruct (bool_decide_reflect (r = MAELYS_EGRESS_OK)) as [->|Hne]; cbn [negb]; [|by exists policies].
  pose proof (build_policy_spec _ _ _ _ _ _ Hu Eb) as Hp. destruct replacement as [policy|]; [|done].
  destruct Hp as (_ & Hp). pose proof (build_policy_reachable _ _ _ _ _ _ Hu Eb) as Hreach.
  pose proof (reachable_replace config policies m (oc_clone o) policy Hr Hreach) as Hr'. cbv zeta in Hr'.
  pose proof (replace_policy_spec (oc_clone o) policy m) as Hsp.
  unfold mbind, M_bind. destruct (maelys_egress_server_replace_policy (oc_clone o) (Some policy) m) as [[r g] m'].
  cbn [fst snd] in *. eexists. split; [exact Hr'|]. rewrite Forall_cons.
  assert (Hcur : from_files ss (server_policy (server m))).
  { rewrite Forall_forall in Hf. apply Hf. exact (inv_policy _ _ _ (reachable_holds _ _ _ Hr)). }
  case_bool_decide as Hok; cbn [in_force].
  - destruct Hsp as [(_ & copy & Ec & ->)|[? _]]; [|done]. split_and!.
    + exists fresh. split; [by left|]. by eapply policy_of_clone.
    + eapply Forall_impl; [exact Hf|]. intros p. apply from_files_mono.
    + by apply Forall_cons.
  - destruct Hsp as [[? _]|(_ & ->)]; [done|]. done.
Qed.

Lemma daemon_holds config ss m : daemon_reachable config ss m -> daemon_inv config ss m.
Proof using Slaws.
  induction 1 as [cli resolver laws calloc copy exec sr mem reactor m policy Hl Ht Ep Est
    |ss m m' _ (policies & Hr & Hf) Hstep|ss m a _ (policies & Hr & Hf)
    |ss m program stopping signal o laws _ IH|ss m _ (policies & Hr & Hf) Hrun].
  - by eapply started_inv.
  - exists policies. split; [|done]. by eapply reachable_owner.
  - exists policies. split; [|done]. by apply reachable_other.
  - by apply signal_inv.
  - exists policies. split; [|done]. by apply reachable_destroy.
Qed.

(** A destination of one of the files, for a host, a port and an address. *)
Definition named (ss : list settings) (host : bytes) (port_ : Z) (a : egress_address_t)
    (d : Destination.egress_cli_destination_t) : Prop :=
  (exists s, s ∈ ss /\ d ∈ Settings.destinations s) /\
  egress_canonical_host (Destination.host d) = Some host /\ Destination.port d = port_ /\
  (Destination.allow_private d = false -> egress_address_is_private (Some (storage a)) = false).

Lemma pinned_named ss p host port_ pd a :
  from_files ss p -> egress_policy_find (Some p) host port_ = Some pd -> a ∈ addresses pd ->
  exists d, named ss host port_ a d /\ Destination.require_tls_sni d = require_tls_sni pd.
Proof.
  intros (s & Hs & Hsl & Hok & Hv) Hf Ha. apply find_spec in Hf as [Hin Hk]; [|done|done].
  destruct (proj1 (Hv (host, port_) (Policy.flags pd))) as (d & Hd & Hh & Hp & Hfl).
  { apply view_lookup; [exact (policy_ok_keys _ Hok)|]. by exists pd. }
  injection Hfl as Epriv Esni. exists d. split; [|done]. split_and!; [by exists s|done|done|].
  pose proof (policy_ok_destinations _ Hok) as Hall. rewrite Forall_forall in Hall.
  intros E. pose proof (dest_ok_global _ (Hall pd Hin) ltac:(congruence)) as Hg. rewrite Forall_forall in Hg. by apply Hg.
Qed.

(** C2: from the text of the configuration file to the packets.  A daemon that
    was started on a file and reloads it on SIGHUP, in whatever interleaving of
    its threads, and whatever clients, upstreams and the resolver do, connects
    only to an address resolved for a destination that the file named when it
    was started or at an accepted reload, to a private address only when that
    line allows it; bytes go upstream only on such a connection, and for a
    destination that asks for it only after a ClientHello that names its host.
    Nothing but the destinations has changed since the start. *)
Theorem daemon_confined config ss m after e before :
  daemon_reachable config ss m -> trace m = after ++ e :: before ->
  Forall (fun s => egress_cli_settings_control_equal baseline s = true) ss /\
  match e with
  | ConnectTo _ host port_ a => exists d, named ss host port_ a d
  | ToUpstream slot b =>
      let f := flow_of slot before in
      exists host port_ a d, target f = Some (host, port_, a) /\ named ss host port_ a d /\
        (Destination.require_tls_sni d = true -> egress_tls_client_hello_matches (up_in f) host = HelloMatch)
  | _ => True
  end.
Proof using Slaws.
  intros (policies & Hr & Hf & Hss)%daemon_holds Ht.
  split; [eapply Forall_impl; [exact Hss|]; by intros s []|].
  pose proof (reachable_event _ _ _ _ _ _ Hr Ht) as He. rewrite Forall_forall in Hf.
  destruct e; cbn in *; try done.
  - destruct He as (_ & host & port_ & a & pd & Et & (p & Hp & Hfind) & Ha & Hsni).
    destruct (pinned_named _ _ _ _ _ _ (Hf p Hp) Hfind Ha) as (d & Hd & Esni).
    exists host, port_, a, d. split_and!; [done|done|]. rewrite Esni. exact Hsni.
  - destruct He as (pd & (p & Hp & Hfind) & Ha).
    destruct (pinned_named _ _ _ _ _ _ (Hf p Hp) Hfind Ha) as (d & Hd & _). by exists d.
Qed.

End Daemon.

(** * A daemon in the scripted world *)

Section Example.
#[local] Existing Instances dotted_inet empty_fs scripted scripted_listen resolver_forward.

Definition daemon_text (allowed : list string) : bytes :=
  concat (map (fun line => str line ++ [c_lf])
    (["schema_version = 1"; "unauthenticated_loopback = true"; "max_connections = 2"]%string ++ allowed)).

Definition first_text : bytes := daemon_text ["allow = A.example:443"]%string.
Definition second_text : bytes := daemon_text ["allow = A.example:443"; "allow = b.example:443"]%string.

#[local] Instance first_cli : Cli := example_cli first_text.

Definition daemon_settings (ds : list Destination.egress_cli_destination_t) : settings :=
  default_settings <| Settings.destinations := ds |> <| Settings.unauthenticated_loopback := true |>
    <| Settings.max_connections := 2 |>.
Definition first_settings : settings := daemon_settings [Destination.Make (str "A.example") 443 false false].

Lemma first_loads : egress_cli_settings_load false true (fun _ => true) [] = inr first_settings.
Proof. vm_compute. reflexivity. Qed.

Definition example_surroundings : surroundings :=
  Surroundings true (fun _ => (true, true)) true true (MAELYS_EGRESS_OK, Some 1) (MAELYS_EGRESS_OK, Some 2) true.

Definition example_prepared : maelys_egress_config :=
  match egress_cli_prepare first_settings false false example_surroundings with
  | Prepared _ c => c
  | _ => zero_config
  end.
Definition example_policy : maelys_egress_policy :=
  match egress_cli_prepare first_settings false false example_surroundings with
  | Prepared p _ => p
  | _ => maelys_egress_policy_create
  end.

Lemma first_prepared :
  egress_cli_prepare first_settings false false example_surroundings = Prepared example_policy example_prepared.
Proof. vm_compute. reflexivity. Qed.

(** The daemon after its start, after a session with a client, and after a
    SIGHUP that finds the second text. *)
Definition daemon_up : machine :=
  (egress_cli_start first_settings false example_surroundings true true before_creation).2.
Definition daemon_busy : machine := act session daemon_up.
Definition example_occasion : occasion :=
  Occasion (example_cli second_text) resolver_forward true (fun _ => true) true (fun _ => (true, true)) true true.
Definition example_hup : waited * machine :=
  signal_turn false false false [] first_settings (Some SIGHUP) example_occasion daemon_busy.
Definition second_settings : settings :=
  daemon_settings [Destination.Make (str "A.example") 443 false false; Destination.Make (str "b.example") 443 false false].

Lemma act_daemon_reachable config l ss m :
  Forall (action_ok config) l -> daemon_reachable false [] first_settings config ss m ->
  daemon_reachable false [] first_settings config ss (act l m).
Proof.
  revert m. induction l as [|a l IH]; intros m Hl Hm; [done|]. apply Forall_cons in Hl as [Ha Hl].
  cbn [act fold_left]. apply IH; [done|]. apply (daemon_owner _ _ _ _ _ m); [done|]. by exists a.
Qed.

Lemma daemon_busy_reachable : daemon_reachable false [] first_settings example_prepared [first_settings] daemon_busy.
Proof.
  apply act_daemon_reachable; [by repeat constructor|].
  exact (daemon_started false [] first_settings example_prepared first_cli resolver_forward (example_cli_laws first_text)
    true (fun _ => true) false example_surroundings true true before_creation example_policy
    first_loads eq_refl first_prepared eq_refl).
Qed.

Lemma example_hup_told : example_hup.1 = Told (Reloaded 2 second_settings).
Proof. vm_compute. reflexivity. Qed.

Lemma daemon_hup_reachable :
  daemon_reachable false [] first_settings example_prepared [second_settings; first_settings] example_hup.2.
Proof.
  assert (Hr : daemon_reachable false [] first_settings example_prepared (in_force example_hup.1 [first_settings])
    example_hup.2).
  { exact (daemon_signal false [] first_settings example_prepared [first_settings] daemon_busy false false (Some SIGHUP)
      example_occasion (example_cli_laws second_text) daemon_busy_reachable). }
  rewrite example_hup_told in Hr. exact Hr.
Qed.

Lemma daemon_confined_witness :
  let f := flow_of 0 (drop 3 (trace example_hup.2)) in
  exists host port_ a d, target f = Some (host, port_, a) /\
    named [second_settings; first_settings] host port_ a d /\
    (Destination.require_tls_sni d = true -> egress_tls_client_hello_matches (up_in f) host = HelloMatch).
Proof.
  apply (@daemon_confined _ _ _ _ false [] first_settings scripted_laws example_prepared
    [second_settings; first_settings] example_hup.2 (take 2 (trace example_hup.2)) (ToUpstream 0 (str "hello"))
    (drop 3 (trace example_hup.2))).
  - apply daemon_hup_reachable.
  - vm_compute. reflexivity.
Defined.

(** A file that asks for a listener on every address, with a token and without
    TLS: it is valid, and no server is ever made of it. *)
Definition exposed_text : bytes :=
  concat (map (fun line => str line ++ [c_lf])
    ["schema_version = 1"; "listen = 0.0.0.0:8080"; "token_file = /run/token"; "quota_connections = 3";
     "allow = a.example:443"]%string).
Definition exposed_settings : settings :=
  default_settings <| Settings.destinations := [Destination.Make (str "a.example") 443 false false] |>
    <| Settings.listen_host := str "0.0.0.0" |> <| Settings.listen_port := 8080 |> <| Settings.listen_set := true |>
    <| Settings.token_file := Some (str "/run/token") |> <| Settings.quota_connections := 3 |>.

Lemma exposed_settings_ok : settings_ok false exposed_settings.
Proof.
  apply (@load_settings_ok (example_cli exposed_text) (example_cli_laws exposed_text) false true (fun _ => true) []).
  vm_compute. reflexivity.
Qed.

Definition token_cli : Cli := example_cli (str "0123456789abcdef").

Definition exposed_config : maelys_egress_config :=
  match @egress_cli_prepare _ _ token_cli _ exposed_settings false false example_surroundings with
  | Prepared _ c => c
  | _ => zero_config
  end.
Definition exposed_policy : maelys_egress_policy :=
  match @egress_cli_prepare _ _ token_cli _ exposed_settings false false example_surroundings with
  | Prepared p _ => p
  | _ => maelys_egress_policy_create
  end.

Lemma exposed_prepared :
  @egress_cli_prepare _ _ token_cli _ exposed_settings false false example_surroundings =
    Prepared exposed_policy exposed_config.
Proof. vm_compute. reflexivity. Qed.

Lemma prepare_exact_witness :
  policy_of exposed_settings exposed_policy /\
  exists secret, @secret_of token_cli exposed_settings secret /\
    exposed_config = settings_config false exposed_settings secret example_surroundings <| receipt_sink := true |>.
Proof.
  exact (@prepare_exact _ _ token_cli _ false exposed_settings false example_surroundings exposed_policy exposed_config
    exposed_settings_ok exposed_prepared).
Defined.

Lemma first_settings_ok : settings_ok false first_settings.
Proof. exact (@load_settings_ok first_cli (example_cli_laws first_text) false true (fun _ => true) [] _ first_loads). Qed.


Lemma validate_exact_witness :
  @egress_cli_prepare _ _ token_cli _ exposed_settings true false example_surroundings =
    Validated (maelys_egress_policy_digest_hex (Some exposed_policy)).
Proof.
  apply (@validate_exact _ _ token_cli _ exposed_settings false example_surroundings); [done|].
  exists exposed_policy, exposed_config. split; [apply exposed_prepared|done].
Defined.

End Example.

