(* ===== verification/Tls.v ===== *)
(** The TLS seam: the table of a provider and its references (core/tls.c), the
    transport the two providers share (providers/socket_io.c), and the providers
    themselves (providers/tls_mbedtls.c and providers/tls_wolfssl.c).

    The TLS libraries are not among the sources.  What one of their calls does is
    a tree of the callbacks it makes ([lib]), run against the callbacks of the
    provider; the class [TlsLib] is a library, [TlsLibLaws] its documented bounds
    on what a call transfers.  [TlsSys] is the socket.

    A trace that no program reads records the messages of the socket, the bytes
    handed to the library and those it sent. *)

From S2P Require Import Prelude Common Codec Config Policy Receipt Buffer Server ChannelServer.

(** * The table of a provider (core/tls.c) *)

Definition MAELYS_EGRESS_TLS_ABI_VERSION : Z := 1.

(** Which operations a table has. *)
Record maelys_egress_tls_ops := TlsOps {
  abi_version : Z;
  ops_name : option bytes;
  op_session_create : bool;
  op_handshake : bool;
  op_read : bool;
  op_write : bool;
  op_shutdown : bool;
  op_last_error : bool;
  op_session_release : bool;
}.

(** [provider_context] is what a release of the context releases. *)
Record maelys_egress_tls_provider := Provider {
  references : Z;
  provider_name : bytes;
  provider_context : option Z;
}.

#[export] Instance eta_tls_provider : Eta maelys_egress_tls_provider := fun p =>
  Provider (references p) (provider_name p) (provider_context p).

Definition maelys_egress_tls_provider_create (ops : option maelys_egress_tls_ops) (context : option Z)
    (calloc strdup : bool) : maelys_egress_result_t * option maelys_egress_tls_provider :=
  match ops with
  | None => (MAELYS_EGRESS_ERR_ARGUMENT, None)
  | Some ops =>
      match ops_name ops with
      | None => (MAELYS_EGRESS_ERR_ARGUMENT, None)
      | Some name =>
          if (len name =? 0) || (63 <? len name) then (MAELYS_EGRESS_ERR_ARGUMENT, None)
          else if existsb (fun b => (b <? 0x21) || (0x7e <? b)) name then (MAELYS_EGRESS_ERR_ARGUMENT, None)
          else if negb (abi_version ops =? MAELYS_EGRESS_TLS_ABI_VERSION) then (MAELYS_EGRESS_ERR_UNSUPPORTED, None)
          else if negb (op_session_create ops && op_handshake ops && op_read ops && op_write ops && op_shutdown ops &&
                        op_last_error ops && op_session_release ops) then (MAELYS_EGRESS_ERR_ARGUMENT, None)
          else if negb calloc then (MAELYS_EGRESS_ERR_MEMORY, None)
          else if negb strdup then (MAELYS_EGRESS_ERR_MEMORY, None)
          else (MAELYS_EGRESS_OK, Some (Provider 1 name context))
      end
  end.

Definition maelys_egress_tls_provider_retain (p : maelys_egress_tls_provider) : maelys_egress_tls_provider :=
  p <| references := (references p + 1) mod 2 ^ 32 |>.

(** What is left of the provider, and the context that is released with it. *)
Definition maelys_egress_tls_provider_release (p : maelys_egress_tls_provider)
  : option maelys_egress_tls_provider * option Z :=
  if negb (references p =? 1) then (Some (p <| references := (references p - 1) mod 2 ^ 32 |>), None)
  else (None, provider_context p).

(** * The transport (providers/socket_io.c) *)

Inductive errno := EINVAL | EPROTO | EAGAIN | EINTR | ECONNRESET | EPIPE | EOTHER.

#[export] Instance errno_eq_dec : EqDecision errno.
Proof. solve_decision. Defined.

Record egress_tls_socket := TlsSocket {
  fd : Z;
  unix_stream : bool;
  failed : bool;
}.

(** The calls on the socket: whether it does not block, whether it is a stream,
    whether it is of the Unix family; a receive and a send.  The descriptors
    passed to a receive with no room for them are closed by the library. *)
Class TlsSys := {
  tworld : Type;
  t_nonblock : Z -> tworld -> option bool;
  t_stream : Z -> tworld -> option bool;
  t_unix : Z -> tworld -> option bool;
  t_recv : Z -> Z -> tworld -> (errno + bytes) * tworld;
  t_fd_stream_receive : Z -> Z -> tworld -> (Fdpass.result * Fdpass.received) * tworld;
  t_send : Z -> bytes -> tworld -> (errno + Z) * tworld;
}.

(** A transfer is not longer than asked for. *)
Class TlsSysLaws `{TlsSys} := {
  t_recv_law f n w b : (t_recv f n w).1 = inr b -> len b <= n /\ Forall is_byte b;
  t_fd_law f n w r : (t_fd_stream_receive f n w).1 = (Fdpass.OK, r) -> Fdpass.receives n 0 r;
  t_send_law f b w n : (t_send f b w).1 = inr n -> 0 <= n <= len b;
}.

Inductive tls_event :=
| Arrived (m : Fdpass.received)
| Streamed (b : bytes)
| Handed (b : bytes)
| SentOut (b : bytes).

(** What a TLS library does in a call: the callbacks it makes, to receive up to a
    capacity and to send, and what it returns. *)
Inductive lib (A : Type) :=
| LRet (a : A)
| LRecv (capacity : Z) (k : Z * bytes -> lib A)
| LSend (b : bytes) (k : Z -> lib A).
Arguments LRet {A}. Arguments LRecv {A}. Arguments LSend {A}.

Fixpoint leaves {A} (P : A -> Prop) (p : lib A) : Prop :=
  match p with
  | LRet a => P a
  | LRecv _ k => forall r, leaves P (k r)
  | LSend _ k => forall n, leaves P (k n)
  end.

(** The calls of a library on a session; [l_get_error] is the error a result
    stands for. *)
Class TlsLib := {
  lstate : Type;
  l_handshake : lstate -> lib (Z * lstate);
  l_read : Z -> lstate -> lib (Z * bytes * lstate);
  l_write : bytes -> lstate -> lib (Z * lstate);
  l_shutdown : lstate -> lib (Z * lstate);
  l_get_error : lstate -> Z -> Z;
}.

(** A positive result is the number of bytes transferred. *)
Class TlsLibLaws `{TlsLib} := {
  l_read_law n s : 0 < n -> leaves (fun '(r, b, _) => r <= n /\ Forall is_byte b /\ (0 < r -> len b = r)) (l_read n s);
  l_write_law b s : leaves (fun '(r, _) => r <= len b) (l_write b s);
}.

(** How a configuration of the library treats the certificate of the peer. *)
Inductive verification := VERIFY_UNSET | VERIFY_NONE | VERIFY_PEER | VERIFY_REQUIRED.

Record ssl_config := SslConfig {
  identity : bool;
  authorities : bool;
  verify : verification;
}.

Definition no_config : ssl_config := SslConfig false false VERIFY_UNSET.

(** What the library was asked to set a session up with and accepted: the
    configuration, and the name of the peer.  Like the trace, a record that no
    program reads. *)
Record ssl_setting := Setting {
  set_config : ssl_config;
  set_hostname : option bytes;
}.

#[export] Instance eta_setting : Eta ssl_setting := fun x => Setting (set_config x) (set_hostname x).

Section Session.
Context `{TlsSys} `{TlsLib}.

(** A session of a provider; [error_set] is whether its error text is set.  The
    session of the library is [ssl]. *)
Record provider_session := Session {
  socket : egress_tls_socket;
  error_set : bool;
  setting : ssl_setting;
  ssl : lstate;
  the_tworld : tworld;
  seen : list tls_event;
}.

#[export] Instance eta_session : Eta provider_session := fun s =>
  Session (socket s) (error_set s) (setting s) (ssl s) (the_tworld s) (seen s).

Definition T (A : Type) : Type := provider_session -> A * provider_session.

#[export] Instance T_ret : MRet T := fun A a s => (a, s).
#[export] Instance T_bind : MBind T := fun A C f x s => let '(a, s') := x s in f a s'.

Definition task {A} (f : tworld -> A * tworld) : T A := fun s =>
  let '(a, w) := f (the_tworld s) in (a, s <| the_tworld := w |>).
Definition tget {A} (f : provider_session -> A) : T A := fun s => (f s, s).
Definition tset (f : provider_session -> provider_session) : T unit := fun s => (tt, f s).
Definition record_ (e : tls_event) : T unit := tset (fun s => s <| seen := e :: seen s |>).

(** The socket of a descriptor, which stays as it is. *)
Definition egress_tls_socket_init (f : Z) (w : tworld) : option egress_tls_socket :=
  match t_nonblock f w, t_stream f w, t_unix f w with
  | Some true, Some true, Some u => Some (TlsSocket f u false)
  | _, _, _ => None
  end.

(** The error a failed receive of a message leaves. *)
Definition receive_errno (r : Fdpass.result) : errno :=
  match r with
  | Fdpass.WOULD_BLOCK => EAGAIN
  | Fdpass.RESET => ECONNRESET
  | Fdpass.OS interrupted => if interrupted then EINTR else EOTHER
  | _ => EINVAL
  end.

Definition SSIZE_MAX : Z := 2 ^ 63 - 1.

(** Nothing received is the end of the stream. *)
Definition egress_tls_socket_receive (capacity : Z) : T (errno + bytes) :=
  if (capacity =? 0) || (SSIZE_MAX <? capacity) then mret (inl EINVAL)
  else
    so ← tget socket;
    if failed so then mret (inl EPROTO)
    else if negb (unix_stream so) then
      answer ← task (t_recv (fd so) capacity);
      match answer with
      | inr b => record_ (Streamed b);; mret (inr b)
      | inl e => mret (inl e)
      end
    else
      answer ← task (t_fd_stream_receive (fd so) capacity);
      let '(result, r) := answer in
      match result with
      | Fdpass.OK =>
          record_ (Arrived r);;
          if Fdpass.flagged r || (len (Fdpass.data r) =? 0) then
            tset (fun s => s <| socket := TlsSocket (fd so) (unix_stream so) true |>);; mret (inl EPROTO)
          else mret (inr (Fdpass.data r))
      | Fdpass.CLOSED => mret (inr [])
      | result => mret (inl (receive_errno result))
      end.

(** A call of the library, with the callbacks of the provider. *)
Fixpoint run_lib {A} (receive : Z -> T (Z * bytes)) (send : bytes -> T Z) (p : lib A) : T A :=
  match p with
  | LRet a => mret a
  | LRecv capacity k => r ← receive capacity; run_lib receive send (k r)
  | LSend b k => n ← send b; run_lib receive send (k n)
  end.

End Session.
