(* ===== verification/TlsProviders.v ===== *)
(** What the providers of the two TLS libraries share (providers/tls_mbedtls.c
    and providers/tls_wolfssl.c): the files of a provider and the checks its
    constructor begins with, and the roles of a session. *)

From S2P Require Import Prelude Common Codec Config Policy Receipt Buffer Server ChannelServer Tls.

(** The errors after which a call is tried again. *)
Definition try_again (e : errno) : bool := bool_decide (e = EINTR) || bool_decide (e = EAGAIN).

(** The files of a provider. *)
Record maelys_egress_tls_files := TlsFiles {
  files_abi_version : Z;
  certificate_file : option bytes;
  private_key_file : option bytes;
  ca_file : option bytes;
  require_client_certificate : bool;
}.

Definition MAELYS_EGRESS_TLS_FILES_ABI_VERSION : Z := 1.

Inductive maelys_egress_tls_role_t := MAELYS_EGRESS_TLS_CLIENT | MAELYS_EGRESS_TLS_SERVER.

(** The checks both constructors begin with. *)
Definition files_result (files : option maelys_egress_tls_files) : maelys_egress_result_t :=
  match files with
  | None => MAELYS_EGRESS_ERR_ARGUMENT
  | Some files =>
      if negb (files_abi_version files =? MAELYS_EGRESS_TLS_FILES_ABI_VERSION) then MAELYS_EGRESS_ERR_UNSUPPORTED
      else if xorb (is_some (certificate_file files)) (is_some (private_key_file files)) ||
              (negb (is_some (certificate_file files)) && negb (is_some (ca_file files)))
      then MAELYS_EGRESS_ERR_ARGUMENT
      else MAELYS_EGRESS_OK
  end.

(** The table of either provider. *)
Definition provider_ops (name : bytes) : maelys_egress_tls_ops :=
  TlsOps MAELYS_EGRESS_TLS_ABI_VERSION (Some name) true true true true true true true.
