(* ===== verification/Mbedtls.v ===== *)
(** The provider of Mbed TLS (providers/tls_mbedtls.c): the callbacks, the
    operations of a session, its creation, and the creation of a provider from
    files.  The library is a parameter ([TlsLib]), its codes the class
    [Codes]. *)

From S2P Require Import Prelude Common Codec Config Policy Receipt Buffer Server ChannelServer Tls TlsProviders.

(** The codes of the library. *)
Class Codes := {
  ERR_SSL_WANT_READ : Z;
  ERR_SSL_WANT_WRITE : Z;
  ERR_SSL_PEER_CLOSE_NOTIFY : Z;
  ERR_NET_SEND_FAILED : Z;
  ERR_NET_RECV_FAILED : Z;
  ERR_X509_BAD_INPUT_DATA : Z;
}.

Section Mbedtls.
Context `{TlsSys} `{TlsLib} `{Codes}.

Definition socket_send (b : bytes) : T Z :=
  so ← tget socket;
  if failed so then mret ERR_NET_SEND_FAILED
  else
    let bounded := ztake INT_MAX b in
    sent ← task (t_send (fd so) bounded);
    match sent with
    | inr n => record_ (SentOut (ztake n bounded));; mret n
    | inl e => mret (if try_again e then ERR_SSL_WANT_WRITE else ERR_NET_SEND_FAILED)
    end.

Definition socket_receive (length : Z) : T (Z * bytes) :=
  received ← egress_tls_socket_receive (Z.min length INT_MAX);
  match received with
  | inr b => record_ (Handed b);; mret (len b, b)
  | inl e => mret (if try_again e then ERR_SSL_WANT_READ else ERR_NET_RECV_FAILED, [])
  end.

Definition remember_error : T unit := tset (fun s => s <| error_set := true |>).

Definition translate (result : Z) (zero_is_closed : bool) : T maelys_egress_tls_step_t :=
  so ← tget socket;
  if failed so then remember_error;; mret MAELYS_EGRESS_TLS_FAILED
  else if (0 <? result) || ((result =? 0) && negb zero_is_closed) then mret MAELYS_EGRESS_TLS_COMPLETE
  else if result =? ERR_SSL_WANT_READ then mret MAELYS_EGRESS_TLS_WANT_READ
  else if result =? ERR_SSL_WANT_WRITE then mret MAELYS_EGRESS_TLS_WANT_WRITE
  else if (zero_is_closed && (result =? 0)) || (result =? ERR_SSL_PEER_CLOSE_NOTIFY) then mret MAELYS_EGRESS_TLS_CLOSED
  else remember_error;; mret MAELYS_EGRESS_TLS_FAILED.

(** A call of the library on the state of the session. *)
Definition call_lib {A} (p : lstate -> lib (A * lstate)) : T A :=
  s ← tget ssl;
  '(a, s) ← run_lib socket_receive socket_send (p s);
  tset (fun x => x <| ssl := s |>);;
  mret a.

Definition handshake : T maelys_egress_tls_step_t :=
  so ← tget socket;
  if failed so then mret MAELYS_EGRESS_TLS_FAILED
  else result ← call_lib l_handshake; translate result false.

Definition tls_read (capacity : Z) : T (maelys_egress_tls_step_t * bytes) :=
  so ← tget socket;
  if (capacity =? 0) || failed so then mret (MAELYS_EGRESS_TLS_FAILED, [])
  else
    '(result, b) ← call_lib (l_read capacity);
    so ← tget socket;
    step ← translate result true;
    mret (step, if (0 <? result) && negb (failed so) then ztake result b else []).

Definition tls_write (b : bytes) : T (maelys_egress_tls_step_t * Z) :=
  so ← tget socket;
  if (len b =? 0) || failed so then mret (MAELYS_EGRESS_TLS_FAILED, 0)
  else
    result ← call_lib (l_write b);
    so ← tget socket;
    step ← translate result false;
    mret (step, if (0 <? result) && negb (failed so) then result else 0).

Definition tls_shutdown : T maelys_egress_tls_step_t :=
  so ← tget socket;
  if failed so then mret MAELYS_EGRESS_TLS_FAILED
  else result ← call_lib l_shutdown; translate result false.

(** * Sessions and providers *)

Record provider_context := Context_ {
  server_config : ssl_config;
  client_config : ssl_config;
  server_ready : bool;
  client_ready : bool;
}.

(** The two calls that set up a session of the library: the answer of the library,
    and the record of what was asked for, if that is 0. *)
Definition ssl_setup (answer : Z) (config : ssl_config) : Z * ssl_setting :=
  (answer, if answer =? 0 then Setting config None else Setting no_config None).

Definition ssl_set_hostname (answer : Z) (name : bytes) (x : ssl_setting) : Z * ssl_setting :=
  (answer, if answer =? 0 then x <| set_hostname := Some name |> else x).

(** [calloc], [setup] and [hostname] are the answers of the system and of the
    library, [ssl] the state the library gives a session. *)
Definition session_create (context : option provider_context) (role : maelys_egress_tls_role_t) (f : Z)
    (server_name : option bytes) (calloc : bool) (setup hostname : Z) (ssl : lstate) (w : tworld)
  : maelys_egress_result_t * option provider_session :=
  match context with
  | None => (MAELYS_EGRESS_ERR_ARGUMENT, None)
  | Some context =>
      let server := match role with MAELYS_EGRESS_TLS_SERVER => true | MAELYS_EGRESS_TLS_CLIENT => false end in
      if (f <? 0) || (server && negb (server_ready context)) ||
         (negb server && (negb (client_ready context) || match server_name with None => true | Some n => len n =? 0 end))
      then (MAELYS_EGRESS_ERR_ARGUMENT, None)
      else if negb calloc then (MAELYS_EGRESS_ERR_MEMORY, None)
      else match egress_tls_socket_init f w with
           | None => (MAELYS_EGRESS_ERR_ARGUMENT, None)
           | Some so =>
               let '(result, x) := ssl_setup setup (if server then server_config context else client_config context) in
               let '(result, x) :=
                 if (result =? 0) && negb server then ssl_set_hostname hostname (default [] server_name) x
                 else (result, x) in
               if negb (result =? 0) then (MAELYS_EGRESS_ERR_CRYPTO, None)
               else (MAELYS_EGRESS_OK, Some (Session so false x ssl w []))
           end
  end.

(** What the library answers while a provider is made, 0 for success. *)
Record making := Making {
  seed : Z;
  parse_certificate : Z;
  parse_key : Z;
  parse_authorities : Z;
  server_defaults : Z;
  server_identity : Z;
  client_defaults : Z;
  client_identity : Z;
}.

(** [if (result == 0 && asked) result = answer]. *)
Definition then_try (result : Z) (asked : bool) (answer : Z) : Z := if (result =? 0) && asked then answer else result.

(** The server's half: its result and what was configured. *)
Definition make_server (files : maelys_egress_tls_files) (m : making) : Z * ssl_config :=
  if negb (server_defaults m =? 0) then (server_defaults m, no_config)
  else if negb (server_identity m =? 0) then (server_identity m, no_config)
  else if require_client_certificate files then
    if is_some (ca_file files) then (0, SslConfig true true VERIFY_REQUIRED) else (ERR_X509_BAD_INPUT_DATA, SslConfig true false VERIFY_UNSET)
  else (0, SslConfig true false VERIFY_NONE).

Definition make_client (files : maelys_egress_tls_files) (m : making) : Z * ssl_config :=
  if negb (client_defaults m =? 0) then (client_defaults m, no_config)
  else (if is_some (certificate_file files) then client_identity m else 0,
        SslConfig (is_some (certificate_file files) && (client_identity m =? 0)) true VERIFY_REQUIRED).

Definition maelys_egress_tls_mbedtls_create (files : option maelys_egress_tls_files) (psa calloc : bool)
    (m : making) (provider_calloc strdup : bool)
  : maelys_egress_result_t * option (maelys_egress_tls_provider * provider_context) :=
  match files_result files, files with
  | MAELYS_EGRESS_OK, Some files =>
      if negb psa then (MAELYS_EGRESS_ERR_CRYPTO, None)
      else if negb calloc then (MAELYS_EGRESS_ERR_MEMORY, None)
      else
        let has_certificate := is_some (certificate_file files) in
        let has_authorities := is_some (ca_file files) in
        let result := then_try (seed m) has_certificate (parse_certificate m) in
        let result := then_try result (is_some (private_key_file files)) (parse_key m) in
        let result := then_try result has_authorities (parse_authorities m) in
        let '(result, server, ready) :=
          if (result =? 0) && has_certificate
          then let '(r, c) := make_server files m in (r, c, r =? 0) else (result, no_config, false) in
        let '(result, client, client_ready) :=
          if (result =? 0) && has_authorities
          then let '(r, c) := make_client files m in (r, c, r =? 0) else (result, no_config, false) in
        if negb (result =? 0) then (MAELYS_EGRESS_ERR_CRYPTO, None)
        else
          let context := Context_ server client ready client_ready in
          match maelys_egress_tls_provider_create (Some (provider_ops (str "mbedtls"))) (Some 0) provider_calloc strdup with
          | (MAELYS_EGRESS_OK, Some p) => (MAELYS_EGRESS_OK, Some (p, context))
          | (result, _) => (result, None)
          end
  | result, _ => (result, None)
  end.

End Mbedtls.
