(* ===== verification/Wolfssl.v ===== *)
(** The provider of wolfSSL (providers/tls_wolfssl.c), with the same parts as that
    of Mbed TLS. *)

From S2P Require Import Prelude Common Codec Config Policy Receipt Buffer Server ChannelServer Tls TlsProviders.

(** The codes of the library. *)
Class Codes := {
  CBIO_ERR_GENERAL : Z;
  CBIO_ERR_WANT_READ : Z;
  CBIO_ERR_WANT_WRITE : Z;
  CBIO_ERR_CONN_CLOSE : Z;
  ERROR_WANT_READ : Z;
  ERROR_WANT_WRITE : Z;
  ERROR_ZERO_RETURN : Z;
  SUCCESS : Z;
  SHUTDOWN_NOT_DONE : Z;
}.

Section Wolfssl.
Context `{TlsSys} `{TlsLib} `{Codes}.

Definition socket_receive (length : Z) : T (Z * bytes) :=
  if length <=? 0 then mret (CBIO_ERR_GENERAL, [])
  else
    received ← egress_tls_socket_receive length;
    match received with
    | inr b => record_ (Handed b);; mret (if 0 <? len b then len b else CBIO_ERR_CONN_CLOSE, b)
    | inl e => mret (if try_again e then CBIO_ERR_WANT_READ else CBIO_ERR_GENERAL, [])
    end.

Definition socket_send (b : bytes) : T Z :=
  so ← tget socket;
  if failed so || (len b <=? 0) then mret CBIO_ERR_GENERAL
  else
    sent ← task (t_send (fd so) b);
    match sent with
    | inr n => record_ (SentOut (ztake n b));; mret n
    | inl e => mret (if try_again e then CBIO_ERR_WANT_WRITE
                     else if bool_decide (e = EPIPE) || bool_decide (e = ECONNRESET) then CBIO_ERR_CONN_CLOSE
                     else CBIO_ERR_GENERAL)
    end.

Definition remember_error : T unit := tset (fun s => s <| error_set := true |>).

Definition translate (result : Z) (zero_is_closed : bool) : T maelys_egress_tls_step_t :=
  so ← tget socket;
  if failed so then remember_error;; mret MAELYS_EGRESS_TLS_FAILED
  else if 0 <? result then mret MAELYS_EGRESS_TLS_COMPLETE
  else
    code ← tget (fun s => l_get_error (ssl s) result);
    if code =? ERROR_WANT_READ then mret MAELYS_EGRESS_TLS_WANT_READ
    else if code =? ERROR_WANT_WRITE then mret MAELYS_EGRESS_TLS_WANT_WRITE
    else if (zero_is_closed && (result =? 0)) || (code =? ERROR_ZERO_RETURN) then mret MAELYS_EGRESS_TLS_CLOSED
    else remember_error;; mret MAELYS_EGRESS_TLS_FAILED.

Definition call_lib {A} (p : lstate -> lib (A * lstate)) : T A :=
  s ← tget ssl;
  '(a, s) ← run_lib socket_receive socket_send (p s);
  tset (fun x => x <| ssl := s |>);;
  mret a.

Definition handshake : T maelys_egress_tls_step_t :=
  so ← tget socket;
  if failed so then mret MAELYS_EGRESS_TLS_FAILED
  else result ← call_lib l_handshake; translate result false.

Definition tls_read (capacity : Z) : T (maelys_egress_tls_step_t * bytes) :=
  so ← tget socket;
  if (capacity =? 0) || failed so then mret (MAELYS_EGRESS_TLS_FAILED, [])
  else
    '(result, b) ← call_lib (l_read (Z.min capacity INT_MAX));
    so ← tget socket;
    step ← translate result true;
    mret (step, if (0 <? result) && negb (failed so) then ztake result b else []).

Definition tls_write (b : bytes) : T (maelys_egress_tls_step_t * Z) :=
  so ← tget socket;
  if (len b =? 0) || failed so then mret (MAELYS_EGRESS_TLS_FAILED, 0)
  else
    result ← call_lib (l_write (ztake INT_MAX b));
    so ← tget socket;
    step ← translate result false;
    mret (step, if (0 <? result) && negb (failed so) then result else 0).

Definition tls_shutdown : T maelys_egress_tls_step_t :=
  so ← tget socket;
  if failed so then mret MAELYS_EGRESS_TLS_FAILED
  else
    result ← call_lib l_shutdown;
    so ← tget socket;
    if failed so then translate result false
    else if result =? SUCCESS then mret MAELYS_EGRESS_TLS_COMPLETE
    else if result =? SHUTDOWN_NOT_DONE then mret MAELYS_EGRESS_TLS_WANT_READ
    else translate result false.

(** * Sessions and providers *)

Record provider_context := Context_ {
  server_context : option ssl_config;
  client_context : option ssl_config;
}.

(** [wolfSSL_check_domain_name]: the answer of the library, and the record of the
    name, if that is a success. *)
Definition check_domain_name (answer : Z) (name : bytes) (x : ssl_setting) : Z * ssl_setting :=
  (answer, if answer =? SUCCESS then x <| set_hostname := Some name |> else x).

(** [new] is whether the library makes a session, whose state is [ssl]; [domain]
    is its answer to the name. *)
Definition session_create (context : option provider_context) (role : maelys_egress_tls_role_t) (f : Z)
    (server_name : option bytes) (calloc new : bool) (domain : Z) (ssl : lstate) (w : tworld)
  : maelys_egress_result_t * option provider_session :=
  match context with
  | None => (MAELYS_EGRESS_ERR_ARGUMENT, None)
  | Some context =>
      let server := match role with MAELYS_EGRESS_TLS_SERVER => true | MAELYS_EGRESS_TLS_CLIENT => false end in
      match (if server then server_context context else client_context context) with
      | None => (MAELYS_EGRESS_ERR_ARGUMENT, None)
      | Some selected =>
          if (f <? 0) || (negb server && match server_name with None => true | Some n => len n =? 0 end)
          then (MAELYS_EGRESS_ERR_ARGUMENT, None)
          else if negb calloc then (MAELYS_EGRESS_ERR_MEMORY, None)
          else match egress_tls_socket_init f w with
               | None => (MAELYS_EGRESS_ERR_ARGUMENT, None)
               | Some so =>
                   if negb new then (MAELYS_EGRESS_ERR_CRYPTO, None)
                   else
                     let x := Setting selected None in
                     let '(checked, x) :=
                       if negb server then check_domain_name domain (default [] server_name) x else (SUCCESS, x) in
                     if negb (checked =? SUCCESS) then (MAELYS_EGRESS_ERR_CRYPTO, None)
                     else (MAELYS_EGRESS_OK, Some (Session so false x ssl w []))
               end
      end
  end.

(** What the library answers while a provider is made. *)
Record making := Making {
  server_new : bool;
  server_certificate : bool;
  server_key : bool;
  server_authorities : bool;
  client_new : bool;
  client_authorities : bool;
  client_certificate : bool;
  client_key : bool;
}.

Definition configure_identity (certificate key : bool) : bool := certificate && key.

Definition make_server (files : maelys_egress_tls_files) (m : making) : bool * option ssl_config :=
  if negb (server_new m) then (false, None)
  else if negb (configure_identity (server_certificate m) (server_key m)) then (false, Some no_config)
  else if require_client_certificate files then
    if is_some (ca_file files) && server_authorities m
    then (true, Some (SslConfig true true VERIFY_REQUIRED)) else (false, Some (SslConfig true false VERIFY_UNSET))
  else (true, Some (SslConfig true false VERIFY_NONE)).

Definition make_client (files : maelys_egress_tls_files) (m : making) : bool * option ssl_config :=
  if negb (client_new m) then (false, None)
  else if negb (client_authorities m) then (false, Some no_config)
  else if is_some (certificate_file files) then
    let ok := configure_identity (client_certificate m) (client_key m) in
    (ok, Some (SslConfig ok true VERIFY_PEER))
  else (true, Some (SslConfig false true VERIFY_PEER)).

Definition maelys_egress_tls_wolfssl_create (files : option maelys_egress_tls_files) (initialized calloc : bool)
    (m : making) (provider_calloc strdup : bool)
  : maelys_egress_result_t * option (maelys_egress_tls_provider * provider_context) :=
  match files_result files, files with
  | MAELYS_EGRESS_OK, Some files =>
      if negb initialized then (MAELYS_EGRESS_ERR_CRYPTO, None)
      else if negb calloc then (MAELYS_EGRESS_ERR_MEMORY, None)
      else
        let '(ok, server) := if is_some (certificate_file files) then make_server files m else (true, None) in
        let '(ok, client) := if ok && is_some (ca_file files) then make_client files m else (ok, None) in
        if negb ok then (MAELYS_EGRESS_ERR_CRYPTO, None)
        else
          match maelys_egress_tls_provider_create (Some (provider_ops (str "wolfssl"))) (Some 0) provider_calloc strdup with
          | (MAELYS_EGRESS_OK, Some p) => (MAELYS_EGRESS_OK, Some (p, Context_ server client))
          | (result, _) => (result, None)
          end
  | result, _ => (result, None)
  end.

End Wolfssl.
