(* ===== verification/TlsTheorems.v ===== *)
(** What the TLS providers promise, for any TLS library behind them.

    [Poisoned] is what a transport that carried descriptors does to a session of
    a table of operations, [Seam] the laws the server assumes of a provider
    ([law_tls_read] and [law_tls_write] of Server.v) with the contract of
    include/maelys/egress_tls.h on transfers.  Both tables are instances of both:
    [poison_final] draws the consequences of the first for the sessions the
    providers make, [seam_kept] says what is kept of the second and where the
    contract is not.  [certificates_required] is about what a session is set up
    with. *)

From S2P Require Import Prelude Common Codec Config Policy Receipt Buffer Server ChannelServer Tls TlsProviders Mbedtls Wolfssl.

Section Sessions.
Context `{TlsSys} `{TlsLib}.

(** The operations of a provider on a session. *)
Record tls_table := Table {
  tt_handshake : T maelys_egress_tls_step_t;
  tt_read : Z -> T (maelys_egress_tls_step_t * bytes);
  tt_write : bytes -> T (maelys_egress_tls_step_t * Z);
  tt_shutdown : T maelys_egress_tls_step_t;
}.

Inductive tls_op := Handshake | ReadUpTo (n : Z) | Write (b : bytes) | Shutdown.

(** An operation: its step, the bytes read and the number written. *)
Definition perform (t : tls_table) (op : tls_op) : T (maelys_egress_tls_step_t * bytes * Z) :=
  match op with
  | Handshake => step ← tt_handshake t; mret (step, [], 0)
  | ReadUpTo n => '(step, b) ← tt_read t n; mret (step, b, 0)
  | Write b => '(step, n) ← tt_write t b; mret (step, [], n)
  | Shutdown => step ← tt_shutdown t; mret (step, [], 0)
  end.

Fixpoint perform_all (t : tls_table) (ops : list tls_op) : T (list (maelys_egress_tls_step_t * bytes * Z)) :=
  match ops with
  | [] => mret []
  | op :: ops => r ← perform t op; rs ← perform_all t ops; mret (r :: rs)
  end.

(** A message that TLS has no use for: it came with descriptors or other
    ancillary data, or without bytes. *)
Definition unwanted (e : tls_event) : bool :=
  match e with Arrived m => Fdpass.flagged m || (len (Fdpass.data m) =? 0) | _ => false end.

(** The bytes handed to the library, and those that came alone; oldest first. *)
Fixpoint handed (t : list tls_event) : bytes :=
  match t with
  | [] => []
  | Handed b :: t => handed t ++ b
  | _ :: t => handed t
  end.

Fixpoint alone (t : list tls_event) : bytes :=
  match t with
  | [] => []
  | Arrived m :: t => alone t ++ (if unwanted (Arrived m) then [] else Fdpass.data m)
  | Streamed b :: t => alone t ++ b
  | _ :: t => alone t
  end.

Record session_ok (s : provider_session) : Prop := {
  so_handed : handed (seen s) = alone (seen s);
  so_failed : failed (socket s) = existsb unwanted (seen s);
  so_last : existsb unwanted (tail (seen s)) = false;
}.

(** What any step does to a session. *)
Record evolves (s s' : provider_session) : Prop := {
  ev_ok : session_ok s -> session_ok s';
  ev_final : failed (socket s) = true -> socket s' = socket s /\ seen s' = seen s;
}.

Definition ev {A} (x : T A) : Prop := forall s, evolves s (x s).2.

Lemma evolves_refl s : evolves s s.
Proof. by split. Qed.

Lemma evolves_trans s1 s2 s3 : evolves s1 s2 -> evolves s2 s3 -> evolves s1 s3.
Proof.
  intros [H1 F1] [H2 F2]. split; [auto|]. intros E. destruct (F1 E) as [E1 E1']. destruct F2 as [E2 E2']; [congruence|]. split; congruence.
Qed.

Lemma ev_ret {A} (a : A) : ev (mret a).
Proof. intros s. apply evolves_refl. Qed.

Lemma ev_bind {A C} (x : T A) (f : A -> T C) : ev x -> (forall a, ev (f a)) -> ev (x ≫= f).
Proof.
  intros Hx Hf s. specialize (Hx s). unfold mbind, T_bind. destruct (x s) as [a s1].
  eapply evolves_trans; [exact Hx|apply Hf].
Qed.

Lemma ev_get {A} (f : provider_session -> A) : ev (tget f).
Proof. intros s. apply evolves_refl. Qed.

Lemma ev_task {A} (f : tworld -> A * tworld) : ev (task f).
Proof. intros s. unfold task. destruct (f _). by split; [intros []; split|]. Qed.

(** A write to what does not matter here. *)
Lemma ev_set (f : provider_session -> provider_session) :
  (forall s, socket (f s) = socket s /\ seen (f s) = seen s) -> ev (tset f).
Proof. intros Hf s. destruct (Hf s) as [E1 E2]. split; simpl; [intros []; split; by rewrite ?E1, ?E2|done]. Qed.

(** A receive, with what is done to hand its bytes on. *)
Lemma ev_receive {A} n (f : bytes -> A) (g : errno -> A) :
  ev (received ← egress_tls_socket_receive n;
      match received with inr b => record_ (Handed b);; mret (f b) | inl e => mret (g e) end).
Proof.
  intros s. unfold egress_tls_socket_receive. destruct (_ || _); [by split|].
  unfold mbind, T_bind, tget. destruct (failed (socket s)) eqn:Ef; [by split|].
  destruct (unix_stream (socket s)) eqn:Eu; cbn [negb].
  - unfold task. destruct (t_fd_stream_receive _ _ _) as [[r m] w]. destruct r; try (by split; [intros []; split|]).
    + destruct (_ || _) eqn:Eb; split; simpl; try congruence; intros [Hh Hf _]; split; simpl in *; rewrite ?Eb; simpl;
        try done; rewrite ?app_nil_r; congruence.
    + split; simpl; [|congruence]. intros [Hh Hf _]. split; simpl; [by rewrite app_nil_r|done|congruence].
  - unfold task. destruct (t_recv _ _ _) as [[e|b] w]; (split; simpl; [|congruence]); [by intros []; split|].
    intros [Hh Hf _]. split; simpl; [by rewrite Hh|done|congruence].
Qed.

Lemma ev_run_lib {A} receive send (p : lib A) :
  (forall n, ev (receive n)) -> (forall b, ev (send b)) -> ev (run_lib receive send p).
Proof.
  intros Hr Hs. induction p as [a|n k IH|b k IH]; simpl; [apply ev_ret|apply ev_bind; auto|apply ev_bind; auto].
Qed.

Lemma run_lib_leaves {A} receive send (P : A -> Prop) (p : lib A) s : leaves P p -> P (run_lib receive send p s).1.
Proof.
  revert s. induction p as [a|n k IH|b k IH]; intros s Hp; simpl in *; [done| |]; unfold mbind, T_bind.
  - destruct (receive n s). by apply IH.
  - destruct (send b s). by apply IH.
Qed.

Lemma leaves_mono {A} (P Q : A -> Prop) (p : lib A) : (forall a, P a -> Q a) -> leaves P p -> leaves Q p.
Proof. intros HPQ. induction p; simpl; auto. Qed.

Definition nothing : maelys_egress_tls_step_t * bytes * Z := (MAELYS_EGRESS_TLS_FAILED, [], 0).

(** What a transport that failed does to the operations of a table. *)
Class Poisoned (t : tls_table) : Prop := {
  poisoned_evolves op : ev (perform t op);
  poisoned_now op s : failed (socket (perform t op s).2) = true -> (perform t op s).1 = nothing;
  poisoned_after op s : failed (socket s) = true -> perform t op s = (nothing, s);
}.

(** What is promised of the transfers of a table. *)
Class Seam (t : tls_table) : Prop := {
  seam_read n s : 0 <= n ->
    let '(step, b) := (tt_read t n s).1 in
    len b <= n /\ Forall is_byte b /\ (0 < len b <-> step = MAELYS_EGRESS_TLS_COMPLETE);
  seam_write b s :
    let '(step, n) := (tt_write t b s).1 in
    0 <= n <= len b /\ (0 < n -> step = MAELYS_EGRESS_TLS_COMPLETE);
}.

Lemma perform_all_ev t `{!Poisoned t} ops : ev (perform_all t ops).
Proof.
  induction ops as [|op ops IH]; [apply ev_ret|]. apply ev_bind; [apply poisoned_evolves|]. intros r.
  apply ev_bind; [done|intros; apply ev_ret].
Qed.

Lemma perform_all_poisoned t `{!Poisoned t} ops s :
  failed (socket s) = true -> perform_all t ops s = (map (fun _ => nothing) ops, s).
Proof.
  intros Hf. induction ops as [|op ops IH]; [done|]. cbn [perform_all]. unfold mbind, T_bind.
  by rewrite (poisoned_after op s Hf), IH.
Qed.

End Sessions.

(** * The two providers *)

Create HintDb tls.

Ltac evs :=
  repeat first
    [ solve [auto with tls] | apply ev_ret | apply ev_get | solve [by apply ev_set]
    | match goal with |- ev (if ?b then _ else _) => destruct b end
    | match goal with |- ev (let '(_, _) := ?x in _) => destruct x end
    | apply ev_bind; [|intros] ].

Section Providers.
Context `{TlsSys} `{TlsLib} {Llaws : TlsLibLaws}.

Definition mbedtls_table `{Mbedtls.Codes} : tls_table :=
  Table Mbedtls.handshake Mbedtls.tls_read Mbedtls.tls_write Mbedtls.tls_shutdown.
Definition wolfssl_table `{Wolfssl.Codes} : tls_table :=
  Table Wolfssl.handshake Wolfssl.tls_read Wolfssl.tls_write Wolfssl.tls_shutdown.

Lemma len_ztake_all {A} n (l : list A) : len (ztake n l) <= len l.
Proof using Type. unfold ztake, len. rewrite length_take. lia. Qed.

(** The results of the read of a library, by its law, and of a write. *)
Definition read_ok (n : Z) (a : Z * bytes) : Prop := a.1 <= n /\ Forall is_byte a.2 /\ (0 < a.1 -> len a.2 = a.1).

Lemma read_leaves n s : 0 < n -> leaves (fun a => read_ok n a.1) (l_read n s).
Proof using Llaws.
  intros Hn. pose proof (l_read_law n s Hn) as Hl. revert Hl. generalize (l_read n s). intros p.
  induction p as [[[r b] l]| |]; simpl; [done|intros Hl v; auto|intros Hl v; auto].
Qed.

Lemma write_leaves b s : leaves (fun a => a.1 <= len b) (l_write b s).
Proof using Llaws.
  pose proof (l_write_law b s) as Hl. revert Hl. generalize (l_write b s). intros p.
  induction p as [[r l]| |]; simpl; [done|intros Hl v; auto|intros Hl v; auto].
Qed.

(** The bytes of a read that transferred something. *)
Lemma read_bytes n r b (ok : bool) :
  read_ok n (r, b) -> 0 <= n ->
  let data := if (0 <? r) && ok then ztake r b else [] in
  len data <= n /\ Forall is_byte data /\ (0 < len data <-> 0 < r /\ ok = true).
Proof using Type.
  intros (Hr & Hb & Hl) Hn. simpl in *. destruct (Z.ltb_spec 0 r) as [Hpos|]; simpl; [|rewrite len_nil; split_and!; [lia|done|lia]].
  destruct ok; [|rewrite len_nil; split_and!; [lia|done|lia]]. rewrite ztake_all by (rewrite Hl; lia). rewrite Hl by done.
  split_and!; [lia|done|]. done.
Qed.

(** A read and a write, by the call of the library and the translation of its
    result. *)
Lemma read_seam n m (call : T (Z * bytes)) (translate : Z -> T maelys_egress_tls_step_t) s :
  0 <= m <= n -> read_ok m (call s).1 ->
  (forall r s1, (translate r s1).1 = MAELYS_EGRESS_TLS_COMPLETE <-> failed (socket s1) = false /\ 0 < r) ->
  let '(step, b) := (('(result, b) ← call; so ← tget socket; step ← translate result;
    mret (step, if (0 <? result) && negb (failed so) then ztake result b else [])) s).1 in
  len b <= n /\ Forall is_byte b /\ (0 < len b <-> step = MAELYS_EGRESS_TLS_COMPLETE).
Proof using Type.
  intros Hm Hr Hc. unfold mbind, T_bind, tget, mret, T_ret. destruct (call s) as [[r b] s1]. cbn [fst] in Hr.
  specialize (Hc r s1). destruct (translate r s1) as [step s2]. cbn [fst] in *.
  destruct (read_bytes m r b (negb (failed (socket s1))) Hr) as (E1 & E2 & E3); [lia|].
  split_and!; [lia|done|]. rewrite E3, Hc, negb_true_iff. tauto.
Qed.

Lemma write_seam (b : bytes) (call : T Z) (translate : Z -> T maelys_egress_tls_step_t) (done_ : Z -> Prop) s step n s2 :
  (result ← call; so ← tget socket; step ← translate result;
   mret (step, if (0 <? result) && negb (failed so) then result else 0)) s = (step, n, s2) ->
  (call s).1 <= len b -> (forall r, 0 < r -> done_ r) -> (forall r, done_ r -> 0 <= r) ->
  (forall s1, (translate (call s).1 s1).1 = MAELYS_EGRESS_TLS_COMPLETE <-> failed (socket s1) = false /\ done_ (call s).1) ->
  (0 <= n <= len b /\ (0 < n -> step = MAELYS_EGRESS_TLS_COMPLETE)) /\
  (step = MAELYS_EGRESS_TLS_COMPLETE <-> failed (socket (call s).2) = false /\ done_ (call s).1) /\
  (step = MAELYS_EGRESS_TLS_COMPLETE -> n = (call s).1).
Proof using Type.
  unfold mbind, T_bind, tget, mret, T_ret. destruct (call s) as [r s1]. cbn [fst snd]. intros E Hr H1 H2 Hc.
  specialize (Hc s1). destruct (translate r s1) as [step' s2']. injection E as -> <- ->. cbn [fst] in Hc. rewrite Hc.
  pose proof (len_nonneg b). specialize (H1 r). specialize (H2 r).
  destruct (Z.ltb_spec 0 r), (failed (socket s1)); simpl; split_and!; intuition (done || lia).
Qed.

(** The operation in which the transport fails: a call of the library, and a
    translation that fails with the transport. *)
Definition fails_with (translate : Z -> T maelys_egress_tls_step_t) : Prop := forall r s,
  socket (translate r s).2 = socket s /\ (failed (socket s) = true -> (translate r s).1 = MAELYS_EGRESS_TLS_FAILED).

Lemma step_now (call : T Z) translate s :
  fails_with translate ->
  let x := (step ← (so ← tget socket; if failed so then mret MAELYS_EGRESS_TLS_FAILED else result ← call; translate result);
            mret (step, [], 0)) s in
  failed (socket x.2) = true -> x.1 = nothing.
Proof using Type.
  intros Ht. unfold mbind, T_bind, tget, mret, T_ret. destruct (failed (socket s)); [done|]. destruct (call s) as [r s1].
  destruct (Ht r s1) as [E1 E2]. destruct (translate r s1) as [step s2]. simpl in *. rewrite E1. by intros ->%E2.
Qed.

Lemma read_now (guard : bool) (call : T (Z * bytes)) translate s :
  fails_with translate ->
  let x := ('(step, b) ← (so ← tget socket;
              if guard || failed so then mret (MAELYS_EGRESS_TLS_FAILED, [])
              else '(result, b) ← call; so ← tget socket; step ← translate result;
                   mret (step, if (0 <? result) && negb (failed so) then ztake result b else []));
            mret (step, b, 0)) s in
  failed (socket x.2) = true -> x.1 = nothing.
Proof using Type.
  intros Ht. unfold mbind, T_bind, tget, mret, T_ret. destruct (guard || _); [done|]. destruct (call s) as [[r b] s1].
  destruct (Ht r s1) as [E1 E2]. destruct (translate r s1) as [step s2]. simpl in *. rewrite E1. intros Hf.
  by rewrite (E2 Hf), Hf, andb_false_r.
Qed.

Lemma write_now (guard : bool) (call : T Z) translate s :
  fails_with translate ->
  let x := ('(step, n) ← (so ← tget socket;
              if guard || failed so then mret (MAELYS_EGRESS_TLS_FAILED, 0)
              else result ← call; so ← tget socket; step ← translate result;
                   mret (step, if (0 <? result) && negb (failed so) then result else 0));
            mret (step, [], n)) s in
  failed (socket x.2) = true -> x.1 = nothing.
Proof using Type.
  intros Ht. unfold mbind, T_bind, tget, mret, T_ret. destruct (guard || _); [done|]. destruct (call s) as [r s1].
  destruct (Ht r s1) as [E1 E2]. destruct (translate r s1) as [step s2]. simpl in *. rewrite E1. intros Hf.
  by rewrite (E2 Hf), Hf, andb_false_r.
Qed.

Section Mbedtls_.
Context `{Mbedtls.Codes}.

Lemma mbed_send b : ev (Mbedtls.socket_send b).
Proof using Type.
  intros s. unfold Mbedtls.socket_send, mbind, T_bind, tget. destruct (failed (socket s)) eqn:E; [by split|].
  unfold task. destruct (t_send _ _ _) as [[e|n] w]; (split; simpl; [|congruence]); [by intros []; split|].
  intros [? ? _]. split; simpl; [done|done|congruence].
Qed.

Lemma mbed_call {A} (p : lstate -> lib (A * lstate)) : ev (Mbedtls.call_lib p).
Proof using Type.
  apply ev_bind; [apply ev_get|]. intros l. apply ev_bind.
  - apply ev_run_lib; [intros; apply ev_receive|apply mbed_send].
  - intros [a l']. apply ev_bind; [by apply ev_set|intros; apply ev_ret].
Qed.

Lemma mbed_call_leaves {A} (P : A -> Prop) (p : lstate -> lib (A * lstate)) s :
  (forall l, leaves (fun a => P a.1) (p l)) -> P (Mbedtls.call_lib p s).1.
Proof using Type.
  intros Hp. unfold Mbedtls.call_lib, mbind, T_bind, tget, tset.
  pose proof (run_lib_leaves Mbedtls.socket_receive Mbedtls.socket_send _ _ s (Hp (ssl s))) as Hl.
  by destruct (run_lib _ _ _ s) as [[a l] s'].
Qed.

Lemma mbed_translate r z : ev (Mbedtls.translate r z).
Proof using Type. unfold Mbedtls.translate, Mbedtls.remember_error. evs. Qed.

#[local] Hint Resolve mbed_call mbed_translate : tls.

(** A step completes a transfer, or a call that transfers nothing. *)
Lemma mbed_complete r z s :
  (Mbedtls.translate r z s).1 = MAELYS_EGRESS_TLS_COMPLETE <->
  failed (socket s) = false /\ (0 < r \/ r = 0 /\ z = false).
Proof using Type.
  unfold Mbedtls.translate, Mbedtls.remember_error, mbind, T_bind, tget, tset, mret, T_ret.
  destruct (failed (socket s)); simpl; [intuition congruence|].
  destruct ((0 <? r) || _) eqn:E; simpl.
  - split; [intros _; split; [done|]|done]. apply orb_true_iff in E as [E|E]; [left; lia|right].
    apply andb_true_iff in E as [E1 E2]. apply negb_true_iff in E2. split; [lia|done].
  - apply orb_false_iff in E as [E1 E2]. apply Z.ltb_ge in E1.
    repeat (match goal with |- context [if ?b then _ else _] => destruct b end; simpl);
      (split; [done|]; intros [_ [?|[-> ->]]]; [lia|done]).
Qed.

(** The end of a stream without a close notification is read as a close. *)
Lemma mbed_end s :
  Mbedtls.ERR_SSL_WANT_READ < 0 -> Mbedtls.ERR_SSL_WANT_WRITE < 0 -> failed (socket s) = false ->
  Mbedtls.translate 0 true s = (MAELYS_EGRESS_TLS_CLOSED, s).
Proof using Type.
  intros H3 H4 Hf. unfold Mbedtls.translate, mbind, T_bind, tget. rewrite Hf. simpl.
  destruct Mbedtls.ERR_SSL_WANT_READ, Mbedtls.ERR_SSL_WANT_WRITE; try lia. done.
Qed.

(** A failed transport fails the step, and a translation leaves it as it is. *)
Lemma mbed_translate_failed z r s :
  socket (Mbedtls.translate r z s).2 = socket s /\
  (failed (socket s) = true -> (Mbedtls.translate r z s).1 = MAELYS_EGRESS_TLS_FAILED).
Proof using Type.
  unfold Mbedtls.translate, Mbedtls.remember_error, mbind, T_bind, tget, tset, mret, T_ret.
  destruct (failed (socket s)); [done|]. by repeat case_match.
Qed.

#[export] Instance mbedtls_poisoned : Poisoned mbedtls_table.
Proof using Type.
  split.
  - intros [|n|b|]; unfold perform, mbedtls_table; cbn [tt_handshake tt_read tt_write tt_shutdown];
      unfold Mbedtls.handshake, Mbedtls.tls_read, Mbedtls.tls_write, Mbedtls.tls_shutdown; evs.
  - intros [|n|b|] s; unfold perform, mbedtls_table; cbn [tt_handshake tt_read tt_write tt_shutdown].
    + apply (step_now _ (fun r => Mbedtls.translate r false)). intros r s1. apply mbed_translate_failed.
    + apply (read_now _ _ (fun r => Mbedtls.translate r true)). intros r s1. apply mbed_translate_failed.
    + apply (write_now _ _ (fun r => Mbedtls.translate r false)). intros r s1. apply mbed_translate_failed.
    + apply (step_now _ (fun r => Mbedtls.translate r false)). intros r s1. apply mbed_translate_failed.
  - intros [|n|b|] s Hf; unfold perform, mbedtls_table; cbn [tt_handshake tt_read tt_write tt_shutdown];
      unfold Mbedtls.handshake, Mbedtls.tls_read, Mbedtls.tls_write, Mbedtls.tls_shutdown, mbind, T_bind, tget;
      rewrite Hf, ?orb_true_r; done.
Qed.

(** A write, by what the library answers. *)
Lemma mbed_write b s :
  let '(step, n) := (Mbedtls.tls_write b s).1 in
  let '(r, s1) := Mbedtls.call_lib (l_write b) s in
  (0 <= n <= len b /\ (0 < n -> step = MAELYS_EGRESS_TLS_COMPLETE)) /\
  (step = MAELYS_EGRESS_TLS_COMPLETE <->
     0 < len b /\ failed (socket s) = false /\ failed (socket s1) = false /\ 0 <= r) /\
  (step = MAELYS_EGRESS_TLS_COMPLETE -> n = r).
Proof using Llaws.
  destruct (Mbedtls.tls_write b s) as [[step n] s2] eqn:E. revert E. cbn [fst].
  unfold Mbedtls.tls_write. unfold mbind at 1, T_bind at 1, tget at 1. pose proof (len_nonneg b).
  destruct (Z.eqb_spec (len b) 0) as [Hb|Hb]; cbn [orb];
    [intros [= <- <- <-]; destruct (Mbedtls.call_lib _ _); intuition (done || lia)|].
  destruct (failed (socket s)); [intros [= <- <- <-]; destruct (Mbedtls.call_lib _ _); intuition (done || lia)|].
  intros E. apply (write_seam b _ (fun r => Mbedtls.translate r false) (fun r => 0 <= r)) in E as (Hb1 & Hb2 & Hb3).
  - destruct (Mbedtls.call_lib (l_write b) s) as [r s1]. split_and!; [tauto..|rewrite Hb2; intuition lia|done].
  - apply (mbed_call_leaves (fun r => r <= len b)). intros l. apply write_leaves.
  - lia.
  - done.
  - intros s3. rewrite mbed_complete. intuition (done || lia).
Qed.

Lemma mbedtls_seam : Seam mbedtls_table.
Proof using Llaws.
  split.
  - intros n s Hn. cbn [mbedtls_table tt_read]. unfold Mbedtls.tls_read. unfold mbind at 1, T_bind at 1, tget at 1.
    destruct (Z.eqb_spec n 0) as [->|Hn0]; simpl orb; cbv iota; [done|].
    destruct (failed (socket s)); [split_and!; [exact Hn|done|done]|]. apply (read_seam n n); [lia| |].
    + apply (mbed_call_leaves (read_ok n)). intros l. apply read_leaves. lia.
    + intros r s1. rewrite mbed_complete. intuition (done || lia).
  - intros b s. pose proof (mbed_write b s) as Hw. cbn [mbedtls_table tt_write].
    destruct (Mbedtls.tls_write b s).1, (Mbedtls.call_lib _ _). apply Hw.
Qed.

End Mbedtls_.
Section Wolfssl_.
Context `{Wolfssl.Codes}.

Lemma wolf_send b : ev (Wolfssl.socket_send b).
Proof using Type.
  intros s. unfold Wolfssl.socket_send, mbind, T_bind, tget. destruct (failed (socket s)) eqn:E; [by split|]. cbn [orb].
  destruct (len b <=? 0); [by split|].
  unfold task. destruct (t_send _ _ _) as [[e|n] w]; (split; simpl; [|congruence]); [by intros []; split|].
  intros [? ? _]. split; simpl; [done|done|congruence].
Qed.

Lemma wolf_receive n : ev (Wolfssl.socket_receive n).
Proof using Type. unfold Wolfssl.socket_receive. destruct (n <=? 0); [apply ev_ret|]. apply ev_receive. Qed.

Lemma wolf_call {A} (p : lstate -> lib (A * lstate)) : ev (Wolfssl.call_lib p).
Proof using Type.
  apply ev_bind; [apply ev_get|]. intros l. apply ev_bind.
  - apply ev_run_lib; [apply wolf_receive|apply wolf_send].
  - intros [a l']. apply ev_bind; [by apply ev_set|intros; apply ev_ret].
Qed.

Lemma wolf_call_leaves {A} (P : A -> Prop) (p : lstate -> lib (A * lstate)) s :
  (forall l, leaves (fun a => P a.1) (p l)) -> P (Wolfssl.call_lib p s).1.
Proof using Type.
  intros Hp. unfold Wolfssl.call_lib, mbind, T_bind, tget, tset.
  pose proof (run_lib_leaves Wolfssl.socket_receive Wolfssl.socket_send _ _ s (Hp (ssl s))) as Hl.
  by destruct (run_lib _ _ _ s) as [[a l] s'].
Qed.

Lemma wolf_translate r z : ev (Wolfssl.translate r z).
Proof using Type. unfold Wolfssl.translate, Wolfssl.remember_error. evs. Qed.

#[local] Hint Resolve wolf_call wolf_translate : tls.

Lemma wolf_complete r z s :
  (Wolfssl.translate r z s).1 = MAELYS_EGRESS_TLS_COMPLETE <-> failed (socket s) = false /\ 0 < r.
Proof using Type.
  unfold Wolfssl.translate, Wolfssl.remember_error, mbind, T_bind, tget, tset, mret, T_ret.
  destruct (failed (socket s)); simpl; [intuition congruence|]. destruct (Z.ltb_spec 0 r); simpl; [done|].
  repeat (match goal with |- context [if ?b then _ else _] => destruct b end; simpl); (split; [done|]; intros [_ ?]; lia).
Qed.

(** The end of a stream without a close notification is read as a close. *)
Lemma wolf_end s :
  failed (socket s) = false ->
  l_get_error (ssl s) 0 <> Wolfssl.ERROR_WANT_READ -> l_get_error (ssl s) 0 <> Wolfssl.ERROR_WANT_WRITE ->
  Wolfssl.translate 0 true s = (MAELYS_EGRESS_TLS_CLOSED, s).
Proof using Type.
  intros Hf H5 H6. unfold Wolfssl.translate, mbind, T_bind, tget. rewrite Hf. simpl.
  by destruct (Z.eqb_spec (l_get_error (ssl s) 0) Wolfssl.ERROR_WANT_READ), (Z.eqb_spec (l_get_error (ssl s) 0) Wolfssl.ERROR_WANT_WRITE).
Qed.

Lemma wolf_translate_failed z r s :
  socket (Wolfssl.translate r z s).2 = socket s /\
  (failed (socket s) = true -> (Wolfssl.translate r z s).1 = MAELYS_EGRESS_TLS_FAILED).
Proof using Type.
  unfold Wolfssl.translate, Wolfssl.remember_error, mbind, T_bind, tget, tset, mret, T_ret.
  destruct (failed (socket s)); [done|]. by repeat case_match.
Qed.

(** What a shutdown does with the answer of the library. *)
Definition wolf_shut (result : Z) : T maelys_egress_tls_step_t :=
  so ← tget socket;
  if failed so then Wolfssl.translate result false
  else if result =? Wolfssl.SUCCESS then mret MAELYS_EGRESS_TLS_COMPLETE
  else if result =? Wolfssl.SHUTDOWN_NOT_DONE then mret MAELYS_EGRESS_TLS_WANT_READ
  else Wolfssl.translate result false.

Lemma wolf_shut_failed r s :
  socket (wolf_shut r s).2 = socket s /\
  (failed (socket s) = true -> (wolf_shut r s).1 = MAELYS_EGRESS_TLS_FAILED).
Proof using Type.
  unfold wolf_shut, mbind, T_bind, tget. pose proof (wolf_translate_failed false r s).
  destruct (failed (socket s)); [done|]. by repeat case_match.
Qed.

#[export] Instance wolfssl_poisoned : Poisoned wolfssl_table.
Proof using Type.
  split.
  - intros [|n|b|]; unfold perform, wolfssl_table; cbn [tt_handshake tt_read tt_write tt_shutdown];
      unfold Wolfssl.handshake, Wolfssl.tls_read, Wolfssl.tls_write, Wolfssl.tls_shutdown; evs.
  - intros [|n|b|] s; unfold perform, wolfssl_table; cbn [tt_handshake tt_read tt_write tt_shutdown].
    + apply (step_now _ (fun r => Wolfssl.translate r false)). intros r s1. apply wolf_translate_failed.
    + apply (read_now _ _ (fun r => Wolfssl.translate r true)). intros r s1. apply wolf_translate_failed.
    + apply (write_now _ _ (fun r => Wolfssl.translate r false)). intros r s1. apply wolf_translate_failed.
    + apply (step_now _ wolf_shut). intros r s1. apply wolf_shut_failed.
  - intros [|n|b|] s Hf; unfold perform, wolfssl_table; cbn [tt_handshake tt_read tt_write tt_shutdown];
      unfold Wolfssl.handshake, Wolfssl.tls_read, Wolfssl.tls_write, Wolfssl.tls_shutdown, mbind, T_bind, tget;
      rewrite Hf, ?orb_true_r; done.
Qed.

Lemma wolf_write b s :
  let '(step, n) := (Wolfssl.tls_write b s).1 in
  0 <= n <= len b /\ (0 < n <-> step = MAELYS_EGRESS_TLS_COMPLETE).
Proof using Llaws.
  destruct (Wolfssl.tls_write b s) as [[step n] s2] eqn:E. revert E. cbn [fst].
  unfold Wolfssl.tls_write. unfold mbind at 1, T_bind at 1, tget at 1. pose proof (len_nonneg b).
  destruct (Z.eqb_spec (len b) 0) as [Hb|Hb]; cbn [orb]; [intros [= <- <- <-]; intuition (done || lia)|].
  destruct (failed (socket s)); [intros [= <- <- <-]; intuition (done || lia)|].
  intros E. apply (write_seam b _ (fun r => Wolfssl.translate r false) (fun r => 0 < r)) in E as (Hb1 & Hb2 & Hb3).
  - split; [tauto|]. split; [tauto|]. intros Ec. rewrite (Hb3 Ec). tauto.
  - apply (wolf_call_leaves (fun r => r <= len b)). intros l. eapply leaves_mono; [|apply write_leaves].
    intros [r l'] Hr. simpl in *. pose proof (len_ztake_all INT_MAX b). lia.
  - done.
  - lia.
  - intros s3. apply wolf_complete.
Qed.

Lemma wolfssl_seam : Seam wolfssl_table.
Proof using Llaws.
  split.
  - intros n s Hn. cbn [wolfssl_table tt_read]. unfold Wolfssl.tls_read. unfold mbind at 1, T_bind at 1, tget at 1.
    destruct (Z.eqb_spec n 0) as [->|Hn0]; simpl orb; cbv iota; [done|].
    destruct (failed (socket s)); [split_and!; [exact Hn|done|done]|]. unfold INT_MAX.
    apply (read_seam n (Z.min n (2 ^ 31 - 1))); [lia| |].
    + apply (wolf_call_leaves (read_ok (Z.min n (2 ^ 31 - 1)))). intros l. apply read_leaves. lia.
    + intros r s1. apply wolf_complete.
  - intros b s. pose proof (wolf_write b s) as Hw. cbn [wolfssl_table tt_write].
    destruct (Wolfssl.tls_write b s).1. tauto.
Qed.

End Wolfssl_.
(** C16: whatever the TLS library does within its documented bounds, the operations
    of both providers give the server what it relies on: a read is no longer than
    asked and made of bytes, a write no longer than given, and what was
    transferred is reported as completed.  A completed read transferred
    something, and so did a completed write of wolfSSL; one of Mbed TLS did
    unless the library itself answered 0, which is then reported as completed.
    A read at the end of the stream, where the library answers 0 without a close
    notification, is reported by both as the clean close that the header
    reserves CLOSED for. *)
Theorem seam_kept `{Mbedtls.Codes} `{Wolfssl.Codes} :
  Mbedtls.ERR_SSL_WANT_READ < 0 -> Mbedtls.ERR_SSL_WANT_WRITE < 0 ->
  (Seam mbedtls_table /\ Seam wolfssl_table) /\
  (forall b s, let '(step, n) := (Wolfssl.tls_write b s).1 in step = MAELYS_EGRESS_TLS_COMPLETE -> 0 < n) /\
  (forall b s, let '(r, s1) := Mbedtls.call_lib (l_write b) s in
     (Mbedtls.tls_write b s).1 = (MAELYS_EGRESS_TLS_COMPLETE, 0) <->
     0 < len b /\ failed (socket s) = false /\ failed (socket s1) = false /\ r = 0) /\
  (forall n s b s1, 0 < n -> failed (socket s) = false -> Mbedtls.call_lib (l_read n) s = (0, b, s1) ->
     failed (socket s1) = false -> (Mbedtls.tls_read n s).1 = (MAELYS_EGRESS_TLS_CLOSED, [])) /\
  (forall n s b s1, 0 < n -> failed (socket s) = false -> Wolfssl.call_lib (l_read (Z.min n INT_MAX)) s = (0, b, s1) ->
     failed (socket s1) = false ->
     l_get_error (ssl s1) 0 <> Wolfssl.ERROR_WANT_READ -> l_get_error (ssl s1) 0 <> Wolfssl.ERROR_WANT_WRITE ->
     (Wolfssl.tls_read n s).1 = (MAELYS_EGRESS_TLS_CLOSED, [])).
Proof using Llaws.
  intros Hwr Hww. split_and!; [apply mbedtls_seam|apply wolfssl_seam| | | |].
  - intros b s. pose proof (wolf_write b s) as Hw. destruct (Wolfssl.tls_write b s).1. tauto.
  - intros b s. pose proof (mbed_write b s) as Hw. destruct (Mbedtls.call_lib (l_write b) s) as [r s1].
    destruct (Mbedtls.tls_write b s).1 as [step n]. destruct Hw as (_ & Hc & Hn). split.
    + intros [= -> ->]. specialize (Hn eq_refl). destruct (proj1 Hc eq_refl) as (? & ? & ? & _). by split_and!.
    + intros (? & ? & ? & ->). assert (step = MAELYS_EGRESS_TLS_COMPLETE) as -> by (apply Hc; split_and!; done || lia).
      by rewrite Hn.
  - intros n s b s1 Hn Hf Ec Hf1. unfold Mbedtls.tls_read, mbind, T_bind, tget.
    destruct (Z.eqb_spec n 0); [lia|]. rewrite Hf. cbn [orb]. by rewrite Ec, mbed_end.
  - intros n s b s1 Hn Hf Ec Hf1 H3 H4. unfold Wolfssl.tls_read, mbind, T_bind, tget.
    destruct (Z.eqb_spec n 0); [lia|]. rewrite Hf. cbn [orb]. by rewrite Ec, wolf_end.
Qed.

(** The sessions the providers make, with their operations. *)
Inductive made `{Mbedtls.Codes} `{Wolfssl.Codes} : tls_table -> provider_session -> Prop :=
| made_mbedtls context role f name calloc setup hostname l w s :
    Mbedtls.session_create context role f name calloc setup hostname l w = (MAELYS_EGRESS_OK, Some s) ->
    made mbedtls_table s
| made_wolfssl context role f name calloc new domain l w s :
    Wolfssl.session_create context role f name calloc new domain l w = (MAELYS_EGRESS_OK, Some s) ->
    made wolfssl_table s.

Lemma socket_init_fresh f w so : egress_tls_socket_init f w = Some so -> failed so = false.
Proof using Type. unfold egress_tls_socket_init. by repeat case_match; intros [= <-]. Qed.

Lemma made_ok `{Mbedtls.Codes} `{Wolfssl.Codes} t s : made t s -> Poisoned t /\ session_ok s.
Proof using Type.
  assert (Hok : forall so x l w, failed so = false -> session_ok (Session so false x l w [])) by (by split).
  intros [context role f name calloc setup hostname l w s' E|context role f name calloc new domain l w s' E];
    (split; [apply _|]); revert E.
  - unfold Mbedtls.session_create. destruct context as [context|]; [|done]. destruct (_ || _); [done|]. destruct calloc; [|done].
    cbn [negb]. destruct (egress_tls_socket_init f w) as [so|] eqn:E; [|done]. apply socket_init_fresh in E.
    repeat case_match; try done; intros [= <-]; by apply Hok.
  - unfold Wolfssl.session_create. destruct context as [context|]; [|done].
    match goal with |- context [match ?x with Some _ => _ | None => _ end] => destruct x; [|done] end.
    destruct (_ || _); [done|]. destruct calloc; [|done].
    cbn [negb]. destruct (egress_tls_socket_init f w) as [so|] eqn:E; [|done]. apply socket_init_fresh in E.
    repeat case_match; try done; intros [= <-]; by apply Hok.
Qed.


(** * Certificates *)

(** What the configuration of a session made for a role has to be. *)
Definition verifies (files : maelys_egress_tls_files) (role : maelys_egress_tls_role_t) (server_name : option bytes)
    (x : ssl_setting) : Prop :=
  let c := set_config x in
  match role with
  | MAELYS_EGRESS_TLS_SERVER =>
      identity c = true /\ is_Some (certificate_file files) /\
      (if require_client_certificate files then verify c = VERIFY_REQUIRED /\ authorities c = true else verify c = VERIFY_NONE)
  | MAELYS_EGRESS_TLS_CLIENT =>
      (verify c = VERIFY_PEER \/ verify c = VERIFY_REQUIRED) /\ authorities c = true /\
      exists name, set_hostname x = Some name /\ server_name = Some name /\ 0 < len name
  end.

Lemma named_peer (name : option bytes) :
  match name with None => true | Some n => len n =? 0 end = false -> exists n, name = Some n /\ 0 < len n.
Proof using Type. destruct name as [n|]; [|done]. intros E. exists n. split; [done|]. pose proof (len_nonneg n). lia. Qed.

Lemma mbedtls_context `{Mbedtls.Codes} files psa ca m pc sd p context :
  Mbedtls.maelys_egress_tls_mbedtls_create (Some files) psa ca m pc sd = (MAELYS_EGRESS_OK, Some (p, context)) ->
  (Mbedtls.server_ready context = true ->
   is_Some (certificate_file files) /\ Mbedtls.make_server files m = (0, Mbedtls.server_config context)) /\
  (Mbedtls.client_ready context = true -> Mbedtls.make_client files m = (0, Mbedtls.client_config context)).
Proof using Type.
  unfold Mbedtls.maelys_egress_tls_mbedtls_create. destruct (files_result _); try done.
  destruct psa; [|done]. destruct ca; [|done]. cbn [negb]. intros E.
  set (r3 := Mbedtls.then_try _ (is_some (ca_file files)) _) in E.
  destruct ((r3 =? 0) && is_some (certificate_file files)) eqn:Ecert.
  1: destruct (Mbedtls.make_server files m) as [r server] eqn:Eserver.
  all: destruct ((_ =? 0) && is_some (ca_file files)) eqn:Eca.
  1,3: destruct (Mbedtls.make_client files m) as [r' client] eqn:Eclient.
  all: destruct (negb _); [done|]; destruct (maelys_egress_tls_provider_create _ _ _ _) as [[] [q|]]; try done;
    injection E as <- <-; simpl; split; try done.
  all: rewrite ?Z.eqb_eq; try (by intros ->).
  all: intros ->; split; [|done]; apply andb_prop in Ecert as [_ Ecert]; destruct (certificate_file files); [by eexists|done].
Qed.

Lemma wolfssl_context files initialized ca m pc sd p context :
  Wolfssl.maelys_egress_tls_wolfssl_create (Some files) initialized ca m pc sd = (MAELYS_EGRESS_OK, Some (p, context)) ->
  (forall c, Wolfssl.server_context context = Some c ->
   is_Some (certificate_file files) /\ Wolfssl.make_server files m = (true, Some c)) /\
  (forall c, Wolfssl.client_context context = Some c -> Wolfssl.make_client files m = (true, Some c)).
Proof using Type.
  unfold Wolfssl.maelys_egress_tls_wolfssl_create. destruct (files_result _); try done.
  destruct initialized; [|done]. destruct ca; [|done]. cbn [negb]. intros E.
  destruct (certificate_file files) as [cert|] eqn:Ec; simpl in E; [destruct (Wolfssl.make_server files m) as [[] server] eqn:Eserver|];
    simpl in E; [|done|]; destruct (is_some (ca_file files)); simpl in E;
    try (destruct (Wolfssl.make_client files m) as [[] client] eqn:Eclient; simpl in E; [|done]);
    (destruct pc, sd; simpl in E; try done); injection E as <- <-; simpl; split; intros c Hc; try done; subst; try done; by split; [eexists|].
Qed.

(** A session has the configuration of its role, which is ready. *)
Lemma mbedtls_session `{Mbedtls.Codes} context role f name ca setup hostname l w s :
  Mbedtls.session_create (Some context) role f name ca setup hostname l w = (MAELYS_EGRESS_OK, Some s) ->
  match role with
  | MAELYS_EGRESS_TLS_SERVER => Mbedtls.server_ready context = true /\ set_config (setting s) = Mbedtls.server_config context
  | MAELYS_EGRESS_TLS_CLIENT =>
      Mbedtls.client_ready context = true /\ set_config (setting s) = Mbedtls.client_config context /\
      exists n, set_hostname (setting s) = Some n /\ name = Some n /\ 0 < len n
  end.
Proof using Type.
  unfold Mbedtls.session_create. intros E. destruct role; cbn [negb andb] in E.
  - destruct (Mbedtls.client_ready context); [|by rewrite !orb_true_r in E]. cbn [negb orb] in E.
    destruct (match name with None => true | Some n => len n =? 0 end) eqn:En; [by rewrite !orb_true_r in E|].
    rewrite !orb_false_r in E. destruct (f <? 0); [done|]. destruct ca; [|done].
    cbn [negb] in E. destruct (egress_tls_socket_init f w); [|done]. destruct (named_peer name En) as (n & -> & Hn).
    unfold Mbedtls.ssl_setup in E. destruct (Z.eqb_spec setup 0) as [->|Hs]; cbn [andb] in E; [|by destruct (Z.eqb_spec setup 0)].
    unfold Mbedtls.ssl_set_hostname in E. destruct (Z.eqb_spec hostname 0); [|done]. injection E as <-.
    split_and!; [done..|]. by exists n.
  - rewrite orb_false_r in E. destruct (Mbedtls.server_ready context); [|by rewrite !orb_true_r in E].
    destruct (_ || _); [done|]. destruct ca; [|done]. cbn [negb] in E. destruct (egress_tls_socket_init f w); [|done].
    unfold Mbedtls.ssl_setup in E. rewrite andb_false_r in E. destruct (Z.eqb_spec setup 0); [|done]. by injection E as <-.
Qed.

Lemma wolfssl_session `{Wolfssl.Codes} context role f name ca new domain l w s :
  Wolfssl.session_create (Some context) role f name ca new domain l w = (MAELYS_EGRESS_OK, Some s) ->
  match role with
  | MAELYS_EGRESS_TLS_SERVER => Wolfssl.server_context context = Some (set_config (setting s))
  | MAELYS_EGRESS_TLS_CLIENT =>
      Wolfssl.client_context context = Some (set_config (setting s)) /\
      exists n, set_hostname (setting s) = Some n /\ name = Some n /\ 0 < len n
  end.
Proof using Type.
  unfold Wolfssl.session_create. intros E. destruct role; cbn [negb andb] in E.
  - destruct (Wolfssl.client_context context); [|done].
    destruct (match name with None => true | Some n => len n =? 0 end) eqn:En; [by rewrite orb_true_r in E|].
    destruct (_ || _); [done|]. destruct ca; [|done]. cbn [negb] in E. destruct (egress_tls_socket_init f w); [|done].
    destruct (named_peer name En) as (n & -> & Hn). destruct new; [|done]. cbn [negb default] in E.
    unfold Wolfssl.check_domain_name in E. destruct (Z.eqb_spec domain Wolfssl.SUCCESS); [|done]. injection E as <-.
    split; [done|]. by exists n.
  - destruct (Wolfssl.server_context context); [|done]. destruct (_ || _); [done|]. destruct ca; [|done].
    cbn [negb] in E. destruct (egress_tls_socket_init f w); [|done]. destruct new; [|done]. cbn [negb] in E.
    rewrite Z.eqb_refl in E. by injection E as <-.
Qed.

(** C18: a provider made from files that ask for client certificates makes no
    server session that does not require one signed by the authorities of the
    files; every server session has the identity of the files, and every client
    session was set up to verify the peer against their authorities and under
    the name it was asked for: a session whose name the library did not take is
    not made.  With either library, and whatever it answers. *)
Theorem certificates_required `{Mbedtls.Codes} `{Wolfssl.Codes} files role name s :
  Mbedtls.ERR_X509_BAD_INPUT_DATA <> 0 ->
  (exists psa ca m pc sd p context f ca' setup hostname l w,
     Mbedtls.maelys_egress_tls_mbedtls_create (Some files) psa ca m pc sd = (MAELYS_EGRESS_OK, Some (p, context)) /\
     Mbedtls.session_create (Some context) role f name ca' setup hostname l w = (MAELYS_EGRESS_OK, Some s)) \/
  (exists initialized ca m pc sd p context f ca' new domain l w,
     Wolfssl.maelys_egress_tls_wolfssl_create (Some files) initialized ca m pc sd = (MAELYS_EGRESS_OK, Some (p, context)) /\
     Wolfssl.session_create (Some context) role f name ca' new domain l w = (MAELYS_EGRESS_OK, Some s)) ->
  verifies files role name (setting s).
Proof using Type.
  intros Hbad [(psa & ca & m & pc & sd & p & context & f & ca' & setup & hostname & l & w & Ep & Es)
              |(psa & ca & m & pc & sd & p & context & f & ca' & setup & hostname & l & w & Ep & Es)].
  - destruct (mbedtls_context _ _ _ _ _ _ _ _ Ep) as [Hserver Hclient]. apply mbedtls_session in Es.
    destruct role; simpl.
    + destruct Es as (Hr & -> & Hn). specialize (Hclient Hr). revert Hclient. unfold Mbedtls.make_client.
      destruct (negb _) eqn:Ed; [intros E; injection E as E <-; by rewrite E in Ed|].
      intros E. injection E as _ <-. simpl. auto.
    + destruct Es as (Hr & ->). destruct (Hserver Hr) as [Hcert Hmake]. revert Hmake. unfold Mbedtls.make_server.
      destruct (negb (Mbedtls.server_defaults m =? 0)) eqn:Ed; [intros E; injection E as E <-; by rewrite E in Ed|].
      destruct (negb (Mbedtls.server_identity m =? 0)) eqn:Ei; [intros E; injection E as E <-; by rewrite E in Ei|].
      destruct (require_client_certificate files); [|intros E; injection E as <-; done].
      destruct (is_some (ca_file files)); intros E; injection E; [by intros <-|done].
  - destruct (wolfssl_context _ _ _ _ _ _ _ _ Ep) as [Hserver Hclient]. apply wolfssl_session in Es.
    destruct role; simpl.
    + destruct Es as (Hr & Hn). specialize (Hclient _ Hr). revert Hclient. unfold Wolfssl.make_client.
      destruct (negb _); [done|]. destruct (negb _); [done|]. destruct (is_some _); intros E; simplify_eq/=; destruct (set_config (setting s)); simplify_eq/=; auto.
    + destruct (Hserver _ Es) as [Hcert Hmake]. revert Hmake. unfold Wolfssl.make_server.
      destruct (negb _); [done|]. destruct (negb _); [done|]. destruct (require_client_certificate files); [|by intros [= <-]].
      destruct (_ && _); [by intros [= <-]|done].
Qed.

End Providers.

(** * The references of a provider *)

Inductive reference := Retain | Release.

(** What a sequence of uses leaves: the provider and the contexts released;
    [None] when a provider is used that is gone. *)
Fixpoint use (p : option maelys_egress_tls_provider) (released : list Z) (uses : list reference)
  : option (option maelys_egress_tls_provider * list Z) :=
  match uses, p with
  | [], _ => Some (p, released)
  | _, None => None
  | Retain :: uses, Some p => use (Some (maelys_egress_tls_provider_retain p)) released uses
  | Release :: uses, Some p =>
      let '(p, context) := maelys_egress_tls_provider_release p in
      use p (match context with Some c => c :: released | None => released end) uses
  end.

(** The references a sequence leaves, when none is used after the last one. *)
Fixpoint held_after (n : Z) (uses : list reference) : option Z :=
  match uses with
  | [] => Some n
  | Retain :: uses => if (n <=? 0) || (2 ^ 32 - 1 <=? n) then None else held_after (n + 1) uses
  | Release :: uses => if n <=? 0 then None else held_after (n - 1) uses
  end.

(** Used within its references, a provider lasts as long as one is held, and its
    context is released with the last. *)
Lemma provider_lasts p uses n :
  0 < references p < 2 ^ 32 -> held_after (references p) uses = Some n ->
  use (Some p) [] uses =
  Some (if 0 <? n then (Some (p <| references := n |>), [])
        else (None, match Tls.provider_context p with Some c => [c] | None => [] end)).
Proof.
  revert p. induction uses as [|[] uses IH]; intros p Hp Hn; simpl in *.
  - injection Hn as <-. destruct (Z.ltb_spec 0 (references p)); [by destruct p|lia].
  - destruct (_ || _) eqn:E; [done|]. apply orb_false_iff in E as [E1 E2]. unfold maelys_egress_tls_provider_retain.
    rewrite Z.mod_small by lia. by rewrite IH by (simpl; (lia || done)).
  - destruct (Z.leb_spec (references p) 0); [done|]. unfold maelys_egress_tls_provider_release.
    destruct (Z.eqb_spec (references p) 1) as [E|E]; cbn [negb].
    + rewrite E in Hn. destruct uses as [|[] uses]; simpl in Hn; [|done|done]. injection Hn as <-. by destruct (Tls.provider_context p).
    + rewrite Z.mod_small by lia. by rewrite IH by (simpl; (lia || done)).
Qed.

(** * An example *)

(** A Unix transport that delivers the messages of a list, and a library without
    any cipher. *)
Section Example.

#[local] Instance example_tls_sys : TlsSys := {|
  tworld := list Fdpass.received;
  t_nonblock _ _ := Some true;
  t_stream _ _ := Some true;
  t_unix _ _ := Some true;
  t_recv _ _ w := (inl EAGAIN, w);
  t_fd_stream_receive _ _ w :=
    match w with
    | [] => ((Fdpass.WOULD_BLOCK, Fdpass.Message [] [] false false false), [])
    | m :: w => ((Fdpass.OK, m), w)
    end;
  t_send _ b w := (inr (len b), w);
|}.

#[local] Instance example_tls_lib : TlsLib := {|
  lstate := unit;
  l_handshake s := LRet (1, s);
  l_read n s := LRecv n (fun '(r, b) =>
    LRet (if (0 <? r) && (r <=? n) && (len b =? r) && forallb (fun z => (0 <=? z) && (z <? 256)) b then (r, b, s) else (Z.min r 0, [], s)));
  l_write b s := LSend b (fun n => LRet (if (n <=? 0) || (len b <? n) then -1 else n, s));
  l_shutdown s := LRet (1, s);
  l_get_error _ r := r;
|}.

#[local] Instance example_mbed_codes : Mbedtls.Codes := {|
  Mbedtls.ERR_SSL_WANT_READ := -26880; Mbedtls.ERR_SSL_WANT_WRITE := -26752;
  Mbedtls.ERR_SSL_PEER_CLOSE_NOTIFY := -30848; Mbedtls.ERR_NET_SEND_FAILED := -78;
  Mbedtls.ERR_NET_RECV_FAILED := -76; Mbedtls.ERR_X509_BAD_INPUT_DATA := -10240 |}.

#[local] Instance example_wolf_codes : Wolfssl.Codes := {|
  Wolfssl.CBIO_ERR_GENERAL := -1; Wolfssl.CBIO_ERR_WANT_READ := -2; Wolfssl.CBIO_ERR_WANT_WRITE := -2;
  Wolfssl.CBIO_ERR_CONN_CLOSE := -5; Wolfssl.ERROR_WANT_READ := 2; Wolfssl.ERROR_WANT_WRITE := 3;
  Wolfssl.ERROR_ZERO_RETURN := 6; Wolfssl.SUCCESS := 1; Wolfssl.SHUTDOWN_NOT_DONE := 2 |}.

#[local] Instance example_lib_laws : TlsLibLaws.
Proof.
  split.
  - intros n s Hn [r b]. simpl. destruct (_ && _) eqn:E; simpl.
    + rewrite !andb_true_iff in E. destruct E as [[[E1 E2] E3] E4]. split_and!; [lia| |lia].
      apply byte_list_check. exact E4.
    + split_and!; [lia|done|lia].
  - intros b s n. simpl. pose proof (len_nonneg b). destruct (_ || _) eqn:E; simpl; [lia|].
    apply orb_false_iff in E. lia.
Qed.

Lemma seam_kept_witness : Seam mbedtls_table /\ Seam wolfssl_table.
Proof.
  refine (proj1 (seam_kept _ _)); [unfold Mbedtls.ERR_SSL_WANT_READ|unfold Mbedtls.ERR_SSL_WANT_WRITE]; simpl; lia.
Defined.

(** Two bytes that come alone, two with a descriptor, two more. *)
Definition example_messages : list Fdpass.received :=
  [Fdpass.Message [1; 2] [] false false false; Fdpass.Message [3; 4] [] false false true;
   Fdpass.Message [5; 6] [] false false false].

Definition example_session (x : ssl_setting) : provider_session :=
  Session (TlsSocket 5 true false) false x tt example_messages [].

Definition example_setting : ssl_setting := Setting (SslConfig true true VERIFY_REQUIRED) None.

Example example_reads :
  (perform_all mbedtls_table [ReadUpTo 10; ReadUpTo 10; ReadUpTo 10; Write [7]] (example_session example_setting)).1 =
  [(MAELYS_EGRESS_TLS_COMPLETE, [1; 2], 0); (MAELYS_EGRESS_TLS_FAILED, [], 0); (MAELYS_EGRESS_TLS_FAILED, [], 0);
   (MAELYS_EGRESS_TLS_FAILED, [], 0)].
Proof. vm_compute. done. Qed.

Lemma example_made : made mbedtls_table (example_session example_setting).
Proof.
  by apply (@made_mbedtls example_tls_sys example_tls_lib _ _ (Some (Mbedtls.Context_ (SslConfig true true VERIFY_REQUIRED) no_config true false))
    MAELYS_EGRESS_TLS_SERVER 5 None true 0 0 tt example_messages).
Qed.


Definition example_files : maelys_egress_tls_files :=
  TlsFiles 1 (Some (str "cert.pem")) (Some (str "key.pem")) (Some (str "ca.pem")) true.

Definition example_client : ssl_setting := Setting (SslConfig true true VERIFY_REQUIRED) (Some (str "example.org")).

Lemma example_client_session :
  exists psa ca m pc sd p context f ca' setup hostname l w,
     Mbedtls.maelys_egress_tls_mbedtls_create (Some example_files) psa ca m pc sd = (MAELYS_EGRESS_OK, Some (p, context)) /\
     Mbedtls.session_create (Some context) MAELYS_EGRESS_TLS_CLIENT f (Some (str "example.org")) ca' setup hostname l w =
       (MAELYS_EGRESS_OK, Some (example_session example_client)).
Proof.
  exists true, true, (Mbedtls.Making 0 0 0 0 0 0 0 0), true, true. do 2 eexists. exists 5, true, 0, 0, tt, example_messages.
  by split.
Qed.

Lemma example_bad : Mbedtls.ERR_X509_BAD_INPUT_DATA <> 0.
Proof. unfold Mbedtls.ERR_X509_BAD_INPUT_DATA. simpl. lia. Qed.

Lemma certificates_required_witness :
  verifies example_files MAELYS_EGRESS_TLS_CLIENT (Some (str "example.org")) example_client.
Proof.
  exact (certificates_required example_files MAELYS_EGRESS_TLS_CLIENT (Some (str "example.org"))
           (example_session example_client) example_bad (or_introl example_client_session)).
Defined.

End Example.
