(* ===== verification/Sdk.v ===== *)
(** The process SDKs of Python (sdk/python/src/maelys_egress/__init__.py) and of
    Node.js (sdk/node/index.js): the configuration they check and render, the
    trust they ask of the binary they start, the lifecycle stream they read and
    the events they retain.

    A text of either language is the list of its code points, written to a file
    in UTF-8.  What the two languages call white space is listed by code point.
    The file system is a parameter: the status of a path, and the path a path
    resolves to. *)

From S2P Require Import Prelude Common Codec Config ConfigFile.

(** * Text *)

Definition utf8_char (c : Z) : bytes :=
  if c <? 0x80 then [c]
  else if c <? 0x800 then [0xc0 + c / 64; 0x80 + c mod 64]
  else if c <? 0x10000 then [0xe0 + c / 4096; 0x80 + (c / 64) mod 64; 0x80 + c mod 64]
  else [0xf0 + c / 262144; 0x80 + (c / 4096) mod 64; 0x80 + (c / 64) mod 64; 0x80 + c mod 64].

Definition utf8 (s : list Z) : bytes := flat_map utf8_char s.

(** The white space both languages know. *)
Definition common_space (c : Z) : bool :=
  ((9 <=? c) && (c <=? 13)) || (c =? 32) || (c =? 0xa0) || (c =? 0x1680) ||
  ((0x2000 <=? c) && (c <=? 0x200a)) || (c =? 0x2028) || (c =? 0x2029) || (c =? 0x202f) || (c =? 0x205f) || (c =? 0x3000).

(** [str.isspace] of a character. *)
Definition isspace (c : Z) : bool := common_space c || ((0x1c <=? c) && (c <=? 0x1f)) || (c =? 0x85).

(** [\s] of a regular expression. *)
Definition js_space (c : Z) : bool := common_space c || (c =? 0xfeff).

(** * The configuration *)

Record sdk_destination := SdkDestination {
  d_host : list Z;
  d_port : Z;
  d_allow_private : bool;
  d_require_tls_sni : bool;
}.

Record sdk_config := SdkConfig {
  destinations : list sdk_destination;
  listen_host : list Z;
  listen_port : Z;
  admin_host : list Z;
  admin_port : Z;
  max_connections : Z;
  quota_connections : Z;
  quota_bytes : Z;
  quota_total_bytes : Z;
}.

#[export] Instance eta_sdk_config : Eta sdk_config := fun c =>
  SdkConfig (destinations c) (listen_host c) (listen_port c) (admin_host c) (admin_port c) (max_connections c)
    (quota_connections c) (quota_bytes c) (quota_total_bytes c).

Definition between (lo hi n : Z) : bool := (lo <=? n) && (n <=? hi).

Definition loopback_host (h : list Z) : bool := beq h (str "127.0.0.1") || beq h (str "::1").

Definition directive_key (d : sdk_destination) : bytes :=
  if d_require_tls_sni d then str "allow_tls_sni" else if d_allow_private d then str "allow_private" else str "allow".

Definition directive_text (d : sdk_destination) : list Z :=
  directive_key d ++ str " = " ++ d_host d ++ c_colon :: decimal (d_port d).

(** [Destination.directive] of Python, which raises on a bad destination. *)
Definition py_directive (d : sdk_destination) : option (list Z) :=
  if (len (d_host d) =? 0) || existsb isspace (d_host d) then None
  else if negb (between 1 65535 (d_port d)) then None
  else if d_allow_private d && d_require_tls_sni d then None
  else Some (directive_text d).

(** [EgressConfig._validate] of Python: whether it does not raise. *)
Definition py_validate (c : sdk_config) : bool :=
  negb (len (destinations c) =? 0) && loopback_host (listen_host c) && loopback_host (admin_host c) &&
  between 0 65535 (listen_port c) && between 0 65535 (admin_port c) &&
  between 0 1000000 (max_connections c) && between 0 1000000 (quota_connections c) &&
  between 0 (2 ^ 63 - 1) (quota_bytes c) && between 0 (2 ^ 63 - 1) (quota_total_bytes c) &&
  negb (max_connections c =? 0) && forallb (fun d => is_some (py_directive d)) (destinations c).

(** The lines before the destinations. *)
Definition head_lines (c : sdk_config) (token_path : list Z) : list (list Z) :=
  [str "schema_version = 1";
   str "listen = " ++ listen_host c ++ c_colon :: decimal (listen_port c);
   str "admin_listen = " ++ admin_host c ++ c_colon :: decimal (admin_port c);
   str "token_file = " ++ token_path;
   str "max_connections = " ++ decimal (max_connections c);
   str "quota_connections = " ++ decimal (quota_connections c);
   str "quota_bytes = " ++ decimal (quota_bytes c);
   str "quota_total_bytes = " ++ decimal (quota_total_bytes c)].

(** The directives of a list, or the exception of the first bad one. *)
Fixpoint py_directives (ds : list sdk_destination) : option (list (list Z)) :=
  match ds with
  | [] => Some []
  | d :: ds => t ← py_directive d; ts ← py_directives ds; Some (t :: ts)
  end.

(** [EgressConfig.render] of Python. *)
Definition py_render (c : sdk_config) (token_path : list Z) : option (list Z) :=
  ts ← py_directives (destinations c);
  Some (join c_lf (head_lines c token_path ++ ts) ++ [c_lf]).

(** The constructor of [Destination] of Node.js. *)
Definition js_destination (d : sdk_destination) : bool :=
  negb ((len (d_host d) =? 0) || existsb js_space (d_host d)) && between 1 65535 (d_port d) &&
  negb (d_allow_private d && d_require_tls_sni d).

Definition MAX_SAFE_INTEGER : Z := 2 ^ 53 - 1.

(** The constructor of [EgressConfig] of Node.js, on destinations it made. *)
Definition js_config (c : sdk_config) : bool :=
  negb (len (destinations c) =? 0) && forallb js_destination (destinations c) &&
  loopback_host (listen_host c) && loopback_host (admin_host c) &&
  between 0 65535 (listen_port c) && between 0 65535 (admin_port c) &&
  between 0 1000000 (max_connections c) && between 0 1000000 (quota_connections c) &&
  between 0 MAX_SAFE_INTEGER (quota_bytes c) && between 0 MAX_SAFE_INTEGER (quota_total_bytes c) &&
  negb (max_connections c =? 0).

Definition js_directive (d : sdk_destination) : list Z := directive_text d.

(** [EgressConfig.render] of Node.js. *)
Definition js_render (c : sdk_config) (token_path : list Z) : list Z :=
  join c_lf (head_lines c token_path ++ map js_directive (destinations c) ++ [[]]).

(** [withDestinations], and the candidate of [replace_destinations]. *)
Definition with_destinations (c : sdk_config) (ds : list sdk_destination) : sdk_config := c <| destinations := ds |>.

(** * The trust in a binary *)

(** The status of a path. *)
Record path_status := PathStatus {
  st_uid : Z;
  st_mode : Z;
  st_directory : bool;
}.

Definition S_ISVTX : Z := 512.
Definition S_IWGRP : Z := 16.
Definition S_IWOTH : Z := 2.

Inductive refusal := NotOwned | WorldWritable | GroupWritable.

(** [_trust_refusal] and [trustRefusal]: why a path may be replaced by someone
    other than root or the caller. *)
Definition trust_refusal (st : path_status) (euid : Z) : option refusal :=
  if negb (st_uid st =? 0) && negb (st_uid st =? euid) then Some NotOwned
  else if st_directory st && negb (Z.land (st_mode st) S_ISVTX =? 0) then None
  else if negb (Z.land (st_mode st) S_IWOTH =? 0) then Some WorldWritable
  else if negb (Z.land (st_mode st) S_IWGRP =? 0) && negb (st_uid st =? euid) then Some GroupWritable
  else None.

(** An absolute path is the list of its names, the last one first; its parent is
    the rest, and the root has none. *)
Abbreviation path := (list bytes).

(** A path and the directories above it. *)
Fixpoint lineage (p : path) : list path :=
  p :: match p with [] => [] | _ :: parent => lineage parent end.

(** [dict.setdefault] on the keys of an insertion-ordered dictionary. *)
Definition add_once (checked : list path) (p : path) : list path :=
  if bool_decide (p ∈ checked) then checked else checked ++ [p].

Definition py_checked (candidate resolved : path) : list path :=
  fold_left add_once (lineage candidate ++ lineage resolved) [].

(** The walk of Node.js, which stops at a path it has seen. *)
Fixpoint js_walk (cursor : path) (checked : list path) : list path :=
  if bool_decide (cursor ∈ checked) then checked
  else match cursor with
       | [] => checked ++ [cursor]
       | _ :: parent => js_walk parent (checked ++ [cursor])
       end.

Definition js_checked (candidate resolved : path) : list path := js_walk resolved (js_walk candidate []).

(** [Raised] is a path that has no status or does not resolve. *)
Inductive trust := Trusted | Refused (p : path) (why : refusal) | Raised.

Fixpoint check_paths (stat : path -> option path_status) (euid : Z) (checked : list path) : trust :=
  match checked with
  | [] => Trusted
  | p :: checked =>
      match stat p with
      | None => Raised
      | Some st =>
          match trust_refusal st euid with
          | Some why => Refused p why
          | None => check_paths stat euid checked
          end
      end
  end.

(** [resolve] is [Path.resolve(strict=True)]. *)
Definition py_binary_trust_refusal (stat : path -> option path_status) (resolve : path -> option path) (euid : Z)
    (binary : path) : trust :=
  match resolve binary with
  | None => Raised
  | Some resolved => check_paths stat euid (py_checked binary resolved)
  end.

Definition js_binary_trust_refusal (stat : path -> option path_status) (resolve : path -> option path) (euid : Z)
    (binary : path) : trust :=
  match resolve binary with
  | None => Raised
  | Some resolved => check_paths stat euid (js_checked binary resolved)
  end.

(** The binary to start: [inl] is the list of refusals, [None] an exception.
    [executable] is whether the path is a file the caller may execute. *)
Fixpoint discover (executable : path -> bool) (refuses : path -> trust) (resolve : path -> option path)
    (candidates : list path) (refusals : list (path * refusal)) : option (list (path * refusal) + path) :=
  match candidates with
  | [] => Some (inl refusals)
  | p :: candidates =>
      if negb (executable p) then discover executable refuses resolve candidates refusals
      else match refuses p with
           | Raised => None
           | Trusted => inr <$> resolve p
           | Refused q why => discover executable refuses resolve candidates (refusals ++ [(q, why)])
           end
  end.

(** * The lifecycle stream of Node.js *)

Definition LINE_MAX : Z := 2 ^ 20.

Section Lifecycle.

(** [accept] is what becomes of a line: the event it is, or an exception. *)
Context {event : Type} (accept : bytes -> option event).

(** What a chunk brings: the events, the buffer, and whether it ended in a
    [lifecycle-fatal] event. *)
Record consumed := Consumed {
  events : list event;
  rest : bytes;
  fatal : bool;
}.

(** The loop on the lines of the buffer. *)
Fixpoint consume_lines (fuel : nat) (buffer : bytes) : consumed :=
  match fuel with
  | O => Consumed [] buffer false
  | S fuel =>
      match index_of c_lf buffer with
      | None => Consumed [] buffer false
      | Some newline =>
          if LINE_MAX <? Z.of_nat newline then Consumed [] buffer true
          else
            let buffer' := drop (S newline) buffer in
            match accept (take newline buffer) with
            | None => Consumed [] buffer' true
            | Some e => let c := consume_lines fuel buffer' in Consumed (e :: events c) (rest c) (fatal c)
            end
      end
  end.

(** [#consumeLifecycle]; a buffer has no more lines than bytes. *)
Definition consumeLifecycle (buffer chunk : bytes) : consumed :=
  let buffer := buffer ++ chunk in
  if (LINE_MAX <? len buffer) && negb (has_char c_lf buffer) then Consumed [] buffer true
  else consume_lines (S (length buffer)) buffer.

(** The chunks of a stream, up to the first failure. *)
Fixpoint consume_chunks (buffer : bytes) (chunks : list bytes) : consumed :=
  match chunks with
  | [] => Consumed [] buffer false
  | chunk :: chunks =>
      let c := consumeLifecycle buffer chunk in
      if fatal c then c
      else let c' := consume_chunks (rest c) chunks in Consumed (events c ++ events c') (rest c') (fatal c')
  end.

End Lifecycle.

(** * The events Python retains *)

Section Retain.
Context {event : Type}.

(** The queue of an [EgressProcess] without a callback. *)
Record retained := Retained {
  pending : list event;
  dropped : Z;
}.

(** [_retain] on a [deque] of [maximum] entries, which drops from its front. *)
Definition retain (maximum : Z) (r : retained) (e : event) : retained :=
  if len (pending r) =? maximum
  then Retained (tl (pending r ++ [e])) (dropped r + 1)
  else Retained (pending r ++ [e]) (dropped r).

(** [next_event] when one is there; [None] is [queue.Empty]. *)
Definition next_event (r : retained) : option (event * retained) :=
  match pending r with
  | [] => None
  | e :: pending => Some (e, Retained pending (dropped r))
  end.

End Retain.
