(* ===== verification/SdkTheorems.v ===== *)
(** What the process SDKs promise, against the daemon they start.

    [sdk_config_loads]: a configuration either SDK accepts, within the ranges of
    the daemon, is rendered to a file the daemon loads to exactly that
    configuration, and a replacement of its destinations is one a reload
    accepts.  [sdk_ipv6_refused]: one that listens on the IPv6 loopback is
    not.  [binary_trust_exact]: a discovered binary is in nobody else's hands.
    [lifecycle_chunks]: how the stream is cut into chunks does not matter.
    [retained_exact]: the retained events are the last ones, and what is lost is
    counted. *)

From S2P Require Import Prelude Common Codec Config ConfigFile ConfigFileFacts ConfigTheorems Sdk.

(** * Rendering *)

Lemma utf8_ascii s : Forall (fun c => 0 <= c < 128) s -> utf8 s = s.
Proof.
  induction 1 as [|c s Hc _ IH]; [done|]. unfold utf8 in *. simpl. rewrite IH. unfold utf8_char.
  destruct (Z.ltb_spec c 128); [done|lia].
Qed.

Lemma utf8_app s t : utf8 (s ++ t) = utf8 s ++ utf8 t.
Proof. apply flat_map_app. Qed.

Lemma join_lines lines : lines <> [] -> join c_lf lines ++ [c_lf] = concat (map (fun l => l ++ [c_lf]) lines).
Proof.
  intros Hn. induction lines as [|l [|l' lines] IH]; [done|simpl; by rewrite app_nil_r|].
  change (join c_lf (l :: l' :: lines)) with (l ++ c_lf :: join c_lf (l' :: lines)). cbn [map concat].
  rewrite <-(app_assoc l). cbn [app]. rewrite IH by done. cbn [map concat]. by rewrite <-!app_assoc.
Qed.

Lemma join_last lines : lines <> [] -> join c_lf (lines ++ [[]]) = concat (map (fun l => l ++ [c_lf]) lines).
Proof.
  intros Hn. induction lines as [|l [|l' lines] IH]; [done|simpl; by rewrite app_nil_r|].
  change ((l :: l' :: lines) ++ [[]]) with (l :: (l' :: lines) ++ [[]]).
  change (join c_lf (l :: (l' :: lines) ++ [[]])) with (l ++ c_lf :: join c_lf ((l' :: lines) ++ [[]])).
  rewrite IH by done. cbn [map concat]. by rewrite <-!app_assoc.
Qed.

Lemma py_directives_text ds ts : py_directives ds = Some ts -> ts = map directive_text ds.
Proof.
  revert ts. induction ds as [|d ds IH]; intros ts; cbn [py_directives]; [by intros [= <-]|].
  destruct (py_directive d) as [t|] eqn:Ed; [|done]. simpl. destruct (py_directives ds) as [ts'|]; [|done].
  intros [= <-]. cbn [map]. rewrite (IH ts' eq_refl). f_equal. revert Ed. unfold py_directive.
  repeat (destruct (_ : bool); [done|]). by intros [= <-].
Qed.

(** The lines of a configuration. *)
Definition sdk_text (c : sdk_config) (token_path : list Z) : list Z :=
  concat (map (fun l => l ++ [c_lf]) (head_lines c token_path ++ map directive_text (destinations c))).

(** Both SDKs write the same file. *)
Lemma py_render_text c token t : py_render c token = Some t -> t = sdk_text c token.
Proof.
  unfold py_render. destruct (py_directives _) as [ts|] eqn:E; [|done]. cbn [mbind option_bind]. intros Et.
  apply (inj Some) in Et as <-. rewrite (py_directives_text _ _ E). by rewrite join_lines.
Qed.

Lemma js_render_text c token : js_render c token = sdk_text c token.
Proof. unfold js_render. rewrite app_assoc. by rewrite join_last. Qed.

(** * What the daemon reads of it *)

Definition directive_entry (d : sdk_destination) : entry :=
  (if d_require_tls_sni d then EGRESS_CLI_KEY_ALLOW_TLS_SNI
   else if d_allow_private d then EGRESS_CLI_KEY_ALLOW_PRIVATE else EGRESS_CLI_KEY_ALLOW,
   d_host d ++ c_colon :: decimal (d_port d)).

Definition head_entries (c : sdk_config) (token_path : list Z) : list entry :=
  [(EGRESS_CLI_KEY_SCHEMA_VERSION, str "1");
   (EGRESS_CLI_KEY_LISTEN, listen_host c ++ c_colon :: decimal (listen_port c));
   (EGRESS_CLI_KEY_ADMIN_LISTEN, admin_host c ++ c_colon :: decimal (admin_port c));
   (EGRESS_CLI_KEY_TOKEN_FILE, token_path);
   (EGRESS_CLI_KEY_MAX_CONNECTIONS, decimal (max_connections c));
   (EGRESS_CLI_KEY_QUOTA_CONNECTIONS, decimal (quota_connections c));
   (EGRESS_CLI_KEY_QUOTA_BYTES, decimal (quota_bytes c));
   (EGRESS_CLI_KEY_QUOTA_TOTAL_BYTES, decimal (quota_total_bytes c))].

Definition sdk_entries (c : sdk_config) (token_path : list Z) : list entry :=
  head_entries c token_path ++ map directive_entry (destinations c).

(** The line of an entry, as the SDKs write it. *)
Definition sdk_line (e : entry) : bytes := name (catalog e.1) ++ str " = " ++ e.2 ++ [c_lf].

Lemma sdk_text_entries c token : sdk_text c token = concat (map sdk_line (sdk_entries c token)).
Proof.
  unfold sdk_text, sdk_entries. rewrite !map_app, !map_map. f_equal. f_equal.
  apply map_ext. intros d. unfold sdk_line, directive_text, directive_entry, directive_key.
  destruct (d_require_tls_sni d), (d_allow_private d); cbn [fst snd]; rewrite <-!app_assoc; cbn [app]; by rewrite <-?app_assoc.
Qed.

(** A text the daemon reads back whole. *)
Definition whole (t : bytes) : Prop := text_ok t /\ len t <= 4000 /\ ends_line t.

Lemma sdk_line_reads e r :
  whole e.2 ->
  exists line, getlines (sdk_line e ++ r) = line :: getlines r /\ entry_line line e /\ len line <= 4096 /\ 0 ∉ line.
Proof.
  destruct e as [k v]. intros (Hv & Hl & He). destruct (catalog_name_line k) as (Hn & H0 & Hlf).
  destruct Hv as [Hne Hv0 Hvl Ht]. unfold sdk_line. cbn [fst snd] in *.
  replace ((name (catalog k) ++ str " = " ++ v ++ [c_lf]) ++ r)
    with ((name (catalog k) ++ str " = " ++ v) ++ c_lf :: r) by apps.
  assert (Hs0 : 0 ∉ str " = ") by (vm_compute; set_solver). assert (Hsl : c_lf ∉ str " = ") by (vm_compute; set_solver).
  rewrite getlines_app by set_solver. eexists. split_and!; [done| | |set_solver].
  - exists [], [c_space], [c_space], [], [c_lf]. cbn [fst snd].
    split_and!; [|constructor|by repeat constructor|by repeat constructor|constructor|by repeat constructor|by rewrite app_nil_r].
    rewrite <-!app_assoc. done.
  - autorewrite with len. change (len (str " = ")) with 3. lia.
Qed.

Lemma sdk_reads es :
  Forall (fun e => whole e.2) es ->
  reads (getlines (concat (map sdk_line es))) es /\
  Forall (fun line => len line <= 4096 /\ 0 ∉ line) (getlines (concat (map sdk_line es))).
Proof.
  induction 1 as [|e es He _ [IH1 IH2]]; [by repeat constructor|]. cbn [map concat].
  destruct (sdk_line_reads e (concat (map sdk_line es)) He) as (line & -> & Hr & Hl).
  split; constructor; done.
Qed.

(** * The settings of a configuration *)

Definition sdk_destinations (c : sdk_config) : list Destination.egress_cli_destination_t :=
  map (fun d => Destination.Make (d_host d) (d_port d) (d_allow_private d) (d_require_tls_sni d)) (destinations c).

(** The settings a configuration stands for, with the token at a path. *)
Definition sdk_settings (c : sdk_config) (token_path : bytes) : settings :=
  default_settings
    <| Settings.listen_host := listen_host c |> <| Settings.listen_port := listen_port c |> <| Settings.listen_set := true |>
    <| Settings.admin_host := admin_host c |> <| Settings.admin_port := admin_port c |> <| Settings.admin_set := true |>
    <| Settings.token_file := Some token_path |> <| Settings.max_connections := max_connections c |>
    <| Settings.quota_connections := quota_connections c |> <| Settings.quota_bytes := quota_bytes c |>
    <| Settings.quota_total_bytes := quota_total_bytes c |> <| Settings.destinations := sdk_destinations c |>.

(** What the daemon bounds more tightly than the SDKs do. *)
Record within (c : sdk_config) : Prop := {
  in_listen : listen_host c = str "127.0.0.1";
  in_admin : admin_host c = str "127.0.0.1";
  in_max : max_connections c <= 4096;
  in_quota : quota_connections c <= 4096;
  in_count : len (destinations c) <= EGRESS_CLI_MAX_DESTINATIONS;
  in_hosts : Forall (fun d => Forall (fun x => 0 < x < 128) (d_host d) /\ c_colon ∉ d_host d /\
    at_ (d_host d) 0 <> c_lbracket /\ len (d_host d) < 254) (destinations c);
}.

(** What either SDK checks. *)
Record checked (c : sdk_config) : Prop := {
  ck_some : destinations c <> [];
  ck_listen : 0 <= listen_port c <= 65535;
  ck_admin : 0 <= admin_port c <= 65535;
  ck_max : 1 <= max_connections c;
  ck_quota : 0 <= quota_connections c;
  ck_bytes : 0 <= quota_bytes c < 2 ^ 63;
  ck_total : 0 <= quota_total_bytes c < 2 ^ 63;
  ck_hosts : Forall (fun d => d_host d <> [] /\ Forall (fun x => common_space x = false) (d_host d) /\
    1 <= d_port d <= 65535 /\ d_allow_private d && d_require_tls_sni d = false) (destinations c);
}.

Lemma nonempty_len {A} (l : list A) : (len l =? 0) = false -> l <> [].
Proof. by intros E ->. Qed.

Lemma spaceless (space : Z -> bool) (h : list Z) :
  (forall x, common_space x = true -> space x = true) -> existsb space h = false -> Forall (fun x => common_space x = false) h.
Proof.
  intros Hs He. apply existsb_false_Forall in He. eapply Forall_impl; [exact He|]. intros x Hx.
  destruct (common_space x) eqn:E; [|done]. apply Hs in E. simpl in Hx. congruence.
Qed.

Lemma isspace_common x : common_space x = true -> isspace x = true.
Proof. unfold isspace. by intros ->. Qed.

Lemma js_space_common x : common_space x = true -> js_space x = true.
Proof. unfold js_space. by intros ->. Qed.

Lemma between_true lo hi n : between lo hi n = true <-> lo <= n <= hi.
Proof. unfold between. lia. Qed.

Lemma py_directive_checked d : is_some (py_directive d) = true ->
  d_host d <> [] /\ Forall (fun x => common_space x = false) (d_host d) /\ 1 <= d_port d <= 65535 /\
  d_allow_private d && d_require_tls_sni d = false.
Proof.
  unfold py_directive. destruct (_ || _) eqn:E1; [done|]. apply orb_false_iff in E1 as [En Es].
  destruct (between 1 65535 (d_port d)) eqn:Ep; [|done]. destruct (_ && _) eqn:Ea; [done|]. intros _.
  apply between_true in Ep.
  split_and!; [by apply nonempty_len|by eapply spaceless; [apply isspace_common|]|lia|lia|done].
Qed.

Lemma js_destination_checked d : js_destination d = true ->
  d_host d <> [] /\ Forall (fun x => common_space x = false) (d_host d) /\ 1 <= d_port d <= 65535 /\
  d_allow_private d && d_require_tls_sni d = false.
Proof.
  unfold js_destination. rewrite !andb_true_iff, !negb_true_iff, orb_false_iff, between_true.
  intros [[[En Es] Ep] Ea]. split_and!; [by apply nonempty_len|by eapply spaceless; [apply js_space_common|]|lia|lia|done].
Qed.

Lemma sdk_checked c : py_validate c = true \/ js_config c = true -> checked c.
Proof.
  intros [Hv|Hv]; unfold py_validate, js_config, MAX_SAFE_INTEGER in Hv;
    rewrite !andb_true_iff, !negb_true_iff, !between_true, forallb_forall in Hv; destruct_and! Hv;
    (split; [by apply nonempty_len|lia..|]); apply Forall_forall; intros d Hd;
    [apply py_directive_checked|apply js_destination_checked]; match goal with H : forall _, In _ _ -> _ |- _ => apply H end; by apply list_elem_of_In.
Qed.

(** * Loading *)

(** A host without a colon, as the SDKs write it. *)
Lemma plain_endpoint capacity h p :
  1 <= len h < capacity -> c_colon ∉ h -> at_ h 0 <> c_lbracket -> 0 <= p <= 65535 ->
  parse_endpoint (h ++ c_colon :: decimal p) capacity = Some (h, p).
Proof.
  intros Hlen Hc Hb Hp. pose proof (decimal_digits p ltac:(lia)) as Hd. unfold parse_endpoint, split_endpoint.
  assert (Ea : at_ (h ++ c_colon :: decimal p) 0 = at_ h 0) by (destruct h; [rewrite len_nil in Hlen; lia|done]).
  rewrite Ea. destruct (Z.eqb_spec (at_ h 0) c_lbracket); [done|].
  rewrite last_index_of_app, index_of_app by (done || by apply text_digits_free).
  rewrite bool_decide_true by done. rewrite take_app_length, Nat.add_1_r.
  rewrite drop_app_ge by lia. replace (S (length h) - length h)%nat with 1%nat by lia. cbn [drop]. rewrite drop_0.
  assert (Hn : len (decimal p) <> 0).
  { pose proof (decimal_nonempty p) as Hn. unfold len. by destruct (decimal p). }
  destruct (_ || _) eqn:Eg; [bool_simp; lia|]. by rewrite port_loop_decimal.
Qed.

Lemma digits_end a d : d <> [] -> Forall (fun c => is_digit c = true) d -> ends_line (a ++ d).
Proof.
  intros Hd Hf. apply ends_line_app; [done|]. destruct (exists_last Hd) as (d' & c & ->).
  apply ends_line_snoc. apply Forall_app in Hf as [_ Hf]. apply Forall_cons in Hf as [Hf _].
  cbv beta in Hf. unfold is_digit, in_range, eol in *. lia.
Qed.

Lemma whole_number n : is_u64 n -> whole (decimal n).
Proof.
  intros Hn. pose proof (decimal_digits n ltac:(unfold is_u64 in Hn; lia)) as Hd. pose proof (decimal_nonempty n) as Hne.
  split_and!; [|pose proof (decimal_len_u64 n Hn); lia|by apply (digits_end [])].
  split; [done|by apply text_digits_free|by apply text_digits_free|].
  destruct (decimal n) as [|c d] eqn:E; [done|]. apply Forall_cons in Hd as [Hc Hd].
  change (c :: d) with ([c] ++ d). destruct d as [|c' d].
  - unfold trim. simpl. rewrite digit_not_blank by done. simpl. by rewrite digit_not_blank.
  - apply trim_ended; [|done|done|done]. simpl. by rewrite digit_not_blank.
Qed.

Lemma whole_endpoint h p :
  h <> [] -> len h < 254 -> 0 <= p <= 65535 -> Forall (fun x => 0 < x) h -> Forall (fun x => common_space x = false) h ->
  whole (h ++ c_colon :: decimal p).
Proof.
  intros Hne Hlen Hp H0 Hs. pose proof (decimal_digits p ltac:(lia)) as Hd. pose proof (decimal_nonempty p).
  pose proof (decimal_len_u16 p ltac:(unfold is_u16; lia)).
  assert (Hn : forall c, c ∈ h -> 0 < c /\ common_space c = false).
  { intros c Hc. rewrite Forall_forall in H0, Hs. auto. }
  replace (h ++ c_colon :: decimal p) with ((h ++ [c_colon]) ++ decimal p) by (by rewrite <-app_assoc).
  split_and!; [|autorewrite with len; lia|by apply digits_end].
  split.
  - by destruct h.
  - intros [[Hc|Hc]%elem_of_app|Hc]%elem_of_app; [by destruct (Hn 0 Hc)|by apply list_elem_of_singleton in Hc|].
    exact (text_digits_free _ 0 Hd eq_refl Hc).
  - intros [[Hc|Hc]%elem_of_app|Hc]%elem_of_app; [by destruct (Hn c_lf Hc)|by apply list_elem_of_singleton in Hc|].
    exact (text_digits_free _ c_lf Hd eq_refl Hc).
  - apply trim_ended; [|by destruct h|done|done]. apply drop_blanks_keep; [done|]. destruct h as [|c h]; [done|]. simpl.
    destruct (Hn c) as [_ Hc]; [set_solver|]. destruct (blank c) eqn:E; [|done]. exfalso. revert Hc E.
    unfold common_space, blank. lia.
Qed.

Section Load.
Context `{Cli} {Hlaws : CliLaws}.

Lemma loads_apply tls es s k v s' :
  loads tls es s -> text_ok v -> (repeatable (catalog k) = true \/ k ∉ es.*1) -> tls_only (catalog k) = false ->
  apply_value true s k v = Stored s' -> loads tls (es ++ [(k, v)]) s'.
Proof using Type.
  intros Hl Hv Hk Ht Ha. pose proof (apply_value_field true s k v) as Hf. rewrite Ha in Hf. destruct Hf as [Hm Ho].
  eapply loads_entry; [exact Hl|done|done|by rewrite Ht|done|done].
Qed.

(** The settings before any destination. *)
Definition head_settings (c : sdk_config) (token_path : bytes) : settings :=
  sdk_settings (with_destinations c []) token_path.

Ltac step L k v s' :=
  match type of L with loads ?tls ?es ?s =>
    assert (loads tls (es ++ [(k, v)]) s');
      [apply (loads_apply tls es s k v s' L); [|right; cbn [app fmap list_fmap fst]; repeat (apply not_elem_of_cons; split; [discriminate|]); apply not_elem_of_nil|reflexivity|]|clear L; rename select (loads _ _ _) into L; cbn [app] in L]
  end.

Lemma loads_head tls c token :
  checked c -> within c -> text_ok token -> loads tls (head_entries c token) (head_settings c token).
Proof using Hlaws.
  intros Hc Hw Htok. destruct Hc as [_ C1 C2 C3 C4 C5 C6 _], Hw as [W1 W2 W3 W4 _ _].
  assert (E1 : parse_endpoint (listen_host c ++ c_colon :: decimal (listen_port c)) 64 = Some (listen_host c, listen_port c))
    by (rewrite W1; apply plain_endpoint; [done|by apply has_char_false|done|done]).
  assert (E2 : parse_endpoint (admin_host c ++ c_colon :: decimal (admin_port c)) 64 = Some (admin_host c, admin_port c))
    by (rewrite W2; apply plain_endpoint; [done|by apply has_char_false|done|done]).
  assert (T1 : text_ok (listen_host c ++ c_colon :: decimal (listen_port c)))
    by (rewrite W1; apply whole_endpoint; [done|done|done|by repeat constructor|by repeat constructor]).
  assert (T2 : text_ok (admin_host c ++ c_colon :: decimal (admin_port c)))
    by (rewrite W2; apply whole_endpoint; [done|done|done|by repeat constructor|by repeat constructor]).
  assert (N : forall lo hi n, is_u64 n -> lo <= n <= hi -> parse_u64_decimal (decimal n) lo hi = Some n)
    by (intros; by apply parse_decimal_plain).
  assert (T : forall n, is_u64 n -> text_ok (decimal n)) by (intros; by apply whole_number).
  pose proof (loads_nil tls) as L.
  step L EGRESS_CLI_KEY_SCHEMA_VERSION (str "1") default_settings; [by apply ascii_text|done|].
  set (s1 := default_settings <| Settings.listen_host := listen_host c |> <| Settings.listen_port := listen_port c |>
    <| Settings.listen_set := true |>).
  step L EGRESS_CLI_KEY_LISTEN (listen_host c ++ c_colon :: decimal (listen_port c)) s1;
    [exact T1|cbn [apply_value]; rewrite E1; reflexivity|].
  set (s2 := s1 <| Settings.admin_host := admin_host c |> <| Settings.admin_port := admin_port c |>
    <| Settings.admin_set := true |>).
  step L EGRESS_CLI_KEY_ADMIN_LISTEN (admin_host c ++ c_colon :: decimal (admin_port c)) s2;
    [exact T2|cbn [apply_value]; rewrite E2; reflexivity|].
  set (s3 := s2 <| Settings.token_file := Some token |>). step L EGRESS_CLI_KEY_TOKEN_FILE token s3; [exact Htok|reflexivity|].
  set (s4 := s3 <| Settings.max_connections := max_connections c |>).
  step L EGRESS_CLI_KEY_MAX_CONNECTIONS (decimal (max_connections c)) s4;
    [apply T; unfold is_u64; lia|unfold apply_value, apply_number; rewrite N by (unfold is_u64; lia); reflexivity|].
  set (s5 := s4 <| Settings.quota_connections := quota_connections c |>).
  step L EGRESS_CLI_KEY_QUOTA_CONNECTIONS (decimal (quota_connections c)) s5;
    [apply T; unfold is_u64; lia|unfold apply_value, apply_number; rewrite N by (unfold is_u64; lia); reflexivity|].
  set (s6 := s5 <| Settings.quota_bytes := quota_bytes c |>).
  step L EGRESS_CLI_KEY_QUOTA_BYTES (decimal (quota_bytes c)) s6;
    [apply T; unfold is_u64; lia|unfold apply_value, apply_number; rewrite N by (unfold is_u64, UINT64_MAX; lia); reflexivity|].
  set (s7 := s6 <| Settings.quota_total_bytes := quota_total_bytes c |>).
  step L EGRESS_CLI_KEY_QUOTA_TOTAL_BYTES (decimal (quota_total_bytes c)) s7;
    [apply T; unfold is_u64; lia|unfold apply_value, apply_number; rewrite N by (unfold is_u64, UINT64_MAX; lia); reflexivity|].
  assert (E : head_settings c token = s7) by (lazy; reflexivity). rewrite E. exact L.
Qed.

(** What is known of a destination. *)
Definition destination_fits (d : sdk_destination) : Prop :=
  d_host d <> [] /\ Forall (fun x => 0 < x) (d_host d) /\ Forall (fun x => common_space x = false) (d_host d) /\
  c_colon ∉ d_host d /\ at_ (d_host d) 0 <> c_lbracket /\ len (d_host d) < 254 /\ 1 <= d_port d <= 65535 /\
  d_allow_private d && d_require_tls_sni d = false.

Lemma fits_destinations c : checked c -> within c -> Forall destination_fits (destinations c).
Proof using Type.
  intros [_ _ _ _ _ _ _ Hc] [_ _ _ _ _ Hw]. rewrite Forall_forall in *. intros d Hd.
  destruct (Hc d Hd) as (H1 & H2 & H3 & H4), (Hw d Hd) as (H5 & H6 & H7 & H8).
  split_and!; try done; [|lia..]. eapply Forall_impl; [exact H5|]. simpl. lia.
Qed.

Lemma apply_directive s d :
  destination_fits d -> Settings.destination_count s < EGRESS_CLI_MAX_DESTINATIONS ->
  apply_value true s (directive_entry d).1 (directive_entry d).2 =
  Stored (s <| Settings.destinations := Settings.destinations s ++
    [Destination.Make (d_host d) (d_port d) (d_allow_private d) (d_require_tls_sni d)] |>).
Proof using Type.
  intros (Hne & _ & _ & Hc & Hb & Hl & Hp & Hx) Hn.
  assert (E : parse_endpoint (d_host d ++ c_colon :: decimal (d_port d)) 254 = Some (d_host d, d_port d)).
  { apply plain_endpoint; [|done|done|lia]. destruct (d_host d) as [|x h]; [done|]. rewrite len_cons in *. pose proof (len_nonneg h). lia. }
  unfold directive_entry. destruct d as [h p a t]. cbn [d_host d_port d_allow_private d_require_tls_sni fst snd] in *.
  destruct t, a; try done; cbn [apply_value]; unfold apply_destination;
    (destruct (Z.leb_spec EGRESS_CLI_MAX_DESTINATIONS (Settings.destination_count s)); [lia|]); rewrite E;
    (destruct (Z.eqb_spec p 0); [lia|]); reflexivity.
Qed.

Lemma settings_destinations c token ds :
  sdk_settings (with_destinations c ds) token =
  head_settings c token <| Settings.destinations := sdk_destinations (with_destinations c ds) |>.
Proof using Type. lazy. reflexivity. Qed.

Lemma destinations_twice (s : settings) a b :
  s <| Settings.destinations := a |> <| Settings.destinations := Settings.destinations (s <| Settings.destinations := a |>) ++ b |> =
  s <| Settings.destinations := a ++ b |>.
Proof using Type. reflexivity. Qed.

Lemma sdk_loads_destinations tls c token ds :
  checked c -> within c -> text_ok token -> Forall destination_fits ds -> len ds <= EGRESS_CLI_MAX_DESTINATIONS ->
  loads tls (head_entries c token ++ map directive_entry ds) (sdk_settings (with_destinations c ds) token).
Proof using Hlaws.
  intros Hc Hw Ht. induction ds as [|d ds IH] using rev_ind; intros Hd Hn; [rewrite app_nil_r; by apply loads_head|].
  apply Forall_app in Hd as [Hds Hd]. apply Forall_cons in Hd as [Hd _]. rewrite len_app, len_cons, len_nil in Hn.
  rewrite map_app, app_assoc. cbn [map]. rewrite (surjective_pairing (directive_entry d)).
  eapply loads_apply; [apply IH; [done|lia]| | | |].
  - pose proof Hd as (H1 & H2 & H3 & _ & _ & H4 & H5 & _). apply whole_endpoint; (done || lia).
  - left. unfold directive_entry. destruct (d_require_tls_sni d), (d_allow_private d); reflexivity.
  - unfold directive_entry. destruct (d_require_tls_sni d), (d_allow_private d); reflexivity.
  - rewrite !settings_destinations. generalize (head_settings c token). intros s. rewrite apply_directive; [|done|].
    + rewrite destinations_twice. unfold sdk_destinations.
      change (destinations (with_destinations c ?l)) with l. by rewrite map_app.
    + change (len (sdk_destinations (with_destinations c ds)) < EGRESS_CLI_MAX_DESTINATIONS).
      unfold sdk_destinations, len in *. rewrite length_map. change (destinations (with_destinations c ds)) with ds. lia.
Qed.

Abbreviation ascii := (Forall (fun x => 0 <= x < 128)).

Lemma ascii_decimal n : 0 <= n -> ascii (decimal n).
Proof using Type.
  intros Hn. eapply Forall_impl; [by apply decimal_digits|]. intros x. unfold is_digit, in_range. lia.
Qed.

Lemma ascii_endpoint h p : ascii h -> 0 <= p -> ascii (h ++ c_colon :: decimal p).
Proof using Type. intros Hh Hp. apply Forall_app. split; [done|]. apply Forall_cons. split; [done|by apply ascii_decimal]. Qed.

Lemma ascii_lines es : Forall (fun e : entry => ascii e.2) es -> ascii (concat (map sdk_line es)).
Proof using Type.
  induction 1 as [|[k v] es Hv _ IH]; [constructor|]. cbn [map concat]. apply Forall_app. split; [|done].
  unfold sdk_line. cbn [fst snd] in *. rewrite !Forall_app. split_and!; [|by repeat constructor|done|by repeat constructor].
  assert (E : forallb (fun x => (0 <=? x) && (x <? 128)) (name (catalog k)) = true) by (by destruct k).
  apply forallb_Forall in E. eapply Forall_impl; [exact E|]. simpl. lia.
Qed.

(** What the entries of a configuration are made of. *)
Lemma sdk_entries_fit c token :
  checked c -> within c -> whole token -> ascii token ->
  Forall (fun e => whole e.2 /\ ascii e.2) (sdk_entries c token).
Proof using Type.
  intros Hc Hw Htok Hat. pose proof (fits_destinations c Hc Hw) as Hd. destruct Hw as [W1 W2 W3 W4 _ Wh]. destruct Hc as [_ C1 C2 C3 C4 C5 C6 _].
  assert (N : forall n, is_u64 n -> whole (decimal n) /\ ascii (decimal n)).
  { intros n Hn. split; [by apply whole_number|]. apply ascii_decimal. unfold is_u64 in Hn. lia. }
  assert (L : forall p, 0 <= p <= 65535 -> whole (str "127.0.0.1" ++ c_colon :: decimal p) /\ ascii (str "127.0.0.1" ++ c_colon :: decimal p)).
  { intros p Hp. split; [apply whole_endpoint; [done|done|done|by repeat constructor|by repeat constructor]|].
    apply ascii_endpoint; [by repeat constructor|lia]. }
  unfold sdk_entries, head_entries. rewrite W1, W2. apply Forall_app. split.
  - repeat (apply Forall_cons; split; cbn [snd]); [apply (N 1); done|by apply L|by apply L|done|apply N; unfold is_u64; lia..|constructor].
  - apply Forall_map. rewrite Forall_forall in *. intros d Hin. destruct (Hd d Hin) as (H1 & H2 & H3 & H4 & H5 & H6 & H7 & H8).
    destruct (Wh d Hin) as (H9 & _). unfold directive_entry. cbn [snd]. split; [apply whole_endpoint; (done || lia)|].
    apply ascii_endpoint; [|lia]. eapply Forall_impl; [exact H9|]. simpl. lia.
Qed.

Lemma sdk_constraints c token :
  checked c -> constraints_ok (sdk_entries c token).*1 (sdk_settings c token).
Proof using Type.
  intros Hc. set (s := sdk_settings c token).
  assert (E1 : Settings.listen_unix s = None) by reflexivity. assert (E2 : Settings.channel_principal s = None) by reflexivity.
  assert (E3 : Settings.unix_peer_set s = false) by reflexivity. assert (E4 : Settings.token_file s = Some token) by reflexivity.
  assert (E5 : Settings.unauthenticated_loopback s = false) by reflexivity.
  assert (E6 : Settings.audit_log s = None) by reflexivity. assert (E7 : Settings.audit_key_file s = None) by reflexivity.
  assert (E8 : Settings.audit_key_id s = None) by reflexivity. assert (E9 : Settings.tls_cert s = None) by reflexivity.
  assert (E10 : Settings.tls_key s = None) by reflexivity. assert (E11 : Settings.require_client_cert s = false) by reflexivity.
  assert (E12 : Settings.channel_listen_unix s = None) by reflexivity.
  assert (E13 : Settings.destinations s = sdk_destinations c) by reflexivity. clearbody s.
  assert (Hk : forall k, k ∈ (sdk_entries c token).*1 -> channel_key k = false).
  { intros k Hk. unfold sdk_entries in Hk. rewrite fmap_app in Hk. apply elem_of_app in Hk as [Hk|Hk].
    - cbn [head_entries fmap list_fmap fst] in Hk. rewrite !elem_of_cons, elem_of_nil in Hk.
      destruct_or! Hk; subst; done.
    - change (map directive_entry (destinations c)) with (directive_entry <$> destinations c) in Hk.
      apply list_elem_of_fmap in Hk as (e & -> & He). apply list_elem_of_fmap in He as (d & -> & _).
      unfold directive_entry. by destruct (d_require_tls_sni d), (d_allow_private d). }
  split.
  - intros (k & Hin & Hch). by rewrite (Hk k Hin) in Hch.
  - intros _. repeat constructor; intros Hin; by apply Hk in Hin.
  - rewrite E12. by intros [? ?].
  - rewrite E2. by intros [? ?].
  - split; rewrite ?E1, ?E2, ?E3, ?E4, ?E5, ?E6, ?E7, ?E8, ?E9, ?E10, ?E11, ?E13; try done; try (by intros [? ?]).
    destruct Hc as [Hc _ _ _ _ _ _ _]. unfold sdk_destinations. by destruct (destinations c).
Qed.

Lemma sdk_file_loads tls path c token text :
  py_validate c = true /\ py_render c token = Some text \/ js_config c = true /\ js_render c token = text ->
  within c -> whole token -> ascii token ->
  open_trusted path = inr (TrustedFile true (utf8 text) false true) ->
  egress_cli_settings_load tls true (fun _ => true) path = inr (sdk_settings c token).
Proof using Hlaws.
  intros Hsdk Hw Htok Hat Ho. assert (Hc : checked c) by (apply sdk_checked; naive_solver).
  assert (Et : text = sdk_text c token).
  { destruct Hsdk as [[_ E]|[_ <-]]; [by apply py_render_text|apply js_render_text]. }
  subst text. rewrite sdk_text_entries in Ho. pose proof (sdk_entries_fit c token Hc Hw Htok Hat) as Hfit.
  rewrite utf8_ascii in Ho by (apply ascii_lines; eapply Forall_impl; [exact Hfit|]; by intros e []).
  destruct (sdk_reads (sdk_entries c token)) as [Hr Hf]; [eapply Forall_impl; [exact Hfit|]; by intros e [? _]|].
  apply accepts_load with (es := sdk_entries c token). eexists. split_and!; [exact Ho|done..| | |].
  - apply (sdk_loads_destinations tls c token (destinations c)); [done|done|apply Htok|by apply fits_destinations|apply Hw].
  - apply list_elem_of_here.
  - by apply sdk_constraints.
Qed.

Lemma sdk_control_equal c ds token :
  egress_cli_settings_control_equal (sdk_settings c token) (sdk_settings (with_destinations c ds) token) = true.
Proof using Type. apply control_equal_exact. lazy. reflexivity. Qed.

(** C29: a configuration either SDK accepts, within the ranges of the daemon, is
    rendered to a file from which the daemon loads exactly the settings the
    configuration stands for: its destinations in order, loopback listeners, its
    limits and quotas, and the token for authentication.  A later replacement of
    the destinations changes nothing else, so that a reload of it is not refused
    for the control plane. *)
Theorem sdk_config_loads tls path c token text :
  py_validate c = true /\ py_render c token = Some text \/ js_config c = true /\ js_render c token = text ->
  within c -> whole token -> ascii token ->
  open_trusted path = inr (TrustedFile true (utf8 text) false true) ->
  egress_cli_settings_load tls true (fun _ => true) path = inr (sdk_settings c token) /\
  forall ds, egress_cli_settings_control_equal (sdk_settings c token) (sdk_settings (with_destinations c ds) token) = true.
Proof using Hlaws.
  intros Hsdk Hw Htok Hat Ho. split; [by eapply sdk_file_loads|intros ds; apply sdk_control_equal].
Qed.

Lemma ipv6_endpoint p : 0 <= p <= 65535 -> parse_endpoint (str "::1" ++ c_colon :: decimal p) 64 = None.
Proof using Type.
  intros Hp. pose proof (decimal_digits p ltac:(lia)) as Hd. unfold parse_endpoint, split_endpoint.
  change (at_ (str "::1" ++ c_colon :: decimal p) 0 =? c_lbracket) with false. cbv iota.
  rewrite last_index_of_app by (by apply text_digits_free). done.
Qed.

(** A file whose second line is bad is refused for it. *)
Lemma second_line_refused tls copy path e1 e2 rest s1 seen1 violation :
  open_trusted path = inr (TrustedFile true (sdk_line e1 ++ sdk_line e2 ++ rest) false true) ->
  whole e1.2 -> whole e2.2 ->
  load_entry tls (copy 1) default_settings 0 1 (name (catalog e1.1)) e1.2 = Next s1 seen1 ->
  load_entry tls (copy 2) s1 seen1 2 (name (catalog e2.1)) e2.2 = Stop (LineError 2 violation None) ->
  egress_cli_settings_load tls true copy path = inl (LineError 2 violation None).
Proof using Hlaws.
  intros Ho H1 H2 E1 E2. unfold egress_cli_settings_load. rewrite apply_defaults_spec, Ho. cbn [stream_opens negb read_fails content].
  destruct (sdk_line_reads e1 (sdk_line e2 ++ rest) H1) as (l1 & -> & R1 & L1 & Z1).
  destruct (sdk_line_reads e2 rest H2) as (l2 & -> & R2 & L2 & Z2). cbn [load_lines].
  change (0 + 1) with 1. rewrite (load_line_entry tls _ _ _ _ l1 e1), E1 by (done || apply H1).
  change (1 + 1) with 2. rewrite (load_line_entry tls _ _ _ _ l2 e2), E2 by (done || apply H2).
  done.
Qed.

(** C40: a configuration that listens on the IPv6 loopback passes the checks of
    both SDKs, but the endpoint is rendered without the brackets the daemon
    requires: every file of such a configuration is refused at its second line. *)
Theorem sdk_ipv6_refused tls copy path c token text :
  py_validate c = true /\ py_render c token = Some text \/ js_config c = true /\ js_render c token = text ->
  listen_host c = str "::1" ->
  open_trusted path = inr (TrustedFile true (utf8 text) false true) ->
  egress_cli_settings_load tls true copy path = inl (LineError 2 (str "invalid listen endpoint") None).
Proof using Hlaws.
  intros Hsdk Hh Ho. assert (Hc : checked c) by (apply sdk_checked; naive_solver).
  assert (Et : text = sdk_text c token).
  { destruct Hsdk as [[_ E]|[_ <-]]; [by apply py_render_text|apply js_render_text]. }
  subst text. rewrite sdk_text_entries in Ho. unfold sdk_entries, head_entries in Ho. cbn [app map concat] in Ho.
  destruct Hc as [_ Hp _ _ _ _ _ _]. rewrite Hh, (app_assoc (sdk_line _)), utf8_app in Ho.
  rewrite utf8_ascii, <-app_assoc in Ho.
  - eapply second_line_refused; [exact Ho|apply (whole_number 1); done| | |]; cbn [fst snd].
    + apply whole_endpoint; [done|done|done|by repeat constructor|by repeat constructor].
    + reflexivity.
    + unfold load_entry. change (egress_cli_config_find _) with (Some (catalog EGRESS_CLI_KEY_LISTEN)). cbv zeta. cbv iota beta.
      change (apply_value _ _ (key _) ?v) with (apply_value (copy 2) default_settings EGRESS_CLI_KEY_LISTEN v).
      cbn [apply_value]. rewrite ipv6_endpoint by done. reflexivity.
  - match goal with |- ascii (sdk_line ?a ++ sdk_line ?b) => pose proof (ascii_lines [a; b]) as Hl end.
    cbn [map concat] in Hl. rewrite app_nil_r in Hl. apply Hl. constructor; [by repeat constructor|].
    constructor; [|constructor]. cbn [snd]. apply ascii_endpoint; [by repeat constructor|lia].
Qed.

End Load.

(** * The trust in a binary *)

(** What a status says of who may replace a path: root or the caller owns it,
    and no one else may write it, but for the entries of a sticky directory. *)
Definition held (st : path_status) (euid : Z) : Prop :=
  (st_uid st = 0 \/ st_uid st = euid) /\
  ((st_directory st = true /\ Z.land (st_mode st) S_ISVTX <> 0) \/
   (Z.land (st_mode st) S_IWOTH = 0 /\ (Z.land (st_mode st) S_IWGRP = 0 \/ st_uid st = euid))).

Lemma trust_refusal_None st euid : trust_refusal st euid = None <-> held st euid.
Proof.
  unfold trust_refusal, held. destruct (Z.eqb_spec (st_uid st) 0), (Z.eqb_spec (st_uid st) euid),
    (Z.eqb_spec (Z.land (st_mode st) S_ISVTX) 0), (Z.eqb_spec (Z.land (st_mode st) S_IWOTH) 0),
    (Z.eqb_spec (Z.land (st_mode st) S_IWGRP) 0), (st_directory st); simpl; intuition congruence.
Qed.

Lemma check_paths_Trusted stat euid ps :
  check_paths stat euid ps = Trusted <-> forall p, p ∈ ps -> exists st, stat p = Some st /\ held st euid.
Proof.
  induction ps as [|p ps IH]; simpl; [split; [by intros _ p ?%not_elem_of_nil|done]|].
  transitivity ((exists st, stat p = Some st /\ held st euid) /\ check_paths stat euid ps = Trusted).
  - destruct (stat p) as [st|]; [|split; [done|by intros [(? & ? & _) _]]].
    destruct (trust_refusal st euid) eqn:E.
    + split; [done|]. intros [(? & [= <-] & Hh) _]. apply trust_refusal_None in Hh. congruence.
    + apply trust_refusal_None in E. split; [eauto|by intros [_ ?]].
  - rewrite IH. split.
    + intros [Hp Hs] q [->|Hq]%elem_of_cons; auto.
    + intros Hq. split; [apply Hq; left|intros q Hin; apply Hq; by right].
Qed.

Lemma add_once_elem ps p q : q ∈ add_once ps p <-> q ∈ ps \/ q = p.
Proof. unfold add_once. case_bool_decide; [naive_solver|]. rewrite elem_of_app, list_elem_of_singleton. done. Qed.

Lemma add_once_seen ps p : p ∈ ps -> add_once ps p = ps.
Proof. unfold add_once. intros. by rewrite bool_decide_true. Qed.

Lemma add_once_new ps p : p ∉ ps -> add_once ps p = ps ++ [p].
Proof. unfold add_once. intros. by rewrite bool_decide_false. Qed.

Lemma fold_add_once l ps q : q ∈ fold_left add_once l ps <-> q ∈ ps \/ q ∈ l.
Proof.
  revert ps. induction l as [|p l IH]; intros ps; simpl; [rewrite elem_of_nil; tauto|].
  rewrite IH, add_once_elem, elem_of_cons. tauto.
Qed.

(** The walk of Node.js may stop at a path it has seen, for what is above that
    path has been seen with it. *)
Definition upward (ps : list path) : Prop := forall n p, n :: p ∈ ps -> p ∈ ps.

(** Both languages check the same paths in the same order. *)
Lemma fold_add_once_seen p ps : (forall q, q ∈ lineage p -> q ∈ ps) -> fold_left add_once (lineage p) ps = ps.
Proof.
  induction p as [|n p IH]; intros Hs; cbn [lineage fold_left];
    (rewrite add_once_seen by (apply Hs; left)); [done|]. apply IH. intros q Hq. apply Hs. by right.
Qed.

Lemma upward_lineage ps p q : upward ps -> p ∈ ps -> q ∈ lineage p -> q ∈ ps.
Proof.
  intros Hu. induction p as [|n p IH]; intros Hp Hq; cbn [lineage] in Hq; apply elem_of_cons in Hq as [->|Hq]; try done.
  - by apply not_elem_of_nil in Hq.
  - apply IH; [by eapply Hu|done].
Qed.

(** [ps] is upward but for the paths still to be walked. *)
Lemma js_walk_py p : forall ps,
  (forall n q, n :: q ∈ ps -> q ∈ ps \/ q = p) ->
  js_walk p ps = fold_left add_once (lineage p) ps.
Proof.
  induction p as [|n p IH]; intros ps Hu; cbn [js_walk lineage fold_left];
    case_bool_decide as Hin; rewrite ?add_once_seen, ?add_once_new by done; try done.
  - symmetry. apply fold_add_once_seen. intros q Hq. apply (upward_lineage ps (n :: p)); [|done|by right].
    intros m r Hr. by destruct (Hu m r Hr) as [? | ->].
  - apply IH. intros m q [Hq|Hq]%elem_of_app.
    + left. apply elem_of_app. destruct (Hu m q Hq) as [? | ->]; [by left|right; by left].
    + apply list_elem_of_singleton in Hq. injection Hq as -> ->. by right.
Qed.

Lemma fold_lineage_upward p ps :
  upward ps -> upward (fold_left add_once (lineage p) ps).
Proof.
  intros Hu n q. rewrite !fold_add_once. intros [Hq|Hq]; [left; by eapply Hu|right].
  revert n q Hq. induction p as [|m p IH]; intros n q Hq; cbn [lineage] in *; apply elem_of_cons in Hq as [E|Hq]; try done.
  - by apply not_elem_of_nil in Hq.
  - injection E as -> ->. right. destruct p; left.
  - right. by eapply IH.
Qed.

Lemma js_checked_py candidate resolved : js_checked candidate resolved = py_checked candidate resolved.
Proof.
  unfold js_checked, py_checked. rewrite fold_left_app.
  assert (E : js_walk candidate [] = fold_left add_once (lineage candidate) []).
  { apply js_walk_py. by intros n q ?%not_elem_of_nil. }
  rewrite E. apply js_walk_py. intros n q Hq. left. revert n q Hq.
  apply (fold_lineage_upward candidate []). by intros n q ?%not_elem_of_nil.
Qed.

(** A binary in nobody's hands but root's and the caller's: it, what it resolves
    to, and every directory above either. *)
Definition in_hand (stat : path -> option path_status) (resolve : path -> option path) (euid : Z) (binary : path) : Prop :=
  exists resolved, resolve binary = Some resolved /\
    forall p, p ∈ lineage binary \/ p ∈ lineage resolved -> exists st, stat p = Some st /\ held st euid.

Lemma py_trust stat resolve euid binary :
  py_binary_trust_refusal stat resolve euid binary = Trusted <-> in_hand stat resolve euid binary.
Proof.
  unfold py_binary_trust_refusal, in_hand. destruct (resolve binary) as [resolved|]; [|split; [done|by intros (? & ? & _)]].
  rewrite check_paths_Trusted. unfold py_checked. split.
  - intros Hp. exists resolved. split; [done|]. intros p Hin. apply Hp. rewrite fold_add_once, elem_of_app. by right.
  - intros (r & [= <-] & Hp) p. rewrite fold_add_once, elem_of_app, elem_of_nil. intros [[]|Hin]. by apply Hp.
Qed.

Lemma discover_found executable refuses resolve cs : forall refusals found,
  discover executable refuses resolve cs refusals = Some (inr found) ->
  exists c, c ∈ cs /\ executable c = true /\ refuses c = Trusted /\ resolve c = Some found.
Proof.
  induction cs as [|c cs IH]; intros refusals found; cbn [discover]; [done|].
  destruct (executable c) eqn:E; cbn [negb];
    [|intros Hd; destruct (IH _ _ Hd) as (c' & Hc & H'); exists c'; split; [by right|done]].
  destruct (refuses c) as [|q why|] eqn:Er; [| |done].
  - destruct (resolve c) as [r|] eqn:Es; [|done]. intros [= <-]. exists c. split; [by left|done].
  - intros Hd. destruct (IH _ _ Hd) as (c' & Hc & H'). exists c'. split; [by right|done].
Qed.

(** The two SDKs agree on every binary and trust it exactly when it, what
    it resolves to and every directory above either are owned by root or the
    caller and writable by no one else, but for sticky directories; the binary
    that is started is one of the candidates that is executable and so trusted. *)
Theorem binary_trust_exact stat resolve euid :
  (forall binary, js_binary_trust_refusal stat resolve euid binary = py_binary_trust_refusal stat resolve euid binary) /\
  (forall binary, py_binary_trust_refusal stat resolve euid binary = Trusted <-> in_hand stat resolve euid binary) /\
  (forall executable cs found,
     discover executable (py_binary_trust_refusal stat resolve euid) resolve cs [] = Some (inr found) ->
     exists c, c ∈ cs /\ executable c = true /\ resolve c = Some found /\ in_hand stat resolve euid c).
Proof.
  split_and!.
  - intros binary. unfold js_binary_trust_refusal, py_binary_trust_refusal.
    destruct (resolve binary); [by rewrite js_checked_py|done].
  - apply py_trust.
  - intros executable cs found Hd. apply discover_found in Hd as (c & Hc & He & Ht & Hr). exists c.
    split_and!; [done..|by apply py_trust].
Qed.

(** * The lifecycle stream *)

Section Lifecycle.
Context {event : Type} (accept : bytes -> option event).

(** The lines of a text, with as much fuel as it needs. *)
Definition consume_all (text : bytes) : consumed := consume_lines accept (S (length text)) text.

Lemma consume_lines_fuel f : forall g b,
  (length b < f)%nat -> (length b < g)%nat -> consume_lines accept f b = consume_lines accept g b.
Proof using Type.
  induction f as [|f IH]; intros [|g] b Hf Hg; try lia. cbn [consume_lines]. destruct (index_of c_lf b) as [i|] eqn:Ei; [|done].
  destruct (_ <? _); [done|]. destruct (accept (take i b)); [|done].
  apply index_of_Some in Ei as (_ & _ & Hi).
  assert (Hl : (length (drop (S i) b) < length b)%nat) by (rewrite length_drop; lia).
  by rewrite (IH g) by lia.
Qed.

Lemma consume_all_step b :
  consume_all b =
  match index_of c_lf b with
  | None => Consumed [] b false
  | Some newline =>
      if LINE_MAX <? Z.of_nat newline then Consumed [] b true
      else match accept (take newline b) with
           | None => Consumed [] (drop (S newline) b) true
           | Some e => let c := consume_all (drop (S newline) b) in Consumed (e :: events c) (rest c) (fatal c)
           end
  end.
Proof using Type.
  unfold consume_all at 1. cbn [consume_lines]. destruct (index_of c_lf b) as [i|] eqn:Ei; [|done].
  destruct (_ <? _); [done|]. destruct (accept (take i b)); [|done].
  apply index_of_Some in Ei as (_ & _ & Hi).
  assert (Hl : (length (drop (S i) b) < length b)%nat) by (rewrite length_drop; lia).
  unfold consume_all. by rewrite (consume_lines_fuel (length b) (S (length (drop (S i) b)))) by lia.
Qed.

(** A line is consumed alone or with what follows it. *)
Lemma consume_all_line line t :
  c_lf ∉ line ->
  consume_all (line ++ c_lf :: t) =
  if LINE_MAX <? len line then Consumed [] (line ++ c_lf :: t) true
  else match accept line with
       | None => Consumed [] t true
       | Some e => let c := consume_all t in Consumed (e :: events c) (rest c) (fatal c)
       end.
Proof using Type.
  intros Hn. rewrite consume_all_step, index_of_app by done. change (Z.of_nat (length line)) with (len line).
  rewrite take_app_length. replace (drop (S (length line)) (line ++ c_lf :: t)) with t; [done|].
  rewrite drop_app_ge by lia. replace (S (length line) - length line)%nat with 1%nat by lia. by rewrite skipn_cons, drop_0.
Qed.

Lemma consume_all_none b : c_lf ∉ b -> consume_all b = Consumed [] b false.
Proof using Type. intros Hn. rewrite consume_all_step. apply index_of_None in Hn. by rewrite Hn. Qed.

(** A text of lines and an unfinished one. *)
Lemma text_lines (b : bytes) :
  exists lines last, b = concat (map (fun l => l ++ [c_lf]) lines) ++ last /\ Forall (fun l => c_lf ∉ l) (last :: lines).
Proof using Type.
  induction b as [|x b (lines & last & -> & Hf)]; [exists [], []; split; [done|repeat constructor; apply not_elem_of_nil]|].
  apply Forall_cons in Hf as [Hl Hf]. destruct (Z.eq_dec x c_lf) as [->|Hx].
  - exists ([] :: lines), last. split; [done|]. repeat constructor; [done|apply not_elem_of_nil|done].
  - destruct lines as [|l lines].
    + exists [], (x :: last). split; [done|]. repeat constructor. by apply not_elem_of_cons.
    + apply Forall_cons in Hf as [Hl' Hf]. exists ((x :: l) :: lines), last.
      split; [done|]. repeat constructor; [done| |done]. by apply not_elem_of_cons.
Qed.

(** What is consumed of a text with more to come. *)
Lemma consume_all_app b t :
  let c := consume_all b in
  let w := consume_all (b ++ t) in
  if fatal c then events w = events c /\ fatal w = true
  else c_lf ∉ rest c /\
    events w = events c ++ events (consume_all (rest c ++ t)) /\ rest w = rest (consume_all (rest c ++ t)) /\
    fatal w = fatal (consume_all (rest c ++ t)).
Proof using Type.
  cbv zeta. destruct (text_lines b) as (lines & last & -> & Hf). apply Forall_cons in Hf as [Hl Hf].
  induction Hf as [|l lines Hn Hf IH]; cbn [map concat app].
  - rewrite (consume_all_none last) by done. done.
  - rewrite <-!app_assoc. cbn [app]. rewrite !consume_all_line by done.
    destruct (LINE_MAX <? len l); [done|]. destruct (accept l); [|done]. cbn [events rest fatal]. cbv zeta.
    rewrite <-!app_assoc in IH. destruct (fatal _); [destruct IH as [-> ->]; done|].
    destruct IH as (H1 & -> & -> & ->). done.
Qed.

(** A line that is already too long stays so. *)
Lemma consume_all_long b t :
  c_lf ∉ b -> LINE_MAX < len b ->
  events (consume_all (b ++ t)) = [] /\
  (fatal (consume_all (b ++ t)) = true \/ LINE_MAX < len (rest (consume_all (b ++ t)))).
Proof using Type.
  intros Hn Hl. destruct (index_of c_lf t) as [i|] eqn:Ei.
  - apply index_of_Some in Ei as (Et & Hi & _). rewrite Et, app_assoc, consume_all_line by (by apply not_elem_of_app).
    rewrite len_app. pose proof (len_nonneg (take i t)). destruct (Z.ltb_spec LINE_MAX (len b + len (take i t))); [|lia].
    split; [done|by left].
  - apply index_of_None in Ei. rewrite consume_all_none by (by apply not_elem_of_app). split; [done|right].
    cbn [rest]. rewrite len_app. pose proof (len_nonneg t). lia.
Qed.

Lemma consume_chunks_all chunks : forall b,
  c_lf ∉ b ->
  let c := consume_chunks accept b chunks in
  let w := consume_all (b ++ concat chunks) in
  events c = events w /\ (fatal w = true -> fatal c = true) /\
  (fatal c = true -> fatal w = true \/ LINE_MAX < len (rest w)) /\ (fatal c = false -> rest c = rest w).
Proof using Type.
  induction chunks as [|chunk chunks IH]; intros b Hb; cbv zeta; cbn [consume_chunks concat].
  { rewrite app_nil_r, consume_all_none by done. done. }
  unfold consumeLifecycle. fold (consume_all (b ++ chunk)). rewrite (app_assoc b).
  destruct ((LINE_MAX <? len (b ++ chunk)) && negb (has_char c_lf (b ++ chunk))) eqn:El.
  - apply andb_true_iff in El as [El En]. apply negb_true_iff, has_char_false in En. apply Z.ltb_lt in El.
    destruct (consume_all_long (b ++ chunk) (concat chunks) En El) as [-> Hf]. done.
  - pose proof (consume_all_app (b ++ chunk) (concat chunks)) as Ha. cbv zeta in Ha.
    destruct (fatal (consume_all (b ++ chunk))) eqn:Ef; [destruct Ha as [-> ->]; rewrite Ef; split_and!; [done|done|by left|done]|].
    destruct Ha as (Hr & -> & -> & ->). cbn [events rest fatal]. destruct (IH _ Hr) as (-> & H1 & H2 & H3). done.
Qed.

(** How the lifecycle stream is cut into chunks does not matter: the events
    are those of the lines of the whole stream, in order, up to the first one
    that is too long or not accepted; the reader fails if such a line is there,
    fails otherwise only on an unfinished line that is too long, and keeps what
    follows the last line. *)
Theorem lifecycle_chunks chunks :
  let c := consume_chunks accept [] chunks in
  let w := consume_all (concat chunks) in
  events c = events w /\ (fatal w = true -> fatal c = true) /\
  (fatal c = true -> fatal w = true \/ LINE_MAX < len (rest w)) /\ (fatal c = false -> rest c = rest w).
Proof using Type. apply consume_chunks_all, not_elem_of_nil. Qed.

End Lifecycle.

(** * The retained events *)

Section Retention.
Context {event : Type}.

(** What an owner and the process do to the queue. *)
Inductive queue_step := Arrives (e : event) | Taken.

(** The events taken and the queue, after the steps. *)
Fixpoint queue_run (maximum : Z) (r : retained (event := event)) (steps : list queue_step) : list event * retained :=
  match steps with
  | [] => ([], r)
  | Arrives e :: steps => queue_run maximum (retain maximum r e) steps
  | Taken :: steps =>
      match next_event r with
      | None => queue_run maximum r steps
      | Some (e, r) => let '(taken, r') := queue_run maximum r steps in (e :: taken, r')
      end
  end.

(** The events that arrive. *)
Definition arrivals (steps : list queue_step) : list event :=
  flat_map (fun s => match s with Arrives e => [e] | Taken => [] end) steps.

Lemma queue_run_facts maximum steps : forall r,
  1 <= maximum -> len (pending r) <= maximum ->
  let '(taken, r') := queue_run maximum r steps in
  len (pending r') <= maximum /\ dropped r <= dropped r' /\
  len taken + len (pending r') + (dropped r' - dropped r) = len (pending r) + len (arrivals steps) /\
  pending r' `suffix_of` pending r ++ arrivals steps /\
  taken ++ pending r' `sublist_of` pending r ++ arrivals steps.
Proof using Type.
  induction steps as [|[e|] steps IH]; intros r Hm Hl; cbn [queue_run arrivals flat_map app].
  - rewrite app_nil_r, len_nil. split_and!; [done|lia|lia|done|done].
  - fold (arrivals steps). unfold retain. destruct r as [ps n]. cbn [pending dropped] in *.
    destruct (Z.eqb_spec (len ps) maximum) as [E|E].
    + destruct ps as [|p ps]; [rewrite len_nil in E; lia|]. cbn [app tl]. rewrite len_cons in *.
      specialize (IH (Retained (ps ++ [e]) (n + 1)) Hm). cbn [pending dropped] in IH. rewrite len_app, len_cons, len_nil in IH.
      specialize (IH ltac:(lia)). destruct (queue_run _ _ _) as [taken r']. rewrite <-app_assoc in IH. cbn [app] in *.
      destruct IH as (H1 & H2 & H3 & H4 & H5). rewrite len_cons. split_and!; [done|lia|lia|by apply suffix_cons_r|by apply sublist_cons].
    + specialize (IH (Retained (ps ++ [e]) n) Hm). cbn [pending dropped] in IH. rewrite len_app, len_cons, len_nil in IH.
      specialize (IH ltac:(lia)). destruct (queue_run _ _ _) as [taken r']. rewrite <-app_assoc in IH. cbn [app] in *.
      destruct IH as (H1 & H2 & H3 & H4 & H5). rewrite len_cons. split_and!; [done|done|lia|done|done].
  - fold (arrivals steps). destruct r as [ps n]. unfold next_event. cbn [pending dropped] in *. destruct ps as [|p ps].
    + by apply (IH (Retained [] n)).
    + rewrite len_cons in *. specialize (IH (Retained ps n) Hm ltac:(cbn [pending]; lia)).
      destruct (queue_run _ _ _) as [taken r']. cbn [pending dropped app] in *. destruct IH as (H1 & H2 & H3 & H4 & H5).
      rewrite len_cons. split_and!; [done|done|lia|by apply suffix_cons_r|by apply sublist_skip].
Qed.

(** Whatever arrives and is taken, the queue holds at most its maximum and
    they are the last events that arrived; the taken and the held events are in
    order of arrival, and every event is taken, held or counted as dropped. *)
Theorem retained_exact maximum steps :
  1 <= maximum ->
  let '(taken, r) := queue_run maximum (Retained [] 0) steps in
  len (pending r) <= maximum /\ 0 <= dropped r /\
  len taken + len (pending r) + dropped r = len (arrivals steps) /\
  pending r `suffix_of` arrivals steps /\ taken ++ pending r `sublist_of` arrivals steps.
Proof using Type.
  intros Hm. pose proof (queue_run_facts maximum steps (Retained [] 0) Hm ltac:(cbn [pending]; rewrite len_nil; lia)) as Hq.
  destruct (queue_run _ _ _) as [taken r]. cbn [pending dropped app] in Hq.
  destruct Hq as (H1 & H2 & H3 & H4). rewrite Z.sub_0_r, Z.add_0_l in H3. done.
Qed.

End Retention.

(** * Witnesses *)

(** A configuration of one destination, and the files of it. *)
Definition example_config (host : list Z) : sdk_config :=
  SdkConfig [SdkDestination (str "a.example") 443 false true] host 0 (str "127.0.0.1") 0 64 0 0 0.

Definition example_token : bytes := str "/run/e/token".

Definition example_file (host : list Z) : list Z := js_render (example_config host) example_token.

Lemma example_within : within (example_config (str "127.0.0.1")).
Proof.
  split; [done|done|by vm_compute|by vm_compute|by vm_compute|]. constructor; [|constructor].
  split_and!; [by repeat constructor|by apply has_char_false|by vm_compute|by vm_compute].
Qed.

Lemma example_whole : whole example_token.
Proof.
  split_and!; [|by vm_compute|].
  - split; [done|by apply has_char_false|by apply has_char_false|by vm_compute].
  - by vm_compute.
Qed.

Lemma sdk_config_loads_witness :
  let c := example_config (str "127.0.0.1") in
  let cli := example_cli (utf8 (example_file (str "127.0.0.1"))) in
  egress_cli_settings_load (H := cli) true true (fun _ => true) [] = inr (sdk_settings c example_token) /\
  forall ds, egress_cli_settings_control_equal (sdk_settings c example_token) (sdk_settings (with_destinations c ds) example_token) = true.
Proof.
  refine (sdk_config_loads (Hlaws := example_cli_laws _) true [] (example_config (str "127.0.0.1")) example_token _
    (or_intror (conj _ eq_refl)) example_within example_whole _ _).
  - by vm_compute.
  - by repeat constructor.
  - reflexivity.
Defined.

Lemma sdk_ipv6_refused_witness :
  egress_cli_settings_load (H := example_cli (utf8 (example_file (str "::1")))) true true (fun _ => true) [] =
  inl (LineError 2 (str "invalid listen endpoint") None).
Proof.
  refine (sdk_ipv6_refused (Hlaws := example_cli_laws _) true (fun _ => true) [] (example_config (str "::1")) example_token
    (example_file (str "::1")) (or_introl (conj _ _)) _ _); [by vm_compute|by vm_compute|done|reflexivity].
Defined.

Lemma retained_exact_witness :
  let '(taken, r) := queue_run 2 (Retained [] 0) [Arrives 1; Arrives 2; Arrives 3; Taken; Arrives 4] in
  len (pending r) <= 2 /\ 0 <= dropped r /\ len taken + len (pending r) + dropped r = 4 /\
  pending r `suffix_of` [1; 2; 3; 4] /\ taken ++ pending r `sublist_of` [1; 2; 3; 4].
Proof. apply (retained_exact 2 [Arrives 1; Arrives 2; Arrives 3; Taken; Arrives 4]). lia. Defined.
