(* ===== verification/Events.v ===== *)
(** The lifecycle stream between the daemon and its SDKs: the events cli/output.c
    writes, the order in which [serve] (the end of [egress_cli_run] of
    cli/serve.c) writes them, the readers of both SDKs, and what the SDKs read of
    the operations listener.

    The writer of JSON is the command-line framework's and the parsers are the
    languages'; each is a parameter here.  An event is the object the calls of
    the writer build, a field for each key in the order of the calls. *)

From S2P Require Import Prelude Common Codec Config Receipt Server Admin ConfigFile Sdk.

(** * Documents *)

(** [JReal] is a number the language does not hold as an integer; it may be equal
    to one all the same. *)
Inductive json :=
| JNull
| JBool (b : bool)
| JInt (n : Z)
| JReal (equals : option Z)
| JString (s : bytes)
| JArray (items : list json)
| JObject (fields : list (bytes * json)).

Abbreviation fields := (list (bytes * json)).

#[export] Instance json_eq_dec : EqDecision json.
Proof.
  refine (fix go (a b : json) : Decision (a = b) :=
    let _ : EqDecision json := go in
    match a, b with
    | JNull, JNull => left eq_refl
    | JBool x, JBool y => cast_if (decide (x = y))
    | JInt x, JInt y => cast_if (decide (x = y))
    | JReal x, JReal y => cast_if (decide (x = y))
    | JString x, JString y => cast_if (decide (x = y))
    | JArray x, JArray y => cast_if (decide (x = y))
    | JObject x, JObject y => cast_if (decide (x = y))
    | _, _ => right _
    end); clearbody r; clear go; congruence.
Defined.

Fixpoint lookup_field (k : bytes) (fs : fields) : option json :=
  match fs with
  | [] => None
  | (k', v) :: fs => if beq k' k then Some v else lookup_field k fs
  end.

(** The member of an object; nothing else has any the readers ask for. *)
Definition member (k : string) (j : json) : option json :=
  match j with JObject fs => lookup_field (str k) fs | _ => None end.

Definition as_string (j : option json) : option bytes :=
  match j with Some (JString s) => Some s | _ => None end.

Definition as_object (j : option json) : option json :=
  match j with Some (JObject fs) => Some (JObject fs) | _ => None end.

(** * The events (cli/output.c) *)

Definition LIFECYCLE_CONTRACT : bytes := str "maelys-egress-lifecycle/1".

Definition string_field (k : string) (s : bytes) : bytes * json := (str k, JString s).
Definition number_field (k : string) (n : Z) : bytes * json := (str k, JInt n).
Definition object_field (k : string) (fs : fields) : bytes * json := (str k, JObject fs).

Definition text_or_empty (value : option bytes) : bytes := default [] value.

Definition event_begin (event : bytes) : fields :=
  [number_field "schemaVersion" 1; string_field "contract" LIFECYCLE_CONTRACT; string_field "event" event].

(** The fields of each event. *)
Definition message_event (event : bytes) (message : option bytes) : fields :=
  event_begin event ++ [string_field "message" (text_or_empty message)].

(** [tcp_port] and [admin_port] are 16-bit; the host of a listener is not NULL
    when it is written. *)
Definition ready_event (unix_path : option bytes) (tcp_host : bytes) (tcp_port : Z) (admin_host : bytes)
    (admin_port : Z) (policy_digest : bytes) (channel_path : option bytes) : fields :=
  event_begin (str "ready") ++
  [match channel_path with
   | Some path =>
       object_field "channel" [string_field "transport" (str "unix"); string_field "path" path;
         string_field "protocol" (str "maelys-egress-channel-bootstrap/1")]
   | None =>
       object_field "proxy"
         match unix_path with
         | Some path => [string_field "transport" (str "unix"); string_field "path" path]
         | None => [string_field "transport" (str "tcp"); string_field "host" tcp_host; number_field "port" tcp_port]
         end
   end;
   (str "admin", if negb (admin_port =? 0) then JObject [string_field "host" admin_host; number_field "port" admin_port]
                 else JNull);
   object_field "policy" [number_field "generation" 1; string_field "algorithm" (str "sha256");
     string_field "digest" policy_digest]].

Definition policy_reloaded_event (generation : Z) (digest : bytes) : fields :=
  event_begin (str "policy-reloaded") ++
  [object_field "policy" [number_field "generation" generation; string_field "digest" digest]].

(** What [egress_cli_receipt_sink] writes when its gate lets it. *)
Definition receipt_event (receipt : option maelys_egress_receipt) : fields :=
  event_begin (str "receipt") ++
  [object_field "receipt"
    [number_field "id" (maelys_egress_receipt_id receipt);
     number_field "protocol" (maelys_egress_receipt_protocol receipt);
     string_field "host" (text_or_empty (maelys_egress_receipt_host receipt));
     number_field "port" (maelys_egress_receipt_port receipt);
     string_field "address" (text_or_empty (maelys_egress_receipt_upstream_address receipt));
     string_field "result" (maelys_egress_result_string (maelys_egress_receipt_result receipt));
     number_field "durationMs" (maelys_egress_receipt_duration_ms receipt);
     number_field "bytesFromClient" (maelys_egress_receipt_bytes_from_client receipt);
     number_field "bytesToClient" (maelys_egress_receipt_bytes_to_client receipt);
     string_field "policyDigest" (text_or_empty (maelys_egress_receipt_policy_digest_hex receipt));
     string_field "invocationId" (text_or_empty (maelys_egress_receipt_invocation_id receipt));
     string_field "principal" (text_or_empty (maelys_egress_receipt_principal receipt));
     number_field "policyGeneration" (maelys_egress_receipt_policy_generation receipt);
     object_field "quota"
       [number_field "closedScope" (quota_scope_code (maelys_egress_receipt_quota_scope receipt));
        number_field "connectionMax" (maelys_egress_receipt_quota_connection_max_bytes receipt);
        number_field "executionMax" (maelys_egress_receipt_quota_execution_max_bytes receipt);
        number_field "connectionObserved" (maelys_egress_receipt_quota_connection_observed_bytes receipt);
        number_field "executionBefore" (maelys_egress_receipt_quota_execution_before_bytes receipt);
        number_field "executionAfter" (maelys_egress_receipt_quota_execution_after_bytes receipt)];
     string_field "attestor" (text_or_empty (maelys_egress_receipt_attestor receipt));
     string_field "attestationKeyId" (text_or_empty (maelys_egress_receipt_attestation_key_id receipt));
     string_field "attestation" (text_or_empty (maelys_egress_receipt_attestation_hex receipt))]].

(** The line written when the writer has no memory. *)
Definition allocation_line : bytes :=
  str "{" ++ quoted "schemaVersion" ++ str ":1," ++ quoted "contract" ++ str ":" ++
  quoted "maelys-egress-lifecycle/1" ++ str "," ++ quoted "event" ++ str ":" ++ quoted "fatal" ++ str "," ++
  quoted "message" ++ str ":" ++ quoted "lifecycle event allocation failed" ++ str "}".

(** A line of the diagnostics, in its array of 768 bytes. *)
Definition egress_cli_diagnostic (text : bytes) : bytes := str "maelys-egress: " ++ snprintf_s 768 text ++ [c_lf].

Section Writer.

(** [maelys_cli_json_finish]: the text of an object, or nothing for want of
    memory. *)
Context (finish : fields -> option bytes).

Definition event_end (event : fields) : bytes := default allocation_line (finish event) ++ [c_lf].

(** * The life of [serve] *)

(** What [maelys_egress_server_run] and the waiter come to: the result and the
    error of the one, the events both write before and after the ready event. *)
Record served := Served {
  sv_port : Z;
  sv_admin_port : Z;
  sv_early : list fields;
  sv_during : list fields;
  sv_result : maelys_egress_result_t;
  sv_error : option bytes;
}.

(** The end of [egress_cli_run] for a proxy, from the creation of the signal
    waiter: the exit status and the events.  The waiter runs from its creation
    until it is joined, the server while it runs. *)
Definition lifecycle_events (waiter : bool) (s : settings) (digest : bytes) (r : served) : Z * list fields :=
  if negb waiter then (-1, [])
  else
    let ok := bool_decide (sv_result r = MAELYS_EGRESS_OK) in
    (if ok then 0 else 1,
     sv_early r ++
     [ready_event (Settings.listen_unix s) (Settings.listen_host s) (sv_port r) (Settings.admin_host s)
        (sv_admin_port r) digest None] ++
     sv_during r ++
     (if ok then [message_event (str "stopping") (Some (str "shutdown requested"));
                  message_event (str "stopped") (Some (str "shutdown complete"))]
      else [message_event (str "fatal")
              (Some (default (maelys_egress_result_string (sv_result r)) (sv_error r)))])).

(** What a reader of the standard output gets. *)
Definition serve_output (waiter : bool) (s : settings) (digest : bytes) (r : served) : bytes :=
  concat (map event_end (lifecycle_events waiter s digest r).2).

End Writer.

(** * The reader of Python *)

Inductive py_error :=
| LineInvalid
| NotJson
| EventInvalid
| ReadyInvalid
| DaemonFatal (message : option json)
| CallbackRaised.

Record py_process := PyProcess {
  py_events : @retained json;
  py_handed : list json;
  py_listen_identity : bytes;
  py_proxy_port : Z;
  py_admin_port : Z;
  py_policy_digest : bytes;
  py_ready_signal : bool;
  py_lifecycle_error : option py_error;
}.

#[export] Instance eta_py_process : Eta py_process := fun p =>
  PyProcess (py_events p) (py_handed p) (py_listen_identity p) (py_proxy_port p) (py_admin_port p)
    (py_policy_digest p) (py_ready_signal p) (py_lifecycle_error p).

(** [isinstance(_, int)], which a truth value is too. *)
Definition py_int (j : option json) : option Z :=
  match j with
  | Some (JInt n) => Some n
  | Some (JBool b) => Some (if b then 1 else 0)
  | _ => None
  end.

(** [_ == 1]. *)
Definition py_is_one (j : option json) : bool :=
  match j with
  | Some (JReal e) => bool_decide (e = Some 1)
  | j => bool_decide (py_int j = Some 1)
  end.

(** The identity, the ports and the digest of a ready event. *)
Definition py_ready (event : json) : option (bytes * Z * Z * bytes) :=
  if is_some (member "channel" event) then None
  else
    proxy ← as_object (member "proxy" event);
    if negb (bool_decide (as_string (member "transport" proxy) = Some (str "tcp"))) then None
    else
      host ← as_string (member "host" proxy);
      port ← py_int (member "port" proxy);
      admin ← as_object (member "admin" event);
      admin_port ← py_int (member "port" admin);
      policy ← as_object (member "policy" event);
      digest ← as_string (member "digest" policy);
      Some (host, port, admin_port, digest).

Section PyReader.

(** [loads] is [json.loads], or its exception; [on_event] is the callback, and
    whether it returns. *)
Context (loads : bytes -> option json) (on_event : option (json -> bool)) (maximum : Z).

(** The name of a valid event. *)
Definition py_event_name (event : json) : option bytes :=
  match event with
  | JObject _ =>
      if py_is_one (member "schemaVersion" event) &&
         bool_decide (as_string (member "contract" event) = Some LIFECYCLE_CONTRACT)
      then as_string (member "event" event)
      else None
  | _ => None
  end.

Definition py_raise (e : py_error) (p : py_process) : py_process :=
  p <| py_lifecycle_error := Some e |> <| py_ready_signal := true |>.

Definition py_retain (event : json) (p : py_process) : py_process :=
  if is_some on_event then p else p <| py_events := retain maximum (py_events p) event |>.

Definition py_callback (event : json) (p : py_process) : py_process :=
  match on_event with
  | None => p
  | Some returns =>
      let p := p <| py_handed := py_handed p ++ [event] |> in
      if returns event then p else p <| py_lifecycle_error := Some CallbackRaised |>
  end.

(** The body of the loop: whether it goes on, and the process. *)
Definition py_line (raw_line : bytes) (p : py_process) : bool * py_process :=
  if (2 ^ 20 <? len raw_line) || negb (bool_decide (last raw_line = Some c_lf)) then (false, py_raise LineInvalid p)
  else
    match loads raw_line with
    | None => (false, py_raise NotJson p)
    | Some event =>
        match py_event_name event with
        | None => (false, py_raise EventInvalid p)
        | Some name =>
            let p := py_retain event p in
            if beq name (str "ready") then
              match py_ready event with
              | None => (false, py_raise ReadyInvalid p)
              | Some (host, port, admin_port, digest) =>
                  (true, py_callback event
                    (p <| py_listen_identity := host |> <| py_proxy_port := port |> <| py_admin_port := admin_port |>
                       <| py_policy_digest := digest |> <| py_ready_signal := true |>))
              end
            else if beq name (str "fatal") && negb (py_ready_signal p) then
              (true, py_callback event
                (p <| py_lifecycle_error := Some (DaemonFatal (member "message" event)) |> <| py_ready_signal := true |>))
            else (true, py_callback event p)
        end
    end.

Fixpoint py_lines (lines : list bytes) (p : py_process) : py_process :=
  match lines with
  | [] => p
  | line :: lines => let '(more, p) := py_line line p in if more then py_lines lines p else p
  end.

(** [_consume_lifecycle] on what it reads until the end of the stream. *)
Definition py_consume_lifecycle (stream : bytes) (p : py_process) : py_process := py_lines (getlines stream) p.

End PyReader.

(** The process when its reader starts. *)
Definition py_fresh : py_process := PyProcess (Retained [] 0) [] [] 0 0 [] false None.

(** How [start] ends. *)
Inductive py_start :=
| StartTimeout
| StartError (e : py_error)
| StartExited
| StartNoPorts
| Started.

(** The checks of [start] after its wait, which is over when the signal is set
    or the time is up. *)
Definition py_started (exited : bool) (p : py_process) : py_start :=
  if negb (py_ready_signal p) then StartTimeout
  else match py_lifecycle_error p with
       | Some e => StartError e
       | None =>
           if exited then StartExited
           else if (py_proxy_port p =? 0) || (py_admin_port p =? 0) then StartNoPorts
           else Started
       end.

(** * The reader of Node.js *)

(** A [Number] that is an integer. *)
Definition js_int (j : option json) : option Z :=
  match j with Some (JInt n) => Some n | _ => None end.

Definition js_member (k : string) (j : option json) : option json := j ≫= member k.

Definition js_ready (event : json) : option (bytes * Z * Z * bytes) :=
  if is_some (member "channel" event) then None
  else if negb (bool_decide (as_string (js_member "transport" (member "proxy" event)) = Some (str "tcp"))) then None
  else
    host ← as_string (js_member "host" (member "proxy" event));
    port ← js_int (js_member "port" (member "proxy" event));
    admin_port ← js_int (js_member "port" (member "admin" event));
    digest ← as_string (js_member "digest" (member "policy" event));
    Some (host, port, admin_port, digest).

(** The body of the [try]: the event of a line and what a ready one says, or an
    exception.  [parse] is [JSON.parse], [emit] whether the listeners of the
    event return. *)
Definition js_accept (parse : bytes -> option json) (emit : json -> bool) (line : bytes)
  : option (json * option (bytes * Z * Z * bytes)) :=
  event ← parse line;
  if negb (bool_decide (js_int (member "schemaVersion" event) = Some 1)) ||
     negb (bool_decide (as_string (member "contract" event) = Some LIFECYCLE_CONTRACT)) then None
  else
    name ← as_string (member "event" event);
    ready ← (if beq name (str "ready") then Some <$> js_ready event else Some None);
    if emit event then Some (event, ready) else None.

(** What [#waitReady] comes to on the events: the ready event, the failure, or
    no end yet. *)
Inductive js_wait_end := JsReady | JsFailed | JsWaiting.

Fixpoint js_wait (es : list (json * option (bytes * Z * Z * bytes))) (fatal : bool) : js_wait_end :=
  match es with
  | [] => if fatal then JsFailed else JsWaiting
  | (event, ready) :: es =>
      if is_some ready then JsReady
      else if bool_decide (as_string (member "event" event) = Some (str "fatal")) then JsFailed
      else js_wait es fatal
  end.

(** * The metrics *)

(** The line boundaries of [str.splitlines] in ASCII. *)
Definition py_break (c : Z) : bool := ((10 <=? c) && (c <=? 13)) || ((0x1c <=? c) && (c <=? 0x1e)).

(** A carriage return and the line feed after it are one boundary. *)
Fixpoint splitlines (s : bytes) : list bytes :=
  match s with
  | [] => []
  | c :: s =>
      let rest := match s with
                  | c' :: s' => if (c =? c_cr) && (c' =? c_lf) then splitlines s' else splitlines s
                  | [] => []
                  end in
      if py_break c then [] :: rest
      else match splitlines s with
           | [] => [[c]]
           | l :: ls => (c :: l) :: ls
           end
  end.

Fixpoint drop_while (f : Z -> bool) (s : bytes) : bytes :=
  match s with [] => [] | c :: s' => if f c then drop_while f s' else s end.

Fixpoint take_until (f : Z -> bool) (s : bytes) : bytes :=
  match s with [] => [] | c :: s => if f c then [] else c :: take_until f s end.

Definition drop_until (f : Z -> bool) (s : bytes) : bytes := drop_while (fun c => negb (f c)) s.

Section Metrics.

(** The value of a numeral in the language, when it is an integer. *)
Context (number : bytes -> option Z).

(** [line.split(None, 1)] into a name and a value. *)
Definition py_metric (line : bytes) : option (bytes * Z) :=
  let line := drop_while isspace line in
  let name := take_until isspace line in
  let value := drop_while isspace (drop_until isspace line) in
  if (len name =? 0) || (len value =? 0) then None
  else n ← number value; Some (name, n).

Definition skipped (line : bytes) : bool := (len line =? 0) || prefixb [c_hash] line.

Fixpoint py_metric_lines (lines : list bytes) : option (list (bytes * Z)) :=
  match lines with
  | [] => Some []
  | line :: lines =>
      if skipped line then py_metric_lines lines
      else m ← py_metric line; ms ← py_metric_lines lines; Some (m :: ms)
  end.

(** [EgressProcess.metrics] of Python, on the body of the answer. *)
Definition py_metrics (body : bytes) : option (list (bytes * Z)) := py_metric_lines (splitlines body).

(** [line.trim().split(/\s+/, 2)]: the first two words; a missing one is no
    number. *)
Definition js_metric (line : bytes) : bytes * option Z :=
  let line := drop_while js_space line in
  (take_until js_space line,
   let value := take_until js_space (drop_while js_space (drop_until js_space line)) in
   if len value =? 0 then None else number value).

Definition js_metrics (body : bytes) : list (bytes * option Z) :=
  map js_metric (List.filter (fun line => negb (skipped line)) (split_on c_lf body)).

End Metrics.

(** * The wait for a generation *)

(** The loop of [replace_destinations] on the generations it reads before its
    deadline: the first that is beyond the previous one. *)
Fixpoint await_generation (previous : Z) (generations : list Z) : option Z :=
  match generations with
  | [] => None
  | g :: generations => if previous <? g then Some g else await_generation previous generations
  end.
