(* ===== verification/EventTheorems.v ===== *)
(** What the lifecycle stream and the operations listener tell the SDKs.

    [sdk_sees_ready]: the ready event of a proxy makes both SDKs ready with the
    ports, the address and the digest of the daemon, however its output is cut.
    [py_exit_unseen]: a daemon that ends without one is seen by the SDK of Python
    only as a timeout.  [metrics_read]: both SDKs read the metrics the daemon
    writes.  [sdk_replaces]: a replacement of the destinations is refused only for
    its policy, and the SDK learns the generation it got. *)

From S2P Require Import Prelude Common Codec Sha256 Config Policy PolicyDigest Receipt Journal Buffer Server Connection Admin Listener Reactor.
From S2P Require Import Scenario ConfigFile ConfigFileFacts ConfigTheorems Daemon DaemonTheorems Sdk SdkTheorems Events.

(** * Documents *)

Lemma lookup_here k v fs : lookup_field k ((k, v) :: fs) = Some v.
Proof. simpl. by rewrite beq_refl. Qed.

(** A document whose texts are printable ASCII and whose numbers every language
    holds. *)
Fixpoint plain (j : json) : bool :=
  match j with
  | JNull => true
  | JInt n => (0 <=? n) && (n <=? MAX_SAFE_INTEGER)
  | JString s => forallb (fun c => (32 <=? c) && (c <=? 126)) s
  | JObject fs => forallb (fun f => plain f.2) fs
  | JBool _ | JReal _ | JArray _ => false
  end.

(** What the writer and the two parsers promise: the text of a plain object is
    on one line, and each parser gives the object back. *)
Class JsonLaws (finish : fields -> option bytes) (loads parse : bytes -> option json) : Prop := {
  law_line fs t : finish fs = Some t -> c_lf ∉ t;
  law_loads fs t : plain (JObject fs) = true -> finish fs = Some t -> loads (t ++ [c_lf]) = Some (JObject fs);
  law_parse fs t : plain (JObject fs) = true -> finish fs = Some t -> parse t = Some (JObject fs);
}.

Section Ready.
Context {finish : fields -> option bytes} {loads parse : bytes -> option json} {Jlaws : JsonLaws finish loads parse}.

(** The ready event of a proxy on TCP. *)
Abbreviation tcp_ready host port admin_host admin_port digest :=
  (ready_event None host port admin_host admin_port digest None).

Abbreviation printable := (forallb (fun c => (32 <=? c) && (c <=? 126))).

Lemma ready_plain host port admin_host admin_port digest :
  printable host = true -> printable admin_host = true -> printable digest = true ->
  0 < port <= 65535 -> 0 < admin_port <= 65535 ->
  plain (JObject (tcp_ready host port admin_host admin_port digest)) = true.
Proof using Type.
  intros H1 H2 H3 H4 H5. unfold ready_event. destruct (Z.eqb_spec admin_port 0); [lia|].
  cbn [negb plain app event_begin number_field string_field object_field snd forallb].
  rewrite H1, H2, H3. unfold MAX_SAFE_INTEGER.
  repeat match goal with |- context [0 <=? ?n] => destruct (Z.leb_spec 0 n); [|lia] end.
  repeat match goal with |- context [?n <=? 2 ^ 53 - 1] => destruct (Z.leb_spec n (2 ^ 53 - 1)); [|lia] end.
  done.
Qed.

Lemma py_ready_tcp host port admin_host admin_port digest :
  admin_port <> 0 ->
  py_ready (JObject (tcp_ready host port admin_host admin_port digest)) = Some (host, port, admin_port, digest).
Proof using Type. intros Ha. unfold ready_event. destruct (Z.eqb_spec admin_port 0); [done|]. reflexivity. Qed.

Lemma js_ready_tcp host port admin_host admin_port digest :
  admin_port <> 0 ->
  js_ready (JObject (tcp_ready host port admin_host admin_port digest)) = Some (host, port, admin_port, digest).
Proof using Type. intros Ha. unfold ready_event. destruct (Z.eqb_spec admin_port 0); [done|]. reflexivity. Qed.

(** The first line of a stream that begins with an event. *)
Lemma output_first s digest r t :
  sv_early r = [] -> Settings.listen_unix s = None ->
  finish (tcp_ready (Settings.listen_host s) (sv_port r) (Settings.admin_host s) (sv_admin_port r) digest) = Some t ->
  exists rest, serve_output finish true s digest r = t ++ c_lf :: rest.
Proof using Type.
  intros He Hu Hf. unfold serve_output, lifecycle_events. cbn [negb snd]. rewrite He, Hu. cbn [app map concat].
  unfold event_end at 1. rewrite Hf. cbn [default]. rewrite <-app_assoc. by eexists.
Qed.

(** What a valid ready line does to the process of Python. *)
Lemma py_line_ready on_event maximum t host port admin_host admin_port digest :
  let event := JObject (tcp_ready host port admin_host admin_port digest) in
  plain event = true -> admin_port <> 0 -> port <> 0 -> len t < 2 ^ 20 ->
  finish (tcp_ready host port admin_host admin_port digest) = Some t ->
  (forall f, on_event = Some f -> f event = true) ->
  let '(more, p) := py_line loads on_event maximum (t ++ [c_lf]) py_fresh in
  more = true /\ py_started false p = Started /\
  py_listen_identity p = host /\ py_proxy_port p = port /\ py_admin_port p = admin_port /\ py_policy_digest p = digest.
Proof using Jlaws.
  cbv zeta. intros Hp Ha Hport Hl Hf Hcb. unfold py_line.
  assert (E1 : 2 ^ 20 <? len (t ++ [c_lf]) = false) by (rewrite len_app, len_cons, len_nil; lia).
  rewrite E1, last_snoc, (law_loads _ _ Hp Hf). cbn [orb]. rewrite bool_decide_true by done. cbn [negb].
  change (py_event_name _) with (Some (str "ready")). cbv iota. cbn [beq]. rewrite beq_refl, py_ready_tcp by done.
  unfold py_retain, py_callback. destruct on_event as [f|]; cbn [is_some].
  - rewrite (Hcb f eq_refl). unfold py_started. simpl.
    destruct (Z.eqb_spec port 0), (Z.eqb_spec admin_port 0); done.
  - unfold py_started. simpl. destruct (Z.eqb_spec port 0), (Z.eqb_spec admin_port 0); done.
Qed.

Lemma js_accept_ready emit t host port admin_host admin_port digest :
  let event := JObject (tcp_ready host port admin_host admin_port digest) in
  plain event = true -> admin_port <> 0 -> emit event = true ->
  finish (tcp_ready host port admin_host admin_port digest) = Some t ->
  js_accept parse emit t = Some (event, Some (host, port, admin_port, digest)).
Proof using Jlaws.
  cbv zeta. intros Hp Ha He Hf. unfold js_accept. rewrite (law_parse _ _ Hp Hf). cbn [mbind option_bind].
  change (member "schemaVersion" _) with (Some (JInt 1)). change (member "contract" _) with (Some (JString LIFECYCLE_CONTRACT)).
  change (member "event" _) with (Some (JString (str "ready"))). cbn [js_int as_string].
  rewrite !bool_decide_true by done. cbn [negb orb mbind option_bind]. rewrite beq_refl, js_ready_tcp by done.
  cbn [fmap option_fmap option_map mbind option_bind]. by rewrite He.
Qed.

(** C30: the daemon of a proxy on TCP makes its SDK ready.  Its output begins with
    the ready event, when no signal came before it; the SDK of Python is started by
    that line with the address, the ports and the digest of the daemon; that of
    Node.js, however the output is cut into chunks, gets the same of its first
    event and ends its wait. *)
Theorem sdk_sees_ready s digest r t on_event maximum emit chunks :
  let event := JObject (tcp_ready (Settings.listen_host s) (sv_port r) (Settings.admin_host s) (sv_admin_port r) digest) in
  Settings.listen_unix s = None ->
  printable (Settings.listen_host s) = true -> printable (Settings.admin_host s) = true -> printable digest = true ->
  0 < sv_port r <= 65535 -> 0 < sv_admin_port r <= 65535 -> sv_early r = [] ->
  finish (tcp_ready (Settings.listen_host s) (sv_port r) (Settings.admin_host s) (sv_admin_port r) digest) = Some t ->
  len t < 2 ^ 20 -> (forall f, on_event = Some f -> f event = true) -> emit event = true ->
  concat chunks = serve_output finish true s digest r ->
  (exists lines p,
     getlines (concat chunks) = (t ++ [c_lf]) :: lines /\
     py_line loads on_event maximum (t ++ [c_lf]) py_fresh = (true, p) /\ py_started false p = Started /\
     py_listen_identity p = Settings.listen_host s /\ py_proxy_port p = sv_port r /\
     py_admin_port p = sv_admin_port r /\ py_policy_digest p = digest) /\
  (exists es,
     events (consume_chunks (js_accept parse emit) [] chunks) =
       (event, Some (Settings.listen_host s, sv_port r, sv_admin_port r, digest)) :: es /\
     forall failed, js_wait (events (consume_chunks (js_accept parse emit) [] chunks)) failed = JsReady).
Proof using Jlaws.
  cbv zeta. intros Hu H1 H2 H3 H4 H5 He Hf Hl Hcb Hemit Hs.
  pose proof (ready_plain _ _ _ _ _ H1 H2 H3 H4 H5) as Hp. pose proof (law_line _ _ Hf) as Hlf.
  destruct (output_first s digest r t He Hu Hf) as (rest & Er). rewrite Hs, Er. split.
  - rewrite getlines_app by done.
    pose proof (py_line_ready on_event maximum t _ _ _ _ _ Hp ltac:(lia) ltac:(lia) Hl Hf Hcb) as Hpy.
    destruct (py_line _ _ _ _ _) as [more p]. destruct Hpy as (-> & Hpy). by exists (getlines rest), p.
  - destruct (consume_chunks_all (js_accept parse emit) chunks [] (not_elem_of_nil _)) as (Hev & _).
    cbn [app] in Hev. rewrite Hs, Er, consume_all_line in Hev by done.
    destruct (Z.ltb_spec LINE_MAX (len t)); [unfold LINE_MAX in *; lia|].
    rewrite (js_accept_ready emit t _ _ _ _ _ Hp ltac:(lia) Hemit Hf) in Hev. cbn [events] in Hev.
    eexists. split; [exact Hev|]. intros failed. by rewrite Hev.
Qed.

End Ready.

(** * A daemon that ends before it is ready *)

(** A line that is an event of no concern to [start]. *)
Definition idle_event (loads : bytes -> option json) (line : bytes) : Prop :=
  len line <= 2 ^ 20 /\ last line = Some c_lf /\
  exists event name, loads line = Some event /\ py_event_name event = Some name /\
    name <> str "ready" /\ name <> str "fatal".

Lemma py_lines_idle loads on_event maximum lines : forall p,
  Forall (idle_event loads) lines -> py_ready_signal (py_lines loads on_event maximum lines p) = py_ready_signal p.
Proof.
  induction lines as [|line lines IH]; intros p Hl; [done|].
  apply Forall_cons in Hl as [(Hlen & Hlast & event & name & El & En & Hr & Hf) Hl]. cbn [py_lines]. unfold py_line.
  destruct (Z.ltb_spec (2 ^ 20) (len line)); [lia|]. rewrite Hlast, El, En, bool_decide_true by done. cbn [orb negb].
  apply beq_false in Hr, Hf. rewrite Hr, Hf. cbn [andb]. rewrite IH by done.
  unfold py_callback, py_retain. destruct on_event as [f|]; cbn [is_some]; [destruct (f event)|]; reflexivity.
Qed.

(** A daemon whose output ends without a ready or fatal event, as when its
    configuration is refused and it writes nothing, is reported by [start] of the
    SDK of Python as a timeout, also when it has exited: the end of the output is
    not a signal. *)
Theorem py_exit_unseen loads on_event maximum stream exited :
  Forall (idle_event loads) (getlines stream) ->
  py_started exited (py_consume_lifecycle loads on_event maximum stream py_fresh) = StartTimeout.
Proof.
  intros Hl. unfold py_started, py_consume_lifecycle. by rewrite py_lines_idle.
Qed.

(** * The metrics *)

Section MetricsRead.
Context (number : bytes -> option Z) (Hnumber : forall n, 0 <= n <= 2 ^ 53 -> number (decimal n) = Some n).

Lemma splitlines_line l s :
  Forall (fun c => py_break c = false) l -> splitlines (l ++ c_lf :: s) = l :: splitlines s.
Proof using Type.
  induction 1 as [|c l Hc _ IH].
  - change (splitlines (c_lf :: s)) with ([] :: match s with c' :: s' => splitlines s | [] => [] end). by destruct s.
  - change ((c :: l) ++ c_lf :: s) with (c :: (l ++ c_lf :: s)). cbn [splitlines]. rewrite Hc. fold (l ++ c_lf :: s). by rewrite IH.
Qed.

(** A word followed by a space. *)
Definition word (w : bytes) : Prop := w <> [] /\ Forall (fun c => isspace c = false /\ js_space c = false) w.

Lemma take_until_word f w s c : Forall (fun c => f c = false) w -> f c = true -> take_until f (w ++ c :: s) = w.
Proof using Type.
  induction 1 as [|x w Hx _ IH]; intros Hc; cbn [app take_until]; [by rewrite Hc|]. by rewrite Hx, IH.
Qed.

Lemma take_until_end f w : Forall (fun c => f c = false) w -> take_until f w = w.
Proof using Type. induction 1 as [|x w Hx _ IH]; cbn [take_until]; [done|]. by rewrite Hx, IH. Qed.

Lemma drop_until_word f w s c : Forall (fun c => f c = false) w -> f c = true -> drop_until f (w ++ c :: s) = c :: s.
Proof using Type.
  unfold drop_until. induction 1 as [|x w Hx _ IH]; intros Hc; cbn [app drop_while]; [by rewrite Hc|]. by rewrite Hx, IH.
Qed.

Lemma drop_while_word f w s : w <> [] -> Forall (fun c => f c = false) w -> drop_while f (w ++ s) = w ++ s.
Proof using Type. intros Hw. destruct 1 as [|x w Hx _]; [done|]. cbn [app drop_while]. by rewrite Hx. Qed.

Lemma digits_word d : d <> [] -> Forall (fun c => is_digit c = true) d -> word d.
Proof using Type.
  intros Hd Hf. split; [done|]. eapply Forall_impl; [exact Hf|]. intros c. simpl.
  unfold is_digit, in_range, isspace, js_space, common_space. lia.
Qed.

Lemma word_len (w : bytes) : w <> [] -> (len w =? 0) = false.
Proof using Type. destruct w; [done|]. intros _. rewrite len_cons. pose proof (len_nonneg w). lia. Qed.

Lemma metric_words w n :
  word w -> 0 <= n <= 2 ^ 53 ->
  py_metric number (w ++ c_space :: decimal n) = Some (w, n) /\ js_metric number (w ++ c_space :: decimal n) = (w, Some n).
Proof using Hnumber.
  intros [Hw Hf] Hn. pose proof (decimal_nonempty n) as Hd.
  destruct (digits_word (decimal n) Hd (decimal_digits n ltac:(lia))) as [_ Hdf].
  assert (Hp : forall l, Forall (fun c => isspace c = false /\ js_space c = false) l ->
    Forall (fun c => isspace c = false) l /\ Forall (fun c => js_space c = false) l) by (intros l Hl; by apply Forall_and).
  destruct (Hp w Hf) as [Hw1 Hw2]. destruct (Hp _ Hdf) as [Hd1 Hd2].
  pose proof (drop_while_word isspace (decimal n) [] Hd Hd1) as E1. pose proof (drop_while_word js_space (decimal n) [] Hd Hd2) as E2.
  rewrite app_nil_r in E1, E2. split.
  - unfold py_metric. rewrite drop_while_word by done. cbv zeta.
    rewrite take_until_word, drop_until_word by done. cbn [drop_while]. change (isspace c_space) with true. cbv iota.
    rewrite E1, !word_len by done. cbn [orb]. by rewrite Hnumber.
  - unfold js_metric. rewrite drop_while_word by done. cbv zeta.
    rewrite take_until_word, drop_until_word by done. cbn [drop_while]. change (js_space c_space) with true. cbv iota.
    rewrite E2, take_until_end, word_len by done. by rewrite Hnumber.
Qed.

(** The lines of the metrics: a comment or a value. *)
Inductive metric_row := TypeRow (name kind : string) | ValueRow (name : string) (value : Z).

Definition row_text (row : metric_row) : bytes :=
  match row with
  | TypeRow name kind => str "# TYPE maelys_egress_" ++ str name ++ [c_space] ++ str kind
  | ValueRow name value => (str "maelys_egress_" ++ str name) ++ c_space :: decimal value
  end.

Definition row_values (rows : list metric_row) : list (bytes * Z) :=
  flat_map (fun row => match row with
    | TypeRow _ _ => []
    | ValueRow name value => [(str "maelys_egress_" ++ str name, value)]
    end) rows.

(** A text without a boundary of lines. *)
Definition unbroken (s : string) : bool := forallb (fun c => negb (py_break c)) (str s).

Definition row_ok (row : metric_row) : Prop :=
  match row with
  | TypeRow name kind => unbroken name = true /\ unbroken kind = true
  | ValueRow name value => forallb (fun c => negb (isspace c || js_space c)) (str name) = true /\ 0 <= value <= 2 ^ 53
  end.

Lemma row_unbroken row : row_ok row -> Forall (fun c => py_break c = false) (row_text row).
Proof using Type.
  assert (Hs : forall s, unbroken s = true -> Forall (fun c => py_break c = false) (str s)).
  { intros s Hs%forallb_Forall. eapply Forall_impl; [exact Hs|]. intros c. apply negb_true_iff. }
  destruct row as [name kind|name value]; cbn [row_ok row_text].
  - intros [H1 H2]. rewrite !Forall_app. split_and!; [by apply Hs|by apply Hs|by repeat constructor|by apply Hs].
  - intros [Hn Hv]. rewrite !Forall_app. split_and!; [by apply Hs| |].
    + apply forallb_Forall in Hn. eapply Forall_impl; [exact Hn|]. intros c. simpl. unfold isspace, common_space, py_break. lia.
    + apply Forall_cons. split; [done|]. eapply Forall_impl; [apply decimal_digits; lia|]. intros c. simpl.
      unfold is_digit, in_range, py_break. lia.
Qed.

Lemma row_word name value : row_ok (ValueRow name value) -> word (str "maelys_egress_" ++ str name).
Proof using Type.
  intros [Hn _]. split; [done|]. apply Forall_app. split; [by repeat constructor|].
  apply forallb_Forall in Hn. eapply Forall_impl; [exact Hn|]. intros c. simpl. by rewrite negb_true_iff, orb_false_iff.
Qed.

Lemma row_skipped row : skipped (row_text row) = match row with TypeRow _ _ => true | ValueRow _ _ => false end.
Proof using Type. by destruct row. Qed.

Lemma rows_read rows :
  Forall row_ok rows ->
  let body := concat (map (fun row => row_text row ++ [c_lf]) rows) in
  py_metrics number body = Some (row_values rows) /\
  js_metrics number body = map (fun m => (m.1, Some m.2)) (row_values rows).
Proof using Hnumber.
  unfold py_metrics, js_metrics. cbv zeta. induction 1 as [|row rows Hr _ [IH1 IH2]]; [done|]. cbn [map concat].
  pose proof (row_unbroken row Hr) as Hu. rewrite <-app_assoc. cbn [app].
  assert (Hlf : c_lf ∉ row_text row) by (intros Hin; rewrite Forall_forall in Hu; by specialize (Hu _ Hin)).
  rewrite splitlines_line, split_on_app by done. cbn [py_metric_lines List.filter]. rewrite row_skipped.
  destruct row as [name kind|name value]; cbn [negb]; [done|]. cbn [map row_values flat_map app].
  destruct (metric_words _ value (row_word _ _ Hr) (proj2 Hr)) as [E1 E2]. cbn [row_text].
  rewrite E1, E2, IH1, IH2. done.
Qed.

(** The rows the daemon writes. *)
Definition metric_rows (m : server_metrics) (generation : Z) : list metric_row :=
  [TypeRow "connections_total" "counter"; ValueRow "connections_total" (metric_accepted m);
   TypeRow "connections_active" "gauge"; ValueRow "connections_active" (metric_active m);
   ValueRow "admissions_total" (metric_admitted m); ValueRow "denials_total" (metric_denied m);
   ValueRow "auth_failures_total" (metric_auth_failures m); ValueRow "quota_denials_total" (metric_quota_denials m);
   ValueRow "bytes_from_clients_total" (metric_bytes_from_clients m);
   ValueRow "bytes_to_clients_total" (metric_bytes_to_clients m); ValueRow "receipts_total" (metric_receipts m);
   ValueRow "policy_generation" generation; ValueRow "policy_reload_failures_total" (metric_reload_failures m);
   ValueRow "audit_failures_total" (metric_audit_failures m)].

Lemma metrics_body_rows m g : metrics_body m g = concat (map (fun row => row_text row ++ [c_lf]) (metric_rows m g)).
Proof using Type.
  assert (E1 : forall name value, metric_line name value = row_text (ValueRow name value) ++ [c_lf]).
  { intros name value. unfold metric_line. cbn [row_text]. by rewrite <-!app_assoc. }
  assert (E2 : forall name kind, type_line name kind = row_text (TypeRow name kind) ++ [c_lf]).
  { intros name kind. unfold type_line. cbn [row_text]. by rewrite <-!app_assoc. }
  unfold metrics_body. rewrite !E1, !E2. cbn [metric_rows map concat]. by rewrite app_nil_r.
Qed.

(** Both SDKs read of the operations listener exactly what the daemon counts:
    every metric it writes under its name, with its value, as long as the values
    are numbers every language holds. *)
Theorem metrics_read m g :
  Forall (fun v => 0 <= v <= 2 ^ 53)
    [metric_accepted m; metric_active m; metric_admitted m; metric_denied m; metric_auth_failures m;
     metric_quota_denials m; metric_bytes_from_clients m; metric_bytes_to_clients m; metric_receipts m; g;
     metric_reload_failures m; metric_audit_failures m] ->
  py_metrics number (metrics_body m g) = Some (row_values (metric_rows m g)) /\
  js_metrics number (metrics_body m g) = map (fun m => (m.1, Some m.2)) (row_values (metric_rows m g)).
Proof using Hnumber.
  intros Hv. rewrite metrics_body_rows. apply rows_read. rewrite !Forall_cons in Hv. destruct_and! Hv.
  repeat (constructor; [by split|]). constructor.
Qed.

End MetricsRead.

(** * A replacement of the destinations *)

Lemma await_first previous g n later : previous < g -> await_generation previous (replicate n previous ++ g :: later) = Some g.
Proof.
  intros Hg. induction n as [|n IH]; cbn [replicate app await_generation].
  - by destruct (Z.ltb_spec previous g); [|lia].
  - by destruct (Z.ltb_spec previous previous); [lia|].
Qed.

Section Replace.
Context `{Inet} `{Fs} `{ListenSys}.

(** What a reload of settings that load and keep the control plane comes to. *)
Lemma reload_loaded tls path baseline fresh o m :
  @egress_cli_settings_load (oc_cli o) tls (oc_calloc o) (oc_copy o) path = inr fresh ->
  egress_cli_settings_control_equal baseline fresh = true ->
  let '(outcome, m') := reload tls path baseline o m in
  let generation := policy_generation (server m) in
  (exists policy, @egress_cli_build_policy _ (oc_resolver o) (oc_create o) (oc_mem o) (oc_digest o) fresh = (MAELYS_EGRESS_OK, Some policy) /\
     outcome = Reloaded (u64 (generation + 1)) fresh /\ policy_generation (server m') = u64 (generation + 1) /\
     clone_policy (oc_clone o) policy = Some (server_policy (server m'))) \/
  (exists result, outcome = PolicyRejected result /\ result <> MAELYS_EGRESS_OK /\ policy_generation (server m') = generation /\
     server_policy (server m') = server_policy (server m)).
Proof using Type.
  intros Hl Hc. unfold reload. rewrite Hl, Hc. cbn [negb].
  destruct (@egress_cli_build_policy _ _ _ _ _ fresh) as [result replacement].
  destruct (bool_decide_reflect (result = MAELYS_EGRESS_OK)) as [->|Hn]; cbn [negb]; [|right; by exists result].
  unfold maelys_egress_server_replace_policy. destruct replacement as [policy|]; [|right; by eexists].
  destruct (sealed policy); cbn [negb]; [|right; by eexists].
  destruct (clone_policy (oc_clone o) policy) as [copy|] eqn:Ec; [|right; by eexists].
  unfold mbind, M_bind, get_server. destruct (stopping (server m)); [right; by eexists|]. left. by exists policy.
Qed.

(** C31: a replacement of the destinations by an SDK is seen through.  When the
    daemon gets the signal, the file of the candidate loads and keeps the control
    plane; unless its policy cannot be built or installed, which changes nothing,
    the policy of exactly the new destinations is in force, the generation is the
    next one, and the wait of the SDK ends with it. *)
Theorem sdk_replaces tls path c ds token text o m n later
    (laws : @CliLaws (oc_cli o)) :
  let candidate := with_destinations c ds in
  py_validate candidate = true /\ py_render candidate token = Some text \/
    js_config candidate = true /\ js_render candidate token = text ->
  within candidate -> whole token -> Forall (fun x => 0 <= x < 128) token ->
  @open_trusted (oc_cli o) path = inr (TrustedFile true (utf8 text) false true) ->
  oc_calloc o = true -> oc_copy o = (fun _ => true) ->
  let generation := policy_generation (server m) in
  0 <= generation < 2 ^ 53 ->
  let '(told, m') := signal_turn tls false false path (sdk_settings c token) (Some SIGHUP) o m in
  (exists policy,
     @egress_cli_build_policy _ (oc_resolver o) (oc_create o) (oc_mem o) (oc_digest o) (sdk_settings candidate token) =
       (MAELYS_EGRESS_OK, Some policy) /\
     clone_policy (oc_clone o) policy = Some (server_policy (server m')) /\
     told = Told (Reloaded (generation + 1) (sdk_settings candidate token)) /\
     policy_generation (server m') = generation + 1 /\
     await_generation generation (replicate n generation ++ policy_generation (server m') :: later) = Some (generation + 1)) \/
  (exists result, told = Told (PolicyRejected result) /\ result <> MAELYS_EGRESS_OK /\
     policy_generation (server m') = generation /\ server_policy (server m') = server_policy (server m)).
Proof using Type.
  cbv zeta. intros Hsdk Hw Ht Ha Ho Hcalloc Hcopy Hg.
  assert (Hl : @egress_cli_settings_load (oc_cli o) tls (oc_calloc o) (oc_copy o) path =
    inr (sdk_settings (with_destinations c ds) token)) by (rewrite Hcalloc, Hcopy; by eapply sdk_file_loads).
  pose proof (reload_loaded tls path _ _ o m Hl (sdk_control_equal c ds token)) as Hr.
  unfold signal_turn. cbn [andb]. rewrite bool_decide_true by done. unfold mbind, M_bind.
  destruct (reload tls path (sdk_settings c token) o m) as [outcome m']. cbv zeta in Hr.
  assert (E : u64 (policy_generation (server m) + 1) = policy_generation (server m) + 1).
  { unfold u64. apply Z.mod_small. lia. }
  rewrite E in Hr. destruct Hr as [(policy & Hb & -> & Hm & Hk)|(result & -> & Hn & Hm & Hk)]; [left|right].
  - exists policy. split_and!; [done|done|done|done|]. rewrite Hm. apply await_first. lia.
  - by exists result.
Qed.

End Replace.

(** * Witnesses *)

(** A writer and parsers that know the ready event of one daemon. *)
Definition example_ready : fields :=
  ready_event None (str "127.0.0.1") 4128 (str "127.0.0.1") 4129 (str "0123456789abcdef") None.

Definition example_json_finish (fs : fields) : option bytes := if decide (fs = example_ready) then Some (str "ready") else None.
Definition example_json_parse (t : bytes) : option json := if beq t (str "ready") then Some (JObject example_ready) else None.
Definition example_json_loads (t : bytes) : option json := if beq t (str "ready" ++ [c_lf]) then Some (JObject example_ready) else None.

#[export] Instance example_json_laws : JsonLaws example_json_finish example_json_loads example_json_parse.
Proof.
  split; intros fs t; unfold example_json_finish; destruct (decide (fs = example_ready)) as [->|]; try done.
  - intros Et. apply (inj Some) in Et as <-. by apply has_char_false.
  - intros _ Et. by apply (inj Some) in Et as <-.
  - intros _ Et. by apply (inj Some) in Et as <-.
Qed.

Definition example_served : served :=
  Served 4128 4129 [] [] MAELYS_EGRESS_OK None.

(** The settings of the example of SdkTheorems, its ports chosen by the kernel. *)
Definition example_listening : settings := sdk_settings (example_config (str "127.0.0.1")) example_token.

Definition example_chunks : list bytes :=
  [take 3 (serve_output example_json_finish true example_listening (str "0123456789abcdef") example_served);
   drop 3 (serve_output example_json_finish true example_listening (str "0123456789abcdef") example_served)].

Lemma sdk_sees_ready_witness :
  exists lines p,
    getlines (concat example_chunks) = (str "ready" ++ [c_lf]) :: lines /\
    py_line example_json_loads None 16 (str "ready" ++ [c_lf]) py_fresh = (true, p) /\ py_started false p = Started /\
    py_proxy_port p = 4128.
Proof.
  destruct (sdk_sees_ready (Jlaws := example_json_laws) example_listening (str "0123456789abcdef") example_served (str "ready")
    None 16 (fun _ => true) example_chunks) as [(lines & p & H1 & H2 & H3 & H4 & H5 & _) _];
    [reflexivity|reflexivity|reflexivity|reflexivity|done|done|reflexivity|by vm_compute|done|done|done|by vm_compute|].
  exists lines, p. done.
Defined.

Lemma py_exit_unseen_witness :
  py_started true (py_consume_lifecycle example_json_loads None 16 [] py_fresh) = StartTimeout.
Proof. apply (py_exit_unseen example_json_loads None 16 [] true). constructor. Defined.

Definition example_number (t : bytes) : option Z := if forallb is_digit t then Some (undecimal t) else None.

Lemma example_numbers_read n : 0 <= n <= 2 ^ 53 -> example_number (decimal n) = Some n.
Proof.
  intros Hn. unfold example_number. assert (E : forallb is_digit (decimal n) = true) by (apply forallb_Forall, decimal_digits; lia).
  rewrite E. f_equal. apply undecimal_decimal. unfold is_u64. lia.
Qed.

Lemma metrics_read_witness :
  py_metrics example_number (metrics_body zero_metrics 7) = Some (row_values (metric_rows zero_metrics 7)) /\
  js_metrics example_number (metrics_body zero_metrics 7) =
    map (fun m => (m.1, Some m.2)) (row_values (metric_rows zero_metrics 7)).
Proof. apply (metrics_read example_number example_numbers_read zero_metrics 7). repeat (apply Forall_cons; split; [vm_compute; split; discriminate|]). constructor. Defined.

Section ReplaceExample.
#[local] Existing Instances dotted_inet empty_fs scripted scripted_listen resolver_forward.

Definition example_before : sdk_config := with_destinations (example_config (str "127.0.0.1")) [SdkDestination (str "b.example") 80 false false].

Definition replace_occasion : occasion :=
  Occasion (example_cli (utf8 (example_file (str "127.0.0.1")))) resolver_forward true (fun _ => true) true
    (fun _ => (true, true)) true true.

Abbreviation replaced :=
  (signal_turn false false false [] (sdk_settings example_before example_token) (Some SIGHUP) replace_occasion daemon_up).

Lemma replaced_told :
  replaced.1 = Told (Reloaded 2 (sdk_settings (example_config (str "127.0.0.1")) example_token)).
Proof. vm_compute. reflexivity. Qed.

Lemma daemon_up_generation : policy_generation (server daemon_up) = 1.
Proof. vm_compute. reflexivity. Qed.

Lemma sdk_replaces_witness :
  policy_generation (server replaced.2) = 1 + 1 /\
  await_generation 1 (replicate 3 1 ++ policy_generation (server replaced.2) :: [2]) = Some (1 + 1).
Proof.
  assert (Hg : 0 <= policy_generation (server daemon_up) < 2 ^ 53) by (rewrite daemon_up_generation; lia).
  pose proof (sdk_replaces false [] example_before (destinations (example_config (str "127.0.0.1"))) example_token
    (example_file (str "127.0.0.1")) replace_occasion daemon_up 3 [2] (example_cli_laws _)
    (or_intror (conj eq_refl eq_refl)) example_within example_whole ltac:(by repeat constructor) eq_refl eq_refl eq_refl
    Hg) as Hr.
  rewrite daemon_up_generation in Hr. pose proof replaced_told as Et. revert Hr Et.
  destruct (signal_turn _ _ _ _ _ _ _ _) as [told m']. cbn [fst snd]. intros Hr Et. destruct Hr as [(policy & _ & _ & _ & Hr)|(result & Ht & _)].
  - exact Hr.
  - rewrite Ht in Et. discriminate Et.
Defined.

End ReplaceExample.
