(* ===== verification/Coordinator.v ===== *)
(** The coordinator of [channel broker] (cli/channel_broker.c), and the gate that
    holds receipts back until the broker is ready (cli/output.c).

    The command runs its server on the main thread and the coordinator beside it.
    What the coordinator asks of the server, of the broker and of the operating
    system is the class [CoordSys] on a world that is otherwise unknown; the
    server's thread, which writes receipts meanwhile, acts at every point where
    the coordinator lets it ([let_server]).  A trace that no program reads
    records what becomes visible and what is acquired and released.

    [channel_run_orderly]: the command ends once the server does, and whatever
    the answers it did its work in one order. *)

From S2P Require Import Prelude Common Codec Config Policy Receipt Buffer Server Reactor ConfigFile.

(** [GateOpened] is the state given to the gate; a receipt is named by its
    number. *)
Inductive step_event :=
| ConnectorTaken
| BrokerUp
| ReadyWritten
| GateOpened (state : Z)
| ReceiptWritten (receipt : Z)
| SignalsStarted
| ServerStopped
| SignalsJoined
| BrokerDown
| ConnectorGiven.


Class CoordSys := {
  kworld : Type;
  k_deadline_after : Z -> kworld -> option Z * kworld;
  k_clock : kworld -> option Z * kworld;
  k_server_running : kworld -> bool * kworld;
  k_server_finished : kworld -> bool * kworld;
  k_connector_create : kworld -> maelys_egress_result_t * kworld;
  k_broker_create : bytes -> Z -> Z -> Z -> kworld -> maelys_egress_result_t * kworld;
  k_broker_running : kworld -> bool * kworld;
  k_broker_destroy : kworld -> maelys_egress_result_t * kworld;
  k_thread_create : kworld -> bool * kworld;
  k_server_run : kworld -> maelys_egress_result_t * kworld;
  k_receipts : kworld -> list Z * kworld;
}.

(** The one thing the coordinator's end depends on: the server is not found
    unfinished for ever.  [k_patience] bounds how often it still is. *)
Class CoordLaws `{CoordSys} := {
  k_patience : kworld -> nat;
  k_unfinished w : (k_server_finished w).1 = false -> (k_patience (k_server_finished w).2 < k_patience w)%nat;
  k_quiet_finished w : (k_patience (k_server_finished w).2 <= k_patience w)%nat;
  k_quiet_deadline n w : (k_patience (k_deadline_after n w).2 <= k_patience w)%nat;
  k_quiet_clock w : (k_patience (k_clock w).2 <= k_patience w)%nat;
  k_quiet_running w : (k_patience (k_server_running w).2 <= k_patience w)%nat;
  k_quiet_connector w : (k_patience (k_connector_create w).2 <= k_patience w)%nat;
  k_quiet_create p c h n w : (k_patience (k_broker_create p c h n w).2 <= k_patience w)%nat;
  k_quiet_alive w : (k_patience (k_broker_running w).2 <= k_patience w)%nat;
  k_quiet_destroy w : (k_patience (k_broker_destroy w).2 <= k_patience w)%nat;
  k_quiet_thread w : (k_patience (k_thread_create w).2 <= k_patience w)%nat;
  k_quiet_run w : (k_patience (k_server_run w).2 <= k_patience w)%nat;
  k_quiet_receipts w : (k_patience (k_receipts w).2 <= k_patience w)%nat;
}.

Create HintDb coord.
#[export] Hint Resolve k_quiet_finished k_quiet_deadline k_quiet_clock k_quiet_running k_quiet_connector k_quiet_create
  k_quiet_alive k_quiet_destroy k_quiet_thread k_quiet_run k_quiet_receipts : coord.

Section Coordinator.
Context `{CoordSys}.

(** [gate] is the state of the gate, [held] the receipts the server's thread
    waits to write. *)
Record kstate := KState {
  gate : Z;
  held : list Z;
  the_kworld : kworld;
  steps : list step_event;
}.

#[export] Instance eta_kstate : Eta kstate := fun s => KState (gate s) (held s) (the_kworld s) (steps s).

Definition K (A : Type) : Type := kstate -> A * kstate.

#[export] Instance K_ret : MRet K := fun A a s => (a, s).
#[export] Instance K_bind : MBind K := fun A C f x s => let '(a, s') := x s in f a s'.

Definition kask {A} (f : kworld -> A * kworld) : K A := fun s =>
  let '(a, w) := f (the_kworld s) in (a, s <| the_kworld := w |>).
Definition happen (e : step_event) : K unit := fun s => (tt, s <| steps := e :: steps s |>).

(** * The gate (cli/output.c) *)

(** [egress_cli_receipt_sink] on the receipts held: it waits while the gate is
    closed, and writes or drops them by its state. *)
Definition egress_cli_receipt_sink : K unit := fun s =>
  (tt, if gate s =? 0 then s
       else if 0 <? gate s then s <| held := [] |> <| steps := rev (map ReceiptWritten (held s)) ++ steps s |>
       else s <| held := [] |>).

(** The server's thread, with the receipts it emits meanwhile. *)
Definition let_server : K unit :=
  receipts ← kask k_receipts;
  (fun s => (tt, s <| held := held s ++ receipts |>));;
  egress_cli_receipt_sink.

Definition egress_cli_output_gate_open (state : Z) : K unit :=
  (fun s => (tt, s <| gate := state |>));;
  happen (GateOpened state).

(** * [channel broker] *)

(** The wait for the server, a round per unit of fuel: [None] when the fuel is
    out, and whether the server runs. *)
Fixpoint await_server (rounds : nat) (deadline : Z) : K (option bool) :=
  match rounds with
  | O => mret None
  | S rounds =>
      let_server;;
      running ← kask k_server_running;
      if running : bool then mret (Some true)
      else
        finished ← kask k_server_finished;
        if finished : bool then mret (Some false)
        else
          now ← kask k_clock;
          match now with
          | None => mret (Some false)
          | Some now => if deadline <=? now then mret (Some false) else await_server rounds deadline
          end
  end.

(** [!atomic_load(&command->server_finished) && maelys_egress_server_is_running(server)] *)
Definition still_serving : K bool :=
  finished ← kask k_server_finished;
  if finished : bool then mret false else kask k_server_running.

(** The watch over the broker: the result the loop leaves, [None] when the fuel
    is out. *)
Fixpoint watch_broker (rounds : nat) : K (option maelys_egress_result_t) :=
  match rounds with
  | O => mret None
  | S rounds =>
      let_server;;
      running ← still_serving;
      if negb running then mret (Some MAELYS_EGRESS_OK)
      else
        alive ← kask k_broker_running;
        if alive : bool then watch_broker rounds
        else
          running ← still_serving;
          mret (Some (if running : bool then MAELYS_EGRESS_ERR_IO else MAELYS_EGRESS_OK))
  end.

(** What the coordinator holds when it goes to [done]. *)
Record command := Command {
  c_result : maelys_egress_result_t;
  c_ready : bool;
  c_connector : bool;
  c_broker : bool;
  c_signals : bool;
}.

Definition serve_channels (rounds : nat) (s : settings) : K (option command) :=
  deadline ← kask (k_deadline_after 5000);
  match deadline with
  | None => mret (Some (Command MAELYS_EGRESS_ERR_STATE false false false false))
  | Some deadline =>
      running ← await_server rounds deadline;
      match running with
      | None => mret None
      | Some false => mret (Some (Command MAELYS_EGRESS_ERR_STATE false false false false))
      | Some true =>
          result ← kask k_connector_create;
          if negb (bool_decide (result = MAELYS_EGRESS_OK)) then mret (Some (Command result false false false false))
          else
            happen ConnectorTaken;;
            result ← kask (k_broker_create (default [] (Settings.channel_listen_unix s))
                             (Settings.channel_connect_timeout_ms s) (Settings.channel_handshake_timeout_ms s)
                             (Settings.channel_max_clients s));
            if negb (bool_decide (result = MAELYS_EGRESS_OK)) then mret (Some (Command result false true false false))
            else
              happen BrokerUp;;
              let_server;;
              happen ReadyWritten;;
              let_server;;
              egress_cli_output_gate_open 1;;
              let_server;;
              started ← kask k_thread_create;
              if negb started then mret (Some (Command MAELYS_EGRESS_ERR_MEMORY true true true false))
              else
                happen SignalsStarted;;
                result ← watch_broker rounds;
                mret (match result with
                      | None => None
                      | Some result => Some (Command result true true true true)
                      end)
      end
  end.

(** From [done] on. *)
Definition conclude (c : command) : K maelys_egress_result_t :=
  (if c_ready c then mret tt else egress_cli_output_gate_open (-1));;
  let_server;;
  happen ServerStopped;;
  (if c_signals c then happen SignalsJoined else mret tt);;
  cleanup ← (if c_broker c then cleanup ← kask k_broker_destroy; happen BrokerDown;; mret cleanup
             else mret MAELYS_EGRESS_OK);
  (if c_connector c then happen ConnectorGiven else mret tt);;
  mret (if bool_decide (c_result c = MAELYS_EGRESS_OK) && negb (bool_decide (cleanup = MAELYS_EGRESS_OK))
        then cleanup else c_result c).

(** The coordinator's thread: its result and whether the broker was ready. *)
Definition broker_command_main (rounds : nat) (s : settings) : K (option (maelys_egress_result_t * bool)) :=
  c ← serve_channels rounds s;
  match c with
  | None => mret None
  | Some c => result ← conclude c; mret (Some (result, c_ready c))
  end.

(** The status of the command: -1 when nothing was started, 1 for a failure
    already reported.  The server's result is that of the main thread. *)
Definition egress_cli_channel_run (rounds : nat) (s : settings) : K (option Z) :=
  created ← kask k_thread_create;
  if negb created then egress_cli_output_gate_open (-1);; mret (Some (-1))
  else
    outcome ← broker_command_main rounds s;
    match outcome with
    | None => mret None
    | Some (command_result, command_ready) =>
        result ← kask k_server_run;
        let result := if bool_decide (command_result = MAELYS_EGRESS_OK) then result else command_result in
        let status := if bool_decide (result = MAELYS_EGRESS_OK) then 0 else 1 in
        mret (Some (if command_ready : bool then status else -1))
    end.

(** * Reasoning *)

Definition kwp {A} (x : K A) (s : kstate) (P : A -> kstate -> Prop) : Prop := let '(a, s') := x s in P a s'.

Lemma kwp_bind {A C} (x : K A) (f : A -> K C) s (P : C -> kstate -> Prop) :
  kwp x s (fun a s' => kwp (f a) s' P) -> kwp (x ≫= f) s P.
Proof. unfold kwp, mbind, K_bind. by destruct (x s). Qed.

Lemma kwp_ret {A} (a : A) s (P : A -> kstate -> Prop) : P a s -> kwp (mret a) s P.
Proof. done. Qed.

Lemma kwp_mono {A} (x : K A) s (P Q : A -> kstate -> Prop) :
  kwp x s P -> (forall a s', P a s' -> Q a s') -> kwp x s Q.
Proof. unfold kwp. destruct (x s). auto. Qed.

(** The state of the gate that a trace leaves, and a trace in which receipts are
    written while it is open only. *)
Fixpoint last_gate (t : list step_event) : Z :=
  match t with
  | [] => 0
  | GateOpened g :: _ => g
  | _ :: t => last_gate t
  end.

Fixpoint gated (t : list step_event) : Prop :=
  match t with
  | [] => True
  | ReceiptWritten _ :: t => 0 < last_gate t /\ gated t
  | _ :: t => gated t
  end.

Definition is_receipt (e : step_event) : bool := match e with ReceiptWritten _ => true | _ => false end.

(** What a trace says besides the receipts, in the order it happened. *)
Definition visible (t : list step_event) : list step_event := rev (List.filter (fun e => negb (is_receipt e)) t).

Context {Klaws : CoordLaws}.

(** What has happened, and how often the server may still be found unfinished. *)
Record orderly (l : list step_event) (m : nat) (s : kstate) : Prop := {
  or_gate : gate s = last_gate (steps s);
  or_gated : gated (steps s);
  or_visible : visible (steps s) = l;
  or_patience : (k_patience (the_kworld s) <= m)%nat;
}.

Lemma orderly_le l m m' s : orderly l m s -> (m <= m')%nat -> orderly l m' s.
Proof. intros [] ?. split; try done. lia. Qed.

Lemma receipts_gated rs t : 0 < last_gate t -> gated t ->
  gated (map ReceiptWritten rs ++ t) /\ last_gate (map ReceiptWritten rs ++ t) = last_gate t /\
  visible (map ReceiptWritten rs ++ t) = visible t.
Proof.
  intros Hg Ht. induction rs as [|r rs (IH1 & IH2 & IH3)]; [done|]. simpl. rewrite IH2.
  split_and!; [done|done|done|exact IH3].
Qed.

Lemma kwp_ask {A} l m (f : kworld -> A * kworld) s (P : A -> kstate -> Prop) :
  (forall w, k_patience (f w).2 <= k_patience w)%nat ->
  orderly l m s -> (forall a s', orderly l m s' -> P a s') -> kwp (kask f) s P.
Proof.
  unfold kwp, kask. intros Hf [] HP. specialize (Hf (the_kworld s)). destruct (f _) as [a w]. apply HP.
  split; simpl in *; try done. lia.
Qed.

(** An unfinished server leaves less patience. *)
Lemma kwp_finished l m s (P : bool -> kstate -> Prop) :
  orderly l m s -> (forall s', orderly l m s' -> P true s') ->
  (forall m' s', (m' < m)%nat -> orderly l m' s' -> P false s') -> kwp (kask k_server_finished) s P.
Proof.
  unfold kwp, kask. intros [] Ht Hf. pose proof (k_unfinished (the_kworld s)). pose proof (k_quiet_finished (the_kworld s)).
  destruct (k_server_finished _) as [[] w]; simpl in *.
  - apply Ht. split; simpl; try done. lia.
  - specialize (H0 eq_refl). apply (Hf (k_patience w)); [lia|]. by split.
Qed.

Lemma kwp_let_server l m s (P : unit -> kstate -> Prop) :
  orderly l m s -> (forall s', orderly l m s' -> P tt s') -> kwp let_server s P.
Proof.
  intros Ho HP. unfold let_server. apply kwp_bind. eapply kwp_ask; [auto with coord|exact Ho|]. intros rs s1 [Hg Ht Hv Hm].
  apply kwp_bind. unfold kwp, egress_cli_receipt_sink. apply HP. simpl.
  destruct (Z.eqb_spec (gate s1) 0); [by split|]. destruct (Z.ltb_spec 0 (gate s1)); [|by split].
  rewrite <-map_rev. destruct (receipts_gated (rev (held s1 ++ rs)) (steps s1)) as (H1 & H2 & H3); [lia|done|].
  split; simpl; [by rewrite H2|done|by rewrite H3|done].
Qed.

Lemma kwp_happen l m e s (P : unit -> kstate -> Prop) :
  orderly l m s -> match e with GateOpened _ | ReceiptWritten _ => False | _ => True end ->
  (forall s', orderly (l ++ [e]) m s' -> P tt s') -> kwp (happen e) s P.
Proof.
  intros [Hg Ht Hv Hm] He HP. unfold kwp, happen. apply HP.
  split; destruct e; try done; simpl; unfold visible in *; simpl; by rewrite Hv.
Qed.

Lemma kwp_when (b : bool) l m e s (P : unit -> kstate -> Prop) :
  orderly l m s -> match e with GateOpened _ | ReceiptWritten _ => False | _ => True end ->
  (forall s', orderly (l ++ if b then [e] else []) m s' -> P tt s') -> kwp (if b then happen e else mret tt) s P.
Proof.
  intros Ho He HP. destruct b; [by eapply kwp_happen|]. apply kwp_ret, HP. by rewrite app_nil_r.
Qed.

Lemma kwp_gate l m g s (P : unit -> kstate -> Prop) :
  orderly l m s -> (forall s', orderly (l ++ [GateOpened g]) m s' -> P tt s') -> kwp (egress_cli_output_gate_open g) s P.
Proof.
  intros [Hg Ht Hv Hm] HP. unfold egress_cli_output_gate_open. apply kwp_bind. unfold kwp, happen. apply HP.
  split; simpl; [done|done| |done]. unfold visible in *. simpl. by rewrite Hv.
Qed.

Ltac ask Ho := apply kwp_bind; eapply kwp_ask; [solve [auto with coord]|exact Ho|]; clear Ho.

Lemma kwp_await l rounds deadline m s :
  orderly l m s -> (m < rounds)%nat ->
  kwp (await_server rounds deadline) s (fun r s' => is_Some r /\ orderly l m s').
Proof.
  revert m s. induction rounds as [|rounds IH]; intros m s Ho Hm; [lia|]. cbn [await_server].
  apply kwp_bind. eapply kwp_let_server; [exact Ho|]. intros s1 H1.
  ask H1. intros [] s2 H2; [by apply kwp_ret|].
  apply kwp_bind. eapply kwp_finished; [exact H2|intros; by apply kwp_ret|]. intros m3 s3 Hm3 H3.
  ask H3. intros [now|] s4 H4; [|by apply kwp_ret; split; [|eapply orderly_le; [exact H4|lia]]].
  destruct (deadline <=? now); [by apply kwp_ret; split; [|eapply orderly_le; [exact H4|lia]]|].
  eapply kwp_mono; [apply (IH m3); [exact H4|lia]|]. intros r s5 [Hr H5]. split; [exact Hr|].
  eapply orderly_le; [exact H5|lia].
Qed.

Lemma kwp_still_serving l m s (P : bool -> kstate -> Prop) :
  orderly l m s -> (forall s', orderly l m s' -> P false s') ->
  (forall m' s', (m' < m)%nat -> orderly l m' s' -> P true s') -> kwp still_serving s P.
Proof.
  intros Ho Hf Ht. apply kwp_bind. eapply kwp_finished; [exact Ho|intros; by apply kwp_ret, Hf|]. intros m1 s1 Hm1 H1.
  eapply kwp_ask; [auto with coord|exact H1|]. intros [] s2 H2; [by eapply Ht|].
  apply Hf. eapply orderly_le; [exact H2|lia].
Qed.

Lemma kwp_watch l rounds m s :
  orderly l m s -> (m < rounds)%nat -> kwp (watch_broker rounds) s (fun r s' => is_Some r /\ orderly l m s').
Proof.
  revert m s. induction rounds as [|rounds IH]; intros m s Ho Hm; [lia|]. cbn [watch_broker].
  apply kwp_bind. eapply kwp_let_server; [exact Ho|]. intros s1 H1.
  apply kwp_bind. eapply kwp_still_serving; [exact H1|intros; by apply kwp_ret|]. intros m2 s2 Hm2 H2. cbn [negb].
  ask H2. intros [] s3 H3.
  - eapply kwp_mono; [apply (IH m2); [exact H3|lia]|]. intros r s4 [Hr H4]. split; [exact Hr|].
    eapply orderly_le; [exact H4|lia].
  - apply kwp_bind. eapply kwp_still_serving; [exact H3| |].
    + intros s4 H4. apply kwp_ret. split; [done|]. eapply orderly_le; [exact H4|lia].
    + intros m4 s4 Hm4 H4. apply kwp_ret. split; [done|]. eapply orderly_le; [exact H4|lia].
Qed.

(** What the coordinator has done when it goes to [done], by what it holds. *)
Definition acquired (c : command) : list step_event :=
  (if c_connector c then [ConnectorTaken] else []) ++ (if c_broker c then [BrokerUp] else []) ++
  (if c_ready c then [ReadyWritten; GateOpened 1] else []) ++ (if c_signals c then [SignalsStarted] else []).

(** The events from [done] on. *)
Definition concluded (c : command) : list step_event :=
  (if c_ready c then [] else [GateOpened (-1)]) ++ [ServerStopped] ++
  (if c_signals c then [SignalsJoined] else []) ++ (if c_broker c then [BrokerDown] else []) ++
  (if c_connector c then [ConnectorGiven] else []).

(** A broker is ready exactly when it was created, which takes a connector; the
    signal waiter starts after that. *)
Definition command_ok (c : command) : Prop :=
  c_ready c = c_broker c /\ (c_broker c = true -> c_connector c = true) /\ (c_signals c = true -> c_ready c = true) /\
  (c_result c = MAELYS_EGRESS_OK -> c_signals c = true).

Lemma serve_channels_ok rounds cfg m s :
  orderly [] m s -> (m < rounds)%nat ->
  kwp (serve_channels rounds cfg) s (fun c s' => exists c', c = Some c' /\ command_ok c' /\ orderly (acquired c') m s').
Proof.
  intros Ho Hm. unfold serve_channels. ask Ho. intros [deadline|] s1 H1; [|apply kwp_ret; by eexists].
  apply kwp_bind. eapply kwp_mono; [eapply kwp_await; [exact H1|exact Hm]|]. intros ? s2 [[[] ->] H2]; [|apply kwp_ret; by eexists].
  ask H2. intros result s3 H3.
  destruct (bool_decide_reflect (result = MAELYS_EGRESS_OK)) as [->|Hne]; cbn [negb]; [|apply kwp_ret; by eexists].
  apply kwp_bind. eapply kwp_happen; [exact H3|done|]. intros s4 H4. ask H4. intros result s5 H5.
  destruct (bool_decide_reflect (result = MAELYS_EGRESS_OK)) as [->|Hne]; cbn [negb]; [|apply kwp_ret; by eexists].
  apply kwp_bind. eapply kwp_happen; [exact H5|done|]. intros s6 H6.
  apply kwp_bind. eapply kwp_let_server; [exact H6|]. intros s7 H7.
  apply kwp_bind. eapply kwp_happen; [exact H7|done|]. intros s8 H8.
  apply kwp_bind. eapply kwp_let_server; [exact H8|]. intros s9 H9.
  apply kwp_bind. eapply kwp_gate; [exact H9|]. intros s10 H10.
  apply kwp_bind. eapply kwp_let_server; [exact H10|]. intros s11 H11.
  ask H11. intros [] s12 H12; cbn [negb]; [|apply kwp_ret; by eexists].
  apply kwp_bind. eapply kwp_happen; [exact H12|done|]. intros s13 H13.
  apply kwp_bind. eapply kwp_mono; [eapply kwp_watch; [exact H13|exact Hm]|]. intros ? s14 [[result ->] H14]. apply kwp_ret. by eexists.
Qed.

Lemma conclude_ok c l m s :
  orderly l m s ->
  kwp (conclude c) s (fun r s' => orderly (l ++ concluded c) m s' /\ (r = MAELYS_EGRESS_OK -> c_result c = MAELYS_EGRESS_OK)).
Proof.
  intros Ho. unfold conclude. apply kwp_bind.
  apply (kwp_mono _ _ (fun _ s' => orderly (l ++ if c_ready c then [] else [GateOpened (-1)]) m s')).
  { destruct (c_ready c); [rewrite app_nil_r; done|]. by eapply kwp_gate. }
  intros [] s1 H1. apply kwp_bind. eapply kwp_let_server; [exact H1|]. intros s2 H2.
  apply kwp_bind. eapply kwp_happen; [exact H2|done|]. intros s3 H3.
  apply kwp_bind. eapply kwp_when; [exact H3|done|]. intros s4 H4. apply kwp_bind.
  match type of H4 with orderly ?l4 _ _ =>
    apply (kwp_mono _ _ (fun _ s' => orderly (l4 ++ if c_broker c then [BrokerDown] else []) m s')) end.
  { destruct (c_broker c); [|rewrite app_nil_r; exact H4].
    ask H4. intros r s5 H5. apply kwp_bind. by eapply kwp_happen. }
  intros cleanup s5 H5. apply kwp_bind. eapply kwp_when; [exact H5|done|]. intros s6 H6. apply kwp_ret.
  split; [by rewrite <-!app_assoc in H6|]. intros E.
  destruct (bool_decide_reflect (c_result c = MAELYS_EGRESS_OK)); [done|]. exact E.
Qed.

(** The coordinator's thread that ends. *)
Lemma broker_command_ok rounds cfg m s :
  orderly [] m s -> (m < rounds)%nat ->
  kwp (broker_command_main rounds cfg) s (fun o s' => exists c r, o = Some (r, c_ready c) /\ command_ok c /\
    orderly (acquired c ++ concluded c) m s' /\ (r = MAELYS_EGRESS_OK -> c_signals c = true)).
Proof.
  intros Ho Hm. apply kwp_bind. eapply kwp_mono; [by eapply serve_channels_ok|]. intros ? s1 (c & -> & Hc & H1).
  apply kwp_bind. eapply kwp_mono; [by eapply conclude_ok|]. intros r s2 [H2 Hr].
  apply kwp_ret. exists c, r. split_and!; try done. intros Er. by apply Hc, Hr.
Qed.

(** C27: provided the server is not found unfinished for ever, [channel broker]
    ends, and however the server, the broker and the threads behave it has done
    its work in one order.  Readiness is published once the broker listens and
    before any receipt is written; receipts get through from then on only, and
    are dropped when the broker never came up.  The server is asked to stop on
    every path; then the signal waiter is joined, the broker destroyed and the
    connector released, in that order, each if and only if it was acquired.  The
    command reports that nothing was started exactly when readiness was not
    published, and success only when the signal waiter ran. *)
Theorem channel_run_orderly rounds cfg s :
  gate s = 0 -> steps s = [] -> (k_patience (the_kworld s) < rounds)%nat ->
  exists status s', egress_cli_channel_run rounds cfg s = (Some status, s') /\ gated (steps s') /\
    (visible (steps s') = [GateOpened (-1)] /\ status = -1 \/
     exists c, command_ok c /\ visible (steps s') = acquired c ++ concluded c /\
       (status = -1 <-> c_ready c = false) /\ (status = 0 -> c_signals c = true)).
Proof.
  intros Hg Hs Hm. assert (Ho : orderly [] (k_patience (the_kworld s)) s) by (split; rewrite ?Hs; done).
  assert (W : kwp (egress_cli_channel_run rounds cfg) s (fun o s' => exists status, o = Some status /\ gated (steps s') /\
    (visible (steps s') = [GateOpened (-1)] /\ status = -1 \/
     exists c, command_ok c /\ visible (steps s') = acquired c ++ concluded c /\
       (status = -1 <-> c_ready c = false) /\ (status = 0 -> c_signals c = true)))).
  { unfold egress_cli_channel_run. ask Ho. intros [] s1 H1; cbn [negb].
    - apply kwp_bind. eapply kwp_mono; [by eapply broker_command_ok|]. intros ? s2 (c & r & -> & Hc & H2 & Hr).
      ask H2. intros result s3 [_ Hgated Hv _]. apply kwp_ret. eexists. split_and!; [done|done|]. right. exists c.
      destruct (c_ready c), (bool_decide_reflect (r = MAELYS_EGRESS_OK)); split_and!; try done; try case_bool_decide; naive_solver.
    - apply kwp_bind. eapply kwp_gate; [exact H1|]. intros s2 [_ Hgated Hv _]. apply kwp_ret. by eexists; auto. }
  unfold kwp in W. destruct (egress_cli_channel_run rounds cfg s) as [o s']. destruct W as (status & -> & W).
  by exists status, s'.
Qed.

End Coordinator.

(** A server that is seen unfinished [n] times, emits a receipt whenever it
    acts, and whose broker comes up. *)
#[local] Instance example_coord : CoordSys := {|
  kworld := nat;
  k_deadline_after n w := (Some n, w);
  k_clock w := (Some 1, w);
  k_server_running w := (true, w);
  k_server_finished w := match w with O => (true, O) | S w => (false, w) end;
  k_connector_create w := (MAELYS_EGRESS_OK, w);
  k_broker_create _ _ _ _ w := (MAELYS_EGRESS_OK, w);
  k_broker_running w := (true, w);
  k_broker_destroy w := (MAELYS_EGRESS_OK, w);
  k_thread_create w := (true, w);
  k_server_run w := (MAELYS_EGRESS_OK, w);
  k_receipts w := ([Z.of_nat w], w);
|}.

#[local] Instance example_coord_laws : @CoordLaws example_coord.
Proof.
  refine (@Build_CoordLaws example_coord (fun w => w) _ _ _ _ _ _ _ _ _ _ _ _); try done; intros []; simpl; try done; lia.
Defined.

Definition example_kstate : kstate := KState 0 [] (2%nat : @kworld example_coord) [].

(** The receipts of the example: those held while the broker came up follow
    readiness. *)
Example example_course :
  rev (steps (egress_cli_channel_run 3 initial_settings example_kstate).2) =
  [ConnectorTaken; BrokerUp; ReadyWritten; GateOpened 1; ReceiptWritten 2; ReceiptWritten 2; ReceiptWritten 2;
   ReceiptWritten 2; SignalsStarted; ReceiptWritten 2; ReceiptWritten 1; ReceiptWritten 0; ReceiptWritten 0; ServerStopped; SignalsJoined;
   BrokerDown; ConnectorGiven].
Proof. vm_compute. reflexivity. Qed.

Lemma channel_run_orderly_witness :
  exists status s', egress_cli_channel_run 3 initial_settings example_kstate = (Some status, s') /\ gated (steps s') /\
    (visible (steps s') = [GateOpened (-1)] /\ status = -1 \/
     exists c, command_ok c /\ visible (steps s') = acquired c ++ concluded c /\
       (status = -1 <-> c_ready c = false) /\ (status = 0 -> c_signals c = true)).
Proof. exact (channel_run_orderly 3 initial_settings example_kstate eq_refl eq_refl (le_n 3)). Defined.
