(* ===== verification/ChannelExec.v ===== *)
(** [channel exec] (cli/channel_exec.c): one server without a listener, one
    channel, one program that inherits the channel's client end, and that
    program's exit status.

    Two threads share the command.  The owner thread runs the server and, when it
    returns, looks whether the coordinator asked for that stop and whether the
    program was started; the coordinator starts the program and waits for it.
    [owner_step] is one step of the owner, [let_owner] lets it take any number
    of them between two steps of the coordinator.  What they ask of the server,
    of the channel, of the framework that starts processes and of the operating
    system is the class [ExecSys].

    [channel_exec_exact]: the command ends, in one order, with the program's
    status and a word to the operator exactly when the server stopped by itself. *)

From S2P Require Import Prelude Common Codec Config Policy Receipt Buffer Server Reactor ConfigFile.

(** What is acquired, released and said.  [overlay] is what the environment gets
    besides the launcher's own; the status of an ended program is [None] when it
    could not be waited for. *)
Inductive exec_event :=
| TakeConnector
| OpenChannel (client_fd : Z)
| StartProgram (argv overlay : list bytes) (client_fd target_fd : Z) (by_path : bool)
| CloseClient (client_fd : Z)
| StartSignals
| NoSignals
| EndProgram (status : option Z)
| JoinSignals
| AnnounceStop
| StopServer
| ReleaseProgram
| OwnerLooks
| TellOperator
| DestroyChannel
| ReleaseConnector.

Inductive exec_error :=
| NoClock
| ServerNotStarted
| NoChannel (r : maelys_egress_result_t)
| NoEnvironment
| CannotStart
| NoCoordinator
| ServerFailed (r : maelys_egress_result_t).

(** [x_environment_append] adds an assignment to an overlay, [x_envp] builds the
    environment from it; [x_process_wait] gives the exit code of the program;
    [x_owner_steps] how far the owner thread gets. *)
Class ExecSys := {
  xworld : Type;
  x_deadline_after : Z -> xworld -> option Z * xworld;
  x_clock : xworld -> option Z * xworld;
  x_pause : xworld -> xworld;
  x_server_running : xworld -> bool * xworld;
  x_server_run : xworld -> maelys_egress_result_t * xworld;
  x_connector_create : xworld -> maelys_egress_result_t * xworld;
  x_channel_create : Z -> xworld -> (maelys_egress_result_t * Z) * xworld;
  x_environment_append : bytes -> xworld -> bool * xworld;
  x_envp : list bytes -> xworld -> bool * xworld;
  x_process_start : list bytes -> list bytes -> Z -> Z -> bool -> xworld -> bool * xworld;
  x_thread_create : xworld -> bool * xworld;
  x_process_wait : xworld -> option Z * xworld;
  x_owner_steps : xworld -> nat * xworld;
}.

(** The clock does not go back, a deadline is at most as far as asked, and a
    pause of ten milliseconds takes that long.  [x_now] is the time of a world. *)
Class ExecLaws `{ExecSys} := {
  x_now : xworld -> Z;
  x_clock_law w : x_now w <= x_now (x_clock w).2 /\ forall t, (x_clock w).1 = Some t -> x_now w <= t;
  x_deadline_law n w : forall d, (x_deadline_after n w).1 = Some d -> d <= x_now (x_deadline_after n w).2 + n;
  x_pause_law w : x_now w + 10 <= x_now (x_pause w);
  x_onward_running w : x_now w <= x_now (x_server_running w).2;
  x_onward_run w : x_now w <= x_now (x_server_run w).2;
  x_onward_owner w : x_now w <= x_now (x_owner_steps w).2;
}.

Section Exec.
Context `{ExecSys}.

(** MAELYS_CLI_EXIT_FAILURE of the framework. *)
Context (EXIT_FAILURE : Z).

(** Where the owner thread is: in the server, after it, after it looked whether
    the stop was asked for, and at the join with whether it told the operator. *)
Inductive owner_phase :=
| Serving
| Returned (r : maelys_egress_result_t)
| Looked (r : maelys_egress_result_t) (alone : bool)
| AtJoin (r : maelys_egress_result_t) (alone told : bool).

(** The shared command, the exit status it fills in and the owner thread. *)
Record exec_command := ExecCommand {
  exec_started : bool;
  exec_exit_code : Z;
  error : option exec_error;
  connector : bool;
  channel : bool;
  started : bool;
  finished : bool;
  server_finished : bool;
  owner : owner_phase;
  the_xworld : xworld;
  happened : list exec_event;
}.

#[export] Instance eta_exec_command : Eta exec_command := fun x =>
  ExecCommand (exec_started x) (exec_exit_code x) (error x) (connector x) (channel x) (started x) (finished x)
    (server_finished x) (owner x) (the_xworld x) (happened x).

Definition X (A : Type) : Type := exec_command -> A * exec_command.

#[export] Instance X_ret : MRet X := fun A a x => (a, x).
#[export] Instance X_bind : MBind X := fun A C f m x => let '(a, x') := m x in f a x'.

Definition xask {A} (f : xworld -> A * xworld) : X A := fun x =>
  let '(a, w) := f (the_xworld x) in (a, x <| the_xworld := w |>).
Definition xget {A} (f : exec_command -> A) : X A := fun x => (f x, x).
Definition xset (f : exec_command -> exec_command) : X unit := fun x => (tt, f x).
Definition happens (e : exec_event) : X unit := xset (fun x => x <| happened := e :: happened x |>).
Definition error_set (e : exec_error) : X unit := xset (fun x => x <| error := Some e |>).

(** * The owner thread, up to the join *)

Definition owner_step : X unit :=
  phase ← xget owner;
  match phase with
  | Serving =>
      result ← xask x_server_run;
      xset (fun x => x <| server_finished := true |> <| owner := Returned result |>)
  | Returned result =>
      happens OwnerLooks;;
      xset (fun x => x <| owner := Looked result (negb (finished x)) |>)
  | Looked result alone =>
      told ← xget (fun x => alone && started x);
      (if told : bool then happens TellOperator else mret tt);;
      xset (fun x => x <| owner := AtJoin result alone told |>)
  | AtJoin _ _ _ => mret tt
  end.

Fixpoint owner_steps (n : nat) : X unit :=
  match n with
  | O => mret tt
  | S n => owner_step;; owner_steps n
  end.

Definition let_owner : X unit := n ← xask x_owner_steps; owner_steps n.

(** * The coordinator *)

(** [snprintf] into a buffer of 96 bytes. *)
Definition assignment (text : bytes) : bytes := ztake 95 text.

Definition channel_fd_text (s : settings) : bytes :=
  str "MAELYS_EGRESS_CHANNEL_FD=" ++ decimal (Settings.channel_fd s).
Definition connect_timeout_text (s : settings) : bytes :=
  str "MAELYS_EGRESS_CHANNEL_CONNECT_TIMEOUT_MS=" ++ decimal (Settings.channel_connect_timeout_ms s).

Definition program_environment (s : settings) : X (option (list bytes)) :=
  let fd_text := assignment (channel_fd_text s) in
  let timeout_text := assignment (connect_timeout_text s) in
  appended ← xask (x_environment_append fd_text);
  if negb appended then mret None
  else
    appended ← xask (x_environment_append timeout_text);
    if negb appended then mret None
    else
      built ← xask (x_envp [fd_text; timeout_text]);
      mret (if built : bool then Some [fd_text; timeout_text] else None).

(** The wait for the server: [None] when the fuel is out, and whether it runs. *)
Fixpoint wait_server (rounds : nat) (deadline : Z) : X (option bool) :=
  match rounds with
  | O => mret None
  | S rounds =>
      let_owner;;
      running ← xask x_server_running;
      if running : bool then mret (Some true)
      else
        over ← xget server_finished;
        if over : bool then mret (Some false)
        else
          now ← xask x_clock;
          match now with
          | None => mret (Some false)
          | Some now =>
              if deadline <=? now then mret (Some false)
              else xset (fun x => x <| the_xworld := x_pause (the_xworld x) |>);; wait_server rounds deadline
          end
  end.

(** The connector and the channel: the client end. *)
Definition make_channel (s : settings) : X (option Z) :=
  result ← xask x_connector_create;
  if negb (bool_decide (result = MAELYS_EGRESS_OK)) then error_set (NoChannel result);; mret None
  else
    happens TakeConnector;; xset (fun x => x <| connector := true |>);;
    made ← xask (x_channel_create (Settings.channel_connect_timeout_ms s));
    let '(result, fd) := made in
    if negb (bool_decide (result = MAELYS_EGRESS_OK)) then error_set (NoChannel result);; mret None
    else happens (OpenChannel fd);; xset (fun x => x <| channel := true |>);; mret (Some fd).

(** What the coordinator holds when it goes to [done]. *)
Record holding := Holding {
  h_client_fd : option Z;
  h_program : bool;
  h_signals : bool;
}.

(** The program, from its start to its end. *)
Definition run_program (s : settings) (argv overlay : list bytes) (client_fd : Z) : X holding :=
  begun ← xask (x_process_start argv overlay client_fd (Settings.channel_fd s) (Settings.channel_exec_by_path s));
  if negb begun then error_set CannotStart;; mret (Holding (Some client_fd) false false)
  else
    happens (StartProgram argv overlay client_fd (Settings.channel_fd s) (Settings.channel_exec_by_path s));;
    let_owner;;
    happens (CloseClient client_fd);;
    xset (fun x => x <| exec_started := true |>);;
    let_owner;;
    xset (fun x => x <| started := true |>);;
    let_owner;;
    signals ← xask x_thread_create;
    (if signals : bool then happens StartSignals else happens NoSignals);;
    let_owner;;
    status ← xask x_process_wait;
    happens (EndProgram status);;
    xset (fun x => x <| exec_exit_code := default EXIT_FAILURE status |>);;
    mret (Holding None true signals).

Definition launch (rounds : nat) (s : settings) (argv : list bytes) : X (option holding) :=
  deadline ← xask (x_deadline_after 5000);
  match deadline with
  | None => error_set NoClock;; mret (Some (Holding None false false))
  | Some deadline =>
      running ← wait_server rounds deadline;
      match running with
      | None => mret None
      | Some false => error_set ServerNotStarted;; mret (Some (Holding None false false))
      | Some true =>
          client ← make_channel s;
          match client with
          | None => mret (Some (Holding None false false))
          | Some fd =>
              let_owner;;
              envp ← program_environment s;
              match envp with
              | None => error_set NoEnvironment;; mret (Some (Holding (Some fd) false false))
              | Some overlay => h ← run_program s argv overlay fd; mret (Some h)
              end
          end
      end
  end.

(** From [done] on. *)
Definition wind_up (h : holding) : X unit :=
  let_owner;;
  (if h_signals h then happens JoinSignals else mret tt);;
  let_owner;;
  happens AnnounceStop;; xset (fun x => x <| finished := true |>);;
  let_owner;;
  happens StopServer;;
  let_owner;;
  (match h_client_fd h with Some fd => happens (CloseClient fd) | None => mret tt end);;
  (if h_program h then happens ReleaseProgram else mret tt).

Definition exec_command_main (rounds : nat) (s : settings) (argv : list bytes) : X (option unit) :=
  h ← launch rounds s argv;
  match h with
  | None => mret None
  | Some h => wind_up h;; mret (Some tt)
  end.

(** * The owner thread from the join on *)

Definition after_join (r : maelys_egress_result_t) (alone told : bool) : X Z :=
  begun ← xget exec_started;
  (if begun && alone && negb told then happens TellOperator else mret tt);;
  has_channel ← xget channel;
  (if has_channel : bool then happens DestroyChannel else mret tt);;
  has_connector ← xget connector;
  (if has_connector : bool then happens ReleaseConnector else mret tt);;
  if begun : bool then mret 0
  else (if bool_decide (r = MAELYS_EGRESS_OK) then mret tt else error_set (ServerFailed r));; mret (-1).

(** The status of the command; the owner reaches the join by its three steps. *)
Definition egress_cli_exec_run (rounds : nat) (s : settings) (argv : list bytes) : X (option Z) :=
  xset (fun x => x <| error := None |>);;
  created ← xask x_thread_create;
  if negb created then error_set NoCoordinator;; mret (Some (-1))
  else
    ended ← exec_command_main rounds s argv;
    match ended with
    | None => mret None
    | Some _ =>
        owner_steps 3;;
        phase ← xget owner;
        match phase with
        | AtJoin r alone told => status ← after_join r alone told; mret (Some status)
        | _ => mret None
        end
    end.

(** * Reasoning *)

Definition xwp {A} (m : X A) (x : exec_command) (P : A -> exec_command -> Prop) : Prop := let '(a, x') := m x in P a x'.

Lemma xwp_bind {A C} (m : X A) (f : A -> X C) x (P : C -> exec_command -> Prop) :
  xwp m x (fun a x' => xwp (f a) x' P) -> xwp (m ≫= f) x P.
Proof. unfold xwp, mbind, X_bind. by destruct (m x). Qed.

Lemma xwp_ret {A} (a : A) x (P : A -> exec_command -> Prop) : P a x -> xwp (mret a) x P.
Proof. done. Qed.

Lemma xwp_mono {A} (m : X A) x (P Q : A -> exec_command -> Prop) :
  xwp m x P -> (forall a x', P a x' -> Q a x') -> xwp m x Q.
Proof. unfold xwp. destruct (m x). auto. Qed.

Lemma xwp_and {A} (m : X A) x (P Q : A -> exec_command -> Prop) :
  xwp m x P -> xwp m x Q -> xwp m x (fun a x' => P a x' /\ Q a x').
Proof. unfold xwp. by destruct (m x). Qed.

Definition by_owner (e : exec_event) : bool := match e with OwnerLooks | TellOperator => true | _ => false end.

(** What the coordinator did, in the order it happened; how often the operator
    was told; whether the stop had been announced; and whether the owner looked
    before it was. *)
Definition core (t : list exec_event) : list exec_event := rev (List.filter (fun e => negb (by_owner e)) t).
Definition told (t : list exec_event) : nat :=
  length (List.filter (fun e => match e with TellOperator => true | _ => false end) t).
Definition announced (t : list exec_event) : bool :=
  existsb (fun e => match e with AnnounceStop => true | _ => false end) t.
Fixpoint looked_alone (t : list exec_event) : bool :=
  match t with
  | [] => false
  | OwnerLooks :: t => negb (announced t)
  | _ :: t => looked_alone t
  end.

(** What the coordinator's thread alone writes. *)
Record own := Own {
  o_exec_started : bool;
  o_exit_code : Z;
  o_error : option exec_error;
  o_connector : bool;
  o_channel : bool;
  o_started : bool;
  o_finished : bool;
}.

Definition own_of (x : exec_command) : own :=
  Own (exec_started x) (exec_exit_code x) (error x) (connector x) (channel x) (started x) (finished x).

(** The owner has said nothing before its last step, and then only what it saw. *)
Definition phase_ok (phase : owner_phase) (t : list exec_event) (flag : bool) : Prop :=
  match phase with
  | Serving | Returned _ => told t = 0%nat /\ looked_alone t = false
  | Looked _ alone => told t = 0%nat /\ alone = looked_alone t
  | AtJoin _ alone said =>
      told t = (if said then 1 else 0)%nat /\ alone = looked_alone t /\ (said = true -> alone = true /\ flag = true)
  end.

Record stands (l : list exec_event) (o : own) (x : exec_command) : Prop := {
  st_core : core (happened x) = l;
  st_own : own_of x = o;
  st_finished : finished x = announced (happened x);
  st_started : started x = true -> exec_started x = true;
  st_phase : phase_ok (owner x) (happened x) (started x);
}.

Lemma xwp_ask {A} l o (f : xworld -> A * xworld) x (P : A -> exec_command -> Prop) :
  stands l o x -> (forall a x', stands l o x' -> P a x') -> xwp (xask f) x P.
Proof. unfold xwp, xask. intros [] HP. destruct (f _). apply HP. by split. Qed.

Lemma xwp_happens l o e x (P : unit -> exec_command -> Prop) :
  stands l o x -> match e with OwnerLooks | TellOperator | AnnounceStop => False | _ => True end ->
  (forall x', stands (l ++ [e]) o x' -> P tt x') -> xwp (happens e) x P.
Proof.
  intros [Hc Ho Hf Hs Hp] He HP. unfold xwp, happens, xset. apply HP.
  split; destruct e; try done; simpl; unfold core in *; simpl; by rewrite Hc.
Qed.

Lemma xwp_when (b : bool) l o e x (P : unit -> exec_command -> Prop) :
  stands l o x -> match e with OwnerLooks | TellOperator | AnnounceStop => False | _ => True end ->
  (forall x', stands (l ++ if b then [e] else []) o x' -> P tt x') -> xwp (if b then happens e else mret tt) x P.
Proof.
  intros Hx He HP. destruct b; [by eapply xwp_happens|]. apply xwp_ret, HP. by rewrite app_nil_r.
Qed.

Lemma owner_step_ok l o x : stands l o x -> xwp owner_step x (fun _ x' => stands l o x').
Proof.
  intros [Hc Ho Hf Hs Hp]. unfold owner_step. apply xwp_bind. unfold xwp at 1, xget.
  destruct (owner x) as [|r|r alone|r alone said] eqn:Ephase; cbn [phase_ok] in Hp.
  - apply xwp_bind. unfold xwp, xask. destruct (x_server_run _) as [r w]. by split.
  - destruct Hp as [Ht Hl]. unfold xwp, mbind, X_bind, happens, xset. split; simpl; try done.
    split; [exact Ht|]. by rewrite Hf.
  - destruct Hp as [Ht Hl]. apply xwp_bind. unfold xwp at 1. apply xwp_bind.
    destruct (alone && started x) eqn:Esaid; split; simpl; try done.
    split_and!; [unfold told in *; simpl; by rewrite Ht|done|]. intros _. by apply andb_prop in Esaid.
  - apply xwp_ret. split; try done. by rewrite Ephase.
Qed.

Lemma owner_steps_ok n l o x : stands l o x -> xwp (owner_steps n) x (fun _ x' => stands l o x').
Proof.
  revert x. induction n as [|n IH]; intros x Hx; [done|]. cbn [owner_steps]. apply xwp_bind.
  eapply xwp_mono; [by apply owner_step_ok|]. intros [] x1 H1. by apply IH.
Qed.

Lemma xwp_let_owner l o x (P : unit -> exec_command -> Prop) :
  stands l o x -> (forall x', stands l o x' -> P tt x') -> xwp let_owner x P.
Proof.
  intros Hx HP. apply xwp_bind. eapply xwp_ask; [exact Hx|]. intros n x1 H1.
  eapply xwp_mono; [by apply owner_steps_ok|]. intros []. apply HP.
Qed.

Lemma phase_ok_flag phase t (flag flag' : bool) :
  (flag = true -> flag' = true) -> phase_ok phase t flag -> phase_ok phase t flag'.
Proof. destruct phase; simpl; [done..|]. intros Hf (? & ? & Hs). split_and!; [done..|]. intros E. destruct (Hs E). auto. Qed.

(** A write of the coordinator to its own fields. *)
Lemma xwp_own l o o' f x (P : unit -> exec_command -> Prop) :
  stands l o x ->
  happened (f x) = happened x -> owner (f x) = owner x -> finished (f x) = finished x -> own_of (f x) = o' ->
  (started x = true -> started (f x) = true) -> (started (f x) = true -> exec_started (f x) = true) ->
  (forall x', stands l o' x' -> P tt x') -> xwp (xset f) x P.
Proof.
  intros [Hc Ho Hf Hs Hp] Eh Eo Ef Ew Hst Hex HP. unfold xwp, xset. apply HP.
  split; rewrite ?Eh, ?Ef, ?Eo; try done. eapply phase_ok_flag; [exact Hst|exact Hp].
Qed.

(** The stop is announced in one step. *)
Lemma xwp_announce l a b c d e g h (k : X unit) x (P : unit -> exec_command -> Prop) :
  stands l (Own a b c d e g h) x -> (forall x', stands (l ++ [AnnounceStop]) (Own a b c d e g true) x' -> xwp k x' P) ->
  xwp (happens AnnounceStop;; xset (fun x => x <| finished := true |>);; k) x P.
Proof.
  intros [Hc Ho Hf Hs Hp] HP. apply xwp_bind, xwp_bind. unfold happens. apply HP.
  split; simpl; try done; [unfold core in *; simpl; by rewrite Hc|]. unfold own_of in *. simpl. by injection Ho as -> -> -> -> -> -> _.
Qed.

(** * How far a launch got *)

Inductive progress :=
| Nothing
| OnlyConnector
| ChannelOnly (client_fd : Z)
| Ran (client_fd : Z) (status : option Z) (signals : bool).

Definition overlay (s : settings) : list bytes := [channel_fd_text s; connect_timeout_text s].

(** What was done before [done], after it, and by the owner at last. *)
Definition opening (s : settings) (argv : list bytes) (p : progress) : list exec_event :=
  match p with
  | Nothing => []
  | OnlyConnector => [TakeConnector]
  | ChannelOnly fd => [TakeConnector; OpenChannel fd]
  | Ran fd status signals =>
      [TakeConnector; OpenChannel fd;
       StartProgram argv (overlay s) fd (Settings.channel_fd s) (Settings.channel_exec_by_path s); CloseClient fd;
       (if signals then StartSignals else NoSignals); EndProgram status]
  end.

Definition closing (p : progress) : list exec_event :=
  match p with
  | Ran _ _ true => [JoinSignals; AnnounceStop; StopServer; ReleaseProgram]
  | Ran _ _ false => [AnnounceStop; StopServer; ReleaseProgram]
  | ChannelOnly fd => [AnnounceStop; StopServer; CloseClient fd]
  | _ => [AnnounceStop; StopServer]
  end.

Definition releasing (p : progress) : list exec_event :=
  match p with
  | Nothing => []
  | OnlyConnector => [ReleaseConnector]
  | _ => [DestroyChannel; ReleaseConnector]
  end.

Definition own_at (code : Z) (p : progress) (err : option exec_error) (fin : bool) : own :=
  match p with
  | Nothing => Own false code err false false false fin
  | OnlyConnector => Own false code err true false false fin
  | ChannelOnly _ => Own false code err true true false fin
  | Ran _ status _ => Own true (default EXIT_FAILURE status) err true true true fin
  end.

Definition holding_at (p : progress) : holding :=
  match p with
  | Nothing | OnlyConnector => Holding None false false
  | ChannelOnly fd => Holding (Some fd) false false
  | Ran _ _ signals => Holding None true signals
  end.

(** A program that ran leaves no error, anything else does. *)
Definition error_at (p : progress) (err : option exec_error) : Prop :=
  match p with Ran _ _ _ => err = None | _ => err <> None end.

Lemma xwp_error l a b c d e g h err x (P : unit -> exec_command -> Prop) :
  stands l (Own a b c d e g h) x -> (forall x', stands l (Own a b (Some err) d e g h) x' -> P tt x') ->
  xwp (error_set err) x P.
Proof.
  intros Hx. pose proof Hx as [_ Ho _ Hs _]. unfold own_of in Ho. injection Ho as Ha Hb Hc Hd He Hg Hh.
  eapply xwp_own; [exact Hx|done..| |done|exact Hs]. unfold own_of. simpl. congruence.
Qed.

Lemma wait_server_ok l o rounds deadline x :
  stands l o x -> xwp (wait_server rounds deadline) x (fun _ x' => stands l o x').
Proof.
  revert x. induction rounds as [|rounds IH]; intros x Hx; [done|]. cbn [wait_server].
  apply xwp_bind. eapply xwp_let_owner; [exact Hx|]. intros x1 H1.
  apply xwp_bind. eapply xwp_ask; [exact H1|]. intros [] x2 H2; [done|].
  apply xwp_bind. unfold xwp at 1, xget. destruct (server_finished x2); [done|].
  apply xwp_bind. eapply xwp_ask; [exact H2|]. intros [now|] x3 H3; [|done].
  destruct (deadline <=? now); [done|]. apply xwp_bind. unfold xwp at 1, xset. apply IH. by destruct H3; split.
Qed.

(** The fields after a write, from those before it. *)
Ltac own Hx :=
  let Ho := fresh in
  pose proof (st_own _ _ _ Hx) as Ho; unfold own_of in *; simpl in *; injection Ho; intros; f_equal; congruence.

(** Neither assignment is cut by the buffer. *)
Lemma assignment_whole name n : len name <= 75 -> is_u64 n -> assignment (name ++ decimal n) = name ++ decimal n.
Proof.
  unfold is_u64, assignment. intros Hname Hn. apply ztake_all. pose proof (decimal_fuel_length 20 n 20) as Hd.
  change (10 ^ Z.of_nat 20) with 100000000000000000000 in Hd. unfold len, decimal in *. rewrite length_app. lia.
Qed.

Definition numbers_ok (s : settings) : Prop :=
  is_u64 (Settings.channel_fd s) /\ is_u64 (Settings.channel_connect_timeout_ms s).

Lemma program_environment_ok s l o x :
  numbers_ok s -> stands l o x ->
  xwp (program_environment s) x (fun r x' => stands l o x' /\ (r = None \/ r = Some (overlay s))).
Proof.
  intros [Hfd Hms] Hx. unfold program_environment, channel_fd_text, connect_timeout_text, overlay.
  rewrite !assignment_whole by done.
  apply xwp_bind. eapply xwp_ask; [exact Hx|]. intros [] x1 H1; cbn [negb]; [|by apply xwp_ret; auto].
  apply xwp_bind. eapply xwp_ask; [exact H1|]. intros [] x2 H2; cbn [negb]; [|by apply xwp_ret; auto].
  apply xwp_bind. eapply xwp_ask; [exact H2|]. intros [] x3 H3; apply xwp_ret; auto.
Qed.

(** The errors of [make_channel] are set there, those after it by the caller. *)
Lemma make_channel_ok s code x :
  stands [] (own_at code Nothing None false) x ->
  xwp (make_channel s) x (fun r x' =>
    match r with
    | Some fd => stands [TakeConnector; OpenChannel fd] (own_at code (ChannelOnly fd) None false) x'
    | None => exists p err, stands (opening s [] p) (own_at code p (Some err) false) x' /\ (p = Nothing \/ p = OnlyConnector)
    end).
Proof.
  intros Hx. unfold make_channel. apply xwp_bind. eapply xwp_ask; [exact Hx|]. intros r x1 H1.
  destruct (bool_decide_reflect (r = MAELYS_EGRESS_OK)); cbn [negb].
  2: { apply xwp_bind. eapply xwp_error; [exact H1|]. intros x2 H2. apply xwp_ret. by exists Nothing; eauto. }
  apply xwp_bind. eapply xwp_happens; [exact H1|done|]. intros x2 H2. apply xwp_bind.
  eapply (xwp_own _ _ (own_at code OnlyConnector None false)); [exact H2|done..| |done|apply H2|].
  { own H2. }
  intros x3 H3. apply xwp_bind. eapply xwp_ask; [exact H3|]. intros [r' fd] x4 H4.
  destruct (bool_decide_reflect (r' = MAELYS_EGRESS_OK)); cbn [negb].
  2: { apply xwp_bind. eapply xwp_error; [exact H4|]. intros x5 H5. apply xwp_ret. by exists OnlyConnector; eauto. }
  apply xwp_bind. eapply xwp_happens; [exact H4|done|]. intros x5 H5. apply xwp_bind.
  eapply (xwp_own _ _ (own_at code (ChannelOnly fd) None false)); [exact H5|done..| |done|apply H5|done].
  own H5.
Qed.

Lemma run_program_ok s argv code fd x :
  stands [TakeConnector; OpenChannel fd] (own_at code (ChannelOnly fd) None false) x ->
  xwp (run_program s argv (overlay s) fd) x (fun h x' => exists p err,
    h = holding_at p /\ error_at p err /\ stands (opening s argv p) (own_at code p err false) x').
Proof.
  intros Hx. unfold run_program. apply xwp_bind. eapply xwp_ask; [exact Hx|]. intros [] x1 H1; cbn [negb].
  2: { apply xwp_bind. eapply xwp_error; [exact H1|]. intros x2 H2. apply xwp_ret. by exists (ChannelOnly fd), (Some CannotStart). }
  apply xwp_bind. eapply xwp_happens; [exact H1|done|]. intros x2 H2.
  apply xwp_bind. eapply xwp_let_owner; [exact H2|]. intros x3 H3.
  apply xwp_bind. eapply xwp_happens; [exact H3|done|]. intros x4 H4. apply xwp_bind.
  eapply (xwp_own _ _ (Own true code None true true false false)); [exact H4|done..|own H4|done|done|]. intros x5 H5.
  apply xwp_bind. eapply xwp_let_owner; [exact H5|]. intros x6 H6. apply xwp_bind.
  eapply (xwp_own _ _ (Own true code None true true true false)); [exact H6|done..|own H6|done|intros _; own H6|].
  intros x7 H7. apply xwp_bind. eapply xwp_let_owner; [exact H7|]. intros x8 H8.
  apply xwp_bind. eapply xwp_ask; [exact H8|]. intros signals x9 H9. apply xwp_bind.
  match type of H9 with stands ?l ?o _ =>
    apply (xwp_mono _ _ (fun _ x' => stands (l ++ [if signals then StartSignals else NoSignals]) o x')) end.
  { destruct signals; (eapply xwp_happens; [exact H9|done|done]). }
  intros [] x10 H10. apply xwp_bind. eapply xwp_let_owner; [exact H10|]. intros x11 H11.
  apply xwp_bind. eapply xwp_ask; [exact H11|]. intros status x12 H12.
  apply xwp_bind. eapply xwp_happens; [exact H12|done|]. intros x13 H13. apply xwp_bind.
  eapply (xwp_own _ _ (own_at code (Ran fd status signals) None false)); [exact H13|done..|own H13|done|apply H13|].
  intros x14 H14. apply xwp_ret. by exists (Ran fd status signals), None.
Qed.

(** A launch that ends got somewhere. *)
Lemma launch_ok rounds s argv code x :
  numbers_ok s -> stands [] (own_at code Nothing None false) x ->
  xwp (launch rounds s argv) x (fun h x' => forall h', h = Some h' -> exists p err,
    h' = holding_at p /\ error_at p err /\ stands (opening s argv p) (own_at code p err false) x').
Proof.
  intros Hs Hx. unfold launch. apply xwp_bind. eapply xwp_ask; [exact Hx|]. intros [deadline|] x1 H1.
  2: { apply xwp_bind. eapply xwp_error; [exact H1|]. intros x2 H2. apply xwp_ret. intros ? [= <-].
       by exists Nothing, (Some NoClock). }
  apply xwp_bind. eapply xwp_mono; [by apply wait_server_ok|]. intros [[]|] x2 H2; [| |done].
  2: { apply xwp_bind. eapply xwp_error; [exact H2|]. intros x3 H3. apply xwp_ret. intros ? [= <-].
       by exists Nothing, (Some ServerNotStarted). }
  apply xwp_bind. eapply xwp_mono; [by apply make_channel_ok|]. intros [fd|] x3 H3.
  2: { destruct H3 as (p & err & H3 & Hp). apply xwp_ret. intros ? [= <-]. exists p, (Some err). by destruct Hp as [-> | ->]. }
  apply xwp_bind. eapply xwp_let_owner; [exact H3|]. intros x4 H4.
  apply xwp_bind. eapply xwp_mono; [by apply program_environment_ok|]. intros ? x5 [H5 [-> | ->]].
  - apply xwp_bind. eapply xwp_error; [exact H5|]. intros x6 H6. apply xwp_ret. intros ? [= <-].
    by exists (ChannelOnly fd), (Some NoEnvironment).
  - apply xwp_bind. eapply xwp_mono; [by apply run_program_ok|]. intros h x6 Hh. apply xwp_ret. by intros ? [= <-].
Qed.

Lemma wind_up_ok s argv code p err x :
  stands (opening s argv p) (own_at code p err false) x ->
  xwp (wind_up (holding_at p)) x (fun _ x' => stands (opening s argv p ++ closing p) (own_at code p err true) x').
Proof.
  intros Hx. unfold wind_up. apply xwp_bind. eapply xwp_let_owner; [exact Hx|]. intros x1 H1.
  apply xwp_bind. eapply xwp_when; [exact H1|done|]. intros x2 H2.
  apply xwp_bind. eapply xwp_let_owner; [exact H2|]. intros x3 H3.
  apply (xwp_mono _ _ (fun _ x' => stands ((opening s argv p ++ if h_signals (holding_at p) then [JoinSignals] else []) ++
    [AnnounceStop] ++ [StopServer] ++ (match h_client_fd (holding_at p) with Some fd => [CloseClient fd] | None => [] end) ++
    (if h_program (holding_at p) then [ReleaseProgram] else [])) (own_at code p err true) x')).
  2: { intros _ x'. rewrite <-!app_assoc. by destruct p as [| | |fd st []]. }
  rewrite !app_assoc.
  eapply xwp_announce with (a := o_exec_started (own_at code p err true)) (b := o_exit_code (own_at code p err true))
    (c := o_error (own_at code p err true)) (d := o_connector (own_at code p err true))
    (e := o_channel (own_at code p err true)) (g := o_started (own_at code p err true)) (h := false).
  { by destruct p. }
  intros x4 H4. replace (Own _ _ _ _ _ _ _) with (own_at code p err true) in H4 by by destruct p.
  apply xwp_bind. eapply xwp_let_owner; [exact H4|]. intros x5 H5.
  apply xwp_bind. eapply xwp_happens; [exact H5|done|]. intros x6 H6.
  apply xwp_bind. eapply xwp_let_owner; [exact H6|]. intros x7 H7. apply xwp_bind.
  match type of H7 with stands ?l ?o _ => apply (xwp_mono _ _ (fun _ x' => stands
    (l ++ match h_client_fd (holding_at p) with Some fd => [CloseClient fd] | None => [] end) o x')) end.
  { destruct (h_client_fd _); [by eapply xwp_happens|]. apply xwp_ret. by rewrite app_nil_r. }
  intros [] x8 H8. by eapply xwp_when.
Qed.

(** * Time: the wait for the server ends *)

Context {Xlaws : ExecLaws}.

Definition later (t : Z) (x : exec_command) : Prop := t <= x_now (the_xworld x).

Lemma owner_steps_later n t x : later t x -> xwp (owner_steps n) x (fun _ x' => later t x').
Proof.
  revert x. induction n as [|n IH]; intros x Hx; [done|]. cbn [owner_steps]. apply xwp_bind.
  apply (xwp_mono _ _ (fun _ x' => later t x')); [|intros []; auto].
  unfold owner_step. apply xwp_bind. unfold xwp at 1, xget. destruct (owner x); [|done| |done].
  - apply xwp_bind. unfold xwp, xask, later in *. pose proof (x_onward_run (the_xworld x)).
    destruct (x_server_run _). simpl in *. lia.
  - apply xwp_bind. unfold xwp at 1. apply xwp_bind. by destruct (_ && _).
Qed.

Lemma let_owner_later t x : later t x -> xwp let_owner x (fun _ x' => later t x').
Proof.
  intros Hx. apply xwp_bind. unfold later in *. unfold xwp at 1, xask. pose proof (x_onward_owner (the_xworld x)).
  destruct (x_owner_steps _) as [n w]. apply owner_steps_later. unfold later. simpl in *. lia.
Qed.

(** Each round of the wait takes a pause of ten milliseconds. *)
Lemma wait_server_ends rounds deadline t x :
  later t x -> deadline - t < 10 * (Z.of_nat rounds - 1) + 1 -> (0 < rounds)%nat ->
  xwp (wait_server rounds deadline) x (fun r _ => is_Some r).
Proof using Xlaws.
  revert t x. induction rounds as [|rounds IH]; intros t x Hx Hd Hr; [lia|]. cbn [wait_server].
  apply xwp_bind. eapply xwp_mono; [by apply let_owner_later|]. intros [] x1 H1. apply xwp_bind.
  unfold later in *. unfold xwp at 1, xask. pose proof (x_onward_running (the_xworld x1)).
  destruct (x_server_running _) as [[] w]; simpl in *; [by apply xwp_ret|].
  apply xwp_bind. unfold xwp at 1, xget. destruct (server_finished _); [by apply xwp_ret|].
  apply xwp_bind. unfold xwp at 1, xask. simpl. destruct (x_clock_law w) as [Hc Hnow].
  destruct (x_clock w) as [[now|] w']; simpl in *; [|by apply xwp_ret]. specialize (Hnow now eq_refl).
  destruct (Z.leb_spec deadline now); [by apply xwp_ret|]. apply xwp_bind. unfold xwp at 1, xset.
  apply (IH (t + 10)); simpl; [|lia|lia]. pose proof (x_pause_law w'). lia.
Qed.

Lemma launch_ends rounds s argv x : (501 <= rounds)%nat -> xwp (launch rounds s argv) x (fun h _ => is_Some h).
Proof using Xlaws.
  intros Hr. unfold launch. apply xwp_bind. unfold xwp at 1, xask. pose proof (x_deadline_law 5000 (the_xworld x)) as Hd.
  destruct (x_deadline_after _ _) as [[deadline|] w]; simpl in Hd; [|apply xwp_bind; by eexists].
  specialize (Hd deadline eq_refl). apply xwp_bind. eapply xwp_mono; [apply (wait_server_ends _ _ (x_now w)); [unfold later; simpl; lia|lia|lia]|].
  intros ? x2 [[] ->]; [|apply xwp_bind; by eexists]. apply xwp_bind. unfold xwp at 1. destruct (make_channel s x2) as [[fd|] x3]; [|by apply xwp_ret].
  apply xwp_bind. unfold xwp at 1. destruct (let_owner x3) as [[] x4]. apply xwp_bind. unfold xwp at 1.
  destruct (program_environment s x4) as [[l|] x5]; apply xwp_bind; unfold xwp at 1; [|by eexists].
  destruct (run_program s argv l fd x5). by apply xwp_ret.
Qed.

(** How many steps the owner is from the join. *)
Definition ahead (phase : owner_phase) : nat :=
  match phase with Serving => 3 | Returned _ => 2 | Looked _ _ => 1 | AtJoin _ _ _ => 0 end.

Lemma owner_steps_ahead n x : xwp (owner_steps n) x (fun _ x' => ahead (owner x') = (ahead (owner x) - n)%nat).
Proof using Type.
  revert x. induction n as [|n IH]; intros x; [apply xwp_ret; lia|]. cbn [owner_steps]. apply xwp_bind.
  apply (xwp_mono _ _ (fun _ x' => ahead (owner x') = (ahead (owner x) - 1)%nat)).
  - unfold owner_step. apply xwp_bind. unfold xwp at 1, xget. destruct (owner x) eqn:E; [| | |apply xwp_ret; by rewrite E].
    + apply xwp_bind. unfold xwp, xask. by destruct (x_server_run _).
    + done.
    + apply xwp_bind. unfold xwp at 1. apply xwp_bind. by destruct (_ && _).
  - intros [] x1 E. eapply xwp_mono; [apply IH|]. intros [] x2 E2. rewrite E2, E. lia.
Qed.

(** The result of a command that got to [p]. *)
Definition exec_result (p : progress) (status : Z) (x : exec_command) : Prop :=
  match p with
  | Ran _ wait _ =>
      status = 0 /\ exec_started x = true /\ exec_exit_code x = default EXIT_FAILURE wait /\ error x = None /\
      told (happened x) = (if looked_alone (happened x) then 1 else 0)%nat
  | _ => status = -1 /\ exec_started x = false /\ error x <> None /\ told (happened x) = 0%nat
  end.

Lemma after_join_ok s argv code p err r alone said x :
  error_at p err -> stands (opening s argv p ++ closing p) (own_at code p err true) x -> owner x = AtJoin r alone said ->
  xwp (after_join r alone said) x (fun status x' =>
    core (happened x') = opening s argv p ++ closing p ++ releasing p /\ exec_result p status x').
Proof using Type.
  intros He [Hc Ho _ _ Hp] Eo. rewrite Eo in Hp. destruct Hp as (Ht & Ha & Hsaid). unfold own_of in Ho.
  unfold after_join, xwp, mbind, X_bind, mret, X_ret, xget, happens, xset, error_set.
  destruct p as [| |fd|fd wait sig]; simpl in He, Ho; injection Ho as Es Ecode Ee Econ Ech Est Efin;
    rewrite ?Es, ?Econ, ?Ech, ?Est in *.
  1-3: assert (said = false) as -> by (destruct said; [by destruct (Hsaid eq_refl)|done]).
  1-3: destruct (bool_decide _); repeat (simpl; rewrite ?Ech, ?Econ); unfold core, told in *; simpl; rewrite ?Hc;
    split_and!; try done; by rewrite ?Ee.
  subst alone. destruct said; [destruct (Hsaid eq_refl) as [Ea _]; rewrite Ea|destruct (looked_alone _) eqn:Ea];
    repeat (simpl; rewrite ?Ech, ?Econ); unfold core, told in *; simpl; rewrite ?Hc, ?Ea, ?Ht;
    (split_and!; try done; [by destruct sig|by rewrite ?Ee]).
Qed.

(** The command as the owner sets it up. *)
Definition fresh_command (code : Z) (err : option exec_error) (w : xworld) : exec_command :=
  ExecCommand false code err false false false false false Serving w [].

Lemma coordinator_ok rounds s argv code x :
  numbers_ok s -> (501 <= rounds)%nat -> stands [] (own_at code Nothing None false) x ->
  xwp (exec_command_main rounds s argv) x (fun o x' => o = Some tt /\ exists p err,
    error_at p err /\ stands (opening s argv p ++ closing p) (own_at code p err true) x').
Proof using Xlaws.
  intros Hs Hr Hx. apply xwp_bind. eapply xwp_mono; [apply xwp_and; [by apply launch_ends|by apply launch_ok]|].
  intros ? x1 [[h ->] Hh]. destruct (Hh h eq_refl) as (p & err & -> & He & H1).
  apply xwp_bind. eapply xwp_mono; [by apply wind_up_ok|]. intros [] x2 H2. apply xwp_ret. split; [done|]. by exists p, err.
Qed.

(** C28: however its threads interleave, [channel exec] ends, and did its work in
    one order.  The program got the channel's client end at the configured
    descriptor, and the two assignments that say where it is and how long a
    connect may take; the launcher closes its own copy of the client end exactly
    once, whether or not the program was started.  The server is asked to stop on
    every path, and the channel and the connector are released after that by the
    owner, each if and only if it was made.  When the program ran the command
    ends with its exit code and no error, otherwise with an error; and the
    operator is told that the server stopped by itself exactly once if it did
    while the program ran, and never otherwise. *)
Theorem channel_exec_exact rounds s argv code err w :
  numbers_ok s -> (501 <= rounds)%nat ->
  exists status x', egress_cli_exec_run rounds s argv (fresh_command code err w) = (Some status, x') /\
    (happened x' = [] /\ status = -1 /\ error x' = Some NoCoordinator \/
     exists p, core (happened x') = opening s argv p ++ closing p ++ releasing p /\ exec_result p status x').
Proof using Xlaws.
  intros Hs Hr.
  assert (W : xwp (egress_cli_exec_run rounds s argv) (fresh_command code err w) (fun o x' => exists status, o = Some status /\
    (happened x' = [] /\ status = -1 /\ error x' = Some NoCoordinator \/
     exists p, core (happened x') = opening s argv p ++ closing p ++ releasing p /\ exec_result p status x'))).
  { unfold egress_cli_exec_run. apply xwp_bind. unfold xwp at 1, xset. apply xwp_bind.
    unfold xwp at 1, xask. destruct (x_thread_create _) as [[] w']; cbn [negb].
    - apply xwp_bind. eapply xwp_mono; [apply (coordinator_ok _ _ _ code); [done|done|by split]|].
      intros ? x1 (-> & p & e & He & H1). apply xwp_bind.
      eapply xwp_mono; [apply xwp_and; [by apply owner_steps_ok|apply owner_steps_ahead]|]. intros [] x2 [H2 Ha].
      apply xwp_bind. unfold xwp at 1, xget. destruct (owner x2) as [| | |r alone said] eqn:Eo.
      1-3: exfalso; simpl in Ha; destruct (owner x1); simpl in Ha; lia.
      apply xwp_bind. eapply xwp_mono; [by eapply after_join_ok|]. intros status x3 H3. apply xwp_ret. exists status. split; [done|]. right. by exists p.
    - apply xwp_bind. apply xwp_ret. by eexists; auto. }
  unfold xwp in W. destruct (egress_cli_exec_run _ _ _ _) as [o x']. destruct W as (status & -> & W). by exists status, x'.
Qed.

End Exec.

(** A world that is its time: the server runs after twenty milliseconds and stops
    by itself once the signal waiter was started. *)
#[local] Instance example_exec : ExecSys := {|
  xworld := Z;
  x_deadline_after n w := (Some (w + n), w);
  x_clock w := (Some w, w);
  x_pause w := w + 10;
  x_server_running w := (20 <=? w, w);
  x_server_run w := (MAELYS_EGRESS_ERR_IO, w);
  x_connector_create w := (MAELYS_EGRESS_OK, w);
  x_channel_create _ w := ((MAELYS_EGRESS_OK, 7), w);
  x_environment_append _ w := (true, w);
  x_envp _ w := (true, w);
  x_process_start _ _ _ _ _ w := (true, w);
  x_thread_create w := (true, w + 1);
  x_process_wait w := (Some 3, w);
  x_owner_steps w := (if 22 <=? w then 3%nat else 0%nat, w);
|}.

#[local] Instance example_exec_laws : @ExecLaws example_exec.
Proof.
  refine (@Build_ExecLaws example_exec (fun w => w) _ _ _ _ _ _); simpl; intros; try lia.
  - split; [lia|]. intros t [= <-]. lia.
  - injection H as <-. lia.
Defined.

Definition example_exec_settings : settings :=
  initial_settings <| Settings.channel_fd := 3 |> <| Settings.channel_connect_timeout_ms := 5000 |>.

Lemma example_numbers : numbers_ok example_exec_settings.
Proof. by vm_compute. Qed.

(** The program's status, after a word to the operator. *)
Example example_exec_run :
  let '(status, x) := egress_cli_exec_run 1 501 example_exec_settings [str "probe"] (fresh_command 0 None (0 : @xworld example_exec)) in
  status = Some 0 /\ exec_exit_code x = 3 /\
  rev (happened x) =
  [TakeConnector; OpenChannel 7;
   StartProgram [str "probe"] [str "MAELYS_EGRESS_CHANNEL_FD=3"; str "MAELYS_EGRESS_CHANNEL_CONNECT_TIMEOUT_MS=5000"] 7 3 false;
   CloseClient 7; StartSignals; OwnerLooks; TellOperator; EndProgram (Some 3); JoinSignals; AnnounceStop; StopServer;
   ReleaseProgram; DestroyChannel; ReleaseConnector].
Proof. vm_compute. done. Qed.

Lemma channel_exec_exact_witness :
  exists status x', egress_cli_exec_run 1 501 example_exec_settings [str "probe"]
      (fresh_command 0 None (0 : @xworld example_exec)) = (Some status, x') /\
    (happened x' = [] /\ status = -1 /\ error x' = Some NoCoordinator \/
     exists p, core (happened x') = opening example_exec_settings [str "probe"] p ++ closing p ++ releasing p /\
       exec_result 1 p status x').
Proof. exact (channel_exec_exact 1 501 example_exec_settings [str "probe"] 0 None 0 example_numbers (le_n 501)). Defined.
